(* ===== verification/_CoqProject ===== *)
-Q . S2P
Cgfried.v
Prelude.v
MapSpec.v
Strmap.v
Intern.v
Ptrmap.v
Sort.v
Dlev.v
Warn.v
WarnFacts.v
WarnPragma.v
WarnOptions.v
Scope.v
Int128.v
Bigint.v
Softfp.v
SoftfpRound.v
SoftfpArith.v
SoftfpConv.v
SoftfpDec.v
SoftfpBits.v
SoftfpCanon.v
Fp128.v
Pptok.v
Numlit.v
FloatLit.v
Ppexpr.v
PpexprSpec.v
PpexprParse.v
Ir.v
Fold.v
IrSem.v
FoldFacts.v
FoldCorrect.v
Renumber.v
Simplify.v
IrValues.v
SimplifyUndef.v
SimplifyArith.v
SimplifyRules.v
SimplifySound.v
SimplifyPass.v
SimplifyTotal.v
SimplifyFunc.v
RenumberFacts.v
IrExec.v
RenumberExec.v
Dom.v
DomDfs.v
DomTree.v
DomFacts.v
Dce.v
DceExec.v
Unreachable.v
IrFlow.v
IrTotal.v
Sccp.v
SccpIndex.v
SccpDuty.v
SccpAnalysis.v
SccpValues.v
SccpSound.v
SccpFunc.v
Verify.v
VerifySpec.v
VerifyFacts.v
VerifySound.v
Ctype.v
Layout.v
LayoutFacts.v
LayoutMemo.v
LayoutTotal.v
LayoutSound.v
Compat.v
CompatFacts.v
CompatSound.v
Conv.v
ConvExpr.v
ConvAssign.v
ConvSound.v
