(* ===== verification/Cgfried.v ===== *)
(** * Verification of the Cgfried C compiler

    Cgfried is a C compiler written in C: a preprocessor ([src/pp]), a lexer
    ([src/lex]), a parser ([src/parse]), semantic analysis ([src/sema]),
    lowering ([src/lower]) to a typed SSA intermediate representation
    ([src/ir]), optimization passes over it ([src/opt]), and code generation
    for x86-64 and arm64 ([src/cg]), with a runtime library ([src/rt]) and
    shared utilities ([src/util]). Source paths below are relative to
    [src/src]. This library models parts of it function by function and proves
    what each of them promises. The root file only documents.

    ** Conventions

    - An unsigned C integer is a [Z] and every wrap-around is written out with
      the operators of [Prelude] ([+64], [<<64], [u32], ...). Sizes and indexes
      that cannot overflow are [nat].
    - A loop is a [Fixpoint] on its list, or takes fuel; the fuel is never a
      hypothesis: a theorem shows the bound passed by the definition is enough,
      so the theorem speaks of the result the code returns.
    - [None] stands for an internal compiler error ([CGF_ICE]) or an access
      out of bounds. Theorems show it does not occur, or, for the verifier, on
      which input it may.
    - An array is a list, a table indexed by value id a [gmap] or a list.
      Pointers between structures become ids; where the code shares a mutable
      object the file says how the sharing is kept.
    - A file that translates code ends with its facts or is followed by the
      files that prove; the definitions keep the names of the C functions.

    ** Containers and utilities

    - [MapSpec]: the class [MapLaws], a finite map behind an invariant, that the
      hash maps implement and their clients are proved against; and linear
      probing, what the two maps share.
    - [Strmap]: [util/strmap.c], with its iteration order, which
      decides the order of the compiler's output. [Ptrmap]:
      [util/ptrmap.c]. Both instantiate [MapLaws]; the fuel of a probe is the
      number of slots, and the load factor leaves one empty.
    - [Intern]: [util/intern.c], over the string map's laws.
    - [Sort]: [util/sort.c], a stable merge sort.
    - [Dlev]: [util/dlev.c] against alignments (optimal string alignment, not
      the Damerau-Levenshtein distance [util/dlev.h] names), and what that says
      of sequences of edits.

    ** Numbers

    - [Int128]: [rt/int128.c], the 128-bit integer runtime on limb pairs.
      Division, remainder and multiplication are those of the integers, with
      the wrapping quotient and the zero divisor included.
    - [Bigint]: [util/bigint.c], the 768-word unsigned bignum. Every operation
      computes on the value the used words denote or sets the overflow mark;
      [bigint_divide_bits] is wrong for a divisor that fills the array, which
      is proved as such.
    - [Softfp]: [util/softfp.c], compile-time floating point in the five
      formats. [SoftfpRound] specifies IEEE rounding on rationals and proves
      [round_pack]; [SoftfpArith] the arithmetic, [SoftfpConv] comparison and
      integer conversions; products and quotients are those of IEEE except for
      the sign of some that underflow to zero, and [underflows] says which.
      [SoftfpDec] has the decimal and hexadecimal sources,
      [SoftfpBits] and [SoftfpCanon] the bit images and their round trips.
      Two defects are theorems: an underflowing negative product loses its
      sign, and a literal like 1e-15000 becomes infinity.
    - [Fp128]: [rt/fp128.c], the binary128 runtime on the byte images that
      cross the ABI, on top of [Softfp].

    ** Constants and conditions

    - [Pptok]: tokens and options of [pp/pp.h], [lex/lex.h] and [target.h], and
      the log of diagnostics. A diagnostic call appends to the log; [Warn] is the
      policy that turns a call into output.
    - [Numlit]: the integer constants of [lex/numlit.c], with the type ladder.
      [FloatLit]: the floating constants of [lex/numlit.c] and their value in
      [sema/constexpr.c], through [Softfp].
    - [Ppexpr]: the [#if] evaluator [pp/ppexpr.c], a recursive descent in a
      state monad with the token cursor. Macro expansion, the macro table,
      header search and assertions are parameters. The fuel (the number of
      tokens) is shown to suffice; [PpexprSpec] gives the grammar and
      the arithmetic as a specification, [PpexprParse] proves the evaluator
      equivalent to it, errors included.

    ** Warnings and scopes

    - [Warn]: [warn/warn.c], the registry of [warn/warnings.def], the reading of
      warning options, the pragma log and the class of an occurrence.
      [WarnFacts] reduces an option to the requests it makes of each warning and
      proves that the strongest decides; [WarnPragma] proves the
      log a stack of assignments and that no analysis is skipped that could
      report; [WarnOptions] compares the two readers of an option.
    - [Scope]: [sema/scope.c], the scope chain as arena objects with intrusive
      lists and pointer maps. It is proved to refine a stack of
      declaration lists, lookups and diagnostics included, through [MapLaws] and
      the totality of the warning policy.

    ** Intermediate representation and passes

    - [Ir]: the data of [ir/ir.h], constructors and queries of [ir/ir.c] and
      the type discipline of [ir/verify.c]. [IrSem] is the specification: the
      set of bit patterns an instruction may give, [undef] read afresh at each
      use, operations with undefined results giving any pattern. Floating-point
      results are those of IEEE on an [FpTarget], which chooses NaN patterns and
      may not tell the zeros apart; fast-math options are licences a target
      grants ([licensed]).
    - [Dom]: the dominator tree [ir/dom.c]. [DomDfs] proves the depth-first
      search (the fuel is edges plus blocks) lists the reachable blocks in
      postorder; [DomTree] that the iteration over the parent table, whose
      updates change the ancestors of other blocks at once, moves parents up
      only and so ends within the square of the number of blocks, in the
      dominator tree; [DomFacts] states it for the two queries.
    - [Fold]: the first half of [opt/simplify.c], the folding of one
      instruction, also used by constant propagation. [FoldFacts] and
      [FoldCorrect] prove that the operand returned denotes only values the
      instruction may give, and that no floating-point exception is lost in
      strict mode, on targets that grant the licences of the options; a zero
      extension of a constant wider than its type is folded wrongly, by example.
    - [Renumber]: [ir_func_renumber] of [ir/ir.c]. [RenumberFacts]: the result
      is numbered in document order, means the same, and is a fixed point.
    - [Simplify]: the second half of [opt/simplify.c], the rewrite rules and
      the pass over a function. [SimplifyUndef] proves the analysis of
      undefined values exact and sound along executions; [SimplifyArith],
      [SimplifyRules] and [SimplifySound] prove each rule; [SimplifyPass],
      [SimplifyTotal] and [SimplifyFunc] prove that the pass returns, refines
      the function and leaves no dangling use.

    - [IrValues]: definitions, uses and SSA form. [IrExec]: executions, as a
      step relation over any [Machine] that gives memory, calls and addresses a
      meaning; two functions are equivalent when they return the same values in
      the same worlds and pass through the same worlds. [RenumberExec] proves
      renumbering an equivalence in this sense.
    - [Dce]: [opt/dce.c], dead-code elimination, and that the
      marking ends within one pop per value and marks exactly the needed
      values; [DceExec] proves that the pass is an equivalence of executions.
    - [Unreachable]: [ir_func_remove_unreachable] of [ir/ir.c]:
      the fuel, one pop per block, is enough, exactly the
      blocks the entry reaches are kept, and the function executes alike.
    - [IrFlow]: along an execution, the values assigned so far include every
      operand of the next instruction when definitions dominate uses.
      [IrTotal]: a well-typed scalar instruction always has a value.
    - [Sccp]: [opt/sccp.c], sparse conditional constant propagation, with its
      tables, its three queues and the rewriting. [SccpIndex] describes the
      tables, [SccpDuty] what a change of the state obliges the queues to hold,
      [SccpAnalysis] proves that the queues run empty within their arrays (an
      edge and a block enter once, a value twice: that is the fuel) with a
      solution of the equations. [SccpValues] relates the constants found to
      executions, on machines that do not look at where an operand comes from
      and grant the licences of the options ([lawful]); [SccpSound] and [SccpFunc] prove that the rewritten, pruned
      and renumbered function does only what the function may do and is stuck
      only where it was. These theorems take a function of the verified form
      ([verified_func]) and assume that its integer constants are reduced to the
      width of their type if it has a zero extension, a selection or a branch
      on a value ([constants_reduced]), which neither [ir_op_iconst] nor the
      verifier ensures.
    - [Verify]: [ir/verify.c], all its checks, as the list of the numbers of
      the checks that report; a read outside an array is [None]. [VerifySpec]
      says without the code what is asked of an instruction and of parameters:
      a typing judgement, and rules on flags, alignments, operands and calls,
      each equivalent to the silence of its check. [VerifyFacts] proves that
      silence is equivalent to well-formedness by these rules and by paths, and
      that there is an answer when the operands and parameters the checks read
      are present; [VerifySound] that silence about what the builder makes gives
      [verified_func] and executions that never go wrong, and that renumbering
      makes the value table the verifier trusts right. It also holds the
      examples on which those theorems are run.

    What the simplifier theorems assume: an environment that satisfies the
    equations of the function (they are about environments, not executions); a
    rank in which every value operation is above its operands, which dominance
    gives; the verifier's type discipline; no no-NaNs licence, under which
    results may differ on NaN; and, when the function has a zero extension or a
    select, that integer constants are reduced to the width of their type, which
    [ir_op_iconst] does not ensure.

    ** Types of semantic analysis

    - [Ctype]: [Type], [Member] and [TagDecl] of [sema/sema.h] with the
      predicates of [sema/types.c], and the target table. A type is a tree down
      to its tags; tags live in a store that the functions thread, since layout
      memoizes in them.
    - [Layout]: [sema/layout.c] up to the classification of arguments.
      [LayoutFacts] follows the saturating cursor by one that counts bits in
      the integers; [LayoutMemo] proves the memo invisible; [LayoutTotal] that
      the fuel passed by [layout_of], four times the size of the store plus the
      size of the type, is enough and that no alignment is zero; [LayoutSound]
      states the exact placement, the geometry and the contract of [layout_of].
      The theorems assume a store without by-value cycles whose overrides are
      powers of two and whose memos were written by layout itself ([sane]),
      which the code keeps.
    - [Compat]: compatible and composite types, [sema/types.c]. The recursion is
      on fuel, because it can follow a transparent union back to its start:
      [CompatFacts] proves that types of finite depth are decided within the sum
      of their depths and that a composite is compatible with both its parts,
      [CompatSound] states it and exhibits the comparison that never returns.
      Pointer equality is an oracle that identifies only equal types.

    - [Conv]: the arithmetic conversions of [sema/conv.c] on types, and the
      ranges of values they keep; the common type of two integers holds every
      value of both unless it is a forced unsigned type, and that of floating
      operands the values of those that are floating.
    - [ConvExpr]: casts, decay, null pointer constants and assignment of
      [sema/conv.c], on what these functions see of an expression, with a log of
      diagnostics; whether an expression folds to zero is a parameter.
      [ConvExpr] and [ConvAssign] prove the cases, [ConvSound] that an
      assignment is silent exactly when the constraint of 6.5.16.1 holds, apart
      from a null pointer constant [(void * ) 0] assigned to a pointer to
      function, which is warned of. Vectors and transparent unions, which the
      standard does not know, are left out of that equivalence.

    ** Not modelled

    What the front end does to a syntax tree (the parser, declarations,
    expressions, lowering, the memory-safety analysis): it has no specification
    short of a semantics of C. The passes over memory and loops: an execution
    has an abstract world only, so they would need a memory model. The code
    generators: they would need the semantics of two machines. Macro expansion
    and the character-level lexers, the interprocedural passes, the builder and
    the textual form of the IR, and the snapshots by which the verifier follows
    volatile accesses through the inliner, where instructions are compared by
    address. The file-system and process side ([driver],
    [rt/cgf_safe_alloc.c]), the rendering of diagnostics, the flow and format
    warnings that walk the IR and the syntax tree, and buffers are input, output,
    raw memory or need the semantics above. PROJECT.json lists each with the reason. *)
From Stdlib Require Import ZArith.
