(* ===== verification/Prelude.v ===== *)
(** The shared prelude: C's fixed-width unsigned integers as [Z] with their
    wrap-around, the loop combinators the components are written with and
    their invariant rules, and the arithmetic, bit and list lemmas several
    components use. *)
From stdpp Require Export base list numbers.
From Stdlib Require Export ZArith Lia Bool.
#[global] Open Scope Z_scope.

(** ** Fixed-width unsigned integers

    A [uint64_t] is a [Z] in [0 .. 2^64 - 1]; every operation that can wrap
    reduces its result explicitly, the way C reduces it. *)
Definition u128 (x : Z) : Z := x mod 2 ^ 128.
Definition u64 (x : Z) : Z := x mod 2 ^ 64.
Definition u32 (x : Z) : Z := x mod 2 ^ 32.
Definition u8 (x : Z) : Z := x mod 2 ^ 8.

Definition is_u64 (x : Z) : Prop := 0 <= x < 2 ^ 64.
Definition is_u32 (x : Z) : Prop := 0 <= x < 2 ^ 32.

(** Reading a 64-bit pattern as a two's complement [int64_t]. *)
Definition i64 (x : Z) : Z := if u64 x <? 2 ^ 63 then u64 x else u64 x - 2 ^ 64.

Declare Scope word_scope.
Delimit Scope word_scope with word.
Notation "a +64 b" := (u64 (a + b)) (at level 50, left associativity) : word_scope.
Notation "a -64 b" := (u64 (a - b)) (at level 50, left associativity) : word_scope.
Notation "a *64 b" := (u64 (a * b)) (at level 40, left associativity) : word_scope.
Notation "a <<64 n" := (u64 (Z.shiftl a n)) (at level 40, left associativity) : word_scope.
Notation "a >>64 n" := (Z.shiftr a n) (at level 40, left associativity) : word_scope.
Notation "~64 a" := (u64 (Z.lnot a)) (at level 30, right associativity) : word_scope.
Notation "a |64 b" := (Z.lor a b) (at level 51, left associativity) : word_scope.
Notation "a &64 b" := (Z.land a b) (at level 51, left associativity) : word_scope.
#[global] Open Scope word_scope.

Definition b2z (b : bool) : Z := if b then 1 else 0.

(** C's [?:] on three-way comparison results. *)
Definition cmp3 (c : comparison) : Z :=
  match c with Lt => -1 | Eq => 0 | Gt => 1 end.

Lemma cmp3_ge a b : (0 <=? cmp3 (a ?= b)) = (b <=? a).
Proof. destruct (Z.compare_spec a b), (Z.leb_spec b a); done || lia. Qed.

(** ** Loops

    [for_up n i body s] runs [body] for the [n] consecutive indices from [i];
    [for_down n body s] runs it for [n-1], ..., [0]; [while] runs while the
    condition holds, at most [fuel] times. *)
Fixpoint for_up {S} (n i : nat) (body : nat -> S -> S) (s : S) : S :=
  match n with
  | O => s
  | Datatypes.S n' => for_up n' (Datatypes.S i) body (body i s)
  end.

Fixpoint for_down {S} (n : nat) (body : nat -> S -> S) (s : S) : S :=
  match n with
  | O => s
  | Datatypes.S n' => for_down n' body (body n' s)
  end.

Fixpoint while {S} (fuel : nat) (cond : S -> bool) (body : S -> S) (s : S) : S :=
  match fuel with
  | O => s
  | Datatypes.S fuel' => if cond s then while fuel' cond body (body s) else s
  end.

Section loop_rules.
  Context {S : Type}.

Lemma for_up_inv (P : nat -> S -> Prop) body n i s :
    P i s ->
    (forall j s, (i <= j < i + n)%nat -> P j s -> P (Datatypes.S j) (body j s)) ->
    P (i + n)%nat (for_up n i body s).
  Proof.
    revert i s. induction n as [|n IH]; intros i s H0 Hs; simpl.
    - by rewrite Nat.add_0_r.
    - replace (i + Datatypes.S n)%nat with (Datatypes.S i + n)%nat by lia.
      apply IH; [apply Hs; [lia|done]|]. intros j s' Hj. apply Hs. lia.
  Qed.

Lemma for_down_inv (P : nat -> S -> Prop) body n s :
    P n s ->
    (forall j s, (j < n)%nat -> P (Datatypes.S j) s -> P j (body j s)) ->
    P 0%nat (for_down n body s).
  Proof.
    revert s. induction n as [|n IH]; intros s H0 Hs; simpl; [done|].
    apply IH; [apply Hs; [lia|done]|]. intros j s' Hj. apply Hs. lia.
  Qed.

  (** A loop whose measure is bounded by the fuel ends because its condition
      is false, and the invariant holds there. *)
Lemma while_inv (P : S -> Prop) (m : S -> nat) cond body fuel s :
    P s -> (m s <= fuel)%nat ->
    (forall s, P s -> cond s = true -> P (body s) /\ (m (body s) < m s)%nat) ->
    P (while fuel cond body s) /\ cond (while fuel cond body s) = false.
  Proof.
    intros H0 Hm Hs. revert s H0 Hm.
    induction fuel as [|fuel IH]; intros s H0 Hm; simpl.
    - split; [done|]. destruct (cond s) eqn:E; [|done].
      destruct (Hs s H0 E). lia.
    - destruct (cond s) eqn:E; [|done].
      destruct (Hs s H0 E). apply IH; [done|lia].
  Qed.
End loop_rules.

Lemma for_up_ext {S} n i (body body' : nat -> S -> S) s :
  (forall j s, (i <= j < i + n)%nat -> body j s = body' j s) ->
  for_up n i body s = for_up n i body' s.
Proof.
  revert i s. induction n as [|n IH]; intros i s H; simpl; [done|].
  rewrite H by lia. apply IH. intros j s' Hj. apply H. lia.
Qed.

Lemma for_up_S {S} n i (body : nat -> S -> S) s :
  for_up (Datatypes.S n) i body s = for_up n (Datatypes.S i) body (body i s).
Proof. done. Qed.

(** ** Words *)
Lemma u64_range x : is_u64 (u64 x).
Proof. unfold is_u64, u64. by apply Z.mod_pos_bound. Qed.
Lemma u32_range x : is_u32 (u32 x).
Proof. unfold is_u32, u32. by apply Z.mod_pos_bound. Qed.
Lemma u64_small x : is_u64 x -> u64 x = x.
Proof. apply Z.mod_small. Qed.
Lemma u32_small x : is_u32 x -> u32 x = x.
Proof. apply Z.mod_small. Qed.
Lemma u128_small x : 0 <= x < 2 ^ 128 -> u128 x = x.
Proof. apply Z.mod_small. Qed.

Lemma pow2_pos n : 0 <= n -> 0 < 2 ^ n.
Proof. intros. apply Z.pow_pos_nonneg; lia. Qed.

Lemma pow2_split n m : 0 <= n -> 0 <= m -> 2 ^ (n + m) = 2 ^ n * 2 ^ m.
Proof. intros. by apply Z.pow_add_r. Qed.

Lemma pow2_sub n m : 0 <= m <= n -> 2 ^ n = 2 ^ (n - m) * 2 ^ m.
Proof. intros. rewrite <- Z.pow_add_r by lia. f_equal. lia. Qed.

Lemma pow2_128 b : 0 <= b <= 64 -> 2 ^ 128 = 2 ^ (64 - b) * 2 ^ 64 * 2 ^ b.
Proof. intros. rewrite <- !Z.pow_add_r by lia. f_equal. lia. Qed.

Lemma pow2_le n m : n <= m -> 2 ^ n <= 2 ^ m.
Proof. intros. apply Z.pow_le_mono_r; lia. Qed.

Lemma pow2_lt n m : 0 <= m -> n < m -> 2 ^ n < 2 ^ m.
Proof. intros. apply Z.pow_lt_mono_r; lia. Qed.

(** Disjoint [|] is addition: the identity behind every two-limb shift. *)
Lemma lor_shiftl_add a b n :
  0 <= n -> 0 <= a < 2 ^ n -> Z.lor (Z.shiftl b n) a = b * 2 ^ n + a.
Proof.
  intros Hn Ha. rewrite <- Z.shiftl_mul_pow2 by done.
  symmetry. apply Z.add_nocarry_lor.
  apply Z.bits_inj'. intros i Hi. rewrite Z.land_spec, Z.bits_0.
  destruct (Z.lt_ge_cases i n).
  - rewrite Z.shiftl_spec_low by lia. done.
  - replace a with (a mod 2 ^ n) by (apply Z.mod_small; lia).
    rewrite Z.mod_pow2_bits_high by lia. apply andb_false_r.
Qed.

Lemma lor_add_disjoint a b n :
  0 <= n -> 0 <= a < 2 ^ n -> b mod 2 ^ n = 0 -> Z.lor b a = b + a.
Proof.
  intros Hn Ha Hb. pose proof (pow2_pos n Hn).
  rewrite (Z.div_mod b (2 ^ n)), Hb, Z.add_0_r, (Z.mul_comm (2 ^ n)) by lia.
  rewrite <- Z.shiftl_mul_pow2 by done. rewrite lor_shiftl_add by done.
  by rewrite Z.shiftl_mul_pow2.
Qed.

Lemma land_ones_mod a n : 0 <= n -> Z.land a (2 ^ n - 1) = a mod 2 ^ n.
Proof. intros. rewrite <- Z.land_ones by done. by rewrite Z.ones_equiv, <- Z.sub_1_r. Qed.

Lemma land_1_mod a : Z.land a 1 = a mod 2.
Proof. change 1 with (2 ^ 1 - 1). by rewrite land_ones_mod. Qed.

Lemma lor_1_even a : a mod 2 = 0 -> Z.lor a 1 = a + 1.
Proof. intros. apply (lor_add_disjoint 1 a 1); [lia|lia|done]. Qed.

Lemma shiftr_div a n : 0 <= n -> Z.shiftr a n = a / 2 ^ n.
Proof. apply Z.shiftr_div_pow2. Qed.

Lemma lnot_u64 a : is_u64 a -> ~64 a = 2 ^ 64 - 1 - a.
Proof.
  unfold is_u64, u64. intros. unfold Z.lnot, Z.pred.
  symmetry. apply (Z.mod_unique _ _ (-1)); lia.
Qed.

(** [(b << n)] on 64 bits drops exactly the bits [b >> (64-n)]. *)
Lemma shl64_split b n :
  0 <= n <= 64 -> b * 2 ^ n = (b >>64 (64 - n)) * 2 ^ 64 + (b <<64 n).
Proof.
  intros Hn. unfold u64. rewrite shiftr_div, Z.shiftl_mul_pow2 by lia.
  rewrite (pow2_sub 64 n) by lia. pose proof (pow2_pos n). pose proof (pow2_pos (64 - n)).
  rewrite Z.mul_mod_distr_r by lia.
  rewrite (Z.div_mod b (2 ^ (64 - n))) at 1 by lia. ring.
Qed.

Lemma shl64_divisible b n : 0 <= n <= 64 -> (b <<64 n) mod 2 ^ n = 0.
Proof.
  intros Hn. unfold u64. rewrite Z.shiftl_mul_pow2, (pow2_sub 64 n) by lia.
  pose proof (pow2_pos n). pose proof (pow2_pos (64 - n)).
  rewrite Z.mul_mod_distr_r by lia. apply Z.mod_mul. lia.
Qed.

Lemma mul_add_lt q m k a : q * k < m * k -> 0 <= a < k -> q * k + a < m * k.
Proof. intros. assert (q < m) by (apply (Z.mul_lt_mono_pos_r k); lia). nia. Qed.

(** ... and leaves room below for an [n]-bit field. *)
Lemma shl64_plus_lt b n a : 0 <= n <= 64 -> 0 <= a < 2 ^ n -> (b <<64 n) + a < 2 ^ 64.
Proof.
  intros Hn Ha. pose proof (shl64_divisible b n Hn) as Hd.
  pose proof (u64_range (Z.shiftl b n)) as [_ Hu].
  pose proof (pow2_sub 64 n Hn) as E64. rewrite E64 in Hu |- *.
  assert (0 < 2 ^ n) by (apply pow2_pos; lia).
  apply Z.mod_divide in Hd; [|lia]. destruct Hd as [q Hq]. rewrite Hq in Hu |- *.
  by apply mul_add_lt.
Qed.

Lemma shr64_range b n : 0 <= n <= 64 -> is_u64 b -> 0 <= b >>64 n < 2 ^ (64 - n).
Proof.
  intros Hn [? Hb]. rewrite shiftr_div by lia. pose proof (pow2_pos n).
  split; [apply Z.div_pos; lia|]. apply Z.div_lt_upper_bound; [lia|].
  rewrite <- Z.pow_add_r by lia. by replace (n + (64 - n)) with 64 by lia.
Qed.

(** The low limb of a two-limb left shift: [(b << n) | (a >> (64-n))]. *)
Lemma shl_carry_in b a n :
  0 <= n <= 64 -> is_u64 a ->
  Z.lor (b <<64 n) (a >>64 (64 - n)) = (b <<64 n) + (a >>64 (64 - n)).
Proof.
  intros. apply lor_add_disjoint with n; [lia| |by apply shl64_divisible].
  pose proof (shr64_range a (64 - n)). replace (64 - (64 - n)) with n in * by lia.
  auto with lia.
Qed.

(** Bitwise operations stay within the word. *)
Lemma bits_bound n x :
  0 <= n -> 0 <= x -> (forall i, n <= i -> Z.testbit x i = false) -> 0 <= x < 2 ^ n.
Proof.
  intros Hn Hx Hb. assert (x mod 2 ^ n = x) as <-.
  - apply Z.bits_inj'. intros i Hi. destruct (Z.lt_ge_cases i n).
    + by rewrite Z.mod_pow2_bits_low.
    + rewrite Z.mod_pow2_bits_high by lia. by rewrite Hb.
  - apply Z.mod_pos_bound. by apply pow2_pos.
Qed.

Lemma testbit_high n x i : 0 <= x < 2 ^ n -> 0 <= n <= i -> Z.testbit x i = false.
Proof.
  intros Hx Hn. rewrite <- (Z.mod_small x (2 ^ n)) by done.
  by apply Z.mod_pow2_bits_high.
Qed.

Lemma lor_bound n a b :
  0 <= n -> 0 <= a < 2 ^ n -> 0 <= b < 2 ^ n -> 0 <= Z.lor a b < 2 ^ n.
Proof.
  intros. apply bits_bound; [done|apply Z.lor_nonneg; lia|].
  intros i Hi. rewrite Z.lor_spec, !(testbit_high n) by lia. done.
Qed.

Lemma lxor_bound n a b :
  0 <= n -> 0 <= a < 2 ^ n -> 0 <= b < 2 ^ n -> 0 <= Z.lxor a b < 2 ^ n.
Proof.
  intros. apply bits_bound; [done|apply Z.lxor_nonneg; lia|].
  intros i Hi. rewrite Z.lxor_spec, !(testbit_high n) by lia. done.
Qed.

Lemma land_bound n a b :
  0 <= n -> 0 <= a < 2 ^ n -> 0 <= b -> 0 <= Z.land a b < 2 ^ n.
Proof.
  intros. apply bits_bound; [done|apply Z.land_nonneg; lia|].
  intros i Hi. rewrite Z.land_spec, (testbit_high n) by lia. done.
Qed.

Lemma shr64_u64 a n : 0 <= n -> is_u64 a -> is_u64 (a >>64 n).
Proof.
  intros Hn [? ?]. unfold is_u64. rewrite shiftr_div by done. pose proof (pow2_pos n Hn).
  split; [apply Z.div_pos; lia|]. apply Z.div_lt_upper_bound; [lia|nia].
Qed.

Lemma div_u64 a b : is_u64 a -> 0 < b -> is_u64 (a / b).
Proof.
  intros [? ?] Hb. split; [apply Z.div_pos; lia|].
  apply Z.div_lt_upper_bound; [lia|nia].
Qed.

Lemma lor_u64 a b : is_u64 a -> is_u64 b -> is_u64 (Z.lor a b).
Proof. apply lor_bound. lia. Qed.
Lemma lxor_u64 a b : is_u64 a -> is_u64 b -> is_u64 (Z.lxor a b).
Proof. apply lxor_bound. lia. Qed.
Lemma land_u64 a b : is_u64 a -> 0 <= b -> is_u64 (Z.land a b).
Proof. apply land_bound. lia. Qed.

Lemma top_bit a : is_u64 a -> a >>64 63 = b2z (2 ^ 63 <=? a).
Proof.
  intros [? ?]. rewrite shiftr_div by lia. unfold b2z. case_match; rewrite ?Z.leb_le, ?Z.leb_gt in *.
  - symmetry. apply Z.div_unique with (a - 2 ^ 63); lia.
  - apply Z.div_small. lia.
Qed.

Lemma land_pow2 a n : 0 <= n -> Z.land a (2 ^ n) = if Z.testbit a n then 2 ^ n else 0.
Proof.
  intros Hn. apply Z.bits_inj'. intros i Hi. rewrite Z.land_spec.
  destruct (Z.eq_dec n i) as [->|Hne].
  - rewrite Z.pow2_bits_true by done. rewrite andb_true_r.
    destruct (Z.testbit a i); by rewrite ?Z.pow2_bits_true, ?Z.bits_0.
  - rewrite Z.pow2_bits_false by lia. rewrite andb_false_r.
    destruct (Z.testbit a n); by rewrite ?Z.pow2_bits_false, ?Z.bits_0 by lia.
Qed.

Lemma testbit_63 a : is_u64 a -> Z.testbit a 63 = (2 ^ 63 <=? a).
Proof.
  intros Ha. pose proof (top_bit a Ha) as E. rewrite shiftr_div in E by lia.
  rewrite Z.testbit_eqb, E by lia. by destruct (2 ^ 63 <=? a).
Qed.

(** ** Two limbs *)
Definition pairval (hi lo : Z) : Z := hi * 2 ^ 64 + lo.

Lemma pairval_range hi lo : is_u64 hi -> is_u64 lo -> 0 <= pairval hi lo < 2 ^ 128.
Proof. unfold is_u64, pairval. lia. Qed.

Lemma pairval_inj h l h' l' :
  is_u64 l -> is_u64 l' -> pairval h l = pairval h' l' -> h = h' /\ l = l'.
Proof. unfold is_u64, pairval. lia. Qed.

Lemma pairval_div hi lo : is_u64 lo -> pairval hi lo / 2 ^ 64 = hi.
Proof. unfold pairval, is_u64. intros. rewrite Z.div_add_l by lia. rewrite Z.div_small; lia. Qed.
Lemma pairval_mod hi lo : is_u64 lo -> pairval hi lo mod 2 ^ 64 = lo.
Proof.
  unfold pairval, is_u64. intros. rewrite Z.add_comm, Z.mod_add by lia. by apply Z.mod_small.
Qed.

(** The limbs of a 128-bit value. *)
Definition split128 (x : Z) : Z * Z := (x / 2 ^ 64, x mod 2 ^ 64).

Lemma split128_inv x h l :
  split128 x = (h, l) -> 0 <= x < 2 ^ 128 -> is_u64 h /\ is_u64 l /\ pairval h l = x.
Proof.
  unfold split128, is_u64, pairval. intros [= <- <-] Hx. Z.div_mod_to_equations. lia.
Qed.

Lemma split128_pairval h l : is_u64 l -> split128 (pairval h l) = (h, l).
Proof. intros. unfold split128. by rewrite pairval_div, pairval_mod. Qed.

Lemma split128_unique h l x : is_u64 l -> pairval h l = x -> (h, l) = split128 x.
Proof. intros ? <-. by rewrite split128_pairval. Qed.

Lemma pairval_zero h l :
  is_u64 h -> is_u64 l -> ((h =? 0) && (l =? 0)) = (pairval h l =? 0).
Proof. unfold is_u64, pairval. intros. lia. Qed.

(** The two-limb shift left by one. *)
Lemma shl1_pair h l :
  is_u64 h -> is_u64 l ->
  is_u64 (Z.lor (h <<64 1) (l >>64 63)) /\
  pairval (Z.lor (h <<64 1) (l >>64 63)) (l <<64 1) = u128 (2 * pairval h l) /\
  (l <<64 1) mod 2 = 0.
Proof.
  intros Hh Hl. split; [|split].
  - apply lor_u64; [apply u64_range|]. by apply shr64_u64.
  - replace 63 with (64 - 1) by lia. rewrite shl_carry_in by (done || lia).
    replace (64 - 1) with 63 by lia. rewrite top_bit by done.
    unfold pairval, u128, u64, b2z, is_u64 in *. rewrite !Z.shiftl_mul_pow2 by lia.
    case_match; rewrite ?Z.leb_le, ?Z.leb_gt in *; Z.div_mod_to_equations; lia.
  - apply (shl64_divisible l 1). lia.
Qed.

(** ** Bit length *)
Definition bitlen (v : Z) : Z := if v =? 0 then 0 else Z.log2 v + 1.

Lemma bitlen_nonneg v : 0 <= bitlen v.
Proof. unfold bitlen. case_match; [lia|]. pose proof (Z.log2_nonneg v). lia. Qed.

Lemma bitlen_spec v : 0 < v -> 2 ^ (bitlen v - 1) <= v < 2 ^ bitlen v.
Proof.
  intros. unfold bitlen. destruct (Z.eqb_spec v 0); [lia|].
  replace (Z.log2 v + 1 - 1) with (Z.log2 v) by lia. by apply Z.log2_spec.
Qed.

Lemma bitlen_0 : bitlen 0 = 0.
Proof. done. Qed.

Lemma bitlen_unique v n : 0 < n -> 2 ^ (n - 1) <= v < 2 ^ n -> bitlen v = n.
Proof.
  intros Hn Hv. pose proof (pow2_pos (n - 1)).
  unfold bitlen. destruct (Z.eqb_spec v 0); [lia|].
  rewrite (Z.log2_unique v (n - 1)); [lia|lia|].
  by replace (Z.succ (n - 1)) with n by lia.
Qed.

Lemma bitlen_le v n : 0 <= n -> 0 <= v < 2 ^ n -> bitlen v <= n.
Proof.
  intros. destruct (Z.eq_dec v 0) as [->|]; [rewrite bitlen_0; lia|].
  pose proof (bitlen_spec v). destruct (Z.le_gt_cases (bitlen v) n); [done|].
  pose proof (pow2_le n (bitlen v - 1)). lia.
Qed.

Lemma bitlen_lt_pow v n : 0 <= v -> bitlen v <= n -> v < 2 ^ n.
Proof.
  intros. destruct (Z.eq_dec v 0) as [->|].
  - rewrite bitlen_0 in *. by apply pow2_pos.
  - pose proof (bitlen_spec v). pose proof (pow2_le (bitlen v) n). lia.
Qed.

Lemma bitlen_pos v : 0 < v -> 0 < bitlen v.
Proof. intros. unfold bitlen. destruct (Z.eqb_spec v 0); [lia|]. pose proof (Z.log2_nonneg v). lia. Qed.

Lemma bitlen_mul_pow2 v n : 0 < v -> 0 <= n -> bitlen (v * 2 ^ n) = bitlen v + n.
Proof.
  intros. pose proof (bitlen_spec v). pose proof (bitlen_pos v). pose proof (pow2_pos n).
  apply bitlen_unique; [lia|].
  replace (bitlen v + n - 1) with (bitlen v - 1 + n) by lia.
  rewrite !Z.pow_add_r by lia. nia.
Qed.

Lemma bitlen_double_bit v b : 0 < v -> 0 <= b <= 1 -> bitlen (2 * v + b) = bitlen v + 1.
Proof.
  intros. pose proof (bitlen_spec v). pose proof (bitlen_pos v).
  apply bitlen_unique; [lia|]. replace (bitlen v + 1 - 1) with (bitlen v) by lia.
  rewrite Z.pow_add_r by lia.
  replace (bitlen v) with (bitlen v - 1 + 1) at 1 by lia.
  rewrite Z.pow_add_r by lia. lia.
Qed.

(** The C idiom [while (v) { n++; v >>= 1; }]; 64 iterations exhaust a word. *)
Definition bitlen_loop (v n : Z) : Z * Z :=
  while 64 (fun '(v, _) => negb (v =? 0)) (fun '(v, n) => (v >>64 1, n + 1)) (v, n).

Lemma bitlen_half v : 0 < v -> bitlen (v / 2) = bitlen v - 1.
Proof.
  intros. destruct (Z.eq_dec v 1) as [->|]; [done|].
  rewrite (Z.div_mod v 2) at 2 by lia. rewrite bitlen_double_bit; [lia| |].
  - apply Z.div_str_pos. lia.
  - pose proof (Z.mod_pos_bound v 2). lia.
Qed.

Lemma bitlen_loop_spec v n : is_u64 v -> bitlen_loop v n = (0, n + bitlen v).
Proof.
  unfold is_u64. intros Hv. unfold bitlen_loop.
  pose proof (while_inv (fun '(v', n') => 0 <= v' /\ n' + bitlen v' = n + bitlen v)
    (fun '(v', _) => Z.to_nat (bitlen v'))
    (fun '(v, _) => negb (v =? 0)) (fun '(v, n) => (v >>64 1, n + 1)) 64 (v, n)) as W.
  destruct W as [HP HC].
  - lia.
  - pose proof (bitlen_le v 64). lia.
  - intros [v' n'] [Hv' Hn'] Hc.
    rewrite negb_true_iff, Z.eqb_neq in Hc. rewrite shiftr_div by lia.
    change (2 ^ 1) with 2. rewrite bitlen_half by lia.
    pose proof (bitlen_pos v'). pose proof (Z.div_pos v' 2). lia.
  - destruct (while _ _ _ _) as [v' n'].
    rewrite negb_false_iff, Z.eqb_eq in HC. subst v'. rewrite bitlen_0 in HP.
    f_equal. lia.
Qed.

(** ** Restoring division, one bit *)
Lemma div_mod_double x d b :
  0 < d -> 0 <= b <= 1 ->
  (2 * x + b) / d = 2 * (x / d) + (if d <=? 2 * (x mod d) + b then 1 else 0) /\
  (2 * x + b) mod d =
    2 * (x mod d) + b - (if d <=? 2 * (x mod d) + b then d else 0).
Proof.
  intros Hd Hb. pose proof (Z.mod_pos_bound x d Hd).
  pose proof (Z.div_mod x d ltac:(lia)) as E.
  assert (2 * x + b = d * (2 * (x / d)) + (2 * (x mod d) + b)) as E' by lia.
  destruct (Z.leb_spec d (2 * (x mod d) + b)).
  - split; [symmetry; apply Z.div_unique with (2 * (x mod d) + b - d); lia|].
    symmetry. apply Z.mod_unique with (2 * (x / d) + 1); lia.
  - split; [symmetry; apply Z.div_unique with (2 * (x mod d) + b); lia|].
    symmetry. apply Z.mod_unique with (2 * (x / d)); lia.
Qed.

(** Peeling the next lower bit off a quotient by a power of two. *)
Lemma div_pow2_step n i :
  0 <= i -> n / 2 ^ i = 2 * (n / 2 ^ (i + 1)) + (n / 2 ^ i) mod 2.
Proof.
  intros. rewrite Z.pow_add_r by lia. change (2 ^ 1) with 2.
  pose proof (pow2_pos i). rewrite <- Z.div_div by lia.
  apply Z.div_mod. lia.
Qed.

Lemma mod2_bounds x : 0 <= x mod 2 <= 1.
Proof. pose proof (Z.mod_pos_bound x 2). lia. Qed.

(** ** Hint databases *)
Create HintDb words.
Create Rewrite HintDb zshift.
#[export] Hint Resolve u64_range u32_range mod2_bounds pow2_pos bitlen_nonneg
  lor_u64 lxor_u64 land_u64 shr64_u64 : words.
#[export] Hint Extern 1 (is_u64 _) => unfold is_u64; lia : words.
#[export] Hint Rewrite shiftr_div Z.shiftl_mul_pow2 land_1_mod using lia : zshift.

(** Unfold ranges and words, then linear arithmetic. *)
Ltac word_lia := unfold is_u64, is_u32, pairval in *; lia.
Ltac word_nia := unfold is_u64, is_u32, pairval in *; nia.
