(* ===== verification/MapSpec.v ===== *)
(** What the hash maps of [src/util] promise to the code that uses them: behind
    an invariant they behave as a finite map whose absent keys read as the null
    pointer, and a put returns the value it replaces. Then linear probing. *)
From stdpp Require Import gmap.
From S2P Require Import Prelude.
#[local] Open Scope nat_scope.

Class MapOps (M K V : Type) := {
  map_init : M;
  map_get : M -> K -> option V;
  map_put : M -> K -> V -> option (M * V);
  map_len : M -> nat;
}.
Class MapLaws (M K V : Type) (null : V) `{Countable K} (O : MapOps M K V) := {
  map_ok : M -> Prop;
  contents : M -> gmap K V;
  (** The keys that may be stored, and whether one more fits. *)
  map_key : K -> Prop;
  map_room : M -> Prop;
  map_init_spec : map_ok map_init /\ contents map_init = ∅;
  map_get_spec m k : map_ok m -> map_key k -> map_get m k = Some (default null (contents m !! k));
  map_put_spec m k v : map_ok m -> map_key k -> map_room m ->
    exists m', map_put m k v = Some (m', default null (contents m !! k)) /\ map_ok m' /\ contents m' = <[k := v]> (contents m);
  map_len_spec m : map_ok m -> map_len m = size (contents m);
}.

(** ** First occurrences in order *)
Section order.
  Context {A : Type} `{EqDecision A}.

Definition first_order (xs : list A) : list A := rev (remove_dups (rev xs)).
Lemma first_order_snoc xs x : first_order (xs ++ [x]) = if decide (x ∈ xs) then first_order xs else first_order xs ++ [x].
Proof.
  unfold first_order. rewrite rev_app_distr. cbn [rev app remove_dups].
  assert (R : x ∈ rev xs <-> x ∈ xs) by by rewrite list_elem_of_In, <- in_rev, <- list_elem_of_In.
  repeat case_decide; tauto || done.
Qed.
Lemma first_order_elem xs x : x ∈ first_order xs <-> x ∈ xs.
Proof. unfold first_order. by rewrite list_elem_of_In, <- in_rev, <- list_elem_of_In, elem_of_remove_dups, list_elem_of_In, <- in_rev, <- list_elem_of_In. Qed.
Lemma first_order_length xs : length (first_order xs) <= length xs.
Proof.
  induction xs as [|x xs IH] using rev_ind; [done|]. rewrite first_order_snoc, length_app. destruct (decide _); rewrite ?length_app; cbn in *; lia.
Qed.
Lemma first_order_prefix xs ys : first_order xs `prefix_of` first_order (xs ++ ys).
Proof.
  induction ys as [|y ys IH] using rev_ind; [by rewrite app_nil_r|]. rewrite app_assoc, first_order_snoc. destruct (decide _); [done|].
  by apply prefix_app_r.
Qed.
End order.

(** Linear probing, what the string map and the pointer map of [src/util] have
    in common: a table of keys, a home slot per key, and the walk from the home
    slot to the key or to the first empty slot. No key is ever removed. *)

(** The walk: [fuel] slots are left when it starts. *)
Fixpoint scan (stop : nat -> bool) (n fuel i : nat) : option nat :=
  if stop i then Some i else match fuel with O => None | S fuel => scan stop n fuel (S i mod n) end.

Lemma scan_from stop n h d fuel : n <> 0 -> d <= fuel -> (forall t, t < d -> stop ((h + t) mod n) = false) ->
  stop ((h + d) mod n) = true -> scan stop n fuel (h mod n) = Some ((h + d) mod n).
Proof.
  intros N. revert h fuel. induction d as [|d IH]; intros h fuel L F T.
  - rewrite Nat.add_0_r in *. destruct fuel; cbn [scan]; by rewrite T.
  - destruct fuel as [|fuel]; [lia|]. pose proof (F 0 ltac:(lia)) as F0. rewrite Nat.add_0_r in F0. cbn [scan]. rewrite F0.
    replace (S (h mod n) mod n) with (S h mod n).
    2: { rewrite <- (Nat.add_1_r h), <- (Nat.add_1_r (h mod n)). by rewrite Nat.Div0.add_mod_idemp_l. }
    replace (h + S d) with (S h + d) in * by lia. apply IH; [lia| |done]. intros t Lt.
    replace (S h + t) with (h + S t) by lia. apply F. lia.
Qed.
Lemma first_stop (stop : nat -> bool) d : stop d = true -> exists c, c <= d /\ stop c = true /\ forall t, t < c -> stop t = false.
Proof.
  induction d as [d IH] using lt_wf_ind. intros T. destruct (decide (Exists (fun t => stop t = true) (seq 0 d))) as [E|N].
  - apply Exists_exists in E as (t & Ht & S). apply in_seq in Ht. destruct (IH t ltac:(lia) S) as (c & ? & ? & ?). exists c. split; [lia|done].
  - exists d. split; [done|]. split; [done|]. intros t L. destruct (stop t) eqn:S; [|done]. exfalso. apply N, Exists_exists.
    exists t. split; [|done]. apply in_seq. lia.
Qed.
Lemma reach_slot n h i : h < n -> i < n -> exists d, d < n /\ (h + d) mod n = i.
Proof.
  intros Hh Hi. destruct (le_lt_dec h i) as [L|L].
  - exists (i - h). split; [lia|]. replace (h + (i - h)) with i by lia. by apply Nat.mod_small.
  - exists (i + n - h). split; [lia|]. replace (h + (i + n - h)) with (i + 1 * n) by lia. rewrite Nat.Div0.mod_add. by apply Nat.mod_small.
Qed.

Section table.
  Context {K : Type} `{EqDecision K} (home : K -> nat).

Definition key_at (tab : list (option K)) (i : nat) : option K := default None (tab !! i).
Definition stops (tab : list (option K)) (k : K) (i : nat) : bool :=
  match key_at tab i with None => true | Some k' => bool_decide (k' = k) end.
Definition holds_key (tab : list (option K)) (k : K) : Prop := exists i, tab !! i = Some (Some k).

(** A key is in one slot, and no slot is empty between its home and there. *)
Record well_placed (tab : list (option K)) : Prop := {
  wp_once i j k : tab !! i = Some (Some k) -> tab !! j = Some (Some k) -> i = j;
  wp_path i k : tab !! i = Some (Some k) -> exists d, d < length tab /\ i = (home k + d) mod length tab /\
    forall t, t < d -> key_at tab ((home k + t) mod length tab) <> None;
}.
Definition walk_to (tab : list (option K)) (k : K) : option nat :=
  scan (stops tab k) (length tab) (length tab) (home k mod length tab).

Lemma key_at_Some tab i k : key_at tab i = Some k <-> tab !! i = Some (Some k).
Proof. unfold key_at. destruct (tab !! i) as [[]|]; cbn; naive_solver. Qed.
Lemma well_placed_empty n : well_placed (replicate n None).
Proof. split; intros i; [intros j k Hi|intros k Hi]; apply lookup_replicate in Hi as [? _]; done. Qed.

Lemma walk_found tab k i : well_placed tab -> tab !! i = Some (Some k) -> walk_to tab k = Some i.
Proof.
  intros W Hi. destruct (wp_path _ W i k Hi) as (d & L & -> & P). apply scan_from; [lia|lia| |].
  - intros t Lt. unfold stops. destruct (key_at tab _) as [k'|] eqn:E; [|by apply P in E]. apply bool_decide_eq_false. intros ->.
    (* the key would be there twice *)
    apply key_at_Some in E. pose proof (wp_once _ W _ _ _ Hi E) as Eq. clear P.
    assert (M : forall a b, a < length tab -> b < length tab -> (home k + a) mod length tab = (home k + b) mod length tab -> a = b).
    { intros a b La Lb M. assert (N : length tab <> 0) by lia.
      pose proof (Nat.div_mod (home k + a) (length tab) N) as Da. pose proof (Nat.div_mod (home k + b) (length tab) N) as Db. rewrite M in Da.
      set (qa := (home k + a) / length tab) in *. set (qb := (home k + b) / length tab) in *.
      destruct (Nat.lt_trichotomy qa qb) as [Q|[Q|Q]]; [|rewrite Q in Da; lia|]; nia. }
    apply M in Eq; lia.
  - unfold stops. rewrite (proj2 (key_at_Some _ _ _) Hi). by apply bool_decide_eq_true.
Qed.
Lemma walk_absent tab k e : well_placed tab -> ~ holds_key tab k -> tab !! e = Some None ->
  exists i, walk_to tab k = Some i /\ tab !! i = Some None /\
    exists d, d < length tab /\ i = (home k + d) mod length tab /\ forall t, t < d -> key_at tab ((home k + t) mod length tab) <> None.
Proof.
  intros W A He. pose proof (lookup_lt_Some _ _ _ He) as Le. assert (N : length tab <> 0) by lia.
  assert (St : forall i, i < length tab -> stops tab k i = true <-> tab !! i = Some None).
  { intros i Li. unfold stops, key_at. destruct (lookup_lt_is_Some_2 tab i Li) as [[k'|] E]; rewrite E; cbn; [|done].
    rewrite bool_decide_eq_true. split; [intros ->|done]. by destruct A; exists i. }
  destruct (reach_slot (length tab) (home k mod length tab) e) as (d & Ld & Ed); [by apply Nat.mod_upper_bound|done|].
  rewrite Nat.Div0.add_mod_idemp_l in Ed. destruct (first_stop (fun t => stops tab k ((home k + t) mod length tab)) d) as (c & Lc & Tc & Fc).
  { apply St; [by apply Nat.mod_upper_bound|]. by rewrite Ed. }
  exists ((home k + c) mod length tab). split; [by apply scan_from; [|lia| |]|].
  assert (B : forall t, (home k + t) mod length tab < length tab) by (intros; by apply Nat.mod_upper_bound).
  split; [by apply St|]. exists c. split; [lia|]. split; [done|]. intros t Lt Et. specialize (Fc t Lt). unfold stops in Fc. by rewrite Et in Fc.
Qed.

Lemma key_at_insert tab i j k : i < length tab -> key_at (<[i := Some k]> tab) j = if decide (j = i) then Some k else key_at tab j.
Proof.
  intros L. unfold key_at. destruct (decide (j = i)) as [->|N]; [by rewrite list_lookup_insert_eq|by rewrite list_lookup_insert_ne].
Qed.
Lemma walk_insert tab k i : well_placed tab -> ~ holds_key tab k -> tab !! i = Some None -> walk_to tab k = Some i ->
  well_placed (<[i := Some k]> tab).
Proof.
  intros W A Hi E. pose proof (lookup_lt_Some _ _ _ Hi) as L. destruct (walk_absent tab k i W A Hi) as (i' & E' & _ & d & Ld & Ed & P).
  rewrite E in E'. injection E' as <-. split; [|rewrite length_insert].
  - intros a b k'. rewrite <- !key_at_Some, !key_at_insert by done.
    destruct (decide (a = i)) as [->|Na], (decide (b = i)) as [->|Nb]; rewrite ?key_at_Some; [done| | |by apply (wp_once _ W)].
    + intros [= <-] Hb. by destruct A; exists b.
    + intros Ha [= <-]. by destruct A; exists a.
  - intros a k'. rewrite <- key_at_Some, key_at_insert by done.
    assert (Mono : forall j, key_at tab j <> None -> key_at (<[i := Some k]> tab) j <> None).
    { intros j Hj. rewrite key_at_insert by done. by destruct (decide (j = i)). }
    destruct (decide (a = i)) as [->|Na].
    + intros [= <-]. exists d. split; [done|]. split; [done|]. intros t Lt. by apply Mono, P.
    + intros Ha%key_at_Some. destruct (wp_path _ W a k' Ha) as (c & Lc & Ec & Pc). exists c. split; [done|]. split; [done|].
      intros t Lt. by apply Mono, Pc.
Qed.
Lemma has_empty tab l : well_placed tab -> (forall k, holds_key tab k -> k ∈ l) -> length l < length tab -> exists e, tab !! e = Some None.
Proof.
  intros W In L. destruct (decide (Exists (fun o => o = None) tab)) as [E|N].
  - apply Exists_exists in E as (o & Ho & ->). apply list_elem_of_In, list_elem_of_lookup in Ho as [e He]. by exists e.
  - exfalso. assert (F : exists ks, tab = map Some ks).
    { clear -N. induction tab as [|[k|] tab IH]; [by exists []| |].
      - destruct IH as [ks ->]; [intros E; apply N; by right|]. by exists (k :: ks).
      - destruct N. by left. }
    destruct F as [ks ->]. rewrite length_map in L. assert (ND : NoDup ks).
    { apply NoDup_alt. intros i j k Hi Hj. apply (wp_once _ W i j k); by rewrite list_lookup_fmap, ?Hi, ?Hj. }
    assert (Sub : ks ⊆ l). { intros k Hk. apply In. apply list_elem_of_lookup in Hk as [i Hi]. exists i. by rewrite list_lookup_fmap, Hi. }
    pose proof (NoDup_submseteq _ _ ND Sub) as Le%submseteq_length. lia.
Qed.
End table.
