(* ===== verification/Strmap.v ===== *)
(** [src/util/strmap.c]: the string map that iterates in insertion order. The
    entries are an append-only array, the hash table holds entry indexes plus
    one; a key is its bytes, a value a pointer ([null] when absent). The length
    and the slot count are those of the lists; [None] is an access out of bounds
    or a probe that never ends. *)
From stdpp Require Import gmap.
From S2P Require Import Prelude.
From S2P Require Import MapSpec.
#[local] Open Scope Z_scope.

Definition STRMAP_FIRST_SLOTS : nat := 64.
Definition fnv1a (s : list Z) : Z :=
  foldl (fun h c => Z.lxor h (u8 c) *64 1099511628211) 1469598103934665603 s.

Section strmap.
  Context {V : Type} (null : V).

Record StrmapEntry := mkEntry { e_key : list Z; e_val : V }.
Record Strmap := mkStrmap { sm_entries : list StrmapEntry; sm_cap : nat; sm_slots : list Z }.
Definition sm_len (m : Strmap) : nat := length (sm_entries m).

Definition strmap_init : Strmap := mkStrmap [] 0 [].

(** [i & mask] *)
Definition masked (count : nat) (i : Z) : nat := Z.to_nat (Z.land i (Z.of_nat count - 1)).
Definition same_key (e : StrmapEntry) (key : list Z) : bool :=
  (length (e_key e) =? length key)%nat && bool_decide (e_key e = key).
Fixpoint probe_loop (entries : list StrmapEntry) (slots : list Z) (key : list Z) (fuel i : nat) : option nat :=
  idx ← slots !! i;
  if idx =? 0 then Some i
  else
    e ← entries !! Z.to_nat (idx - 1);
    if same_key e key then Some i
    else match fuel with
         | O => None
         | S fuel => probe_loop entries slots key fuel (masked (length slots) (Z.of_nat i + 1))
         end.
Definition probe (entries : list StrmapEntry) (slots : list Z) (key : list Z) : option nat :=
  probe_loop entries slots key (length slots) (masked (length slots) (fnv1a key)).

(** Reinsertion of the entries from number [i] on. *)
Fixpoint reinsert (entries : list StrmapEntry) (todo : list StrmapEntry) (i : nat) (slots : list Z) : option (list Z) :=
  match todo with
  | [] => Some slots
  | e :: todo =>
    slot ← probe entries slots (e_key e);
    reinsert entries todo (S i) (<[slot := u32 (Z.of_nat i + 1)]> slots)
  end.
Definition grow_slots (m : Strmap) : option Strmap :=
  let new_count := match length (sm_slots m) with O => STRMAP_FIRST_SLOTS | n => (n * 2)%nat end in
  slots ← reinsert (sm_entries m) (sm_entries m) 0 (replicate new_count 0);
  Some (mkStrmap (sm_entries m) (sm_cap m) slots).

Definition strmap_put (m : Strmap) (key : list Z) (val : V) : option (Strmap * V) :=
  m ← (if (length (sm_slots m) =? 0)%nat || (length (sm_slots m) * 7 <=? (sm_len m + 1) * 10)%nat
       then grow_slots m else Some m);
  slot ← probe (sm_entries m) (sm_slots m) key;
  idx ← sm_slots m !! slot;
  if negb (idx =? 0) then
    let at_ := Z.to_nat (idx - 1) in
    e ← sm_entries m !! at_;
    Some (mkStrmap (<[at_ := mkEntry (e_key e) val]> (sm_entries m)) (sm_cap m) (sm_slots m), e_val e)
  else
    let cap := if (sm_len m =? sm_cap m)%nat then match sm_cap m with O => 16%nat | c => (c * 2)%nat end else sm_cap m in
    if (cap <=? sm_len m)%nat then None
    else
      let entries := sm_entries m ++ [mkEntry key val] in
      Some (mkStrmap entries cap (<[slot := u32 (Z.of_nat (length entries))]> (sm_slots m)), null).

Definition strmap_get (m : Strmap) (key : list Z) : option V :=
  if (length (sm_slots m) =? 0)%nat then Some null
  else
    slot ← probe (sm_entries m) (sm_slots m) key;
    idx ← sm_slots m !! slot;
    if idx =? 0 then Some null else e ← sm_entries m !! Z.to_nat (idx - 1); Some (e_val e).
Definition strmap_has (m : Strmap) (key : list Z) : option bool :=
  if (length (sm_slots m) =? 0)%nat then Some false
  else slot ← probe (sm_entries m) (sm_slots m) key; idx ← sm_slots m !! slot; Some (negb (idx =? 0)).
Definition strmap_len (m : Strmap) : nat := sm_len m.

(** Iteration: an iterator is the map and a position. *)
Record StrmapIter := mkIter { it_m : Strmap; it_i : nat }.
Definition strmap_iter (m : Strmap) : StrmapIter := mkIter m 0.
Definition strmap_iter_next (it : StrmapIter) : option (StrmapIter * (list Z * V)) :=
  if (sm_len (it_m it) <=? it_i it)%nat then None
  else e ← sm_entries (it_m it) !! it_i it; Some (mkIter (it_m it) (S (it_i it)), (e_key e, e_val e)).
End strmap.

(** The offset basis is the standard one without its last digit; FNV-1a itself
    gives 0xAF63DC4C8601EC8C here. *)
Example fnv1a_a : fnv1a [97] = 0x44BD8AD473CD9906.
Proof. vm_compute. reflexivity. Qed.

(** The string map is a finite map that remembers the order of first insertion:
    every probe ends, at the slot of the key or at the empty slot where it goes,
    also right after the table has grown. *)

Lemma fnv1a_nonneg s : 0 <= fnv1a s.
Proof.
  unfold fnv1a. assert (G : forall h, 0 <= h -> 0 <= foldl (fun h c => Z.lxor h (u8 c) *64 1099511628211) h s); [|by apply G].
  induction s as [|c s IH]; intros h Hh; [done|]. cbn [foldl]. apply IH. unfold u64. apply Z.mod_pos_bound. lia.
Qed.
Lemma masked_mod p i : 0 <= i -> masked (2 ^ p) i = (Z.to_nat i mod 2 ^ p)%nat.
Proof.
  intros H. unfold masked. replace (Z.of_nat (2 ^ p) - 1) with (Z.ones (Z.of_nat p)).
  - rewrite Z.land_ones by lia. rewrite Z2Nat.inj_mod by lia. f_equal. rewrite Z2Nat.inj_pow by lia. by rewrite Nat2Z.id.
  - rewrite Z.ones_equiv, Nat2Z.inj_pow. lia.
Qed.

Section strmap.
  Context {V : Type} (null : V).
  Implicit Types (m : Strmap (V := V)) (entries : list (StrmapEntry (V := V))) (slots : list Z) (key : list Z).

(** ** The table as a table of keys *)
Definition home (key : list Z) : nat := Z.to_nat (fnv1a key).
Definition view entries slots : list (option (list Z)) :=
  map (fun idx => if idx =? 0 then None else e_key <$> entries !! Z.to_nat (idx - 1)) slots.

(** The first [j] entries are in the table. *)
Record indexed entries slots (j : nat) : Prop := {
  ix_size : exists p, length slots = (2 ^ p)%nat;
  ix_range i idx : slots !! i = Some idx -> 0 <= idx <= Z.of_nat j;
  ix_cover e : (e < j)%nat -> exists i, slots !! i = Some (Z.of_nat e + 1);
  ix_placed : well_placed home (view entries slots);
  ix_len : (j <= length entries)%nat;
}.

Lemma view_length entries slots : length (view entries slots) = length slots.
Proof. apply length_map. Qed.
Lemma view_lookup entries slots i : view entries slots !! i =
  (fun idx => if idx =? 0 then None else e_key <$> entries !! Z.to_nat (idx - 1)) <$> slots !! i.
Proof. apply list_lookup_fmap. Qed.
Lemma view_empty entries slots j i : indexed entries slots j -> view entries slots !! i = Some None <-> slots !! i = Some 0.
Proof.
  intros I. rewrite view_lookup. destruct (slots !! i) as [idx|] eqn:E; [|done]. cbn. destruct (Z.eqb_spec idx 0) as [->|N]; [done|].
  pose proof (ix_range _ _ _ I i idx E). pose proof (ix_len _ _ _ I). destruct (lookup_lt_is_Some_2 entries (Z.to_nat (idx - 1))) as [e ->]; [lia|].
  cbn. split; [done|]. intros [= ->]. done.
Qed.
Lemma view_key entries slots j i key : indexed entries slots j -> view entries slots !! i = Some (Some key) <->
  exists idx e, slots !! i = Some idx /\ idx <> 0 /\ entries !! Z.to_nat (idx - 1) = Some e /\ e_key e = key.
Proof.
  intros I. rewrite view_lookup. destruct (slots !! i) as [idx|] eqn:E; cbn; [|naive_solver]. destruct (Z.eqb_spec idx 0) as [->|N]; [naive_solver|].
  pose proof (ix_range _ _ _ I i idx E). pose proof (ix_len _ _ _ I). destruct (lookup_lt_is_Some_2 entries (Z.to_nat (idx - 1))) as [e Ee]; [lia|].
  rewrite Ee. cbn. split; [intros [= <-]; by exists idx, e|]. intros (idx' & e' & [= <-] & _ & Ee' & <-). rewrite Ee in Ee'. by injection Ee' as ->.
Qed.

Lemma same_key_spec (e : StrmapEntry (V := V)) key : same_key e key = bool_decide (e_key e = key).
Proof. unfold same_key. case_bool_decide as E; [|by rewrite andb_false_r]. rewrite E. by rewrite Nat.eqb_refl. Qed.
Lemma probe_scan entries slots j key fuel i : indexed entries slots j -> (i < length slots)%nat ->
  probe_loop entries slots key fuel i = scan (stops (view entries slots) key) (length slots) fuel i.
Proof.
  intros I. destruct (ix_size _ _ _ I) as [p Hp]. revert i. induction fuel as [|fuel IH]; intros i L.
  all: destruct (lookup_lt_is_Some_2 slots i L) as [idx E]; cbn [probe_loop scan]; rewrite E; cbn [mbind option_bind].
  all: unfold stops at 1, key_at; rewrite view_lookup, E; cbn [fmap option_fmap option_map default from_option id].
  all: destruct (Z.eqb_spec idx 0) as [->|N]; [done|]; pose proof (ix_range _ _ _ I i idx E); pose proof (ix_len _ _ _ I).
  all: destruct (lookup_lt_is_Some_2 entries (Z.to_nat (idx - 1))) as [e ->]; [lia|]; cbn [mbind option_bind fmap option_fmap option_map default from_option id].
  all: rewrite same_key_spec; case_bool_decide; [done|]; try done.
  rewrite Hp, masked_mod by lia. replace (Z.to_nat (Z.of_nat i + 1)) with (S i) by lia. rewrite <- Hp. apply IH. apply Nat.mod_upper_bound. lia.
Qed.
Lemma probe_walk entries slots j key : indexed entries slots j -> (0 < length slots)%nat ->
  probe entries slots key = walk_to home (view entries slots) key.
Proof.
  intros I L. destruct (ix_size _ _ _ I) as [p Hp]. unfold probe, walk_to. rewrite view_length. rewrite Hp at 2.
  rewrite masked_mod by apply fnv1a_nonneg. rewrite <- Hp. rewrite (probe_scan entries slots j) by (try done; apply Nat.mod_upper_bound; lia). done.
Qed.

(** The keys of the table are those of the entries it holds. *)
Lemma held entries slots j key : indexed entries slots j -> holds_key (view entries slots) key <->
  exists k e, (k < j)%nat /\ entries !! k = Some e /\ e_key e = key.
Proof.
  intros I. split.
  - intros [i (idx & e & E & N & Ee & Ek)%(view_key entries slots j)]; [|done]. exists (Z.to_nat (idx - 1)), e. pose proof (ix_range _ _ _ I i idx E). split; [lia|done].
  - intros (k & e & L & Ee & Ek). destruct (ix_cover _ _ _ I k L) as [i E]. exists i. apply (view_key entries slots j); [done|].
    exists (Z.of_nat k + 1), e. split; [done|]. split; [lia|]. by replace (Z.to_nat (Z.of_nat k + 1 - 1)) with k by lia.
Qed.
Definition keys entries : list (list Z) := map e_key entries.
Lemma keys_inj entries k k' e e' : NoDup (keys entries) -> entries !! k = Some e -> entries !! k' = Some e' -> e_key e = e_key e' -> k = k'.
Proof.
  intros ND E E' Ek. eapply (NoDup_lookup (keys entries)); [done| |]; unfold keys; rewrite list_lookup_fmap, ?E, ?E'; cbn; [done|by rewrite Ek].
Qed.

Lemma empty_slot entries slots j : indexed entries slots j -> (j < length slots)%nat -> exists i, view entries slots !! i = Some None.
Proof.
  intros I L. apply (has_empty home _ (take j (keys entries))).
  - apply I.
  - intros key (k & e & Lk & Ee & Ek)%(held entries slots j); [|done]. apply (list_elem_of_lookup_2 _ k). rewrite lookup_take_lt by done.
    unfold keys. by rewrite list_lookup_fmap, Ee, <- Ek.
  - rewrite view_length, length_take. lia.
Qed.
(** The probe ends, where the key is or should go. *)
Lemma probe_present entries slots j key k e : indexed entries slots j -> NoDup (keys entries) -> (k < j)%nat ->
  entries !! k = Some e -> e_key e = key -> exists i, probe entries slots key = Some i /\ slots !! i = Some (Z.of_nat k + 1).
Proof.
  intros I ND L Ee Ek. destruct (ix_cover _ _ _ I k L) as [i E]. exists i. split; [|done]. pose proof (lookup_lt_Some _ _ _ E).
  rewrite (probe_walk entries slots j) by (done || lia). apply walk_found; [apply I|]. apply (view_key entries slots j); [done|]. exists (Z.of_nat k + 1), e.
  split; [done|]. split; [lia|]. by replace (Z.to_nat (Z.of_nat k + 1 - 1)) with k by lia.
Qed.
Lemma probe_absent entries slots j key : indexed entries slots j -> (j < length slots)%nat ->
  ~ holds_key (view entries slots) key -> exists i, probe entries slots key = Some i /\ slots !! i = Some 0.
Proof.
  intros I L A. destruct (empty_slot entries slots j I L) as [e He]. destruct (walk_absent home _ key e (ix_placed _ _ _ I) A He) as (i & W & E & _).
  exists i. rewrite (probe_walk entries slots j) by (done || lia). split; [done|]. by apply (view_empty entries slots j).
Qed.

Lemma index_next entries slots j e : indexed entries slots j -> NoDup (keys entries) -> entries !! j = Some e -> (j < length slots)%nat ->
  Z.of_nat j + 1 < 2 ^ 32 -> exists i, probe entries slots (e_key e) = Some i /\ slots !! i = Some 0 /\
    indexed entries (<[i := u32 (Z.of_nat j + 1)]> slots) (S j).
Proof.
  intros I ND Ej L U. assert (A : ~ holds_key (view entries slots) (e_key e)).
  { intros (k & e' & Lk & Ek & Ke)%(held entries slots j); [|done]. pose proof (keys_inj entries k j e' e ND Ek Ej Ke). lia. }
  destruct (probe_absent entries slots j (e_key e) I L A) as (i & P & Z0). exists i. split; [done|]. split; [done|].
  pose proof (lookup_lt_Some _ _ _ Z0) as Li. unfold u32. rewrite Z.mod_small by lia. split.
  - rewrite length_insert. apply I.
  - intros k idx. destruct (decide (k = i)) as [->|N].
    + rewrite list_lookup_insert_eq by done. intros [= <-]. lia.
    + rewrite list_lookup_insert_ne by done. intros Hk. pose proof (ix_range _ _ _ I k idx Hk). lia.
  - intros k Lk. destruct (decide (k = j)) as [->|N]; [exists i; by rewrite list_lookup_insert_eq|].
    destruct (ix_cover _ _ _ I k ltac:(lia)) as [i' E]. exists i'. rewrite list_lookup_insert_ne; [done|]. intros ->. rewrite Z0 in E. injection E. lia.
  - unfold view. rewrite list_fmap_insert. replace (if Z.of_nat j + 1 =? 0 then None else _) with (Some (e_key e)).
    + apply walk_insert; [apply I|done|by apply (view_empty entries slots j)|]. rewrite <- (probe_walk entries slots j); [done|done|lia].
    + rewrite (proj2 (Z.eqb_neq _ _)) by lia. replace (Z.to_nat (Z.of_nat j + 1 - 1)) with j by lia. by rewrite Ej.
  - by apply lookup_lt_Some in Ej.
Qed.
Lemma reinsert_spec entries j slots : indexed entries slots j -> NoDup (keys entries) -> (length entries <= length slots)%nat ->
  Z.of_nat (length entries) < 2 ^ 32 -> exists slots', reinsert entries (drop j entries) j slots = Some slots' /\
    indexed entries slots' (length entries) /\ length slots' = length slots.
Proof.
  intros I ND L U. remember (drop j entries) as todo eqn:T. revert j slots I L T. induction todo as [|e todo IH]; intros j slots I L T.
  - exists slots. split; [done|]. split; [|done]. pose proof (ix_len _ _ _ I). symmetry in T. apply (f_equal length) in T. rewrite length_drop in T.
    cbn in T. by replace (length entries) with j by lia.
  - assert (Ej : entries !! j = Some e). { rewrite <- (Nat.add_0_r j), <- lookup_drop, <- T. done. }
    pose proof (lookup_lt_Some _ _ _ Ej) as Lj. destruct (index_next entries slots j e I ND Ej ltac:(lia) ltac:(lia)) as (i & P & _ & I').
    cbn [reinsert]. rewrite P. cbn [mbind option_bind]. destruct (IH (S j) _ I') as (slots' & R & I'' & Len).
    + by rewrite length_insert.
    + by rewrite (drop_S entries e j Ej) in T; injection T.
    + exists slots'. split; [done|]. split; [done|]. by rewrite Len, length_insert.
Qed.
Lemma fresh_indexed entries p : indexed entries (replicate (2 ^ p) 0) 0.
Proof.
  split; [exists p; apply length_replicate| |lia| |lia].
  - intros i idx [-> _]%lookup_replicate. lia.
  - unfold view. rewrite fmap_replicate. apply well_placed_empty.
Qed.
Lemma indexed_app entries slots e : indexed entries slots (length entries) -> indexed (entries ++ [e]) slots (length entries).
Proof.
  intros I. split; [apply I|apply I|apply I| |rewrite length_app; lia]. replace (view (entries ++ [e]) slots) with (view entries slots); [apply I|].
  unfold view. apply map_ext_in. intros idx [i Hi]%list_elem_of_In%list_elem_of_lookup. destruct (Z.eqb_spec idx 0); [done|].
  pose proof (ix_range _ _ _ I i idx Hi). by rewrite lookup_app_l by lia.
Qed.
Lemma indexed_replace entries slots k e v : indexed entries slots (length entries) -> entries !! k = Some e ->
  indexed (<[k := mkEntry (e_key e) v]> entries) slots (length (<[k := mkEntry (e_key e) v]> entries)).
Proof.
  intros I E. pose proof (lookup_lt_Some _ _ _ E). rewrite length_insert. split; [apply I|apply I|apply I| |by rewrite length_insert].
  replace (view _ slots) with (view entries slots); [apply I|]. unfold view. apply map_ext. intros idx. destruct (idx =? 0); [done|].
  destruct (decide (Z.to_nat (idx - 1) = k)) as [->|N]; [by rewrite list_lookup_insert_eq, E|by rewrite list_lookup_insert_ne].
Qed.
Lemma keys_replace entries k e v : entries !! k = Some e -> keys (<[k := mkEntry (e_key e) v]> entries) = keys entries.
Proof. intros E. unfold keys. rewrite list_fmap_insert. cbn. apply list_insert_id. by rewrite list_lookup_fmap, E. Qed.

(** ** The map *)
Definition pairs entries : list (list Z * V) := map (fun e => (e_key e, e_val e)) entries.
Definition contents_of m : gmap (list Z) V := list_to_map (pairs (sm_entries m)).

Record strmap_ok m : Prop := {
  so_nodup : NoDup (keys (sm_entries m));
  so_cap : (sm_len m <= sm_cap m)%nat;
  so_len : Z.of_nat (sm_len m) < 2 ^ 32;
  so_table : (sm_slots m = [] /\ sm_entries m = []) \/
    (64 <= length (sm_slots m) /\ sm_len m * 10 < length (sm_slots m) * 7)%nat /\ indexed (sm_entries m) (sm_slots m) (sm_len m);
}.

Lemma pairs_keys entries : (pairs entries).*1 = keys entries.
Proof. unfold pairs, keys. rewrite <- list_fmap_compose. done. Qed.
Lemma contents_lookup m k e : strmap_ok m -> sm_entries m !! k = Some e -> contents_of m !! e_key e = Some (e_val e).
Proof.
  intros O E. apply elem_of_list_to_map_1; [rewrite pairs_keys; apply O|]. apply (list_elem_of_lookup_2 _ k).
  unfold pairs. by rewrite list_lookup_fmap, E.
Qed.
Lemma contents_absent m key : (forall k e, sm_entries m !! k = Some e -> e_key e <> key) -> contents_of m !! key = None.
Proof.
  intros A. apply not_elem_of_list_to_map_1. rewrite pairs_keys. intros [k Hk]%list_elem_of_lookup. unfold keys in Hk.
  rewrite list_lookup_fmap in Hk. destruct (sm_entries m !! k) as [e|] eqn:E; [|done]. injection Hk as <-. by apply (A k e).
Qed.
Lemma pairs_replace entries k e v : NoDup (keys entries) -> entries !! k = Some e ->
  (list_to_map (pairs (<[k := mkEntry (e_key e) v]> entries)) : gmap (list Z) V) = <[e_key e := v]> (list_to_map (pairs entries)).
Proof.
  revert k. induction entries as [|x entries IH]; intros k ND E; [done|]. change (NoDup (e_key x :: keys entries)) in ND. apply list.NoDup_cons in ND as [Nx ND]. destruct k as [|k]; cbn [lookup list_lookup] in E; cbn [insert list_insert pairs map list_to_map fold_right fst snd].
  - injection E as <-. by rewrite insert_insert_eq.
  - fold (pairs entries). fold (pairs (<[k := mkEntry (e_key e) v]> entries)). rewrite IH by done. rewrite insert_insert_ne; [done|]. intros Ek. apply Nx. rewrite Ek.
    apply list_elem_of_lookup. exists k. unfold keys. rewrite list_lookup_fmap. by setoid_rewrite E.
Qed.

(** Where the table leads for a key. *)
Lemma present_or_absent entries key : (exists k e, entries !! k = Some e /\ e_key e = key) \/ forall k e, entries !! k = Some e -> e_key e <> key.
Proof.
  destruct (decide (key ∈ keys entries)) as [[k Hk]%list_elem_of_lookup|N]; unfold keys in *.
  - rewrite list_lookup_fmap in Hk. destruct (entries !! k) as [e|] eqn:E; [|done]. injection Hk as <-. left. by exists k, e.
  - right. intros k e E <-. apply N, (list_elem_of_lookup_2 _ k). by rewrite list_lookup_fmap, E.
Qed.
Lemma not_held entries slots key : indexed entries slots (length entries) -> (forall k e, entries !! k = Some e -> e_key e <> key) ->
  ~ holds_key (view entries slots) key.
Proof. intros I A (k & e & _ & E & K)%(held entries slots (length entries)); [|done]. by apply (A k e). Qed.

(** A reading of the slot the probe gives. *)
Lemma find_slot m key : strmap_ok m -> sm_slots m <> [] ->
  (exists k e i, sm_entries m !! k = Some e /\ e_key e = key /\ probe (sm_entries m) (sm_slots m) key = Some i /\
     sm_slots m !! i = Some (Z.of_nat k + 1) /\ contents_of m !! key = Some (e_val e)) \/
  (exists i, probe (sm_entries m) (sm_slots m) key = Some i /\ sm_slots m !! i = Some 0 /\ contents_of m !! key = None /\
     forall k e, sm_entries m !! k = Some e -> e_key e <> key).
Proof.
  intros O N. destruct (so_table m O) as [[? _]|[[L6 Ld] I]]; [done|]. destruct (present_or_absent (sm_entries m) key) as [(k & e & E & K)|A].
  - left. destruct (probe_present _ _ _ key k e I (so_nodup m O) (lookup_lt_Some _ _ _ E) E K) as (i & P & S).
    exists k, e, i. rewrite <- K. by rewrite (contents_lookup m k e O E), K.
  - right. destruct (probe_absent _ _ _ key I) as (i & P & S); [lia|by apply not_held|]. exists i. split; [done|]. split; [done|].
    split; [by apply contents_absent|done].
Qed.

Lemma strmap_get_contents m key : strmap_ok m -> strmap_get null m key = Some (default null (contents_of m !! key)).
Proof.
  intros O. unfold strmap_get. destruct (Nat.eqb_spec (length (sm_slots m)) 0) as [E|E].
  - destruct (so_table m O) as [[_ Ee]|[[? _] _]]; [|lia]. unfold contents_of. by rewrite Ee.
  - destruct (find_slot m key O) as [(k & e & i & Ek & _ & -> & S & ->)|(i & -> & S & -> & _)]; [by intros E0; rewrite E0 in E| |];
      cbn [mbind option_bind]; rewrite S; cbn [mbind option_bind].
    + rewrite (proj2 (Z.eqb_neq _ _)) by lia. replace (Z.to_nat (Z.of_nat k + 1 - 1)) with k by lia. by rewrite Ek.
    + done.
Qed.
Lemma strmap_has_contents m key : strmap_ok m -> strmap_has m key = Some (bool_decide (is_Some (contents_of m !! key))).
Proof.
  intros O. unfold strmap_has. destruct (Nat.eqb_spec (length (sm_slots m)) 0) as [E|E].
  - destruct (so_table m O) as [[_ Ee]|[[? _] _]]; [|lia]. unfold contents_of. by rewrite Ee.
  - destruct (find_slot m key O) as [(k & e & i & Ek & _ & -> & S & ->)|(i & -> & S & -> & _)]; [by intros E0; rewrite E0 in E| |];
      cbn [mbind option_bind]; rewrite S; cbn [mbind option_bind]; [|done]. by rewrite (proj2 (Z.eqb_neq _ _)) by lia.
Qed.

(** Growth *)
Lemma grow_slots_spec m : strmap_ok m -> exists m', grow_slots m = Some m' /\ sm_entries m' = sm_entries m /\ sm_cap m' = sm_cap m /\
  indexed (sm_entries m) (sm_slots m') (sm_len m) /\ (64 <= length (sm_slots m'))%nat /\ ((sm_len m + 1) * 10 < length (sm_slots m') * 7)%nat.
Proof.
  intros O. unfold grow_slots. set (n := match length (sm_slots m) with O => _ | _ => _ end).
  assert (Hn : (exists p, n = 2 ^ p)%nat /\ (64 <= n)%nat /\ ((sm_len m + 1) * 10 < n * 7)%nat).
  { unfold n. destruct (so_table m O) as [[E E']|[[L6 Ld] I]].
    - unfold sm_len. rewrite E, E'. unfold STRMAP_FIRST_SLOTS. cbn [length]. split; [by exists 6%nat|]. lia.
    - destruct (ix_size _ _ _ I) as [p Hp]. destruct (length (sm_slots m)) eqn:El; [lia|]. split; [|lia].
      exists (S p). rewrite Nat.pow_succ_r', <- Hp. lia. }
  destruct Hn as ([p Hp] & H6 & Hl). unfold sm_len in *.
  destruct (reinsert_spec (sm_entries m) 0 (replicate n 0)) as (slots & R & I & L).
  - rewrite Hp. apply fresh_indexed.
  - apply O.
  - rewrite length_replicate. lia.
  - apply O.
  - rewrite drop_0 in R. rewrite R. cbn [mbind option_bind]. rewrite length_replicate in L. eexists. split; [done|]. cbn. rewrite L. done.
Qed.

Lemma strmap_put_spec m key v : strmap_ok m -> Z.of_nat (sm_len m) + 1 < 2 ^ 32 ->
  exists m', strmap_put null m key v = Some (m', default null (contents_of m !! key)) /\ strmap_ok m' /\
    contents_of m' = <[key := v]> (contents_of m) /\
    keys (sm_entries m') = if bool_decide (is_Some (contents_of m !! key)) then keys (sm_entries m) else keys (sm_entries m) ++ [key].
Proof.
  intros O U. unfold strmap_put.
  assert (G : exists m1, (if (length (sm_slots m) =? 0)%nat || (length (sm_slots m) * 7 <=? (sm_len m + 1) * 10)%nat then grow_slots m else Some m) = Some m1 /\
    sm_entries m1 = sm_entries m /\ sm_cap m1 = sm_cap m /\ indexed (sm_entries m) (sm_slots m1) (sm_len m) /\ (64 <= length (sm_slots m1))%nat /\
    ((sm_len m + 1) * 10 < length (sm_slots m1) * 7)%nat).
  { destruct (_ || _) eqn:C; [by apply grow_slots_spec|]. apply orb_false_iff in C as [C1%Nat.eqb_neq C2%Nat.leb_gt]. exists m.
    destruct (so_table m O) as [[E _]|[[? _] I]]; [by rewrite E in C1|]. split_and!; done || lia. }
  destruct G as (m1 & -> & Ee & Ec & I & L6 & Ld). cbn [mbind option_bind].
  assert (Len : sm_len m1 = sm_len m) by (unfold sm_len; by rewrite Ee).
  assert (O1 : strmap_ok m1).
  { split; rewrite ?Len, ?Ee, ?Ec; try apply O. right. split; [lia|done]. }
  assert (C1 : contents_of m1 = contents_of m) by (unfold contents_of; by rewrite Ee).
  destruct (find_slot m1 key O1) as [(k & e & i & Ek & Kk & -> & S & Ct)|(i & P & S & Ct & A)].
  { intros E. rewrite E in L6. cbn in L6. lia. }
  - rewrite C1 in Ct. cbn [mbind option_bind]. rewrite S. cbn [mbind option_bind]. rewrite (proj2 (Z.eqb_neq _ _)) by lia. cbn [negb].
    replace (Z.to_nat (Z.of_nat k + 1 - 1)) with k by lia. rewrite Ek. cbn [mbind option_bind]. rewrite Ct. eexists. split; [done|]. rewrite Ee in *.
    assert (L1 : length (<[k:=mkEntry (e_key e) v]> (sm_entries m)) = sm_len m) by apply length_insert.
    split; [split|split].
    + cbn. rewrite keys_replace by done. apply O.
    + unfold sm_len. cbn. rewrite L1, Ec. apply O.
    + unfold sm_len. cbn. rewrite L1. apply O.
    + right. unfold sm_len. cbn. rewrite L1. split; [lia|]. rewrite <- L1. by apply indexed_replace.
    + unfold contents_of. cbn. rewrite pairs_replace by (apply O || done). by rewrite Kk.
    + cbn. by rewrite keys_replace.
  - rewrite C1 in Ct. rewrite P. cbn [mbind option_bind]. rewrite S. cbn [mbind option_bind]. cbn [Z.eqb negb]. rewrite Ct, Len, Ec, Ee in *.
    set (cap := if (sm_len m =? sm_cap m)%nat then _ else _). assert (Hc : (sm_len m < cap)%nat).
    { pose proof (so_cap m O). unfold cap. destruct (Nat.eqb_spec (sm_len m) (sm_cap m)) as [E|]; [|lia]. destruct (sm_cap m); lia. }
    rewrite (proj2 (Nat.leb_gt _ _)) by done. eexists. split; [done|].
    set (es := sm_entries m ++ [mkEntry key v]). assert (Les : length es = Datatypes.S (sm_len m)) by (unfold es, sm_len; rewrite length_app; cbn; lia).
    assert (ND : NoDup (keys es)).
    { unfold es, keys. rewrite map_app. cbn. apply list.NoDup_app. split; [apply O|]. split; [|apply list.NoDup_singleton].
      intros x [j Hj]%list_elem_of_lookup ->%list_elem_of_singleton. rewrite list_lookup_fmap in Hj. destruct (sm_entries m !! j) as [e|] eqn:E; [|done].
      injection Hj as Hj. by apply (A j e). }
    split; [split|split].
    + done.
    + unfold sm_len. cbn. lia.
    + unfold sm_len. cbn. rewrite Les. lia.
    + right. unfold sm_len. cbn. rewrite length_insert, Les. split; [lia|].
      destruct (index_next es (sm_slots m1) (sm_len m) (mkEntry key v)) as (i' & P' & _ & I').
      * by apply indexed_app.
      * done.
      * unfold es. by rewrite lookup_app_r, Nat.sub_diag.
      * lia.
      * lia.
      * assert (Pe : probe es (sm_slots m1) key = Some i).
        { rewrite (probe_walk es (sm_slots m1) (sm_len m)) by (try lia; by apply indexed_app).
          replace (view es (sm_slots m1)) with (view (sm_entries m) (sm_slots m1)); [by rewrite <- (probe_walk (sm_entries m) (sm_slots m1) (sm_len m)) by (done || lia)|].
          unfold view, es. apply map_ext_in. intros idx [j Hj]%list_elem_of_In%list_elem_of_lookup. destruct (Z.eqb_spec idx 0); [done|].
          pose proof (ix_range _ _ _ I j idx Hj). rewrite lookup_app_l; [done|]. unfold sm_len in *. lia. }
        cbn in P'. rewrite Pe in P'. injection P' as <-. by replace (Z.of_nat (Datatypes.S (sm_len m))) with (Z.of_nat (sm_len m) + 1) by lia.
    + unfold contents_of, pairs, es. cbn. rewrite map_app. cbn. apply list_to_map_snoc. fold (pairs (sm_entries m)). rewrite pairs_keys.
      unfold keys. intros [j Hj]%list_elem_of_lookup. rewrite list_lookup_fmap in Hj. destruct (sm_entries m !! j) as [e|] eqn:E; [|done].
      injection Hj as Hj. by apply (A j e).
    + cbn. unfold keys, es. by rewrite map_app.
Qed.

(** ** Sequences of puts *)
Fixpoint strmap_puts m (ops : list (list Z * V)) : option (Strmap * list V) :=
  match ops with
  | [] => Some (m, [])
  | (k, v) :: ops => '(m, old) ← strmap_put null m k v; '(m, olds) ← strmap_puts m ops; Some (m, old :: olds)
  end.
(** What an iterator still yields. *)
Fixpoint strmap_drain (fuel : nat) (it : StrmapIter) : list (list Z * V) :=
  match fuel, strmap_iter_next it with
  | S fuel, Some (it, kv) => kv :: strmap_drain fuel it
  | _, _ => []
  end.
(** The specification: the last put of a key wins, the first gives its rank. *)
Definition put_map (ops : list (list Z * V)) : gmap (list Z) V := list_to_map (rev ops).
Definition put_order (ops : list (list Z * V)) : list (list Z) := first_order (map fst ops).

Lemma put_map_snoc ops k v : put_map (ops ++ [(k, v)]) = <[k := v]> (put_map ops).
Proof. unfold put_map. by rewrite rev_app_distr. Qed.
Lemma put_order_snoc ops k v : put_order (ops ++ [(k, v)]) =
  if bool_decide (is_Some (put_map ops !! k)) then put_order ops else put_order ops ++ [k].
Proof.
  unfold put_order, put_map. rewrite map_app. cbn [map fst]. rewrite first_order_snoc. case_decide as D.
  - rewrite bool_decide_eq_true_2; [done|]. apply list_elem_of_In, in_map_iff in D as ([k' v'] & <- & D%in_rev).
    destruct ((list_to_map (rev ops) : gmap (list Z) V) !! k') eqn:E; [by eexists|]. apply not_elem_of_list_to_map_2 in E. destruct E.
    apply list_elem_of_In, in_map_iff. by exists (k', v').
  - rewrite bool_decide_eq_false_2; [done|]. intros [v' E%elem_of_list_to_map_2]. destruct D. apply list_elem_of_In, in_map_iff.
    exists (k, v'). split; [done|]. apply in_rev. by apply list_elem_of_In.
Qed.

Record after m ops : Prop := {
  af_ok : strmap_ok m;
  af_map : contents_of m = put_map ops;
  af_order : keys (sm_entries m) = put_order ops;
  af_len : (sm_len m <= length ops)%nat;
}.
Lemma after_init : after strmap_init [].
Proof. split; [split; [constructor|done|done|by left]|done..]. Qed.
Lemma after_put m ops k v : after m ops -> Z.of_nat (length ops) + 1 < 2 ^ 32 ->
  exists m', strmap_put null m k v = Some (m', default null (put_map ops !! k)) /\ after m' (ops ++ [(k, v)]).
Proof.
  intros [O M Or L] U. destruct (strmap_put_spec m k v O ltac:(lia)) as (m' & E & O' & M' & K'). exists m'. rewrite <- M. split; [done|].
  split; [done| | |].
  - by rewrite M', M, put_map_snoc.
  - by rewrite K', M, Or, put_order_snoc.
  - rewrite length_app. apply (f_equal length) in K'. unfold keys in K'. rewrite length_map in K'. unfold sm_len in *. rewrite K'.
    destruct (bool_decide _); rewrite ?length_app, length_map; cbn; lia.
Qed.
Lemma after_puts m ops ops' : after m ops -> Z.of_nat (length ops + length ops') < 2 ^ 32 ->
  exists m' olds, strmap_puts m ops' = Some (m', olds) /\ after m' (ops ++ ops') /\
    forall j k v, ops' !! j = Some (k, v) -> olds !! j = Some (default null (put_map (ops ++ take j ops') !! k)).
Proof.
  revert m ops. induction ops' as [|[k v] ops' IH]; intros m ops A U.
  - exists m, []. rewrite app_nil_r. by split_and!.
  - cbn [length] in U. destruct (after_put m ops k v A ltac:(lia)) as (m1 & E & A1). cbn [strmap_puts]. rewrite E. cbn [mbind option_bind].
    destruct (IH m1 _ A1) as (m' & olds & -> & A' & Old); [rewrite length_app; cbn; lia|]. cbn [mbind option_bind].
    exists m'. eexists. split; [done|]. rewrite <- app_assoc in A'. split; [done|]. intros [|j] k' v' Hj.
    + injection Hj as <- <-. cbn. by rewrite app_nil_r.
    + cbn in Hj |- *. specialize (Old j k' v' Hj). by rewrite <- app_assoc in Old.
Qed.
Lemma drain_pairs m i fuel : (sm_len m <= i + fuel)%nat -> strmap_drain fuel (mkIter m i) = pairs (drop i (sm_entries m)).
Proof.
  revert i. induction fuel as [|fuel IH]; intros i L; unfold sm_len in *; cbn [strmap_drain].
  - rewrite drop_ge by lia. by destruct (strmap_iter_next (mkIter m i)) as [[]|].
  - unfold strmap_iter_next. unfold sm_len. cbn [it_m it_i]. destruct (Nat.leb_spec (length (sm_entries m)) i); [by rewrite drop_ge|].
    destruct (lookup_lt_is_Some_2 (sm_entries m) i) as [e E]; [lia|]. rewrite E. cbn [mbind option_bind]. rewrite (drop_S _ e i E). cbn [pairs map].
    f_equal. apply IH. lia.
Qed.
Lemma pairs_contents m : strmap_ok m -> pairs (sm_entries m) = map (fun k => (k, default null (contents_of m !! k))) (keys (sm_entries m)).
Proof.
  intros O. unfold pairs, keys. rewrite map_map. apply map_ext_in. intros e [k Hk]%list_elem_of_In%list_elem_of_lookup.
  by rewrite (contents_lookup m k e O Hk).
Qed.
Lemma len_contents m : strmap_ok m -> sm_len m = size (contents_of m).
Proof.
  intros O. unfold contents_of. rewrite map_size_list_to_map; [unfold pairs, sm_len; by rewrite length_map|]. rewrite pairs_keys. apply O.
Qed.
End strmap.

(** The promise to the clients. *)
#[export] Instance strmap_ops {V} (null : V) : MapOps (Strmap (V := V)) (list Z) V :=
  {| map_init := strmap_init; map_get := strmap_get null; map_put := strmap_put null; map_len := strmap_len |}.
#[export] Program Instance strmap_laws {V} (null : V) : MapLaws (Strmap (V := V)) (list Z) V null (strmap_ops null) :=
  {| map_ok := strmap_ok; contents := contents_of; map_key _ := True; map_room m := Z.of_nat (sm_len m) + 1 < 2 ^ 32 |}.
Next Obligation. intros. split; [apply (after_init (V := V))|done]. Qed.
Next Obligation. intros V null m k O _. by apply strmap_get_contents. Qed.
Next Obligation.
  intros V null m k v O _ R. destruct (strmap_put_spec null m k v O R) as (m' & E & O' & M & _). by exists m'.
Qed.
Next Obligation. intros V null m O. by apply len_contents. Qed.

(** C20. The string map is a finite map that remembers the order of insertion.
    After any sequence of less than [2^32] puts every probe has ended, a key
    reads as its last value or as the null pointer, membership is exact, each
    put has returned the value it replaced, and the iterator yields every key
    once with its value, in the order of their first puts, whatever growth and
    collisions occurred. *)
Theorem strmap_correct {V} (null : V) ops : Z.of_nat (length ops) < 2 ^ 32 ->
  exists m olds, strmap_puts null strmap_init ops = Some (m, olds) /\
    (forall k, strmap_get null m k = Some (default null (put_map ops !! k)) /\
               strmap_has m k = Some (bool_decide (is_Some (put_map ops !! k)))) /\
    (forall j k v, ops !! j = Some (k, v) -> olds !! j = Some (default null (put_map (take j ops) !! k))) /\
    strmap_len m = size (put_map ops) /\
    forall fuel, (strmap_len m <= fuel)%nat ->
      strmap_drain fuel (strmap_iter m) = map (fun k => (k, default null (put_map ops !! k))) (put_order ops).
Proof.
  intros U. destruct (after_puts null strmap_init [] ops after_init U) as (m & olds & E & [O M Or L] & Old). cbn [app] in *.
  exists m, olds. split; [done|]. rewrite <- M. split; [intros k; split; [by apply strmap_get_contents|by apply strmap_has_contents]|].
  split; [done|]. split; [by apply len_contents|]. intros fuel Lf. unfold strmap_iter. rewrite drain_pairs by done.
  rewrite drop_0, <- Or. by apply pairs_contents.
Qed.
Lemma strmap_correct_witness : exists m olds,
  strmap_puts 0 strmap_init [([97], 1); ([98], 2); ([97], 3); ([], 4)] = Some (m, olds) /\ olds = [0; 0; 1; 0] /\
  strmap_get 0 m [97] = Some 3 /\ strmap_has m [99] = Some false /\ strmap_len m = 3%nat /\
  strmap_drain 9 (strmap_iter m) = [([97], 3); ([98], 2); ([], 4)].
Proof.
  destruct (strmap_correct 0 [([97], 1); ([98], 2); ([97], 3); ([], 4)]) as (m & olds & E & G & _ & L & D); [done|].
  exists m, olds. split; [exact E|].
  assert (V : (r ← strmap_puts 0 strmap_init [([97], 1); ([98], 2); ([97], 3); ([], 4)]; Some r.2) = Some [0; 0; 1; 0]) by (vm_compute; reflexivity).
  rewrite E in V. cbn [mbind option_bind snd] in V. split; [congruence|].
  split; [rewrite (proj1 (G [97])); vm_compute; reflexivity|]. split; [rewrite (proj2 (G [99])); vm_compute; reflexivity|].
  split; [rewrite L; vm_compute; reflexivity|]. rewrite D; [vm_compute; reflexivity|]. rewrite L. vm_compute. lia.
Defined.
