(* ===== verification/Intern.v ===== *)
(** [src/util/intern.c]: the string interner over the string map. An id is the
    rank of the first interning of a string; 0 is invalid. A stored pointer to
    an id is [Some] of it, the null pointer [None]; [arena_strndup] copies. *)
From stdpp Require Import gmap.
From S2P Require Import Prelude.
From S2P Require Import MapSpec.
From S2P Require Import Strmap.
#[local] Open Scope Z_scope.

Record Interner := mkInterner {
  in_map : Strmap (V := option Z);
  in_strs : list (option (list Z));
  in_cap : nat; in_lookups : nat; in_hits : nat;
}.
Definition in_len (t : Interner) : nat := length (in_strs t).

Definition intern_init : Interner := mkInterner strmap_init [None] 64 0 0.

Definition intern (t : Interner) (s : list Z) : option (Interner * Z) :=
  let lookups := S (in_lookups t) in
  hit ← strmap_get None (in_map t) s;
  match hit with
  | Some id => Some (mkInterner (in_map t) (in_strs t) (in_cap t) lookups (S (in_hits t)), id)
  | None =>
    if 0xFFFFFFFF <? Z.of_nat (in_len t) then None
    else
      let cap := if (in_len t =? in_cap t)%nat then (in_cap t * 2)%nat else in_cap t in
      if (cap <=? in_len t)%nat then None
      else
        let id := u32 (Z.of_nat (in_len t)) in
        '(m, _) ← strmap_put None (in_map t) s (Some id);
        Some (mkInterner m (in_strs t ++ [Some s]) cap lookups (in_hits t), id)
  end.
Definition intern_str (t : Interner) (id : Z) : option (option (list Z)) :=
  if (id =? 0) || (Z.of_nat (in_len t) <=? id) then None else in_strs t !! Z.to_nat id.
Definition intern_count (t : Interner) : nat := in_len t - 1.
Definition intern_lookups (t : Interner) : nat := in_lookups t.
Definition intern_hits (t : Interner) : nat := in_hits t.

Fixpoint interns (t : Interner) (ss : list (list Z)) : option (Interner * list Z) :=
  match ss with
  | [] => Some (t, [])
  | s :: ss => '(t, id) ← intern t s; '(t, ids) ← interns t ss; Some (t, id :: ids)
  end.

(** ** The state after a sequence *)
(** The promises of the string map that the interner uses. *)
#[local] Notation "'laws'" := (strmap_laws (V := option Z) None).
#[local] Notation "'ids_ok'" := (map_ok (MapLaws := laws)).
#[local] Notation "'ids_in'" := (contents (MapLaws := laws)).
(** The strings with an id, in the order of the ids. *)
Record interned (t : Interner) (names : list (list Z)) : Prop := {
  id_nodup : NoDup names;
  id_strs : in_strs t = None :: map Some names;
  id_cap : (0 < in_cap t)%nat /\ (in_len t <= in_cap t)%nat;
  id_map : ids_ok (in_map t);
  id_known k s : names !! k = Some s -> ids_in (in_map t) !! s = Some (Some (Z.of_nat k + 1));
  id_unknown s : s ∉ names -> ids_in (in_map t) !! s = None;
  id_size : size (ids_in (in_map t)) = length names;
}.

Lemma interned_init : interned intern_init [].
Proof.
  destruct (map_init_spec (MapLaws := laws)) as [O C]. split; [constructor|done|cbn; lia|exact O|done| |];
    unfold intern_init; cbn [in_map]; change strmap_init with (map_init (MapOps := strmap_ops (V := option Z) None)); rewrite C; [|by rewrite map_size_empty].
  intros s _. apply lookup_empty.
Qed.
Lemma interned_len t names : interned t names -> in_len t = S (length names).
Proof. intros I. unfold in_len. rewrite (id_strs _ _ I). cbn. by rewrite length_map. Qed.

Lemma intern_known t names k s : interned t names -> names !! k = Some s ->
  exists t', intern t s = Some (t', Z.of_nat k + 1) /\ interned t' names /\ in_lookups t' = S (in_lookups t) /\ in_hits t' = S (in_hits t).
Proof.
  intros I E. unfold intern. change (strmap_get None (in_map t) s) with (map_get (MapOps := strmap_ops None) (in_map t) s). rewrite (map_get_spec (MapLaws := laws)) by (apply I || done).
  rewrite (id_known _ _ I k s E). cbn [mbind option_bind default from_option id]. eexists. split; [done|]. split; [|done].
  destruct I. by split.
Qed.
Lemma intern_new t names s : interned t names -> s ∉ names -> Z.of_nat (length names) + 1 < 2 ^ 32 ->
  exists t', intern t s = Some (t', Z.of_nat (length names) + 1) /\ interned t' (names ++ [s]) /\
    in_lookups t' = S (in_lookups t) /\ in_hits t' = in_hits t.
Proof.
  intros I N U. pose proof (interned_len t names I) as L. unfold intern. change (strmap_get None (in_map t) s) with (map_get (MapOps := strmap_ops None) (in_map t) s).
  rewrite (map_get_spec (MapLaws := laws)) by (apply I || done). rewrite (id_unknown _ _ I s N). cbn [mbind option_bind default from_option id].
  rewrite L, (proj2 (Z.ltb_ge _ _)) by lia. set (cap := if (_ =? _)%nat then _ else _).
  assert (Hc : (S (length names) < cap)%nat). { pose proof (id_cap _ _ I). unfold cap. destruct (Nat.eqb_spec (S (length names)) (in_cap t)); lia. }
  rewrite (proj2 (Nat.leb_gt _ _)) by done. unfold u32. rewrite Z.mod_small by lia.
  replace (Z.of_nat (S (length names))) with (Z.of_nat (length names) + 1) by lia.
  change (strmap_put None (in_map t) s ?v) with (map_put (MapOps := strmap_ops None) (in_map t) s v).
  destruct (map_put_spec (MapLaws := laws) (in_map t) s (Some (Z.of_nat (length names) + 1))) as (m & -> & O & C); [apply I|done| |].
  { change (Z.of_nat (map_len (MapOps := strmap_ops (V := option Z) None) (in_map t)) + 1 < 2 ^ 32). rewrite (map_len_spec (MapLaws := laws)) by apply I. rewrite (id_size _ _ I). lia. }
  cbn [mbind option_bind]. eexists. split; [done|]. split; [|done]. split; cbn [in_map in_strs in_cap].
  - apply list.NoDup_app. split; [apply I|]. split; [|apply list.NoDup_singleton]. by intros x Hx ->%list_elem_of_singleton.
  - rewrite (id_strs _ _ I). by rewrite map_app.
  - unfold in_len. cbn. rewrite (id_strs _ _ I), length_app. cbn. rewrite length_map. lia.
  - done.
  - intros k s' E. rewrite C. destruct (decide (s' = s)) as [->|Ne].
    + rewrite lookup_insert_eq. do 2 f_equal. apply lookup_app_Some in E as [E|[Lk E]]; [by destruct N; apply (list_elem_of_lookup_2 _ k)|].
      destruct (k - length names)%nat eqn:D; [lia|done].
    + rewrite lookup_insert_ne by done. apply (id_known _ _ I). apply lookup_app_Some in E as [E|[Lk E]]; [done|].
      destruct (k - length names)%nat; [injection E as <-; done|done].
  - intros s' H. rewrite C. rewrite lookup_insert_ne by set_solver. apply (id_unknown _ _ I). set_solver.
  - rewrite C, map_size_insert_None by (by apply (id_unknown _ _ I)). rewrite (id_size _ _ I), length_app. cbn. lia.
Qed.

(** The id of a name. *)
Definition id_of (ss : list (list Z)) (s : list Z) (id : Z) : Prop := exists k, first_order ss !! k = Some s /\ id = Z.of_nat k + 1.
Record ran (t : Interner) (ss : list (list Z)) : Prop := {
  rn_names : interned t (first_order ss);
  rn_lookups : in_lookups t = length ss;
  rn_hits : (in_hits t + length (first_order ss) = length ss)%nat;
}.
Lemma ran_intern t ss s : ran t ss -> Z.of_nat (length ss) + 1 < 2 ^ 32 ->
  exists t' id, intern t s = Some (t', id) /\ ran t' (ss ++ [s]) /\ id_of (ss ++ [s]) s id.
Proof.
  intros [I Lo Hi] U. pose proof (first_order_length ss) as Lf. destruct (decide (s ∈ ss)) as [H|H].
  - pose proof (proj2 (first_order_elem ss s) H) as [k Hk]%list_elem_of_lookup. destruct (intern_known t _ k s I Hk) as (t' & E & I' & L' & Hit).
    exists t', (Z.of_nat k + 1). split; [done|]. unfold id_of. rewrite first_order_snoc, decide_True by done. split; [|by exists k].
    split; rewrite ?first_order_snoc, ?decide_True by done; [done| |]; rewrite length_app; cbn; lia.
  - assert (N : s ∉ first_order ss) by by rewrite first_order_elem. destruct (intern_new t _ s I N ltac:(lia)) as (t' & E & I' & L' & Hit).
    eexists t', _. split; [done|]. unfold id_of. rewrite first_order_snoc, decide_False by done. split.
    + split; rewrite ?first_order_snoc, ?decide_False by done; [done| |]; rewrite !length_app; cbn; lia.
    + exists (length (first_order ss)). split; [|done]. by rewrite lookup_app_r, Nat.sub_diag.
Qed.
Lemma ran_interns t ss ss' : ran t ss -> Z.of_nat (length ss + length ss') < 2 ^ 32 -> exists t' ids, interns t ss' = Some (t', ids) /\
  ran t' (ss ++ ss') /\ Forall2 (id_of (ss ++ ss')) ss' ids.
Proof.
  revert t ss. induction ss' as [|s ss' IH]; intros t ss R U; cbn [length interns] in *.
  - exists t, []. rewrite app_nil_r. split; [done|]. split; [done|constructor].
  - destruct (ran_intern t ss s R ltac:(lia)) as (t1 & id & -> & R1 & D). cbn [mbind option_bind].
    destruct (IH t1 _ R1) as (t' & ids & -> & R' & F); [rewrite length_app; cbn; lia|]. cbn [mbind option_bind].
    rewrite <- app_assoc in R', F. eexists t', _. split; [done|]. split; [done|]. constructor; [|done].
    destruct D as (k & Hk & ->). exists k. split; [|done]. eapply prefix_lookup_Some; [exact Hk|].
    change (s :: ss') with ([s] ++ ss'). rewrite app_assoc. apply first_order_prefix.
Qed.

(** C23. The interner gives equal strings the same id and different strings
    different ids, and gives back the string of an id. After any sequence of
    less than [2^32] calls the ids are 1, 2, ... in the order of the first
    occurrences, whatever the hash table did; 0 and ids not given yet are
    refused; and the counters count the strings, the calls and the repetitions. *)
Theorem intern_correct ss : Z.of_nat (length ss) < 2 ^ 32 -> exists t ids, interns intern_init ss = Some (t, ids) /\
  (forall j s, ss !! j = Some s -> exists k id, first_order ss !! k = Some s /\ ids !! j = Some id /\ id = Z.of_nat k + 1 /\ intern_str t id = Some (Some s)) /\
  (forall j j' s s' id id', ss !! j = Some s -> ss !! j' = Some s' -> ids !! j = Some id -> ids !! j' = Some id' -> id = id' <-> s = s') /\
  (forall id, is_u32 id -> intern_str t id <> None <-> 1 <= id <= Z.of_nat (intern_count t)) /\
  intern_count t = length (first_order ss) /\ intern_lookups t = length ss /\ (intern_hits t + intern_count t = length ss)%nat.
Proof.
  intros U. assert (R0 : ran intern_init []) by (split; [apply interned_init|done|done]).
  destruct (ran_interns intern_init [] ss R0 U) as (t & ids & E & [I Lo Hi] & F). cbn [app] in *. exists t, ids. split; [done|].
  pose proof (interned_len t _ I) as L. assert (G : forall j s, ss !! j = Some s -> exists k id, first_order ss !! k = Some s /\ ids !! j = Some id /\ id = Z.of_nat k + 1).
  { intros j s Hj. destruct (Forall2_lookup_l _ _ _ _ _ F Hj) as (id & Hid & k & Hk & Ek). by exists k, id. }
  split; [|split; [|split]].
  - intros j s Hj. destruct (G j s Hj) as (k & id & Hk & Hid & ->). exists k, (Z.of_nat k + 1). split_and!; try done.
    pose proof (lookup_lt_Some _ _ _ Hk). unfold intern_str. rewrite L, (proj2 (Z.eqb_neq _ _)), (proj2 (Z.leb_gt _ _)) by lia. cbn [orb].
    rewrite (id_strs _ _ I). replace (Z.to_nat (Z.of_nat k + 1)) with (S k) by lia. change (map Some (first_order ss) !! k = Some (Some s)). by rewrite list_lookup_fmap, Hk.
  - intros j j' s s' id id' Hj Hj' Hi1 Hi2. destruct (G j s Hj) as (k & i1 & Hk & E1 & ->), (G j' s' Hj') as (k' & i2 & Hk' & E2 & ->). simplify_eq. split.
    + intros Eq. assert (k = k') as <- by lia. congruence.
    + intros <-. by rewrite (NoDup_lookup _ _ _ _ (id_nodup _ _ I) Hk Hk').
  - intros id Hid. unfold is_u32 in Hid. unfold intern_str, intern_count. rewrite L.
    destruct (Z.eqb_spec id 0), (Z.leb_spec (Z.of_nat (S (length (first_order ss)))) id); cbn [orb].
    1-3: split; [done|lia].
    assert (Hs : is_Some (in_strs t !! Z.to_nat id)) by (apply lookup_lt_is_Some; unfold in_len in L; lia). destruct Hs as [? ->]. split; [lia|done].
  - unfold intern_count, intern_lookups, intern_hits. rewrite L. split; [lia|]. split; [done|lia].
Qed.

Lemma intern_correct_witness : exists t ids, interns intern_init [[105; 102]; [120]; [105; 102]; []] = Some (t, ids) /\
  ids = [1; 2; 1; 3] /\ intern_str t 2 = Some (Some [120]) /\ intern_str t 0 = None /\ intern_count t = 3%nat /\ intern_hits t = 1%nat.
Proof.
  destruct (intern_correct [[105; 102]; [120]; [105; 102]; []]) as (t & ids & E & G & _ & R & C & _ & Hi); [reflexivity|].
  exists t, ids. split; [exact E|].
  assert (V : (r ← interns intern_init [[105; 102]; [120]; [105; 102]; []]; Some r.2) = Some [1; 2; 1; 3]) by (vm_compute; reflexivity).
  rewrite E in V. cbn [mbind option_bind snd] in V. injection V as V. split; [exact V|]. subst ids.
  split; [destruct (G 1%nat [120] eq_refl) as (k & id & _ & [= <-] & _ & Hs); exact Hs|]. split; [reflexivity|].
  assert (F : length (first_order [[105; 102]; [120]; [105; 102]; []]) = 3%nat) by (vm_compute; reflexivity).
  rewrite F in C. split; [exact C|]. rewrite C in Hi. cbn [length] in Hi. lia.
Defined.
