(* ===== verification/Ptrmap.v ===== *)
(** [src/util/ptrmap.c]: the pointer map, with open addressing by the identity
    of a pointer. A pointer is its 64-bit representation, [NULL] is 0 and marks
    an empty slot. [None] is [CGF_ICE], an access out of bounds or a probe that
    never ends. *)
From stdpp Require Import gmap.
From S2P Require Import Prelude.
From S2P Require Import MapSpec.
#[local] Open Scope Z_scope.

Definition PTRMAP_FIRST_SLOTS : nat := 8.
Definition SIZE_MAX : Z := 2 ^ 64 - 1.

(** MurmurHash3's finalizer. *)
Definition pointer_hash (key : Z) : Z :=
  let x := key in
  let x := Z.lxor x (x >>64 33) in
  let x := x *64 0xff51afd7ed558ccd in
  let x := Z.lxor x (x >>64 33) in
  let x := x *64 0xc4ceb9fe1a85ec53 in
  Z.lxor x (x >>64 33).

Section ptrmap.
  Context {V : Type} (null : V).

Record PtrmapSlot := mkSlot { ps_key : Z; ps_value : V }.
(** [pm_arena]: whether the map was initialized. *)
Record Ptrmap := mkPtrmap { pm_slots : list PtrmapSlot; pm_len : nat; pm_arena : bool }.
Definition slot_count (m : Ptrmap) : nat := length (pm_slots m).
Definition sizeof_PtrmapSlot : Z := 16.

Definition ptrmap_init : Ptrmap := mkPtrmap [] 0 true.

Definition masked (count : nat) (i : Z) : nat := Z.to_nat (Z.land i (Z.of_nat count - 1)).
Fixpoint probe_loop (slots : list PtrmapSlot) (key : Z) (fuel slot : nat) : option nat :=
  s ← slots !! slot;
  if negb (ps_key s =? 0) && negb (ps_key s =? key) then
    match fuel with
    | O => None
    | S fuel => probe_loop slots key fuel (masked (length slots) (Z.of_nat slot + 1))
    end
  else Some slot.
Definition probe (slots : list PtrmapSlot) (key : Z) : option nat :=
  probe_loop slots key (length slots) (masked (length slots) (pointer_hash key)).

Fixpoint reinsert (old : list PtrmapSlot) (slots : list PtrmapSlot) : option (list PtrmapSlot) :=
  match old with
  | [] => Some slots
  | s :: old =>
    if ps_key s =? 0 then reinsert old slots
    else i ← probe slots (ps_key s); reinsert old (<[i := s]> slots)
  end.
Definition grow (m : Ptrmap) : option Ptrmap :=
  if SIZE_MAX / 2 <? Z.of_nat (slot_count m) then None
  else
    let count := match slot_count m with O => PTRMAP_FIRST_SLOTS | n => (n * 2)%nat end in
    if SIZE_MAX / sizeof_PtrmapSlot <? Z.of_nat count then None
    else slots ← reinsert (pm_slots m) (replicate count (mkSlot 0 null)); Some (mkPtrmap slots (pm_len m) (pm_arena m)).

Definition ptrmap_get (m : Ptrmap) (key : Z) : option V :=
  if (key =? 0) || (slot_count m =? 0)%nat then Some null
  else
    slot ← probe (pm_slots m) key;
    s ← pm_slots m !! slot;
    Some (if negb (ps_key s =? 0) then ps_value s else null).

(** The put of a key that has no slot yet. *)
Definition put_new (m : Ptrmap) (key : Z) (value : V) : option (Ptrmap * V) :=
  m ← (if (slot_count m =? 0)%nat || (slot_count m - slot_count m / 4 <=? pm_len m)%nat then grow m else Some m);
  slot ← probe (pm_slots m) key;
  Some (mkPtrmap (<[slot := mkSlot key value]> (pm_slots m)) (S (pm_len m)) (pm_arena m), null).
Definition ptrmap_put (m : Ptrmap) (key : Z) (value : V) : option (Ptrmap * V) :=
  if key =? 0 then None
  else if negb (pm_arena m) then None
  else if negb (slot_count m =? 0)%nat then
    slot ← probe (pm_slots m) key;
    s ← pm_slots m !! slot;
    if negb (ps_key s =? 0)
    then Some (mkPtrmap (<[slot := mkSlot (ps_key s) value]> (pm_slots m)) (pm_len m) (pm_arena m), ps_value s)
    else put_new m key value
  else put_new m key value.
Definition ptrmap_len (m : Ptrmap) : nat := pm_len m.
End ptrmap.

(** The pointer map is a finite map: every probe ends, before and after growth,
    and the table is never more than three quarters full. *)

Lemma pointer_hash_nonneg k : 0 <= k -> 0 <= pointer_hash k.
Proof.
  intros H. unfold pointer_hash. cbv zeta. apply Z.lxor_nonneg. rewrite Z.shiftr_nonneg. by unfold u64.
Qed.
Lemma ptr_masked_mod p i : 0 <= i -> masked (2 ^ p) i = (Z.to_nat i mod 2 ^ p)%nat.
Proof.
  intros H. unfold masked. replace (Z.of_nat (2 ^ p) - 1) with (Z.ones (Z.of_nat p)).
  - rewrite Z.land_ones by lia. rewrite Z2Nat.inj_mod by lia. f_equal. rewrite Z2Nat.inj_pow by lia. by rewrite Nat2Z.id.
  - rewrite Z.ones_equiv, Nat2Z.inj_pow. lia.
Qed.

Section ptrmap.
  Context {V : Type} (null : V).
  Implicit Types (m : Ptrmap (V := V)) (slots : list (PtrmapSlot (V := V))) (key : Z).

Definition home (key : Z) : nat := Z.to_nat (pointer_hash key).
Definition slot_key (s : PtrmapSlot (V := V)) : option Z := if ps_key s =? 0 then None else Some (ps_key s).
Definition view slots : list (option Z) := map slot_key slots.
Definition used slots : list (Z * V) := map (fun s => (ps_key s, ps_value s)) (List.filter (fun s => negb (ps_key s =? 0)) slots).
Definition entries_of slots : gmap Z V := list_to_map (used slots).

(** A table in order. *)
Record table slots : Prop := {
  tb_size : exists p, length slots = (2 ^ p)%nat;
  tb_keys i s : slots !! i = Some s -> 0 <= ps_key s;
  tb_placed : well_placed home (view slots);
}.

Lemma ptr_view_lookup slots i : view slots !! i = slot_key <$> slots !! i.
Proof. apply list_lookup_fmap. Qed.
Lemma ptr_view_key slots i key : view slots !! i = Some (Some key) <-> exists s, slots !! i = Some s /\ ps_key s = key /\ key <> 0.
Proof.
  rewrite ptr_view_lookup. destruct (slots !! i) as [s|]; cbn; [|naive_solver]. unfold slot_key. destruct (Z.eqb_spec (ps_key s) 0); naive_solver.
Qed.
Lemma ptr_view_empty slots i : view slots !! i = Some None <-> exists s, slots !! i = Some s /\ ps_key s = 0.
Proof.
  rewrite ptr_view_lookup. destruct (slots !! i) as [s|]; cbn; [|naive_solver]. unfold slot_key. destruct (Z.eqb_spec (ps_key s) 0); naive_solver.
Qed.
Lemma ptr_probe_scan slots key fuel i : table slots -> key <> 0 -> (i < length slots)%nat ->
  probe_loop slots key fuel i = scan (stops (view slots) key) (length slots) fuel i.
Proof.
  intros T Nk. destruct (tb_size _ T) as [p Hp]. revert i. induction fuel as [|fuel IH]; intros i L.
  all: destruct (lookup_lt_is_Some_2 slots i L) as [s E]; cbn [probe_loop scan]; rewrite E; cbn [mbind option_bind].
  all: unfold stops at 1, key_at; rewrite ptr_view_lookup, E; cbn [fmap option_fmap option_map default from_option id]; unfold slot_key at 1.
  all: destruct (Z.eqb_spec (ps_key s) 0); cbn [negb andb]; [done|]; case_bool_decide as Ek; destruct (Z.eqb_spec (ps_key s) key); cbn [negb]; try done.
  rewrite Hp, ptr_masked_mod by lia. replace (Z.to_nat (Z.of_nat i + 1)) with (S i) by lia. rewrite <- Hp. apply IH. apply Nat.mod_upper_bound. lia.
Qed.
Lemma ptr_probe_walk slots key : table slots -> 0 < key -> (0 < length slots)%nat -> probe slots key = walk_to home (view slots) key.
Proof.
  intros T K L. destruct (tb_size _ T) as [p Hp]. unfold probe, walk_to. unfold view at 2 3 4. rewrite length_map. rewrite Hp at 2.
  rewrite ptr_masked_mod by (apply pointer_hash_nonneg; lia). rewrite <- Hp. rewrite ptr_probe_scan by (try done; try lia; apply Nat.mod_upper_bound; lia). done.
Qed.

(** ** The map of a table *)
Lemma used_elem slots k v : (k, v) ∈ used slots <-> exists i s, slots !! i = Some s /\ ps_key s = k /\ ps_value s = v /\ k <> 0.
Proof.
  unfold used. rewrite list_elem_of_In, in_map_iff. split.
  - intros (s & [= <- <-] & [Hs N]%List.filter_In). apply list_elem_of_In, list_elem_of_lookup in Hs as [i Hi]. exists i, s.
    apply negb_true_iff, Z.eqb_neq in N. done.
  - intros (i & s & Hi & <- & <- & N). exists s. split; [done|]. apply List.filter_In. split; [|by apply negb_true_iff, Z.eqb_neq].
    apply list_elem_of_In. by eapply list_elem_of_lookup_2.
Qed.
Lemma used_nodup slots : well_placed home (view slots) -> NoDup (used slots).*1.
Proof.
  intros W. assert (G : forall i j k, view slots !! i = Some (Some k) -> view slots !! j = Some (Some k) -> i = j) by apply W. clear W.
  induction slots as [|s slots IH]; [constructor|]. unfold used in *. cbn [List.filter map].
  assert (G' : forall i j k, view slots !! i = Some (Some k) -> view slots !! j = Some (Some k) -> i = j).
  { intros i j k Hi Hj. assert (S i = S j); [|lia]. by apply (G (S i) (S j) k). }
  destruct (Z.eqb_spec (ps_key s) 0) as [E|N]; cbn [negb]; [by apply IH|]. cbn [fmap list_fmap map fst]. apply list.NoDup_cons. split; [|by apply IH].
  intros ([k v] & Ek & (i & s' & Hi & Hk & _ & Nk)%used_elem)%list_elem_of_fmap. cbn in Ek. subst k.
  specialize (G 0%nat (S i) (ps_key s)). enough (0%nat = S i) by lia. apply G; [cbn; unfold slot_key; by rewrite (proj2 (Z.eqb_neq _ _))|].
  cbn. apply ptr_view_key. by exists s'.
Qed.
Lemma entries_lookup slots k v : table slots -> entries_of slots !! k = Some v <-> exists i s, slots !! i = Some s /\ ps_key s = k /\ ps_value s = v /\ k <> 0.
Proof. intros T. unfold entries_of. rewrite <- elem_of_list_to_map by (apply used_nodup, T). apply used_elem. Qed.
Lemma entries_None slots k : table slots -> k <> 0 -> entries_of slots !! k = None <-> ~ holds_key (view slots) k.
Proof.
  intros T N. split.
  - intros E [i (s & Hi & Hk & _)%ptr_view_key]. assert (entries_of slots !! k = Some (ps_value s)); [|congruence]. apply entries_lookup; [done|]. by exists i, s.
  - intros A. destruct (entries_of slots !! k) as [v|] eqn:E; [|done]. apply entries_lookup in E as (i & s & Hi & Hk & _); [|done].
    destruct A. exists i. apply ptr_view_key. by exists s.
Qed.
Lemma holds_used slots k : holds_key (view slots) k -> k ∈ (used slots).*1.
Proof.
  intros [i (s & Hi & Hk & N)%ptr_view_key]. apply list_elem_of_fmap. exists (k, ps_value s). split; [done|]. apply used_elem. by exists i, s.
Qed.

(** ** Writing a slot *)
Lemma insert_table slots i s : table slots -> (i < length slots)%nat -> 0 < ps_key s -> well_placed home (view (<[i := s]> slots)) -> table (<[i := s]> slots).
Proof.
  intros T L K W. split; [rewrite length_insert; apply T| |done]. intros j s' Hj.
  apply list_lookup_insert_Some in Hj as [(-> & -> & _)|[_ Hj]]; [lia|by apply (tb_keys _ T j)].
Qed.
Lemma view_insert slots i s : ps_key s <> 0 -> view (<[i := s]> slots) = <[i := Some (ps_key s)]> (view slots).
Proof. intros N. unfold view. rewrite list_fmap_insert. unfold slot_key at 1. by rewrite (proj2 (Z.eqb_neq _ _)). Qed.
Lemma used_insert_length slots i s s' : slots !! i = Some s' -> ps_key s <> 0 ->
  length (used (<[i := s]> slots)) = ((if (ps_key s' =? 0)%Z then 1 else 0) + length (used slots))%nat.
Proof.
  intros E N. pose proof (lookup_lt_Some _ _ _ E). rewrite insert_take_drop by done. rewrite <- (take_drop_middle slots i s' E) at 3. unfold used.
  rewrite !List.filter_app, !length_map, !length_app. cbn [List.filter]. rewrite (proj2 (Z.eqb_neq _ _) N). cbn [negb].
  destruct (ps_key s' =? 0); cbn [negb length]; lia.
Qed.
Lemma entries_insert slots i s : table slots -> table (<[i := s]> slots) -> (i < length slots)%nat -> 0 < ps_key s ->
  (forall j s', slots !! j = Some s' -> j <> i -> ps_key s' <> ps_key s) -> (forall s', slots !! i = Some s' -> ps_key s' = 0 \/ ps_key s' = ps_key s) ->
  entries_of (<[i := s]> slots) = <[ps_key s := ps_value s]> (entries_of slots).
Proof.
  intros T T' L K Other Here. apply map_eq. intros k. apply option_eq. intros v. rewrite entries_lookup by done.
  destruct (decide (k = ps_key s)) as [->|N].
  - rewrite lookup_insert_eq. split.
    + intros (j & s' & Hj & Hk & <- & _). apply list_lookup_insert_Some in Hj as [(_ & -> & _)|[Ne Hj]]; [done|]. by destruct (Other j s' Hj).
    + intros [= <-]. exists i, s. rewrite list_lookup_insert_eq by done. split_and!; try done. lia.
  - rewrite lookup_insert_ne, entries_lookup by done. split.
    + intros (j & s' & Hj & Hk & Hv & Nz). apply list_lookup_insert_Some in Hj as [(_ & -> & _)|[Ne Hj]]; [congruence|]. by exists j, s'.
    + intros (j & s' & Hj & Hk & Hv & Nz). exists j, s'. rewrite list_lookup_insert_ne; [done|]. intros ->. destruct (Here s' Hj); congruence.
Qed.

(** A new key goes to the empty slot its probe finds. *)
Lemma table_add slots s : table slots -> 0 < ps_key s -> ~ holds_key (view slots) (ps_key s) -> (length (used slots) < length slots)%nat ->
  exists i, probe slots (ps_key s) = Some i /\ table (<[i := s]> slots) /\ entries_of (<[i := s]> slots) = <[ps_key s := ps_value s]> (entries_of slots) /\
    length (used (<[i := s]> slots)) = S (length (used slots)).
Proof.
  intros T K A L. destruct (has_empty home (view slots) (used slots).*1 (tb_placed _ T)) as [e He].
  { intros k. apply holds_used. }
  { unfold view. by rewrite length_fmap, length_map. }
  destruct (walk_absent home _ _ e (tb_placed _ T) A He) as (i & W & E & _). pose proof E as E'. apply ptr_view_empty in E' as (s' & Hi & Z0).
  pose proof (lookup_lt_Some _ _ _ Hi) as Li. exists i. rewrite ptr_probe_walk by (done || lia). split; [done|].
  assert (T' : table (<[i := s]> slots)).
  { apply insert_table; [done|done|done|]. rewrite view_insert by lia. by apply walk_insert; [apply T| | |]. }
  split; [done|]. split.
  - apply entries_insert; [done..| |intros s'' Hs; left; congruence]. intros j s'' Hj _ Ek. apply A. exists j. apply ptr_view_key. exists s''. split; [done|]. split; [done|lia].
  - rewrite (used_insert_length slots i s s' Hi) by lia. by rewrite Z0.
Qed.
Lemma fresh_table p : table (replicate (2 ^ p) (mkSlot 0 null)) /\ used (replicate (2 ^ p) (mkSlot 0 null)) = [].
Proof.
  split; [split|].
  - exists p. apply length_replicate.
  - by intros i s [-> _]%lookup_replicate.
  - unfold view. rewrite fmap_replicate. apply well_placed_empty.
  - induction (2 ^ p)%nat as [|n IH]; [done|]. exact IH.
Qed.

(** Reinsertion of what is left of the old table. *)
Lemma ptr_reinsert_spec old slots : table slots -> NoDup (used old).*1 -> (forall i s, old !! i = Some s -> 0 <= ps_key s) ->
  (forall k, k ∈ (used old).*1 -> ~ holds_key (view slots) k) ->
  (length (used slots) + length (used old) < length slots)%nat ->
  exists slots', reinsert old slots = Some slots' /\ table slots' /\ length slots' = length slots /\
    length (used slots') = (length (used slots) + length (used old))%nat /\
    entries_of slots' = (list_to_map (used old) : gmap Z V) ∪ entries_of slots.
Proof.
  revert slots. induction old as [|s old IH]; intros slots T ND Pos Dis L.
  - exists slots. split_and!; try done. cbn. by rewrite map_empty_union.
  - assert (Pos' : forall i s', old !! i = Some s' -> 0 <= ps_key s') by (intros i s' Hi; by apply (Pos (S i))).
    cbn [reinsert]. unfold used in ND, Dis, L |- *. cbn [List.filter] in *. destruct (Z.eqb_spec (ps_key s) 0) as [E|N]; cbn [negb] in *; [by apply IH|].
    cbn [map length fmap list_fmap fst] in ND, Dis, L |- *. apply list.NoDup_cons in ND as [Ns ND]. fold (used old) in *. fold (used slots) in *.
    assert (K : 0 < ps_key s) by (pose proof (Pos 0%nat s eq_refl); lia).
    destruct (table_add slots s T K) as (i & -> & T' & Em & Cn); [apply Dis; left|lia|]. cbn [mbind option_bind].
    destruct (IH _ T' ND Pos') as (slots' & R & T'' & Len & Cn' & Em').
    + intros k Hk [j (s' & Hj & Hs & Nz)%ptr_view_key]. apply list_lookup_insert_Some in Hj as [(_ & -> & _)|[_ Hj]]; [subst k; done|].
      apply (Dis k); [by right|]. exists j. apply ptr_view_key. by exists s'.
    + rewrite Cn, length_insert. lia.
    + exists slots'. split; [done|]. split; [done|]. rewrite length_insert in Len. split; [done|]. split; [change (length (map _ _)) with (length (used slots')) at 1; rewrite Cn', Cn; lia|].
      rewrite Em', Em. cbn [list_to_map foldr]. rewrite <- insert_union_r; [by rewrite insert_union_l|].
      by apply not_elem_of_list_to_map_1.
Qed.

(** ** The map *)
Definition contents_of m : gmap Z V := entries_of (pm_slots m).
Record ptrmap_ok m : Prop := {
  po_arena : pm_arena m = true;
  po_table : (pm_slots m = [] /\ pm_len m = 0%nat) \/ (table (pm_slots m) /\ (8 <= slot_count m)%nat);
  po_len : pm_len m = length (used (pm_slots m));
  po_load : (pm_len m <= slot_count m - slot_count m / 4)%nat;
}.
Lemma ptrmap_init_ok : ptrmap_ok ptrmap_init /\ contents_of ptrmap_init = ∅.
Proof. split; [|done]. split; [done|by left|done|done]. Qed.
Lemma load_below n : (8 <= n)%nat -> (n - n / 4 < n)%nat.
Proof. intros H. pose proof (Nat.div_str_pos n 4 ltac:(lia)). lia. Qed.

(** A probe ends at the slot of the key or, for an absent key, at an empty slot. *)
Lemma ptr_find_slot m key : ptrmap_ok m -> slot_count m <> 0%nat -> 0 < key ->
  exists i s, probe (pm_slots m) key = Some i /\ pm_slots m !! i = Some s /\
    ((ps_key s = key /\ contents_of m !! key = Some (ps_value s)) \/ (ps_key s = 0 /\ contents_of m !! key = None)).
Proof.
  intros O N K. destruct (po_table m O) as [[E _]|[T L8]]; [by unfold slot_count in N; rewrite E in N|]. pose proof (po_len m O) as Pl.
  pose proof (po_load m O) as Ld. pose proof (load_below _ L8). unfold slot_count in *. rewrite ptr_probe_walk by (done || lia).
  destruct (contents_of m !! key) as [v|] eqn:E.
  - pose proof E as (i & s & Hi & Hk & <- & _)%entries_lookup; [|done]. exists i, s. split; [|by split; [|left]].
    apply walk_found; [apply T|]. apply ptr_view_key. exists s. split; [done|]. split; [done|lia].
  - apply entries_None in E as A; [|done|lia]. destruct (has_empty home (view (pm_slots m)) (used (pm_slots m)).*1 (tb_placed _ T)) as [e He].
    { intros k. apply holds_used. }
    { unfold view. rewrite length_fmap, length_map. lia. }
    destruct (walk_absent home _ _ e (tb_placed _ T) A He) as (i & W & Hi & _). apply ptr_view_empty in Hi as (s & Hi & Z0).
    exists i, s. split; [done|]. split; [done|by right].
Qed.
Lemma ptrmap_get_spec m key : ptrmap_ok m -> 0 < key -> ptrmap_get null m key = Some (default null (contents_of m !! key)).
Proof.
  intros O K. unfold ptrmap_get. rewrite (proj2 (Z.eqb_neq _ _)) by lia. cbn [orb]. destruct (Nat.eqb_spec (slot_count m) 0) as [E|N].
  - unfold contents_of. by rewrite (nil_length_inv _ E).
  - destruct (ptr_find_slot m key O N K) as (i & s & -> & Hi & [[Hk ->]|[Hk ->]]); cbn [mbind option_bind]; rewrite Hi; cbn [mbind option_bind]; rewrite Hk; [|done].
    by rewrite (proj2 (Z.eqb_neq _ _)) by lia.
Qed.
Lemma grow_spec m : ptrmap_ok m -> (slot_count m = 0 \/ slot_count m - slot_count m / 4 <= pm_len m)%nat -> Z.of_nat (pm_len m) < 2 ^ 58 ->
  exists m', grow null m = Some m' /\ ptrmap_ok m' /\ contents_of m' = contents_of m /\ (8 <= slot_count m')%nat /\
    (pm_len m' < slot_count m' - slot_count m' / 4)%nat /\ pm_len m' = pm_len m.
Proof.
  intros O Full U. set (n := match slot_count m with O => PTRMAP_FIRST_SLOTS | n => (n * 2)%nat end).
  assert (Hn : (exists p, n = 2 ^ p)%nat /\ (8 <= n)%nat /\ (pm_len m < n - n / 4)%nat /\ Z.of_nat n < 2 ^ 60 /\ Z.of_nat (slot_count m) < 2 ^ 60 /\
    NoDup (used (pm_slots m)).*1 /\ forall i s, pm_slots m !! i = Some s -> 0 <= ps_key s).
  { pose proof (po_load m O) as Ld. destruct (po_table m O) as [[E El]|[T L8]].
    - unfold n, slot_count in *. rewrite E, El. cbn [length]. split; [by exists 3%nat|]. split; [done|]. split; [cbn; lia|]. split_and!; try done. constructor.
    - destruct (tb_size _ T) as [p Hp]. fold (slot_count m) in Hp. assert (n = (slot_count m * 2)%nat) as -> by (unfold n; destruct (slot_count m); [lia|done]).
      assert (exists q, slot_count m = (4 * q)%nat) as [q Hq].
      { destruct p as [|[|p]]; [cbn in Hp; lia..|]. exists (2 ^ p)%nat. rewrite Hp. cbn. lia. }
      assert (slot_count m / 4 = q)%nat as Dq by (rewrite Hq, Nat.mul_comm; by apply Nat.div_mul).
      assert ((slot_count m * 2) / 4 = 2 * q)%nat as D2 by (replace (slot_count m * 2)%nat with (2 * q * 4)%nat by lia; by apply Nat.div_mul).
      rewrite D2. split; [exists (S p); rewrite Nat.pow_succ_r', <- Hp; lia|]. split_and!; try lia; [apply used_nodup, T|apply (tb_keys _ T)]. }
  destruct Hn as ([p Hp] & L8 & Hl & U60 & U60' & ND & Pos). destruct (fresh_table p) as [T0 F0]. rewrite <- Hp in T0, F0.
  destruct (ptr_reinsert_spec (pm_slots m) (replicate n (mkSlot 0 null))) as (slots & R & T & L & Cn & Em); [done..| | |].
  { intros k _ [i (s & [-> _]%lookup_replicate & <- & Hk)%ptr_view_key]. done. }
  { rewrite F0, length_replicate. cbn [length]. rewrite <- (po_len m O). lia. }
  rewrite length_replicate in L. rewrite F0 in Cn. cbn in Cn. exists (mkPtrmap slots (pm_len m) (pm_arena m)). unfold slot_count at 1 2 3. cbn [pm_slots pm_len].
  split.
  { unfold grow. change (SIZE_MAX / 2) with (2 ^ 63 - 1). rewrite (proj2 (Z.ltb_ge _ _)) by lia. fold n. cbv zeta.
    change (SIZE_MAX / sizeof_PtrmapSlot) with (2 ^ 60 - 1). rewrite (proj2 (Z.ltb_ge _ _)) by lia. by rewrite R. }
  rewrite L. split_and!; try done.
  - split; unfold slot_count; cbn [pm_slots pm_len pm_arena]; rewrite ?L; [apply O|by right|rewrite Cn; apply O|lia].
  - unfold contents_of. cbn [pm_slots]. rewrite Em. unfold entries_of at 1. rewrite F0. apply map_union_empty.
Qed.
Lemma put_new_spec m key v : ptrmap_ok m -> 0 < key -> contents_of m !! key = None -> Z.of_nat (pm_len m) < 2 ^ 58 ->
  exists m', put_new null m key v = Some (m', null) /\ ptrmap_ok m' /\ contents_of m' = <[key := v]> (contents_of m) /\ pm_len m' = S (pm_len m).
Proof.
  intros O K A U. unfold put_new.
  assert (G : exists m1, (if (slot_count m =? 0)%nat || (slot_count m - slot_count m / 4 <=? pm_len m)%nat then grow null m else Some m) = Some m1 /\
    ptrmap_ok m1 /\ contents_of m1 = contents_of m /\ (8 <= slot_count m1)%nat /\ (pm_len m1 < slot_count m1 - slot_count m1 / 4)%nat /\ pm_len m1 = pm_len m).
  { destruct (_ || _) eqn:C; [apply grow_spec; [done| |done]|].
    - apply orb_true_iff in C as [C%Nat.eqb_eq|C%Nat.leb_le]; [by left|by right].
    - apply orb_false_iff in C as [C1%Nat.eqb_neq C2%Nat.leb_gt]. exists m. destruct (po_table m O) as [[E _]|[T L8]]; [by unfold slot_count in C1; rewrite E in C1|].
      split_and!; done || lia. }
  destruct G as (m1 & -> & O1 & C1 & L8 & Ld & El). cbn [mbind option_bind]. destruct (po_table m1 O1) as [[E _]|[T _]]; [unfold slot_count in L8; rewrite E in L8; cbn in L8; lia|].
  pose proof (load_below _ L8). rewrite <- C1 in A. apply entries_None in A; [|done|lia]. pose proof (po_len m1 O1) as Pl.
  destruct (table_add (pm_slots m1) (mkSlot key v) T K A) as (i & P & T' & Em & Cn); [unfold slot_count in *; lia|]. cbn [ps_key ps_value] in *.
  rewrite P. cbn [mbind option_bind]. eexists. split; [done|]. rewrite El. split; [|split; [|done]].
  - split; unfold slot_count in *; cbn [pm_slots pm_len pm_arena]; rewrite ?length_insert, ?Cn; [apply O1| |lia..]. right. split; [done|]. lia.
  - unfold contents_of in *. cbn [pm_slots]. by rewrite Em, C1.
Qed.
Lemma ptrmap_put_spec m key v : ptrmap_ok m -> 0 < key -> Z.of_nat (pm_len m) < 2 ^ 58 ->
  exists m', ptrmap_put null m key v = Some (m', default null (contents_of m !! key)) /\ ptrmap_ok m' /\
    contents_of m' = <[key := v]> (contents_of m).
Proof.
  intros O K U. unfold ptrmap_put. rewrite (proj2 (Z.eqb_neq _ _)), (po_arena m O) by lia. cbn [negb].
  destruct (Nat.eqb_spec (slot_count m) 0) as [E|N]; cbn [negb].
  { assert (C : contents_of m !! key = None) by (unfold contents_of; by rewrite (nil_length_inv _ E)).
    destruct (put_new_spec m key v O K C U) as (m' & -> & O' & C' & _). exists m'. by rewrite C. }
  destruct (ptr_find_slot m key O N K) as (i & s & P & Hi & [[Hk C]|[Hk C]]); rewrite P; cbn [mbind option_bind]; rewrite Hi; cbn [mbind option_bind]; rewrite Hk, C.
  2: { destruct (put_new_spec m key v O K C U) as (m' & E & O' & C' & _). by exists m'. }
  rewrite (proj2 (Z.eqb_neq _ _)) by lia. cbn [negb default from_option id]. eexists. split; [done|].
  destruct (po_table m O) as [[E _]|[T L8]]; [by unfold slot_count in N; rewrite E in N|]. pose proof (lookup_lt_Some _ _ _ Hi) as Li.
  assert (Vi : view (<[i := mkSlot key v]> (pm_slots m)) = view (pm_slots m)).
  { rewrite view_insert by (cbn; lia). apply list_insert_id. apply ptr_view_key. exists s. split; [done|]. split; [done|cbn; lia]. }
  assert (T' : table (<[i := mkSlot key v]> (pm_slots m))) by (apply insert_table; [done|done|done|]; rewrite Vi; apply T).
  assert (Un : length (used (<[i := mkSlot key v]> (pm_slots m))) = length (used (pm_slots m))).
  { rewrite (used_insert_length _ i (mkSlot key v) s Hi) by (cbn; lia). by rewrite (proj2 (Z.eqb_neq _ _)) by lia. }
  split.
  - split; unfold slot_count; cbn [pm_slots pm_len pm_arena]; rewrite ?length_insert, ?Un; try apply O; [done|by right].
  - unfold contents_of. cbn [pm_slots]. apply (entries_insert (pm_slots m) i (mkSlot key v)); [done..| |intros s' Hs'; right; cbn; congruence].
    intros j s' Hj Ne Ek. destruct Ne. cbn in Ek. apply (wp_once _ _ (tb_placed _ T) j i key); apply ptr_view_key; [exists s'|exists s]; split_and!; done || lia.
Qed.
Lemma ptr_len_contents m : ptrmap_ok m -> pm_len m = size (contents_of m).
Proof.
  intros O. rewrite (po_len m O). unfold contents_of, entries_of. destruct (po_table m O) as [[E _]|[T _]]; [by rewrite E|].
  by rewrite map_size_list_to_map by apply used_nodup, T.
Qed.
End ptrmap.

(** The promise to the clients. *)
#[export] Instance ptrmap_ops {V} (null : V) : MapOps (Ptrmap (V := V)) Z V :=
  {| map_init := ptrmap_init; map_get := ptrmap_get null; map_put := ptrmap_put null; map_len := ptrmap_len |}.
#[export] Program Instance ptrmap_laws {V} (null : V) : MapLaws (Ptrmap (V := V)) Z V null (ptrmap_ops null) :=
  {| map_ok := ptrmap_ok; contents := contents_of; map_key k := 0 < k; map_room m := Z.of_nat (pm_len m) < 2 ^ 58 |}.
Next Obligation. intros. apply ptrmap_init_ok. Qed.
Next Obligation. intros V null m k O K. by apply ptrmap_get_spec. Qed.
Next Obligation. intros V null m k v O K R. by apply ptrmap_put_spec. Qed.
Next Obligation. intros V null m O. by apply ptr_len_contents. Qed.

(** ** Sequences of puts *)
Section puts.
  Context {V : Type} (null : V).

Fixpoint ptrmap_puts (m : Ptrmap) (ops : list (Z * V)) : option (Ptrmap * list V) :=
  match ops with
  | [] => Some (m, [])
  | (k, v) :: ops => '(m, old) ← ptrmap_put null m k v; '(m, olds) ← ptrmap_puts m ops; Some (m, old :: olds)
  end.
(** The specification: the last put of a key wins. *)
Definition put_map (ops : list (Z * V)) : gmap Z V := list_to_map (rev ops).
Lemma ptr_put_map_snoc ops k v : put_map (ops ++ [(k, v)]) = <[k := v]> (put_map ops).
Proof. unfold put_map. by rewrite rev_app_distr. Qed.
Lemma put_map_size ops : (size (put_map ops) <= length ops)%nat.
Proof.
  induction ops as [|[k v] ops IH] using rev_ind; [done|]. rewrite ptr_put_map_snoc, length_app, map_size_insert. cbn [length].
  destruct (put_map ops !! k); cbn; lia.
Qed.
Lemma ptrmap_puts_spec m ops ops' : ptrmap_ok m -> contents_of m = put_map ops -> Forall (fun kv => 0 < kv.1) ops' ->
  Z.of_nat (length ops + length ops') <= 2 ^ 58 ->
  exists m' olds, ptrmap_puts m ops' = Some (m', olds) /\ ptrmap_ok m' /\ contents_of m' = put_map (ops ++ ops') /\
    forall j k v, ops' !! j = Some (k, v) -> olds !! j = Some (default null (put_map (ops ++ take j ops') !! k)).
Proof.
  revert m ops. induction ops' as [|[k v] ops' IH]; intros m ops O C F U.
  - exists m, []. rewrite app_nil_r. by split_and!.
  - cbn [length] in U. apply Forall_cons_iff in F as [K F]. cbn in K. pose proof (put_map_size ops) as Sz.
    destruct (ptrmap_put_spec null m k v O K) as (m1 & E & O1 & C1); [rewrite (ptr_len_contents m O), C; lia|].
    cbn [ptrmap_puts]. rewrite E. cbn [mbind option_bind]. rewrite C, <- ptr_put_map_snoc in C1.
    destruct (IH m1 _ O1 C1 F) as (m' & olds & -> & O' & C' & Old); [rewrite length_app; cbn; lia|]. cbn [mbind option_bind].
    exists m'. eexists. split; [done|]. rewrite <- app_assoc in C'. split; [done|]. split; [done|]. intros [|j] k' v' Hj.
    + injection Hj as <- <-. cbn. by rewrite app_nil_r, C.
    + cbn in Hj |- *. specialize (Old j k' v' Hj). by rewrite <- app_assoc in Old.
Qed.
End puts.

(** The pointer map is a finite map from non-null pointers. After any
    sequence of at most [2^58] puts no capacity check has fired and every probe
    has ended; each key reads as its last value, an absent key and [NULL] as the
    null pointer; each put has returned the value it replaced; the length is the
    number of distinct keys; a put of [NULL] is refused; and the table is at
    most three quarters full, so that the next probe ends too. *)
Theorem ptrmap_correct {V} (null : V) ops : Forall (fun kv => 0 < kv.1) ops -> Z.of_nat (length ops) <= 2 ^ 58 ->
  exists m olds, ptrmap_puts null ptrmap_init ops = Some (m, olds) /\
    (forall k, 0 < k -> ptrmap_get null m k = Some (default null (put_map ops !! k))) /\
    ptrmap_get null m 0 = Some null /\ (forall v, ptrmap_put null m 0 v = None) /\
    (forall j k v, ops !! j = Some (k, v) -> olds !! j = Some (default null (put_map (take j ops) !! k))) /\
    ptrmap_len m = size (put_map ops) /\ (ptrmap_len m <= slot_count m - slot_count m / 4)%nat.
Proof.
  intros F U. destruct (ptrmap_init_ok (V := V)) as [O0 C0]. destruct (ptrmap_puts_spec null ptrmap_init [] ops O0 C0 F U) as (m & olds & E & O & C & Old).
  cbn [app] in *. exists m, olds. rewrite <- C. split; [done|]. split; [intros k K; by apply ptrmap_get_spec|]. split; [done|]. split; [done|]. split; [done|].
  split; [by apply ptr_len_contents|apply O].
Qed.
Lemma ptrmap_correct_witness : exists m olds,
  ptrmap_puts 0 ptrmap_init [(4096, 1); (8192, 2); (4096, 3)] = Some (m, olds) /\ olds = [0; 0; 1] /\
  ptrmap_get 0 m 4096 = Some 3 /\ ptrmap_get 0 m 77 = Some 0 /\ ptrmap_get 0 m 0 = Some 0 /\ ptrmap_len m = 2%nat.
Proof.
  destruct (ptrmap_correct 0 [(4096, 1); (8192, 2); (4096, 3)]) as (m & olds & E & G & N & _ & _ & L & _);
    [repeat constructor|done|]. exists m, olds. split; [exact E|].
  assert (V : (r ← ptrmap_puts 0 ptrmap_init [(4096, 1); (8192, 2); (4096, 3)]; Some r.2) = Some [0; 0; 1]) by (vm_compute; reflexivity).
  rewrite E in V. cbn [mbind option_bind snd] in V. split; [congruence|].
  split; [rewrite G; [vm_compute; reflexivity|lia]|]. split; [rewrite G; [vm_compute; reflexivity|lia]|]. split; [exact N|].
  rewrite L. vm_compute. reflexivity.
Defined.
(** Growth: the seventh key makes eight slots sixteen. *)
Example ptrmap_grows :
  (r ← ptrmap_puts 0 ptrmap_init (map (fun i => (16 * i, i)) [1; 2; 3; 4; 5; 6; 7]); Some (slot_count r.1, ptrmap_len r.1)) = Some (16%nat, 7%nat).
Proof. vm_compute. reflexivity. Qed.
