(* ===== verification/Sort.v ===== *)
(** [src/util/sort.c]: the bottom-up stable merge sort. An element is what [esz]
    bytes hold; the arrays have fewer than [2^62] elements, so that no index
    wraps. [None] is an access outside an array. *)
From Stdlib Require Import Sorted.
From S2P Require Import Prelude.
#[local] Open Scope nat_scope.

Section sort.
  Context {A : Type} (cmp : A -> A -> Z).

(** [memcpy] of the elements [i .. j-1] of [src] to [dst] from [k] on. *)
Definition copy (dst src : list A) (k i j : nat) : option (list A) :=
  if (j <=? length src) && (k + (j - i) <=? length dst) then Some (take k dst ++ take (j - i) (drop i src) ++ drop (k + (j - i)) dst) else None.
Definition store (dst : list A) (k : nat) (x : A) : option (list A) := if k <? length dst then Some (<[k := x]> dst) else None.
Fixpoint merge_loop (src : list A) (mid hi fuel : nat) (dst : list A) (i j k : nat) : option (list A * nat * nat * nat) :=
  if (i <? mid) && (j <? hi) then
    match fuel with
    | O => None
    | S fuel =>
      y ← src !! j; x ← src !! i;
      if (cmp y x <? 0)%Z then dst ← store dst k y; merge_loop src mid hi fuel dst i (j + 1) (k + 1)
      else dst ← store dst k x; merge_loop src mid hi fuel dst (i + 1) j (k + 1)
    end
  else Some (dst, i, j, k).
Definition merge (dst src : list A) (lo mid hi : nat) : option (list A) :=
  '(dst, i, j, k) ← merge_loop src mid hi (hi - lo) dst lo mid lo;
  if i <? mid then copy dst src k i mid
  else if j <? hi then copy dst src k j hi
  else Some dst.
(** The merges of one width, from [lo] on. *)
Fixpoint merge_pass (a : list A) (width fuel : nat) (tmp : list A) (lo : nat) : option (list A) :=
  let n := length a in
  if lo <? n then
    match fuel with
    | O => None
    | S fuel =>
      let mid := if lo + width <? n then lo + width else n in
      let hi := if lo + 2 * width <? n then lo + 2 * width else n in
      tmp ← merge tmp a lo mid hi;
      merge_pass a width fuel tmp (lo + 2 * width)
    end
  else Some tmp.
Fixpoint sort_loop (fuel : nat) (a tmp : list A) (width : nat) : option (list A) :=
  if width <? length a then
    match fuel with
    | O => None
    | S fuel => tmp ← merge_pass a width (length a) tmp 0; sort_loop fuel tmp tmp (width * 2)
    end
  else Some a.
(** [tmp] is what [cgf_xmalloc] gives. *)
Definition cgf_sort_stable (base : list A) (esz : nat) (tmp : list A) : option (list A) :=
  if (length base <? 2) || (esz =? 0) then Some base else sort_loop (length base) base tmp 1.
End sort.

(** The merge sort sorts, keeps the order of equal elements and loses none. *)

Section facts.
  Context {A : Type} (cmp : A -> A -> Z).

(** ** The merge of two lists *)
Fixpoint lmerge (l : list A) : list A -> list A :=
  fix go (r : list A) : list A :=
    match l, r with
    | [], _ => r
    | _, [] => l
    | x :: l', y :: r' => if (cmp y x <? 0)%Z then y :: go r' else x :: lmerge l' r
    end.
Lemma lmerge_nil l : lmerge l [] = l.
Proof. by destruct l. Qed.
Lemma lmerge_nil_l r : lmerge [] r = r.
Proof. by destruct r. Qed.
Lemma lmerge_cons x l y r : lmerge (x :: l) (y :: r) = if (cmp y x <? 0)%Z then y :: lmerge (x :: l) r else x :: lmerge l (y :: r).
Proof. done. Qed.
Lemma lmerge_ind (P : list A -> list A -> Prop) : (forall r, P [] r) -> (forall l, P l []) ->
  (forall x l y r, (cmp y x < 0)%Z -> P (x :: l) r -> P (x :: l) (y :: r)) -> (forall x l y r, (0 <= cmp y x)%Z -> P l (y :: r) -> P (x :: l) (y :: r)) ->
  forall l r, P l r.
Proof.
  intros H1 H2 H3 H4 l. induction l as [|x l IHl]; [done|]. intros r. induction r as [|y r IHr]; [done|].
  destruct (Z.ltb_spec (cmp y x) 0); [by apply H3|by apply H4].
Qed.
Lemma lmerge_perm l r : Permutation (lmerge l r) (l ++ r).
Proof.
  apply (lmerge_ind (fun l r => Permutation (lmerge l r) (l ++ r))); clear l r.
  - by destruct r.
  - intros l. by rewrite lmerge_nil, app_nil_r.
  - intros x l y r C IH. rewrite lmerge_cons, (proj2 (Z.ltb_lt _ _)), IH by done. apply (Permutation_middle (x :: l)).
  - intros x l y r C IH. by rewrite lmerge_cons, (proj2 (Z.ltb_ge _ _)), IH by done.
Qed.
Lemma lmerge_length l r : length (lmerge l r) = length l + length r.
Proof. rewrite <- length_app. apply Permutation_length, lmerge_perm. Qed.

(** ** The loops *)
Definition slice (src : list A) (i j : nat) : list A := take (j - i) (drop i src).
Lemma slice_cons src i j x : i < j -> src !! i = Some x -> slice src i j = x :: slice src (i + 1) j.
Proof. intros L E. unfold slice. rewrite (drop_S _ x i E). destruct (j - i) eqn:D; [lia|]. cbn [take]. f_equal. rewrite Nat.add_1_r. f_equal. lia. Qed.
Lemma slice_nil src i j : j <= i -> slice src i j = [].
Proof. intros L. unfold slice. by replace (j - i) with 0 by lia. Qed.
Lemma slice_length src i j : j <= length src -> length (slice src i j) = j - i.
Proof. intros L. unfold slice. rewrite length_take, length_drop. lia. Qed.

(** [dst] with [out] written from [lo] on. *)
Definition written (dst : list A) (lo : nat) (out : list A) : list A := take lo dst ++ out ++ drop (lo + length out) dst.
Lemma written_length dst lo out : lo + length out <= length dst -> length (written dst lo out) = length dst.
Proof. intros L. unfold written. rewrite !length_app, length_take, length_drop. lia. Qed.
Lemma written_store dst lo out x : lo + length out < length dst -> store (written dst lo out) (lo + length out) x = Some (written dst lo (out ++ [x])).
Proof.
  intros L. unfold store. rewrite written_length, (proj2 (Nat.ltb_lt _ _)) by lia. f_equal. unfold written.
  destruct (lookup_lt_is_Some_2 dst (lo + length out)) as [y E]; [done|]. rewrite (drop_S _ y _ E). rewrite length_app. cbn [length].
  rewrite (app_assoc (take lo dst)). rewrite insert_app_r_alt by (rewrite length_app, length_take; lia).
  replace (lo + length out - length (take lo dst ++ out)) with 0 by (rewrite length_app, length_take; lia). cbn [list_insert insert].
  rewrite <- !app_assoc. cbn [app]. do 4 f_equal. lia.
Qed.
Lemma written_copy dst lo out src i j : j <= length src -> i <= j -> lo + length out + (j - i) <= length dst ->
  copy (written dst lo out) src (lo + length out) i j = Some (written dst lo (out ++ slice src i j)).
Proof.
  intros Lj Li L. unfold copy. rewrite written_length by lia. rewrite (proj2 (Nat.leb_le _ _)), (proj2 (Nat.leb_le _ _)) by lia. cbn [andb]. f_equal.
  fold (slice src i j). unfold written at 1 2. assert (Lt : length (take lo dst ++ out) = lo + length out) by (rewrite length_app, length_take; lia).
  rewrite (app_assoc (take lo dst)). rewrite take_app_le by lia. rewrite take_ge by lia. unfold written. rewrite <- !app_assoc. do 3 f_equal.
  rewrite (app_assoc (take lo dst)), drop_app_ge by lia. rewrite Lt, drop_drop, length_app, slice_length by lia. f_equal. lia.
Qed.
Lemma merge_loop_spec src dst lo mid hi fuel out i j : length dst = length src -> lo <= i <= mid -> mid <= j <= hi -> hi <= length src ->
  length out = (i - lo) + (j - mid) -> (mid - i) + (hi - j) <= fuel ->
  exists out' i' j', merge_loop cmp src mid hi fuel (written dst lo out) i j (lo + length out) = Some (written dst lo out', i', j', lo + length out') /\
    out' ++ lmerge (slice src i' mid) (slice src j' hi) = out ++ lmerge (slice src i mid) (slice src j hi) /\
    i <= i' <= mid /\ j <= j' <= hi /\ length out' = (i' - lo) + (j' - mid) /\ (i' = mid \/ j' = hi).
Proof.
  intros Ld. revert out i j. induction fuel as [|fuel IH]; intros out i j Hi Hj Hh Lo Lf; cbn [merge_loop].
  - rewrite (proj2 (Nat.ltb_ge i mid)) by lia. cbn [andb]. exists out, i, j. split_and!; try done; lia.
  - destruct (Nat.ltb_spec i mid) as [Li|Li]; cbn [andb]; [|exists out, i, j; split_and!; try done; lia].
    destruct (Nat.ltb_spec j hi) as [Lj|Lj]; [|exists out, i, j; split_and!; try done; lia].
    destruct (lookup_lt_is_Some_2 src j) as [y Ey]; [lia|]. destruct (lookup_lt_is_Some_2 src i) as [x Ex]; [lia|]. rewrite Ey, Ex. cbn [mbind option_bind].
    rewrite (slice_cons src i mid x Li Ex), (slice_cons src j hi y Lj Ey), lmerge_cons.
    destruct (Z.ltb_spec (cmp y x) 0) as [C|C]; rewrite written_store by lia; cbn [mbind option_bind].
    + destruct (IH (out ++ [y]) i (j + 1)) as (out' & i' & j' & E & Eq & H); try lia; [rewrite length_app; cbn; lia|]. exists out', i', j'.
      rewrite length_app in E. cbn [length] in E. rewrite Nat.add_assoc in E. split; [done|]. split; [|split_and!; lia].
      rewrite Eq, <- app_assoc. by rewrite (slice_cons src i mid x Li Ex).
    + destruct (IH (out ++ [x]) (i + 1) j) as (out' & i' & j' & E & Eq & H); try lia; [rewrite length_app; cbn; lia|]. exists out', i', j'.
      rewrite length_app in E. cbn [length] in E. rewrite Nat.add_assoc in E. split; [done|]. split; [|split_and!; lia].
      rewrite Eq, <- app_assoc. by rewrite (slice_cons src j hi y Lj Ey).
Qed.
Lemma merge_spec src dst lo mid hi : length dst = length src -> lo <= mid -> mid <= hi -> hi <= length src ->
  merge cmp dst src lo mid hi = Some (written dst lo (lmerge (slice src lo mid) (slice src mid hi))).
Proof.
  intros Ld L1 L2 L3. unfold merge. assert (W : dst = written dst lo []) by (unfold written; cbn; by rewrite Nat.add_0_r, take_drop).
  destruct (merge_loop_spec src dst lo mid hi (hi - lo) [] lo mid) as (out & i & j & E & Eq & Hi & Hj & Lo & Fin); try lia; [cbn; lia|].
  rewrite <- W in E. cbn [length] in E. rewrite Nat.add_0_r in E. rewrite E. cbn [mbind option_bind]. cbn [app] in Eq. rewrite <- Eq.
  destruct (Nat.ltb_spec i mid) as [Li|Li].
  - rewrite written_copy by lia. rewrite (slice_nil src j hi) by lia. by rewrite lmerge_nil.
  - rewrite (slice_nil src i mid), lmerge_nil_l by lia. destruct (Nat.ltb_spec j hi) as [Lj|Lj]; [by rewrite written_copy by lia|].
    rewrite (slice_nil src j hi) by lia. by rewrite app_nil_r.
Qed.

(** ** The passes *)
Fixpoint mpass (fuel w : nat) (l : list A) : list A :=
  match fuel, l with
  | S fuel, _ :: _ => lmerge (take w l) (take w (drop w l)) ++ mpass fuel w (drop (2 * w) l)
  | _, _ => []
  end.
Lemma mpass_perm fuel w l : 0 < w -> length l <= fuel -> Permutation (mpass fuel w l) l.
Proof.
  intros W. revert l. induction fuel as [|fuel IH]; intros l L; [by destruct l; [|cbn in L; lia]|]. destruct l as [|x l]; [done|]. cbn [mpass].
  rewrite lmerge_perm, IH by (rewrite length_drop; cbn [length] in *; lia). rewrite <- app_assoc. replace (2 * w) with (w + w) by lia. by rewrite <- drop_drop, take_drop, take_drop.
Qed.
Lemma slice_chunk (a : list A) lo w : slice a lo (if lo + w <? length a then lo + w else length a) = take w (drop lo a).
Proof.
  unfold slice. destruct (Nat.ltb_spec (lo + w) (length a)); [f_equal; lia|]. rewrite !take_ge; rewrite ?length_drop; done || lia.
Qed.
Lemma pass_spec a w fuel f tmp lo out : 0 < w -> length tmp = length a -> length out = Nat.min lo (length a) -> length a - lo <= fuel -> length a - lo <= f ->
  exists tmp', merge_pass cmp a w fuel (written tmp 0 out) lo = Some tmp' /\ tmp' = out ++ mpass f w (drop lo a) .
Proof.
  intros W Lt. revert f lo out. induction fuel as [|fuel IH]; intros f lo out Lo Lf Lg; cbn [merge_pass].
  - rewrite (proj2 (Nat.ltb_ge _ _)) by lia. eexists. split; [done|]. rewrite drop_ge by lia. unfold written. cbn [take]. rewrite drop_ge by lia. by destruct f.
  - destruct (Nat.ltb_spec lo (length a)) as [L|L].
    2: { eexists. split; [done|]. rewrite drop_ge by lia. unfold written. cbn [take]. rewrite drop_ge by lia. by destruct f. }
    set (mid := if lo + w <? length a then _ else _). set (hi := if lo + 2 * w <? length a then _ else _).
    assert (Hm : lo <= mid <= hi /\ hi <= length a).
    { unfold mid, hi. destruct (Nat.ltb_spec (lo + w) (length a)), (Nat.ltb_spec (lo + 2 * w) (length a)); lia. }
    rewrite merge_spec by (rewrite ?written_length; lia). cbn [mbind option_bind].
    destruct f as [|f]; [lia|]. destruct (drop lo a) as [|x l] eqn:D; [apply (f_equal length) in D; rewrite length_drop in D; cbn in D; lia|].
    cbn [mpass]. rewrite <- D, !drop_drop.
    assert (E1 : slice a lo mid = take w (drop lo a)) by apply slice_chunk.
    assert (E2 : slice a mid hi = take w (drop (lo + w) a)).
    { unfold mid, hi. destruct (Nat.ltb_spec (lo + w) (length a)).
      - replace (lo + 2 * w) with (lo + w + w) by lia. apply slice_chunk.
      - rewrite slice_nil by (destruct (Nat.ltb_spec (lo + 2 * w) (length a)); lia). by rewrite drop_ge, take_nil by lia. }
    rewrite E1, E2. set (m := lmerge _ _). assert (Lm : length m = hi - lo).
    { unfold m. rewrite lmerge_length, <- E1, <- E2, !slice_length by lia. lia. }
    assert (Lo' : length out = lo) by lia.
    assert (E3 : written (written tmp 0 out) lo m = written tmp 0 (out ++ m)).
    { unfold written. change (take 0 tmp) with (@nil A). cbn [Nat.add app]. rewrite take_app_le, (take_ge out) by lia. rewrite <- app_assoc. do 2 f_equal.
      rewrite drop_app_ge by lia. rewrite drop_drop, length_app. f_equal. lia. }
    rewrite E3. destruct (IH f (lo + 2 * w) (out ++ m)) as (tmp' & E & Et); [|lia|lia|].
    { rewrite length_app, Lm, Lo'. unfold hi. destruct (Nat.ltb_spec (lo + 2 * w) (length a)); lia. }
    exists tmp'. split; [done|]. rewrite Et, <- app_assoc. done.
Qed.
Lemma pass_correct a w tmp : 0 < w -> length tmp = length a -> merge_pass cmp a w (length a) tmp 0 = Some (mpass (length a) w a).
Proof.
  intros W Lt. destruct (pass_spec a w (length a) (length a) tmp 0 []) as (tmp' & E & ->); [done|done|cbn; lia|lia|lia|].
  rewrite drop_0 in E. exact E.
Qed.

(** ** Order *)
Definition le (x y : A) : Prop := (0 <= cmp y x)%Z.
(** Neither comes before the other. *)
Definition tie (x y : A) : bool := (0 <=? cmp x y)%Z && (0 <=? cmp y x)%Z.
(** What the comparators promise. *)
Record preorder : Prop := {
  le_trans x y z : le x y -> le y z -> le x z;
  lt_le x y : (cmp x y < 0)%Z -> le x y;
}.
Definition sorted (l : list A) : Prop := StronglySorted le l.
Section order.
  Hypothesis Order : preorder.

Lemma sorted_cons x l : sorted (x :: l) <-> sorted l /\ Forall (le x) l.
Proof. split; [apply StronglySorted_inv|]. intros [S F]. by constructor. Qed.
Lemma head_below x y l : le x y -> Forall (le y) l -> Forall (le x) l.
Proof using Order. intros L F. eapply List.Forall_impl; [|exact F]. intros z. by apply (le_trans Order). Qed.
Lemma lmerge_sorted l r : sorted l -> sorted r -> sorted (lmerge l r).
Proof using Order.
  apply (lmerge_ind (fun l r => sorted l -> sorted r -> sorted (lmerge l r))); clear l r.
  - intros r _. by rewrite lmerge_nil_l.
  - intros l S _. by rewrite lmerge_nil.
  - intros x l y r C IH Sl Sr. rewrite lmerge_cons, (proj2 (Z.ltb_lt _ _)) by done. apply sorted_cons in Sr as [Sr Fr]. apply sorted_cons.
    split; [by apply IH|]. rewrite lmerge_perm. apply sorted_cons in Sl as [Sl Fl]. apply (lt_le Order) in C.
    apply Forall_app. split; [|done]. constructor; [done|]. by apply (head_below y x).
  - intros x l y r C IH Sl Sr. rewrite lmerge_cons, (proj2 (Z.ltb_ge _ _)) by done. apply sorted_cons in Sl as [Sl Fl]. apply sorted_cons.
    split; [by apply IH|]. rewrite lmerge_perm. apply sorted_cons in Sr as [Sr Fr].
    apply Forall_app. split; [done|]. constructor; [done|]. by apply (head_below x y).
Qed.
Lemma filter_none (z : A) l : Forall (fun e => tie z e = false) l -> List.filter (tie z) l = [].
Proof. intros F. induction F as [|e l E F IH]; [done|]. cbn. by rewrite E. Qed.
Lemma lmerge_stable z l r : sorted l -> sorted r -> List.filter (tie z) (lmerge l r) = List.filter (tie z) l ++ List.filter (tie z) r.
Proof using Order.
  apply (lmerge_ind (fun l r => sorted l -> sorted r -> List.filter (tie z) (lmerge l r) = List.filter (tie z) l ++ List.filter (tie z) r)); clear l r.
  - intros r _ _. by rewrite lmerge_nil_l.
  - intros l _ _. by rewrite lmerge_nil, app_nil_r.
  - intros x l y r C IH Sl Sr. rewrite lmerge_cons, (proj2 (Z.ltb_lt _ _)) by done. pose proof Sr as [Sr' _]%sorted_cons.
    cbn [List.filter]. destruct (tie z y) eqn:T; [|by rewrite IH].
    (* nothing of the left run ties with the element taken from the right *)
    assert (N : List.filter (tie z) (x :: l) = []).
    { apply filter_none. apply andb_true_iff in T as [T1%Z.leb_le T2%Z.leb_le]. apply sorted_cons in Sl as [_ Fl].
      assert (B : forall e, le x e -> tie z e = false).
      { intros e Le. destruct (tie z e) eqn:Te; [|done]. exfalso. apply andb_true_iff in Te as [Te1%Z.leb_le Te2%Z.leb_le].
        pose proof (le_trans Order x z y (le_trans Order x e z Le Te1) T2) as L. unfold le in L. lia. }
      constructor; [apply B; unfold le; destruct (Z.ltb_spec (cmp x x) 0) as [X|X]; [by apply (lt_le Order) in X|done]|].
      eapply List.Forall_impl; [|exact Fl]. exact B. }
    change (y :: List.filter (tie z) (lmerge (x :: l) r) = List.filter (tie z) (x :: l) ++ y :: List.filter (tie z) r). by rewrite IH, N.
  - intros x l y r C IH Sl Sr. rewrite lmerge_cons, (proj2 (Z.ltb_ge _ _)) by done. apply sorted_cons in Sl as [Sl _]. cbn [List.filter].
    cbn [List.filter] in IH. rewrite (IH Sl Sr). by destruct (tie z x).
Qed.

(** Runs of [w] elements are sorted. *)
Definition blocks (w : nat) (l : list A) : Prop := forall k, sorted (take w (drop (k * w) l)).
Lemma mpass_head fuel w l : 0 < w -> length l <= fuel ->
  take (2 * w) (mpass fuel w l) = lmerge (take w l) (take w (drop w l)) /\ drop (2 * w) (mpass fuel w l) = mpass (fuel - 1) w (drop (2 * w) l).
Proof.
  intros W L. destruct fuel as [|fuel]; [destruct l; [cbn [mpass]; by rewrite ?drop_nil, ?take_nil|cbn in L; lia]|]. replace (S fuel - 1) with fuel by lia.
  destruct l as [|x l']; [cbn [mpass]; rewrite ?drop_nil, ?take_nil; by destruct fuel|]. cbn [mpass]. set (l := x :: l') in *.
  set (m := lmerge _ _). assert (Lm : length m = Nat.min (2 * w) (length l)) by (unfold m; rewrite lmerge_length, !length_take, length_drop; lia).
  destruct (Nat.le_gt_cases (2 * w) (length l)) as [H|H].
  - rewrite take_app_le, take_ge, drop_app_ge by lia. by replace (2 * w - length m) with 0 by lia.
  - rewrite (drop_ge l) by lia. replace (mpass fuel w []) with (@nil A) by (by destruct fuel). rewrite app_nil_r, take_ge, drop_ge by lia. done.
Qed.
Lemma blocks_drop w l : blocks w l -> blocks w (drop (2 * w) l).
Proof. intros B k. rewrite drop_drop. replace (2 * w + k * w) with ((k + 2) * w) by lia. apply B. Qed.
Lemma mpass_blocks fuel w l : 0 < w -> length l <= fuel -> blocks w l -> blocks (2 * w) (mpass fuel w l).
Proof using Order.
  intros W L B k. revert fuel l L B. induction k as [|k IH]; intros fuel l L B; destruct (mpass_head fuel w l W L) as [H T].
  - rewrite Nat.mul_0_l, drop_0, H. apply lmerge_sorted; [pose proof (B 0) as B0; by rewrite drop_0 in B0|]. pose proof (B 1) as B1. by rewrite Nat.mul_1_l in B1.
  - replace (S k * (2 * w)) with (2 * w + k * (2 * w)) by lia. rewrite <- drop_drop, T. apply IH; [rewrite length_drop; lia|by apply blocks_drop].
Qed.
Lemma mpass_stable z fuel w l : 0 < w -> length l <= fuel -> blocks w l -> List.filter (tie z) (mpass fuel w l) = List.filter (tie z) l.
Proof using Order.
  intros W. revert l. induction fuel as [|fuel IH]; intros l L B; [by destruct l; [|cbn in L; lia]|]. destruct l as [|x l']; [done|]. cbn [mpass]. set (l := x :: l') in *.
  rewrite List.filter_app, IH by (try (rewrite length_drop; unfold l in *; cbn [length] in *; lia); by apply blocks_drop).
  rewrite lmerge_stable; [|pose proof (B 0) as B0; by rewrite drop_0 in B0|pose proof (B 1) as B1; by rewrite Nat.mul_1_l in B1].
  rewrite <- !List.filter_app, <- app_assoc. replace (2 * w) with (w + w) by lia. by rewrite <- drop_drop, take_drop, take_drop.
Qed.
End order.

Lemma sort_loop_spec fuel a tmp w : 0 < w -> length tmp = length a -> length a - w <= fuel ->
  exists r, sort_loop cmp fuel a tmp w = Some r /\ Permutation r a /\
    (preorder -> blocks w a -> sorted r /\ forall z, List.filter (tie z) r = List.filter (tie z) a).
Proof.
  revert a tmp w. induction fuel as [|fuel IH]; intros a tmp w W Lt Lf; cbn [sort_loop].
  - rewrite (proj2 (Nat.ltb_ge _ _)) by lia. exists a. split; [done|]. split; [done|]. intros O B. split; [|done].
    pose proof (B 0) as B0. cbn [Nat.mul] in B0. by rewrite drop_0, take_ge in B0 by lia.
  - destruct (Nat.ltb_spec w (length a)) as [L|L].
    + rewrite (pass_correct a w tmp W Lt). cbn [mbind option_bind]. pose proof (mpass_perm (length a) w a W ltac:(lia)) as P.
      pose proof (Permutation_length P) as Pl. destruct (IH (mpass (length a) w a) (mpass (length a) w a) (w * 2)) as (r & E & Pr & Sr); [lia|done|lia|].
      exists r. split; [done|]. split; [by rewrite Pr|]. intros O B. rewrite (Nat.mul_comm w 2) in Sr.
      destruct (Sr O) as [S F]; [by apply mpass_blocks|]. split; [done|]. intros z. by rewrite F, mpass_stable.
    + exists a. split; [done|]. split; [done|]. intros O B. split; [|done]. pose proof (B 0) as B0. cbn [Nat.mul] in B0. by rewrite drop_0, take_ge in B0 by lia.
Qed.
End facts.

(** C22. [cgf_sort_stable] sorts, and is stable. For every comparator, array and
    contents of the scratch memory the loops end without an access outside an
    array, and the result has the same elements. If the comparator is a total
    preorder and the element size is not 0, the result is in order, and the
    elements that tie with any given one appear in the order they had. An array
    of one element or of elements of size 0 is left alone. *)
Theorem sort_stable_correct {A} (cmp : A -> A -> Z) base esz tmp : length tmp = length base ->
  exists r, cgf_sort_stable cmp base esz tmp = Some r /\ Permutation r base /\
    (preorder cmp -> esz <> 0 -> sorted cmp r /\ forall z, List.filter (tie cmp z) r = List.filter (tie cmp z) base) /\
    (esz = 0 -> r = base).
Proof.
  intros Lt. unfold cgf_sort_stable. destruct (Nat.ltb_spec (length base) 2) as [L|L]; cbn [orb].
  - exists base. split; [done|]. split; [done|]. split; [|done]. intros O _. split; [|done].
    destruct base as [|x [|y base]]; [constructor|by repeat constructor|cbn in L; lia].
  - destruct (Nat.eqb_spec esz 0) as [->|N]; [by exists base|].
    destruct (sort_loop_spec cmp (length base) base tmp 1) as (r & E & P & S); [lia|done|lia|]. exists r. split; [done|]. split; [done|]. split; [|done].
    intros O _. apply S; [done|]. intros k. destruct (drop (k * 1) base) as [|x l]; [constructor|]. cbn. by repeat constructor.
Qed.
(** Pairs by their first component. *)
Definition by_first (x y : Z * Z) : Z := x.1 - y.1.
Lemma sort_stable_correct_witness : exists r,
  cgf_sort_stable by_first [(3, 0); (1, 1); (3, 2); (2, 3); (1, 4)]%Z 8 [(9, 9); (9, 9); (9, 9); (9, 9); (9, 9)]%Z = Some r /\ sorted by_first r /\
  List.filter (tie by_first (3, 7)%Z) r = [(3, 0); (3, 2)]%Z /\ r = [(1, 1); (1, 4); (2, 3); (3, 0); (3, 2)]%Z.
Proof.
  destruct (sort_stable_correct by_first [(3, 0); (1, 1); (3, 2); (2, 3); (1, 4)]%Z 8 [(9, 9); (9, 9); (9, 9); (9, 9); (9, 9)]%Z) as (r & E & _ & S & _); [reflexivity|].
  assert (O : preorder by_first) by (split; unfold le, by_first; intros; lia).
  destruct (S O ltac:(discriminate)) as [So F]. exists r. split; [exact E|]. split; [exact So|]. split; [rewrite F; reflexivity|].
  vm_compute in E. injection E as <-. reflexivity.
Defined.
