(* ===== verification/Dlev.v ===== *)
(** [src/util/dlev.c]: the distance between a misspelled name and a candidate,
    by three rows of the table and an early exit. It is the least cost of an
    alignment, in which no character is edited twice (optimal string alignment),
    and not always the least number of edits and swaps, which [dlev.h] names: it
    is the length of a sequence of edits, and the least length when that is at
    most one. A string is a list of [char] values. *)
From stdpp Require Import relations.
From S2P Require Import Prelude.
#[local] Open Scope Z_scope.

Definition DLEV_MAX_LEN : nat := 128.

(** ** The code *)
Section code.
  Context (a b : list Z).
  (** What the arrays on the stack hold before they are written. *)
  Context (junk_prev junk_cur : list Z).

Definition cell (row : list Z) (j : nat) : Z := default 0 (row !! j).
Definition char_eq (i j : nat) : bool := bool_decide (a !! i = b !! j).
(** The body of the inner loop: [cur] and [row_min]. *)
Definition dlev_cell (prev2 prev : list Z) (i j : nat) (st : list Z * Z) : list Z * Z :=
  let '(cur, row_min) := st in
  let cost := if char_eq (i - 1) (j - 1) then 0 else 1 in
  let del := u32 (cell prev j + 1) in
  let ins := u32 (cell cur (j - 1) + 1) in
  let sub := u32 (cell prev (j - 1) + cost) in
  let best := if del <? ins then del else ins in
  let best := if sub <? best then sub else best in
  let best :=
    if (1 <? i)%nat && (1 <? j)%nat && char_eq (i - 1) (j - 2) && char_eq (i - 2) (j - 1) then
      let trans := u32 (cell prev2 (j - 2) + 1) in
      if trans <? best then trans else best
    else best in
  (<[j := best]> cur, if best <? row_min then best else row_min).
Definition dlev_row (prev2 prev cur : list Z) (i : nat) : list Z * Z :=
  for_up (length b) 1 (dlev_cell prev2 prev i) (<[0%nat := u32 (Z.of_nat i)]> cur, u32 (Z.of_nat i)).
(** [memcpy] of the first [blen + 1] cells. *)
Definition copy_row (dst src : list Z) : list Z := take (length b + 1) src ++ drop (length b + 1) dst.
(** The outer loop, from row [i] on, [n] rows to go. *)
Fixpoint dlev_rows (cap : Z) (n i : nat) (prev2 prev cur : list Z) : Z :=
  match n with
  | O => cell prev (length b)
  | S n =>
    let '(cur, row_min) := dlev_row prev2 prev cur i in
    if cap <? row_min then u32 (cap + 1)
    else dlev_rows cap n (S i) (copy_row prev2 prev) (copy_row prev cur) cur
  end.
Definition dlev_distance (cap : Z) : Z :=
  if (DLEV_MAX_LEN <? length a)%nat || (DLEV_MAX_LEN <? length b)%nat then u32 (cap + 1)
  else if (if (length b <? length a)%nat then cap <? Z.of_nat (length a - length b) else cap <? Z.of_nat (length b - length a)) then u32 (cap + 1)
  else
    let prev := for_up (length b + 1) 0 (fun j row => <[j := u32 (Z.of_nat j)]> row) junk_prev in
    dlev_rows cap (length a) 1 (replicate (DLEV_MAX_LEN + 1) 0) prev junk_cur.
End code.
(** The suggestion and its distance. *)
Definition dlev_is_suggestion (typo cand junk_prev junk_cur : list Z) : option Z :=
  let cap := if (length typo <? 4)%nat then 1 else 2 in
  if (length cand =? 0)%nat || (length typo =? 0)%nat then None
  else if bool_decide (typo = cand) then None
  else
    let d := dlev_distance typo cand junk_prev junk_cur cap in
    if cap <? d then None else Some d.

(** ** The specification *)
(** One edit of a string, anywhere. *)
Inductive edit : list Z -> list Z -> Prop :=
  | edit_replace l x y r : edit (l ++ x :: r) (l ++ y :: r)
  | edit_delete l x r : edit (l ++ x :: r) (l ++ r)
  | edit_insert l x r : edit (l ++ r) (l ++ x :: r)
  | edit_swap l x y r : edit (l ++ x :: y :: r) (l ++ y :: x :: r).
Lemma edit_app l l' r : edit l l' -> edit (l ++ r) (l' ++ r).
Proof. intros []; rewrite <- !app_assoc; cbn [app]; constructor. Qed.
Lemma edits_app n l l' r : nsteps edit n l l' -> nsteps edit n (l ++ r) (l' ++ r).
Proof. induction 1 as [|n x y z E _ IH]; [constructor|]. econstructor; [by apply edit_app|done]. Qed.

(** An alignment: the first [i] characters of [a] become the first [j] of [b],
    from left to right, at the cost [n]. *)
Section spec.
  Context (a b : list Z).

Inductive aligned : nat -> nat -> nat -> Prop :=
  | align_nil : aligned 0 0 0
  | align_keep i j n x : a !! i = Some x -> b !! j = Some x -> aligned i j n -> aligned (S i) (S j) n
  | align_replace i j n : (i < length a)%nat -> (j < length b)%nat -> aligned i j n -> aligned (S i) (S j) (S n)
  | align_delete i j n : (i < length a)%nat -> aligned i j n -> aligned (S i) j (S n)
  | align_insert i j n : (j < length b)%nat -> aligned i j n -> aligned i (S j) (S n)
  | align_swap i j n x y : a !! i = Some x -> a !! S i = Some y -> b !! j = Some y -> b !! S j = Some x ->
      aligned i j n -> aligned (S (S i)) (S (S j)) (S n).
Definition least (i j n : nat) : Prop := aligned i j n /\ forall n', aligned i j n' -> (n <= n')%nat.

Lemma align_all i j : (i <= length a)%nat -> (j <= length b)%nat -> aligned i j (i + j).
Proof.
  intros Li Lj. induction i as [|i IH]; [|apply align_delete; [lia|apply IH; lia]].
  induction j as [|j IH]; [constructor|]. apply align_insert; [lia|apply IH; lia].
Qed.
Lemma least_bound i j n : (i <= length a)%nat -> (j <= length b)%nat -> least i j n -> (n <= i + j)%nat.
Proof. intros Li Lj [_ M]. by apply M, align_all. Qed.
Lemma least_unique i j n n' : least i j n -> least i j n' -> n = n'.
Proof. intros [E M] [E' M']. apply M in E'. apply M' in E. lia. Qed.
(** The edges of the table. *)
Lemma least_top j : (j <= length b)%nat -> least 0 j j.
Proof.
  intros L. split; [by apply (align_all 0 j); [lia|]|]. intros n E. remember 0%nat as i eqn:Ei. induction E; try done. specialize (IHE ltac:(lia) Ei). lia.
Qed.
Lemma least_left i : (i <= length a)%nat -> least i 0 i.
Proof.
  intros L. split; [rewrite <- (Nat.add_0_r i) at 2; apply align_all; lia|]. intros n E. remember 0%nat as j eqn:Ej. induction E; try done. specialize (IHE ltac:(lia) Ej). lia.
Qed.
(** No row is better than every row before it. *)
Lemma rows_grow i i' j n : aligned i' j n -> (i <= i')%nat -> exists j' n', aligned i j' n' /\ (n' <= n)%nat.
Proof.
  intros E. induction E as [|k j n x Ha Hb E IH|k j n La Lb E IH|k j n La E IH|k j n Lb E IH|k j n x y Hx Hy Hy' Hx' E IH]; intros L.
  - assert (i = 0)%nat as -> by lia. exists 0%nat, 0%nat. split; [constructor|lia].
  - destruct (decide (i = S k)) as [->|N]; [exists (S j), n; split; [by apply (align_keep k j n x)|lia]|]. apply IH. lia.
  - destruct (decide (i = S k)) as [->|N]; [exists (S j), (S n); split; [by apply align_replace|lia]|]. destruct IH as (j' & n' & E' & L'); [lia|]. exists j', n'. split; [done|lia].
  - destruct (decide (i = S k)) as [->|N]; [exists j, (S n); split; [by apply align_delete|lia]|]. destruct IH as (j' & n' & E' & L'); [lia|]. exists j', n'. split; [done|lia].
  - destruct (IH L) as (j' & n' & E' & L'). exists j', n'. split; [done|lia].
  - destruct (decide (i = S (S k))) as [->|N]; [exists (S (S j)), (S n); split; [by apply (align_swap k j n x y)|lia]|].
    destruct (decide (i = S k)) as [->|N'].
    + exists (S j), (S n). split; [|lia]. apply align_replace; [by eapply lookup_lt_Some|by eapply lookup_lt_Some|done].
    + destruct IH as (j' & n' & E' & L'); [lia|]. exists j', n'. split; [done|lia].
Qed.
Lemma align_range i j n : aligned i j n -> (i <= length a)%nat /\ (j <= length b)%nat.
Proof. induction 1; repeat match goal with H : _ !! _ = Some _ |- _ => apply lookup_lt_Some in H end; lia. Qed.
(** The difference of the lengths is a lower bound. *)
Lemma align_gap i j n : aligned i j n -> (i <= j + n)%nat /\ (j <= i + n)%nat.
Proof. induction 1; lia. Qed.

(** An alignment is a sequence of edits. *)
Lemma aligned_edits i j n : aligned i j n -> nsteps edit n (take i a) (take j b).
Proof.
  induction 1 as [|k j n x Ha Hb _ IH|k j n La Lb _ IH|k j n La _ IH|k j n Lb _ IH|k j n x y Hx Hy Hy' Hx' _ IH].
  - constructor.
  - rewrite (take_S_r _ _ _ Ha), (take_S_r _ _ _ Hb). by apply edits_app.
  - destruct (lookup_lt_is_Some_2 a k La) as [x Ha], (lookup_lt_is_Some_2 b j Lb) as [y Hb].
    rewrite (take_S_r _ _ _ Ha), (take_S_r _ _ _ Hb). eapply nsteps_r; [by apply edits_app|]. apply edit_replace.
  - destruct (lookup_lt_is_Some_2 a k La) as [x Ha]. rewrite (take_S_r _ _ _ Ha). eapply nsteps_r; [by apply edits_app|].
    rewrite <- (app_nil_r (take j b)) at 2. apply edit_delete.
  - destruct (lookup_lt_is_Some_2 b j Lb) as [y Hb]. rewrite (take_S_r _ _ _ Hb). eapply nsteps_r; [exact IH|].
    rewrite <- (app_nil_r (take j b)) at 1. apply edit_insert.
  - rewrite (take_S_r _ _ _ Hy), (take_S_r _ _ _ Hx), (take_S_r _ _ _ Hx'), (take_S_r _ _ _ Hy'), <- !app_assoc. cbn [app].
    eapply nsteps_r; [by apply edits_app|]. apply edit_swap.
Qed.
(** Equal characters prolong an alignment. *)
Lemma aligned_more i j n m : aligned i j n -> (i + m <= length a)%nat -> (forall k, (k < m)%nat -> a !! (i + k)%nat = b !! (j + k)%nat) ->
  aligned (i + m) (j + m) n.
Proof.
  intros A. induction m as [|m IH]; intros L E; [by rewrite !Nat.add_0_r|]. rewrite !Nat.add_succ_r.
  destruct (lookup_lt_is_Some_2 a (i + m)) as [x Hx]; [lia|]. apply (align_keep _ _ _ x); [done|by rewrite <- E by lia|].
  apply IH; [lia|]. intros k Lk. apply E. lia.
Qed.

(** ** One cell *)
Lemma least_cell i j del ins sub : least i (S j) del -> least (S i) j ins -> least i j sub -> (i < length a)%nat -> (j < length b)%nat ->
  forall swap : option nat,
  match swap with
  | Some t => exists k l, i = S k /\ j = S l /\ a !! S k = b !! l /\ a !! k = b !! S l /\ least k l t
  | None => ~ exists k l, i = S k /\ j = S l /\ a !! S k = b !! l /\ a !! k = b !! S l
  end ->
  least (S i) (S j) (Nat.min (Nat.min (Nat.min (S del) (S ins)) (sub + if bool_decide (a !! i = b !! j) then 0 else 1)%nat)
    (match swap with Some t => S t | None => S del end)).
Proof.
  intros [Ed Md] [Ei Mi] [Es Ms] La Lb swap Sw. destruct (lookup_lt_is_Some_2 a i La) as [x Ha], (lookup_lt_is_Some_2 b j Lb) as [y Hb].
  assert (Cost : aligned (S i) (S j) (sub + if bool_decide (a !! i = b !! j) then 0 else 1)%nat).
  { rewrite Ha, Hb. case_bool_decide as E; [injection E as ->; rewrite Nat.add_0_r; by apply (align_keep i j sub y)|]. rewrite Nat.add_1_r. by apply align_replace. }
  assert (Swap : aligned (S i) (S j) (match swap with Some t => S t | None => S del end)).
  { destruct swap as [t|]; [|by apply align_delete]. destruct Sw as (k & l & -> & -> & E1 & E2 & [Et _]).
    apply (align_swap k l t y x); congruence. }
  split.
  - destruct (Nat.min_dec (Nat.min (Nat.min (S del) (S ins)) (sub + if bool_decide (a !! i = b !! j) then 0 else 1)%nat) (match swap with Some t => S t | None => S del end)) as [->| ->]; [|done].
    destruct (Nat.min_dec (Nat.min (S del) (S ins)) (sub + if bool_decide (a !! i = b !! j) then 0 else 1)%nat) as [->| ->]; [|done].
    destruct (Nat.min_dec (S del) (S ins)) as [->| ->]; [by apply align_delete|by apply align_insert].
  - intros n E. inversion E as [|i' j' n' z Hz Hz' E'|i' j' n' ? ? E'|i' j' n' ? E'|i' j' n' ? E'|i' j' n' z z' Hz Hz' Hy' Hy E']; subst.
    + apply Ms in E'. rewrite bool_decide_eq_true_2 by congruence. lia.
    + apply Ms in E'. case_bool_decide; lia.
    + apply Md in E'. lia.
    + apply Mi in E'. lia.
    + destruct swap as [t|].
      * destruct Sw as (k & l & [= <-] & [= <-] & _ & _ & [_ Mt]). apply Mt in E'. lia.
      * destruct Sw. exists i', j'. split_and!; congruence.
Qed.
End spec.

(** The three rows compute the least cost, and the early exit is
    taken only beyond the cap. *)

Section facts.
  Context (a b : list Z).
  Hypothesis La : (length a <= DLEV_MAX_LEN)%nat.
  Hypothesis Lb : (length b <= DLEV_MAX_LEN)%nat.

(** The first [m] cells of row [i]. *)
Definition row_to (i m : nat) (row : list Z) : Prop := length row = (DLEV_MAX_LEN + 1)%nat /\
  forall j, (j < m)%nat -> exists n, cell row j = Z.of_nat n /\ least a b i j n.
Definition row_ok (i : nat) (row : list Z) : Prop := row_to i (length b + 1) row.

Lemma u32_sum n m : (n + m <= 1000)%nat -> u32 (Z.of_nat n + Z.of_nat m) = Z.of_nat (n + m).
Proof. intros H. unfold u32. rewrite Z.mod_small by lia. lia. Qed.
Lemma cell_insert row j k v : (j < length row)%nat -> cell (<[j := v]> row) k = if decide (k = j) then v else cell row k.
Proof. intros L. unfold cell. destruct (decide (k = j)) as [->|N]; [by rewrite list_lookup_insert_eq|by rewrite list_lookup_insert_ne]. Qed.
Lemma least_small i j n : (i <= length a)%nat -> (j <= length b)%nat -> least a b i j n -> (n <= 256)%nat.
Proof using La Lb. intros Li Lj Le. apply least_bound in Le; [|done|done]. unfold DLEV_MAX_LEN in *. lia. Qed.

Lemma min_ltb (x y : nat) : (if Z.of_nat x <? Z.of_nat y then Z.of_nat x else Z.of_nat y) = Z.of_nat (Nat.min x y).
Proof. destruct (Z.ltb_spec (Z.of_nat x) (Z.of_nat y)); lia. Qed.
Lemma cell_step prev2 prev i j cur row_min : (1 <= i <= length a)%nat -> (1 <= j <= length b)%nat ->
  row_ok (i - 1) prev -> ((2 <= i)%nat -> row_ok (i - 2) prev2) -> row_to i j cur ->
  exists n, least a b i j n /\ dlev_cell a b prev2 prev i j (cur, row_min) = (<[j := Z.of_nat n]> cur, if Z.of_nat n <? row_min then Z.of_nat n else row_min).
Proof using La Lb.
  intros Hi Hj [_ Rp] R2 [_ Rc]. destruct i as [|i]; [lia|]. destruct j as [|j]; [lia|].
  destruct (Rp (S j)) as (del & Ed & Ld); [lia|]. destruct (Rp j) as (sub & Es & Ls); [lia|]. destruct (Rc j) as (ins & Ei & Li); [lia|].
  replace (S i - 1)%nat with i in * by lia.
  pose proof (least_small i (S j) del ltac:(lia) ltac:(lia) Ld) as Bd. pose proof (least_small i j sub ltac:(lia) ltac:(lia) Ls) as Bs.
  pose proof (least_small (S i) j ins ltac:(lia) ltac:(lia) Li) as Bi.
  set (swap := ((1 <? S i)%nat && (1 <? S j)%nat && char_eq a b i (S j - 2) && char_eq a b (S i - 2) j)).
  assert (Sw : exists t, match t with
      | Some t => swap = true /\ cell prev2 (S j - 2) = Z.of_nat t /\ (t <= 256)%nat /\ exists k l, i = S k /\ j = S l /\ a !! S k = b !! l /\ a !! k = b !! S l /\ least a b k l t
      | None => swap = false /\ ~ exists k l, i = S k /\ j = S l /\ a !! S k = b !! l /\ a !! k = b !! S l
      end).
  { destruct swap eqn:E; unfold swap in E.
    - apply andb_true_iff in E as [[[E1%Nat.ltb_lt E2%Nat.ltb_lt]%andb_true_iff E3%bool_decide_eq_true]%andb_true_iff E4%bool_decide_eq_true].
      destruct i as [|k]; [lia|]. destruct j as [|l]; [lia|]. replace (S (S l) - 2)%nat with l in * by lia. replace (S (S k) - 2)%nat with k in * by lia.
      destruct (proj2 (R2 ltac:(lia)) l ltac:(lia)) as (t & Et & Lt). exists (Some t). split; [done|]. split; [done|].
      split; [apply (least_small k l); [lia|lia|done]|]. by exists k, l.
    - exists None. split; [done|]. intros (k & l & -> & -> & E3 & E4). replace (S (S l) - 2)%nat with l in * by lia. replace (S (S k) - 2)%nat with k in * by lia.
      unfold char_eq in E. rewrite !bool_decide_eq_true_2 in E by done. done. }
  destruct Sw as [t Ht].
  assert (C : match t with Some t => exists k l, i = S k /\ j = S l /\ a !! S k = b !! l /\ a !! k = b !! S l /\ least a b k l t
                     | None => ~ exists k l, i = S k /\ j = S l /\ a !! S k = b !! l /\ a !! k = b !! S l end).
  { destruct t; [by destruct Ht as (_ & _ & _ & H)|by destruct Ht as [_ H]]. }
  eexists. split; [exact (least_cell a b i j del ins sub Ld Li Ls ltac:(lia) ltac:(lia) t C)|].
  unfold dlev_cell. replace (S i - 1)%nat with i by lia. replace (S j - 1)%nat with j by lia. fold swap. rewrite Ed, Es, Ei.
  set (cost := if bool_decide (a !! i = b !! j) then 0%nat else 1%nat).
  assert ((if char_eq a b i j then 0 else 1) = Z.of_nat cost) as -> by (unfold cost, char_eq; by case_bool_decide).
  assert (Bc : (cost <= 1)%nat) by (unfold cost; case_bool_decide; lia).
  change 1 with (Z.of_nat 1). rewrite !u32_sum by lia. rewrite !min_ltb.
  assert (Least : forall u v, Nat.min u (Nat.min (sub + cost) (Nat.min (del + 1) (ins + 1))) = v -> Z.of_nat (Nat.min u (Nat.min (sub + cost) (Nat.min (del + 1) (ins + 1)))) = Z.of_nat v)
    by (by intros u v ->).
  destruct t as [t|].
  - destruct Ht as (-> & -> & Bt & _). rewrite u32_sum by lia. rewrite min_ltb. by rewrite (Least (t + 1)%nat (Nat.min (Nat.min (Nat.min (S del) (S ins)) (sub + cost)) (S t))) by lia.
  - destruct Ht as [-> _]. by replace (Nat.min (sub + cost) (Nat.min (del + 1) (ins + 1))) with (Nat.min (Nat.min (Nat.min (S del) (S ins)) (sub + cost)) (S del)) by lia.
Qed.
(** One row, with its least cell. *)
Lemma row_correct prev2 prev cur i : (1 <= i <= length a)%nat -> row_ok (i - 1) prev -> ((2 <= i)%nat -> row_ok (i - 2) prev2) ->
  length cur = (DLEV_MAX_LEN + 1)%nat -> exists cur' row_min, dlev_row a b prev2 prev cur i = (cur', row_min) /\ row_ok i cur' /\
  (forall j, (j <= length b)%nat -> row_min <= cell cur' j) /\ exists j, (j <= length b)%nat /\ row_min = cell cur' j.
Proof using La Lb.
  intros Hi Rp R2 Lc. unfold dlev_row.
  pose (P j (st : list Z * Z) := row_to i j st.1 /\ (forall k, (k < j)%nat -> st.2 <= cell st.1 k) /\ exists k, (k < j)%nat /\ st.2 = cell st.1 k).
  assert (I : P (1 + length b)%nat (for_up (length b) 1 (dlev_cell a b prev2 prev i) (<[0%nat := u32 (Z.of_nat i)]> cur, u32 (Z.of_nat i)))).
  { assert (Ui : u32 (Z.of_nat i) = Z.of_nat i) by (unfold u32, DLEV_MAX_LEN in *; rewrite Z.mod_small; lia).
    assert (C0 : forall k, (k < 1)%nat -> cell (<[0%nat := u32 (Z.of_nat i)]> cur) k = Z.of_nat i).
    { intros k Lk. rewrite cell_insert by (rewrite Lc; unfold DLEV_MAX_LEN; lia). by rewrite decide_True by lia. }
    apply for_up_inv.
    - split; [split; [cbn [fst]; by rewrite length_insert|]|split]; cbn [fst snd].
      + intros j Lj. exists i. split; [by apply C0|]. assert (j = 0%nat) as -> by lia. apply least_left; lia.
      + intros k Lk. rewrite C0, Ui by done. lia.
      + exists 0%nat. split; [lia|]. by rewrite C0, Ui by lia.
    - intros j [cur' rm] Hj (Rc & Mn & k & Lk & Ek). cbn [fst snd] in *.
      destruct (cell_step prev2 prev i j cur' rm Hi ltac:(lia) Rp R2 Rc) as (n & Ln & ->). destruct Rc as [Lc' Rc].
      assert (Cn : forall k, cell (<[j := Z.of_nat n]> cur') k = if decide (k = j) then Z.of_nat n else cell cur' k).
      { intros k'. apply cell_insert. rewrite Lc'. unfold DLEV_MAX_LEN in *. lia. }
      split; [split; [cbn [fst]; by rewrite length_insert|]|split]; cbn [fst snd].
      + intros j' Lj'. rewrite Cn. destruct (decide (j' = j)) as [->|N]; [by exists n|]. apply Rc. lia.
      + intros k' Lk'. rewrite Cn. destruct (decide (k' = j)) as [->|N]; [destruct (Z.ltb_spec (Z.of_nat n) rm); lia|].
        specialize (Mn k' ltac:(lia)). destruct (Z.ltb_spec (Z.of_nat n) rm); lia.
      + destruct (Z.ltb_spec (Z.of_nat n) rm); [exists j; rewrite Cn, decide_True by done; split; [lia|done]|].
        exists k. rewrite Cn, decide_False by lia. split; [lia|done]. }
  destruct (for_up _ _ _ _) as [cur' rm]. destruct I as (R & Mn & k & Lk & Ek). cbn [fst snd] in *. exists cur', rm. split; [done|].
  split; [by unfold row_ok; rewrite Nat.add_comm|]. split; [intros j Lj; apply Mn; lia|]. exists k. split; [lia|done].
Qed.
Lemma copy_ok i dst src : row_ok i src -> length dst = (DLEV_MAX_LEN + 1)%nat -> row_ok i (copy_row b dst src).
Proof using La Lb.
  intros [Ls R] Ld. unfold copy_row. split.
  - rewrite length_app, length_take, length_drop. lia.
  - intros j Lj. unfold cell. rewrite lookup_app_l by (rewrite length_take; lia). rewrite lookup_take_lt by lia. by apply R.
Qed.

(** The rest of the loop. The answer is exact up to the cap. *)
Definition answers (cap : Z) (d : nat) (r : Z) : Prop := if Z.of_nat d <=? cap then r = Z.of_nat d else cap < r.
Lemma rows_correct cap d n i prev2 prev cur : 0 <= cap < 2 ^ 32 - 1 -> least a b (length a) (length b) d -> (i + n = length a + 1)%nat -> (1 <= i)%nat ->
  row_ok (i - 1) prev -> ((2 <= i)%nat -> row_ok (i - 2) prev2) -> length prev2 = (DLEV_MAX_LEN + 1)%nat -> length cur = (DLEV_MAX_LEN + 1)%nat ->
  answers cap d (dlev_rows a b cap n i prev2 prev cur).
Proof using La Lb.
  intros Hc Hd. revert i prev2 prev cur. induction n as [|n IH]; intros i prev2 prev cur Hi H1 Rp R2 L2 Lc; cbn [dlev_rows].
  - destruct Rp as [_ Rp]. destruct (Rp (length b)) as (m & -> & Lm); [lia|]. replace (i - 1)%nat with (length a) in Lm by lia.
    rewrite (least_unique _ _ _ _ _ _ Hd Lm). unfold answers. destruct (Z.leb_spec (Z.of_nat m) cap); [done|lia].
  - destruct (row_correct prev2 prev cur i ltac:(lia) Rp R2 Lc) as (cur' & rm & -> & Rc & Mn & k & Lk & Ek). destruct (Z.ltb_spec cap rm) as [X|X].
    + (* no later row is better *)
      unfold answers. destruct (Z.leb_spec (Z.of_nat d) cap) as [Y|Y]; [|unfold u32; rewrite Z.mod_small; lia]. exfalso.
      destruct (rows_grow a b i (length a) (length b) d (proj1 Hd) ltac:(lia)) as (j' & n' & E' & L'). destruct (align_range _ _ _ _ _ E') as [_ Lj'].
      destruct (proj2 Rc j' ltac:(lia)) as (m & Em & [_ Lm]). apply Lm in E'. specialize (Mn j' Lj'). lia.
    + apply IH; [lia|lia| | |unfold copy_row; destruct Rp; rewrite length_app, length_take, length_drop; lia|apply Rc].
      * replace (S i - 1)%nat with i by lia. apply copy_ok; [done|apply Rp].
      * intros _. replace (S i - 2)%nat with (i - 1)%nat by lia. by apply copy_ok.
Qed.
End facts.

Lemma distance_correct a b junk_prev junk_cur cap d : 0 <= cap < 2 ^ 32 - 1 -> (length a <= DLEV_MAX_LEN)%nat -> (length b <= DLEV_MAX_LEN)%nat ->
  length junk_prev = (DLEV_MAX_LEN + 1)%nat -> length junk_cur = (DLEV_MAX_LEN + 1)%nat -> least a b (length a) (length b) d ->
  answers cap d (dlev_distance a b junk_prev junk_cur cap).
Proof.
  intros Hc La Lb Lp Lc Hd. unfold dlev_distance. rewrite (proj2 (Nat.ltb_ge _ _) La), (proj2 (Nat.ltb_ge _ _) Lb). cbn [orb].
  destruct (align_gap _ _ _ _ _ (proj1 Hd)) as [G1 G2].
  assert (Far : cap < Z.of_nat d -> answers cap d (u32 (cap + 1))).
  { intros F. unfold answers. rewrite (proj2 (Z.leb_gt _ _)) by done. unfold u32. rewrite Z.mod_small by lia. lia. }
  destruct (if (length b <? length a)%nat then _ else _) eqn:Gap.
  { apply Far. destruct (Nat.ltb_spec (length b) (length a)); apply Z.ltb_lt in Gap; lia. }
  apply rows_correct; try done; try lia.
  replace (1 - 1)%nat with 0%nat by lia. set (step := fun j row => <[j := u32 (Z.of_nat j)]> row).
  assert (P : row_to a b 0 (0 + (length b + 1))%nat (for_up (length b + 1) 0 step junk_prev)); [|exact P].
  apply (for_up_inv (fun j row => row_to a b 0 j row)).
  - split; [done|]. intros j Lj. lia.
  - intros j row Hj [Lr R]. unfold step. split; [by rewrite length_insert|]. intros k Lk. rewrite cell_insert by (rewrite Lr; unfold DLEV_MAX_LEN in *; lia).
    destruct (decide (k = j)) as [->|N]; [|apply R; lia]. exists j. split; [unfold u32, DLEV_MAX_LEN in *; rewrite Z.mod_small; lia|apply least_top; lia].
Qed.
(** There is a least cost. *)
Lemma least_exists a b i j : (i <= length a)%nat -> (j <= length b)%nat -> exists n, least a b i j n.
Proof.
  revert j. induction i as [i IHi] using lt_wf_ind. intros j Li. destruct i as [|i]; [intros Lj; exists j; by apply least_top|].
  induction j as [|j IHj]; intros Lj; [exists (S i); by apply least_left|].
  destruct (IHi i ltac:(lia) (S j) ltac:(lia) Lj) as [del Ld]. destruct (IHi i ltac:(lia) j ltac:(lia) ltac:(lia)) as [sub Ls]. destruct (IHj ltac:(lia)) as [ins Lins].
  assert (Sw : exists swap : option nat, match swap with
      | Some t => exists k l, i = S k /\ j = S l /\ a !! S k = b !! l /\ a !! k = b !! S l /\ least a b k l t
      | None => ~ exists k l, i = S k /\ j = S l /\ a !! S k = b !! l /\ a !! k = b !! S l
      end).
  { destruct i as [|k]; [exists None; by intros (k & l & ? & _)|]. destruct j as [|l]; [exists None; by intros (k' & l & _ & ? & _)|].
    destruct (decide (a !! S k = b !! l /\ a !! k = b !! S l)) as [[E1 E2]|N].
    - destruct (IHi k ltac:(lia) l ltac:(lia) ltac:(lia)) as [t Lt]. exists (Some t), k, l. done.
    - exists None. intros (k' & l' & [= <-] & [= <-] & E1 & E2). by apply N. }
  destruct Sw as [swap Sw]. eexists. by apply (least_cell a b i j del ins sub Ld Lins Ls ltac:(lia) ltac:(lia) swap).
Qed.

(** A single edit is an alignment of cost one at most. *)
Lemma prefix_aligned l r r' : aligned (l ++ r) (l ++ r') (length l) (length l) 0.
Proof.
  apply (aligned_more (l ++ r) (l ++ r') 0 0 0 (length l)); [constructor|rewrite length_app; lia|].
  intros k Lk. cbn [Nat.add]. by rewrite !lookup_app_l.
Qed.
Lemma suffix_aligned l l' r n : aligned (l ++ r) (l' ++ r) (length l) (length l') n ->
  aligned (l ++ r) (l' ++ r) (length (l ++ r)) (length (l' ++ r)) n.
Proof.
  intros A. rewrite !length_app. apply aligned_more; [done|by rewrite length_app|].
  intros k Lk. rewrite !lookup_app_r by lia. f_equal. lia.
Qed.
Lemma edit_aligned a b : edit a b -> aligned a b (length a) (length b) 1.
Proof.
  intros [l x y r|l x r|l x r|l x y r].
  - change (x :: r) with ([x] ++ r). change (y :: r) with ([y] ++ r). rewrite !app_assoc. apply suffix_aligned. rewrite <- !app_assoc, !length_app.
    cbn [length]. rewrite !Nat.add_1_r. apply align_replace; [rewrite !length_app; cbn; lia..|]. apply prefix_aligned.
  - change (x :: r) with ([x] ++ r). rewrite app_assoc. apply suffix_aligned. rewrite <- app_assoc, length_app.
    cbn [length]. rewrite Nat.add_1_r. apply align_delete; [rewrite !length_app; cbn; lia|]. apply prefix_aligned.
  - change (x :: r) with ([x] ++ r). rewrite (app_assoc l [x] r). apply suffix_aligned. rewrite <- app_assoc, length_app.
    cbn [length]. rewrite Nat.add_1_r. apply align_insert; [rewrite !length_app; cbn; lia|]. apply prefix_aligned.
  - change (x :: y :: r) with ([x; y] ++ r). change (y :: x :: r) with ([y; x] ++ r). rewrite !app_assoc. apply suffix_aligned.
    rewrite <- !app_assoc, !length_app. cbn [length app]. rewrite !Nat.add_succ_r, Nat.add_0_r.
    apply (align_swap _ _ _ _ _ x y); [| | | |apply prefix_aligned]; rewrite lookup_app_r by lia;
      (rewrite Nat.sub_diag || replace (S (length l) - length l)%nat with 1%nat by lia); done.
Qed.
Lemma one_edit a b n : nsteps edit n a b -> (n <= 1)%nat -> exists d, (d <= n)%nat /\ aligned a b (length a) (length b) d.
Proof.
  intros H L. destruct n as [|[|]]; [|exists 1%nat|lia].
  - inversion H; subst. exists 0%nat. split; [done|]. pose proof (prefix_aligned b [] []) as P. by rewrite app_nil_r in P.
  - split; [done|]. apply edit_aligned. by apply nsteps_once_inv.
Qed.

(** C21. The capped distance is that of optimal string alignment: the least cost
    of an alignment of the names, in which a character is kept, replaced,
    deleted or inserted, or two neighbours that are neighbours in both names are
    swapped. It is exact if it is at most the cap, and otherwise something above
    the cap, so the exit after a row that exceeds the cap loses nothing, also not
    through a swap that reaches back two rows. The distance is the length of a
    sequence of edits and swaps, each made anywhere, that turns one name into the
    other, and no sequence of at most one is shorter; sequences of two or more
    may be ([dlev_not_damerau]). A suggestion is made if and only if the names
    differ, neither is empty and their distance is at most 1 for a name of less
    than four characters and 2 otherwise, and it is reported with that distance.
    Names longer than the rows are never suggested. Nothing depends on what the
    rows held before. *)
Theorem dlev_correct a b junk_prev junk_cur : length junk_prev = (DLEV_MAX_LEN + 1)%nat -> length junk_cur = (DLEV_MAX_LEN + 1)%nat ->
  exists d, least a b (length a) (length b) d /\
    nsteps edit d a b /\ (forall n, nsteps edit n a b -> (n <= 1)%nat -> (d <= n)%nat) /\
    (forall cap, 0 <= cap < 2 ^ 32 - 1 -> (length a <= DLEV_MAX_LEN)%nat -> (length b <= DLEV_MAX_LEN)%nat ->
       answers cap d (dlev_distance a b junk_prev junk_cur cap)) /\
    dlev_is_suggestion a b junk_prev junk_cur =
      (if bool_decide (a <> [] /\ b <> [] /\ a <> b /\ (length a <= DLEV_MAX_LEN)%nat /\ (length b <= DLEV_MAX_LEN)%nat /\
                       (d <= if (length a <? 4)%nat then 1 else 2)%nat) then Some (Z.of_nat d) else None).
Proof.
  intros Lp Lc. destruct (least_exists a b (length a) (length b)) as [d Hd]; [lia|lia|]. exists d. split; [done|].
  split; [pose proof (aligned_edits a b _ _ _ (proj1 Hd)) as E; by rewrite !take_ge in E by lia|].
  split; [intros n N Ln; destruct (one_edit _ _ _ N Ln) as (d' & Ld & Al); pose proof (proj2 Hd d' Al); lia|].
  assert (A : forall cap, 0 <= cap < 2 ^ 32 - 1 -> (length a <= DLEV_MAX_LEN)%nat -> (length b <= DLEV_MAX_LEN)%nat ->
       answers cap d (dlev_distance a b junk_prev junk_cur cap)) by (intros; by apply distance_correct). split; [done|].
  unfold dlev_is_suggestion. set (lim := if (length a <? 4)%nat then 1%nat else 2%nat).
  assert ((if (length a <? 4)%nat then 1 else 2) = Z.of_nat lim) as -> by (unfold lim; by destruct (length a <? 4)%nat).
  assert (Hl : (lim <= 2)%nat) by (unfold lim; destruct (length a <? 4)%nat; lia).
  destruct (Nat.eqb_spec (length b) 0) as [B0|B0]; cbn [orb]; [rewrite bool_decide_eq_false_2; [done|]; apply nil_length_inv in B0; tauto|].
  destruct (Nat.eqb_spec (length a) 0) as [A0|A0]; [rewrite bool_decide_eq_false_2; [done|]; apply nil_length_inv in A0; tauto|].
  case_bool_decide as E; [rewrite bool_decide_eq_false_2; [done|]; tauto|]. cbv zeta.
  assert (Na : a <> []) by (by intros ->). assert (Nb : b <> []) by (by intros ->).
  destruct (decide ((length a <= DLEV_MAX_LEN)%nat /\ (length b <= DLEV_MAX_LEN)%nat)) as [[La Lb]|Long].
  - pose proof (A (Z.of_nat lim) ltac:(lia) La Lb) as R. unfold answers in R. destruct (Z.leb_spec (Z.of_nat d) (Z.of_nat lim)) as [X|X].
    + rewrite R, (proj2 (Z.ltb_ge _ _)) by done. rewrite bool_decide_eq_true_2; [done|]. split_and!; try done. lia.
    + rewrite (proj2 (Z.ltb_lt _ _)) by done. rewrite bool_decide_eq_false_2; [done|]. intros (_ & _ & _ & _ & _ & ?). lia.
  - assert (dlev_distance a b junk_prev junk_cur (Z.of_nat lim) = u32 (Z.of_nat lim + 1)) as ->.
    { unfold dlev_distance. destruct (Nat.ltb_spec DLEV_MAX_LEN (length a)), (Nat.ltb_spec DLEV_MAX_LEN (length b)); cbn [orb]; try done. lia. }
    unfold u32. rewrite Z.mod_small by lia. rewrite (proj2 (Z.ltb_lt _ _)) by lia. rewrite bool_decide_eq_false_2; [done|]. tauto.
Qed.
Definition flie : list Z := [102; 108; 105; 101].
Definition file : list Z := [102; 105; 108; 101].
Lemma dlev_correct_witness : exists d, least flie file 4 4 d /\ d = 1%nat /\ dlev_is_suggestion flie file (replicate 129 7) (replicate 129 9) = Some 1.
Proof.
  destruct (dlev_correct flie file (replicate 129 7) (replicate 129 9)) as (d & L & _ & _ & A & S); [reflexivity|reflexivity|].
  assert (D : d = 1%nat).
  { pose proof (A 5 ltac:(lia) ltac:(unfold DLEV_MAX_LEN; cbn; lia) ltac:(unfold DLEV_MAX_LEN; cbn; lia)) as R. unfold answers in R.
    assert (V : dlev_distance flie file (replicate 129 7) (replicate 129 9) 5 = 1) by (vm_compute; reflexivity). rewrite V in R.
    destruct (Z.leb_spec (Z.of_nat d) 5); lia. }
  subst d. exists 1%nat. split; [exact L|]. split; [reflexivity|]. rewrite S. rewrite bool_decide_eq_true_2; [reflexivity|].
  unfold DLEV_MAX_LEN. cbn [flie file length Nat.ltb Nat.leb].
  split; [discriminate|]. split; [discriminate|]. split; [discriminate|]. split; [lia|]. split; [lia|]. lia.
Defined.
(** Beyond the cap the answer need not be [cap + 1]. *)
Example dlev_beyond_cap : dlev_distance [97; 98; 99; 100] [99; 100; 97; 98] (replicate 129 0) (replicate 129 0) 2 = 4.
Proof. vm_compute. reflexivity. Qed.
(** [ca] becomes [abc] by a swap and an insertion between the two, and the
    distance is 3; after two more characters a name at two edits is not
    suggested. *)
Example dlev_not_damerau : nsteps edit 2 [99; 97] [97; 98; 99] /\
  dlev_distance [99; 97] [97; 98; 99] (replicate 129 0) (replicate 129 0) 5 = 3 /\
  nsteps edit 2 [120; 120; 99; 97] [120; 120; 97; 98; 99] /\
  dlev_is_suggestion [120; 120; 99; 97] [120; 120; 97; 98; 99] (replicate 129 0) (replicate 129 0) = None.
Proof.
  split; [|split; [vm_compute; reflexivity|split; [|vm_compute; reflexivity]]].
  - eapply nsteps_l; [apply (edit_swap [])|]. eapply nsteps_l; [apply (edit_insert [97] 98)|constructor].
  - eapply nsteps_l; [apply (edit_swap [120; 120])|]. eapply nsteps_l; [apply (edit_insert [120; 120; 97] 98)|constructor].
Qed.
