(* ===== verification/Warn.v ===== *)
(** [src/warn/warn.c]: which warnings are emitted, and as what. The command line
    sets a warning directly or through its groups, with a priority per kind of
    option; [#pragma GCC diagnostic] sets, saves and restores a class per
    warning at a position of the source; [-fsafe], [-w], [-pedantic] and
    [-Werror] act on all. C strings are [string], without a NUL. [None] is
    [CGF_ICE] or a write beyond an array. *)
From Stdlib Require Import Ascii String.
From S2P Require Import Prelude.
#[local] Open Scope Z_scope.

(** ** C strings *)
Definition byte_at (s : string) (i : nat) : Z := match String.get i s with Some c => Z.of_nat (nat_of_ascii c) | None => 0 end.
Definition drop (n : nat) (s : string) : string := substring n (String.length s - n) s.
(** [strncmp(s, lit, strlen(lit)) == 0] *)
Definition starts (lit s : string) : bool := String.prefix lit s.
(** [strchr(s, '=')], as an index. *)
Definition find_eq (s : string) : option nat := String.index 0 "="%string s.

(** ** The registry *)
Definition WG_NONE : Z := 0.
Definition WG_ALL : Z := 1.
Definition WG_EXTRA : Z := 2.
Definition WG_UNUSED : Z := 4.
Definition WG_FORMAT : Z := 8.
Definition WG_IMPLICIT : Z := 16.
Definition WG_PEDANTIC : Z := 32.
Definition WG_CGF_EXT : Z := 64.
Definition WG_FORMAT2 : Z := 128.
Definition WG_MEM : Z := 256.
Definition WG_MEM_STRICT : Z := 512.

Inductive WarnDefault := WD_OFF | WD_ON | WD_WALL | WD_WEXTRA | WD_PEDANTIC.
Inductive WarnLevel := WL_WARN | WL_PEDWARN.
Record WarnInfo := W { wi_id : nat; wi_flag : string; wi_groups : Z; wi_default : WarnDefault; wi_level : WarnLevel }.
Inductive WarnPragmaClass := WARN_PRAGMA_IGNORED | WARN_PRAGMA_WARNING | WARN_PRAGMA_ERROR.
Inductive DiagLevel := DIAG_NOTE | DIAG_WARNING | DIAG_ERROR | DIAG_FATAL.

(** [WarnId]: the row of a warning. *)
Definition WARN_NONE : nat := 0.
Definition WARN_FORMAT : nat := 40.
Definition WARN_FORMAT_SIGNEDNESS : nat := 45.
Definition WARN_IMPLICIT_FALLTHROUGH : nat := 52.
Definition WARN_INFINITE_RECURSION : nat := 56.
Definition WARN_INIT_SELF : nat := 57.
Definition WARN_MAYBE_UNINITIALIZED : nat := 72.
Definition WARN_MEM_ANNOTATION_MISMATCH : nat := 73.
Definition WARN_MEM_DOUBLE_FREE : nat := 74.
Definition WARN_MEM_FREE_NONHEAP : nat := 75.
Definition WARN_MEM_LEAK : nat := 76.
Definition WARN_MEM_NULL_CHECK : nat := 77.
Definition WARN_MEM_OUT_OF_BOUNDS : nat := 78.
Definition WARN_MEM_REALLOC_ZERO : nat := 79.
Definition WARN_MEM_SIZEOF_MISMATCH : nat := 80.
Definition WARN_MEM_SUGGEST_ANNOTATIONS : nat := 81.
Definition WARN_MEM_UNBOUNDED_COPY : nat := 82.
Definition WARN_MEM_UNINIT_READ : nat := 83.
Definition WARN_MEM_USE_AFTER_FREE : nat := 84.
Definition WARN_MEM_USE_AFTER_FREE_UNKNOWN : nat := 85.
Definition WARN_NONNULL : nat := 100.
Definition WARN_NULL_DEREFERENCE : nat := 103.
Definition WARN_RETURN_TYPE : nat := 124.
Definition WARN_SHADOW : nat := 127.
Definition WARN_SWITCH_UNREACHABLE : nat := 148.
Definition WARN_UNINITIALIZED : nat := 157.
Definition WARN_UNREACHABLE_CODE : nat := 160.
Definition WARN_UNUSED_BUT_SET_PARAMETER : nat := 162.
Definition WARN_UNUSED_BUT_SET_VARIABLE : nat := 163.
Definition WARN_UNUSED_PARAMETER : nat := 170.
Definition WARN_UNUSED_VARIABLE : nat := 173.
Definition WARN_COUNT : nat := 182.

(** [warnings.def], sorted by flag. *)
Definition infos : list WarnInfo := [
  W 0 EmptyString WG_NONE WD_OFF WL_WARN;
  W 1 "address" WG_ALL WD_WALL WL_WARN;
  W 2 "aggregate-return" WG_NONE WD_OFF WL_WARN;
  W 3 "array-bounds" WG_ALL WD_WALL WL_WARN;
  W 4 "attributes" WG_NONE WD_ON WL_WARN;
  W 5 "backslash-newline-escape" WG_NONE WD_ON WL_WARN;
  W 6 "bad-function-cast" WG_NONE WD_OFF WL_WARN;
  W 7 "bool-compare" WG_ALL WD_WALL WL_WARN;
  W 8 "bool-operation" WG_ALL WD_WALL WL_WARN;
  W 9 "builtin-macro-redefined" WG_NONE WD_ON WL_WARN;
  W 10 "bundled-only-option" WG_CGF_EXT WD_ON WL_WARN;
  W 11 "c11-extensions" WG_NONE WD_ON WL_PEDWARN;
  W 12 "c23-extensions" WG_NONE WD_ON WL_PEDWARN;
  W 13 "c90-c99-compat" WG_NONE WD_ON WL_PEDWARN;
  W 14 "cast-align" WG_NONE WD_OFF WL_WARN;
  W 15 "cast-function-type" WG_EXTRA WD_WEXTRA WL_WARN;
  W 16 "cast-qual" WG_NONE WD_OFF WL_WARN;
  W 17 "char-subscripts" WG_ALL WD_WALL WL_WARN;
  W 18 "clobbered" WG_EXTRA WD_WEXTRA WL_WARN;
  W 19 "comment" WG_ALL WD_WALL WL_WARN;
  W 20 "comments" WG_NONE WD_OFF WL_WARN;
  W 21 "compare-distinct-pointer-types" WG_NONE WD_ON WL_WARN;
  W 22 "conversion" WG_NONE WD_OFF WL_WARN;
  W 23 "cpp" WG_NONE WD_ON WL_WARN;
  W 24 "dangling-else" WG_NONE WD_OFF WL_WARN;
  W 25 "date-time" WG_NONE WD_OFF WL_WARN;
  W 26 "declaration-after-statement" WG_NONE WD_OFF WL_PEDWARN;
  W 27 "deprecated" WG_NONE WD_OFF WL_WARN;
  W 28 "deprecated-declarations" WG_NONE WD_ON WL_WARN;
  W 29 "disabled-optimization" WG_NONE WD_OFF WL_WARN;
  W 30 "discarded-qualifiers" WG_NONE WD_ON WL_WARN;
  W 31 "div-by-zero" WG_NONE WD_ON WL_WARN;
  W 32 "double-promotion" WG_NONE WD_OFF WL_WARN;
  W 33 "duplicate-decl-specifier" WG_ALL WD_WALL WL_WARN;
  W 34 "empty-body" WG_EXTRA WD_WEXTRA WL_WARN;
  W 35 "empty-declaration" WG_NONE WD_ON WL_WARN;
  W 36 "endif-labels" WG_NONE WD_OFF WL_PEDWARN;
  W 37 "enum-compare" WG_ALL WD_WALL WL_WARN;
  W 38 "float-conversion" WG_NONE WD_OFF WL_WARN;
  W 39 "float-equal" WG_NONE WD_OFF WL_WARN;
  W 40 "format" (Z.lor WG_ALL WG_FORMAT) WD_WALL WL_WARN;
  W 41 "format-contains-nul" (Z.lor WG_ALL WG_FORMAT) WD_OFF WL_WARN;
  W 42 "format-extra-args" (Z.lor WG_ALL WG_FORMAT) WD_OFF WL_WARN;
  W 43 "format-nonliteral" WG_FORMAT2 WD_OFF WL_WARN;
  W 44 "format-security" WG_FORMAT2 WD_OFF WL_WARN;
  W 45 "format-signedness" WG_NONE WD_OFF WL_WARN;
  W 46 "format-unbounded-scanf" WG_CGF_EXT WD_OFF WL_WARN;
  W 47 "format-y2k" WG_FORMAT2 WD_OFF WL_WARN;
  W 48 "format-zero-length" (Z.lor WG_ALL WG_FORMAT) WD_OFF WL_WARN;
  W 49 "frame-larger-than" WG_NONE WD_OFF WL_WARN;
  W 50 "ignored-qualifiers" WG_EXTRA WD_WEXTRA WL_WARN;
  W 51 "implicit" (Z.lor WG_ALL WG_IMPLICIT) WD_WALL WL_WARN;
  W 52 "implicit-fallthrough" WG_EXTRA WD_WEXTRA WL_WARN;
  W 53 "implicit-function-declaration" (Z.lor WG_ALL WG_IMPLICIT) WD_ON WL_PEDWARN;
  W 54 "implicit-int" (Z.lor WG_ALL WG_IMPLICIT) WD_ON WL_PEDWARN;
  W 55 "incompatible-pointer-types" WG_NONE WD_ON WL_WARN;
  W 56 "infinite-recursion" WG_CGF_EXT WD_OFF WL_WARN;
  W 57 "init-self" WG_NONE WD_OFF WL_WARN;
  W 58 "initializer-string-too-long" WG_NONE WD_ON WL_WARN;
  W 59 "inline" WG_NONE WD_OFF WL_WARN;
  W 60 "int-conversion" WG_NONE WD_ON WL_WARN;
  W 61 "int-in-bool-context" WG_ALL WD_WALL WL_WARN;
  W 62 "int-to-pointer-cast" WG_NONE WD_OFF WL_WARN;
  W 63 "invalid-function-specifier" WG_NONE WD_ON WL_PEDWARN;
  W 64 "invalid-pch" WG_NONE WD_OFF WL_WARN;
  W 65 "jump-misses-init" WG_NONE WD_OFF WL_WARN;
  W 66 "larger-than" WG_NONE WD_OFF WL_WARN;
  W 67 "logical-not-parentheses" WG_ALL WD_WALL WL_WARN;
  W 68 "logical-op" WG_NONE WD_OFF WL_WARN;
  W 69 "long-long" WG_PEDANTIC WD_PEDANTIC WL_PEDWARN;
  W 70 "macro-redefined" WG_NONE WD_ON WL_WARN;
  W 71 "main" WG_ALL WD_ON WL_WARN;
  W 72 "maybe-uninitialized" WG_ALL WD_WALL WL_WARN;
  W 73 "mem-annotation-mismatch" WG_MEM WD_ON WL_WARN;
  W 74 "mem-double-free" WG_MEM WD_ON WL_WARN;
  W 75 "mem-free-nonheap" WG_MEM WD_ON WL_WARN;
  W 76 "mem-leak" WG_MEM WD_ON WL_WARN;
  W 77 "mem-null-check" WG_MEM_STRICT WD_OFF WL_WARN;
  W 78 "mem-out-of-bounds" WG_MEM WD_ON WL_WARN;
  W 79 "mem-realloc-zero" WG_NONE WD_OFF WL_WARN;
  W 80 "mem-sizeof-mismatch" WG_MEM_STRICT WD_OFF WL_WARN;
  W 81 "mem-suggest-annotations" WG_NONE WD_OFF WL_WARN;
  W 82 "mem-unbounded-copy" WG_MEM_STRICT WD_OFF WL_WARN;
  W 83 "mem-uninit-read" WG_MEM WD_ON WL_WARN;
  W 84 "mem-use-after-free" WG_MEM WD_ON WL_WARN;
  W 85 "mem-use-after-free-unknown" WG_MEM_STRICT WD_OFF WL_WARN;
  W 86 "memset-elt-size" WG_ALL WD_WALL WL_WARN;
  W 87 "memset-transposed-args" WG_ALL WD_WALL WL_WARN;
  W 88 "misleading-indentation" WG_ALL WD_WALL WL_WARN;
  W 89 "missing-braces" WG_ALL WD_WALL WL_WARN;
  W 90 "missing-declarations" WG_NONE WD_OFF WL_WARN;
  W 91 "missing-field-initializers" WG_EXTRA WD_WEXTRA WL_WARN;
  W 92 "missing-format-attribute" WG_NONE WD_OFF WL_WARN;
  W 93 "missing-include-dirs" WG_NONE WD_OFF WL_WARN;
  W 94 "missing-parameter-type" WG_EXTRA WD_WEXTRA WL_WARN;
  W 95 "missing-prototypes" WG_NONE WD_OFF WL_WARN;
  W 96 "multichar" WG_NONE WD_ON WL_WARN;
  W 97 "multistatement-macros" WG_ALL WD_WALL WL_WARN;
  W 98 "nested-externs" WG_NONE WD_OFF WL_WARN;
  W 99 "newline-eof" WG_NONE WD_OFF WL_PEDWARN;
  W 100 "nonnull" (Z.lor WG_ALL WG_FORMAT) WD_WALL WL_WARN;
  W 101 "nonnull-compare" WG_NONE WD_OFF WL_WARN;
  W 102 "null-character" WG_NONE WD_ON WL_WARN;
  W 103 "null-dereference" WG_NONE WD_OFF WL_WARN;
  W 104 "old-style-declaration" WG_EXTRA WD_WEXTRA WL_WARN;
  W 105 "old-style-definition" WG_NONE WD_OFF WL_WARN;
  W 106 "overflow" WG_NONE WD_ON WL_WARN;
  W 107 "overlength-strings" WG_PEDANTIC WD_PEDANTIC WL_PEDWARN;
  W 108 "override-init" WG_EXTRA WD_WEXTRA WL_WARN;
  W 109 "packed" WG_NONE WD_OFF WL_WARN;
  W 110 "packed-bitfield-compat" WG_NONE WD_ON WL_WARN;
  W 111 "padded" WG_NONE WD_OFF WL_WARN;
  W 112 "parentheses" WG_ALL WD_WALL WL_WARN;
  W 113 "pedantic" WG_PEDANTIC WD_PEDANTIC WL_PEDWARN;
  W 114 "pointer-arith" WG_NONE WD_OFF WL_PEDWARN;
  W 115 "pointer-compare" WG_NONE WD_OFF WL_WARN;
  W 116 "pointer-compared-to-zero-with-relational" WG_EXTRA WD_WEXTRA WL_WARN;
  W 117 "pointer-sign" WG_ALL WD_WALL WL_WARN;
  W 118 "pointer-to-int-cast" WG_NONE WD_OFF WL_WARN;
  W 119 "pragmas" WG_NONE WD_ON WL_WARN;
  W 120 "prio-ctor-dtor" WG_CGF_EXT WD_ON WL_WARN;
  W 121 "redundant-decls" WG_NONE WD_OFF WL_WARN;
  W 122 "restrict" WG_ALL WD_WALL WL_WARN;
  W 123 "return-local-addr" WG_NONE WD_ON WL_WARN;
  W 124 "return-type" WG_ALL WD_ON WL_WARN;
  W 125 "scalar-storage-order" WG_NONE WD_ON WL_WARN;
  W 126 "sequence-point" WG_ALL WD_WALL WL_WARN;
  W 127 "shadow" WG_NONE WD_OFF WL_WARN;
  W 128 "shift-count-negative" WG_NONE WD_ON WL_WARN;
  W 129 "shift-count-overflow" WG_NONE WD_ON WL_WARN;
  W 130 "shift-negative-value" WG_EXTRA WD_WEXTRA WL_WARN;
  W 131 "shift-overflow" WG_NONE WD_ON WL_WARN;
  W 132 "sign-compare" WG_EXTRA WD_WEXTRA WL_WARN;
  W 133 "sign-conversion" WG_NONE WD_OFF WL_WARN;
  W 134 "sizeof-array-argument" WG_NONE WD_ON WL_WARN;
  W 135 "sizeof-pointer-div" WG_ALL WD_WALL WL_WARN;
  W 136 "sizeof-pointer-memaccess" WG_ALL WD_WALL WL_WARN;
  W 137 "stack-protector" WG_NONE WD_OFF WL_WARN;
  W 138 "static-in-inline" WG_NONE WD_ON WL_PEDWARN;
  W 139 "strict-aliasing" WG_ALL WD_WALL WL_WARN;
  W 140 "strict-overflow" WG_ALL WD_WALL WL_WARN;
  W 141 "strict-prototypes" WG_NONE WD_OFF WL_WARN;
  W 142 "stringop-overflow" WG_NONE WD_ON WL_WARN;
  W 143 "stringop-truncation" WG_ALL WD_WALL WL_WARN;
  W 144 "switch" WG_ALL WD_WALL WL_WARN;
  W 145 "switch-default" WG_NONE WD_OFF WL_WARN;
  W 146 "switch-empty-range" WG_CGF_EXT WD_ON WL_WARN;
  W 147 "switch-enum" WG_NONE WD_OFF WL_WARN;
  W 148 "switch-unreachable" WG_NONE WD_OFF WL_WARN;
  W 149 "tautological-compare" WG_ALL WD_WALL WL_WARN;
  W 150 "tentative-definition-array" WG_NONE WD_ON WL_WARN;
  W 151 "traditional" WG_NONE WD_ON WL_WARN;
  W 152 "trampolines" WG_NONE WD_OFF WL_WARN;
  W 153 "trigraphs" WG_ALL WD_WALL WL_WARN;
  W 154 "type-limits" WG_EXTRA WD_WEXTRA WL_WARN;
  W 155 "typedef-redefinition" WG_NONE WD_ON WL_PEDWARN;
  W 156 "undef" WG_NONE WD_OFF WL_WARN;
  W 157 "uninitialized" (Z.lor WG_ALL WG_EXTRA) WD_WALL WL_WARN;
  W 158 "unknown-pragmas" WG_ALL WD_WALL WL_WARN;
  W 159 "unknown-warning-option" WG_CGF_EXT WD_ON WL_WARN;
  W 160 "unreachable-code" WG_CGF_EXT WD_OFF WL_WARN;
  W 161 "unused" (Z.lor WG_ALL WG_UNUSED) WD_WALL WL_WARN;
  W 162 "unused-but-set-parameter" (Z.lor WG_EXTRA WG_UNUSED) WD_OFF WL_WARN;
  W 163 "unused-but-set-variable" (Z.lor WG_ALL WG_UNUSED) WD_WALL WL_WARN;
  W 164 "unused-command-line-argument" WG_CGF_EXT WD_ON WL_WARN;
  W 165 "unused-const-variable" (Z.lor WG_ALL WG_UNUSED) WD_WALL WL_WARN;
  W 166 "unused-function" (Z.lor WG_ALL WG_UNUSED) WD_WALL WL_WARN;
  W 167 "unused-label" (Z.lor WG_ALL WG_UNUSED) WD_WALL WL_WARN;
  W 168 "unused-local-typedefs" (Z.lor WG_ALL WG_UNUSED) WD_WALL WL_WARN;
  W 169 "unused-macros" WG_UNUSED WD_OFF WL_WARN;
  W 170 "unused-parameter" (Z.lor WG_EXTRA WG_UNUSED) WD_OFF WL_WARN;
  W 171 "unused-result" WG_UNUSED WD_ON WL_WARN;
  W 172 "unused-value" (Z.lor WG_ALL WG_UNUSED) WD_WALL WL_WARN;
  W 173 "unused-variable" (Z.lor WG_ALL WG_UNUSED) WD_WALL WL_WARN;
  W 174 "variadic-macros" WG_PEDANTIC WD_PEDANTIC WL_PEDWARN;
  W 175 "visibility" WG_NONE WD_ON WL_WARN;
  W 176 "vla" WG_NONE WD_OFF WL_WARN;
  W 177 "vla-larger-than" WG_NONE WD_OFF WL_WARN;
  W 178 "void-ptr-dereference" WG_NONE WD_ON WL_WARN;
  W 179 "volatile-register-var" WG_ALL WD_WALL WL_WARN;
  W 180 "write-strings" WG_NONE WD_OFF WL_WARN;
  W 181 "zero-length-array" WG_NONE WD_ON WL_PEDWARN
]%string.

Definition info_at (i : nat) : WarnInfo := default (W 0 EmptyString WG_NONE WD_OFF WL_WARN) (infos !! i).
Definition is_group (groups group : Z) : bool := negb (Z.land groups group =? 0).
(** On only when both [-Wextra] and [-Wunused] are. *)
Definition in_extra_unused (groups : Z) : bool := Z.land groups (Z.lor WG_EXTRA WG_UNUSED) =? Z.lor WG_EXTRA WG_UNUSED.

(** ** Names of options *)
Definition strip_w (arg : string) : string := if starts "-W" arg then drop 2 arg else arg.
(** The name without [-W], [no-] and [=...], and whether there was a [no-]. *)
Definition normalized_name (arg : string) (out_size : nat) : option (string * bool) :=
  let p := strip_w arg in
  let negative := starts "no-" p in
  let p := if negative then drop 3 p else p in
  let n := match find_eq p with Some eq => eq | None => String.length p end in
  if (n =? 0)%nat || (out_size <=? n)%nat then None else Some (substring 0 n p, negative).

(** [bsearch] of the C library over the rows from 1 on. *)
Fixpoint bsearch (fuel : nat) (key : string) (lo hi : nat) : option WarnInfo :=
  match fuel with
  | O => None
  | S fuel =>
    if (hi <=? lo)%nat then None
    else
      let mid := ((lo + hi) / 2)%nat in
      let item := info_at (S mid) in
      match String.compare key (wi_flag item) with
      | Eq => Some item
      | Lt => bsearch fuel key lo mid
      | Gt => bsearch fuel key (S mid) hi
      end
  end.
Definition warn_info_for_flag (flag : string) : option WarnInfo :=
  '(name, _) ← normalized_name flag 128;
  bsearch WARN_COUNT name 0 (WARN_COUNT - 1).
Definition warn_info_for_id (id : nat) : option WarnInfo :=
  if (id <=? WARN_NONE)%nat || (WARN_COUNT <=? id)%nat then None else Some (info_at id).
Definition warn_info_count : nat := WARN_COUNT - 1.
Definition warn_info_at (index : nat) : option WarnInfo := if (index <? warn_info_count)%nat then Some (info_at (index + 1)) else None.
Definition warn_flag_name (id : nat) : option string :=
  let info := warn_info_for_id id in
  if (id =? WARN_FORMAT)%nat || (id =? WARN_FORMAT_SIGNEDNESS)%nat then Some "format="%string else wi_flag <$> info.

Definition group_names : list (string * Z) := [
  ("all", WG_ALL); ("extra", WG_EXTRA); ("unused", WG_UNUSED); ("format", WG_FORMAT); ("implicit", WG_IMPLICIT);
  ("pedantic", WG_PEDANTIC); ("cgf-ext", WG_CGF_EXT); ("mem", WG_MEM); ("mem-strict", WG_MEM_STRICT)]%string.
Definition group_for_name (name : string) : Z :=
  match List.find (fun g => String.eqb name g.1) group_names with Some g => g.2 | None => WG_NONE end.

(** A level, -1 for a bad level, -2 for another option. *)
Definition format_option_level (p : string) : Z :=
  if String.eqb p "format" then 1
  else if String.eqb p "no-format" then 0
  else if starts "no-format=" p then -1
  else if negb (starts "format=" p) then -2
  else if (48 <=? byte_at p 7) && (byte_at p 7 <=? 50) && (byte_at p 8 =? 0) then byte_at p 7 - 48
  else -1.
Definition implicit_fallthrough_option_level (p : string) : Z :=
  if String.eqb p "implicit-fallthrough" then 3
  else if String.eqb p "no-implicit-fallthrough" then 0
  else if starts "no-implicit-fallthrough=" p then -1
  else if negb (starts "implicit-fallthrough=" p) then -2
  else if (48 <=? byte_at p 21) && (byte_at p 21 <=? 53) && (byte_at p 22 =? 0) then byte_at p 21 - 48
  else -1.
Definition maybe_uninitialized_option_mode (p : string) : Z :=
  if String.eqb p "maybe-uninitialized" then 0
  else if String.eqb p "no-maybe-uninitialized" then 1
  else if String.eqb p "maybe-uninitialized=strict" then 2
  else if starts "maybe-uninitialized=" p || starts "no-maybe-uninitialized=" p then -1
  else -2.
Definition bad_format_subflag_parameter (p : string) : bool :=
  match find_eq p with Some _ => starts "format-" p | None => false end.

Inductive WarnOptionDisposition :=
  | WARN_OPTION_KNOWN | WARN_OPTION_UNKNOWN_POSITIVE | WARN_OPTION_UNKNOWN_NEGATIVE | WARN_OPTION_UNKNOWN_PROMOTION
  | WARN_OPTION_BAD_FORMAT_LEVEL | WARN_OPTION_BAD_IMPLICIT_FALLTHROUGH_LEVEL | WARN_OPTION_BAD_MAYBE_UNINITIALIZED_LEVEL.

Definition is_Some_b {A} (o : option A) : bool := match o with Some _ => true | None => false end.
(** The two blocks for [error=] and [no-error=] of [warn_option_classify]. *)
Definition classify_promotion (p : string) : WarnOptionDisposition :=
  let format_level := format_option_level p in
  let fallthrough_level := implicit_fallthrough_option_level p in
  if negb (format_level =? -2) then (if 0 <=? format_level then WARN_OPTION_KNOWN else WARN_OPTION_UNKNOWN_PROMOTION)
  else if fallthrough_level =? -1 then WARN_OPTION_UNKNOWN_PROMOTION
  else if bad_format_subflag_parameter p then WARN_OPTION_UNKNOWN_PROMOTION
  else if negb (group_for_name p =? WG_NONE) || is_Some_b (warn_info_for_flag p) then WARN_OPTION_KNOWN
  else WARN_OPTION_UNKNOWN_PROMOTION.
Definition classify_name (arg p : string) : WarnOptionDisposition :=
  match normalized_name arg 128 with
  | None => WARN_OPTION_UNKNOWN_POSITIVE
  | Some (name, negative) =>
    if bad_format_subflag_parameter p then (if negative then WARN_OPTION_UNKNOWN_NEGATIVE else WARN_OPTION_UNKNOWN_POSITIVE)
    else if String.eqb name "error" || String.eqb name "fatal-errors" || String.eqb name "system-headers" then WARN_OPTION_KNOWN
    else if negb (group_for_name name =? WG_NONE) || is_Some_b (warn_info_for_flag name) then WARN_OPTION_KNOWN
    else if negative then WARN_OPTION_UNKNOWN_NEGATIVE else WARN_OPTION_UNKNOWN_POSITIVE
  end.
Definition is_driver_word (arg : string) : bool :=
  String.eqb arg "-w" || String.eqb arg "w" || String.eqb arg "-pedantic" || String.eqb arg "pedantic" ||
  String.eqb arg "-pedantic-errors" || String.eqb arg "pedantic-errors".
Definition warn_option_classify (arg : option string) : WarnOptionDisposition :=
  match arg with
  | None => WARN_OPTION_UNKNOWN_POSITIVE
  | Some arg =>
    if is_driver_word arg then WARN_OPTION_KNOWN
    else
      let p := strip_w arg in
      let format_level := format_option_level p in
      if negb (format_level =? -2) then (if 0 <=? format_level then WARN_OPTION_KNOWN else WARN_OPTION_BAD_FORMAT_LEVEL)
      else
        let fallthrough_level := implicit_fallthrough_option_level p in
        if negb (fallthrough_level =? -2) then (if 0 <=? fallthrough_level then WARN_OPTION_KNOWN else WARN_OPTION_BAD_IMPLICIT_FALLTHROUGH_LEVEL)
        else
          let maybe_mode := maybe_uninitialized_option_mode p in
          if negb (maybe_mode =? -2) then (if 0 <=? maybe_mode then WARN_OPTION_KNOWN else WARN_OPTION_BAD_MAYBE_UNINITIALIZED_LEVEL)
          else if starts "error=" p then classify_promotion (drop 6 p)
          else if starts "no-error=" p then classify_promotion (drop 9 p)
          else classify_name arg p
  end.
Definition warn_option_known (arg : option string) : bool :=
  match warn_option_classify arg with WARN_OPTION_KNOWN => true | _ => false end.
Definition warn_option_bad_value_label (d : WarnOptionDisposition) : option string :=
  match d with
  | WARN_OPTION_BAD_FORMAT_LEVEL => Some "-Wformat="%string
  | WARN_OPTION_BAD_IMPLICIT_FALLTHROUGH_LEVEL => Some "-Wimplicit-fallthrough="%string
  | WARN_OPTION_BAD_MAYBE_UNINITIALIZED_LEVEL => Some "-Wmaybe-uninitialized="%string
  | _ => None
  end.
Definition warn_pragma_option_id (option : option string) : nat :=
  match option with
  | None => WARN_NONE
  | Some option =>
    if negb (starts "-W" option) then WARN_NONE
    else
      match warn_info_for_flag (drop 2 option) with
      | None => WARN_NONE
      | Some info =>
        if negb (String.length option =? String.length (wi_flag info) + 2)%nat || negb (String.eqb (drop 2 option) (wi_flag info)) then WARN_NONE
        else wi_id info
      end
  end.

(** ** The context *)
Inductive WarnSetting := WS_UNSET | WS_OFF | WS_ON.
Definition setting_eqb (a b : WarnSetting) : bool :=
  match a, b with WS_UNSET, WS_UNSET | WS_OFF, WS_OFF | WS_ON, WS_ON => true | _, _ => false end.
Definition on_off (on : bool) : WarnSetting := if on then WS_ON else WS_OFF.
(** A class per warning; [None] is the -1 of the source. *)
Notation "'PragmaState'" := (list (option WarnPragmaClass)).
Inductive EventKind :=
  | EV_PUSH
  | EV_POP (snapshot : PragmaState)
  | EV_SET (id : nat) (classification : WarnPragmaClass).
Record WarnEvent := mkEvent { ev_seq : Z; ev_kind : EventKind }.
Record Pragmas := mkPragmas {
  pragma_state : PragmaState;
  pragma_stack : list PragmaState; stack_cap : nat;
  events : list WarnEvent; events_cap : nat;
}.
Record WarnCtx := mkCtx {
  enabled : list WarnSetting; enabled_priority : list Z;
  promoted : list WarnSetting; promoted_priority : list Z;
  group_enabled : list WarnSetting;
  pragmas : Pragmas;
  pedantic : Z;
  global_error : bool; inhibit : bool; system_headers : bool;
  implicit_fallthrough_level : Z; implicit_fallthrough_explicit : bool;
  maybe_uninitialized_strict : bool; fsafe_required : bool;
}.
Definition no_pragmas : PragmaState := replicate WARN_COUNT None.
Definition warn_ctx_new : WarnCtx :=
  mkCtx (replicate WARN_COUNT WS_UNSET) (replicate WARN_COUNT 0) (replicate WARN_COUNT WS_UNSET) (replicate WARN_COUNT 0)
    (replicate 10 WS_UNSET) (mkPragmas no_pragmas [] 0 [] 0) 0 false false false 0 false false false.

Definition enabled_at (w : WarnCtx) (i : nat) : WarnSetting := default WS_UNSET (enabled w !! i).
Definition priority_at (w : WarnCtx) (i : nat) : Z := default 0 (enabled_priority w !! i).
Definition promoted_at (w : WarnCtx) (i : nat) : WarnSetting := default WS_UNSET (promoted w !! i).
Definition promoted_priority_at (w : WarnCtx) (i : nat) : Z := default 0 (promoted_priority w !! i).

(** Assignments to the fields. *)
Definition set_enabled (i : nat) (s : WarnSetting) (prio : Z) (w : WarnCtx) : WarnCtx :=
  mkCtx (<[i := s]> (enabled w)) (<[i := prio]> (enabled_priority w)) (promoted w) (promoted_priority w) (group_enabled w) (pragmas w) (pedantic w)
    (global_error w) (inhibit w) (system_headers w) (implicit_fallthrough_level w) (implicit_fallthrough_explicit w) (maybe_uninitialized_strict w) (fsafe_required w).
Definition set_promoted (i : nat) (s : WarnSetting) (prio : Z) (w : WarnCtx) : WarnCtx :=
  mkCtx (enabled w) (enabled_priority w) (<[i := s]> (promoted w)) (<[i := prio]> (promoted_priority w)) (group_enabled w) (pragmas w) (pedantic w)
    (global_error w) (inhibit w) (system_headers w) (implicit_fallthrough_level w) (implicit_fallthrough_explicit w) (maybe_uninitialized_strict w) (fsafe_required w).
Definition set_group (g : nat) (s : WarnSetting) (w : WarnCtx) : WarnCtx :=
  mkCtx (enabled w) (enabled_priority w) (promoted w) (promoted_priority w) (<[g := s]> (group_enabled w)) (pragmas w) (pedantic w)
    (global_error w) (inhibit w) (system_headers w) (implicit_fallthrough_level w) (implicit_fallthrough_explicit w) (maybe_uninitialized_strict w) (fsafe_required w).
Definition set_pragmas (p : Pragmas) (w : WarnCtx) : WarnCtx :=
  mkCtx (enabled w) (enabled_priority w) (promoted w) (promoted_priority w) (group_enabled w) p (pedantic w)
    (global_error w) (inhibit w) (system_headers w) (implicit_fallthrough_level w) (implicit_fallthrough_explicit w) (maybe_uninitialized_strict w) (fsafe_required w).
Definition set_pedantic (v : Z) (w : WarnCtx) : WarnCtx :=
  mkCtx (enabled w) (enabled_priority w) (promoted w) (promoted_priority w) (group_enabled w) (pragmas w) v
    (global_error w) (inhibit w) (system_headers w) (implicit_fallthrough_level w) (implicit_fallthrough_explicit w) (maybe_uninitialized_strict w) (fsafe_required w).
Definition set_global_error (v : bool) (w : WarnCtx) : WarnCtx :=
  mkCtx (enabled w) (enabled_priority w) (promoted w) (promoted_priority w) (group_enabled w) (pragmas w) (pedantic w)
    v (inhibit w) (system_headers w) (implicit_fallthrough_level w) (implicit_fallthrough_explicit w) (maybe_uninitialized_strict w) (fsafe_required w).
Definition set_inhibit (w : WarnCtx) : WarnCtx :=
  mkCtx (enabled w) (enabled_priority w) (promoted w) (promoted_priority w) (group_enabled w) (pragmas w) (pedantic w)
    (global_error w) true (system_headers w) (implicit_fallthrough_level w) (implicit_fallthrough_explicit w) (maybe_uninitialized_strict w) (fsafe_required w).
Definition set_system_headers (v : bool) (w : WarnCtx) : WarnCtx :=
  mkCtx (enabled w) (enabled_priority w) (promoted w) (promoted_priority w) (group_enabled w) (pragmas w) (pedantic w)
    (global_error w) (inhibit w) v (implicit_fallthrough_level w) (implicit_fallthrough_explicit w) (maybe_uninitialized_strict w) (fsafe_required w).
Definition set_fallthrough (level : Z) (explicit : bool) (w : WarnCtx) : WarnCtx :=
  mkCtx (enabled w) (enabled_priority w) (promoted w) (promoted_priority w) (group_enabled w) (pragmas w) (pedantic w)
    (global_error w) (inhibit w) (system_headers w) level explicit (maybe_uninitialized_strict w) (fsafe_required w).
Definition set_maybe_strict (v : bool) (w : WarnCtx) : WarnCtx :=
  mkCtx (enabled w) (enabled_priority w) (promoted w) (promoted_priority w) (group_enabled w) (pragmas w) (pedantic w)
    (global_error w) (inhibit w) (system_headers w) (implicit_fallthrough_level w) (implicit_fallthrough_explicit w) v (fsafe_required w).
Definition set_fsafe_required (w : WarnCtx) : WarnCtx :=
  mkCtx (enabled w) (enabled_priority w) (promoted w) (promoted_priority w) (group_enabled w) (pragmas w) (pedantic w)
    (global_error w) (inhibit w) (system_headers w) (implicit_fallthrough_level w) (implicit_fallthrough_explicit w) (maybe_uninitialized_strict w) true.

(** ** Options *)
(** The search for the bit; no group is beyond bit 9. *)
Fixpoint group_index_from (fuel i : nat) (group : Z) : nat :=
  match fuel with
  | O => i
  | S fuel => if Z.shiftl 1 (Z.of_nat i) =? group then i else group_index_from fuel (S i) group
  end.
Definition group_index (group : Z) : nat := group_index_from 32 0 group.
Definition group_at (w : WarnCtx) (group : Z) : WarnSetting := default WS_UNSET (group_enabled w !! group_index group).

Definition group_priority (group : Z) : Z := if (group =? WG_ALL) || (group =? WG_EXTRA) then 1 else 2.
Definition apply_group_item (group : Z) (on : bool) (i : nat) (w : WarnCtx) : WarnCtx :=
  let groups := wi_groups (info_at i) in
  if negb (is_group groups group) then w
  else
    let item_priority := if (group =? WG_FORMAT) && (i =? WARN_NONNULL)%nat then 1 else group_priority group in
    if in_extra_unused groups then w
    else if priority_at w i <=? item_priority then set_enabled i (on_off on) item_priority w
    else w.
Definition apply_group (group : Z) (on : bool) (w : WarnCtx) : WarnCtx :=
  let w := set_group (group_index group) (on_off on) w in
  let w := if (group =? WG_EXTRA) && negb (implicit_fallthrough_explicit w) then set_fallthrough (if on then 3 else 0) false w else w in
  for_up (WARN_COUNT - 1) 1 (apply_group_item group on) w.
Definition apply_format_level (level : Z) (w : WarnCtx) : WarnCtx :=
  apply_group WG_FORMAT2 (level =? 2) (apply_group WG_FORMAT (negb (level =? 0)) w).
Definition apply_promotion_item (group : Z) (demote : bool) (i : nat) (w : WarnCtx) : WarnCtx :=
  if is_group (wi_groups (info_at i)) group && (promoted_priority_at w i <=? group_priority group)
  then set_promoted i (if demote then WS_OFF else WS_ON) (group_priority group) w else w.
Definition apply_promotion_group (group : Z) (demote : bool) (w : WarnCtx) : WarnCtx :=
  for_up (WARN_COUNT - 1) 1 (apply_promotion_item group demote) w.

(** The flag of a call that fails leaves the context as it is. *)
Definition parse_named_error (w : WarnCtx) (p : string) (demote : bool) : WarnCtx * bool :=
  let info := warn_info_for_flag p in
  let fallthrough_level := implicit_fallthrough_option_level p in
  match normalized_name p 128 with
  | None => (w, false)
  | Some (name, _) =>
    let group := group_for_name name in
    if negb (group =? WG_NONE) then
      let w := apply_promotion_group group demote w in
      (if negb demote then apply_group group true w else w, true)
    else
      match info with
      | None => (w, false)
      | Some info =>
        let id := wi_id info in
        if (id =? WARN_IMPLICIT_FALLTHROUGH)%nat && (fallthrough_level <? 0) then (w, false)
        else
          let w := set_promoted id (if demote then WS_OFF else WS_ON) 3 w in
          if negb demote then
            let w := set_enabled id WS_ON 3 w in
            if (id =? WARN_IMPLICIT_FALLTHROUGH)%nat then
              let w := set_fallthrough fallthrough_level true w in
              (if fallthrough_level =? 0 then set_enabled id WS_OFF 3 w else w, true)
            else (w, true)
          else (w, true)
      end
  end.
(** [-Werror=] and [-Wno-error=]. *)
Definition flag_error (w : WarnCtx) (p : string) : WarnCtx * bool :=
  let level := format_option_level p in
  if negb (level =? -2) then
    if level <? 0 then (w, false)
    else
      let w := apply_format_level level w in
      let w := if 0 <? level then apply_promotion_group WG_FORMAT false w else w in
      (if level =? 2 then apply_promotion_group WG_FORMAT2 false w else w, true)
  else if bad_format_subflag_parameter p then (w, false)
  else parse_named_error w p false.
Definition flag_no_error (w : WarnCtx) (p : string) : WarnCtx * bool :=
  let level := format_option_level p in
  if negb (level =? -2) then
    if level <? 0 then (w, false) else (set_promoted WARN_FORMAT WS_OFF 3 w, true)
  else if bad_format_subflag_parameter p then (w, false)
  else parse_named_error w p true.
(** A group or a warning by its name. *)
Definition flag_name (w : WarnCtx) (p : string) : WarnCtx * bool :=
  match normalized_name p 128 with
  | None => (w, false)
  | Some (name, negative) =>
    if bad_format_subflag_parameter p then (w, false)
    else if String.eqb name "system-headers" then (set_system_headers (negb negative) w, true)
    else
      let group := group_for_name name in
      if negb (group =? WG_NONE) then
        let w := apply_group group (negb negative) w in
        (if group =? WG_PEDANTIC then set_pedantic (if negative then 0 else 1) w else w, true)
      else
        match warn_info_for_flag name with
        | None => (w, false)
        | Some info => (set_enabled (wi_id info) (on_off (negb negative)) 3 w, true)
        end
  end.
Definition WARN_FSAFE_REQUIRED_OPTION : string := String (ascii_of_nat 1) "fsafe-required".
Definition warn_flag (w : WarnCtx) (arg : string) : WarnCtx * bool :=
  if String.eqb arg WARN_FSAFE_REQUIRED_OPTION then (set_fsafe_required w, true)
  else if String.eqb arg "-w" || String.eqb arg "w" then (set_inhibit w, true)
  else if String.eqb arg "-pedantic" || String.eqb arg "pedantic" then (set_pedantic 1 w, true)
  else if String.eqb arg "-pedantic-errors" || String.eqb arg "pedantic-errors" then (set_pedantic 2 w, true)
  else
    let p := strip_w arg in
    let format_level := format_option_level p in
    if format_level =? -1 then (w, false)
    else if 0 <=? format_level then (apply_format_level format_level w, true)
    else
    let fallthrough_level := implicit_fallthrough_option_level p in
    if fallthrough_level =? -1 then (w, false)
    else if 0 <=? fallthrough_level then
      (set_enabled WARN_IMPLICIT_FALLTHROUGH (if fallthrough_level =? 0 then WS_OFF else WS_ON) 3 (set_fallthrough fallthrough_level true w), true)
    else
    let maybe_mode := maybe_uninitialized_option_mode p in
    if maybe_mode =? -1 then (w, false)
    else if 0 <=? maybe_mode then
      (set_maybe_strict (maybe_mode =? 2) (set_enabled WARN_MAYBE_UNINITIALIZED (if maybe_mode =? 1 then WS_OFF else WS_ON) 3 w), true)
    else if String.eqb p "error" then (set_global_error true w, true)
    else if String.eqb p "no-error" then (set_global_error false w, true)
    else if String.eqb p "fatal-errors" || String.eqb p "no-fatal-errors" then (w, true)
    else if starts "error=" p then flag_error w (drop 6 p)
    else if starts "no-error=" p then flag_no_error w (drop 9 p)
    else flag_name w p.
(** [driver_warn_ctx]: the options of a command line. *)
Definition driver_warn_ctx (no_warnings : bool) (opts : list string) : WarnCtx :=
  let w := if no_warnings then (warn_flag warn_ctx_new "-w").1 else warn_ctx_new in
  foldl (fun w o => (warn_flag w o).1) w opts.

(** ** The class of an occurrence *)
Definition fsafe_required_warning (id : nat) : bool :=
  match warn_info_for_id id with
  | None => false
  | Some info => is_group (wi_groups info) WG_MEM || (id =? WARN_UNINITIALIZED)%nat || (id =? WARN_NULL_DEREFERENCE)%nat
  end.
Definition default_enabled (info : WarnInfo) : bool := match wi_default info with WD_ON => true | _ => false end.
Definition is_pedwarn (info : WarnInfo) : bool := match wi_level info with WL_PEDWARN => true | WL_WARN => false end.
(** Whether both [-Wextra] and [-Wunused], or [-Wall] for it, are on. *)
Definition extra_unused_on (w : WarnCtx) : bool :=
  let unused := group_at w WG_UNUSED in
  let unused := if setting_eqb unused WS_UNSET then group_at w WG_ALL else unused in
  setting_eqb (group_at w WG_EXTRA) WS_ON && setting_eqb unused WS_ON.
(** [None]: suppressed. *)
Definition base_class (w : WarnCtx) (id : nat) (emission_pedwarn : bool) : option DiagLevel :=
  match warn_info_for_id id with
  | None => None
  | Some info =>
    let pedwarn := emission_pedwarn || is_pedwarn info in
    let on :=
      if in_extra_unused (wi_groups info) && (priority_at w id <? 3) then extra_unused_on w
      else if setting_eqb (enabled_at w id) WS_UNSET then default_enabled info
      else setting_eqb (enabled_at w id) WS_ON in
    let on := if pedwarn && setting_eqb (enabled_at w id) WS_UNSET && negb (pedantic w =? 0) then true else on in
    if negb on then None
    else if pedwarn && (pedantic w =? 2) then Some DIAG_ERROR
    else
      match promoted_at w id with
      | WS_ON => Some DIAG_ERROR
      | WS_OFF => Some DIAG_WARNING
      | WS_UNSET => Some (if global_error w then DIAG_ERROR else DIAG_WARNING)
      end
  end.
(** The binary search for the first event after [seq]. *)
Fixpoint event_limit_loop (evs : list WarnEvent) (seq : Z) (fuel lo hi : nat) : option nat :=
  if (lo <? hi)%nat then
    match fuel with
    | O => None
    | S fuel =>
      let mid := (lo + (hi - lo) / 2)%nat in
      ev ← evs !! mid;
      if ev_seq ev <=? seq then event_limit_loop evs seq fuel (mid + 1) hi else event_limit_loop evs seq fuel lo mid
    end
  else Some lo.
Definition event_limit (w : WarnCtx) (seq : Z) : option nat :=
  let evs := events (pragmas w) in event_limit_loop evs seq (length evs) 0 (length evs).
Definition replay_event (ev : WarnEvent) (state : PragmaState) : PragmaState :=
  match ev_kind ev with
  | EV_SET id c => <[id := Some c]> state
  | EV_POP snapshot => snapshot
  | EV_PUSH => state
  end.
Definition pragma_class_at (w : WarnCtx) (id : nat) (seq : Z) : option (option WarnPragmaClass) :=
  limit ← event_limit w seq;
  foldl (fun st ev => replay_event ev st) no_pragmas (take limit (events (pragmas w))) !! id.
Definition effective_class (w : WarnCtx) (id : nat) (seq : Z) (emission_pedwarn : bool) : option (option DiagLevel) :=
  pragma_class ← pragma_class_at w id seq;
  Some (
    if fsafe_required w && fsafe_required_warning id then Some DIAG_ERROR
    else
      match pragma_class with
      | Some WARN_PRAGMA_IGNORED => None
      | Some WARN_PRAGMA_WARNING => Some DIAG_WARNING
      | Some WARN_PRAGMA_ERROR => Some DIAG_ERROR
      | None => base_class w id emission_pedwarn
      end).

(** The parts of a [Span] the policy reads. *)
Record Span := mkSpan { sp_seq : Z; sp_origin : Z }.
Definition SPAN_ORIGIN_SYSTEM_SPELLING : Z := 1.
Definition SPAN_ORIGIN_SYSTEM_MACRO : Z := 2.
Definition SPAN_ORIGIN_ANY_MACRO : Z := 4.
Definition WARN_EMIT_NONE : Z := 0.
Definition WARN_SUPPRESS_IN_MACRO : Z := 1.
Definition has_bits (x bits : Z) : bool := negb (Z.land x bits =? 0).
Definition suppressed_by_origin (w : WarnCtx) (sp : Span) (emit_flags : Z) : bool :=
  if negb (system_headers w) && has_bits (sp_origin sp) (Z.lor SPAN_ORIGIN_SYSTEM_SPELLING SPAN_ORIGIN_SYSTEM_MACRO) then true
  else has_bits emit_flags WARN_SUPPRESS_IN_MACRO && has_bits (sp_origin sp) SPAN_ORIGIN_ANY_MACRO.

Definition warn_id_valid (id : nat) : bool := negb ((id <=? WARN_NONE)%nat || (WARN_COUNT <=? id)%nat).
(** The first argument may be [NULL]. *)
Definition warn_enabled (w : option WarnCtx) (id : nat) (sp : Span) : option bool :=
  match w with
  | None => Some false
  | Some w =>
    if negb (warn_id_valid id) then Some false
    else
      cls ← effective_class w id (sp_seq sp) false;
      Some (if negb (is_Some_b cls) || inhibit w then false else negb (suppressed_by_origin w sp WARN_EMIT_NONE))
  end.
(** [emit_warning_v]: the level the diagnostic is emitted at, if it is. *)
Definition emit_warning (w : option WarnCtx) (id : nat) (sp : Span) (emit_flags : Z) (emission_pedwarn : bool) : option (option DiagLevel) :=
  match w with
  | None => Some None
  | Some w =>
    if negb (warn_id_valid id) then Some None
    else
      cls ← effective_class w id (sp_seq sp) emission_pedwarn;
      Some (if negb (is_Some_b cls) || inhibit w || suppressed_by_origin w sp emit_flags then None else cls)
  end.
Definition warn_at (w : option WarnCtx) (id : nat) (sp : Span) := emit_warning w id sp WARN_EMIT_NONE false.
Definition warn_pedwarn_at (w : option WarnCtx) (id : nat) (sp : Span) := emit_warning w id sp WARN_EMIT_NONE true.
Definition warn_at_ex (w : option WarnCtx) (id : nat) (sp : Span) (emit_flags : Z) := emit_warning w id sp emit_flags false.

Definition warn_explicitly_enabled (w : option WarnCtx) (id : nat) (sp : Span) : option bool :=
  match w with
  | None => Some false
  | Some w =>
    if negb (warn_id_valid id) || inhibit w || suppressed_by_origin w sp WARN_EMIT_NONE then Some false
    else if fsafe_required w && fsafe_required_warning id then Some true
    else
      pragma_class ← pragma_class_at w id (sp_seq sp);
      match pragma_class with
      | Some WARN_PRAGMA_IGNORED => Some false
      | Some _ => Some true
      | None =>
        info ← warn_info_for_id id;
        let on :=
          if in_extra_unused (wi_groups info) && (priority_at w id <? 3) then extra_unused_on w
          else setting_eqb (enabled_at w id) WS_ON in
        Some (if is_pedwarn info && setting_eqb (enabled_at w id) WS_UNSET && negb (pedantic w =? 0) then true else on)
      end
  end.
Definition warn_implicit_fallthrough_level (w : option WarnCtx) : Z := match w with Some w => implicit_fallthrough_level w | None => 0 end.
Definition warn_maybe_uninitialized_strict (w : option WarnCtx) : bool := match w with Some w => maybe_uninitialized_strict w | None => false end.

(** ** Whether an analysis can emit anything *)
Definition among (id : nat) (ids : list nat) : bool := existsb (Nat.eqb id) ids.
Definition flow_warnings : list nat :=
  [WARN_UNINITIALIZED; WARN_MAYBE_UNINITIALIZED; WARN_INIT_SELF; WARN_RETURN_TYPE; WARN_UNREACHABLE_CODE; WARN_INFINITE_RECURSION; WARN_SWITCH_UNREACHABLE].
Definition is_flow_warning (id : nat) : bool := among id flow_warnings.
Definition memsafe_warnings : list nat :=
  [WARN_MEM_ANNOTATION_MISMATCH; WARN_MEM_DOUBLE_FREE; WARN_MEM_FREE_NONHEAP; WARN_MEM_LEAK; WARN_MEM_NULL_CHECK; WARN_MEM_OUT_OF_BOUNDS;
   WARN_MEM_REALLOC_ZERO; WARN_MEM_SIZEOF_MISMATCH; WARN_MEM_SUGGEST_ANNOTATIONS; WARN_MEM_UNBOUNDED_COPY; WARN_MEM_UNINIT_READ;
   WARN_MEM_USE_AFTER_FREE; WARN_MEM_USE_AFTER_FREE_UNKNOWN; WARN_NULL_DEREFERENCE].
Definition is_memsafe_warning (id : nat) : bool := among id memsafe_warnings.
Definition autofix_warnings : list nat := [WARN_MEM_NULL_CHECK; WARN_MEM_SIZEOF_MISMATCH; WARN_MEM_UNBOUNDED_COPY].
Definition is_memsafe_autofix_warning (id : nat) : bool := among id autofix_warnings.
Definition no_span : Span := mkSpan 0 0.
Fixpoint any_enabled (w : WarnCtx) (ids : list nat) : option bool :=
  match ids with
  | [] => Some false
  | id :: ids => on ← warn_enabled (Some w) id no_span; if (on : bool) then Some true else any_enabled w ids
  end.
(** A pragma that sets one of the warnings to more than ignored. *)
Definition event_enables (is_one : nat -> bool) (ev : WarnEvent) : bool :=
  match ev_kind ev with
  | EV_SET id WARN_PRAGMA_IGNORED => false
  | EV_SET id _ => is_one id
  | _ => false
  end.
Definition analysis_needed (w : option WarnCtx) (ids : list nat) (is_one : nat -> bool) : option bool :=
  match w with
  | None => Some false
  | Some w =>
    if inhibit w then Some false
    else on ← any_enabled w ids; Some (if (on : bool) then true else existsb (event_enables is_one) (events (pragmas w)))
  end.
Definition warn_flow_needed (w : option WarnCtx) : option bool := analysis_needed w flow_warnings is_flow_warning.
Definition warn_memsafe_needed (w : option WarnCtx) : option bool := analysis_needed w memsafe_warnings is_memsafe_warning.
Definition warn_memsafe_autofix_needed (w : option WarnCtx) : option bool := analysis_needed w autofix_warnings is_memsafe_autofix_warning.

Definition warn_mem_strict_enabled (w : option WarnCtx) : option bool :=
  match w with
  | None => Some false
  | Some w => any_enabled w [WARN_MEM_NULL_CHECK; WARN_MEM_SIZEOF_MISMATCH; WARN_MEM_UNBOUNDED_COPY; WARN_MEM_USE_AFTER_FREE_UNKNOWN]
  end.

(** ** Pragmas *)
(** The capacity of an array that must hold one more element. *)
Definition grown (cap len first : nat) : nat := if (len =? cap)%nat then match cap with O => first | _ => (cap * 2)%nat end else cap.
Definition append_event (p : Pragmas) (ev : WarnEvent) : option Pragmas :=
  let evs := events p in
  if negb (length evs =? 0)%nat && (ev_seq ev <? default 0 (ev_seq <$> evs !! (length evs - 1)%nat)) then None
  else
    let cap := grown (events_cap p) (length evs) 16 in
    if (cap <=? length evs)%nat then None
    else Some (mkPragmas (pragma_state p) (pragma_stack p) (stack_cap p) (evs ++ [ev]) cap).
Definition warn_pragma_push (p : Pragmas) (seq : Z) : option Pragmas :=
  let len := length (pragma_stack p) in
  let cap := grown (stack_cap p) len 8 in
  if (cap <=? len)%nat then None
  else append_event (mkPragmas (pragma_state p) (pragma_stack p ++ [pragma_state p]) cap (events p) (events_cap p)) (mkEvent seq EV_PUSH).
(** [true] when there was something to pop. *)
Definition warn_pragma_pop (p : Pragmas) (seq : Z) : option (Pragmas * bool) :=
  let len := length (pragma_stack p) in
  if (len =? 0)%nat then
    p ← append_event (mkPragmas no_pragmas (pragma_stack p) (stack_cap p) (events p) (events_cap p)) (mkEvent seq (EV_POP no_pragmas));
    Some (p, false)
  else
    state ← pragma_stack p !! (len - 1)%nat;
    p ← append_event (mkPragmas state (take (len - 1) (pragma_stack p)) (stack_cap p) (events p) (events_cap p)) (mkEvent seq (EV_POP state));
    Some (p, true).
Definition warn_pragma_set (p : Pragmas) (seq : Z) (id : nat) (classification : WarnPragmaClass) : option Pragmas :=
  if negb (warn_id_valid id) then Some p
  else append_event (mkPragmas (<[id := Some classification]> (pragma_state p)) (pragma_stack p) (stack_cap p) (events p) (events_cap p))
    (mkEvent seq (EV_SET id classification)).
Definition warn_pragma_set_flag (p : Pragmas) (seq : Z) (flag : string) (classification : WarnPragmaClass) : option (Pragmas * bool) :=
  match warn_info_for_flag flag with
  | None => Some (p, false)
  | Some info => p ← warn_pragma_set p seq (wi_id info) classification; Some (p, true)
  end.
