(* ===== verification/WarnFacts.v ===== *)
(** The registry is searched correctly, and every option addresses the warnings
    it names: the state of a warning is that of the last of its strongest
    requests; so the strongest request of a command line wins, and among equals
    the last. *)
From Stdlib Require Import Ascii String Sorted.
From S2P Require Import Prelude.
From S2P Require Import Warn.
#[local] Open Scope Z_scope.

(** ** The registry *)
Definition ids : list nat := seq 1 (WARN_COUNT - 1).
Lemma valid_ids id : warn_id_valid id = true <-> id ∈ ids.
Proof. unfold warn_id_valid, ids, WARN_NONE, WARN_COUNT. rewrite elem_of_seq, negb_true_iff, orb_false_iff, !Nat.leb_gt. lia. Qed.
(** A decidable fact on every row. *)
Lemma all_ids (P : nat -> bool) : forallb P ids = true -> forall id, warn_id_valid id = true -> P id = true.
Proof. intros H id V%valid_ids%list_elem_of_In. by apply (proj1 (forallb_forall _ _) H). Qed.

Definition row_ok (i : nat) : bool :=
  (wi_id (info_at i) =? i)%nat && match bsearch WARN_COUNT (wi_flag (info_at i)) 0 (WARN_COUNT - 1) with Some it => (wi_id it =? i)%nat | None => false end.
Lemma rows_ok : forallb row_ok ids = true.
Proof. vm_compute. reflexivity. Qed.
Lemma row_id id : warn_id_valid id = true -> wi_id (info_at id) = id.
Proof. intros V. pose proof (all_ids _ rows_ok id V) as R. unfold row_ok in R. apply andb_true_iff in R as [R _]. by apply Nat.eqb_eq. Qed.
Lemma bsearch_sound fuel key lo hi it : (hi <= WARN_COUNT - 1)%nat -> bsearch fuel key lo hi = Some it ->
  wi_flag it = key /\ exists id, warn_id_valid id = true /\ it = info_at id.
Proof.
  revert lo hi. induction fuel as [|fuel IH]; intros lo hi L; [done|]. cbn [bsearch]. destruct (Nat.leb_spec hi lo); [done|].
  assert (M : ((lo + hi) / 2 < hi)%nat) by (apply Nat.Div0.div_lt_upper_bound; lia).
  destruct (String.compare _ _) eqn:C; [| |by apply IH].
  - intros [= <-]. split; [symmetry; by apply String.compare_eq_iff|]. exists (S ((lo + hi) / 2)). split; [|done]. apply valid_ids. unfold ids. apply elem_of_seq. lia.
  - apply IH. lia.
Qed.
Lemma bsearch_row id : warn_id_valid id = true -> bsearch WARN_COUNT (wi_flag (info_at id)) 0 (WARN_COUNT - 1) = Some (info_at id).
Proof.
  intros V. pose proof (all_ids _ rows_ok id V) as R. unfold row_ok in R. apply andb_true_iff in R as [_ R].
  destruct (bsearch _ _ _ _) as [it|] eqn:B; [|done]. apply Nat.eqb_eq in R. apply bsearch_sound in B as (_ & id' & V' & ->); [|done].
  rewrite row_id in R by done. by subst.
Qed.
(** The rows have different flags. *)
Lemma flag_inj id id' : warn_id_valid id = true -> warn_id_valid id' = true -> wi_flag (info_at id) = wi_flag (info_at id') -> id = id'.
Proof.
  intros V V' E. pose proof (bsearch_row id V) as B. rewrite E, (bsearch_row id' V') in B. injection B as B.
  by rewrite <- (row_id id V), <- (row_id id' V'), B.
Qed.
(** A name is found if and only if it is the flag of a row. *)
Lemma info_for_flag p name neg : normalized_name p 128 = Some (name, neg) ->
  (exists id, warn_id_valid id = true /\ wi_flag (info_at id) = name /\ warn_info_for_flag p = Some (info_at id)) \/
  ((forall id, warn_id_valid id = true -> wi_flag (info_at id) <> name) /\ warn_info_for_flag p = None).
Proof.
  intros N. unfold warn_info_for_flag. rewrite N. cbn [mbind option_bind]. destruct (bsearch WARN_COUNT name 0 (WARN_COUNT - 1)) as [it|] eqn:B.
  - left. apply bsearch_sound in B as (E & id & V & ->); [|done]. by exists id.
  - right. split; [|done]. intros id V E. by rewrite <- E, bsearch_row in B.
Qed.

(** ** Requests *)
(** What an option asks of a warning: a priority, and on or off. *)
Definition Ask := (Z * bool)%type.
Definition group_ask (group : Z) (on : bool) (id : nat) : list Ask :=
  let groups := wi_groups (info_at id) in
  if negb (is_group groups group) || in_extra_unused groups then []
  else [(if (group =? WG_FORMAT) && (id =? WARN_NONNULL)%nat then 1 else group_priority group, on)].
Definition format_ask (level : Z) (id : nat) : list Ask :=
  group_ask WG_FORMAT (negb (level =? 0)) id ++ group_ask WG_FORMAT2 (level =? 2) id.
Definition exact_ask (id' : nat) (on : bool) (id : nat) : list Ask := if (id =? id')%nat then [(3, on)] else [].
(** A name: of a group, or of one warning. *)
Definition name_ask (name row : string) (on : bool) (id : nat) : list Ask :=
  if negb (group_for_name name =? WG_NONE) then group_ask (group_for_name name) on id
  else if String.eqb (wi_flag (info_at id)) row then [(3, on)] else [].
(** A second [no-] is read over: [-Wno-no-x] is [-Wno-x]. *)
Definition row_name (name : string) : string := match normalized_name name 128 with Some (row, _) => row | None => EmptyString end.
Definition error_ask (q : string) (id : nat) : list Ask :=
  let level := format_option_level q in
  if 0 <=? level then format_ask level id
  else if (level =? -1) || bad_format_subflag_parameter q then []
  else
    match normalized_name q 128 with
    | None => []
    | Some (name, _) =>
      if String.eqb name "implicit-fallthrough" then
        let level := implicit_fallthrough_option_level q in
        if level <? 0 then [] else exact_ask WARN_IMPLICIT_FALLTHROUGH (negb (level =? 0)) id
      else name_ask name name true id
    end.
Definition asks (id : nat) (arg : string) : list Ask :=
  if String.eqb arg WARN_FSAFE_REQUIRED_OPTION || is_driver_word arg then []
  else
    let p := strip_w arg in
    if negb (format_option_level p =? -2) then (if 0 <=? format_option_level p then format_ask (format_option_level p) id else [])
    else if negb (implicit_fallthrough_option_level p =? -2) then
      let level := implicit_fallthrough_option_level p in
      if 0 <=? level then exact_ask WARN_IMPLICIT_FALLTHROUGH (negb (level =? 0)) id else []
    else if negb (maybe_uninitialized_option_mode p =? -2) then
      let mode := maybe_uninitialized_option_mode p in
      if 0 <=? mode then exact_ask WARN_MAYBE_UNINITIALIZED (negb (mode =? 1)) id else []
    else if String.eqb p "error" || String.eqb p "no-error" || String.eqb p "fatal-errors" || String.eqb p "no-fatal-errors" then []
    else if starts "error=" p then error_ask (drop 6 p) id
    else if starts "no-error=" p then []
    else
      match normalized_name p 128 with
      | None => []
      | Some (name, negative) =>
        if bad_format_subflag_parameter p || String.eqb name "system-headers" then [] else name_ask name (row_name name) (negb negative) id
      end.
(** One request against the present state. *)
Definition settle (st : WarnSetting * Z) (a : Ask) : WarnSetting * Z := if st.2 <=? a.1 then (on_off a.2, a.1) else st.
Definition state_at (w : WarnCtx) (id : nat) : WarnSetting * Z := (enabled_at w id, priority_at w id).

(** The arrays keep their sizes, and no priority exceeds that of an exact option. *)
Record sized (w : WarnCtx) : Prop := {
  sz_enabled : length (enabled w) = WARN_COUNT;
  sz_priority : length (enabled_priority w) = WARN_COUNT;
  sz_most id : priority_at w id <= 3;
}.
Lemma sized_new : sized warn_ctx_new.
Proof.
  split; [done|done|]. intros id. unfold priority_at, warn_ctx_new. cbn [enabled_priority].
  destruct (replicate WARN_COUNT 0 !! id) as [x|] eqn:E; cbn; [apply lookup_replicate in E as [-> _]|]; lia.
Qed.
Lemma set_enabled_spec w id on k : sized w -> warn_id_valid id = true -> k <= 3 ->
  sized (set_enabled id (on_off on) k w) /\
  forall id', state_at (set_enabled id (on_off on) k w) id' = if (id' =? id)%nat then (on_off on, k) else state_at w id'.
Proof.
  intros [L1 L2 M] V K. assert (L : (id < WARN_COUNT)%nat) by (apply valid_ids, elem_of_seq in V; unfold WARN_COUNT in *; lia).
  assert (G : forall id', state_at (set_enabled id (on_off on) k w) id' = if (id' =? id)%nat then (on_off on, k) else state_at w id').
  { intros id'. unfold state_at, enabled_at, priority_at. cbn [set_enabled enabled enabled_priority].
    destruct (Nat.eqb_spec id' id) as [->|N]; [rewrite !list_lookup_insert_eq by lia; done|by rewrite !list_lookup_insert_ne by done]. }
  split; [|done]. split; [cbn [set_enabled enabled]; by rewrite length_insert|cbn [set_enabled enabled_priority]; by rewrite length_insert|].
  intros id'. specialize (G id'). apply (f_equal snd) in G. cbn [state_at snd] in G. rewrite G. destruct (id' =? id)%nat; [done|apply M].
Qed.

(** Steps that leave the settings of the warnings alone. *)
Definition keeps (f : WarnCtx -> WarnCtx) : Prop := forall w, enabled (f w) = enabled w /\ enabled_priority (f w) = enabled_priority w.
Lemma keeps_state f w id : keeps f -> state_at (f w) id = state_at w id.
Proof. intros K. destruct (K w) as [E P]. unfold state_at, enabled_at, priority_at. by rewrite E, P. Qed.
Lemma keeps_sized f w : keeps f -> sized w -> sized (f w).
Proof. intros K [L1 L2 M]. destruct (K w) as [E P]. split; [by rewrite E|by rewrite P|]. intros id. unfold priority_at. rewrite P. apply M. Qed.

(** A step that settles its requests. *)
Definition realizes (f : WarnCtx -> WarnCtx) (ask : nat -> list Ask) : Prop := forall w, sized w ->
  sized (f w) /\ forall id, warn_id_valid id = true -> state_at (f w) id = foldl settle (state_at w id) (ask id).
Lemma realizes_keeps f : keeps f -> realizes f (fun _ => []).
Proof. intros K w S. split; [by apply keeps_sized|]. intros id _. by apply keeps_state. Qed.
Lemma realizes_seq f g a b : realizes f a -> realizes g b -> realizes (fun w => g (f w)) (fun id => a id ++ b id).
Proof.
  intros F G w S. destruct (F w S) as [S1 E1]. destruct (G (f w) S1) as [S2 E2]. split; [done|]. intros id V. by rewrite E2, E1, foldl_app.
Qed.
Lemma realizes_after f g a : realizes f a -> keeps g -> realizes (fun w => g (f w)) a.
Proof. intros F G w S. destruct (F w S) as [S1 E1]. split; [by apply keeps_sized|]. intros id V. by rewrite keeps_state, E1. Qed.
Lemma realizes_before f g a : keeps f -> realizes g a -> realizes (fun w => g (f w)) a.
Proof. intros F G w S. destruct (G (f w) (keeps_sized _ w F S)) as [S1 E1]. split; [done|]. intros id V. by rewrite E1, keeps_state. Qed.
Lemma realizes_ext f g a b : (forall w, f w = g w) ->
  (forall id st, warn_id_valid id = true -> foldl settle st (a id) = foldl settle st (b id)) -> realizes f a -> realizes g b.
Proof. intros Ef Ea F w S. rewrite <- Ef. destruct (F w S) as [S1 E1]. split; [done|]. intros id V. by rewrite E1, Ea. Qed.
(** The last of two requests of one strength wins. *)
Lemma settle_twice st k a b : settle (settle st (k, a)) (k, b) = settle st (k, b).
Proof.
  unfold settle. cbn [fst snd]. destruct (Z.leb_spec st.2 k) as [L|L]; cbn [snd]; [by rewrite Z.leb_refl|]. by rewrite (proj2 (Z.leb_gt _ _)).
Qed.
Lemma realizes_exact id on : warn_id_valid id = true -> realizes (set_enabled id (on_off on) 3) (exact_ask id on).
Proof.
  intros V w S. destruct (set_enabled_spec w id on 3 S V) as [S1 E1]; [lia|]. split; [done|]. intros id' _. rewrite E1. unfold exact_ask.
  destruct (id' =? id)%nat; [|done]. cbn [foldl]. unfold settle. cbn [state_at fst snd]. by rewrite (proj2 (Z.leb_le _ _)) by apply S.
Qed.

Lemma group_priority_most group : group_priority group <= 3.
Proof. unfold group_priority. by destruct (_ || _). Qed.
Lemma apply_group_item_spec group on i w : sized w -> warn_id_valid i = true -> sized (apply_group_item group on i w) /\
  forall id, state_at (apply_group_item group on i w) id = if (id =? i)%nat then foldl settle (state_at w i) (group_ask group on i) else state_at w id.
Proof.
  intros S V. unfold apply_group_item, group_ask. cbv zeta. set (prio := if _ && _ then _ else _).
  assert (K : prio <= 3) by (unfold prio; destruct (_ && _); [lia|apply group_priority_most]).
  assert (Id : forall f : nat -> WarnSetting * Z, forall id, f id = if (id =? i)%nat then f i else f id).
  { intros f id. by destruct (Nat.eqb_spec id i) as [->|]. }
  destruct (is_group _ _); cbn [negb orb foldl]; [|split; [done|apply Id]].
  destruct (in_extra_unused _); cbn [foldl]; [split; [done|apply Id]|]. unfold settle at 1. cbn [state_at fst snd].
  destruct (Z.leb_spec (priority_at w i) prio) as [P|P]; [|split; [done|apply Id]].
  destruct (set_enabled_spec w i on prio S V K) as [S1 E1]. split; [done|]. intros id. by rewrite E1.
Qed.
Lemma group_loop group on : realizes (for_up (WARN_COUNT - 1) 1 (apply_group_item group on)) (group_ask group on).
Proof.
  intros w S. pose (P j w' := sized w' /\ forall id, state_at w' id =
    if (1 <=? id)%nat && (id <? j)%nat then foldl settle (state_at w id) (group_ask group on id) else state_at w id).
  assert (I : P (1 + (WARN_COUNT - 1))%nat (for_up (WARN_COUNT - 1) 1 (apply_group_item group on) w)).
  { apply for_up_inv.
    - split; [done|]. intros id. by destruct (Nat.leb_spec 1 id), (Nat.ltb_spec id 1); cbn [andb]; try done; lia.
    - intros j w' L [S' E']. assert (V : warn_id_valid j = true) by (apply valid_ids; unfold ids; apply elem_of_seq; lia).
      destruct (apply_group_item_spec group on j w' S' V) as [S2 E2]. split; [done|]. intros id. rewrite E2, !E'.
      rewrite (proj2 (Nat.ltb_ge j j)) by lia. rewrite andb_false_r.
      destruct (Nat.eqb_spec id j) as [->|N]; [rewrite (proj2 (Nat.ltb_lt j (Datatypes.S j))) by lia; by rewrite (proj2 (Nat.leb_le 1 j)) by lia|].
      replace (id <? Datatypes.S j)%nat with (id <? j)%nat; [done|]. destruct (Nat.ltb_spec id j), (Nat.ltb_spec id (Datatypes.S j)); done || lia. }
  destruct I as [S' E']. split; [done|]. intros id V%valid_ids%elem_of_seq. rewrite E'.
  rewrite (proj2 (Nat.leb_le _ _)), (proj2 (Nat.ltb_lt _ _)) by lia. done.
Qed.
Lemma promotion_group_keeps group demote : keeps (apply_promotion_group group demote).
Proof.
  intros w. unfold apply_promotion_group. apply (for_up_inv (fun _ w' => enabled w' = enabled w /\ enabled_priority w' = enabled_priority w)); [done|].
  intros j w' _ H. unfold apply_promotion_item. by destruct (_ && _).
Qed.
Lemma group_realizes group on : realizes (apply_group group on) (group_ask group on).
Proof.
  unfold apply_group. cbv zeta.
  apply (realizes_before (fun w => let w := set_group (group_index group) (on_off on) w in
     if (group =? WG_EXTRA) && negb (implicit_fallthrough_explicit w) then set_fallthrough (if on then 3 else 0) false w else w)); [|apply group_loop].
  intros w. cbv zeta. by destruct (_ && _).
Qed.
Lemma format_realizes level : realizes (apply_format_level level) (format_ask level).
Proof. apply (realizes_seq (apply_group WG_FORMAT (negb (level =? 0)))); apply group_realizes. Qed.

Lemma row_realizes id row on : warn_id_valid id = true -> wi_flag (info_at id) = row ->
  realizes (set_enabled id (on_off on) 3) (fun id' => if String.eqb (wi_flag (info_at id')) row then [(3, on)] else []).
Proof.
  intros V <-. apply (realizes_ext (set_enabled id (on_off on) 3) _ (exact_ask id on)); [done| |by apply realizes_exact].
  intros id' st V'. unfold exact_ask. destruct (Nat.eqb_spec id' id) as [->|N]; [by rewrite String.eqb_refl|].
  rewrite (proj2 (String.eqb_neq _ _)); [done|]. intros E. by apply N, flag_inj.
Qed.
Lemma no_row_realizes row on : (forall id, warn_id_valid id = true -> wi_flag (info_at id) <> row) ->
  realizes (fun w => w) (fun id' => if String.eqb (wi_flag (info_at id')) row then [(3, on)] else []).
Proof.
  intros N. apply (realizes_ext (fun w => w) _ (fun _ => [])); [done| |by apply realizes_keeps].
  intros id st V. by rewrite (proj2 (String.eqb_neq _ _)) by by apply N.
Qed.
Lemma flag_of_fallthrough : wi_flag (info_at WARN_IMPLICIT_FALLTHROUGH) = "implicit-fallthrough"%string /\ group_for_name "implicit-fallthrough" = WG_NONE.
Proof. split; vm_compute; reflexivity. Qed.
Lemma named_error_realizes q demote : realizes (fun w => (parse_named_error w q demote).1)
  (fun id => if demote then [] else
     match normalized_name q 128 with
     | None => []
     | Some (name, _) =>
       if String.eqb name "implicit-fallthrough" then
         let level := implicit_fallthrough_option_level q in
         if level <? 0 then [] else exact_ask WARN_IMPLICIT_FALLTHROUGH (negb (level =? 0)) id
       else name_ask name name true id
     end).
Proof.
  unfold parse_named_error. destruct (normalized_name q 128) as [[name neg]|] eqn:N; [|destruct demote; by apply realizes_keeps].
  destruct (String.eqb_spec name "implicit-fallthrough") as [->|Nf].
  - (* the warning with levels *)
    destruct flag_of_fallthrough as [Fl ->]. cbn [Z.eqb negb WG_NONE]. change (WG_NONE =? WG_NONE) with true. cbn [negb].
    destruct (info_for_flag _ _ _ N) as [(id & V & Ef & ->)|[No _]]; [|by destruct (No WARN_IMPLICIT_FALLTHROUGH)].
    assert (Vf : warn_id_valid WARN_IMPLICIT_FALLTHROUGH = true) by done.
    rewrite (row_id id V). assert (id = WARN_IMPLICIT_FALLTHROUGH) as -> by (apply flag_inj; [done|done|by rewrite Ef]).
    rewrite Nat.eqb_refl. cbn [andb]. destruct (Z.ltb_spec (implicit_fallthrough_option_level q) 0); [destruct demote; by apply realizes_keeps|].
    destruct demote; cbn [negb]; [by apply realizes_keeps|]. cbv zeta. set (level := implicit_fallthrough_option_level q).
    assert (On : realizes (fun w => set_fallthrough level true (set_enabled WARN_IMPLICIT_FALLTHROUGH (on_off true) 3 (set_promoted WARN_IMPLICIT_FALLTHROUGH WS_ON 3 w)))
      (exact_ask WARN_IMPLICIT_FALLTHROUGH true)).
    { apply (realizes_after (fun w => set_enabled WARN_IMPLICIT_FALLTHROUGH (on_off true) 3 (set_promoted WARN_IMPLICIT_FALLTHROUGH WS_ON 3 w))); [|done].
      by apply (realizes_before (set_promoted WARN_IMPLICIT_FALLTHROUGH WS_ON 3)); [|apply realizes_exact]. }
    destruct (level =? 0); cbn [negb]; [|exact On].
    eapply realizes_ext; [intros w; reflexivity| |exact (realizes_seq _ _ _ _ On (realizes_exact WARN_IMPLICIT_FALLTHROUGH false Vf))].
    intros id st _. unfold exact_ask. destruct (id =? WARN_IMPLICIT_FALLTHROUGH)%nat; [apply settle_twice|done].
  - unfold name_ask. destruct (group_for_name name =? WG_NONE) eqn:G; cbn [negb].
    + destruct (info_for_flag _ _ _ N) as [(id & V & <- & ->)|[No ->]]; [|destruct demote; [by apply realizes_keeps|by apply no_row_realizes]].
      rewrite (row_id id V). assert (id <> WARN_IMPLICIT_FALLTHROUGH) as Ni by (intros ->; by apply Nf, flag_of_fallthrough).
      rewrite (proj2 (Nat.eqb_neq _ _) Ni). cbn [andb]. destruct demote; cbn [negb]; [by apply realizes_keeps|].
      by apply (realizes_before (set_promoted id WS_ON 3)); [|apply (row_realizes id _ true)].
    + destruct demote; cbn [negb]; [apply realizes_keeps, promotion_group_keeps|].
      apply (realizes_before (apply_promotion_group (group_for_name name) false)); [apply promotion_group_keeps|apply group_realizes].
Qed.
Lemma flag_error_realizes q : realizes (fun w => (flag_error w q).1) (error_ask q).
Proof.
  unfold flag_error, error_ask. set (level := format_option_level q). destruct (Z.eqb_spec level (-2)) as [E|N]; cbn [negb].
  - rewrite E. cbn [Z.leb Z.compare Z.eqb orb]. change (-2 =? -1) with false. cbn [orb].
    destruct (bad_format_subflag_parameter q); [by apply realizes_keeps|]. exact (named_error_realizes q false).
  - destruct (Z.ltb_spec level 0) as [L|L].
    + rewrite (proj2 (Z.leb_gt _ _)) by done. assert (level = -1) as -> by (unfold level, format_option_level in *; repeat case_match; lia).
      by apply realizes_keeps.
    + rewrite (proj2 (Z.leb_le _ _)) by done. cbv zeta. destruct (0 <? level), (level =? 2); cbn [fst].
      * apply (realizes_after (fun w => apply_promotion_group WG_FORMAT false (apply_format_level level w))); [|apply promotion_group_keeps].
        apply (realizes_after (apply_format_level level)); [apply format_realizes|apply promotion_group_keeps].
      * apply (realizes_after (apply_format_level level)); [apply format_realizes|apply promotion_group_keeps].
      * apply (realizes_after (apply_format_level level)); [apply format_realizes|apply promotion_group_keeps].
      * apply format_realizes.
Qed.
Lemma flag_no_error_realizes q : realizes (fun w => (flag_no_error w q).1) (fun _ => []).
Proof.
  unfold flag_no_error. destruct (negb _); [destruct (_ <? 0); by apply realizes_keeps|].
  destruct (bad_format_subflag_parameter q); [by apply realizes_keeps|]. exact (named_error_realizes q true).
Qed.
Lemma flag_name_realizes p : realizes (fun w => (flag_name w p).1)
  (fun id => match normalized_name p 128 with
             | None => []
             | Some (name, negative) =>
               if bad_format_subflag_parameter p || String.eqb name "system-headers" then [] else name_ask name (row_name name) (negb negative) id
             end).
Proof.
  unfold flag_name. destruct (normalized_name p 128) as [[name negative]|]; [|by apply realizes_keeps].
  destruct (bad_format_subflag_parameter p); cbn [orb]; [by apply realizes_keeps|].
  destruct (String.eqb name "system-headers"); [by apply realizes_keeps|]. unfold name_ask.
  destruct (group_for_name name =? WG_NONE) eqn:G; cbn [negb].
  - unfold row_name. destruct (normalized_name name 128) as [[row neg]|] eqn:N.
    + destruct (info_for_flag _ _ _ N) as [(id & V & <- & ->)|[No ->]]; [|by apply no_row_realizes]. rewrite (row_id id V). by apply (row_realizes id _ (negb negative)).
    + unfold warn_info_for_flag. rewrite N. cbn [mbind option_bind]. apply no_row_realizes. intros id V E.
      assert (forallb (fun i => negb (String.eqb (wi_flag (info_at i)) EmptyString)) ids = true) as A by (vm_compute; reflexivity).
      pose proof (all_ids _ A id V) as B. cbv beta in B. rewrite E in B. done.
  - cbv zeta. destruct (group_for_name name =? WG_PEDANTIC); cbn [fst]; [|apply group_realizes].
    apply (realizes_after (apply_group (group_for_name name) (negb negative))); [apply group_realizes|done].
Qed.

(** Every option settles its requests and nothing else. *)
Lemma flag_realizes arg : realizes (fun w => (warn_flag w arg).1) (fun id => asks id arg).
Proof.
  unfold warn_flag, asks, is_driver_word. destruct (String.eqb arg WARN_FSAFE_REQUIRED_OPTION); cbn [orb]; [by apply realizes_keeps|].
  destruct (String.eqb arg "-w"), (String.eqb arg "w"); cbn [orb]; try by apply realizes_keeps.
  destruct (String.eqb arg "-pedantic"), (String.eqb arg "pedantic"); cbn [orb]; try by apply realizes_keeps.
  destruct (String.eqb arg "-pedantic-errors"), (String.eqb arg "pedantic-errors"); cbn [orb]; try by apply realizes_keeps.
  cbv zeta. set (p := strip_w arg). set (level := format_option_level p).
  assert (Fl : level = -2 \/ level = -1 \/ 0 <= level) by (unfold level, format_option_level; repeat case_match; lia).
  destruct Fl as [E|[E|E]]; [rewrite E|rewrite E; by apply realizes_keeps|].
  2: { rewrite (proj2 (Z.eqb_neq level (-1))), (proj2 (Z.eqb_neq level (-2))), (proj2 (Z.leb_le 0 level)) by lia. apply format_realizes. }
  change (-2 =? -1) with false. change (0 <=? -2) with false. change (-2 =? -2) with true. cbn [negb]. clear level E.
  set (level := implicit_fallthrough_option_level p).
  assert (Fl : level = -2 \/ level = -1 \/ 0 <= level) by (unfold level, implicit_fallthrough_option_level; repeat case_match; lia).
  destruct Fl as [E|[E|E]]; [rewrite E|rewrite E; by apply realizes_keeps|].
  2: { rewrite (proj2 (Z.eqb_neq level (-1))), (proj2 (Z.eqb_neq level (-2))), (proj2 (Z.leb_le 0 level)) by lia. cbn [negb fst].
       apply (realizes_ext (fun w => set_enabled WARN_IMPLICIT_FALLTHROUGH (on_off (negb (level =? 0))) 3 (set_fallthrough level true w)) _
          (exact_ask WARN_IMPLICIT_FALLTHROUGH (negb (level =? 0)))); [intros w; by destruct (level =? 0)|done|].
       by apply (realizes_before (set_fallthrough level true)); [|apply realizes_exact]. }
  change (-2 =? -1) with false. change (0 <=? -2) with false. change (-2 =? -2) with true. cbn [negb]. clear level E.
  set (mode := maybe_uninitialized_option_mode p).
  assert (Fl : mode = -2 \/ mode = -1 \/ 0 <= mode) by (unfold mode, maybe_uninitialized_option_mode; repeat case_match; lia).
  destruct Fl as [E|[E|E]]; [rewrite E|rewrite E; by apply realizes_keeps|].
  2: { rewrite (proj2 (Z.eqb_neq mode (-1))), (proj2 (Z.eqb_neq mode (-2))), (proj2 (Z.leb_le 0 mode)) by lia. cbn [negb fst].
       apply (realizes_ext (fun w => set_maybe_strict (mode =? 2) (set_enabled WARN_MAYBE_UNINITIALIZED (on_off (negb (mode =? 1))) 3 w)) _
          (exact_ask WARN_MAYBE_UNINITIALIZED (negb (mode =? 1)))); [intros w; by destruct (mode =? 1)|done|].
       by apply realizes_after; [apply realizes_exact|]. }
  change (-2 =? -1) with false. change (0 <=? -2) with false. change (-2 =? -2) with true. cbn [negb]. clear mode E.
  destruct (String.eqb p "error"), (String.eqb p "no-error"), (String.eqb p "fatal-errors"), (String.eqb p "no-fatal-errors"); cbn [orb]; try by apply realizes_keeps.
  destruct (starts "error=" p); [apply flag_error_realizes|]. destruct (starts "no-error=" p); [apply flag_no_error_realizes|apply flag_name_realizes].
Qed.

(** ** What the policy promises of a command line *)

(** ** The command line *)
Definition requests (id : nat) (opts : list string) : list Ask := flat_map (asks id) opts.

Lemma flags_realize opts : realizes (fun w => foldl (fun w o => (warn_flag w o).1) w opts) (fun id => requests id opts).
Proof.
  induction opts as [|o opts IH]; [by apply realizes_keeps|]. exact (realizes_seq (fun w => (warn_flag w o).1) _ _ _ (flag_realizes o) IH).
Qed.
Lemma driver_state no_warnings opts id : warn_id_valid id = true ->
  state_at (driver_warn_ctx no_warnings opts) id = foldl settle (WS_UNSET, 0) (requests id opts).
Proof.
  intros V. unfold driver_warn_ctx. set (w := if no_warnings then _ else _). assert (S : sized w) by (unfold w; destruct no_warnings; [apply flag_realizes|]; apply sized_new).
  destruct (flags_realize opts w S) as [_ E]. rewrite E by done. f_equal.
  assert (state_at w id = state_at warn_ctx_new id) as -> by (unfold w; by destruct no_warnings).
  apply valid_ids, elem_of_seq in V. unfold state_at, enabled_at, priority_at, warn_ctx_new. cbn [enabled enabled_priority].
  by rewrite !lookup_replicate_2 by lia.
Qed.

Lemma settle_bounded l k st : st.2 <= k -> Forall (fun a : Ask => a.1 <= k) l -> (foldl settle st l).2 <= k.
Proof.
  intros L F. revert st L. induction F as [|a l La F IH]; intros st L; [done|]. cbn [foldl]. apply IH. unfold settle. by destruct (_ <=? _).
Qed.
Lemma settle_weaker l k st : st.2 = k -> Forall (fun a : Ask => a.1 < k) l -> foldl settle st l = st.
Proof.
  intros E F. induction F as [|a l La F IH]; [done|]. cbn [foldl]. unfold settle at 2. by rewrite (proj2 (Z.leb_gt _ _)) by lia.
Qed.
Lemma winner l1 k on l2 : 0 <= k -> Forall (fun a : Ask => a.1 <= k) l1 -> Forall (fun a : Ask => a.1 < k) l2 ->
  foldl settle (WS_UNSET, 0) (l1 ++ (k, on) :: l2) = (on_off on, k).
Proof.
  intros K F1 F2. rewrite foldl_app. cbn [foldl]. pose proof (settle_bounded l1 k (WS_UNSET, 0) K F1) as L. unfold settle at 2. cbn [fst snd].
  rewrite (proj2 (Z.leb_le _ _)) by done. by apply (settle_weaker l2 k).
Qed.

(** The rows an option can name alone: the others share their name with a group. *)
Definition named_alone (id : nat) : bool := group_for_name (wi_flag (info_at id)) =? WG_NONE.
Definition exact_ok (id : nat) : bool :=
  let flag := wi_flag (info_at id) in
  negb (named_alone id) ||
  bool_decide (asks id ("-W" ++ flag) = [(3, true)]) && bool_decide (asks id ("-Wno-" ++ flag) = [(3, false)]) &&
  bool_decide (asks id ("-Werror=" ++ flag) = [(3, true)]) && bool_decide (asks id ("-Wno-error=" ++ flag) = []).
Lemma exact_options : forallb exact_ok ids = true.
Proof. vm_compute. reflexivity. Qed.

Lemma group_ask_strength group on id : Forall (fun a : Ask => 0 <= a.1 <= 3) (group_ask group on id).
Proof.
  unfold group_ask. destruct (_ || _); [constructor|]. constructor; [|constructor]. cbn [fst]. destruct (_ && _); [lia|]. unfold group_priority. destruct (_ || _); lia.
Qed.
Lemma name_ask_strength name row on id : Forall (fun a : Ask => 0 <= a.1 <= 3) (name_ask name row on id).
Proof.
  unfold name_ask. destruct (negb _); [apply group_ask_strength|]. destruct (String.eqb _ _); repeat constructor; cbn; lia.
Qed.
Lemma asks_strength id arg : Forall (fun a : Ask => 0 <= a.1 <= 3) (asks id arg).
Proof.
  assert (X : forall i on, Forall (fun a : Ask => 0 <= a.1 <= 3) (exact_ask i on id)).
  { intros i on. unfold exact_ask. destruct (id =? i)%nat; repeat constructor; cbn; lia. }
  assert (F : forall level, Forall (fun a : Ask => 0 <= a.1 <= 3) (format_ask level id)).
  { intros level. apply Forall_app. split; apply group_ask_strength. }
  unfold asks, error_ask. cbv zeta. repeat case_match; try constructor; try apply X; try apply F; apply name_ask_strength.
Qed.
Lemma requests_strength id opts : Forall (fun a : Ask => 0 <= a.1 <= 3) (requests id opts).
Proof. induction opts as [|o opts IH]; [constructor|]. apply Forall_app. split; [apply asks_strength|exact IH]. Qed.

(** C18. The strongest request wins, and among equals the last. For every command
    line and every warning: no request leaves the default; a request with no
    stronger one before it and only weaker ones after it decides the setting,
    where [-Wall] and [-Wextra] are weaker than the other groups and those
    weaker than the option of the warning itself. So [-Wfoo] or [-Wno-foo]
    decides [foo] whatever groups come before or after it, until another option
    names [foo]. *)
Theorem warn_option_precedence no_warnings opts id : warn_id_valid id = true ->
  let w := driver_warn_ctx no_warnings opts in
  (requests id opts = [] -> enabled_at w id = WS_UNSET) /\
  (forall l1 k on l2, requests id opts = l1 ++ (k, on) :: l2 ->
     Forall (fun a : Ask => a.1 <= k) l1 -> Forall (fun a : Ask => a.1 < k) l2 -> enabled_at w id = on_off on) /\
  (forall before (on : bool) after, named_alone id = true ->
     opts = before ++ ((if on then "-W" else "-Wno-") ++ wi_flag (info_at id))%string :: after ->
     Forall (fun o => Forall (fun a : Ask => a.1 < 3) (asks id o)) after -> enabled_at w id = on_off on).
Proof.
  intros V w. assert (E : enabled_at w id = (foldl settle (WS_UNSET, 0) (requests id opts)).1) by (unfold w; by rewrite <- (driver_state no_warnings)).
  assert (W : forall l1 k on l2, requests id opts = l1 ++ (k, on) :: l2 -> Forall (fun a : Ask => a.1 <= k) l1 -> Forall (fun a : Ask => a.1 < k) l2 ->
    enabled_at w id = on_off on).
  { intros l1 k on l2 R F1 F2. pose proof (requests_strength id opts) as B. rewrite R in B. apply Forall_app in B as [_ B].
    apply Forall_cons_iff in B as [B _]. cbn in B. by rewrite E, R, winner by (done || lia). }
  split; [intros R; by rewrite E, R|]. split; [exact W|]. intros before on after A -> F.
  pose proof (all_ids _ exact_options id V) as X. unfold exact_ok in X. rewrite A in X. cbn [negb orb] in X.
  apply andb_true_iff in X as [[[X1%bool_decide_eq_true X2%bool_decide_eq_true]%andb_true_iff _]%andb_true_iff _].
  apply (W (requests id before) 3 on (requests id after)).
  - unfold requests. rewrite flat_map_app. cbn [flat_map]. destruct on; [by rewrite X1|by rewrite X2].
  - eapply List.Forall_impl; [|apply requests_strength]. intros a H. cbv beta in H. lia.
  - clear -F. induction F as [|o after Fo F IH]; [constructor|]. apply Forall_app. by split.
Qed.
Lemma warn_option_precedence_witness :
  enabled_at (driver_warn_ctx false ["no-format"; "all"]%string) WARN_NONNULL = WS_ON /\
  enabled_at (driver_warn_ctx false ["all"; "no-format"]%string) WARN_NONNULL = WS_OFF /\
  enabled_at (driver_warn_ctx false ["-Wno-nonnull"; "format"; "-Wall"]%string) WARN_NONNULL = WS_OFF.
Proof.
  assert (N : warn_id_valid WARN_NONNULL = true) by reflexivity. split; [|split].
  - apply (proj1 (proj2 (warn_option_precedence false ["no-format"; "all"]%string WARN_NONNULL N)) [(1, false)] 1 true []);
      [vm_compute; reflexivity|repeat constructor; cbn; lia|constructor].
  - apply (proj1 (proj2 (warn_option_precedence false ["all"; "no-format"]%string WARN_NONNULL N)) [(1, true)] 1 false []);
      [vm_compute; reflexivity|repeat constructor; cbn; lia|constructor].
  - apply (proj2 (proj2 (warn_option_precedence false ["-Wno-nonnull"; "format"; "-Wall"]%string WARN_NONNULL N)) [] false ["format"; "-Wall"]%string);
      [vm_compute; reflexivity|vm_compute; reflexivity|].
    repeat constructor; vm_compute; reflexivity.
Defined.
