(* ===== verification/WarnPragma.v ===== *)
(** [#pragma GCC diagnostic]: the replayed event log is a stack of class
    assignments, read at any position of the source; and what follows for the
    analyses that run only when a warning of theirs can be emitted. *)
From Stdlib Require Import Sorted.
From S2P Require Import Prelude.
From S2P Require Import Warn.
From S2P Require Import WarnFacts.
#[local] Open Scope Z_scope.

(** ** The reference: a stack of assignments *)
Inductive Directive := DPush | DPop | DSet (id : nat) (c : WarnPragmaClass).
Definition Classes := nat -> option WarnPragmaClass.
Definition no_classes : Classes := fun _ => None.
Definition assign (id : nat) (c : WarnPragmaClass) (cls : Classes) : Classes := fun id' => if (id' =? id)%nat then Some c else cls id'.
Definition ref_step (st : Classes * list Classes) (d : Directive) : Classes * list Classes :=
  match d with
  | DPush => (st.1, st.1 :: st.2)
  | DPop => match st.2 with [] => (no_classes, []) | top :: rest => (top, rest) end
  | DSet id c => (assign id c st.1, st.2)
  end.
Definition ref_run (ds : list Directive) : Classes * list Classes := foldl ref_step (no_classes, []) ds.

(** The pragmas of a source file, in the order the preprocessor meets them. *)
Definition pragma_step (p : Pragmas) (op : Z * Directive) : option Pragmas :=
  match op.2 with
  | DPush => warn_pragma_push p op.1
  | DPop => '(p, _) ← warn_pragma_pop p op.1; Some p
  | DSet id c => warn_pragma_set p op.1 id c
  end.
Fixpoint pragma_run (p : Pragmas) (ops : list (Z * Directive)) : option Pragmas :=
  match ops with [] => Some p | op :: ops => p ← pragma_step p op; pragma_run p ops end.
Definition valid_op (op : Z * Directive) : Prop := match op.2 with DSet id _ => warn_id_valid id = true | _ => True end.
Definition lexical (ops : list (Z * Directive)) : Prop := StronglySorted Z.le (map fst ops).

(** A state array holds these classes. *)
Definition holds (st : PragmaState) (cls : Classes) : Prop := length st = WARN_COUNT /\ forall id, (id < WARN_COUNT)%nat -> st !! id = Some (cls id).
Lemma holds_none : holds no_pragmas no_classes.
Proof. split; [apply length_replicate|]. intros id L. by apply lookup_replicate_2. Qed.
Lemma holds_assign st cls id c : holds st cls -> holds (<[id := Some c]> st) (assign id c cls).
Proof.
  intros [L H]. split; [by rewrite length_insert|]. intros id' L'. unfold assign. destruct (Nat.eqb_spec id' id) as [->|N].
  - apply list_lookup_insert_eq. lia.
  - rewrite list_lookup_insert_ne by done. by apply H.
Qed.

(** The log after some directives. *)
Definition replay (evs : list WarnEvent) : PragmaState := foldl (fun st ev => replay_event ev st) no_pragmas evs.
Definition records_set (ev : WarnEvent) (op : Z * Directive) : Prop :=
  match op.2 with DSet id c => ev_kind ev = EV_SET id c | _ => True end.
Record logged (p : Pragmas) (ops : list (Z * Directive)) : Prop := {
  lg_state : holds (pragma_state p) (ref_run (map snd ops)).1;
  lg_stack : Forall2 holds (rev (pragma_stack p)) (ref_run (map snd ops)).2;
  lg_seqs : map ev_seq (events p) = map fst ops;
  lg_replay n : (n <= length ops)%nat -> holds (replay (take n (events p))) (ref_run (map snd (take n ops))).1;
  lg_sets : Forall2 records_set (events p) ops;
  lg_caps : (length (pragma_stack p) <= stack_cap p)%nat /\ (length (events p) <= events_cap p)%nat;
}.
Definition fresh_pragmas : Pragmas := pragmas warn_ctx_new.
Lemma logged_fresh : logged fresh_pragmas [].
Proof. split; [apply holds_none|constructor|done| |constructor|by split]. intros n _. change (events fresh_pragmas) with (@nil WarnEvent). rewrite !take_nil. apply holds_none. Qed.

Lemma grown_room cap len first : (0 < first)%nat -> (len <= cap)%nat -> (len < grown cap len first)%nat.
Proof. intros F L. unfold grown. destruct (Nat.eqb_spec len cap) as [->|]; [destruct cap; lia|lia]. Qed.
Lemma logged_length p ops : logged p ops -> length (events p) = length ops.
Proof. intros G. by rewrite <- (length_map ev_seq), (lg_seqs _ _ G), length_map. Qed.

(** One more event. [p] is the log before it, with the state after it. *)
Lemma append_logged p p0 ops op ev : logged p0 ops -> events p = events p0 -> events_cap p = events_cap p0 -> (length (pragma_stack p) <= stack_cap p)%nat ->
  lexical (ops ++ [op]) -> ev_seq ev = op.1 -> records_set ev op ->
  holds (pragma_state p) (ref_run (map snd (ops ++ [op]))).1 -> Forall2 holds (rev (pragma_stack p)) (ref_run (map snd (ops ++ [op]))).2 ->
  holds (replay_event ev (replay (events p0))) (ref_run (map snd (ops ++ [op]))).1 ->
  exists p', append_event p ev = Some p' /\ logged p' (ops ++ [op]).
Proof.
  intros G Ee Ec Cs Lx Es Rs Hs Hk Hr. pose proof (logged_length _ _ G) as Le. pose proof (lg_caps _ _ G) as [_ Ce].
  unfold append_event. rewrite Ee, Ec.
  assert (O : negb (length (events p0) =? 0)%nat && (ev_seq ev <? default 0 (ev_seq <$> events p0 !! (length (events p0) - 1)%nat)) = false).
  { destruct (Nat.eqb_spec (length (events p0)) 0) as [|N]; [done|]. cbn [negb andb]. apply Z.ltb_ge.
    destruct (lookup_lt_is_Some_2 (events p0) (length (events p0) - 1)) as [last Hl]; [lia|]. rewrite Hl. cbn.
    unfold lexical in Lx. rewrite map_app in Lx. cbn in Lx. rewrite Es. pose proof (f_equal (lookup (length (events p0) - 1)%nat) (lg_seqs _ _ G)) as Hm.
    rewrite list_lookup_fmap, Hl in Hm. cbn in Hm. clear -Lx Hm. revert Lx Hm. generalize (map fst ops) (length (events p0) - 1)%nat.
    intros l k Lx Hm. symmetry in Hm. apply list_elem_of_lookup_2, list_elem_of_In in Hm. induction l as [|x l IH]; [done|].
    cbn in Lx. apply StronglySorted_inv in Lx as [Lx F]. destruct Hm as [->|Hm]; [|by apply IH]. rewrite Forall_forall in F. apply F, in_or_app. right. by left. }
  rewrite O. pose proof (grown_room (events_cap p0) (length (events p0)) 16 ltac:(lia) Ce) as R. rewrite (proj2 (Nat.leb_gt _ _)) by done.
  eexists. split; [done|]. split; cbn [pragma_state pragma_stack stack_cap events events_cap]; [done|done| | |apply Forall2_app; [apply G|by constructor]|].
  - rewrite !map_app. cbn. by rewrite (lg_seqs _ _ G), Es.
  - intros n Ln. rewrite length_app in Ln. cbn in Ln. destruct (decide (n <= length ops)%nat) as [L|L].
    + rewrite !take_app_le by lia. by apply (lg_replay _ _ G).
    + assert (n = length ops + 1)%nat as -> by lia. rewrite !take_ge by (rewrite length_app; cbn; lia).
      unfold replay. rewrite foldl_app. exact Hr.
  - rewrite length_app. cbn. lia.
Qed.
Lemma ref_run_snoc (ops : list (Z * Directive)) op : ref_run (map snd (ops ++ [op])) = ref_step (ref_run (map snd ops)) op.2.
Proof. unfold ref_run. by rewrite map_app, foldl_app. Qed.
Lemma replay_all p ops : logged p ops -> holds (replay (events p)) (ref_run (map snd ops)).1.
Proof.
  intros G. pose proof (lg_replay _ _ G (length ops) ltac:(lia)) as H. by rewrite <- (logged_length _ _ G) in H at 1; rewrite !take_ge in H by (rewrite ?(logged_length _ _ G); lia).
Qed.
Lemma pragma_step_logged p ops op : logged p ops -> valid_op op -> lexical (ops ++ [op]) ->
  exists p', pragma_step p op = Some p' /\ logged p' (ops ++ [op]).
Proof.
  intros G V Lx. destruct op as [seq d]. pose proof (lg_caps _ _ G) as [Cs Ce]. pose proof (replay_all _ _ G) as Hr. unfold pragma_step. cbn [fst snd].
  pose proof (ref_run_snoc ops (seq, d)) as Rs. cbn [snd] in Rs. destruct d as [| |id c]; cbn [ref_step] in Rs.
  - unfold warn_pragma_push. pose proof (grown_room (stack_cap p) (length (pragma_stack p)) 8 ltac:(lia) Cs) as R.
    rewrite (proj2 (Nat.leb_gt _ _)) by done. apply (append_logged _ p); try done; rewrite ?Rs; cbn [pragma_state pragma_stack stack_cap fst snd].
    + rewrite length_app. cbn. lia.
    + apply G.
    + rewrite rev_app_distr. cbn. constructor; apply G.
    + exact Hr.
  - unfold warn_pragma_pop. destruct (Nat.eqb_spec (length (pragma_stack p)) 0) as [E|N].
    + pose proof (lg_stack _ _ G) as St. rewrite (nil_length_inv _ E) in St. cbn in St. apply Forall2_nil_inv_l in St. rewrite St in Rs.
      destruct (append_logged (mkPragmas no_pragmas (pragma_stack p) (stack_cap p) (events p) (events_cap p)) p ops (seq, DPop) (mkEvent seq (EV_POP no_pragmas)))
        as (p' & -> & G'); try done; rewrite ?Rs; cbn [pragma_state pragma_stack stack_cap fst snd]; try apply holds_none.
      { by rewrite (nil_length_inv _ E). }
      cbn [mbind option_bind]. by exists p'.
    + pose proof (lg_stack _ _ G) as St. destruct (lookup_lt_is_Some_2 (pragma_stack p) (length (pragma_stack p) - 1)) as [top Ht]; [lia|].
      assert (Ep : pragma_stack p = take (length (pragma_stack p) - 1) (pragma_stack p) ++ [top]).
      { rewrite <- (take_S_r _ _ _ Ht). by rewrite take_ge by lia. }
      set (below := take (length (pragma_stack p) - 1) (pragma_stack p)) in *. rewrite Ep in St. rewrite rev_app_distr in St. cbn in St.
      apply Forall2_cons_inv_l in St as (cls & rest & Hc & Hb & St). rewrite St in Rs. rewrite Ht. cbn [mbind option_bind].
      destruct (append_logged (mkPragmas top below (stack_cap p) (events p) (events_cap p)) p ops (seq, DPop) (mkEvent seq (EV_POP top)))
        as (p' & -> & G'); try done; rewrite ?Rs; cbn [pragma_state pragma_stack stack_cap fst snd]; try done.
      { apply (f_equal length) in Ep. rewrite length_app in Ep. cbn in Ep. lia. }
      cbn [mbind option_bind]. by exists p'.
  - unfold warn_pragma_set. cbn in V. rewrite V. cbn [negb].
    apply (append_logged _ p); try done; rewrite ?Rs; cbn [pragma_state pragma_stack stack_cap fst snd]; [by apply holds_assign, G|apply G|by apply holds_assign].
Qed.
Lemma pragma_run_logged p ops ops' : logged p ops -> Forall valid_op ops' -> lexical (ops ++ ops') ->
  exists p', pragma_run p ops' = Some p' /\ logged p' (ops ++ ops').
Proof.
  revert p ops. induction ops' as [|op ops' IH]; intros p ops G V Lx; [rewrite app_nil_r; by exists p|].
  apply Forall_cons_iff in V as [V Vs]. replace (ops ++ op :: ops') with ((ops ++ [op]) ++ ops') in * by (by rewrite <- app_assoc). assert (Lx1 : lexical (ops ++ [op])).
  { clear -Lx. unfold lexical in *. rewrite map_app in Lx. induction (map fst (ops ++ [op])) as [|x l IH]; [constructor|]. cbn in Lx.
    apply StronglySorted_inv in Lx as [Lx F]. constructor; [by apply IH|]. apply Forall_app in F. apply F. }
  destruct (pragma_step_logged p ops op G V Lx1) as (p1 & E & G1). cbn [pragma_run]. rewrite E. cbn [mbind option_bind]. by apply IH.
Qed.
(** A step adds an event at its position, which the last event may not follow. *)
Lemma append_last p ev p' : append_event p ev = Some p' -> events p' = events p ++ [ev] /\
  forall evs last, events p = evs ++ [last] -> ev_seq last <= ev_seq ev.
Proof.
  unfold append_event. destruct (negb _ && _) eqn:O; [done|]. destruct (_ <=? _)%nat; [done|]. intros [= <-]. split; [done|].
  intros evs last E. rewrite E, length_app in O. cbn [length] in O. rewrite (proj2 (Nat.eqb_neq _ _)) in O by lia. cbn [negb andb] in O.
  replace (length evs + 1 - 1)%nat with (length evs) in O by lia. rewrite lookup_app_r, Nat.sub_diag in O by done. cbn in O. by apply Z.ltb_ge.
Qed.
Lemma step_last p op p' : valid_op op -> pragma_step p op = Some p' -> exists ev, ev_seq ev = op.1 /\ events p' = events p ++ [ev] /\
  forall evs last, events p = evs ++ [last] -> ev_seq last <= op.1.
Proof.
  destruct op as [seq [| |id c]]; unfold pragma_step, valid_op; cbn [fst snd].
  - intros _. unfold warn_pragma_push. destruct (_ <=? _)%nat; [done|]. intros [E L]%append_last. eexists. split; [|split; [exact E|exact L]]; done.
  - intros _. unfold warn_pragma_pop. destruct (_ =? _)%nat.
    + destruct (append_event _ _) as [q|] eqn:A; [|done]. cbn. intros [= <-]. apply append_last in A as [E L]. eexists. split; [|split; [exact E|exact L]]; done.
    + destruct (_ !! _); [|done]. cbn [mbind option_bind]. destruct (append_event _ _) as [q|] eqn:A; [|done]. cbn. intros [= <-]. apply append_last in A as [E L]. eexists. split; [|split; [exact E|exact L]]; done.
  - intros V. unfold warn_pragma_set. rewrite V. cbn [negb]. intros [E L]%append_last. eexists. split; [|split; [exact E|exact L]]; done.
Qed.
Lemma unordered_refused p ops1 op1 op2 ops2 : Forall valid_op (ops1 ++ op1 :: op2 :: ops2) -> op2.1 < op1.1 ->
  pragma_run p (ops1 ++ op1 :: op2 :: ops2) = None.
Proof.
  intros V L. revert p. induction ops1 as [|op ops1 IH]; intros p; cbn [app pragma_run] in *; apply Forall_cons_iff in V as [V Vs].
  - destruct (pragma_step p op1) as [p1|] eqn:S1; [|done]. cbn [mbind option_bind]. apply step_last in S1 as (ev & E1 & Ev & _); [|done].
    destruct (pragma_step p1 op2) as [p2|] eqn:S2; [|done]. apply Forall_cons_iff in Vs as [V2 _]. apply step_last in S2 as (_ & _ & _ & Lt); [|done].
    specialize (Lt _ _ Ev). lia.
  - destruct (pragma_step p op); [|done]. by apply IH.
Qed.

(** ** The position of an occurrence *)
Definition sorted_events (evs : list WarnEvent) : Prop :=
  forall i j a b, (i <= j)%nat -> evs !! i = Some a -> evs !! j = Some b -> ev_seq a <= ev_seq b.
Lemma event_limit_loop_spec evs seq fuel lo hi : sorted_events evs -> (lo <= hi <= length evs)%nat -> (hi - lo <= fuel)%nat ->
  (forall i ev, (i < lo)%nat -> evs !! i = Some ev -> ev_seq ev <= seq) -> (forall i ev, (hi <= i)%nat -> evs !! i = Some ev -> seq < ev_seq ev) ->
  exists n, event_limit_loop evs seq fuel lo hi = Some n /\ (n <= length evs)%nat /\
    (forall i ev, evs !! i = Some ev -> (i < n)%nat <-> ev_seq ev <= seq).
Proof.
  intros So. revert lo hi. induction fuel as [|fuel IH]; intros lo hi L F Lo Hi; cbn [event_limit_loop].
  - rewrite (proj2 (Nat.ltb_ge _ _)) by lia. exists lo. split; [done|]. split; [lia|]. intros i ev E. split; [intros; by apply (Lo i)|].
    intros Le. destruct (decide (i < lo)%nat); [done|]. pose proof (Hi i ev ltac:(lia) E). lia.
  - destruct (Nat.ltb_spec lo hi) as [Lt|Ge].
    + set (mid := (lo + (hi - lo) / 2)%nat). assert (M : (lo <= mid < hi)%nat).
      { unfold mid. pose proof (Nat.div_lt (hi - lo) 2 ltac:(lia) ltac:(lia)). lia. }
      destruct (lookup_lt_is_Some_2 evs mid) as [em Em]; [lia|]. rewrite Em. cbn [mbind option_bind]. destruct (Z.leb_spec (ev_seq em) seq) as [Q|Q].
      * apply IH; [lia|lia| |done]. intros i ev Li E. pose proof (So i mid ev em ltac:(lia) E Em). lia.
      * apply IH; [lia|lia|done|]. intros i ev Li E. pose proof (So mid i em ev ltac:(lia) Em E). lia.
    + exists lo. split; [done|]. split; [lia|]. intros i ev E. split; [intros; by apply (Lo i)|].
      intros Le. destruct (decide (i < lo)%nat); [done|]. pose proof (Hi i ev ltac:(lia) E). lia.
Qed.
(** The directives at or before a position. *)
Definition before (seq : Z) (ops : list (Z * Directive)) : list (Z * Directive) := List.filter (fun op => op.1 <=? seq) ops.
Lemma before_take ops seq n : (forall i op, ops !! i = Some op -> (i < n)%nat <-> op.1 <= seq) -> take n ops = before seq ops.
Proof.
  revert n. induction ops as [|op ops IH]; intros n H; [by rewrite take_nil|]. cbn [before List.filter]. fold (before seq ops).
  pose proof (H 0%nat op eq_refl) as H0. destruct n as [|n].
  - rewrite (proj2 (Z.leb_gt _ _)); [|destruct (Z.le_gt_cases op.1 seq) as [L|L]; [apply H0 in L; lia|lia]]. rewrite <- (IH 0%nat); [done|].
    intros i op' E. rewrite <- (H (Datatypes.S i) op' E). lia.
  - rewrite (proj2 (Z.leb_le _ _)) by (apply H0; lia). cbn [take]. f_equal. apply IH. intros i op' E. rewrite <- (H (Datatypes.S i) op' E). lia.
Qed.
Lemma lexical_events p ops : logged p ops -> lexical ops -> sorted_events (events p).
Proof.
  intros G Lx i j a b L Ha Hb. unfold lexical in Lx. rewrite <- (lg_seqs _ _ G) in Lx. pose proof (f_equal (fmap ev_seq) Ha) as Ha'. pose proof (f_equal (fmap ev_seq) Hb) as Hb'.
  rewrite <- list_lookup_fmap in Ha', Hb'. cbn in Ha', Hb'. clear -Lx L Ha' Hb'. change (ev_seq <$> events p) with (map ev_seq (events p)) in *.
  revert i j L Ha' Hb'. induction (map ev_seq (events p)) as [|x l IH]; intros i j L Ha Hb; [done|]. apply StronglySorted_inv in Lx as [Lx F].
  destruct i as [|i], j as [|j]; cbn in Ha, Hb; [simplify_eq; lia| |lia|by apply (IH Lx i j ltac:(lia))].
  injection Ha as <-. rewrite Forall_forall in F. apply F, list_elem_of_In. by apply (list_elem_of_lookup_2 _ j).
Qed.
Lemma class_at p ops w id seq : logged p ops -> lexical ops -> warn_id_valid id = true ->
  pragma_class_at (set_pragmas p w) id seq = Some ((ref_run (map snd (before seq ops))).1 id).
Proof.
  intros G Lx V. unfold pragma_class_at, event_limit. cbn [pragmas set_pragmas].
  destruct (event_limit_loop_spec (events p) seq (length (events p)) 0 (length (events p))) as (n & -> & Ln & Hn); try lia.
  - by eapply lexical_events.
  - intros i ev L E. apply lookup_lt_Some in E. lia.
  - cbn [mbind option_bind]. rewrite (logged_length _ _ G) in Ln. destruct (lg_replay _ _ G n Ln) as [_ H]. fold (replay (take n (events p))).
    rewrite H by (apply valid_ids, elem_of_seq in V; unfold WARN_COUNT in *; lia). do 4 f_equal. apply before_take. intros i op Ho.
    pose proof (f_equal (lookup i) (lg_seqs _ _ G)) as Em. rewrite !list_lookup_fmap, Ho in Em. destruct (events p !! i) as [ev|] eqn:Ee; [|done].
    cbn in Em. injection Em as <-. by apply Hn.
Qed.

(** C17. Diagnostic pragmas act lexically. For any directives in the order of the
    source, the log takes all of them (its arrays have room and its order check
    does not fire), and the class of any warning at any position is what a stack
    of assignments gives after the directives up to that position: [push] saves
    all classes, [pop] restores them or, without a [push], the command line, and
    the binary search for the position ends at the last directive before it. A
    directive out of order is an internal error. *)
Theorem warn_pragma_lexical w ops : Forall valid_op ops ->
  (lexical ops -> exists p, pragma_run fresh_pragmas ops = Some p /\
     forall id seq, warn_id_valid id = true ->
       pragma_class_at (set_pragmas p w) id seq = Some ((ref_run (map snd (before seq ops))).1 id)) /\
  (forall ops1 op1 op2 ops2, ops = ops1 ++ op1 :: op2 :: ops2 -> op2.1 < op1.1 -> pragma_run fresh_pragmas ops = None).
Proof.
  intros V. split.
  - intros Lx. destruct (pragma_run_logged fresh_pragmas [] ops logged_fresh V Lx) as (p & E & G). exists p. split; [done|].
    intros id seq Vi. by apply class_at.
  - intros ops1 op1 op2 ops2 -> L. by apply unordered_refused.
Qed.
Lemma warn_pragma_lexical_witness : exists p,
  pragma_run fresh_pragmas [(1, DSet WARN_SHADOW WARN_PRAGMA_ERROR); (2, DPush); (4, DSet WARN_SHADOW WARN_PRAGMA_IGNORED); (6, DPop); (8, DPop)] = Some p /\
  pragma_class_at (set_pragmas p warn_ctx_new) WARN_SHADOW 0 = Some None /\
  pragma_class_at (set_pragmas p warn_ctx_new) WARN_SHADOW 3 = Some (Some WARN_PRAGMA_ERROR) /\
  pragma_class_at (set_pragmas p warn_ctx_new) WARN_SHADOW 5 = Some (Some WARN_PRAGMA_IGNORED) /\
  pragma_class_at (set_pragmas p warn_ctx_new) WARN_SHADOW 7 = Some (Some WARN_PRAGMA_ERROR) /\
  pragma_class_at (set_pragmas p warn_ctx_new) WARN_SHADOW 9 = Some None.
Proof.
  destruct (proj1 (warn_pragma_lexical warn_ctx_new
    [(1, DSet WARN_SHADOW WARN_PRAGMA_ERROR); (2, DPush); (4, DSet WARN_SHADOW WARN_PRAGMA_IGNORED); (6, DPop); (8, DPop)]
    ltac:(repeat constructor))) as (p & E & H).
  - unfold lexical. cbn [map fst]. repeat (apply SSorted_cons; [|repeat constructor; lia]). apply SSorted_nil.
  - exists p. split; [exact E|]. rewrite !H by reflexivity. repeat split.
Defined.

(** ** Analyses *)
(** Every class of the stack was set by a directive. *)
Lemma class_from_set ds : Forall (fun cls : Classes => forall id c, cls id = Some c -> In (DSet id c) ds) ((ref_run ds).1 :: (ref_run ds).2).
Proof.
  induction ds as [|d ds IH] using rev_ind; [by repeat constructor|].
  assert (Mono : Forall (fun cls : Classes => forall id c, cls id = Some c -> In (DSet id c) (ds ++ [d])) ((ref_run ds).1 :: (ref_run ds).2)).
  { eapply List.Forall_impl; [|exact IH]. intros cls H id c E. apply in_or_app. left. by apply H. }
  unfold ref_run. rewrite foldl_app. fold (ref_run ds). cbn [foldl]. apply Forall_cons_iff in Mono as [M1 M2]. destruct d as [| |id c]; cbn [ref_step fst snd].
  - by repeat constructor.
  - destruct (ref_run ds).2 as [|top rest]; cbn [fst snd]; [by repeat constructor|done].
  - constructor; [|done]. intros id' c'. unfold assign. destruct (Nat.eqb_spec id' id) as [->|]; [|apply M1]. intros [= ->]. apply in_or_app. right. by left.
Qed.

Lemma any_enabled_total w ids : (forall id, id ∈ ids -> exists b, warn_enabled (Some w) id no_span = Some b) ->
  exists b, any_enabled w ids = Some b /\ forall id, id ∈ ids -> warn_enabled (Some w) id no_span = Some true -> b = true.
Proof.
  induction ids as [|id ids IH]; intros H; [exists false; split; [done|]; by intros id ?%not_elem_of_nil|].
  destruct IH as (b & E & Hb); [intros id' Hi; apply H; by right|]. destruct (H id) as [on On]; [by left|]. cbn [any_enabled]. rewrite On. cbn [mbind option_bind].
  destruct on; [by exists true|]. exists b. split; [done|]. intros id' [->|Hi]%elem_of_cons; [by rewrite On|by apply Hb].
Qed.
Lemma class_total p ops w id seq pedwarn : logged p ops -> lexical ops -> warn_id_valid id = true ->
  effective_class (set_pragmas p w) id seq pedwarn = Some (
    if fsafe_required w && fsafe_required_warning id then Some DIAG_ERROR
    else match (ref_run (map snd (before seq ops))).1 id with
         | Some WARN_PRAGMA_IGNORED => None
         | Some WARN_PRAGMA_WARNING => Some DIAG_WARNING
         | Some WARN_PRAGMA_ERROR => Some DIAG_ERROR
         | None => base_class w id pedwarn
         end).
Proof. intros G Lx V. unfold effective_class. by rewrite (class_at p ops) by done. Qed.
Lemma before_start ops : Forall (fun op => 0 < op.1) ops -> before 0 ops = [].
Proof. intros F. induction F as [|op ops Fo F IH]; [done|]. cbn. by rewrite (proj2 (Z.leb_gt _ _)). Qed.
Lemma before_in op seq ops : In op (before seq ops) -> In op ops.
Proof. by intros [? _]%filter_In. Qed.

Section analysis.
  Context (w : WarnCtx) (p : Pragmas) (ops : list (Z * Directive)) (ids : list nat) (is_one : nat -> bool).
  Hypothesis Log : logged p ops.
  Hypothesis Lexical : lexical ops.
  Hypothesis Positive : Forall (fun op => 0 < op.1) ops.
  Hypothesis Ids : forall id, id ∈ ids -> warn_id_valid id = true /\ is_one id = true.

Lemma needed_sound : exists b, analysis_needed (Some (set_pragmas p w)) ids is_one = Some b /\
  forall id sp flags lvl, id ∈ ids -> emit_warning (Some (set_pragmas p w)) id sp flags false = Some (Some lvl) -> b = true.
Proof using Log Lexical Positive Ids.
  unfold analysis_needed. cbn [set_pragmas inhibit pragmas]. fold (set_pragmas p w).
  assert (On : forall id, id ∈ ids -> warn_enabled (Some (set_pragmas p w)) id no_span = Some (
    negb (inhibit w) && is_Some_b (if fsafe_required w && fsafe_required_warning id then Some DIAG_ERROR else base_class w id false))).
  { intros id [V _]%Ids. unfold warn_enabled. rewrite V. cbn [negb]. rewrite (class_total p ops) by done. cbn [mbind option_bind]. f_equal.
    change (sp_seq no_span) with 0. rewrite before_start by done. cbn [map ref_run foldl fst no_classes].
    unfold suppressed_by_origin. cbn [set_pragmas inhibit system_headers no_span sp_origin]. change (has_bits 0 ?b) with false. rewrite !andb_false_r.
    destruct (is_Some_b _), (inhibit w); done. }
  destruct (inhibit w) eqn:Ih.
  - exists false. split; [done|]. intros id sp flags lvl [V _]%Ids. unfold emit_warning. rewrite V. cbn [negb]. rewrite (class_total p ops) by done.
    cbn [mbind option_bind set_pragmas inhibit]. rewrite Ih, orb_true_r. done.
  - destruct (any_enabled_total (set_pragmas p w) ids) as (b & -> & Hb); [intros id Hi; eexists; by apply On|]. cbn [mbind option_bind]. eexists. split; [done|].
    intros id sp flags lvl Hi E. destruct b; [done|]. destruct (Ids id Hi) as [V One].
    assert (Off : is_Some_b (if fsafe_required w && fsafe_required_warning id then Some DIAG_ERROR else base_class w id false) = false).
    { destruct (is_Some_b _) eqn:Is; [|done]. specialize (Hb id Hi). rewrite On in Hb by done. rewrite Is in Hb. by specialize (Hb eq_refl). }
    unfold emit_warning in E. rewrite V in E. cbn [negb] in E. rewrite (class_total p ops) in E by done. cbn [mbind option_bind] in E.
    destruct (fsafe_required w && fsafe_required_warning id); [done|].
    destruct ((ref_run (map snd (before (sp_seq sp) ops))).1 id) as [c|] eqn:C.
    + assert (Nc : c <> WARN_PRAGMA_IGNORED) by (by intros ->).
      pose proof (class_from_set (map snd (before (sp_seq sp) ops))) as F. apply Forall_cons_iff in F as [F _]. apply F in C.
      apply in_map_iff in C as ([s d] & Ed & Hin%before_in). cbn in Ed. subst d. apply list_elem_of_In, list_elem_of_lookup in Hin as [i Hi'].
      destruct (Forall2_lookup_r _ _ _ _ _ (lg_sets _ _ Log) Hi') as (ev & Hev & Kev). unfold records_set in Kev. cbn in Kev.
      apply existsb_exists. exists ev. split; [apply list_elem_of_In; by apply (list_elem_of_lookup_2 _ i)|]. unfold event_enables. rewrite Kev. by destruct c.
    + destruct (base_class w id false); [done|]. cbn in E. done.
Qed.
End analysis.

(** C19. No analysis that could say something is skipped. For every context and
    every well-ordered sequence of pragmas at positions from 1 on, the answer of
    [warn_flow_needed], [warn_memsafe_needed] and [warn_memsafe_autofix_needed]
    is defined, and it is [true] if a warning of that analysis would be emitted
    at any place, whatever the place's pragmas and origin. *)
Theorem warn_analysis_needed w p ops ids needed is_one :
  In (ids, needed, is_one) [(flow_warnings, warn_flow_needed, is_flow_warning); (memsafe_warnings, warn_memsafe_needed, is_memsafe_warning);
    (autofix_warnings, warn_memsafe_autofix_needed, is_memsafe_autofix_warning)] ->
  Forall valid_op ops -> lexical ops -> Forall (fun op => 0 < op.1) ops -> pragma_run fresh_pragmas ops = Some p ->
  exists b, needed (Some (set_pragmas p w)) = Some b /\
    forall id sp flags lvl, In id ids -> emit_warning (Some (set_pragmas p w)) id sp flags false = Some (Some lvl) -> b = true.
Proof.
  intros Hin V Lx Pos E. destruct (pragma_run_logged fresh_pragmas [] ops logged_fresh V Lx) as (p' & E' & G). rewrite E in E'. injection E' as <-. cbn [app] in G.
  assert (K : needed = fun w => analysis_needed w ids is_one) by (by destruct Hin as [[= <- <- <-]|[[= <- <- <-]|[[= <- <- <-]|[]]]]). subst needed.
  destruct (needed_sound w p ops ids is_one G Lx Pos) as (b & Eb & Hb).
  - intros id Hi%list_elem_of_In. assert (A : forallb (fun id => warn_id_valid id && is_one id) ids = true) by (by destruct Hin as [[= <- _ <-]|[[= <- _ <-]|[[= <- _ <-]|[]]]]).
    rewrite forallb_forall in A. by apply andb_true_iff, A.
  - exists b. split; [done|]. intros id sp flags lvl Hi%list_elem_of_In. by apply Hb.
Qed.
Lemma warn_analysis_needed_witness : exists p b,
  pragma_run fresh_pragmas [(2, DSet WARN_UNREACHABLE_CODE WARN_PRAGMA_WARNING)] = Some p /\
  warn_flow_needed (Some (set_pragmas p warn_ctx_new)) = Some b /\ b = true /\
  emit_warning (Some (set_pragmas p warn_ctx_new)) WARN_UNREACHABLE_CODE (mkSpan 5 0) 0 false = Some (Some DIAG_WARNING).
Proof.
  destruct (pragma_run fresh_pragmas [(2, DSet WARN_UNREACHABLE_CODE WARN_PRAGMA_WARNING)]) as [p|] eqn:E; [|vm_compute in E; discriminate E].
  assert (Em : emit_warning (Some (set_pragmas p warn_ctx_new)) WARN_UNREACHABLE_CODE (mkSpan 5 0) 0 false = Some (Some DIAG_WARNING)).
  { vm_compute in E. injection E as <-. vm_compute. reflexivity. }
  destruct (warn_analysis_needed warn_ctx_new p [(2, DSet WARN_UNREACHABLE_CODE WARN_PRAGMA_WARNING)] flow_warnings warn_flow_needed is_flow_warning) as (b & Eb & Hb).
  - left. reflexivity.
  - repeat constructor.
  - repeat constructor.
  - repeat constructor.
  - exact E.
  - exists p, b. split; [reflexivity|]. split; [exact Eb|]. split; [|exact Em].
    apply (Hb WARN_UNREACHABLE_CODE (mkSpan 5 0) 0 DIAG_WARNING); [|exact Em]. unfold flow_warnings. cbn [In]. auto 9.
Defined.
