(* ===== verification/WarnOptions.v ===== *)
(** The two readings of a warning option, the one that classifies it for the
    driver and the one that applies it, accept the same options. *)
From Stdlib Require Import Ascii String.
From S2P Require Import Prelude.
From S2P Require Import Warn.
From S2P Require Import WarnFacts.
#[local] Open Scope Z_scope.

(** ** Strings *)
Lemma starts_spec lit s : starts lit s = true -> exists r, s = (lit ++ r)%string.
Proof.
  unfold starts. revert s. induction lit as [|c lit IH]; intros s; [by exists s|]. destruct s as [|c' s]; [done|]. cbn [String.prefix].
  destruct (ascii_dec c c') as [->|]; [|done]. intros [r ->]%IH. by exists r.
Qed.
Lemma substring_all s : substring 0 (String.length s) s = s.
Proof. induction s as [|c s IH]; [done|]. cbn. by rewrite IH. Qed.
Lemma append_length a b : String.length (a ++ b) = (String.length a + String.length b)%nat.
Proof. induction a as [|c a IH]; cbn; [done|]. by rewrite IH. Qed.
Lemma append_empty s : (s ++ "")%string = s.
Proof. induction s as [|c s IH]; cbn; [done|]. by rewrite IH. Qed.
Lemma drop_app a b : drop (String.length a) (a ++ b) = b.
Proof.
  unfold drop. rewrite append_length. replace (String.length a + String.length b - String.length a)%nat with (String.length b) by lia.
  induction a as [|c a IH]; cbn; [apply substring_all|exact IH].
Qed.
Lemma find_eq_split s i : find_eq s = Some i -> exists r, s = (substring 0 i s ++ "=" ++ r)%string.
Proof.
  unfold find_eq. revert i. induction s as [|c s IH]; intros i; [done|]. cbn [index String.prefix]. destruct (ascii_dec "=" c) as [<-|N].
  - replace (String.prefix EmptyString s) with true by (by destruct s). intros [= <-]. exists s. by destruct s.
  - destruct (index 0 "=" s) as [j|] eqn:E; [|done]. intros [= <-]. destruct (IH j eq_refl) as [r Hr]. exists r. exact (f_equal (String c) Hr).
Qed.
Lemma starts_app lit r : starts lit (lit ++ r) = true.
Proof.
  unfold starts. induction lit as [|c lit IH]; [by destruct r|]. cbn [append String.prefix]. by destruct (ascii_dec c c).
Qed.
Lemma substring_app a b : substring 0 (String.length a) (a ++ b) = a.
Proof. induction a as [|c a IH]; [by destruct b|]. cbn. by rewrite IH. Qed.
Lemma find_eq_app a r : find_eq a = None -> find_eq (a ++ "=" ++ r) = Some (String.length a).
Proof.
  unfold find_eq. induction a as [|c a IH]; [by destruct r|]. cbn [append index String.prefix String.length].
  destruct (ascii_dec "=" c); [by destruct a|]. destruct (index 0 "=" a) as [j|]; [done|]. intros _. change (String "=" r) with ("=" ++ r)%string. by rewrite IH.
Qed.
Lemma strip_plain p : starts "-W" p = false -> strip_w p = p.
Proof. intros H. unfold strip_w. by rewrite H. Qed.
(** What a name was read from. *)
Lemma normalized_shape p name neg : starts "-W" p = false -> normalized_name p 128 = Some (name, neg) ->
  exists tail, p = ((if neg then "no-" else "") ++ name ++ tail)%string /\ (tail = ""%string \/ exists r, tail = ("=" ++ r)%string).
Proof.
  intros W. unfold normalized_name. rewrite strip_plain by done. cbv zeta.
  set (p' := if starts "no-" p then drop 3 p else p).
  assert (Ep : p = ((if starts "no-" p then "no-" else "") ++ p')%string).
  { unfold p'. destruct (starts "no-" p) eqn:S; [|done]. apply starts_spec in S as [r ->]. by rewrite (drop_app "no-"). }
  destruct (_ || _); [done|]. intros [= En <-]. subst name. destruct (find_eq p') as [i|] eqn:F.
  - destruct (find_eq_split _ _ F) as [r Hr]. exists ("=" ++ r)%string. split; [|right; by exists r]. by rewrite <- Hr.
  - exists ""%string. split; [|by left]. rewrite substring_all. by rewrite append_empty.
Qed.

(** ** Options the two read differently *)
(** [None] when the option is not a promotion. *)
Definition promoted_part (p : string) : option string :=
  if starts "error=" p then Some (drop 6 p) else if starts "no-error=" p then Some (drop 9 p) else None.
Definition irregular_promotion (q : string) : bool :=
  starts "-W" q ||
  ((group_for_name q =? WG_NONE) && match normalized_name q 128 with Some (name, _) => negb (group_for_name name =? WG_NONE) | None => false end).
(** The internal option of the driver, a second [-W], an argument of
    [fatal-errors], and a group promoted with a [no-] or an argument. *)
Definition irregular (arg : string) : bool :=
  let p := strip_w arg in
  String.eqb arg WARN_FSAFE_REQUIRED_OPTION || starts "-W" p ||
  match promoted_part p with
  | Some q => irregular_promotion q
  | None => match normalized_name p 128 with Some (name, _) => String.eqb name "fatal-errors" && is_Some_b (find_eq p) | None => false end
  end.

(** An option name with an argument. *)
Lemma normalized_argument (neg : bool) name r :
  (forall s, starts "-W" ((if neg then "no-" else "") ++ name ++ s) = false) -> (forall s, starts "no-" (name ++ s) = false) -> find_eq name = None ->
  (0 < String.length name < 128)%nat -> normalized_name ((if neg then "no-" else "") ++ name ++ "=" ++ r) 128 = Some (name, neg).
Proof.
  intros W N F L. unfold normalized_name. rewrite strip_plain by apply W. cbv zeta. destruct neg.
  - rewrite (starts_app "no-"), (drop_app "no-"), find_eq_app by done. rewrite (proj2 (Nat.eqb_neq _ _)), (proj2 (Nat.leb_gt _ _)) by lia. by rewrite substring_app.
  - change ("" ++ ?x)%string with x. rewrite N, find_eq_app by done. rewrite (proj2 (Nat.eqb_neq _ _)), (proj2 (Nat.leb_gt _ _)) by lia. by rewrite substring_app.
Qed.
Lemma normalized_fallthrough (neg : bool) r : normalized_name ((if neg then "no-" else "") ++ "implicit-fallthrough" ++ "=" ++ r) 128 = Some ("implicit-fallthrough"%string, neg).
Proof. by apply normalized_argument; [destruct neg| | |cbn; lia]. Qed.
Lemma fallthrough_bad q : implicit_fallthrough_option_level q = -1 ->
  exists neg, normalized_name q 128 = Some ("implicit-fallthrough"%string, neg).
Proof.
  unfold implicit_fallthrough_option_level. destruct (String.eqb q "implicit-fallthrough"); [done|].
  destruct (String.eqb q "no-implicit-fallthrough"); [done|]. destruct (starts "no-implicit-fallthrough=" q) eqn:S1.
  - intros _. apply starts_spec in S1 as [r ->]. exists true. apply (normalized_fallthrough true).
  - destruct (starts "implicit-fallthrough=" q) eqn:S2; cbn [negb]; [|done]. intros _. apply starts_spec in S2 as [r ->]. exists false. apply (normalized_fallthrough false).
Qed.
Lemma fallthrough_good q neg : starts "-W" q = false -> normalized_name q 128 = Some ("implicit-fallthrough"%string, neg) ->
  implicit_fallthrough_option_level q <> -2.
Proof.
  intros W N. destruct (normalized_shape _ _ _ W N) as (tail & -> & [->|[r ->]]); destruct neg; [done|done| |].
  - set (s := ("no-" ++ "implicit-fallthrough" ++ "=" ++ r)%string). assert (St : starts "no-implicit-fallthrough=" s = true) by apply (starts_app "no-implicit-fallthrough=").
    unfold implicit_fallthrough_option_level. change (String.eqb s "implicit-fallthrough") with false. change (String.eqb s "no-implicit-fallthrough") with false. by rewrite St.
  - set (s := ("" ++ "implicit-fallthrough" ++ "=" ++ r)%string). assert (St : starts "implicit-fallthrough=" s = true) by apply (starts_app "implicit-fallthrough=").
    unfold implicit_fallthrough_option_level. change (String.eqb s "implicit-fallthrough") with false. change (String.eqb s "no-implicit-fallthrough") with false.
    change (starts "no-implicit-fallthrough=" s) with false. rewrite St. cbn [negb].
    destruct (48 <=? byte_at s 21) eqn:B; cbn [andb]; [|done]. apply Z.leb_le in B. repeat case_match; lia.
Qed.
(** The names of groups are plain names. *)
Lemma group_plain q : group_for_name q <> WG_NONE -> normalized_name q 128 = Some (q, false).
Proof.
  unfold group_for_name. destruct (List.find _ _) as [g|] eqn:F; [|done]. intros _. apply List.find_some in F as [Hg E%String.eqb_eq]. subst q.
  assert (A : forallb (fun g : string * Z => match normalized_name g.1 128 with Some (n, false) => String.eqb n g.1 | _ => false end) group_names = true) by (vm_compute; reflexivity).
  rewrite forallb_forall in A. apply A in Hg. destruct (normalized_name g.1 128) as [[n []]|]; [done| |done]. by apply String.eqb_eq in Hg as ->.
Qed.

Lemma promotion_agrees w q demote : format_option_level q = -2 -> bad_format_subflag_parameter q = false -> irregular_promotion q = false ->
  (parse_named_error w q demote).2 = match classify_promotion q with WARN_OPTION_KNOWN => true | _ => false end.
Proof.
  intros L B Ir. apply orb_false_iff in Ir as [W Ir]. unfold classify_promotion. rewrite L, B. change (-2 =? -2) with true. cbn [negb].
  unfold parse_named_error. destruct (normalized_name q 128) as [[name neg]|] eqn:N.
  - destruct (Z.eqb_spec (implicit_fallthrough_option_level q) (-1)) as [Lf|Lf].
    + destruct (fallthrough_bad q Lf) as [neg' N']. rewrite N in N'. injection N' as -> <-. rewrite (proj2 flag_of_fallthrough). change (WG_NONE =? WG_NONE) with true. cbn [negb].
      destruct (info_for_flag _ _ _ N) as [(id & V & Ef & ->)|[_ ->]]; [|done]. rewrite (row_id id V).
      assert (id = WARN_IMPLICIT_FALLTHROUGH) as -> by (apply flag_inj; [done|done|by rewrite Ef, (proj1 flag_of_fallthrough)]).
      rewrite Nat.eqb_refl, Lf. done.
    + destruct (Z.eqb_spec (group_for_name name) WG_NONE) as [Gn|Gn]; cbn [negb].
      * assert (group_for_name q = WG_NONE) as ->.
        { destruct (Z.eqb_spec (group_for_name q) WG_NONE) as [|Gq]; [done|]. pose proof (group_plain q Gq) as P. rewrite N in P. by injection P as -> ->. }
        change (WG_NONE =? WG_NONE) with true. cbn [negb orb].
        destruct (info_for_flag _ _ _ N) as [(id & V & Ef & ->)|[_ ->]]; [|done]. rewrite (row_id id V). cbn [is_Some_b].
        assert (F : ((id =? WARN_IMPLICIT_FALLTHROUGH)%nat && (implicit_fallthrough_option_level q <? 0)) = false).
        { destruct (Nat.eqb_spec id WARN_IMPLICIT_FALLTHROUGH) as [->|]; [|done]. cbn [andb]. rewrite (proj1 flag_of_fallthrough) in Ef. subst name.
          pose proof (fallthrough_good q neg W N). apply Z.ltb_ge. unfold implicit_fallthrough_option_level in *. repeat case_match; lia. }
        rewrite F. repeat case_match; done.
      * cbn [negb] in Ir. rewrite andb_true_r in Ir. rewrite Ir. cbn [negb orb]. done.
  - assert (implicit_fallthrough_option_level q <> -1) as Lf by (intros [neg' N']%fallthrough_bad; by rewrite N in N').
    rewrite (proj2 (Z.eqb_neq _ _) Lf). unfold warn_info_for_flag. rewrite N. cbn [mbind option_bind is_Some_b]. rewrite orb_false_r.
    destruct (Z.eqb_spec (group_for_name q) WG_NONE) as [Gq|Gq]; [done|]. apply group_plain in Gq. by rewrite N in Gq.
Qed.
Lemma level_answers p : format_option_level p = -2 \/ format_option_level p = -1 \/ 0 <= format_option_level p.
Proof. unfold format_option_level. repeat case_match; lia. Qed.
Lemma error_agrees w q (demote : bool) : irregular_promotion q = false ->
  (if demote then flag_no_error w q else flag_error w q).2 = match classify_promotion q with WARN_OPTION_KNOWN => true | _ => false end.
Proof.
  intros Ir. destruct (Z.eqb_spec (format_option_level q) (-2)) as [E|N].
  - destruct (bad_format_subflag_parameter q) eqn:B.
    + unfold flag_no_error, flag_error, classify_promotion. rewrite E, B. change (-2 =? -2) with true. cbn [negb]. by destruct demote, (_ =? _).
    + unfold flag_no_error, flag_error. rewrite E, B. change (-2 =? -2) with true. cbn [negb]. by destruct demote; apply promotion_agrees.
  - unfold flag_no_error, flag_error, classify_promotion. rewrite (proj2 (Z.eqb_neq _ _) N). cbn [negb].
    destruct (Z.ltb_spec (format_option_level q) 0) as [L|L]; [rewrite (proj2 (Z.leb_gt _ _)) by done|rewrite (proj2 (Z.leb_le _ _)) by done]; by destruct demote.
Qed.
Lemma normalized_strip arg : starts "-W" (strip_w arg) = false -> normalized_name arg 128 = normalized_name (strip_w arg) 128.
Proof. intros W. unfold normalized_name. by rewrite (strip_plain (strip_w arg) W). Qed.
Lemma name_agrees w arg p : p = strip_w arg -> starts "-W" p = false -> p <> "error"%string -> p <> "no-error"%string ->
  p <> "fatal-errors"%string -> p <> "no-fatal-errors"%string -> starts "error=" p = false -> starts "no-error=" p = false ->
  match normalized_name p 128 with Some (name, _) => String.eqb name "fatal-errors" && is_Some_b (find_eq p) | None => false end = false ->
  (flag_name w p).2 = match classify_name arg p with WARN_OPTION_KNOWN => true | _ => false end.
Proof.
  intros Ep W N1 N2 N3 N4 S1 S2 Ir. unfold flag_name, classify_name.
  rewrite (normalized_strip arg) by (by rewrite <- Ep). rewrite <- Ep.
  destruct (normalized_name p 128) as [[name neg]|] eqn:N; [|done]. destruct (bad_format_subflag_parameter p); [by destruct neg|].
  destruct (normalized_shape _ _ _ W N) as (tail & Es & Tail).
  assert (Ne : name <> "error"%string).
  { intros ->. destruct Tail as [->|[r ->]], neg; [by apply N2|by apply N1| |].
    - rewrite Es in S2. pose proof (starts_app "no-error=" r) as X. change (starts "no-error=" ("no-error=" ++ r) = false) in S2. congruence.
    - rewrite Es in S1. pose proof (starts_app "error=" r) as X. change (starts "error=" ("error=" ++ r) = false) in S1. congruence. }
  assert (Nf : name <> "fatal-errors"%string).
  { intros ->. destruct Tail as [->|[r ->]]; [by destruct neg; [apply N4|apply N3]|]. cbn [String.eqb Ascii.eqb Bool.eqb andb] in Ir.
    rewrite Es in Ir. destruct neg.
    - change (is_Some_b (find_eq ("no-fatal-errors" ++ "=" ++ r)) = false) in Ir. by rewrite find_eq_app in Ir.
    - change (is_Some_b (find_eq ("fatal-errors" ++ "=" ++ r)) = false) in Ir. by rewrite find_eq_app in Ir. }
  rewrite (proj2 (String.eqb_neq _ _) Ne), (proj2 (String.eqb_neq _ _) Nf). cbn [orb].
  destruct (String.eqb name "system-headers"); [done|]. destruct (group_for_name name =? WG_NONE); cbn [negb orb]; [|done].
  destruct (warn_info_for_flag name) as [info|]; cbn [is_Some_b]; [done|by destruct neg].
Qed.

(** C24. What the driver calls a known option is what the policy applies. For
    every option but the irregular ones ([-W] twice, [fatal-errors] with an
    argument, a group promoted with a [no-] or an argument, and the driver's own
    internal option), [warn_flag] accepts it if and only if
    [warn_option_classify] answers [WARN_OPTION_KNOWN]; so no such option is
    silently dropped after it passed, nor applied after it was reported. *)
Theorem warn_options_agree w arg : irregular arg = false -> (warn_flag w arg).2 = warn_option_known (Some arg).
Proof.
  unfold irregular. cbv zeta. intros [[I0 W]%orb_false_iff Ir]%orb_false_iff. set (p := strip_w arg) in *.
  unfold warn_option_known, warn_option_classify, is_driver_word, warn_flag. rewrite I0.
  destruct (String.eqb arg "-w"), (String.eqb arg "w"), (String.eqb arg "-pedantic"), (String.eqb arg "pedantic"), (String.eqb arg "-pedantic-errors"), (String.eqb arg "pedantic-errors");
    cbn [orb]; try done. cbv zeta. fold p.
  destruct (level_answers p) as [E|[E|E]]; [rewrite E|rewrite E; done|].
  2: { rewrite (proj2 (Z.eqb_neq _ (-1))), (proj2 (Z.eqb_neq _ (-2))), (proj2 (Z.leb_le 0 _)) by lia. done. }
  change (-2 =? -1) with false. change (0 <=? -2) with false. change (-2 =? -2) with true. cbn [negb].
  assert (Fl : implicit_fallthrough_option_level p = -2 \/ implicit_fallthrough_option_level p = -1 \/ 0 <= implicit_fallthrough_option_level p)
    by (unfold implicit_fallthrough_option_level; repeat case_match; lia).
  destruct Fl as [F|[F|F]]; [rewrite F|rewrite F; done|].
  2: { rewrite (proj2 (Z.eqb_neq _ (-1))), (proj2 (Z.eqb_neq _ (-2))), (proj2 (Z.leb_le 0 _)) by lia. done. }
  change (-2 =? -1) with false. change (0 <=? -2) with false. change (-2 =? -2) with true. cbn [negb].
  assert (Fm : maybe_uninitialized_option_mode p = -2 \/ maybe_uninitialized_option_mode p = -1 \/ 0 <= maybe_uninitialized_option_mode p)
    by (unfold maybe_uninitialized_option_mode; repeat case_match; lia).
  destruct Fm as [M|[M|M]]; [rewrite M|rewrite M; done|].
  2: { rewrite (proj2 (Z.eqb_neq _ (-1))), (proj2 (Z.eqb_neq _ (-2))), (proj2 (Z.leb_le 0 _)) by lia. done. }
  change (-2 =? -1) with false. change (0 <=? -2) with false. change (-2 =? -2) with true. cbn [negb].
  unfold promoted_part in Ir.
  destruct (String.eqb_spec p "error") as [P1|N1]; [unfold classify_name; rewrite (normalized_strip arg) by done; fold p; by rewrite P1|].
  destruct (String.eqb_spec p "no-error") as [P2|N2]; [unfold classify_name; rewrite (normalized_strip arg) by done; fold p; by rewrite P2|].
  destruct (String.eqb_spec p "fatal-errors") as [P3|N3]; [unfold classify_name; rewrite (normalized_strip arg) by done; fold p; by rewrite P3|].
  destruct (String.eqb_spec p "no-fatal-errors") as [P4|N4]; [unfold classify_name; rewrite (normalized_strip arg) by done; fold p; by rewrite P4|].
  cbn [orb]. destruct (starts "error=" p) eqn:S1; [by apply (error_agrees w _ false)|]. destruct (starts "no-error=" p) eqn:S2; [by apply (error_agrees w _ true)|].
  by apply name_agrees.
Qed.
Lemma warn_options_agree_witness :
  (warn_flag warn_ctx_new "-Wno-error=implicit-fallthrough=4").2 = true /\ (warn_flag warn_ctx_new "no-frobnicate").2 = false /\
  (warn_flag warn_ctx_new "error=mem").2 = true.
Proof.
  split; [|split].
  - rewrite (warn_options_agree warn_ctx_new "-Wno-error=implicit-fallthrough=4"); vm_compute; reflexivity.
  - rewrite (warn_options_agree warn_ctx_new "no-frobnicate"); vm_compute; reflexivity.
  - rewrite (warn_options_agree warn_ctx_new "error=mem"); vm_compute; reflexivity.
Defined.

(** The exceptions are real. *)
Example promoted_no_group : warn_option_known (Some "error=no-extra"%string) = false /\ (warn_flag warn_ctx_new "error=no-extra").2 = true.
Proof. vm_compute. split; reflexivity. Qed.
Example fatal_errors_argument : warn_option_known (Some "fatal-errors=3"%string) = true /\ (warn_flag warn_ctx_new "fatal-errors=3").2 = false.
Proof. vm_compute. split; reflexivity. Qed.
(** [-Werror=no-x] promotes [x], which [-Wno-x] would turn off. *)
Example promoted_no_warning : warn_option_known (Some "error=no-shadow"%string) = true /\
  base_class (driver_warn_ctx false ["error=no-shadow"%string]) WARN_SHADOW false = Some DIAG_ERROR.
Proof. vm_compute. split; reflexivity. Qed.
