(* ===== verification/Scope.v ===== *)
(** [src/sema/scope.c]: scopes and the symbols declared in them. A scope keeps
    its symbols in two intrusive lists, newest first, for the tags and for all
    other names, and a pointer map from the interned name to the newest symbol
    of each. Scopes and symbols are arena objects: a scope is its index, a
    symbol its address, from 1 on; [NULL] is 0. The name of a symbol is the
    address of an interned string. [None] is [CGF_ICE], a walk that does not end
    or an access out of bounds. *)
From Stdlib Require Import String Sorted.
From stdpp Require Import gmap.
From S2P Require Import Prelude.
From S2P Require Import MapSpec.
From S2P Require Import Ptrmap.
From S2P Require Import Warn.
From S2P Require Import WarnFacts.
From S2P Require Import WarnPragma.
#[local] Open Scope Z_scope.

Inductive ScopeKind := SCOPE_FILE | SCOPE_BLOCK | SCOPE_PROTO | SCOPE_FUNC.
Inductive SymKind := SYM_VAR | SYM_FUNC | SYM_TYPEDEF | SYM_ENUM_CONST | SYM_TAG.
Inductive Namespace := NS_ORDINARY | NS_TAG | NS_LABEL.
Inductive Linkage := LINK_NONE | LINK_INTERNAL | LINK_EXTERNAL.

(** What scope.c reads of a symbol, but for the link to the next one. *)
Record SymInfo := mkInfo {
  sym_name : Z; sym_kind : SymKind; sym_ns : Namespace; sym_linkage : Linkage; sym_span : Span;
  sym_is_param : bool; sym_reads : Z; sym_writes : Z;
}.
Record Symbol := mkSymbol { sym_info : SymInfo; sym_next : Z }.
Record Scope := mkScope {
  sc_kind : ScopeKind;
  sc_ordinary : Z; sc_tags : Z;
  sc_ordinary_index : Ptrmap (V := Z); sc_tag_index : Ptrmap (V := Z);
  sc_parent : option nat;
}.
(** What was passed to the diagnostics, with the symbol it is about. *)
Inductive Diag := DWarning (id : nat) (level : DiagLevel) (sym : Z) | DNote (sym : Z).
Record Sema := mkSema {
  se_scopes : list Scope; se_scope : option nat;
  se_syms : list Symbol;
  se_warnings : option WarnCtx;
  se_diags : list Diag;
}.
Definition with_scope (s : Sema) (cur : option nat) : Sema := mkSema (se_scopes s) cur (se_syms s) (se_warnings s) (se_diags s).
Definition with_diags (s : Sema) (ds : list Diag) : Sema := mkSema (se_scopes s) (se_scope s) (se_syms s) (se_warnings s) (se_diags s ++ ds).
Definition with_syms (s : Sema) (syms : list Symbol) : Sema := mkSema (se_scopes s) (se_scope s) syms (se_warnings s) (se_diags s).

Definition sym_at (s : Sema) (p : Z) : option Symbol := if p <=? 0 then None else se_syms s !! Z.to_nat (p - 1).
Definition is_tag (ns : Namespace) : bool := match ns with NS_TAG => true | _ => false end.
Definition is_object (k : SymKind) : bool := match k with SYM_VAR | SYM_FUNC => true | _ => false end.
(** Not the file and not a parameter list. *)
Definition is_inner (k : ScopeKind) : bool := match k with SCOPE_FILE | SCOPE_PROTO => false | _ => true end.

Definition scope_push (s : Sema) (k : ScopeKind) : Sema :=
  mkSema (se_scopes s ++ [mkScope k 0 0 ptrmap_init ptrmap_init (se_scope s)]) (Some (length (se_scopes s))) (se_syms s) (se_warnings s) (se_diags s).
Definition sema_init (warnings : option WarnCtx) : Sema := scope_push (mkSema [] None [] warnings []) SCOPE_FILE.

(** The symbols of a list. *)
Fixpoint chain (s : Sema) (p : Z) (fuel : nat) : option (list (Z * SymInfo)) :=
  if p =? 0 then Some []
  else
    match fuel with
    | O => None
    | S fuel => sym ← sym_at s p; rest ← chain s (sym_next sym) fuel; Some ((p, sym_info sym) :: rest)
    end.
(** What an unread local variable is reported as. *)
Definition unused_warning (sym : SymInfo) : option nat :=
  match sym_kind sym, sym_linkage sym with
  | SYM_VAR, LINK_NONE =>
    if negb (sym_reads sym =? 0) then None
    else if sym_is_param sym then Some (if negb (sym_writes sym =? 0) then WARN_UNUSED_BUT_SET_PARAMETER else WARN_UNUSED_PARAMETER)
    else Some (if negb (sym_writes sym =? 0) then WARN_UNUSED_BUT_SET_VARIABLE else WARN_UNUSED_VARIABLE)
  | _, _ => None
  end.
Definition report (w : option WarnCtx) (id : nat) (p : Z) (sym : SymInfo) : option (list Diag) :=
  level ← warn_at_ex w id (sym_span sym) WARN_SUPPRESS_IN_MACRO;
  Some (match level with Some level => [DWarning id level p] | None => [] end).
Fixpoint report_unused (w : option WarnCtx) (ordered : list (Z * SymInfo)) : option (list Diag) :=
  match ordered with
  | [] => Some []
  | (p, sym) :: ordered =>
    ds ← match unused_warning sym with Some id => report w id p sym | None => Some [] end;
    rest ← report_unused w ordered;
    Some (ds ++ rest)
  end.
Definition scope_pop (s : Sema) : option Sema :=
  cur ← se_scope s;
  sc ← se_scopes s !! cur;
  ds ← (if is_inner (sc_kind sc) then
          syms ← chain s (sc_ordinary sc) (length (se_syms s));
          let n := u32 (Z.of_nat (length syms)) in
          if n =? 0 then Some []
          else if n <? Z.of_nat (length syms) then None
          else report_unused (se_warnings s) (rev syms)
        else Some []);
  Some (with_scope (with_diags s ds) (sc_parent sc)).

Definition scope_lookup_local (s : Sema) (cur : option nat) (name : Z) (ns : Namespace) : option Z :=
  match cur with
  | None => Some 0
  | Some cur =>
    if name =? 0 then Some 0
    else
      sc ← se_scopes s !! cur;
      ptrmap_get 0 (if is_tag ns then sc_tag_index sc else sc_ordinary_index sc) name
  end.
Fixpoint scope_lookup_loop (s : Sema) (cur : option nat) (name : Z) (ns : Namespace) (fuel : nat) : option Z :=
  match cur with
  | None => Some 0
  | Some i =>
    match fuel with
    | O => None
    | S fuel =>
      sym ← scope_lookup_local s cur name ns;
      if negb (sym =? 0) then Some sym
      else sc ← se_scopes s !! i; scope_lookup_loop s (sc_parent sc) name ns fuel
    end
  end.
Definition scope_lookup (s : Sema) (cur : option nat) (name : Z) (ns : Namespace) : option Z :=
  scope_lookup_loop s cur name ns (length (se_scopes s)).

Definition sym_new (s : Sema) (name : Z) (kind : SymKind) (ns : Namespace) (span : Span) : Sema * Z :=
  (with_syms s (se_syms s ++ [mkSymbol (mkInfo name kind ns LINK_NONE span false 0 0) 0]), Z.of_nat (length (se_syms s)) + 1).

(** The declaration that [sym] hides, if it is an object of an inner scope. *)
Definition declare_outer (s : Sema) (sc : Scope) (sym : SymInfo) : option Z :=
  if is_inner (sc_kind sc) && is_object (sym_kind sym) then scope_lookup s (sc_parent sc) (sym_name sym) (sym_ns sym) else Some 0.
Definition shadow_diags (w : option WarnCtx) (p : Z) (sym : SymInfo) (outer : Z) (outer_sym : SymInfo) : option (list Diag) :=
  if is_object (sym_kind outer_sym) && negb (has_bits (sp_origin (sym_span sym)) SPAN_ORIGIN_ANY_MACRO) then
    on ← warn_enabled w WARN_SHADOW (sym_span sym);
    if (on : bool) then ds ← report w WARN_SHADOW p sym; Some (ds ++ [DNote outer]) else Some []
  else Some [].
Definition declare_shadow (s : Sema) (sc : Scope) (p : Z) (sym : SymInfo) : option (list Diag) :=
  outer ← declare_outer s sc sym;
  if outer =? 0 then Some []
  else outer_sym ← sym_at s outer; shadow_diags (se_warnings s) p sym outer (sym_info outer_sym).
(** The map of the names of one namespace. *)
Definition declare_index (index : Ptrmap (V := Z)) (name p : Z) : option (Ptrmap (V := Z)) :=
  if name =? 0 then Some index else '(index, _) ← ptrmap_put 0 index name p; Some index.
Definition scope_declare (s : Sema) (p : Z) : option Sema :=
  cur ← se_scope s;
  sc ← se_scopes s !! cur;
  sym ← sym_at s p;
  let info := sym_info sym in
  ds ← declare_shadow s sc p info;
  let link next := <[Z.to_nat (p - 1) := mkSymbol info next]> (se_syms s) in
  if is_tag (sym_ns info) then
    index ← declare_index (sc_tag_index sc) (sym_name info) p;
    Some (mkSema (<[cur := mkScope (sc_kind sc) (sc_ordinary sc) p (sc_ordinary_index sc) index (sc_parent sc)]> (se_scopes s)) (se_scope s)
            (link (sc_tags sc)) (se_warnings s) (se_diags s ++ ds))
  else
    index ← declare_index (sc_ordinary_index sc) (sym_name info) p;
    Some (mkSema (<[cur := mkScope (sc_kind sc) p (sc_tags sc) index (sc_tag_index sc) (sc_parent sc)]> (se_scopes s)) (se_scope s)
            (link (sc_ordinary sc)) (se_warnings s) (se_diags s ++ ds)).

(** What the analysis of declarations and expressions does to a symbol: its
    linkage and kind of object before it is declared, its uses after. *)
Definition set_info (s : Sema) (p : Z) (f : SymInfo -> SymInfo) : Sema :=
  match sym_at s p with Some sym => with_syms s (<[Z.to_nat (p - 1) := mkSymbol (f (sym_info sym)) (sym_next sym)]> (se_syms s)) | None => s end.
Definition set_declared (linkage : Linkage) (is_param : bool) (i : SymInfo) : SymInfo :=
  mkInfo (sym_name i) (sym_kind i) (sym_ns i) linkage (sym_span i) is_param (sym_reads i) (sym_writes i).
Definition set_uses (reads writes : Z) (i : SymInfo) : SymInfo :=
  mkInfo (sym_name i) (sym_kind i) (sym_ns i) (sym_linkage i) (sym_span i) (sym_is_param i) reads writes.

Inductive ScopeOp :=
  | OPush (k : ScopeKind)
  | OPop
  | ODeclare (name : Z) (kind : SymKind) (ns : Namespace) (linkage : Linkage) (is_param : bool) (span : Span)
  | OUses (sym reads writes : Z).
Definition scope_step (s : Sema) (op : ScopeOp) : option Sema :=
  match op with
  | OPush k => Some (scope_push s k)
  | OPop => scope_pop s
  | ODeclare name kind ns linkage is_param span =>
    let '(s, p) := sym_new s name kind ns span in scope_declare (set_info s p (set_declared linkage is_param)) p
  | OUses p reads writes => Some (set_info s p (set_uses reads writes))
  end.
Fixpoint scope_run (s : Sema) (ops : list ScopeOp) : option Sema :=
  match ops with [] => Some s | op :: ops => s ← scope_step s op; scope_run s ops end.

(** The scopes refine a stack of lists of declarations: a lookup gives the newest
    declaration of the innermost scope that has one, and leaving a scope reports
    its unread local variables in the order of their declarations. *)

(** ** The reference *)
(** A scope is its kind and its declarations, newest first. *)
Record Frame := mkFrame { fr_kind : ScopeKind; fr_decls : list Z }.
Record RefSema := mkRef { rf_stack : list Frame; rf_infos : list SymInfo; rf_diags : list Diag }.
Definition info_of (infos : list SymInfo) (p : Z) : SymInfo :=
  default (mkInfo 0 SYM_VAR NS_ORDINARY LINK_NONE (mkSpan 0 0) false 0 0) (infos !! Z.to_nat (p - 1)).
Definition in_space (infos : list SymInfo) (tag : bool) (p : Z) : bool := Bool.eqb (is_tag (sym_ns (info_of infos p))) tag.
Definition is_named (infos : list SymInfo) (name : Z) (p : Z) : bool := sym_name (info_of infos p) =? name.
Definition space (infos : list SymInfo) (tag : bool) (f : Frame) : list Z := List.filter (in_space infos tag) (fr_decls f).
(** The first declaration of the name; 0 when there is none. *)
Definition ref_local (infos : list SymInfo) (f : Frame) (name : Z) (tag : bool) : Z :=
  default 0 (List.find (is_named infos name) (space infos tag f)).
Definition ref_lookup (infos : list SymInfo) (stack : list Frame) (name : Z) (tag : bool) : Z :=
  if name =? 0 then 0 else default 0 (List.find (is_named infos name) (flat_map (space infos tag) stack)).

Definition ref_shadow (w : option WarnCtx) (infos : list SymInfo) (f : Frame) (rest : list Frame) (p : Z) : option (list Diag) :=
  let sym := info_of infos p in
  let outer := if is_inner (fr_kind f) && is_object (sym_kind sym) then ref_lookup infos rest (sym_name sym) (is_tag (sym_ns sym)) else 0 in
  if outer =? 0 then Some [] else shadow_diags w p sym outer (info_of infos outer).
Definition ref_report (w : option WarnCtx) (infos : list SymInfo) (f : Frame) : option (list Diag) :=
  if is_inner (fr_kind f) then report_unused w (rev (map (fun p => (p, info_of infos p)) (space infos false f))) else Some [].
Definition ref_step (w : option WarnCtx) (r : RefSema) (op : ScopeOp) : option RefSema :=
  match op with
  | OPush k => Some (mkRef (mkFrame k [] :: rf_stack r) (rf_infos r) (rf_diags r))
  | OPop =>
    match rf_stack r with
    | [] => None
    | f :: rest => ds ← ref_report w (rf_infos r) f; Some (mkRef rest (rf_infos r) (rf_diags r ++ ds))
    end
  | ODeclare name kind ns linkage is_param span =>
    match rf_stack r with
    | [] => None
    | f :: rest =>
      let infos := rf_infos r ++ [mkInfo name kind ns linkage span is_param 0 0] in
      let p := Z.of_nat (length (rf_infos r)) + 1 in
      ds ← ref_shadow w infos f rest p;
      Some (mkRef (mkFrame (fr_kind f) (p :: fr_decls f) :: rest) infos (rf_diags r ++ ds))
    end
  | OUses p reads writes =>
    Some (mkRef (rf_stack r) (if p <=? 0 then rf_infos r else alter (set_uses reads writes) (Z.to_nat (p - 1)) (rf_infos r)) (rf_diags r))
  end.
Definition ref_init : RefSema := mkRef [mkFrame SCOPE_FILE []] [] [].

(** ** The representation *)
#[local] Notation "'laws'" := (ptrmap_laws (V := Z) 0).
#[local] Notation "'index_ok'" := (map_ok (MapLaws := laws)).
#[local] Notation "'index_of'" := (contents (MapLaws := laws)).

(** An intrusive list, newest first: addresses fall along it. *)
Inductive linked (nexts : list Z) : Z -> list Z -> Prop :=
  | linked_nil : linked nexts 0 []
  | linked_cons p q ps : 0 < p -> nexts !! Z.to_nat (p - 1) = Some q -> q < p -> linked nexts q ps -> linked nexts p (p :: ps).
Lemma linked_app nexts more p ps : linked nexts p ps -> linked (nexts ++ more) p ps.
Proof.
  induction 1 as [|p q ps P E L H IH]; [constructor|]. apply (linked_cons _ p q); [done| |done|done].
  rewrite lookup_app_l; [done|]. by eapply lookup_lt_Some.
Qed.
Lemma linked_bound nexts p ps : linked nexts p ps -> 0 <= p /\ p <= Z.of_nat (length nexts) /\ Z.of_nat (length ps) <= p /\ Forall (fun q => 0 < q <= p) ps.
Proof.
  induction 1 as [|p q ps P E L H (B1 & B2 & B3 & B4)]; [split_and!; [lia|lia|cbn; lia|constructor]|]. apply lookup_lt_Some in E. cbn [length].
  split; [lia|]. split; [lia|]. split; [lia|]. constructor; [lia|]. eapply List.Forall_impl; [|exact B4]. cbn. lia.
Qed.

(** The map of the names of a list. *)
Record indexed (infos : list SymInfo) (index : Ptrmap (V := Z)) (ps : list Z) : Prop := {
  in_ok : index_ok index;
  in_find name : 0 < name -> index_of index !! name = List.find (is_named infos name) ps;
  in_size : (size (index_of index) <= length ps)%nat;
}.
Record frame_rel (nexts : list Z) (infos : list SymInfo) (sc : Scope) (f : Frame) : Prop := {
  fr_same : sc_kind sc = fr_kind f;
  fr_ordinary : linked nexts (sc_ordinary sc) (space infos false f);
  fr_tags : linked nexts (sc_tags sc) (space infos true f);
  fr_ordinary_index : indexed infos (sc_ordinary_index sc) (space infos false f);
  fr_tag_index : indexed infos (sc_tag_index sc) (space infos true f);
  fr_known : Forall (fun p => 0 < p <= Z.of_nat (length infos)) (fr_decls f);
}.
Inductive stack_rel (scopes : list Scope) (nexts : list Z) (infos : list SymInfo) : option nat -> list Frame -> Prop :=
  | stack_nil : stack_rel scopes nexts infos None []
  | stack_cons i sc f rest : scopes !! i = Some sc -> frame_rel nexts infos sc f -> (forall j, sc_parent sc = Some j -> (j < i)%nat) ->
      stack_rel scopes nexts infos (sc_parent sc) rest -> stack_rel scopes nexts infos (Some i) (f :: rest).
Record refines (w : option WarnCtx) (s : Sema) (r : RefSema) : Prop := {
  rr_warnings : se_warnings s = w;
  rr_infos : map sym_info (se_syms s) = rf_infos r;
  rr_diags : se_diags s = rf_diags r;
  rr_stack : stack_rel (se_scopes s) (map sym_next (se_syms s)) (rf_infos r) (se_scope s) (rf_stack r);
}.

(** ** Stability *)
Lemma sym_at_info s r w p : refines w s r -> 0 < p <= Z.of_nat (length (rf_infos r)) ->
  exists sym, sym_at s p = Some sym /\ sym_info sym = info_of (rf_infos r) p.
Proof.
  intros R P. unfold sym_at, info_of. rewrite (proj2 (Z.leb_gt _ _)) by lia. rewrite <- (rr_infos _ _ _ R) in *. rewrite length_map in P.
  destruct (lookup_lt_is_Some_2 (se_syms s) (Z.to_nat (p - 1))) as [sym E]; [lia|]. exists sym. split; [done|].
  change (map sym_info (se_syms s)) with (sym_info <$> se_syms s). by rewrite list_lookup_fmap, E.
Qed.
(** The declarations of a frame do not see what changes beyond the names, name
    spaces and addresses they are made of. *)
Definition same_names (infos infos' : list SymInfo) (p : Z) : Prop :=
  sym_name (info_of infos p) = sym_name (info_of infos' p) /\ sym_ns (info_of infos p) = sym_ns (info_of infos' p).
Lemma filter_ext_Forall {A} (f g : A -> bool) l : Forall (fun x => f x = g x) l -> List.filter f l = List.filter g l.
Proof. intros F. induction F as [|x l E F IH]; [done|]. cbn. rewrite E, IH. done. Qed.
Lemma find_ext_Forall {A} (f g : A -> bool) l : Forall (fun x => f x = g x) l -> List.find f l = List.find g l.
Proof. intros F. induction F as [|x l E F IH]; [done|]. cbn. rewrite E, IH. done. Qed.
Lemma filter_Forall {A} (P : A -> Prop) f l : Forall P l -> Forall P (List.filter f l).
Proof. intros F. apply Forall_forall. intros x [Hx _]%List.filter_In. rewrite Forall_forall in F. by apply F. Qed.
Section stable.
  Context (nexts more : list Z) (infos infos' : list SymInfo).
  Hypothesis Same : forall p, 0 < p <= Z.of_nat (length infos) -> same_names infos infos' p.
  Hypothesis Longer : (length infos <= length infos')%nat.

Lemma space_stable tag f : Forall (fun p => 0 < p <= Z.of_nat (length infos)) (fr_decls f) -> space infos' tag f = space infos tag f.
Proof using Same.
  intros F. apply filter_ext_Forall. eapply List.Forall_impl; [|exact F]. intros p P. unfold in_space. by rewrite (proj2 (Same p P)).
Qed.
Lemma find_stable name ps : Forall (fun p => 0 < p <= Z.of_nat (length infos)) ps ->
  List.find (is_named infos' name) ps = List.find (is_named infos name) ps.
Proof using Same.
  intros F. apply find_ext_Forall. eapply List.Forall_impl; [|exact F]. intros p P. unfold is_named. by rewrite (proj1 (Same p P)).
Qed.
Lemma indexed_stable index ps : Forall (fun p => 0 < p <= Z.of_nat (length infos)) ps -> indexed infos index ps -> indexed infos' index ps.
Proof using Same. intros F [O G Z]. split; [done| |done]. intros name N. by rewrite G, find_stable. Qed.
Lemma frame_stable sc f : frame_rel nexts infos sc f -> frame_rel (nexts ++ more) infos' sc f.
Proof using Same Longer.
  intros [K Lo Lt Io It Kn]. pose proof (space_stable false f Kn) as S0. pose proof (space_stable true f Kn) as S1. split; rewrite ?S0, ?S1.
  - done.
  - by apply linked_app.
  - by apply linked_app.
  - apply indexed_stable; [by apply filter_Forall|done].
  - apply indexed_stable; [by apply filter_Forall|done].
  - eapply List.Forall_impl; [|exact Kn]. cbn. lia.
Qed.
Lemma stack_stable scopes extra cur stack : stack_rel scopes nexts infos cur stack -> stack_rel (scopes ++ extra) (nexts ++ more) infos' cur stack.
Proof using Same Longer.
  induction 1 as [|i sc f rest E F L H IH]; [constructor|]. apply (stack_cons _ _ _ i sc); [|by apply frame_stable|done|done].
  rewrite lookup_app_l; [done|]. by eapply lookup_lt_Some.
Qed.
Lemma flat_stable tag stack : Forall (fun f => Forall (fun p => 0 < p <= Z.of_nat (length infos)) (fr_decls f)) stack ->
  flat_map (space infos' tag) stack = flat_map (space infos tag) stack.
Proof using Same. intros F. induction F as [|f stack K F IH]; [done|]. cbn. by rewrite space_stable, IH. Qed.
End stable.
Lemma stack_known scopes nexts infos cur stack : stack_rel scopes nexts infos cur stack ->
  Forall (fun f => Forall (fun p => 0 < p <= Z.of_nat (length infos)) (fr_decls f)) stack.
Proof. induction 1 as [|i sc f rest E F L H IH]; constructor; [apply F|done]. Qed.
(** A scope above the others may change. *)
Lemma stack_above scopes nexts infos cur stack i sc' : (forall j, cur = Some j -> (j < i)%nat) -> stack_rel scopes nexts infos cur stack ->
  stack_rel (<[i := sc']> scopes) nexts infos cur stack.
Proof.
  intros A H. induction H as [|j sc f rest E F L H IH]; [constructor|]. specialize (A j eq_refl). apply (stack_cons _ _ _ j sc); [|done|done|].
  - by rewrite list_lookup_insert_ne by lia.
  - apply IH. intros k Hk. specialize (L k Hk). lia.
Qed.

(** ** Lookups *)
Lemma local_correct w s r i sc f name ns : refines w s r -> se_scopes s !! i = Some sc -> frame_rel (map sym_next (se_syms s)) (rf_infos r) sc f -> 0 <= name ->
  scope_lookup_local s (Some i) name ns = Some (if name =? 0 then 0 else ref_local (rf_infos r) f name (is_tag ns)).
Proof.
  intros R E F N. unfold scope_lookup_local. destruct (Z.eqb_spec name 0) as [|Nz]; [done|]. rewrite E. cbn [mbind option_bind]. unfold ref_local.
  destruct (is_tag ns).
  - rewrite <- (in_find _ _ _ (fr_tag_index _ _ _ _ F)) by lia. apply (map_get_spec (MapLaws := laws)); [apply F|cbn; lia].
  - rewrite <- (in_find _ _ _ (fr_ordinary_index _ _ _ _ F)) by lia. apply (map_get_spec (MapLaws := laws)); [apply F|cbn; lia].
Qed.
Lemma find_app {A} (f : A -> bool) l l' : List.find f (l ++ l') = match List.find f l with Some x => Some x | None => List.find f l' end.
Proof. induction l as [|x l IH]; [done|]. cbn. by destruct (f x). Qed.
Lemma lookup_loop_correct w s r cur stack name ns fuel : refines w s r -> stack_rel (se_scopes s) (map sym_next (se_syms s)) (rf_infos r) cur stack -> 0 <= name ->
  (forall i, cur = Some i -> (i < fuel)%nat) -> scope_lookup_loop s cur name ns fuel = Some (ref_lookup (rf_infos r) stack name (is_tag ns)).
Proof.
  intros R H N. revert fuel. induction H as [|i sc f rest E F L H IH]; intros fuel B; unfold ref_lookup in *.
  - destruct fuel; cbn [scope_lookup_loop flat_map List.find default from_option]; by destruct (name =? 0).
  - specialize (B i eq_refl). destruct fuel as [|fuel]; [lia|]. cbn [scope_lookup_loop]. rewrite (local_correct w s r i sc f name ns R E F N). cbn [mbind option_bind].
    rewrite E. cbn [mbind option_bind]. rewrite IH by (intros j Hj; specialize (L j Hj); lia).
    destruct (Z.eqb_spec name 0) as [|Nz]; [done|]. cbn [flat_map]. rewrite find_app. unfold ref_local.
    destruct (List.find (is_named (rf_infos r) name) (space (rf_infos r) (is_tag ns) f)) as [p|] eqn:P; cbn [default from_option id]; [|done].
    apply List.find_some in P as [P _]. unfold space in P. apply List.filter_In in P as [P _]. pose proof (fr_known _ _ _ _ F) as K. rewrite Forall_forall in K. apply K in P.
    by rewrite (proj2 (Z.eqb_neq _ _)) by lia.
Qed.
Lemma lookup_correct w s r cur stack name ns : refines w s r -> stack_rel (se_scopes s) (map sym_next (se_syms s)) (rf_infos r) cur stack -> 0 <= name ->
  scope_lookup s cur name ns = Some (ref_lookup (rf_infos r) stack name (is_tag ns)).
Proof.
  intros R H N. apply (lookup_loop_correct w); [done|done|done|]. intros i ->. inversion H; subst. by eapply lookup_lt_Some.
Qed.
Lemma ref_lookup_known infos stack name tag : Forall (fun f => Forall (fun p => 0 < p <= Z.of_nat (length infos)) (fr_decls f)) stack ->
  ref_lookup infos stack name tag <> 0 -> 0 < ref_lookup infos stack name tag <= Z.of_nat (length infos).
Proof.
  intros F. unfold ref_lookup. destruct (name =? 0); [done|]. destruct (List.find _ _) as [p|] eqn:P; [|done]. intros _. cbn.
  apply List.find_some in P as [P _]. apply in_flat_map in P as (f & Hf & P). unfold space in P. apply List.filter_In in P as [P _].
  rewrite Forall_forall in F. specialize (F f Hf). rewrite Forall_forall in F. by apply F.
Qed.

(** ** Steps *)
Lemma chain_correct w s r p ps fuel : refines w s r -> linked (map sym_next (se_syms s)) p ps -> (length ps <= fuel)%nat ->
  chain s p fuel = Some (map (fun p => (p, info_of (rf_infos r) p)) ps).
Proof.
  intros R H. revert fuel. induction H as [|p q ps P E L H IH]; intros fuel Lf; [by destruct fuel|]. cbn [length] in Lf. destruct fuel as [|fuel]; [lia|].
  cbn [chain]. rewrite (proj2 (Z.eqb_neq _ _)) by lia. change (map sym_next (se_syms s)) with (sym_next <$> se_syms s) in E.
  rewrite list_lookup_fmap in E. destruct (se_syms s !! Z.to_nat (p - 1)) as [sym|] eqn:Es; [|done]. injection E as E. unfold sym_at.
  rewrite (proj2 (Z.leb_gt _ _)), Es by lia. cbn [mbind option_bind]. rewrite E, IH by lia. cbn [mbind option_bind map]. do 3 f_equal.
  unfold info_of. rewrite <- (rr_infos _ _ _ R). change (map sym_info (se_syms s)) with (sym_info <$> se_syms s). by rewrite list_lookup_fmap, Es.
Qed.
Lemma push_refines w s r k : refines w s r -> refines w (scope_push s k) (mkRef (mkFrame k [] :: rf_stack r) (rf_infos r) (rf_diags r)).
Proof.
  intros R. split; cbn [scope_push se_warnings se_syms se_diags se_scopes se_scope rf_stack rf_infos rf_diags]; [apply R|apply R|apply R|].
  apply (stack_cons _ _ _ _ (mkScope k 0 0 ptrmap_init ptrmap_init (se_scope s))).
  - by rewrite lookup_app_r, Nat.sub_diag.
  - destruct (map_init_spec (MapLaws := laws)) as [O C].
    assert (I : indexed (rf_infos r) ptrmap_init []).
    { split; [exact O| |change ptrmap_init with (map_init (MapOps := ptrmap_ops (V := Z) 0)); by rewrite C].
      intros name _. change ptrmap_init with (map_init (MapOps := ptrmap_ops (V := Z) 0)). by rewrite C. }
    split; try done; constructor.
  - cbn. intros j Hj. pose proof (rr_stack _ _ _ R) as S. rewrite Hj in S. inversion S; subst. by eapply lookup_lt_Some.
  - cbn [sc_parent]. rewrite <- (app_nil_r (map sym_next (se_syms s))). by apply (stack_stable _ _ (rf_infos r)); [|done|apply R].
Qed.
(** The outcomes of a step of the code and of the reference. *)
Definition both {A B} (P : A -> B -> Prop) (a : option A) (b : option B) : Prop :=
  match a, b with Some a, Some b => P a b | None, None => True | _, _ => False end.
Lemma pop_refines w s r : refines w s r -> Z.of_nat (length (se_syms s)) < 2 ^ 32 -> both (refines w) (scope_pop s) (ref_step w r OPop).
Proof.
  intros R B. unfold scope_pop. cbn [ref_step]. pose proof (rr_stack _ _ _ R) as S. inversion S as [Ec Es|i sc f rest E F L H Ec Es]; [done|].
  cbn [mbind option_bind]. rewrite E. cbn [mbind option_bind]. unfold ref_report. rewrite (fr_same _ _ _ _ F). pose proof (fr_ordinary _ _ _ _ F) as Lo.
  pose proof (linked_bound _ _ _ Lo) as (_ & B1 & B2 & _). rewrite length_map in B1.
  assert (Fin : forall ds, refines w (with_scope (with_diags s ds) (sc_parent sc)) (mkRef rest (rf_infos r) (rf_diags r ++ ds))).
  { intros ds. split; cbn [with_scope with_diags se_warnings se_syms se_diags se_scopes se_scope rf_stack rf_infos rf_diags]; [apply R|apply R|by rewrite (rr_diags _ _ _ R)|done]. }
  destruct (is_inner (fr_kind f)); [|cbn [mbind option_bind both]; apply Fin].
  rewrite (chain_correct w s r _ _ _ R Lo) by lia. cbn [mbind option_bind]. set (l := map _ _). assert (Ll : Z.of_nat (length l) < 2 ^ 32) by (unfold l; rewrite length_map; lia).
  unfold u32. rewrite Z.mod_small by lia. rewrite (rr_warnings _ _ _ R), Z.ltb_irrefl. destruct (Z.eqb_spec (Z.of_nat (length l)) 0) as [E0|N0].
  - assert (l = []) as -> by (destruct l; [done|cbn in E0; lia]). cbn [rev report_unused mbind option_bind both]. apply Fin.
  - destruct (report_unused w (rev l)) as [ds|]; cbn [mbind option_bind both]; [apply Fin|done].
Qed.
Lemma uses_refines w s r p reads writes : refines w s r ->
  refines w (set_info s p (set_uses reads writes)) (mkRef (rf_stack r) (if p <=? 0 then rf_infos r else alter (set_uses reads writes) (Z.to_nat (p - 1)) (rf_infos r)) (rf_diags r)).
Proof.
  intros R. pose proof (rr_infos _ _ _ R) as Ri. unfold set_info, sym_at. destruct (Z.leb_spec p 0) as [Lp|Lp]; [by destruct R|]. set (k := Z.to_nat (p - 1)).
  destruct (se_syms s !! k) as [sym|] eqn:E.
  - assert (Nx : map sym_next (<[k := mkSymbol (set_uses reads writes (sym_info sym)) (sym_next sym)]> (se_syms s)) = map sym_next (se_syms s)).
    { change (sym_next <$> <[k := mkSymbol (set_uses reads writes (sym_info sym)) (sym_next sym)]> (se_syms s) = sym_next <$> se_syms s).
      rewrite list_fmap_insert. apply list_insert_id. by rewrite list_lookup_fmap, E. }
    assert (In : map sym_info (<[k := mkSymbol (set_uses reads writes (sym_info sym)) (sym_next sym)]> (se_syms s)) = alter (set_uses reads writes) k (rf_infos r)).
    { change (sym_info <$> <[k := mkSymbol (set_uses reads writes (sym_info sym)) (sym_next sym)]> (se_syms s) = alter (set_uses reads writes) k (rf_infos r)).
      rewrite list_fmap_insert, <- Ri. change (map sym_info (se_syms s)) with (sym_info <$> se_syms s). apply list_eq. intros j. destruct (decide (j = k)) as [->|N].
      - rewrite list_lookup_insert_eq by (rewrite length_fmap; by eapply lookup_lt_Some). by rewrite list_lookup_alter_eq, list_lookup_fmap, E.
      - by rewrite list_lookup_insert_ne, list_lookup_alter_ne by done. }
    split; cbn [with_syms se_warnings se_syms se_diags se_scopes se_scope rf_stack rf_infos rf_diags]; [apply R|done|apply R|]. rewrite Nx.
    rewrite <- (app_nil_r (map sym_next (se_syms s))), <- (app_nil_r (se_scopes s)). apply (stack_stable _ _ (rf_infos r)); [|by rewrite length_alter|apply R].
    intros q _. unfold same_names, info_of. destruct (decide (Z.to_nat (q - 1) = k)) as [->|N]; [|by rewrite list_lookup_alter_ne].
    rewrite list_lookup_alter_eq. by destruct (rf_infos r !! k).
  - assert (alter (set_uses reads writes) k (rf_infos r) = rf_infos r) as ->; [|by destruct R].
    apply list_eq. intros j. destruct (decide (j = k)) as [->|N]; [|by rewrite list_lookup_alter_ne]. rewrite list_lookup_alter_eq, <- Ri.
    change (map sym_info (se_syms s)) with (sym_info <$> se_syms s). by rewrite list_lookup_fmap, E.
Qed.

(** *** Declarations *)
Lemma insert_last {A} (l : list A) x y : <[length l := y]> (l ++ [x]) = l ++ [y].
Proof. rewrite insert_app_r_alt by done. by rewrite Nat.sub_diag. Qed.
Definition new_ptr (r : RefSema) : Z := Z.of_nat (length (rf_infos r)) + 1.
Definition new_infos (r : RefSema) (i : SymInfo) : list SymInfo := rf_infos r ++ [i].
Definition new_sema (s : Sema) (i : SymInfo) : Sema := with_syms s (se_syms s ++ [mkSymbol i 0]).
Section declare.
  Context (w : option WarnCtx) (s : Sema) (r : RefSema) (i : SymInfo).
  Hypothesis R : refines w s r.

Lemma syms_length : length (se_syms s) = length (rf_infos r).
Proof using R. rewrite <- (rr_infos _ _ _ R). by rewrite length_map. Qed.
Lemma infos_same q : 0 < q <= Z.of_nat (length (rf_infos r)) -> same_names (rf_infos r) (new_infos r i) q.
Proof.
  intros Q. unfold same_names, info_of, new_infos. rewrite lookup_app_l by lia. done.
Qed.
Lemma infos_longer : (length (rf_infos r) <= length (new_infos r i))%nat.
Proof. unfold new_infos. rewrite length_app. lia. Qed.
Lemma info_new : info_of (new_infos r i) (new_ptr r) = i.
Proof. unfold info_of, new_infos, new_ptr. replace (Z.to_nat _) with (length (rf_infos r) + 0)%nat by lia. by rewrite lookup_app_r, Nat.add_0_r, Nat.sub_diag by lia. Qed.
Lemma sym_new_refines : refines w (new_sema s i) (mkRef (rf_stack r) (new_infos r i) (rf_diags r)).
Proof using R.
  unfold new_sema. split; cbn [with_syms se_warnings se_syms se_diags se_scopes se_scope rf_stack rf_infos rf_diags]; [apply R| |apply R|].
  - rewrite map_app. unfold new_infos. by rewrite (rr_infos _ _ _ R).
  - rewrite map_app. cbn [map]. rewrite <- (app_nil_r (se_scopes s)). apply (stack_stable _ _ (rf_infos r)); [apply infos_same|apply infos_longer|apply R].
Qed.
Lemma sym_at_new : sym_at (new_sema s i) (new_ptr r) = Some (mkSymbol i 0).
Proof using R.
  unfold sym_at, new_sema, new_ptr. rewrite (proj2 (Z.leb_gt _ _)) by lia. cbn [with_syms se_syms]. replace (Z.to_nat _) with (length (se_syms s)) by (rewrite syms_length; lia).
  by rewrite lookup_app_r, Nat.sub_diag.
Qed.
Lemma shadow_refines j sc f rest : se_scopes s !! j = Some sc -> frame_rel (map sym_next (se_syms s)) (rf_infos r) sc f ->
  stack_rel (se_scopes s) (map sym_next (se_syms s)) (rf_infos r) (sc_parent sc) rest -> 0 <= sym_name i ->
  declare_shadow (new_sema s i) sc (new_ptr r) i = ref_shadow w (new_infos r i) f rest (new_ptr r).
Proof using R.
  intros E F H N. pose proof sym_new_refines as R1. unfold declare_shadow, ref_shadow, declare_outer. rewrite info_new, (fr_same _ _ _ _ F).
  assert (H1 : stack_rel (se_scopes (new_sema s i)) (map sym_next (se_syms (new_sema s i))) (new_infos r i) (sc_parent sc) rest).
  { unfold new_sema. cbn [with_syms se_scopes se_syms]. rewrite map_app. rewrite <- (app_nil_r (se_scopes s)).
    apply (stack_stable _ _ (rf_infos r)); [apply infos_same|apply infos_longer|done]. }
  rewrite (rr_warnings _ _ _ R1). destruct (is_inner (fr_kind f) && is_object (sym_kind i)); [|done].
  rewrite (lookup_correct w (new_sema s i) (mkRef (rf_stack r) (new_infos r i) (rf_diags r)) (sc_parent sc) rest) by done. cbn [mbind option_bind rf_infos].
  destruct (Z.eqb_spec (ref_lookup (new_infos r i) rest (sym_name i) (is_tag (sym_ns i))) 0) as [|Nz]; [done|].
  apply ref_lookup_known in Nz; [|by eapply stack_known]. destruct (sym_at_info _ _ _ _ R1 Nz) as (sym & -> & Es). cbn [mbind option_bind]. by rewrite Es.
Qed.
Lemma indexed_declare index ps : indexed (new_infos r i) index ps -> 0 <= sym_name i -> Z.of_nat (length ps) < 2 ^ 32 ->
  exists index', declare_index index (sym_name i) (new_ptr r) = Some index' /\ indexed (new_infos r i) index' ((new_ptr r) :: ps).
Proof.
  intros [O G Sz] N U. unfold declare_index.
  assert (Fn : forall name, List.find (is_named (new_infos r i) name) ((new_ptr r) :: ps) = if sym_name i =? name then Some (new_ptr r) else List.find (is_named (new_infos r i) name) ps).
  { intros name. cbn [List.find]. unfold is_named at 1. by rewrite info_new. }
  destruct (Z.eqb_spec (sym_name i) 0) as [E0|N0].
  - exists index. split; [done|]. split; [done| |cbn [length]; lia]. intros name Np. rewrite Fn, E0, (proj2 (Z.eqb_neq _ _)) by lia. by apply G.
  - destruct (map_put_spec (MapLaws := laws) index (sym_name i) (new_ptr r) O) as (index' & Ep & O' & C).
    { cbn. lia. }
    { change (Z.of_nat (map_len (MapOps := ptrmap_ops (V := Z) 0) index) < 2 ^ 58). rewrite (map_len_spec (MapLaws := laws)) by done. lia. }
    change (ptrmap_put 0 index (sym_name i) (new_ptr r)) with (map_put (MapOps := ptrmap_ops 0) index (sym_name i) (new_ptr r)). rewrite Ep. cbn [mbind option_bind].
    exists index'. split; [done|]. split; [done| |].
    + intros name Np. rewrite C, Fn. destruct (Z.eqb_spec (sym_name i) name) as [->|Nn]; [by rewrite lookup_insert_eq|]. rewrite lookup_insert_ne by done. by apply G.
    + rewrite C, map_size_insert. cbn [length]. destruct (index_of index !! sym_name i); cbv beta delta [id] iota; lia.
Qed.
Lemma space_declare tag f : Forall (fun q => 0 < q <= Z.of_nat (length (rf_infos r))) (fr_decls f) ->
  space (new_infos r i) tag (mkFrame (fr_kind f) ((new_ptr r) :: fr_decls f)) = if Bool.eqb (is_tag (sym_ns i)) tag then (new_ptr r) :: space (rf_infos r) tag f else space (rf_infos r) tag f.
Proof.
  intros K. unfold space at 1. cbn [fr_decls List.filter]. unfold in_space at 1. rewrite info_new. fold (space (new_infos r i) tag f).
  rewrite (space_stable (rf_infos r) (new_infos r i) infos_same tag f K). done.
Qed.
Lemma linked_declare q ps : linked (map sym_next (se_syms s)) q ps -> linked (map sym_next (se_syms s) ++ [q]) (new_ptr r) ((new_ptr r) :: ps).
Proof using R.
  intros H. pose proof (linked_bound _ _ _ H) as (B0 & B1 & _). rewrite length_map, syms_length in B1.
  apply (linked_cons _ (new_ptr r) q); [unfold new_ptr; lia| |unfold new_ptr; lia|by apply linked_app].
  unfold new_ptr. replace (Z.to_nat _) with (length (map sym_next (se_syms s))) by (rewrite length_map, syms_length; lia).
  by rewrite lookup_app_r, Nat.sub_diag.
Qed.
Lemma declare_refines : 0 <= sym_name i -> Z.of_nat (length (se_syms s)) + 1 < 2 ^ 32 ->
  both (refines w) (scope_declare (new_sema s i) (new_ptr r))
    (match rf_stack r with
     | [] => None
     | f :: rest => ds ← ref_shadow w (new_infos r i) f rest (new_ptr r); Some (mkRef (mkFrame (fr_kind f) ((new_ptr r) :: fr_decls f) :: rest) (new_infos r i) (rf_diags r ++ ds))
     end).
Proof using R.
  intros N U. unfold scope_declare. change (se_scope (new_sema s i)) with (se_scope s). change (se_scopes (new_sema s i)) with (se_scopes s).
  pose proof (rr_stack _ _ _ R) as S. inversion S as [Ec Es|j sc f rest E F L H Ec Es]; [done|]. cbn [mbind option_bind]. rewrite E. cbn [mbind option_bind].
  rewrite sym_at_new. cbn [mbind option_bind sym_info]. rewrite (shadow_refines j sc f rest E F H N).
  destruct (ref_shadow w (new_infos r i) f rest (new_ptr r)) as [ds|]; cbn [mbind option_bind]; [|done].
  pose proof (fr_known _ _ _ _ F) as Kn.
  assert (Room : forall tag, Z.of_nat (length (space (rf_infos r) tag f)) < 2 ^ 32).
  { intros tag. assert (Hl : exists q, linked (map sym_next (se_syms s)) q (space (rf_infos r) tag f)) by (destruct tag; eexists; apply F).
    destruct Hl as [q Hq]. pose proof (linked_bound _ _ _ Hq) as (_ & B1 & B2 & _). rewrite length_map in B1. lia. }
  assert (Ix : forall tag index, indexed (rf_infos r) index (space (rf_infos r) tag f) -> indexed (new_infos r i) index (space (rf_infos r) tag f)).
  { intros tag index I. apply (indexed_stable (rf_infos r)); [apply infos_same|by apply filter_Forall|done]. }
  assert (Sy : forall q, <[Z.to_nat ((new_ptr r) - 1) := mkSymbol i q]> (se_syms (new_sema s i)) = se_syms s ++ [mkSymbol i q]).
  { intros q. unfold new_sema, new_ptr. cbn [with_syms se_syms]. replace (Z.to_nat _) with (length (se_syms s)) by (rewrite syms_length; lia). apply insert_last. }
  assert (Kn' : Forall (fun q => 0 < q <= Z.of_nat (length (new_infos r i))) ((new_ptr r) :: fr_decls f)).
  { unfold new_infos, new_ptr. rewrite length_app. cbn [length]. constructor; [lia|]. eapply List.Forall_impl; [|exact Kn]. cbn. lia. }
  assert (Up : forall q sc', sc_parent sc' = sc_parent sc -> frame_rel (map sym_next (se_syms s ++ [mkSymbol i q])) (new_infos r i) sc' (mkFrame (fr_kind f) ((new_ptr r) :: fr_decls f)) ->
    refines w (mkSema (<[j := sc']> (se_scopes s)) (Some j) (se_syms s ++ [mkSymbol i q]) (se_warnings (new_sema s i)) (se_diags (new_sema s i) ++ ds))
      (mkRef (mkFrame (fr_kind f) ((new_ptr r) :: fr_decls f) :: rest) (new_infos r i) (rf_diags r ++ ds))).
  { intros q sc' Ep F'. split; cbn [se_warnings se_syms se_diags se_scopes se_scope rf_stack rf_infos rf_diags].
    - apply R.
    - rewrite map_app. unfold new_infos. by rewrite (rr_infos _ _ _ R).
    - unfold new_sema. cbn [with_syms se_diags]. by rewrite (rr_diags _ _ _ R).
    - apply (stack_cons _ _ _ j sc'); [apply list_lookup_insert_eq; by eapply lookup_lt_Some|done|by rewrite Ep|]. rewrite Ep. apply stack_above; [done|].
      rewrite map_app. cbn [map sym_next]. rewrite <- (app_nil_r (se_scopes s)). apply (stack_stable _ _ (rf_infos r)); [apply infos_same|apply infos_longer|done]. }
  rewrite !Sy. destruct (is_tag (sym_ns i)) eqn:T.
  - destruct (indexed_declare (sc_tag_index sc) (space (rf_infos r) true f) (Ix true _ (fr_tag_index _ _ _ _ F)) N (Room true)) as (index & -> & I). cbn [mbind option_bind both].
    apply Up; [done|]. split; rewrite ?(space_declare _ f Kn), ?T, ?map_app; cbn [sc_kind sc_ordinary sc_tags sc_ordinary_index sc_tag_index map sym_next Bool.eqb fr_kind fr_decls].
    + apply F.
    + apply linked_app, F.
    + apply linked_declare, F.
    + apply Ix, F.
    + done.
    + done.
  - destruct (indexed_declare (sc_ordinary_index sc) (space (rf_infos r) false f) (Ix false _ (fr_ordinary_index _ _ _ _ F)) N (Room false)) as (index & -> & I). cbn [mbind option_bind both].
    apply Up; [done|]. split; rewrite ?(space_declare _ f Kn), ?T, ?map_app; cbn [sc_kind sc_ordinary sc_tags sc_ordinary_index sc_tag_index map sym_next Bool.eqb fr_kind fr_decls].
    + apply F.
    + apply linked_declare, F.
    + apply linked_app, F.
    + done.
    + apply Ix, F.
    + done.
Qed.
End declare.

(** ** Runs *)
Fixpoint ref_run (w : option WarnCtx) (r : RefSema) (ops : list ScopeOp) : option RefSema :=
  match ops with [] => Some r | op :: ops => r ← ref_step w r op; ref_run w r ops end.
Definition valid_scope_op (op : ScopeOp) : Prop := match op with ODeclare name _ _ _ _ _ => 0 <= name | _ => True end.

Lemma init_refines w : refines w (sema_init w) ref_init.
Proof. apply (push_refines w (mkSema [] None [] w []) (mkRef [] [] [])). split; [done..|]. constructor. Qed.
Lemma step_refines w s r op : refines w s r -> valid_scope_op op -> Z.of_nat (length (se_syms s)) + 1 < 2 ^ 32 ->
  both (fun s' r' => refines w s' r' /\ (length (se_syms s') <= S (length (se_syms s)))%nat) (scope_step s op) (ref_step w r op).
Proof.
  intros R V U.
  assert (K : forall s' r', refines w s' r' -> (length (rf_infos r') <= S (length (rf_infos r)))%nat -> refines w s' r' /\ (length (se_syms s') <= S (length (se_syms s)))%nat).
  { intros s' r' R' L. split; [done|]. by rewrite (syms_length w s r R), (syms_length w s' r' R'). }
  destruct op as [k| |name kind ns linkage is_param span|p reads writes].
  - apply K; [by apply push_refines|]. cbn. lia.
  - pose proof (pop_refines w s r R ltac:(lia)) as P. change (scope_step s OPop) with (scope_pop s). cbn [ref_step] in *. destruct (rf_stack r) as [|f rest]; [by destruct (scope_pop s)|].
    destruct (ref_report w (rf_infos r) f) as [ds|]; cbn [mbind option_bind] in *; [|by destruct (scope_pop s)]. destruct (scope_pop s); [|done]. apply K; [done|]. cbn. lia.
  - set (i := mkInfo name kind ns linkage span is_param 0 0).
    assert (Ep : Z.of_nat (length (se_syms s)) + 1 = new_ptr r) by (unfold new_ptr; by rewrite <- (syms_length w s r R)).
    assert (E : scope_step s (ODeclare name kind ns linkage is_param span) = scope_declare (new_sema s i) (new_ptr r)).
    { cbn [scope_step sym_new]. rewrite Ep. f_equal. unfold set_info, sym_at. rewrite (proj2 (Z.leb_gt _ _)) by lia. cbn [with_syms se_syms].
      replace (Z.to_nat _) with (length (se_syms s)) by lia. rewrite lookup_app_r, Nat.sub_diag by done. cbn [lookup list_lookup sym_info sym_next].
      by rewrite insert_last. }
    rewrite E. pose proof (declare_refines w s r i R V U) as D. cbn [ref_step]. fold i. fold (new_ptr r). fold (new_infos r i). destruct (rf_stack r) as [|f rest].
    { by destruct (scope_declare _ _). }
    destruct (ref_shadow w (new_infos r i) f rest (new_ptr r)) as [ds|]; cbn [mbind option_bind] in *; [|by destruct (scope_declare _ _)].
    destruct (scope_declare _ _); [|done]. apply K; [done|]. unfold new_infos. cbn. rewrite length_app. cbn. lia.
  - apply K; [by apply uses_refines|]. cbn. destruct (p <=? 0); [lia|]. rewrite length_alter. lia.
Qed.
Lemma run_refines w s r ops : refines w s r -> Forall valid_scope_op ops -> Z.of_nat (length (se_syms s) + length ops) < 2 ^ 32 ->
  both (refines w) (scope_run s ops) (ref_run w r ops).
Proof.
  revert s r. induction ops as [|op ops IH]; intros s r R V U; [done|]. apply Forall_cons_iff in V as [V Vs]. cbn [length scope_run ref_run] in *.
  pose proof (step_refines w s r op R V ltac:(lia)) as B. destruct (scope_step s op) as [s1|], (ref_step w r op) as [r1|]; cbn [both mbind option_bind] in *; try done.
  destruct B as [R1 L1]. apply IH; [done|done|lia].
Qed.

(** A policy whose pragmas came in the order of the source always answers. *)
Definition policy_ok (w : option WarnCtx) : Prop := match w with
  | None => True
  | Some w => exists ops, Forall valid_op ops /\ lexical ops /\ pragma_run fresh_pragmas ops = Some (pragmas w)
  end.
Lemma policy_class w id seq pedwarn : policy_ok (Some w) -> warn_id_valid id = true -> exists c, effective_class w id seq pedwarn = Some c.
Proof.
  intros (ops & V & Lx & E) Vi. destruct (pragma_run_logged fresh_pragmas [] ops logged_fresh V Lx) as (p & E' & G). rewrite E in E'. injection E' as <-.
  assert (w = set_pragmas (pragmas w) w) as -> by by destruct w. eexists. by apply (class_total _ ops).
Qed.
Lemma policy_answers w id sp flags : policy_ok w -> warn_id_valid id = true ->
  (exists c, warn_at_ex w id sp flags = Some c) /\ exists b, warn_enabled w id sp = Some b.
Proof.
  intros P V. unfold warn_at_ex, emit_warning, warn_enabled. destruct w as [w|]; [|split; by eexists]. rewrite V. cbn [negb].
  destruct (policy_class w id (sp_seq sp) false P V) as [c ->]. cbn [mbind option_bind]. split; by eexists.
Qed.
Fixpoint balanced (depth : nat) (ops : list ScopeOp) : Prop :=
  match ops with
  | [] => True
  | OPush _ :: ops => balanced (S depth) ops
  | OPop :: ops => match depth with O => False | S depth => balanced depth ops end
  | ODeclare _ _ _ _ _ _ :: ops => depth <> 0%nat /\ balanced depth ops
  | OUses _ _ _ :: ops => balanced depth ops
  end.
Lemma unused_warning_valid sym id : unused_warning sym = Some id -> warn_id_valid id = true.
Proof. unfold unused_warning. repeat case_match; by intros [= <-]. Qed.
Lemma report_total w ordered : policy_ok w -> exists ds, report_unused w ordered = Some ds.
Proof.
  intros P. induction ordered as [|[p sym] ordered [ds IH]]; [by exists []|]. cbn [report_unused]. rewrite IH.
  assert (D : forall id, warn_id_valid id = true -> exists d, report w id p sym = Some d).
  { intros id V. unfold report. destruct (policy_answers w id (sym_span sym) WARN_SUPPRESS_IN_MACRO P V) as [[c ->] _]. cbn [mbind option_bind]. by eexists. }
  assert (U : exists d, match unused_warning sym with Some id => report w id p sym | None => Some [] end = Some d).
  { destruct (unused_warning sym) as [id|] eqn:E; [by apply D, (unused_warning_valid sym)|by exists []]. }
  destruct U as [d ->]. by exists (d ++ ds).
Qed.
Lemma ref_step_total w r op : policy_ok w -> match op with OPop | ODeclare _ _ _ _ _ _ => rf_stack r <> [] | _ => True end ->
  exists r', ref_step w r op = Some r' /\ length (rf_stack r') = match op with OPush _ => S (length (rf_stack r)) | OPop => (length (rf_stack r) - 1)%nat | _ => length (rf_stack r) end.
Proof.
  intros P N. destruct op as [k| |name kind ns linkage is_param span|p reads writes]; cbn [ref_step]; [by eexists| | |by eexists].
  - destruct (rf_stack r) as [|f rest]; [done|]. unfold ref_report. destruct (is_inner (fr_kind f)); [|eexists; split; [done|cbn; lia]].
    destruct (report_total w (rev (map (fun p => (p, info_of (rf_infos r) p)) (space (rf_infos r) false f))) P) as [ds ->].
    eexists. split; [done|]. cbn. lia.
  - destruct (rf_stack r) as [|f rest]; [done|].
    set (infos := rf_infos r ++ _). set (q := Z.of_nat _ + 1). assert (D : exists ds, ref_shadow w infos f rest q = Some ds).
    { unfold ref_shadow. set (outer := if is_inner _ && _ then _ else _). clearbody outer. destruct (outer =? 0); [by eexists|]. unfold shadow_diags.
      destruct (_ && _); [|by eexists]. destruct (policy_answers w WARN_SHADOW (sym_span (info_of infos q)) WARN_SUPPRESS_IN_MACRO P eq_refl) as [[c Ec] [b Eb]].
      rewrite Eb. cbn [mbind option_bind]. destruct b; [|by eexists]. unfold report. rewrite Ec. cbn [mbind option_bind]. by eexists. }
    destruct D as [ds ->]. cbn [mbind option_bind]. by eexists.
Qed.
Lemma ref_run_total w r ops : policy_ok w -> balanced (length (rf_stack r)) ops -> exists r', ref_run w r ops = Some r'.
Proof.
  intros P. revert r. induction ops as [|op ops IH]; intros r B; [by eexists|]. cbn [ref_run].
  destruct (ref_step_total w r op P) as (r1 & E & L).
  { destruct op; try done; cbn in B; destruct (rf_stack r); try done; by destruct B. }
  rewrite E. cbn [mbind option_bind]. apply IH. rewrite L. destruct op; cbn [balanced] in B; [done| |by destruct B|done].
  destruct (rf_stack r) as [|f rest]; [done|]. cbn [length] in *. by replace (S (length rest) - 1)%nat with (length rest) by lia.
Qed.

(** C16. Scopes are a stack of declaration lists. Over any sequence of less than
    [2^32] openings, closings, declarations and changes of a symbol's uses, from
    the file scope on: the code fails (on an underflow) only where the stack
    does; every lookup gives the newest declaration of that name and name space
    in the innermost open scope that has one, or [NULL], so closing a scope
    uncovers what it hid; the diagnostics are those of the stack: a hidden
    object under [-Wshadow] and, when a block or function scope closes, its
    unread local variables in the order they were declared. With a well-ordered
    warning policy and balanced scopes nothing fails. *)
Theorem scope_refines w ops : Forall valid_scope_op ops -> Z.of_nat (length ops) < 2 ^ 32 ->
  both (fun s r => se_diags s = rf_diags r /\ forall name ns, 0 <= name ->
      scope_lookup s (se_scope s) name ns = Some (ref_lookup (rf_infos r) (rf_stack r) name (is_tag ns)) /\
      scope_lookup_local s (se_scope s) name ns = Some (ref_lookup (rf_infos r) (take 1 (rf_stack r)) name (is_tag ns)))
    (scope_run (sema_init w) ops) (ref_run w ref_init ops) /\
  (policy_ok w -> balanced 1 ops -> exists s, scope_run (sema_init w) ops = Some s).
Proof.
  intros V U. pose proof (run_refines w (sema_init w) ref_init ops (init_refines w) V ltac:(cbn; lia)) as B. split.
  - destruct (scope_run (sema_init w) ops) as [s|], (ref_run w ref_init ops) as [r|]; cbn [both] in *; try done. split; [apply B|]. intros name ns N.
    split; [apply (lookup_correct w); [done|apply B|done]|].
    pose proof (rr_stack _ _ _ B) as S. inversion S as [Ec Es|i sc f rest E F L H Ec Es].
    + cbn. unfold ref_lookup. by destruct (name =? 0).
    + rewrite (local_correct w s r i sc f name ns B E F N). unfold ref_lookup, ref_local. cbn [take flat_map]. by rewrite app_nil_r.
  - intros P Bal. destruct (ref_run_total w ref_init ops P Bal) as [r E]. rewrite E in B. destruct (scope_run (sema_init w) ops) as [s|]; [by exists s|done].
Qed.
(** A local that hides a global: [-Wshadow] on entry, an unused variable on exit,
    and the global again after. *)
Definition hiding : list ScopeOp :=
  let here := mkSpan 7 0 in
  [ODeclare 100 SYM_VAR NS_ORDINARY LINK_EXTERNAL false here; ODeclare 100 SYM_TAG NS_TAG LINK_NONE false here; OPush SCOPE_BLOCK;
   ODeclare 200 SYM_VAR NS_ORDINARY LINK_NONE false here; OUses 3 1 0; ODeclare 100 SYM_VAR NS_ORDINARY LINK_NONE false here; OPop].
Definition warn_all_shadow : option WarnCtx := Some (driver_warn_ctx false ["all"; "shadow"]%string).
Lemma scope_refines_witness : exists s, scope_run (sema_init warn_all_shadow) hiding = Some s /\
  se_diags s = [DWarning WARN_SHADOW DIAG_WARNING 4; DNote 1; DWarning WARN_UNUSED_VARIABLE DIAG_WARNING 4] /\
  scope_lookup s (se_scope s) 100 NS_ORDINARY = Some 1 /\ scope_lookup s (se_scope s) 100 NS_TAG = Some 2 /\
  scope_lookup s (se_scope s) 200 NS_ORDINARY = Some 0.
Proof.
  destruct (scope_refines warn_all_shadow hiding) as [B T]; [|reflexivity|].
  { unfold hiding. cbv zeta. repeat (apply List.Forall_cons; [cbn; lia || exact I|]). apply List.Forall_nil. }
  destruct T as [s E].
  - exists []. split; [constructor|]. split; [apply SSorted_nil|]. vm_compute. reflexivity.
  - cbn. repeat split; discriminate.
  - exists s. split; [exact E|]. rewrite E in B. assert (R : exists r, ref_run warn_all_shadow ref_init hiding = Some r /\ rf_diags r =
        [DWarning WARN_SHADOW DIAG_WARNING 4; DNote 1; DWarning WARN_UNUSED_VARIABLE DIAG_WARNING 4] /\
        ref_lookup (rf_infos r) (rf_stack r) 100 false = 1 /\ ref_lookup (rf_infos r) (rf_stack r) 100 true = 2 /\ ref_lookup (rf_infos r) (rf_stack r) 200 false = 0).
    { eexists. split; [vm_compute; reflexivity|]. vm_compute. repeat split. }
    destruct R as (r & Er & D & L1 & L2 & L3). rewrite Er in B. destruct B as [Bd Bl]. split; [congruence|].
    assert (Lk : forall name ns, 0 <= name -> scope_lookup s (se_scope s) name ns = Some (ref_lookup (rf_infos r) (rf_stack r) name (is_tag ns))) by (intros name ns N; apply (Bl name ns N)).
    rewrite !Lk by lia. cbn [is_tag]. rewrite L1, L2, L3. repeat split.
Defined.
