(* ===== verification/Int128.v ===== *)
(** [src/rt/int128.c]: the 128-bit integer runtime of [libcgf_rt], written
    over pairs of 64-bit limbs.  Each entry point is translated limb by limb
    and proved equal to integer arithmetic on the 128-bit value. *)
From S2P Require Import Prelude.

(** [typedef struct { u64 lo; u64 hi; } U128;] *)
Record U128 := pair { lo : Z; hi : Z }.

Definition pair_is_zero (a : U128) : bool := (lo a =? 0) && (hi a =? 0).

Definition pair_cmp (a b : U128) : Z :=
  if negb (hi a =? hi b) then (if hi a <? hi b then -1 else 1)
  else if negb (lo a =? lo b) then (if lo a <? lo b then -1 else 1)
  else 0.

Definition pair_sub (a b : U128) : U128 :=
  pair (lo a -64 lo b) (hi a -64 hi b -64 b2z (lo a <? lo b)).

Definition pair_neg (a : U128) : U128 :=
  let rlo := ~64 (lo a) +64 1 in
  pair rlo (~64 (hi a) +64 b2z (rlo =? 0)).

Definition pair_shl1 (a : U128) : U128 :=
  pair (lo a <<64 1) ((hi a <<64 1) |64 (lo a >>64 63)).

Definition pair_bit (a : U128) (bit : Z) : Z :=
  if 64 <=? bit then (hi a >>64 (bit - 64)) &64 1 else (lo a >>64 bit) &64 1.

Definition pair_set_bit (a : U128) (bit : Z) : U128 :=
  if 64 <=? bit then pair (lo a) (hi a |64 (1 <<64 (bit - 64)))
  else pair (lo a |64 (1 <<64 bit)) (hi a).

(** One iteration of the restoring loop: shift the next dividend bit in,
    keeping the 129th bit in [carry]. *)
Definition udiv_step (n d : U128) (i : nat) (st : U128 * U128) : U128 * U128 :=
  let '(q, r) := st in
  let carry := hi r >>64 63 in
  let r := pair_shl1 r in
  let r := pair (lo r |64 pair_bit n (Z.of_nat i)) (hi r) in
  if negb (carry =? 0) || (0 <=? pair_cmp r d)
  then (pair_set_bit q (Z.of_nat i), pair_sub r d)
  else (q, r).

(** [None] is the trap of [1 / zero]; the remainder out-parameter is
    returned beside the quotient. *)
Definition udiv128 (n d : U128) : option (U128 * U128) :=
  if pair_is_zero d then None
  else if (hi d =? 0) && (hi n =? 0) then
    Some (pair (lo n / lo d) 0, pair (lo n mod lo d) 0)
  else Some (for_down 128 (udiv_step n d) (pair 0 0, pair 0 0)).

Definition __udivti3 (a b : U128) : option U128 := fst <$> udiv128 a b.
Definition __umodti3 (a b : U128) : option U128 := snd <$> udiv128 a b.

Definition __divti3 (a b : U128) : option U128 :=
  let neg := Z.lxor (hi a) (hi b) >>64 63 in
  let ua := if negb (hi a >>64 63 =? 0) then pair_neg a else a in
  let ub := if negb (hi b >>64 63 =? 0) then pair_neg b else b in
  qr ← udiv128 ua ub;
  Some (if negb (neg =? 0) then pair_neg qr.1 else qr.1).

Definition __modti3 (a b : U128) : option U128 :=
  let neg := hi a >>64 63 in
  let ua := if negb (neg =? 0) then pair_neg a else a in
  let ub := if negb (hi b >>64 63 =? 0) then pair_neg b else b in
  qr ← udiv128 ua ub;
  Some (if negb (neg =? 0) then pair_neg qr.2 else qr.2).

Definition mul64 (a b : Z) : U128 :=
  let mask := 0xffffffff in
  let a0 := u32 a in
  let a1 := a >>64 32 in
  let b0 := u32 b in
  let b1 := b >>64 32 in
  let t := a0 *64 b0 in
  let w0 := t &64 mask in
  let k := t >>64 32 in
  let t := a1 *64 b0 +64 k in
  let w1 := t &64 mask in
  let w2 := t >>64 32 in
  let t := a0 *64 b1 +64 w1 in
  let k := t >>64 32 in
  pair ((t <<64 32) +64 w0) (a1 *64 b1 +64 w2 +64 k).

Definition __multi3 (a b : U128) : U128 :=
  let r := mul64 (lo a) (lo b) in
  pair (lo r) (hi r +64 (hi a *64 lo b +64 lo a *64 hi b)).

Definition __ashlti3 (a : U128) (b : Z) : U128 :=
  if b <=? 0 then a
  else if b <? 64 then
    pair (lo a <<64 b) ((hi a <<64 b) |64 (lo a >>64 (64 - b)))
  else if b <? 128 then pair 0 (lo a <<64 (b - 64))
  else pair 0 0.

Definition __lshrti3 (a : U128) (b : Z) : U128 :=
  if b <=? 0 then a
  else if b <? 64 then
    pair ((lo a >>64 b) |64 (hi a <<64 (64 - b))) (hi a >>64 b)
  else if b <? 128 then pair (hi a >>64 (b - 64)) 0
  else pair 0 0.

Definition __ashrti3 (a : U128) (b : Z) : U128 :=
  let fill := if negb (hi a >>64 63 =? 0) then ~64 0 else 0 in
  if b <=? 0 then a
  else if b <? 64 then
    pair ((lo a >>64 b) |64 (hi a <<64 (64 - b)))
         ((hi a >>64 b) |64 (fill <<64 (64 - b)))
  else if b =? 64 then pair (hi a) fill
  else if b <? 128 then
    pair ((hi a >>64 (b - 64)) |64 (fill <<64 (128 - b))) fill
  else pair fill fill.

(** [while (a) { a &= a - 1; n++; }]: a word has at most 64 set bits. *)
Definition __popcountdi2 (a : Z) : Z :=
  (while 64 (fun '(a, _) => negb (a =? 0))
            (fun '(a, n) => (a &64 (a -64 1), n + 1)) (a, 0)).2.

(** The clz/ctz loops do not end on zero; [None] is running out of the 64
    steps a nonzero word needs. *)
Definition __clzdi2 (a : Z) : option Z :=
  let '(a', n) :=
    while 64 (fun '(a, _) => a &64 0x8000000000000000 =? 0)
             (fun '(a, n) => (a <<64 1, n + 1)) (a, 0) in
  if a' &64 0x8000000000000000 =? 0 then None else Some n.

Definition __ctzdi2 (a : Z) : option Z :=
  let '(a', n) :=
    while 64 (fun '(a, _) => a &64 1 =? 0)
             (fun '(a, n) => (a >>64 1, n + 1)) (a, 0) in
  if a' &64 1 =? 0 then None else Some n.

(** ** Abstraction: a pair denotes an unsigned 128-bit integer, and its
    two's complement reading. *)
Definition wf (a : U128) : Prop := is_u64 (lo a) /\ is_u64 (hi a).
Definition uval (a : U128) : Z := pairval (hi a) (lo a).
Definition s128 (x : Z) : Z := if x <? 2 ^ 127 then x else x - 2 ^ 128.
Definition sval (a : U128) : Z := s128 (uval a).
(** The pair of a 128-bit pattern. *)
Definition of_u128 (x : Z) : U128 := pair (x mod 2 ^ 64) ((x / 2 ^ 64) mod 2 ^ 64).

(** ** The pair helpers are 128-bit arithmetic *)
Lemma uval_range a : wf a -> 0 <= uval a < 2 ^ 128.
Proof. intros []. by apply pairval_range. Qed.

Lemma uval_of_u128 x : uval (of_u128 x) = u128 x.
Proof.
  unfold uval, of_u128, pairval, u128. cbn.
  change (2 ^ 128) with (2 ^ 64 * 2 ^ 64).
  rewrite (Z.rem_mul_r x (2 ^ 64) (2 ^ 64)) by lia. lia.
Qed.

Lemma pair_eta_wf a x : wf a -> uval a = x -> a = of_u128 x.
Proof.
  intros [Hl Hh] <-. destruct a as [l h]. unfold of_u128, uval. cbn in *.
  rewrite pairval_mod, pairval_div by done. f_equal. symmetry. by apply Z.mod_small.
Qed.

Lemma wf_of_u128 x : wf (of_u128 x).
Proof. split; apply u64_range. Qed.

Lemma pair_is_zero_spec a : wf a -> pair_is_zero a = (uval a =? 0).
Proof.
  intros [? ?]. unfold pair_is_zero, uval.
  destruct (Z.eqb_spec (lo a) 0), (Z.eqb_spec (hi a) 0), (Z.eqb_spec (pairval (hi a) (lo a)) 0);
    done || word_lia.
Qed.

Lemma pair_cmp_spec a b : wf a -> wf b -> pair_cmp a b = cmp3 (uval a ?= uval b).
Proof.
  intros [? ?] [? ?]. unfold pair_cmp, uval.
  destruct (Z.eqb_spec (hi a) (hi b)), (Z.eqb_spec (lo a) (lo b)); simpl;
    repeat case_match; rewrite ?Z.ltb_lt, ?Z.ltb_ge in *;
    destruct (Z.compare_spec (pairval (hi a) (lo a)) (pairval (hi b) (lo b)));
    try done; word_lia.
Qed.

Lemma pair_cmp_ge a b : wf a -> wf b -> (0 <=? pair_cmp a b) = (uval b <=? uval a).
Proof.
  intros. rewrite pair_cmp_spec by done.
  destruct (Z.compare_spec (uval a) (uval b)), (Z.leb_spec (uval b) (uval a));
    simpl; done || lia.
Qed.

Lemma wf_pair l h : is_u64 l -> is_u64 h -> wf (pair l h).
Proof. done. Qed.

Lemma pair_sub_spec a b :
  wf a -> wf b -> wf (pair_sub a b) /\ uval (pair_sub a b) = u128 (uval a - uval b).
Proof.
  intros [? ?] [? ?]. split; [split; apply u64_range|].
  unfold pair_sub, uval, pairval, u128, u64, b2z, is_u64 in *. cbn.
  case_match; rewrite ?Z.ltb_lt, ?Z.ltb_ge in *; Z.div_mod_to_equations; lia.
Qed.

Lemma pair_neg_spec a :
  wf a -> wf (pair_neg a) /\ uval (pair_neg a) = u128 (- uval a).
Proof.
  intros [? ?]. split; [split; apply u64_range|].
  unfold pair_neg, uval. cbn. rewrite !lnot_u64 by done.
  unfold pairval, u128, u64, b2z, is_u64 in *.
  case_match; rewrite ?Z.eqb_eq, ?Z.eqb_neq in *; Z.div_mod_to_equations; lia.
Qed.

Lemma pair_shl1_spec a :
  wf a -> wf (pair_shl1 a) /\ uval (pair_shl1 a) = u128 (2 * uval a) /\
  lo (pair_shl1 a) mod 2 = 0.
Proof.
  intros [Hl Hh]. destruct (shl1_pair (hi a) (lo a) Hh Hl) as (Wh & E & Ev).
  split_and!; [split; [apply u64_range|done]|done|done].
Qed.

Lemma pair_bit_spec a i :
  wf a -> 0 <= i < 128 -> pair_bit a i = (uval a / 2 ^ i) mod 2.
Proof.
  intros [Hl Hh] Hi. unfold pair_bit, uval. rewrite !land_1_mod.
  destruct (Z.leb_spec 64 i); rewrite shiftr_div by lia.
  - rewrite (pow2_sub i 64), (Z.mul_comm _ (2 ^ 64)) by lia.
    rewrite <- Z.div_div by (try apply pow2_pos; lia). by rewrite pairval_div.
  - rewrite <- !Z.testbit_spec' by lia. f_equal.
    rewrite <- (Z.mod_pow2_bits_low (pairval (hi a) (lo a)) 64) by lia.
    by rewrite pairval_mod.
Qed.

Lemma pair_set_bit_spec a i :
  wf a -> 0 <= i < 128 -> uval a mod 2 ^ (i + 1) = 0 ->
  wf (pair_set_bit a i) /\ uval (pair_set_bit a i) = uval a + 2 ^ i.
Proof.
  intros [Hl Hh] Hi Hd. unfold pair_set_bit, wf, uval in *.
  apply Z.mod_divide in Hd; [|pose proof (pow2_pos (i + 1)); lia].
  destruct (Z.leb_spec 64 i); cbn.
  - assert (is_u64 (2 ^ (i - 64))).
    { split; [apply Z.pow_nonneg; lia|apply pow2_lt; lia]. }
    rewrite Z.shiftl_1_l, u64_small by done.
    split; [by auto using lor_u64|].
    rewrite (lor_add_disjoint _ _ (i - 63)); [| |split; [apply Z.pow_nonneg; lia|apply pow2_lt; lia] |].
    + unfold pairval. rewrite (pow2_sub i 64) by lia. ring.
    + lia.
    + apply Z.mod_divide; [pose proof (pow2_pos (i - 63)); lia|].
      apply (Z.mul_divide_cancel_r _ _ (2 ^ 64)); [lia|].
      rewrite <- Z.pow_add_r by lia. replace (i - 63 + 64) with (i + 1) by lia.
      assert (lo a = 0) as E.
      { rewrite <- (pairval_mod (hi a) (lo a)) by done.
        apply Z.mod_divide; [lia|]. etrans; [|exact Hd].
        exists (2 ^ (i - 63)). rewrite <- Z.pow_add_r by lia. f_equal. lia. }
      unfold pairval in Hd. by rewrite E, Z.add_0_r in Hd.
  - assert (is_u64 (2 ^ i)).
    { split; [apply Z.pow_nonneg; lia|apply pow2_lt; lia]. }
    rewrite Z.shiftl_1_l, u64_small by done.
    split; [by auto using lor_u64|].
    rewrite (lor_add_disjoint _ _ (i + 1)); [unfold pairval; lia|lia
      |split; [apply Z.pow_nonneg; lia|apply pow2_lt; lia]|].
    apply Z.mod_divide; [pose proof (pow2_pos (i + 1)); lia|].
    unfold pairval in Hd. eapply Z.divide_add_cancel_r; [|exact Hd].
    apply Z.divide_mul_r. exists (2 ^ (63 - i)).
    rewrite <- Z.pow_add_r by lia. f_equal. lia.
Qed.

(** ** The restoring loop *)
Definition udiv_inv (n d : U128) (i : nat) (st : U128 * U128) : Prop :=
  let '(q, r) := st in
  wf q /\ wf r /\
  uval q = (uval n / 2 ^ Z.of_nat i / uval d) * 2 ^ Z.of_nat i /\
  uval r = (uval n / 2 ^ Z.of_nat i) mod uval d.

Lemma udiv_step_inv n d i st :
  wf n -> wf d -> 0 < uval d -> (i < 128)%nat ->
  udiv_inv n d (S i) st -> udiv_inv n d i (udiv_step n d i st).
Proof.
  intros Hn Hd Hd0 Hi. destruct st as [q r]. intros (Wq & Wr & Eq & Er).
  unfold udiv_step. set (z := Z.of_nat i) in *.
  replace (Z.of_nat (S i)) with (z + 1) in * by lia.
  assert (0 <= z < 128) as Hz by lia.
  pose proof (uval_range d Hd) as Rd. pose proof (uval_range r Wr) as Rr.
  pose proof (div_pow2_step (uval n) z ltac:(lia)) as Estep.
  rewrite (pair_bit_spec n z Hn Hz).
  set (b := (uval n / 2 ^ z) mod 2) in *.
  assert (0 <= b <= 1) as Hb by (apply mod2_bounds).
  destruct (div_mod_double (uval n / 2 ^ (z + 1)) (uval d) b Hd0 Hb) as [Hq' Hr'].
  rewrite <- Estep in Hq', Hr'. rewrite <- Er in Hq', Hr'.
  assert (uval r < uval d) as Hrd by (rewrite Er; apply Z.mod_pos_bound; lia).
  destruct (pair_shl1_spec r Wr) as ([Wl Wh] & Es & Ev).
  set (r1 := pair (Z.lor (lo (pair_shl1 r)) b) (hi (pair_shl1 r))).
  assert (wf r1 /\ uval r1 = u128 (2 * uval r + b)) as [W1 E1].
  { assert (Z.lor (lo (pair_shl1 r)) b = lo (pair_shl1 r) + b) as El.
    { apply (lor_add_disjoint b _ 1); [lia|lia|done]. }
    assert (is_u64 (Z.lor (lo (pair_shl1 r)) b)) by (apply lor_u64; [done|word_lia]).
    split; [done|]. unfold r1. rewrite El in H |- *.
    unfold uval, pairval, u128, is_u64 in *. cbn [hi lo] in *.
    rewrite Z.add_assoc, Es. Z.div_mod_to_equations. lia. }
  rewrite top_bit by apply Wr.
  rewrite (pair_cmp_ge r1 d W1 Hd).
  assert ((2 ^ 63 <=? hi r) = (2 ^ 127 <=? uval r)) as Ec.
  { destruct Wr as [? ?]. unfold uval, pairval, is_u64 in *. cbn in *.
    destruct (Z.leb_spec (2 ^ 63) (hi r)), (Z.leb_spec (2 ^ 127) (hi r * 2 ^ 64 + lo r)); lia. }
  rewrite Ec.
  assert ((negb (b2z (2 ^ 127 <=? uval r) =? 0) || (uval d <=? uval r1)) =
          (uval d <=? 2 * uval r + b)) as ->.
  { rewrite E1. unfold b2z, u128.
    destruct (Z.leb_spec (2 ^ 127) (uval r)), (Z.leb_spec (uval d) (2 * uval r + b));
      simpl; try lia; rewrite ?Z.mod_small by lia.
    - apply Z.leb_le. lia.
    - apply Z.leb_gt. lia. }
  destruct (Z.leb_spec (uval d) (2 * uval r + b)) as [Hge|Hlt].
  - destruct (pair_sub_spec r1 d W1 Hd) as [W2 E2].
    destruct (pair_set_bit_spec q z Wq Hz) as [W3 E3].
    { rewrite Eq. apply Z.mod_mul. pose proof (pow2_pos (z + 1)). lia. }
    unfold udiv_inv. fold z. split_and!; [done|done| |].
    + rewrite E3, Eq, Hq', Z.pow_add_r by lia. ring.
    + rewrite E2, Hr', E1. unfold u128. rewrite Zminus_mod_idemp_l. apply Z.mod_small. lia.
  - unfold udiv_inv. fold z. split_and!; [done|done| |].
    + rewrite Eq, Hq', Z.pow_add_r by lia. ring.
    + rewrite Hr', E1, u128_small; lia.
Qed.

Lemma uval_of_lo l : uval (pair l 0) = l.
Proof. unfold uval, pairval. cbn. lia. Qed.

Lemma udiv128_spec n d :
  wf n -> wf d -> uval d <> 0 ->
  udiv128 n d = Some (of_u128 (uval n / uval d), of_u128 (uval n mod uval d)).
Proof.
  intros Hn Hd Hz. unfold udiv128. rewrite pair_is_zero_spec by done.
  pose proof (uval_range n Hn). pose proof (uval_range d Hd).
  destruct (Z.eqb_spec (uval d) 0) as [|_]; [done|].
  destruct ((hi d =? 0) && (hi n =? 0)) eqn:E.
  - rewrite andb_true_iff, !Z.eqb_eq in E. destruct E as [E1 E2].
    destruct n as [nl nh], d as [dl dh]. cbn in E1, E2. subst nh dh.
    rewrite !uval_of_lo in *. cbn [lo]. destruct Hn as [Hn _], Hd as [Hd _]. cbn in Hn, Hd.
    pose proof (div_u64 nl dl Hn ltac:(word_lia)).
    pose proof (Z.mod_pos_bound nl dl ltac:(lia)).
    f_equal. f_equal; apply pair_eta_wf; rewrite ?uval_of_lo; try done; split; cbn; word_lia.
  - pose proof (for_down_inv (udiv_inv n d) (udiv_step n d) 128 (pair 0 0, pair 0 0)) as L.
    destruct (for_down _ _ _) as [q r]. destruct L as (Wq & Wr & Eq & Er).
    + cbn [udiv_inv]. change (Z.of_nat 128) with 128.
      rewrite (Z.div_small (uval n)), Z.div_0_l, Z.mod_0_l by lia.
      by split_and!; try (split; cbn; word_lia).
    + intros i st Hi. apply udiv_step_inv; lia || done.
    + change (Z.of_nat 0) with 0 in *. rewrite Z.pow_0_r, Z.div_1_r in *. rewrite Z.mul_1_r in Eq.
      f_equal. by f_equal; apply pair_eta_wf.
Qed.

(** ** Signed readings *)
Lemma of_u128_wrap x : of_u128 (u128 x) = of_u128 x.
Proof.
  symmetry. apply pair_eta_wf; [apply wf_of_u128|apply uval_of_u128].
Qed.

Lemma of_u128_cong x y : u128 x = u128 y -> of_u128 x = of_u128 y.
Proof. intros E. by rewrite <- of_u128_wrap, E, of_u128_wrap. Qed.

Lemma wf_eq_of_u128 a x : wf a -> uval a = u128 x -> a = of_u128 x.
Proof. intros. rewrite <- of_u128_wrap. by apply pair_eta_wf. Qed.

Lemma pair_neg_of_u128 x : pair_neg (of_u128 x) = of_u128 (- x).
Proof.
  destruct (pair_neg_spec (of_u128 x) (wf_of_u128 x)) as [W E].
  apply wf_eq_of_u128; [done|]. rewrite E, uval_of_u128. unfold u128.
  rewrite <- !Z.sub_0_l. by rewrite Zminus_mod_idemp_r.
Qed.

Lemma sval_sign a : wf a -> (hi a >>64 63 =? 0) = (0 <=? sval a).
Proof.
  intros W. pose proof (uval_range a W). destruct W as [? ?].
  rewrite top_bit by done. unfold sval, s128, uval, pairval, b2z, is_u64 in *.
  destruct (Z.leb_spec (2 ^ 63) (hi a)), (Z.ltb_spec (hi a * 2 ^ 64 + lo a) (2 ^ 127));
    symmetry; first [apply Z.leb_gt; lia|apply Z.leb_le; lia].
Qed.

Lemma sval_range a : wf a -> - 2 ^ 127 <= sval a < 2 ^ 127.
Proof.
  intros W. pose proof (uval_range a W). unfold sval, s128. case_match; lia.
Qed.

Lemma u128_sval a : wf a -> u128 (sval a) = uval a.
Proof.
  intros W. pose proof (uval_range a W). unfold sval, s128, u128. case_match.
  - apply Z.mod_small; lia.
  - symmetry. apply Z.mod_unique with (-1); lia.
Qed.

(** The runtime's magnitude: [hi >> 63 ? pair_neg(a) : a]. *)
Lemma magnitude_spec a :
  wf a ->
  let m := if negb (hi a >>64 63 =? 0) then pair_neg a else a in
  wf m /\ uval m = Z.abs (sval a).
Proof.
  intros W. pose proof (uval_range a W). rewrite sval_sign by done.
  destruct (Z.leb_spec 0 (sval a)) as [Hs|Hs]; cbn [negb]; unfold sval, s128 in *.
  - split; [done|]. destruct (Z.ltb_spec (uval a) (2 ^ 127)); lia.
  - destruct (pair_neg_spec a W) as [Wn ->]. split; [done|]. unfold u128.
    destruct (Z.ltb_spec (uval a) (2 ^ 127)); [lia|].
    symmetry. apply Z.mod_unique with (-1); lia.
Qed.

Lemma sval_zero a : wf a -> sval a = 0 <-> uval a = 0.
Proof. intros W. pose proof (uval_range a W). unfold sval, s128. case_match; lia. Qed.

Lemma udiv128_zero n d : wf d -> uval d = 0 -> udiv128 n d = None.
Proof. intros W E. unfold udiv128. by rewrite pair_is_zero_spec, E. Qed.

Lemma sign_xor a b :
  wf a -> wf b ->
  (Z.lxor (hi a) (hi b) >>64 63 =? 0) = Bool.eqb (0 <=? sval a) (0 <=? sval b).
Proof.
  intros Wa Wb. rewrite <- !sval_sign by done. destruct Wa as [_ Ha], Wb as [_ Hb].
  rewrite Z.shiftr_lxor, !top_bit by done. unfold b2z.
  by destruct (2 ^ 63 <=? hi a), (2 ^ 63 <=? hi b).
Qed.

(** ** Correctness of the entry points *)

(** C1: [__udivti3] and [__umodti3] compute quotient and remainder of the
    unsigned 128-bit values; they trap exactly on a zero divisor. *)
Theorem udivti3_umodti3_correct (a b : U128) :
  wf a -> wf b ->
  __udivti3 a b = (if uval b =? 0 then None else Some (of_u128 (uval a / uval b))) /\
  __umodti3 a b = (if uval b =? 0 then None else Some (of_u128 (uval a mod uval b))).
Proof.
  intros Wa Wb. unfold __udivti3, __umodti3. destruct (Z.eqb_spec (uval b) 0) as [E|E].
  - by rewrite udiv128_zero.
  - by rewrite udiv128_spec.
Qed.

(** C2: [__divti3] truncates toward zero and [__modti3] gives the remainder
    the dividend's sign, on all inputs including [INT128_MIN / -1], whose
    quotient wraps. *)
Theorem divti3_modti3_correct (a b : U128) :
  wf a -> wf b ->
  __divti3 a b = (if sval b =? 0 then None else Some (of_u128 (Z.quot (sval a) (sval b)))) /\
  __modti3 a b = (if sval b =? 0 then None else Some (of_u128 (Z.rem (sval a) (sval b)))).
Proof.
  intros Wa Wb. unfold __divti3, __modti3.
  destruct (magnitude_spec a Wa) as [Wm Em], (magnitude_spec b Wb) as [Wn En].
  destruct (Z.eqb_spec (sval b) 0) as [E|E].
  { rewrite (udiv128_zero _ _ Wn); [done|]. rewrite En, E. done. }
  rewrite (udiv128_spec _ _ Wm Wn) by lia. rewrite Em, En, sign_xor by done.
  rewrite (sval_sign a) by done. cbn [mbind option_bind fst snd].
  split; f_equal.
  - rewrite pair_neg_of_u128.
    destruct (Z.leb_spec 0 (sval a)), (Z.leb_spec 0 (sval b)); cbn [Bool.eqb negb]; f_equal;
      repeat rewrite ?(Z.abs_eq (sval a)), ?(Z.abs_eq (sval b)),
        ?(Z.abs_neq (sval a)), ?(Z.abs_neq (sval b)) by lia;
      rewrite <- Z.quot_div_nonneg by lia;
      rewrite ?Z.quot_opp_l, ?Z.quot_opp_r by lia; lia.
  - rewrite pair_neg_of_u128.
    destruct (Z.leb_spec 0 (sval a)), (Z.leb_spec 0 (sval b)); cbn [Bool.eqb negb]; f_equal;
      repeat rewrite ?(Z.abs_eq (sval a)), ?(Z.abs_eq (sval b)),
        ?(Z.abs_neq (sval a)), ?(Z.abs_neq (sval b)) by lia;
      rewrite <- Z.rem_mod_nonneg by lia;
      rewrite ?Z.rem_opp_l, ?Z.rem_opp_r by lia; rewrite ?Z.rem_opp_l by lia; lia.
Qed.

Lemma mul64_spec a b :
  is_u64 a -> is_u64 b -> wf (mul64 a b) /\ uval (mul64 a b) = a * b.
Proof.
  intros Ha Hb. unfold mul64, uval. cbv zeta. cbn [lo hi].
  change 0xffffffff with (2 ^ 32 - 1). rewrite !land_ones_mod, !shiftr_div by lia.
  rewrite !Z.shiftl_mul_pow2 by lia.
  assert (Ea : a = a / 2 ^ 32 * 2 ^ 32 + u32 a) by (unfold u32; Z.div_mod_to_equations; lia).
  assert (Eb : b = b / 2 ^ 32 * 2 ^ 32 + u32 b) by (unfold u32; Z.div_mod_to_equations; lia).
  pose proof (u32_range a) as Ra. pose proof (u32_range b) as Rb. unfold is_u32, is_u64 in *.
  assert (0 <= a / 2 ^ 32 < 2 ^ 32) by (Z.div_mod_to_equations; lia).
  assert (0 <= b / 2 ^ 32 < 2 ^ 32) by (Z.div_mod_to_equations; lia).
  set (a1 := a / 2 ^ 32) in *. set (a0 := u32 a) in *.
  set (b1 := b / 2 ^ 32) in *. set (b0 := u32 b) in *.
  clearbody a1 a0 b1 b0. subst a b.
  rewrite (u64_small (a0 * b0)) by (unfold is_u64; nia).
  assert (0 <= a0 * b0 <= (2 ^ 32 - 1) * (2 ^ 32 - 1)) as P00 by nia.
  assert (0 <= a1 * b0 <= (2 ^ 32 - 1) * (2 ^ 32 - 1)) as P10 by nia.
  assert (0 <= a0 * b1 <= (2 ^ 32 - 1) * (2 ^ 32 - 1)) as P01 by nia.
  assert (0 <= a1 * b1 <= (2 ^ 32 - 1) * (2 ^ 32 - 1)) as P11 by nia.
  replace ((a1 * 2 ^ 32 + a0) * (b1 * 2 ^ 32 + b0)) with
    (a1 * b1 * 2 ^ 64 + (a1 * b0 + a0 * b1) * 2 ^ 32 + a0 * b0) by ring.
  set (p00 := a0 * b0) in *. set (p10 := a1 * b0) in *.
  set (p01 := a0 * b1) in *. set (p11 := a1 * b1) in *.
  clearbody p00 p10 p01 p11.
  assert (0 <= p00 / 2 ^ 32 < 2 ^ 32) by (Z.div_mod_to_equations; lia).
  pose proof (Z.mod_pos_bound p00 (2 ^ 32) ltac:(lia)).
  pose proof (Z.div_mod p00 (2 ^ 32) ltac:(lia)) as E00.
  set (k := p00 / 2 ^ 32) in *. set (w0 := p00 mod 2 ^ 32) in *. clearbody k w0.
  rewrite (u64_small p10), (u64_small p01), (u64_small p11) by (unfold is_u64; lia).
  rewrite (u64_small (p10 + k)) by (unfold is_u64; lia).
  set (t := p10 + k) in *.
  assert (0 <= t < 2 ^ 64) by lia.
  pose proof (Z.div_mod t (2 ^ 32) ltac:(lia)) as Et.
  pose proof (Z.mod_pos_bound t (2 ^ 32) ltac:(lia)).
  assert (0 <= t / 2 ^ 32 < 2 ^ 32) by (Z.div_mod_to_equations; lia).
  set (w1 := t mod 2 ^ 32) in *. set (w2 := t / 2 ^ 32) in *. clearbody w1 w2.
  rewrite (u64_small (p01 + w1)) by (unfold is_u64; lia).
  set (t' := p01 + w1) in *.
  pose proof (Z.div_mod t' (2 ^ 32) ltac:(lia)) as Et'.
  pose proof (Z.mod_pos_bound t' (2 ^ 32) ltac:(lia)).
  assert (0 <= t' / 2 ^ 32 < 2 ^ 32) by (Z.div_mod_to_equations; lia).
  assert (u64 (t' * 2 ^ 32) = t' mod 2 ^ 32 * 2 ^ 32) as ->.
  { unfold u64. change (2 ^ 64) with (2 ^ 32 * 2 ^ 32). by apply Z.mul_mod_distr_r. }
  set (l := t' mod 2 ^ 32) in *. set (k' := t' / 2 ^ 32) in *. clearbody l k'.
  rewrite (u64_small (l * 2 ^ 32 + w0)) by (unfold is_u64; lia).
  assert (p11 + w2 + k' < 2 ^ 64) by lia.
  rewrite (u64_small (p11 + w2)), (u64_small (p11 + w2 + k')) by (unfold is_u64; lia).
  split; [split; unfold is_u64; cbn; lia|]. unfold pairval. lia.
Qed.

(** C3: [__multi3] is multiplication modulo [2^128] (so also of the signed
    readings), built from the exact 64x64 product. *)
Theorem multi3_correct (a b : U128) :
  wf a -> wf b ->
  __multi3 a b = of_u128 (uval a * uval b) /\ __multi3 a b = of_u128 (sval a * sval b).
Proof.
  intros Wa Wb.
  assert (__multi3 a b = of_u128 (uval a * uval b)) as E.
  { pose proof Wa as [Hal Hah]. pose proof Wb as [Hbl Hbh].
    destruct (mul64_spec (lo a) (lo b) Hal Hbl) as [[Wl Wh] E].
    apply wf_eq_of_u128; [split; [done|apply u64_range]|].
    unfold __multi3. unfold uval at 1. cbn [lo hi]. set (r := mul64 (lo a) (lo b)) in *.
    assert (hi r +64 (hi a *64 lo b +64 lo a *64 hi b) =
            u64 (hi r + (hi a * lo b + lo a * hi b))) as ->.
    { unfold u64. by rewrite <- (Zplus_mod (hi a * lo b)), Zplus_mod_idemp_r. }
    unfold uval, pairval in *. unfold u128, u64, is_u64 in *.
    replace ((hi a * 2 ^ 64 + lo a) * (hi b * 2 ^ 64 + lo b)) with
      (hi a * hi b * 2 ^ 128 + (hi a * lo b + lo a * hi b) * 2 ^ 64 + lo a * lo b) by ring.
    rewrite <- E. generalize (hi a * hi b) (hi a * lo b + lo a * hi b). intros p q.
    apply Z.mod_unique with (p + (hi r + q) / 2 ^ 64); Z.div_mod_to_equations; lia. }
  split; [done|]. rewrite E. apply of_u128_cong. rewrite <- !u128_sval by done.
  unfold u128. by rewrite <- Z.mul_mod by lia.
Qed.

(** ** Shifts *)
Lemma shr_pair_lo l h n :
  0 < n < 64 -> is_u64 l -> is_u64 h ->
  Z.lor (l >>64 n) (h <<64 (64 - n)) = u64 (pairval h l / 2 ^ n) /\
  pairval h l / 2 ^ n = h / 2 ^ n * 2 ^ 64 + u64 (pairval h l / 2 ^ n).
Proof.
  intros Hn Hl Hh.
  assert (pairval h l / 2 ^ n = h * 2 ^ (64 - n) + l / 2 ^ n) as E.
  { unfold pairval. rewrite (pow2_sub 64 n) by lia. pose proof (pow2_pos n).
    rewrite Z.mul_assoc, Z.div_add_l by lia. done. }
  pose proof (shl64_split h (64 - n) ltac:(lia)) as Es.
  replace (64 - (64 - n)) with n in Es by lia.
  pose proof (shr64_range l n ltac:(lia) Hl) as Rl.
  pose proof (shr64_range h n ltac:(lia) Hh) as Rh.
  rewrite !(shiftr_div _ n) in * by lia.
  pose proof (shl64_plus_lt h (64 - n) (l / 2 ^ n) ltac:(lia) Rl) as Hb.
  pose proof (u64_range (Z.shiftl h (64 - n))) as Hu. unfold is_u64 in Hu.
  assert (u64 (pairval h l / 2 ^ n) = (h <<64 (64 - n)) + l / 2 ^ n) as ->.
  { rewrite E, Es. symmetry. apply Z.mod_unique with (h / 2 ^ n); lia. }
  split; [|lia]. rewrite Z.lor_comm, (lor_add_disjoint _ _ (64 - n)); [lia|lia|done|].
  apply shl64_divisible. lia.
Qed.

Lemma ashlti3_spec a b : wf a -> 0 <= b -> __ashlti3 a b = of_u128 (uval a * 2 ^ b).
Proof.
  intros [Hl Hh] Hb. unfold __ashlti3.
  destruct (Z.leb_spec b 0).
  { replace b with 0 by lia. rewrite Z.mul_1_r. by apply pair_eta_wf. }
  destruct (Z.ltb_spec b 64); [|destruct (Z.ltb_spec b 128)]; apply wf_eq_of_u128.
  - split; cbn; [apply u64_range|]. apply lor_u64; [apply u64_range|]. apply shr64_u64; [lia|done].
  - unfold uval. cbn [lo hi]. rewrite shl_carry_in by (done || lia).
    pose proof (shl64_split (lo a) b ltac:(lia)) as El.
    pose proof (shl64_split (hi a) b ltac:(lia)) as Eh.
    pose proof (u64_range (Z.shiftl (lo a) b)) as Rl.
    pose proof (u64_range (Z.shiftl (hi a) b)) as Rh.
    pose proof (shr64_range (lo a) (64 - b) ltac:(lia) Hl) as Rc.
    replace (64 - (64 - b)) with b in Rc by lia.
    pose proof (shl64_plus_lt (hi a) b _ ltac:(lia) Rc) as Hlt.
    unfold pairval, is_u64 in *. apply Z.mod_unique with (hi a >>64 (64 - b)).
    + left. lia.
    + rewrite Z.mul_add_distr_r, El.
      replace (hi a * 2 ^ 64 * 2 ^ b) with (hi a * 2 ^ b * 2 ^ 64) by ring.
      rewrite Eh. ring.
  - split; cbn; [|apply u64_range]. done.
  - unfold uval, pairval, u128. cbn [lo hi].
    replace (2 ^ b) with (2 ^ (b - 64) * 2 ^ 64) by (symmetry; apply pow2_sub; lia).
    unfold u64. rewrite Z.shiftl_mul_pow2 by lia.
    generalize (2 ^ (b - 64)). intros p. rewrite Z.mul_add_distr_r.
    replace (hi a * 2 ^ 64 * (p * 2 ^ 64)) with (hi a * p * 2 ^ 128) by ring.
    replace (lo a * (p * 2 ^ 64)) with (lo a * p * 2 ^ 64) by ring.
    generalize (lo a * p) (hi a * p). intros. Z.div_mod_to_equations. lia.
  - done.
  - unfold uval at 1. cbn. unfold u128. rewrite (pow2_sub b 128) by lia.
    rewrite Z.mul_assoc, Z.mod_mul by lia. done.
Qed.

Lemma lshrti3_spec a b : wf a -> 0 <= b -> __lshrti3 a b = of_u128 (uval a / 2 ^ b).
Proof.
  intros W Hb. pose proof (uval_range a W) as Ra. pose proof W as [Hl Hh]. unfold __lshrti3.
  destruct (Z.leb_spec b 0).
  { replace b with 0 by lia. rewrite Z.div_1_r. by apply pair_eta_wf. }
  destruct (Z.ltb_spec b 64); [|destruct (Z.ltb_spec b 128)]; apply pair_eta_wf.
  - split; cbn; [|apply shr64_u64; [lia|done]].
    apply lor_u64; [apply shr64_u64; [lia|done]|apply u64_range].
  - unfold uval. cbn [lo hi].
    destruct (shr_pair_lo (lo a) (hi a) b) as [-> E]; [lia|done|done|].
    rewrite shiftr_div by lia. unfold pairval at 1. lia.
  - split; cbn; [apply shr64_u64; [lia|done]|done].
  - unfold uval. cbn [lo hi]. rewrite shiftr_div by lia.
    replace b with (64 + (b - 64)) at 2 by lia. rewrite Z.pow_add_r by lia.
    rewrite <- Z.div_div by (try apply pow2_pos; lia). rewrite pairval_div by done.
    unfold pairval. lia.
  - done.
  - symmetry. apply Z.div_small. pose proof (pow2_le 128 b). lia.
Qed.

Lemma sval_div_small a b : wf a -> 127 <= b -> sval a / 2 ^ b = if 0 <=? sval a then 0 else -1.
Proof.
  intros W Hb. pose proof (sval_range a W). pose proof (pow2_le 127 b Hb).
  destruct (Z.leb_spec 0 (sval a)).
  - apply Z.div_small. lia.
  - symmetry. apply Z.div_unique with (sval a + 2 ^ b); lia.
Qed.

Lemma ones_fill n : 0 < n < 64 -> (2 ^ 64 - 1) <<64 n = 2 ^ 64 - 2 ^ n.
Proof.
  intros. unfold u64. rewrite Z.shiftl_mul_pow2 by lia.
  pose proof (pow2_pos n). pose proof (pow2_lt n 64).
  symmetry. apply Z.mod_unique with (2 ^ n - 1); lia.
Qed.

Lemma or_fill a n : 0 < n < 64 -> 0 <= a < 2 ^ n -> Z.lor a ((2 ^ 64 - 1) <<64 n) = a + 2 ^ 64 - 2 ^ n.
Proof.
  intros Hn Ha. rewrite Z.lor_comm, (lor_add_disjoint _ _ n); [|lia|lia|apply shl64_divisible; lia].
  rewrite ones_fill by done. lia.
Qed.

(** A negative value shifted right by [0 < b < 64], split into limbs. *)
Lemma ashrti3_spec a b : wf a -> 0 <= b -> __ashrti3 a b = of_u128 (sval a / 2 ^ b).
Proof.
  intros W Hb. pose proof (uval_range a W) as Ra. pose proof W as [Hl Hh].
  unfold __ashrti3. rewrite sval_sign by done.
  change (~64 0) with (2 ^ 64 - 1).
  destruct (Z.leb_spec b 0).
  { replace b with 0 by lia. rewrite Z.div_1_r. apply wf_eq_of_u128; [done|].
    by rewrite u128_sval. }
  assert (sval a = if 0 <=? sval a then uval a else uval a - 2 ^ 128) as Ev.
  { unfold sval, s128. destruct (Z.ltb_spec (uval a) (2 ^ 127)).
    - destruct (Z.leb_spec 0 (uval a)); lia.
    - destruct (Z.leb_spec 0 (uval a - 2 ^ 128)); lia. }
  destruct (Z.ltb_spec b 64); [|destruct (Z.eqb_spec b 64); [|destruct (Z.ltb_spec b 128)]].
  - destruct (shr_pair_lo (lo a) (hi a) b ltac:(lia) Hl Hh) as [E1 E2]. rewrite E1.
    pose proof (shr64_range (hi a) b ltac:(lia) Hh) as Rh.
    pose proof (pow2_pos (64 - b)). pose proof (pow2_lt (64 - b) 64).
    pose proof (u64_range (pairval (hi a) (lo a) / 2 ^ b)) as Rl. unfold is_u64 in Rl.
    rewrite shiftr_div in Rh |- * by lia.
    destruct (Z.leb_spec 0 (sval a)); cbn [negb]; rewrite Ev.
    + rewrite Z.shiftl_0_l. change (u64 0) with 0. rewrite Z.lor_0_r.
      apply pair_eta_wf; [split; cbn; word_lia|].
      unfold uval. cbn [lo hi]. unfold pairval at 1. lia.
    + rewrite or_fill by lia. apply wf_eq_of_u128; [split; cbn; word_lia|].
      assert ((uval a - 2 ^ 128) / 2 ^ b = uval a / 2 ^ b - 2 ^ (64 - b) * 2 ^ 64) as ->.
      { rewrite (pow2_128 b) by lia.
        rewrite <- Z.add_opp_r, <- Z.mul_opp_l, Z.div_add; [lia|pose proof (pow2_pos b); lia]. }
      unfold uval. cbn [lo hi]. set (x := u64 (pairval (hi a) (lo a) / 2 ^ b)) in *.
      rewrite E2. unfold pairval, u128. apply Z.mod_unique with (-1); lia.
  - subst b. apply wf_eq_of_u128.
    { split; cbn; [done|]. destruct (0 <=? sval a); cbn; word_lia. }
    destruct (0 <=? sval a); cbn [negb]; rewrite Ev; unfold uval in *; cbn [lo hi];
      unfold u128.
    + rewrite pairval_div by done.
      symmetry. rewrite Z.mod_small; unfold pairval; word_lia.
    + replace (pairval (hi a) (lo a) - 2 ^ 128) with (pairval (hi a - 2 ^ 64) (lo a))
        by (unfold pairval; lia).
      rewrite pairval_div by done. unfold pairval. apply Z.mod_unique with (-1); word_lia.
  - pose proof (shr64_range (hi a) (b - 64) ltac:(lia) Hh) as Rh.
    replace (64 - (b - 64)) with (128 - b) in Rh by lia.
    pose proof (pow2_pos (128 - b)). pose proof (pow2_lt (128 - b) 64).
    rewrite shiftr_div in * by lia.
    assert (forall h, pairval h (lo a) / 2 ^ b = h / 2 ^ (b - 64)) as Ed.
    { intros h. replace b with (64 + (b - 64)) at 1 by lia. rewrite Z.pow_add_r by lia.
      rewrite <- Z.div_div by (try apply pow2_pos; lia). by rewrite pairval_div. }
    destruct (0 <=? sval a); cbn [negb]; rewrite Ev; unfold uval in *.
    + rewrite Ed. rewrite Z.shiftl_0_l. change (u64 0) with 0. rewrite Z.lor_0_r.
      apply pair_eta_wf; [split; cbn; word_lia|]. unfold uval, pairval. cbn. lia.
    + replace (pairval (hi a) (lo a) - 2 ^ 128) with (pairval (hi a - 2 ^ 64) (lo a))
        by (unfold pairval; lia).
      rewrite Ed, or_fill by lia. apply wf_eq_of_u128; [split; cbn; word_lia|].
      replace (hi a - 2 ^ 64) with (hi a + - 2 ^ (128 - b) * 2 ^ (b - 64)).
      2: { rewrite (pow2_sub 64 (b - 64)) by lia. replace (64 - (b - 64)) with (128 - b) by lia. lia. }
      rewrite Z.div_add by (pose proof (pow2_pos (b - 64)); lia).
      unfold uval, pairval, u128. cbn [lo hi]. apply Z.mod_unique with (-1); lia.
  - rewrite sval_div_small by (done || lia). by destruct (0 <=? sval a).
Qed.

(** C4: the three shift entry points compute [a * 2^b mod 2^128],
    [floor(a / 2^b)] unsigned and [floor(a / 2^b)] signed, for every
    non-negative count, the counts past the width included. *)
Theorem shifts_correct (a : U128) (b : Z) :
  wf a -> 0 <= b ->
  __ashlti3 a b = of_u128 (uval a * 2 ^ b) /\
  __lshrti3 a b = of_u128 (uval a / 2 ^ b) /\
  __ashrti3 a b = of_u128 (sval a / 2 ^ b).
Proof. auto using ashlti3_spec, lshrti3_spec, ashrti3_spec. Qed.

(** ** Bit counts *)

(** The number of one bits among the low [n]. *)
Fixpoint count_ones (n : nat) (a : Z) : Z :=
  match n with O => 0 | S n => a mod 2 + count_ones n (a / 2) end.

Lemma count_ones_nonneg n a : 0 <= count_ones n a.
Proof. revert a. induction n as [|n IH]; intros a; simpl; [lia|]. pose proof (IH (a / 2)). pose proof (mod2_bounds a). lia. Qed.

Lemma count_ones_le n a : count_ones n a <= Z.of_nat n.
Proof. revert a. induction n as [|n IH]; intros a; simpl; [lia|]. pose proof (IH (a / 2)). pose proof (mod2_bounds a). lia. Qed.

Lemma count_ones_0 n : count_ones n 0 = 0.
Proof. induction n; simpl; done. Qed.

Lemma land_pred_double c : Z.land (2 * c) (2 * c - 1) = 2 * Z.land c (c - 1).
Proof.
  replace (2 * c - 1) with (2 * (c - 1) + 1) by lia.
  apply Z.bits_inj'. intros i Hi. rewrite Z.land_spec.
  destruct (Z.eq_dec i 0) as [->|].
  - by rewrite !Z.testbit_even_0.
  - replace i with (Z.succ (i - 1)) by lia.
    rewrite Z.testbit_odd_succ, !Z.testbit_even_succ, Z.land_spec by lia. done.
Qed.

Lemma land_pred_odd c : Z.land (2 * c + 1) (2 * c) = 2 * c.
Proof.
  apply Z.bits_inj'. intros i Hi. rewrite Z.land_spec.
  destruct (Z.eq_dec i 0) as [->|].
  - rewrite Z.testbit_even_0. apply andb_false_r.
  - replace i with (Z.succ (i - 1)) by lia.
    rewrite Z.testbit_odd_succ, !Z.testbit_even_succ by lia. apply andb_diag.
Qed.

(** [a & (a - 1)] clears exactly one set bit. *)
Lemma count_ones_clear n a :
  0 < a < 2 ^ Z.of_nat n -> count_ones n (Z.land a (a - 1)) = count_ones n a - 1.
Proof.
  revert a. induction n as [|n IH]; intros a Ha; [simpl in Ha; lia|].
  rewrite Nat2Z.inj_succ, Z.pow_succ_r in Ha by lia.
  pose proof (Z.div_mod a 2 ltac:(lia)) as E. simpl.
  destruct (Z.eq_dec (a mod 2) 0) as [E0|E0].
  - rewrite E0, Z.add_0_r in E. rewrite E at 1 2 3 4. rewrite land_pred_double.
    set (c := a / 2) in *.
    replace (2 * Z.land c (c - 1)) with (Z.land c (c - 1) * 2) by ring.
    rewrite Z.mod_mul, Z.div_mul, IH by lia. lia.
  - assert (a mod 2 = 1) as E1 by (pose proof (mod2_bounds a); lia).
    rewrite E1 in E |- *. set (c := a / 2) in *.
    replace (a - 1) with (2 * c) by lia. rewrite E at 1 2. rewrite land_pred_odd.
    replace (2 * c) with (c * 2) by ring. rewrite Z.mod_mul, Z.div_mul by lia. lia.
Qed.

Lemma count_ones_eq_0 n a : 0 <= a < 2 ^ Z.of_nat n -> count_ones n a = 0 -> a = 0.
Proof.
  revert a. induction n as [|n IH]; intros a Ha H0; [simpl in Ha; lia|].
  rewrite Nat2Z.inj_succ, Z.pow_succ_r in Ha by lia. simpl in H0.
  pose proof (count_ones_nonneg n (a / 2)). pose proof (mod2_bounds a).
  pose proof (Z.div_mod a 2 ltac:(lia)).
  assert (a / 2 = 0); [|lia]. apply IH; lia.
Qed.

Lemma popcount_loop a :
  is_u64 a -> __popcountdi2 a = count_ones 64 a.
Proof.
  intros [Ha0 Ha]. unfold __popcountdi2.
  pose proof (while_inv
    (fun '(a', n) => 0 <= a' < 2 ^ 64 /\ n + count_ones 64 a' = count_ones 64 a)
    (fun '(a', _) => Z.to_nat (count_ones 64 a'))
    (fun '(a, _) => negb (a =? 0)) (fun '(a, n) => (a &64 (a -64 1), n + 1)) 64 (a, 0)) as W.
  destruct W as [HP HC].
  - done.
  - pose proof (count_ones_le 64 a). lia.
  - intros [a' n] [Ra' Hn] Hc. rewrite negb_true_iff, Z.eqb_neq in Hc.
    rewrite (u64_small (a' - 1)) by word_lia.
    rewrite count_ones_clear by (change (Z.of_nat 64) with 64; lia).
    pose proof (land_bound 64 a' (a' - 1)). pose proof (count_ones_nonneg 64 a').
    assert (count_ones 64 a' <> 0).
    { intros E. apply Hc. apply (count_ones_eq_0 64); [change (Z.of_nat 64) with 64; lia|done]. }
    lia.
  - destruct (while _ _ _ _) as [a' n]. cbn [snd].
    rewrite negb_false_iff, Z.eqb_eq in HC. subst a'. rewrite count_ones_0 in HP. lia.
Qed.

Lemma clz_cond a : is_u64 a -> (a &64 0x8000000000000000 =? 0) = (a <? 2 ^ 63).
Proof.
  intros Ha. change 0x8000000000000000 with (2 ^ 63).
  rewrite land_pow2, testbit_63 by (done || lia).
  destruct (Z.leb_spec (2 ^ 63) a), (Z.ltb_spec a (2 ^ 63)); done || lia.
Qed.

Lemma clz_loop a : is_u64 a -> a <> 0 -> __clzdi2 a = Some (64 - bitlen a).
Proof.
  intros Ha Hz. unfold __clzdi2.
  pose proof (while_inv
    (fun '(a', n) => is_u64 a' /\ 0 < a' /\ bitlen a' = bitlen a + n)
    (fun '(a', _) => Z.to_nat (64 - bitlen a'))
    (fun '(a, _) => a &64 0x8000000000000000 =? 0) (fun '(a, n) => (a <<64 1, n + 1))
    64 (a, 0)) as W.
  destruct W as [HP HC].
  - split_and!; [done|word_lia|lia].
  - pose proof (bitlen_nonneg a). lia.
  - intros [a' n] (Ra' & Hp & Hn) Hc. rewrite clz_cond, Z.ltb_lt in Hc by done.
    rewrite Z.shiftl_mul_pow2, u64_small by word_lia.
    rewrite bitlen_mul_pow2 by lia. pose proof (bitlen_le a' 63).
    split; [|lia]. split_and!; [word_lia|lia|lia].
  - destruct (while _ _ _ _) as [a' n]. rewrite HC. destruct HP as (Ra' & Hp & Hn).
    rewrite clz_cond, Z.ltb_ge in HC by done. f_equal.
    assert (bitlen a' = 64); [|lia]. apply bitlen_unique; [lia|]. destruct Ra'. by split.
Qed.

Lemma ctz_loop a :
  is_u64 a -> a <> 0 ->
  exists n, __ctzdi2 a = Some n /\ 0 <= n /\ a mod 2 ^ n = 0 /\ (a / 2 ^ n) mod 2 = 1.
Proof.
  intros Ha Hz. unfold __ctzdi2.
  pose proof (while_inv
    (fun '(a', n) => 0 < a' /\ 0 <= n /\ a = a' * 2 ^ n)
    (fun '(a', _) => Z.to_nat (bitlen a'))
    (fun '(a, _) => a &64 1 =? 0) (fun '(a, n) => (a >>64 1, n + 1)) 64 (a, 0)) as W.
  destruct W as [HP HC].
  - split_and!; word_lia.
  - pose proof (bitlen_le a 64). word_lia.
  - intros [a' n] (Hp & Hn & E) Hc. rewrite land_1_mod, Z.eqb_eq in Hc.
    rewrite shiftr_div by lia. change (2 ^ 1) with 2.
    pose proof (Z.div_mod a' 2 ltac:(lia)) as D. rewrite Hc, Z.add_0_r in D.
    rewrite bitlen_half by done. pose proof (bitlen_pos a' Hp).
    split; [|lia]. split_and!; [lia|lia|].
    rewrite E, Z.pow_add_r by lia. rewrite D at 1. ring.
  - destruct (while _ _ _ _) as [a' n]. rewrite HC. destruct HP as (Hp & Hn & E).
    exists n. pose proof (pow2_pos n Hn). subst a.
    rewrite Z.mod_mul, Z.div_mul by lia. split_and!; try done.
    rewrite land_1_mod, Z.eqb_neq in HC. pose proof (mod2_bounds a'). lia.
Qed.

(** C5: the bit-count loops are correct and end within a word's 64 steps:
    [__popcountdi2] counts the one bits, [__clzdi2] gives the number of
    leading zeros, [__ctzdi2] the exponent of the largest power of two
    dividing the word, and only the undefined zero input keeps them running. *)
Theorem bit_counts_correct (a : Z) :
  is_u64 a ->
  __popcountdi2 a = count_ones 64 a /\
  __clzdi2 a = (if a =? 0 then None else Some (64 - bitlen a)) /\
  (if a =? 0 then __ctzdi2 a = None
   else exists n, __ctzdi2 a = Some n /\ 0 <= n /\ a mod 2 ^ n = 0 /\ (a / 2 ^ n) mod 2 = 1).
Proof.
  intros Ha. split_and!.
  - by apply popcount_loop.
  - destruct (Z.eqb_spec a 0) as [->|]; [by vm_compute|by apply clz_loop].
  - destruct (Z.eqb_spec a 0) as [->|]; [by vm_compute|by apply ctz_loop].
Qed.

(** ** Witnesses *)
Definition int128_min : U128 := pair 0 (2 ^ 63).
Definition minus_one : U128 := pair (2 ^ 64 - 1) (2 ^ 64 - 1).

Lemma wf_int128_min : wf int128_min.
Proof. by split; unfold is_u64; cbn. Qed.
Lemma wf_minus_one : wf minus_one.
Proof. by split; unfold is_u64; cbn. Qed.

Lemma udivti3_umodti3_witness :
  __udivti3 minus_one int128_min = Some (pair 1 0) /\
  __udivti3 minus_one int128_min =
    (if uval int128_min =? 0 then None else Some (of_u128 (uval minus_one / uval int128_min))).
Proof.
  split; [reflexivity|].
  apply (udivti3_umodti3_correct minus_one int128_min wf_minus_one wf_int128_min).
Defined.

Lemma divti3_modti3_witness :
  __divti3 int128_min minus_one = Some int128_min /\
  __modti3 int128_min minus_one =
    (if sval minus_one =? 0 then None
     else Some (of_u128 (Z.rem (sval int128_min) (sval minus_one)))).
Proof.
  split; [reflexivity|].
  apply (divti3_modti3_correct int128_min minus_one wf_int128_min wf_minus_one).
Defined.

Lemma multi3_witness :
  __multi3 minus_one int128_min = int128_min /\
  __multi3 minus_one int128_min = of_u128 (sval minus_one * sval int128_min).
Proof.
  split; [reflexivity|].
  apply (multi3_correct minus_one int128_min wf_minus_one wf_int128_min).
Defined.

Lemma shifts_witness :
  __ashrti3 int128_min 127 = minus_one /\
  __ashrti3 int128_min 127 = of_u128 (sval int128_min / 2 ^ 127).
Proof.
  split; [reflexivity|].
  apply (shifts_correct int128_min 127 wf_int128_min). lia.
Defined.

Lemma bit_counts_witness :
  __ctzdi2 40 = Some 3 /\ __popcountdi2 40 = count_ones 64 40.
Proof.
  split; [reflexivity|]. apply (bit_counts_correct 40). unfold is_u64. lia.
Defined.
