(* ===== verification/Bigint.v ===== *)
(** [src/util/bigint.c]: the fixed-capacity unsigned bignum behind correctly
    rounded decimal conversion.  Each routine is translated with its loops
    over the word array, and proved to compute on the value the used words
    denote, or to refuse by setting [overflow]. *)
From S2P Require Import Prelude.

Definition BIGINT_WORDS : nat := 768.

(** [w] is the whole 768-word array, little-endian; only the first [len]
    words are significant. *)
Record BigInt := mkBigInt { w : list Z; len : nat; overflow : bool }.

Definition zero_words : list Z := replicate BIGINT_WORDS 0.

Definition bigint_set_u64 (v : Z) : BigInt :=
  if negb (v =? 0) then mkBigInt (<[0%nat := v]> zero_words) 1 false
  else mkBigInt zero_words 0 false.

Definition bigint_is_zero (b : BigInt) : bool := (len b =? 0)%nat.

(** [while (len > 0 && w[len - 1] == 0) len--;] *)
Fixpoint trim_len (ws : list Z) (n : nat) : nat :=
  match n with
  | O => O
  | S n' => if ws !!! n' =? 0 then trim_len ws n' else n
  end.
Definition trim (b : BigInt) : BigInt := mkBigInt (w b) (trim_len (w b) (len b)) (overflow b).

Definition bigint_bitlen (b : BigInt) : Z :=
  if (len b =? 0)%nat then 0
  else let top := w b !!! (len b - 1)%nat in
       (Z.of_nat (len b) - 1) * 64 + (bitlen_loop top 0).2.

Fixpoint cmp_words (aw bw : list Z) (n : nat) : Z :=
  match n with
  | O => 0
  | S i => if negb (aw !!! i =? bw !!! i) then (if aw !!! i <? bw !!! i then -1 else 1)
           else cmp_words aw bw i
  end.
Definition bigint_cmp (a b : BigInt) : Z :=
  if negb (len a =? len b)%nat then (if (len a <? len b)%nat then -1 else 1)
  else cmp_words (w a) (w b) (len a).

Definition bigint_test_bit (b : BigInt) (bit : Z) : bool :=
  let word := Z.to_nat (Z.quot bit 64) in
  if (len b <=? word)%nat then false
  else negb ((w b !!! word >>64 Z.rem bit 64) &64 1 =? 0).

(** The bit part of the shift: one pass upward with a carry, then a new top
    word when the carry is not zero. *)
Definition shl_bits (ws : list Z) (n : nat) (r : Z) : list Z * nat :=
  let '(ws, carry) :=
    for_up n 0 (fun i '(ws, carry) =>
      let v := ws !!! i in
      (<[i := (v <<64 r) |64 carry]> ws, v >>64 (64 - r))) (ws, 0) in
  if negb (carry =? 0) then (<[n := carry]> ws, S n) else (ws, n).

(** The word part: move up from the top, then clear the bottom. *)
Definition shl_words (ws : list Z) (n words : nat) : list Z :=
  let ws := for_down n (fun i ws => <[(i + words)%nat := ws !!! i]> ws) ws in
  for_up words 0 (fun i ws => <[i := 0]> ws) ws.

Definition bigint_shl (b : BigInt) (bits : Z) : BigInt :=
  let words := Z.to_nat (Z.quot bits 64) in
  let rem := Z.rem bits 64 in
  if (len b =? 0)%nat || (bits =? 0) then b
  else if (BIGINT_WORDS <? len b + words + 1)%nat then mkBigInt (w b) (len b) true
  else
    let '(ws, n) := if negb (rem =? 0) then shl_bits (w b) (len b) rem else (w b, len b) in
    if negb (words =? 0)%nat
    then mkBigInt (shl_words ws n words) (n + words) (overflow b)
    else mkBigInt ws n (overflow b).

(** One limb of the 64x32 multiply, in 32-bit halves. *)
Definition mul_small_step (m : Z) (i : nat) (st : list Z * Z) : list Z * Z :=
  let '(ws, carry) := st in
  let v := ws !!! i in
  let lo := (v &64 0xffffffff) *64 m +64 (carry &64 0xffffffff) in
  let hi := (v >>64 32) *64 m +64 (lo >>64 32) +64 (carry >>64 32) in
  (<[i := (lo &64 0xffffffff) |64 (hi <<64 32)]> ws, hi >>64 32).

Definition bigint_mul_small (b : BigInt) (m : Z) : BigInt :=
  if (len b =? 0)%nat || (m =? 1) then b
  else if m =? 0 then mkBigInt (w b) 0 (overflow b)
  else
    let '(ws, carry) := for_up (len b) 0 (mul_small_step m) (w b, 0) in
    if negb (carry =? 0) then
      if (BIGINT_WORDS <=? len b)%nat then mkBigInt ws (len b) true
      else mkBigInt (<[len b := carry]> ws) (S (len b)) (overflow b)
    else mkBigInt ws (len b) (overflow b).

(** [while (carry && i < len)]; at most [len] iterations. *)
Definition bigint_add_small (b : BigInt) (v : Z) : BigInt :=
  if overflow b || (v =? 0) then b
  else
    let '(ws, carry, _) :=
      while (len b)
        (fun '(_, carry, i) => negb (carry =? 0) && (i <? len b)%nat)
        (fun '(ws, carry, i) =>
           let old := ws !!! i in
           let new := old +64 carry in
           (<[i := new]> ws, b2z (new <? old), S i))
        (w b, v, 0%nat) in
    if negb (carry =? 0) then
      if (BIGINT_WORDS <=? len b)%nat then mkBigInt ws (len b) true
      else mkBigInt (<[len b := carry]> ws) (S (len b)) (overflow b)
    else mkBigInt ws (len b) (overflow b).

Definition pow10_table : list Z :=
  [1; 10; 100; 1000; 10000; 100000; 1000000; 10000000; 100000000; 1000000000].

Definition bigint_mul_pow10 (b : BigInt) (e : Z) : BigInt :=
  let '(b, e) :=
    while (Z.to_nat e)
      (fun '(b, e) => (9 <=? e) && negb (overflow b))
      (fun '(b, e) => (bigint_mul_small b 1000000000, e - 9)) (b, e) in
  if (0 <? e) && negb (overflow b)
  then bigint_mul_small b (pow10_table !!! Z.to_nat e) else b.

Definition sub_step (bw : list Z) (blen : nat) (i : nat) (st : list Z * Z) : list Z * Z :=
  let '(aw, borrow) := st in
  let bv := if (i <? blen)%nat then bw !!! i else 0 in
  let av := aw !!! i in
  let diff := av -64 bv -64 borrow in
  (<[i := diff]> aw,
   if (av <? (bv +64 borrow)) || ((bv +64 borrow) <? bv) then 1 else 0).

Definition bigint_sub (a b : BigInt) : BigInt :=
  let '(aw, _) := for_up (len a) 0 (sub_step (w b) (len b)) (w a, 0) in
  trim (mkBigInt aw (len a) (overflow a)).

(** [rem.w[0] |= 1], or the first word of an empty remainder. *)
Definition push_bit (r : BigInt) : BigInt :=
  if (len r =? 0)%nat then mkBigInt (<[0%nat := 1]> (w r)) 1 (overflow r)
  else mkBigInt (<[0%nat := (w r !!! 0%nat) |64 1]> (w r)) (len r) (overflow r).

(** One dividend bit of the schoolbook loop; [produced] counts quotient bits. *)
Definition divide_step (num den : BigInt) (i : nat) (st : BigInt * Z * Z * Z) :
    BigInt * Z * Z * Z :=
  let '(rem, hi, lo, produced) := st in
  let rem := bigint_shl rem 1 in
  let rem := if bigint_test_bit num (Z.of_nat i) then push_bit rem else rem in
  if 0 <=? bigint_cmp rem den then
    (bigint_sub rem den, (hi <<64 1) |64 (lo >>64 63), (lo <<64 1) |64 1, produced + 1)
  else if negb (produced =? 0) then
    (rem, (hi <<64 1) |64 (lo >>64 63), lo <<64 1, produced + 1)
  else (rem, hi, lo, produced).

(** Returns [(q_hi, q_lo, sticky)]; [qbits] is unused, as in the source. *)
Definition bigint_divide_bits (num den : BigInt) (qbits : Z) : Z * Z * bool :=
  let nb := bigint_bitlen num in
  let '(rem, hi, lo, _) :=
    for_down (Z.to_nat nb) (divide_step num den) (bigint_set_u64 0, 0, 0, 0) in
  (hi, lo, negb (bigint_is_zero rem)).

Example divide_ex :
  bigint_divide_bits (bigint_set_u64 1000) (bigint_set_u64 7) 0 = (0, 142, true).
Proof. vm_compute. reflexivity. Qed.

(** ** The value of an array prefix *)
Fixpoint lsum (ws : list Z) (n : nat) : Z :=
  match n with
  | O => 0
  | S n' => lsum ws n' + ws !!! n' * 2 ^ (64 * Z.of_nat n')
  end.

Definition bval (b : BigInt) : Z := lsum (w b) (len b).

(** The representation invariant: the array has its 768 slots, every slot is
    a word, and the top significant word is not zero. *)
Definition words_ok (ws : list Z) : Prop :=
  length ws = BIGINT_WORDS /\ forall i, is_u64 (ws !!! i).
Definition trimmed (ws : list Z) (n : nat) : Prop := n = O \/ ws !!! (n - 1)%nat <> 0.
Definition wf (b : BigInt) : Prop :=
  words_ok (w b) /\ (len b <= BIGINT_WORDS)%nat /\ trimmed (w b) (len b).

Lemma B_S n : 2 ^ (64 * Z.of_nat (S n)) = 2 ^ (64 * Z.of_nat n) * 2 ^ 64.
Proof. rewrite <- Z.pow_add_r by lia. f_equal. lia. Qed.

Lemma B_pos n : 0 < 2 ^ (64 * Z.of_nat n).
Proof. apply pow2_pos. lia. Qed.

Lemma B_add n k : 2 ^ (64 * Z.of_nat (n + k)) = 2 ^ (64 * Z.of_nat n) * 2 ^ (64 * Z.of_nat k).
Proof. rewrite <- Z.pow_add_r by lia. f_equal. lia. Qed.

Lemma lsum_ext ws ws' n :
  (forall i, (i < n)%nat -> ws !!! i = ws' !!! i) -> lsum ws n = lsum ws' n.
Proof.
  induction n as [|n IH]; intros H; simpl; [done|].
  rewrite H by lia. rewrite IH; [done|]. intros. apply H. lia.
Qed.

Lemma lsum_insert_ge ws n j x : (n <= j)%nat -> lsum (<[j := x]> ws) n = lsum ws n.
Proof. intros. apply lsum_ext. intros. rewrite list_lookup_total_insert_ne; [done|lia]. Qed.

Lemma lsum_insert_S ws n x :
  (n < length ws)%nat ->
  lsum (<[n := x]> ws) (S n) = lsum ws n + x * 2 ^ (64 * Z.of_nat n).
Proof.
  intros. cbn [lsum]. rewrite lsum_insert_ge by lia.
  by rewrite list_lookup_total_insert_eq.
Qed.

Lemma lsum_range ws n : words_ok ws -> 0 <= lsum ws n < 2 ^ (64 * Z.of_nat n).
Proof.
  intros [_ Hw]. induction n as [|n IH]; [done|].
  cbn [lsum]. rewrite B_S. specialize (Hw n). unfold is_u64 in Hw. pose proof (B_pos n). nia.
Qed.

Lemma words_ok_insert ws i x : words_ok ws -> is_u64 x -> words_ok (<[i := x]> ws).
Proof.
  intros [Hl Hw] Hx. split; [by rewrite length_insert|].
  intros j. destruct (decide (i = j)) as [->|].
  - destruct (decide (j < length ws)%nat).
    + by rewrite list_lookup_total_insert_eq.
    + rewrite list_insert_ge by lia. apply Hw.
  - rewrite list_lookup_total_insert_ne by done. apply Hw.
Qed.

Lemma words_ok_zero : words_ok zero_words.
Proof.
  split; [done|]. intros i. unfold zero_words.
  destruct (decide (i < BIGINT_WORDS)%nat).
  - rewrite lookup_total_replicate_2 by done. done.
  - rewrite list_lookup_total_alt, lookup_ge_None_2 by (rewrite length_replicate; lia). done.
Qed.

(** The significant length is determined by the value. *)
Lemma bval_lower b : wf b -> len b <> O -> 2 ^ (64 * (Z.of_nat (len b) - 1)) <= bval b.
Proof.
  intros (Hw & Hl & [?|Ht]) Hn; [done|]. unfold bval.
  destruct (len b) as [|n]; [done|]. cbn [lsum].
  rewrite Nat.sub_1_r, Nat.pred_succ in Ht.
  replace (Z.of_nat (S n) - 1) with (Z.of_nat n) by lia.
  pose proof (lsum_range (w b) n Hw). destruct Hw as [_ Hw]. specialize (Hw n).
  unfold is_u64 in Hw. pose proof (B_pos n). nia.
Qed.

Lemma bval_range b : wf b -> 0 <= bval b < 2 ^ (64 * Z.of_nat (len b)).
Proof. intros (Hw & _). by apply lsum_range. Qed.

Lemma bval_zero b : wf b -> bval b = 0 <-> len b = O.
Proof.
  intros W. split.
  - intros E. destruct (decide (len b = O)) as [|Hn]; [done|].
    pose proof (bval_lower b W Hn). pose proof (pow2_pos (64 * (Z.of_nat (len b) - 1))). lia.
  - unfold bval. by intros ->.
Qed.

(** A value below [2^(64 k)] uses at most [k] words. *)
Lemma len_le b k : wf b -> bval b < 2 ^ (64 * Z.of_nat k) -> (len b <= k)%nat.
Proof.
  intros W Hv. destruct (decide (len b = O)) as [|Hn]; [lia|].
  pose proof (bval_lower b W Hn). destruct (decide (len b <= k)%nat); [done|].
  pose proof (pow2_le (64 * Z.of_nat k) (64 * (Z.of_nat (len b) - 1))). lia.
Qed.

(** ** Construction, length and comparison *)
Lemma set_u64_spec v :
  is_u64 v -> wf (bigint_set_u64 v) /\ bval (bigint_set_u64 v) = v /\
  overflow (bigint_set_u64 v) = false.
Proof.
  intros Hv. unfold bigint_set_u64. destruct (Z.eqb_spec v 0) as [->|Hz]; cbn [negb].
  - split_and!; try done. split_and!; [apply words_ok_zero|cbn; lia|by left].
  - assert (0 < length zero_words)%nat as Hl by (unfold zero_words, BIGINT_WORDS; rewrite length_replicate; lia).
    split; [split; [|split]|split; [|done]].
    + by apply words_ok_insert; [apply words_ok_zero|].
    + cbn. unfold BIGINT_WORDS. lia.
    + right. cbn [w len Nat.sub]. by rewrite list_lookup_total_insert_eq.
    + unfold bval. cbn [w len]. rewrite lsum_insert_S by done.
      cbn [lsum]. change (64 * Z.of_nat 0) with 0. lia.
Qed.

Lemma trim_len_spec ws n :
  (trim_len ws n <= n)%nat /\ lsum ws (trim_len ws n) = lsum ws n /\ trimmed ws (trim_len ws n).
Proof.
  induction n as [|n (IHl & IHs & IHt)]; cbn [trim_len].
  - split_and!; [done|done|by left].
  - destruct (Z.eqb_spec (ws !!! n) 0) as [E|E].
    + split_and!; [lia| |done]. rewrite IHs. cbn [lsum]. rewrite E. lia.
    + split_and!; [done|done|]. right. by rewrite Nat.sub_1_r.
Qed.

Lemma bitlen_spec' b : wf b -> bigint_bitlen b = bitlen (bval b).
Proof.
  intros W. unfold bigint_bitlen. destruct (Nat.eqb_spec (len b) 0) as [E|E].
  - by rewrite (proj2 (bval_zero b W) E).
  - destruct W as (Hw & Hl & [?|Ht]); [done|]. unfold bval.
    destruct (len b) as [|n]; [done|]. rewrite Nat.sub_1_r, Nat.pred_succ in *.
    pose proof (lsum_range (w b) n Hw) as R. pose proof (proj2 Hw n) as Rt.
    rewrite bitlen_loop_spec by done. cbn [snd lsum]. unfold is_u64 in Rt.
    assert (0 < w b !!! n) by lia.
    symmetry. pose proof (bitlen_pos (w b !!! n)). pose proof (bitlen_spec (w b !!! n)).
    set (t := w b !!! n) in *. set (bl := bitlen t) in *.
    replace ((Z.of_nat (S n) - 1) * 64 + (0 + bl)) with (64 * Z.of_nat n + bl) by lia.
    apply bitlen_unique; [lia|].
    replace (64 * Z.of_nat n + bl - 1) with (64 * Z.of_nat n + (bl - 1)) by lia.
    rewrite !Z.pow_add_r by lia. pose proof (B_pos n). nia.
Qed.

Lemma cmp_words_spec aw bw n :
  words_ok aw -> words_ok bw -> cmp_words aw bw n = cmp3 (lsum aw n ?= lsum bw n).
Proof.
  intros Ha Hb. induction n as [|n IH]; [done|]. cbn [cmp_words lsum].
  pose proof (lsum_range aw n Ha). pose proof (lsum_range bw n Hb). pose proof (B_pos n).
  destruct (Z.eqb_spec (aw !!! n) (bw !!! n)) as [E|E]; cbn [negb].
  - rewrite IH, E, !(Z.add_comm _ (bw !!! n * _)). by rewrite Z.add_compare_mono_l.
  - destruct (Z.ltb_spec (aw !!! n) (bw !!! n)).
    + rewrite (proj2 (Z.compare_lt_iff _ _)); [done|nia].
    + rewrite (proj2 (Z.compare_gt_iff _ _)); [done|nia].
Qed.

Lemma cmp_spec a b : wf a -> wf b -> bigint_cmp a b = cmp3 (bval a ?= bval b).
Proof.
  intros Wa Wb. unfold bigint_cmp.
  destruct (Nat.eqb_spec (len a) (len b)) as [E|E]; cbn [negb].
  - unfold bval. rewrite <- E. apply cmp_words_spec; [apply Wa|apply Wb].
  - pose proof (bval_range a Wa). pose proof (bval_range b Wb).
    destruct (Nat.ltb_spec (len a) (len b)).
    + pose proof (bval_lower b Wb). pose proof (pow2_le (64 * Z.of_nat (len a)) (64 * (Z.of_nat (len b) - 1))).
      rewrite (proj2 (Z.compare_lt_iff _ _)); [done|lia].
    + pose proof (bval_lower a Wa). pose proof (pow2_le (64 * Z.of_nat (len b)) (64 * (Z.of_nat (len a) - 1))).
      rewrite (proj2 (Z.compare_gt_iff _ _)); [done|lia].
Qed.

Lemma cmp_ge a b : wf a -> wf b -> (0 <=? bigint_cmp a b) = (bval b <=? bval a).
Proof.
  intros. rewrite cmp_spec by done.
  destruct (Z.compare_spec (bval a) (bval b)), (Z.leb_spec (bval b) (bval a)); simpl; done || lia.
Qed.

(** A bit of the value is a bit of the word that holds it. *)
Lemma lsum_testbit ws n i k :
  words_ok ws -> (i < n)%nat -> 0 <= k < 64 ->
  Z.testbit (lsum ws n) (64 * Z.of_nat i + k) = Z.testbit (ws !!! i) k.
Proof.
  intros Hw Hi Hk. induction n as [|n IH]; [lia|]. cbn [lsum].
  pose proof (lsum_range ws n Hw) as R. pose proof (proj2 Hw) as Hu.
  destruct (decide (i = n)) as [->|].
  - rewrite Z.testbit_eqb, Z.pow_add_r, <- Z.div_div by (try apply B_pos; lia).
    rewrite Z.add_comm, Z.div_add_l by (pose proof (B_pos n); lia).
    rewrite (Z.div_small (lsum ws n)), Z.add_0_r by done. by rewrite Z.testbit_eqb by lia.
  - rewrite <- IH by lia. rewrite Z.add_comm.
    rewrite <- (Z.mod_pow2_bits_low (_ + _) (64 * Z.of_nat n)) by lia.
    rewrite Z.add_comm, Z.mod_add by (pose proof (B_pos n); lia). by rewrite Z.mod_small.
Qed.

Lemma test_bit_spec b i : wf b -> 0 <= i -> bigint_test_bit b i = Z.testbit (bval b) i.
Proof.
  intros W Hi. pose proof W as (Hw & Hl & _). unfold bigint_test_bit.
  rewrite Z.quot_div_nonneg, Z.rem_mod_nonneg by lia.
  pose proof (Z.div_pos i 64 Hi ltac:(lia)). pose proof (Z.mod_pos_bound i 64 ltac:(lia)).
  pose proof (Z.div_mod i 64 ltac:(lia)) as E.
  destruct (Nat.leb_spec (len b) (Z.to_nat (i / 64))).
  - symmetry. pose proof (bval_range b W). apply (testbit_high (64 * Z.of_nat (len b))); [done|lia].
  - rewrite E at 3. rewrite <- (Z2Nat.id (i / 64)) at 2 by done.
    unfold bval. rewrite lsum_testbit by (done || lia).
    rewrite land_1_mod, shiftr_div, Z.testbit_eqb by lia.
    pose proof (mod2_bounds (w b !!! Z.to_nat (i / 64) / 2 ^ (i mod 64))).
    destruct (Z.eqb_spec ((w b !!! Z.to_nat (i / 64) / 2 ^ (i mod 64)) mod 2) 0) as [->|]; [done|].
    symmetry. apply Z.eqb_eq. lia.
Qed.

(** ** Limb-by-limb loops

    Each loop replaces word [i] and passes a carry up.  [limb_inv] is the
    invariant they share: below [i] the new words and the carry denote
    [f i], from [i] on the array is untouched. *)
Definition limb_inv (ws0 : list Z) (cmax : Z) (f : nat -> Z) (i : nat) (st : list Z * Z) : Prop :=
  let '(ws, carry) := st in
  words_ok ws /\ 0 <= carry < cmax /\
  lsum ws i + carry * 2 ^ (64 * Z.of_nat i) = f i /\
  forall j, (i <= j)%nat -> ws !!! j = ws0 !!! j.

Lemma limb_inv_step ws0 cmax f i ws carry x carry' :
  limb_inv ws0 cmax f i (ws, carry) ->
  (i < BIGINT_WORDS)%nat -> is_u64 x -> 0 <= carry' < cmax ->
  (x + carry' * 2 ^ 64 - carry) * 2 ^ (64 * Z.of_nat i) = f (S i) - f i ->
  limb_inv ws0 cmax f (S i) (<[i := x]> ws, carry').
Proof.
  intros (Hw & Hc & Hs & Hr) Hi Hx Hc' Hf. pose proof Hw as [Hlen _].
  split_and!; [by apply words_ok_insert|lia|lia| |].
  - rewrite lsum_insert_S, B_S by (rewrite Hlen; done). lia.
  - intros j Hj. rewrite list_lookup_total_insert_ne by lia. apply Hr. lia.
Qed.

Lemma limb_inv_init ws cmax f : words_ok ws -> 0 < cmax -> f O = 0 -> limb_inv ws cmax f 0 (ws, 0).
Proof. intros ? ? E. split; [done|]. split; [lia|]. split; [by rewrite E|done]. Qed.

Lemma trimmed_of_ge ws n :
  words_ok ws -> (0 < n)%nat -> 2 ^ (64 * (Z.of_nat n - 1)) <= lsum ws n -> trimmed ws n.
Proof.
  intros Hw Hn Hge. right. intros E. destruct n as [|n]; [lia|].
  rewrite Nat.sub_1_r, Nat.pred_succ in E. cbn [lsum] in Hge. rewrite E in Hge.
  replace (Z.of_nat (S n) - 1) with (Z.of_nat n) in Hge by lia.
  pose proof (lsum_range ws n Hw). lia.
Qed.

(** Pushing a carry word on top, or not when it is zero. *)
Lemma push_carry ws n carry v :
  words_ok ws -> ((n < BIGINT_WORDS)%nat \/ carry = 0) -> is_u64 carry ->
  lsum ws n + carry * 2 ^ (64 * Z.of_nat n) = v -> 2 ^ (64 * (Z.of_nat n - 1)) <= v ->
  let '(ws', n') := if negb (carry =? 0) then (<[n := carry]> ws, S n) else (ws, n) in
  words_ok ws' /\ (n <= n' <= S n)%nat /\ trimmed ws' n' /\ lsum ws' n' = v.
Proof.
  intros Hw Hn Hc Hv Hge. destruct (Z.eqb_spec carry 0) as [->|Hz]; cbn [negb].
  - split_and!; [done|lia|lia| |lia].
    destruct n as [|n]; [by left|]. apply trimmed_of_ge; [done|lia|lia].
  - split_and!; [by apply words_ok_insert|lia|lia| |].
    + right. cbn [Nat.sub]. rewrite Nat.sub_0_r, list_lookup_total_insert_eq; [done|].
      rewrite (proj1 Hw). lia.
    + rewrite lsum_insert_S by (rewrite (proj1 Hw); lia). done.
Qed.

(** ** Left shift *)
Lemma shl_bits_spec ws n r :
  words_ok ws -> (0 < n < BIGINT_WORDS)%nat -> 0 < r < 64 -> trimmed ws n ->
  let '(ws', n') := shl_bits ws n r in
  words_ok ws' /\ (n <= n' <= S n)%nat /\ trimmed ws' n' /\ lsum ws' n' = lsum ws n * 2 ^ r.
Proof.
  intros Hw Hn Hr Ht. unfold shl_bits.
  pose proof (for_up_inv (limb_inv ws (2 ^ r) (fun i => lsum ws i * 2 ^ r))
    (fun i '(ws, carry) => let v := ws !!! i in
       (<[i := (v <<64 r) |64 carry]> ws, v >>64 (64 - r))) n 0 (ws, 0)) as L.
  destruct (for_up n 0 _ (ws, 0)) as [ws' carry]. destruct L as (Hw' & Hc & Hs & _).
  - apply limb_inv_init; [done|apply pow2_pos; lia|done].
  - intros i [ws1 c] Hi HI. pose proof HI as (Hw1 & Hc & Hs & Hrest).
    pose proof (proj2 Hw1 i) as Hv.
    pose proof (shl64_split (ws1 !!! i) r ltac:(lia)) as Esp.
    pose proof (shr64_range (ws1 !!! i) (64 - r) ltac:(lia) Hv) as Rc.
    replace (64 - (64 - r)) with r in Rc by lia.
    assert (c < 2 ^ 64) by (pose proof (pow2_lt r 64); lia).
    eapply limb_inv_step; [done|lia| |done|].
    + apply lor_u64; [apply u64_range|word_lia].
    + rewrite (lor_add_disjoint c _ r); [|lia|done|apply shl64_divisible; lia].
      cbn [lsum]. rewrite <- (Hrest i) by lia.
      rewrite Z.mul_add_distr_r.
      replace (ws1 !!! i * 2 ^ (64 * Z.of_nat i) * 2 ^ r)
        with (ws1 !!! i * 2 ^ r * 2 ^ (64 * Z.of_nat i)) by ring.
      rewrite Esp. ring.
  - cbn [plus] in *. pose proof (pow2_lt r 64).
    apply push_carry; [done|lia|word_lia|done|].
    assert (2 ^ (64 * (Z.of_nat n - 1)) <= lsum ws n).
    { destruct Ht as [?|Ht]; [lia|]. destruct n as [|n]; [lia|].
      rewrite Nat.sub_1_r, Nat.pred_succ in Ht. cbn [lsum].
      replace (Z.of_nat (S n) - 1) with (Z.of_nat n) by lia.
      pose proof (lsum_range ws n Hw). pose proof (proj2 Hw n) as Hu. unfold is_u64 in Hu.
      pose proof (B_pos n). nia. }
    pose proof (pow2_pos r). nia.
Qed.

Lemma lsum_shift ws ws' n k :
  (forall i, (i < n)%nat -> ws' !!! (i + k)%nat = ws !!! i) ->
  (forall i, (i < k)%nat -> ws' !!! i = 0) ->
  lsum ws' (n + k) = lsum ws n * 2 ^ (64 * Z.of_nat k).
Proof.
  intros Hm Hz. induction n as [|n IH]; cbn [lsum plus].
  - clear Hm. induction k as [|k IH]; cbn [lsum]; [done|].
    rewrite IH, Hz by (intros; apply Hz || lia; lia). done.
  - rewrite IH, Hm, B_add by (intros; apply Hm || lia; lia). ring.
Qed.

Lemma shl_words_spec ws n k :
  words_ok ws -> (n + k <= BIGINT_WORDS)%nat ->
  words_ok (shl_words ws n k) /\
  (forall i, (i < n)%nat -> shl_words ws n k !!! (i + k)%nat = ws !!! i) /\
  (forall i, (i < k)%nat -> shl_words ws n k !!! i = 0).
Proof.
  intros Hw Hn. unfold shl_words.
  pose proof (for_down_inv (fun j ws' => words_ok ws' /\
      (forall i, (j <= i < n)%nat -> ws' !!! (i + k)%nat = ws !!! i) /\
      (forall i, (i < j)%nat -> ws' !!! i = ws !!! i))
    (fun i ws => <[(i + k)%nat := ws !!! i]> ws) n ws) as L.
  set (ws1 := for_down n _ ws) in *. destruct L as (Hw1 & Hm1 & _).
  - split_and!; [done|intros; lia|done].
  - intros j ws' Hj (Hw' & Hm & Hlo). pose proof (proj2 Hw' j). pose proof (proj1 Hw') as Hlen.
    split_and!; [by apply words_ok_insert| |].
    + intros i Hi. destruct (decide (i = j)) as [->|].
      * rewrite list_lookup_total_insert_eq by lia. apply Hlo. lia.
      * rewrite list_lookup_total_insert_ne by lia. apply Hm. lia.
    + intros i Hi. rewrite list_lookup_total_insert_ne by lia. apply Hlo. lia.
  - pose proof (for_up_inv (fun j ws' => words_ok ws' /\
        (forall i, (k <= i)%nat -> ws' !!! i = ws1 !!! i) /\
        (forall i, (i < j)%nat -> ws' !!! i = 0))
      (fun i ws => <[i := 0]> ws) k 0 ws1) as L.
    destruct L as (Hw2 & Hhi & Hz).
    + split_and!; [done|done|intros; lia].
    + intros j ws' Hj (Hw' & Hhi & Hz). pose proof (proj1 Hw') as Hlen.
      split_and!; [apply words_ok_insert; [done|word_lia]| |].
      * intros i Hi. rewrite list_lookup_total_insert_ne by lia. by apply Hhi.
      * intros i Hi. destruct (decide (i = j)) as [->|].
        -- by rewrite list_lookup_total_insert_eq by lia.
        -- rewrite list_lookup_total_insert_ne by lia. apply Hz. lia.
    + split_and!; [done| |done]. intros i Hi. rewrite Hhi by lia. apply Hm1. lia.
Qed.

(** Does the shift fit the capacity check? *)
Definition shl_fits (b : BigInt) (bits : Z) : Prop :=
  (len b + Z.to_nat (bits / 64) + 1 <= BIGINT_WORDS)%nat \/ len b = O \/ bits = 0.

Lemma shl_spec b bits :
  wf b -> 0 <= bits -> shl_fits b bits ->
  wf (bigint_shl b bits) /\ bval (bigint_shl b bits) = bval b * 2 ^ bits /\
  overflow (bigint_shl b bits) = overflow b.
Proof.
  intros W Hb Hf. unfold bigint_shl.
  rewrite Z.quot_div_nonneg, Z.rem_mod_nonneg by lia.
  destruct (Nat.eqb_spec (len b) 0) as [E0|E0]; cbn [orb].
  { rewrite (proj2 (bval_zero b W) E0). done. }
  destruct (Z.eqb_spec bits 0) as [->|Eb].
  { rewrite Z.mul_1_r. done. }
  destruct Hf as [Hf|[?|?]]; [|done|done].
  set (k := Z.to_nat (bits / 64)) in *. set (r := bits mod 64).
  destruct (Nat.ltb_spec BIGINT_WORDS (len b + k + 1)); [lia|].
  pose proof (Z.mod_pos_bound bits 64 ltac:(lia)) as Hr. fold r in Hr.
  assert (bits = 64 * Z.of_nat k + r) as Ebits.
  { unfold k, r. rewrite Z2Nat.id by (apply Z.div_pos; lia). apply Z.div_mod. lia. }
  destruct W as (Hw & Hl & Ht).
  assert (exists ws n, (if negb (r =? 0) then shl_bits (w b) (len b) r else (w b, len b)) = (ws, n) /\
    words_ok ws /\ (len b <= n <= S (len b))%nat /\ trimmed ws n /\ lsum ws n = bval b * 2 ^ r)
    as (ws & n & -> & Hw' & Hn & Ht' & Hs).
  { destruct (Z.eqb_spec r 0) as [Er|Er]; cbn [negb].
    - exists (w b), (len b). rewrite Er, Z.mul_1_r. split_and!; done || lia.
    - pose proof (shl_bits_spec (w b) (len b) r Hw ltac:(lia) ltac:(lia) Ht) as L.
      destruct (shl_bits _ _ _) as [ws n]. exists ws, n. by destruct L as (? & ? & ? & ?). }
  rewrite Ebits, Z.add_comm, Z.pow_add_r, Z.mul_assoc, <- Hs by lia.
  destruct (Nat.eqb_spec k 0) as [Ek|Ek]; cbn [negb].
  - rewrite Ek in *. split_and!; [|cbn|done].
    + split_and!; [done|cbn; lia|done].
    + rewrite Z.mul_1_r. done.
  - destruct (shl_words_spec ws n k Hw' ltac:(lia)) as (Hw2 & Hm & Hz).
    split_and!; [|unfold bval; cbn [w len]; by apply lsum_shift|done].
    split_and!; [done|cbn; lia|]. right. cbn [w len].
    replace (n + k - 1)%nat with (n - 1 + k)%nat by lia. rewrite Hm by lia.
    destruct Ht'; [lia|done].
Qed.

Lemma shl_refuses b bits :
  0 <= bits -> ~ shl_fits b bits ->
  bigint_shl b bits = mkBigInt (w b) (len b) true.
Proof.
  intros Hb Hf. unfold shl_fits in Hf. unfold bigint_shl.
  rewrite Z.quot_div_nonneg, Z.rem_mod_nonneg by lia.
  destruct (Nat.eqb_spec (len b) 0) as [|_]; [tauto|].
  destruct (Z.eqb_spec bits 0) as [|_]; [tauto|]. cbn [orb].
  destruct (Nat.ltb_spec BIGINT_WORDS (len b + Z.to_nat (bits / 64) + 1)); [done|lia].
Qed.

(** ** Multiplication and addition by a small word

    [CAP] is the first value the array cannot hold.  [repr b v] says [b]
    holds [v], or that [v] is too large and [b] is marked. *)
Lemma BW_pos : (0 < BIGINT_WORDS)%nat.
Proof. unfold BIGINT_WORDS. lia. Qed.

Lemma BW_gt1 : (1 < BIGINT_WORDS)%nat.
Proof. unfold BIGINT_WORDS. lia. Qed.

Definition CAP : Z := 2 ^ (64 * Z.of_nat BIGINT_WORDS).

Lemma CAP_eq : 2 ^ (64 * Z.of_nat BIGINT_WORDS) = CAP.
Proof. unfold CAP. exact eq_refl. Qed.

Lemma CAP_pos : 0 < CAP.
Proof. apply pow2_pos. lia. Qed.

#[local] Opaque CAP BIGINT_WORDS.

Definition holds (b : BigInt) (v : Z) : Prop :=
  wf b /\ overflow b = false /\ bval b = v.
Definition repr (b : BigInt) (v : Z) : Prop :=
  (holds b v /\ v < CAP) \/ (overflow b = true /\ CAP <= v).

Lemma mul_small_limb v m c :
  is_u64 v -> is_u32 m -> 0 <= c < 2 ^ 32 ->
  let lo := (v &64 0xffffffff) *64 m +64 (c &64 0xffffffff) in
  let hi := (v >>64 32) *64 m +64 (lo >>64 32) +64 (c >>64 32) in
  is_u64 ((lo &64 0xffffffff) |64 (hi <<64 32)) /\ 0 <= hi >>64 32 < 2 ^ 32 /\
  ((lo &64 0xffffffff) |64 (hi <<64 32)) + (hi >>64 32) * 2 ^ 64 = v * m + c.
Proof.
  intros Hv Hm Hc. cbv zeta. change 0xffffffff with (2 ^ 32 - 1).
  rewrite !land_ones_mod, !shiftr_div by lia.
  rewrite (Z.mod_small c), (Z.div_small c), Z.add_0_r by lia.
  unfold is_u64, is_u32 in *.
  pose proof (Z.div_mod v (2 ^ 32) ltac:(lia)) as Ev.
  pose proof (Z.mod_pos_bound v (2 ^ 32) ltac:(lia)).
  assert (0 <= v / 2 ^ 32 < 2 ^ 32) by (Z.div_mod_to_equations; lia).
  set (v0 := v mod 2 ^ 32) in *. set (v1 := v / 2 ^ 32) in *. clearbody v0 v1. subst v.
  replace ((2 ^ 32 * v1 + v0) * m) with (v1 * m * 2 ^ 32 + v0 * m) by ring.
  assert (0 <= v0 * m <= (2 ^ 32 - 1) * (2 ^ 32 - 1)) by nia.
  assert (0 <= v1 * m <= (2 ^ 32 - 1) * (2 ^ 32 - 1)) by nia.
  set (p0 := v0 * m) in *. set (p1 := v1 * m) in *. clearbody p0 p1.
  rewrite (u64_small p0), (u64_small p1) by (unfold is_u64; lia).
  rewrite (u64_small (p0 + c)) by (unfold is_u64; lia).
  pose proof (Z.div_mod (p0 + c) (2 ^ 32) ltac:(lia)) as El.
  pose proof (Z.mod_pos_bound (p0 + c) (2 ^ 32) ltac:(lia)).
  assert (0 <= (p0 + c) / 2 ^ 32 < 2 ^ 32) by (Z.div_mod_to_equations; lia).
  set (l0 := (p0 + c) mod 2 ^ 32) in *. set (l1 := (p0 + c) / 2 ^ 32) in *. clearbody l0 l1.
  rewrite (u64_small (p1 + l1)) by (unfold is_u64; lia).
  rewrite (u64_small (p1 + l1)) by (unfold is_u64; lia).
  rewrite Z.lor_comm, (lor_add_disjoint l0 _ 32); [|lia|lia|apply shl64_divisible; lia].
  unfold u64. rewrite Z.shiftl_mul_pow2 by lia.
  change (2 ^ 64) with (2 ^ 32 * 2 ^ 32). rewrite Z.mul_mod_distr_r by lia.
  pose proof (Z.div_mod (p1 + l1) (2 ^ 32) ltac:(lia)) as Eh.
  pose proof (Z.mod_pos_bound (p1 + l1) (2 ^ 32) ltac:(lia)).
  assert (0 <= (p1 + l1) / 2 ^ 32 < 2 ^ 32) by (Z.div_mod_to_equations; lia).
  split_and!; lia.
Qed.

Lemma mul_small_loop b m :
  wf b -> is_u32 m ->
  let '(ws, carry) := for_up (len b) 0 (mul_small_step m) (w b, 0) in
  words_ok ws /\ 0 <= carry < 2 ^ 32 /\
  lsum ws (len b) + carry * 2 ^ (64 * Z.of_nat (len b)) = bval b * m.
Proof.
  intros (Hw & Hl & Ht) Hm.
  pose proof (for_up_inv (limb_inv (w b) (2 ^ 32) (fun i => lsum (w b) i * m))
    (mul_small_step m) (len b) 0 (w b, 0)) as L.
  destruct (for_up _ 0 _ _) as [ws carry]. destruct L as (? & ? & ? & _); [| |done].
  - by apply limb_inv_init.
  - intros i [ws1 c] Hi HI. pose proof HI as (Hw1 & Hc & Hs & Hrest).
    destruct (mul_small_limb (ws1 !!! i) m c (proj2 Hw1 i) Hm Hc) as (Hx & Hc' & E).
    unfold mul_small_step. eapply limb_inv_step; [done|lia|done|done|].
    rewrite E. cbn [lsum]. rewrite <- (Hrest i) by lia. ring.
Qed.

Lemma mul_small_overflow b m : overflow b = true -> overflow (bigint_mul_small b m) = true.
Proof.
  intros H. unfold bigint_mul_small. repeat case_match; done.
Qed.

Lemma mul_small_repr b v m :
  repr b v -> 1 <= m < 2 ^ 32 -> repr (bigint_mul_small b m) (v * m).
Proof.
  intros [[(W & Ho & Hv) Hlt]|[Ho Hge]] Hm; [|right; split; [by apply mul_small_overflow|pose proof CAP_pos; nia]].
  unfold bigint_mul_small.
  destruct (Nat.eqb_spec (len b) 0) as [E0|E0]; cbn [orb].
  { apply (bval_zero b W) in E0. subst v. rewrite E0 in *. rewrite Z.mul_0_l.
    left. split; [|assumption]. split; [|split]; assumption. }
  destruct (Z.eqb_spec m 1) as [->|E1]; [rewrite Z.mul_1_r; by left|].
  destruct (Z.eqb_spec m 0); [lia|].
  pose proof (mul_small_loop b m W ltac:(word_lia)) as L.
  destruct (for_up _ _ _ _) as [ws carry]. destruct L as (Hw & Hc & Hs).
  pose proof (lsum_range ws (len b) Hw) as Hr. pose proof (proj1 (proj2 W)) as Hl.
  pose proof (bval_lower b W E0) as Hlow.
  destruct (Nat.leb_spec BIGINT_WORDS (len b)) as [Hfull|Hroom].
  - assert (len b = BIGINT_WORDS) as Hfl by lia. rewrite Hfl in *. rewrite CAP_eq in *.
    destruct (Z.eqb_spec carry 0) as [->|Hcz]; cbn [negb].
    + left. split; [|lia]. split_and!; [|done|unfold bval; cbn [w len]; lia].
      split_and!; cbn [w len]; [done|lia|]. apply trimmed_of_ge; [done|pose proof BW_pos; lia|].
      nia.
    + right. split; [done|]. subst v. assert (1 <= carry) by lia.
      pose proof CAP_pos. nia.
  - pose proof (push_carry ws (len b) carry (bval b * m) Hw ltac:(lia) ltac:(word_lia) Hs ltac:(nia)) as L.
    left. assert (v * m < CAP).
    { subst v. rewrite <- Hs. rewrite <- CAP_eq.
      assert (carry < 2 ^ 64) by lia. pose proof (B_pos (len b)).
      apply Z.lt_le_trans with (2 ^ (64 * Z.of_nat (S (len b)))); [rewrite B_S; nia|].
      apply pow2_le. lia. }
    destruct (Z.eqb_spec carry 0) as [->|Hcz]; cbn [negb] in *; destruct L as (? & ? & ? & ?);
      (split; [split_and!; [split_and!; cbn [w len]; done || lia|done|unfold bval; cbn [w len]; lia]|done]).
Qed.

Lemma lsum_insert ws n i x :
  (i < n)%nat -> (i < length ws)%nat ->
  lsum (<[i := x]> ws) n = lsum ws n + (x - ws !!! i) * 2 ^ (64 * Z.of_nat i).
Proof.
  intros Hi Hl. induction n as [|n IH]; [lia|]. cbn [lsum].
  destruct (decide (i = n)) as [->|].
  - rewrite lsum_insert_ge, list_lookup_total_insert_eq by lia. ring.
  - rewrite IH, list_lookup_total_insert_ne by lia. ring.
Qed.

Lemma add_small_repr b v d :
  repr b v -> 0 <= d < 2 ^ 32 -> repr (bigint_add_small b d) (v + d).
Proof.
  intros [[(W & Ho & Hv) Hlt]|[Ho Hge]] Hd; unfold bigint_add_small.
  2: { rewrite Ho. right. split; [done|lia]. }
  rewrite Ho. cbn [orb]. destruct (Z.eqb_spec d 0) as [->|Hdz].
  { rewrite Z.add_0_r. by left. }
  set (n := len b) in *. pose proof W as (Hw & Hl & Ht). fold n in Hl.
  set (P := fun st : list Z * Z * nat => let '(ws, carry, i) := st in
    words_ok ws /\ (i <= n)%nat /\ 0 <= carry < 2 ^ 32 /\
    lsum ws n + carry * 2 ^ (64 * Z.of_nat i) = v + d).
  pose proof (while_inv P (fun '(_, _, i) => (n - i)%nat)
    (fun '(_, carry, i) => negb (carry =? 0) && (i <? n)%nat)
    (fun '(ws, carry, i) => let old := ws !!! i in let new := old +64 carry in
      (<[i := new]> ws, b2z (new <? old), S i)) n (w b, d, 0%nat)) as L.
  destruct L as [HP HC].
  - split_and!; [done|lia|lia|lia|]. change (64 * Z.of_nat 0) with 0. fold (bval b). unfold bval in Hv. fold n in Hv. lia.
  - lia.
  - intros [[ws c] i] (Hw1 & Hi & Hc & Hs) Hcond.
    rewrite andb_true_iff, negb_true_iff, Z.eqb_neq, Nat.ltb_lt in Hcond.
    cbv zeta. split; [|lia]. pose proof (proj2 Hw1 i) as Hold. set (old := ws !!! i) in *.
    split_and!; [apply words_ok_insert; auto with words|lia|unfold b2z; case_match; lia
      |unfold b2z; case_match; lia|].
    rewrite lsum_insert, B_S by (rewrite ?(proj1 Hw1); pose proof BW_pos; lia).
    fold old. unfold is_u64 in Hold.
    assert (old +64 c + b2z (old +64 c <? old) * 2 ^ 64 = old + c) as E.
    { unfold u64, b2z. case_match; rewrite ?Z.ltb_lt, ?Z.ltb_ge in *; Z.div_mod_to_equations; lia. }
    nia.
  - destruct (while _ _ _ _) as [[ws carry] i].
    destruct HP as (Hw1 & Hi & Hc & Hs). rewrite andb_false_iff, negb_false_iff, Z.eqb_eq, Nat.ltb_ge in HC.
    assert (lsum ws n + carry * 2 ^ (64 * Z.of_nat n) = v + d) as Hs'.
    { destruct HC as [->|HC]; [lia|]. by replace n with i at 2 by lia. }
    clear HC Hs Hi i. pose proof (lsum_range ws n Hw1) as Hr.
    assert (2 ^ (64 * (Z.of_nat n - 1)) <= v + d) as Hlow.
    { destruct (decide (n = O)) as [E|E].
      - rewrite E. change (2 ^ (64 * (Z.of_nat 0 - 1))) with 0. pose proof (bval_range b W). lia.
      - pose proof (bval_lower b W E). fold n in H. lia. }
    destruct (Nat.leb_spec BIGINT_WORDS n) as [Hfull|Hroom].
    + assert (n = BIGINT_WORDS) as Hfl by lia. rewrite Hfl in *. rewrite CAP_eq in *.
      destruct (Z.eqb_spec carry 0) as [->|Hcz]; cbn [negb].
      * left. split; [|lia]. split_and!; [|done|unfold bval; cbn [w len]; lia].
        split_and!; cbn [w len]; [done|lia|]. apply trimmed_of_ge; [done|apply BW_pos|lia].
      * right. split; [done|]. pose proof CAP_pos. nia.
    + pose proof (push_carry ws n carry (v + d) Hw1 ltac:(lia) ltac:(word_lia) Hs' Hlow) as L.
      left. assert (v + d < CAP).
      { rewrite <- Hs'. rewrite <- CAP_eq. pose proof (B_pos n).
        apply Z.lt_le_trans with (2 ^ (64 * Z.of_nat (S n))); [rewrite B_S; nia|].
        apply pow2_le. lia. }
      destruct (Z.eqb_spec carry 0) as [->|Hcz]; cbn [negb] in *; destruct L as (? & ? & ? & ?);
        (split; [split_and!; [split_and!; cbn [w len]; done || lia|done|unfold bval; cbn [w len]; lia]|done]).
Qed.

(** ** Scaling by a power of ten *)
Lemma pow10_entry e :
  0 <= e < 10 -> pow10_table !!! Z.to_nat e = 10 ^ e /\ 1 <= 10 ^ e < 2 ^ 32.
Proof.
  intros He. assert (e = 0 \/ e = 1 \/ e = 2 \/ e = 3 \/ e = 4 \/ e = 5 \/ e = 6 \/ e = 7 \/
    e = 8 \/ e = 9) as Hc by lia.
  destruct_or! Hc; subst e; by vm_compute.
Qed.

Lemma mul_pow10_repr b v e :
  repr b v -> 0 <= v -> 0 <= e -> repr (bigint_mul_pow10 b e) (v * 10 ^ e).
Proof.
  intros HR Hv0 He. unfold bigint_mul_pow10.
  set (P := fun st : BigInt * Z => let '(b', e') := st in
    0 <= e' /\ exists v', repr b' v' /\ 0 <= v' /\ v' * 10 ^ e' = v * 10 ^ e).
  pose proof (while_inv P (fun '(_, e') => Z.to_nat e')
    (fun '(b, e) => (9 <=? e) && negb (overflow b))
    (fun '(b, e) => (bigint_mul_small b 1000000000, e - 9)) (Z.to_nat e) (b, e)) as L.
  destruct L as [HP HC].
  - split; [done|]. by exists v.
  - lia.
  - intros [b' e'] (He' & v' & HR' & Hv' & E) Hc.
    rewrite andb_true_iff, negb_true_iff, Z.leb_le in Hc. split; [|lia].
    split; [lia|]. exists (v' * 10 ^ 9). split_and!; [by apply mul_small_repr|lia|].
    rewrite <- E, <- Z.mul_assoc, <- Z.pow_add_r by lia. do 2 f_equal. lia.
  - destruct (while _ _ _ _) as [b' e']. destruct HP as (He' & v' & HR' & Hv' & E).
    rewrite andb_false_iff, negb_false_iff, Z.leb_gt in HC. rewrite <- E.
    destruct HR' as [[Hh Hlt]|[Ho Hge]].
    + assert (overflow b' = false) as Ho by apply Hh. rewrite Ho. cbn [negb]. rewrite andb_true_r.
      destruct HC as [HC|HC]; [|congruence].
      destruct (Z.ltb_spec 0 e').
      * destruct (pow10_entry e' ltac:(lia)) as [-> ?]. apply mul_small_repr; [by left|lia].
      * replace e' with 0 by lia. rewrite Z.mul_1_r. by left.
    + rewrite Ho, andb_false_r. right. split; [done|].
      pose proof (Z.pow_pos_nonneg 10 e'). nia.
Qed.

(** ** Subtraction *)
Lemma sub_loop a b :
  wf a -> wf b ->
  let '(aw, borrow) := for_up (len a) 0 (sub_step (w b) (len b)) (w a, 0) in
  words_ok aw /\ 0 <= borrow <= 1 /\
  lsum aw (len a) - borrow * 2 ^ (64 * Z.of_nat (len a)) =
    bval a - lsum (w b) (Nat.min (len a) (len b)).
Proof.
  intros (Hwa & Hla & _) (Hwb & _ & _).
  pose proof (for_up_inv (fun i st => let '(aw, borrow) := st in
      words_ok aw /\ 0 <= borrow <= 1 /\
      lsum aw i - borrow * 2 ^ (64 * Z.of_nat i) =
        lsum (w a) i - lsum (w b) (Nat.min i (len b)) /\
      forall j, (i <= j)%nat -> aw !!! j = w a !!! j)
    (sub_step (w b) (len b)) (len a) 0 (w a, 0)) as L.
  destruct (for_up _ 0 _ _) as [aw borrow]. destruct L as (? & ? & ? & _); [| |done].
  - split_and!; [done|lia|lia|cbn; lia|done].
  - intros i [ws c] Hi (Hw & Hc & Hs & Hrest). unfold sub_step.
    pose proof (proj2 Hw i) as Hav. pose proof (proj2 Hwb i) as Hbv.
    set (bv := if (i <? len b)%nat then w b !!! i else 0).
    assert (is_u64 bv) as Hbv' by (unfold bv; case_match; [done|word_lia]).
    assert (lsum (w b) (Nat.min (S i) (len b)) =
            lsum (w b) (Nat.min i (len b)) + bv * 2 ^ (64 * Z.of_nat i)) as Eb.
    { unfold bv. destruct (Nat.ltb_spec i (len b)).
      - rewrite !Nat.min_l by lia. done.
      - rewrite !Nat.min_r by lia. lia. }
    split_and!.
    + by apply words_ok_insert; auto with words.
    + case_match; lia.
    + case_match; lia.
    + rewrite lsum_insert_S, B_S, Eb by (rewrite (proj1 Hw); lia).
      cbn [lsum]. rewrite <- (Hrest i) by lia.
      assert ((ws !!! i -64 bv -64 c) -
        (if (ws !!! i <? (bv +64 c)) || ((bv +64 c) <? bv) then 1 else 0) * 2 ^ 64 =
        ws !!! i - bv - c) as E.
      { unfold u64, is_u64 in *.
        destruct (Z.ltb_spec (ws !!! i) ((bv + c) mod 2 ^ 64)),
          (Z.ltb_spec ((bv + c) mod 2 ^ 64) bv); cbn [orb]; Z.div_mod_to_equations; lia. }
      nia.
    + intros j Hj. rewrite list_lookup_total_insert_ne by lia. apply Hrest. lia.
Qed.

Lemma sub_spec a b :
  wf a -> wf b -> bval b <= bval a ->
  wf (bigint_sub a b) /\ bval (bigint_sub a b) = bval a - bval b /\
  overflow (bigint_sub a b) = overflow a.
Proof.
  intros Wa Wb Hle. unfold bigint_sub.
  pose proof (sub_loop a b Wa Wb) as L. pose proof (proj1 (proj2 Wa)) as Hl.
  destruct (for_up _ _ _ _) as [aw borrow]. destruct L as (Hw & Hbo & E).
  assert (len b <= len a)%nat as Hlen.
  { apply len_le; [done|]. pose proof (bval_range a Wa). lia. }
  rewrite Nat.min_r in E by done. fold (bval b) in E.
  pose proof (lsum_range aw (len a) Hw) as R. pose proof (bval_range a Wa) as Ra.
  assert (borrow = 0) as -> by nia.
  destruct (trim_len_spec aw (len a)) as (Ht1 & Ht2 & Ht3).
  unfold trim, wf. cbn [w len overflow]. unfold bval at 1. cbn [w len]. rewrite Ht2.
  split_and!; try done; lia.
Qed.

(** ** Long division *)
Lemma push_bit_spec r :
  wf r -> bval r mod 2 = 0 ->
  wf (push_bit r) /\ bval (push_bit r) = bval r + 1 /\ overflow (push_bit r) = overflow r.
Proof.
  intros W Hev. pose proof W as (Hw & Hl & Ht). pose proof (proj1 Hw) as Hlen.
  pose proof BW_pos. unfold push_bit. destruct (Nat.eqb_spec (len r) 0) as [E|E].
  - rewrite (proj2 (bval_zero r W) E). unfold wf, bval. cbn [w len overflow].
    rewrite lsum_insert_S by lia. change (64 * Z.of_nat 0) with 0. cbn [lsum].
    split_and!; try done; [apply words_ok_insert; [done|word_lia]|].
    right. cbn [Nat.sub]. by rewrite list_lookup_total_insert_eq by lia.
  - assert (w r !!! 0%nat mod 2 = 0) as He.
    { pose proof (lsum_testbit (w r) (len r) 0 0 Hw ltac:(lia) ltac:(lia)) as T.
      change (64 * Z.of_nat 0 + 0) with 0 in T. apply (f_equal Z.b2z) in T.
      rewrite !Z.bit0_mod in T. unfold bval in Hev. congruence. }
    rewrite lor_1_even by done. pose proof (proj2 Hw 0%nat) as H0.
    unfold wf. cbn [w len overflow]. unfold bval at 1. cbn [w len].
    rewrite lsum_insert by lia. change (64 * Z.of_nat 0) with 0. fold (bval r).
    assert (is_u64 (w r !!! 0%nat + 1)).
    { rewrite <- lor_1_even by done. apply lor_u64; [done|word_lia]. }
    split_and!; try done; [by apply words_ok_insert| |lia].
    right. destruct Ht as [?|Ht]; [done|].
    destruct (decide (len r = 1)%nat) as [E1|E1].
    + rewrite E1. cbn [Nat.sub]. rewrite list_lookup_total_insert_eq by lia. word_lia.
    + rewrite list_lookup_total_insert_ne by lia. done.
Qed.

(** Quotient bits shifted into the [(hi, lo)] pair. *)
Lemma push_quotient h l q b :
  is_u64 h -> is_u64 l -> pairval h l = u128 q -> 0 <= b <= 1 ->
  is_u64 (Z.lor (h <<64 1) (l >>64 63)) /\ is_u64 ((l <<64 1) + b) /\
  pairval (Z.lor (h <<64 1) (l >>64 63)) ((l <<64 1) + b) = u128 (2 * q + b).
Proof.
  intros Hh Hl E Hb. destruct (shl1_pair h l Hh Hl) as (W & E2 & Ev).
  split; [done|]. pose proof (u64_range (Z.shiftl l 1)) as R. unfold is_u64, pairval in *.
  assert (u128 (2 * q + b) = u128 (2 * (h * 2 ^ 64 + l)) + b) as ->.
  { rewrite E. unfold u128. Z.div_mod_to_equations. lia. }
  set (x := l <<64 1) in *. clearbody x. Z.div_mod_to_equations. lia.
Qed.

(** The weight of the array's top word. *)
Definition TOP : Z := 64 * Z.of_nat (BIGINT_WORDS - 1).

Definition div_inv (n d : Z) (i : nat) (st : BigInt * Z * Z * Z) : Prop :=
  let '(r, hi, lo, produced) := st in
  let x := n / 2 ^ Z.of_nat i in
  holds r (x mod d) /\ is_u64 hi /\ is_u64 lo /\ pairval hi lo = u128 (x / d) /\
  0 <= produced /\ (produced = 0 <-> x / d = 0).

Lemma divide_step_inv num den i st :
  wf num -> wf den -> 0 < bval den ->
  (bval num / 2 ^ Z.of_nat (S i)) mod bval den < 2 ^ TOP ->
  div_inv (bval num) (bval den) (S i) st ->
  div_inv (bval num) (bval den) i (divide_step num den i st).
Proof.
  intros Wn Wd Hd Hcap. destruct st as [[[r hi] lo] produced].
  intros ((Wr & Ho & Er) & Hhi & Hlo & Eq & Hp & Hp0).
  set (n := bval num) in *. set (d := bval den) in *.
  replace (Z.of_nat (S i)) with (Z.of_nat i + 1) in * by lia. set (z := Z.of_nat i) in *.
  pose proof (div_pow2_step n z ltac:(lia)) as Est.
  set (x := n / 2 ^ (z + 1)) in *. set (b := (n / 2 ^ z) mod 2) in *.
  assert (0 <= b <= 1) as Hb by apply mod2_bounds.
  assert (0 <= x) as Hx.
  { apply Z.div_pos; [apply bval_range, Wn|apply pow2_pos; lia]. }
  pose proof (Z.mod_pos_bound x d Hd) as Rm. pose proof (Z.div_pos x d Hx Hd).
  destruct (div_mod_double x d b Hd Hb) as [Dq Dr]. rewrite <- Est in Dq, Dr.
  unfold divide_step.
  assert (len r <= BIGINT_WORDS - 1)%nat as Hlr.
  { apply len_le; [done|]. rewrite Er. exact Hcap. }
  pose proof BW_pos.
  destruct (shl_spec r 1 Wr ltac:(lia)) as (Ws & Es & Os).
  { left. change (Z.to_nat (1 / 64)) with 0%nat. lia. }
  change (2 ^ 1) with 2 in Es.
  cbv zeta. fold z.
  set (r1 := if bigint_test_bit num z then push_bit (bigint_shl r 1) else bigint_shl r 1).
  assert (holds r1 (2 * (x mod d) + b)) as (W1 & O1 & E1).
  { unfold r1. rewrite test_bit_spec by (done || lia). fold n.
    assert (b = b2z (Z.testbit n z)) as Eb by (unfold b; rewrite <- Z.testbit_spec' by lia; done).
    destruct (Z.testbit n z).
    - destruct (push_bit_spec (bigint_shl r 1) Ws) as (W' & E' & O').
      { rewrite Es. apply Z.mod_mul. lia. }
      cbn in Eb.
      split_and!; [done|by rewrite O', Os|lia].
    - cbn in Eb. split_and!; [done|by rewrite Os|lia]. }
  rewrite cmp_ge by done. fold d. rewrite E1. cbn [div_inv].
  destruct (push_quotient hi lo (x / d) 1 Hhi Hlo Eq ltac:(lia)) as (Wh1 & Wl1 & P1).
  destruct (push_quotient hi lo (x / d) 0 Hhi Hlo Eq ltac:(lia)) as (_ & Wl0 & P0).
  rewrite Z.add_0_r in Wl0, P0.
  destruct (Z.leb_spec d (2 * (x mod d) + b)) as [Hge|Hlt].
  - destruct (sub_spec r1 den W1 Wd ltac:(lia)) as (W2 & E2 & O2).
    rewrite lor_1_even by (apply (shl64_divisible lo 1); lia).
    unfold div_inv. fold z. rewrite Dq, Dr.
    fold d in E2. assert (holds (bigint_sub r1 den) (2 * (x mod d) + b - d)).
    { split_and!; [done|congruence|lia]. }
    split_and!; done || lia.
  - destruct (Z.eqb_spec produced 0) as [Ep|Ep]; cbn [negb]; unfold div_inv; fold z;
      rewrite Dq, Dr.
    + apply Hp0 in Ep as Ex. rewrite Ex in *.
      assert (holds r1 (2 * (x mod d) + b - 0)) by (split_and!; [done|done|lia]).
      assert (pairval hi lo = u128 (2 * 0 + 0)) by (rewrite Eq; done).
      split_and!; done || lia.
    + assert (holds r1 (2 * (x mod d) + b - 0)) by (split_and!; [done|done|lia]).
      assert (x / d <> 0) by tauto.
      split_and!; done || lia.
Qed.

Lemma divide_bits_spec num den qbits :
  wf num -> wf den -> 0 < bval den <= 2 ^ TOP ->
  let '(hi, lo, sticky) := bigint_divide_bits num den qbits in
  is_u64 hi /\ is_u64 lo /\ pairval hi lo = u128 (bval num / bval den) /\
  sticky = negb (bval num mod bval den =? 0).
Proof.
  intros Wn Wd [Hd Hcap]. unfold bigint_divide_bits. rewrite bitlen_spec' by done.
  pose proof (bval_range num Wn) as Rn.
  pose proof (for_down_inv (div_inv (bval num) (bval den)) (divide_step num den)
    (Z.to_nat (bitlen (bval num))) (bigint_set_u64 0, 0, 0, 0)) as L.
  destruct (for_down _ _ _) as [[[r hi] lo] produced]. destruct L as ((Wr & _ & Er) & Hhi & Hlo & Eq & _).
  - unfold div_inv. rewrite Z2Nat.id by apply bitlen_nonneg.
    pose proof (bitlen_lt_pow (bval num) (bitlen (bval num)) ltac:(lia) ltac:(lia)).
    rewrite (Z.div_small (bval num)), Z.mod_0_l, Z.div_0_l by lia.
    destruct (set_u64_spec 0 ltac:(word_lia)) as (? & ? & ?).
    split_and!; try done.
  - intros i st Hi. apply divide_step_inv; try done.
    pose proof (Z.mod_pos_bound (bval num / 2 ^ Z.of_nat (S i)) (bval den) ltac:(lia)). lia.
  - change (2 ^ Z.of_nat 0) with 1 in *. rewrite Z.div_1_r in *.
    split_and!; try done. f_equal. unfold bigint_is_zero. rewrite <- Er.
    pose proof (bval_zero r Wr).
    destruct (Nat.eqb_spec (len r) 0), (Z.eqb_spec (bval r) 0); tauto.
Qed.

(** A divisor that fills the array: the remainder may then need one more
    word, and the refused shift goes unnoticed by the division loop. *)
Definition full_num : BigInt :=
  mkBigInt (<[(BIGINT_WORDS - 1)%nat := 4]> zero_words) BIGINT_WORDS false.

Lemma TOP_pos : 0 <= TOP.
Proof. unfold TOP. lia. Qed.

Lemma TOP_le n : (n < BIGINT_WORDS)%nat -> 64 * Z.of_nat n <= TOP.
Proof. unfold TOP. lia. Qed.

Lemma TOP_eq : 64 * Z.of_nat (BIGINT_WORDS - 1) = TOP.
Proof. unfold TOP. exact eq_refl. Qed.

#[local] Opaque TOP.

Lemma lsum_zero_words n : (n <= BIGINT_WORDS)%nat -> lsum zero_words n = 0.
Proof.
  intros Hn. induction n as [|n IH]; [done|]. cbn [lsum]. rewrite IH by lia.
  unfold zero_words. by rewrite lookup_total_replicate_2 by lia.
Qed.

Lemma full_num_spec : wf full_num /\ bval full_num = 2 ^ (TOP + 2).
Proof.
  assert (length zero_words = BIGINT_WORDS) as Hl by (unfold zero_words; apply length_replicate).
  pose proof BW_pos. pose proof TOP_pos. unfold full_num. split; [split; [|split]|].
  - apply words_ok_insert; [apply words_ok_zero|word_lia].
  - cbn [len]. lia.
  - right. cbn [w len]. rewrite list_lookup_total_insert_eq by lia. lia.
  - unfold bval. cbn [w len]. replace BIGINT_WORDS with (S (BIGINT_WORDS - 1)) at 2 by lia.
    rewrite lsum_insert_S, lsum_zero_words by lia.
    rewrite TOP_eq.
    rewrite Z.pow_add_r by lia. lia.
Qed.

(** The remainder once it occupies the whole array. *)
Definition stuck (st : BigInt * Z * Z * Z) : Prop :=
  let '(r, hi, lo, produced) := st in
  wf r /\ bval r = 2 ^ TOP /\ hi = 0 /\ lo = 0 /\ produced = 0.

Lemma stuck_step i st :
  (i < 2)%nat -> stuck st -> stuck (divide_step full_num full_num i st).
Proof.
  intros Hi. destruct st as [[[r h] l] p]. intros (W & E & -> & -> & ->).
  destruct full_num_spec as [Wf Ef]. pose proof TOP_pos as Ht. pose proof BW_pos.
  assert (len r = BIGINT_WORDS) as Hlen.
  { pose proof (proj1 (proj2 W)). pose proof (bval_range r W) as R.
    destruct (decide (len r = BIGINT_WORDS)); [done|].
    pose proof (pow2_le (64 * Z.of_nat (len r)) TOP (TOP_le (len r) ltac:(lia))). lia. }
  unfold divide_step. rewrite shl_refuses; [|lia|].
  2: { unfold shl_fits. rewrite Hlen. change (Z.to_nat (1 / 64)) with 0%nat. lia. }
  rewrite test_bit_spec, Ef by (assumption || lia).
  rewrite Z.pow2_bits_false by lia.
  cbv zeta. set (r' := mkBigInt (w r) (len r) true).
  assert (wf r') as Wr' by exact W. assert (bval r' = 2 ^ TOP) as Er by exact E.
  rewrite cmp_ge, Ef, Er, Z.pow_add_r by (assumption || lia).
  pose proof (pow2_pos TOP Ht). rewrite (proj2 (Z.leb_gt _ _)) by lia.
  change (negb (0 =? 0)) with false. cbv iota. split_and!; assumption || reflexivity.
Qed.

Lemma divide_full_stuck : bigint_divide_bits full_num full_num 0 = (0, 0, true).
Proof.
  destruct full_num_spec as [Wf Ef]. pose proof TOP_pos as Ht.
  set (N := bval full_num) in *.
  assert (0 < N) as HN by (rewrite Ef; apply pow2_pos; lia).
  unfold bigint_divide_bits. rewrite bitlen_spec' by assumption. fold N.
  assert (bitlen N = TOP + 3) as ->.
  { rewrite Ef. apply bitlen_unique; [lia|].
    split; [apply pow2_le; lia|apply pow2_lt; lia]. }
  pose proof (for_down_inv (fun j st =>
      ((2 <= j)%nat -> div_inv N N j st) /\ ((j < 2)%nat -> stuck st))
    (divide_step full_num full_num) (Z.to_nat (TOP + 3)) (bigint_set_u64 0, 0, 0, 0)) as L.
  destruct (for_down _ _ _) as [[[r hi] lo] p]. destruct L as [_ L].
  - split; [intros _|lia]. unfold div_inv. rewrite Z2Nat.id by lia.
    pose proof (pow2_lt (TOP + 2) (TOP + 3)).
    rewrite (Z.div_small N), Z.mod_0_l, Z.div_0_l by lia.
    destruct (set_u64_spec 0 ltac:(word_lia)) as (W0 & E0 & O0).
    assert (holds (bigint_set_u64 0) 0) by (split_and!; assumption).
    split_and!; assumption || reflexivity || word_lia.
  - intros j st Hj [H1 H2]. split.
    + intros Hj2. apply divide_step_inv; [assumption|assumption|assumption| |apply H1; lia]. fold N.
      replace (N / 2 ^ Z.of_nat (S j)) with (2 ^ (TOP + 2 - Z.of_nat (S j))
        * (if TOP + 2 <? Z.of_nat (S j) then 0 else 1)).
      2: { rewrite Ef. destruct (Z.ltb_spec (TOP + 2) (Z.of_nat (S j))).
        - rewrite Z.div_small; [lia|]. split; [apply Z.pow_nonneg; lia|apply pow2_lt; lia].
        - rewrite <- Z.pow_sub_r by lia. lia. }
      pose proof (pow2_lt (TOP + 2 - Z.of_nat (S j)) TOP).
      pose proof (pow2_lt TOP (TOP + 2)). pose proof (Z.pow_nonneg 2 (TOP + 2 - Z.of_nat (S j))).
      rewrite Z.mod_small; case_match; lia.
    + intros Hj2. apply stuck_step; [lia|].
      destruct (decide (S j < 2)%nat) as [|Hge]; [by apply H2|].
      specialize (H1 ltac:(lia)). assert (j = 1%nat) as -> by lia.
      destruct st as [[[r' hi'] lo'] p']. destruct H1 as ((W & _ & Er) & Hhi & Hlo & Eq & Hp & Hp0).
      change (Z.of_nat 2) with 2 in *.
      assert (N / 2 ^ 2 = 2 ^ TOP) as Ex.
      { rewrite Ef, Z.pow_add_r by lia. by apply Z.div_mul. }
      pose proof (pow2_lt TOP (TOP + 2)). pose proof (pow2_pos TOP Ht).
      rewrite Ex, Z.mod_small in Er by lia. rewrite Ex, Z.div_small in Eq, Hp0 by lia.
      change (u128 0) with 0 in Eq. assert (p' = 0) by tauto.
      unfold is_u64, pairval in *. unfold stuck. split_and!; assumption || lia.
  - specialize (L ltac:(lia)). destruct L as (W & E & -> & -> & ->).
    unfold bigint_is_zero. pose proof (bval_zero r W). pose proof (pow2_pos TOP Ht).
    destruct (Nat.eqb_spec (len r) 0); [lia|done].
Qed.

(** ** Properties *)

(** C6: scaling never yields a truncated value: multiplying by a small word,
    adding one and multiplying by [10^e] keep the represented value exact
    while it fits 49152 bits, and leave [overflow] set from then on. *)
Theorem bigint_scale_correct (b : BigInt) (v m d e : Z) :
  repr b v -> 0 <= v -> 1 <= m < 2 ^ 32 -> 0 <= d < 2 ^ 32 -> 0 <= e ->
  repr (bigint_mul_small b m) (v * m) /\
  repr (bigint_add_small b d) (v + d) /\
  repr (bigint_mul_pow10 b e) (v * 10 ^ e).
Proof. auto using mul_small_repr, add_small_repr, mul_pow10_repr. Qed.

(** C7: the left shift multiplies by [2^bits] when the capacity check passes
    and otherwise refuses, marking the number and leaving its value alone;
    subtraction of a smaller value is exact and re-trims the length; the
    length, comparison and bit queries read the value. *)
Theorem bigint_shl_sub_correct (a b : BigInt) (bits : Z) :
  wf a -> wf b -> 0 <= bits ->
  (shl_fits a bits -> wf (bigint_shl a bits) /\ bval (bigint_shl a bits) = bval a * 2 ^ bits) /\
  (~ shl_fits a bits -> bigint_shl a bits = mkBigInt (w a) (len a) true) /\
  (bval b <= bval a -> wf (bigint_sub a b) /\ bval (bigint_sub a b) = bval a - bval b) /\
  bigint_bitlen a = bitlen (bval a) /\
  bigint_cmp a b = cmp3 (bval a ?= bval b) /\
  bigint_test_bit a bits = Z.testbit (bval a) bits.
Proof.
  intros Wa Wb Hb. split_and!.
  - intros Hf. by destruct (shl_spec a bits Wa Hb Hf) as (? & ? & _).
  - by apply shl_refuses.
  - intros Hle. by destruct (sub_spec a b Wa Wb Hle) as (? & ? & _).
  - by apply bitlen_spec'.
  - by apply cmp_spec.
  - by apply test_bit_spec.
Qed.

(** C8: the long division terminates with the low 128 bits of the quotient
    and a sticky flag that is set exactly when the remainder is not zero,
    for every divisor that leaves the top word of the array free. *)
Theorem bigint_divide_bits_correct (num den : BigInt) (qbits : Z) :
  wf num -> wf den -> 0 < bval den <= 2 ^ TOP ->
  exists hi lo sticky,
    bigint_divide_bits num den qbits = (hi, lo, sticky) /\
    is_u64 hi /\ is_u64 lo /\ pairval hi lo = u128 (bval num / bval den) /\
    sticky = negb (bval num mod bval den =? 0).
Proof.
  intros Wn Wd Hd. pose proof (divide_bits_spec num den qbits Wn Wd Hd) as L.
  destruct (bigint_divide_bits _ _ _) as [[hi lo] sticky]. by exists hi, lo, sticky.
Qed.

(** C9: that hypothesis is needed: dividing the 768-word number [2^49090] by
    itself, neither operand marked as overflowed, gives quotient 0 with a
    nonzero remainder, because the running remainder's shift is refused and
    the division loop never looks at the remainder's [overflow] flag. *)
Theorem bigint_divide_bits_full_divisor :
  wf full_num /\ overflow full_num = false /\ bval full_num = 2 ^ (TOP + 2) /\
  bigint_divide_bits full_num full_num 0 = (0, 0, true).
Proof.
  destruct full_num_spec as [W E]. split; [exact W|]. split; [reflexivity|].
  split; [exact E|exact divide_full_stuck].
Qed.

Lemma repr_set_u64 v : is_u64 v -> repr (bigint_set_u64 v) v.
Proof.
  intros Hv. left. destruct (set_u64_spec v Hv) as (W & E & O).
  split; [split; [exact W|split; [exact O|exact E]]|].
  rewrite <- CAP_eq. apply Z.lt_le_trans with (2 ^ 64); [apply Hv|].
  apply pow2_le. pose proof BW_pos. lia.
Qed.

Lemma bigint_scale_witness :
  repr (bigint_mul_pow10 (bigint_set_u64 7) 30) (7 * 10 ^ 30).
Proof.
  apply (bigint_scale_correct (bigint_set_u64 7) 7 1 0 30); [apply repr_set_u64; word_lia|lia..].
Defined.

Lemma bigint_shl_sub_witness :
  bval (bigint_sub (bigint_set_u64 9) (bigint_set_u64 4)) = 9 - 4.
Proof.
  destruct (set_u64_spec 9 ltac:(word_lia)) as (W9 & E9 & _).
  destruct (set_u64_spec 4 ltac:(word_lia)) as (W4 & E4 & _).
  destruct (bigint_shl_sub_correct (bigint_set_u64 9) (bigint_set_u64 4) 100 W9 W4 ltac:(lia))
    as (_ & _ & H & _).
  rewrite E9, E4 in H. apply H. lia.
Defined.

Lemma bigint_divide_bits_witness :
  exists hi lo sticky,
    bigint_divide_bits (bigint_set_u64 1000) (bigint_set_u64 7) 0 = (hi, lo, sticky) /\
    pairval hi lo = 142 /\ sticky = true.
Proof.
  destruct (set_u64_spec 1000 ltac:(word_lia)) as (Wn & En & _).
  destruct (set_u64_spec 7 ltac:(word_lia)) as (Wd & Ed & _).
  destruct (bigint_divide_bits_correct (bigint_set_u64 1000) (bigint_set_u64 7) 0 Wn Wd)
    as (hi & lo & st & E & _ & _ & Hq & Hs).
  - rewrite Ed. split; [lia|]. pose proof (pow2_le 64 TOP (TOP_le 1 BW_gt1)). lia.
  - exists hi, lo, st. rewrite En, Ed in *. split; [exact E|split; [exact Hq|exact Hs]].
Defined.
