(* ===== verification/Softfp.v ===== *)
(** [src/util/softfp.c]: the compile-time software floating point.  This file
    holds the translation of the whole file; the specification and the proofs
    are in [SoftfpRound], [SoftfpArith], [SoftfpConv] and [SoftfpBits]. *)
From S2P Require Import Prelude.
From S2P Require Import Bigint.

(** ** Data *)
Record SfFormat := mkFormat {
  exp_bits : Z; frac_bits : Z; explicit_intbit : bool; total_bytes : Z }.

Definition SF_BINARY16 : SfFormat := mkFormat 5 10 false 2.
Definition SF_BINARY32 : SfFormat := mkFormat 8 23 false 4.
Definition SF_BINARY64 : SfFormat := mkFormat 11 52 false 8.
Definition SF_X87_80 : SfFormat := mkFormat 15 64 true 10.
Definition SF_BINARY128 : SfFormat := mkFormat 15 112 false 16.

Inductive SfClass := SF_ZERO | SF_NORMAL | SF_INF | SF_NAN.

(** [sign] is a [uint8_t] that only ever holds 0 or 1.  [exp] is an [int32_t]
    whose signed arithmetic C leaves undefined on overflow: it is a [Z]. *)
Record Sf := mkSf { sign : bool; cls : SfClass; exp : Z; hi : Z; lo : Z }.

Record SfStatus := mkStatus {
  inexact : bool; overflow : bool; underflow : bool; invalid : bool }.
Definition no_status : SfStatus := mkStatus false false false false.
Definition set_inexact (s : SfStatus) := mkStatus true (overflow s) (underflow s) (invalid s).
Definition set_overflow (s : SfStatus) := mkStatus (inexact s) true (underflow s) (invalid s).
Definition set_underflow (s : SfStatus) := mkStatus (inexact s) (overflow s) true (invalid s).
Definition set_invalid (s : SfStatus) := mkStatus (inexact s) (overflow s) (underflow s) true.

#[export] Instance SfClass_eq_dec : EqDecision SfClass.
Proof. solve_decision. Defined.
#[export] Instance Sf_eq_dec : EqDecision Sf.
Proof. solve_decision. Defined.

Definition is_cls (c : SfClass) (a : Sf) : bool := bool_decide (cls a = c).
(** A [memset] value with its class and sign. *)
Definition special (sg : bool) (c : SfClass) : Sf := mkSf sg c 0 0 0.

(** ** 128-bit helpers on [(hi, lo)] *)
Definition u128_shl (h l n : Z) : Z * Z :=
  if n <=? 0 then (h, l)
  else if 128 <=? n then (0, 0)
  else if 64 <=? n then (l <<64 (n - 64), 0)
  else ((h <<64 n) |64 (l >>64 (64 - n)), l <<64 n).

Definition shr_step (_ : nat) (st : Z * Z * bool) : Z * Z * bool :=
  let '(h, l, sticky) := st in
  let sticky := if negb (l &64 1 =? 0) then true else sticky in
  (h >>64 1, (l >>64 1) |64 (h <<64 63), sticky).

Definition u128_shr_sticky (h l n : Z) : Z * Z * bool :=
  if n <=? 0 then (h, l, false)
  else if 128 <=? n then (0, 0, negb (h |64 l =? 0))
  else for_up (Z.to_nat n) 0 shr_step (h, l, false).

Definition u128_bitlen (h l : Z) : Z :=
  if negb (h =? 0) then (bitlen_loop h 0).2 + 64 else (bitlen_loop l 0).2.

Definition u128_add (h l ah al : Z) : Z * Z :=
  let l' := l +64 al in
  (h +64 (ah +64 (if l' <? l then 1 else 0)), l').

Definition u128_cmp (ah al bh bl : Z) : Z :=
  if negb (ah =? bh) then (if ah <? bh then -1 else 1)
  else if negb (al =? bl) then (if al <? bl then -1 else 1)
  else 0.

Definition u128_sub (h l bh bl : Z) : Z * Z :=
  (h -64 (bh +64 (if l <? bl then 1 else 0)), l -64 bl).

(** ** Format geometry *)
Definition prec_of (f : SfFormat) : Z :=
  if explicit_intbit f then frac_bits f else frac_bits f + 1.
Definition emax_of (f : SfFormat) : Z := Z.shiftl 1 (exp_bits f - 1) - 1.
Definition emin_of (f : SfFormat) : Z := 1 - emax_of f.

(** ** Rounding *)

(** [((shift <= 64) ? ((lo >> (shift - 1)) & 1) : ((hi >> (shift - 65)) & 1)) != 0] *)
Definition round_bit_at (h l shift : Z) : bool :=
  negb ((if shift <=? 64 then (l >>64 (shift - 1)) &64 1 else (h >>64 (shift - 65)) &64 1) =? 0).

(** Drop [shift] bits: the last is the round bit, the others go to sticky. *)
Definition drop_bits (h l shift : Z) (sticky : bool) : Z * Z * bool * bool :=
  let round_bit := round_bit_at h l shift in
  let '(h, l, s) := u128_shr_sticky h l (shift - 1) in
  let sticky := if s then true else sticky in
  let '(h, l, _) := u128_shr_sticky h l 1 in
  (h, l, round_bit, sticky).

(** Normalize to exactly [prec] bits. *)
Definition round_normalize (prec h l exp : Z) (sticky : bool) : Z * Z * Z * bool * bool :=
  let bits := u128_bitlen h l in
  if prec <? bits then
    let shift := bits - prec in
    let '(h, l, round_bit, sticky) := drop_bits h l shift sticky in
    (h, l, exp + shift, round_bit, sticky)
  else if bits <? prec then
    let '(h, l) := u128_shl h l (prec - bits) in
    (h, l, exp - (prec - bits), false, sticky)
  else (h, l, exp, false, sticky).

(** Round to nearest even, renormalizing on a carry out of the top. *)
Definition round_increment (prec h l exp : Z) (round_bit sticky : bool) : Z * Z * Z :=
  if round_bit && (sticky || negb (l &64 1 =? 0)) then
    let '(h, l) := u128_add h l 0 1 in
    if prec <? u128_bitlen h l then
      let '(h, l, _) := u128_shr_sticky h l 1 in (h, l, exp + 1)
    else (h, l, exp)
  else (h, l, exp).

(** From the subnormal test on, with a prepared significand. *)
Definition round_finish (sg : bool) (h l exp : Z) (round_bit sticky : bool)
    (f : SfFormat) (st : SfStatus) : Sf * SfStatus :=
  let prec := prec_of f in
  let '(h, l, exp) := round_increment prec h l exp round_bit sticky in
  let st := if round_bit || sticky then set_inexact st else st in
  let sg := if (h =? 0) && (l =? 0) then false else sg in
  if emax_of f <? exp + (prec - 1) then
    (special sg SF_INF, set_inexact (set_overflow st))
  else if (h =? 0) && (l =? 0) then (special sg SF_ZERO, st)
  else (mkSf sg SF_NORMAL exp h l, st).

Definition round_pack (sg : bool) (h l exp : Z) (sticky_in : bool)
    (f : SfFormat) (st : SfStatus) : Sf * SfStatus :=
  let prec := prec_of f in
  let emin := emin_of f in
  if (h =? 0) && (l =? 0) && negb sticky_in then (special false SF_ZERO, st)
  else
    let '(h, l, exp, round_bit, sticky) := round_normalize prec h l exp sticky_in in
    if exp <? emin - (prec - 1) then
      let shift := (emin - (prec - 1)) - exp in
      if 128 <=? shift then
        (special sg SF_ZERO, set_inexact (set_underflow st))
      else
        let sticky := if round_bit then true else sticky in
        let '(h, l, round_bit, sticky) := drop_bits h l shift sticky in
        round_finish sg h l (exp + shift) round_bit sticky f (set_underflow st)
    else round_finish sg h l exp round_bit sticky f st.

(** ** Decimal, hexadecimal and integer sources

    Digits are character codes. *)
Definition skip_zeros (digits : list Z) : list Z :=
  (fix go ds := match ds with
   | d :: ds' => if d =? 48 then go ds' else ds
   | [] => [] end) digits.

Definition decimal_step (num : BigInt) (d : Z) : BigInt :=
  bigint_add_small (bigint_mul_small num 10) (u32 (d - 48)).

Definition sf_from_decimal (digits : list Z) (dec_exp : Z) (f : SfFormat) (st : SfStatus) :
    Sf * SfStatus :=
  let prec := prec_of f in
  let qbits := prec + 2 in
  let ds := skip_zeros digits in
  match ds with
  | [] => (special false SF_ZERO, st)
  | _ =>
    let num := fold_left decimal_step ds (bigint_set_u64 0) in
    let den := bigint_set_u64 1 in
    let num := if 0 <? dec_exp then bigint_mul_pow10 num dec_exp else num in
    let den := if dec_exp <? 0 then bigint_mul_pow10 den (- dec_exp) else den in
    if Bigint.overflow num || Bigint.overflow den then
      (special false SF_INF, set_inexact (set_overflow st))
    else
      let nbits := bigint_bitlen num in
      let dbits := bigint_bitlen den in
      let shift := qbits - (nbits - dbits) in
      let num := if 0 <? shift then bigint_shl num shift else num in
      let den := if shift <? 0 then bigint_shl den (- shift) else den in
      if Bigint.overflow num || Bigint.overflow den then
        (special false SF_INF, set_overflow st)
      else
        let '(qhi, qlo, sticky) := bigint_divide_bits num den qbits in
        round_pack false qhi qlo (- shift) sticky f st
  end.

Definition hex_digit (c : Z) : option Z :=
  if (48 <=? c) && (c <=? 57) then Some (c - 48)
  else if (97 <=? c) && (c <=? 102) then Some (c - 97 + 10)
  else if (65 <=? c) && (c <=? 70) then Some (c - 65 + 10)
  else None.

Definition hex_step (st : Z * Z * Z * bool) (c : Z) : Z * Z * Z * bool :=
  let '(h, l, exp, sticky) := st in
  match hex_digit c with
  | None => st
  | Some d =>
    if 126 <? u128_bitlen h l + 4 then
      (h, l, exp + 4, if negb (d =? 0) then true else sticky)
    else
      let '(h, l) := u128_shl h l 4 in
      let '(h, l) := u128_add h l 0 d in
      (h, l, exp, sticky)
  end.

Definition sf_from_hex (hexdigits : list Z) (bin_exp : Z) (f : SfFormat) (st : SfStatus) :
    Sf * SfStatus :=
  let '(h, l, exp, sticky) := fold_left hex_step hexdigits (0, 0, bin_exp, false) in
  if (h =? 0) && (l =? 0) && negb sticky then (special false SF_ZERO, st)
  else round_pack false h l exp sticky f st.

Definition sf_from_int (v : Z) (neg : bool) (f : SfFormat) (st : SfStatus) : Sf * SfStatus :=
  if v =? 0 then (special neg SF_ZERO, st)
  else round_pack neg 0 v 0 false f st.

Definition sf_from_int128 (h l : Z) (neg : bool) (f : SfFormat) (st : SfStatus) :
    Sf * SfStatus :=
  if (h =? 0) && (l =? 0) then (special neg SF_ZERO, st)
  else round_pack neg h l 0 false f st.

(** ** Arithmetic *)
Definition sf_neg (a : Sf) : Sf := mkSf (negb (sign a)) (cls a) (exp a) (hi a) (lo a).
Definition sf_is_zero (a : Sf) : bool := is_cls SF_ZERO a.
Definition make_nan (st : SfStatus) : Sf * SfStatus := (special false SF_NAN, set_invalid st).

(** Both operands finite and nonzero, the larger exponent first: give the
    first headroom, align the second, add or subtract magnitudes. *)
Definition sf_add_aligned (a b : Sf) (f : SfFormat) (st : SfStatus) : Sf * SfStatus :=
  let diff := exp a - exp b in
  let head := 126 - u128_bitlen (hi a) (lo a) in
  let up := if 0 <? head then (if head <? diff then head else diff) else 0 in
  let '(h, l) := if 0 <? head then u128_shl (hi a) (lo a) up else (hi a, lo a) in
  let aexp := exp a - up in
  let diff := diff - up in
  let '(bh, bl, sticky) := u128_shr_sticky (hi b) (lo b) diff in
  if Bool.eqb (sign a) (sign b) then
    let '(h, l) := u128_add h l bh bl in
    round_pack (sign a) h l aexp sticky f st
  else if 0 <=? u128_cmp h l bh bl then
    let '(h, l) := u128_sub h l bh bl in
    let '(h, l) :=
      if sticky then
        let '(h, l) := u128_sub h l 0 1 in u128_add h l 0 0
      else (h, l) in
    round_pack (sign a) h l aexp sticky f st
  else
    let '(h, l) := u128_sub bh bl h l in
    round_pack (sign b) h l aexp sticky f st.

Definition sf_add (a b : Sf) (f : SfFormat) (st : SfStatus) : Sf * SfStatus :=
  if is_cls SF_NAN a || is_cls SF_NAN b then (special false SF_NAN, st)
  else if is_cls SF_INF a || is_cls SF_INF b then
    if is_cls SF_INF a && is_cls SF_INF b && negb (Bool.eqb (sign a) (sign b))
    then make_nan st
    else ((if is_cls SF_INF a then a else b), st)
  else if is_cls SF_ZERO a && is_cls SF_ZERO b then
    (special (sign a && sign b) SF_ZERO, st)
  else if is_cls SF_ZERO a then round_pack (sign b) (hi b) (lo b) (exp b) false f st
  else if is_cls SF_ZERO b then round_pack (sign a) (hi a) (lo a) (exp a) false f st
  else if exp a <? exp b then sf_add_aligned b a f st
  else sf_add_aligned a b f st.

Definition sf_sub (a b : Sf) (f : SfFormat) (st : SfStatus) : Sf * SfStatus :=
  sf_add a (sf_neg b) f st.

(** The 4x4 schoolbook product over 32-bit limbs, into eight accumulators. *)
Definition mul_inner (xi : Z) (y : list Z) (i : nat) (j : nat) (st : list Z * Z) : list Z * Z :=
  let '(acc, carry) := st in
  let cur := (acc !!! (i + j)%nat) +64 (xi *64 (y !!! j)) +64 carry in
  (<[(i + j)%nat := cur &64 0xffffffff]> acc, cur >>64 32).

Definition mul_row (x y : list Z) (i : nat) (acc : list Z) : list Z :=
  let '(acc, carry) := for_up 4 0 (mul_inner (x !!! i) y i) (acc, 0) in
  <[(i + 4)%nat := (acc !!! (i + 4)%nat) +64 carry]> acc.

Definition limbs32 (h l : Z) : list Z := [u32 l; u32 (l >>64 32); u32 h; u32 (h >>64 32)].

Definition mul_256 (ah al bh bl : Z) : list Z :=
  let acc := for_up 4 0 (mul_row (limbs32 ah al) (limbs32 bh bl)) (replicate 8 0) in
  [(acc !!! 0%nat) |64 ((acc !!! 1%nat) <<64 32);
   (acc !!! 2%nat) |64 ((acc !!! 3%nat) <<64 32);
   (acc !!! 4%nat) |64 ((acc !!! 5%nat) <<64 32);
   (acc !!! 6%nat) |64 ((acc !!! 7%nat) <<64 32)].

(** [for (i = 3; i >= 0; i--) if (p[i]) return i * 64 + bits; return 0;] *)
Fixpoint bitlen_words (p : list Z) (n : nat) : Z :=
  match n with
  | O => 0
  | S i => if negb (p !!! i =? 0) then Z.of_nat i * 64 + (bitlen_loop (p !!! i) 0).2
           else bitlen_words p i
  end.
Definition bitlen_256 (p : list Z) : Z := bitlen_words p 4.

Definition low_bits_set_256 (p : list Z) (d : Z) : bool :=
  let w := Z.to_nat (Z.quot d 64) in
  let b := Z.rem d 64 in
  if for_up (Nat.min w 4) 0 (fun i found => found || negb (p !!! i =? 0)) false then true
  else negb (b =? 0) && (w <? 4)%nat && negb (p !!! w &64 ((1 <<64 b) -64 1) =? 0).

Definition shr_256 (p : list Z) (d : Z) : list Z :=
  let w := Z.to_nat (Z.quot d 64) in
  let b := Z.rem d 64 in
  let p :=
    if negb (w =? 0)%nat then
      let p := for_up (4 - w) 0 (fun i p => <[i := p !!! (i + w)%nat]> p) p in
      for_up (4 - (4 - w)) (4 - w) (fun i p => <[i := 0]> p) p
    else p in
  if negb (b =? 0) then
    let p := for_up 3 0 (fun i p =>
      <[i := ((p !!! i) >>64 b) |64 ((p !!! (i + 1)%nat) <<64 (64 - b))]> p) p in
    <[3%nat := (p !!! 3%nat) >>64 b]> p
  else p.

Definition sf_mul (a b : Sf) (f : SfFormat) (st : SfStatus) : Sf * SfStatus :=
  let sg := xorb (sign a) (sign b) in
  if is_cls SF_NAN a || is_cls SF_NAN b then (special false SF_NAN, st)
  else if is_cls SF_INF a || is_cls SF_INF b then
    if is_cls SF_ZERO a || is_cls SF_ZERO b then make_nan st
    else (special sg SF_INF, st)
  else if is_cls SF_ZERO a || is_cls SF_ZERO b then (special sg SF_ZERO, st)
  else
    let p := mul_256 (hi a) (lo a) (hi b) (lo b) in
    let pexp := exp a + exp b in
    let len := bitlen_256 p in
    let drop := len - 128 in
    let '(p, sticky, pexp) :=
      if 128 <? len then (shr_256 p drop, low_bits_set_256 p drop, pexp + drop)
      else (p, false, pexp) in
    round_pack sg (p !!! 1%nat) (p !!! 0%nat) pexp sticky f st.

(** Normalize a significand to 120 bits. *)
Definition div_normalize (h l k : Z) : Z * Z :=
  if 0 <? k then u128_shl h l k
  else if k <? 0 then let '(h, l, _) := u128_shr_sticky h l (- k) in (h, l)
  else (h, l).

Definition div_step (qbits : Z) (dh dl : Z) (i : nat) (st : Z * Z * Z * Z) : Z * Z * Z * Z :=
  let '(qh, ql, rh, rl) := st in
  let qh := (qh <<64 1) |64 (ql >>64 63) in
  let ql := ql <<64 1 in
  let '(rh, rl, ql) :=
    if 0 <=? u128_cmp rh rl dh dl then
      let '(rh, rl) := u128_sub rh rl dh dl in (rh, rl, ql |64 1)
    else (rh, rl, ql) in
  let '(rh, rl) := if Z.of_nat i + 1 <? qbits then u128_shl rh rl 1 else (rh, rl) in
  (qh, ql, rh, rl).

Definition sf_div (a b : Sf) (f : SfFormat) (st : SfStatus) : Sf * SfStatus :=
  let prec := prec_of f in
  let qbits := prec + 2 in
  let sg := xorb (sign a) (sign b) in
  if is_cls SF_NAN a || is_cls SF_NAN b then (special false SF_NAN, st)
  else if is_cls SF_INF a && is_cls SF_INF b then make_nan st
  else if is_cls SF_ZERO a && is_cls SF_ZERO b then make_nan st
  else if is_cls SF_ZERO b then (special sg SF_INF, set_invalid st)
  else if is_cls SF_ZERO a || is_cls SF_INF b then (special sg SF_ZERO, st)
  else if is_cls SF_INF a then (special sg SF_INF, st)
  else
    let ka := 120 - u128_bitlen (hi a) (lo a) in
    let kb := 120 - u128_bitlen (hi b) (lo b) in
    let '(rh, rl) := div_normalize (hi a) (lo a) ka in
    let '(dh, dl) := div_normalize (hi b) (lo b) kb in
    let aexp := exp a - ka in
    let bexp := exp b - kb in
    let '(qh, ql, rh, rl) :=
      for_up (Z.to_nat qbits) 0 (div_step qbits dh dl) (0, 0, rh, rl) in
    round_pack sg qh ql (aexp - bexp - (qbits - 1)) (negb (rh |64 rl =? 0)) f st.

Definition sf_convert (a : Sf) (from to : SfFormat) (st : SfStatus) : Sf * SfStatus :=
  if negb (is_cls SF_NORMAL a) then (a, st)
  else round_pack (sign a) (hi a) (lo a) (exp a) false to st.

(** The pair is the result and the [unordered] flag. *)
Definition sf_cmp (a b : Sf) : Z * bool :=
  if is_cls SF_NAN a || is_cls SF_NAN b then (0, true)
  else if is_cls SF_ZERO a && is_cls SF_ZERO b then (0, false)
  else if negb (Bool.eqb (sign a) (sign b)) then ((if sign a then -1 else 1), false)
  else if is_cls SF_INF a && is_cls SF_INF b then (0, false)
  else if is_cls SF_INF a then ((if sign a then -1 else 1), false)
  else if is_cls SF_INF b then ((if sign b then 1 else -1), false)
  else if is_cls SF_ZERO a then ((if sign b then 1 else -1), false)
  else if is_cls SF_ZERO b then ((if sign a then -1 else 1), false)
  else
    let abits := u128_bitlen (hi a) (lo a) + exp a in
    let bbits := u128_bitlen (hi b) (lo b) + exp b in
    let c :=
      if negb (abits =? bbits) then (if abits <? bbits then -1 else 1)
      else
        let shift := exp a - exp b in
        let '(ah, al) := if 0 <? shift then u128_shl (hi a) (lo a) shift else (hi a, lo a) in
        let '(bh, bl) := if shift <? 0 then u128_shl (hi b) (lo b) (- shift) else (hi b, lo b) in
        u128_cmp ah al bh bl in
    ((if sign a then - c else c), false).

Definition sf_to_int (a : Sf) (width : Z) (is_unsigned : bool) (st : SfStatus) : Z * SfStatus :=
  if (width <? 1) || (64 <? width) then (0, set_invalid st)
  else if is_cls SF_ZERO a then (0, st)
  else if negb (is_cls SF_NORMAL a) then (0, set_invalid st)
  else
    let shift := exp a in
    if (0 <? shift) && (64 <? u128_bitlen (hi a) (lo a) + shift) then (0, set_invalid st)
    else
      let '(h, l, st) :=
        if 0 <? shift then let '(h, l) := u128_shl (hi a) (lo a) shift in (h, l, st)
        else if shift <? 0 then
          let '(h, l, s) := u128_shr_sticky (hi a) (lo a) (- shift) in
          (h, l, if s then set_inexact st else st)
        else (hi a, lo a, st) in
      if negb (h =? 0) then (0, set_invalid st)
      else
        let bad :=
          if is_unsigned then
            let limit := if width =? 64 then 2 ^ 64 - 1 else (1 <<64 width) -64 1 in
            (sign a && negb (l =? 0)) || (limit <? l)
          else
            let limit := 1 <<64 (width - 1) in
            (negb (sign a) && (limit <=? l)) || (sign a && (limit <? l)) in
        if bad then (0, set_invalid st)
        else if negb (sign a) then (l, st)
        else let l := 0 -64 l in
             ((if width =? 64 then l else l &64 ((1 <<64 width) -64 1)), st).

(** The out-parameters [(hi, lo)], zeroed first as the source does. *)
Definition sf_to_int128 (a : Sf) (is_unsigned : bool) (st : SfStatus) : Z * Z * SfStatus :=
  if is_cls SF_ZERO a then (0, 0, st)
  else if negb (is_cls SF_NORMAL a) then (0, 0, set_invalid st)
  else
    let shift := exp a in
    if (0 <? shift) && (128 <? u128_bitlen (hi a) (lo a) + shift) then (0, 0, set_invalid st)
    else
      let '(h, l, st) :=
        if 0 <? shift then let '(h, l) := u128_shl (hi a) (lo a) shift in (h, l, st)
        else if shift <? 0 then
          let '(h, l, s) := u128_shr_sticky (hi a) (lo a) (- shift) in
          (h, l, if s then set_inexact st else st)
        else (hi a, lo a, st) in
      let bad :=
        if is_unsigned then sign a && (negb (h =? 0) || negb (l =? 0))
        else (negb (sign a) && negb (h >>64 63 =? 0)) ||
             (sign a && ((0x8000000000000000 <? h) ||
                         ((h =? 0x8000000000000000) && negb (l =? 0)))) in
      if bad then (0, 0, set_invalid st)
      else if sign a && (negb (h =? 0) || negb (l =? 0)) then
        let l := ~64 l +64 1 in
        (~64 h +64 b2z (l =? 0), l, st)
      else (h, l, st).

(** ** Bit images: sixteen bytes, little-endian *)
Definition or_bit (out : list Z) (bit : Z) : list Z :=
  let k := Z.to_nat (Z.quot bit 8) in
  <[k := Z.lor (out !!! k) (u8 (Z.shiftl 1 (Z.rem bit 8)))]> out.

(** The significand and biased exponent of a normal value, per case of the
    source's subnormal test. *)
Definition normal_fields (a : Sf) (f : SfFormat) : Z * Z * Z :=
  let prec := prec_of f in
  let emax := emax_of f in
  let emin := emin_of f in
  let '(h, l) := (hi a, lo a) in
  let msb := u128_bitlen h l in
  let unbiased := exp a + (if 0 <? msb then msb - 1 else 0) in
  if unbiased <? emin then
    let target := emin - (prec - 1) in
    let '(h, l) :=
      if target <? exp a then u128_shl h l (exp a - target)
      else if exp a <? target then
        let '(h, l, _) := u128_shr_sticky h l (target - exp a) in (h, l)
      else (h, l) in
    (h, l, 0)
  else
    let biased := unbiased + emax in
    let want := prec - 1 in
    let '(h, l) :=
      if msb - 1 <? want then u128_shl h l (want - (msb - 1))
      else if want <? msb - 1 then
        let '(h, l, _) := u128_shr_sticky h l ((msb - 1) - want) in (h, l)
      else (h, l) in
    if negb (explicit_intbit f) then
      if 64 <=? prec - 1 then (h &64 ((1 <<64 (prec - 1 - 64)) -64 1), l, biased)
      else (h, l &64 ((1 <<64 (prec - 1)) -64 1), biased)
    else (h, l, biased).

Definition fields_of (a : Sf) (f : SfFormat) : Z * Z * Z :=
  match cls a with
  | SF_ZERO => (0, 0, 0)
  | SF_INF =>
    (0, (if explicit_intbit f then 1 <<64 (frac_bits f - 1) else 0),
     Z.shiftl 1 (exp_bits f) - 1)
  | SF_NAN =>
    let biased := Z.shiftl 1 (exp_bits f) - 1 in
    if explicit_intbit f then
      (0, (1 <<64 (frac_bits f - 1)) |64 (1 <<64 (frac_bits f - 2)), biased)
    else if 64 <? frac_bits f then (1 <<64 (frac_bits f - 64 - 1), 0, biased)
    else (0, 1 <<64 (frac_bits f - 1), biased)
  | SF_NORMAL => normal_fields a f
  end.

Definition sf_to_bits (a : Sf) (f : SfFormat) : list Z :=
  let total_bits := exp_bits f + frac_bits f + 1 in
  let '(frac_hi, frac_lo, biased) := fields_of a f in
  let out := replicate 16 0 in
  let tb := Z.to_nat (total_bytes f) in
  let out := for_up (Nat.min 8 tb) 0 (fun i out =>
    <[i := u8 (frac_lo >>64 (Z.of_nat i * 8))]> out) out in
  let out := for_up (Nat.min 16 tb - 8) 8 (fun i out =>
    <[i := u8 (frac_hi >>64 ((Z.of_nat i - 8) * 8))]> out) out in
  let out := for_up (Z.to_nat (exp_bits f)) 0 (fun i out =>
    if negb (Z.land (Z.shiftr biased (Z.of_nat i)) 1 =? 0)
    then or_bit out (frac_bits f + Z.of_nat i) else out) out in
  if sign a then or_bit out (total_bits - 1) else out.

Definition sf_from_bits (bs : list Z) (f : SfFormat) : Sf :=
  let prec := prec_of f in
  let emax := emax_of f in
  let total_bits := exp_bits f + frac_bits f + 1 in
  let tb := Z.to_nat (total_bytes f) in
  let frac_lo := for_up (Nat.min 8 tb) 0 (fun i acc =>
    acc |64 ((bs !!! i) <<64 (Z.of_nat i * 8))) 0 in
  let frac_hi := for_up (Nat.min 16 tb - 8) 8 (fun i acc =>
    acc |64 ((bs !!! i) <<64 ((Z.of_nat i - 8) * 8))) 0 in
  let '(frac_hi, frac_lo) :=
    if frac_bits f <? 64 then (0, frac_lo &64 ((1 <<64 frac_bits f) -64 1))
    else if frac_bits f <? 128 then
      ((if frac_bits f - 64 <? 64 then
          (if frac_bits f =? 64 then 0
           else frac_hi &64 ((1 <<64 (frac_bits f - 64)) -64 1))
        else frac_hi), frac_lo)
    else (frac_hi, frac_lo) in
  let biased := for_up (Z.to_nat (exp_bits f)) 0 (fun i acc =>
    let bit := frac_bits f + Z.of_nat i in
    if negb (Z.land (bs !!! Z.to_nat (Z.quot bit 8)) (Z.shiftl 1 (Z.rem bit 8)) =? 0)
    then Z.lor acc (Z.shiftl 1 (Z.of_nat i)) else acc) 0 in
  let sg := negb (Z.land (Z.shiftr (bs !!! Z.to_nat (Z.quot (total_bits - 1) 8))
                            (Z.rem (total_bits - 1) 8)) 1 =? 0) in
  if biased =? Z.shiftl 1 (exp_bits f) - 1 then
    if explicit_intbit f then
      let intbit := 1 <<64 (frac_bits f - 1) in
      special sg (if (frac_hi =? 0) && (frac_lo =? intbit) then SF_INF else SF_NAN)
    else special sg (if negb (frac_hi |64 frac_lo =? 0) then SF_NAN else SF_INF)
  else if (biased =? 0) && (frac_hi |64 frac_lo =? 0) then special sg SF_ZERO
  else if explicit_intbit f && negb (biased =? 0) &&
          (frac_lo &64 (1 <<64 (frac_bits f - 1)) =? 0) then special sg SF_NAN
  else if biased =? 0 then
    mkSf sg SF_NORMAL (emin_of f - (prec - 1)) frac_hi frac_lo
  else
    let '(h, l) :=
      if negb (explicit_intbit f) then
        if 64 <=? prec - 1 then (frac_hi |64 (1 <<64 (prec - 1 - 64)), frac_lo)
        else (frac_hi, frac_lo |64 (1 <<64 (prec - 1)))
      else (frac_hi, frac_lo) in
    mkSf sg SF_NORMAL (biased - emax - (prec - 1)) h l.

(** ** Checks against known values *)
Definition le_bytes (bs : list Z) : Z := fold_right (fun b v => b + 256 * v) 0 bs.

Example tenth_binary64 :
  le_bytes (sf_to_bits (sf_from_decimal [49] (-1) SF_BINARY64 no_status).1 SF_BINARY64)
  = 0x3FB999999999999A.
Proof. vm_compute. reflexivity. Qed.

Example third_binary32 :
  let one := (sf_from_int 1 false SF_BINARY32 no_status).1 in
  let three := (sf_from_int 3 false SF_BINARY32 no_status).1 in
  le_bytes (sf_to_bits (sf_div one three SF_BINARY32 no_status).1 SF_BINARY32) = 0x3EAAAAAB.
Proof. vm_compute. reflexivity. Qed.

Example min_subnormal_bits :
  le_bytes (sf_to_bits (sf_from_decimal [53] (-324) SF_BINARY64 no_status).1 SF_BINARY64) = 1.
Proof. vm_compute. reflexivity. Qed.

Example ti_from_bits :
  le_bytes (sf_to_bits (sf_add
    (sf_from_bits (sf_to_bits (sf_from_int 5 true SF_X87_80 no_status).1 SF_X87_80) SF_X87_80)
    (sf_from_int 2 false SF_X87_80 no_status).1 SF_X87_80 no_status).1 SF_X87_80)
  = 0xC000C000000000000000.
Proof. vm_compute. reflexivity. Qed.
