(* ===== verification/SoftfpRound.v ===== *)
(** [src/util/softfp.c]: IEEE rounding.  The specification of a correctly
    rounded result on exact rationals, its laws, the two-limb helpers in terms
    of the integers they hold, and the proof that [round_pack] computes the
    correctly rounded result. *)
From Stdlib Require Import QArith Qpower Qround Qabs Lqa.
From S2P Require Import Prelude.
From S2P Require Import Softfp.
#[local] Open Scope Z_scope.

(** ** Powers of two and binary magnitude of a rational *)
Definition pow2 (e : Z) : Q := Qpower (2 # 1) e.

Lemma pow2_add a b : (pow2 (a + b) == pow2 a * pow2 b)%Q.
Proof. apply Qpower_plus. discriminate. Qed.

Lemma pow2_gt0 e : (0 < pow2 e)%Q.
Proof. apply Qpower_0_lt. reflexivity. Qed.

Lemma pow2_neq0 e : ~ (pow2 e == 0)%Q.
Proof. pose proof (pow2_gt0 e). intros E. rewrite E in H. discriminate. Qed.

Lemma pow2_Z e : 0 <= e -> (pow2 e == inject_Z (2 ^ e))%Q.
Proof.
  intros. unfold pow2. rewrite Zpower_Qpower by done. reflexivity.
Qed.

Lemma pow2_opp e : (pow2 e * pow2 (- e) == 1)%Q.
Proof. rewrite <- pow2_add. replace (e + - e) with 0 by lia. reflexivity. Qed.

Lemma pow2_mono a b : a <= b -> (pow2 a <= pow2 b)%Q.
Proof.
  intros. replace b with (a + (b - a)) by lia. rewrite pow2_add, (pow2_Z (b - a)) by lia.
  pose proof (pow2_gt0 a). assert (1 <= inject_Z (2 ^ (b - a)))%Q.
  { change 1%Q with (inject_Z 1). rewrite <- Zle_Qle. pose proof (pow2_pos (b - a)). lia. }
  nra.
Qed.

Lemma pow2_lt_inv a b : (pow2 a < pow2 b)%Q -> a < b.
Proof.
  intros. destruct (Z.lt_ge_cases a b); [done|]. pose proof (pow2_mono b a ltac:(done)). lra.
Qed.

(** The [k] with [2^(k-1) <= x < 2^k] for a positive [x], and 0 otherwise. *)
Definition qlen (x : Q) : Z :=
  if Qle_bool x 0 then 0 else
  let k := bitlen (Qnum x) - bitlen (Z.pos (Qden x)) in
  if Qle_bool (pow2 k) x then k + 1 else k.

Lemma Q_num_den x : (x * inject_Z (Z.pos (Qden x)) == inject_Z (Qnum x))%Q.
Proof. destruct x as [n d]. unfold Qeq. simpl. lia. Qed.

Lemma qlen_spec x : (0 < x)%Q -> (pow2 (qlen x - 1) <= x < pow2 (qlen x))%Q.
Proof.
  intros Hx. unfold qlen. destruct (Qle_bool x 0) eqn:Z0; [apply Qle_bool_iff in Z0; lra|].
  set (bn := bitlen (Qnum x)). set (bd := bitlen (Z.pos (Qden x))).
  assert (Hn : 0 < Qnum x) by (destruct x; unfold Qlt in Hx; simpl in *; lia).
  pose proof (bitlen_spec _ Hn) as [N1 N2]. fold bn in N1, N2.
  pose proof (bitlen_pos _ Hn). fold bn in H.
  pose proof (bitlen_spec (Z.pos (Qden x)) ltac:(lia)) as [D1 D2]. fold bd in D1, D2.
  pose proof (bitlen_pos (Z.pos (Qden x)) ltac:(lia)). fold bd in H0.
  pose proof (Q_num_den x) as E.
  set (d := inject_Z (Z.pos (Qden x))) in *. set (n := inject_Z (Qnum x)) in *.
  assert (A1 : (pow2 (bn - 1) <= n)%Q) by (rewrite pow2_Z by lia; unfold n, d; by rewrite <- Zle_Qle).
  assert (A2 : (n < pow2 bn)%Q) by (rewrite pow2_Z by lia; unfold n, d; by rewrite <- Zlt_Qlt).
  assert (B1 : (pow2 (bd - 1) <= d)%Q) by (rewrite pow2_Z by lia; unfold n, d; by rewrite <- Zle_Qle).
  assert (B2 : (d < pow2 bd)%Q) by (rewrite pow2_Z by lia; unfold n, d; by rewrite <- Zlt_Qlt).
  destruct (Qle_bool (pow2 (bn - bd)) x) eqn:C.
  - apply Qle_bool_iff in C. replace (bn - bd + 1 - 1) with (bn - bd) by lia. split; [done|].
    assert (P : (pow2 (bn - bd + 1) * pow2 (bd - 1) == pow2 bn)%Q)
      by (rewrite <- pow2_add; replace (bn - bd + 1 + (bd - 1)) with bn by lia; reflexivity).
    pose proof (pow2_gt0 (bd - 1)). pose proof (pow2_gt0 (bn - bd + 1)).
    nra.
  - assert (C' : (x < pow2 (bn - bd))%Q).
    { apply Qnot_le_lt. intros L. apply Qle_bool_iff in L. congruence. }
    split; [|done].
    assert (P : (pow2 (bn - bd - 1) * pow2 bd == pow2 (bn - 1))%Q)
      by (rewrite <- pow2_add; replace (bn - bd - 1 + bd) with (bn - 1) by lia; reflexivity).
    pose proof (pow2_gt0 (bn - bd - 1)). pose proof (pow2_gt0 bd). nra.
Qed.

Lemma qlen_unique x k : (pow2 (k - 1) <= x < pow2 k)%Q -> qlen x = k.
Proof.
  intros [K1 K2]. pose proof (pow2_gt0 (k - 1)).
  destruct (qlen_spec x) as [L1 L2]; [lra|].
  assert (k - 1 < qlen x) by (apply pow2_lt_inv; lra).
  assert (qlen x - 1 < k) by (apply pow2_lt_inv; lra). lia.
Qed.

#[export] Instance qlen_proper : Proper (Qeq ==> eq) qlen.
Proof.
  intros x y E. destruct (Qlt_le_dec 0 x) as [Hx|Hx].
  - symmetry. apply qlen_unique. rewrite <- E. by apply qlen_spec.
  - unfold qlen. rewrite (proj2 (Qle_bool_iff x 0)), (proj2 (Qle_bool_iff y 0)); lra || done.
Qed.

Lemma qlen_scale x k : (0 < x)%Q -> qlen (x * pow2 k) = qlen x + k.
Proof.
  intros Hx. apply qlen_unique. destruct (qlen_spec x Hx). pose proof (pow2_gt0 k).
  replace (qlen x + k - 1) with (qlen x - 1 + k) by lia. rewrite !pow2_add. nra.
Qed.

(** ** Round to nearest, ties to even *)
Definition rne_div (n d : Z) : Z :=
  let q := n / d in
  match Z.compare (2 * (n mod d)) d with
  | Lt => q
  | Eq => if Z.even q then q else q + 1
  | Gt => q + 1
  end.
Definition rne (x : Q) : Z := rne_div (Qnum x) (Z.pos (Qden x)).

(** The nearest integer: no integer is closer, and on a tie it is even. *)
Lemma rne_nearest x z : (Qabs (x - inject_Z (rne x)) <= Qabs (x - inject_Z z))%Q.
Proof.
  destruct x as [n d]. unfold rne, rne_div. simpl Qnum; simpl Qden.
  pose proof (Z.div_mod n (Z.pos d) ltac:(lia)) as E.
  pose proof (Z.mod_pos_bound n (Z.pos d) ltac:(lia)) as B.
  set (q := n / Z.pos d) in *. set (r := n mod Z.pos d) in *.
  assert (G : forall m, 2 * Z.abs (n - m * Z.pos d) <= Z.pos d ->
              (Qabs ((n # d) - inject_Z m) <= Qabs ((n # d) - inject_Z z))%Q).
  { intros m Hm. unfold Qle, Qabs, Qminus, Qplus, Qopp, inject_Z. simpl.
    rewrite !Z.mul_1_r, !Pos.mul_1_r. apply Z.mul_le_mono_nonneg_r; [lia|].
    rewrite !Z.mul_opp_l. destruct (Z.lt_trichotomy z m) as [L|[->|L]]; nia. }
  destruct (Z.compare_spec (2 * r) (Z.pos d)); [destruct (Z.even q)| |]; apply G; nia.
Qed.

Lemma rne_tie x : (2 * Qabs (x - inject_Z (rne x)) == 1)%Q -> Z.even (rne x) = true.
Proof.
  destruct x as [n d]. unfold rne, rne_div. simpl Qnum; simpl Qden.
  pose proof (Z.div_mod n (Z.pos d) ltac:(lia)) as E.
  pose proof (Z.mod_pos_bound n (Z.pos d) ltac:(lia)) as B.
  set (q := n / Z.pos d) in *. set (r := n mod Z.pos d) in *.
  assert (G : forall m, (2 * Qabs ((n # d) - inject_Z m) == 1)%Q ->
              2 * Z.abs (n - m * Z.pos d) = Z.pos d).
  { intros m. unfold Qeq, Qabs, Qminus, Qplus, Qopp, inject_Z, Qmult. simpl.
    rewrite ?Z.mul_1_r, ?Pos.mul_1_r, Z.mul_opp_l. lia. }
  destruct (Z.compare_spec (2 * r) (Z.pos d)); [destruct (Z.even q) eqn:Ev| |];
    intros T; apply G in T; try nia; [done|].
  rewrite Z.even_add, Ev. done.
Qed.

(** [exact y v s]: [v] is [y] truncated, and [s] says whether anything was
    dropped.  [cuts] keeps one more bit: [v] is [y] truncated, [rb] the first
    dropped bit, and [st] whether anything below it is set. *)
Definition exact (y : Q) (v : Z) (s : bool) : Prop :=
  (inject_Z v <= y < inject_Z (v + 1))%Q /\ s = negb (Qeq_bool y (inject_Z v)).
Definition cuts (y : Q) (m : Z) (rb st : bool) : Prop := exact (2 * y) (2 * m + b2z rb) st.

#[export] Instance exact_proper : Proper (Qeq ==> eq ==> eq ==> iff) exact.
Proof.
  intros x y E v ? <- s ? <-. unfold exact. by rewrite !E.
Qed.
#[export] Instance cuts_proper : Proper (Qeq ==> eq ==> eq ==> eq ==> iff) cuts.
Proof. intros x y E v ? <- r ? <- s ? <-. unfold cuts. by rewrite E. Qed.

Lemma exact_iff (n : Z) (d : positive) v s :
  exact (n # d) v s <-> v = n / Z.pos d /\ s = negb (n mod Z.pos d =? 0).
Proof.
  unfold exact, Qle, Qlt, Qeq_bool, inject_Z. simpl. rewrite !Z.mul_1_r.
  pose proof (Z.div_mod n (Z.pos d) ltac:(lia)) as E.
  pose proof (Z.mod_pos_bound n (Z.pos d) ltac:(lia)) as B.
  split.
  - intros [[L U] ->]. assert (v = n / Z.pos d) as -> by nia. split; [done|].
    f_equal. destruct (Z.eqb_spec (n mod Z.pos d) 0) as [Hz|Hz].
    + apply Z.eqb_eq. nia.
    + apply not_true_is_false. intros T. apply Z.eqb_eq in T. nia.
  - intros [-> ->]. split; [nia|]. f_equal.
    destruct (Z.eqb_spec (n mod Z.pos d) 0) as [Hz|Hz]; symmetry.
    + apply Z.eqb_eq. nia.
    + apply not_true_is_false. intros T. apply Z.eqb_eq in T. nia.
Qed.

Lemma exact_exists y : exists v s, exact y v s.
Proof. destruct y as [n d]. eexists _, _. by apply exact_iff. Qed.

Lemma rne_cuts x m rb st :
  cuts x m rb st -> rne x = m + b2z (rb && (st || Z.odd m)).
Proof.
  destruct x as [n d]. unfold cuts. intros H.
  assert (H' : exact (2 * n # d) (2 * m + b2z rb) st).
  { eapply exact_proper; [| | |exact H]; done. }
  apply exact_iff in H' as [Hv Hs]. unfold rne, rne_div. simpl Qnum; simpl Qden.
  pose proof (Z.div_mod n (Z.pos d) ltac:(lia)) as E.
  pose proof (Z.mod_pos_bound n (Z.pos d) ltac:(lia)) as B.
  pose proof (Z.div_mod (2 * n) (Z.pos d) ltac:(lia)) as E2.
  pose proof (Z.mod_pos_bound (2 * n) (Z.pos d) ltac:(lia)) as B2.
  rewrite <- Hv in E2. set (q := n / Z.pos d) in *. set (r := n mod Z.pos d) in *.
  set (t := (2 * n) mod Z.pos d) in *.
  assert (-2 < 2 * (q - m) - b2z rb < 1) by nia.
  assert (q = m) as Eq by (destruct rb; simpl b2z in *; lia).
  rewrite Eq in *. clear Eq q.
  rewrite <- Z.negb_odd.
  destruct rb; simpl b2z in *; simpl andb.
  - assert (2 * r = Z.pos d + t) by nia.
    destruct (Z.compare_spec (2 * r) (Z.pos d)); [|lia|].
    + assert (t = 0) as T by lia. rewrite T in Hs. subst st. destruct (Z.odd m); simpl; lia.
    + destruct (Z.eqb_spec t 0); [lia|]. subst st. done.
  - destruct (Z.compare_spec (2 * r) (Z.pos d)); nia.
Qed.

#[export] Instance rne_proper : Proper (Qeq ==> eq) rne.
Proof.
  intros x y E. destruct (exact_exists (2 * x)) as (v & s & H).
  assert (Hv : v = 2 * (v / 2) + b2z (Z.odd v)).
  { rewrite (Z.div_mod v 2) at 1 by lia. rewrite Zmod_odd. by destruct (Z.odd v). }
  rewrite Hv in H. change (cuts x (v / 2) (Z.odd v) s) in H.
  rewrite (rne_cuts _ _ _ _ H). symmetry. apply rne_cuts. by rewrite <- E.
Qed.

(** ** The two-limb helpers in terms of the values they hold *)
Section limbs.
  Context (h l : Z) (Hh : is_u64 h) (Hl : is_u64 l).

Lemma u128_shl_spec n : 0 <= n -> u128_shl h l n = split128 (u128 (pairval h l * 2 ^ n)).
  Proof using Hh Hl.
    intros Hn. unfold u128_shl. destruct (Z.leb_spec n 0).
    { replace n with 0 by lia. rewrite Z.mul_1_r, u128_small by (by apply pairval_range).
      by rewrite split128_pairval. }
    destruct (Z.leb_spec 128 n).
    { unfold u128. replace (2 ^ n) with (2 ^ (n - 128) * 2 ^ 128)
        by (rewrite <- Z.pow_add_r by lia; f_equal; lia).
      by rewrite Z.mul_assoc, Z.mod_mul by lia. }
    destruct (Z.leb_spec 64 n).
    - apply split128_unique; [word_lia|]. unfold pairval, u128, u64.
      rewrite Z.shiftl_mul_pow2 by lia.
      replace (2 ^ n) with (2 ^ (n - 64) * 2 ^ 64)
        by (rewrite <- Z.pow_add_r by lia; f_equal; lia).
      pose proof (pow2_pos (n - 64) ltac:(lia)).
      Z.div_mod_to_equations; nia.
    - rewrite (shl_carry_in h l n) by (done || lia).
      apply split128_unique; [apply u64_range|].
      pose proof (shl64_split l n ltac:(lia)). pose proof (shl64_split h n ltac:(lia)).
      pose proof (shr64_range l (64 - n) ltac:(lia) Hl).
      pose proof (u64_range (Z.shiftl l n)).
      pose proof (shl64_plus_lt h n (l >>64 (64 - n)) ltac:(lia)) as HB.
      replace (64 - (64 - n)) with n in * by lia. specialize (HB ltac:(done)).
      pose proof (u64_range (Z.shiftl h n)).
      unfold u128. apply (Z.mod_unique _ _ (h >>64 (64 - n))); unfold is_u64, pairval in *; lia.
  Qed.

Lemma u128_bitlen_spec : u128_bitlen h l = bitlen (pairval h l).
  Proof using Hh Hl.
    unfold u128_bitlen. rewrite !bitlen_loop_spec by done. simpl.
    destruct (Z.eqb_spec h 0) as [->|Hne]; simpl.
    - by rewrite Z.add_0_l.
    - rewrite Z.add_0_l. symmetry. assert (0 < h) as Hp by word_lia.
      pose proof (bitlen_spec h Hp). pose proof (bitlen_pos h Hp).
      apply bitlen_unique; [lia|].
      replace (bitlen h + 64 - 1) with (bitlen h - 1 + 64) by lia.
      rewrite !(Z.pow_add_r 2 _ 64) by lia. word_nia.
  Qed.

Lemma shr_step_spec i s :
    shr_step i (h, l, s) = (split128 (pairval h l / 2), s || negb (pairval h l mod 2 =? 0)).
  Proof using Hh Hl.
    unfold shr_step. rewrite land_1_mod. f_equal.
    - assert (l >>64 1 = l / 2) as -> by (by rewrite shiftr_div).
      assert (h >>64 1 = h / 2) as -> by (by rewrite shiftr_div).
      assert (Z.lor (l / 2) (h <<64 63) = l / 2 + (h mod 2) * 2 ^ 63) as ->.
      { rewrite Z.lor_comm, (lor_add_disjoint _ _ 63); [|lia| |by apply shl64_divisible].
        - unfold u64. rewrite Z.shiftl_mul_pow2 by lia. Z.div_mod_to_equations; lia.
        - unfold is_u64 in *. Z.div_mod_to_equations; lia. }
      apply split128_unique; unfold is_u64, pairval in *; Z.div_mod_to_equations; lia.
    - assert (pairval h l mod 2 = l mod 2) as -> by (unfold pairval; Z.div_mod_to_equations; lia).
      by destruct s, (l mod 2 =? 0).
  Qed.
End limbs.

(** Shifting right by [a] and then [b] bits. *)
Lemma sticky_split v a b :
  0 <= a -> 0 <= b ->
  negb (v mod 2 ^ (a + b) =? 0) = negb (v mod 2 ^ a =? 0) || negb ((v / 2 ^ a) mod 2 ^ b =? 0).
Proof.
  intros. rewrite pow2_split by done. pose proof (pow2_pos a). pose proof (pow2_pos b).
  rewrite Z.rem_mul_r by lia.
  pose proof (Z.mod_pos_bound v (2 ^ a)). pose proof (Z.mod_pos_bound (v / 2 ^ a) (2 ^ b)).
  destruct (Z.eqb_spec (v mod 2 ^ a) 0), (Z.eqb_spec ((v / 2 ^ a) mod 2 ^ b) 0); simpl;
    rewrite ?negb_true_iff, ?negb_false_iff, ?Z.eqb_eq, ?Z.eqb_neq; nia.
Qed.

Lemma u128_shr_sticky_spec h l n :
  is_u64 h -> is_u64 l -> 0 <= n ->
  u128_shr_sticky h l n =
    (split128 (pairval h l / 2 ^ n), negb (pairval h l mod 2 ^ n =? 0)).
Proof.
  intros Hh Hl Hn. pose proof (pairval_range h l Hh Hl). unfold u128_shr_sticky.
  destruct (Z.leb_spec n 0).
  { replace n with 0 by lia. rewrite Z.div_1_r, Z.mod_1_r, split128_pairval; done. }
  destruct (Z.leb_spec 128 n).
  { pose proof (pow2_le 128 n ltac:(lia)).
    rewrite Z.div_small, Z.mod_small by lia. f_equal. f_equal.
    unfold pairval. destruct (Z.eqb_spec (h |64 l) 0) as [E|E].
    - apply Z.lor_eq_0_iff in E as [-> ->]. done.
    - symmetry. apply Z.eqb_neq. intros E'. apply E. apply Z.lor_eq_0_iff. word_lia. }
  pose proof (for_up_inv (fun i st =>
      st = (split128 (pairval h l / 2 ^ Z.of_nat i),
            negb (pairval h l mod 2 ^ Z.of_nat i =? 0)))
    shr_step (Z.to_nat n) 0 (h, l, false)) as W. cbv beta in W.
  replace (Z.of_nat (0 + Z.to_nat n)) with n in W by lia. apply W; clear W.
  - rewrite Z.div_1_r, Z.mod_1_r, split128_pairval; done.
  - intros i st Hi ->. replace (Z.of_nat (Datatypes.S i)) with (Z.of_nat i + 1) by lia.
    pose proof (pow2_pos (Z.of_nat i) ltac:(lia)).
    assert (0 <= pairval h l / 2 ^ Z.of_nat i < 2 ^ 128).
    { split; [apply Z.div_pos; lia|]. apply Z.div_lt_upper_bound; [lia|]. nia. }
    destruct (split128 (pairval h l / 2 ^ Z.of_nat i)) as [h' l'] eqn:E.
    apply split128_inv in E as (Hh' & Hl' & E); [|done].
    rewrite shr_step_spec by done. rewrite E, sticky_split by lia.
    change (2 ^ 1) with 2. rewrite Z.pow_add_r by lia. change (2 ^ 1) with 2.
    by rewrite Z.div_div by lia.
Qed.

Lemma u128_add_spec h l ah al :
  is_u64 h -> is_u64 l -> is_u64 ah -> is_u64 al ->
  u128_add h l ah al = split128 (u128 (pairval h l + pairval ah al)).
Proof.
  intros. unfold u128_add. apply split128_unique; [apply u64_range|].
  unfold pairval, u128, u64, is_u64 in *.
  case_match; rewrite ?Z.ltb_lt, ?Z.ltb_ge in *; Z.div_mod_to_equations; lia.
Qed.

Lemma u128_sub_spec h l bh bl :
  is_u64 h -> is_u64 l -> is_u64 bh -> is_u64 bl ->
  u128_sub h l bh bl = split128 (u128 (pairval h l - pairval bh bl)).
Proof.
  intros. unfold u128_sub. apply split128_unique; [apply u64_range|].
  unfold pairval, u128, u64, is_u64 in *.
  case_match; rewrite ?Z.ltb_lt, ?Z.ltb_ge in *; Z.div_mod_to_equations; lia.
Qed.

Lemma u128_cmp_spec ah al bh bl :
  is_u64 al -> is_u64 bl ->
  u128_cmp ah al bh bl = cmp3 (pairval ah al ?= pairval bh bl).
Proof.
  intros. unfold u128_cmp, pairval, is_u64 in *.
  destruct (Z.eqb_spec ah bh), (Z.ltb_spec ah bh), (Z.eqb_spec al bl), (Z.ltb_spec al bl),
    (Z.compare_spec (ah * 2 ^ 64 + al) (bh * 2 ^ 64 + bl)); simpl; lia.
Qed.

(** ** Correct rounding into a format

    The quantum is the weight of the last significand bit: the one that makes
    the significand [prec] bits wide, but no finer than the subnormal one. *)
Definition wf_format (f : SfFormat) : Prop := 2 <= prec_of f <= 113 /\ 2 <= exp_bits f.

Lemma wf_binary16 : wf_format SF_BINARY16. Proof. by unfold wf_format; vm_compute. Qed.
Lemma wf_binary32 : wf_format SF_BINARY32. Proof. by unfold wf_format; vm_compute. Qed.
Lemma wf_binary64 : wf_format SF_BINARY64. Proof. by unfold wf_format; vm_compute. Qed.
Lemma wf_x87_80 : wf_format SF_X87_80. Proof. by unfold wf_format; vm_compute. Qed.
Lemma wf_binary128 : wf_format SF_BINARY128. Proof. by unfold wf_format; vm_compute. Qed.
#[export] Hint Resolve wf_binary16 wf_binary32 wf_binary64 wf_x87_80 wf_binary128 : words.

Definition qmin (f : SfFormat) : Z := emin_of f - (prec_of f - 1).
Definition quantum (f : SfFormat) (x : Q) : Z := Z.max (qlen x - prec_of f) (qmin f).
(** The significand before and after renormalizing a carry, with its quantum. *)
Definition raw_sig (f : SfFormat) (x : Q) : Z := rne (x * pow2 (- quantum f x)).
Definition carried (f : SfFormat) (x : Q) : Z * Z :=
  if raw_sig f x =? 2 ^ prec_of f then (2 ^ (prec_of f - 1), quantum f x + 1)
  else (raw_sig f x, quantum f x).
Definition overflows (f : SfFormat) (x : Q) : bool :=
  emax_of f <? (carried f x).2 + (prec_of f - 1).

(** The correctly rounded magnitude [x] with sign [sg]. [ieee_flags] are the
    flags of the code: underflow is raised by every result below the normal
    range, an exact one too. *)
Definition ieee_round (f : SfFormat) (sg : bool) (x : Q) : Sf :=
  let '(m, q) := carried f x in
  if overflows f x then special sg SF_INF
  else if m =? 0 then special sg SF_ZERO
  else let '(h, l) := split128 m in mkSf sg SF_NORMAL q h l.

Definition is_tiny (f : SfFormat) (x : Q) : bool := qlen x - prec_of f <? qmin f.
Definition is_inexact (f : SfFormat) (x : Q) : bool :=
  negb (Qeq_bool (x * pow2 (- quantum f x)) (inject_Z (raw_sig f x))).
Definition ieee_flags (f : SfFormat) (x : Q) (st : SfStatus) : SfStatus :=
  mkStatus (inexact st || is_inexact f x || overflows f x)
           (overflow st || overflows f x) (underflow st || is_tiny f x) (invalid st).

(** What [round_pack] returns for the nonzero magnitude [x]: the correctly
    rounded value, except that a result that rounds to zero loses its sign
    when it lies less than 128 bits below the subnormal quantum. *)
Definition rounded (f : SfFormat) (sg : bool) (x : Q) (st : SfStatus) : Sf * SfStatus :=
  let r := ieee_round f sg x in
  (if is_cls SF_ZERO r && (qmin f - (qlen x - prec_of f) <? 128)
   then special false SF_ZERO else r,
   ieee_flags f x st).

#[export] Instance quantum_proper f : Proper (Qeq ==> eq) (quantum f).
Proof. intros x y E. unfold quantum. by rewrite E. Qed.
#[export] Instance raw_sig_proper f : Proper (Qeq ==> eq) (raw_sig f).
Proof. intros x y E. unfold raw_sig. rewrite (quantum_proper f x y E). by rewrite E. Qed.
#[export] Instance rounded_proper f sg : Proper (Qeq ==> eq ==> eq) (rounded f sg).
Proof.
  intros x y E st ? <-.
  unfold rounded, ieee_round, ieee_flags, is_tiny, is_inexact, overflows, carried.
  rewrite (raw_sig_proper f x y E), (quantum_proper f x y E), (qlen_proper x y E).
  by rewrite E.
Qed.

(** ** Dropping bits *)
Lemma exact_drop y v s k :
  0 <= k -> exact y v s ->
  exact (y * pow2 (- k)) (v / 2 ^ k) (s || negb (v mod 2 ^ k =? 0)).
Proof.
  intros Hk. destruct y as [n d]. intros H. apply exact_iff in H as [-> ->].
  pose proof (pow2_pos k Hk) as Hp.
  assert (E : ((n # d) * pow2 (- k) == n # (d * Z.to_pos (2 ^ k)))%Q).
  { unfold pow2. rewrite Qpower_opp. change (Qpower (2#1) k) with (pow2 k).
    rewrite pow2_Z by done. destruct (2 ^ k) as [|p|p] eqn:P; [lia| |lia].
    unfold Qeq, inject_Z, Qinv, Qmult. simpl. lia. }
  rewrite E. apply exact_iff.
  rewrite Pos2Z.inj_mul, Z2Pos.id by done.
  rewrite Z.div_div by lia. split; [done|].
  rewrite Z.rem_mul_r by lia.
  pose proof (Z.mod_pos_bound n (Z.pos d) ltac:(lia)).
  pose proof (Z.mod_pos_bound (n / Z.pos d) (2 ^ k) Hp).
  destruct (Z.eqb_spec (n mod Z.pos d) 0), (Z.eqb_spec ((n / Z.pos d) mod 2 ^ k) 0);
    simpl; symmetry; rewrite ?negb_true_iff, ?negb_false_iff, ?Z.eqb_eq, ?Z.eqb_neq; nia.
Qed.

Lemma exact_of_Z v : exact (inject_Z v) v false.
Proof. unfold inject_Z. apply exact_iff. by rewrite Z.div_1_r, Z.mod_1_r. Qed.

Lemma exact_scale_up y v k : 0 <= k -> exact y v false -> exact (y * pow2 k) (v * 2 ^ k) false.
Proof.
  intros Hk [_ H]. symmetry in H. apply negb_false_iff, Qeq_bool_iff in H.
  rewrite H, pow2_Z by done. rewrite <- inject_Z_mult. apply exact_of_Z.
Qed.

Lemma cuts_exact y m rb st : cuts y m rb st -> exact y m (rb || st).
Proof.
  intros H. assert (H' : exact (2 * y * pow2 (- 1)) ((2 * m + b2z rb) / 2 ^ 1)
    (st || negb ((2 * m + b2z rb) mod 2 ^ 1 =? 0))) by (apply exact_drop; [lia|done]).
  assert (2 * y * pow2 (- 1) == y)%Q as E.
  { change (pow2 (-1)) with (1 # 2)%Q. ring. }
  rewrite E in H'. replace ((2 * m + b2z rb) / 2 ^ 1) with m in H'
    by (destruct rb; simpl b2z; Z.div_mod_to_equations; lia).
  replace (negb ((2 * m + b2z rb) mod 2 ^ 1 =? 0)) with rb in H'.
  - by rewrite orb_comm.
  - change (2 ^ 1) with 2. rewrite Z.mul_comm, Z.add_comm, Z.mod_add by lia. by destruct rb.
Qed.

Lemma cuts_no_round y v s : exact y v s -> s = false -> cuts y v false s.
Proof.
  intros H ->. unfold cuts. simpl b2z. rewrite Z.add_0_r.
  apply (exact_scale_up y v 1) in H; [|lia]. rewrite Z.mul_comm, Qmult_comm. exact H.
Qed.

Lemma round_bit_at_spec h l shift :
  is_u64 h -> is_u64 l -> 1 <= shift ->
  round_bit_at h l shift = Z.odd (pairval h l / 2 ^ (shift - 1)).
Proof.
  intros Hh Hl Hs. unfold round_bit_at. destruct (Z.leb_spec shift 64).
  - rewrite land_1_mod, shiftr_div, Zmod_odd by lia. unfold pairval.
    replace (2 ^ 64) with (2 * 2 ^ (64 - shift) * 2 ^ (shift - 1)).
    + pose proof (pow2_pos (shift - 1) ltac:(lia)).
      rewrite Z.mul_assoc, Z.div_add_l by lia.
      rewrite Z.odd_add, !Z.odd_mul, andb_false_r || rewrite Z.odd_add, !Z.odd_mul.
      simpl. rewrite ?andb_false_r. simpl. by destruct (Z.odd (l / _)).
    + change 2 with (2 ^ 1) at 1. rewrite <- !Z.pow_add_r by lia. f_equal. lia.
  - rewrite land_1_mod, shiftr_div, Zmod_odd by lia.
    replace (shift - 1) with (64 + (shift - 65)) by lia.
    rewrite Z.pow_add_r by lia. pose proof (pow2_pos (shift - 65) ltac:(lia)).
    rewrite <- Z.div_div by lia. rewrite pairval_div by done. by destruct (Z.odd _).
Qed.

Lemma drop_bits_spec h l shift s y :
  is_u64 h -> is_u64 l -> 1 <= shift -> exact y (pairval h l) s ->
  exists rb st, drop_bits h l shift s = (split128 (pairval h l / 2 ^ shift), rb, st) /\
    cuts (y * pow2 (- shift)) (pairval h l / 2 ^ shift) rb st.
Proof.
  intros Hh Hl Hs Hy. pose proof (pairval_range h l Hh Hl).
  unfold drop_bits. rewrite round_bit_at_spec, u128_shr_sticky_spec by (done || lia).
  apply (exact_drop _ _ _ (shift - 1)) in Hy; [|lia].
  set (v := pairval h l) in *. set (w := v / 2 ^ (shift - 1)) in *.
  pose proof (pow2_pos (shift - 1) ltac:(lia)).
  assert (Hw : 0 <= w < 2 ^ 128).
  { unfold w. split; [apply Z.div_pos; lia|]. apply Z.div_lt_upper_bound; [lia|nia]. }
  destruct (split128 w) as [h' l'] eqn:E. apply split128_inv in E as (Hh' & Hl' & E); [|done].
  rewrite u128_shr_sticky_spec by (done || lia). rewrite E.
  assert (Ew : w / 2 ^ 1 = v / 2 ^ shift).
  { unfold w. rewrite Z.div_div, <- Z.pow_add_r by lia. do 2 f_equal. lia. }
  rewrite Ew. eexists _, _. split.
  - destruct (split128 (v / 2 ^ shift)). reflexivity.
  - unfold cuts. assert (2 * (y * pow2 (- shift)) == y * pow2 (- (shift - 1)))%Q as ->.
    { replace (- (shift - 1)) with (1 + - shift) by lia. rewrite pow2_add.
      change (pow2 1) with (2 # 1)%Q. ring. }
    rewrite <- Ew. change (2 ^ 1) with 2.
    replace (2 * (w / 2) + b2z (Z.odd w)) with w.
    + destruct (negb (v mod 2 ^ (shift - 1) =? 0)); [by rewrite orb_true_r in Hy|].
      by rewrite orb_false_r in Hy.
    + rewrite (Z.div_mod w 2) at 1 by lia. rewrite Zmod_odd. by destruct (Z.odd w).
Qed.

(** ** [round_pack] *)
Lemma exact_range y v s : exact y v s -> (inject_Z v <= y < inject_Z v + 1)%Q.
Proof. intros [H _]. rewrite inject_Z_plus in H. exact H. Qed.

Lemma exact_qlen y v s : 0 < v -> exact y v s -> qlen y = bitlen v.
Proof.
  intros Hv [[L U] _]. pose proof (bitlen_spec v Hv) as [B1 B2].
  pose proof (bitlen_pos v Hv). apply qlen_unique. rewrite !pow2_Z by lia.
  rewrite Zle_Qle in B1. assert (v + 1 <= 2 ^ bitlen v) as B3 by lia.
  rewrite Zle_Qle in B3. lra.
Qed.

(** The scaled magnitude a rounding step works on. *)
Lemma rescale x y e k : (x == y * pow2 e)%Q -> (x * pow2 (- (e + k)) == y * pow2 (- k))%Q.
Proof.
  intros ->. replace (- (e + k)) with (- e + - k) by lia. rewrite pow2_add.
  transitivity (y * pow2 (- k) * (pow2 e * pow2 (- e)))%Q; [ring|].
  rewrite pow2_opp. ring.
Qed.

Lemma round_normalize_spec prec h l e s x y :
  1 <= prec -> prec <= 128 -> is_u64 h -> is_u64 l -> 0 < pairval h l ->
  exact y (pairval h l) s -> (s = true -> prec < bitlen (pairval h l)) ->
  (x == y * pow2 e)%Q ->
  exists m rb st, round_normalize prec h l e s = (split128 m, qlen x - prec, rb, st) /\
    2 ^ (prec - 1) <= m < 2 ^ prec /\ cuts (x * pow2 (- (qlen x - prec))) m rb st.
Proof.
  intros Hp Hp' Hh Hl Hv Hy Hs Hx. pose proof (pairval_range h l Hh Hl).
  assert (Hy0 : (0 < y)%Q).
  { apply exact_range in Hy. rewrite Zlt_Qlt in Hv. change (inject_Z 0) with 0%Q in Hv. lra. }
  assert (El : qlen x = bitlen (pairval h l) + e).
  { rewrite Hx, qlen_scale by done. by erewrite exact_qlen. }
  unfold round_normalize. rewrite u128_bitlen_spec by done.
  set (v := pairval h l) in *. pose proof (bitlen_spec v Hv) as [B1 B2].
  set (n := bitlen v) in *. destruct (Z.ltb_spec prec n).
  - destruct (drop_bits_spec h l (n - prec) s y) as (rb & st & -> & C); [done|done|lia|done|].
    exists (v / 2 ^ (n - prec)), rb, st. destruct (split128 _) as [h' l'] eqn:E.
    split; [by replace (e + (n - prec)) with (qlen x - prec) by lia|].
    pose proof (pow2_pos (n - prec) ltac:(lia)). split; [split|].
    + apply Z.div_le_lower_bound; [lia|]. rewrite <- Z.pow_add_r by lia.
      by replace (n - prec + (prec - 1)) with (n - 1) by lia.
    + apply Z.div_lt_upper_bound; [lia|]. rewrite <- Z.pow_add_r by lia.
      by replace (n - prec + prec) with n by lia.
    + replace (qlen x - prec) with (e + (n - prec)) by lia. by rewrite (rescale _ _ _ _ Hx).
  - assert (s = false) as -> by (destruct s; [specialize (Hs eq_refl); lia|done]).
    exists (v * 2 ^ (prec - n)), false, false.
    pose proof (bitlen_pos v Hv). fold n in H1. pose proof (pow2_pos (prec - n) ltac:(lia)).
    assert (2 ^ (prec - 1) <= v * 2 ^ (prec - n) < 2 ^ prec) as R.
    { replace (prec - 1) with (n - 1 + (prec - n)) by lia.
      rewrite Z.pow_add_r by lia.
      replace (2 ^ prec) with (2 ^ n * 2 ^ (prec - n))
        by (rewrite <- Z.pow_add_r by lia; f_equal; lia). nia. }
    split; [|split; [done|]].
    + destruct (Z.ltb_spec n prec).
      * rewrite u128_shl_spec by (done || lia). fold v. rewrite u128_small.
        -- destruct (split128 _). f_equal. f_equal. f_equal. lia.
        -- pose proof (pow2_le prec 128). lia.
      * replace (prec - n) with 0 by lia. rewrite Z.mul_1_r.
        unfold v. rewrite split128_pairval by done. by replace (qlen x - prec) with e by lia.
    + apply cuts_no_round; [|done]. replace (qlen x - prec) with (e + - (prec - n)) by lia.
      rewrite (rescale _ _ _ _ Hx). rewrite Z.opp_involutive. apply exact_scale_up; [lia|done].
Qed.

Lemma round_increment_spec prec m e rb st :
  1 <= prec -> prec <= 126 -> 0 <= m < 2 ^ prec ->
  let '(h, l) := split128 m in
  let m' := m + b2z (rb && (st || Z.odd m)) in
  round_increment prec h l e rb st =
    if m' =? 2 ^ prec then (split128 (2 ^ (prec - 1)), e + 1) else (split128 m', e).
Proof.
  intros Hp Hp' Hm. pose proof (pow2_le prec 126 ltac:(lia)) as P126.
  destruct (split128 m) as [h l] eqn:E. pose proof E as E'.
  apply split128_inv in E' as (Hh & Hl & Hv); [|lia]. simpl.
  unfold round_increment.
  assert (negb (l &64 1 =? 0) = Z.odd m) as ->.
  { rewrite land_1_mod, Zmod_odd, <- Hv. unfold pairval.
    rewrite Z.odd_add, Z.odd_mul, andb_false_r. by destruct (Z.odd l). }
  destruct (rb && _); simpl b2z.
  - rewrite u128_add_spec by (done || word_lia). rewrite Hv.
    change (pairval 0 1) with 1. rewrite u128_small by lia.
    destruct (split128 (m + 1)) as [h1 l1] eqn:E1. pose proof E1 as E1'.
    apply split128_inv in E1' as (Hh1 & Hl1 & Hv1); [|lia].
    rewrite u128_bitlen_spec, Hv1 by done. destruct (Z.eqb_spec (m + 1) (2 ^ prec)) as [Em|Em].
    + rewrite Em. pose proof (bitlen_mul_pow2 1 prec ltac:(lia) ltac:(lia)) as Bl.
      rewrite Z.mul_1_l in Bl. rewrite Bl. change (bitlen 1) with 1.
      destruct (Z.ltb_spec prec (1 + prec)); [|lia].
      rewrite u128_shr_sticky_spec, Hv1, Em by (done || lia).
      replace (2 ^ prec / 2 ^ 1) with (2 ^ (prec - 1)); [by destruct (split128 _)|].
      rewrite (pow2_sub prec 1) by lia. by rewrite Z.div_mul.
    + pose proof (bitlen_le (m + 1) prec ltac:(lia) ltac:(lia)).
      destruct (Z.ltb_spec prec (bitlen (m + 1))); [lia|]. done.
  - rewrite Z.add_0_r. destruct (Z.eqb_spec m (2 ^ prec)); [lia|]. by rewrite E.
Qed.

Lemma emax_pos f : 2 <= exp_bits f -> 1 <= emax_of f.
Proof.
  intros. unfold emax_of. rewrite Z.shiftl_1_l.
  pose proof (pow2_le 1 (exp_bits f - 1) ltac:(lia)). lia.
Qed.

(** A cut is inexact exactly when its rounding is not the value itself. *)
Lemma cuts_inexact y m rb st :
  cuts y m rb st -> (rb || st) = negb (Qeq_bool y (inject_Z (rne y))).
Proof.
  intros H. pose proof (rne_cuts _ _ _ _ H) as R. apply cuts_exact in H as [[L U] E].
  rewrite E. f_equal. destruct (Qeq_bool y (inject_Z m)) eqn:B.
  - destruct rb; [done|]. simpl in R. by rewrite R, Z.add_0_r, B.
  - symmetry. apply not_true_is_false. intros T. apply Qeq_bool_iff in T.
    rewrite T in L, U. rewrite <- Zle_Qle in L. rewrite <- Zlt_Qlt in U.
    assert (rne y = m) as Em by lia. rewrite Em in T. apply Qeq_bool_iff in T. congruence.
Qed.

Definition add_flags (f : SfFormat) (x : Q) (st : SfStatus) : SfStatus :=
  mkStatus (inexact st || is_inexact f x || overflows f x)
           (overflow st || overflows f x) (underflow st) (invalid st).

Lemma round_finish_spec sg m rb stk f x st :
  wf_format f -> 0 <= m < 2 ^ prec_of f ->
  quantum f x = qmin f \/ 2 ^ (prec_of f - 1) <= m ->
  cuts (x * pow2 (- quantum f x)) m rb stk ->
  let '(h, l) := split128 m in
  round_finish sg h l (quantum f x) rb stk f st =
    (if is_cls SF_ZERO (ieee_round f sg x) then special false SF_ZERO else ieee_round f sg x,
     add_flags f x st).
Proof.
  intros [Hp He] Hm Hq Hc. pose proof (emax_pos f He) as Hemax.
  pose proof (round_increment_spec (prec_of f) m (quantum f x) rb stk ltac:(lia) ltac:(lia) Hm) as R.
  destruct (split128 m) as [h l]. cbv zeta in R. unfold round_finish. rewrite R. clear R.
  pose proof (cuts_inexact _ _ _ _ Hc) as Hi.
  unfold add_flags, is_inexact, raw_sig. rewrite <- Hi.
  unfold ieee_round, overflows, carried, raw_sig. rewrite (rne_cuts _ _ _ _ Hc).
  set (m' := m + b2z (rb && (stk || Z.odd m))).
  assert (m <= m' <= 2 ^ prec_of f) by (unfold m'; destruct (rb && _); simpl b2z; lia).
  pose proof (pow2_lt (prec_of f) 126 ltac:(lia) ltac:(lia)) as P126.
  pose proof (pow2_lt (prec_of f - 1) (prec_of f) ltac:(lia) ltac:(lia)).
  pose proof (pow2_pos (prec_of f - 1) ltac:(lia)).
  assert (G : forall mm, 0 <= mm < 2 ^ 128 -> forall h1 l1, split128 mm = (h1, l1) ->
    ((h1 =? 0) && (l1 =? 0)) = (mm =? 0)).
  { intros mm Hmm h1 l1 E. apply split128_inv in E as (Hh & Hl & <-); [|done].
    by apply pairval_zero. }
  destruct (m' =? 2 ^ prec_of f);
    [set (mm := 2 ^ (prec_of f - 1)); set (q := quantum f x + 1)
    |set (mm := m'); set (q := quantum f x)];
    cbv beta iota; destruct (split128 mm) as [h1 l1] eqn:E;
    pose proof (G mm ltac:(unfold mm; lia) _ _ E) as E0; simpl snd; rewrite E0;
    destruct (Z.ltb_spec (emax_of f) (q + (prec_of f - 1))), (Z.eqb_spec mm 0) as [Hz|Hz];
    try (unfold mm, q, qmin, emin_of in *; lia);
    destruct st as [fi fo fu fv], rb, stk, fi, fo; reflexivity.
Qed.

(** A value far below the subnormal quantum rounds to zero. *)
Lemma far_below_zero f sg x :
  wf_format f -> (0 < x)%Q -> 128 <= qmin f - (qlen x - prec_of f) ->
  ieee_round f sg x = special sg SF_ZERO /\ is_inexact f x = true /\ overflows f x = false.
Proof.
  intros [Hp He] Hx Hs. pose proof (emax_pos f He).
  destruct (qlen_spec x Hx) as [_ U].
  assert (Hq : quantum f x = qmin f) by (unfold quantum; lia).
  assert (Y : (0 < x * pow2 (- qmin f) < 1 # 2)%Q).
  { pose proof (pow2_gt0 (- qmin f)). split; [nra|].
    apply Qlt_le_trans with (pow2 (qlen x) * pow2 (- qmin f))%Q; [nra|].
    rewrite <- pow2_add. change (1 # 2)%Q with (pow2 (-1)). apply pow2_mono. lia. }
  set (y := (x * pow2 (- qmin f))%Q) in *.
  assert (C : cuts y 0 false true).
  { unfold cuts, exact. simpl b2z. change (inject_Z (2 * 0 + 0)) with 0%Q.
    change (inject_Z (2 * 0 + 0 + 1)) with 1%Q.
    split; [lra|]. symmetry. apply negb_true_iff, not_true_is_false.
    intros T. apply Qeq_bool_iff in T. lra. }
  assert (R : rne y = 0) by (rewrite (rne_cuts _ _ _ _ C); done).
  pose proof (cuts_inexact _ _ _ _ C) as I. rewrite R in I. simpl orb in I.
  unfold ieee_round, is_inexact, overflows, carried, raw_sig. rewrite Hq. fold y. rewrite R.
  pose proof (pow2_pos (prec_of f) ltac:(lia)).
  destruct (Z.eqb_spec 0 (2 ^ prec_of f)); [lia|]. cbn [fst snd].
  destruct (Z.ltb_spec (emax_of f) (qmin f + (prec_of f - 1)));
    [unfold qmin, emin_of in *; lia|].
  rewrite <- I. split_and!; done.
Qed.

Lemma round_pack_rounds sg h l e s f st x y :
  wf_format f -> is_u64 h -> is_u64 l -> 0 < pairval h l ->
  exact y (pairval h l) s -> (s = true -> prec_of f < bitlen (pairval h l)) ->
  (x == y * pow2 e)%Q ->
  round_pack sg h l e s f st = rounded f sg x st.
Proof.
  intros Hf Hh Hl Hv Hy Hs Hx. pose proof Hf as [Hp He].
  assert (Hy0 : (0 < y)%Q).
  { apply exact_range in Hy. rewrite Zlt_Qlt in Hv. change (inject_Z 0) with 0%Q in Hv. lra. }
  assert (Hx0 : (0 < x)%Q) by (rewrite Hx; pose proof (pow2_gt0 e); nra).
  unfold round_pack. rewrite pairval_zero by done.
  destruct (Z.eqb_spec (pairval h l) 0); [lia|]. simpl andb. cbv iota.
  destruct (round_normalize_spec (prec_of f) h l e s x y) as (m & rb & stk & R & Hm & C);
    [lia|lia|done..|]. rewrite R. clear R.
  pose proof (pow2_le (prec_of f) 126 ltac:(lia)).
  destruct (split128 m) as [h1 l1] eqn:E. pose proof E as E'.
  apply split128_inv in E' as (Hh1 & Hl1 & Hv1); [|lia].
  change (emin_of f - (prec_of f - 1)) with (qmin f).
  unfold rounded. set (e1 := qlen x - prec_of f) in *.
  destruct (Z.ltb_spec e1 (qmin f)) as [Ht|Ht].
  - destruct (Z.leb_spec 128 (qmin f - e1)).
    + destruct (far_below_zero f sg x) as (-> & I & O); [done..|]. simpl.
      destruct (Z.ltb_spec (qmin f - e1) 128); [lia|].
      unfold ieee_flags, is_tiny. rewrite I, O. fold e1.
      destruct (Z.ltb_spec e1 (qmin f)); [|lia]. unfold set_inexact, set_underflow. simpl.
      by rewrite !orb_true_r, !orb_false_r.
    + assert (Hq : quantum f x = qmin f) by (unfold quantum; lia).
      apply cuts_exact in C.
      destruct (drop_bits_spec h1 l1 (qmin f - e1) (rb || stk) (x * pow2 (- e1)))
        as (rb2 & st2 & D & C2); [done|done|lia|by rewrite Hv1|].
      assert (S2 : (if rb then true else stk) = rb || stk) by (by destruct rb).
      rewrite S2, D, Hv1. rewrite Hv1 in C2. clear D S2.
      assert (x * pow2 (- e1) * pow2 (- (qmin f - e1)) == x * pow2 (- quantum f x))%Q as Ex.
      { rewrite Hq. rewrite <- Qmult_assoc, <- pow2_add.
        by replace (- e1 + - (qmin f - e1)) with (- qmin f) by lia. }
      rewrite Ex in C2. set (m2 := m / 2 ^ (qmin f - e1)) in *.
      assert (Hm2 : 0 <= m2 < 2 ^ prec_of f).
      { pose proof (pow2_pos (qmin f - e1) ltac:(lia)).
        pose proof (pow2_pos (prec_of f - 1) ltac:(lia)).
        unfold m2. split; [apply Z.div_pos; lia|]. apply Z.div_lt_upper_bound; [lia|nia]. }
      pose proof (round_finish_spec sg m2 rb2 st2 f x (set_underflow st) Hf Hm2
        (or_introl Hq) C2) as F.
      destruct (split128 m2) as [h2 l2]. replace (e1 + (qmin f - e1)) with (quantum f x) by lia.
      rewrite F. destruct (Z.ltb_spec (qmin f - e1) 128); [|lia]. rewrite andb_true_r.
      f_equal. unfold add_flags, ieee_flags, is_tiny. fold e1.
      destruct (Z.ltb_spec e1 (qmin f)); [|lia]. simpl. by rewrite orb_true_r.
  - assert (Hq : quantum f x = e1) by (unfold quantum; lia).
    rewrite <- Hq in C. rewrite <- Hq.
    assert (Hm0 : 0 <= m < 2 ^ prec_of f) by (pose proof (pow2_pos (prec_of f - 1)); lia).
    pose proof (round_finish_spec sg m rb stk f x st Hf Hm0 (or_intror (proj1 Hm)) C) as F.
    rewrite E in F. rewrite F.
    destruct (Z.ltb_spec (qmin f - quantum f x) 128); [|lia]. rewrite andb_true_r.
    f_equal. unfold add_flags, ieee_flags, is_tiny. fold e1.
    destruct (Z.ltb_spec e1 (qmin f)); [lia|]. by rewrite orb_false_r.
Qed.

(** A positive result is never affected by the lost sign. *)
Lemma rounded_positive f x st : rounded f false x st = (ieee_round f false x, ieee_flags f x st).
Proof.
  unfold rounded. f_equal. destruct (is_cls SF_ZERO (ieee_round f false x) && _) eqn:E; [|done].
  apply andb_prop in E as [E _]. unfold is_cls in E. apply bool_decide_eq_true in E.
  unfold ieee_round in *. destruct (carried f x). destruct (overflows f x); [done|].
  destruct (_ =? 0); [done|]. by destruct (split128 _).
Qed.

(** A negative value that rounds to zero and is not 128 bits or more below the
    subnormal quantum: there, and only there, the code departs from IEEE, which
    asks for -0. *)
Definition loses_sign (f : SfFormat) (sg : bool) (x : Q) : bool :=
  sg && is_cls SF_ZERO (ieee_round f sg x) && (qmin f - (qlen x - prec_of f) <? 128).
Lemma rounded_ieee f sg x st :
  rounded f sg x st = (if loses_sign f sg x then special false SF_ZERO else ieee_round f sg x, ieee_flags f x st).
Proof. destruct sg; [|apply rounded_positive]. unfold rounded, loses_sign. by rewrite andb_true_l. Qed.
Lemma ieee_round_zero f sg x : wf_format f -> is_cls SF_ZERO (ieee_round f sg x) = true ->
  ieee_round f sg x = special sg SF_ZERO /\ raw_sig f x = 0.
Proof.
  intros [Hp _]. unfold is_cls, ieee_round, carried. rewrite bool_decide_eq_true. pose proof (pow2_pos (prec_of f - 1) ltac:(lia)).
  destruct (raw_sig f x =? 2 ^ prec_of f); destruct (overflows f x); try done.
  - rewrite (proj2 (Z.eqb_neq _ 0)) by lia. by destruct (split128 _).
  - destruct (Z.eqb_spec (raw_sig f x) 0); [done|]. by destruct (split128 _).
Qed.
(** It has raised the inexact flag. *)
Lemma loses_sign_inexact f sg x st : wf_format f -> (0 < x)%Q -> loses_sign f sg x = true ->
  ieee_round f sg x = special true SF_ZERO /\ inexact (ieee_flags f x st) = true.
Proof.
  unfold loses_sign. intros Hf Hx [[S Z]%andb_prop _]%andb_prop. destruct sg; [|done].
  destruct (ieee_round_zero f true x Hf Z) as [E R]. split; [done|]. unfold ieee_flags, is_inexact. rewrite R. cbn [inexact].
  destruct (Qeq_bool _ _) eqn:Q; [|by rewrite orb_true_r]. apply Qeq_bool_iff in Q. change (inject_Z 0) with 0%Q in Q.
  pose proof (pow2_gt0 (- quantum f x)). nra.
Qed.

(** ** The specification is IEEE's: nearest representable, overflow threshold *)
Definition mag (a : Sf) : Q := inject_Z (pairval (hi a) (lo a)) * pow2 (exp a).
(** The numbers a format can represent. *)
Definition representable (f : SfFormat) (z : Q) : Prop :=
  exists m q, 0 <= m < 2 ^ prec_of f /\ qmin f <= q /\ (z == inject_Z m * pow2 q)%Q.
(** Half an ulp above the largest finite number: [(2^(prec+1) - 1) * 2^(emax-prec)]. *)
Definition overflow_threshold (f : SfFormat) : Q :=
  inject_Z (2 ^ (prec_of f + 1) - 1) * pow2 (emax_of f - prec_of f).

Lemma Qabs_scale x q : (Qabs (x * pow2 q) == Qabs x * pow2 q)%Q.
Proof.
  rewrite Qabs_Qmult. pose proof (pow2_gt0 q). rewrite (Qabs_pos (pow2 q)); [reflexivity|lra].
Qed.

Lemma unscale x q : (x == x * pow2 (- q) * pow2 q)%Q.
Proof. rewrite <- Qmult_assoc, (Qmult_comm (pow2 (- q))), pow2_opp. ring. Qed.

(** Rounding at the quantum beats every multiple of the quantum. *)
Lemma raw_sig_nearest f x n :
  (Qabs (x - inject_Z (raw_sig f x) * pow2 (quantum f x)) <=
   Qabs (x - inject_Z n * pow2 (quantum f x)))%Q.
Proof.
  unfold raw_sig. set (q := quantum f x). set (y := (x * pow2 (- q))%Q).
  assert (G : forall k, (x - inject_Z k * pow2 q == (y - inject_Z k) * pow2 q)%Q).
  { intros k. unfold y. rewrite (unscale x q) at 1. ring. }
  rewrite !G, !Qabs_scale. apply Qmult_le_compat_r; [apply rne_nearest|].
  pose proof (pow2_gt0 q). lra.
Qed.

Lemma representable_multiple f x m q :
  quantum f x <= q -> exists n, (inject_Z m * pow2 q == inject_Z n * pow2 (quantum f x))%Q.
Proof.
  intros Hq. exists (m * 2 ^ (q - quantum f x)).
  rewrite inject_Z_mult, <- pow2_Z by lia.
  rewrite <- Qmult_assoc, <- pow2_add. by replace (q - quantum f x + quantum f x) with q by lia.
Qed.

Lemma raw_sig_best f x z :
  wf_format f -> (0 < x)%Q -> representable f z ->
  (Qabs (x - inject_Z (raw_sig f x) * pow2 (quantum f x)) <= Qabs (x - z))%Q.
Proof.
  intros [Hp _] Hx (m & q & Hm & Hq & ->).
  destruct (Z.le_gt_cases (quantum f x) q) as [L|L].
  - destruct (representable_multiple f x m q L) as [n ->]. apply raw_sig_nearest.
  - eapply Qle_trans; [apply (raw_sig_nearest f x (2 ^ (prec_of f - 1)))|].
    assert (Eq : quantum f x = qlen x - prec_of f) by (unfold quantum in *; lia).
    destruct (qlen_spec x Hx) as [B _].
    rewrite <- pow2_Z, <- pow2_add by lia.
    replace (prec_of f - 1 + quantum f x) with (qlen x - 1) by lia.
    assert (Hz : (inject_Z m * pow2 q <= pow2 (qlen x - 1))%Q).
    { apply Qle_trans with (pow2 (prec_of f) * pow2 q)%Q.
      - apply Qmult_le_compat_r; [rewrite pow2_Z by lia; rewrite <- Zle_Qle; lia|].
        pose proof (pow2_gt0 q). lra.
      - rewrite <- pow2_add. apply pow2_mono. lia. }
    rewrite !Qabs_pos by lra. lra.
Qed.

Lemma carried_value f x :
  wf_format f ->
  (inject_Z (carried f x).1 * pow2 (carried f x).2 ==
   inject_Z (raw_sig f x) * pow2 (quantum f x))%Q.
Proof.
  intros [Hp _]. unfold carried. destruct (Z.eqb_spec (raw_sig f x) (2 ^ prec_of f)) as [->|];
    [|reflexivity]. cbn [fst snd]. rewrite <- !pow2_Z, <- !pow2_add by lia.
  by replace (prec_of f - 1 + (quantum f x + 1)) with (prec_of f + quantum f x) by lia.
Qed.

Lemma raw_sig_range f x : wf_format f -> (0 < x)%Q -> 0 <= raw_sig f x <= 2 ^ prec_of f.
Proof.
  intros [Hp _] Hx. unfold raw_sig.
  destruct (exact_exists (2 * (x * pow2 (- quantum f x)))) as (v & s & H).
  assert (Hv : v = 2 * (v / 2) + b2z (Z.odd v)).
  { rewrite (Z.div_mod v 2) at 1 by lia. rewrite Zmod_odd. by destruct (Z.odd v). }
  rewrite Hv in H. change (cuts (x * pow2 (- quantum f x)) (v / 2) (Z.odd v) s) in H.
  rewrite (rne_cuts _ _ _ _ H). apply cuts_exact in H as [[L U] _].
  destruct (qlen_spec x Hx) as [_ Q2]. pose proof (pow2_gt0 (- quantum f x)).
  assert (Y : (x * pow2 (- quantum f x) < pow2 (prec_of f))%Q).
  { apply Qlt_le_trans with (pow2 (qlen x) * pow2 (- quantum f x))%Q; [nra|].
    rewrite <- pow2_add. apply pow2_mono. unfold quantum. lia. }
  assert (0 < v / 2 + 1) by (rewrite Zlt_Qlt; change (inject_Z 0) with 0%Q; nra).
  assert (v / 2 < 2 ^ prec_of f) by (rewrite Zlt_Qlt, <- pow2_Z by lia; lra).
  destruct (Z.odd v && _); simpl b2z; lia.
Qed.

(** Above the subnormal range the significand fills the precision. *)
Lemma raw_sig_normal f x :
  wf_format f -> (0 < x)%Q -> quantum f x = qlen x - prec_of f ->
  2 ^ (prec_of f - 1) <= raw_sig f x.
Proof.
  intros [Hp _] Hx Eq. unfold raw_sig.
  destruct (exact_exists (2 * (x * pow2 (- quantum f x)))) as (v & s & H).
  assert (Hv : v = 2 * (v / 2) + b2z (Z.odd v)).
  { rewrite (Z.div_mod v 2) at 1 by lia. rewrite Zmod_odd. by destruct (Z.odd v). }
  rewrite Hv in H. change (cuts (x * pow2 (- quantum f x)) (v / 2) (Z.odd v) s) in H.
  rewrite (rne_cuts _ _ _ _ H). apply cuts_exact in H as [[L U] _].
  destruct (qlen_spec x Hx) as [Q1 _]. pose proof (pow2_gt0 (- quantum f x)).
  assert (Y : (pow2 (prec_of f - 1) <= x * pow2 (- quantum f x))%Q).
  { replace (prec_of f - 1) with (qlen x - 1 + - quantum f x) by lia. rewrite pow2_add.
    apply Qmult_le_compat_r; [done|lra]. }
  assert (2 ^ (prec_of f - 1) < v / 2 + 1) by (rewrite Zlt_Qlt, <- pow2_Z by lia; lra).
  destruct (Z.odd v && _); simpl b2z; lia.
Qed.

(** Rounding reaches an even [k] exactly from [k - 1/2]. *)
Lemma rne_reaches y k : Z.even k = true -> k <= rne y <-> (inject_Z (2 * k - 1) <= 2 * y)%Q.
Proof.
  intros Hk. destruct (exact_exists (2 * y)) as (v & s & H).
  assert (Hv : v = 2 * (v / 2) + b2z (Z.odd v)).
  { rewrite (Z.div_mod v 2) at 1 by lia. rewrite Zmod_odd. by destruct (Z.odd v). }
  pose proof H as [[L U] _]. set (m := v / 2) in *. set (rb := Z.odd v) in *. clearbody rb m.
  subst v. change (cuts y m rb s) in H. rewrite (rne_cuts _ _ _ _ H).
  assert (Ho : m = k - 1 -> Z.odd m = true).
  { intros ->. rewrite Z.odd_sub, <- Z.negb_even, Hk. done. }
  split.
  - intros Hr. eapply Qle_trans; [|exact L]. rewrite <- Zle_Qle.
    destruct rb; simpl in *; [destruct (s || Z.odd m); simpl in *|]; lia.
  - intros Hr. assert (2 * k - 1 < 2 * m + b2z rb + 1) by (rewrite Zlt_Qlt; lra).
    destruct (Z.le_gt_cases k m); [destruct (rb && _); simpl; lia|].
    destruct rb; simpl in *; [|lia]. rewrite Ho by lia. rewrite orb_true_r. simpl. lia.
Qed.

Lemma threshold_bounds f :
  wf_format f ->
  (pow2 (emax_of f) < overflow_threshold f < pow2 (emax_of f + 1))%Q.
Proof.
  intros [Hp _]. unfold overflow_threshold.
  set (d := emax_of f - prec_of f). pose proof (pow2_gt0 d).
  replace (emax_of f) with (prec_of f + d) by lia.
  replace (prec_of f + d + 1) with (prec_of f + 1 + d) by lia.
  rewrite !(pow2_add _ d), (pow2_Z (prec_of f)), (pow2_Z (prec_of f + 1)) by lia.
  assert (2 ^ prec_of f < 2 ^ (prec_of f + 1) - 1 < 2 ^ (prec_of f + 1)) as [A B].
  { rewrite Z.pow_add_r by lia. pose proof (pow2_lt 0 (prec_of f) ltac:(lia) ltac:(lia)). lia. }
  rewrite Zlt_Qlt in A, B. split; by apply Qmult_lt_compat_r.
Qed.

Lemma overflows_iff f x :
  wf_format f -> (0 < x)%Q -> overflows f x = true <-> (overflow_threshold f <= x)%Q.
Proof.
  intros Hf Hx. pose proof Hf as [Hp He]. pose proof (threshold_bounds f Hf) as [T1 T2].
  pose proof (emax_pos f He). destruct (qlen_spec x Hx) as [B1 B2].
  unfold overflows. rewrite Z.ltb_lt.
  assert (Hqm : qmin f <= emax_of f - prec_of f) by (unfold qmin, emin_of; lia).
  destruct (Z.lt_trichotomy (quantum f x) (emax_of f - prec_of f + 1)) as [L|[E|L]].
  - split; intros C.
    + exfalso. unfold carried in C. destruct (_ =? _); simpl in C; lia.
    + exfalso. assert ((x < pow2 (emax_of f))%Q); [|lra].
      eapply Qlt_le_trans; [exact B2|]. apply pow2_mono. unfold quantum in L. lia.
  - assert (R : emax_of f < (carried f x).2 + (prec_of f - 1) <->
                2 ^ prec_of f <= raw_sig f x).
    { pose proof (raw_sig_range f x Hf Hx). unfold carried.
      destruct (Z.eqb_spec (raw_sig f x) (2 ^ prec_of f)); simpl; lia. }
    rewrite R. unfold raw_sig. rewrite rne_reaches.
    2:{ replace (prec_of f) with (1 + (prec_of f - 1)) by lia.
        rewrite Z.pow_add_r by lia. by rewrite Z.even_mul. }
    unfold overflow_threshold. set (q := quantum f x) in *.
    replace (emax_of f - prec_of f) with (- (1) + q) by lia.
    rewrite pow2_add. change (pow2 (- (1))) with (1 # 2)%Q.
    replace (2 ^ (prec_of f + 1)) with (2 * 2 ^ prec_of f)
      by (rewrite Z.pow_add_r by lia; lia).
    set (K := inject_Z (2 * 2 ^ prec_of f - 1)). pose proof (pow2_gt0 q).
    assert (Ex : (x == x * pow2 (- q) * pow2 q)%Q) by apply unscale.
    set (y := (x * pow2 (- q))%Q) in *. split; intros C.
    + rewrite Ex. nra.
    + rewrite Ex in C. assert (0 <= (2 * y - K) * pow2 q)%Q as D by lra.
      destruct (Qlt_le_dec (2 * y) K); [nra|done].
  - split; intros C.
    + assert (quantum f x = qlen x - prec_of f) by (unfold quantum in *; lia).
      apply Qle_trans with (pow2 (emax_of f + 1)); [lra|].
      eapply Qle_trans; [|exact B1]. apply pow2_mono. lia.
    + unfold carried. destruct (_ =? _); simpl; lia.
Qed.

(** The whole specification at once: infinite exactly from the overflow
    threshold on, and otherwise the nearest representable number. *)
Lemma ieee_round_spec f sg x :
  wf_format f -> (0 < x)%Q ->
  let r := ieee_round f sg x in
  sign r = sg /\
  (cls r = SF_INF <-> (overflow_threshold f <= x)%Q) /\
  ((x < overflow_threshold f)%Q ->
   (cls r = SF_NORMAL \/ cls r = SF_ZERO) /\ representable f (mag r) /\
   forall z, representable f z -> (Qabs (x - mag r) <= Qabs (x - z))%Q).
Proof.
  intros Hf Hx. pose proof Hf as [Hp He]. pose proof (overflows_iff f x Hf Hx) as O.
  pose proof (raw_sig_best f x) as Best. pose proof (carried_value f x Hf) as CV.
  pose proof (raw_sig_range f x Hf Hx) as R.
  assert (CR : 0 <= (carried f x).1 < 2 ^ prec_of f /\ qmin f <= (carried f x).2).
  { unfold carried, quantum. pose proof (pow2_lt (prec_of f - 1) (prec_of f)).
    pose proof (pow2_pos (prec_of f - 1)).
    destruct (Z.eqb_spec (raw_sig f x) (2 ^ prec_of f)); simpl; lia. }
  unfold ieee_round. destruct (carried f x) as [m q]. cbn [fst snd] in *.
  assert (M : forall r, (mag r == inject_Z m * pow2 q)%Q ->
    representable f (mag r) /\
    forall z, representable f z -> (Qabs (x - mag r) <= Qabs (x - z))%Q).
  { intros r E. split; [exists m, q; tauto|]. intros z Hz. rewrite E, CV. by apply Best. }
  destruct (overflows f x) eqn:Ov.
  { split; [done|]. split; [by rewrite <- O|]. pose proof (proj1 O eq_refl). intros. lra. }
  assert (N : ~ (overflow_threshold f <= x)%Q) by (rewrite <- O; done).
  destruct (Z.eqb_spec m 0) as [->|Hm].
  - split; [done|]. split; [split; [done|tauto]|]. intros _. split; [by right|].
    apply M. unfold mag. simpl. change (inject_Z (pairval 0 0)) with 0%Q.
    change (inject_Z 0) with 0%Q. ring.
  - pose proof (pow2_le (prec_of f) 126 ltac:(lia)).
    destruct (split128 m) as [h l] eqn:E.
    apply split128_inv in E as (Hh & Hl & Hv); [|lia].
    split; [done|]. split; [split; [done|tauto]|]. intros _. split; [by left|].
    apply M. unfold mag. simpl. rewrite Hv. reflexivity.
Qed.

(** On a tie the significand returned is even. *)
Lemma raw_sig_tie f x n :
  (Qabs (x - inject_Z n * pow2 (quantum f x)) ==
   Qabs (x - inject_Z (raw_sig f x) * pow2 (quantum f x)))%Q ->
  n = raw_sig f x \/ Z.even (raw_sig f x) = true.
Proof.
  unfold raw_sig. set (q := quantum f x). set (y := (x * pow2 (- q))%Q).
  assert (G : forall k, (x - inject_Z k * pow2 q == (y - inject_Z k) * pow2 q)%Q).
  { intros k. unfold y. rewrite (unscale x q) at 1. ring. }
  rewrite !G, !Qabs_scale. intros E. apply Qmult_inj_r in E; [|apply pow2_neq0].
  destruct (Z.eq_dec n (rne y)) as [|Hne]; [by left|]. right. apply rne_tie.
  destruct (exact_exists y) as (v & s & [[L U] _]).
  pose proof (rne_nearest y v) as N1. pose proof (rne_nearest y (v + 1)) as N2.
  rewrite inject_Z_plus in U, N2. change (inject_Z 1) with 1%Q in *.
  set (r := rne y) in *. rewrite (Qabs_pos (y - inject_Z v)) in N1 by lra.
  rewrite (Qabs_neg (y - (inject_Z v + 1))) in N2 by lra.
  assert (D : (inject_Z n + 1 <= inject_Z r \/ inject_Z r + 1 <= inject_Z n)%Q).
  { change 1%Q with (inject_Z 1). rewrite <- !inject_Z_plus, <- !Zle_Qle. lia. }
  clear Hne G. revert E N1 N2.
  apply (Qabs_case (y - inject_Z n)); intros A E N1 N2;
    revert E N1 N2; apply (Qabs_case (y - inject_Z r)); intros B E N1 N2;
    destruct D; lra.
Qed.

Lemma tie_even f sg x z :
  wf_format f -> (0 < x)%Q -> (x < overflow_threshold f)%Q -> representable f z ->
  let r := ieee_round f sg x in
  (Qabs (x - z) == Qabs (x - mag r))%Q -> (z == mag r)%Q \/ Z.even (pairval (hi r) (lo r)) = true.
Proof.
  intros Hf Hx Hov Hz r E. pose proof Hf as [Hp He].
  pose proof (carried_value f x Hf) as CV. pose proof (raw_sig_range f x Hf Hx) as R.
  pose proof (pow2_le (prec_of f) 126 ltac:(lia)) as P.
  pose proof (pow2_lt (prec_of f - 1) (prec_of f) ltac:(lia) ltac:(lia)) as P1.
  assert (M : (mag r == inject_Z (raw_sig f x) * pow2 (quantum f x))%Q /\
    (Z.even (raw_sig f x) = true -> Z.even (pairval (hi r) (lo r)) = true)).
  { assert (Eo : overflows f x = false).
    { apply not_true_is_false. rewrite overflows_iff by done. lra. }
    unfold r, ieee_round. rewrite Eo. destruct (carried f x) as [m q] eqn:C.
    cbn [fst snd] in CV. unfold carried in C.
    destruct (Z.eqb_spec m 0) as [->|Hm].
    - split; [|done]. rewrite <- CV. unfold mag. simpl.
      change (inject_Z (pairval 0 0)) with 0%Q. change (inject_Z 0) with 0%Q. ring.
    - assert (Hb : 0 <= m < 2 ^ 126).
      { destruct (Z.eqb_spec (raw_sig f x) (2 ^ prec_of f)); injection C as <- <-;
          pose proof (pow2_pos (prec_of f - 1)); lia. }
      destruct (split128 m) as [h l] eqn:S. apply split128_inv in S as (_ & _ & S); [|lia].
      unfold mag. cbn [hi lo exp]. rewrite S, CV. split; [reflexivity|].
      destruct (Z.eqb_spec (raw_sig f x) (2 ^ prec_of f)); injection C as <- <-; [|done].
      intros _. replace (prec_of f - 1) with (1 + (prec_of f - 2)) by lia.
      rewrite Z.pow_add_r by lia. by rewrite Z.even_mul. }
  destruct M as [M Ev]. destruct Hz as (m & q & Hm & Hq & Ez).
  assert (T : exists n, (z == inject_Z n * pow2 (quantum f x))%Q).
  { destruct (Z.le_gt_cases (quantum f x) q) as [L|L].
    - destruct (representable_multiple f x m q L) as [n En]. exists n. by rewrite Ez.
    - pose proof (raw_sig_nearest f x (2 ^ (prec_of f - 1))) as N.
      rewrite <- M, <- E in N. destruct (qlen_spec x Hx) as [B _].
      assert (Eq : quantum f x = qlen x - prec_of f) by (unfold quantum in *; lia).
      assert (V : (inject_Z (2 ^ (prec_of f - 1)) * pow2 (quantum f x) == pow2 (qlen x - 1))%Q).
      { rewrite <- pow2_Z, <- pow2_add by lia.
        by replace (prec_of f - 1 + quantum f x) with (qlen x - 1) by lia. }
      exists (2 ^ (prec_of f - 1)). rewrite V in N |- *.
      assert (Hzb : (z <= pow2 (qlen x - 1))%Q).
      { rewrite Ez. apply Qle_trans with (pow2 (prec_of f) * pow2 q)%Q.
        - apply Qmult_le_compat_r; [rewrite pow2_Z by lia; rewrite <- Zle_Qle; lia|].
          pose proof (pow2_gt0 q). lra.
        - rewrite <- pow2_add. apply pow2_mono. lia. }
      rewrite !Qabs_pos in N by lra. lra. }
  destruct T as [n En]. rewrite En, M in E. apply raw_sig_tie in E as [->|E'].
  - left. by rewrite En, M.
  - right. by apply Ev.
Qed.

(** ** Properties of the code *)

(** C10. [round_pack] is correctly rounded: for the exact nonzero magnitude
    [x], of which [(h, l)] at [e] holds the leading bits and [sticky] the
    rest, the result is infinite exactly from the IEEE overflow threshold on,
    and below it is the nearest representable number, with an even
    significand on a tie; a nonzero result keeps the sign, and the status
    collects inexact, overflow and (for any value below the normal range)
    underflow. *)
Theorem round_pack_correct sg h l e sticky f st (x : Q) :
  wf_format f -> is_u64 h -> is_u64 l -> 0 < pairval h l ->
  exact (x * pow2 (- e)) (pairval h l) sticky ->
  (sticky = true -> prec_of f < bitlen (pairval h l)) ->
  let '(r, st') := round_pack sg h l e sticky f st in
  st' = ieee_flags f x st /\
  (cls r = SF_INF <-> (overflow_threshold f <= x)%Q) /\
  (cls r <> SF_ZERO -> sign r = sg) /\
  ((x < overflow_threshold f)%Q ->
   (cls r = SF_NORMAL \/ cls r = SF_ZERO) /\ representable f (mag r) /\
   forall z, representable f z ->
     (Qabs (x - mag r) <= Qabs (x - z))%Q /\
     ((Qabs (x - z) == Qabs (x - mag r))%Q ->
      (z == mag r)%Q \/ Z.even (pairval (hi r) (lo r)) = true)).
Proof.
  intros Hf Hh Hl Hv Hx Hs.
  rewrite (round_pack_rounds sg h l e sticky f st x (x * pow2 (- e))) by (done || apply unscale).
  assert (Hx0 : (0 < x)%Q).
  { apply exact_range in Hx as [L _]. rewrite Zlt_Qlt in Hv. change (inject_Z 0) with 0%Q in Hv.
    pose proof (pow2_gt0 (- e)). destruct (Qlt_le_dec 0 x); [done|]. nra. }
  pose proof (ieee_round_spec f sg x Hf Hx0) as (S1 & S2 & S3).
  pose proof (fun z => tie_even f sg x z Hf Hx0) as T. cbv zeta in S1, S2, S3, T.
  unfold rounded. set (r := ieee_round f sg x) in *. cbv zeta.
  split; [done|]. destruct (is_cls SF_ZERO r && _) eqn:E.
  - apply andb_prop in E as [Ez _]. unfold is_cls in Ez. apply bool_decide_eq_true in Ez.
    assert (Zr : exists s, r = special s SF_ZERO).
    { unfold r, ieee_round in *. destruct (carried f x). destruct (overflows f x); [done|].
      destruct (_ =? 0); [by eexists|]. by destruct (split128 _). }
    destruct Zr as [s Zr]. rewrite Zr in *. split; [exact S2|]. split; [done|].
    intros Hlt. destruct (S3 Hlt) as (K & Rp & B). split; [done|]. split; [exact Rp|].
    intros z Hz. split; [by apply B|]. exact (T z Hlt Hz).
  - split; [exact S2|]. split; [done|]. intros Hlt. destruct (S3 Hlt) as (K & Rp & B).
    split; [done|]. split; [exact Rp|]. intros z Hz. split; [by apply B|]. exact (T z Hlt Hz).
Qed.

Lemma round_pack_witness :
  let x := (inject_Z (2 ^ 60 + 1) * pow2 3)%Q in
  let r := (round_pack true 0 (2 ^ 60 + 1) 3 false SF_BINARY32 no_status).1 in
  cls r = SF_NORMAL /\ sign r = true /\
  ((x < overflow_threshold SF_BINARY32)%Q -> representable SF_BINARY32 (mag r)).
Proof.
  intros x r.
  assert (E : exact (x * pow2 (- 3)) (pairval 0 (2 ^ 60 + 1)) false).
  { unfold x. rewrite <- Qmult_assoc, pow2_opp, Qmult_1_r. apply exact_of_Z. }
  pose proof (round_pack_correct true 0 (2 ^ 60 + 1) 3 false SF_BINARY32 no_status x
    wf_binary32 ltac:(word_lia) ltac:(word_lia) ltac:(word_lia) E ltac:(done)) as H.
  assert (C : cls r = SF_NORMAL) by reflexivity. unfold r in *. clear r.
  destruct (round_pack _ _ _ _ _ _ _) as [r st']. cbn [fst] in *.
  destruct H as (_ & _ & S & N). split; [done|]. split; [by apply S; rewrite C|].
  intros L. exact (proj1 (proj2 (N L))).
Defined.
