(* ===== verification/SoftfpArith.v ===== *)
(** [src/util/softfp.c]: addition, subtraction, multiplication and division
    return the correctly rounded exact result, on every class of operand. *)
From Stdlib Require Import QArith Qpower Qround Qabs Lqa.
From S2P Require Import Prelude.
From S2P Require Import Softfp.
From S2P Require Import SoftfpRound.
#[local] Open Scope Z_scope.

(** A finite nonzero operand: two words holding a nonzero significand. *)
Definition wf_num (a : Sf) : Prop :=
  cls a = SF_NORMAL -> is_u64 (hi a) /\ is_u64 (lo a) /\ 0 < pairval (hi a) (lo a).
Definition sig_of (a : Sf) : Z := pairval (hi a) (lo a).

(** ** The 256-bit product *)
Section product.
  #[local] Notation "'B'" := (2 ^ 32).

Fixpoint wsum (ws : list Z) : Z :=
    match ws with [] => 0 | x :: ws => x + B * wsum ws end.

Lemma wsum_insert ws i x :
    (i < length ws)%nat -> wsum (<[i := x]> ws) = wsum ws + (x - ws !!! i) * B ^ Z.of_nat i.
  Proof.
    revert i. induction ws as [|y ws IH]; intros i Hi; simpl in Hi; [lia|].
    destruct i as [|i]; simpl; [lia|]. rewrite IH by lia.
    replace (B ^ Z.of_nat (S i)) with (B * B ^ Z.of_nat i)
      by (rewrite Nat2Z.inj_succ, Z.pow_succ_r by lia; lia). simpl. lia.
  Qed.

Definition limb_ok (x : Z) : Prop := 0 <= x < B.
Definition acc_ok (acc : list Z) : Prop :=
    length acc = 8%nat /\ forall i, limb_ok (acc !!! i).

Lemma acc_ok_insert acc i x : acc_ok acc -> limb_ok x -> acc_ok (<[i := x]> acc).
  Proof.
    intros [Hl Ha] Hx. split; [by rewrite length_insert|]. intros j.
    destruct (decide (i = j)) as [->|Hne].
    - destruct (decide (j < length acc)%nat).
      + by rewrite list_lookup_total_insert_eq.
      + rewrite list_insert_ge by lia. apply Ha.
    - rewrite list_lookup_total_insert_ne by done. apply Ha.
  Qed.

  (** The inner loop adds [xi * y * B^i]. *)
Lemma mul_inner_loop xi y i acc :
    (i < 4)%nat -> limb_ok xi -> (forall j, limb_ok (y !!! j)) -> acc_ok acc ->
    let '(acc', carry) := for_up 4 0 (mul_inner xi y i) (acc, 0) in
    acc_ok acc' /\ limb_ok carry /\
    (forall k, (i + 4 <= k)%nat -> acc' !!! k = acc !!! k) /\
    wsum acc' + carry * B ^ Z.of_nat (i + 4) =
      wsum acc + xi * (y !!! 0%nat + B * (y !!! 1%nat) + B ^ 2 * (y !!! 2%nat) + B ^ 3 * (y !!! 3%nat))
        * B ^ Z.of_nat i.
  Proof.
    intros Hi Hx Hy Ha.
    set (part := fun j => match j with
      | 0%nat => 0 | 1%nat => y !!! 0%nat | 2%nat => y !!! 0%nat + B * (y !!! 1%nat)
      | 3%nat => y !!! 0%nat + B * (y !!! 1%nat) + B ^ 2 * (y !!! 2%nat)
      | _ => y !!! 0%nat + B * (y !!! 1%nat) + B ^ 2 * (y !!! 2%nat) + B ^ 3 * (y !!! 3%nat)
      end).
    pose proof (for_up_inv (fun j '(acc', carry) =>
      acc_ok acc' /\ limb_ok carry /\ (forall k, (i + 4 <= k)%nat -> acc' !!! k = acc !!! k) /\
      wsum acc' + carry * B ^ Z.of_nat (i + j) = wsum acc + xi * part j * B ^ Z.of_nat i)
      (mul_inner xi y i) 4 0 (acc, 0)) as W.
    cbv beta iota in W. destruct (for_up 4 0 _ _) as [acc' carry]. apply W; clear W.
    - split_and!; [done|unfold limb_ok; lia|done|simpl; lia].
    - intros j [ws c] Hj (Hok & Hc & Hk & Hs). unfold mul_inner.
      pose proof (Hy j) as Hyj. pose proof (proj2 Hok (i + j)%nat) as Ho.
      unfold limb_ok in *.
      set (xy := xi * (y !!! j)). assert (0 <= xy <= (B - 1) * (B - 1)) by (unfold xy; nia).
      assert (Ec : (ws !!! (i + j)%nat) +64 u64 xy +64 c = (ws !!! (i + j)%nat) + xy + c).
      { rewrite (u64_small xy) by (unfold is_u64; lia).
        rewrite (u64_small ((ws !!! (i + j)%nat) + xy)) by (unfold is_u64; lia).
        apply u64_small. unfold is_u64. lia. }
      rewrite Ec. set (cur := (ws !!! (i + j)%nat) + xy + c).
      change 0xffffffff with (2 ^ 32 - 1). rewrite land_ones_mod, shiftr_div by lia.
      assert (Hcur : 0 <= cur < B * B) by (unfold cur; lia).
      split_and!.
      + apply acc_ok_insert; [done|]. apply Z.mod_pos_bound. lia.
      + apply Z.div_pos; lia.
      + apply Z.div_lt_upper_bound; lia.
      + intros k Hk'. rewrite list_lookup_total_insert_ne by lia. by apply Hk.
      + rewrite wsum_insert by (rewrite (proj1 Hok); lia).
        replace (Z.of_nat (i + S j)) with (1 + Z.of_nat (i + j)) by lia.
        rewrite (Z.pow_add_r B 1) by lia. rewrite Z.pow_1_r.
        set (P := B ^ Z.of_nat (i + j)) in *.
        pose proof (Z.div_mod cur B ltac:(lia)) as Ed.
        replace (wsum ws + (cur mod B - ws !!! (i + j)%nat) * P + cur / B * (B * P))
          with (wsum ws + (B * (cur / B) + cur mod B - ws !!! (i + j)%nat) * P) by ring.
        rewrite <- Ed. unfold cur.
        assert (EP : P = B ^ Z.of_nat i * B ^ Z.of_nat j)
          by (unfold P; rewrite <- Z.pow_add_r by lia; f_equal; lia).
        transitivity (wsum ws + c * P + xy * P); [ring|]. rewrite Hs, EP. unfold xy.
        assert (Hp : part (S j) = part j + B ^ Z.of_nat j * (y !!! j)).
        { destruct j as [|[|[|[|j]]]]; simpl part; simpl Z.of_nat; [..|lia]; lia. }
        rewrite Hp. ring.
  Qed.
End product.

Section product_value.
  #[local] Notation "'B'" := (2 ^ 32).

Lemma limbs32_spec h l :
    is_u64 h -> is_u64 l ->
    let y := limbs32 h l in
    (forall j, (j < 4)%nat -> limb_ok (y !!! j)) /\
    y !!! 0%nat + B * (y !!! 1%nat) + B ^ 2 * (y !!! 2%nat) + B ^ 3 * (y !!! 3%nat) = pairval h l.
  Proof.
    intros Hh Hl y. unfold y, limbs32, limb_ok, u32, pairval, is_u64 in *.
    rewrite !shiftr_div by lia. split.
    - intros j Hj. destruct j as [|[|[|[|j]]]]; simpl; try lia; apply Z.mod_pos_bound; lia.
    - simpl. Z.div_mod_to_equations. lia.
  Qed.

  (** One row of the schoolbook product; rows above [i] are still empty. *)
Lemma mul_row_spec x y i acc v :
    (i < 4)%nat -> limb_ok (x !!! i) -> (forall j, limb_ok (y !!! j)) -> acc_ok acc ->
    y !!! 0%nat + B * (y !!! 1%nat) + B ^ 2 * (y !!! 2%nat) + B ^ 3 * (y !!! 3%nat) = v ->
    (forall k, (i + 4 <= k < 8)%nat -> acc !!! k = 0) ->
    acc_ok (mul_row x y i acc) /\
    (forall k, (S i + 4 <= k < 8)%nat -> mul_row x y i acc !!! k = 0) /\
    wsum (mul_row x y i acc) = wsum acc + (x !!! i) * v * B ^ Z.of_nat i.
  Proof.
    intros Hi Hx Hy Ha Hv Hz. unfold mul_row.
    pose proof (mul_inner_loop (x !!! i) y i acc Hi Hx Hy Ha) as W. rewrite Hv in W.
    destruct (for_up 4 0 _ _) as [acc' carry]. destruct W as (Hok & Hc & Hk & Hs).
    rewrite (Hk (i + 4)%nat), (Hz (i + 4)%nat), Z.add_0_l by lia.
    unfold limb_ok in *. rewrite u64_small by (unfold is_u64; lia). split_and!.
    - by apply acc_ok_insert.
    - intros k Hk'. rewrite list_lookup_total_insert_ne by lia. rewrite Hk by lia. apply Hz. lia.
    - rewrite wsum_insert by (rewrite (proj1 Hok); lia).
      rewrite (Hk (i + 4)%nat), (Hz (i + 4)%nat), Z.sub_0_r by lia. exact Hs.
  Qed.

Lemma join32 a b : limb_ok a -> limb_ok b -> Z.lor a (b <<64 32) = a + B * b.
  Proof.
    unfold limb_ok. intros. rewrite Z.lor_comm, u64_small.
    - rewrite lor_shiftl_add by lia. lia.
    - rewrite Z.shiftl_mul_pow2 by lia. word_lia.
  Qed.

Definition val256 (p : list Z) : Z :=
    p !!! 0%nat + 2 ^ 64 * (p !!! 1%nat) + 2 ^ 128 * (p !!! 2%nat) + 2 ^ 192 * (p !!! 3%nat).
Definition ok256 (p : list Z) : Prop := length p = 4%nat /\ forall i, (i < 4)%nat -> is_u64 (p !!! i).

Lemma mul_256_spec ah al bh bl :
    is_u64 ah -> is_u64 al -> is_u64 bh -> is_u64 bl ->
    ok256 (mul_256 ah al bh bl) /\
    val256 (mul_256 ah al bh bl) = pairval ah al * pairval bh bl.
  Proof.
    intros Hah Hal Hbh Hbl. unfold mul_256.
    destruct (limbs32_spec ah al Hah Hal) as [Xok Xv].
    destruct (limbs32_spec bh bl Hbh Hbl) as [Yok Yv].
    set (x := limbs32 ah al) in *. set (y := limbs32 bh bl) in *.
    set (part := fun i => match i with
      | 0%nat => 0 | 1%nat => x !!! 0%nat | 2%nat => x !!! 0%nat + B * (x !!! 1%nat)
      | 3%nat => x !!! 0%nat + B * (x !!! 1%nat) + B ^ 2 * (x !!! 2%nat)
      | _ => pairval ah al end).
    pose proof (for_up_inv (fun i acc => acc_ok acc /\
        (forall k, (i + 4 <= k < 8)%nat -> acc !!! k = 0) /\
        wsum acc = part i * pairval bh bl) (mul_row x y) 4 0 (replicate 8 0)) as W.
    cbv beta in W. destruct W as (Hok & _ & Hs).
    - split_and!; [split; [done|]| |done].
      + intros i. do 9 (destruct i as [|i]; [split; vm_compute; congruence|]).
        split; vm_compute; congruence.
      + intros k Hk. do 8 (destruct k as [|k]; [done|]). lia.
    - intros i acc Hi (Hok & Hz & Hs).
      destruct (mul_row_spec x y i acc (pairval bh bl)) as (A1 & A2 & A3); try done.
      + lia.
      + apply Xok. lia.
      + intros j. destruct (decide (j < 4)%nat); [by apply Yok|].
        unfold y, limbs32. do 4 (destruct j as [|j]; [lia|]). split; vm_compute; congruence.
      + split_and!; [done|done|]. rewrite A3, Hs.
        destruct i as [|[|[|[|i]]]]; [..|lia]; unfold part; rewrite <- ?Xv; simpl Z.of_nat; lia.
    - set (acc := for_up 4 0 (mul_row x y) (replicate 8 0)) in *.
      destruct Hok as [Hl Hlimb].
      rewrite !join32 by done. simpl part in Hs. rewrite <- Hs.
      destruct acc as [|a0 [|a1 [|a2 [|a3 [|a4 [|a5 [|a6 [|a7 [|]]]]]]]]]; try done.
      split.
      + split; [done|]. intros i Hi. destruct i as [|[|[|[|i]]]]; [..|lia]; simpl.
        all: [> pose proof (Hlimb 0%nat) as E1; pose proof (Hlimb 1%nat) as E2
              | pose proof (Hlimb 2%nat) as E1; pose proof (Hlimb 3%nat) as E2
              | pose proof (Hlimb 4%nat) as E1; pose proof (Hlimb 5%nat) as E2
              | pose proof (Hlimb 6%nat) as E1; pose proof (Hlimb 7%nat) as E2];
          simpl in E1, E2; unfold limb_ok, is_u64 in *; lia.
      + unfold val256. simpl. lia.
  Qed.
End product_value.

(** ** The 256-bit shift that keeps the top 128 bits *)
Lemma bitlen_join a b k : 0 < a -> 0 <= k -> 0 <= b < 2 ^ k -> bitlen (a * 2 ^ k + b) = bitlen a + k.
Proof.
  intros Ha Hk Hb. pose proof (bitlen_spec a Ha). pose proof (bitlen_pos a Ha).
  apply bitlen_unique; [lia|]. replace (bitlen a + k - 1) with (bitlen a - 1 + k) by lia.
  rewrite !Z.pow_add_r by lia. pose proof (pow2_pos k Hk). nia.
Qed.

Lemma ok256_split p :
  ok256 p -> exists p0 p1 p2 p3, p = [p0; p1; p2; p3] /\ is_u64 p0 /\ is_u64 p1 /\ is_u64 p2 /\ is_u64 p3.
Proof.
  intros [Hl Hp]. destruct p as [|p0 [|p1 [|p2 [|p3 [|]]]]]; try done.
  exists p0, p1, p2, p3. split; [done|].
  split_and!; [apply (Hp 0%nat)|apply (Hp 1%nat)|apply (Hp 2%nat)|apply (Hp 3%nat)]; lia.
Qed.

Lemma ok256_intro p0 p1 p2 p3 :
  is_u64 p0 -> is_u64 p1 -> is_u64 p2 -> is_u64 p3 -> ok256 [p0; p1; p2; p3].
Proof.
  intros. split; [done|]. intros i Hi. destruct i as [|[|[|[|i]]]]; [done..|lia].
Qed.

Lemma bitlen_256_spec p : ok256 p -> bitlen_256 p = bitlen (val256 p).
Proof.
  intros H. destruct (ok256_split p H) as (p0 & p1 & p2 & p3 & -> & H0 & H1 & H2 & H3).
  unfold bitlen_256, bitlen_words, val256. cbn [lookup_total list_lookup_total].
  change ([p0; p1; p2; p3] !!! 0%nat) with p0. change ([p0; p1; p2; p3] !!! 1%nat) with p1.
  change ([p0; p1; p2; p3] !!! 2%nat) with p2. change ([p0; p1; p2; p3] !!! 3%nat) with p3.
  rewrite !bitlen_loop_spec by done. cbn [snd].
  pose proof (bitlen_join p3 (p0 + 2 ^ 64 * p1 + 2 ^ 128 * p2) 192).
  pose proof (bitlen_join p2 (p0 + 2 ^ 64 * p1) 128).
  pose proof (bitlen_join p1 p0 64). unfold is_u64 in *.
  destruct (Z.eqb_spec p3 0) as [->|]; cbn [negb].
  2:{ replace (p0 + _ + _ + _) with (p3 * 2 ^ 192 + (p0 + 2 ^ 64 * p1 + 2 ^ 128 * p2)) by lia. lia. }
  destruct (Z.eqb_spec p2 0) as [->|]; cbn [negb].
  2:{ replace (p0 + _ + _ + _) with (p2 * 2 ^ 128 + (p0 + 2 ^ 64 * p1)) by lia. lia. }
  destruct (Z.eqb_spec p1 0) as [->|]; cbn [negb].
  2:{ replace (p0 + _ + _ + _) with (p1 * 2 ^ 64 + p0) by lia. lia. }
  destruct (Z.eqb_spec p0 0) as [->|]; cbn [negb]; [done|].
  replace (p0 + _ + _ + _) with p0 by lia. lia.
Qed.

(** A word is its low [b] bits and the carry the next word receives. *)
Lemma shr_word_step lo hi b :
  0 < b < 64 -> is_u64 lo -> is_u64 hi ->
  is_u64 ((lo >>64 b) |64 (hi <<64 (64 - b))) /\
  (lo >>64 b) |64 (hi <<64 (64 - b)) = lo / 2 ^ b + (hi mod 2 ^ b) * 2 ^ (64 - b).
Proof.
  intros Hb Hl Hh.
  assert (E : (lo >>64 b) |64 (hi <<64 (64 - b)) = lo / 2 ^ b + (hi mod 2 ^ b) * 2 ^ (64 - b)).
  { pose proof (shr64_range lo b ltac:(lia) Hl).
    rewrite Z.lor_comm, (lor_add_disjoint _ _ (64 - b)); [|lia|done|apply shl64_divisible; lia].
    rewrite shiftr_div by lia. unfold u64. rewrite Z.shiftl_mul_pow2 by lia.
    rewrite (pow2_sub 64 (64 - b)) by lia. replace (64 - (64 - b)) with b by lia.
    pose proof (pow2_pos b). pose proof (pow2_pos (64 - b)).
    rewrite Z.mul_mod_distr_r by lia. lia. }
  split; [|exact E]. apply lor_u64; [apply shr64_u64; [lia|done]|apply u64_range].
Qed.

Lemma shr_256_spec p d :
  ok256 p -> 0 <= d < 256 -> ok256 (shr_256 p d) /\ val256 (shr_256 p d) = val256 p / 2 ^ d.
Proof.
  intros H Hd. unfold shr_256.
  pose proof (Z.quot_rem' d 64) as Eq. pose proof (Z.rem_bound_pos d 64 ltac:(lia) ltac:(lia)) as Hb.
  set (b := Z.rem d 64) in *.
  assert (Hw : exists w, Z.to_nat (Z.quot d 64) = w /\ (w < 4)%nat /\ d = 64 * Z.of_nat w + b).
  { exists (Z.to_nat (Z.quot d 64)). lia. }
  destruct Hw as (w & -> & Hw & Ed). clear Eq.
  destruct (ok256_split p H) as (p0 & p1 & p2 & p3 & -> & H0 & H1 & H2 & H3).
  set (q := if negb (w =? 0)%nat then _ else _).
  assert (Q : ok256 q /\ val256 q = val256 [p0; p1; p2; p3] / 2 ^ (64 * Z.of_nat w)).
  { assert (Z0 : is_u64 0) by (unfold is_u64; lia).
    unfold q. destruct w as [|[|[|[|w]]]]; [..|lia]; cbn -[Z.mul Z.pow val256];
      (split; [by apply ok256_intro|]); unfold val256, is_u64 in *; simpl;
      Z.div_mod_to_equations; lia. }
  clearbody q. destruct Q as [Q1 Q2].
  assert (Hv : val256 [p0; p1; p2; p3] / 2 ^ d = val256 q / 2 ^ b).
  { rewrite Q2, Ed, Z.pow_add_r by lia. rewrite Z.div_div; [done|apply Z.pow_nonzero; lia|].
    apply pow2_pos. lia. }
  rewrite Hv. clear Hv Q2. destruct (ok256_split q Q1) as (q0 & q1 & q2 & q3 & -> & G0 & G1 & G2 & G3).
  destruct (Z.eqb_spec b 0) as [Eb|Eb]; cbn [negb].
  { rewrite Eb, Z.pow_0_r, Z.div_1_r. done. }
  cbn -[Z.lor Z.shiftr Z.shiftl u64 Z.pow val256 ok256].
  destruct (shr_word_step q0 q1 b ltac:(lia) G0 G1) as [A0 B0].
  destruct (shr_word_step q1 q2 b ltac:(lia) G1 G2) as [A1 B1].
  destruct (shr_word_step q2 q3 b ltac:(lia) G2 G3) as [A2 B2].
  split; [apply ok256_intro; [done..|]; apply shr64_u64; [lia|done]|].
  unfold val256. cbn -[Z.lor Z.shiftr Z.shiftl u64 Z.pow Z.add Z.mul].
  rewrite B0, B1, B2, shiftr_div by lia.
  pose proof (pow2_pos b ltac:(lia)) as Hp.
  pose proof (pow2_sub 64 b ltac:(lia)) as E64. set (P := 2 ^ b) in *. set (R := 2 ^ (64 - b)) in *.
  pose proof (Z.div_mod q0 P ltac:(lia)). pose proof (Z.div_mod q1 P ltac:(lia)).
  pose proof (Z.div_mod q2 P ltac:(lia)). pose proof (Z.div_mod q3 P ltac:(lia)).
  pose proof (Z.mod_pos_bound q0 P Hp).
  apply Z.div_unique with (q0 mod P); [lia|].
  change (2 ^ 128) with (2 ^ 64 * 2 ^ 64). change (2 ^ 192) with (2 ^ 64 * 2 ^ 64 * 2 ^ 64).
  rewrite !E64. nia.
Qed.

Lemma low_bits_set_256_spec p d :
  ok256 p -> 0 <= d < 256 -> low_bits_set_256 p d = negb (val256 p mod 2 ^ d =? 0).
Proof.
  intros H Hd. unfold low_bits_set_256.
  pose proof (Z.quot_rem' d 64) as Eq. pose proof (Z.rem_bound_pos d 64 ltac:(lia) ltac:(lia)) as Hb.
  set (b := Z.rem d 64) in *.
  assert (Hw : exists w, Z.to_nat (Z.quot d 64) = w /\ (w < 4)%nat /\ d = 64 * Z.of_nat w + b).
  { exists (Z.to_nat (Z.quot d 64)). lia. }
  destruct Hw as (w & -> & Hw & Ed). clear Eq.
  destruct (ok256_split p H) as (p0 & p1 & p2 & p3 & -> & H0 & H1 & H2 & H3).
  assert (Em : (1 <<64 b) -64 1 = 2 ^ b - 1).
  { rewrite Z.shiftl_1_l. pose proof (pow2_pos b ltac:(lia)). pose proof (pow2_lt b 64 ltac:(lia) ltac:(lia)).
    rewrite (u64_small (2 ^ b)) by (unfold is_u64; lia). apply u64_small. unfold is_u64. lia. }
  rewrite Em, land_ones_mod by lia.
  set (x := [p0; p1; p2; p3] !!! w) in *.
  set (r := val256 [p0; p1; p2; p3] mod 2 ^ (64 * Z.of_nat w)).
  assert (Hr : for_up (Nat.min w 4) 0 (fun i found => found || negb ([p0; p1; p2; p3] !!! i =? 0)) false
               = negb (r =? 0) /\
               (val256 [p0; p1; p2; p3] / 2 ^ (64 * Z.of_nat w)) mod 2 ^ 64 = x).
  { unfold r, x. unfold is_u64 in *. destruct w as [|[|[|[|w]]]]; [..|lia];
      cbn -[Z.mul Z.pow val256 Z.modulo Z.div Z.of_nat]; unfold val256; simpl Z.of_nat; simpl lookup_total;
      (split; [|Z.div_mod_to_equations; lia]).
    - by rewrite Z.mod_1_r.
    - replace ((_ + _ + _ + _) mod _) with p0 by (Z.div_mod_to_equations; lia). done.
    - replace ((_ + _ + _ + _) mod _) with (p0 + 2 ^ 64 * p1) by (Z.div_mod_to_equations; lia). lia.
    - replace ((_ + _ + _ + _) mod _) with (p0 + 2 ^ 64 * p1 + 2 ^ 128 * p2)
        by (Z.div_mod_to_equations; lia). lia. }
  destruct Hr as [-> Hx].
  rewrite Ed, sticky_split by lia. fold r. destruct (negb (r =? 0)); [done|]. cbn [orb].
  destruct (Nat.ltb_spec w 4); [|lia]. rewrite andb_true_r.
  assert (Hm : (val256 [p0; p1; p2; p3] / 2 ^ (64 * Z.of_nat w)) mod 2 ^ b = x mod 2 ^ b).
  { rewrite <- Hx. symmetry. apply Z.mod_mod_divide. exists (2 ^ (64 - b)). apply pow2_sub. lia. }
  rewrite Hm. destruct (Z.eqb_spec b 0) as [->|]; [by rewrite Z.mod_1_r|done].
Qed.

(** ** Multiplication *)

(** The exact product of two significands, as [round_pack] receives it. *)
Lemma exact_of_shift v d : 0 <= d -> exact (inject_Z v * pow2 (- d)) (v / 2 ^ d) (negb (v mod 2 ^ d =? 0)).
Proof. intros. apply (exact_drop (inject_Z v) v false d); [done|apply exact_of_Z]. Qed.

(** What the code returns: the product rounded by [round_pack], with the sign it
    loses. [ieee_mul] is what it should be. *)
Definition rounded_mul (f : SfFormat) (a b : Sf) (st : SfStatus) : Sf * SfStatus :=
  let sg := xorb (sign a) (sign b) in
  match cls a, cls b with
  | SF_NAN, _ | _, SF_NAN => (special false SF_NAN, st)
  | SF_INF, SF_ZERO | SF_ZERO, SF_INF => (special false SF_NAN, set_invalid st)
  | SF_INF, _ | _, SF_INF => (special sg SF_INF, st)
  | SF_ZERO, _ | _, SF_ZERO => (special sg SF_ZERO, st)
  | SF_NORMAL, SF_NORMAL => rounded f sg (mag a * mag b) st
  end.

Lemma sf_mul_rounds a b f st :
  wf_format f -> wf_num a -> wf_num b -> sf_mul a b f st = rounded_mul f a b st.
Proof.
  intros Hf Ha Hb. unfold sf_mul, rounded_mul, is_cls, make_nan.
  destruct (cls a) eqn:Ca, (cls b) eqn:Cb; try reflexivity.
  destruct (Ha Ca) as (Hah & Hal & Hav). destruct (Hb Cb) as (Hbh & Hbl & Hbv).
  cbn -[mul_256 bitlen_256 low_bits_set_256 shr_256 round_pack xorb].
  destruct (mul_256_spec (hi a) (lo a) (hi b) (lo b)) as [Pok Pv]; [done..|].
  set (p := mul_256 _ _ _ _) in *. rewrite bitlen_256_spec by done.
  pose proof (pairval_range _ _ Hah Hal). pose proof (pairval_range _ _ Hbh Hbl).
  set (V := val256 p) in *. assert (HV : 0 < V < 2 ^ 256) by (rewrite Pv; nia).
  pose proof (bitlen_spec V ltac:(lia)) as [L1 L2].
  pose proof (bitlen_le V 256 ltac:(lia) ltac:(lia)).
  pose proof Hf as [Hp He].
  assert (G : forall q d s, ok256 q -> val256 q = V / 2 ^ d -> 0 <= d -> 0 < V / 2 ^ d < 2 ^ 128 ->
    s = negb (V mod 2 ^ d =? 0) -> (s = true -> prec_of f < bitlen (V / 2 ^ d)) ->
    round_pack (xorb (sign a) (sign b)) (q !!! 1%nat) (q !!! 0%nat) (exp a + exp b + d) s f st =
    rounded f (xorb (sign a) (sign b)) (mag a * mag b) st).
  { intros q d s Qok Qv Hd Hr -> Hs.
    destruct (ok256_split q Qok) as (q0 & q1 & q2 & q3 & -> & Q0 & Q1 & Q2 & Q3).
    assert (Ev : pairval q1 q0 = V / 2 ^ d).
    { rewrite <- Qv in Hr |- *. clear - Hr Q0 Q1 Q2 Q3. unfold val256, pairval, is_u64 in *.
      simpl lookup_total in *. lia. }
    simpl lookup_total. apply round_pack_rounds with (inject_Z V * pow2 (- d))%Q; try done.
    - rewrite Ev. lia.
    - rewrite Ev. by apply exact_of_shift.
    - by rewrite Ev.
    - rewrite Pv, inject_Z_mult. unfold mag. rewrite !pow2_add.
      transitivity (inject_Z (pairval (hi a) (lo a)) * inject_Z (pairval (hi b) (lo b)) *
        (pow2 (exp a) * pow2 (exp b)) * (pow2 d * pow2 (- d)))%Q; [rewrite pow2_opp|]; ring. }
  destruct (Z.ltb_spec 128 (bitlen V)) as [Hlen|Hlen].
  - set (d := bitlen V - 128). destruct (shr_256_spec p d Pok) as [S1 S2]; [lia|].
    pose proof (pow2_pos d ltac:(lia)) as Hd.
    assert (Hr : 2 ^ 127 <= V / 2 ^ d < 2 ^ 128).
    { split; [apply Z.div_le_lower_bound|apply Z.div_lt_upper_bound]; try lia;
        rewrite <- Z.pow_add_r by lia;
        [by replace (d + 127) with (bitlen V - 1) by lia|by replace (d + 128) with (bitlen V) by lia]. }
    apply G; [done|done|lia|lia|apply low_bits_set_256_spec; [done|lia]|].
    intros _. rewrite (bitlen_unique _ 128); lia.
  - replace (exp a + exp b) with (exp a + exp b + 0) by lia.
    apply G; rewrite ?Z.pow_0_r, ?Z.div_1_r, ?Z.mod_1_r; try done.
    split; [lia|]. by apply bitlen_lt_pow; lia.
Qed.

(** ** Division *)

(** An operand of one of the formats: at most 113 significand bits. *)
Definition wf_opnd (a : Sf) : Prop :=
  cls a = SF_NORMAL -> is_u64 (hi a) /\ is_u64 (lo a) /\ 0 < pairval (hi a) (lo a) < 2 ^ 113.

Lemma exact_quotient n d : 0 < d -> exact (inject_Z n / inject_Z d) (n / d) (negb (n mod d =? 0)).
Proof.
  intros Hd. destruct d as [|d|d]; try lia.
  assert (E : (inject_Z n / inject_Z (Z.pos d) == n # d)%Q).
  { unfold Qdiv, Qinv, inject_Z, Qeq, Qmult. simpl. lia. }
  rewrite E. by apply exact_iff.
Qed.

Lemma div_normalize_spec h l :
  is_u64 h -> is_u64 l -> 0 < pairval h l < 2 ^ 113 ->
  let k := 120 - bitlen (pairval h l) in
  0 < k /\ div_normalize h l k = split128 (pairval h l * 2 ^ k) /\
  2 ^ 119 <= pairval h l * 2 ^ k < 2 ^ 120.
Proof.
  intros Hh Hl Hv k. pose proof (bitlen_spec _ (proj1 Hv)) as [B1 B2].
  pose proof (bitlen_le (pairval h l) 113 ltac:(lia) ltac:(lia)). pose proof (bitlen_pos _ (proj1 Hv)).
  set (v := pairval h l) in *. assert (Hk : 0 < k) by (unfold k; lia).
  assert (R : 2 ^ 119 <= v * 2 ^ k < 2 ^ 120).
  { replace (2 ^ 119) with (2 ^ (bitlen v - 1) * 2 ^ k)
      by (rewrite <- Z.pow_add_r by lia; f_equal; lia).
    replace (2 ^ 120) with (2 ^ bitlen v * 2 ^ k)
      by (rewrite <- Z.pow_add_r by lia; f_equal; lia).
    pose proof (pow2_pos k ltac:(lia)). nia. }
  split; [done|]. split; [|done]. unfold div_normalize.
  destruct (Z.ltb_spec 0 k); [|lia]. rewrite u128_shl_spec by (done || lia).
  fold v. rewrite u128_small by lia. done.
Qed.

(** Before iteration [i] the partial quotient has [i] bits; the remainder is
    doubled after every iteration but the last. *)
Definition div_state (n d qbits i : Z) (st : Z * Z * Z * Z) : Prop :=
  let '(qh, ql, rh, rl) := st in
  is_u64 qh /\ is_u64 ql /\ is_u64 rh /\ is_u64 rl /\
  0 <= pairval qh ql < 2 ^ i /\
  if i <? qbits then n * 2 ^ i = 2 * pairval qh ql * d + pairval rh rl /\ 0 <= pairval rh rl < 2 * d
  else n * 2 ^ (i - 1) = pairval qh ql * d + pairval rh rl /\ 0 <= pairval rh rl < d.

Lemma div_step_state n dh dl qbits i st :
  is_u64 dh -> is_u64 dl -> 0 < pairval dh dl < 2 ^ 120 -> qbits <= 127 ->
  Z.of_nat i < qbits ->
  div_state n (pairval dh dl) qbits (Z.of_nat i) st ->
  div_state n (pairval dh dl) qbits (Z.of_nat (S i)) (div_step qbits dh dl i st).
Proof.
  intros Hdh Hdl Hd Hq Hi. destruct st as [[[qh ql] rh] rl].
  intros (Hqh & Hql & Hrh & Hrl & Hqv & Hinv). unfold div_step.
  destruct (Z.ltb_spec (Z.of_nat i) qbits); [|lia]. destruct Hinv as [Hinv Hr].
  destruct (shl1_pair qh ql Hqh Hql) as (Qh & Qv & Qe).
  pose proof (pow2_le (Z.of_nat (S i)) 127 ltac:(lia)) as P127.
  replace (Z.of_nat (S i)) with (Z.of_nat i + 1) in * by lia.
  rewrite Z.pow_add_r in P127 by lia. rewrite u128_small in Qv by lia.
  set (d := pairval dh dl) in *. set (q := pairval qh ql) in *. set (r := pairval rh rl) in *.
  set (qh' := (qh <<64 1) |64 (ql >>64 63)) in *. set (ql' := ql <<64 1) in *.
  pose proof (u64_range (Z.shiftl ql 1)) as Hql'. fold ql' in Hql'.
  rewrite u128_cmp_spec by done. fold d r.
  assert (T : exists bit r1 rh1 rl1 ql1,
    (if 0 <=? cmp3 (r ?= d)
     then let '(rh, rl) := u128_sub rh rl dh dl in (rh, rl, ql' |64 1)
     else (rh, rl, ql')) = (rh1, rl1, ql1) /\
    is_u64 rh1 /\ is_u64 rl1 /\ is_u64 ql1 /\ pairval rh1 rl1 = r1 /\
    pairval qh' ql1 = 2 * q + bit /\ 0 <= bit <= 1 /\ r1 = r - bit * d /\ 0 <= r1 < d).
  { destruct (Z.compare_spec r d) as [E|E|E]; simpl cmp3; simpl Z.leb; cbv iota.
    2:{ exists 0, r, rh, rl, ql'. split_and!; try done; try lia. }
    all: rewrite u128_sub_spec by done; fold d r; rewrite u128_small by lia;
      destruct (split128 (r - d)) as [rh1 rl1] eqn:S;
      apply split128_inv in S as (S1 & S2 & S3); [|lia];
      exists 1, (r - d), rh1, rl1, (ql' |64 1);
      rewrite lor_1_even by done;
      assert (is_u64 (ql' + 1)) by
        (unfold is_u64 in *; assert (ql' <> 2 ^ 64 - 1) by (intros Eq'; by rewrite Eq' in Qe); lia);
      split_and!; try done; unfold pairval in *; lia. }
  destruct T as (bit & r1 & rh1 & rl1 & ql1 & -> & H1 & H2 & H3 & E1 & E2 & Hb & Er & Hr1).
  assert (Eq : n * 2 ^ Z.of_nat i = (2 * q + bit) * d + r1) by (rewrite Hinv, Er; ring).
  unfold div_state. rewrite (Z.pow_add_r 2 (Z.of_nat i) 1) by lia.
  destruct (Z.ltb_spec (Z.of_nat i + 1) qbits).
  - rewrite u128_shl_spec by (done || lia). rewrite E1, u128_small by lia.
    destruct (split128 (r1 * 2 ^ 1)) as [rh2 rl2] eqn:S.
    apply split128_inv in S as (S1 & S2 & S3); [|lia]. rewrite S3, E2.
    split_and!; try done; try lia.
  - replace (Z.of_nat i + 1 - 1) with (Z.of_nat i) by lia. rewrite E1, E2.
    split_and!; try done; try lia.
Qed.

Lemma div_loop_spec n dh dl qbits nh nl :
  is_u64 dh -> is_u64 dl -> is_u64 nh -> is_u64 nl -> pairval nh nl = n ->
  0 < pairval dh dl < 2 ^ 120 -> 0 <= n < 2 * pairval dh dl -> 0 < qbits <= 127 ->
  exists qh ql rh rl,
    for_up (Z.to_nat qbits) 0 (div_step qbits dh dl) (0, 0, nh, nl) = (qh, ql, rh, rl) /\
    is_u64 qh /\ is_u64 ql /\
    pairval qh ql = n * 2 ^ (qbits - 1) / pairval dh dl /\
    negb (rh |64 rl =? 0) = negb (n * 2 ^ (qbits - 1) mod pairval dh dl =? 0).
Proof.
  intros Hdh Hdl Hnh Hnl En Hd Hn Hq.
  pose proof (for_up_inv (fun i => div_state n (pairval dh dl) qbits (Z.of_nat i))
    (div_step qbits dh dl) (Z.to_nat qbits) 0 (0, 0, nh, nl)) as W. cbv beta in W.
  replace (Z.of_nat (0 + Z.to_nat qbits)) with qbits in W by lia.
  destruct (for_up _ _ _ _) as [[[qh ql] rh] rl]. exists qh, ql, rh, rl. split; [done|].
  destruct W as (Hqh & Hql & Hrh & Hrl & _ & Hinv).
  - assert (Z0 : is_u64 0) by (unfold is_u64; lia).
    unfold div_state. destruct (Z.ltb_spec (Z.of_nat 0) qbits); [|lia].
    change (pairval 0 0) with 0. rewrite En. split_and!; try done; try lia.
  - intros i st Hi. apply div_step_state; (done || lia).
  - destruct (Z.ltb_spec qbits qbits); [lia|]. destruct Hinv as [Hinv Hr].
    split; [done|]. split; [done|]. set (d := pairval dh dl) in *.
    split; [apply Z.div_unique with (pairval rh rl); lia|].
    replace (_ mod d) with (pairval rh rl)
      by (apply Z.mod_unique with (pairval qh ql); lia).
    f_equal. destruct (Z.eqb_spec (rh |64 rl) 0) as [E|E].
    + apply Z.lor_eq_0_iff in E as [-> ->]. done.
    + symmetry. apply Z.eqb_neq. intros E'. apply E, Z.lor_eq_0_iff. word_lia.
Qed.

(** What the code returns: the quotient rounded by [round_pack], with the sign it
    loses and [invalid] for an infinity over zero. [ieee_div] is what it should
    be. *)
Definition rounded_div (f : SfFormat) (a b : Sf) (st : SfStatus) : Sf * SfStatus :=
  let sg := xorb (sign a) (sign b) in
  match cls a, cls b with
  | SF_NAN, _ | _, SF_NAN => (special false SF_NAN, st)
  | SF_INF, SF_INF | SF_ZERO, SF_ZERO => (special false SF_NAN, set_invalid st)
  | _, SF_ZERO => (special sg SF_INF, set_invalid st)
  | SF_ZERO, _ | _, SF_INF => (special sg SF_ZERO, st)
  | SF_INF, _ => (special sg SF_INF, st)
  | SF_NORMAL, SF_NORMAL => rounded f sg (mag a / mag b) st
  end.

Lemma sf_div_rounds a b f st :
  wf_format f -> wf_opnd a -> wf_opnd b -> sf_div a b f st = rounded_div f a b st.
Proof.
  intros Hf Ha Hb. unfold sf_div, rounded_div, is_cls, make_nan.
  destruct (cls a) eqn:Ca, (cls b) eqn:Cb; try reflexivity.
  destruct (Ha Ca) as (Hah & Hal & Hav). destruct (Hb Cb) as (Hbh & Hbl & Hbv).
  cbn -[div_normalize u128_bitlen for_up round_pack xorb prec_of Z.to_nat].
  rewrite !u128_bitlen_spec by done. pose proof Hf as [Hp He].
  destruct (div_normalize_spec (hi a) (lo a)) as (Ka & -> & Ra); [done..|].
  destruct (div_normalize_spec (hi b) (lo b)) as (Kb & -> & Rb); [done..|].
  set (ka := 120 - bitlen (pairval (hi a) (lo a))) in *.
  set (kb := 120 - bitlen (pairval (hi b) (lo b))) in *.
  set (na := pairval (hi a) (lo a) * 2 ^ ka) in *.
  set (nb := pairval (hi b) (lo b) * 2 ^ kb) in *.
  destruct (split128 na) as [rh rl] eqn:Sa. apply split128_inv in Sa as (A1 & A2 & A3); [|lia].
  destruct (split128 nb) as [dh dl] eqn:Sb. apply split128_inv in Sb as (B1 & B2 & B3); [|lia].
  set (qbits := prec_of f + 2).
  destruct (div_loop_spec na dh dl qbits rh rl) as (qh & ql & rh' & rl' & -> & Q1 & Q2 & Q3 & Q4);
    [done..| | |unfold qbits; lia|]; [lia..|].
  rewrite Q4, B3 in *.
  assert (Hq : 2 ^ (qbits - 2) <= na * 2 ^ (qbits - 1) / nb).
  { apply Z.div_le_lower_bound; [lia|]. replace (qbits - 1) with (1 + (qbits - 2)) by lia.
    rewrite Z.pow_add_r by lia. pose proof (pow2_pos (qbits - 2)). nia. }
  pose proof (pow2_pos (qbits - 2) ltac:(lia)) as Hp2.
  apply round_pack_rounds with (inject_Z (na * 2 ^ (qbits - 1)) / inject_Z nb)%Q; try done.
  - lia.
  - rewrite Q3. apply exact_quotient. lia.
  - intros _. rewrite Q3. set (q := na * 2 ^ (qbits - 1) / nb) in *.
    pose proof (bitlen_spec q ltac:(lia)) as [_ L].
    destruct (Z.lt_ge_cases (prec_of f) (bitlen q)); [done|].
    pose proof (pow2_le (bitlen q) (qbits - 2) ltac:(unfold qbits; lia)). lia.
  - unfold mag, na, nb. rewrite !inject_Z_mult, <- !pow2_Z by lia.
    set (va := inject_Z (pairval (hi a) (lo a))). set (vb := inject_Z (pairval (hi b) (lo b))).
    assert (Vb : ~ (vb == 0)%Q).
    { unfold vb. intros E.
      assert (pairval (hi b) (lo b) = 0) by (apply inject_Z_injective; exact E). lia. }
    replace (exp a - ka - (exp b - kb) - (qbits - 1))
      with (exp a + - ka + (- exp b + kb) + - (qbits - 1)) by lia.
    rewrite !pow2_add.
    pose proof (pow2_opp ka) as Oa. pose proof (pow2_opp (qbits - 1)) as Oq.
    pose proof (pow2_opp (exp b)) as Ob.
    pose proof (pow2_neq0 kb). pose proof (pow2_neq0 (exp b)).
    assert (Ib : (pow2 (- exp b) == / pow2 (exp b))%Q).
    { unfold pow2. apply Qpower_opp. }
    rewrite Ib.
    transitivity (va / vb * (pow2 (exp a) / pow2 (exp b)) *
      (pow2 ka * pow2 (- ka)) * (pow2 (qbits - 1) * pow2 (- (qbits - 1))))%Q.
    + rewrite Oa, Oq. field. done.
    + field. done.
Qed.

(** ** Addition *)
Definition value (a : Sf) : Q := if sign a then - mag a else mag a.

(** The rounding of a signed exact result. *)
Definition round_signed (f : SfFormat) (x : Q) (st : SfStatus) : Sf * SfStatus :=
  if Qeq_bool x 0 then (special false SF_ZERO, st)
  else rounded f (negb (Qle_bool 0 x)) (Qabs x) st.

#[export] Instance round_signed_proper f : Proper (Qeq ==> eq ==> eq) (round_signed f).
Proof.
  intros x y E st ? <-. unfold round_signed. rewrite E. destruct (Qeq_bool y 0); [done|].
  destruct (Qle_bool 0 x) eqn:A, (Qle_bool 0 y) eqn:B; simpl.
  - by rewrite E.
  - apply Qle_bool_iff in A. rewrite E in A. apply Qle_bool_iff in A. congruence.
  - apply Qle_bool_iff in B. rewrite <- E in B. apply Qle_bool_iff in B. congruence.
  - by rewrite E.
Qed.

Lemma round_signed_pos f (s : bool) m st :
  (0 < m)%Q -> round_signed f (if s then - m else m)%Q st = rounded f s m st.
Proof.
  intros Hm. unfold round_signed. destruct s.
  - destruct (Qeq_bool (- m) 0) eqn:E; [apply Qeq_bool_iff in E; lra|].
    destruct (Qle_bool 0 (- m)) eqn:L; [apply Qle_bool_iff in L; lra|].
    assert (Qabs (- m) == m)%Q as -> by (rewrite Qabs_neg by lra; ring). done.
  - destruct (Qeq_bool m 0) eqn:E; [apply Qeq_bool_iff in E; lra|].
    assert (Qle_bool 0 m = true) as -> by (apply Qle_bool_iff; lra).
    assert (Qabs m == m)%Q as -> by (rewrite Qabs_pos by lra; ring). done.
Qed.

Lemma exact_add_Z k y v s : exact y v s -> exact (inject_Z k + y) (k + v) s.
Proof.
  intros [[L U] ->]. split.
  - rewrite inject_Z_plus in U. rewrite !inject_Z_plus. lra.
  - f_equal. rewrite inject_Z_plus.
    destruct (Qeq_bool y (inject_Z v)) eqn:E; symmetry.
    + apply Qeq_bool_iff in E. apply Qeq_bool_iff. rewrite E. reflexivity.
    + apply not_true_is_false. intros T. apply Qeq_bool_iff in T.
      assert (E' : (y == inject_Z v)%Q) by lra. apply Qeq_bool_iff in E'. congruence.
Qed.

(** Subtracting a truncated value borrows one when bits were dropped. *)
Lemma exact_sub_Z k y v s : exact y v s -> exact (inject_Z k - y) (k - v - b2z s) s.
Proof.
  intros [[L U] E]. unfold exact, Z.sub. rewrite inject_Z_plus in U.
  rewrite !inject_Z_plus, !inject_Z_opp.
  destruct (Qeq_bool y (inject_Z v)) eqn:B; rewrite E; simpl negb; simpl b2z.
  - apply Qeq_bool_iff in B. change (inject_Z 0) with 0%Q. change (inject_Z 1) with 1%Q.
    split; [lra|]. symmetry. apply negb_false_iff, Qeq_bool_iff. lra.
  - assert (N : ~ (y == inject_Z v)%Q) by (intros T; apply Qeq_bool_iff in T; congruence).
    change (inject_Z 1) with 1%Q in *. split; [split; [lra|]|].
    + destruct (Qlt_le_dec (inject_Z v) y); [lra|]. exfalso. apply N. lra.
    + symmetry. apply negb_true_iff, not_true_is_false. intros T. apply Qeq_bool_iff in T. lra.
Qed.

(** The operands in units of the aligned exponent: [A] exactly, and [b] as
    the truncation [Bv] with its sticky bit, which is only set when [A] fills
    126 bits. *)
Lemma align_spec a b :
  is_u64 (hi a) -> is_u64 (lo a) -> 0 < pairval (hi a) (lo a) < 2 ^ 113 ->
  is_u64 (hi b) -> is_u64 (lo b) -> 0 < pairval (hi b) (lo b) < 2 ^ 113 -> exp b <= exp a ->
  let diff := exp a - exp b in
  let head := 126 - bitlen (pairval (hi a) (lo a)) in
  let up := if head <? diff then head else diff in
  exists A Bv yb s,
    0 < head /\
    u128_shl (hi a) (lo a) up = split128 A /\ 0 < A < 2 ^ 126 /\
    u128_shr_sticky (hi b) (lo b) (diff - up) = (split128 Bv, s) /\ 0 <= Bv < 2 ^ 113 /\
    exact yb Bv s /\ (0 < yb)%Q /\ (s = true -> 2 ^ 125 <= A) /\
    (mag a == inject_Z A * pow2 (exp a - up))%Q /\ (mag b == yb * pow2 (exp a - up))%Q.
Proof.
  intros Hah Hal Hav Hbh Hbl Hbv He diff head up.
  set (va := pairval (hi a) (lo a)) in *. set (vb := pairval (hi b) (lo b)) in *.
  pose proof (bitlen_le va 113 ltac:(lia) ltac:(lia)).
  pose proof (bitlen_spec va ltac:(lia)) as [B1 B2]. pose proof (bitlen_pos va ltac:(lia)).
  assert (Hup : 0 <= up <= head /\ up <= diff) by (unfold up; destruct (Z.ltb_spec head diff); lia).
  set (A := va * 2 ^ up). set (d := diff - up).
  pose proof (pow2_pos up ltac:(lia)). pose proof (pow2_pos d ltac:(lia)) as Hd.
  assert (HA : 0 < A < 2 ^ 126).
  { unfold A. split; [nia|]. apply Z.lt_le_trans with (2 ^ bitlen va * 2 ^ up); [nia|].
    rewrite <- Z.pow_add_r by lia. apply pow2_le. lia. }
  exists A, (vb / 2 ^ d), (inject_Z vb * pow2 (- d))%Q, (negb (vb mod 2 ^ d =? 0)).
  split; [lia|]. split.
  { rewrite u128_shl_spec by (done || lia). fold va. by rewrite u128_small by (fold A; lia). }
  split; [done|]. split; [by rewrite u128_shr_sticky_spec by (done || lia)|].
  split; [split; [apply Z.div_pos; lia|apply Z.div_lt_upper_bound; [lia|nia]]|].
  split; [apply exact_of_shift; lia|]. split.
  { assert (0 < inject_Z vb)%Q by (change 0%Q with (inject_Z 0); rewrite <- Zlt_Qlt; lia).
    pose proof (pow2_gt0 (- d)). nra. }
  split.
  { intros Hs. assert (up = head) as Eu.
    { unfold up in *. destruct (Z.ltb_spec head diff); [done|].
      replace d with 0 in Hs by lia. by rewrite Z.mod_1_r in Hs. }
    unfold A. rewrite Eu. replace (2 ^ 125) with (2 ^ (bitlen va - 1) * 2 ^ head).
    - rewrite Eu in *. nia.
    - rewrite <- Z.pow_add_r by lia. f_equal. lia. }
  split.
  - unfold mag, A. fold va. rewrite inject_Z_mult, <- pow2_Z by lia.
    rewrite <- Qmult_assoc, <- pow2_add. by replace (up + (exp a - up)) with (exp a) by lia.
  - unfold mag. fold vb. rewrite <- Qmult_assoc, <- pow2_add.
    by replace (- d + (exp a - up)) with (exp b) by (unfold d, diff; lia).
Qed.

(** Packing an aligned nonzero sum or difference. *)
Lemma pack_aligned sg V y s e f st h l :
  wf_format f -> split128 V = (h, l) -> 0 < V < 2 ^ 128 -> exact y V s ->
  (s = true -> 2 ^ 124 <= V) -> (0 < y)%Q ->
  round_pack sg h l e s f st = rounded f sg (y * pow2 e) st.
Proof.
  intros Hf E HV Hy Hs Hy0. apply split128_inv in E as (Hh & Hl & Hv); [|lia].
  apply round_pack_rounds with y; try done; rewrite Hv; [lia|done|].
  intros S. specialize (Hs S). pose proof Hf as [Hp _].
  destruct (Z.lt_ge_cases (prec_of f) (bitlen V)); [done|].
  pose proof (bitlen_spec V ltac:(lia)). pose proof (pow2_le (bitlen V) 124 ltac:(lia)). lia.
Qed.

Section aligned.
  Context (f : SfFormat) (st : SfStatus) (sg s : bool) (A Bv e h l bh bl : Z) (yb : Q).
  Context (Hf : wf_format f) (Hh : is_u64 h) (Hl : is_u64 l) (EA : pairval h l = A)
    (Hbh : is_u64 bh) (Hbl : is_u64 bl) (EB : pairval bh bl = Bv)
    (HA : 0 < A < 2 ^ 126) (HB : 0 <= Bv < 2 ^ 113) (Yb : exact yb Bv s) (Hyb : (0 < yb)%Q)
    (Hs : s = true -> 2 ^ 125 <= A).

Lemma aligned_pos : (0 < inject_Z A)%Q.
  Proof using HA. change 0%Q with (inject_Z 0). rewrite <- Zlt_Qlt. lia. Qed.

Lemma exact_pos_gt V y t : exact y V t -> 0 < V -> (0 < y)%Q.
  Proof using.
    intros Y HV. apply exact_range in Y as [Y _]. assert (1 <= V) as P by lia.
    rewrite Zle_Qle in P. change (inject_Z 1) with 1%Q in P. lra.
  Qed.

Lemma add_magnitudes :
    (let '(h, l) := u128_add h l bh bl in round_pack sg h l e s f st) =
    rounded f sg ((inject_Z A + yb) * pow2 e) st.
  Proof.
    pose proof aligned_pos. rewrite u128_add_spec, EA, EB, u128_small by (done || lia).
    destruct (split128 (A + Bv)) as [h1 l1] eqn:E.
    apply (pack_aligned sg (A + Bv)); [done|done|lia|by apply exact_add_Z| |lra].
    intros S. specialize (Hs S). lia.
  Qed.

Lemma sub_smaller :
    A < Bv ->
    (let '(h, l) := u128_sub bh bl h l in round_pack sg h l e s f st) =
    rounded f sg ((yb - inject_Z A) * pow2 e) st.
  Proof.
    intros E. assert (s = false) as -> by (destruct s; [specialize (Hs eq_refl); lia|done]).
    rewrite u128_sub_spec, EA, EB, u128_small by (done || lia).
    destruct (split128 (Bv - A)) as [h1 l1] eqn:E1.
    assert (Y : exact (yb - inject_Z A) (Bv - A) false).
    { replace (Bv - A) with (- A + Bv) by lia.
      assert (yb - inject_Z A == inject_Z (- A) + yb)%Q as -> by (rewrite inject_Z_opp; ring).
      by apply exact_add_Z. }
    apply (pack_aligned sg (Bv - A)); [done|done|lia|done|done|].
    by apply (exact_pos_gt (Bv - A) _ false); [|lia].
  Qed.

  (** The borrow for the dropped bits. *)
Definition borrow_sticky : Z * Z :=
    let '(h, l) := u128_sub h l bh bl in
    if s then let '(h, l) := u128_sub h l 0 1 in u128_add h l 0 0 else (h, l).

Lemma borrow_sticky_spec : Bv < A -> borrow_sticky = split128 (A - Bv - b2z s).
  Proof.
    intros E. unfold borrow_sticky. rewrite u128_sub_spec, EA, EB, u128_small by (done || lia).
    destruct (split128 (A - Bv)) as [h0 l0] eqn:E0. pose proof E0 as E0'.
    apply split128_inv in E0' as (H0 & L0 & E0'); [|lia].
    destruct s; simpl b2z; [|by rewrite Z.sub_0_r].
    rewrite u128_sub_spec, E0' by (done || unfold is_u64; lia).
    change (pairval 0 1) with 1. rewrite u128_small by lia.
    destruct (split128 (A - Bv - 1)) as [h1 l1] eqn:E1. pose proof E1 as E1'.
    apply split128_inv in E1' as (H1 & L1 & E1'); [|lia].
    rewrite u128_add_spec, E1' by (done || unfold is_u64; lia).
    change (pairval 0 0) with 0. rewrite Z.add_0_r, u128_small by lia. done.
  Qed.

Lemma sub_larger :
    Bv < A ->
    (let '(h, l) := borrow_sticky in round_pack sg h l e s f st) =
    rounded f sg ((inject_Z A - yb) * pow2 e) st /\ (0 < inject_Z A - yb)%Q.
  Proof.
    intros E. rewrite borrow_sticky_spec by done.
    pose proof (exact_sub_Z A yb Bv s Yb) as Y.
    assert (V : 0 < A - Bv - b2z s) by (destruct s; simpl b2z; [specialize (Hs eq_refl)|]; lia).
    pose proof (exact_pos_gt _ _ _ Y V) as Y0. split; [|done].
    destruct (split128 (A - Bv - b2z s)) as [h1 l1] eqn:E1.
    apply (pack_aligned sg (A - Bv - b2z s)); [done|done| |done| |done].
    - destruct s; simpl b2z in *; lia.
    - intros S. specialize (Hs S). rewrite S. simpl b2z. lia.
  Qed.

Lemma sub_equal : Bv = A -> (yb == inject_Z A)%Q /\ s = false /\ borrow_sticky = (0, 0).
  Proof.
    intros E. assert (Es : s = false) by (destruct s; [specialize (Hs eq_refl); lia|done]).
    split; [|split; [done|]].
    - destruct Yb as [_ Y]. rewrite Es in Y. symmetry in Y.
      apply negb_false_iff, Qeq_bool_iff in Y. by rewrite Y, E.
    - unfold borrow_sticky. rewrite u128_sub_spec, EA, EB, Es by done.
      by replace (A - Bv) with 0 by lia.
  Qed.
End aligned.

Lemma sf_add_aligned_rounds a b f st :
  wf_format f -> cls a = SF_NORMAL -> cls b = SF_NORMAL -> wf_opnd a -> wf_opnd b ->
  exp b <= exp a -> sf_add_aligned a b f st = round_signed f (value a + value b) st.
Proof.
  intros Hf Ca Cb Ha Hb He.
  destruct (Ha Ca) as (Hah & Hal & Hav). destruct (Hb Cb) as (Hbh & Hbl & Hbv).
  destruct (align_spec a b Hah Hal Hav Hbh Hbl Hbv He)
    as (A & Bv & yb & s & Hhead & Eshl & HA & Eshr & HB & Yb & Hyb & Hs & Ma & Mb).
  unfold sf_add_aligned, value. rewrite u128_bitlen_spec by done.
  set (head := 126 - bitlen _) in *. destruct (Z.ltb_spec 0 head); [|lia].
  set (up := if head <? _ then _ else _) in *. rewrite Eshl, Eshr. clear Eshl Eshr.
  destruct (split128 A) as [h l] eqn:EA. apply split128_inv in EA as (Hh & Hl & EA); [|lia].
  destruct (split128 Bv) as [bh bl] eqn:EB. apply split128_inv in EB as (Hbh' & Hbl' & EB); [|lia].
  set (e := exp a - up) in *. pose proof (pow2_gt0 e) as He0.
  assert (HA0 : (0 < inject_Z A)%Q) by (change 0%Q with (inject_Z 0); rewrite <- Zlt_Qlt; lia).
  destruct (Bool.eqb_spec (sign a) (sign b)) as [Es|Es].
  { rewrite (add_magnitudes f st (sign a) s A Bv e h l bh bl yb) by done.
    rewrite <- round_signed_pos by nra. apply round_signed_proper; [|done].
    rewrite <- Es. destruct (sign a); rewrite Ma, Mb; ring. }
  assert (Esb : sign b = negb (sign a)) by (destruct (sign a), (sign b); done).
  rewrite u128_cmp_spec, cmp3_ge, EA, EB by done.
  destruct (Z.leb_spec Bv A) as [E|E].
  2:{ rewrite (sub_smaller f st (sign b) s A Bv e h l bh bl yb) by done.
      assert (Y0 : (0 < yb - inject_Z A)%Q).
      { apply exact_range in Yb as [Y _]. rewrite Zlt_Qlt in E. lra. }
      rewrite <- round_signed_pos by nra. apply round_signed_proper; [|done].
      rewrite Esb. destruct (sign a); cbn [negb]; rewrite Ma, Mb; ring. }
  assert (X : forall st', round_signed f ((if sign a then - mag a else mag a) +
      (if sign b then - mag b else mag b)) st' =
    round_signed f (if sign a then - ((inject_Z A - yb) * pow2 e) else (inject_Z A - yb) * pow2 e) st').
  { intros st'. apply round_signed_proper; [|done].
    rewrite Esb. destruct (sign a); cbn [negb]; rewrite Ma, Mb; ring. }
  rewrite X. assert (Eb : borrow_sticky s h l bh bl = borrow_sticky s h l bh bl) by done.
  unfold borrow_sticky at 1 in Eb.
  destruct (Z.eq_dec Bv A) as [Eq|Hne].
  - destruct (sub_equal s A Bv h l bh bl yb) as (Ey & -> & Z0); [done..|].
    rewrite Z0 in Eb. destruct (u128_sub h l bh bl). injection Eb as -> ->.
    assert (Ez : ((if sign a then - ((inject_Z A - yb) * pow2 e) else (inject_Z A - yb) * pow2 e) == 0)%Q)
      by (destruct (sign a); rewrite Ey; ring).
    by rewrite (round_signed_proper f _ _ Ez st st eq_refl).
  - destruct (sub_larger f st (sign a) s A Bv e h l bh bl yb) as [R Y0]; [done..|lia|].
    rewrite <- Eb in R. destruct (u128_sub h l bh bl). rewrite R.
    by rewrite round_signed_pos by nra.
Qed.

Definition ieee_add (f : SfFormat) (a b : Sf) (st : SfStatus) : Sf * SfStatus :=
  match cls a, cls b with
  | SF_NAN, _ | _, SF_NAN => (special false SF_NAN, st)
  | SF_INF, SF_INF =>
    if Bool.eqb (sign a) (sign b) then (a, st) else (special false SF_NAN, set_invalid st)
  | SF_INF, _ => (a, st)
  | _, SF_INF => (b, st)
  | SF_ZERO, SF_ZERO => (special (sign a && sign b) SF_ZERO, st)
  | SF_ZERO, SF_NORMAL => round_signed f (value b) st
  | SF_NORMAL, SF_ZERO => round_signed f (value a) st
  | SF_NORMAL, SF_NORMAL => round_signed f (value a + value b) st
  end.

Lemma mag_pos a : 0 < pairval (hi a) (lo a) -> (0 < mag a)%Q.
Proof.
  intros H. unfold mag. rewrite Zlt_Qlt in H. change (inject_Z 0) with 0%Q in H.
  pose proof (pow2_gt0 (exp a)). nra.
Qed.

(** Rounding one finite operand. *)
Lemma round_pack_value a f st :
  wf_format f -> is_u64 (hi a) -> is_u64 (lo a) -> 0 < pairval (hi a) (lo a) ->
  round_pack (sign a) (hi a) (lo a) (exp a) false f st = round_signed f (value a) st.
Proof.
  intros Hf Hh Hl Hv. unfold value. rewrite round_signed_pos by (by apply mag_pos).
  apply round_pack_rounds with (inject_Z (pairval (hi a) (lo a))); try done.
  - apply exact_of_Z.
Qed.

Lemma sf_add_rounds a b f st :
  wf_format f -> wf_opnd a -> wf_opnd b -> sf_add a b f st = ieee_add f a b st.
Proof.
  intros Hf Ha Hb. unfold sf_add, ieee_add, is_cls, make_nan.
  destruct (cls a) eqn:Ca, (cls b) eqn:Cb; try reflexivity.
  - destruct (Hb Cb) as (Hbh & Hbl & Hbv). simpl. apply round_pack_value; (done || lia).
  - destruct (Ha Ca) as (Hah & Hal & Hav). simpl. apply round_pack_value; (done || lia).
  - simpl. destruct (Z.ltb_spec (exp a) (exp b)).
    + rewrite sf_add_aligned_rounds by (done || lia).
      apply round_signed_proper; [ring|done].
    + apply sf_add_aligned_rounds; (done || lia).
  - simpl. by destruct (sign a), (sign b).
Qed.

Lemma value_neg b : (value (sf_neg b) == - value b)%Q.
Proof. unfold value, sf_neg, mag. simpl. destruct (sign b); simpl; ring. Qed.

(** ** Properties of the code *)

(** C33. Addition and subtraction return the correctly rounded exact sum or
    difference (an exact zero is +0, or -0 from two negative zeros), and on the
    special operands NaN, infinity and zero exactly the IEEE result with the
    invalid flag on opposite infinities. *)
Theorem sf_add_sub_correct a b f st :
  wf_format f -> wf_opnd a -> wf_opnd b ->
  sf_add a b f st = ieee_add f a b st /\
  sf_sub a b f st = ieee_add f a (sf_neg b) st /\
  (cls a = SF_NORMAL -> cls b = SF_NORMAL ->
   sf_sub a b f st = round_signed f (value a - value b) st).
Proof.
  intros Hf Ha Hb. assert (Hn : wf_opnd (sf_neg b)) by exact Hb.
  unfold sf_sub. rewrite !sf_add_rounds by done. split; [done|]. split; [done|].
  intros Ca Cb. unfold ieee_add. rewrite Ca. change (cls (sf_neg b)) with (cls b). rewrite Cb.
  apply round_signed_proper; [|done]. rewrite value_neg. reflexivity.
Qed.

Lemma wf_opnd_num a : wf_opnd a -> wf_num a.
Proof. intros H E. destruct (H E) as (? & ? & ?). split_and!; (done || lia). Qed.

(** IEEE 754 multiplication and division on the classes; [NaN] is the one quiet
    NaN. A finite nonzero value over zero is the divide-by-zero exception, for
    which the status has no flag but [invalid]; an infinity over zero is exact. *)
Definition ieee_mul (f : SfFormat) (a b : Sf) (st : SfStatus) : Sf * SfStatus :=
  let sg := xorb (sign a) (sign b) in
  match cls a, cls b with
  | SF_NAN, _ | _, SF_NAN => (special false SF_NAN, st)
  | SF_INF, SF_ZERO | SF_ZERO, SF_INF => (special false SF_NAN, set_invalid st)
  | SF_INF, _ | _, SF_INF => (special sg SF_INF, st)
  | SF_ZERO, _ | _, SF_ZERO => (special sg SF_ZERO, st)
  | SF_NORMAL, SF_NORMAL => let x := (mag a * mag b)%Q in (ieee_round f sg x, ieee_flags f x st)
  end.
Definition ieee_div (f : SfFormat) (a b : Sf) (st : SfStatus) : Sf * SfStatus :=
  let sg := xorb (sign a) (sign b) in
  match cls a, cls b with
  | SF_NAN, _ | _, SF_NAN => (special false SF_NAN, st)
  | SF_INF, SF_INF | SF_ZERO, SF_ZERO => (special false SF_NAN, set_invalid st)
  | SF_NORMAL, SF_ZERO => (special sg SF_INF, set_invalid st)
  | SF_INF, SF_ZERO => (special sg SF_INF, st)
  | SF_ZERO, _ | _, SF_INF => (special sg SF_ZERO, st)
  | SF_INF, _ => (special sg SF_INF, st)
  | SF_NORMAL, SF_NORMAL => let x := (mag a / mag b)%Q in (ieee_round f sg x, ieee_flags f x st)
  end.
(** The flags the code raises for an infinity over zero, where IEEE raises none. *)
Definition inf_over_zero (a b : Sf) : bool := is_cls SF_INF a && is_cls SF_ZERO b.
Definition div_flags (a b : Sf) (st : SfStatus) : SfStatus := if inf_over_zero a b then set_invalid st else st.
(** The operands whose product, or quotient, is negative and rounds to zero. *)
Definition underflows (f : SfFormat) (a b : Sf) (x : Q) : bool :=
  is_cls SF_NORMAL a && is_cls SF_NORMAL b && loses_sign f (xorb (sign a) (sign b)) x.

Lemma rounded_mul_ieee a b f st : rounded_mul f a b st =
  (if underflows f a b (mag a * mag b) then special false SF_ZERO else (ieee_mul f a b st).1, (ieee_mul f a b st).2).
Proof.
  unfold rounded_mul, ieee_mul, underflows, is_cls. destruct (cls a) eqn:Ca, (cls b) eqn:Cb; try done. by rewrite rounded_ieee.
Qed.
Lemma rounded_div_ieee a b f st : rounded_div f a b st =
  (if underflows f a b (mag a / mag b) then special false SF_ZERO else (ieee_div f a b st).1, div_flags a b (ieee_div f a b st).2).
Proof.
  unfold rounded_div, ieee_div, underflows, div_flags, inf_over_zero, is_cls. destruct (cls a) eqn:Ca, (cls b) eqn:Cb; try done. by rewrite rounded_ieee.
Qed.
(** IEEE asks for [-0] there, and both have raised inexact. *)
Lemma underflows_mul f a b st : wf_format f -> wf_num a -> wf_num b -> underflows f a b (mag a * mag b) = true ->
  (ieee_mul f a b st).1 = special true SF_ZERO /\ inexact (ieee_mul f a b st).2 = true.
Proof.
  unfold underflows, is_cls. intros Hf Ha Hb [[Ca%bool_decide_eq_true Cb%bool_decide_eq_true]%andb_prop L]%andb_prop.
  unfold ieee_mul. rewrite Ca, Cb. apply (loses_sign_inexact f (xorb (sign a) (sign b))); [done| |done].
  destruct (Ha Ca) as (_ & _ & Pa), (Hb Cb) as (_ & _ & Pb). pose proof (mag_pos a Pa). pose proof (mag_pos b Pb). nra.
Qed.
Lemma underflows_div f a b st : wf_format f -> wf_num a -> wf_num b -> underflows f a b (mag a / mag b) = true ->
  (ieee_div f a b st).1 = special true SF_ZERO /\ inexact (ieee_div f a b st).2 = true.
Proof.
  unfold underflows, is_cls. intros Hf Ha Hb [[Ca%bool_decide_eq_true Cb%bool_decide_eq_true]%andb_prop L]%andb_prop.
  unfold ieee_div. rewrite Ca, Cb. apply (loses_sign_inexact f (xorb (sign a) (sign b))); [done| |done].
  destruct (Ha Ca) as (_ & _ & Pa), (Hb Cb) as (_ & _ & Pb). pose proof (mag_pos a Pa). pose proof (mag_pos b Pb).
  apply Qlt_shift_div_l; [done|]. lra.
Qed.



(** The least negative binary32 number and a quarter. *)
Definition min_sub32 : Sf := mkSf true SF_NORMAL (-149) 0 1.
Definition quarter : Sf := mkSf false SF_NORMAL (-2) 0 1.

(** A negative product that rounds to zero loses its sign: the least
    negative binary32 number times one quarter is [+0] here, where IEEE
    rounding (and the same code once the product lies 128 bits below the
    subnormal quantum) gives [-0]. *)
Theorem sf_mul_underflow_sign :
  (sf_mul min_sub32 quarter SF_BINARY32 no_status).1 = special false SF_ZERO /\
  ieee_round SF_BINARY32 true (mag min_sub32 * mag quarter) = special true SF_ZERO /\
  (sf_mul min_sub32 (mkSf false SF_NORMAL (-300) 0 1) SF_BINARY32 no_status).1
    = special true SF_ZERO.
Proof. split; [|split]; vm_compute; reflexivity. Qed.

Lemma sf_add_sub_witness :
  let one := mkSf false SF_NORMAL 0 0 1 in
  let tiny := mkSf false SF_NORMAL (-70) 0 3 in
  wf_format SF_X87_80 /\ wf_opnd one /\ wf_opnd tiny /\
  sf_sub one tiny SF_X87_80 no_status = round_signed SF_X87_80 (value one - value tiny) no_status.
Proof.
  intros one tiny. assert (A : wf_opnd one) by (intros _; unfold one; simpl; word_lia).
  assert (B : wf_opnd tiny) by (intros _; unfold tiny; simpl; word_lia).
  split; [exact wf_x87_80|]. split; [done|]. split; [done|].
  exact (proj2 (proj2 (sf_add_sub_correct one tiny SF_X87_80 no_status wf_x87_80 A B)) eq_refl eq_refl).
Defined.


