(* ===== verification/SoftfpConv.v ===== *)
(** [src/util/softfp.c]: conversions.  Integer, decimal and hexadecimal
    sources and conversions between formats are correctly rounded; comparison
    is the comparison of values; conversion to integers truncates and refuses
    exactly the values out of range. *)
From Stdlib Require Import QArith Qpower Qround Qabs Lqa.
From S2P Require Import Prelude.
From S2P Require Import Bigint.
From S2P Require Import Softfp.
From S2P Require Import SoftfpRound.
From S2P Require Import SoftfpArith.
#[local] Open Scope Z_scope.

(** Evaluate the class tests on known classes. *)
Ltac eval_cls :=
  repeat match goal with
  | |- context [bool_decide (?x = ?y :> SfClass)] =>
    let b := eval vm_compute in (bool_decide (x = y)) in
    change (bool_decide (x = y)) with b
  end; cbn [andb orb negb].

(** ** Integer sources and format conversion *)
Definition signed_Z (neg : bool) (v : Z) : Z := if neg then - v else v.

Lemma round_pack_integer h l neg f st :
  wf_format f -> is_u64 h -> is_u64 l -> 0 < pairval h l ->
  round_pack neg h l 0 false f st = round_signed f (inject_Z (signed_Z neg (pairval h l))) st.
Proof.
  intros Hf Hh Hl Hv. set (v := pairval h l) in *.
  rewrite (round_pack_rounds neg h l 0 false f st (inject_Z v) (inject_Z v));
    [|done..|by apply exact_of_Z|done|change (pow2 0) with 1%Q; ring].
  rewrite <- round_signed_pos.
  - apply round_signed_proper; [|done]. unfold signed_Z. destruct neg; [|reflexivity].
    by rewrite inject_Z_opp.
  - change 0%Q with (inject_Z 0). by rewrite <- Zlt_Qlt.
Qed.

Lemma sf_from_int128_rounds h l neg f st :
  wf_format f -> is_u64 h -> is_u64 l ->
  sf_from_int128 h l neg f st =
    if pairval h l =? 0 then (special neg SF_ZERO, st)
    else round_signed f (inject_Z (signed_Z neg (pairval h l))) st.
Proof.
  intros Hf Hh Hl. unfold sf_from_int128. rewrite pairval_zero by done.
  destruct (Z.eqb_spec (pairval h l) 0); [done|].
  apply round_pack_integer; try done. pose proof (pairval_range h l Hh Hl). lia.
Qed.

Lemma sf_from_int_rounds l neg f st :
  wf_format f -> is_u64 l ->
  sf_from_int l neg f st =
    if l =? 0 then (special neg SF_ZERO, st) else round_signed f (inject_Z (signed_Z neg l)) st.
Proof.
  intros Hf Hl. unfold sf_from_int. destruct (Z.eqb_spec l 0); [done|].
  assert (Z0 : is_u64 0) by (unfold is_u64; lia).
  assert (E : pairval 0 l = l) by (unfold pairval; lia).
  rewrite (round_pack_integer 0 l neg f st Hf Z0 Hl); rewrite E; [done|unfold is_u64 in *; lia].
Qed.

Lemma sf_convert_rounds a from f st :
  wf_format f -> wf_num a ->
  sf_convert a from f st =
    if decide (cls a = SF_NORMAL) then round_signed f (value a) st else (a, st).
Proof.
  intros Hf Ha. unfold sf_convert, is_cls. destruct (decide (cls a = SF_NORMAL)) as [E|E].
  - rewrite bool_decide_eq_true_2 by done. cbn [negb]. destruct (Ha E) as (? & ? & ?).
    by apply round_pack_value.
  - by rewrite bool_decide_eq_false_2.
Qed.

(** ** Comparison *)

(** An operand that may be infinite, as an extended value. *)
Inductive Ext := NegInf | Fin (q : Q) | PosInf.
Definition ext_value (a : Sf) : Ext :=
  match cls a with
  | SF_INF => if sign a then NegInf else PosInf
  | SF_ZERO => Fin 0
  | _ => Fin (value a)
  end.
Definition ext_compare (x y : Ext) : comparison :=
  match x, y with
  | NegInf, NegInf | PosInf, PosInf => Eq
  | NegInf, _ | _, PosInf => Lt
  | PosInf, _ | _, NegInf => Gt
  | Fin p, Fin q => Qcompare p q
  end.

Lemma Qlt_cmp p q : (p < q)%Q -> Qcompare p q = Lt.
Proof. apply Qlt_alt. Qed.
Lemma Qgt_cmp p q : (q < p)%Q -> Qcompare p q = Gt.
Proof. apply Qgt_alt. Qed.

Lemma Qcompare_scale p q r : (0 < r)%Q -> Qcompare (p * r) (q * r) = Qcompare p q.
Proof.
  intros Hr. destruct (Qcompare_spec p q) as [E|E|E].
  - apply Qeq_alt. by rewrite E.
  - apply Qlt_cmp. by apply Qmult_lt_compat_r.
  - apply Qgt_cmp. by apply Qmult_lt_compat_r.
Qed.

Lemma Qcompare_Z a b : Qcompare (inject_Z a) (inject_Z b) = (a ?= b).
Proof. unfold Qcompare, inject_Z. simpl. by rewrite !Z.mul_1_r. Qed.

Lemma Qcompare_opp p q : Qcompare (- p) (- q) = CompOpp (Qcompare p q).
Proof.
  destruct (Qcompare_spec p q) as [E|E|E]; simpl.
  - apply Qeq_alt. by rewrite E.
  - apply Qgt_cmp. lra.
  - apply Qlt_cmp. lra.
Qed.

Lemma cmp3_opp c : - cmp3 c = cmp3 (CompOpp c).
Proof. by destruct c. Qed.

Lemma mag_qlen a :
  0 < pairval (hi a) (lo a) -> qlen (mag a) = bitlen (pairval (hi a) (lo a)) + exp a.
Proof.
  intros Hv. unfold mag. rewrite qlen_scale.
  - f_equal. apply exact_qlen with false; [done|apply exact_of_Z].
  - change 0%Q with (inject_Z 0). by rewrite <- Zlt_Qlt.
Qed.

Lemma qlen_lt x y : (0 < x)%Q -> (0 < y)%Q -> qlen x < qlen y -> (x < y)%Q.
Proof.
  intros Hx Hy H. destruct (qlen_spec x Hx) as [_ U]. destruct (qlen_spec y Hy) as [L _].
  pose proof (pow2_mono (qlen x) (qlen y - 1) ltac:(lia)). lra.
Qed.

(** The magnitude comparison inside [sf_cmp]. *)
Definition cmp_magnitudes (a b : Sf) : Z :=
  let abits := u128_bitlen (hi a) (lo a) + exp a in
  let bbits := u128_bitlen (hi b) (lo b) + exp b in
  if negb (abits =? bbits) then (if abits <? bbits then -1 else 1)
  else
    let shift := exp a - exp b in
    let '(ah, al) := if 0 <? shift then u128_shl (hi a) (lo a) shift else (hi a, lo a) in
    let '(bh, bl) := if shift <? 0 then u128_shl (hi b) (lo b) (- shift) else (hi b, lo b) in
    u128_cmp ah al bh bl.

(** Shifting the operand with the larger exponent cannot lose bits when the
    two leading bits weigh the same. *)
Lemma align_up h l n m :
  is_u64 h -> is_u64 l -> 0 < pairval h l -> 0 <= n -> bitlen (pairval h l) + n = bitlen m ->
  0 <= m < 2 ^ 128 ->
  exists h' l', u128_shl h l n = (h', l') /\ is_u64 l' /\ pairval h' l' = pairval h l * 2 ^ n.
Proof.
  intros Hh Hl Hv Hn Hb Hm. set (v := pairval h l) in *.
  pose proof (bitlen_spec v Hv). pose proof (bitlen_pos v Hv).
  pose proof (bitlen_le m 128 ltac:(lia) Hm). pose proof (pow2_pos n Hn).
  assert (0 <= v * 2 ^ n < 2 ^ 128).
  { split; [nia|]. apply Z.lt_le_trans with (2 ^ bitlen v * 2 ^ n); [nia|].
    rewrite <- Z.pow_add_r by lia. apply pow2_le. lia. }
  rewrite u128_shl_spec by done. fold v. rewrite u128_small by done.
  destruct (split128 (v * 2 ^ n)) as [h' l'] eqn:E.
  apply split128_inv in E as (? & ? & ?); [|done]. by exists h', l'.
Qed.

Lemma cmp_magnitudes_spec a b :
  is_u64 (hi a) -> is_u64 (lo a) -> 0 < pairval (hi a) (lo a) ->
  is_u64 (hi b) -> is_u64 (lo b) -> 0 < pairval (hi b) (lo b) ->
  cmp_magnitudes a b = cmp3 (Qcompare (mag a) (mag b)).
Proof.
  intros Hah Hal Hav Hbh Hbl Hbv. unfold cmp_magnitudes. rewrite !u128_bitlen_spec by done.
  pose proof (mag_pos a Hav). pose proof (mag_pos b Hbv).
  rewrite <- !mag_qlen by done.
  pose proof (pairval_range _ _ Hah Hal). pose proof (pairval_range _ _ Hbh Hbl).
  destruct (Z.eqb_spec (qlen (mag a)) (qlen (mag b))) as [E|E]; cbn [negb].
  2:{ destruct (Z.ltb_spec (qlen (mag a)) (qlen (mag b))).
      - assert (mag a < mag b)%Q as L by (by apply qlen_lt). apply Qlt_cmp in L. by rewrite L.
      - assert (mag b < mag a)%Q as L by (apply qlen_lt; (done || lia)).
        apply Qgt_cmp in L. by rewrite L. }
  rewrite !mag_qlen in E by done.
  set (va := pairval (hi a) (lo a)) in *. set (vb := pairval (hi b) (lo b)) in *.
  assert (M : forall e ma mb, (mag a == inject_Z ma * pow2 e)%Q -> (mag b == inject_Z mb * pow2 e)%Q ->
    cmp3 (ma ?= mb) = cmp3 (Qcompare (mag a) (mag b))).
  { intros e ma mb Ea Eb. rewrite (Qcompare_comp _ _ Ea _ _ Eb), Qcompare_scale by apply pow2_gt0.
    by rewrite Qcompare_Z. }
  set (shift := exp a - exp b). destruct (Z.ltb_spec 0 shift) as [S|S].
  - destruct (align_up (hi a) (lo a) shift vb) as (h' & l' & -> & L' & V'); fold va; unfold shift in *; try (done || lia).
    destruct (Z.ltb_spec (exp a - exp b) 0); [lia|]. cbv beta iota. rewrite u128_cmp_spec, V' by done. fold va vb.
    apply (M (exp b)); [|reflexivity]. unfold mag. fold va.
    rewrite inject_Z_mult, <- pow2_Z, <- Qmult_assoc, <- pow2_add by lia.
    by replace (exp a - exp b + exp b) with (exp a) by lia.
  - destruct (Z.ltb_spec shift 0) as [S'|S'].
    + destruct (align_up (hi b) (lo b) (- shift) va) as (h' & l' & -> & L' & V'); fold vb; unfold shift in *; try (done || lia).
      cbv beta iota. rewrite u128_cmp_spec, V' by done. fold va vb. apply (M (exp a)); [reflexivity|].
      unfold mag. fold vb.
      rewrite inject_Z_mult, <- pow2_Z, <- Qmult_assoc, <- pow2_add by lia.
      by replace (- (exp a - exp b) + exp a) with (exp b) by lia.
    + cbv beta iota. rewrite u128_cmp_spec by done. fold va vb. apply (M (exp a)); [reflexivity|].
      unfold mag. fold vb. by replace (exp b) with (exp a) by lia.
Qed.

Lemma sf_cmp_nan a b : is_cls SF_NAN a || is_cls SF_NAN b = true -> sf_cmp a b = (0, true).
Proof. intros E. unfold sf_cmp. by rewrite E. Qed.

Lemma sf_cmp_values a b :
  wf_num a -> wf_num b -> cls a <> SF_NAN -> cls b <> SF_NAN ->
  sf_cmp a b = (cmp3 (ext_compare (ext_value a) (ext_value b)), false).
Proof.
  intros Ha Hb Na Nb. unfold sf_cmp, ext_value, is_cls.
  assert (P : forall x, wf_num x -> cls x = SF_NORMAL -> (0 < mag x)%Q).
  { intros x Hx Cx. apply mag_pos. apply (Hx Cx). }
  destruct (cls a) eqn:Ca, (cls b) eqn:Cb; try congruence; eval_cls.
  all: try (destruct (sign a) eqn:Sa, (sign b) eqn:Sb; reflexivity).
  - (* zero against a number *)
    unfold value. pose proof (P b Hb Cb). destruct (sign b), (sign a); cbn -[Qcompare mag Qopp];
      match goal with
      | |- (-1, _) = _ => assert (0 < mag b)%Q as L by done; apply Qlt_cmp in L; by rewrite L
      | |- (1, _) = _ => assert (- mag b < 0)%Q as L by lra; apply Qgt_cmp in L; by rewrite L
      end.
  - (* a number against zero *)
    unfold value. pose proof (P a Ha Ca). destruct (sign b), (sign a); cbn -[Qcompare mag Qopp];
      match goal with
      | |- (-1, _) = _ => assert (- mag a < 0)%Q as L by lra; apply Qlt_cmp in L; by rewrite L
      | |- (1, _) = _ => assert (0 < mag a)%Q as L by done; apply Qgt_cmp in L; by rewrite L
      end.
  - pose proof (P a Ha Ca). pose proof (P b Hb Cb). unfold value.
    destruct (Ha Ca) as (Hah & Hal & Hav). destruct (Hb Cb) as (Hbh & Hbl & Hbv).
    fold (cmp_magnitudes a b). rewrite cmp_magnitudes_spec by done.
    destruct (sign a), (sign b); cbn [Bool.eqb negb ext_compare].
    + by rewrite Qcompare_opp, cmp3_opp.
    + assert (- mag a < mag b)%Q as L by lra. apply Qlt_cmp in L. by rewrite L.
    + assert (- mag b < mag a)%Q as L by lra. apply Qgt_cmp in L. by rewrite L.
    + done.
Qed.

(** ** Conversion to integers *)
Definition trunc (a : Sf) : Z := Qfloor (mag a).
Definition has_fraction (a : Sf) : bool := negb (Qeq_bool (mag a) (inject_Z (trunc a))).

Lemma exact_trunc a v s : exact (mag a) v s -> trunc a = v /\ has_fraction a = s.
Proof.
  intros [[L U] E]. unfold has_fraction, trunc.
  assert (Ev : Qfloor (mag a) = v).
  { pose proof (Qfloor_le (mag a)) as F1. pose proof (Qlt_floor (mag a)) as F2.
    assert (inject_Z v < inject_Z (Qfloor (mag a) + 1))%Q as A by lra.
    assert (inject_Z (Qfloor (mag a)) < inject_Z (v + 1))%Q as B by lra.
    rewrite <- Zlt_Qlt in A, B. lia. }
  by rewrite Ev.
Qed.

(** The limbs left after the shift by the exponent. *)
Definition trunc_limbs (a : Sf) (st : SfStatus) : Z * Z * SfStatus :=
  let shift := exp a in
  if 0 <? shift then let '(h, l) := u128_shl (hi a) (lo a) shift in (h, l, st)
  else if shift <? 0 then
    let '(h, l, s) := u128_shr_sticky (hi a) (lo a) (- shift) in
    (h, l, if s then set_inexact st else st)
  else (hi a, lo a, st).

Lemma mag_int a n :
  exp a = n -> 0 <= n -> (mag a == inject_Z (pairval (hi a) (lo a) * 2 ^ n))%Q.
Proof. intros <- Hn. unfold mag. by rewrite inject_Z_mult, <- pow2_Z by lia. Qed.

Lemma trunc_huge a n :
  0 < pairval (hi a) (lo a) -> 0 < exp a -> 0 <= n < bitlen (pairval (hi a) (lo a)) + exp a ->
  2 ^ n <= trunc a /\ has_fraction a = false.
Proof.
  intros Hv He Hn. pose proof (bitlen_spec _ Hv) as [B _]. pose proof (bitlen_pos _ Hv).
  destruct (exact_trunc a (pairval (hi a) (lo a) * 2 ^ exp a) false) as [-> ->].
  { rewrite (mag_int a (exp a)) by lia. apply exact_of_Z. }
  split; [|done]. set (v := pairval _ _) in *. pose proof (pow2_pos (exp a) ltac:(lia)).
  apply Z.le_trans with (2 ^ (bitlen v - 1) * 2 ^ exp a); [|nia].
  rewrite <- Z.pow_add_r by lia. apply pow2_le. lia.
Qed.

Lemma trunc_limbs_spec a st :
  is_u64 (hi a) -> is_u64 (lo a) -> 0 < pairval (hi a) (lo a) ->
  (0 < exp a -> bitlen (pairval (hi a) (lo a)) + exp a <= 128) ->
  exists h l, trunc_limbs a st = (h, l, if has_fraction a then set_inexact st else st) /\
    is_u64 h /\ is_u64 l /\ pairval h l = trunc a.
Proof.
  intros Hh Hl Hv Hfit. pose proof (pairval_range _ _ Hh Hl). unfold trunc_limbs.
  set (v := pairval (hi a) (lo a)) in *.
  destruct (Z.ltb_spec 0 (exp a)) as [E|E].
  - destruct (exact_trunc a (v * 2 ^ exp a) false) as [-> ->].
    { rewrite (mag_int a (exp a)) by lia. apply exact_of_Z. }
    rewrite u128_shl_spec by (done || lia). fold v. specialize (Hfit E).
    pose proof (bitlen_spec v Hv). pose proof (pow2_pos (exp a) ltac:(lia)).
    pose proof (bitlen_pos v Hv).
    assert (v * 2 ^ exp a < 2 ^ 128).
    { apply Z.lt_le_trans with (2 ^ bitlen v * 2 ^ exp a); [nia|].
      rewrite <- Z.pow_add_r by lia. apply pow2_le. lia. }
    rewrite u128_small by nia. destruct (split128 (v * 2 ^ exp a)) as [h l] eqn:S.
    apply split128_inv in S as (? & ? & ?); [|nia]. by exists h, l.
  - destruct (Z.ltb_spec (exp a) 0) as [E'|E'].
    + destruct (exact_trunc a (v / 2 ^ (- exp a)) (negb (v mod 2 ^ (- exp a) =? 0))) as [-> ->].
      { unfold mag. fold v. replace (exp a) with (- - exp a) at 1 by lia. apply exact_of_shift. lia. }
      rewrite u128_shr_sticky_spec by (done || lia). fold v.
      pose proof (pow2_pos (- exp a) ltac:(lia)).
      assert (0 <= v / 2 ^ (- exp a) < 2 ^ 128).
      { split; [apply Z.div_pos; lia|]. apply Z.div_lt_upper_bound; [lia|nia]. }
      destruct (split128 (v / 2 ^ (- exp a))) as [h l] eqn:S.
      apply split128_inv in S as (? & ? & ?); [|done]. by exists h, l.
    + destruct (exact_trunc a v false) as [-> ->].
      { rewrite (mag_int a 0) by lia. fold v. rewrite Z.mul_1_r. apply exact_of_Z. }
      by exists (hi a), (lo a).
Qed.

(** Truncation, range check and two's complement encoding. *)
Definition int_range (width : Z) (is_unsigned : bool) (v : Z) : bool :=
  if is_unsigned then (0 <=? v) && (v <? 2 ^ width)
  else (- 2 ^ (width - 1) <=? v) && (v <? 2 ^ (width - 1)).

Definition trunc_to (a : Sf) (width : Z) (is_unsigned : bool) (st : SfStatus) : Z * SfStatus :=
  match cls a with
  | SF_ZERO => (0, st)
  | SF_INF | SF_NAN => (0, set_invalid st)
  | SF_NORMAL =>
    let v := signed_Z (sign a) (trunc a) in
    let st := if has_fraction a then set_inexact st else st in
    if int_range width is_unsigned v then (v mod 2 ^ width, st) else (0, set_invalid st)
  end.

Lemma trunc_nonneg a : 0 < pairval (hi a) (lo a) -> 0 <= trunc a.
Proof.
  intros Hv. pose proof (mag_pos a Hv). unfold trunc.
  pose proof (Qlt_floor (mag a)). assert (0 < inject_Z (Qfloor (mag a) + 1))%Q as A by lra.
  change 0%Q with (inject_Z 0) in A. rewrite <- Zlt_Qlt in A. lia.
Qed.

Lemma low_mask width : 1 <= width <= 64 ->
  (if width =? 64 then 2 ^ 64 - 1 else (1 <<64 width) -64 1) = 2 ^ width - 1.
Proof.
  intros H. destruct (Z.eqb_spec width 64) as [->|]; [done|].
  rewrite Z.shiftl_1_l. pose proof (pow2_pos width ltac:(lia)).
  pose proof (pow2_lt width 64 ltac:(lia) ltac:(lia)).
  rewrite (u64_small (2 ^ width)) by (unfold is_u64; lia). apply u64_small. unfold is_u64. lia.
Qed.

Lemma negate_width l width :
  1 <= width <= 64 -> 0 <= l <= 2 ^ width ->
  (if width =? 64 then 0 -64 l else (0 -64 l) &64 ((1 <<64 width) -64 1)) = (- l) mod 2 ^ width.
Proof.
  intros H Hl. pose proof (low_mask width H) as M. destruct (Z.eqb_spec width 64) as [->|]; [done|].
  rewrite M, land_ones_mod by lia. unfold u64.
  rewrite Z.mod_mod_divide; [done|]. exists (2 ^ (64 - width)). apply pow2_sub. lia.
Qed.

Lemma sf_to_int_trunc a width uns st :
  wf_num a -> 1 <= width <= 64 -> sf_to_int a width uns st = trunc_to a width uns st.
Proof.
  intros Ha Hw. unfold sf_to_int, trunc_to, is_cls.
  destruct (Z.ltb_spec width 1); [lia|]. destruct (Z.ltb_spec 64 width); [lia|].
  destruct (cls a) eqn:Ca; eval_cls; try reflexivity.
  destruct (Ha Ca) as (Hh & Hl & Hv). rewrite u128_bitlen_spec by done.
  pose proof (pow2_le width 64 ltac:(lia)). pose proof (pow2_lt (width - 1) width ltac:(lia) ltac:(lia)).
  pose proof (pow2_pos (width - 1) ltac:(lia)). pose proof (trunc_nonneg a Hv) as T0.
  destruct ((0 <? exp a) && (64 <? bitlen (pairval (hi a) (lo a)) + exp a)) eqn:G.
  { rewrite andb_true_iff, !Z.ltb_lt in G. destruct (trunc_huge a 64 Hv) as [T F]; [lia|lia|].
    rewrite F. replace (int_range width uns (signed_Z (sign a) (trunc a))) with false; [done|].
    symmetry. unfold int_range, signed_Z. destruct uns, (sign a); lia. }
  fold (trunc_limbs a st). destruct (trunc_limbs_spec a st Hh Hl Hv) as (h & l & -> & Hh1 & Hl1 & V).
  { rewrite andb_false_iff, !Z.ltb_ge in G. lia. }
  set (st' := if has_fraction a then _ else _). clearbody st'. cbv beta iota.
  destruct (Z.eqb_spec h 0) as [->|Hne]; cbn [negb].
  2:{ replace (int_range width uns (signed_Z (sign a) (trunc a))) with false; [done|].
      symmetry. unfold int_range, signed_Z, pairval, is_u64 in *. destruct uns, (sign a); lia. }
  assert (El : l = trunc a) by (unfold pairval in V; lia). rewrite <- El in *. clear El V.
  rewrite low_mask by done.
  assert (E1 : 1 <<64 (width - 1) = 2 ^ (width - 1)).
  { rewrite Z.shiftl_1_l. apply u64_small. unfold is_u64. lia. }
  rewrite E1. unfold int_range, signed_Z.
  destruct uns, (sign a); cbn [negb andb orb];
    repeat match goal with |- context [?x =? 0] => destruct (Z.eqb_spec x 0) end;
    repeat match goal with |- context [?x <? ?y] => destruct (Z.ltb_spec x y) end;
    repeat match goal with |- context [?x <=? ?y] => destruct (Z.leb_spec x y) end;
    cbn [negb andb orb]; try lia; try done; f_equal;
    try (symmetry; apply Z.mod_small; lia); apply negate_width; lia.
Qed.

Lemma negate_pair h l :
  is_u64 h -> is_u64 l ->
  let l' := ~64 l +64 1 in
  (~64 h +64 b2z (l' =? 0), l') = split128 ((- pairval h l) mod 2 ^ 128).
Proof.
  intros Hh Hl l'. unfold l'. rewrite !lnot_u64 by done.
  assert (E : u64 (2 ^ 64 - 1 - l + 1) = if l =? 0 then 0 else 2 ^ 64 - l).
  { unfold u64, is_u64 in *. destruct (Z.eqb_spec l 0) as [->|]; [done|].
    rewrite Z.mod_small; lia. }
  rewrite E. destruct (Z.eqb_spec l 0) as [->|Hne].
  - change (0 =? 0) with true. simpl b2z. apply split128_unique; [unfold is_u64; lia|].
    unfold pairval, u64, is_u64 in *. Z.div_mod_to_equations; lia.
  - destruct (Z.eqb_spec (2 ^ 64 - l) 0); [unfold is_u64 in *; lia|]. simpl b2z.
    unfold is_u64 in *. apply split128_unique; [unfold is_u64; lia|].
    unfold pairval, u64 in *. Z.div_mod_to_equations; lia.
Qed.

Lemma sf_to_int128_trunc a uns st :
  wf_num a ->
  sf_to_int128 a uns st = let '(v, st') := trunc_to a 128 uns st in (split128 v, st').
Proof.
  intros Ha. unfold sf_to_int128, trunc_to, is_cls.
  destruct (cls a) eqn:Ca; eval_cls; try reflexivity.
  destruct (Ha Ca) as (Hh & Hl & Hv). rewrite u128_bitlen_spec by done.
  pose proof (trunc_nonneg a Hv) as T0.
  destruct ((0 <? exp a) && (128 <? bitlen (pairval (hi a) (lo a)) + exp a)) eqn:G.
  { rewrite andb_true_iff, !Z.ltb_lt in G. destruct (trunc_huge a 128 Hv) as [T F]; [lia|lia|].
    rewrite F. replace (int_range 128 uns (signed_Z (sign a) (trunc a))) with false; [done|].
    symmetry. unfold int_range, signed_Z. destruct uns, (sign a); lia. }
  fold (trunc_limbs a st). destruct (trunc_limbs_spec a st Hh Hl Hv) as (h & l & -> & Hh1 & Hl1 & V).
  { rewrite andb_false_iff, !Z.ltb_ge in G. lia. }
  set (st' := if has_fraction a then _ else _). clearbody st'. cbv beta iota.
  rewrite <- negb_andb, pairval_zero, top_bit by done. rewrite <- V in *. clear V G.
  assert (Eb : (if uns then sign a && negb (pairval h l =? 0)
     else negb (sign a) && negb (b2z (2 ^ 63 <=? h) =? 0)
       || sign a && ((0x8000000000000000 <? h) || (h =? 0x8000000000000000) && negb (l =? 0)))
     = negb (int_range 128 uns (signed_Z (sign a) (pairval h l)))).
  { unfold int_range, signed_Z, pairval, is_u64 in *. change 0x8000000000000000 with (2 ^ 63).
    destruct uns, (sign a); cbn [andb orb negb]; destruct (Z.leb_spec (2 ^ 63) h); simpl b2z; lia. }
  rewrite Eb. clear Eb. destruct (int_range 128 uns _) eqn:R; cbn [negb]; [|done].
  unfold signed_Z in *. destruct (sign a); cbn [andb].
  - destruct (Z.eqb_spec (pairval h l) 0) as [E|E]; cbn [negb].
    + rewrite E. assert (h = 0 /\ l = 0) as [-> ->] by (unfold pairval, is_u64 in *; lia). done.
    + pose proof (negate_pair h l Hh1 Hl1) as N. cbv zeta in N |- *. by rewrite N.
  - pose proof (pairval_range h l Hh1 Hl1). rewrite Z.mod_small by lia.
    by rewrite split128_pairval.
Qed.

(** ** Properties of the code *)

(** Integers and values of other formats are correctly rounded into the
    target format; a zero integer keeps the sign it is given, and zeros,
    infinities and NaNs convert unchanged. *)
Theorem sf_from_int_convert_correct (h l : Z) (neg : bool) (a : Sf) (from f : SfFormat) st :
  wf_format f -> is_u64 h -> is_u64 l -> wf_num a ->
  sf_from_int l neg f st =
    (if l =? 0 then (special neg SF_ZERO, st)
     else round_signed f (inject_Z (signed_Z neg l)) st) /\
  sf_from_int128 h l neg f st =
    (if pairval h l =? 0 then (special neg SF_ZERO, st)
     else round_signed f (inject_Z (signed_Z neg (pairval h l))) st) /\
  sf_convert a from f st =
    (if decide (cls a = SF_NORMAL) then round_signed f (value a) st else (a, st)).
Proof.
  intros Hf Hh Hl Ha. split; [|split].
  - by apply sf_from_int_rounds.
  - by apply sf_from_int128_rounds.
  - by apply sf_convert_rounds.
Qed.

Lemma sf_from_int_convert_witness :
  sf_from_int128 1 1 true SF_BINARY64 no_status =
  round_signed SF_BINARY64 (inject_Z (signed_Z true (pairval 1 1))) no_status.
Proof.
  assert (U : is_u64 1) by (unfold is_u64; lia).
  assert (W : wf_num (special false SF_ZERO)) by (intros [=]).
  exact (proj1 (proj2 (sf_from_int_convert_correct 1 1 true (special false SF_ZERO)
    SF_BINARY32 SF_BINARY64 no_status wf_binary64 U U W))).
Defined.

(** [sf_cmp] is the comparison of the values, infinities included and
    the two zeros equal, whatever the exponents and significand widths of the
    operands; a NaN makes it unordered. *)
Theorem sf_cmp_correct a b :
  wf_num a -> wf_num b ->
  sf_cmp a b =
    if decide (cls a = SF_NAN \/ cls b = SF_NAN) then (0, true)
    else (cmp3 (ext_compare (ext_value a) (ext_value b)), false).
Proof.
  intros Ha Hb. destruct (decide (cls a = SF_NAN \/ cls b = SF_NAN)) as [[E|E]|E].
  - apply sf_cmp_nan. unfold is_cls. by rewrite E.
  - apply sf_cmp_nan. unfold is_cls. by rewrite E, orb_true_r.
  - apply sf_cmp_values; tauto.
Qed.

Lemma sf_cmp_witness :
  let a := mkSf true SF_NORMAL 3 0 5 in
  let b := mkSf true SF_NORMAL 0 0 39 in
  sf_cmp a b = (cmp3 (ext_compare (ext_value a) (ext_value b)), false).
Proof.
  intros a b. assert (A : wf_num a) by (intros _; unfold a; simpl; word_lia).
  assert (B : wf_num b) by (intros _; unfold b; simpl; word_lia).
  exact (sf_cmp_correct a b A B).
Defined.

(** Conversion to an integer truncates toward zero: a result in the range
    of the target type is returned in two's complement at its width with the
    inexact flag exactly when a fraction was dropped, and any other operand
    gives zero with the invalid flag; so is a width the routine does not
    handle. *)
Theorem sf_to_int_correct a width is_unsigned st :
  wf_num a ->
  sf_to_int a width is_unsigned st =
    (if (width <? 1) || (64 <? width) then (0, set_invalid st)
     else trunc_to a width is_unsigned st) /\
  sf_to_int128 a is_unsigned st =
    (let '(v, st') := trunc_to a 128 is_unsigned st in (split128 v, st')).
Proof.
  intros Ha. split; [|by apply sf_to_int128_trunc].
  destruct ((width <? 1) || (64 <? width)) eqn:E.
  - unfold sf_to_int. by rewrite E.
  - apply sf_to_int_trunc; [done|]. rewrite orb_false_iff, !Z.ltb_ge in E. lia.
Qed.

Lemma sf_to_int_witness :
  let a := mkSf true SF_NORMAL (-1) 0 257 in
  sf_to_int a 8 false no_status = (0x80, set_inexact no_status).
Proof.
  intros a. assert (A : wf_num a) by (intros _; unfold a; simpl; word_lia).
  rewrite (proj1 (sf_to_int_correct a 8 false no_status A)). vm_compute. reflexivity.
Defined.
