(* ===== verification/SoftfpDec.v ===== *)
(** [src/util/softfp.c]: decimal and hexadecimal sources.  A decimal literal
    whose bignums fit is correctly rounded, one rounding from the exact
    rational; past the capacity the code answers infinity. *)
From Stdlib Require Import QArith Qpower Qround Qabs Lqa.
From S2P Require Import Prelude.
From S2P Require Import Bigint.
From S2P Require Import Softfp.
From S2P Require Import SoftfpRound.
From S2P Require Import SoftfpArith.
From S2P Require Import SoftfpConv.
#[local] Open Scope Z_scope.

Lemma BW_768 : Z.of_nat BIGINT_WORDS = 768.
Proof. unfold BIGINT_WORDS. lia. Qed.

Lemma TOP_49088 : TOP = 49088.
Proof. rewrite <- TOP_eq. pose proof BW_768. lia. Qed.

Lemma CAP_49152 : CAP = 2 ^ 49152.
Proof. rewrite <- CAP_eq, BW_768. f_equal. Qed.

#[local] Opaque CAP TOP BIGINT_WORDS.

(** ** The shifts and the division on bignums that hold their values *)
Lemma holds_bitlen b v : holds b v -> bigint_bitlen b = bitlen v.
Proof. intros (W & _ & <-). by apply bitlen_spec'. Qed.

Lemma holds_shl b v s :
  holds b v -> 0 < v -> 0 <= s -> bitlen v + s <= 49000 -> holds (bigint_shl b s) (v * 2 ^ s).
Proof.
  intros (W & O & V) Hv Hs Hb. destruct (shl_spec b s W Hs) as (W' & V' & O').
  - left. pose proof (bitlen_spec v Hv) as [_ U]. pose proof (bitlen_pos v Hv).
    assert (L : (len b <= Z.to_nat (bitlen v / 64 + 1))%nat).
    { apply len_le; [done|]. rewrite V, Z2Nat.id by (apply Z.add_nonneg_nonneg; [apply Z.div_pos|]; lia).
      eapply Z.lt_le_trans; [exact U|]. apply pow2_le. Z.div_mod_to_equations. lia. }
    pose proof BW_768.
    pose proof (Z.div_pos (bitlen v) 64 ltac:(lia) ltac:(lia)).
    pose proof (Z.div_pos s 64 ltac:(lia) ltac:(lia)).
    assert (bitlen v / 64 + s / 64 <= 765) by (Z.div_mod_to_equations; lia).
    clear U. generalize dependent (s / 64). generalize dependent (bitlen v / 64). intros. lia.
  - split; [done|]. split; [by rewrite O'|]. by rewrite V', V.
Qed.

Lemma holds_divide num den v d :
  holds num v -> holds den d -> 0 < v -> 0 < d -> bitlen d <= 49000 -> v / d < 2 ^ 128 ->
  exists h l, forall q,
    bigint_divide_bits num den q = (h, l, negb (v mod d =? 0)) /\
    is_u64 h /\ is_u64 l /\ pairval h l = v / d.
Proof.
  intros (Wn & _ & Vn) (Wd & _ & Vd) Hv Hd Hb Hq.
  pose proof (divide_bits_spec num den 0 Wn Wd) as D. rewrite Vn, Vd in D.
  assert (T : 0 < d <= 2 ^ TOP).
  { split; [done|]. pose proof (bitlen_spec d Hd) as [_ U]. apply Z.lt_le_incl.
    eapply Z.lt_le_trans; [exact U|]. apply pow2_le. rewrite TOP_49088. lia. }
  specialize (D T).
  destruct (bigint_divide_bits num den 0) as [[h l] s] eqn:E.
  destruct D as (Hh & Hl & P & ->). exists h, l. intros q.
  split; [exact E|]. split; [done|]. split; [done|].
  rewrite P. apply u128_small. split; [apply Z.div_pos; lia|done].
Qed.

(** A quotient of operands whose bit lengths differ by [k]. *)
Lemma quotient_bits v d k :
  0 < v -> 0 < d -> 0 < k -> bitlen v = k + bitlen d ->
  2 ^ (k - 1) <= v / d < 2 ^ (k + 1) .
Proof.
  intros Hv Hd Hk E. pose proof (bitlen_spec v Hv). pose proof (bitlen_spec d Hd).
  pose proof (bitlen_pos d Hd). rewrite E in *.
  split.
  - apply Z.div_le_lower_bound; [done|].
    apply Z.le_trans with (2 ^ bitlen d * 2 ^ (k - 1)).
    + apply Z.mul_le_mono_nonneg_r; [apply Z.lt_le_incl, pow2_pos; lia|lia].
    + rewrite <- Z.pow_add_r by lia.
      replace (bitlen d + (k - 1)) with (k + bitlen d - 1) by lia. lia.
  - apply Z.div_lt_upper_bound; [done|].
    apply Z.lt_le_trans with (2 ^ (bitlen d - 1) * 2 ^ (k + 1)).
    + rewrite <- Z.pow_add_r by lia.
      replace (bitlen d - 1 + (k + 1)) with (k + bitlen d) by lia. lia.
    + apply Z.mul_le_mono_nonneg_r; [apply Z.lt_le_incl, pow2_pos; lia|lia].
Qed.

(** From the scaled bignums on. *)
Definition decimal_tail (num den : BigInt) (f : SfFormat) (st : SfStatus) : Sf * SfStatus :=
  let qbits := prec_of f + 2 in
  let shift := qbits - (bigint_bitlen num - bigint_bitlen den) in
  let num := if 0 <? shift then bigint_shl num shift else num in
  let den := if shift <? 0 then bigint_shl den (- shift) else den in
  if Bigint.overflow num || Bigint.overflow den then (special false SF_INF, set_overflow st)
  else
    let '(qhi, qlo, sticky) := bigint_divide_bits num den qbits in
    round_pack false qhi qlo (- shift) sticky f st.

Lemma decimal_tail_rounds num den v d f st :
  wf_format f -> holds num v -> holds den d -> 0 < v -> 0 < d ->
  bitlen v <= 48010 -> bitlen d <= 48010 ->
  decimal_tail num den f st = rounded f false (inject_Z v / inject_Z d) st.
Proof.
  intros Hf Hn Hd Hv Hd0 Bv Bd. pose proof Hf as [Hp _]. unfold decimal_tail.
  rewrite (holds_bitlen num v Hn), (holds_bitlen den d Hd).
  set (shift := prec_of f + 2 - (bitlen v - bitlen d)).
  pose proof (bitlen_pos v Hv). pose proof (bitlen_pos d Hd0).
  set (s1 := Z.max shift 0). set (s2 := Z.max (- shift) 0).
  assert (Hn' : holds (if 0 <? shift then bigint_shl num shift else num) (v * 2 ^ s1)).
  { unfold s1. destruct (Z.ltb_spec 0 shift).
    - rewrite Z.max_l by lia. apply holds_shl; [done|done|lia|unfold shift; lia].
    - rewrite Z.max_r by lia. by rewrite Z.mul_1_r. }
  assert (Hd' : holds (if shift <? 0 then bigint_shl den (- shift) else den) (d * 2 ^ s2)).
  { unfold s2. destruct (Z.ltb_spec shift 0).
    - rewrite Z.max_l by lia. apply holds_shl; [done|done|lia|unfold shift; lia].
    - rewrite Z.max_r by lia. by rewrite Z.mul_1_r. }
  set (num' := if 0 <? shift then _ else _) in *. set (den' := if shift <? 0 then _ else _) in *.
  rewrite (proj1 (proj2 Hn')), (proj1 (proj2 Hd')). cbn [orb].
  pose proof (pow2_pos s1 ltac:(lia)). pose proof (pow2_pos s2 ltac:(lia)).
  pose proof (bitlen_mul_pow2 v s1 Hv ltac:(lia)) as L1.
  pose proof (bitlen_mul_pow2 d s2 Hd0 ltac:(lia)) as L2.
  pose proof (quotient_bits (v * 2 ^ s1) (d * 2 ^ s2) (prec_of f + 2) ltac:(nia) ltac:(nia)
    ltac:(lia) ltac:(lia)) as [Q1 Q2].
  pose proof (pow2_le (prec_of f + 2 + 1) 128 ltac:(lia)).
  pose proof (pow2_pos (prec_of f + 2 - 1) ltac:(lia)).
  destruct (holds_divide num' den' (v * 2 ^ s1) (d * 2 ^ s2)) as (h & l & D);
    [done|done|nia|nia|lia|lia|].
  destruct (D (prec_of f + 2)) as (-> & Hh & Hl & Pq). clear D.
  apply round_pack_rounds with (inject_Z (v * 2 ^ s1) / inject_Z (d * 2 ^ s2))%Q; try done.
  - lia.
  - rewrite Pq. apply exact_quotient. nia.
  - intros _. rewrite Pq. set (q := v * 2 ^ s1 / (d * 2 ^ s2)) in *.
    pose proof (bitlen_spec q ltac:(lia)) as [_ U].
    destruct (Z.lt_ge_cases (prec_of f) (bitlen q)); [done|].
    pose proof (pow2_le (bitlen q) (prec_of f + 2 - 1) ltac:(lia)). lia.
  - rewrite !inject_Z_mult, <- !pow2_Z by lia.
    assert (Vd : ~ (inject_Z d == 0)%Q).
    { intros E. assert (d = 0) by (apply inject_Z_injective; exact E). lia. }
    pose proof (pow2_neq0 s2).
    replace (- shift) with (- s1 + s2) by lia. rewrite pow2_add.
    transitivity (inject_Z v / inject_Z d * (pow2 s1 * pow2 (- s1)))%Q.
    + rewrite pow2_opp. ring.
    + field. done.
Qed.

(** ** The digit string *)
Definition is_digit (c : Z) : Prop := 48 <= c <= 57.
(** The integer a digit string denotes, from an accumulator. *)
Definition dval_from (v : Z) (ds : list Z) : Z := fold_left (fun v c => v * 10 + (c - 48)) ds v.
Definition dval (ds : list Z) : Z := dval_from 0 ds.
Definition ten (e : Z) : Q := Qpower (10 # 1) e.

Lemma dval_skip ds : dval (skip_zeros ds) = dval ds.
Proof.
  induction ds as [|d ds IH]; [done|]. cbn [skip_zeros].
  destruct (Z.eqb_spec d 48) as [->|]; [exact IH|done].
Qed.

Lemma dval_from_bounds ds v :
  Forall is_digit ds -> 0 <= v ->
  v * 10 ^ Z.of_nat (length ds) <= dval_from v ds < (v + 1) * 10 ^ Z.of_nat (length ds).
Proof.
  intros Hd. revert v. induction Hd as [|c ds Hc Hd IH]; intros v Hv.
  - unfold dval_from. simpl. lia.
  - cbn [length]. change (dval_from v (c :: ds)) with (dval_from (v * 10 + (c - 48)) ds).
    specialize (IH (v * 10 + (c - 48))). unfold is_digit in Hc.
    rewrite Nat2Z.inj_succ, Z.pow_succ_r by lia.
    pose proof (Z.pow_pos_nonneg 10 (Z.of_nat (length ds)) ltac:(lia) ltac:(lia)). nia.
Qed.

(** What is left after the leading zeros is empty or has a nonzero value. *)
Lemma skip_zeros_cases ds :
  Forall is_digit ds ->
  (skip_zeros ds = [] /\ dval ds = 0) \/
  (exists d ds', skip_zeros ds = d :: ds' /\ 0 < dval ds /\ Forall is_digit (d :: ds')).
Proof.
  intros Hd. induction Hd as [|c ds Hc Hd IH]; [by left|]. cbn [skip_zeros].
  destruct (Z.eqb_spec c 48) as [->|Hne].
  - destruct IH as [[E V]|(d & ds' & E & V & F)]; [left; by split|right; by exists d, ds'].
  - right. exists c, ds. split; [done|]. split; [|by constructor].
    unfold is_digit in Hc. change (dval (c :: ds)) with (dval_from (c - 48) ds).
    pose proof (dval_from_bounds ds (c - 48) Hd ltac:(lia)).
    pose proof (Z.pow_pos_nonneg 10 (Z.of_nat (length ds)) ltac:(lia) ltac:(lia)). nia.
Qed.

Lemma decimal_fold ds b v :
  Forall is_digit ds -> repr b v -> repr (fold_left decimal_step ds b) (dval_from v ds).
Proof.
  intros Hd. revert b v. induction Hd as [|c ds Hc Hd IH]; intros b v HR; [done|].
  cbn [fold_left]. apply IH. unfold is_digit in Hc. unfold decimal_step.
  rewrite u32_small by (unfold is_u32; lia).
  apply add_small_repr; [|lia]. apply mul_small_repr; [done|lia].
Qed.

Lemma pow10_le_pow2 k : 0 <= k -> 10 ^ k <= 2 ^ (4 * k).
Proof.
  intros Hk. rewrite Z.pow_mul_r by lia. change (2 ^ 4) with 16.
  apply Z.pow_le_mono_l. lia.
Qed.

Lemma pow10_ge_pow2 k : 0 <= k -> 2 ^ (3 * k) <= 10 ^ k.
Proof.
  intros Hk. rewrite Z.pow_mul_r by lia. change (2 ^ 3) with 8.
  apply Z.pow_le_mono_l. lia.
Qed.

Lemma ten_Z e : 0 <= e -> (ten e == inject_Z (10 ^ e))%Q.
Proof. intros. unfold ten. rewrite Zpower_Qpower by done. reflexivity. Qed.

Lemma ten_ratio v e :
  (inject_Z (v * 10 ^ Z.max e 0) / inject_Z (10 ^ Z.max (- e) 0) == inject_Z v * ten e)%Q.
Proof.
  rewrite inject_Z_mult. destruct (Z.le_gt_cases 0 e).
  - rewrite Z.max_l, Z.max_r by lia. change (10 ^ 0) with 1. rewrite <- ten_Z by lia.
    unfold Qdiv. change (/ inject_Z 1)%Q with 1%Q. ring.
  - rewrite Z.max_r, Z.max_l by lia. change (10 ^ 0) with 1. rewrite <- ten_Z by lia.
    unfold ten. rewrite Qpower_opp. change (inject_Z 1) with 1%Q.
    field. apply Qpower_not_0. discriminate.
Qed.

(** The scaled numerator and denominator of the literal. *)
Lemma decimal_scaled ds e :
  Forall is_digit ds ->
  let num := fold_left decimal_step ds (bigint_set_u64 0) in
  let den := bigint_set_u64 1 in
  repr (if 0 <? e then bigint_mul_pow10 num e else num) (dval ds * 10 ^ Z.max e 0) /\
  repr (if e <? 0 then bigint_mul_pow10 den (- e) else den) (10 ^ Z.max (- e) 0).
Proof.
  intros Hd num den.
  assert (Rn : repr num (dval ds)).
  { apply decimal_fold; [done|]. apply repr_set_u64. unfold is_u64. lia. }
  assert (Rd : repr den 1) by (apply repr_set_u64; unfold is_u64; lia).
  assert (0 <= dval ds).
  { pose proof (dval_from_bounds ds 0 Hd ltac:(lia)). unfold dval.
    rewrite Z.mul_0_l in *. tauto. }
  split.
  - destruct (Z.ltb_spec 0 e).
    + rewrite Z.max_l by lia. apply mul_pow10_repr; (done || lia).
    + rewrite Z.max_r by lia. by rewrite Z.mul_1_r.
  - destruct (Z.ltb_spec e 0).
    + rewrite Z.max_l by lia. rewrite <- (Z.mul_1_l (10 ^ _)). apply mul_pow10_repr; (done || lia).
    + rewrite Z.max_r by lia. exact Rd.
Qed.

Lemma repr_holds b v : repr b v -> v < CAP -> holds b v.
Proof. intros [[H _]|[_ H]] L; [exact H|]. exfalso. apply (Z.lt_irrefl v). by apply Z.lt_le_trans with CAP. Qed.
Lemma repr_overflows b v : repr b v -> CAP <= v -> Bigint.overflow b = true.
Proof. intros [[_ H]|[H _]] L; [|exact H]. exfalso. apply (Z.lt_irrefl v). by apply Z.lt_le_trans with CAP. Qed.

Lemma small_below_cap v n : v < 2 ^ n -> n <= 49000 -> v < CAP.
Proof. intros H Hn. rewrite CAP_49152. eapply Z.lt_le_trans; [exact H|]. apply pow2_le. lia. Qed.

Lemma sf_from_decimal_unfold ds e f st d ds' :
  skip_zeros ds = d :: ds' ->
  sf_from_decimal ds e f st =
    let num := fold_left decimal_step (d :: ds') (bigint_set_u64 0) in
    let den := bigint_set_u64 1 in
    let num := if 0 <? e then bigint_mul_pow10 num e else num in
    let den := if e <? 0 then bigint_mul_pow10 den (- e) else den in
    if Bigint.overflow num || Bigint.overflow den then
      (special false SF_INF, set_inexact (set_overflow st))
    else decimal_tail num den f st.
Proof. intros E. unfold sf_from_decimal, decimal_tail. by rewrite E. Qed.

Lemma sf_from_decimal_rounds ds e f st :
  wf_format f -> Forall is_digit ds -> Z.of_nat (length (skip_zeros ds)) + Z.abs e <= 12000 ->
  sf_from_decimal ds e f st = round_signed f (inject_Z (dval ds) * ten e) st.
Proof.
  intros Hf Hd Hlen. destruct (skip_zeros_cases ds Hd) as [[E V]|(d & ds' & E & V & F)].
  { unfold sf_from_decimal. rewrite E, V.
    assert (Z0 : (inject_Z 0 * ten e == 0)%Q) by apply Qmult_0_l.
    by rewrite (round_signed_proper f _ _ Z0 st st eq_refl). }
  rewrite E in Hlen. rewrite (sf_from_decimal_unfold ds e f st d ds' E). cbv zeta.
  rewrite <- dval_skip, E in V |- *. set (dd := d :: ds') in *.
  destruct (decimal_scaled dd e F) as [Rn Rd]. cbv zeta in Rn, Rd.
  set (num := if 0 <? e then _ else _) in *. set (den := if e <? 0 then _ else _) in *.
  set (k := Z.of_nat (length dd)) in *.
  assert (Bv : dval dd < 10 ^ k).
  { pose proof (dval_from_bounds dd 0 F ltac:(lia)). unfold dval. fold k in H. lia. }
  set (v := dval dd * 10 ^ Z.max e 0) in *. set (w := 10 ^ Z.max (- e) 0) in *.
  assert (Hv : 0 < v < 2 ^ (4 * (k + Z.max e 0))).
  { pose proof (Z.pow_pos_nonneg 10 (Z.max e 0) ltac:(lia) ltac:(lia)). split; [unfold v; nia|].
    eapply Z.lt_le_trans; [|apply pow10_le_pow2; lia]. rewrite Z.pow_add_r by lia.
    unfold v. by apply Z.mul_lt_mono_pos_r. }
  assert (Hw : 0 < w < 2 ^ (4 * Z.max (- e) 0 + 1)).
  { split; [apply Z.pow_pos_nonneg; lia|].
    eapply Z.le_lt_trans; [apply pow10_le_pow2; lia|]. apply pow2_lt; lia. }
  pose proof (bitlen_le v (4 * (k + Z.max e 0)) ltac:(lia) ltac:(lia)).
  pose proof (bitlen_le w (4 * Z.max (- e) 0 + 1) ltac:(lia) ltac:(lia)).
  assert (Hn : holds num v) by (apply repr_holds; [done|]; eapply small_below_cap; [apply Hv|lia]).
  assert (Hd' : holds den w) by (apply repr_holds; [done|]; eapply small_below_cap; [apply Hw|lia]).
  rewrite (proj1 (proj2 Hn)), (proj1 (proj2 Hd')). cbn [orb].
  rewrite (decimal_tail_rounds num den v w f st) by (done || lia).
  assert (P : (0 < inject_Z v / inject_Z w)%Q).
  { apply Qlt_shift_div_l; [change 0%Q with (inject_Z 0); rewrite <- Zlt_Qlt; lia|].
    rewrite Qmult_0_l. change 0%Q with (inject_Z 0). rewrite <- Zlt_Qlt. lia. }
  rewrite <- (round_signed_pos f false) by done.
  apply round_signed_proper; [|done]. apply ten_ratio.
Qed.

Lemma sf_from_decimal_refuses ds e f st :
  Forall is_digit ds -> dval ds <> 0 ->
  CAP <= dval ds * 10 ^ Z.max e 0 \/ CAP <= 10 ^ Z.max (- e) 0 ->
  sf_from_decimal ds e f st = (special false SF_INF, set_inexact (set_overflow st)).
Proof.
  intros Hd Hv Hc. destruct (skip_zeros_cases ds Hd) as [[E V]|(d & ds' & E & V & F)]; [done|].
  rewrite (sf_from_decimal_unfold ds e f st d ds' E). cbv zeta.
  destruct (decimal_scaled (d :: ds') e F) as [Rn Rd]. cbv zeta in Rn, Rd.
  rewrite <- E, dval_skip in Rn. rewrite <- E.
  destruct Hc as [Hc|Hc].
  - by rewrite (repr_overflows _ _ Rn Hc).
  - by rewrite (repr_overflows _ _ Rd Hc), orb_true_r.
Qed.

(** ** Hexadecimal sources *)
Definition hval_step (v c : Z) : Z :=
  match hex_digit c with None => v | Some d => v * 16 + d end.
Definition hval (ds : list Z) : Z := fold_left hval_step ds 0.

Lemma hex_digit_range c d : hex_digit c = Some d -> 0 <= d < 16.
Proof.
  unfold hex_digit. repeat case_match; intros [= <-]; rewrite ?andb_true_iff, ?Z.leb_le in *; lia.
Qed.

(** The limbs hold the leading digits, [exp] counts the dropped ones, and
    digits are only dropped once the significand has 123 bits. *)
Definition hex_inv (bin_exp V : Z) (st : Z * Z * Z * bool) : Prop :=
  let '(h, l, e, s) := st in
  is_u64 h /\ is_u64 l /\ 0 <= V /\ bin_exp <= e /\
  exact (inject_Z V * pow2 (- (e - bin_exp))) (pairval h l) s /\
  bitlen (pairval h l) <= 126 /\ (bin_exp < e \/ s = true -> 122 < bitlen (pairval h l)).

Lemma exact_append V k m s d :
  0 <= V -> 0 <= k -> exact (inject_Z V * pow2 (- k)) m s -> 0 <= d < 16 ->
  exact (inject_Z (V * 16 + d) * pow2 (- (k + 4))) m (if negb (d =? 0) then true else s).
Proof.
  intros HV Hk [Hm Hs] Hd. pose proof (pow2_pos k Hk) as Hp.
  assert (E : m = V / 2 ^ k /\ s = negb (V mod 2 ^ k =? 0)).
  { pose proof (exact_of_shift V k Hk) as [[L U] E]. destruct Hm as [L' U'].
    assert (inject_Z m < inject_Z (V / 2 ^ k + 1))%Q as A by lra.
    assert (inject_Z (V / 2 ^ k) < inject_Z (m + 1))%Q as B by lra.
    rewrite <- Zlt_Qlt in A, B. assert (m = V / 2 ^ k) as -> by lia. split; [done|]. by rewrite Hs, E. }
  destruct E as [-> ->]. pose proof (exact_of_shift (V * 16 + d) (k + 4) ltac:(lia)) as X.
  rewrite Z.pow_add_r in X by lia. change (2 ^ 4) with 16 in X.
  pose proof (Z.div_mod V (2 ^ k) ltac:(lia)) as E. pose proof (Z.mod_pos_bound V (2 ^ k) Hp).
  set (q := V / 2 ^ k) in *. set (r := V mod 2 ^ k) in *.
  assert (D : (V * 16 + d) / (2 ^ k * 16) = q).
  { symmetry. apply Z.div_unique with (r * 16 + d); nia. }
  assert (M : (V * 16 + d) mod (2 ^ k * 16) = r * 16 + d).
  { symmetry. apply Z.mod_unique with q; nia. }
  rewrite D, M in X.
  replace (if negb (d =? 0) then true else negb (r =? 0)) with (negb (r * 16 + d =? 0)); [exact X|].
  destruct (Z.eqb_spec d 0), (Z.eqb_spec r 0), (Z.eqb_spec (r * 16 + d) 0); done || lia.
Qed.

Lemma hex_step_inv b V st c : hex_inv b V st -> hex_inv b (hval_step V c) (hex_step st c).
Proof.
  destruct st as [[[h l] e] s]. intros (Hh & Hl & HV & He & Hx & Hb & Hd). unfold hex_step, hval_step.
  destruct (hex_digit c) as [d|] eqn:Ec; [|by split_and!].
  pose proof (hex_digit_range c d Ec) as Rd. pose proof (pairval_range h l Hh Hl) as Rp.
  rewrite u128_bitlen_spec by done. set (m := pairval h l) in *.
  destruct (Z.ltb_spec 126 (bitlen m + 4)) as [F|F].
  - split_and!; try done; try lia; [|intros _; fold m; lia].
    replace (e + 4 - b) with (e - b + 4) by lia. apply exact_append; (done || lia).
  - assert (Eb : e = b) by (destruct (Z.eq_dec e b); [done|]; assert (b < e) by lia; specialize (Hd ltac:(by left)); lia).
    assert (Es : s = false) by (destruct s; [specialize (Hd ltac:(by right)); lia|done]). subst e s.
    replace (b - b) with 0 in * by lia.
    assert (Em : m = V).
    { change (pow2 (- 0)) with 1%Q in Hx. destruct Hx as [_ Hx]. symmetry in Hx.
      apply negb_false_iff, Qeq_bool_iff in Hx. rewrite Qmult_1_r in Hx.
      symmetry. by apply inject_Z_injective. }
    rewrite u128_shl_spec by (done || lia). fold m.
    assert (m < 2 ^ 122) by (apply bitlen_lt_pow; lia).
    rewrite u128_small by lia. destruct (split128 (m * 2 ^ 4)) as [h1 l1] eqn:S.
    apply split128_inv in S as (H1 & L1 & S); [|lia].
    rewrite u128_add_spec, S by (done || unfold is_u64; lia).
    replace (pairval 0 d) with d by (unfold pairval; lia). rewrite u128_small by lia.
    destruct (split128 (m * 2 ^ 4 + d)) as [h2 l2] eqn:S2.
    apply split128_inv in S2 as (H2 & L2 & S2); [|lia].
    unfold hex_inv. rewrite S2, Em. replace (b - b) with 0 by lia.
    split_and!; try done; try lia.
    + change (pow2 (- 0)) with 1%Q. rewrite Qmult_1_r. apply exact_of_Z.
    + apply bitlen_le; lia.
Qed.

Lemma sf_from_hex_rounds ds bin_exp f st :
  wf_format f ->
  sf_from_hex ds bin_exp f st = round_signed f (inject_Z (hval ds) * pow2 bin_exp) st.
Proof.
  intros Hf. unfold sf_from_hex.
  assert (I : hex_inv bin_exp (hval ds) (fold_left hex_step ds (0, 0, bin_exp, false))).
  { unfold hval. assert (I0 : hex_inv bin_exp 0 (0, 0, bin_exp, false)).
    { unfold hex_inv. split_and!; try (unfold is_u64; lia).
      - change (pairval 0 0) with 0. rewrite Qmult_0_l. apply exact_of_Z.
      - done.
      }
    revert I0. generalize (0, 0, bin_exp, false). generalize 0.
    induction ds as [|c ds IH]; intros V st0 I0; [exact I0|]. apply IH. by apply hex_step_inv. }
  destruct (fold_left _ _ _) as [[[h l] e] s]. destruct I as (Hh & Hl & HV & He & Hx & Hb & Hd).
  pose proof (pairval_range h l Hh Hl). rewrite pairval_zero by done.
  assert (Ex : (inject_Z (hval ds) * pow2 bin_exp ==
    inject_Z (hval ds) * pow2 (- (e - bin_exp)) * pow2 e)%Q).
  { rewrite <- Qmult_assoc, <- pow2_add. by replace (- (e - bin_exp) + e) with bin_exp by lia. }
  destruct (Z.eqb_spec (pairval h l) 0) as [E|E]; cbn [andb].
  - assert (Hs : s = false).
    { destruct s; [|done]. specialize (Hd ltac:(by right)). rewrite E, bitlen_0 in Hd. lia. }
    rewrite Hs, E in *. cbn [negb]. destruct Hx as [_ Hx]. symmetry in Hx.
    apply negb_false_iff, Qeq_bool_iff in Hx.
    assert (Z0 : (inject_Z (hval ds) * pow2 bin_exp == 0)%Q).
    { rewrite Ex, Hx. apply Qmult_0_l. }
    by rewrite (round_signed_proper f _ _ Z0 st st eq_refl).
  - rewrite (round_pack_rounds false h l e s f st (inject_Z (hval ds) * pow2 bin_exp)
      (inject_Z (hval ds) * pow2 (- (e - bin_exp)))); try done; [|lia|].
    + symmetry. apply (round_signed_pos f false). rewrite Ex.
      apply exact_range in Hx as [Hx _]. assert (1 <= pairval h l) as P by lia.
      rewrite Zle_Qle in P. change (inject_Z 1) with 1%Q in P. pose proof (pow2_gt0 e). nra.
    + intros Hs. specialize (Hd ltac:(by right)). pose proof Hf as [? _]. lia.
Qed.

(** ** Properties of the code *)

(** A decimal literal is correctly rounded: with at most 12000
    significant digits and decimal places together, the result for digits [D]
    and exponent [e] is the IEEE rounding of the exact rational [D * 10^e]
    and a zero [D] gives [+0]. *)
Theorem sf_from_decimal_correct ds e f st :
  wf_format f -> Forall is_digit ds -> Z.of_nat (length (skip_zeros ds)) + Z.abs e <= 12000 ->
  sf_from_decimal ds e f st =
    if dval ds =? 0 then (special false SF_ZERO, st)
    else (ieee_round f false (inject_Z (dval ds) * ten e),
          ieee_flags f (inject_Z (dval ds) * ten e) st).
Proof.
  intros Hf Hd Hl. rewrite sf_from_decimal_rounds by done. rewrite <- rounded_positive.
  assert (N : 0 <= dval ds).
  { pose proof (dval_from_bounds ds 0 Hd ltac:(lia)). unfold dval. rewrite Z.mul_0_l in *. tauto. }
  destruct (Z.eqb_spec (dval ds) 0) as [E|E].
  - rewrite E. assert (Z0 : (inject_Z 0 * ten e == 0)%Q) by apply Qmult_0_l.
    by rewrite (round_signed_proper f _ _ Z0 st st eq_refl).
  - apply (round_signed_pos f false).
    assert (P : (0 < inject_Z (dval ds))%Q) by (change 0%Q with (inject_Z 0); rewrite <- Zlt_Qlt; lia).
    assert (T : (0 < ten e)%Q) by (apply Qpower_0_lt; reflexivity). nra.
Qed.

Lemma sf_from_decimal_witness :
  (sf_from_decimal [51; 49; 52; 49; 54] (-4) SF_BINARY32 no_status).1 =
  ieee_round SF_BINARY32 false (inject_Z 31416 * ten (-4)).
Proof.
  assert (D : Forall is_digit [51; 49; 52; 49; 54]) by (repeat constructor; unfold is_digit; lia).
  assert (L : Z.of_nat (length (skip_zeros [51; 49; 52; 49; 54])) + Z.abs (-4) <= 12000)
    by (vm_compute; discriminate).
  rewrite (sf_from_decimal_correct _ _ _ no_status wf_binary32 D L). reflexivity.
Defined.

(** Past the capacity of the bignums the answer is infinity with the
    overflow flag, also for a literal whose value rounds to zero: [1e-15000]
    is [+inf] in binary64 where the correctly rounded value is [+0]. *)
Theorem sf_from_decimal_tiny_is_inf f st :
  sf_from_decimal [49] (-15000) f st = (special false SF_INF, set_inexact (set_overflow st)) /\
  ieee_round SF_BINARY64 false (ten (-15000)) = special false SF_ZERO.
Proof.
  split.
  - apply sf_from_decimal_refuses.
    + repeat constructor; unfold is_digit; lia.
    + done.
    + right. change (Z.max (- -15000) 0) with (10 * 1500). rewrite CAP_49152.
      rewrite Z.pow_mul_r by lia. apply Z.le_trans with ((2 ^ 33) ^ 1500).
      * rewrite <- Z.pow_mul_r by lia. apply pow2_le. lia.
      * apply Z.pow_le_mono_l. vm_compute. split; discriminate.
  - assert (T : (0 < ten (-15000) < pow2 (-45000))%Q).
    { split; [apply Qpower_0_lt; reflexivity|]. unfold ten, pow2.
      change (-15000) with (- (15000)). change (-45000) with (- (45000)). rewrite !Qpower_opp.
      fold (ten 15000). fold (pow2 45000).
      apply (proj1 (Qinv_lt_contravar (pow2 45000) (ten 15000) (pow2_gt0 _)
        (Qpower_0_lt (10 # 1) 15000 eq_refl))).
      rewrite ten_Z, pow2_Z by lia. rewrite <- Zlt_Qlt.
      change 45000 with (3 * 15000). rewrite Z.pow_mul_r by lia.
      apply Z.pow_lt_mono_l; [lia|]. vm_compute. split; [discriminate|done]. }
    destruct T as [T0 T].
    apply (far_below_zero SF_BINARY64 false (ten (-15000)) wf_binary64 T0).
    destruct (qlen_spec _ T0) as [L _].
    assert (qlen (ten (-15000)) - 1 < -45000) by (apply pow2_lt_inv; lra).
    change (qmin SF_BINARY64) with (-1074). change (prec_of SF_BINARY64) with 53. lia.
Qed.

(** A hexadecimal literal of any length is correctly rounded: digits that
    no longer fit the 126-bit window only move the exponent and the sticky
    bit, and the result is the rounding of the exact value [H * 2^exp]. *)
Theorem sf_from_hex_correct ds bin_exp f st :
  wf_format f ->
  sf_from_hex ds bin_exp f st = round_signed f (inject_Z (hval ds) * pow2 bin_exp) st.
Proof. exact (sf_from_hex_rounds ds bin_exp f st). Qed.

Lemma sf_from_hex_witness :
  (* 0x1.8p3 as the digits "18" at exponent -1 *)
  sf_from_hex [49; 56] (-1) SF_BINARY16 no_status =
  round_signed SF_BINARY16 (inject_Z 24 * pow2 (-1)) no_status.
Proof. exact (sf_from_hex_correct [49; 56] (-1) SF_BINARY16 no_status wf_binary16). Defined.
