(* ===== verification/SoftfpBits.v ===== *)
(** [src/util/softfp.c]: bit images.  [sf_to_bits] writes the fields of a value
    at their places, [sf_from_bits] reads them back, and the two are inverse
    on the values the arithmetic produces and on the canonical images. *)
From Stdlib Require Import QArith.
From S2P Require Import Prelude.
From S2P Require Import Softfp.
From S2P Require Import SoftfpRound.
#[local] Open Scope Z_scope.

(** ** Byte strings as integers *)
Definition byte_ok (x : Z) : Prop := 0 <= x < 256.
Definition bbit (bs : list Z) (n : Z) : bool := Z.testbit (bs !!! Z.to_nat (n / 8)) (n mod 8).
Definition image_ok (bs : list Z) : Prop := length bs = 16%nat /\ forall i, (i < 16)%nat -> byte_ok (bs !!! i).

Lemma testbit_append a b k n :
  0 <= k -> 0 <= a < 2 ^ k -> 0 <= n ->
  Z.testbit (a + 2 ^ k * b) n = if n <? k then Z.testbit a n else Z.testbit b (n - k).
Proof.
  intros Hk Ha Hn. destruct (Z.ltb_spec n k).
  - rewrite <- (Z.mod_pow2_bits_low (a + 2 ^ k * b) k n) by lia.
    f_equal. rewrite Z.mul_comm, Z.mod_add by lia. apply Z.mod_small. lia.
  - replace n with (n - k + k) at 1 by lia. rewrite <- Z.div_pow2_bits by lia.
    f_equal. rewrite Z.mul_comm, Z.div_add by lia. rewrite Z.div_small; lia.
Qed.

Lemma le_bytes_testbit bs n :
  (forall i, (i < length bs)%nat -> byte_ok (bs !!! i)) -> 0 <= n < 8 * Z.of_nat (length bs) ->
  Z.testbit (le_bytes bs) n = bbit bs n.
Proof.
  revert n. induction bs as [|b bs IH]; intros n Hb Hn; [cbn [length] in Hn; lia|].
  change (le_bytes (b :: bs)) with (b + 2 ^ 8 * le_bytes bs).
  assert (B0 : byte_ok b) by (apply (Hb 0%nat); simpl; lia). unfold byte_ok in B0.
  rewrite testbit_append by lia. unfold bbit. destruct (Z.ltb_spec n 8).
  - rewrite Z.div_small, Z.mod_small by lia. done.
  - cbn [length] in Hn. rewrite IH; [|intros i Hi; apply (Hb (S i)); simpl; lia|lia].
    unfold bbit. replace (n / 8) with ((n - 8) / 8 + 1) by (Z.div_mod_to_equations; lia).
    replace (Z.to_nat ((n - 8) / 8 + 1)) with (S (Z.to_nat ((n - 8) / 8)))
      by (pose proof (Z.div_pos (n - 8) 8 ltac:(lia) ltac:(lia)); lia).
    f_equal. Z.div_mod_to_equations; lia.
Qed.

Lemma le_bytes_range bs :
  (forall i, (i < length bs)%nat -> byte_ok (bs !!! i)) ->
  0 <= le_bytes bs < 2 ^ (8 * Z.of_nat (length bs)).
Proof.
  induction bs as [|b bs IH]; intros Hb; [simpl; lia|].
  change (le_bytes (b :: bs)) with (b + 2 ^ 8 * le_bytes bs).
  assert (B0 : byte_ok b) by (apply (Hb 0%nat); simpl; lia). unfold byte_ok in B0.
  assert (R : 0 <= le_bytes bs < 2 ^ (8 * Z.of_nat (length bs))).
  { apply IH. intros i Hi. apply (Hb (S i)). simpl. lia. }
  replace (8 * Z.of_nat (length (b :: bs))) with (8 + 8 * Z.of_nat (length bs)) by (cbn [length]; lia).
  rewrite Z.pow_add_r by lia. lia.
Qed.

(** A 16-byte image is determined by its bits below 128. *)
Lemma le_bytes_eq bs W :
  image_ok bs -> 0 <= W < 2 ^ 128 -> (forall n, 0 <= n < 128 -> bbit bs n = Z.testbit W n) ->
  le_bytes bs = W.
Proof.
  intros [Hl Hb] HW H. apply Z.bits_inj'. intros n Hn.
  assert (Hb' : forall i, (i < length bs)%nat -> byte_ok (bs !!! i)) by (intros i Hi; apply Hb; lia).
  destruct (Z.lt_ge_cases n 128).
  - rewrite le_bytes_testbit by (done || lia). by apply H.
  - rewrite !(testbit_high 128); [done|done|lia| |lia].
    pose proof (le_bytes_range bs Hb') as R. by rewrite Hl in R.
Qed.

Lemma le_bytes_inj bs bs' :
  image_ok bs -> image_ok bs' -> le_bytes bs = le_bytes bs' -> bs = bs'.
Proof.
  intros [Hl Hb] [Hl' Hb']. assert (E : length bs = length bs') by lia.
  assert (B : forall i, (i < length bs)%nat -> byte_ok (bs !!! i)) by (intros; apply Hb; lia).
  assert (B' : forall i, (i < length bs')%nat -> byte_ok (bs' !!! i)) by (intros; apply Hb'; lia).
  clear Hl Hb Hl' Hb'. revert bs' E B B'.
  induction bs as [|b bs IH]; intros [|b' bs'] E B B' H; try done.
  change (b + 256 * le_bytes bs = b' + 256 * le_bytes bs') in H.
  pose proof (B 0%nat ltac:(simpl; lia)) as B0. pose proof (B' 0%nat ltac:(simpl; lia)) as B0'.
  unfold byte_ok in B0, B0'. simpl in B0, B0'.
  assert (b = b') as -> by lia. f_equal. apply IH.
  - simpl in E. lia.
  - intros i Hi. apply (B (S i)). simpl. lia.
  - intros i Hi. apply (B' (S i)). simpl. lia.
  - lia.
Qed.

Definition bytes_ok (bs : list Z) : Prop := forall i, (i < length bs)%nat -> byte_ok (bs !!! i).

Lemma bytes_ok_cons b bs : bytes_ok (b :: bs) <-> byte_ok b /\ bytes_ok bs.
Proof.
  split.
  - intros H. split; [apply (H 0%nat); simpl; lia|]. intros i Hi. apply (H (S i)). simpl. lia.
  - intros [Hb H] [|i] Hi; [exact Hb|]. apply H. simpl in Hi. lia.
Qed.

Lemma image_bytes_ok bs : image_ok bs -> bytes_ok bs.
Proof. intros [Hl H] i Hi. apply H. lia. Qed.

Lemma bytes_ok_take n bs : bytes_ok bs -> bytes_ok (take n bs).
Proof.
  intros H i Hi. rewrite length_take in Hi. rewrite lookup_total_take_lt by lia. apply H. lia.
Qed.

(** The low [n] bytes and the rest. *)
Lemma le_bytes_split n bs :
  (n <= length bs)%nat ->
  le_bytes bs = le_bytes (take n bs) + 2 ^ (8 * Z.of_nat n) * le_bytes (drop n bs).
Proof.
  revert bs. induction n as [|n IH]; intros bs Hn; [rewrite take_0, drop_0; change (le_bytes []) with 0; lia|].
  destruct bs as [|b bs]; [simpl in Hn; lia|]. cbn [take drop length] in *.
  change (le_bytes (b :: bs)) with (b + 256 * le_bytes bs).
  change (le_bytes (b :: take n bs)) with (b + 256 * le_bytes (take n bs)).
  rewrite (IH bs) by lia. replace (8 * Z.of_nat (S n)) with (8 + 8 * Z.of_nat n) by lia.
  rewrite Z.pow_add_r by lia. lia.
Qed.

Lemma le_bytes_low n bs :
  bytes_ok bs -> (n <= length bs)%nat ->
  le_bytes bs mod 2 ^ (8 * Z.of_nat n) = le_bytes (take n bs) /\
  le_bytes bs / 2 ^ (8 * Z.of_nat n) = le_bytes (drop n bs).
Proof.
  intros Hok Hn. pose proof (le_bytes_range (take n bs) (bytes_ok_take n bs Hok)) as R.
  rewrite length_take in R. replace (Nat.min n (length bs)) with n in R by lia.
  rewrite (le_bytes_split n bs Hn). split; symmetry.
  - apply Z.mod_unique with (le_bytes (drop n bs)); lia.
  - apply Z.div_unique with (le_bytes (take n bs)); lia.
Qed.

Lemma le_bytes_zero bs : bytes_ok bs -> le_bytes bs = 0 <-> forall i, (i < length bs)%nat -> bs !!! i = 0.
Proof.
  induction bs as [|b bs IH]; intros Hok.
  - split; [intros _ i Hi; simpl in Hi; lia|done].
  - apply bytes_ok_cons in Hok as [Hb Hok]. specialize (IH Hok).
    pose proof (le_bytes_range bs Hok) as R. unfold byte_ok in Hb.
    change (le_bytes (b :: bs)) with (b + 256 * le_bytes bs). split.
    + intros E [|i] Hi; [simpl; lia|]. apply IH; [lia|]. simpl in Hi. lia.
    + intros H. pose proof (H 0%nat ltac:(simpl; lia)) as H0. simpl in H0. subst b.
      rewrite (proj2 IH); [done|]. intros i Hi. apply (H (S i)). simpl. lia.
Qed.

(** ** Writing *)
Lemma or_bit_spec out bit :
  image_ok out -> 0 <= bit < 128 ->
  image_ok (or_bit out bit) /\
  forall n, 0 <= n < 128 -> bbit (or_bit out bit) n = bbit out n || (n =? bit).
Proof.
  intros [Hl Hb] Hbit. unfold or_bit. rewrite Z.quot_div_nonneg, Z.rem_mod_nonneg by lia.
  set (k := Z.to_nat (bit / 8)).
  pose proof (Z.div_pos bit 8 ltac:(lia) ltac:(lia)).
  assert (Hk : (k < 16)%nat) by (unfold k; Z.div_mod_to_equations; lia).
  pose proof (Z.mod_pos_bound bit 8 ltac:(lia)) as Hm.
  assert (E1 : u8 (Z.shiftl 1 (bit mod 8)) = 2 ^ (bit mod 8)).
  { unfold u8. rewrite Z.shiftl_1_l. apply Z.mod_small.
    pose proof (pow2_lt (bit mod 8) 8 ltac:(lia) ltac:(lia)). pose proof (pow2_pos (bit mod 8) ltac:(lia)). lia. }
  rewrite E1. split.
  - split; [by rewrite length_insert|]. intros i Hi. destruct (decide (k = i)) as [<-|Hne].
    + rewrite list_lookup_total_insert_eq by lia. apply (lor_bound 8); [lia|by apply Hb|].
      pose proof (pow2_lt (bit mod 8) 8 ltac:(lia) ltac:(lia)). pose proof (pow2_pos (bit mod 8) ltac:(lia)). lia.
    + rewrite list_lookup_total_insert_ne by done. by apply Hb.
  - intros n Hn. unfold bbit. destruct (decide (k = Z.to_nat (n / 8))) as [E|E].
    + rewrite <- E, list_lookup_total_insert_eq, Z.lor_spec, Z.pow2_bits_eqb by lia. f_equal.
      unfold k in E. pose proof (Z.div_pos n 8 ltac:(lia) ltac:(lia)).
      destruct (Z.eqb_spec (bit mod 8) (n mod 8)), (Z.eqb_spec n bit); try done;
        exfalso; Z.div_mod_to_equations; lia.
    + rewrite list_lookup_total_insert_ne by done.
      destruct (Z.eqb_spec n bit) as [->|]; [done|]. by rewrite orb_false_r.
Qed.

(** A byte-writing loop replaces the bytes of its range. *)
Lemma write_loop n i0 (g : nat -> Z) out :
  image_ok out -> (i0 + n <= 16)%nat ->
  let out' := for_up n i0 (fun i out => <[i := u8 (g i)]> out) out in
  image_ok out' /\
  forall k, (k < 16)%nat -> out' !!! k = if decide (i0 <= k < i0 + n)%nat then u8 (g k) else out !!! k.
Proof.
  intros Hok Hn.
  pose proof (for_up_inv (fun i o => image_ok o /\ forall k, (k < 16)%nat ->
      o !!! k = if decide (i0 <= k < i)%nat then u8 (g k) else out !!! k)
    (fun i out => <[i := u8 (g i)]> out) n i0 out) as W.
  cbv zeta. apply W; clear W.
  - split; [done|]. intros k Hk. rewrite decide_False; [done|lia].
  - intros j o Hj [[Hl Hb] Ho]. split; [split; [by rewrite length_insert|]|].
    + intros i Hi. destruct (decide (j = i)) as [<-|Hne].
      * rewrite list_lookup_total_insert_eq by lia. unfold u8. apply Z.mod_pos_bound. lia.
      * rewrite list_lookup_total_insert_ne by done. by apply Hb.
    + intros k Hk. destruct (decide (j = k)) as [<-|Hne].
      * rewrite list_lookup_total_insert_eq by lia. rewrite decide_True; [done|lia].
      * rewrite list_lookup_total_insert_ne, Ho by done.
        destruct (decide (i0 <= k < j)%nat), (decide (i0 <= k < S j)%nat); done || lia.
Qed.

(** ** The packed layout *)
Definition wf_layout (f : SfFormat) : Prop :=
  frac_bits f + exp_bits f + 1 = 8 * total_bytes f /\ 2 <= total_bytes f <= 16 /\
  10 <= frac_bits f <= 112 /\ 5 <= exp_bits f <= 15 /\
  (explicit_intbit f = true -> frac_bits f = 64) /\
  (total_bytes f <= 8 -> frac_bits f < 64).

Lemma layout_binary16 : wf_layout SF_BINARY16. Proof. by unfold wf_layout; vm_compute. Qed.
Lemma layout_binary32 : wf_layout SF_BINARY32. Proof. by unfold wf_layout; vm_compute. Qed.
Lemma layout_binary64 : wf_layout SF_BINARY64. Proof. by unfold wf_layout; vm_compute. Qed.
Lemma layout_x87_80 : wf_layout SF_X87_80. Proof. by unfold wf_layout; vm_compute. Qed.
Lemma layout_binary128 : wf_layout SF_BINARY128. Proof. by unfold wf_layout; vm_compute. Qed.
#[export] Hint Resolve layout_binary16 layout_binary32 layout_binary64 layout_x87_80
  layout_binary128 : words.

(** Fraction, biased exponent and sign, from the bottom up. *)
Definition packed (f : SfFormat) (frac biased : Z) (sg : bool) : Z :=
  frac + 2 ^ frac_bits f * (biased + 2 ^ exp_bits f * b2z sg).

Section layout.
  Context (f : SfFormat) (Hf : wf_layout f).
  #[local] Notation "'fb'" := (frac_bits f).
  #[local] Notation "'eb'" := (exp_bits f).

Lemma packed_testbit frac biased sg n :
    0 <= frac < 2 ^ fb -> 0 <= biased < 2 ^ eb -> 0 <= n ->
    Z.testbit (packed f frac biased sg) n =
      if n <? fb then Z.testbit frac n
      else if n <? fb + eb then Z.testbit biased (n - fb)
      else (n =? fb + eb) && sg.
  Proof using Hf.
    intros H1 H2 Hn. destruct Hf as (_ & _ & ? & ? & _). unfold packed.
    rewrite testbit_append by lia. destruct (Z.ltb_spec n fb); [done|].
    rewrite testbit_append by lia.
    destruct (Z.ltb_spec n (fb + eb)), (Z.ltb_spec (n - fb) eb); try lia; [done|].
    destruct (Z.eqb_spec n (fb + eb)) as [->|Hne].
    - replace (fb + eb - fb - eb) with 0 by lia. by destruct sg.
    - destruct sg; [|apply Z.bits_0]. simpl b2z.
      rewrite (testbit_high 1); [done|lia|lia].
  Qed.

Lemma packed_range frac biased sg :
    0 <= frac < 2 ^ fb -> 0 <= biased < 2 ^ eb ->
    0 <= packed f frac biased sg < 2 ^ (8 * total_bytes f).
  Proof using Hf.
    intros H1 H2. destruct Hf as (E & _ & ? & ? & _). rewrite <- E. unfold packed.
    rewrite !Z.pow_add_r by lia. change (2 ^ 1) with 2.
    pose proof (pow2_pos fb ltac:(lia)). pose proof (pow2_pos eb ltac:(lia)).
    assert (0 <= biased + 2 ^ eb * b2z sg <= 2 ^ eb * 2 - 1) by (destruct sg; simpl b2z; lia). nia.
  Qed.

Lemma u8_testbit x n : 0 <= n < 8 -> Z.testbit (u8 x) n = Z.testbit x n.
  Proof using. intros. unfold u8. apply Z.mod_pow2_bits_low. lia. Qed.

  (** The fraction bytes. *)
Lemma frac_bytes h l :
    is_u64 h -> is_u64 l -> pairval h l < 2 ^ fb ->
    let out := for_up (Nat.min 8 (Z.to_nat (total_bytes f))) 0 (fun i out =>
      <[i := u8 (l >>64 (Z.of_nat i * 8))]> out) (replicate 16 0) in
    let out := for_up (Nat.min 16 (Z.to_nat (total_bytes f)) - 8) 8 (fun i out =>
      <[i := u8 (h >>64 ((Z.of_nat i - 8) * 8))]> out) out in
    image_ok out /\
    forall n, 0 <= n < 128 -> bbit out n = (n <? fb) && Z.testbit (pairval h l) n.
  Proof using Hf.
    intros Hh Hl Hv. destruct Hf as (E & Ht & Hfb & Heb & Hx & H64). set (tb := Z.to_nat (total_bytes f)).
    assert (Z0 : image_ok (replicate 16 0)).
    { split; [done|]. intros i Hi. rewrite lookup_total_replicate_2 by lia. unfold byte_ok. lia. }
    destruct (write_loop (Nat.min 8 tb) 0 (fun i => l >>64 (Z.of_nat i * 8)) (replicate 16 0) Z0 ltac:(lia))
      as [O1 L1].
    cbv zeta. set (out1 := for_up (Nat.min 8 tb) 0 _ _) in *.
    destruct (write_loop (Nat.min 16 tb - 8) 8 (fun i => h >>64 ((Z.of_nat i - 8) * 8)) out1 O1 ltac:(lia))
      as [O2 L2].
    set (out2 := for_up _ 8 _ _) in *. split; [done|]. intros n Hn.
    pose proof (pairval_range h l Hh Hl).
    assert (Hhigh : fb <= n -> Z.testbit (pairval h l) n = false).
    { intros. apply (testbit_high fb); lia. }
    assert (Hp : Z.testbit (pairval h l) n = if n <? 64 then Z.testbit l n else Z.testbit h (n - 64)).
    { unfold pairval. rewrite Z.add_comm, Z.mul_comm. apply testbit_append; unfold is_u64 in *; lia. }
    assert (En : (n <? fb) && Z.testbit (pairval h l) n = Z.testbit (pairval h l) n).
    { destruct (Z.ltb_spec n fb); [done|]. by rewrite Hhigh by lia. }
    rewrite En, Hp. unfold bbit.
    pose proof (Z.mod_pos_bound n 8 ltac:(lia)) as Hm. pose proof (Z.div_mod n 8 ltac:(lia)) as Hdm.
    pose proof (Z.div_pos n 8 ltac:(lia) ltac:(lia)).
    set (k := Z.to_nat (n / 8)). assert (Hk : (k < 16)%nat) by (unfold k; lia).
    assert (Ek : Z.of_nat k = n / 8) by (unfold k; lia).
    rewrite L2, L1 by done. rewrite lookup_total_replicate_2 by done.
    destruct (decide (8 <= k < 8 + (Nat.min 16 tb - 8))%nat) as [D|D].
    - destruct (Z.ltb_spec n 64); [unfold tb in *; lia|].
      rewrite u8_testbit, Z.shiftr_spec, Ek by lia. f_equal. lia.
    - destruct (decide (0 <= k < 0 + Nat.min 8 tb)%nat) as [D'|D'].
      + destruct (Z.ltb_spec n 64); [|lia]. rewrite u8_testbit, Z.shiftr_spec, Ek by lia. f_equal. lia.
      + rewrite Z.bits_0, <- Hp. symmetry. apply Hhigh. unfold tb in *. lia.
  Qed.

Lemma exp_loop biased out :
    image_ok out -> 0 <= biased < 2 ^ eb ->
    let out' := for_up (Z.to_nat eb) 0 (fun i out =>
      if negb (Z.land (Z.shiftr biased (Z.of_nat i)) 1 =? 0)
      then or_bit out (fb + Z.of_nat i) else out) out in
    image_ok out' /\
    forall n, 0 <= n < 128 ->
      bbit out' n = bbit out n || ((fb <=? n) && (n <? fb + eb) && Z.testbit biased (n - fb)).
  Proof using Hf.
    intros Hok Hb. destruct Hf as (E & Ht & Hfb & Heb & Hx & H64).
    set (body := fun i out => _).
    pose proof (for_up_inv (fun i o => image_ok o /\ forall n, 0 <= n < 128 ->
        bbit o n = bbit out n || ((fb <=? n) && (n <? fb + Z.of_nat i) && Z.testbit biased (n - fb)))
      body (Z.to_nat eb) 0 out) as W.
    cbv beta in W. cbv zeta. replace (Z.of_nat (0 + Z.to_nat eb)) with eb in W by lia. apply W; clear W.
    - split; [done|]. intros n Hn. destruct (Z.leb_spec fb n), (Z.ltb_spec n (fb + Z.of_nat 0));
        try lia; simpl; by rewrite orb_false_r.
    - intros i o Hi [Ho Hbits]. unfold body.
      assert (Eb : negb (Z.land (Z.shiftr biased (Z.of_nat i)) 1 =? 0) = Z.testbit biased (Z.of_nat i)).
      { rewrite land_1_mod, Zmod_odd, <- Z.bit0_odd, Z.shiftr_spec by lia.
        rewrite Z.add_0_l. by destruct (Z.testbit biased (Z.of_nat i)). }
      rewrite Eb. destruct (Z.testbit biased (Z.of_nat i)) eqn:B.
      + destruct (or_bit_spec o (fb + Z.of_nat i) Ho ltac:(lia)) as [Ho' Hb']. split; [done|].
        intros n Hn. rewrite Hb', Hbits by done.
        destruct (Z.eqb_spec n (fb + Z.of_nat i)) as [En|En].
        * replace (n - fb) with (Z.of_nat i) by lia. rewrite B.
          destruct (Z.leb_spec fb n), (Z.ltb_spec n (fb + Z.of_nat (S i))); try lia.
        * rewrite orb_false_r.
          destruct (Z.ltb_spec n (fb + Z.of_nat i)), (Z.ltb_spec n (fb + Z.of_nat (S i))); try done; lia.
      + split; [done|]. intros n Hn. rewrite Hbits by done.
        destruct (Z.eq_dec n (fb + Z.of_nat i)) as [En|En].
        * replace (n - fb) with (Z.of_nat i) by lia. rewrite B. by rewrite !andb_false_r.
        * destruct (Z.ltb_spec n (fb + Z.of_nat i)), (Z.ltb_spec n (fb + Z.of_nat (S i))); try done; lia.
  Qed.

  (** The image of a value is its packed fields. *)
Lemma to_bits_packed a h l biased :
    fields_of a f = (h, l, biased) -> is_u64 h -> is_u64 l -> pairval h l < 2 ^ fb ->
    0 <= biased < 2 ^ eb ->
    image_ok (sf_to_bits a f) /\
    le_bytes (sf_to_bits a f) = packed f (pairval h l) biased (sign a).
  Proof using Hf.
    intros Ef Hh Hl Hv Hb. pose proof Hf as (E & Ht & Hfb & Heb & Hx & H64).
    unfold sf_to_bits. rewrite Ef. cbv beta iota zeta.
    destruct (frac_bytes h l Hh Hl Hv) as [O1 B1]. cbv zeta in O1, B1.
    set (out1 := for_up _ 8 _ _) in *.
    destruct (exp_loop biased out1 O1 Hb) as [O2 B2]. cbv zeta in O2, B2.
    set (out2 := for_up (Z.to_nat eb) 0 _ out1) in *.
    assert (T : image_ok (if sign a then or_bit out2 (eb + fb + 1 - 1) else out2) /\
      forall n, 0 <= n < 128 -> bbit (if sign a then or_bit out2 (eb + fb + 1 - 1) else out2) n =
        Z.testbit (packed f (pairval h l) biased (sign a)) n).
    { pose proof (pairval_range h l Hh Hl).
      assert (G : forall n, 0 <= n < 128 -> bbit out2 n || ((n =? fb + eb) && sign a) =
        Z.testbit (packed f (pairval h l) biased (sign a)) n).
      { intros n Hn. rewrite B2, B1, packed_testbit by lia.
        destruct (Z.ltb_spec n fb), (Z.leb_spec fb n), (Z.ltb_spec n (fb + eb)),
          (Z.eqb_spec n (fb + eb)); try lia; cbn [andb orb]; by rewrite ?orb_false_r. }
      destruct (sign a) eqn:S.
      - destruct (or_bit_spec out2 (eb + fb + 1 - 1) O2 ltac:(lia)) as [O3 B3]. split; [done|].
        intros n Hn. rewrite B3, <- G by done. rewrite andb_true_r. do 2 f_equal. lia.
      - split; [done|]. intros n Hn. rewrite <- G by done. by rewrite andb_false_r, orb_false_r. }
    destruct T as [Hok Hbits]. split; [exact Hok|]. apply le_bytes_eq; [exact Hok| |exact Hbits].
    pose proof (pairval_range h l Hh Hl).
    pose proof (packed_range (pairval h l) biased (sign a) ltac:(lia) Hb).
    pose proof (pow2_le (8 * total_bytes f) 128 ltac:(lia)). lia.
  Qed.
End layout.

(** ** Reading *)

(** A byte-gathering loop reads the bits of its range. *)
Lemma read_loop bs n i0 :
  image_ok bs -> (i0 + n <= 16)%nat -> (n <= 8)%nat ->
  let v := for_up n i0 (fun i acc =>
    acc |64 ((bs !!! i) <<64 ((Z.of_nat i - Z.of_nat i0) * 8))) 0 in
  is_u64 v /\
  forall k, 0 <= k -> Z.testbit v k = (k <? 8 * Z.of_nat n) && bbit bs (k + 8 * Z.of_nat i0).
Proof.
  intros [Hl Hb] Hn H8. cbv zeta. set (body := fun i acc => _).
  pose proof (for_up_inv (fun i v => is_u64 v /\ forall k, 0 <= k ->
      Z.testbit v k = (k <? 8 * (Z.of_nat i - Z.of_nat i0)) && bbit bs (k + 8 * Z.of_nat i0))
    body n i0 0) as W. cbv beta in W.
  replace (Z.of_nat (i0 + n) - Z.of_nat i0) with (Z.of_nat n) in W by lia. apply W; clear W.
  - split; [unfold is_u64; lia|]. intros k Hk. rewrite Z.bits_0.
    destruct (Z.ltb_spec k (8 * (Z.of_nat i0 - Z.of_nat i0))); [lia|done].
  - intros i v Hi [Hv Hbits]. unfold body.
    pose proof (Hb i ltac:(lia)) as B. unfold byte_ok in B.
    set (s := (Z.of_nat i - Z.of_nat i0) * 8).
    assert (Es : (bs !!! i) <<64 s = (bs !!! i) * 2 ^ s).
    { rewrite Z.shiftl_mul_pow2 by lia. apply u64_small. pose proof (pow2_pos s ltac:(lia)).
      pose proof (pow2_le (8 + s) 64 ltac:(lia)) as P. rewrite Z.pow_add_r in P by lia.
      unfold is_u64. nia. }
    split; [apply lor_u64; [done|apply u64_range]|]. intros k Hk.
    rewrite Z.lor_spec, Hbits, Es, <- Z.shiftl_mul_pow2, Z.shiftl_spec by lia.
    destruct (Z.ltb_spec k (8 * (Z.of_nat i - Z.of_nat i0))).
    + rewrite (Z.testbit_neg_r _ (k - s)) by lia. rewrite orb_false_r.
      destruct (Z.ltb_spec k (8 * (Z.of_nat (S i) - Z.of_nat i0))); [done|lia].
    + cbn [andb orb]. destruct (Z.ltb_spec k (8 * (Z.of_nat (S i) - Z.of_nat i0))).
      * cbn [andb]. unfold bbit.
        assert (E1 : (k + 8 * Z.of_nat i0) / 8 = Z.of_nat i) by (Z.div_mod_to_equations; lia).
        assert (E2 : (k + 8 * Z.of_nat i0) mod 8 = k - s) by (Z.div_mod_to_equations; lia).
        by rewrite E1, E2, Nat2Z.id.
      * apply (testbit_high 8); lia.
Qed.

(** The classification of the fields, as in the second half of the source. *)
Definition decode (f : SfFormat) (frac_hi frac_lo biased : Z) (sg : bool) : Sf :=
  let prec := prec_of f in
  if biased =? Z.shiftl 1 (exp_bits f) - 1 then
    if explicit_intbit f then
      let intbit := 1 <<64 (frac_bits f - 1) in
      special sg (if (frac_hi =? 0) && (frac_lo =? intbit) then SF_INF else SF_NAN)
    else special sg (if negb (frac_hi |64 frac_lo =? 0) then SF_NAN else SF_INF)
  else if (biased =? 0) && (frac_hi |64 frac_lo =? 0) then special sg SF_ZERO
  else if explicit_intbit f && negb (biased =? 0) &&
          (frac_lo &64 (1 <<64 (frac_bits f - 1)) =? 0) then special sg SF_NAN
  else if biased =? 0 then
    mkSf sg SF_NORMAL (emin_of f - (prec - 1)) frac_hi frac_lo
  else
    let '(h, l) :=
      if negb (explicit_intbit f) then
        if 64 <=? prec - 1 then (frac_hi |64 (1 <<64 (prec - 1 - 64)), frac_lo)
        else (frac_hi, frac_lo |64 (1 <<64 (prec - 1)))
      else (frac_hi, frac_lo) in
    mkSf sg SF_NORMAL (biased - emax_of f - (prec - 1)) h l.

Lemma bits_ext n a b :
  0 <= n -> 0 <= a < 2 ^ n -> 0 <= b < 2 ^ n ->
  (forall k, 0 <= k < n -> Z.testbit a k = Z.testbit b k) -> a = b.
Proof.
  intros Hn Ha Hb H. apply Z.bits_inj'. intros k Hk. destruct (Z.lt_ge_cases k n); [by apply H|].
  rewrite !(testbit_high n) by lia. done.
Qed.

Section reading.
  Context (f : SfFormat) (Hf : wf_layout f) (bs : list Z) (Hbs : image_ok bs).
  #[local] Notation "'fb'" := (frac_bits f).
  #[local] Notation "'eb'" := (exp_bits f).
  #[local] Notation "'W'" := (le_bytes bs).

Lemma image_bit n : 0 <= n < 128 -> bbit bs n = Z.testbit W n.
  Proof using Hbs.
    intros Hn. destruct Hbs as [Hl Hb]. symmetry. apply le_bytes_testbit.
    - intros i Hi. apply Hb. lia.
    - rewrite Hl. lia.
  Qed.

Lemma mask_small k : 0 <= k < 64 -> (1 <<64 k) -64 1 = 2 ^ k - 1.
  Proof using.
    intros. rewrite Z.shiftl_1_l. pose proof (pow2_lt k 64 ltac:(lia) ltac:(lia)).
    pose proof (pow2_pos k ltac:(lia)).
    rewrite (u64_small (2 ^ k)) by (unfold is_u64; lia). apply u64_small. unfold is_u64. lia.
  Qed.

  (** The masked fraction is the low field. *)
Lemma read_fraction frac_lo frac_hi :
    is_u64 frac_lo -> is_u64 frac_hi ->
    (forall k, 0 <= k -> Z.testbit frac_lo k = (k <? 8 * Z.min 8 (total_bytes f)) && bbit bs k) ->
    (forall k, 0 <= k -> Z.testbit frac_hi k =
       (k <? 8 * (Z.max 8 (total_bytes f) - 8)) && bbit bs (k + 64)) ->
    (if fb <? 64 then (0, frac_lo &64 ((1 <<64 fb) -64 1))
     else if fb <? 128 then
       ((if fb - 64 <? 64 then
           (if fb =? 64 then 0 else frac_hi &64 ((1 <<64 (fb - 64)) -64 1))
         else frac_hi), frac_lo)
     else (frac_hi, frac_lo)) = split128 (W mod 2 ^ fb).
  Proof using Hf Hbs.
    intros Hlo Hhi Blo Bhi. pose proof Hf as (E & Ht & Hfb & Heb & Hx & H64).
    destruct (Z.ltb_spec fb 64) as [L|L].
    - rewrite mask_small, land_ones_mod by lia. apply split128_unique.
      + pose proof (Z.mod_pos_bound frac_lo (2 ^ fb) ltac:(apply pow2_pos; lia)).
        pose proof (pow2_lt fb 64 ltac:(lia) ltac:(lia)). unfold is_u64. lia.
      + unfold pairval. rewrite Z.mul_0_l, Z.add_0_l. pose proof (pow2_pos fb ltac:(lia)).
        apply (bits_ext fb); try (apply Z.mod_pos_bound; lia); [lia|].
        intros k Hk. rewrite !Z.mod_pow2_bits_low, Blo, image_bit by lia.
        destruct (Z.ltb_spec k (8 * Z.min 8 (total_bytes f))); [done|lia].
    - destruct (Z.ltb_spec fb 128); [|lia]. destruct (Z.ltb_spec (fb - 64) 64); [|lia].
      assert (T : 8 < total_bytes f) by (destruct (Z.le_gt_cases (total_bytes f) 8); lia).
      set (h := if fb =? 64 then 0 else frac_hi &64 ((1 <<64 (fb - 64)) -64 1)).
      assert (Eh : h = frac_hi mod 2 ^ (fb - 64)).
      { unfold h. destruct (Z.eqb_spec fb 64) as [->|]; [by rewrite Z.mod_1_r|].
        rewrite mask_small, land_ones_mod by lia. done. }
      rewrite Eh. pose proof (pow2_pos (fb - 64) ltac:(lia)).
      pose proof (Z.mod_pos_bound frac_hi (2 ^ (fb - 64)) ltac:(lia)) as Rh.
      apply split128_unique; [done|]. pose proof (pow2_pos fb ltac:(lia)).
      apply (bits_ext fb); [lia| |apply Z.mod_pos_bound; lia|].
      + replace (2 ^ fb) with (2 ^ (fb - 64) * 2 ^ 64)
          by (rewrite <- Z.pow_add_r by lia; f_equal; lia). unfold pairval, is_u64 in *. nia.
      + intros k Hk. rewrite Z.mod_pow2_bits_low by lia. rewrite <- image_bit by lia.
        unfold pairval. rewrite Z.add_comm, Z.mul_comm, testbit_append by (unfold is_u64 in *; lia).
        destruct (Z.ltb_spec k 64).
        * rewrite Blo by lia. destruct (Z.ltb_spec k (8 * Z.min 8 (total_bytes f))); [done|lia].
        * rewrite Z.mod_pow2_bits_low, Bhi by lia.
          destruct (Z.ltb_spec (k - 64) (8 * (Z.max 8 (total_bytes f) - 8))); [|lia].
          cbn [andb]. f_equal. lia.
  Qed.

Lemma byte_bit_test n :
    0 <= n < 128 ->
    negb (Z.land (bs !!! Z.to_nat (n / 8)) (Z.shiftl 1 (n mod 8)) =? 0) = Z.testbit W n.
  Proof using Hbs.
    intros Hn. rewrite <- image_bit by done. unfold bbit.
    pose proof (Z.mod_pos_bound n 8 ltac:(lia)). rewrite Z.shiftl_1_l, land_pow2 by lia.
    destruct (Z.testbit _ _); [|done]. pose proof (pow2_pos (n mod 8) ltac:(lia)).
    destruct (Z.eqb_spec (2 ^ (n mod 8)) 0); [lia|done].
  Qed.

Lemma read_exponent :
    for_up (Z.to_nat eb) 0 (fun i acc =>
      let bit := fb + Z.of_nat i in
      if negb (Z.land (bs !!! Z.to_nat (Z.quot bit 8)) (Z.shiftl 1 (Z.rem bit 8)) =? 0)
      then Z.lor acc (Z.shiftl 1 (Z.of_nat i)) else acc) 0 = (W / 2 ^ fb) mod 2 ^ eb.
  Proof using Hf Hbs.
    pose proof Hf as (E & Ht & Hfb & Heb & Hx & H64). set (body := fun i acc => _).
    pose proof (for_up_inv (fun i acc => acc = (W / 2 ^ fb) mod 2 ^ Z.of_nat i)
      body (Z.to_nat eb) 0 0) as L. cbv beta in L.
    replace (Z.of_nat (0 + Z.to_nat eb)) with eb in L by lia. apply L; clear L.
    - by rewrite Z.mod_1_r.
    - intros i acc Hi ->. unfold body. rewrite Z.quot_div_nonneg, Z.rem_mod_nonneg by lia.
      rewrite byte_bit_test by lia. set (V := W / 2 ^ fb).
      assert (EV : Z.testbit W (fb + Z.of_nat i) = Z.testbit V (Z.of_nat i)).
      { unfold V. rewrite Z.div_pow2_bits by lia. f_equal. lia. }
      rewrite EV. pose proof (pow2_pos (Z.of_nat i) ltac:(lia)).
      replace (Z.of_nat (S i)) with (Z.of_nat i + 1) by lia.
      rewrite Z.pow_add_r, Z.rem_mul_r by lia. change (2 ^ 1) with 2.
      rewrite Zmod_odd, <- Z.bit0_odd, Z.div_pow2_bits by lia. rewrite Z.add_0_l.
      destruct (Z.testbit V (Z.of_nat i)); [|lia].
      rewrite Z.shiftl_1_l, Z.lor_comm, (lor_add_disjoint _ _ (Z.of_nat i));
        [lia|lia|by apply Z.mod_pos_bound|apply Z.mod_same; lia].
  Qed.

  (** Reading an image decodes the three fields of its integer. *)
Lemma from_bits_packed :
    sf_from_bits bs f =
      let '(h, l) := split128 (W mod 2 ^ fb) in
      decode f h l ((W / 2 ^ fb) mod 2 ^ eb) (Z.testbit W (fb + eb)).
  Proof using Hf Hbs.
    pose proof Hf as (E & Ht & Hfb & Heb & Hx & H64).
    pose proof read_exponent as RE. cbv zeta in RE. unfold sf_from_bits. cbv zeta. rewrite RE. clear RE.
    set (tb := Z.to_nat (total_bytes f)).
    pose proof (read_loop bs (Nat.min 8 tb) 0 Hbs ltac:(lia) ltac:(lia)) as [L1 L2].
    pose proof (read_loop bs (Nat.min 16 tb - 8) 8 Hbs ltac:(lia) ltac:(lia)) as [M1 M2].
    assert (E1 : for_up (Nat.min 8 tb) 0 (fun i acc => acc |64 ((bs !!! i) <<64 (Z.of_nat i * 8))) 0 =
      for_up (Nat.min 8 tb) 0 (fun i acc => acc |64 ((bs !!! i) <<64 ((Z.of_nat i - Z.of_nat 0) * 8))) 0).
    { apply for_up_ext. intros i v _. by replace (Z.of_nat i - Z.of_nat 0) with (Z.of_nat i) by lia. }
    rewrite E1. cbv zeta in L1, L2, M1, M2. change (Z.of_nat 8) with 8 in M1, M2.
    set (frac_lo := for_up _ 0 _ 0) in *. set (frac_hi := for_up _ 8 _ 0) in *.
    rewrite (read_fraction frac_lo frac_hi L1 M1).
    - rewrite Z.quot_div_nonneg, Z.rem_mod_nonneg by lia.
      replace (eb + fb + 1 - 1) with (fb + eb) by lia.
      assert (Es : negb (Z.land (Z.shiftr (bs !!! Z.to_nat ((fb + eb) / 8)) ((fb + eb) mod 8)) 1 =? 0)
                   = Z.testbit W (fb + eb)).
      { rewrite <- image_bit by lia. unfold bbit.
        rewrite land_1_mod, Zmod_odd, <- Z.bit0_odd, Z.shiftr_spec by lia.
        rewrite Z.add_0_l. by destruct (Z.testbit _ _). }
      rewrite Es. by destruct (split128 _).
    - intros k Hk. rewrite L2 by done.
      replace (8 * Z.of_nat (Nat.min 8 tb)) with (8 * Z.min 8 (total_bytes f)) by (unfold tb; lia).
      f_equal. f_equal. lia.
    - intros k Hk. rewrite M2 by done.
      replace (8 * Z.of_nat (Nat.min 16 tb - 8)) with (8 * (Z.max 8 (total_bytes f) - 8)) by (unfold tb; lia).
      f_equal.
  Qed.
End reading.

(** ** Canonical values *)
Definition canonical (f : SfFormat) (a : Sf) : Prop :=
  match cls a with
  | SF_NORMAL =>
    is_u64 (hi a) /\ is_u64 (lo a) /\ 0 < pairval (hi a) (lo a) < 2 ^ prec_of f /\
    qmin f <= exp a /\ (2 ^ (prec_of f - 1) <= pairval (hi a) (lo a) \/ exp a = qmin f) /\
    exp a + (prec_of f - 1) <= emax_of f
  | c => a = special (sign a) c
  end.

Section canonical.
  Context (f : SfFormat) (Hf : wf_layout f).
  #[local] Notation "'fb'" := (frac_bits f).
  #[local] Notation "'eb'" := (exp_bits f).

Lemma prec_cases :
    (explicit_intbit f = true /\ prec_of f = fb /\ fb = 64) \/
    (explicit_intbit f = false /\ prec_of f = fb + 1).
  Proof using Hf.
    destruct Hf as (_ & _ & _ & _ & Hx & _). unfold prec_of.
    destruct (explicit_intbit f); [left|right]; auto.
  Qed.

Lemma layout_wf : wf_format f.
  Proof using Hf.
    destruct Hf as (_ & _ & ? & ? & _). unfold wf_format. destruct prec_cases as [(_ & -> & _)|(_ & ->)]; lia.
  Qed.

Lemma emax_val : emax_of f = 2 ^ (eb - 1) - 1 /\ 2 ^ eb = 2 * 2 ^ (eb - 1) /\ 16 <= 2 ^ (eb - 1).
  Proof using Hf.
    destruct Hf as (_ & _ & ? & ? & _). unfold emax_of. rewrite Z.shiftl_1_l. split; [done|]. split.
    - replace eb with (1 + (eb - 1)) at 1 by lia. rewrite Z.pow_add_r by lia. lia.
    - apply (pow2_le 4). lia.
  Qed.

  (** Masking off the implicit bit. *)
Lemma drop_implicit h l k :
    is_u64 h -> is_u64 l -> 0 <= k <= 127 -> pairval h l < 2 ^ (k + 1) ->
    (if 64 <=? k then (h &64 ((1 <<64 (k - 64)) -64 1), l)
     else (h, l &64 ((1 <<64 k) -64 1))) = split128 (pairval h l mod 2 ^ k).
  Proof using.
    intros Hh Hl Hk Hv. pose proof (pow2_pos k ltac:(lia)). destruct (Z.leb_spec 64 k).
    - rewrite mask_small, land_ones_mod by lia. apply split128_unique; [done|].
      pose proof (pow2_pos (k - 64) ltac:(lia)) as Hp.
      pose proof (Z.mod_pos_bound h (2 ^ (k - 64)) Hp). pose proof (Z.div_mod h (2 ^ (k - 64)) ltac:(lia)).
      unfold pairval, is_u64 in *. apply Z.mod_unique with (h / 2 ^ (k - 64));
        replace (2 ^ k) with (2 ^ (k - 64) * 2 ^ 64) by (rewrite <- Z.pow_add_r by lia; f_equal; lia); nia.
    - rewrite mask_small, land_ones_mod by lia.
      pose proof (pow2_le (k + 1) 64 ltac:(lia)).
      assert (h = 0) as -> by (unfold pairval, is_u64 in *; lia).
      pose proof (Z.mod_pos_bound l (2 ^ k) ltac:(lia)).
      pose proof (pow2_le k 64 ltac:(lia)). apply split128_unique; [unfold is_u64; lia|].
      unfold pairval. by rewrite !Z.mul_0_l, !Z.add_0_l.
  Qed.

Definition frac_of (v : Z) : Z := if explicit_intbit f then v else v mod 2 ^ fb.

Lemma normal_fields_canonical a :
    cls a = SF_NORMAL -> canonical f a ->
    let v := pairval (hi a) (lo a) in
    normal_fields a f =
      (split128 (frac_of v), if 2 ^ (prec_of f - 1) <=? v then exp a + (prec_of f - 1) + emax_of f else 0).
  Proof using Hf.
    intros Ca Hc v. unfold canonical in Hc. rewrite Ca in Hc.
    destruct Hc as (Hh & Hl & Hv & Hq & Hn & He). fold v in Hv, Hn.
    pose proof layout_wf as [Hp Heb]. pose proof (pairval_range _ _ Hh Hl).
    unfold normal_fields. rewrite u128_bitlen_spec by done. fold v.
    pose proof (bitlen_pos v ltac:(lia)). destruct (Z.ltb_spec 0 (bitlen v)); [|lia].
    destruct (Z.leb_spec (2 ^ (prec_of f - 1)) v) as [L|L].
    - assert (Eb : bitlen v = prec_of f) by (apply bitlen_unique; lia). rewrite Eb.
      destruct (Z.ltb_spec (exp a + (prec_of f - 1)) (emin_of f)); [unfold qmin in *; lia|].
      destruct (Z.ltb_spec (prec_of f - 1) (prec_of f - 1)); [lia|].
      cbv beta iota. unfold frac_of. destruct prec_cases as [(Ex & Ep & _)|(Ex & Ep)]; rewrite Ex; cbn [negb].
      + unfold v. by rewrite split128_pairval.
      + replace fb with (prec_of f - 1) by lia. unfold v.
        rewrite <- (drop_implicit (hi a) (lo a) (prec_of f - 1)); try done; [|lia|].
        * by destruct (64 <=? prec_of f - 1).
        * replace (prec_of f - 1 + 1) with (prec_of f) by lia. fold v. lia.
    - assert (Hqe : exp a = qmin f) by (destruct Hn; [lia|done]).
      pose proof (bitlen_le v (prec_of f - 1) ltac:(lia) ltac:(lia)).
      destruct (Z.ltb_spec (exp a + (bitlen v - 1)) (emin_of f)); [|unfold qmin in *; lia].
      fold (qmin f). destruct (Z.ltb_spec (qmin f) (exp a)); [lia|].
      destruct (Z.ltb_spec (exp a) (qmin f)); [lia|]. cbv beta iota.
      unfold frac_of. destruct prec_cases as [(Ex & Ep & _)|(Ex & Ep)]; rewrite Ex.
      + unfold v. by rewrite split128_pairval.
      + rewrite Z.mod_small; [unfold v; by rewrite split128_pairval|].
        replace fb with (prec_of f - 1) by lia. lia.
  Qed.

  (** The fields of any canonical value fit their places. *)
Lemma fields_fit a :
    canonical f a ->
    let '(h, l, biased) := fields_of a f in
    is_u64 h /\ is_u64 l /\ pairval h l < 2 ^ fb /\ 0 <= biased < 2 ^ eb.
  Proof using Hf.
    intros Hc. pose proof Hf as (E & Ht & Hfb & Heb & Hx & H64).
    destruct emax_val as (Em & E2 & E16). pose proof layout_wf as [Hp _].
    assert (Z0 : is_u64 0) by (unfold is_u64; lia).
    assert (S1 : forall k, 0 <= k < 64 -> is_u64 (1 <<64 k) /\ 1 <<64 k = 2 ^ k).
    { intros k Hk. split; [apply u64_range|]. rewrite Z.shiftl_1_l. apply u64_small.
      pose proof (pow2_lt k 64). pose proof (pow2_pos k). unfold is_u64. lia. }
    unfold fields_of. destruct (cls a) eqn:Ca.
    - split_and!; try done; change (pairval 0 0) with 0; apply pow2_pos; lia.
    - pose proof (normal_fields_canonical a Ca Hc) as N. cbv zeta in N. rewrite N.
      unfold canonical in Hc. rewrite Ca in Hc. destruct Hc as (Hh & Hl & Hv & Hq & Hn & He).
      set (v := pairval (hi a) (lo a)) in *.
      assert (Hfr : 0 <= frac_of v < 2 ^ fb).
      { unfold frac_of. destruct prec_cases as [(Ex & Ep & _)|(Ex & Ep)]; rewrite Ex; [rewrite <- Ep; lia|].
        apply Z.mod_pos_bound, pow2_pos. lia. }
      pose proof (pow2_le fb 128 ltac:(lia)).
      destruct (split128 (frac_of v)) as [h l] eqn:Es. apply split128_inv in Es as (? & ? & Ev); [|lia].
      split_and!; try done; [lia| |].
      + destruct (_ <=? v); [unfold qmin, emin_of in *|]; lia.
      + destruct (_ <=? v); lia.
    - rewrite (Z.shiftl_1_l eb). destruct (explicit_intbit f) eqn:Ex.
      + rewrite (Hx eq_refl). destruct (S1 (64 - 1)) as [A B]; [lia|].
        split_and!; try done; try lia.
      + split_and!; try done; try lia. change (pairval 0 0) with 0. apply pow2_pos. lia.
    - rewrite (Z.shiftl_1_l eb). destruct (explicit_intbit f) eqn:Ex.
      + rewrite (Hx eq_refl). split_and!; try done; try lia.
      + destruct (Z.ltb_spec 64 fb).
        * destruct (S1 (fb - 64 - 1)) as [A B]; [lia|]. split_and!; try done; try lia. rewrite B.
          unfold pairval. rewrite Z.add_0_r, <- Z.pow_add_r by lia. apply pow2_lt; lia.
        * assert (fb - 1 < 64) by lia. destruct (S1 (fb - 1)) as [A B]; [lia|].
          split_and!; try done; try lia. rewrite B. unfold pairval. rewrite Z.mul_0_l, Z.add_0_l.
          apply pow2_lt; lia.
  Qed.
End canonical.

Lemma mkSf_eta (a : Sf) : cls a = SF_NORMAL -> mkSf (sign a) SF_NORMAL (exp a) (hi a) (lo a) = a.
Proof. destruct a. simpl. by intros ->. Qed.

Section roundtrip.
  Context (f : SfFormat) (Hf : wf_layout f).
  #[local] Notation "'fb'" := (frac_bits f).
  #[local] Notation "'eb'" := (exp_bits f).

Lemma shl_one k : 0 <= k < 64 -> 1 <<64 k = 2 ^ k.
  Proof using.
    intros Hk. rewrite Z.shiftl_1_l. apply u64_small.
    pose proof (pow2_lt k 64). pose proof (pow2_pos k). unfold is_u64. lia.
  Qed.

  (** Putting the implicit bit back. *)
Lemma add_implicit h l k v :
    is_u64 h -> is_u64 l -> 0 <= k <= 127 -> 2 ^ k <= v < 2 ^ (k + 1) -> pairval h l = v mod 2 ^ k ->
    (if 64 <=? k then (h |64 (1 <<64 (k - 64)), l) else (h, l |64 (1 <<64 k))) = split128 v.
  Proof using.
    intros Hh Hl Hk Hv E. pose proof (pow2_pos k ltac:(lia)) as Hp.
    assert (Ev : v = pairval h l + 2 ^ k).
    { rewrite E. rewrite Z.pow_add_r in Hv by lia. change (2 ^ 1) with 2 in Hv.
      rewrite <- (Z.mod_unique v (2 ^ k) 1 (v - 2 ^ k)); lia. }
    pose proof (Z.mod_pos_bound v (2 ^ k) Hp) as R. rewrite <- E in R.
    destruct (Z.leb_spec 64 k).
    - rewrite shl_one by lia. pose proof (pow2_pos (k - 64) ltac:(lia)).
      replace (2 ^ k) with (2 ^ (k - 64) * 2 ^ 64) in * by (rewrite <- Z.pow_add_r by lia; f_equal; lia).
      assert (Hh' : h < 2 ^ (k - 64)) by (unfold pairval, is_u64 in *; nia).
      rewrite Z.lor_comm, (lor_add_disjoint h _ (k - 64)); [|lia|unfold is_u64 in *; lia|apply Z.mod_same; lia].
      apply split128_unique; [done|]. unfold pairval in *. lia.
    - pose proof (pow2_le k 63 ltac:(lia)).
      assert (h = 0) as -> by (unfold pairval, is_u64 in *; lia).
      unfold pairval in *. rewrite Z.mul_0_l, Z.add_0_l in *.
      rewrite shl_one by lia.
      rewrite Z.lor_comm, (lor_add_disjoint l _ k); [|lia|unfold is_u64 in *; lia|apply Z.mod_same; lia].
      apply split128_unique; [unfold is_u64 in *; lia|]. unfold pairval. lia.
  Qed.

Lemma lor_zero h l : is_u64 h -> is_u64 l -> (h |64 l =? 0) = (pairval h l =? 0).
  Proof using.
    intros. unfold pairval. destruct (Z.eqb_spec (h |64 l) 0) as [E|E].
    - apply Z.lor_eq_0_iff in E as [-> ->]. done.
    - symmetry. apply Z.eqb_neq. intros E'. apply E, Z.lor_eq_0_iff. unfold is_u64 in *. lia.
  Qed.

Lemma intbit_set v h l :
    is_u64 h -> is_u64 l -> pairval h l = v -> 2 ^ 63 <= v < 2 ^ 64 ->
    (l &64 (1 <<64 63) =? 0) = false.
  Proof using.
    intros Hh Hl E Hv. rewrite shl_one, land_pow2 by lia.
    assert (h = 0 /\ l = v) as [-> ->] by (unfold pairval, is_u64 in *; lia).
    rewrite testbit_63 by done. destruct (Z.leb_spec (2 ^ 63) v); [|lia]. apply Z.eqb_neq. lia.
  Qed.

Lemma decode_fields a :
    canonical f a ->
    let '(h, l, biased) := fields_of a f in decode f h l biased (sign a) = a.
  Proof using Hf.
    intros Hc. pose proof Hf as (E & Ht & Hfb & Heb & Hx & H64).
    destruct (emax_val f Hf) as (Em & E2 & E16). pose proof (layout_wf f Hf) as [Hp _].
    unfold fields_of. destruct (cls a) eqn:Ca.
    - unfold canonical in Hc. rewrite Ca in Hc. rewrite Hc at 2. unfold decode.
      rewrite Z.shiftl_1_l. destruct (Z.eqb_spec 0 (2 ^ eb - 1)); [lia|]. done.
    - pose proof (normal_fields_canonical f Hf a Ca Hc) as N. cbv zeta in N. rewrite N. clear N.
      unfold canonical in Hc. rewrite Ca in Hc. destruct Hc as (Hh & Hl & Hv & Hq & Hn & He).
      set (v := pairval (hi a) (lo a)) in *. pose proof (pow2_pos fb ltac:(lia)).
      pose proof (pow2_le (prec_of f) 127 ltac:(lia)).
      assert (Hfr : 0 <= frac_of f v < 2 ^ 128 /\ (v < 2 ^ (prec_of f - 1) -> frac_of f v = v)).
      { unfold frac_of. destruct (prec_cases f Hf) as [(Ex & Ep & _)|(Ex & Ep)]; rewrite Ex; [lia|].
        pose proof (Z.mod_pos_bound v (2 ^ fb)). pose proof (pow2_le fb 127).
        split; [lia|]. intros. apply Z.mod_small. replace fb with (prec_of f - 1) by lia. lia. }
      destruct (split128 (frac_of f v)) as [h l] eqn:Es. pose proof Es as Es'.
      apply split128_inv in Es as (Hh' & Hl' & Ev); [|lia].
      unfold decode. rewrite Z.shiftl_1_l, lor_zero by done.
      destruct (Z.leb_spec (2 ^ (prec_of f - 1)) v) as [L|L].
      + set (biased := exp a + (prec_of f - 1) + emax_of f).
        assert (Hb : 1 <= biased <= 2 * emax_of f) by (unfold biased, qmin, emin_of in *; lia).
        destruct (Z.eqb_spec biased (2 ^ eb - 1)); [lia|]. destruct (Z.eqb_spec biased 0); [lia|].
        cbn [andb negb]. rewrite andb_true_r.
        assert (Er : biased - emax_of f - (prec_of f - 1) = exp a) by (unfold biased; lia). rewrite Er.
        destruct (prec_cases f Hf) as [(Ex & Ep & E64)|(Ex & Ep)]; rewrite Ex; cbn [andb negb].
        * unfold frac_of in Ev. rewrite Ex in Ev. rewrite E64. change (64 - 1) with 63.
          rewrite (intbit_set v h l Hh' Hl' Ev); [|rewrite Ep, E64 in *; change (64 - 1) with 63 in *; lia].
          assert (h = hi a /\ l = lo a) as [-> ->] by (apply pairval_inj; done).
          by apply mkSf_eta.
        * unfold frac_of in Ev. rewrite Ex in Ev.
          pose proof (add_implicit h l (prec_of f - 1) v Hh' Hl' ltac:(lia)) as A.
          replace (prec_of f - 1 + 1) with (prec_of f) in A by lia.
          replace fb with (prec_of f - 1) in Ev by lia.
          rewrite (A ltac:(lia) Ev). unfold v. rewrite split128_pairval by done.
          by apply mkSf_eta.
      + destruct Hn as [Hn|Hn]; [lia|].
        destruct (Z.eqb_spec 0 (2 ^ eb - 1)); [lia|]. rewrite Z.eqb_refl.
        destruct Hfr as [_ Hfr]. rewrite (Hfr L) in Ev. rewrite Ev.
        destruct (Z.eqb_spec v 0); [lia|]. cbn [andb negb]. rewrite !andb_false_r. cbn [andb].
        fold (qmin f). rewrite <- Hn.
        assert (h = hi a /\ l = lo a) as [-> ->] by (apply pairval_inj; done).
        by apply mkSf_eta.
    - unfold canonical in Hc. rewrite Ca in Hc. rewrite Hc at 2. unfold decode. rewrite Z.eqb_refl.
      destruct (explicit_intbit f); [|done]. by rewrite !Z.eqb_refl.
    - unfold canonical in Hc. rewrite Ca in Hc.
      destruct (explicit_intbit f) eqn:Ex; [|destruct (64 <? fb) eqn:F];
        rewrite Hc at 2; unfold decode; rewrite Ex, Z.eqb_refl.
      + rewrite (Hx eq_refl). vm_compute. done.
      + apply Z.ltb_lt in F. rewrite shl_one, Z.lor_0_r by lia. pose proof (pow2_pos (fb - 64 - 1)).
        destruct (Z.eqb_spec (2 ^ (fb - 64 - 1)) 0); [lia|done].
      + apply Z.ltb_ge in F. rewrite shl_one, Z.lor_0_l by lia. pose proof (pow2_pos (fb - 1)).
        destruct (Z.eqb_spec (2 ^ (fb - 1)) 0); [lia|done].
  Qed.

Lemma packed_fields frac biased sg :
    0 <= frac < 2 ^ fb -> 0 <= biased < 2 ^ eb ->
    let W := packed f frac biased sg in
    W mod 2 ^ fb = frac /\ (W / 2 ^ fb) mod 2 ^ eb = biased /\ Z.testbit W (fb + eb) = sg.
  Proof using Hf.
    intros H1 H2 W. pose proof Hf as (_ & _ & ? & ? & _).
    assert (T : Z.testbit W (fb + eb) = sg).
    { unfold W. rewrite packed_testbit by (done || lia).
      destruct (Z.ltb_spec (fb + eb) fb); [lia|]. destruct (Z.ltb_spec (fb + eb) (fb + eb)); [lia|].
      by rewrite Z.eqb_refl. }
    split; [|split; [|exact T]]; unfold W, packed.
    - rewrite Z.mul_comm, Z.mod_add by (apply Z.pow_nonzero; lia). by apply Z.mod_small.
    - pose proof (pow2_pos fb ltac:(lia)).
      rewrite (Z.mul_comm (2 ^ fb)), Z.div_add, Z.div_small, Z.add_0_l by lia.
      rewrite Z.mul_comm, Z.mod_add by (apply Z.pow_nonzero; lia). by apply Z.mod_small.
  Qed.

Lemma bits_roundtrip a : canonical f a -> sf_from_bits (sf_to_bits a f) f = a.
  Proof using Hf.
    intros Hc. pose proof (fields_fit f Hf a Hc) as Fit. pose proof (decode_fields a Hc) as D.
    destruct (fields_of a f) as [[h l] biased] eqn:Ef. destruct Fit as (Hh & Hl & Hv & Hb).
    destruct (to_bits_packed f Hf a h l biased Ef Hh Hl Hv Hb) as [Ok EW].
    rewrite (from_bits_packed f Hf _ Ok), EW.
    pose proof (pairval_range h l Hh Hl).
    destruct (packed_fields (pairval h l) biased (sign a) ltac:(lia) Hb) as (-> & -> & ->).
    by rewrite split128_pairval.
  Qed.
End roundtrip.

(** ** Canonical images *)

(** The field contents that denote a finite number, zero or infinity: on x87
    the stored integer bit must agree with the exponent (no pseudo-denormal,
    no unnormal), and an infinity has no payload. *)
Definition valid_fields (f : SfFormat) (frac biased : Z) : Prop :=
  (biased < 2 ^ exp_bits f - 1 /\
   (explicit_intbit f = true -> (biased = 0 <-> frac < 2 ^ 63))) \/
  (biased = 2 ^ exp_bits f - 1 /\ frac = if explicit_intbit f then 2 ^ 63 else 0).

Section images.
  Context (f : SfFormat) (Hf : wf_layout f).
  #[local] Notation "'fb'" := (frac_bits f).
  #[local] Notation "'eb'" := (exp_bits f).

  (** The significand a normal field denotes. *)
Definition sig_of (frac biased : Z) : Z :=
    if biased =? 0 then frac else if explicit_intbit f then frac else frac + 2 ^ fb.
Definition exp_of (biased : Z) : Z :=
    if biased =? 0 then qmin f else biased - emax_of f - (prec_of f - 1).

Lemma decode_normal h l biased sg :
    is_u64 h -> is_u64 l -> pairval h l < 2 ^ fb -> 0 <= biased < 2 ^ eb - 1 ->
    valid_fields f (pairval h l) biased -> ~ (biased = 0 /\ pairval h l = 0) ->
    exists h' l', decode f h l biased sg = mkSf sg SF_NORMAL (exp_of biased) h' l' /\
      is_u64 h' /\ is_u64 l' /\ pairval h' l' = sig_of (pairval h l) biased.
  Proof using Hf.
    intros Hh Hl Hv Hb Hvf Hnz. pose proof Hf as (E & Ht & Hfb & Heb & Hx & H64).
    pose proof (pairval_range h l Hh Hl). set (v := pairval h l) in *.
    destruct Hvf as [[_ Hxi]|[Hb' _]]; [|lia].
    unfold decode, exp_of, sig_of. rewrite Z.shiftl_1_l, lor_zero by done. fold v.
    destruct (Z.eqb_spec biased (2 ^ eb - 1)); [lia|].
    destruct (Z.eqb_spec biased 0) as [->|Hb0]; cbn [andb negb].
    { destruct (Z.eqb_spec v 0); [tauto|]. rewrite andb_false_r. cbn [andb]. by exists h, l. }
    destruct (prec_cases f Hf) as [(Ex & Ep & E64)|(Ex & Ep)]; rewrite Ex; cbn [andb negb].
    - specialize (Hxi Ex). rewrite E64 in *. change (64 - 1) with 63.
      rewrite (intbit_set v h l Hh Hl eq_refl) by lia. by exists h, l.
    - pose proof (pow2_pos fb ltac:(lia)).
      assert (Em : pairval h l = (v + 2 ^ fb) mod 2 ^ (prec_of f - 1)).
      { replace (prec_of f - 1) with fb by lia. fold v.
        apply Z.mod_unique with 1; lia. }
      pose proof (add_implicit h l (prec_of f - 1) (v + 2 ^ fb) Hh Hl ltac:(lia)) as A.
      rewrite A; [|replace (prec_of f - 1 + 1) with (fb + 1) by lia;
        replace (prec_of f - 1) with fb by lia; rewrite Z.pow_add_r; lia|done].
      pose proof (pow2_le fb 112 ltac:(lia)).
      destruct (split128 (v + 2 ^ fb)) as [h' l'] eqn:Es.
      apply split128_inv in Es as (? & ? & ?); [|lia]. by exists h', l'.
  Qed.

Lemma decode_canonical h l biased sg :
    is_u64 h -> is_u64 l -> pairval h l < 2 ^ fb -> 0 <= biased < 2 ^ eb ->
    valid_fields f (pairval h l) biased ->
    let a := decode f h l biased sg in
    canonical f a /\ fields_of a f = (h, l, biased) /\ sign a = sg.
  Proof using Hf.
    intros Hh Hl Hv Hb Hvf. pose proof Hf as (E & Ht & Hfb & Heb & Hx & H64).
    pose proof (pairval_range h l Hh Hl).
    destruct (emax_val f Hf) as (Em & E2 & E16).
    assert (Z0 : is_u64 0) by (unfold is_u64; lia).
    destruct (Z.eq_dec biased (2 ^ eb - 1)) as [Hinf|Hfin].
    - destruct Hvf as [[? _]|[_ Hfr]]; [lia|]. unfold decode.
      rewrite (Z.shiftl_1_l eb), Hinf, Z.eqb_refl. destruct (explicit_intbit f) eqn:Ex.
      + rewrite (Hx eq_refl). change (64 - 1) with 63. rewrite shl_one by lia.
        assert (h = 0 /\ l = 2 ^ 63) as [-> ->] by (unfold pairval, is_u64 in *; lia).
        rewrite !Z.eqb_refl. cbn [andb]. split; [done|]. split; [|done].
        unfold fields_of. cbn [cls special]. rewrite Ex, (Hx eq_refl), (Z.shiftl_1_l eb). done.
      + assert (h = 0 /\ l = 0) as [-> ->] by (apply pairval_inj; done).
        cbn. split; [done|]. split; [|done]. unfold fields_of. cbn [cls special].
        rewrite Ex, (Z.shiftl_1_l eb). done.
    - destruct (decide (biased = 0 /\ pairval h l = 0)) as [[-> Hz]|Hnz].
      + assert (h = 0 /\ l = 0) as [-> ->] by (apply pairval_inj; done).
        unfold decode. rewrite Z.shiftl_1_l. destruct (Z.eqb_spec 0 (2 ^ eb - 1)); [lia|].
        cbn. done.
      + destruct (decode_normal h l biased sg) as (h' & l' & D & Hh' & Hl' & Ev); try done; [lia|].
        cbv zeta. rewrite D. pose proof (layout_wf f Hf) as [Hp _].
        set (v := pairval h l) in *. set (w := sig_of v biased) in *.
        pose proof (pow2_pos fb ltac:(lia)) as Hfbp.
        destruct Hvf as [[_ Hxi]|[? _]]; [|lia].
        assert (Hw : 0 < w < 2 ^ prec_of f /\ (biased = 0 <-> w < 2 ^ (prec_of f - 1)) /\ frac_of f w = v).
        { unfold w, sig_of, frac_of.
          destruct (prec_cases f Hf) as [(Ex & Ep & E64)|(Ex & Ep)]; rewrite Ex.
          - specialize (Hxi Ex). rewrite Ep, E64 in *. change (64 - 1) with 63.
            destruct (Z.eqb_spec biased 0); (split; [|split; [|done]]); lia.
          - replace (prec_of f - 1) with fb by lia. rewrite Ep, Z.pow_add_r by lia.
            change (2 ^ 1) with 2. destruct (Z.eqb_spec biased 0).
            + split; [lia|]. split; [lia|]. apply Z.mod_small. lia.
            + split; [lia|]. split; [lia|]. symmetry. apply Z.mod_unique with 1; lia. }
        destruct Hw as (Hw & Hsub & Hfrac).
        assert (Hc : canonical f (mkSf sg SF_NORMAL (exp_of biased) h' l')).
        { unfold canonical. cbn [cls hi lo exp]. rewrite Ev. unfold exp_of.
          split; [done|]. split; [done|]. split; [done|].
          destruct (Z.eqb_spec biased 0) as [Hb0|Hb0]; unfold qmin, emin_of; lia. }
        split; [exact Hc|]. split; [|done]. unfold fields_of. cbn [cls].
        rewrite (normal_fields_canonical f Hf (mkSf sg SF_NORMAL (exp_of biased) h' l') eq_refl Hc).
        cbn [hi lo exp]. rewrite Ev, Hfrac.
        unfold v. rewrite split128_pairval by done. f_equal. unfold exp_of.
        destruct (Z.leb_spec (2 ^ (prec_of f - 1)) w), (Z.eqb_spec biased 0); lia.
  Qed.

Lemma image_roundtrip bs frac biased sg :
    image_ok bs -> le_bytes bs = packed f frac biased sg ->
    0 <= frac < 2 ^ fb -> 0 <= biased < 2 ^ eb -> valid_fields f frac biased ->
    canonical f (sf_from_bits bs f) /\ sf_to_bits (sf_from_bits bs f) f = bs.
  Proof using Hf.
    intros Hok EW Hfr Hb Hvf. pose proof Hf as (E & Ht & Hfb & Heb & Hx & H64).
    rewrite (from_bits_packed f Hf bs Hok), EW.
    destruct (packed_fields f Hf frac biased sg Hfr Hb) as (-> & -> & ->).
    pose proof (pow2_le fb 112 ltac:(lia)).
    destruct (split128 frac) as [h l] eqn:Es. apply split128_inv in Es as (Hh & Hl & Ev); [|lia].
    rewrite <- Ev in Hfr, Hvf, EW.
    destruct (decode_canonical h l biased sg Hh Hl (proj2 Hfr) Hb Hvf) as (Hc & Ef & Es).
    split; [exact Hc|]. set (a := decode f h l biased sg) in *.
    destruct (to_bits_packed f Hf a h l biased Ef Hh Hl (proj2 Hfr) Hb) as [Ok EW'].
    apply le_bytes_inj; [exact Ok|exact Hok|]. by rewrite EW', EW, Es.
  Qed.

  (** Without an explicit integer bit every image decodes to a canonical
      value, NaNs losing their payload. *)
Lemma from_bits_canonical bs :
    explicit_intbit f = false -> image_ok bs -> canonical f (sf_from_bits bs f).
  Proof using Hf.
    intros Ex Hok. pose proof Hf as (E & Ht & Hfb & Heb & Hx & H64).
    rewrite (from_bits_packed f Hf bs Hok). set (W := le_bytes bs).
    pose proof (Z.mod_pos_bound W (2 ^ fb) ltac:(apply pow2_pos; lia)) as Hfr.
    pose proof (Z.mod_pos_bound (W / 2 ^ fb) (2 ^ eb) ltac:(apply pow2_pos; lia)) as Hb.
    pose proof (pow2_le fb 112 ltac:(lia)).
    destruct (split128 (W mod 2 ^ fb)) as [h l] eqn:Es.
    apply split128_inv in Es as (Hh & Hl & Ev); [|lia]. rewrite <- Ev in Hfr.
    set (biased := (W / 2 ^ fb) mod 2 ^ eb) in *.
    destruct (decide (biased = 2 ^ eb - 1 /\ pairval h l <> 0)) as [[Hi Hn]|Hn].
    - unfold decode. rewrite Hi, Z.shiftl_1_l, Z.eqb_refl, Ex, lor_zero by done.
      by destruct (Z.eqb_spec (pairval h l) 0).
    - apply decode_canonical; try done; [lia|].
      destruct (Z.eq_dec biased (2 ^ eb - 1)) as [Hi|Hi]; [right|left].
      + split; [done|]. rewrite Ex. destruct (Z.eq_dec (pairval h l) 0); tauto.
      + split; [lia|]. by rewrite Ex.
  Qed.
End images.

(** ** What the arithmetic returns is canonical *)
Lemma ieee_round_canonical f sg x :
  wf_format f -> (0 < x)%Q -> canonical f (ieee_round f sg x).
Proof.
  intros Hf Hx. pose proof Hf as [Hp He]. unfold ieee_round.
  pose proof (raw_sig_range f x Hf Hx) as R.
  assert (Q : qmin f <= quantum f x) by (unfold quantum; lia).
  assert (N : quantum f x = qmin f \/ 2 ^ (prec_of f - 1) <= raw_sig f x).
  { destruct (Z.eq_dec (quantum f x) (qmin f)) as [|Hne]; [by left|right].
    assert (Eq : quantum f x = qlen x - prec_of f) by (unfold quantum in *; lia).
    by apply raw_sig_normal. }
  pose proof (pow2_lt (prec_of f - 1) (prec_of f) ltac:(lia) ltac:(lia)).
  pose proof (pow2_le (prec_of f) 126 ltac:(lia)). pose proof (pow2_pos (prec_of f - 1) ltac:(lia)).
  unfold overflows, carried.
  destruct (Z.eqb_spec (raw_sig f x) (2 ^ prec_of f)) as [E|E]; cbn [snd].
  - destruct (Z.ltb_spec (emax_of f) (quantum f x + 1 + (prec_of f - 1))); [done|].
    destruct (Z.eqb_spec (2 ^ (prec_of f - 1)) 0); [done|].
    destruct (split128 _) as [h l] eqn:S. apply split128_inv in S as (Hh & Hl & V); [|lia].
    unfold canonical. cbn [cls hi lo exp]. rewrite V. split_and!; try done; lia.
  - destruct (Z.ltb_spec (emax_of f) (quantum f x + (prec_of f - 1))); [done|].
    destruct (Z.eqb_spec (raw_sig f x) 0); [done|].
    destruct (split128 _) as [h l] eqn:S. apply split128_inv in S as (Hh & Hl & V); [|lia].
    unfold canonical. cbn [cls hi lo exp]. rewrite V. split_and!; try done; lia.
Qed.

(** Rounding a canonical value gives it back. *)
Lemma canonical_fixpoint f a :
  wf_format f -> cls a = SF_NORMAL -> canonical f a -> ieee_round f (sign a) (mag a) = a.
Proof.
  intros Hf Ca Hc. pose proof Hf as [Hp He]. unfold canonical in Hc. rewrite Ca in Hc.
  destruct Hc as (Hh & Hl & Hv & Hq & Hn & He').
  pose proof (bitlen_spec _ (proj1 Hv)) as [B1 B2]. pose proof (bitlen_pos _ (proj1 Hv)).
  set (v := pairval (hi a) (lo a)) in *.
  assert (El : qlen (mag a) = bitlen v + exp a).
  { unfold mag. fold v. rewrite qlen_scale.
    - f_equal. apply exact_qlen with false; [lia|apply exact_of_Z].
    - change 0%Q with (inject_Z 0). rewrite <- Zlt_Qlt. lia. }
  pose proof (bitlen_le v (prec_of f) ltac:(lia) ltac:(lia)).
  assert (Eq : quantum f (mag a) = exp a).
  { unfold quantum. rewrite El. destruct Hn as [Hn|Hn]; [|lia].
    assert (bitlen v = prec_of f) by (apply bitlen_unique; lia). lia. }
  assert (Er : raw_sig f (mag a) = v).
  { unfold raw_sig. rewrite Eq. transitivity (rne (inject_Z v)).
    - apply rne_proper. unfold mag. fold v. rewrite <- Qmult_assoc, pow2_opp. ring.
    - unfold rne, rne_div, inject_Z. cbn [Qnum Qden]. rewrite Z.mod_1_r, Z.div_1_r. done. }
  unfold ieee_round, overflows, carried. rewrite Er, Eq.
  destruct (Z.eqb_spec v (2 ^ prec_of f)); [lia|]. cbn [snd].
  destruct (Z.ltb_spec (emax_of f) (exp a + (prec_of f - 1))); [lia|].
  destruct (Z.eqb_spec v 0); [lia|]. unfold v. rewrite split128_pairval by done. by apply mkSf_eta.
Qed.

Lemma rounded_canonical f sg x st :
  wf_format f -> (0 < x)%Q -> canonical f (rounded f sg x st).1.
Proof.
  intros Hf Hx. unfold rounded. cbn [fst].
  destruct (is_cls SF_ZERO (ieee_round f sg x) && _); [done|by apply ieee_round_canonical].
Qed.

(** ** Properties of the code *)

(** C37. Encoding then decoding is the identity on every value the rounding
    routine returns, in each of the five layouts: subnormals, infinities, the
    signed zeros and the canonical NaN included. *)
Theorem sf_bits_value_roundtrip f :
  wf_layout f ->
  (forall a, canonical f a -> sf_from_bits (sf_to_bits a f) f = a) /\
  (forall sg h l e sticky st x,
     is_u64 h -> is_u64 l -> 0 < pairval h l ->
     exact (x * pow2 (- e)) (pairval h l) sticky ->
     (sticky = true -> prec_of f < bitlen (pairval h l)) ->
     let r := (round_pack sg h l e sticky f st).1 in
     canonical f r /\ sf_from_bits (sf_to_bits r f) f = r).
Proof.
  intros Hf. split; [exact (bits_roundtrip f Hf)|]. intros sg h l e sticky st x Hh Hl Hv Hx Hs r.
  pose proof (layout_wf f Hf) as Wf.
  assert (R : round_pack sg h l e sticky f st = rounded f sg x st).
  { apply round_pack_rounds with (x * pow2 (- e))%Q; try done. apply unscale. }
  assert (Hx0 : (0 < x)%Q).
  { apply exact_range in Hx as [L _]. rewrite Zlt_Qlt in Hv. change (inject_Z 0) with 0%Q in Hv.
    pose proof (pow2_gt0 (- e)). destruct (Qlt_le_dec 0 x) as [|N]; [done|].
    exfalso. apply (Qlt_not_le _ _ Hv). eapply Qle_trans; [exact L|].
    rewrite <- (Qmult_0_l (pow2 (- e))). apply Qmult_le_compat_r; [done|by apply Qlt_le_weak]. }
  assert (C : canonical f r) by (unfold r; rewrite R; by apply rounded_canonical).
  split; [exact C|by apply bits_roundtrip].
Qed.

Lemma sf_bits_value_witness :
  let a := mkSf true SF_NORMAL (-1074) 0 5 in
  canonical SF_BINARY64 a /\ sf_from_bits (sf_to_bits a SF_BINARY64) SF_BINARY64 = a.
Proof.
  intros a. assert (C : canonical SF_BINARY64 a).
  { unfold canonical, a. cbn [cls hi lo exp]. change (qmin SF_BINARY64) with (-1074).
    change (prec_of SF_BINARY64) with 53. change (emax_of SF_BINARY64) with 1023.
    split_and!; unfold is_u64, pairval; try lia. }
  split; [exact C|]. exact (proj1 (sf_bits_value_roundtrip SF_BINARY64 layout_binary64) a C).
Defined.

(** Decoding then encoding is the identity on every image of a finite
    number, zero or infinity with the integer bit x87 requires; the decoded
    value is canonical, and the three fields of any value are written at their
    places, so that the image read as an integer is
    [frac + 2^frac_bits * (biased + 2^exp_bits * sign)]. *)
Theorem sf_bits_image_roundtrip f bs frac biased sg :
  wf_layout f -> image_ok bs -> le_bytes bs = packed f frac biased sg ->
  0 <= frac < 2 ^ frac_bits f -> 0 <= biased < 2 ^ exp_bits f -> valid_fields f frac biased ->
  canonical f (sf_from_bits bs f) /\
  sf_to_bits (sf_from_bits bs f) f = bs /\
  sign (sf_from_bits bs f) = sg.
Proof.
  intros Hf Hok EW Hfr Hb Hvf.
  destruct (image_roundtrip f Hf bs frac biased sg Hok EW Hfr Hb Hvf) as [C R].
  split; [exact C|]. split; [exact R|].
  pose proof (fields_fit f Hf _ C) as Fit.
  destruct (fields_of (sf_from_bits bs f) f) as [[h l] b] eqn:Ef.
  destruct Fit as (Hh & Hl & Hv & Hb2).
  destruct (to_bits_packed f Hf _ h l b Ef Hh Hl Hv Hb2) as [_ E]. rewrite R, EW in E.
  pose proof (pairval_range h l Hh Hl).
  destruct (packed_fields f Hf frac biased sg Hfr Hb) as (_ & _ & <-).
  rewrite E. symmetry. apply packed_fields; (done || lia).
Qed.

Lemma sf_bits_image_witness :
  (* the binary32 image 0xC0490FDB of -3.1415927 *)
  let bs := [0xDB; 0x0F; 0x49; 0xC0; 0; 0; 0; 0; 0; 0; 0; 0; 0; 0; 0; 0] in
  sf_to_bits (sf_from_bits bs SF_BINARY32) SF_BINARY32 = bs.
Proof.
  intros bs. assert (Ok : image_ok bs).
  { split; [reflexivity|]. intros i Hi. do 16 (destruct i as [|i]; [unfold byte_ok; simpl; lia|]). lia. }
  assert (V : valid_fields SF_BINARY32 0x490FDB 128) by (left; split; [reflexivity|discriminate]).
  assert (E : le_bytes bs = packed SF_BINARY32 0x490FDB 128 true) by reflexivity.
  exact (proj1 (proj2 (sf_bits_image_roundtrip SF_BINARY32 bs 0x490FDB 128 true layout_binary32 Ok E
    ltac:(simpl; lia) ltac:(simpl; lia) V))).
Defined.
