(* ===== verification/SoftfpCanon.v ===== *)
(** What the arithmetic returns is canonical, so that its image decodes to it
    again: shared by the binary128 runtime and the constant folder. *)
From Stdlib Require Import QArith Qround Qabs Lqa.
From S2P Require Import Prelude.
From S2P Require Import Softfp.
From S2P Require Import SoftfpRound.
From S2P Require Import SoftfpArith.
From S2P Require Import SoftfpConv.
From S2P Require Import SoftfpBits.
#[local] Open Scope Z_scope.

Lemma canonical_num f a : canonical f a -> wf_num a.
Proof. intros H E. unfold canonical in H. rewrite E in H. split_and!; tauto. Qed.

(** ** Arithmetic results *)
Lemma round_signed_canonical f x st : wf_format f -> canonical f (round_signed f x st).1.
Proof.
  intros Hf. unfold round_signed. destruct (Qeq_bool x 0) eqn:E; [done|].
  apply rounded_canonical; [done|].
  assert (N : ~ (x == 0)%Q) by (intros T; apply Qeq_bool_iff in T; congruence).
  destruct (Qlt_le_dec 0 x); [rewrite Qabs_pos by lra; lra|].
  rewrite Qabs_neg by lra. destruct (Qlt_le_dec x 0); [lra|]. exfalso. apply N. lra.
Qed.

Lemma mag_positive f a : cls a = SF_NORMAL -> canonical f a -> (0 < mag a)%Q.
Proof. intros E H. unfold canonical in H. rewrite E in H. apply mag_pos. tauto. Qed.

Lemma ieee_add_canonical f a b st :
  wf_format f -> canonical f a -> canonical f b -> canonical f (ieee_add f a b st).1.
Proof.
  intros Hf Ha Hb. unfold ieee_add.
  destruct (cls a) eqn:Ca, (cls b) eqn:Cb; cbn [fst];
    try done; try by apply round_signed_canonical.
  by destruct (Bool.eqb (sign a) (sign b)).
Qed.

Lemma rounded_mul_canonical f a b st :
  wf_format f -> canonical f a -> canonical f b -> canonical f (rounded_mul f a b st).1.
Proof.
  intros Hf Ha Hb. unfold rounded_mul. destruct (cls a) eqn:Ca, (cls b) eqn:Cb; cbn [fst]; try done.
  apply rounded_canonical; [done|].
  pose proof (mag_positive f a Ca Ha). pose proof (mag_positive f b Cb Hb). nra.
Qed.

Lemma rounded_div_canonical f a b st :
  wf_format f -> canonical f a -> canonical f b -> canonical f (rounded_div f a b st).1.
Proof.
  intros Hf Ha Hb. unfold rounded_div. destruct (cls a) eqn:Ca, (cls b) eqn:Cb; cbn [fst]; try done.
  apply rounded_canonical; [done|].
  pose proof (mag_positive f a Ca Ha). pose proof (mag_positive f b Cb Hb).
  apply Qlt_shift_div_l; [done|]. lra.
Qed.

Lemma ieee_mul_canonical f a b st :
  wf_format f -> canonical f a -> canonical f b -> canonical f (ieee_mul f a b st).1.
Proof.
  intros Hf Ha Hb. unfold ieee_mul. destruct (cls a) eqn:Ca, (cls b) eqn:Cb; cbn [fst]; try done.
  apply ieee_round_canonical; [done|].
  pose proof (mag_positive f a Ca Ha). pose proof (mag_positive f b Cb Hb). nra.
Qed.
Lemma ieee_div_canonical f a b st :
  wf_format f -> canonical f a -> canonical f b -> canonical f (ieee_div f a b st).1.
Proof.
  intros Hf Ha Hb. unfold ieee_div. destruct (cls a) eqn:Ca, (cls b) eqn:Cb; cbn [fst]; try done.
  apply ieee_round_canonical; [done|].
  pose proof (mag_positive f a Ca Ha). pose proof (mag_positive f b Cb Hb).
  apply Qlt_shift_div_l; [done|]. lra.
Qed.

Lemma canonical_neg f a : canonical f a -> canonical f (sf_neg a).
Proof. unfold canonical, sf_neg. cbn. destruct (cls a) eqn:E; try done; intros ->; done. Qed.

