(* ===== verification/Fp128.v ===== *)
(** [src/rt/fp128.c]: the binary128 runtime entry points, on the byte images
    that cross the ABI.  Every floating carrier is the list of its bytes in
    memory order: 16 for [cgf_tf] and the x86 [long double], 8 for [double],
    4 for [float]. *)
From Stdlib Require Import QArith Qabs Lqa.
From S2P Require Import Prelude.
From S2P Require Import Softfp.
From S2P Require Import SoftfpRound.
From S2P Require Import SoftfpArith.
From S2P Require Import SoftfpConv.
From S2P Require Import SoftfpBits.
From S2P Require Import SoftfpCanon.
#[local] Open Scope Z_scope.

(** ** Carriers *)
Definition tf_in (a : list Z) : Sf := sf_from_bits a SF_BINARY128.
Definition tf_out (v : Sf) : list Z := sf_to_bits v SF_BINARY128.

Definition __cgf_seltf (condition : Z) (yes no : list Z) : list Z :=
  if negb (condition =? 0) then yes else no.

(** [memset] of the 16-byte buffer, then [memcpy] of the carrier over it. *)
Definition padded (a : list Z) : list Z := a ++ replicate (16 - length a) 0.
Definition df_in (a : list Z) : Sf := sf_from_bits (padded a) SF_BINARY64.
Definition sf_in (a : list Z) : Sf := sf_from_bits (padded a) SF_BINARY32.
Definition sf_out (v : Sf) : list Z := take 4 (sf_to_bits v SF_BINARY32).
Definition df_out (v : Sf) : list Z := take 8 (sf_to_bits v SF_BINARY64).
Definition xf_in (a : list Z) : Sf := sf_from_bits a SF_X87_80.
Definition xf_out (v : Sf) : list Z := sf_to_bits v SF_X87_80.

(** ** NaN discipline *)
Definition TF_QUIET_BYTE : nat := 13.
Definition TF_QUIET_MASK : Z := 0x80.

Definition bits_are_nan (b : list Z) : bool :=
  let exp := Z.lor (Z.shiftl (Z.land (b !!! 15%nat) 0x7f) 8) (b !!! 14%nat) in
  if negb (exp =? 0x7fff) then false
  else for_up 14 0 (fun i found => found || negb (b !!! i =? 0)) false.

Definition tf_default_nan : list Z :=
  let b := for_up 16 0 (fun i b => <[i := 0xff]> b) (replicate 16 0) in
  <[15%nat := 0x7f]> b.

Definition quieted (b : list Z) : list Z :=
  <[TF_QUIET_BYTE := Z.lor (b !!! TF_QUIET_BYTE) TF_QUIET_MASK]> b.

(** The out-parameter when the function returns true. *)
Definition nan_passthrough (a b : list Z) : option (list Z) :=
  if bits_are_nan a then Some (quieted a)
  else if bits_are_nan b then Some (quieted b)
  else None.

Definition finish (v : Sf) (a b : list Z) : list Z :=
  match nan_passthrough a b with
  | Some passthrough => passthrough
  | None => if is_cls SF_NAN v then tf_default_nan else tf_out v
  end.

(** ** Sign operations and arithmetic *)
Definition __negtf2 (a : list Z) : list Z :=
  <[15%nat := u8 (Z.lxor (a !!! 15%nat) 0x80)]> a.
Definition __cgf_abstf (a : list Z) : list Z :=
  <[15%nat := Z.land (a !!! 15%nat) 0x7f]> a.
Definition __cgf_signbittf (a : list Z) : Z := Z.land (Z.shiftr (a !!! 15%nat) 7) 1.
Definition __cgf_signbitxf (a : list Z) : Z := Z.land (Z.shiftr (a !!! 9%nat) 7) 1.

(** The status is a local the callers never read. *)
Definition __addtf3 (a b : list Z) : list Z :=
  finish (sf_add (tf_in a) (tf_in b) SF_BINARY128 no_status).1 a b.
Definition __subtf3 (a b : list Z) : list Z :=
  finish (sf_sub (tf_in a) (tf_in b) SF_BINARY128 no_status).1 a b.
Definition __multf3 (a b : list Z) : list Z :=
  finish (sf_mul (tf_in a) (tf_in b) SF_BINARY128 no_status).1 a b.
Definition __divtf3 (a b : list Z) : list Z :=
  finish (sf_div (tf_in a) (tf_in b) SF_BINARY128 no_status).1 a b.

(** ** Comparisons: the result and the [was_unordered] flag *)
Definition tf_cmp3 (a b : list Z) (unordered_result : Z) : Z * bool :=
  let '(r, unordered) := sf_cmp (tf_in a) (tf_in b) in
  if unordered then (unordered_result, true)
  else ((if r <? 0 then -1 else if 0 <? r then 1 else 0), false).

Definition __eqtf2 (a b : list Z) : Z := (tf_cmp3 a b 1).1.
Definition __netf2 (a b : list Z) : Z := (tf_cmp3 a b 1).1.
Definition __lttf2 (a b : list Z) : Z := (tf_cmp3 a b 1).1.
Definition __letf2 (a b : list Z) : Z := (tf_cmp3 a b 1).1.
Definition __gttf2 (a b : list Z) : Z := (tf_cmp3 a b (-1)).1.
Definition __getf2 (a b : list Z) : Z := (tf_cmp3 a b (-1)).1.
Definition __unordtf2 (a b : list Z) : Z :=
  if (sf_cmp (tf_in a) (tf_in b)).2 then 1 else 0.

(** ** Conversions *)
Definition __extenddftf2 (a : list Z) : list Z :=
  tf_out (sf_convert (df_in a) SF_BINARY64 SF_BINARY128 no_status).1.
Definition __extendsftf2 (a : list Z) : list Z :=
  tf_out (sf_convert (sf_in a) SF_BINARY32 SF_BINARY128 no_status).1.
Definition __trunctfdf2 (a : list Z) : list Z :=
  take 8 (sf_to_bits (sf_convert (tf_in a) SF_BINARY128 SF_BINARY64 no_status).1 SF_BINARY64).
Definition __trunctfsf2 (a : list Z) : list Z :=
  take 4 (sf_to_bits (sf_convert (tf_in a) SF_BINARY128 SF_BINARY32 no_status).1 SF_BINARY32).

Definition fix_saturating (a : list Z) (width : Z) (is_unsigned : bool) : Z :=
  let v := tf_in a in
  let '(r, st) := sf_to_int v width is_unsigned no_status in
  if negb (invalid st) then r
  else if sign v && negb (is_cls SF_NAN v) then
    if is_unsigned then 0
    else if width =? 32 then u32 (-2147483647 - 1) else 0x8000000000000000
  else if is_unsigned then (if width =? 32 then 0xffffffff else 0xffffffffffffffff)
  else if width =? 32 then 0x7fffffff else 0x7fffffffffffffff.

(** [(int)(unsigned int)x], the reading of a 32-bit pattern. *)
Definition i32 (x : Z) : Z := if u32 x <? 2 ^ 31 then u32 x else u32 x - 2 ^ 32.

Definition __fixtfsi (a : list Z) : Z := i32 (u32 (fix_saturating a 32 false)).
Definition __fixtfdi (a : list Z) : Z := i64 (fix_saturating a 64 false).
Definition __fixunstfsi (a : list Z) : Z := u32 (fix_saturating a 32 true).
Definition __fixunstfdi (a : list Z) : Z := fix_saturating a 64 true.

(** [cgf_ti]: the pair [(lo, hi)]. *)
Record cgf_ti := ti_pair { ti_lo : Z; ti_hi : Z }.
Definition ti_neg (a : cgf_ti) : cgf_ti :=
  let lo := ~64 (ti_lo a) +64 1 in
  ti_pair lo (~64 (ti_hi a) +64 b2z (lo =? 0)).

Definition fix_ti (v : Sf) (is_unsigned : bool) : cgf_ti :=
  let '(hi, lo, st) := sf_to_int128 v is_unsigned no_status in
  if negb (invalid st) then ti_pair lo hi
  else if sign v && negb (is_cls SF_NAN v) then
    if is_unsigned then ti_pair 0 0 else ti_pair 0 0x8000000000000000
  else if is_unsigned then ti_pair (~64 0) (~64 0)
  else ti_pair (~64 0) 0x7fffffffffffffff.

Definition from_ti (a : cgf_ti) (is_unsigned : bool) (f : SfFormat) : Sf :=
  let negative := negb is_unsigned && negb (ti_hi a >>64 63 =? 0) in
  let magnitude := if negative then ti_neg a else a in
  (sf_from_int128 (ti_hi magnitude) (ti_lo magnitude) negative f no_status).1.

Definition __fixsfti (a : list Z) : cgf_ti := fix_ti (sf_in a) false.
Definition __fixdfti (a : list Z) : cgf_ti := fix_ti (df_in a) false.
Definition __fixtfti (a : list Z) : cgf_ti := fix_ti (tf_in a) false.
Definition __fixunssfti (a : list Z) : cgf_ti := fix_ti (sf_in a) true.
Definition __fixunsdfti (a : list Z) : cgf_ti := fix_ti (df_in a) true.
Definition __fixunstfti (a : list Z) : cgf_ti := fix_ti (tf_in a) true.
Definition __floattisf (a : cgf_ti) : list Z := sf_out (from_ti a false SF_BINARY32).
Definition __floattidf (a : cgf_ti) : list Z := df_out (from_ti a false SF_BINARY64).
Definition __floattitf (a : cgf_ti) : list Z := tf_out (from_ti a false SF_BINARY128).
Definition __floatuntisf (a : cgf_ti) : list Z := sf_out (from_ti a true SF_BINARY32).
Definition __floatuntidf (a : cgf_ti) : list Z := df_out (from_ti a true SF_BINARY64).
Definition __floatuntitf (a : cgf_ti) : list Z := tf_out (from_ti a true SF_BINARY128).
Definition __fixxfti (a : list Z) : cgf_ti := fix_ti (xf_in a) false.
Definition __fixunsxfti (a : list Z) : cgf_ti := fix_ti (xf_in a) true.
Definition __floattixf (a : cgf_ti) : list Z := xf_out (from_ti a false SF_X87_80).
Definition __floatuntixf (a : cgf_ti) : list Z := xf_out (from_ti a true SF_X87_80).

(** Signed integers are values; the magnitude is taken in unsigned arithmetic. *)
Definition from_signed (a : Z) : list Z :=
  let mag := if a <? 0 then 0 -64 u64 a else u64 a in
  tf_out (sf_from_int mag (a <? 0) SF_BINARY128 no_status).1.
Definition __floatsitf (a : Z) : list Z := from_signed a.
Definition __floatditf (a : Z) : list Z := from_signed a.
Definition __floatunsitf (a : Z) : list Z := tf_out (sf_from_int a false SF_BINARY128 no_status).1.
Definition __floatunditf (a : Z) : list Z := tf_out (sf_from_int a false SF_BINARY128 no_status).1.

(** ** Checks against known images *)
Example three_plus_four :
  le_bytes (__addtf3 (__floatsitf 3) (__floatsitf (-4))) = 0xBFFF0000000000000000000000000000.
Proof. vm_compute. reflexivity. Qed.

Example zero_over_zero : le_bytes (__divtf3 (__floatsitf 0) (__floatsitf 0)) = 2 ^ 127 - 1.
Proof. vm_compute. reflexivity. Qed.

Example fix_half : __fixtfsi (__divtf3 (__floatsitf (-5)) (__floatsitf 2)) = -2.
Proof. vm_compute. reflexivity. Qed.

(** ** The image as an integer: the exponent field and the NaN test *)
Lemma any_nonzero_loop (bs : list Z) n :
  for_up n 0 (fun i found => found || negb (bs !!! i =? 0)) false = true <->
  exists i, (i < n)%nat /\ bs !!! i <> 0.
Proof.
  pose proof (for_up_inv (fun j found => found = true <-> exists i, (i < j)%nat /\ bs !!! i <> 0)
    (fun i found => found || negb (bs !!! i =? 0)) n 0 false) as L.
  cbv beta in L. rewrite Nat.add_0_l in L. apply L; clear L.
  - split; [done|]. intros (i & ? & _). lia.
  - intros j found _ IH. rewrite orb_true_iff, IH, negb_true_iff, Z.eqb_neq. split.
    + intros [(i & ? & ?)|?]; [exists i|exists j]; split; (done || lia).
    + intros (i & Hi & Hn). destruct (decide (i = j)) as [->|]; [by right|left].
      exists i. split; (done || lia).
Qed.

Lemma image_fields bs :
  image_ok bs ->
  let W := le_bytes bs in
  Z.lor (Z.shiftl (Z.land (bs !!! 15%nat) 0x7f) 8) (bs !!! 14%nat) = (W / 2 ^ 112) mod 2 ^ 15 /\
  for_up 14 0 (fun i found => found || negb (bs !!! i =? 0)) false = negb (W mod 2 ^ 112 =? 0).
Proof.
  intros Hok W. pose proof (image_bytes_ok bs Hok) as Hb. destruct Hok as [Hl H].
  destruct (le_bytes_low 14 bs Hb ltac:(lia)) as [El Eh].
  change (8 * Z.of_nat 14) with 112 in *. unfold W. rewrite El, Eh. split.
  - assert (Ed : drop 14 bs = [bs !!! 14%nat; bs !!! 15%nat]).
    { pose proof (length_drop bs 14) as L. pose proof (lookup_total_drop bs 14 0) as L0.
      pose proof (lookup_total_drop bs 14 1) as L1.
      destruct (drop 14 bs) as [|x [|y [|]]]; simpl in L; try lia.
      simpl in L0, L1. by rewrite <- L0, <- L1. }
    rewrite Ed. pose proof (H 14%nat ltac:(lia)) as B14. pose proof (H 15%nat ltac:(lia)) as B15.
    unfold byte_ok in *. cbn [le_bytes fold_right].
    change 0x7f with (2 ^ 7 - 1). rewrite land_ones_mod, lor_shiftl_add by lia.
    Z.div_mod_to_equations; lia.
  - pose proof (le_bytes_zero (take 14 bs) (bytes_ok_take 14 bs Hb)) as Z0.
    rewrite length_take in Z0. replace (Nat.min 14 (length bs)) with 14%nat in Z0 by lia.
    pose proof (any_nonzero_loop bs 14) as N. destruct (for_up 14 0 _ false).
    + symmetry. apply negb_true_iff, Z.eqb_neq. intros E. destruct N as [N _].
      destruct (N eq_refl) as (i & Hi & Hne). apply Hne.
      rewrite <- (proj1 Z0 E i Hi). by rewrite lookup_total_take_lt.
    + symmetry. apply negb_false_iff, Z.eqb_eq, Z0. intros i Hi. rewrite lookup_total_take_lt by lia.
      destruct (Z.eq_dec (bs !!! i) 0); [done|]. destruct N as [_ N].
      discriminate N. by exists i.
Qed.

Lemma tf_in_canonical a : image_ok a -> canonical SF_BINARY128 (tf_in a).
Proof. intros H. apply from_bits_canonical; [apply layout_binary128|done|done]. Qed.

(** The NaN test on the carrier is the class of the decoded value. *)
Lemma tf_in_nan a : image_ok a -> bits_are_nan a = is_cls SF_NAN (tf_in a).
Proof.
  intros H. destruct (image_fields a H) as [Ee Ef]. unfold bits_are_nan. rewrite Ee, Ef.
  unfold tf_in. rewrite (from_bits_packed _ layout_binary128 a H).
  change (frac_bits SF_BINARY128) with 112. change (exp_bits SF_BINARY128) with 15.
  set (W := le_bytes a). pose proof (Z.mod_pos_bound W (2 ^ 112) ltac:(lia)).
  destruct (split128 (W mod 2 ^ 112)) as [h l] eqn:Es.
  apply split128_inv in Es as (Hh & Hl & Ev); [|lia]. rewrite <- Ev.
  set (biased := (W / 2 ^ 112) mod 2 ^ 15). unfold decode.
  change (Z.shiftl 1 (exp_bits SF_BINARY128) - 1) with 0x7fff.
  change (explicit_intbit SF_BINARY128) with false. cbn [andb negb].
  rewrite lor_zero by done. destruct (Z.eqb_spec biased 0x7fff); cbn [negb].
  - unfold is_cls. by destruct (pairval h l =? 0).
  - destruct (Z.eqb_spec biased 0); cbn [andb]; [destruct (pairval h l =? 0); done|].
    by destruct (64 <=? prec_of SF_BINARY128 - 1).
Qed.

Lemma canonical_opnd a : canonical SF_BINARY128 a -> wf_opnd a.
Proof.
  intros H E. unfold canonical in H. rewrite E in H. change (prec_of SF_BINARY128) with 113 in H. tauto.
Qed.
(** What an operation returns for a result [r]: its image, or the generated
    NaN. *)
Definition delivers (r : Sf) (out : list Z) : Prop :=
  image_ok out /\ if is_cls SF_NAN r then out = tf_default_nan else tf_in out = r.

Lemma default_nan_image : image_ok tf_default_nan.
Proof.
  split; [done|]. intros i Hi. do 16 (destruct i as [|i]; [vm_compute; split; congruence|]). lia.
Qed.

Lemma tf_out_image v : canonical SF_BINARY128 v -> image_ok (tf_out v).
Proof.
  intros Hc. pose proof (fields_fit _ layout_binary128 v Hc) as F.
  destruct (fields_of v SF_BINARY128) as [[h l] b] eqn:E. destruct F as (? & ? & ? & ?).
  exact (proj1 (to_bits_packed _ layout_binary128 v h l b E ltac:(done) ltac:(done) ltac:(done) ltac:(done))).
Qed.

Lemma tf_out_in v : canonical SF_BINARY128 v -> tf_in (tf_out v) = v.
Proof. apply bits_roundtrip, layout_binary128. Qed.

Lemma finish_delivers v a b :
  bits_are_nan a = false -> bits_are_nan b = false -> canonical SF_BINARY128 v ->
  delivers v (finish v a b).
Proof.
  intros Ha Hb Hc. unfold finish, nan_passthrough, delivers. rewrite Ha, Hb.
  destruct (is_cls SF_NAN v).
  - split; [apply default_nan_image|done].
  - split; [by apply tf_out_image|by apply tf_out_in].
Qed.

Lemma quieted_bit a :
  image_ok a -> image_ok (quieted a) /\ le_bytes (quieted a) = Z.lor (le_bytes a) (2 ^ 111).
Proof.
  intros Hok. destruct (or_bit_spec a 111 Hok ltac:(lia)) as [Ok B].
  change (or_bit a 111) with (quieted a) in *. split; [done|].
  pose proof (image_bytes_ok a Hok) as Hb. destruct Hok as [Hl H].
  pose proof (le_bytes_range a Hb) as R. rewrite Hl in R.
  apply le_bytes_eq; [done|apply lor_bound; lia|].
  intros n Hn. rewrite B, Z.lor_spec, Z.pow2_bits_eqb, le_bytes_testbit by (done || lia).
  by rewrite (Z.eqb_sym 111).
Qed.

(** ** Comparisons *)

(** IEEE comparison of two decoded operands; [None] is unordered. *)
Definition tf_order (a b : list Z) : option comparison :=
  if is_cls SF_NAN (tf_in a) || is_cls SF_NAN (tf_in b) then None
  else Some (ext_compare (ext_value (tf_in a)) (ext_value (tf_in b))).

Lemma tf_cmp3_spec a b u :
  image_ok a -> image_ok b ->
  tf_cmp3 a b u = match tf_order a b with None => (u, true) | Some c => (cmp3 c, false) end.
Proof.
  intros Ha Hb. unfold tf_cmp3, tf_order.
  assert (Na : wf_num (tf_in a)) by (apply wf_opnd_num, canonical_opnd, tf_in_canonical; done).
  assert (Nb : wf_num (tf_in b)) by (apply wf_opnd_num, canonical_opnd, tf_in_canonical; done).
  revert Na Nb. generalize (tf_in a) (tf_in b). intros x y Nx Ny.
  destruct (is_cls SF_NAN x || is_cls SF_NAN y) eqn:C; [by rewrite sf_cmp_nan|].
  apply orb_false_iff in C as [Cx Cy]. unfold is_cls in Cx, Cy.
  apply bool_decide_eq_false in Cx, Cy.
  rewrite (sf_cmp_values _ _ Nx Ny Cx Cy). by destruct (ext_compare _ _).
Qed.

(** ** Saturating conversion to integers *)
Definition clamp (lo hi v : Z) : Z := Z.max lo (Z.min hi v).
Definition saturate (lo hi : Z) (v : Sf) : Z :=
  match cls v with
  | SF_NAN => hi
  | SF_INF => if sign v then lo else hi
  | SF_ZERO => clamp lo hi 0
  | SF_NORMAL => clamp lo hi (signed_Z (sign v) (trunc v))
  end.

Definition int_min (width : Z) (is_unsigned : bool) : Z :=
  if is_unsigned then 0 else - 2 ^ (width - 1).
Definition int_max (width : Z) (is_unsigned : bool) : Z :=
  if is_unsigned then 2 ^ width - 1 else 2 ^ (width - 1) - 1.

Lemma int_range_clamp width uns v :
  1 <= width ->
  int_range width uns v = true <-> clamp (int_min width uns) (int_max width uns) v = v.
Proof.
  intros Hw. unfold int_range, int_min, int_max, clamp.
  pose proof (pow2_pos (width - 1) ltac:(lia)). pose proof (pow2_pos width ltac:(lia)).
  destruct uns; rewrite andb_true_iff, Z.leb_le, Z.ltb_lt; lia.
Qed.

Lemma sign_trunc_cases a width uns :
  1 <= width -> 0 < pairval (hi a) (lo a) ->
  int_range width uns (signed_Z (sign a) (trunc a)) = false ->
  clamp (int_min width uns) (int_max width uns) (signed_Z (sign a) (trunc a)) =
    if sign a then int_min width uns else int_max width uns.
Proof.
  intros Hw Hv H. pose proof (trunc_nonneg a Hv) as T. unfold int_range in H.
  pose proof (pow2_pos (width - 1) ltac:(lia)). pose proof (pow2_pos width ltac:(lia)).
  unfold clamp, int_min, int_max, signed_Z in *.
  destruct uns, (sign a); rewrite andb_false_iff, Z.leb_gt, Z.ltb_ge in H; lia.
Qed.

Definition saturated_bits (width : Z) (is_unsigned : bool) (v : Sf) : Z :=
  saturate (int_min width is_unsigned) (int_max width is_unsigned) v mod 2 ^ width.

Lemma fix_saturating_spec a width uns :
  image_ok a -> width = 32 \/ width = 64 ->
  fix_saturating a width uns = saturated_bits width uns (tf_in a).
Proof.
  intros Ha Hw. pose proof (tf_in_canonical a Ha) as Hc.
  assert (N : wf_num (tf_in a)) by (apply wf_opnd_num, canonical_opnd; done).
  unfold fix_saturating, saturated_bits, saturate. set (v := tf_in a) in *.
  rewrite sf_to_int_trunc by (done || lia). unfold trunc_to, is_cls.
  destruct (cls v) eqn:C; eval_cls; rewrite ?andb_true_r, ?andb_false_r.
  - cbn [no_status invalid negb]. destruct Hw as [-> | ->], uns; reflexivity.
  - destruct (N C) as (_ & _ & Hv).
    destruct (int_range width uns (signed_Z (sign v) (trunc v))) eqn:R.
    + assert (E : invalid (if has_fraction v then set_inexact no_status else no_status) = false)
        by (by destruct (has_fraction v)).
      rewrite E. cbn [negb]. apply int_range_clamp in R; [|lia]. by rewrite R.
    + cbn [set_invalid invalid negb]. rewrite sign_trunc_cases by (done || lia).
      destruct Hw as [-> | ->], uns, (sign v); reflexivity.
  - cbn [set_invalid invalid negb]. destruct Hw as [-> | ->], uns, (sign v); reflexivity.
  - cbn [set_invalid invalid negb]. destruct Hw as [-> | ->], uns; reflexivity.
Qed.

Definition ti_value (is_unsigned : bool) (a : cgf_ti) : Z :=
  let v := pairval (ti_hi a) (ti_lo a) in
  if is_unsigned then v else if v <? 2 ^ 127 then v else v - 2 ^ 128.

Lemma fix_ti_spec v uns :
  wf_num v -> ti_value uns (fix_ti v uns) = saturate (int_min 128 uns) (int_max 128 uns) v.
Proof.
  intros N. unfold fix_ti, saturate. rewrite sf_to_int128_trunc by done. unfold trunc_to, is_cls.
  destruct (cls v) eqn:C; eval_cls; rewrite ?andb_true_r, ?andb_false_r.
  - destruct uns; reflexivity.
  - destruct (N C) as (_ & _ & Hv). set (t := signed_Z (sign v) (trunc v)).
    destruct (int_range 128 uns t) eqn:R.
    + pose proof R as R'. apply int_range_clamp in R'; [|lia]. fold t in R'. rewrite R'.
      pose proof (Z.mod_pos_bound t (2 ^ 128) ltac:(lia)).
      destruct (split128 (t mod 2 ^ 128)) as [h l] eqn:Es.
      apply split128_inv in Es as (_ & _ & Ev); [|done].
      assert (E : invalid (if has_fraction v then set_inexact no_status else no_status) = false)
        by (by destruct (has_fraction v)).
      rewrite E. cbn [negb]. unfold ti_value. cbn [ti_hi ti_lo]. rewrite Ev.
      unfold int_range in R. destruct uns; rewrite andb_true_iff, Z.leb_le, Z.ltb_lt in R.
      * by apply Z.mod_small.
      * change (2 ^ (128 - 1)) with (2 ^ 127) in R. destruct (Z.ltb_spec (t mod 2 ^ 128) (2 ^ 127));
          Z.div_mod_to_equations; lia.
    + cbn [set_invalid invalid negb]. unfold t in *. rewrite sign_trunc_cases by (done || lia).
      destruct uns, (sign v); reflexivity.
  - cbn [set_invalid invalid negb]. destruct uns, (sign v); reflexivity.
  - cbn [set_invalid invalid negb]. destruct uns; reflexivity.
Qed.

(** ** Integers to binary128 and format conversions *)
Lemma exact_when_representable f sg x st :
  wf_format f -> (0 < x)%Q -> (x < overflow_threshold f)%Q -> representable f x ->
  let r := (rounded f sg x st).1 in
  cls r = SF_NORMAL /\ sign r = sg /\ (mag r == x)%Q.
Proof.
  intros Hf Hx Hov Hrep r. destruct (ieee_round_spec f sg x Hf Hx) as (S & I & B).
  destruct (B Hov) as (C & _ & Near). specialize (Near x Hrep).
  assert (E : (mag (ieee_round f sg x) == x)%Q).
  { assert (Z0 : (x - x == 0)%Q) by ring. rewrite Z0 in Near. change (Qabs 0) with 0%Q in Near.
    pose proof (Qabs_nonneg (x - mag (ieee_round f sg x))).
    pose proof (Qle_Qabs (x - mag (ieee_round f sg x))).
    pose proof (Qle_Qabs (- (x - mag (ieee_round f sg x)))) as N2. rewrite Qabs_opp in N2. lra. }
  assert (C' : cls (ieee_round f sg x) = SF_NORMAL).
  { destruct C as [C|C]; [done|]. exfalso. unfold ieee_round in C, E.
    destruct (carried f x) as [m q]. destruct (overflows f x); [done|].
    destruct (Z.eqb_spec m 0); [|by destruct (split128 m)].
    unfold mag in E. simpl in E. change (inject_Z (pairval 0 0)) with 0%Q in E.
    rewrite Qmult_0_l in E. lra. }
  unfold r, rounded. cbn [fst]. unfold is_cls. rewrite C'. eval_cls. done.
Qed.

Lemma small_below_threshold f x k :
  wf_format f -> (x <= pow2 k)%Q -> k <= emax_of f -> (x < overflow_threshold f)%Q.
Proof.
  intros Hf Hx Hk. destruct (threshold_bounds f Hf) as [T _].
  pose proof (pow2_mono k (emax_of f) Hk). lra.
Qed.

Lemma int_representable v f :
  0 <= v < 2 ^ prec_of f -> qmin f <= 0 -> representable f (inject_Z v).
Proof. intros Hv Hq. exists v, 0. split; [done|]. split; [done|]. change (pow2 0) with 1%Q. ring. Qed.

(** An integer of at most 64 bits converts without rounding. *)
Lemma from_int_exact v neg st :
  is_u64 v ->
  let r := (sf_from_int v neg SF_BINARY128 st).1 in
  canonical SF_BINARY128 r /\ (value r == inject_Z (signed_Z neg v))%Q.
Proof.
  intros Hv r. unfold r, sf_from_int. destruct (Z.eqb_spec v 0) as [->|Hne].
  { split; [done|]. unfold value, mag. simpl. by destruct neg. }
  assert (Hp : 0 < pairval 0 v) by (unfold pairval, is_u64 in *; lia).
  assert (Ev : pairval 0 v = v) by (unfold pairval; lia).
  assert (H0 : is_u64 0) by (unfold is_u64; lia).
  assert (R : round_pack neg 0 v 0 false SF_BINARY128 st = rounded SF_BINARY128 neg (inject_Z v) st).
  { apply (round_pack_rounds neg 0 v 0 false SF_BINARY128 st (inject_Z v) (inject_Z v));
      try done; try apply wf_binary128.
    - rewrite Ev. apply exact_of_Z.
    - change (pow2 0) with 1%Q. ring. }
  assert (Hx : (0 < inject_Z v)%Q) by (change 0%Q with (inject_Z 0); rewrite <- Zlt_Qlt; lia).
  rewrite R. split; [apply rounded_canonical; [apply wf_binary128|done]|].
  destruct (exact_when_representable SF_BINARY128 neg (inject_Z v) st) as (_ & Sg & M).
  - apply wf_binary128.
  - done.
  - apply small_below_threshold with 64; [apply wf_binary128| |vm_compute; discriminate].
    rewrite pow2_Z by lia. rewrite <- Zle_Qle. unfold is_u64 in Hv. lia.
  - apply int_representable; [|vm_compute; discriminate].
    change (prec_of SF_BINARY128) with 113. unfold is_u64 in Hv. lia.
  - unfold value. rewrite Sg. unfold signed_Z. destruct neg; rewrite M; [by rewrite inject_Z_opp|done].
Qed.

Lemma padded_image n a :
  length a = n -> (n <= 16)%nat -> (forall i, (i < n)%nat -> byte_ok (a !!! i)) -> image_ok (padded a).
Proof.
  intros Hl Hn Hb. unfold padded, image_ok. rewrite length_app, length_replicate. split; [lia|].
  intros i Hi. destruct (decide (i < length a)%nat).
  - rewrite lookup_total_app_l by lia. apply Hb. lia.
  - rewrite lookup_total_app_r by lia. rewrite lookup_total_replicate_2 by lia. unfold byte_ok. lia.
Qed.

(** Widening: every canonical value of a narrower format is representable. *)
Lemma representable_widen f g a :
  cls a = SF_NORMAL -> canonical f a -> prec_of f <= prec_of g -> qmin g <= qmin f ->
  representable g (mag a).
Proof.
  intros C H Hp Hq. unfold canonical in H. rewrite C in H. destruct H as (_ & _ & Hv & He & _).
  exists (pairval (hi a) (lo a)), (exp a). split; [|split; [lia|reflexivity]].
  pose proof (pow2_le (prec_of f) (prec_of g) Hp). lia.
Qed.

Lemma mag_below f a :
  wf_format f -> cls a = SF_NORMAL -> canonical f a -> (mag a <= pow2 (emax_of f + 1))%Q.
Proof.
  intros [Hp _] C H. unfold canonical in H. rewrite C in H. destruct H as (_ & _ & Hv & _ & _ & He).
  unfold mag. apply Qle_trans with (pow2 (prec_of f) * pow2 (exp a))%Q.
  - apply Qmult_le_compat_r; [rewrite pow2_Z by lia; rewrite <- Zle_Qle; lia|].
    pose proof (pow2_gt0 (exp a)). lra.
  - rewrite <- pow2_add. apply pow2_mono. lia.
Qed.

(** Converting up is exact, and converting back gives the operand. *)
Lemma widen_narrow f g a st st' :
  wf_format f -> wf_format g -> canonical f a -> prec_of f <= prec_of g -> qmin g <= qmin f ->
  emax_of f + 1 <= emax_of g ->
  let w := (sf_convert a f g st).1 in
  canonical g w /\ (value w == value a)%Q /\ cls w = cls a /\
  (sf_convert w g f st').1 = a.
Proof.
  intros Hf Hg Hc Hp Hq He w.
  destruct (decide (cls a = SF_NORMAL)) as [C|C].
  - pose proof (mag_positive f a C Hc) as M0. pose proof Hc as Hc'. unfold canonical in Hc'.
    rewrite C in Hc'. destruct Hc' as (Hh & Hl & Hv & _).
    assert (R : sf_convert a f g st = rounded g (sign a) (mag a) st).
    { unfold sf_convert, is_cls. rewrite C. eval_cls.
      rewrite round_pack_value by (done || lia). unfold value. by apply round_signed_pos. }
    destruct (exact_when_representable g (sign a) (mag a) st) as (Cw & Sw & Mw); [done|done| | |].
    { apply small_below_threshold with (emax_of f + 1); [done|by apply mag_below|done]. }
    { by apply representable_widen with f. }
    unfold w. rewrite R. set (r := (rounded g (sign a) (mag a) st).1) in *.
    assert (Hcr : canonical g r) by (by apply rounded_canonical).
    split; [done|]. split; [unfold value; rewrite Sw; destruct (sign a); rewrite Mw; reflexivity|].
    split; [by rewrite Cw, C|].
    pose proof Hcr as Hcr'. unfold canonical in Hcr'. rewrite Cw in Hcr'. destruct Hcr' as (Rh & Rl & Rv & _).
    unfold sf_convert, is_cls. rewrite Cw. eval_cls.
    rewrite round_pack_value by (done || lia).
    assert (V : (value r == if sign a then - mag a else mag a)%Q).
    { unfold value. rewrite Sw. destruct (sign a); rewrite Mw; reflexivity. }
    rewrite (round_signed_proper f _ _ V st' st' eq_refl), round_signed_pos by done.
    unfold rounded. cbn [fst]. rewrite (canonical_fixpoint f a Hf C Hc). unfold is_cls. rewrite C.
    by eval_cls.
  - assert (E : forall x y s, sf_convert a x y s = (a, s)).
    { intros x y s. unfold sf_convert, is_cls. by destruct (cls a); eval_cls. }
    unfold w. rewrite E. cbn [fst]. rewrite E. split_and!; try done.
    unfold canonical in *. by destruct (cls a).
Qed.

(** ** Sign operations on the carrier *)
Lemma top_byte a x :
  image_ok a -> byte_ok x ->
  image_ok (<[15%nat := x]> a) /\
  le_bytes (<[15%nat := x]> a) = le_bytes a mod 2 ^ 120 + 2 ^ 120 * x /\
  a !!! 15%nat = le_bytes a / 2 ^ 120.
Proof.
  intros Hok Hx. pose proof (image_bytes_ok a Hok) as Hb. destruct Hok as [Hl H].
  assert (Ok' : image_ok (<[15%nat := x]> a)).
  { split; [by rewrite length_insert|]. intros i Hi. destruct (decide (i = 15%nat)) as [->|].
    - by rewrite list_lookup_total_insert_eq by lia.
    - rewrite list_lookup_total_insert_ne by done. by apply H. }
  split; [done|]. pose proof (image_bytes_ok _ Ok') as Hb'. destruct Ok' as [Hl' H'].
  destruct (le_bytes_low 15 a Hb ltac:(lia)) as [El Eh].
  destruct (le_bytes_low 15 _ Hb' ltac:(lia)) as [El' Eh'].
  change (8 * Z.of_nat 15) with 120 in *.
  assert (D : forall b : list Z, length b = 16%nat -> le_bytes (drop 15 b) = b !!! 15%nat).
  { intros b Lb. pose proof (length_drop b 15) as L. pose proof (lookup_total_drop b 15 0) as L0.
    destruct (drop 15 b) as [|y [|]]; simpl in L; try lia. simpl in L0. rewrite <- L0.
    cbn [le_bytes fold_right]. lia. }
  rewrite D in Eh, Eh' by done. rewrite list_lookup_total_insert_eq in Eh' by lia.
  rewrite take_insert_ge in El' by lia. split; [|done].
  rewrite (Z.div_mod (le_bytes (<[15%nat:=x]> a)) (2 ^ 120)) by done. rewrite Eh', El', El. lia.
Qed.

Definition with_sign (s : bool) (a : Sf) : Sf := mkSf s (cls a) (exp a) (hi a) (lo a).

Lemma decode_sign f h l biased s s' : decode f h l biased s = with_sign s (decode f h l biased s').
Proof.
  unfold decode. destruct (biased =? _); [by destruct (explicit_intbit f); case_match|].
  destruct (_ && _); [done|]. destruct (_ && _ && _); [done|]. destruct (biased =? 0); [done|].
  by case_match; case_match.
Qed.

(** The sign is bit 127; the rest of the value depends on the low bits only. *)
Lemma tf_in_signed a b :
  image_ok a -> image_ok b -> le_bytes a mod 2 ^ 127 = le_bytes b mod 2 ^ 127 ->
  tf_in b = with_sign (Z.testbit (le_bytes b) 127) (tf_in a) /\
  sign (tf_in b) = Z.testbit (le_bytes b) 127.
Proof.
  intros Ha Hb E. unfold tf_in. rewrite !(from_bits_packed _ layout_binary128) by done.
  change (frac_bits SF_BINARY128) with 112. change (exp_bits SF_BINARY128) with 15.
  assert (Ef : le_bytes b mod 2 ^ 112 = le_bytes a mod 2 ^ 112).
  { change (2 ^ 127) with (2 ^ 112 * 2 ^ 15) in E. rewrite !Z.rem_mul_r in E by done.
    Z.div_mod_to_equations; lia. }
  assert (Ee : (le_bytes b / 2 ^ 112) mod 2 ^ 15 = (le_bytes a / 2 ^ 112) mod 2 ^ 15).
  { change (2 ^ 127) with (2 ^ 112 * 2 ^ 15) in E. rewrite !Z.rem_mul_r in E by done. lia. }
  rewrite Ef, Ee. destruct (split128 _) as [h l].
  change (112 + 15) with 127. rewrite (decode_sign _ _ _ _ (Z.testbit (le_bytes b) 127) (Z.testbit (le_bytes a) 127)).
  done.
Qed.

(** A new sign bit in byte 15, the other seven bits kept. *)
Lemma tf_with_sign a (s : bool) x :
  image_ok a -> 0 <= x < 256 -> x mod 128 = (a !!! 15%nat) mod 128 -> (128 <=? x) = s ->
  image_ok (<[15%nat := x]> a) /\ tf_in (<[15%nat := x]> a) = with_sign s (tf_in a) /\
  le_bytes (<[15%nat := x]> a) = le_bytes a mod 2 ^ 127 + (if s then 2 ^ 127 else 0).
Proof.
  intros Ha Hx Hm Hs. destruct (top_byte a x Ha Hx) as (Ok & E & T).
  split; [done|]. rewrite T in Hm.
  pose proof (le_bytes_range a (image_bytes_ok a Ha)) as R. rewrite (proj1 Ha) in R.
  change (2 ^ (8 * Z.of_nat 16)) with (2 ^ 128) in R.
  assert (S : x = (le_bytes a / 2 ^ 120) mod 128 + (if s then 128 else 0)).
  { rewrite <- Hm. destruct (Z.leb_spec 128 x); subst s; Z.div_mod_to_equations; lia. }
  assert (L : le_bytes (<[15%nat := x]> a) = le_bytes a mod 2 ^ 127 + (if s then 2 ^ 127 else 0)).
  { rewrite E, S. change (2 ^ 127) with (2 ^ 120 * 128). rewrite Z.rem_mul_r by done. destruct s; lia. }
  split; [|done].
  pose proof (Z.mod_pos_bound (le_bytes a) (2 ^ 127) ltac:(done)) as B.
  destruct (tf_in_signed a (<[15%nat := x]> a)) as [V _]; [done|done| |].
  { rewrite L. destruct s; [|by rewrite Z.add_0_r, Z.mod_mod].
    rewrite <- (Z.mul_1_l (2 ^ 127)) at 3. by rewrite Z.mod_add, Z.mod_mod. }
  rewrite V. f_equal. rewrite L. rewrite Z.testbit_eqb by done. destruct s.
  - apply Z.eqb_eq. replace ((_ + 2 ^ 127) / 2 ^ 127) with 1; [done|].
    apply Z.div_unique with (le_bytes a mod 2 ^ 127); lia.
  - apply Z.eqb_neq. rewrite Z.add_0_r, Z.div_small by done. done.
Qed.

Lemma byte_neg x : 0 <= x < 256 ->
  let y := u8 (Z.lxor x 0x80) in
  0 <= y < 256 /\ y mod 128 = x mod 128 /\ (128 <=? y) = negb (128 <=? x).
Proof.
  intros H y.
  assert (F : forallb (fun x => let y := u8 (Z.lxor x 0x80) in
     (0 <=? y) && (y <? 256) && (y mod 128 =? x mod 128) && Bool.eqb (128 <=? y) (negb (128 <=? x)))
     (map Z.of_nat (seq 0 256)) = true) by (vm_compute; reflexivity).
  rewrite forallb_forall in F. specialize (F x). fold y in F.
  rewrite !andb_true_iff, Z.leb_le, Z.ltb_lt, Z.eqb_eq in F. rewrite Bool.eqb_true_iff in F.
  destruct F as [[[? ?] ?] ?]; [|done].
  apply in_map_iff. exists (Z.to_nat x). split; [lia|]. apply in_seq. lia.
Qed.

Lemma tf_sign_bit a : image_ok a ->
  sign (tf_in a) = (128 <=? a !!! 15%nat) /\ 0 <= a !!! 15%nat < 256.
Proof.
  intros Ha. destruct (tf_in_signed a a Ha Ha eq_refl) as [_ ->].
  pose proof (proj2 Ha 15%nat ltac:(lia)) as B. unfold byte_ok in B.
  destruct (top_byte a 0 Ha ltac:(unfold byte_ok; lia)) as (_ & _ & T).
  split; [|done]. rewrite T in B |- *. set (W := le_bytes a) in *.
  rewrite Z.testbit_eqb by done. change (2 ^ 127) with (2 ^ 120 * 128). rewrite <- Z.div_div by done.
  destruct (Z.leb_spec 128 (W / 2 ^ 120)).
  - apply Z.eqb_eq. Z.div_mod_to_equations; lia.
  - apply Z.eqb_neq. rewrite Z.div_small by lia. done.
Qed.

(** ** Carriers narrower than 16 bytes *)
Section narrow.
  Context (f : SfFormat) (n : nat) (Hf : wf_layout f) (Hx : explicit_intbit f = false).
  Context (Hn : total_bytes f = Z.of_nat n) (Hle : (n <= 16)%nat).

Lemma padded_value a :
  length a = n -> bytes_ok a ->
  image_ok (padded a) /\ le_bytes (padded a) = le_bytes a /\ 0 <= le_bytes a < 2 ^ (8 * total_bytes f).
Proof using Hn Hle.
  intros Hl Hb.
  assert (Ok : image_ok (padded a)) by (apply padded_image with n; [done|done|by rewrite <- Hl]).
  split; [done|]. pose proof (image_bytes_ok _ Ok) as Hp.
  pose proof (le_bytes_range a Hb) as R. rewrite Hl in R. rewrite Hn. split; [|done].
  rewrite (le_bytes_split n) by (unfold padded; rewrite length_app; lia).
  unfold padded. rewrite take_app_length', drop_app_length' by done.
  assert (E : le_bytes (replicate (16 - length a) 0) = 0).
  { apply le_bytes_zero.
    - intros i Hi. rewrite length_replicate in Hi. rewrite lookup_total_replicate_2 by done.
      unfold byte_ok. lia.
    - intros i Hi. rewrite length_replicate in Hi. by rewrite lookup_total_replicate_2. }
  rewrite E. lia.
Qed.

Lemma narrow_split W :
  0 <= W < 2 ^ (8 * total_bytes f) ->
  W = packed f (W mod 2 ^ frac_bits f) ((W / 2 ^ frac_bits f) mod 2 ^ exp_bits f)
        (Z.testbit W (frac_bits f + exp_bits f)).
Proof using Hf Hn Hle.
  intros HW. pose proof Hf as (E & _ & Hfb & Heb & _). unfold packed.
  rewrite <- E in HW. pose proof (pow2_pos (frac_bits f) ltac:(lia)). pose proof (pow2_pos (exp_bits f) ltac:(lia)).
  rewrite Z.testbit_eqb by lia.
  assert (T : b2z ((W / 2 ^ (frac_bits f + exp_bits f)) mod 2 =? 1) = W / 2 ^ frac_bits f / 2 ^ exp_bits f).
  { rewrite Z.div_div, <- Z.pow_add_r by lia.
    assert (0 <= W / 2 ^ (frac_bits f + exp_bits f) < 2).
    { rewrite Z.pow_add_r in HW by lia. change (2 ^ 1) with 2 in HW.
      pose proof (pow2_pos (frac_bits f + exp_bits f) ltac:(lia)).
      split; [apply Z.div_pos; lia|apply Z.div_lt_upper_bound; lia]. }
    set (q := W / _) in *. rewrite Z.mod_small by lia. destruct (Z.eqb_spec q 1); simpl; lia. }
  rewrite T. rewrite (Z.div_mod W (2 ^ frac_bits f)) at 1 by lia.
  rewrite (Z.div_mod (W / 2 ^ frac_bits f) (2 ^ exp_bits f)) at 1 by lia. lia.
Qed.

(** A carrier decodes to a canonical value, and encodes back unless NaN. *)
Lemma narrow_in_out a :
  length a = n -> bytes_ok a ->
  canonical f (sf_from_bits (padded a) f) /\
  (is_cls SF_NAN (sf_from_bits (padded a) f) = false ->
   take n (sf_to_bits (sf_from_bits (padded a) f) f) = a).
Proof using Hf Hx Hn Hle.
  intros Hl Hb. destruct (padded_value a Hl Hb) as (Ok & EW & R).
  split; [by apply from_bits_canonical|]. intros Hnan.
  pose proof Hf as (E & _ & Hfb & Heb & _).
  pose proof (narrow_split _ R) as EP. rewrite <- EW in EP. set (W := le_bytes (padded a)) in *.
  pose proof (Z.mod_pos_bound W (2 ^ frac_bits f) ltac:(apply pow2_pos; lia)) as Bf.
  pose proof (Z.mod_pos_bound (W / 2 ^ frac_bits f) (2 ^ exp_bits f) ltac:(apply pow2_pos; lia)) as Be.
  unshelve erewrite (proj2 (image_roundtrip f Hf _ _ _ _ Ok EP Bf Be _)).
  2: { unfold padded. by apply take_app_length'. }
  { destruct (Z.eq_dec ((W / 2 ^ frac_bits f) mod 2 ^ exp_bits f) (2 ^ exp_bits f - 1)) as [Em|Em].
    + right. split; [done|]. rewrite Hx. rewrite (from_bits_packed f Hf _ Ok) in Hnan. fold W in Hnan.
      pose proof (pow2_le (frac_bits f) 112 ltac:(lia)).
      destruct (split128 (W mod 2 ^ frac_bits f)) as [h l] eqn:Es.
      apply split128_inv in Es as (Hh & Hlo & <-); [|lia]. unfold decode in Hnan.
      rewrite Em, Z.shiftl_1_l, Z.eqb_refl, Hx, lor_zero in Hnan by done.
      by destruct (Z.eqb_spec (pairval h l) 0).
    + left. split; [lia|]. by rewrite Hx. }
Qed.

Lemma narrow_out_in v :
  canonical f v ->
  length (take n (sf_to_bits v f)) = n /\ bytes_ok (take n (sf_to_bits v f)) /\
  sf_from_bits (padded (take n (sf_to_bits v f))) f = v.
Proof using Hf Hx Hn Hle.
  intros Hc. pose proof (fields_fit f Hf v Hc) as F.
  destruct (fields_of v f) as [[h l] b] eqn:E. destruct F as (Hh & Hl & Hv & Hb).
  destruct (to_bits_packed f Hf v h l b E Hh Hl Hv Hb) as [Ok EW].
  pose proof (packed_range f Hf (pairval h l) b (sign v) ltac:(pose proof (pairval_range h l Hh Hl); lia) Hb) as R.
  rewrite <- EW, Hn in R. set (bs := sf_to_bits v f) in *.
  pose proof (image_bytes_ok bs Ok) as Hbs. pose proof Ok as [L _].
  assert (Lt : length (take n bs) = n) by (rewrite length_take; lia).
  split; [done|]. split; [by apply bytes_ok_take|].
  assert (Ep : padded (take n bs) = bs).
  { destruct (padded_value (take n bs) Lt (bytes_ok_take n bs Hbs)) as (Okp & Ev & _).
    apply le_bytes_inj; [done|done|]. rewrite Ev, <- (proj1 (le_bytes_low n bs Hbs ltac:(lia))).
    by apply Z.mod_small. }
  rewrite Ep. by apply bits_roundtrip.
Qed.
End narrow.

(** ** Properties of the code *)

(** Operand by operand: a NaN first operand, then a NaN second operand, comes
    back quieted with its payload; otherwise the correctly rounded result. *)
Definition binary_op (op : list Z -> list Z -> list Z) (ieee : Sf -> Sf -> Sf) : Prop :=
  forall a b, image_ok a -> image_ok b ->
  (bits_are_nan a = true -> op a b = quieted a) /\
  (bits_are_nan a = false -> bits_are_nan b = true -> op a b = quieted b) /\
  (bits_are_nan a = false -> bits_are_nan b = false -> delivers (ieee (tf_in a) (tf_in b)) (op a b)).

Lemma finish_op (impl : Sf -> Sf -> Sf) ieee :
  (forall x y, canonical SF_BINARY128 x -> canonical SF_BINARY128 y ->
     impl x y = ieee x y /\ canonical SF_BINARY128 (ieee x y)) ->
  binary_op (fun a b => finish (impl (tf_in a) (tf_in b)) a b) ieee.
Proof.
  intros H a b Ha Hb. unfold finish, nan_passthrough. split; [|split].
  - by intros ->.
  - by intros -> ->.
  - intros Na Nb. destruct (H (tf_in a) (tf_in b)) as [E C]; [by apply tf_in_canonical..|].
    rewrite E. exact (finish_delivers _ a b Na Nb C).
Qed.

Lemma quieted_nan a :
  image_ok a -> bits_are_nan a = true ->
  image_ok (quieted a) /\ bits_are_nan (quieted a) = true /\
  le_bytes (quieted a) = Z.lor (le_bytes a) (2 ^ 111).
Proof.
  intros Ha Hn. destruct (quieted_bit a Ha) as [Ok E]. split; [done|]. split; [|done].
  unfold bits_are_nan in *. destruct (image_fields a Ha) as [Fe Ff].
  destruct (image_fields _ Ok) as [Ge Gf]. rewrite Fe, Ff in Hn. rewrite Ge, Gf, E.
  rewrite <- (Z.shiftr_div_pow2 (Z.lor _ _)) by lia. rewrite Z.shiftr_lor, Z.shiftr_div_pow2 by lia.
  change (Z.shiftr (2 ^ 111) 112) with 0. rewrite Z.lor_0_r.
  destruct (_ =? 0x7fff); [|done]. cbn [negb] in *.
  apply negb_true_iff, Z.eqb_neq. intros T.
  assert (B : Z.testbit (Z.lor (le_bytes a) (2 ^ 111) mod 2 ^ 112) 111 = true).
  { rewrite Z.mod_pow2_bits_low by lia. rewrite Z.lor_spec, Z.pow2_bits_true by lia. apply orb_true_r. }
  by rewrite T in B.
Qed.

(** The binary128 entry points on byte images: a NaN operand is returned
    with its sign and payload, quieted (bit 111 set, so still a NaN), the
    first operand winning; with no NaN operand the image of the sum, difference,
    product or quotient as rounded by [round_pack] is returned (correctly, but
    for the sign of products and quotients that underflow), and the generated all-ones NaN for an invalid operation. *)
Theorem tf_arithmetic_correct :
  binary_op __addtf3 (fun x y => (ieee_add SF_BINARY128 x y no_status).1) /\
  binary_op __subtf3 (fun x y => (ieee_add SF_BINARY128 x (sf_neg y) no_status).1) /\
  binary_op __multf3 (fun x y => (rounded_mul SF_BINARY128 x y no_status).1) /\
  binary_op __divtf3 (fun x y => (rounded_div SF_BINARY128 x y no_status).1) /\
  (forall a, image_ok a -> bits_are_nan a = true ->
     image_ok (quieted a) /\ bits_are_nan (quieted a) = true /\
     le_bytes (quieted a) = Z.lor (le_bytes a) (2 ^ 111)).
Proof.
  pose proof wf_binary128 as W.
  split; [|split; [|split; [|split; [|exact quieted_nan]]]].
  - apply (finish_op (fun x y => (sf_add x y SF_BINARY128 no_status).1)). intros x y Hx Hy.
    rewrite sf_add_rounds by (done || by apply canonical_opnd). split; [done|by apply ieee_add_canonical].
  - apply (finish_op (fun x y => (sf_sub x y SF_BINARY128 no_status).1)). intros x y Hx Hy.
    pose proof (canonical_neg _ _ Hy) as Hn. unfold sf_sub.
    rewrite sf_add_rounds by (done || by apply canonical_opnd). split; [done|by apply ieee_add_canonical].
  - apply (finish_op (fun x y => (sf_mul x y SF_BINARY128 no_status).1)). intros x y Hx Hy.
    rewrite sf_mul_rounds by (done || by apply wf_opnd_num, canonical_opnd). split; [done|by apply rounded_mul_canonical].
  - apply (finish_op (fun x y => (sf_div x y SF_BINARY128 no_status).1)). intros x y Hx Hy.
    rewrite sf_div_rounds by (done || by apply canonical_opnd). split; [done|by apply rounded_div_canonical].
Qed.

Lemma tf_arithmetic_witness :
  (* a signaling NaN with payload 5 added to 1 *)
  let snan := [5; 0; 0; 0; 0; 0; 0; 0; 0; 0; 0; 0; 0; 0; 0xff; 0xff] in
  le_bytes (__addtf3 snan (__floatsitf 1)) = 0xFFFF8000000000000000000000000005.
Proof.
  intros snan.
  assert (Ok : image_ok snan).
  { split; [reflexivity|]. intros i Hi. do 16 (destruct i as [|i]; [unfold byte_ok; simpl; lia|]). lia. }
  assert (Ok1 : image_ok (__floatsitf 1)).
  { split; [reflexivity|]. intros i Hi. do 16 (destruct i as [|i]; [vm_compute; split; congruence|]). lia. }
  rewrite (proj1 (proj1 tf_arithmetic_correct snan (__floatsitf 1) Ok Ok1) eq_refl).
  reflexivity.
Defined.

(** Each comparison entry point, tested against zero the way its caller
    tests it, is the IEEE predicate: equality, less, greater and their
    reflexive forms are all false on a NaN operand, [__netf2] is true on one,
    and [__unordtf2] tells exactly the unordered case. *)
Theorem tf_comparisons_correct a b :
  image_ok a -> image_ok b ->
  (__eqtf2 a b = 0 <-> tf_order a b = Some Eq) /\
  (__netf2 a b <> 0 <-> tf_order a b <> Some Eq) /\
  (__lttf2 a b < 0 <-> tf_order a b = Some Lt) /\
  (__letf2 a b <= 0 <-> tf_order a b = Some Lt \/ tf_order a b = Some Eq) /\
  (0 < __gttf2 a b <-> tf_order a b = Some Gt) /\
  (0 <= __getf2 a b <-> tf_order a b = Some Gt \/ tf_order a b = Some Eq) /\
  (__unordtf2 a b = match tf_order a b with None => 1 | Some _ => 0 end).
Proof.
  intros Ha Hb. unfold __eqtf2, __netf2, __lttf2, __letf2, __gttf2, __getf2.
  rewrite !tf_cmp3_spec by done.
  assert (U : __unordtf2 a b = b2z (tf_cmp3 a b 0).2).
  { unfold __unordtf2, tf_cmp3. by destruct (sf_cmp (tf_in a) (tf_in b)) as [r [|]]. }
  rewrite U, tf_cmp3_spec by done.
  destruct (tf_order a b) as [[| |]|]; cbn; intuition (lia || congruence).
Qed.

Lemma tf_comparisons_witness :
  __eqtf2 (__floatsitf 0) (__negtf2 (__floatsitf 0)) = 0 /\ __letf2 tf_default_nan (__floatsitf 1) = 1.
Proof.
  assert (Z0 : image_ok (__floatsitf 0)) by (apply tf_out_image; exact eq_refl).
  assert (Z1 : image_ok (__negtf2 (__floatsitf 0))).
  { split; [reflexivity|]. intros i Hi. do 16 (destruct i as [|i]; [vm_compute; split; congruence|]). lia. }
  split; [|reflexivity]. apply (proj2 (proj1 (tf_comparisons_correct _ _ Z0 Z1))). vm_compute. reflexivity.
Defined.

(** The sign operations act on bit 127 of the carrier alone, so every
    NaN payload survives: negation flips the sign of the decoded value and is
    its own inverse, the absolute value clears it, the sign test reads it, and
    the select helper returns one carrier unchanged. *)
Theorem tf_sign_operations_correct a c (b : list Z) :
  image_ok a ->
  tf_in (__negtf2 a) = sf_neg (tf_in a) /\ __negtf2 (__negtf2 a) = a /\
  le_bytes (__negtf2 a) mod 2 ^ 127 = le_bytes a mod 2 ^ 127 /\
  tf_in (__cgf_abstf a) = with_sign false (tf_in a) /\
  le_bytes (__cgf_abstf a) = le_bytes a mod 2 ^ 127 /\
  __cgf_signbittf a = b2z (sign (tf_in a)) /\
  __cgf_seltf c a b = (if decide (c = 0) then b else a).
Proof.
  intros Ha. destruct (tf_sign_bit a Ha) as [Es B]. pose proof (proj1 Ha) as La.
  destruct (byte_neg _ B) as (N1 & N2 & N3). set (x := a !!! 15%nat) in *.
  destruct (tf_with_sign a _ _ Ha N1 N2 N3) as (Okn & En & Ln).
  assert (M : Z.land x 0x7f = x mod 128).
  { change 0x7f with (2 ^ 7 - 1). by rewrite land_ones_mod. }
  pose proof (Z.mod_pos_bound x 128 eq_refl) as Bm.
  assert (A3 : (128 <=? x mod 128) = false) by (apply Z.leb_gt; lia).
  destruct (tf_with_sign a false (x mod 128) Ha) as (_ & Ea & Lab); [lia|by rewrite Z.mod_mod|done|].
  split. { unfold __negtf2. fold x. rewrite En. unfold sf_neg, with_sign. by rewrite Es. }
  split.
  { unfold __negtf2. fold x. rewrite list_lookup_total_insert_eq, list_insert_insert_eq by lia.
    rewrite <- (list_insert_id a 15 x) at 2
      by (apply list_lookup_lookup_total_lt; lia).
    f_equal. clearbody x. clear -B.
    assert (F : forallb (fun x => u8 (Z.lxor (u8 (Z.lxor x 0x80)) 0x80) =? x)
      (map Z.of_nat (seq 0 256)) = true) by (vm_compute; reflexivity).
    rewrite forallb_forall in F. apply Z.eqb_eq, F, in_map_iff.
    exists (Z.to_nat x). split; [lia|]. apply in_seq. lia. }
  split.
  { unfold __negtf2. fold x. rewrite Ln.
    destruct (negb _); [|by rewrite Z.add_0_r, Z.mod_mod].
    replace (le_bytes a mod 2 ^ 127 + 2 ^ 127) with (le_bytes a mod 2 ^ 127 + 1 * 2 ^ 127) by lia.
    by rewrite Z.mod_add, Z.mod_mod. }
  unfold __cgf_abstf, __cgf_signbittf, __cgf_seltf. fold x. rewrite M, Lab, Ea, Es.
  split; [done|]. split; [lia|]. split; [|by destruct (decide (c = 0)) as [->|]; [|destruct (Z.eqb_spec c 0)]].
  rewrite Z.shiftr_div_pow2 by done. change (2 ^ 7) with 128.
  change (Z.land (x / 128) 1) with (Z.land (x / 128) (2 ^ 1 - 1)). rewrite land_ones_mod by done.
  change (2 ^ 1) with 2.
  destruct (Z.leb_spec 128 x); cbn [b2z]; Z.div_mod_to_equations; lia.
Qed.

Lemma tf_sign_operations_witness :
  tf_in (__negtf2 tf_default_nan) = sf_neg (tf_in tf_default_nan) /\
  le_bytes (__negtf2 tf_default_nan) = 2 ^ 128 - 1.
Proof.
  split; [|reflexivity].
  exact (proj1 (tf_sign_operations_correct tf_default_nan 0 [] default_nan_image)).
Defined.

(** ** Conversions to and from integers *)
Lemma double_in a : length a = 8%nat -> bytes_ok a -> canonical SF_BINARY64 (df_in a).
Proof. intros L B. by apply (narrow_in_out SF_BINARY64 8 layout_binary64 eq_refl eq_refl ltac:(lia)). Qed.
Lemma single_in a : length a = 4%nat -> bytes_ok a -> canonical SF_BINARY32 (sf_in a).
Proof. intros L B. by apply (narrow_in_out SF_BINARY32 4 layout_binary32 eq_refl eq_refl ltac:(lia)). Qed.

(** An x87 image of any kind: unnormals read as NaN, so a normal class always
    has a nonzero significand. *)
Lemma xf_in_num a : image_ok a -> wf_num (xf_in a).
Proof.
  intros Ha. unfold xf_in. rewrite (from_bits_packed _ layout_x87_80 a Ha).
  change (frac_bits SF_X87_80) with 64. set (W := le_bytes a).
  pose proof (Z.mod_pos_bound W (2 ^ 64) ltac:(done)).
  destruct (split128 (W mod 2 ^ 64)) as [h l] eqn:Es. apply split128_inv in Es as (Hh & Hl & _); [|lia].
  unfold decode. change (explicit_intbit SF_X87_80) with true.
  destruct (_ =? Z.shiftl 1 _ - 1); [by destruct (_ && _)|].
  destruct ((_ =? 0) && (h |64 l =? 0)) eqn:Ez; [done|].
  destruct (true && _ && _) eqn:En; [done|].
  assert (Hnz : pairval h l <> 0).
  { intros E. assert (h = 0 /\ l = 0) as [-> ->] by (apply pairval_inj; done).
    cbn in Ez, En. rewrite andb_true_r in Ez. rewrite Ez in En. done. }
  pose proof (pairval_range h l Hh Hl).
  destruct (_ =? 0); intros _; cbn [hi lo negb]; (split; [exact Hh|split; [exact Hl|lia]]).
Qed.

(** Conversion to an integer truncates toward zero and saturates: a value
    beyond the target range gives the end of the range on its side, NaN the
    maximum; for the 32-, 64- and 128-bit targets, signed and unsigned, and
    for every source format the runtime accepts. *)
Theorem tf_fix_saturates a d s x :
  image_ok a -> image_ok x ->
  length d = 8%nat -> bytes_ok d -> length s = 4%nat -> bytes_ok s ->
  __fixtfsi a = saturate (- 2 ^ 31) (2 ^ 31 - 1) (tf_in a) /\
  __fixtfdi a = saturate (- 2 ^ 63) (2 ^ 63 - 1) (tf_in a) /\
  __fixunstfsi a = saturate 0 (2 ^ 32 - 1) (tf_in a) /\
  __fixunstfdi a = saturate 0 (2 ^ 64 - 1) (tf_in a) /\
  ti_value false (__fixtfti a) = saturate (- 2 ^ 127) (2 ^ 127 - 1) (tf_in a) /\
  ti_value true (__fixunstfti a) = saturate 0 (2 ^ 128 - 1) (tf_in a) /\
  ti_value false (__fixdfti d) = saturate (- 2 ^ 127) (2 ^ 127 - 1) (df_in d) /\
  ti_value true (__fixunsdfti d) = saturate 0 (2 ^ 128 - 1) (df_in d) /\
  ti_value false (__fixsfti s) = saturate (- 2 ^ 127) (2 ^ 127 - 1) (sf_in s) /\
  ti_value true (__fixunssfti s) = saturate 0 (2 ^ 128 - 1) (sf_in s) /\
  ti_value false (__fixxfti x) = saturate (- 2 ^ 127) (2 ^ 127 - 1) (xf_in x) /\
  ti_value true (__fixunsxfti x) = saturate 0 (2 ^ 128 - 1) (xf_in x).
Proof.
  intros Ha Hx Ld Bd Ls Bs.
  assert (Na : wf_num (tf_in a)) by (apply wf_opnd_num, canonical_opnd, tf_in_canonical; done).
  assert (Nd : wf_num (df_in d)) by (apply (canonical_num SF_BINARY64), double_in; done).
  assert (Ns : wf_num (sf_in s)) by (apply (canonical_num SF_BINARY32), single_in; done).
  pose proof (xf_in_num x Hx) as Nx.
  assert (R : forall lo hi v, lo <= 0 <= hi -> lo <= saturate lo hi v <= hi).
  { intros lo hi v H. unfold saturate, clamp. destruct (cls v), (sign v); lia. }
  unfold __fixtfsi, __fixtfdi, __fixunstfsi, __fixunstfdi.
  rewrite !fix_saturating_spec by (done || lia). unfold saturated_bits, int_min, int_max.
  change (32 - 1) with 31. change (64 - 1) with 63.
  pose proof (R (- 2 ^ 31) (2 ^ 31 - 1) (tf_in a) ltac:(lia)) as R1.
  pose proof (R (- 2 ^ 63) (2 ^ 63 - 1) (tf_in a) ltac:(lia)) as R2.
  pose proof (R 0 (2 ^ 32 - 1) (tf_in a) ltac:(lia)) as R3.
  pose proof (R 0 (2 ^ 64 - 1) (tf_in a) ltac:(lia)) as R4. clear R.
  unfold i32, i64, u32, u64. rewrite !Zmod_mod.
  split. { clear R2 R3 R4. destruct (Z.ltb_spec (saturate (- 2 ^ 31) (2 ^ 31 - 1) (tf_in a) mod 2 ^ 32) (2 ^ 31));
    Z.div_mod_to_equations; lia. }
  split. { clear R1 R3 R4. destruct (Z.ltb_spec (saturate (- 2 ^ 63) (2 ^ 63 - 1) (tf_in a) mod 2 ^ 64) (2 ^ 63));
    Z.div_mod_to_equations; lia. }
  split; [rewrite Z.mod_small; lia|]. split; [rewrite Z.mod_small; lia|].
  split_and!; by apply fix_ti_spec.
Qed.

Lemma tf_fix_saturates_witness :
  (* 1e30 does not fit 64 bits *)
  let a := tf_out (sf_from_decimal [49] 30 SF_BINARY128 no_status).1 in
  let d := [0; 0; 0; 0; 0; 0; 0xf8; 0x7f] in
  image_ok a /\ __fixtfdi a = 2 ^ 63 - 1 /\ ti_value false (__fixdfti d) = 2 ^ 127 - 1.
Proof.
  intros a d.
  assert (Ha : image_ok a).
  { split; [reflexivity|]. intros i Hi. do 16 (destruct i as [|i]; [vm_compute; split; congruence|]). lia. }
  assert (Hd : bytes_ok d).
  { intros i Hi. do 8 (destruct i as [|i]; [vm_compute; split; congruence|]). simpl in Hi. lia. }
  assert (Hs : bytes_ok [0; 0; 0; 0]).
  { intros i Hi. do 4 (destruct i as [|i]; [vm_compute; split; congruence|]). simpl in Hi. lia. }
  destruct (tf_fix_saturates a d [0; 0; 0; 0] a Ha Ha eq_refl Hd eq_refl Hs) as (_ & E & _ & _ & _ & _ & F & _).
  split; [exact Ha|]. split; [rewrite E|rewrite F]; vm_compute; reflexivity.
Defined.

Lemma ti_neg_value a :
  is_u64 (ti_lo a) -> is_u64 (ti_hi a) -> 2 ^ 127 <= pairval (ti_hi a) (ti_lo a) ->
  is_u64 (ti_hi (ti_neg a)) /\ is_u64 (ti_lo (ti_neg a)) /\
  pairval (ti_hi (ti_neg a)) (ti_lo (ti_neg a)) = 2 ^ 128 - pairval (ti_hi a) (ti_lo a).
Proof.
  intros Hl Hh Hv. destruct a as [l h]. unfold ti_neg. cbn [ti_lo ti_hi] in *.
  unfold is_u64, pairval in *.
  assert (El : ~64 l +64 1 = if l =? 0 then 0 else 2 ^ 64 - l).
  { unfold u64, Z.lnot. destruct (Z.eqb_spec l 0); Z.div_mod_to_equations; lia. }
  rewrite El. destruct (Z.eqb_spec l 0); cbn [Z.eqb b2z].
  - assert (Eh : ~64 h +64 1 = 2 ^ 64 - h).
    { unfold u64, Z.lnot. Z.div_mod_to_equations; lia. }
    change (b2z (0 =? 0)) with 1. rewrite Eh. lia.
  - destruct (Z.eqb_spec (2 ^ 64 - l) 0); [lia|]. cbn [b2z].
    assert (Eh : ~64 h +64 0 = 2 ^ 64 - 1 - h).
    { unfold u64, Z.lnot. Z.div_mod_to_equations; lia. }
    rewrite Eh. lia.
Qed.

Lemma from_ti_rounds a uns f :
  wf_format f -> is_u64 (ti_lo a) -> is_u64 (ti_hi a) ->
  from_ti a uns f =
    (if ti_value uns a =? 0 then special false SF_ZERO
     else (round_signed f (inject_Z (ti_value uns a)) no_status).1).
Proof.
  intros Hf Hl Hh. unfold from_ti, ti_value. pose proof (pairval_range _ _ Hh Hl) as R.
  set (v := pairval (ti_hi a) (ti_lo a)) in *.
  assert (Es : negb (ti_hi a >>64 63 =? 0) = negb (v <? 2 ^ 127)).
  { f_equal. rewrite Z.shiftr_div_pow2 by done. unfold v, pairval, is_u64 in *.
    destruct (Z.ltb_spec (ti_hi a * 2 ^ 64 + ti_lo a) (2 ^ 127)).
    - rewrite Z.div_small by lia. done.
    - apply Z.eqb_neq. Z.div_mod_to_equations; lia. }
  rewrite Es. destruct uns; cbn [negb andb].
  { rewrite sf_from_int128_rounds by done. fold v. by destruct (v =? 0). }
  destruct (Z.ltb_spec v (2 ^ 127)); cbn [negb].
  - rewrite sf_from_int128_rounds by done. fold v. by destruct (v =? 0).
  - destruct (ti_neg_value a) as (Nh & Nl & Nv); [done..|].
    rewrite sf_from_int128_rounds, Nv by done. fold v.
    destruct (Z.eqb_spec (2 ^ 128 - v) 0); [lia|]. destruct (Z.eqb_spec (v - 2 ^ 128) 0); [lia|].
    unfold signed_Z. by replace (- (2 ^ 128 - v)) with (v - 2 ^ 128) by lia.
Qed.

(** The bytes of a result read back as the value that was computed. *)
Lemma from_ti_canonical a uns f :
  wf_format f -> is_u64 (ti_lo a) -> is_u64 (ti_hi a) -> canonical f (from_ti a uns f).
Proof.
  intros Hf Hl Hh. rewrite from_ti_rounds by done. destruct (_ =? 0); [done|].
  by apply round_signed_canonical.
Qed.

(** Integers convert exactly to binary128 up to 64 bits, the most
    negative value included, and correctly rounded from 128 bits to binary32,
    binary64, binary128 and the x87 format. *)
Theorem tf_from_integers_correct v w t :
  - 2 ^ 63 <= v < 2 ^ 63 -> is_u64 w -> is_u64 (ti_lo t) -> is_u64 (ti_hi t) ->
  let rounds f uns := if ti_value uns t =? 0 then special false SF_ZERO
                      else (round_signed f (inject_Z (ti_value uns t)) no_status).1 in
  (value (tf_in (__floatditf v)) == inject_Z v)%Q /\
  (- 2 ^ 31 <= v < 2 ^ 31 -> (value (tf_in (__floatsitf v)) == inject_Z v)%Q) /\
  (value (tf_in (__floatunditf w)) == inject_Z w)%Q /\
  (w < 2 ^ 32 -> (value (tf_in (__floatunsitf w)) == inject_Z w)%Q) /\
  tf_in (__floattitf t) = rounds SF_BINARY128 false /\ tf_in (__floatuntitf t) = rounds SF_BINARY128 true /\
  df_in (__floattidf t) = rounds SF_BINARY64 false /\ df_in (__floatuntidf t) = rounds SF_BINARY64 true /\
  sf_in (__floattisf t) = rounds SF_BINARY32 false /\ sf_in (__floatuntisf t) = rounds SF_BINARY32 true /\
  xf_in (__floattixf t) = rounds SF_X87_80 false /\ xf_in (__floatuntixf t) = rounds SF_X87_80 true.
Proof.
  intros Hv Hw Hl Hh rounds.
  assert (S : (value (tf_in (from_signed v)) == inject_Z v)%Q).
  { unfold from_signed. set (mag := if v <? 0 then _ else _).
    assert (M : is_u64 mag /\ signed_Z (v <? 0) mag = v).
    { unfold mag, signed_Z, is_u64, u64. destruct (Z.ltb_spec v 0); Z.div_mod_to_equations; lia. }
    destruct M as [M E]. destruct (from_int_exact mag (v <? 0) no_status M) as [C V].
    rewrite tf_out_in by done. by rewrite V, E. }
  assert (U : (value (tf_in (tf_out (sf_from_int w false SF_BINARY128 no_status).1)) == inject_Z w)%Q).
  { destruct (from_int_exact w false no_status Hw) as [C V]. by rewrite tf_out_in. }
  split; [exact S|]. split; [intros _; exact S|]. split; [exact U|]. split; [intros _; exact U|].
  assert (R : forall f uns, wf_format f -> from_ti t uns f = rounds f uns)
    by (intros f uns Hf; by apply from_ti_rounds).
  assert (C : forall f uns, wf_format f -> canonical f (from_ti t uns f))
    by (intros f uns Hf; by apply from_ti_canonical).
  split_and!; rewrite <- R by done.
  - by apply tf_out_in, C.
  - by apply tf_out_in, C.
  - by apply (narrow_out_in SF_BINARY64 8 layout_binary64 eq_refl eq_refl ltac:(lia)), C.
  - by apply (narrow_out_in SF_BINARY64 8 layout_binary64 eq_refl eq_refl ltac:(lia)), C.
  - by apply (narrow_out_in SF_BINARY32 4 layout_binary32 eq_refl eq_refl ltac:(lia)), C.
  - by apply (narrow_out_in SF_BINARY32 4 layout_binary32 eq_refl eq_refl ltac:(lia)), C.
  - by apply bits_roundtrip, C; [apply layout_x87_80|].
  - by apply bits_roundtrip, C; [apply layout_x87_80|].
Qed.

Lemma tf_from_integers_witness :
  df_in (__floattidf (ti_pair 0 (2 ^ 63))) = mkSf true SF_NORMAL 75 0 (2 ^ 52) /\
  (value (tf_in (__floatditf (- 2 ^ 63))) == inject_Z (- 2 ^ 63))%Q.
Proof.
  assert (H0 : is_u64 0) by (unfold is_u64; lia). assert (H1 : is_u64 (2 ^ 63)) by (unfold is_u64; lia).
  destruct (tf_from_integers_correct (- 2 ^ 63) 0 (ti_pair 0 (2 ^ 63)) ltac:(lia) H0 H0 H1)
    as (V & _ & _ & _ & _ & _ & E & _).
  split; [|exact V]. rewrite E. vm_compute. reflexivity.
Defined.

(** The narrowing of a decoded value. *)
Definition narrowed (f : SfFormat) (v : Sf) : Sf :=
  if decide (cls v = SF_NORMAL) then (round_signed f (value v) no_status).1 else v.

Lemma narrowed_spec f v :
  wf_format f -> canonical SF_BINARY128 v ->
  canonical f (narrowed f v) /\ (sf_convert v SF_BINARY128 f no_status).1 = narrowed f v.
Proof.
  intros Hf C. rewrite sf_convert_rounds by (done || by apply wf_opnd_num, canonical_opnd).
  unfold narrowed. destruct (decide (cls v = SF_NORMAL)) as [N|N]; split; try reflexivity.
  - by apply round_signed_canonical.
  - unfold canonical in *. by destruct (cls v).
Qed.

(** Widening carries a narrow carrier through binary128 and back. *)
Lemma widen_carrier f n a :
  wf_layout f -> explicit_intbit f = false -> total_bytes f = Z.of_nat n -> (n <= 16)%nat ->
  prec_of f <= prec_of SF_BINARY128 -> qmin SF_BINARY128 <= qmin f ->
  emax_of f + 1 <= emax_of SF_BINARY128 ->
  length a = n -> bytes_ok a ->
  let v := sf_from_bits (padded a) f in
  let w := tf_out (sf_convert v f SF_BINARY128 no_status).1 in
  (value (tf_in w) == value v)%Q /\ cls (tf_in w) = cls v /\
  (cls v <> SF_NAN -> take n (sf_to_bits (sf_convert (tf_in w) SF_BINARY128 f no_status).1 f) = a).
Proof.
  intros Hf Hx Hn Hle Hp Hq He Hl Hb v w.
  destruct (narrow_in_out f n Hf Hx Hn Hle a Hl Hb) as [C R]. fold v in C, R.
  destruct (widen_narrow f SF_BINARY128 v no_status no_status (layout_wf f Hf) wf_binary128 C Hp Hq He)
    as (Cw & V & K & B).
  unfold w. rewrite tf_out_in by exact Cw. split; [exact V|]. split; [exact K|].
  intros N. rewrite B. apply R. by apply bool_decide_eq_false.
Qed.

(** Widening to binary128 is exact and keeps the class, and narrowing
    back returns the original bytes of every double and float but a NaN;
    narrowing itself is correctly rounded. *)
Theorem tf_float_conversions_correct d s a :
  length d = 8%nat -> bytes_ok d -> length s = 4%nat -> bytes_ok s -> image_ok a ->
  ((value (tf_in (__extenddftf2 d)) == value (df_in d))%Q /\
   cls (tf_in (__extenddftf2 d)) = cls (df_in d) /\
   (cls (df_in d) <> SF_NAN -> __trunctfdf2 (__extenddftf2 d) = d)) /\
  ((value (tf_in (__extendsftf2 s)) == value (sf_in s))%Q /\
   cls (tf_in (__extendsftf2 s)) = cls (sf_in s) /\
   (cls (sf_in s) <> SF_NAN -> __trunctfsf2 (__extendsftf2 s) = s)) /\
  df_in (__trunctfdf2 a) = narrowed SF_BINARY64 (tf_in a) /\
  sf_in (__trunctfsf2 a) = narrowed SF_BINARY32 (tf_in a).
Proof.
  intros Ld Bd Ls Bs Ha. pose proof (tf_in_canonical a Ha) as Ca.
  split; [|split; [|split]].
  - apply (widen_carrier SF_BINARY64 8 d layout_binary64 eq_refl eq_refl); try done; vm_compute; lia || discriminate.
  - apply (widen_carrier SF_BINARY32 4 s layout_binary32 eq_refl eq_refl); try done; vm_compute; lia || discriminate.
  - destruct (narrowed_spec SF_BINARY64 (tf_in a) wf_binary64 Ca) as [C E]. unfold __trunctfdf2. rewrite E.
    by apply (narrow_out_in SF_BINARY64 8 layout_binary64 eq_refl eq_refl ltac:(lia)).
  - destruct (narrowed_spec SF_BINARY32 (tf_in a) wf_binary32 Ca) as [C E]. unfold __trunctfsf2. rewrite E.
    by apply (narrow_out_in SF_BINARY32 4 layout_binary32 eq_refl eq_refl ltac:(lia)).
Qed.

Lemma tf_float_conversions_witness :
  let d := [1; 0; 0; 0; 0; 0; 0; 0x80] in   (* the negative smallest subnormal *)
  __trunctfdf2 (__extenddftf2 d) = d.
Proof.
  intros d.
  assert (Hd : bytes_ok d).
  { intros i Hi. do 8 (destruct i as [|i]; [vm_compute; split; congruence|]). simpl in Hi. lia. }
  assert (Hs : bytes_ok [0; 0; 0; 0]).
  { intros i Hi. do 4 (destruct i as [|i]; [vm_compute; split; congruence|]). simpl in Hi. lia. }
  apply (tf_float_conversions_correct d [0; 0; 0; 0] tf_default_nan eq_refl Hd eq_refl Hs default_nan_image).
  vm_compute. discriminate.
Defined.

(** The format conversions go through the core, so they do drop a NaN's
    payload: two doubles that are NaNs with different payloads widen to one
    image. *)
Example extend_drops_payload :
  __extenddftf2 [5; 0; 0; 0; 0; 0; 0xf8; 0x7f] = __extenddftf2 [7; 0; 0; 0; 0; 0; 0xf8; 0x7f].
Proof. vm_compute. reflexivity. Qed.
