(* ===== verification/Pptok.v ===== *)
(** The data the preprocessor, the lexer and the constant evaluators share:
    characters, preprocessing tokens ([src/pp/pp.h]), language and target
    options ([src/lex/lex.h], [src/target.h]) and the log of diagnostics.

    A [char] is its code; a spelling is the list of its characters, so that
    [t->len] is the list's length and a read past the end meets the NUL. *)
From Stdlib Require Import Ascii String.
From S2P Require Import Prelude.
#[local] Open Scope Z_scope.

(** ** Characters *)
Definition chr (a : ascii) : Z := Z.of_N (N_of_ascii a).
Definition chars (s : string) : list Z := map chr (list_ascii_of_string s).

Definition between (c : Z) (lo hi : ascii) : bool := (chr lo <=? c) && (c <=? chr hi).
Definition is_one_of (c : Z) (a b : ascii) : bool := (c =? chr a) || (c =? chr b).

(** ** Preprocessing tokens *)
Inductive PpTokKind :=
| PPTOK_IDENT | PPTOK_PPNUM | PPTOK_CHARCONST | PPTOK_STRLIT | PPTOK_PUNCT
| PPTOK_HEADER_NAME | PPTOK_OTHER | PPTOK_PLACEMARKER | PPTOK_EOF.

Inductive PpPunct :=
| PUNCT_LBRACKET | PUNCT_RBRACKET | PUNCT_LPAREN | PUNCT_RPAREN | PUNCT_LBRACE
| PUNCT_RBRACE | PUNCT_DOT | PUNCT_ARROW | PUNCT_PLUSPLUS | PUNCT_MINUSMINUS
| PUNCT_AMP | PUNCT_STAR | PUNCT_PLUS | PUNCT_MINUS | PUNCT_TILDE | PUNCT_BANG
| PUNCT_SLASH | PUNCT_PERCENT | PUNCT_SHL | PUNCT_SHR | PUNCT_LT | PUNCT_GT
| PUNCT_LE | PUNCT_GE | PUNCT_EQEQ | PUNCT_NOTEQ | PUNCT_CARET | PUNCT_PIPE
| PUNCT_AMPAMP | PUNCT_PIPEPIPE | PUNCT_QUESTION | PUNCT_COLON | PUNCT_SEMI
| PUNCT_ELLIPSIS | PUNCT_ASSIGN | PUNCT_STAR_ASSIGN | PUNCT_SLASH_ASSIGN
| PUNCT_PERCENT_ASSIGN | PUNCT_PLUS_ASSIGN | PUNCT_MINUS_ASSIGN
| PUNCT_SHL_ASSIGN | PUNCT_SHR_ASSIGN | PUNCT_AMP_ASSIGN | PUNCT_CARET_ASSIGN
| PUNCT_PIPE_ASSIGN | PUNCT_COMMA | PUNCT_HASH | PUNCT_HASHHASH.

#[export] Instance PpTokKind_eq_dec : EqDecision PpTokKind.
Proof. solve_decision. Defined.
#[export] Instance PpPunct_eq_dec : EqDecision PpPunct.
Proof. solve_decision. Defined.

(** A location is an index of the location table. *)
Definition SrcLoc := Z.

(** The hide-set belongs to macro expansion; the space flag is the only flag
    bit the evaluators read. *)
Record PpToken := mkTok {
  kind : PpTokKind;
  punct : PpPunct;
  spelling : list Z;
  tok_loc : SrcLoc;
  f_space : bool;
}.
Definition tok_len (t : PpToken) : Z := Z.of_nat (length (spelling t)).

(** ** Diagnostics: the log of calls, oldest first *)
Inductive WarnId := WARN_MULTICHAR | WARN_OVERFLOW | WARN_PEDANTIC | WARN_C90_C99_COMPAT.
Inductive Diag :=
| pp_diag_at (loc : SrcLoc) (len : Z) (msg : string)
| pp_warn_at (id : WarnId) (loc : SrcLoc) (len : Z) (msg : string)
| pp_pedwarn_at (id : WarnId) (loc : SrcLoc) (len : Z) (msg : string).

(** [pp_diag_at] is only called with [DIAG_ERROR] here. *)
Definition is_error (d : Diag) : bool := match d with pp_diag_at _ _ _ => true | _ => false end.
Definition no_errors (ds : list Diag) : bool := forallb (fun d => negb (is_error d)) ds.

(** ** Language options and target widths *)
Inductive CStd := STD_C89 | STD_C99 | STD_C11 | STD_C17 | STD_GNU89 | STD_GNU99 | STD_GNU11 | STD_GNU17.
#[export] Instance CStd_eq_dec : EqDecision CStd.
Proof. solve_decision. Defined.
Definition std_is_c99_or_later (s : CStd) : bool :=
  negb (bool_decide (s = STD_C89)) && negb (bool_decide (s = STD_GNU89)).

Inductive TargetKind :=
| CGF_TARGET_X86_64_LINUX_GNU | CGF_TARGET_ARM64_LINUX | CGF_TARGET_ARM64_MACOS
| CGF_TARGET_X86_64_LINUX_MUSL | CGF_TARGET_X86_64_FREEBSD.
#[export] Instance TargetKind_eq_dec : EqDecision TargetKind.
Proof. solve_decision. Defined.

(** The integer widths of a target, and whether plain [char] is signed. *)
Record IntWidths := { char_bits : Z; short_bits : Z; int_bits : Z; long_bits : Z; llong_bits : Z;
  wchar_bits : Z; char_signed : bool }.

Definition cgf_target_int_widths (t : TargetKind) : IntWidths :=
  {| char_bits := 8; short_bits := 16; int_bits := 32; long_bits := 64; llong_bits := 64; wchar_bits := 32;
     char_signed := match t with
       | CGF_TARGET_X86_64_LINUX_GNU | CGF_TARGET_X86_64_LINUX_MUSL | CGF_TARGET_X86_64_FREEBSD
       | CGF_TARGET_ARM64_MACOS => true
       | CGF_TARGET_ARM64_LINUX => false
       end |}.
