(* ===== verification/Numlit.v ===== *)
(** [src/lex/numlit.c], the integer half: classification of a pp-number, its
    value, its suffix and the ladder that picks its type. *)
From Stdlib Require Import Ascii String.
From S2P Require Import Prelude.
From S2P Require Import Pptok.
#[local] Open Scope Z_scope.

(** ** The token fields this file writes *)
Inductive IntConstType := ITY_INT | ITY_UINT | ITY_LONG | ITY_ULONG | ITY_LLONG | ITY_ULLONG.
Inductive FloatConstType :=
| FTY_FLOAT | FTY_DOUBLE | FTY_LDOUBLE | FTY_FLOAT32 | FTY_FLOAT64 | FTY_FLOAT32X
| FTY_FLOAT64X | FTY_FLOAT128.
Record Token := mkToken {
  int_val : Z; int_type : IntConstType;
  float_type : FloatConstType; float_ext_suffix : bool;
}.
Definition set_int (t : Token) (v : Z) (ty : IntConstType) : Token :=
  mkToken v ty (float_type t) (float_ext_suffix t).
Definition set_float (t : Token) (ty : FloatConstType) (ext : bool) : Token :=
  mkToken (int_val t) (int_type t) ty ext.

(** ** Classification *)

(** [len > 2 && sp[0] == '0' && (sp[1] == lo || sp[1] == up)] *)
Definition radix_prefix (sp : list Z) (lo up : ascii) : bool :=
  (2 <? Z.of_nat (length sp)) && (sp !!! 0%nat =? chr "0") && is_one_of (sp !!! 1%nat) lo up.

Definition lex_ppnum_is_float (sp : list Z) : bool :=
  let hex := radix_prefix sp "x" "X" in
  let binary := radix_prefix sp "b" "B" in
  existsb (fun c =>
    (c =? chr ".") || (negb hex && negb binary && is_one_of c "e" "E") ||
    (hex && is_one_of c "p" "P")) sp.

Definition fits (v bits : Z) (is_signed : bool) : bool :=
  if 64 <=? bits then (if is_signed then v >>64 63 =? 0 else true)
  else if is_signed then v <? 1 <<64 (bits - 1) else v <? 1 <<64 bits.

(** ** Suffix: 0 none, 1 long, 2 long long *)
Record IntSuffix := mkSuffix { suf_u : bool; suf_l : Z; bad : bool }.

(** The loop over the rest of the spelling, with the characters left when it
    stops; a bad suffix leaves [*end] where it was. *)
Fixpoint suffix_loop (fuel : nat) (s : list Z) (r : IntSuffix) : IntSuffix * list Z :=
  match fuel, s with
  | O, _ | _, [] => (r, s)
  | S fuel, c :: s' =>
    if is_one_of c "u" "U" && negb (suf_u r) then suffix_loop fuel s' (mkSuffix true (suf_l r) (bad r))
    else if is_one_of c "l" "L" && (suf_l r =? 0) then
      match s' with
      | c' :: s'' =>
        if c' =? c then suffix_loop fuel s'' (mkSuffix (suf_u r) 2 (bad r))
        else if is_one_of c' "l" "L" then (mkSuffix (suf_u r) (suf_l r) true, s)
        else suffix_loop fuel s' (mkSuffix (suf_u r) 1 (bad r))
      | [] => suffix_loop fuel s' (mkSuffix (suf_u r) 1 (bad r))
      end
    else (mkSuffix (suf_u r) (suf_l r) true, s)
  end.
Definition parse_int_suffix (s : list Z) : IntSuffix * list Z :=
  let '(r, rest) := suffix_loop (length s) s (mkSuffix false 0 false) in
  (r, if bad r then s else rest).

(** ** Digits *)
Definition digit_of (base c : Z) : option Z :=
  if between c "0" "9" then Some (c - chr "0")
  else if (base =? 16) && between c "a" "f" then Some (c - chr "a" + 10)
  else if (base =? 16) && between c "A" "F" then Some (c - chr "A" + 10)
  else None.

(** The digit loop stops at the first other character, or returns at a digit
    the base does not have. *)
Inductive DigitScan := Scanned (v : Z) (overflow : bool) (rest : list Z) | BadDigit (c : Z).
Fixpoint scan_digits (base : Z) (s : list Z) (v : Z) (overflow : bool) : DigitScan :=
  match s with
  | [] => Scanned v overflow []
  | c :: s' =>
    match digit_of base c with
    | None => Scanned v overflow s
    | Some d =>
      if base <=? d then BadDigit c
      else scan_digits base s' ((v *64 base) +64 d)
             (if (2 ^ 64 - 1 - d) / base <? v then true else overflow)
    end
  end.

(** ** The type ladder: [None] is the jump to [too_big_decimal] *)
Definition int_ladder (decimal_ladder c89 : bool) (v : Z) (suf : IntSuffix) (w : IntWidths) :
    option IntConstType :=
  let int_bits := int_bits w in let long_bits := long_bits w in let llong_bits := llong_bits w in
  if suf_u suf && (suf_l suf =? 2) then Some ITY_ULLONG
  else if suf_u suf && (suf_l suf =? 1) then
    Some (if fits v long_bits false then ITY_ULONG else ITY_ULLONG)
  else if suf_u suf then
    Some (if fits v int_bits false then ITY_UINT
          else if fits v long_bits false then ITY_ULONG else ITY_ULLONG)
  else if suf_l suf =? 2 then
    if fits v llong_bits true then Some ITY_LLONG
    else if decimal_ladder then None else Some ITY_ULLONG
  else if suf_l suf =? 1 then
    if fits v long_bits true then Some ITY_LONG
    else if negb decimal_ladder && fits v long_bits false then Some ITY_ULONG
    else if fits v llong_bits true then Some ITY_LLONG
    else if decimal_ladder then None else Some ITY_ULLONG
  else if fits v int_bits true then Some ITY_INT
  else if negb decimal_ladder && fits v int_bits false then Some ITY_UINT
  else if fits v long_bits true then Some ITY_LONG
  else if negb decimal_ladder && fits v long_bits false then Some ITY_ULONG
  else if decimal_ladder && c89 then
    if fits v long_bits false then Some ITY_ULONG else None
  else if fits v llong_bits true then Some ITY_LLONG
  else if negb decimal_ladder then Some ITY_ULLONG
  else None.

Section lex_int_const.
  Context (t : Token) (sp : list Z) (std : CStd) (w : IntWidths) (loc : SrcLoc).
  #[local] Notation "'err'" := (fun msg => pp_diag_at loc (Z.of_nat (length sp)) msg).

(** From the digit loop on, with the diagnostics already given. *)
Definition int_const_body (base : Z) (rest : list Z) (log : list Diag) : Token * list Diag :=
  match scan_digits base rest 0 false with
  | BadDigit _ =>
    (t, log ++ [err (if base =? 2 then "invalid digit '%c' in binary constant"%string
                    else "invalid digit '%c' in octal constant"%string)])
  | Scanned v overflow rest =>
    let '(suf, rest) := parse_int_suffix rest in
    if bad suf || negb (Z.of_nat (length rest) =? 0) then
      (t, log ++ [err "invalid suffix on integer constant '%s'"%string])
    else if overflow then
      (set_int t v ITY_ULLONG,
       log ++ [err "integer constant is too large for any integer type"%string])
    else
      match int_ladder (base =? 10) (bool_decide (std = STD_C89) || bool_decide (std = STD_GNU89)) v suf w with
      | Some ty => (set_int t v ty, log)
      | None =>
        (set_int t v ITY_ULLONG,
         log ++ [pp_pedwarn_at WARN_OVERFLOW loc (Z.of_nat (length sp))
                   "integer constant is so large that it is unsigned"%string])
      end
  end.

Definition lex_int_const : Token * list Diag :=
  let len := Z.of_nat (length sp) in
  if radix_prefix sp "x" "X" then
    if len <=? 2 then (t, [err "hexadecimal constant has no digits"%string])
    else int_const_body 16 (drop 2 sp) []
  else if radix_prefix sp "b" "B" then
    let log := [pp_pedwarn_at WARN_PEDANTIC loc len
                  "binary constants are a C23 feature or GNU extension"%string] in
    if len <=? 2 then (t, log ++ [err "binary constant has no digits"%string])
    else int_const_body 2 (drop 2 sp) log
  else if (1 <? len) && (sp !!! 0%nat =? chr "0") then int_const_body 8 (drop 1 sp) []
  else int_const_body 10 sp [].
End lex_int_const.

(** ** Checks *)
Definition lp64 : IntWidths := cgf_target_int_widths CGF_TARGET_X86_64_LINUX_GNU.
Definition no_token : Token := mkToken 0 ITY_INT FTY_DOUBLE false.

Example decimal_2_31 : lex_int_const no_token (chars "2147483648") STD_C17 lp64 0 =
  (mkToken 2147483648 ITY_LONG FTY_DOUBLE false, []).
Proof. vm_compute. reflexivity. Qed.
Example hex_2_31 : (lex_int_const no_token (chars "0x80000000") STD_C17 lp64 0).1 =
  mkToken 2147483648 ITY_UINT FTY_DOUBLE false.
Proof. vm_compute. reflexivity. Qed.

(** ** The ladder is the table of 6.4.4.1 *)
Definition candidates (decimal c89 : bool) (suf : IntSuffix) : list IntConstType :=
  match suf_u suf, suf_l suf with
  | false, 0 =>
    if decimal then [ITY_INT; ITY_LONG; if c89 then ITY_ULONG else ITY_LLONG]
    else [ITY_INT; ITY_UINT; ITY_LONG; ITY_ULONG; ITY_LLONG; ITY_ULLONG]
  | false, 1 =>
    if decimal then [ITY_LONG; ITY_LLONG] else [ITY_LONG; ITY_ULONG; ITY_LLONG; ITY_ULLONG]
  | false, _ => if decimal then [ITY_LLONG] else [ITY_LLONG; ITY_ULLONG]
  | true, 0 => [ITY_UINT; ITY_ULONG; ITY_ULLONG]
  | true, 1 => [ITY_ULONG; ITY_ULLONG]
  | true, _ => [ITY_ULLONG]
  end.

(** The first value a type cannot hold. *)
Definition type_limit (w : IntWidths) (ty : IntConstType) : Z :=
  2 ^ match ty with
      | ITY_INT => int_bits w - 1 | ITY_UINT => int_bits w
      | ITY_LONG => long_bits w - 1 | ITY_ULONG => long_bits w
      | ITY_LLONG => llong_bits w - 1 | ITY_ULLONG => llong_bits w
      end.
Definition type_fits (w : IntWidths) (v : Z) (ty : IntConstType) : bool := v <? type_limit w ty.

Definition widths_ok (w : IntWidths) : Prop :=
  2 <= int_bits w <= long_bits w /\ long_bits w <= llong_bits w /\ llong_bits w = 64.

Lemma shl_one64 k : 0 <= k < 64 -> 1 <<64 k = 2 ^ k.
Proof.
  intros Hk. rewrite Z.shiftl_1_l. apply u64_small. unfold is_u64.
  pose proof (pow2_pos k ltac:(lia)). pose proof (pow2_lt k 64 ltac:(lia) ltac:(lia)). lia.
Qed.

Lemma fits_spec v bits s :
  1 <= bits <= 64 -> 0 <= v < 2 ^ 64 -> fits v bits s = (v <? 2 ^ (if s then bits - 1 else bits)).
Proof.
  intros Hb Hv. unfold fits. destruct (Z.leb_spec 64 bits).
  - assert (bits = 64) as -> by lia. destruct s; [|symmetry; apply Z.ltb_lt; lia].
    change (64 - 1) with 63. rewrite Z.shiftr_div_pow2 by lia.
    destruct (Z.ltb_spec v (2 ^ 63)); [by rewrite Z.div_small by lia|].
    apply Z.eqb_neq. Z.div_mod_to_equations; lia.
  - destruct s; rewrite shl_one64 by lia; done.
Qed.

Definition suffix_ok (suf : IntSuffix) : Prop := suf_l suf = 0 \/ suf_l suf = 1 \/ suf_l suf = 2.

Lemma int_ladder_spec decimal c89 v suf w :
  widths_ok w -> suffix_ok suf -> 0 <= v < 2 ^ 64 ->
  int_ladder decimal c89 v suf w = find (type_fits w v) (candidates decimal c89 suf).
Proof.
  intros (Hi & Hl & Hll) Hs Hv. unfold int_ladder, candidates.
  rewrite !fits_spec by (done || lia).
  assert (L : (v <? 2 ^ llong_bits w) = true) by (rewrite Hll; apply Z.ltb_lt; lia).
  destruct suf as [u l b]. cbn [suf_u suf_l] in *. unfold suffix_ok in Hs. cbn [suf_l] in Hs.
  destruct Hs as [-> | [-> | ->]], u, decimal; cbn [Z.eqb Pos.eqb andb negb find];
    unfold type_fits, type_limit; rewrite ?L; repeat case_match; try done; congruence.
Qed.

(** ** Digit strings *)
Definition nval_from (base v : Z) (ds : list Z) : Z :=
  fold_left (fun v c => v * base + default 0 (digit_of base c)) ds v.
Definition nval (base : Z) (ds : list Z) : Z := nval_from base 0 ds.
Definition is_digit_of (base c : Z) : Prop :=
  match digit_of base c with Some d => d < base | None => False end.

Lemma digit_of_nonneg base c d : digit_of base c = Some d -> 0 <= d < 16.
Proof.
  unfold digit_of, between. change (chr "0") with 48. change (chr "9") with 57.
  change (chr "a") with 97. change (chr "f") with 102. change (chr "A") with 65. change (chr "F") with 70.
  repeat case_match; intros [= <-]; rewrite ?andb_true_iff, ?Z.leb_le in *; lia.
Qed.

Lemma nval_from_ge base v ds :
  1 <= base -> 0 <= v -> Forall (is_digit_of base) ds -> v <= nval_from base v ds.
Proof.
  intros Hb. revert v. induction ds as [|c ds IH]; intros v Hv H; [unfold nval_from; simpl; lia|].
  apply Forall_cons_iff in H as [Hc H]. unfold nval_from. cbn [fold_left].
  unfold is_digit_of in Hc. destruct (digit_of base c) as [d|] eqn:E; [|done].
  apply digit_of_nonneg in E. cbn [default]. specialize (IH (v * base + d) ltac:(nia) H).
  unfold nval_from in IH. cbn. nia.
Qed.

(** The overflow test is exact: [v] is the running value modulo [2^64] and
    the flag tells whether the running value passed [2^64 - 1]. *)
Lemma scan_digits_app base ds rest V :
  2 <= base <= 16 -> 0 <= V -> Forall (is_digit_of base) ds ->
  scan_digits base (ds ++ rest) (u64 V) (2 ^ 64 <=? V) =
  scan_digits base rest (u64 (nval_from base V ds)) (2 ^ 64 <=? nval_from base V ds).
Proof.
  intros Hb. revert V. induction ds as [|c ds IH]; intros V HV H; [done|].
  apply Forall_cons_iff in H as [Hc H]. cbn [app scan_digits]. unfold is_digit_of in Hc.
  change (nval_from base V (c :: ds)) with (nval_from base (V * base + default 0 (digit_of base c)) ds).
  destruct (digit_of base c) as [d|] eqn:E; [|done].
  apply digit_of_nonneg in E. destruct (Z.leb_spec base d); [lia|]. change (default 0 (Some d)) with d.
  rewrite <- (IH (V * base + d)) by (done || nia). f_equal.
  - unfold u64. by rewrite Z.mul_mod_idemp_l, Z.add_mod_idemp_l by done.
  - destruct (Z.leb_spec (2 ^ 64) V) as [Ho|Ho].
    + assert (2 ^ 64 <= V * base + d) by nia.
      destruct (_ <? _); symmetry; by apply Z.leb_le.
    + rewrite u64_small by (unfold is_u64; lia).
      assert (Q : (2 ^ 64 - 1 - d) / base < V <-> 2 ^ 64 <= V * base + d).
      { pose proof (Z.div_mod (2 ^ 64 - 1 - d) base ltac:(lia)).
        pose proof (Z.mod_pos_bound (2 ^ 64 - 1 - d) base ltac:(lia)).
        set (q := (2 ^ 64 - 1 - d) / base) in *. split; intros; nia. }
      destruct (Z.ltb_spec ((2 ^ 64 - 1 - d) / base) V), (Z.leb_spec (2 ^ 64) (V * base + d)); tauto || lia.
Qed.

(** Where the scan stops: after digits of the base. *)
Lemma scan_digits_inv base s V v ov rest :
  2 <= base <= 16 -> 0 <= V -> scan_digits base s (u64 V) (2 ^ 64 <=? V) = Scanned v ov rest ->
  exists ds, s = ds ++ rest /\ Forall (is_digit_of base) ds /\
    v = u64 (nval_from base V ds) /\ ov = (2 ^ 64 <=? nval_from base V ds).
Proof.
  intros Hb HV H. revert V HV H. induction s as [|c s IH]; intros V HV H.
  { injection H as <- <- <-. by exists []. }
  destruct (digit_of base c) as [d|] eqn:E; cbn [scan_digits] in H; rewrite E in H.
  2: { injection H as <- <- <-. by exists []. }
  destruct (Z.leb_spec base d) as [|Hd]; [done|].
  assert (D : is_digit_of base c) by (unfold is_digit_of; rewrite E; lia).
  pose proof (scan_digits_app base [c] s V Hb HV ltac:(by repeat constructor)) as A.
  cbn [app scan_digits] in A. rewrite E in A. destruct (Z.leb_spec base d); [lia|]. rewrite A in H.
  pose proof (nval_from_ge base V [c] ltac:(lia) HV ltac:(by repeat constructor)).
  apply IH in H as (ds & -> & F & -> & ->); [|lia].
  exists (c :: ds). split; [done|]. split; [by constructor|]. done.
Qed.

(** ** The suffixes of 6.4.4.1 *)
Definition u_suffixes : list (list Z) := map chars ["u"; "U"]%string.
Definition l_suffixes : list (list Z * Z) :=
  [(chars "l", 1); (chars "L", 1); (chars "ll", 2); (chars "LL", 2)].
Definition int_suffixes : list (list Z * IntSuffix) :=
  [([], mkSuffix false 0 false)] ++
  map (fun u => (u, mkSuffix true 0 false)) u_suffixes ++
  map (fun l => (l.1, mkSuffix false l.2 false)) l_suffixes ++
  flat_map (fun u => map (fun l => (u ++ l.1, mkSuffix true l.2 false)) l_suffixes) u_suffixes ++
  flat_map (fun l => map (fun u => (l.1 ++ u, mkSuffix true l.2 false)) u_suffixes) l_suffixes.

Lemma int_suffixes_parse :
  Forall (fun p => parse_int_suffix p.1 = (p.2, []) /\ suffix_ok p.2 /\ bad p.2 = false /\
    (p.1 = [] \/ Forall (fun base => digit_of base (hd 0 p.1) = None) [2; 8; 10; 16])) int_suffixes.
Proof.
  repeat (apply Forall_cons_iff; split;
    [split; [reflexivity|split; [unfold suffix_ok; simpl; lia|split; [reflexivity|]]];
     first [left; reflexivity|right; repeat constructor]|]).
  constructor.
Qed.

Lemma is_one_of_spec c a b : is_one_of c a b = true <-> c = chr a \/ c = chr b.
Proof. unfold is_one_of. by rewrite orb_true_iff, !Z.eqb_eq. Qed.

(** What the loop accepts from each of its states. *)
Lemma suffix_loop_ul fuel s l r rest :
  l = 1 \/ l = 2 ->
  suffix_loop fuel s (mkSuffix true l false) = (r, rest) -> bad r = false -> rest = [] ->
  s = [] /\ r = mkSuffix true l false.
Proof.
  intros Hl H Hb ->. destruct fuel as [|fuel], s as [|c s]; cbn [suffix_loop] in H;
    try (injection H as <-; done).
  rewrite andb_false_r in H. cbn [suf_l] in H.
  replace (l =? 0) with false in H by (symmetry; apply Z.eqb_neq; lia).
  rewrite andb_false_r in H. injection H as <- <-. done.
Qed.

Lemma suffix_loop_l fuel s l r rest :
  l = 1 \/ l = 2 ->
  suffix_loop fuel s (mkSuffix false l false) = (r, rest) -> bad r = false -> rest = [] ->
  (s = [] /\ r = mkSuffix false l false) \/ (In s u_suffixes /\ r = mkSuffix true l false).
Proof.
  intros Hl H Hb ->. destruct fuel as [|fuel], s as [|c s]; cbn [suffix_loop] in H;
    try (injection H as <-; auto).
  cbn [suf_u suf_l bad negb] in H. rewrite andb_true_r in H.
  destruct (is_one_of c "u" "U") eqn:E.
  - apply (suffix_loop_ul _ _ _ _ _ Hl) in H as [-> ->]; [|done..]. right. split; [|done].
    apply is_one_of_spec in E as [-> | ->]; simpl; auto.
  - replace (l =? 0) with false in H by (symmetry; apply Z.eqb_neq; lia).
    rewrite andb_false_r in H. injection H as <- <-. done.
Qed.

(** The [l]/[ll] branch, in either state of the [u] flag. *)
Lemma suffix_loop_l_step fuel c s u r rest :
  is_one_of c "u" "U" && negb u = false -> is_one_of c "l" "L" = true ->
  suffix_loop (S fuel) (c :: s) (mkSuffix u 0 false) = (r, rest) -> bad r = false ->
  exists l s', In (l.1, l.2) l_suffixes /\ c :: s = l.1 ++ s' /\
    suffix_loop fuel s' (mkSuffix u l.2 false) = (r, rest).
Proof.
  intros Hu Hl H Hb. cbn [suffix_loop suf_u suf_l bad] in H. rewrite Hu, Hl in H.
  cbn [andb Z.eqb] in H. apply is_one_of_spec in Hl.
  assert (One : suffix_loop fuel s (mkSuffix u 1 false) = (r, rest) ->
    exists l s', In (l.1, l.2) l_suffixes /\ c :: s = l.1 ++ s' /\
      suffix_loop fuel s' (mkSuffix u l.2 false) = (r, rest)).
  { intros H1. exists ([c], 1), s. split; [|done]. destruct Hl as [-> | ->]; simpl; auto. }
  destruct s as [|c' s'']; [by apply One|].
  destruct (Z.eqb_spec c' c) as [->|].
  - exists ([c; c], 2), s''. split; [|done]. destruct Hl as [-> | ->]; simpl; auto.
  - destruct (is_one_of c' "l" "L"); [by injection H as <- <-|by apply One].
Qed.

Lemma parse_int_suffix_inv s r rest :
  parse_int_suffix s = (r, rest) -> bad r = false -> rest = [] -> In (s, r) int_suffixes.
Proof.
  unfold parse_int_suffix. destruct (suffix_loop _ s _) as [r' rest'] eqn:E.
  intros H Hb ->. injection H as <- H. rewrite Hb in H. subst rest'.
  assert (LU : forall l, In (l.1, l.2) l_suffixes -> l.2 = 1 \/ l.2 = 2).
  { intros [x l] Hin. simpl in *. intuition congruence. }
  assert (In2 : forall u l, In u u_suffixes -> In (l.1, l.2) l_suffixes ->
    In (u ++ l.1, mkSuffix true l.2 false) int_suffixes /\ In (l.1 ++ u, mkSuffix true l.2 false) int_suffixes /\
    In (l.1, mkSuffix false l.2 false) int_suffixes /\ In (u, mkSuffix true 0 false) int_suffixes).
  { intros u [x l] Hu Hin. cbn [fst snd] in *. unfold int_suffixes. rewrite !in_app_iff, !in_flat_map, !in_map_iff.
    split; [|split; [|split]].
    - do 3 right. left. exists u. split; [done|]. apply in_map_iff. by exists (x, l).
    - do 4 right. exists (x, l). split; [done|]. apply in_map_iff. by exists u.
    - do 2 right. left. by exists (x, l).
    - right. left. by exists u. }
  destruct s as [|c s]; [injection E as <-; simpl; auto|].
  cbn [length] in E. destruct (is_one_of c "u" "U") eqn:Eu.
  - assert (Hu : In [c] u_suffixes) by (apply is_one_of_spec in Eu as [-> | ->]; simpl; auto).
    cbn [suffix_loop suf_u suf_l bad negb andb] in E. rewrite Eu in E. cbn [andb] in E.
    destruct s as [|c2 s]; [injection E as <-; by apply (In2 [c] (chars "l", 1)); simpl; auto|].
    cbn [length] in E. destruct (is_one_of c2 "l" "L") eqn:El.
    + apply suffix_loop_l_step in E as (l & s' & Hl & Es & E); [|by rewrite andb_false_r|done|done].
      apply suffix_loop_ul in E as [-> ->]; [|by apply LU|done|done].
      rewrite app_nil_r in Es. rewrite Es. by apply (In2 [c] l).
    + cbn [suffix_loop suf_u suf_l bad negb andb] in E. rewrite El, andb_false_r in E.
      cbn [andb] in E. injection E as <- _. done.
  - destruct (is_one_of c "l" "L") eqn:El.
    + apply suffix_loop_l_step in E as (l & s' & Hl & Es & E); [|by rewrite Eu|done|done].
      rewrite Es. apply suffix_loop_l in E as [[-> ->]|[Hu ->]]; [| |by apply LU|done|done].
      * rewrite app_nil_r. by apply (In2 (chars "u") l); [simpl; auto|].
      * by apply (In2 s' l).
    + cbn [suffix_loop suf_u suf_l bad negb andb] in E. rewrite Eu, El in E.
      cbn [andb] in E. injection E as <- _. done.
Qed.

(** ** Spellings *)
Inductive Radix := Dec | Oct | Hex (upper : bool) | Bin (upper : bool).
Definition radix_base (p : Radix) : Z :=
  match p with Dec => 10 | Oct => 8 | Hex _ => 16 | Bin _ => 2 end.
Definition radix_chars (p : Radix) : list Z :=
  match p with
  | Dec => [] | Oct => chars "0"
  | Hex up => chars (if up then "0X" else "0x")
  | Bin up => chars (if up then "0B" else "0b")
  end.
(** The spellings of 6.4.4.1: digits of the base after the prefix. An octal
    constant's first digit is the prefix itself. *)
Definition spelled_as (p : Radix) (ds : list Z) : Prop :=
  Forall (is_digit_of (radix_base p)) ds /\
  match p with
  | Dec => hd 0 ds <> chr "0" /\ ds <> []
  | Oct => True
  | Hex _ | Bin _ => ds <> []
  end.
(** What the code reads as one: a suffix may also follow [0x] or [0b] at once. *)
Definition read_as (p : Radix) (ds s : list Z) : Prop :=
  Forall (is_digit_of (radix_base p)) ds /\
  match p with
  | Dec => hd 0 ds <> chr "0" /\ ds <> []
  | Oct => True
  | Hex _ | Bin _ => ds ++ s <> []
  end.
Lemma spelled_read p ds s : spelled_as p ds -> read_as p ds s.
Proof. intros [D H]. split; [done|]. destruct p; [done|done|..]; by intros [? _]%app_eq_nil. Qed.
Lemma read_spelled p ds s : read_as p ds s -> spelled_as p ds \/ ds = [] /\ s <> [] /\ match p with Hex _ | Bin _ => True | _ => False end.
Proof. intros [D H]. destruct p; [by left..| |]; (destruct ds; [by right|left; by split]). Qed.
Definition radix_log (p : Radix) (loc len : Z) : list Diag :=
  match p with
  | Bin _ => [pp_pedwarn_at WARN_PEDANTIC loc len
                "binary constants are a C23 feature or GNU extension"%string]
  | _ => []
  end.

Section spec.
  Context (t : Token) (std : CStd) (w : IntWidths) (loc : SrcLoc) (Hw : widths_ok w).
  #[local] Notation "'c89'" := (bool_decide (std = STD_C89) || bool_decide (std = STD_GNU89)).

(** What a constant of value [V] must become. *)
Definition int_result (len : Z) (decimal : bool) (V : Z) (suf : IntSuffix) (log : list Diag) :
    Token * list Diag :=
  if 2 ^ 64 <=? V then
    (set_int t (V mod 2 ^ 64) ITY_ULLONG,
     log ++ [pp_diag_at loc len "integer constant is too large for any integer type"%string])
  else match find (type_fits w V) (candidates decimal c89 suf) with
       | Some ty => (set_int t V ty, log)
       | None => (set_int t V ITY_ULLONG,
           log ++ [pp_pedwarn_at WARN_OVERFLOW loc len
                     "integer constant is so large that it is unsigned"%string])
       end.

Lemma suffix_facts s suf :
  In (s, suf) int_suffixes ->
  parse_int_suffix s = (suf, []) /\ suffix_ok suf /\ bad suf = false /\
  (s = [] \/ Forall (fun base => digit_of base (hd 0 s) = None) [2; 8; 10; 16]).
Proof. intros H. pose proof int_suffixes_parse as F. rewrite List.Forall_forall in F. exact (F _ H). Qed.

Lemma scan_literal base ds s suf :
  In base [2; 8; 10; 16] -> Forall (is_digit_of base) ds -> In (s, suf) int_suffixes ->
  scan_digits base (ds ++ s) 0 false = Scanned (u64 (nval base ds)) (2 ^ 64 <=? nval base ds) s.
Proof using.
  intros Hb Hd Hs. destruct (suffix_facts s suf Hs) as (_ & _ & _ & Hh).
  assert (B : 2 <= base <= 16) by (simpl in Hb; lia).
  pose proof (scan_digits_app base ds s 0 B ltac:(lia) Hd) as A. change (u64 0) with 0 in A.
  change (2 ^ 64 <=? 0) with false in A. rewrite A. fold (nval base ds).
  destruct s as [|c s]; [done|]. destruct Hh as [|Hh]; [done|]. cbn [scan_digits].
  rewrite List.Forall_forall in Hh. specialize (Hh base Hb). cbn [hd] in Hh.
  by rewrite Hh.
Qed.

Lemma body_spec sp base ds s suf log :
  In base [2; 8; 10; 16] -> Forall (is_digit_of base) ds -> In (s, suf) int_suffixes ->
  int_const_body t sp std w loc base (ds ++ s) log =
  int_result (Z.of_nat (length sp)) (base =? 10) (nval base ds) suf log.
Proof using Hw.
  intros Hb Hd Hs. unfold int_const_body. rewrite (scan_literal base ds s suf Hb Hd Hs).
  destruct (suffix_facts s suf Hs) as (-> & Ok & -> & _). cbn [orb negb length Z.of_nat Z.eqb].
  pose proof (nval_from_ge base 0 ds ltac:(simpl in Hb; lia) ltac:(lia) Hd) as N. fold (nval base ds) in N.
  unfold int_result. destruct (Z.leb_spec (2 ^ 64) (nval base ds)); [done|].
  rewrite u64_small by (unfold is_u64; lia). rewrite int_ladder_spec by (done || lia).
  by destruct (find _ _).
Qed.

Lemma no_errors_app l1 l2 : no_errors (l1 ++ l2) = no_errors l1 && no_errors l2.
Proof. apply forallb_app. Qed.

(** One error and the token as it was, or digits and a suffix. *)
Definition refused (r : Token * list Diag) : Prop := exists l e, r = (t, l ++ [e]) /\ no_errors l = true /\ is_error e = true.

Lemma body_cases sp base r log :
  In base [2; 8; 10; 16] -> no_errors log = true ->
  refused (int_const_body t sp std w loc base r log) \/
  exists ds s suf, r = ds ++ s /\ Forall (is_digit_of base) ds /\ In (s, suf) int_suffixes.
Proof using.
  intros Hb Hl. unfold int_const_body. destruct (scan_digits base r 0 false) as [v ov rest|c] eqn:Es.
  2: { left. exists log. eexists. split_and!; [reflexivity|done|by destruct (base =? 2)]. }
  pose proof (scan_digits_inv base r 0 v ov rest ltac:(simpl in Hb; lia) ltac:(lia) Es)
    as (ds & -> & Hd & _ & ->).
  destruct (parse_int_suffix rest) as [suf rest'] eqn:Ep.
  destruct (bad suf) eqn:Eb; [left; exists log; by eexists|].
  destruct (Z.eqb_spec (Z.of_nat (length rest')) 0) as [Hr|Hr]; cbn [orb negb]; [|left; exists log; by eexists].
  destruct rest' as [|]; [|done]. right. exists ds, rest, suf. split; [done|]. split; [done|].
  by apply parse_int_suffix_inv with [].
Qed.

(** The first character after an octal or decimal start is no radix letter. *)
Lemma radix_prefix_false sp lo up :
  (forall c r, sp = chr "0" :: c :: r -> is_one_of c lo up = false) -> radix_prefix sp lo up = false.
Proof using.
  intros H. unfold radix_prefix. destruct sp as [|a [|c r]]; [done|done|].
  destruct (2 <? _); [|done]. cbn [andb]. change ((a :: c :: r) !!! 0%nat) with a.
  change ((a :: c :: r) !!! 1%nat) with c.
  destruct (Z.eqb_spec a (chr "0")) as [->|]; [|done]. by apply (H c r).
Qed.

Lemma radix_prefix_true sp lo up a r :
  sp = chr "0" :: a :: r -> is_one_of a lo up = true -> r <> [] -> radix_prefix sp lo up = true.
Proof using.
  intros -> Ha Hr. unfold radix_prefix. change ((chr "0" :: a :: r) !!! 0%nat) with (chr "0").
  change ((chr "0" :: a :: r) !!! 1%nat) with a. rewrite Z.eqb_refl, Ha, !andb_true_r.
  apply Z.ltb_lt. destruct r; [done|]. cbn [length]. lia.
Qed.

(** No literal digit and no suffix character is a radix letter. *)
Lemma not_radix_letter base ds s suf c r :
  In base [8; 10] -> Forall (is_digit_of base) ds -> In (s, suf) int_suffixes -> ds ++ s = c :: r ->
  is_one_of c "x" "X" = false /\ is_one_of c "b" "B" = false.
Proof using.
  intros Hb Hd Hs E.
  assert (D : is_digit_of base c \/ In c [chr "u"; chr "U"; chr "l"; chr "L"]).
  { destruct ds as [|x ds].
    - right. cbn [app] in E. subst s. simpl in Hs.
      repeat (destruct Hs as [Hs|Hs]; [injection Hs as ? ?; subst; simpl; auto|]); done.
    - injection E as -> _. left. by apply Forall_cons_iff in Hd as [? _]. }
  unfold is_one_of. destruct D as [D|D].
  - unfold is_digit_of, digit_of, between in D. change (chr "0") with 48 in D. change (chr "9") with 57 in D.
    assert (E16 : (base =? 16) = false) by (simpl in Hb; apply Z.eqb_neq; lia).
    rewrite E16 in D. destruct (_ && _) eqn:R in D; [|done]. rewrite andb_true_iff, !Z.leb_le in R.
    split; apply orb_false_iff; rewrite !Z.eqb_neq; change (chr "x") with 120; change (chr "X") with 88;
      change (chr "b") with 98; change (chr "B") with 66; lia.
  - simpl in D. destruct D as [<-|[<-|[<-|[<-|[]]]]]; done.
Qed.

Definition is_dec (p : Radix) : bool := match p with Dec => true | _ => false end.

Lemma lex_int_const_read p ds s suf :
  read_as p ds s -> In (s, suf) int_suffixes ->
  let sp := radix_chars p ++ ds ++ s in
  lex_int_const t sp std w loc =
  int_result (Z.of_nat (length sp)) (is_dec p) (nval (radix_base p) ds) suf
    (radix_log p loc (Z.of_nat (length sp))).
Proof using Hw.
  intros [Hd Hp] Hs sp. assert (Len : length sp = (length (radix_chars p) + length (ds ++ s))%nat)
    by apply length_app.
  unfold lex_int_const. destruct p as [| |up|up]; cbn [radix_base is_dec radix_log] in *;
    cbn [radix_chars] in Len; change (length (chars "0")) with 1%nat in Len.
  - destruct Hp as [H0 Hne]. destruct ds as [|c ds]; [done|]. cbn [hd] in H0.
    assert (P : forall lo u, radix_prefix sp lo u = false).
    { intros lo u. apply radix_prefix_false. intros c' r [= -> _]. done. }
    rewrite !P. replace (sp !!! 0%nat =? chr "0") with false by (symmetry; by apply Z.eqb_neq).
    rewrite andb_false_r. apply (body_spec sp 10 (c :: ds) s suf []); simpl; auto.
  - assert (P : radix_prefix sp "x" "X" = false /\ radix_prefix sp "b" "B" = false).
    { split; apply radix_prefix_false; intros c r [= E]; destruct (not_radix_letter 8 ds s suf c r); simpl; auto. }
    destruct P as [-> ->]. destruct (Z.ltb_spec 1 (Z.of_nat (length sp))) as [L|L].
    + change (sp !!! 0%nat =? chr "0") with true. cbn [andb].
      apply (body_spec sp 8 ds s suf []); simpl; auto.
    + assert (E : ds ++ s = []) by (apply length_zero_iff_nil; lia).
      apply app_eq_nil in E as [-> ->]. destruct (suffix_facts [] suf Hs) as (E & _). injection E as <-.
      cbn [andb]. unfold sp. cbn [app radix_chars].
      pose proof (body_spec (chars "0") 10 (chars "0") [] (mkSuffix false 0 false) []
        ltac:(simpl; auto) ltac:(repeat constructor) ltac:(simpl; auto)) as B.
      change (chars "0" ++ []) with (chars "0") in *. rewrite B.
      unfold int_result. change (nval 10 (chars "0")) with 0. change (nval 8 []) with 0.
      assert (F : forall l, find (type_fits w 0) (ITY_INT :: l) = Some ITY_INT).
      { intros l. cbn [find]. replace (type_fits w 0 ITY_INT) with true; [done|]. symmetry.
        apply Z.ltb_lt. unfold type_limit. destruct Hw as [Hi _]. apply pow2_pos. lia. }
      cbn [candidates suf_u suf_l]. change (10 =? 10) with true. cbv iota. by rewrite !F.
  - assert (P : radix_prefix sp "x" "X" = true).
    { apply radix_prefix_true with (chr (if up then "X" else "x")) (ds ++ s); [by destruct up..|done]. }
    rewrite P. destruct (Z.leb_spec (Z.of_nat (length sp)) 2) as [L|_].
    { exfalso. apply Hp, length_zero_iff_nil. destruct up;
        [change (length (chars _)) with 2%nat in Len|change (length (chars _)) with 2%nat in Len]; lia. }
    assert (D : drop 2 sp = ds ++ s) by (by destruct up). rewrite D.
    apply (body_spec sp 16 ds s suf []); simpl; auto.
  - assert (P : radix_prefix sp "x" "X" = false /\ radix_prefix sp "b" "B" = true).
    { split; [apply radix_prefix_false; intros c r; destruct up; intros [= <- _]; done|].
      apply radix_prefix_true with (chr (if up then "B" else "b")) (ds ++ s); [by destruct up..|done]. }
    destruct P as [-> ->]. destruct (Z.leb_spec (Z.of_nat (length sp)) 2) as [L|_].
    { exfalso. apply Hp, length_zero_iff_nil. destruct up;
        [change (length (chars _)) with 2%nat in Len|change (length (chars _)) with 2%nat in Len]; lia. }
    assert (D : drop 2 sp = ds ++ s) by (by destruct up). rewrite D.
    apply (body_spec sp 2 ds s suf); simpl; auto.
Qed.

Lemma radix_prefix_inv sp lo up :
  radix_prefix sp lo up = true ->
  exists (u : bool) c r, sp = chr "0" :: chr (if u then up else lo) :: c :: r.
Proof using.
  unfold radix_prefix. rewrite !andb_true_iff, Z.ltb_lt, Z.eqb_eq. intros [[L H0] H1].
  destruct sp as [|a [|b [|c r]]]; try (simpl in L; lia).
  change ((a :: b :: c :: r) !!! 0%nat) with a in H0. change ((a :: b :: c :: r) !!! 1%nat) with b in H1.
  apply is_one_of_spec in H1 as [-> | ->]; subst a; [exists false, c, r|exists true, c, r]; done.
Qed.

(** Whatever starts with a digit is refused or read as a constant; the floating
    ones went to [lex_float_const]. *)
Lemma lex_int_const_cases sp :
  between (hd 0 sp) "0" "9" = true ->
  refused (lex_int_const t sp std w loc) \/
  exists p ds s suf, read_as p ds s /\ In (s, suf) int_suffixes /\ sp = radix_chars p ++ ds ++ s.
Proof using.
  intros H0. unfold lex_int_const.
  destruct (radix_prefix sp "x" "X") eqn:Ex; [|destruct (radix_prefix sp "b" "B") eqn:Eb].
  - apply radix_prefix_inv in Ex as (u & c & r & ->).
    destruct (_ <=? 2); [left; exists []; by eexists|]. cbn [drop].
    match goal with |- refused (int_const_body _ ?sp _ _ _ _ ?r ?l) \/ _ => destruct (body_cases sp 16 r l) as [R|(ds & s & suf & E & Hd & Hs)] end;
      [simpl; auto|done|by left|right].
    exists (Hex u), ds, s, suf. split; [split; [done|by rewrite <- E]|]. split; [done|]. rewrite <- E. by destruct u.
  - apply radix_prefix_inv in Eb as (u & c & r & ->).
    destruct (_ <=? 2); [left; eexists [_], _; by split_and!|]. cbn [drop].
    match goal with |- refused (int_const_body _ ?sp _ _ _ _ ?r ?l) \/ _ => destruct (body_cases sp 2 r l) as [R|(ds & s & suf & E & Hd & Hs)] end;
      [simpl; auto|done|by left|right].
    exists (Bin u), ds, s, suf. split; [split; [done|by rewrite <- E]|]. split; [done|]. rewrite <- E. by destruct u.
  - destruct sp as [|a r]; [done|]. change ((a :: r) !!! 0%nat) with a. cbn [hd] in H0.
    destruct (Z.eqb_spec a (chr "0")) as [->|Ha]; [rewrite andb_true_r|rewrite andb_false_r].
    + destruct (Z.ltb_spec 1 (Z.of_nat (length (chr "0" :: r)))) as [L|L].
      * cbn [drop]. destruct (body_cases (chr "0" :: r) 8 r []) as [R|(ds & s & suf & E & Hd & Hs)]; [simpl; auto|done|by left|right].
        exists Oct, ds, s, suf. split; [by split|]. split; [done|]. by rewrite <- E.
      * destruct r; [|simpl in L; lia]. right. exists Oct, [], [], (mkSuffix false 0 false).
        split; [by split|]. split; [simpl; auto|done].
    + destruct (body_cases (a :: r) 10 (a :: r) []) as [R|(ds & s & suf & E & Hd & Hs)]; [simpl; auto|done|by left|right].
      exists Dec, ds, s, suf. split; [|done]. split; [done|].
      destruct ds as [|x ds]; [|injection E as -> _; done]. exfalso. cbn [app] in E. subst s.
      simpl in Hs. repeat (destruct Hs as [Hs|Hs]; [injection Hs as E1 _; subst; done|]); done.
Qed.
End spec.

(** ** Properties of the code *)

(** C30. An integer constant spelled with a decimal, octal, hexadecimal or
    binary prefix, digits of that base and a suffix of 6.4.4.1 gets its value
    and the first type of the standard's list that can hold it; a decimal one
    that fits none is [unsigned long long] with a pedantic warning, and one
    beyond 64 bits is an error. Any other spelling that starts with a digit
    leaves the token alone and gets exactly one error, its last diagnostic,
    with one exception: a suffix right after [0x] or [0b] is read as a constant
    of value zero, which 6.4.4.1 does not allow. *)
Theorem lex_int_const_correct t std w loc :
  widths_ok w ->
  (forall p ds s suf, spelled_as p ds -> In (s, suf) int_suffixes ->
    let sp := radix_chars p ++ ds ++ s in
    lex_int_const t sp std w loc =
    int_result t std w loc (Z.of_nat (length sp)) (is_dec p) (nval (radix_base p) ds) suf
      (radix_log p loc (Z.of_nat (length sp)))) /\
  (forall sp, between (hd 0 sp) "0" "9" = true ->
    (exists p ds s suf, spelled_as p ds /\ In (s, suf) int_suffixes /\ sp = radix_chars p ++ ds ++ s) \/
    (exists p s suf, match p with Hex _ | Bin _ => True | _ => False end /\ s <> [] /\ In (s, suf) int_suffixes /\
       sp = radix_chars p ++ s /\
       lex_int_const t sp std w loc =
       int_result t std w loc (Z.of_nat (length sp)) false 0 suf (radix_log p loc (Z.of_nat (length sp)))) \/
    refused t (lex_int_const t sp std w loc)).
Proof.
  intros Hw. split.
  - intros p ds s suf Hp Hs. apply lex_int_const_read; [done|by apply spelled_read|done].
  - intros sp H0. destruct (lex_int_const_cases t std w loc sp H0) as [R|(p & ds & s & suf & Hp & Hs & E)]; [by right; right|].
    destruct (read_spelled p ds s Hp) as [Sp|(-> & Ns & P)]; [left; by exists p, ds, s, suf|right; left].
    exists p, s, suf. split_and!; [done..|]. subst sp. pose proof (lex_int_const_read t std w loc Hw p [] s suf Hp Hs) as R.
    cbn zeta in R. cbn [app] in *. etransitivity; [exact R|]. by destruct p.
Qed.

Lemma lex_int_const_witness :
  lex_int_const no_token (chars "0xFFu") STD_C17 lp64 7 = (set_int no_token 255 ITY_UINT, []) /\
  refused no_token (lex_int_const no_token (chars "0x1e+2") STD_C17 lp64 7).
Proof.
  assert (W : widths_ok lp64) by (unfold widths_ok; simpl; lia).
  assert (S : spelled_as (Hex false) (chars "FF")).
  { split; [repeat constructor|discriminate]. }
  assert (I : In (chars "u", mkSuffix true 0 false) int_suffixes) by (simpl; auto).
  split; [exact (proj1 (lex_int_const_correct no_token STD_C17 lp64 7 W) _ _ _ _ S I)|].
  eexists [], _. by vm_compute.
Defined.

(** A hexadecimal prefix followed by a suffix and no digit is accepted. *)
Example no_hex_digits : lex_int_const no_token (chars "0xu") STD_C17 lp64 7 = (set_int no_token 0 ITY_UINT, []).
Proof. vm_compute. reflexivity. Qed.
