(* ===== verification/FloatLit.v ===== *)
(** Floating constants: [lex_float_const] of [src/lex/numlit.c] decides which
    spellings are valid and what type they have, [constexpr_parse_float] of
    [src/sema/constexpr.c] turns an accepted spelling into a value of the
    target format. *)
From Stdlib Require Import QArith Qpower Ascii String.
From S2P Require Import Prelude.
From S2P Require Import Pptok.
From S2P Require Import Numlit.
From S2P Require Import Softfp.
From S2P Require Import SoftfpRound.
From S2P Require Import SoftfpArith.
From S2P Require Import SoftfpDec.
#[local] Open Scope Z_scope.

(** ** The lexer *)

(** The scan ends with an error message or at the suffix, with the three
    [saw_] flags. *)
Inductive FloatScan :=
| FloatError (msg : string)
| FloatSuffix (rest : list Z) (saw_digit saw_dot saw_exp : bool).

Definition skip_sign (s : list Z) : list Z :=
  match s with c :: s' => if is_one_of c "+" "-" then s' else s | [] => s end.

Fixpoint float_loop (hex : bool) (s : list Z) (saw_digit saw_dot saw_exp : bool) : FloatScan :=
  match s with
  | [] => FloatSuffix [] saw_digit saw_dot saw_exp
  | c :: s' =>
    if between c "0" "9" then float_loop hex s' true saw_dot saw_exp
    else if hex && negb saw_exp && (between c "a" "f" || between c "A" "F") then
      float_loop hex s' true saw_dot saw_exp
    else if c =? chr "." then
      if saw_dot || saw_exp then FloatError "invalid floating constant '%s'"
      else float_loop hex s' saw_digit true saw_exp
    else if (negb hex && is_one_of c "e" "E") || (hex && is_one_of c "p" "P") then
      if saw_exp || negb saw_digit then FloatError "invalid floating constant '%s'"
      else
        let s' := match s' with
                  | c :: s'' => if is_one_of c "+" "-" then s'' else s'
                  | [] => s' end in
        match s' with
        | [] => FloatError "exponent has no digits"
        | c :: _ => if between c "0" "9" then float_loop hex s' saw_digit saw_dot true
                    else FloatError "exponent has no digits"
        end
    else FloatSuffix s saw_digit saw_dot saw_exp
  end.

(** The type a suffix names, with [float_ext_suffix]; [None] is invalid. *)
Definition float_suffix (s : list Z) (target : TargetKind) : option (FloatConstType * bool) :=
  match s with
  | [] => Some (FTY_DOUBLE, false)
  | c :: r =>
    let n := length s in
    if is_one_of c "f" "F" && (n =? 1)%nat then Some (FTY_FLOAT, false)
    else if is_one_of c "l" "L" && (n =? 1)%nat then Some (FTY_LDOUBLE, false)
    else if is_one_of c "q" "Q" && (n =? 1)%nat then
      Some (if bool_decide (target = CGF_TARGET_ARM64_LINUX) then FTY_LDOUBLE else FTY_FLOAT128, true)
    else if is_one_of c "f" "F" && (n =? 3)%nat && (s !!! 1%nat =? chr "3") && (s !!! 2%nat =? chr "2")
    then Some (FTY_FLOAT32, true)
    else if is_one_of c "f" "F" && (n =? 3)%nat && (s !!! 1%nat =? chr "6") && (s !!! 2%nat =? chr "4")
    then Some (FTY_FLOAT64, true)
    else if is_one_of c "f" "F" && (n =? 4)%nat && (s !!! 1%nat =? chr "3") && (s !!! 2%nat =? chr "2") &&
            (s !!! 3%nat =? chr "x") then Some (FTY_FLOAT32X, true)
    else if is_one_of c "f" "F" && (n =? 4)%nat && (s !!! 1%nat =? chr "6") && (s !!! 2%nat =? chr "4") &&
            (s !!! 3%nat =? chr "x") then Some (FTY_FLOAT64X, true)
    else if is_one_of c "f" "F" && (n =? 4)%nat && (s !!! 1%nat =? chr "1") && (s !!! 2%nat =? chr "2") &&
            (s !!! 3%nat =? chr "8") then Some (FTY_FLOAT128, true)
    else None
  end.

Definition lex_float_const (t : Token) (sp : list Z) (std : CStd) (target : TargetKind) (loc : SrcLoc) :
    Token * list Diag :=
  let len := Z.of_nat (length sp) in
  let hex := radix_prefix sp "x" "X" in
  let t := set_float t FTY_DOUBLE (float_ext_suffix t) in
  match float_loop hex (if hex then drop 2 sp else sp) false false false with
  | FloatError msg => (t, [pp_diag_at loc len msg])
  | FloatSuffix rest saw_digit _ saw_exp =>
    if negb saw_digit then (t, [pp_diag_at loc len "invalid floating constant '%s'"%string])
    else if hex && negb saw_exp then
      (t, [pp_diag_at loc len "hexadecimal floating constant requires an exponent"%string])
    else
      let log := if hex && negb (std_is_c99_or_later std) then
          [pp_warn_at WARN_C90_C99_COMPAT loc len
             "hexadecimal floating constants are a C99 feature"%string] else [] in
      match rest with
      | [] => (t, log)
      | _ =>
        match float_suffix rest target with
        | Some (ty, ext) => (set_float t ty (ext || float_ext_suffix t), log)
        | None => (t, log ++ [pp_diag_at loc len "invalid suffix on floating constant '%s'"%string])
        end
      end
  end.

(** ** The value *)

(** Signed arithmetic at 32 bits; [None] is overflow, undefined in C. *)
Definition chk32 (x : Z) : option Z := if (- 2 ^ 31 <=? x) && (x <? 2 ^ 31) then Some x else None.

Definition DIGITS_CAP : nat := 4096.

(** The digit loop of either base: the buffer, the fraction count and the rest
    of the spelling. The NUL ends the loop, like any other character. *)
Fixpoint collect_digits (hex : bool) (s : list Z) (digits : list Z) (seen_dot : bool) (frac_digits : Z) :
    list Z * Z * list Z :=
  match s with
  | [] => (digits, frac_digits, [])
  | c :: s' =>
    if c =? chr "." then collect_digits hex s' digits true frac_digits
    else if between c "0" "9" || (hex && (between c "a" "f" || between c "A" "F")) then
      collect_digits hex s' (if (length digits <? DIGITS_CAP)%nat then digits ++ [c] else digits)
        seen_dot (if seen_dot then frac_digits + 1 else frac_digits)
    else (digits, frac_digits, s)
  end.

(** [v = v * 10 + digit]; the decimal branch stops growing at a million. *)
Fixpoint exponent_loop (clamp : bool) (s : list Z) (v : Z) : option Z :=
  match s with
  | c :: s' =>
    if between c "0" "9" then
      match (if negb clamp || (v <? 1000000) then chk32 (v * 10 + (c - chr "0")) else Some v) with
      | Some v => exponent_loop clamp s' v
      | None => None
      end
    else Some v
  | [] => Some v
  end.

Definition exponent (clamp : bool) (s : list Z) (lo up : ascii) : option Z :=
  match s with
  | c :: s' =>
    if is_one_of c lo up then
      let negative := match s' with c' :: _ => c' =? chr "-" | [] => false end in
      match exponent_loop clamp (skip_sign s') 0 with
      | Some v => Some (if negative then - v else v)
      | None => None
      end
    else Some 0
  | [] => Some 0
  end.

Definition parse_hex_float (s : list Z) (f : SfFormat) : option (Sf * SfStatus) :=
  let '(digits, frac_digits, rest) := collect_digits true s [] false 0 in
  match exponent false rest "p" "P" with
  | None => None
  | Some e => match chk32 (e - frac_digits * 4) with
              | None => None
              | Some bin_exp => Some (sf_from_hex digits bin_exp f no_status)
              end
  end.

Definition parse_decimal_float (s : list Z) (f : SfFormat) : option (Sf * SfStatus) :=
  let '(digits, frac_digits, rest) := collect_digits false s [] false 0 in
  match exponent true rest "e" "E" with
  | None => None
  | Some e => match chk32 (e - frac_digits) with
              | None => None
              | Some dec_exp => Some (sf_from_decimal digits dec_exp f no_status)
              end
  end.

(** [None] as the spelling is the null pointer. *)
Definition constexpr_parse_float (sp : option (list Z)) (f : SfFormat) : option (Sf * SfStatus) :=
  match sp with
  | None => Some (special false SF_ZERO, no_status)
  | Some sp =>
    match sp with
    | z :: x :: s => if (z =? chr "0") && is_one_of x "x" "X" then parse_hex_float s f
                     else parse_decimal_float sp f
    | _ => parse_decimal_float sp f
    end
  end.

(** ** Checks *)
Example half_float :
  constexpr_parse_float (Some (chars "0x.8p0f")) SF_BINARY32 =
  Some (mkSf false SF_NORMAL (-24) 0 (2 ^ 23), no_status).
Proof. vm_compute. reflexivity. Qed.
Example lex_half_float :
  (lex_float_const no_token (chars "5.e-1F") STD_C17 CGF_TARGET_ARM64_MACOS 0).1 =
  set_float no_token FTY_FLOAT false.
Proof. vm_compute. reflexivity. Qed.

(** ** The grammar of 6.4.4.2 *)
Record FloatSpelling := mkFloat {
  fs_hex : option bool;                         (* upper-case [0X] *)
  fs_int : list Z;
  fs_frac : option (list Z);
  fs_exp : option (bool * option bool * list Z);  (* upper-case marker, minus sign, digits *)
  fs_suffix : list Z;
}.
Definition is_hex_spelling (a : FloatSpelling) : bool :=
  match fs_hex a with Some _ => true | None => false end.
Definition fdigit (hex : bool) (c : Z) : bool :=
  between c "0" "9" || (hex && (between c "a" "f" || between c "A" "F")).
Definition frac_part (a : FloatSpelling) : list Z := default [] (fs_frac a).

Definition show_exp (hex : bool) (e : bool * option bool * list Z) : list Z :=
  let '(up, sg, ds) := e in
  [chr (if hex then if up then "P" else "p" else if up then "E" else "e")] ++
  match sg with None => [] | Some true => chars "-" | Some false => chars "+" end ++ ds.
Definition show_opt_exp (hex : bool) (e : option (bool * option bool * list Z)) : list Z :=
  match e with Some e => show_exp hex e | None => [] end.
Definition show_frac (x : option (list Z)) : list Z :=
  match x with Some ds => chars "." ++ ds | None => [] end.
Definition show_prefix (x : option bool) : list Z :=
  match x with Some up => chars (if up then "0X" else "0x") | None => [] end.
Definition show_float (a : FloatSpelling) : list Z :=
  show_prefix (fs_hex a) ++ fs_int a ++ show_frac (fs_frac a) ++
  show_opt_exp (is_hex_spelling a) (fs_exp a) ++ fs_suffix a.

Definition exp_ok (e : option (bool * option bool * list Z)) : Prop :=
  match e with Some (_, _, ds) => ds <> [] /\ forallb (fdigit false) ds = true | None => True end.
Definition float_ok (a : FloatSpelling) : Prop :=
  forallb (fdigit (is_hex_spelling a)) (fs_int a ++ frac_part a) = true /\
  fs_int a ++ frac_part a <> [] /\ exp_ok (fs_exp a) /\
  (is_hex_spelling a = true -> fs_exp a <> None).

Definition float_suffixes (target : TargetKind) : list (list Z * (FloatConstType * bool)) :=
  let q := if bool_decide (target = CGF_TARGET_ARM64_LINUX) then FTY_LDOUBLE else FTY_FLOAT128 in
  [([], (FTY_DOUBLE, false));
   (chars "f", (FTY_FLOAT, false)); (chars "F", (FTY_FLOAT, false));
   (chars "l", (FTY_LDOUBLE, false)); (chars "L", (FTY_LDOUBLE, false));
   (chars "q", (q, true)); (chars "Q", (q, true));
   (chars "f32", (FTY_FLOAT32, true)); (chars "F32", (FTY_FLOAT32, true));
   (chars "f64", (FTY_FLOAT64, true)); (chars "F64", (FTY_FLOAT64, true));
   (chars "f32x", (FTY_FLOAT32X, true)); (chars "F32x", (FTY_FLOAT32X, true));
   (chars "f64x", (FTY_FLOAT64X, true)); (chars "F64x", (FTY_FLOAT64X, true));
   (chars "f128", (FTY_FLOAT128, true)); (chars "F128", (FTY_FLOAT128, true))].

Ltac split_bools H :=
  repeat match type of H with
  | _ && _ = true => let H2 := fresh "Hb" in apply andb_true_iff in H as [H H2]; split_bools H2
  | is_one_of _ _ _ = true => apply is_one_of_spec in H as [H|H]
  | (_ =? _) = true => apply Z.eqb_eq in H
  | (_ =? _)%nat = true => apply Nat.eqb_eq in H
  end.

Lemma float_suffix_table s target r :
  float_suffix s target = Some r <-> In (s, r) (float_suffixes target).
Proof.
  split.
  - destruct s as [|c [|c1 [|c2 [|c3 [|]]]]]; unfold float_suffix; cbn [length Nat.eqb];
      rewrite ?andb_false_r, ?andb_true_r; cbn [andb];
      unfold float_suffixes.
    all: repeat match goal with
      | |- context [if ?b then Some _ else _] =>
        let E := fresh "E" in destruct b eqn:E; [intros [= <-]; split_bools E; cbv -[Z.of_N In] in *; subst; simpl; tauto|]
      end; try (intros [= <-]; simpl; tauto); try done.
  - intros H. unfold float_suffixes in H.
    repeat (destruct H as [H|H]; [injection H as <- <-; reflexivity|]); done.
Qed.

(** ** The scanning loop follows the grammar *)
Definition nonempty (ds : list Z) : bool := negb (length ds =? 0)%nat.
Definition is_some_exp (e : option (bool * option bool * list Z)) : bool :=
  match e with Some _ => true | None => false end.

Lemma between_dec c lo hi : between c lo hi = true <-> chr lo <= c <= chr hi.
Proof. unfold between. by rewrite andb_true_iff, !Z.leb_le. Qed.

(** Digits of the mantissa, and digits of an exponent. *)
Lemma float_loop_mantissa hex ds r dg dot :
  forallb (fdigit hex) ds = true ->
  float_loop hex (ds ++ r) dg dot false = float_loop hex r (dg || nonempty ds) dot false.
Proof.
  revert dg. induction ds as [|c ds IH]; intros dg H; [by rewrite orb_false_r|].
  cbn [forallb] in H. apply andb_true_iff in H as [Hc H]. rewrite orb_true_r.
  specialize (IH true H). cbn [orb] in IH. cbn [app float_loop]. unfold fdigit in Hc.
  destruct (between c "0" "9"); [done|]. cbn [orb] in Hc. rewrite andb_true_r, Hc. done.
Qed.

Lemma float_loop_exponent hex ds r dg dot :
  forallb (fdigit false) ds = true ->
  float_loop hex (ds ++ r) dg dot true = float_loop hex r (dg || nonempty ds) dot true.
Proof.
  revert dg. induction ds as [|c ds IH]; intros dg H; [by rewrite orb_false_r|].
  cbn [forallb] in H. apply andb_true_iff in H as [Hc H]. rewrite orb_true_r.
  specialize (IH true H). cbn [orb] in IH. cbn [app float_loop]. unfold fdigit in Hc.
  rewrite andb_false_l, orb_false_r in Hc. by rewrite Hc.
Qed.

Lemma float_loop_dot hex r dg :
  float_loop hex (chars "." ++ r) dg false false = float_loop hex r dg true false.
Proof. by destruct hex. Qed.

Lemma float_loop_marker hex m s dot :
  between m "0" "9" = false -> hex && (between m "a" "f" || between m "A" "F") = false ->
  (m =? chr ".") = false -> (negb hex && is_one_of m "e" "E") || (hex && is_one_of m "p" "P") = true ->
  float_loop hex (m :: s) true dot false =
  match skip_sign s with
  | [] => FloatError "exponent has no digits"
  | c :: _ => if between c "0" "9" then float_loop hex (skip_sign s) true dot true
              else FloatError "exponent has no digits"
  end.
Proof. intros H1 H2 H3 H4. cbn [float_loop negb]. by rewrite andb_true_r, H1, H2, H3, H4. Qed.

Lemma float_loop_exp hex e r dot :
  exp_ok (Some e) -> float_loop hex (show_exp hex e ++ r) true dot false = float_loop hex r true dot true.
Proof.
  destruct e as [[up sg] ds]. intros [Hne Hd].
  assert (D : exists c ds', ds = c :: ds' /\ between c "0" "9" = true).
  { destruct ds as [|c ds']; [done|]. exists c, ds'. split; [done|]. cbn [forallb] in Hd.
    apply andb_true_iff in Hd as [Hc _]. unfold fdigit in Hc. by rewrite andb_false_l, orb_false_r in Hc. }
  destruct D as (c & ds' & E & Hc).
  assert (Sc : is_one_of c "+" "-" = false).
  { apply between_dec in Hc. unfold is_one_of. change (chr "0") with 48 in Hc. change (chr "9") with 57 in Hc.
    apply orb_false_iff. rewrite !Z.eqb_neq. change (chr "+") with 43. change (chr "-") with 45. lia. }
  pose proof (float_loop_exponent hex ds r true dot Hd) as L. cbn [orb] in L.
  assert (K : skip_sign (match sg with None => [] | Some true => chars "-" | Some false => chars "+" end
      ++ ds ++ r) = ds ++ r).
  { destruct sg as [[|]|]; [done..|]. subst ds. cbn [app skip_sign]. by rewrite Sc. }
  unfold show_exp. rewrite <- !app_assoc. cbn [app].
  rewrite float_loop_marker by (by destruct hex, up). rewrite K. subst ds. cbn [app] in *. by rewrite Hc.
Qed.

Lemma float_loop_stop hex s dg dot ex target r :
  In (s, r) (float_suffixes target) -> (hex = true -> ex = true) ->
  float_loop hex s dg dot ex = FloatSuffix s dg dot ex.
Proof.
  intros H Hx. unfold float_suffixes in H.
  destruct hex; [rewrite (Hx eq_refl)|];
  repeat (destruct H as [H|H]; [injection H as <- <-; reflexivity|]); done.
Qed.

(** Where the loop can stop, from the last phase back to the first. *)
Lemma float_loop_inv_exponent hex s dg dot rest dg' dot' ex' :
  float_loop hex s dg dot true = FloatSuffix rest dg' dot' ex' ->
  exists ds, s = ds ++ rest /\ forallb (fdigit false) ds = true /\ dg' = dg || nonempty ds /\
    dot' = dot /\ ex' = true.
Proof.
  revert dg. induction s as [|c s IH]; intros dg H; cbn [float_loop] in H.
  { injection H as <- <- <- <-. exists []. by rewrite orb_false_r. }
  rewrite !andb_false_r, !orb_true_r in H. cbn [negb andb orb] in H.
  destruct (between c "0" "9") eqn:Hc.
  - apply IH in H as (ds & -> & Hd & -> & -> & ->). exists (c :: ds). rewrite orb_true_r.
    cbn [forallb]. rewrite Hd. unfold fdigit. rewrite Hc. done.
  - destruct (c =? chr "."); [done|]. destruct (_ || _); [done|].
    injection H as <- <- <- <-. exists []. by rewrite orb_false_r.
Qed.

Lemma fdigit_split hex c :
  fdigit hex c = false ->
  between c "0" "9" = false /\ hex && (between c "a" "f" || between c "A" "F") = false.
Proof. unfold fdigit. apply orb_false_iff. Qed.

(** From the mantissa, with or without its point. *)
Lemma float_loop_inv_mantissa hex s dg dot rest dg' dot' ex' :
  float_loop hex s dg dot false = FloatSuffix rest dg' dot' ex' ->
  exists ip fr e, s = ip ++ show_frac fr ++ show_opt_exp hex e ++ rest /\
    forallb (fdigit hex) (ip ++ default [] fr) = true /\ exp_ok e /\
    dg' = dg || nonempty (ip ++ default [] fr) || is_some_exp e /\ ex' = is_some_exp e /\
    (dot = true -> fr = None) /\
    (is_some_exp e = true -> dg || nonempty (ip ++ default [] fr) = true).
Proof.
  remember (length s) as n eqn:En. assert (Hn : (length s <= n)%nat) by lia. clear En.
  revert s Hn dg dot. induction n as [|n IH]; intros s Hn dg dot H.
  { destruct s; [|simpl in Hn; lia]. injection H as <- <- <- <-.
    exists [], None, None. by rewrite !orb_false_r. }
  destruct s as [|c s].
  { injection H as <- <- <- <-. exists [], None, None. by rewrite !orb_false_r. }
  cbn [length] in Hn. destruct (fdigit hex c) eqn:Hc.
  - pose proof (float_loop_mantissa hex [c] s dg dot ltac:(cbn [forallb]; by rewrite Hc)) as L.
    cbn [app] in L. rewrite L in H. apply IH in H as (ip & fr & e & -> & Hd & He & -> & -> & Hdot & Hx); [|lia].
    exists (c :: ip), fr, e. cbn [app forallb]. rewrite Hc, Hd, !orb_true_r. done.
  - apply fdigit_split in Hc as [H1 H2]. destruct (Z.eqb_spec c (chr ".")) as [->|Hp].
    + destruct dot; [cbn [float_loop] in H; by rewrite H1, andb_true_r, H2 in H|].
      pose proof (float_loop_dot hex s dg) as L. cbn [app] in L. change (chars ".") with [chr "."] in L.
      cbn [app] in L. rewrite L in H.
      apply IH in H as (ip & fr & e & -> & Hd & He & -> & -> & Hdot & Hx); [|lia].
      rewrite (Hdot eq_refl) in *. cbn [default from_option] in *. rewrite app_nil_r in *.
      exists [], (Some ip), e. done.
    + cbn [float_loop] in H. rewrite H1, andb_true_r, H2 in H.
      destruct (Z.eqb_spec c (chr ".")); [done|]. cbn [orb] in H.
      destruct (_ || _) eqn:Hm in H; [|injection H as <- <- <- <-; exists [], None, None; by rewrite !orb_false_r].
      destruct dg; [|done]. cbn [negb] in H. fold (skip_sign s) in H.
      assert (Sg : exists sg, s = match sg with None => [] | Some true => chars "-" | Some false => chars "+" end
                                    ++ skip_sign s).
      { destruct s as [|a s']; [by exists None|]. cbn [skip_sign]. destruct (is_one_of a "+" "-") eqn:Ea.
        - apply is_one_of_spec in Ea as [-> | ->]; [by exists (Some false)|by exists (Some true)].
        - by exists None. }
      destruct Sg as [sg Sg]. destruct (skip_sign s) as [|d s'] eqn:Es; [done|].
      destruct (between d "0" "9") eqn:Hd; [|done].
      pose proof (float_loop_exponent hex [d] s' true dot) as L. cbn [app forallb] in L.
      rewrite L in H by (unfold fdigit; by rewrite Hd).
      apply float_loop_inv_exponent in H as (ds & -> & Hds & -> & -> & ->).
      assert (Mk : exists up : bool, c = chr (if hex then if up then "P" else "p" else if up then "E" else "e")).
      { apply orb_true_iff in Hm as [Hm|Hm]; destruct hex; try done; cbn [negb andb] in Hm;
          apply is_one_of_spec in Hm as [-> | ->]; [by exists false|by exists true|by exists false|by exists true]. }
      destruct Mk as [up ->]. exists [], None, (Some (up, sg, d :: ds)).
      split. { cbn [show_frac show_opt_exp show_exp app]. rewrite Sg. by rewrite <- app_assoc. }
      split; [done|]. split; [split; [done|]; cbn [forallb]; rewrite Hds; unfold fdigit; by rewrite Hd|].
      done.
Qed.

Definition show_body (a : FloatSpelling) : list Z :=
  fs_int a ++ show_frac (fs_frac a) ++ show_opt_exp (is_hex_spelling a) (fs_exp a) ++ fs_suffix a.

Lemma nonempty_spec ds : nonempty ds = true <-> ds <> [].
Proof. unfold nonempty. destruct ds; simpl; split; done. Qed.

Lemma nonempty_app a b : nonempty (a ++ b) = nonempty a || nonempty b.
Proof. by destruct a. Qed.

Lemma float_loop_show a target r :
  float_ok a -> In (fs_suffix a, r) (float_suffixes target) ->
  exists dot, float_loop (is_hex_spelling a) (show_body a) false false false =
    FloatSuffix (fs_suffix a) true dot (is_some_exp (fs_exp a)).
Proof.
  intros (Hd & Hne & He & Hx) Hs. unfold show_body. apply nonempty_spec in Hne.
  rewrite forallb_app, andb_true_iff in Hd. destruct Hd as [Hi Hf].
  rewrite float_loop_mantissa by done. cbn [orb].
  assert (Step : exists dot, float_loop (is_hex_spelling a)
      (show_frac (fs_frac a) ++ show_opt_exp (is_hex_spelling a) (fs_exp a) ++ fs_suffix a)
      (nonempty (fs_int a)) false false =
    float_loop (is_hex_spelling a) (show_opt_exp (is_hex_spelling a) (fs_exp a) ++ fs_suffix a)
      true dot false).
  { unfold frac_part in *. destruct (fs_frac a) as [fr|]; cbn [show_frac default from_option] in *.
    - exists true. rewrite <- app_assoc, float_loop_dot, float_loop_mantissa by done.
      rewrite nonempty_app in Hne. unfold id in Hne. by rewrite Hne.
    - exists false. rewrite app_nil_r in Hne. by rewrite Hne. }
  destruct Step as [dot Step]. exists dot. rewrite Step. clear Step.
  destruct (fs_exp a) as [e|]; cbn [show_opt_exp is_some_exp].
  - rewrite float_loop_exp by done. apply (float_loop_stop _ _ _ _ _ _ _ Hs). done.
  - cbn [app]. apply (float_loop_stop _ _ _ _ _ _ _ Hs). intros Hh. by destruct (Hx Hh).
Qed.

Lemma decimal_no_x a target r (u : bool) s :
  float_ok a -> In (fs_suffix a, r) (float_suffixes target) -> is_hex_spelling a = false ->
  show_float a <> chr "0" :: chr (if u then "X" else "x") :: s.
Proof.
  intros Ha Hs Eh E. destruct (float_loop_show a target r Ha Hs) as [dot L].
  assert (B : show_body a = show_float a).
  { unfold show_body, show_float, is_hex_spelling in *. by destruct (fs_hex a). }
  rewrite B, E, Eh in L.
  assert (Ls : float_loop false (chr "0" :: chr (if u then "X" else "x") :: s) false false false =
    FloatSuffix (chr (if u then "X" else "x") :: s) true false false) by (by destruct u).
  rewrite Ls in L. injection L as L _ _. rewrite <- L in Hs. unfold float_suffixes in Hs.
  repeat (destruct Hs as [Hs|Hs]; [injection Hs as H1 H2; by destruct u|]); done.
Qed.

Lemma show_float_prefix a target r :
  float_ok a -> In (fs_suffix a, r) (float_suffixes target) ->
  radix_prefix (show_float a) "x" "X" = is_hex_spelling a /\
  (if is_hex_spelling a then drop 2 (show_float a) else show_float a) = show_body a.
Proof.
  intros Ha Hs. unfold show_float, show_body, is_hex_spelling. destruct (fs_hex a) as [up|] eqn:Eh.
  - split; [|by destruct up]. apply radix_prefix_true with (chr (if up then "X" else "x"))
      (fs_int a ++ show_frac (fs_frac a) ++ show_opt_exp true (fs_exp a) ++ fs_suffix a);
      [by destruct up..|].
    destruct Ha as (_ & Hne & _). intros E. apply app_eq_nil in E as [Ei E]. apply app_eq_nil in E as [Ef _].
    apply Hne. rewrite Ei. unfold frac_part. by destruct (fs_frac a).
  - split; [|done]. destruct (radix_prefix _ "x" "X") eqn:P; [|done]. exfalso.
    apply radix_prefix_inv in P as (u & c & s & E). apply (decimal_no_x a target r u (c :: s) Ha Hs).
    + unfold is_hex_spelling. by rewrite Eh.
    + unfold show_float, is_hex_spelling. by rewrite Eh, <- E.
Qed.

(** ** What the value parser reads *)
Definition exp_value (a : FloatSpelling) : Z :=
  match fs_exp a with
  | Some (_, Some true, ds) => - nval 10 ds
  | Some (_, _, ds) => nval 10 ds
  | None => 0
  end.
Definition mantissa (a : FloatSpelling) : list Z := fs_int a ++ frac_part a.
Definition places (a : FloatSpelling) : Z := Z.of_nat (length (frac_part a)).

Lemma take_app_cap n (l k : list Z) : take n (take n l ++ k) = take n (l ++ k).
Proof.
  destruct (Nat.le_gt_cases (length l) n).
  - by rewrite (take_ge l n) by done.
  - rewrite !take_app_le by (rewrite ?length_take; lia). by rewrite take_take, Nat.min_id.
Qed.

Lemma take_snoc_cap n (l : list Z) c :
  (length l <= n)%nat -> (if (length l <? n)%nat then l ++ [c] else l) = take n (l ++ [c]).
Proof.
  intros H. destruct (Nat.ltb_spec (length l) n).
  - rewrite take_ge; [done|]. rewrite length_app. simpl. lia.
  - rewrite take_app_le by lia. by rewrite take_ge.
Qed.

Lemma collect_digits_app hex ds r digits dot frac :
  forallb (fdigit hex) ds = true -> (length digits <= DIGITS_CAP)%nat ->
  collect_digits hex (ds ++ r) digits dot frac =
  collect_digits hex r (take DIGITS_CAP (digits ++ ds)) dot
    (if dot then frac + Z.of_nat (length ds) else frac).
Proof.
  revert digits frac. induction ds as [|c ds IH]; intros digits frac H Hl.
  { rewrite app_nil_r, take_ge by done. cbn [app length]. f_equal. destruct dot; lia. }
  cbn [forallb] in H. apply andb_true_iff in H as [Hc H]. cbn [app collect_digits].
  destruct (Z.eqb_spec c (chr ".")) as [->|].
  { by destruct hex. }
  unfold fdigit in Hc. rewrite Hc. rewrite take_snoc_cap by done. rewrite IH; [|done|].
  - f_equal.
    + by rewrite take_app_cap, <- app_assoc.
    + destruct dot; [cbn [length]; lia|done].
  - rewrite length_take. lia.
Qed.

Lemma collect_digits_stop hex r digits dot frac :
  match r with [] => True | c :: _ => c <> chr "." /\ fdigit hex c = false end ->
  collect_digits hex r digits dot frac = (digits, frac, r).
Proof.
  destruct r as [|c r]; [done|]. intros [Hp Hd]. cbn [collect_digits]. unfold fdigit in Hd.
  destruct (Z.eqb_spec c (chr ".")); [done|]. by rewrite Hd.
Qed.

Lemma exp_head a target r :
  float_ok a -> In (fs_suffix a, r) (float_suffixes target) ->
  match show_opt_exp (is_hex_spelling a) (fs_exp a) ++ fs_suffix a with
  | [] => True | c :: _ => c <> chr "." /\ fdigit (is_hex_spelling a) c = false end.
Proof.
  intros (_ & _ & _ & Hx) Hs. destruct (fs_exp a) as [[[up sg] ds]|]; cbn [show_opt_exp app].
  - unfold show_exp. cbn [app]. by destruct (is_hex_spelling a), up.
  - destruct (is_hex_spelling a); [by destruct (Hx eq_refl)|].
    unfold float_suffixes in Hs.
    repeat (destruct Hs as [Hs|Hs]; [injection Hs as <- _; cbn; done|]); done.
Qed.

Lemma collect_show a target r :
  float_ok a -> In (fs_suffix a, r) (float_suffixes target) ->
  collect_digits (is_hex_spelling a) (show_body a) [] false 0 =
  (take DIGITS_CAP (mantissa a), places a, show_opt_exp (is_hex_spelling a) (fs_exp a) ++ fs_suffix a).
Proof.
  intros Ha Hs. pose proof (exp_head a target r Ha Hs) as Hh. destruct Ha as (Hd & _).
  rewrite forallb_app, andb_true_iff in Hd. destruct Hd as [Hi Hf].
  unfold show_body. rewrite collect_digits_app by (done || (simpl; lia)). cbn [app].
  unfold mantissa, places, frac_part in *. destruct (fs_frac a) as [fr|]; cbn [show_frac default from_option] in *.
  - unfold id in *. change (chars ".") with [chr "."]. rewrite <- app_assoc. cbn [app].
    change (collect_digits ?h (chr "." :: ?s) ?d false 0) with (collect_digits h s d true 0).
    rewrite collect_digits_app; [|done|rewrite length_take; lia].
    rewrite collect_digits_stop by done. by rewrite take_app_cap.
  - rewrite app_nil_r. cbn [app]. by rewrite collect_digits_stop.
Qed.
Lemma chk32_ok x : - 2 ^ 31 <= x < 2 ^ 31 -> chk32 x = Some x.
Proof.
  intros H. unfold chk32. destruct (Z.leb_spec (- 2 ^ 31) x), (Z.ltb_spec x (2 ^ 31)); (done || lia).
Qed.

Lemma decimal_digit c : fdigit false c = true -> between c "0" "9" = true /\
  digit_of 10 c = Some (c - chr "0") /\ 0 <= c - chr "0" < 10.
Proof.
  unfold fdigit. rewrite andb_false_l, orb_false_r. intros H. split; [done|].
  unfold digit_of. rewrite H. apply between_dec in H. change (chr "0") with 48 in *.
  change (chr "9") with 57 in *. split; [done|lia].
Qed.

Lemma digits_of_10 ds : forallb (fdigit false) ds = true -> Forall (is_digit_of 10) ds.
Proof.
  intros H. induction ds as [|c ds IH]; [constructor|].
  cbn [forallb] in H. apply andb_true_iff in H as [Hc H]. constructor; [|by apply IH].
  unfold is_digit_of. destruct (decimal_digit c Hc) as (_ & -> & ?). lia.
Qed.

(** Below the clamp every step is exact. *)
Lemma exponent_loop_exact (clamp : bool) ds r v :
  forallb (fdigit false) ds = true -> 0 <= v ->
  nval_from 10 v ds < (if clamp then 1000000 else 2 ^ 31) ->
  match r with [] => True | c :: _ => between c "0" "9" = false end ->
  exponent_loop clamp (ds ++ r) v = Some (nval_from 10 v ds).
Proof.
  revert v. induction ds as [|c ds IH]; intros v Hd Hv Hb Hr.
  { destruct r as [|c r]; [done|]. cbn [app exponent_loop]. by rewrite Hr. }
  cbn [forallb] in Hd. apply andb_true_iff in Hd as [Hc Hd].
  destruct (decimal_digit c Hc) as (Hb9 & Ed & Hr9). cbn [app exponent_loop]. rewrite Hb9.
  change (nval_from 10 v (c :: ds)) with (nval_from 10 (v * 10 + default 0 (digit_of 10 c)) ds) in *.
  rewrite Ed in *. change (default 0 (Some (c - chr "0"))) with (c - chr "0") in *.
  pose proof (nval_from_ge 10 (v * 10 + (c - chr "0")) ds ltac:(lia) ltac:(lia) (digits_of_10 ds Hd)).
  assert (E : (if negb clamp || (v <? 1000000) then chk32 (v * 10 + (c - chr "0")) else Some v) =
    Some (v * 10 + (c - chr "0"))).
  { assert (G : negb clamp || (v <? 1000000) = true).
    { destruct clamp; [|done]. cbn [negb orb]. apply Z.ltb_lt. lia. }
    rewrite G. apply chk32_ok. destruct clamp; lia. }
  rewrite E. apply IH; (done || lia).
Qed.

Lemma exponent_show (hex : bool) e suffix target r :
  exp_ok (Some e) -> In (suffix, r) (float_suffixes target) ->
  nval 10 e.2 < (if hex then 2 ^ 31 else 1000000) ->
  (if hex then exponent false (show_exp true e ++ suffix) "p" "P"
   else exponent true (show_exp false e ++ suffix) "e" "E") =
  Some (match e.1.2 with Some true => - nval 10 e.2 | _ => nval 10 e.2 end).
Proof.
  destruct e as [[up sg] ds]. cbn [fst snd]. intros [Hne Hd] Hs Hv.
  destruct ds as [|c ds']; [done|]. set (ds := c :: ds') in *.
  assert (Hc : c <> chr "-" /\ is_one_of c "+" "-" = false).
  { cbn [forallb ds] in Hd. apply andb_true_iff in Hd as [Hc _].
    destruct (decimal_digit c Hc) as (_ & _ & B). change (chr "0") with 48 in B. unfold is_one_of.
    rewrite orb_false_iff, !Z.eqb_neq. change (chr "-") with 45. change (chr "+") with 43. lia. }
  destruct Hc as [Hc1 Hc2].
  assert (Hr : match suffix with [] => True | c :: _ => between c "0" "9" = false end).
  { unfold float_suffixes in Hs.
    repeat (destruct Hs as [Hs|Hs]; [injection Hs as <- _; done|]); done. }
  assert (L : forall clamp : bool, nval 10 ds < (if clamp then 1000000 else 2 ^ 31) ->
    exponent_loop clamp (ds ++ suffix) 0 = Some (nval 10 ds)).
  { intros clamp Hcl. apply exponent_loop_exact; (done || lia). }
  assert (S : forall lo hi m (clamp : bool), is_one_of m lo hi = true ->
    nval 10 ds < (if clamp then 1000000 else 2 ^ 31) ->
    exponent clamp (m :: (match sg with None => [] | Some true => chars "-" | Some false => chars "+" end
      ++ ds) ++ suffix) lo hi =
    Some (match sg with Some true => - nval 10 ds | _ => nval 10 ds end)).
  { intros lo hi m clamp Hm Hcl. unfold exponent. rewrite Hm, <- app_assoc.
    destruct sg as [[|]|].
    - change (chars "-" ++ ds ++ suffix) with (chr "-" :: ds ++ suffix).
      change (skip_sign (chr "-" :: ds ++ suffix)) with (ds ++ suffix). by rewrite L.
    - change (chars "+" ++ ds ++ suffix) with (chr "+" :: ds ++ suffix).
      change (skip_sign (chr "+" :: ds ++ suffix)) with (ds ++ suffix). by rewrite L.
    - cbn [app ds skip_sign]. rewrite Hc2. replace (c =? chr "-") with false by (symmetry; by apply Z.eqb_neq).
      change (c :: ds' ++ suffix) with (ds ++ suffix). by rewrite L. }
  unfold show_exp. destruct hex; cbn [app]; apply S; (done || by destruct up).
Qed.

(** The exponent digits stay below the clamp of decimal literals and inside
    [int32_t] for hexadecimal ones. *)
Definition exp_bounded (a : FloatSpelling) : Prop :=
  Z.abs (exp_value a) < if is_hex_spelling a then 2 ^ 30 else 1000000.

Lemma parse_shown a target r f :
  float_ok a -> In (fs_suffix a, r) (float_suffixes target) -> exp_bounded a -> places a < 2 ^ 28 ->
  constexpr_parse_float (Some (show_float a)) f =
  Some (if is_hex_spelling a
        then sf_from_hex (take DIGITS_CAP (mantissa a)) (exp_value a - places a * 4) f no_status
        else sf_from_decimal (take DIGITS_CAP (mantissa a)) (exp_value a - places a) f no_status).
Proof.
  intros Ha Hs Hb Hp. destruct (show_float_prefix a target r Ha Hs) as [P B].
  pose proof (collect_show a target r Ha Hs) as C.
  assert (X : forall hex : bool, is_hex_spelling a = hex ->
    (if hex then exponent false (show_opt_exp true (fs_exp a) ++ fs_suffix a) "p" "P"
     else exponent true (show_opt_exp false (fs_exp a) ++ fs_suffix a) "e" "E") = Some (exp_value a)).
  { intros hex Eh. destruct Ha as (_ & _ & He & Hx). unfold exp_bounded, exp_value in *.
    rewrite Eh in *. destruct (fs_exp a) as [e|]; cbn [show_opt_exp].
    - assert (N : 0 <= nval 10 e.2).
      { destruct e as [[up sg] ds]. destruct He as [_ Hd].
        apply (nval_from_ge 10 0 ds); [lia|lia|by apply digits_of_10]. }
      rewrite (exponent_show hex e (fs_suffix a) target r He Hs).
      + by destruct e as [[up [[|]|]] ds].
      + destruct e as [[up [[|]|]] ds], hex; cbn [fst snd] in *; lia.
    - destruct hex; [by destruct (Hx eq_refl)|]. cbn [app]. unfold float_suffixes in Hs.
      repeat (destruct Hs as [Hs|Hs]; [injection Hs as <- _; done|]); done. }
  assert (Bd : Z.abs (exp_value a) < 2 ^ 30) by (unfold exp_bounded in Hb; destruct (is_hex_spelling a); lia).
  assert (Np : 0 <= places a) by (unfold places; lia).
  destruct (is_hex_spelling a) eqn:Eh.
  - apply radix_prefix_inv in P as (u & c & s & E). rewrite E in B |- *. cbn [drop] in B.
    unfold constexpr_parse_float. replace ((chr "0" =? chr "0") && _) with true by (by destruct u).
    unfold parse_hex_float. rewrite B, C, (X true eq_refl). by rewrite chk32_ok by lia.
  - assert (D : parse_decimal_float (show_float a) f =
      Some (sf_from_decimal (take DIGITS_CAP (mantissa a)) (exp_value a - places a) f no_status)).
    { unfold parse_decimal_float. rewrite B, C, (X false eq_refl). by rewrite chk32_ok by lia. }
    unfold constexpr_parse_float. destruct (show_float a) as [|z [|x s]] eqn:Es; [done|done|].
    destruct ((z =? chr "0") && is_one_of x "x" "X") eqn:Q; [|done]. exfalso.
    apply andb_true_iff in Q as [Q1 Q2]. apply Z.eqb_eq in Q1. apply is_one_of_spec in Q2 as [-> | ->].
    + by apply (decimal_no_x a target r false s Ha Hs Eh); rewrite Es, Q1.
    + by apply (decimal_no_x a target r true s Ha Hs Eh); rewrite Es, Q1.
Qed.

(** ** The number a spelling denotes *)
Definition float_value (a : FloatSpelling) : Q :=
  if is_hex_spelling a then inject_Z (nval 16 (mantissa a)) * pow2 (exp_value a - places a * 4)
  else inject_Z (nval 10 (mantissa a)) * ten (exp_value a - places a).

Lemma decimal_dval ds v : forallb (fdigit false) ds = true -> dval_from v ds = nval_from 10 v ds.
Proof.
  revert v. induction ds as [|c ds IH]; intros v H; [done|].
  cbn [forallb] in H. apply andb_true_iff in H as [Hc H].
  destruct (decimal_digit c Hc) as (_ & E & _). specialize (IH (v * 10 + (c - chr "0")) H).
  unfold dval_from, nval_from in *. cbn [fold_left]. rewrite E. exact IH.
Qed.

Lemma hex_hval ds v : forallb (fdigit true) ds = true -> fold_left hval_step ds v = nval_from 16 v ds.
Proof.
  revert v. induction ds as [|c ds IH]; intros v H; [done|].
  cbn [forallb] in H. apply andb_true_iff in H as [Hc H].
  assert (E : hex_digit c = digit_of 16 c).
  { unfold hex_digit, digit_of, between. reflexivity. }
  assert (N : exists d, digit_of 16 c = Some d).
  { unfold fdigit in Hc. unfold digit_of. cbn [Z.eqb Pos.eqb andb].
    destruct (between c "0" "9"), (between c "a" "f"), (between c "A" "F"); try (eexists; reflexivity). done. }
  destruct N as [d Hd]. unfold nval_from. cbn [fold_left].
  change (hval_step v c) with (match hex_digit c with None => v | Some d => v * 16 + d end).
  rewrite E, Hd. by apply IH.
Qed.

Lemma decimal_chars ds : forallb (fdigit false) ds = true -> Forall is_digit ds.
Proof.
  intros H. induction ds as [|c ds IH]; [constructor|].
  cbn [forallb] in H. apply andb_true_iff in H as [Hc H]. constructor; [|by apply IH].
  destruct (decimal_digit c Hc) as (_ & _ & B). unfold is_digit. change (chr "0") with 48 in B. lia.
Qed.

Lemma skip_zeros_length ds : (length (skip_zeros ds) <= length ds)%nat.
Proof.
  induction ds as [|d ds IH]; [done|]. cbn [skip_zeros]. destruct (d =? 48); cbn [length] in *; [|lia].
  etransitivity; [exact IH|lia].
Qed.

(** ** Properties of the code *)

(** [lex_float_const] accepts exactly the spellings of 6.4.4.2 with the
    suffixes of the compiler: mantissa digits with an optional point, an
    exponent with digits (required after [0x]), a known suffix. The suffix
    alone decides the type, [q] following the target. *)
Theorem lex_float_const_correct t std target loc :
  (forall a ty ext, float_ok a -> In (fs_suffix a, (ty, ext)) (float_suffixes target) ->
    lex_float_const t (show_float a) std target loc =
    (set_float t ty (ext || float_ext_suffix t),
     if is_hex_spelling a && negb (std_is_c99_or_later std) then
       [pp_warn_at WARN_C90_C99_COMPAT loc (Z.of_nat (length (show_float a)))
          "hexadecimal floating constants are a C99 feature"%string] else [])) /\
  (forall sp, no_errors (lex_float_const t sp std target loc).2 = true ->
    exists a r, float_ok a /\ In (fs_suffix a, r) (float_suffixes target) /\ sp = show_float a).
Proof.
  split.
  - intros a ty ext Ha Hs. unfold lex_float_const.
    destruct (show_float_prefix a target _ Ha Hs) as [-> ->].
    destruct (float_loop_show a target _ Ha Hs) as [dot ->]. cbn [negb].
    assert (X : is_hex_spelling a && negb (is_some_exp (fs_exp a)) = false).
    { destruct Ha as (_ & _ & _ & Hx). destruct (is_hex_spelling a); [|done].
      destruct (fs_exp a); [done|]. by destruct (Hx eq_refl). }
    rewrite X. rewrite <- float_suffix_table in Hs.
    destruct (fs_suffix a) as [|c s] eqn:Es; [|by rewrite Hs].
    injection Hs as <- <-. by destruct t.
  - intros sp H. unfold lex_float_const in H. set (hex := radix_prefix sp "x" "X") in *.
    destruct (float_loop hex _ false false false) as [|rest dg dot ex] eqn:L; [done|].
    apply float_loop_inv_mantissa in L as (ip & fr & e & E & Hd & He & -> & -> & _ & Hx).
    destruct (negb _) eqn:Hdg in H; [done|]. destruct (hex && negb (is_some_exp e)) eqn:Hh; [done|].
    apply negb_false_iff in Hdg. cbn [orb] in *.
    assert (Hne : ip ++ default [] fr <> []).
    { apply nonempty_spec. apply orb_true_iff in Hdg as [|Hs]; [done|by apply Hx]. }
    assert (Hs : exists r, In (rest, r) (float_suffixes target)).
    { destruct rest as [|c rest]; [exists (FTY_DOUBLE, false); simpl; auto|].
      destruct (float_suffix (c :: rest) target) as [r|] eqn:Ef; [exists r; by apply float_suffix_table|].
      cbn [snd] in H. rewrite no_errors_app, andb_true_iff in H. by destruct H. }
    destruct Hs as [r Hs].
    assert (P : exists px, sp = show_prefix px ++ (if hex then drop 2 sp else sp) /\
      (match px with Some _ => true | None => false end) = hex).
    { unfold hex. destruct (radix_prefix sp "x" "X") eqn:Ep; [|by exists None].
      apply radix_prefix_inv in Ep as (u & c & s & ->). exists (Some u). by destruct u. }
    destruct P as (px & Esp & Epx). exists (mkFloat px ip fr e rest), r.
    assert (Eh : is_hex_spelling (mkFloat px ip fr e rest) = hex) by done.
    split; [|split; [done|]].
    + unfold float_ok. rewrite Eh. split; [done|]. split; [done|]. split; [done|].
      intros Ht. rewrite Ht in Hh. cbn [fs_exp]. by destruct e.
    + unfold show_float. rewrite Eh. cbn [fs_hex fs_int fs_frac fs_exp fs_suffix]. by rewrite Esp, E at 1.
Qed.

Lemma lex_float_const_witness :
  let a := mkFloat (Some false) (chars "A") (Some (chars "8")) (Some (false, Some true, chars "12")) (chars "L") in
  show_float a = chars "0xA.8p-12L" /\
  (lex_float_const no_token (chars "0xA.8p-12L") STD_C17 CGF_TARGET_ARM64_MACOS 0).1 =
  set_float no_token FTY_LDOUBLE false.
Proof.
  intros a. split; [reflexivity|].
  assert (Ok : float_ok a) by (split; [reflexivity|split; [discriminate|split; [split; [discriminate|reflexivity]|discriminate]]]).
  assert (S : In (fs_suffix a, (FTY_LDOUBLE, false)) (float_suffixes CGF_TARGET_ARM64_MACOS)) by (simpl; tauto).
  pose proof (proj1 (lex_float_const_correct no_token STD_C17 CGF_TARGET_ARM64_MACOS 0) a _ _ Ok S) as E.
  change (show_float a) with (chars "0xA.8p-12L") in E. rewrite E. reflexivity.
Defined.

(** C34. The value of every literal the lexer accepts is the IEEE rounding of
    the number its spelling denotes, when the mantissa has at most 4096 digits
    and the exponent is within the bignum's capacity: decimal and hexadecimal,
    in each of the target formats. *)
Theorem float_literal_value a target r f :
  float_ok a -> In (fs_suffix a, r) (float_suffixes target) -> wf_format f ->
  Z.of_nat (length (mantissa a)) <= 4096 ->
  (if is_hex_spelling a then Z.abs (exp_value a) < 2 ^ 30
   else Z.of_nat (length (mantissa a)) + Z.abs (exp_value a - places a) <= 12000) ->
  constexpr_parse_float (Some (show_float a)) f = Some (round_signed f (float_value a) no_status).
Proof.
  intros Ha Hs Hf Hl Hb.
  assert (Np : 0 <= places a <= Z.of_nat (length (mantissa a))).
  { unfold places, mantissa. rewrite length_app. lia. }
  assert (B : exp_bounded a) by (unfold exp_bounded; destruct (is_hex_spelling a); lia).
  rewrite (parse_shown a target r f Ha Hs B) by lia.
  rewrite take_ge by (unfold DIGITS_CAP; lia). f_equal. unfold float_value.
  destruct Ha as (Hd & _). fold (mantissa a) in Hd. destruct (is_hex_spelling a).
  - rewrite sf_from_hex_rounds by done. unfold hval. by rewrite hex_hval.
  - pose proof (skip_zeros_length (mantissa a)).
    rewrite sf_from_decimal_rounds by (try done; try (by apply decimal_chars); lia).
    unfold dval. by rewrite decimal_dval.
Qed.

Lemma float_literal_witness :
  let a := mkFloat None (chars "6") (Some (chars "25")) (Some (false, Some true, chars "2")) (chars "f") in
  show_float a = chars "6.25e-2f" /\
  constexpr_parse_float (Some (chars "6.25e-2f")) SF_BINARY32 =
  Some (round_signed SF_BINARY32 (1 # 16) no_status).
Proof.
  intros a. split; [reflexivity|].
  assert (Ok : float_ok a) by (split; [reflexivity|split; [discriminate|split; [split; [discriminate|reflexivity]|done]]]).
  assert (S : In (fs_suffix a, (FTY_FLOAT, false)) (float_suffixes CGF_TARGET_ARM64_LINUX)) by (simpl; tauto).
  pose proof (float_literal_value a CGF_TARGET_ARM64_LINUX _ SF_BINARY32 Ok S wf_binary32
    ltac:(vm_compute; discriminate) ltac:(vm_compute; discriminate)) as E.
  change (show_float a) with (chars "6.25e-2f") in E. rewrite E.
  by rewrite (round_signed_proper SF_BINARY32 (float_value a) (1 # 16) ltac:(reflexivity)
    no_status no_status eq_refl).
Defined.

(** A mantissa longer than the buffer: the digits beyond it are dropped, but
    their decimal places are still counted, so the value shrinks. *)
Lemma long_literal_digits n f :
  (4096 <= n)%nat -> Z.of_nat n < 2 ^ 28 ->
  constexpr_parse_float (Some (chars "1." ++ replicate n (chr "0"))) f =
  Some (sf_from_decimal (chr "1" :: replicate 4095 (chr "0")) (- Z.of_nat n) f no_status).
Proof.
  intros Hn Hb. set (a := mkFloat None (chars "1") (Some (replicate n (chr "0"))) None []).
  assert (Hz : forallb (fdigit false) (replicate n (chr "0")) = true).
  { clear. induction n as [|n IH]; [done|]. cbn [replicate forallb]. by rewrite IH. }
  assert (Ok : float_ok a).
  { split; [|split; [discriminate|split; done]]. 
    change (fdigit false (chr "1") && forallb (fdigit false) (replicate n (chr "0")) = true). by rewrite Hz. }
  assert (Pl : places a = Z.of_nat n).
  { unfold places, frac_part, a. cbn [fs_frac default from_option]. unfold id. by rewrite length_replicate. }
  assert (E : show_float a = chars "1." ++ replicate n (chr "0")).
  { unfold show_float, a. cbn [fs_hex fs_int fs_frac fs_exp fs_suffix show_frac show_prefix show_opt_exp].
    by rewrite !app_nil_r. }
  rewrite <- E, (parse_shown a CGF_TARGET_ARM64_LINUX (FTY_DOUBLE, false) f Ok).
  - cbn [is_hex_spelling a fs_hex]. rewrite Pl. unfold exp_value, a. cbn [fs_exp].
    assert (T : take DIGITS_CAP (mantissa a) = chr "1" :: replicate 4095 (chr "0")).
    { unfold mantissa, frac_part, a. cbn [fs_int fs_frac default from_option]. unfold id.
      change DIGITS_CAP with (S 4095). change (chars "1" ++ ?l) with (chr "1" :: l). cbn [take].
      f_equal. rewrite take_replicate. by rewrite Nat.min_l by lia. }
    fold a. rewrite T. by rewrite Z.sub_0_l.
  - simpl. tauto.
  - unfold exp_bounded, exp_value, a. cbn [fs_exp is_hex_spelling fs_hex]. lia.
  - by rewrite Pl.
Qed.


Lemma dval_one_zeros k : dval (chr "1" :: replicate k (chr "0")) = 10 ^ Z.of_nat k.
Proof.
  change (dval (chr "1" :: replicate k (chr "0"))) with (dval_from 1 (replicate k (chr "0"))).
  assert (G : forall v, dval_from v (replicate k (chr "0")) = v * 10 ^ Z.of_nat k).
  { induction k as [|k IH]; intros v; [unfold dval_from; simpl; lia|].
    cbn [replicate]. change (dval_from v (chr "0" :: replicate k (chr "0"))) with
      (dval_from (v * 10 + 0) (replicate k (chr "0"))).
    rewrite IH, Nat2Z.inj_succ, Z.pow_succ_r by lia. lia. }
  rewrite G. lia.
Qed.

(** So [1.000...0] with 5000 zeros, the double 1.0, is answered with zero. *)
Example long_one_is_zero :
  constexpr_parse_float (Some (chars "1." ++ replicate 5000 (chr "0"))) SF_BINARY64 =
  Some (special false SF_ZERO, mkStatus true false true false).
Proof.
  rewrite long_literal_digits by lia. rewrite sf_from_decimal_rounds.
  - assert (E : (inject_Z (dval (chr "1" :: replicate 4095 (chr "0"))) * ten (- Z.of_nat 5000) == ten (-905))%Q).
    { rewrite dval_one_zeros. change (Z.of_nat 4095) with 4095. change (- Z.of_nat 5000) with (-5000).
      rewrite <- (Qmult_1_l (ten (-905))). unfold ten. rewrite Zpower_Qpower by lia.
      change (inject_Z 10) with (10 # 1). rewrite <- Qpower_plus by discriminate.
      by rewrite Qmult_1_l. }
    rewrite (round_signed_proper SF_BINARY64 _ _ E no_status no_status eq_refl).
    vm_compute. reflexivity.
  - exact wf_binary64.
  - apply Forall_cons_iff. split; [unfold is_digit; vm_compute; split; congruence|].
    apply Forall_replicate. unfold is_digit. vm_compute. split; congruence.
  - pose proof (skip_zeros_length (chr "1" :: replicate 4095 (chr "0"))) as L.
    cbn [length] in L. rewrite length_replicate in L. lia.
Qed.
