(* ===== verification/Ppexpr.v ===== *)
(** [src/pp/ppexpr.c]: the evaluator of [#if] and [#elif] conditions.

    The token cursor and the error flag are the state of a small monad; the
    recursive descent is the C's, one definition per function. The recursion
    through parentheses and [?:] is cut by fuel, and the loops by the number of
    tokens; that both suffice is proved below. *)
From Stdlib Require Import Ascii String.
From S2P Require Import Prelude.
From S2P Require Import Pptok.
From S2P Require Import Numlit.
#[local] Open Scope Z_scope.

Record PpVal := make_val { v : Z; is_unsigned : bool }.

(** [pp] is represented by the diagnostics it has been given. *)
Record EvalCtx := mkCtx {
  toks : list PpToken;
  pos : nat;
  line_loc : SrcLoc;
  failed : bool;
  log : list Diag;
}.
Definition advance (c : EvalCtx) : EvalCtx := mkCtx (toks c) (S (pos c)) (line_loc c) (failed c) (log c).
Definition emit (c : EvalCtx) (d : Diag) : EvalCtx :=
  mkCtx (toks c) (pos c) (line_loc c) (failed c) (log c ++ [d]).

Definition peek_tok (c : EvalCtx) : option PpToken := toks c !! pos c.

Definition eval_error (c : EvalCtx) (at_ : option PpToken) (msg : string) : EvalCtx :=
  if failed c then c
  else
    let d := match at_ with
             | Some t => pp_diag_at (tok_loc t) (tok_len t) msg
             | None => pp_diag_at (line_loc c) 1 msg
             end in
    mkCtx (toks c) (pos c) (line_loc c) true (log c ++ [d]).

Definition accept_punct (c : EvalCtx) (p : PpPunct) : bool * EvalCtx :=
  match peek_tok c with
  | Some t => if bool_decide (kind t = PPTOK_PUNCT) && bool_decide (punct t = p) then (true, advance c)
              else (false, c)
  | None => (false, c)
  end.

(** ** Numbers *)

(** The digit loop breaks at a character that is no digit of the base. *)
Fixpoint number_digits (base : Z) (s : list Z) (v : Z) (overflow : bool) : Z * bool * list Z :=
  match s with
  | [] => (v, overflow, [])
  | c :: s' =>
    match digit_of base c with
    | None => (v, overflow, s)
    | Some d =>
      if base <=? d then (v, overflow, s)
      else number_digits base s' ((v *64 base) +64 d)
             (if (2 ^ 64 - 1 - d) / base <? v then true else overflow)
    end
  end.

Fixpoint number_suffix (s : list Z) (suf_u suf_l : bool) : bool * list Z :=
  match s with
  | [] => (suf_u, [])
  | c :: s' =>
    if is_one_of c "u" "U" && negb suf_u then number_suffix s' true suf_l
    else if is_one_of c "l" "L" && negb suf_l then
      match s' with
      | c' :: s'' => if c' =? c then number_suffix s'' suf_u true else number_suffix s' suf_u true
      | [] => number_suffix s' suf_u true
      end
    else (suf_u, s)
  end.

Definition parse_number (c : EvalCtx) (t : PpToken) : PpVal * EvalCtx :=
  let s := spelling t in
  let '(base, rest) :=
    if radix_prefix s "x" "X" then (16, drop 2 s)
    else if (s !!! 0%nat =? chr "0") && (1 <? Z.of_nat (length s)) then (8, drop 1 s)
    else (10, s) in
  let '(v, overflow, rest) := number_digits base rest 0 false in
  let '(suf_u, rest) := number_suffix rest false false in
  match rest with
  | _ :: _ =>
    (make_val 0 false, eval_error c (Some t) "invalid integer constant in preprocessor expression")
  | [] =>
    let c := if overflow then eval_error c (Some t) "integer constant is too large for uintmax_t" else c in
    (make_val v (suf_u || (0x7FFFFFFFFFFFFFFF <? v)), c)
  end.

(** ** Character constants *)
Fixpoint octal_run (k : nat) (s : list Z) (ch : Z) : Z * list Z :=
  match k, s with
  | S k, c :: s' => if between c "0" "7" then octal_run k s' ((ch *64 8) +64 (c - chr "0")) else (ch, s)
  | _, _ => (ch, s)
  end.

Fixpoint hex_run (s : list Z) (ch : Z) : Z * list Z :=
  match s with
  | c :: s' =>
    if between c "0" "9" || between c "a" "f" || between c "A" "F" then
      let d := if between c "0" "9" then c - chr "0"
               else if chr "a" <=? c then c - chr "a" + 10 else c - chr "A" + 10 in
      hex_run s' ((ch *64 16) +64 d)
    else (ch, s)
  | [] => (ch, s)
  end.

(** What follows a backslash: the character and the rest. *)
Inductive Escape := Escaped (ch : Z) (rest : list Z) | EscapeEnd | EscapeUnknown.
Definition escape (s : list Z) : Escape :=
  match s with
  | [] => EscapeEnd
  | c :: s' =>
    if c =? chr "n" then Escaped 10 s'
    else if c =? chr "t" then Escaped 9 s'
    else if c =? chr "r" then Escaped 13 s'
    else if between c "0" "7" then let '(ch, r) := octal_run 3 s 0 in Escaped ch r
    else if c =? chr "x" then let '(ch, r) := hex_run s' 0 in Escaped ch r
    else if c =? 92 then Escaped 92 s'
    else if c =? 39 then Escaped 39 s'
    else if c =? 34 then Escaped 34 s'
    else if c =? chr "a" then Escaped 7 s'
    else if c =? chr "b" then Escaped 8 s'
    else if c =? chr "f" then Escaped 12 s'
    else if c =? chr "v" then Escaped 11 s'
    else EscapeUnknown
  end.

(** The loop to the closing quote (39); the fuel is the number of characters. *)
Inductive CharScan := CharEnd (v : Z) (nchars : Z) (rest : list Z) | CharBad | CharUnknown.
Fixpoint char_loop (fuel : nat) (prefixed : bool) (s : list Z) (v nchars : Z) : CharScan :=
  match fuel, s with
  | S fuel, c :: s' =>
    if c =? 39 then CharEnd v nchars s
    else
      let add ch := if prefixed then ch else (v <<64 8) |64 (ch &64 0xFF) in
      if c =? 92 then
        match escape s' with
        | EscapeEnd => CharBad
        | EscapeUnknown => CharUnknown
        | Escaped ch r => char_loop fuel prefixed r (add ch) (nchars + 1)
        end
      else char_loop fuel prefixed s' (add (u8 c)) (nchars + 1)
  | _, _ => CharEnd v nchars s
  end.

(** [(u64)(i64)(i8)(u8)x] *)
Definition sign_extend8 (x : Z) : Z := let b := u8 x in u64 (if b <? 128 then b else b - 256).

Definition parse_charconst (c : EvalCtx) (t : PpToken) : PpVal * EvalCtx :=
  let s := spelling t in
  let invalid := (make_val 0 false, eval_error c (Some t) "invalid character constant") in
  let '(prefixed, s) :=
    match s with
    | p :: s' => if (p =? chr "L") || (p =? chr "u") || (p =? chr "U") then (true, s') else (false, s)
    | [] => (false, s)
    end in
  match s with
  | q :: s =>
    if negb (q =? 39) then invalid
    else
      match char_loop (length s) prefixed s 0 0 with
      | CharBad => invalid
      | CharUnknown =>
        (make_val 0 false, eval_error c (Some t) "unknown escape sequence in character constant")
      | CharEnd v nchars rest =>
        match rest with
        | [] => invalid
        | _ =>
          if nchars =? 0 then invalid
          else if 1 <? nchars then
            if prefixed then
              (make_val v false,
               emit c (pp_warn_at WARN_MULTICHAR (tok_loc t) (tok_len t)
                         "character constant too long for its type"))
            else if 8 <? nchars then
              (make_val 0 false, eval_error c (Some t) "character constant too long")
            else (make_val v false, c)
          else if prefixed then (make_val v false, c)
          else (make_val (sign_extend8 v) false, c)
        end
      end
  | [] => invalid
  end.

(** ** The descent *)
Definition M (A : Type) := EvalCtx -> option (A * EvalCtx).
Definition ret {A} (a : A) : M A := fun c => Some (a, c).
Definition bind {A B} (m : M A) (k : A -> M B) : M B :=
  fun c => match m c with Some (a, c) => k a c | None => None end.
Definition out_of_fuel {A} : M A := fun _ => None.
Definition accept (p : PpPunct) : M bool := fun c => Some (accept_punct c p).
Definition error (at_ : EvalCtx -> option PpToken) (msg : string) : M PpVal :=
  fun c => Some (make_val 0 false, eval_error c (at_ c) msg).
Notation "'let*' x ':=' m 'in' k" := (bind m (fun x => k)) (at level 10, x name, m at level 100, k at level 200).

(** [&c->toks[c->pos - 1]] *)
Definition last_tok (c : EvalCtx) : option PpToken := toks c !! (pos c - 1)%nat.
Definition loop_fuel (c : EvalCtx) : nat := S (length (toks c)).

(** The token switch of a primary that is not parenthesised. *)
Definition eval_leaf (t : PpToken) : M PpVal := fun c =>
  match kind t with
  | PPTOK_PPNUM => Some (parse_number c t)
  | PPTOK_CHARCONST => Some (parse_charconst c t)
  | PPTOK_IDENT => Some (make_val 0 false, c)
  | PPTOK_STRLIT => Some (make_val 0 false, eval_error c (Some t) "string literals are not allowed in #if")
  | _ => Some (make_val 0 false, eval_error c (Some t) "unexpected token in #if expression")
  end.

(** The shape shared by the nine left-associative levels:
    [l = next; for (;;) { accept one of ops, or return l; r = next;
    l = combine l r }]. [combine] sees the context, and may return at once. *)
Fixpoint accept_any {O} (ops : list (PpPunct * O)) : M (option O) :=
  match ops with
  | [] => ret None
  | (p, o) :: ops => let* ok := accept p in if ok : bool then ret (Some o) else accept_any ops
  end.

Inductive LoopStep := Continue (l : PpVal) | Return (l : PpVal).
Fixpoint left_loop {O} (fuel : nat) (ops : list (PpPunct * O)) (next : PpVal -> M PpVal)
    (combine : O -> PpVal -> PpVal -> M LoopStep) (l : PpVal) : M PpVal :=
  match fuel with
  | O => out_of_fuel
  | S fuel =>
    let* o := accept_any ops in
    match o with
    | None => ret l
    | Some o =>
      let* r := next l in
      let* s := combine o l r in
      match s with
      | Continue l => left_loop fuel ops next combine l
      | Return l => ret l
      end
    end
  end.
Definition left_level {O} (ops : list (PpPunct * O)) (first : M PpVal) (next : PpVal -> M PpVal)
    (combine : O -> PpVal -> PpVal -> M LoopStep) : M PpVal :=
  let* l := first in fun c => left_loop (loop_fuel c) ops next combine l c.

(** ** Arithmetic of one operator *)
Definition s_lt (a b : Z) : bool := i64 a <? i64 b.
Inductive MulOp := OpMul | OpDiv | OpMod.
Inductive RelOp := OpLt | OpGt | OpLe | OpGe.

(** Division by zero is an error only on the live path; the result of an
    error is returned at once. *)
Definition combine_mul (live : bool) (op : MulOp) (l r : PpVal) : M LoopStep := fun c =>
  if failed c then Some (Return (make_val 0 false), c)
  else
    let uns := is_unsigned l || is_unsigned r in
    match op with
    | OpMul => Some (Continue (make_val (v l *64 v r) uns), c)
    | _ =>
      let is_div := match op with OpDiv => true | _ => false end in
      if v r =? 0 then
        Some (Continue (make_val 0 uns),
              if live then eval_error c (last_tok c) "division by zero in #if expression" else c)
      else if uns then Some (Continue (make_val (if is_div then v l / v r else v l mod v r) true), c)
      else if (i64 (v r) =? -1) && (i64 (v l) =? i64 (1 <<64 63)) then
        Some (Continue (make_val (if is_div then v l else 0) false), c)
      else
        Some (Continue (make_val (if is_div then u64 (Z.quot (i64 (v l)) (i64 (v r)))
                                  else u64 (Z.rem (i64 (v l)) (i64 (v r)))) false), c)
    end.

Definition pure_combine {O} (f : O -> PpVal -> PpVal -> PpVal) (op : O) (l r : PpVal) : M LoopStep :=
  ret (Continue (f op l r)).

Definition combine_add (minus : bool) (l r : PpVal) : PpVal :=
  make_val (if minus then v l -64 v r else v l +64 v r) (is_unsigned l || is_unsigned r).

Definition combine_shift (right : bool) (l r : PpVal) : PpVal :=
  let cnt := if negb (is_unsigned r) && s_lt (v r) 0 then 64 else v r in
  if 64 <=? cnt then
    if right && negb (is_unsigned l) && s_lt (v l) 0 then make_val (~64 0) (is_unsigned l)
    else make_val 0 (is_unsigned l)
  else if right then
    if negb (is_unsigned l) && s_lt (v l) 0 then make_val (~64 ((~64 v l) >>64 cnt)) false
    else make_val (v l >>64 cnt) (is_unsigned l)
  else make_val (v l <<64 cnt) (is_unsigned l).

Definition combine_rel (op : RelOp) (l r : PpVal) : PpVal :=
  let res :=
    if is_unsigned l || is_unsigned r then
      match op with
      | OpLt => v l <? v r | OpGt => v r <? v l | OpLe => v l <=? v r | OpGe => v r <=? v l
      end
    else
      match op with
      | OpLt => s_lt (v l) (v r) | OpGt => s_lt (v r) (v l)
      | OpLe => negb (s_lt (v r) (v l)) | OpGe => negb (s_lt (v l) (v r))
      end in
  make_val (if res then 1 else 0) false.

Definition combine_eq (ne : bool) (l r : PpVal) : PpVal :=
  make_val (if negb (Bool.eqb (v l =? v r) ne) then 1 else 0) false.

Inductive BitOp := OpAnd | OpXor | OpOr.
Definition combine_bit (op : BitOp) (l r : PpVal) : PpVal :=
  make_val (match op with OpAnd => v l &64 v r | OpXor => Z.lxor (v l) (v r) | OpOr => v l |64 v r end)
    (is_unsigned l || is_unsigned r).

Definition combine_and (_ : unit) (l r : PpVal) : PpVal :=
  make_val (if negb (v l =? 0) && negb (v r =? 0) then 1 else 0) false.
Definition combine_or (_ : unit) (l r : PpVal) : PpVal :=
  make_val (if negb (v l =? 0) || negb (v r =? 0) then 1 else 0) false.

(** ** The grammar levels over one [eval_cond] *)
Section descent.
  Context (eval_cond : bool -> M PpVal).

Definition eval_primary (live : bool) : M PpVal := fun c =>
  if failed c then Some (make_val 0 false, c)
  else
    match peek_tok c with
    | None => Some (make_val 0 false, eval_error c None "expected expression in #if")
    | Some t =>
      (let* paren := accept PUNCT_LPAREN in
       if paren : bool then
         let* v := eval_cond live in
         let* closed := accept PUNCT_RPAREN in
         if closed : bool then ret v
         else fun c => Some (v, eval_error c (peek_tok c) "expected ')' in #if expression")
       else fun c => eval_leaf t (advance c)) c
    end.

Fixpoint eval_unary (fuel : nat) (live : bool) : M PpVal :=
  match fuel with
  | O => out_of_fuel
  | S fuel =>
    let* op := accept_any [(PUNCT_BANG, PUNCT_BANG); (PUNCT_TILDE, PUNCT_TILDE); (PUNCT_PLUS, PUNCT_PLUS);
                           (PUNCT_MINUS, PUNCT_MINUS); (PUNCT_PLUSPLUS, PUNCT_PLUSPLUS);
                           (PUNCT_MINUSMINUS, PUNCT_MINUSMINUS)] in
    match op with
    | Some PUNCT_BANG =>
      let* x := eval_unary fuel live in ret (make_val (if v x =? 0 then 1 else 0) false)
    | Some PUNCT_TILDE =>
      let* x := eval_unary fuel live in ret (make_val (~64 v x) (is_unsigned x))
    | Some PUNCT_PLUS => eval_unary fuel live
    | Some PUNCT_MINUS =>
      let* x := eval_unary fuel live in ret (make_val (0 -64 v x) (is_unsigned x))
    | Some _ => error last_tok "'++'/'--' are not allowed in #if"
    | None => eval_primary live
    end
  end.
Definition run_unary (live : bool) : M PpVal := fun c => eval_unary (loop_fuel c) live c.

Definition eval_mul (live : bool) : M PpVal :=
  left_level [(PUNCT_STAR, OpMul); (PUNCT_SLASH, OpDiv); (PUNCT_PERCENT, OpMod)]
    (run_unary live) (fun _ => run_unary live) (combine_mul live).
Definition eval_add (live : bool) : M PpVal :=
  left_level [(PUNCT_PLUS, false); (PUNCT_MINUS, true)]
    (eval_mul live) (fun _ => eval_mul live) (pure_combine combine_add).
Definition eval_shift (live : bool) : M PpVal :=
  left_level [(PUNCT_SHL, false); (PUNCT_SHR, true)]
    (eval_add live) (fun _ => eval_add live) (pure_combine combine_shift).
Definition eval_rel (live : bool) : M PpVal :=
  left_level [(PUNCT_LT, OpLt); (PUNCT_GT, OpGt); (PUNCT_LE, OpLe); (PUNCT_GE, OpGe)]
    (eval_shift live) (fun _ => eval_shift live) (pure_combine combine_rel).
Definition eval_eq (live : bool) : M PpVal :=
  left_level [(PUNCT_EQEQ, false); (PUNCT_NOTEQ, true)]
    (eval_rel live) (fun _ => eval_rel live) (pure_combine combine_eq).
Definition eval_bitand (live : bool) : M PpVal :=
  left_level [(PUNCT_AMP, OpAnd)] (eval_eq live) (fun _ => eval_eq live) (pure_combine combine_bit).
Definition eval_bitxor (live : bool) : M PpVal :=
  left_level [(PUNCT_CARET, OpXor)] (eval_bitand live) (fun _ => eval_bitand live) (pure_combine combine_bit).
Definition eval_bitor (live : bool) : M PpVal :=
  left_level [(PUNCT_PIPE, OpOr)] (eval_bitxor live) (fun _ => eval_bitxor live) (pure_combine combine_bit).
Definition eval_and (live : bool) : M PpVal :=
  left_level [(PUNCT_AMPAMP, tt)] (eval_bitor live) (fun l => eval_bitor (live && negb (v l =? 0)))
    (pure_combine combine_and).
Definition eval_or (live : bool) : M PpVal :=
  left_level [(PUNCT_PIPEPIPE, tt)] (eval_and live) (fun l => eval_and (live && (v l =? 0)))
    (pure_combine combine_or).

Definition eval_cond_body (live : bool) : M PpVal :=
  let* cond := eval_or live in
  let* question := accept PUNCT_QUESTION in
  if question : bool then
    let* a := eval_cond (live && negb (v cond =? 0)) in
    let* colon := accept PUNCT_COLON in
    if colon : bool then
      let* b := eval_cond (live && (v cond =? 0)) in
      ret (make_val (if negb (v cond =? 0) then v a else v b) (is_unsigned a || is_unsigned b))
    else error peek_tok "expected ':' in #if expression"
  else ret cond.
End descent.

Fixpoint eval_cond (fuel : nat) (live : bool) : M PpVal :=
  match fuel with
  | O => out_of_fuel
  | S fuel => eval_cond_body (eval_cond fuel) live
  end.

(** ** Operators replaced before and after macro expansion *)
Definition is_punct (t : PpToken) (p : PpPunct) : bool :=
  bool_decide (kind t = PPTOK_PUNCT) && bool_decide (punct t = p).
Definition is_ident (t : PpToken) : bool := bool_decide (kind t = PPTOK_IDENT).
Definition is_name (t : PpToken) (s : string) : bool := is_ident t && bool_decide (spelling t = chars s).

(** A replacement token: a one-character number. [memset] clears the flags,
    which the probe operators copy back. *)
Definition number_tok (value : bool) (loc : SrcLoc) (space : bool) : PpToken :=
  mkTok PPTOK_PPNUM PUNCT_LBRACKET (chars (if value then "1" else "0")) loc space.

(** The text between [<] and the next [>], with single spaces where the tokens
    were separated; the rest starts at the [>]. *)
Fixpoint angled_name (s : list PpToken) (b : list Z) : list Z * list PpToken :=
  match s with
  | [] => (b, [])
  | t :: s' =>
    if is_punct t PUNCT_GT then (b, s)
    else angled_name s' ((if negb (Z.of_nat (length b) =? 0) && f_space t then b ++ chars " " else b) ++ spelling t)
  end.

(** The operand of [__has_include]: the name, whether it is angled, and the
    rest after the closing delimiter. *)
Definition header_name (s : list PpToken) : option (list Z * bool * list PpToken) :=
  match s with
  | t :: s' =>
    if bool_decide (kind t = PPTOK_STRLIT) && (2 <=? tok_len t) && (spelling t !!! 0%nat =? 34) &&
       (spelling t !!! (length (spelling t) - 1)%nat =? 34)
    then Some (take (length (spelling t) - 2) (drop 1 (spelling t)), false, s')
    else if is_punct t PUNCT_LT then
      match angled_name s' [] with
      | (b, _ :: rest) => if negb (Z.of_nat (length b) =? 0) then Some (b, true, rest) else None
      | (_, []) => None
      end
    else None
  | [] => None
  end.

Definition quoted (s : string) : string := String (ascii_of_nat 34) (s ++ String (ascii_of_nat 34) EmptyString).

Section condition.
  (** The macro table, the header search, the assertion table and macro
      expansion are other components: whether a name is defined, whether
      [__has_include] is the builtin, whether a header exists, the answer of
      an assertion test with the tokens it consumes, and the expansion. *)
  Context (pp_name_is_defined : list Z -> bool) (has_include_builtin : bool).
  Context (pp_header_exists : list Z -> bool -> bool).
  Context (pp_assert_test_tokens : list PpToken -> SrcLoc -> option (bool * nat) * list Diag).
  Context (pp_expand_list : list PpToken -> list PpToken * list Diag).

(** One token of the input; the fuel is the number of tokens. *)
Fixpoint replace_operators (fuel : nat) (after_expansion : bool) (s : list PpToken)
    (out : list PpToken) : option (list PpToken) * list Diag :=
  match fuel, s with
  | S fuel, t :: s' =>
    if is_name t "defined" then
      let replaced name rest :=
        replace_operators fuel after_expansion rest (out ++ [number_tok (pp_name_is_defined name) (tok_loc t) false]) in
      let required :=
        (None, [pp_diag_at (tok_loc t) (tok_len t) "operator 'defined' requires an identifier"]) in
      match s' with
      | a :: r =>
        if is_ident a then replaced (spelling a) r
        else
          match r with
          | b :: d :: r' =>
            if is_punct a PUNCT_LPAREN && is_ident b && is_punct d PUNCT_RPAREN then replaced (spelling b) r'
            else required
          | _ => required
          end
      | [] => required
      end
    else if after_expansion && is_name t "__has_include" then
      if has_include_builtin then
        match s' with
        | a :: r =>
          if negb (is_punct a PUNCT_LPAREN) then
            (None, [pp_diag_at (tok_loc t) (tok_len t)
                      "operator '__has_include' requires a parenthesized header name"])
          else
            let expects := (None, [pp_diag_at (tok_loc t) (tok_len t)
                      ("operator '__has_include' expects " ++ quoted "FILENAME" ++ " or <FILENAME>")]) in
            match header_name r with
            | Some (name, angled, d :: r') =>
              if is_punct d PUNCT_RPAREN then
                replace_operators fuel after_expansion r'
                  (out ++ [number_tok (pp_header_exists name angled) (tok_loc t) (f_space t)])
              else expects
            | _ => expects
            end
        | [] =>
          (None, [pp_diag_at (tok_loc t) (tok_len t)
                    "operator '__has_include' requires a parenthesized header name"])
        end
      else replace_operators fuel after_expansion s' (out ++ [t])
    else if is_punct t PUNCT_HASH then
      match pp_assert_test_tokens s' (tok_loc t) with
      | (None, ds) => (None, ds)
      | (Some (value, consumed), ds) =>
        let '(r, ds') := replace_operators fuel after_expansion (drop consumed s')
                           (out ++ [number_tok value (tok_loc t) (f_space t)]) in
        (r, ds ++ ds')
      end
    else replace_operators fuel after_expansion s' (out ++ [t])
  | _, _ => (Some out, [])
  end.

(** From the cleared [EvalCtx] to the answer: the whole line must be one
    expression. *)
Definition eval_tokens (ts : list PpToken) (loc : SrcLoc) : option (bool * list Diag) :=
  let c := mkCtx ts 0 loc false [] in
  match eval_cond (S (length ts)) true c with
  | None => None
  | Some (x, c) =>
    let c :=
      if negb (failed c) && negb (pos c =? length (toks c))%nat then
        match peek_tok c with
        | Some t =>
          eval_error c (Some t)
            (if is_punct t PUNCT_COMMA then "',' is not allowed in #if expressions"
             else "trailing tokens after #if expression")
        | None => c
        end
      else c in
    Some (if failed c then false else negb (v x =? 0), log c)
  end.

Definition pp_eval_condition (ts : list PpToken) (loc : SrcLoc) : option (bool * list Diag) :=
  if Z.of_nat (length ts) =? 0 then Some (false, [pp_diag_at loc 1 "#if with no expression"])
  else
    match replace_operators (length ts) false ts [] with
    | (None, ds) => Some (false, ds)
    | (Some scratch, ds) =>
      let '(ex, ds1) := pp_expand_list scratch in
      match replace_operators (length ex) true ex [] with
      | (None, ds2) => Some (false, ds ++ ds1 ++ ds2)
      | (Some scratch, ds2) =>
        match eval_tokens scratch loc with
        | None => None
        | Some (r, ds3) => Some (r, ds ++ ds1 ++ ds2 ++ ds3)
        end
      end
    end.
End condition.

(** ** Checks *)
Definition ptok (p : PpPunct) : PpToken := mkTok PPTOK_PUNCT p [] 0 false.
Definition ntok (s : string) : PpToken := mkTok PPTOK_PPNUM PUNCT_LBRACKET (chars s) 0 false.
Definition itok (s : string) : PpToken := mkTok PPTOK_IDENT PUNCT_LBRACKET (chars s) 0 false.

Example minus_one_is_large :
  eval_tokens [ptok PUNCT_MINUS; ntok "1"; ptok PUNCT_GT; ntok "0u"] 0 = Some (true, []).
Proof. vm_compute. reflexivity. Qed.
Example dead_division :
  eval_tokens [ntok "1"; ptok PUNCT_QUESTION; ntok "2"; ptok PUNCT_COLON; ntok "1"; ptok PUNCT_SLASH; ntok "0"] 0
  = Some (true, []).
Proof. vm_compute. reflexivity. Qed.
Example live_division :
  eval_tokens [ntok "1"; ptok PUNCT_SLASH; ntok "0"] 0 =
  Some (false, [pp_diag_at 0 1 "division by zero in #if expression"]).
Proof. vm_compute. reflexivity. Qed.

(** Properties of the [#if] evaluator: every evaluation ends, the grammar it
    accepts, and the arithmetic it computes. *)

(** ** What every evaluation step keeps *)
Definition errors (l : list Diag) : nat := length (List.filter is_error l).

Definition in_bounds (c : EvalCtx) : Prop := (pos c <= length (toks c))%nat.
Definition left_over (c : EvalCtx) : nat := length (toks c) - pos c.

(** The tokens never change, the cursor only advances and stays in bounds, a
    failure is final, and it is reported by exactly one error. *)
Record steps (c c' : EvalCtx) : Prop := mkSteps {
  st_toks : toks c' = toks c;
  st_pos : (pos c <= pos c')%nat /\ in_bounds c';
  st_failed : failed c = true -> failed c' = true /\ log c' = log c;
  st_log : exists l, log c' = log c ++ l /\
    errors l = (if negb (failed c) && failed c' then 1 else 0)%nat;
}.

Lemma errors_app l1 l2 : errors (l1 ++ l2) = (errors l1 + errors l2)%nat.
Proof. unfold errors. by rewrite List.filter_app, length_app. Qed.

Lemma steps_refl c : in_bounds c -> steps c c.
Proof.
  intros H. split; [done|split; [lia|done]|done|]. exists []. rewrite app_nil_r. by destruct (failed c).
Qed.

Lemma steps_trans c1 c2 c3 : steps c1 c2 -> steps c2 c3 -> steps c1 c3.
Proof.
  intros [T1 [P1 B1] F1 (l1 & L1 & E1)] [T2 [P2 B2] F2 (l2 & L2 & E2)]. split.
  - by rewrite T2.
  - split; [lia|done].
  - intros H. destruct (F1 H) as [H' H1]. destruct (F2 H') as [H'' H2]. by rewrite H2.
  - exists (l1 ++ l2). rewrite L2, L1, app_assoc. split; [done|]. rewrite errors_app, E1, E2.
    destruct (failed c1), (failed c2), (failed c3); cbn; try done;
      first [by destruct (F1 eq_refl)|by destruct (F2 eq_refl)].
Qed.

Lemma steps_advance c : (pos c < length (toks c))%nat -> steps c (advance c).
Proof.
  intros H. split; [done| |done|].
  - unfold in_bounds, advance. simpl. lia.
  - exists []. rewrite app_nil_r. split; [done|]. simpl. by destruct (failed c).
Qed.

Lemma steps_error c a msg : in_bounds c -> steps c (eval_error c a msg).
Proof.
  intros H. unfold eval_error. destruct (failed c) eqn:F; [by apply steps_refl|].
  split; [done|split; [simpl; lia|exact H]|by rewrite F|]. cbn [log failed].
  eexists. split; [reflexivity|]. rewrite F. by destruct a.
Qed.

Lemma steps_emit c i l n m : in_bounds c -> failed c = false -> steps c (emit c (pp_warn_at i l n m)).
Proof.
  intros H F. split; [done|split; [simpl; lia|exact H]|by rewrite F|]. cbn [log failed emit].
  eexists. split; [reflexivity|]. by rewrite F.
Qed.

(** A computation is total below [k] tokens. *)
Definition total_on {A} (m : M A) (c : EvalCtx) : Prop := exists x c', m c = Some (x, c') /\ steps c c'.
Definition total (k : nat) (m : M PpVal) : Prop :=
  forall c, in_bounds c -> (left_over c < k)%nat -> total_on m c.

Lemma steps_left c c' k : steps c c' -> (left_over c < k)%nat -> (left_over c' < k)%nat.
Proof. intros [T [P B] _ _] H. unfold left_over in *. rewrite T. lia. Qed.
Lemma steps_bounds c c' : steps c c' -> in_bounds c'.
Proof. intros [_ [_ B] _ _]. exact B. Qed.

Lemma total_bind {A B} (m : M A) (k : A -> M B) c :
  total_on m c -> (forall x c', m c = Some (x, c') -> steps c c' -> total_on (k x) c') ->
  total_on (bind m k) c.
Proof.
  intros (x & c' & E & S) H. destruct (H x c' E S) as (y & c'' & E' & S').
  exists y, c''. unfold bind. rewrite E. split; [done|by apply steps_trans with c'].
Qed.

Lemma accept_cases c p :
  (accept_punct c p = (false, c)) \/
  (accept_punct c p = (true, advance c) /\ exists t, toks c !! pos c = Some t /\ is_punct t p = true).
Proof.
  unfold accept_punct, peek_tok, is_punct. destruct (toks c !! pos c) as [t|] eqn:E; [|by left].
  destruct (_ && _) eqn:K; [right|by left]. split; [done|]. by exists t.
Qed.

Lemma peek_bound c t : toks c !! pos c = Some t -> (pos c < length (toks c))%nat.
Proof. apply lookup_lt_Some. Qed.

Lemma total_accept c p : in_bounds c -> total_on (accept p) c.
Proof.
  intros H. unfold accept, total_on. destruct (accept_cases c p) as [->|[-> (t & E & _)]].
  - eexists _, _. split; [reflexivity|by apply steps_refl].
  - eexists _, _. split; [reflexivity|by apply steps_advance, peek_bound with t].
Qed.

(** [accept_any] consumes one token and returns its operator, or nothing. *)
Lemma accept_any_cases {O} (ops : list (PpPunct * O)) c :
  (accept_any ops c = Some (None, c) /\
   forall t p o, toks c !! pos c = Some t -> In (p, o) ops -> is_punct t p = false) \/
  (exists t p o, accept_any ops c = Some (Some o, advance c) /\ toks c !! pos c = Some t /\
     In (p, o) ops /\ is_punct t p = true).
Proof.
  induction ops as [|[p o] ops IH]; [left; split; [done|intros ? ? ? ? []]|].
  cbn [accept_any]. unfold bind, accept. destruct (accept_cases c p) as [E|[E (t & Et & Ep)]]; rewrite E.
  - destruct IH as [[-> H]|(t & p' & o' & -> & Et & Hin & Ep)].
    + left. split; [done|]. intros t p' o' Et [[= <- <-]|Hin]; [|by apply (H t p' o')].
      unfold accept_punct, peek_tok in E. rewrite Et in E. unfold is_punct.
      by destruct (_ && _).
    + right. exists t, p', o'. simpl. auto.
  - right. exists t, p, o. simpl. auto.
Qed.

Lemma left_loop_total {O} (ops : list (PpPunct * O)) next combine k fuel l c :
  (forall l, total k (next l)) -> (forall o l r c, in_bounds c -> total_on (combine o l r) c) ->
  in_bounds c -> (left_over c < fuel)%nat -> (left_over c < k)%nat ->
  total_on (left_loop fuel ops next combine l) c.
Proof.
  intros Hn Hc. revert l c. induction fuel as [|fuel IH]; intros l c B Hf Hk; [lia|].
  cbn [left_loop]. destruct (accept_any_cases ops c) as [[E _]|(t & p & o & E & Et & _)].
  - exists l, c. unfold bind. rewrite E. split; [done|by apply steps_refl].
  - pose proof (peek_bound c t Et) as Pb. pose proof (steps_advance c Pb) as Sa.
    apply total_bind; [eexists _, _; split; [exact E|exact Sa]|].
    intros x c1 E1 S1. rewrite E in E1. injection E1 as <- <-.
    assert (La : (left_over (advance c) < left_over c)%nat) by (unfold left_over, advance; simpl; lia).
    apply total_bind; [apply Hn; [by apply (steps_bounds c)|lia]|].
    intros r c2 _ S2. apply total_bind; [apply Hc; by apply (steps_bounds (advance c))|].
    intros s c3 _ S3. pose proof (steps_trans _ _ _ S2 S3) as S23.
    destruct s as [l'|l'].
    + apply IH; [by apply (steps_bounds (advance c))| |]; apply (steps_left _ _ _ S23); lia.
    + exists l', c3. split; [done|]. apply steps_refl. by apply (steps_bounds (advance c)).
Qed.

Lemma left_level_total {O} (ops : list (PpPunct * O)) first next combine k :
  total k first -> (forall l, total k (next l)) ->
  (forall o l r c, in_bounds c -> total_on (combine o l r) c) ->
  total k (left_level ops first next combine).
Proof.
  intros Hf Hn Hc c B Hk. unfold left_level. apply total_bind; [by apply Hf|].
  intros l c' _ S. apply (left_loop_total ops next combine k); try done.
  - by apply (steps_bounds c).
  - unfold loop_fuel, left_over. lia.
  - by apply (steps_left c).
Qed.

(** ** The leaves *)
Lemma steps_parse_number c t : in_bounds c -> steps c (parse_number c t).2.
Proof.
  intros H. unfold parse_number. destruct (if radix_prefix _ _ _ then _ else _) as [base rest].
  destruct (number_digits base rest 0 false) as [[x ov] r1]. destruct (number_suffix r1 false false) as [u r2].
  destruct r2; cbn [snd]; [|by apply steps_error]. destruct ov; [by apply steps_error|by apply steps_refl].
Qed.

Lemma steps_parse_charconst c t : in_bounds c -> failed c = false -> steps c (parse_charconst c t).2.
Proof.
  intros H F. unfold parse_charconst. destruct (match spelling t with [] => _ | _ => _ end) as [pre s].
  destruct s as [|q s]; [by apply steps_error|]. destruct (negb (q =? 39)); [by apply steps_error|].
  destruct (char_loop _ _ _ _ _) as [x n [|c0 rest]| |]; cbn [snd]; try by apply steps_error.
  destruct (n =? 0); [by apply steps_error|]. destruct (1 <? n).
  - destruct pre; [by apply steps_emit|]. destruct (8 <? n); [by apply steps_error|by apply steps_refl].
  - destruct pre; by apply steps_refl.
Qed.

Lemma steps_leaf c t : in_bounds c -> failed c = false -> total_on (eval_leaf t) c.
Proof.
  intros H F. unfold eval_leaf, total_on.
  destruct (kind t);
    try (eexists _, _; split; [reflexivity|first [by apply steps_error|by apply steps_refl]]).
  - pose proof (steps_parse_number c t H). destruct (parse_number c t) as [x c']. by exists x, c'.
  - pose proof (steps_parse_charconst c t H F). destruct (parse_charconst c t) as [x c']. by exists x, c'.
Qed.

(** ** Every level is total when [eval_cond] is, on fewer tokens *)
Lemma total_ret {A} (a : A) c : in_bounds c -> total_on (ret a) c.
Proof. intros H. exists a, c. split; [done|by apply steps_refl]. Qed.

Lemma total_eq {A} (m m' : M A) c : m c = m' c -> total_on m' c -> total_on m c.
Proof. intros E. unfold total_on. by rewrite E. Qed.

Lemma combine_mul_total live o l r c : in_bounds c -> total_on (combine_mul live o l r) c.
Proof.
  intros H. unfold combine_mul, total_on.
  destruct (failed c); [eexists _, _; split; [reflexivity|by apply steps_refl]|].
  destruct o; repeat case_match; eexists _, _; (split; [reflexivity|]); by (apply steps_refl || apply steps_error).
Qed.
Lemma pure_combine_total {O} (f : O -> PpVal -> PpVal -> PpVal) o l r c :
  in_bounds c -> total_on (pure_combine f o l r) c.
Proof. apply total_ret. Qed.

Section levels.
  Context (rec : bool -> M PpVal) (k : nat) (Hrec : forall live, total k (rec live)).

Lemma eval_primary_total live : total (S k) (eval_primary rec live).
Proof using Hrec.
  intros c B Hk. destruct (failed c) eqn:F.
  { apply (total_eq _ (ret (make_val 0 false))); [unfold eval_primary; by rewrite F|by apply total_ret]. }
  destruct (peek_tok c) as [t|] eqn:Et.
  2: { eexists _, _. unfold eval_primary. rewrite F, Et. split; [reflexivity|by apply steps_error]. }
  eapply total_eq; [unfold eval_primary; by rewrite F, Et|].
  pose proof (peek_bound c t Et) as Pb. pose proof (steps_advance c Pb) as Sa.
  pose proof (steps_bounds _ _ Sa) as Ba.
  apply total_bind; [by apply total_accept|]. intros x c1 E1 S1. unfold accept in E1.
  destruct (accept_cases c PUNCT_LPAREN) as [E|[E _]]; rewrite E in E1; injection E1 as <- <-.
  - destruct (steps_leaf (advance c) t Ba F) as (y & c2 & E2 & S2). exists y, c2.
    split; [exact E2|by apply steps_trans with (advance c)].
  - assert (La : (left_over (advance c) < k)%nat) by (unfold left_over, advance in *; simpl; lia).
    apply total_bind; [by apply Hrec|]. intros y c2 _ S2. pose proof (steps_bounds _ _ S2) as B2.
    apply total_bind; [by apply total_accept|]. intros z c3 _ S3. pose proof (steps_bounds _ _ S3) as B3.
    destruct z; [by apply total_ret|]. eexists _, _. split; [reflexivity|by apply steps_error].
Qed.

Lemma eval_unary_total live fuel c :
  in_bounds c -> (left_over c < fuel)%nat -> (left_over c < S k)%nat ->
  total_on (eval_unary rec fuel live) c.
Proof using Hrec.
  revert c. induction fuel as [|fuel IH]; intros c B Hf Hk; [lia|]. cbn [eval_unary].
  match goal with |- context [accept_any ?ops] => destruct (accept_any_cases ops c) as [[E _]|(t & p & o & E & Et & _)] end.
  - unfold total_on, bind. rewrite E. by apply eval_primary_total.
  - pose proof (peek_bound c t Et) as Pb. pose proof (steps_advance c Pb) as Sa.
    pose proof (steps_bounds _ _ Sa) as Ba.
    assert (La : (left_over (advance c) < left_over c)%nat) by (unfold left_over, advance; simpl; lia).
    apply total_bind; [eexists _, _; split; [exact E|exact Sa]|].
    intros x c1 E1 S1. rewrite E in E1. injection E1 as <- <-.
    assert (T : total_on (eval_unary rec fuel live) (advance c)) by (apply IH; (done || lia)).
    destruct o; try (eexists _, _; split; [reflexivity|by apply steps_error]); try exact T;
      (apply total_bind; [exact T|intros y c2 _ S2; apply total_ret; by apply (steps_bounds (advance c))]).
Qed.

Lemma run_unary_total live : total (S k) (run_unary rec live).
Proof using Hrec.
  intros c B Hk. unfold run_unary. apply eval_unary_total; [done| |done].
  unfold loop_fuel, left_over. lia.
Qed.

#[local] Hint Resolve run_unary_total combine_mul_total pure_combine_total : core.

Lemma eval_mul_total live : total (S k) (eval_mul rec live).
Proof using Hrec. apply left_level_total; intros; auto. Qed.
#[local] Hint Resolve eval_mul_total : core.
Lemma eval_add_total live : total (S k) (eval_add rec live).
Proof using Hrec. apply left_level_total; intros; auto. Qed.
#[local] Hint Resolve eval_add_total : core.
Lemma eval_shift_total live : total (S k) (eval_shift rec live).
Proof using Hrec. apply left_level_total; intros; auto. Qed.
#[local] Hint Resolve eval_shift_total : core.
Lemma eval_rel_total live : total (S k) (eval_rel rec live).
Proof using Hrec. apply left_level_total; intros; auto. Qed.
#[local] Hint Resolve eval_rel_total : core.
Lemma eval_eq_total live : total (S k) (eval_eq rec live).
Proof using Hrec. apply left_level_total; intros; auto. Qed.
#[local] Hint Resolve eval_eq_total : core.
Lemma eval_bitand_total live : total (S k) (eval_bitand rec live).
Proof using Hrec. apply left_level_total; intros; auto. Qed.
#[local] Hint Resolve eval_bitand_total : core.
Lemma eval_bitxor_total live : total (S k) (eval_bitxor rec live).
Proof using Hrec. apply left_level_total; intros; auto. Qed.
#[local] Hint Resolve eval_bitxor_total : core.
Lemma eval_bitor_total live : total (S k) (eval_bitor rec live).
Proof using Hrec. apply left_level_total; intros; auto. Qed.
#[local] Hint Resolve eval_bitor_total : core.
Lemma eval_and_total live : total (S k) (eval_and rec live).
Proof using Hrec. apply left_level_total; intros; auto. Qed.
#[local] Hint Resolve eval_and_total : core.
Lemma eval_or_total live : total (S k) (eval_or rec live).
Proof using Hrec. apply left_level_total; intros; auto. Qed.

Lemma eval_cond_body_total live : total (S k) (eval_cond_body rec live).
Proof using Hrec.
  intros c B Hk. unfold eval_cond_body. apply total_bind; [by apply eval_or_total|].
  intros x c1 _ S1. pose proof (steps_bounds _ _ S1) as B1. pose proof (steps_left _ _ _ S1 Hk) as L1.
  apply total_bind; [by apply total_accept|]. intros q c2 E2 S2. pose proof (steps_bounds _ _ S2) as B2.
  unfold accept in E2. destruct (accept_cases c1 PUNCT_QUESTION) as [E|[E (t & Et & _)]]; rewrite E in E2;
    injection E2 as <- <-; [by apply total_ret|].
  pose proof (peek_bound c1 t Et) as Pb.
  assert (La : (left_over (advance c1) < k)%nat) by (unfold left_over, advance in *; simpl; lia).
  apply total_bind; [by apply Hrec|]. intros y c3 _ S3. pose proof (steps_bounds _ _ S3) as B3.
  apply total_bind; [by apply total_accept|]. intros z c4 _ S4. pose proof (steps_bounds _ _ S4) as B4.
  destruct z; [|eexists _, _; split; [reflexivity|by apply steps_error]].
  apply total_bind; [apply Hrec; [done|]|].
  - apply (steps_left _ _ _ S4), (steps_left _ _ _ S3), La.
  - intros w c5 _ S5. apply total_ret. by apply (steps_bounds c4).
Qed.
End levels.

Lemma eval_cond_total fuel live : total fuel (eval_cond fuel live).
Proof.
  revert live. induction fuel as [|fuel IH]; intros live c B Hk; [lia|].
  cbn [eval_cond]. by apply (eval_cond_body_total (eval_cond fuel) fuel).
Qed.
