(* ===== verification/PpexprSpec.v ===== *)
(** The specification of [#if] conditions — the grammar of 6.6 with its
    precedences, and the value of an expression in [intmax_t]/[uintmax_t]
    arithmetic on integers — and the proof that the evaluator implements it. *)
From Stdlib Require Import Ascii String.
From S2P Require Import Prelude.
From S2P Require Import Pptok.
From S2P Require Import Numlit.
From S2P Require Import Ppexpr.
#[local] Open Scope Z_scope.

(** ** Expressions *)
Inductive UnOp := UNot | UCompl | UPlus | UMinus.
Inductive BinOp :=
| BMul (o : MulOp) | BAdd (minus : bool) | BShift (right : bool) | BRel (o : RelOp) | BEq (ne : bool)
| BBit (o : BitOp) | BAnd | BOr.
Inductive expr :=
| ELit (t : PpToken)
| EUn (o : UnOp) (a : expr)
| EBin (o : BinOp) (a b : expr)
| ECond (c a b : expr).

Definition un_punct (o : UnOp) : PpPunct :=
  match o with UNot => PUNCT_BANG | UCompl => PUNCT_TILDE | UPlus => PUNCT_PLUS | UMinus => PUNCT_MINUS end.
Definition bin_punct (o : BinOp) : PpPunct :=
  match o with
  | BMul OpMul => PUNCT_STAR | BMul OpDiv => PUNCT_SLASH | BMul OpMod => PUNCT_PERCENT
  | BAdd false => PUNCT_PLUS | BAdd true => PUNCT_MINUS
  | BShift false => PUNCT_SHL | BShift true => PUNCT_SHR
  | BRel OpLt => PUNCT_LT | BRel OpGt => PUNCT_GT | BRel OpLe => PUNCT_LE | BRel OpGe => PUNCT_GE
  | BEq false => PUNCT_EQEQ | BEq true => PUNCT_NOTEQ
  | BBit OpAnd => PUNCT_AMP | BBit OpXor => PUNCT_CARET | BBit OpOr => PUNCT_PIPE
  | BAnd => PUNCT_AMPAMP | BOr => PUNCT_PIPEPIPE
  end.
(** Precedence: 0 primary, 1 unary, 2 to 11 the binary operators from [*] to
    [||], 12 conditional. *)
Definition bin_level (o : BinOp) : nat :=
  match o with
  | BMul _ => 2 | BAdd _ => 3 | BShift _ => 4 | BRel _ => 5 | BEq _ => 6
  | BBit OpAnd => 7 | BBit OpXor => 8 | BBit OpOr => 9 | BAnd => 10 | BOr => 11
  end%nat.

(** ** Leaves *)

(** A token read on its own, from a fresh context. *)
Definition blank : EvalCtx := mkCtx [] 0 0 false [].
Definition leaf_read (t : PpToken) : PpVal * EvalCtx :=
  match eval_leaf t blank with Some r => r | None => (make_val 0 false, blank) end.
Definition leaf_val (t : PpToken) : PpVal := (leaf_read t).1.
(** Not an operator, and read without an error. *)
Definition is_leaf (t : PpToken) : Prop := kind t <> PPTOK_PUNCT /\ failed (leaf_read t).2 = false.

(** ** The grammar *)
Inductive gram : nat -> list PpToken -> expr -> Prop :=
| g_leaf t : is_leaf t -> gram 0 [t] (ELit t)
| g_paren lp ts rp e :
    is_punct lp PUNCT_LPAREN = true -> gram 12 ts e -> is_punct rp PUNCT_RPAREN = true ->
    gram 0 (lp :: ts ++ [rp]) e
| g_primary ts e : gram 0 ts e -> gram 1 ts e
| g_unary o t ts e : is_punct t (un_punct o) = true -> gram 1 ts e -> gram 1 (t :: ts) (EUn o e)
| g_up k ts e : (1 <= k < 11)%nat -> gram k ts e -> gram (S k) ts e
| g_binary o ts1 a t ts2 b :
    gram (bin_level o) ts1 a -> is_punct t (bin_punct o) = true -> gram (pred (bin_level o)) ts2 b ->
    gram (bin_level o) (ts1 ++ t :: ts2) (EBin o a b)
| g_or ts e : gram 11 ts e -> gram 12 ts e
| g_cond ts1 c q ts2 a co ts3 b :
    gram 11 ts1 c -> is_punct q PUNCT_QUESTION = true -> gram 12 ts2 a ->
    is_punct co PUNCT_COLON = true -> gram 12 ts3 b ->
    gram 12 (ts1 ++ q :: ts2 ++ co :: ts3) (ECond c a b).

(** ** The meaning of an expression

    The type is static: [true] is [uintmax_t]. *)
Fixpoint uns (e : expr) : bool :=
  match e with
  | ELit t => is_unsigned (leaf_val t)
  | EUn UNot _ => false
  | EUn _ a => uns a
  | EBin (BMul _ | BAdd _ | BBit _) a b => uns a || uns b
  | EBin (BShift _) a _ => uns a
  | EBin _ _ _ => false
  | ECond _ a b => uns a || uns b
  end.

(** The integer a 64-bit pattern stands for in a type, and wrapping into one. *)
Definition interp (u : bool) (x : Z) : Z := if u then x else i64 x.
Definition wrap (u : bool) (x : Z) : Z := interp u (u64 x).

Definition shift_count (n : Z) : Z := if (0 <=? n) && (n <? 64) then n else 64.
Definition truth (b : bool) : Z := if b then 1 else 0.

(** The arithmetic of one operator on operands already converted to the
    common type [u]; the shifts take the right operand as it is. *)
Definition arith (o : BinOp) (u : bool) (a b : Z) : option Z :=
  match o with
  | BMul OpMul => Some (wrap u (a * b))
  | BMul OpDiv => if b =? 0 then None else Some (wrap u (Z.quot a b))
  | BMul OpMod => if b =? 0 then None else Some (wrap u (Z.rem a b))
  | BAdd false => Some (wrap u (a + b))
  | BAdd true => Some (wrap u (a - b))
  | BShift false => Some (wrap u (Z.shiftl a (shift_count b)))
  | BShift true => Some (Z.shiftr a (shift_count b))
  | BRel OpLt => Some (truth (a <? b)) | BRel OpGt => Some (truth (b <? a))
  | BRel OpLe => Some (truth (a <=? b)) | BRel OpGe => Some (truth (b <=? a))
  | BEq false => Some (truth (a =? b)) | BEq true => Some (truth (negb (a =? b)))
  | BBit OpAnd => Some (wrap u (Z.land a b))
  | BBit OpXor => Some (wrap u (Z.lxor a b))
  | BBit OpOr => Some (wrap u (Z.lor a b))
  | BAnd | BOr => None
  end.

(** [None] is a division by zero that is evaluated. The operands that
    [&&], [||] and [?:] skip are not. *)
Fixpoint sem (e : expr) : option Z :=
  match e with
  | ELit t => Some (interp (uns e) (v (leaf_val t)))
  | EUn o a =>
    x ← sem a;
    Some match o with
         | UNot => truth (x =? 0)
         | UCompl => wrap (uns a) (Z.lnot x)
         | UPlus => x
         | UMinus => wrap (uns a) (- x)
         end
  | EBin BAnd a b =>
    x ← sem a; if x =? 0 then Some 0 else (y ← sem b; Some (truth (negb (y =? 0))))
  | EBin BOr a b =>
    x ← sem a; if x =? 0 then (y ← sem b; Some (truth (negb (y =? 0)))) else Some 1
  | EBin o a b =>
    x ← sem a; y ← sem b;
    match o with
    | BShift _ => arith o (uns a) x y
    | _ => let u := uns a || uns b in arith o u (wrap u x) (wrap u y)
    end
  | ECond c a b =>
    x ← sem c; y ← (if x =? 0 then sem b else sem a); Some (wrap (uns a || uns b) y)
  end.

(** ** The evaluator's values, on patterns *)
Definition pattern_op (live : bool) (o : BinOp) (l r : PpVal) : option PpVal :=
  match o with
  | BMul m =>
    match combine_mul false m l r blank with
    | Some (Continue x, _) => if live && match m with OpMul => false | _ => v r =? 0 end then None else Some x
    | _ => None
    end
  | BAdd minus => Some (combine_add minus l r)
  | BShift sh => Some (combine_shift sh l r)
  | BRel q => Some (combine_rel q l r)
  | BEq ne => Some (combine_eq ne l r)
  | BBit q => Some (combine_bit q l r)
  | BAnd => Some (combine_and tt l r)
  | BOr => Some (combine_or tt l r)
  end.
(** On which path the right operand is. *)
Definition right_live (live : bool) (o : BinOp) (l : PpVal) : bool :=
  match o with
  | BAnd => live && negb (v l =? 0)
  | BOr => live && (v l =? 0)
  | _ => live
  end.
Definition unary_op (o : UnOp) (x : PpVal) : PpVal :=
  match o with
  | UNot => make_val (if v x =? 0 then 1 else 0) false
  | UCompl => make_val (~64 v x) (is_unsigned x)
  | UPlus => x
  | UMinus => make_val (0 -64 v x) (is_unsigned x)
  end.
Fixpoint den (live : bool) (e : expr) : option PpVal :=
  match e with
  | ELit t => Some (leaf_val t)
  | EUn o a => x ← den live a; Some (unary_op o x)
  | EBin o a b => l ← den live a; r ← den (right_live live o l) b; pattern_op live o l r
  | ECond c a b =>
    x ← den live c;
    y ← den (live && negb (v x =? 0)) a;
    z ← den (live && (v x =? 0)) b;
    Some (make_val (if negb (v x =? 0) then v y else v z) (is_unsigned y || is_unsigned z))
  end.

(** ** Patterns and the integers they stand for *)
Lemma i64_cases x : is_u64 x -> i64 x = if x <? 2 ^ 63 then x else x - 2 ^ 64.
Proof. intros H. unfold i64. by rewrite u64_small. Qed.

Lemma interp_range (u : bool) x : is_u64 x -> if u then interp u x = x else - 2 ^ 63 <= interp u x < 2 ^ 63.
Proof.
  intros H. destruct u; [done|]. cbn [interp]. rewrite i64_cases by done. unfold is_u64 in H.
  destruct (Z.ltb_spec x (2 ^ 63)); lia.
Qed.

Lemma u64_interp u x : is_u64 x -> u64 (interp u x) = x.
Proof.
  intros H. destruct u; [by apply u64_small|]. cbn [interp]. rewrite i64_cases by done. unfold u64, is_u64 in *.
  destruct (Z.ltb_spec x (2 ^ 63)); Z.div_mod_to_equations; lia.
Qed.

Lemma wrap_interp u u' x : is_u64 x -> wrap u (interp u' x) = interp u x.
Proof. intros H. unfold wrap. by rewrite u64_interp. Qed.

Lemma interp_inj u x y : is_u64 x -> is_u64 y -> interp u x = interp u y -> x = y.
Proof. intros Hx Hy E. rewrite <- (u64_interp u x Hx), <- (u64_interp u y Hy). by rewrite E. Qed.

Lemma interp_eqb u x y : is_u64 x -> is_u64 y -> (interp u x =? interp u y) = (x =? y).
Proof.
  intros Hx Hy. destruct (Z.eqb_spec x y) as [->|N]; [apply Z.eqb_refl|].
  apply Z.eqb_neq. intros E. by apply N, (interp_inj u).
Qed.

Lemma interp_zero (u : bool) x : is_u64 x -> (interp u x =? 0) = (x =? 0).
Proof. intros H. replace 0 with (interp u 0) at 1 by (by destruct u). apply interp_eqb; unfold is_u64 in *; lia. Qed.

(** Ring and bit operations commute with the reduction. *)
Lemma wrap_ring u x y :
  is_u64 x -> is_u64 y ->
  wrap u (interp u x * interp u y) = interp u (u64 (x * y)) /\
  wrap u (interp u x + interp u y) = interp u (u64 (x + y)) /\
  wrap u (interp u x - interp u y) = interp u (u64 (x - y)).
Proof.
  intros Hx Hy. unfold wrap. pose proof (u64_interp u x Hx) as Ex. pose proof (u64_interp u y Hy) as Ey.
  unfold u64 in *. split; [|split]; f_equal.
  - rewrite Z.mul_mod, Ex, Ey by done. done.
  - rewrite Z.add_mod, Ex, Ey by done. done.
  - rewrite Zminus_mod, Ex, Ey. done.
Qed.


Lemma u64_testbit a k : 0 <= k -> Z.testbit (u64 a) k = (k <? 64) && Z.testbit a k.
Proof.
  intros Hk. unfold u64. destruct (Z.ltb_spec k 64).
  - by rewrite Z.mod_pow2_bits_low.
  - by rewrite Z.mod_pow2_bits_high by lia.
Qed.

Lemma u64_land a b : u64 (Z.land a b) = Z.land (u64 a) (u64 b).
Proof.
  apply Z.bits_inj'. intros k Hk. rewrite Z.land_spec, !u64_testbit, Z.land_spec by done.
  by destruct (k <? 64), (Z.testbit a k), (Z.testbit b k).
Qed.
Lemma u64_lor a b : u64 (Z.lor a b) = Z.lor (u64 a) (u64 b).
Proof.
  apply Z.bits_inj'. intros k Hk. rewrite Z.lor_spec, !u64_testbit, Z.lor_spec by done.
  by destruct (k <? 64), (Z.testbit a k), (Z.testbit b k).
Qed.
Lemma u64_lxor a b : u64 (Z.lxor a b) = Z.lxor (u64 a) (u64 b).
Proof.
  apply Z.bits_inj'. intros k Hk. rewrite Z.lxor_spec, !u64_testbit, Z.lxor_spec by done.
  by destruct (k <? 64), (Z.testbit a k), (Z.testbit b k).
Qed.

Lemma wrap_bits u x y :
  is_u64 x -> is_u64 y ->
  wrap u (Z.land (interp u x) (interp u y)) = interp u (Z.land x y) /\
  wrap u (Z.lxor (interp u x) (interp u y)) = interp u (Z.lxor x y) /\
  wrap u (Z.lor (interp u x) (interp u y)) = interp u (Z.lor x y) /\
  is_u64 (Z.land x y) /\ is_u64 (Z.lxor x y) /\ is_u64 (Z.lor x y).
Proof.
  intros Hx Hy. unfold wrap. rewrite u64_land, u64_lor, u64_lxor, !u64_interp by done.
  do 3 (split; [done|]).
  pose proof (u64_range (Z.land x y)) as R1. pose proof (u64_range (Z.lxor x y)) as R2.
  pose proof (u64_range (Z.lor x y)) as R3. rewrite u64_land in R1. rewrite u64_lxor in R2. rewrite u64_lor in R3.
  rewrite !(u64_small x), !(u64_small y) in * by done. done.
Qed.

Lemma wrap_opp u x : is_u64 x -> wrap u (- interp u x) = interp u (0 -64 x).
Proof.
  intros H. unfold wrap. f_equal. pose proof (u64_interp u x H) as E. unfold u64 in *.
  change (0 - x) with (- x). rewrite <- (Z.sub_0_l (interp u x)), <- (Z.sub_0_l x).
  by rewrite Zminus_mod, E, Zminus_mod, (Z.mod_small x) by exact H.
Qed.

Lemma wrap_lnot u x : is_u64 x -> wrap u (Z.lnot (interp u x)) = interp u (~64 x).
Proof.
  intros H. unfold wrap. f_equal. unfold Z.lnot, u64, Z.pred. pose proof (u64_interp u x H) as E. unfold u64 in E.
  rewrite <- (Z.sub_0_l (interp u x)), <- (Z.sub_0_l x).
  rewrite (Z.add_mod (0 - interp u x)), (Zminus_mod 0 (interp u x)), E by done.
  rewrite (Z.add_mod (0 - x)), (Zminus_mod 0 x), (Z.mod_small x) by (done || exact H). done.
Qed.

(** ** One operator *)
Definition bin_uns (o : BinOp) (ul ur : bool) : bool :=
  match o with
  | BMul _ | BAdd _ | BBit _ => ul || ur
  | BShift _ => ul
  | _ => false
  end.
(** The operands as [sem] hands them to [arith]. *)
Definition bin_arith (o : BinOp) (ul ur : bool) (a b : Z) : option Z :=
  match o with
  | BShift _ => arith o ul a b
  | _ => arith o (ul || ur) (wrap (ul || ur) a) (wrap (ul || ur) b)
  end.
Definition is_lazy (o : BinOp) : bool := match o with BAnd | BOr => true | _ => false end.

Definition denotes (x : PpVal) (u : bool) (z : Z) : Prop :=
  is_u64 (v x) /\ is_unsigned x = u /\ z = interp u (v x).

Lemma interp_bool (b : bool) : interp false (if b then 1 else 0) = truth b.
Proof. by destruct b. Qed.
Lemma denotes_truth (b : bool) : denotes (make_val (if b then 1 else 0) false) false (truth b).
Proof. unfold denotes, is_u64. cbn [v is_unsigned]. rewrite interp_bool. destruct b; (split; [lia|done]). Qed.

Lemma quot_uns a b : is_u64 a -> is_u64 b -> b <> 0 -> is_u64 (a / b) /\ is_u64 (a mod b) /\
  Z.quot a b = a / b /\ Z.rem a b = a mod b.
Proof.
  unfold is_u64. intros Ha Hb Hn. pose proof (Z.mod_pos_bound a b ltac:(lia)).
  rewrite Z.quot_div_nonneg, Z.rem_mod_nonneg by lia.
  pose proof (Z.div_pos a b ltac:(lia) ltac:(lia)). pose proof (Z.div_le_upper_bound a b a ltac:(lia) ltac:(nia)).
  split; [lia|]. split; [lia|done].
Qed.

Lemma combine_div_denotes (m : MulOp) l r :
  m <> OpMul -> is_u64 (v l) -> is_u64 (v r) -> v r <> 0 ->
  exists x, combine_mul false m l r blank = Some (Continue x, blank) /\
    let u := is_unsigned l || is_unsigned r in
    denotes x u (wrap u ((match m with OpDiv => Z.quot | _ => Z.rem end) (interp u (v l)) (interp u (v r)))).
Proof.
  intros Hm Hl Hr Hz. unfold combine_mul. cbn [failed blank].
  destruct (Z.eqb_spec (v r) 0) as [|_]; [done|].
  destruct (is_unsigned l || is_unsigned r).
  - destruct (quot_uns (v l) (v r) Hl Hr Hz) as (D & R & Eq & Er).
    destruct m; [done| |]; (eexists; split; [reflexivity|]); unfold denotes; cbn [v is_unsigned interp];
      rewrite ?Eq, ?Er; (split; [done|]); (split; [done|]); unfold wrap; cbn [interp]; by apply u64_small.
  - cbn [interp]. destruct ((i64 (v r) =? -1) && (i64 (v l) =? i64 (1 <<64 63))) eqn:K.
    + apply andb_true_iff in K as [K1 K2]. apply Z.eqb_eq in K1, K2.
      change (i64 (1 <<64 63)) with (- 2 ^ 63) in K2.
      assert (E : v l = 2 ^ 63).
      { rewrite <- (u64_interp false (v l) Hl). cbn [interp]. by rewrite K2. }
      destruct m; [done| |]; (eexists; split; [reflexivity|]); unfold denotes; cbn [v is_unsigned];
        rewrite K1, K2; (split; [unfold is_u64 in *; lia|]); (split; [done|]); [by rewrite E|done].
    + destruct m; [done| |]; (eexists; split; [reflexivity|]); unfold denotes; cbn [v is_unsigned];
        (split; [apply u64_range|]); (split; [done|]); unfold wrap; cbn [interp]; done.
Qed.

Lemma div_complement x d : 0 < d -> x / d = -1 - (-1 - x) / d.
Proof.
  intros Hd. pose proof (Z.div_mod x d ltac:(lia)). pose proof (Z.mod_pos_bound x d Hd).
  assert (E : (-1 - x) / d = -1 - x / d); [|lia].
  symmetry. apply Z.div_unique with (d - 1 - x mod d); lia.
Qed.

Lemma s_lt_zero x : is_u64 x -> s_lt x 0 = (interp false x <? 0).
Proof. done. Qed.

Lemma combine_shift_denotes sh l r :
  is_u64 (v l) -> is_u64 (v r) ->
  let ul := is_unsigned l in
  exists z, arith (BShift sh) ul (interp ul (v l)) (interp (is_unsigned r) (v r)) = Some z /\
    denotes (combine_shift sh l r) ul z.
Proof.
  intros Hl Hr ul. unfold combine_shift.
  set (cnt := if negb (is_unsigned r) && s_lt (v r) 0 then 64 else v r).
  assert (C : (if 64 <=? cnt then 64 else cnt) = shift_count (interp (is_unsigned r) (v r)) /\ 0 <= cnt).
  { unfold cnt, shift_count, s_lt. change (i64 0) with 0. pose proof (interp_range (is_unsigned r) (v r) Hr) as R.
    unfold is_u64 in Hr. destruct (is_unsigned r); cbn [negb andb interp] in *.
    - destruct (Z.leb_spec 0 (v r)), (Z.leb_spec 64 (v r)), (Z.ltb_spec (v r) 64); cbn [andb]; lia.
    - rewrite i64_cases in * by done.
      destruct (Z.ltb_spec (v r) (2 ^ 63)), (Z.ltb_spec (v r) 0); try lia.
      + destruct (Z.ltb_spec (v r) 0), (Z.leb_spec 0 (v r)), (Z.leb_spec 64 (v r)), (Z.ltb_spec (v r) 64); cbn [andb]; lia.
      + destruct (Z.ltb_spec (v r - 2 ^ 64) 0), (Z.leb_spec 0 (v r - 2 ^ 64)); cbn [andb]; try lia.
        all: destruct (Z.leb_spec 64 64); lia. }
  destruct C as [C Hc]. cbn [arith]. rewrite <- C. clearbody cnt. clear C.
  pose proof (interp_range ul (v l) Hl) as R. change (is_unsigned l) with ul.
  assert (SL : negb ul && s_lt (v l) 0 = (interp ul (v l) <? 0)).
  { destruct ul; cbn [negb andb]; [|done]. symmetry. apply Z.ltb_ge. cbn [interp]. unfold is_u64 in Hl. lia. }
  destruct sh; cbn [arith andb]; rewrite ?SL; (eexists; split; [reflexivity|]).
  - unfold denotes. destruct (Z.leb_spec 64 cnt).
    + destruct (Z.ltb_spec (interp ul (v l)) 0) as [N|N]; cbn [v is_unsigned].
      * destruct ul; [cbn [interp] in *; unfold is_u64 in Hl; lia|].
        split; [unfold is_u64; vm_compute; split; congruence|]. split; [done|].
        rewrite Z.shiftr_div_pow2 by lia. change (interp false (~64 0)) with (-1).
        symmetry. apply Z.div_unique with (interp false (v l) + 2 ^ 64); lia.
      * split; [unfold is_u64; lia|]. split; [done|]. replace (interp ul 0) with 0 by (by destruct ul).
        rewrite Z.shiftr_div_pow2 by lia. apply Z.div_small. unfold is_u64 in Hl. destruct ul; lia.
    + destruct (Z.ltb_spec (interp ul (v l)) 0) as [N|N]; cbn [v is_unsigned].
      * destruct ul; [cbn [interp] in *; unfold is_u64 in Hl; lia|]. cbn [interp] in *.
        rewrite i64_cases in * by done. unfold is_u64 in Hl.
        destruct (Z.ltb_spec (v l) (2 ^ 63)); [lia|].
        assert (Ne : ~64 v l = 2 ^ 64 - 1 - v l).
        { unfold Z.lnot, u64. symmetry. apply Z.mod_unique with (-1); lia. }
        rewrite Ne. set (q := (2 ^ 64 - 1 - v l) >>64 cnt).
        assert (Q : 0 <= q < 2 ^ 63).
        { unfold q. rewrite Z.shiftr_div_pow2 by lia. pose proof (pow2_pos cnt Hc).
          split; [apply Z.div_pos; lia|]. apply Z.div_lt_upper_bound; nia. }
        assert (Nq : ~64 q = 2 ^ 64 - 1 - q).
        { unfold Z.lnot, u64. symmetry. apply Z.mod_unique with (-1); lia. }
        rewrite Nq. split; [unfold is_u64; lia|]. split; [done|].
        rewrite i64_cases by (unfold is_u64; lia). destruct (Z.ltb_spec (2 ^ 64 - 1 - q) (2 ^ 63)); [lia|].
        unfold q. rewrite !Z.shiftr_div_pow2 by lia. pose proof (pow2_pos cnt Hc).
        rewrite (div_complement (2 ^ 64 - 1 - v l) (2 ^ cnt)) by lia.
        replace (-1 - (2 ^ 64 - 1 - v l)) with (v l - 2 ^ 64) by lia. lia.
      * assert (E : interp ul (v l) = v l).
        { destruct ul; [done|]. cbn [interp] in *. rewrite i64_cases in * by done. unfold is_u64 in Hl.
          destruct (Z.ltb_spec (v l) (2 ^ 63)); lia. }
        rewrite E in *. rewrite Z.shiftr_div_pow2 by lia. pose proof (pow2_pos cnt Hc).
        assert (Q : 0 <= v l / 2 ^ cnt <= v l).
        { unfold is_u64 in Hl. split; [apply Z.div_pos; lia|]. apply Z.div_le_upper_bound; nia. }
        split; [unfold is_u64 in *; lia|]. split; [done|].
        destruct ul; [done|]. cbn [interp] in *. rewrite i64_cases by (unfold is_u64 in *; lia).
        destruct (Z.ltb_spec (v l / 2 ^ cnt) (2 ^ 63)); lia.
  - unfold denotes. destruct (Z.leb_spec 64 cnt); cbn [v is_unsigned].
    + split; [unfold is_u64; lia|]. split; [done|]. unfold wrap. f_equal.
      rewrite Z.shiftl_mul_pow2 by lia. unfold u64. by rewrite Z.mod_mul.
    + split; [apply u64_range|]. split; [done|]. unfold wrap. f_equal.
      rewrite !Z.shiftl_mul_pow2 by done. pose proof (u64_interp ul (v l) Hl) as E. unfold u64 in *.
      rewrite (Z.mul_mod (interp ul (v l))), E by done. by rewrite Z.mul_mod_idemp_r.
Qed.

Lemma interp_eqb_zero (u : bool) : (interp u 0 =? 0) = true.
Proof. by destruct u. Qed.

Lemma pattern_op_sem live o l r :
  is_lazy o = false -> is_u64 (v l) -> is_u64 (v r) ->
  let z := bin_arith o (is_unsigned l) (is_unsigned r) (interp (is_unsigned l) (v l))
             (interp (is_unsigned r) (v r)) in
  match pattern_op live o l r with
  | Some x => is_u64 (v x) /\ is_unsigned x = bin_uns o (is_unsigned l) (is_unsigned r) /\
              (live = true -> z = Some (interp (is_unsigned x) (v x)))
  | None => live = true /\ z = None
  end.
Proof.
  intros Ho Hl Hr z. unfold z. clear z. set (u := is_unsigned l || is_unsigned r).
  destruct (wrap_ring u (v l) (v r) Hl Hr) as (Wm & Wa & Ws).
  destruct (wrap_bits u (v l) (v r) Hl Hr) as (Wl & Wx & Wo & Rl & Rx & Ro).
  assert (Shift : forall sh, o = BShift sh -> let x := combine_shift sh l r in
    is_u64 (v x) /\ is_unsigned x = is_unsigned l /\
    (live = true -> bin_arith o (is_unsigned l) (is_unsigned r) (interp (is_unsigned l) (v l))
             (interp (is_unsigned r) (v r)) = Some (interp (is_unsigned x) (v x)))).
  { intros sh -> x. destruct (combine_shift_denotes sh l r Hl Hr) as (z & E & R & Ux & ->).
    fold x in R, Ux, E. split; [done|]. split; [done|]. intros _. cbn [bin_arith]. by rewrite E, Ux. }
  destruct o as [m|minus|sh|q|ne|q| |]; try done; try (by apply Shift);
    unfold bin_arith, pattern_op, bin_uns; fold u; rewrite ?wrap_interp by done.
  - destruct m.
    + cbn [combine_mul blank failed]. rewrite andb_false_r. cbn [v is_unsigned arith]. fold u.
      split; [apply u64_range|]. split; [done|]. by rewrite Wm.
    + destruct (Z.eqb_spec (v r) 0) as [E|N].
      * unfold combine_mul. cbn [blank failed]. rewrite E. cbn [Z.eqb]. rewrite andb_true_r.
        destruct live; cbn [arith]; [by rewrite interp_eqb_zero|].
        split; [unfold is_u64; simpl; lia|done].
      * rewrite andb_false_r. destruct (combine_div_denotes OpDiv l r) as (x & -> & R & Ux & Z0); [done..|].
        fold u in Ux, Z0. split; [done|]. split; [done|]. intros _. cbn [arith].
        rewrite interp_zero by done. destruct (Z.eqb_spec (v r) 0); [done|]. by rewrite Z0, Ux.
    + destruct (Z.eqb_spec (v r) 0) as [E|N].
      * unfold combine_mul. cbn [blank failed]. rewrite E. cbn [Z.eqb]. rewrite andb_true_r.
        destruct live; cbn [arith]; [by rewrite interp_eqb_zero|].
        split; [unfold is_u64; simpl; lia|done].
      * rewrite andb_false_r. destruct (combine_div_denotes OpMod l r) as (x & -> & R & Ux & Z0); [done..|].
        fold u in Ux, Z0. split; [done|]. split; [done|]. intros _. cbn [arith].
        rewrite interp_zero by done. destruct (Z.eqb_spec (v r) 0); [done|]. by rewrite Z0, Ux.
  - destruct minus; cbn [combine_add v is_unsigned arith]; fold u;
      (split; [apply u64_range|]); (split; [done|]); [by rewrite Ws|by rewrite Wa].
  - assert (C : combine_rel q l r = make_val (if (match q with
        | OpLt => interp u (v l) <? interp u (v r) | OpGt => interp u (v r) <? interp u (v l)
        | OpLe => interp u (v l) <=? interp u (v r) | OpGe => interp u (v r) <=? interp u (v l) end)
        then 1 else 0) false).
    { unfold combine_rel. fold u. f_equal. unfold s_lt. rewrite !Z.leb_antisym. by destruct u, q. }
    rewrite C. destruct q; cbn [arith is_unsigned];
      match goal with |- context [if ?b then 1 else 0] => destruct (denotes_truth b) as (R & _ & Z0) end;
      rewrite <- Z0; done.
  - assert (C : combine_eq ne l r = make_val (if (if ne then negb (v l =? v r) else (v l =? v r)) then 1 else 0) false).
    { unfold combine_eq. f_equal. by destruct ne, (v l =? v r). }
    rewrite C. destruct ne; cbn [arith is_unsigned]; rewrite interp_eqb by done;
      match goal with |- context [if ?b then 1 else 0] => destruct (denotes_truth b) as (R & _ & Z0) end;
      rewrite <- Z0; done.
  - destruct q; cbn [combine_bit v is_unsigned arith]; fold u; (split; [done|]); (split; [done|]);
      [by rewrite Wl|by rewrite Wx|by rewrite Wo].
Qed.

(** ** Leaves: reading a token depends on the context only through errors *)
Lemma number_digits_u64 base s x ov : is_u64 x -> is_u64 (number_digits base s x ov).1.1.
Proof.
  revert x ov. induction s as [|c s IH]; intros x ov H; [done|]. cbn [number_digits].
  destruct (digit_of base c); [|done]. destruct (_ <=? _); [done|]. apply IH, u64_range.
Qed.

Lemma hex_run_u64 s ch : is_u64 ch -> is_u64 (hex_run s ch).1.
Proof.
  revert ch. induction s as [|c s IH]; intros ch H; [done|]. cbn [hex_run].
  destruct (_ || _); [apply IH, u64_range|done].
Qed.
Lemma octal_run_u64 k s ch : is_u64 ch -> is_u64 (octal_run k s ch).1.
Proof.
  revert s ch. induction k as [|k IH]; intros s ch H; [done|]. destruct s as [|c s]; [done|].
  cbn [octal_run]. destruct (between c "0" "7"); [apply IH, u64_range|done].
Qed.
Lemma escape_u64 s ch r : escape s = Escaped ch r -> is_u64 ch.
Proof.
  assert (Z0 : is_u64 0) by (unfold is_u64; lia).
  unfold escape. destruct s as [|c s]; [done|].
  pose proof (octal_run_u64 3 (c :: s) 0 Z0) as O. pose proof (hex_run_u64 s 0 Z0) as X.
  destruct (octal_run 3 (c :: s) 0), (hex_run s 0). cbn [fst] in *.
  repeat case_match; intros [= <- <-]; try done; unfold is_u64; lia.
Qed.

Lemma char_loop_u64 fuel p s x n x' n' r :
  is_u64 x -> char_loop fuel p s x n = CharEnd x' n' r -> is_u64 x'.
Proof.
  revert s x n. induction fuel as [|fuel IH]; intros s x n H E; [by injection E as <-|].
  destruct s as [|c s]; [by injection E as <-|]. cbn [char_loop] in E.
  destruct (c =? 39); [by injection E as <-|].
  assert (A : forall ch, is_u64 ch -> is_u64 (if p then ch else (x <<64 8) |64 (ch &64 0xFF))).
  { intros ch Hc. destruct p; [done|]. pose proof (u64_range (Z.shiftl x 8)) as R.
    assert (L : is_u64 (Z.land ch 255)).
    { change 255 with (2 ^ 8 - 1). rewrite land_ones_mod by lia. unfold is_u64.
      pose proof (Z.mod_pos_bound ch (2 ^ 8) ltac:(lia)). lia. }
    unfold is_u64 in *. apply lor_bound; lia. }
  destruct (c =? 92).
  - destruct (escape s) as [ch r'| |] eqn:Ee; try done. apply escape_u64 in Ee.
    apply IH in E; [done|by apply A].
  - apply IH in E; [done|]. apply A. unfold u8, is_u64. pose proof (Z.mod_pos_bound c (2 ^ 8) ltac:(lia)). lia.
Qed.

Lemma leaf_val_u64 t : is_u64 (v (leaf_val t)).
Proof.
  assert (Z0 : is_u64 0) by (unfold is_u64; lia).
  unfold leaf_val, leaf_read, eval_leaf. destruct (kind t); try done.
  - unfold parse_number. destruct (if radix_prefix _ _ _ then _ else _) as [base rest].
    pose proof (number_digits_u64 base rest 0 false Z0) as R.
    destruct (number_digits base rest 0 false) as [[x ov] r1]. destruct (number_suffix r1 false false) as [u r2].
    by destruct r2.
  - unfold parse_charconst. destruct (match spelling t with [] => _ | _ => _ end) as [pre s].
    destruct s as [|q s]; [done|]. destruct (negb (q =? 39)); [done|].
    destruct (char_loop _ _ _ _ _) as [x n [|c0 rest]| |] eqn:E; try done.
    apply char_loop_u64 in E; [|done].
    repeat case_match; cbn [fst v]; try done. apply u64_range.
Qed.

(** The result of reading a leaf anywhere is that of reading it alone. *)
Lemma eval_leaf_anywhere t c :
  failed c = false ->
  exists c', eval_leaf t c = Some (leaf_val t, c') /\ failed c' = failed (leaf_read t).2 /\
    pos c' = pos c /\ toks c' = toks c.
Proof.
  intros F. unfold leaf_val, leaf_read, eval_leaf.
  assert (Err : forall a m, failed (eval_error c a m) = true /\ pos (eval_error c a m) = pos c /\
      toks (eval_error c a m) = toks c) by (intros a m; unfold eval_error; by rewrite F).
  destruct (kind t); try (eexists; split; [reflexivity|]; cbn [snd]; done || apply Err).
  - unfold parse_number. destruct (if radix_prefix _ _ _ then _ else _) as [base rest].
    destruct (number_digits base rest 0 false) as [[x ov] r1]. destruct (number_suffix r1 false false) as [u r2].
    destruct r2; [destruct ov|]; (eexists; split; [reflexivity|]); cbn [snd]; first [apply Err|done].
  - unfold parse_charconst. destruct (match spelling t with [] => _ | _ => _ end) as [pre s].
    destruct s as [|q s]; [eexists; split; [reflexivity|]; apply Err|].
    destruct (negb (q =? 39)); [eexists; split; [reflexivity|]; apply Err|].
    destruct (char_loop _ _ _ _ _) as [x n [|c0 rest]| |];
      repeat match goal with |- context [if ?b then _ else _] => destruct b end;
      (eexists; split; [reflexivity|]); cbn [snd]; first [apply Err|done].
Qed.

(** ** The evaluator's value is the specified one *)
Lemma den_sem e live :
  match den live e with
  | Some x => is_u64 (v x) /\ is_unsigned x = uns e /\ (live = true -> sem e = Some (interp (uns e) (v x)))
  | None => live = true /\ sem e = None
  end.
Proof.
  revert live. induction e as [t|o a IHa|o a IHa b IHb|c IHc a IHa b IHb]; intros live.
  - cbn [den]. split; [apply leaf_val_u64|done].
  - cbn [den sem]. specialize (IHa live). destruct (den live a) as [x|]; cbn [mbind option_bind].
    2: { destruct IHa as [-> ->]. done. }
    destruct IHa as (R & Ux & S). destruct o; cbn [unary_op v is_unsigned uns].
    + split; [destruct (v x =? 0); unfold is_u64; lia|]. split; [done|]. intros Hl. rewrite (S Hl).
      cbn [mbind option_bind]. rewrite interp_zero by done. by destruct (v x =? 0).
    + split; [apply u64_range|]. split; [done|]. intros Hl. rewrite (S Hl). cbn [mbind option_bind].
      by rewrite wrap_lnot.
    + split; [done|]. split; [done|]. intros Hl. by rewrite (S Hl).
    + split; [apply u64_range|]. split; [done|]. intros Hl. rewrite (S Hl). cbn [mbind option_bind].
      by rewrite wrap_opp.
  - cbn [den]. specialize (IHa live). destruct (den live a) as [l|]; cbn [mbind option_bind].
    2: { destruct IHa as [-> E]. split; [done|]. destruct o; cbn [sem]; by rewrite E. }
    destruct IHa as (Rl & Ul & Sl). specialize (IHb (right_live live o l)).
    destruct (is_lazy o) eqn:Lz.
    + destruct (den (right_live live o l) b) as [r|] eqn:Eb; cbn [mbind option_bind].
      * destruct IHb as (Rr & Ur & Sr). destruct o; try done; cbn [pattern_op combine_and combine_or v is_unsigned uns right_live] in *;
          (split; [destruct (v l =? 0), (v r =? 0); unfold is_u64; simpl; lia|]); (split; [done|]);
          intros ->; cbn [sem]; rewrite (Sl eq_refl); cbn [mbind option_bind]; rewrite interp_zero by done;
          destruct (v l =? 0); cbn [negb andb orb] in *; try done; rewrite (Sr eq_refl); cbn [mbind option_bind];
          rewrite interp_zero by done; by destruct (v r =? 0).
      * destruct IHb as [Hrl E]. destruct o; try done; cbn [right_live] in Hrl;
          apply andb_true_iff in Hrl as [-> Hz]; (split; [done|]); cbn [sem]; rewrite (Sl eq_refl);
          cbn [mbind option_bind]; rewrite interp_zero by done; destruct (v l =? 0); try done; by rewrite E.
    + assert (Rlive : right_live live o l = live) by (by destruct o). rewrite Rlive in *.
      assert (Se : sem (EBin o a b) = x ← sem a; y ← sem b; bin_arith o (uns a) (uns b) x y) by (by destruct o).
      assert (Ue : uns (EBin o a b) = bin_uns o (uns a) (uns b)) by (by destruct o).
      rewrite Se, Ue. destruct (den live b) as [r|]; cbn [mbind option_bind].
      * destruct IHb as (Rr & Ur & Sr). pose proof (pattern_op_sem live o l r Lz Rl Rr) as P.
        rewrite Ul, Ur in P. destruct (pattern_op live o l r) as [x|].
        -- destruct P as (Rx & Ux & P). split; [done|]. split; [done|]. intros Hl.
           rewrite (Sl Hl), (Sr Hl). cbn [mbind option_bind]. by rewrite <- Ux, P.
        -- destruct P as [Hl P]. split; [done|]. rewrite (Sl Hl), (Sr Hl). exact P.
      * destruct IHb as [Hl E]. split; [done|]. rewrite (Sl Hl), E. done.
  - cbn [den]. specialize (IHc live). destruct (den live c) as [x|]; cbn [mbind option_bind].
    2: { destruct IHc as [-> E]. split; [done|]. cbn [sem]. by rewrite E. }
    destruct IHc as (Rx & Ux & Sx). specialize (IHa (live && negb (v x =? 0))).
    specialize (IHb (live && (v x =? 0))).
    destruct (den (live && negb (v x =? 0)) a) as [y|]; cbn [mbind option_bind].
    2: { destruct IHa as [Hl E]. apply andb_true_iff in Hl as [-> Hz]. split; [done|]. cbn [sem].
         rewrite (Sx eq_refl). cbn [mbind option_bind]. rewrite interp_zero by done.
         destruct (v x =? 0); [done|]. by rewrite E. }
    destruct IHa as (Ry & Uy & Sy).
    destruct (den (live && (v x =? 0)) b) as [z|]; cbn [mbind option_bind].
    2: { destruct IHb as [Hl E]. apply andb_true_iff in Hl as [-> Hz]. split; [done|]. cbn [sem].
         rewrite (Sx eq_refl). cbn [mbind option_bind]. rewrite interp_zero by done.
         destruct (v x =? 0); [|done]. by rewrite E. }
    destruct IHb as (Rz & Uz & Sz). cbn [v is_unsigned uns]. rewrite Uy, Uz.
    split; [by destruct (negb (v x =? 0))|]. split; [done|]. intros ->. cbn [sem]. rewrite (Sx eq_refl).
    cbn [mbind option_bind]. rewrite interp_zero by done.
    destruct (v x =? 0); cbn [negb andb] in *.
    + rewrite (Sz eq_refl). cbn [mbind option_bind]. by rewrite wrap_interp.
    + rewrite (Sy eq_refl). cbn [mbind option_bind]. by rewrite wrap_interp.
Qed.
