(* ===== verification/PpexprParse.v ===== *)
(** The evaluator of [#if] conditions against its specification: on the tokens
    of an expression it returns the value of the expression or reports one
    division by zero, and it accepts nothing else. *)
From Stdlib Require Import Ascii String.
From S2P Require Import Prelude.
From S2P Require Import Pptok.
From S2P Require Import Numlit.
From S2P Require Import Ppexpr.
From S2P Require Import PpexprSpec.
#[local] Open Scope Z_scope.

(** ** Operators that would continue an expression of a level *)
Definition punct_level (p : PpPunct) : option nat :=
  match p with
  | PUNCT_STAR | PUNCT_SLASH | PUNCT_PERCENT => Some 2%nat
  | PUNCT_PLUS | PUNCT_MINUS => Some 3%nat
  | PUNCT_SHL | PUNCT_SHR => Some 4%nat
  | PUNCT_LT | PUNCT_GT | PUNCT_LE | PUNCT_GE => Some 5%nat
  | PUNCT_EQEQ | PUNCT_NOTEQ => Some 6%nat
  | PUNCT_AMP => Some 7%nat | PUNCT_CARET => Some 8%nat | PUNCT_PIPE => Some 9%nat
  | PUNCT_AMPAMP => Some 10%nat | PUNCT_PIPEPIPE => Some 11%nat
  | PUNCT_QUESTION => Some 12%nat
  | _ => None
  end.
Definition stops (k : nat) (rest : list PpToken) : Prop :=
  match rest with
  | t :: _ => forall p m, is_punct t p = true -> punct_level p = Some m -> (k < m)%nat
  | [] => True
  end.

Lemma bin_punct_level o : punct_level (bin_punct o) = Some (bin_level o).
Proof. by destruct o as [[]|[]|[]|[]|[]|[]| |]. Qed.

Lemma bin_punct_inj o o' : bin_punct o = bin_punct o' -> o = o'.
Proof. by destruct o as [[]|[]|[]|[]|[]|[]| |], o' as [[]|[]|[]|[]|[]|[]| |]. Qed.

Lemma is_punct_inj t p q : is_punct t p = true -> is_punct t q = true -> p = q.
Proof.
  unfold is_punct. rewrite !andb_true_iff, !bool_decide_eq_true. intros [_ <-] [_ <-]. done.
Qed.

Lemma stops_punct k t rest p m :
  is_punct t p = true -> punct_level p = Some m -> (k < m)%nat -> stops k (t :: rest).
Proof. intros Hp Hm Hk p' m' Hp' Hm'. rewrite (is_punct_inj t p' p Hp' Hp) in Hm'. congruence. Qed.
Lemma stops_other k t rest p :
  is_punct t p = true -> punct_level p = None -> stops k (t :: rest).
Proof. intros Hp Hm p' m' Hp' Hm'. rewrite (is_punct_inj t p' p Hp' Hp) in Hm'. congruence. Qed.
Lemma stops_mono k k' rest : (k <= k')%nat -> stops k' rest -> stops k rest.
Proof. intros H. destruct rest as [|t]; [done|]. intros S p m Hp Hm. specialize (S p m Hp Hm). lia. Qed.

(** ** The cursor over a token list *)
Definition at_tokens (c : EvalCtx) (ts rest : list PpToken) : Prop := drop (pos c) (toks c) = ts ++ rest.

Lemma at_head c t ts rest : at_tokens c (t :: ts) rest -> toks c !! pos c = Some t.
Proof.
  unfold at_tokens. intros E. rewrite <- (Nat.add_0_r (pos c)), <- lookup_drop, E. done.
Qed.
Lemma at_next c c' ts ts' rest :
  toks c' = toks c -> pos c' = (pos c + length ts)%nat -> at_tokens c (ts ++ ts') rest -> at_tokens c' ts' rest.
Proof.
  unfold at_tokens. intros -> -> E. by rewrite <- drop_drop, E, <- app_assoc, drop_app_length.
Qed.
Lemma at_next_rest c c' ts rest :
  toks c' = toks c -> pos c' = (pos c + length ts)%nat -> at_tokens c ts rest -> drop (pos c') (toks c') = rest.
Proof. unfold at_tokens. intros -> -> E. by rewrite <- drop_drop, E, drop_app_length. Qed.
Lemma at_empty c k rest p :
  drop (pos c) (toks c) = rest -> stops k rest -> (exists m, punct_level p = Some m /\ (m <= k)%nat) ->
  forall t, toks c !! pos c = Some t -> is_punct t p = false.
Proof.
  intros E S (m & Hm & Hk) t Et. rewrite <- (Nat.add_0_r (pos c)), <- lookup_drop, E in Et.
  destruct rest as [|t' rest]; [done|]. injection Et as ->.
  destruct (is_punct t p) eqn:P; [|done]. specialize (S p m P Hm). lia.
Qed.

Lemma accept_yes c t p :
  toks c !! pos c = Some t -> is_punct t p = true -> accept_punct c p = (true, advance c).
Proof. intros E P. unfold accept_punct, peek_tok. rewrite E. unfold is_punct in P. by rewrite P. Qed.
Lemma accept_no c p :
  (forall t, toks c !! pos c = Some t -> is_punct t p = false) -> accept_punct c p = (false, c).
Proof.
  intros H. unfold accept_punct, peek_tok. destruct (toks c !! pos c) as [t|] eqn:E; [|done].
  specialize (H t eq_refl). unfold is_punct in H. by rewrite H.
Qed.

(** ** Success and failure of a computation *)
Definition succeeds (m : M PpVal) (c : EvalCtx) (n : nat) (x : PpVal) (c' : EvalCtx) : Prop :=
  m c = Some (x, c') /\ steps c c' /\ pos c' = (pos c + n)%nat /\ failed c' = false.
Definition fails {A} (m : M A) (c : EvalCtx) : Prop := exists x c', m c = Some (x, c') /\ failed c' = true.
Definition yields (m : M PpVal) (c : EvalCtx) (n : nat) (d : option PpVal) : Prop :=
  match d with Some x => exists c', succeeds m c n x c' | None => fails m c end.

Lemma fails_bind {A B} (m : M A) (k : A -> M B) c :
  fails m c -> (forall x c', m c = Some (x, c') -> total_on (k x) c') -> fails (bind m k) c.
Proof.
  intros (x & c' & E & F) H. destruct (H x c' E) as (y & c2 & E2 & S).
  exists y, c2. unfold bind. rewrite E. split; [done|]. by apply (st_failed _ _ S).
Qed.
Lemma fails_after {A B} (m : M A) (k : A -> M B) c x c' :
  m c = Some (x, c') -> fails (k x) c' -> fails (bind m k) c.
Proof. intros E (y & c2 & E2 & F). exists y, c2. unfold bind. by rewrite E. Qed.

(** A function reads every expression of its level. *)
Definition reads (K k : nat) (F : bool -> M PpVal) : Prop :=
  forall ts e live c rest,
    gram k ts e -> in_bounds c -> failed c = false -> (left_over c < K)%nat ->
    at_tokens c ts rest -> stops k rest -> yields (F live) c (length ts) (den live e).

(** ** A left-associative level *)
Lemma gram_level_inv k ts e :
  (2 <= k <= 11)%nat -> gram k ts e ->
  gram (pred k) ts e \/
  exists o ts1 a t ts2 b, bin_level o = k /\ ts = ts1 ++ t :: ts2 /\ e = EBin o a b /\
    gram k ts1 a /\ is_punct t (bin_punct o) = true /\ gram (pred k) ts2 b.
Proof.
  intros Hk H. inversion H; subst; try lia; [by left|].
  right. by exists o, ts1, a, t, ts2, b.
Qed.

Lemma gram_nonempty k ts e : gram k ts e -> ts <> [].
Proof. induction 1; try done; intros E; by apply app_eq_nil in E as [? ?]. Qed.

Section level.
  Context {O : Type} (K k : nat) (ops : list (PpPunct * O)) (tag : O -> BinOp).
  Context (F : bool -> M PpVal) (next : bool -> PpVal -> M PpVal).
  Context (combine : bool -> O -> PpVal -> PpVal -> M LoopStep).
  Context (Hk : (2 <= k <= 11)%nat).
  Context (Hops : forall p o, In (p, o) ops -> p = bin_punct (tag o) /\ bin_level (tag o) = k).
  Context (Hall : forall b, bin_level b = k -> exists o, tag o = b /\ In (bin_punct b, o) ops).
  Context (Hnext : forall live o l, bin_level (tag o) = k -> next live l = F (right_live live (tag o) l)).
  Context (Hcombine : forall live o l r c, failed c = false -> bin_level (tag o) = k ->
    match pattern_op live (tag o) l r with
    | Some x => combine live o l r c = Some (Continue x, c)
    | None => fails (combine live o l r) c
    end).
  Context (HF : forall live, total K (F live)).
  Context (Hc : forall live o l r c, in_bounds c -> total_on (combine live o l r) c).
  #[local] Notation "'level'" := (fun live => left_level ops (F live) (next live) (combine live)).
  #[local] Notation "'loop'" := (fun live n => left_loop n ops (next live) (combine live)).

Lemma next_total live l : ops <> [] -> total K (next live l).
Proof using All.
  intros Hne. destruct ops as [|[p o] ops'] eqn:E; [done|].
  destruct (Hops p o) as [_ Hl]; [left; done|]. rewrite (Hnext live o l Hl). apply HF.
Qed.
Lemma ops_nonempty : ops <> [].
Proof using All.
  intros E. assert (B : exists b, bin_level b = k).
  { destruct k as [|[|[|[|[|[|[|[|[|[|[|[|]]]]]]]]]]]]; try lia.
    - by exists (BMul OpMul). - by exists (BAdd true). - by exists (BShift true). - by exists (BRel OpLt).
    - by exists (BEq true). - by exists (BBit OpAnd). - by exists (BBit OpXor). - by exists (BBit OpOr).
    - by exists BAnd. - by exists BOr. }
  destruct B as [b Hb]. destruct (Hall b Hb) as (o & _ & Hin). by rewrite E in Hin.
Qed.

Lemma loop_mono live n m l c res : loop live n l c = Some res -> (n <= m)%nat -> loop live m l c = Some res.
Proof using All.
  revert m l c res. induction n as [|n IH]; intros m l c res E H; [done|].
  destruct m as [|m]; [lia|]. cbn [left_loop] in *. unfold bind in *.
  destruct (accept_any ops c) as [[[o|] c1]|]; try done.
  destruct (next live l c1) as [[r c2]|]; [|done].
  destruct (combine live o l r c2) as [[[l'|l'] c3]|]; try done. apply IH; (done || lia).
Qed.

Lemma loop_total live n l c :
  in_bounds c -> (left_over c < n)%nat -> (left_over c < K)%nat -> total_on (loop live n l) c.
Proof using All.
  intros B Hn HK. apply (left_loop_total ops (next live) (combine live) K); try done.
  - intros l'. apply next_total, ops_nonempty.
  - intros o l' r c' B'. by apply Hc.
Qed.

(** The loop's fuel is enough, so any other that gives a result agrees. *)
Lemma loop_any live n l c res :
  in_bounds c -> (left_over c < K)%nat -> loop live n l c = Some res -> loop live (loop_fuel c) l c = Some res.
Proof using All.
  intros B HK E. destruct (loop_total live (loop_fuel c) l c B) as (x & c' & E' & _);
    [unfold loop_fuel, left_over; lia|done|].
  rewrite E'. pose proof (loop_mono live n (n + loop_fuel c) l c res E ltac:(lia)) as M1.
  pose proof (loop_mono live (loop_fuel c) (n + loop_fuel c) l c _ E' ltac:(lia)) as M2. congruence.
Qed.

(** The operator at the cursor is the one read. *)
Lemma operator_read (live : bool) o t c :
  bin_level o = k -> toks c !! pos c = Some t -> is_punct t (bin_punct o) = true ->
  exists o', tag o' = o /\ accept_any ops c = Some (Some o', advance c).
Proof using All.
  intros Ho Ht Hp. destruct (Hall o Ho) as (o1 & _ & Hin).
  destruct (accept_any_cases ops c) as [[_ N]|(t' & p & o' & E & Et & Hin' & Hp')].
  - rewrite (N t (bin_punct o) o1 Ht Hin) in Hp. done.
  - rewrite Ht in Et. injection Et as <-. destruct (Hops p o' Hin') as [-> _].
    exists o'. split; [|done]. apply bin_punct_inj. by apply (is_punct_inj t).
Qed.

(** Reading the tokens of an expression of the level leaves the loop with its
    value. *)
Lemma level_prefix ts e live c rest :
  reads K (pred k) F -> gram k ts e -> in_bounds c -> failed c = false -> (left_over c < K)%nat ->
  at_tokens c ts rest -> stops (pred k) rest ->
  match den live e with
  | Some x => exists c', steps c c' /\ pos c' = (pos c + length ts)%nat /\ failed c' = false /\
      forall n res, loop live n x c' = Some res -> level live c = Some res
  | None => fails (level live) c
  end.
Proof using All.
  intros HR. remember (length ts) as n eqn:En.
  assert (Hn : (length ts <= n)%nat) by lia. rewrite En. clear En. revert ts e c rest Hn.
  induction n as [|n IH]; intros ts e c rest Hn G B Fc HK At St.
  { apply gram_nonempty in G. destruct ts; [done|simpl in Hn; lia]. }
  destruct (gram_level_inv k ts e Hk G) as [G1|(o & ts1 & a & t & ts2 & b & Ho & -> & -> & Ga & Hp & Gb)].
  - specialize (HR ts e live c rest G1 B Fc HK At St). unfold yields in HR.
    destruct (den live e) as [x|].
    + destruct HR as (c' & E & S & P & F'). exists c'. split; [done|]. split; [done|]. split; [done|].
      intros n' res EL. unfold left_level, bind. rewrite E.
      apply (loop_any live n'); [by apply (steps_bounds c)|by apply (steps_left c)|done].
    + unfold left_level. apply fails_bind; [done|]. intros x c' E.
      destruct (HF live c B HK) as (x' & c2 & E2 & S2). rewrite E2 in E. injection E as <- <-.
      apply loop_total; [by apply (steps_bounds c)|unfold loop_fuel, left_over; lia|by apply (steps_left c)].
  - rewrite length_app in Hn. cbn [length] in Hn. unfold at_tokens in At. rewrite <- app_assoc in At.
    assert (Sa : stops (pred k) (t :: ts2 ++ rest)).
    { apply stops_punct with (bin_punct o) k; [done| |lia]. rewrite bin_punct_level. by f_equal. }
    pose proof (IH ts1 a c ((t :: ts2) ++ rest) ltac:(lia) Ga B Fc HK At Sa) as IHa. cbn [den].
    destruct (den live a) as [l|]; cbn [mbind option_bind]; [|done].
    destruct IHa as (c1 & S1 & P1 & F1 & Cont).
    pose proof (steps_bounds _ _ S1) as B1. pose proof (steps_left _ _ _ S1 HK) as K1.
    assert (At1 : at_tokens c1 (t :: ts2) rest).
    { apply (at_next c c1 ts1); [apply (st_toks _ _ S1)|done|]. unfold at_tokens. by rewrite <- app_assoc. }
    pose proof (at_head _ _ _ _ At1) as Ht.
    destruct (operator_read live o t c1 Ho Ht Hp) as (o' & <- & Ea).
    pose proof (steps_advance c1 (peek_bound c1 t Ht)) as S2. pose proof (steps_bounds _ _ S2) as B2.
    assert (K2 : (left_over (advance c1) < K)%nat) by (unfold left_over, advance in *; simpl; lia).
    assert (At2 : at_tokens (advance c1) ts2 rest).
    { apply (at_next c1 (advance c1) [t]); [done|simpl; lia|exact At1]. }
    pose proof (HR ts2 b (right_live live (tag o') l) (advance c1) rest Gb B2 F1 K2 At2 St) as Rb.
    rewrite <- (Hnext live o' l Ho) in Rb.
    assert (Unfold : forall m, loop live (S m) l c1 = (let* r := next live l in let* s := combine live o' l r in
        match s with Continue l => loop live m l | Return l => ret l end) (advance c1)).
    { intros m. cbn [left_loop]. unfold bind at 1. by rewrite Ea. }
    assert (Tail : forall s c', in_bounds c' -> (left_over c' < K)%nat -> (left_over c' < left_over c1)%nat ->
        total_on (match s with Continue l => loop live (length (toks c1)) l | Return l => ret l end) c').
    { intros [l'|l'] c' B' K' L'; [|by apply total_ret]. apply loop_total; try done.
      unfold left_over in *. lia. }
    assert (L2 : (left_over (advance c1) < left_over c1)%nat).
    { pose proof (peek_bound c1 t Ht). unfold left_over, advance. simpl. lia. }
    assert (Fail : fails (loop live (loop_fuel c1) l) c1 -> fails (level live) c).
    { intros (x & c' & E & F'). exists x, c'. split; [by apply (Cont (loop_fuel c1))|done]. }
    destruct (den (right_live live (tag o') l) b) as [r|]; cbn [mbind option_bind].
    2: { apply Fail. unfold fails, loop_fuel. rewrite Unfold. apply fails_bind; [done|]. intros r c3 E3.
         destruct (next_total live l ops_nonempty (advance c1) B2 K2) as (r' & c3' & E3' & S3).
         rewrite E3' in E3. injection E3 as <- <-. apply total_bind.
         - apply Hc. by apply (steps_bounds (advance c1)).
         - intros s c4 _ S4. pose proof (steps_trans _ _ _ S3 S4) as S34.
           apply Tail; [by apply (steps_bounds (advance c1))|by apply (steps_left (advance c1))|
             by apply (steps_left (advance c1))]. }
    destruct Rb as (c3 & E3 & S3 & P3 & F3).
    pose proof (steps_bounds _ _ S3) as B3. pose proof (steps_left _ _ _ S3 K2) as K3.
    pose proof (Hcombine live o' l r c3 F3 Ho) as Hcb.
    destruct (pattern_op live (tag o') l r) as [x|].
    + exists c3. split; [by apply steps_trans with c1, steps_trans with (advance c1)|].
      split; [rewrite P3, length_app; cbn [length]; simpl; lia|]. split; [done|].
      intros n' res EL. apply (Cont (S n')). rewrite Unfold. unfold bind. by rewrite E3, Hcb.
    + apply Fail. unfold fails, loop_fuel. rewrite Unfold.
      apply (fails_after _ _ _ r c3 E3). apply fails_bind; [exact Hcb|]. intros s c4 E4.
      destruct (Hc live o' l r c3 B3) as (s' & c4' & E4' & S4). rewrite E4' in E4. injection E4 as <- <-.
      pose proof (steps_trans _ _ _ S3 S4) as S34.
      apply Tail; [by apply (steps_bounds (advance c1))|by apply (steps_left (advance c1))|
        by apply (steps_left (advance c1))].
Qed.

(** The whole level reads its expressions. *)
Lemma level_reads : reads K (pred k) F -> reads K k level.
Proof using All.
  intros HR ts e live c rest G B Fc HK At St.
  pose proof (level_prefix ts e live c rest HR G B Fc HK At (stops_mono _ _ _ (Nat.le_pred_l k) St)) as P.
  unfold yields. destruct (den live e) as [x|]; [|done].
  destruct P as (c' & S & P & F' & Cont). exists c'. split; [|done].
  apply (Cont 1%nat). cbn [left_loop]. unfold bind.
  pose proof (at_next_rest c c' ts rest (st_toks _ _ S) P At) as Hr.
  destruct (accept_any_cases ops c') as [[-> _]|(t & p & o & _ & Et & Hin & Hp)]; [done|]. exfalso.
  destruct (Hops p o Hin) as [-> Ho].
  assert (X : is_punct t (bin_punct (tag o)) = false); [|congruence].
  apply (at_empty c' k rest (bin_punct (tag o)) Hr St); [|done].
  exists k. rewrite bin_punct_level. split; [by f_equal|done].
Qed.
End level.

(** ** Primaries, unary operators and conditionals *)
Lemma at_last c t ts rest : at_tokens c (ts ++ [t]) rest -> drop (pos c + length ts) (toks c) = t :: rest.
Proof. unfold at_tokens. intros E. by rewrite <- drop_drop, E, <- app_assoc, drop_app_length. Qed.

Lemma rest_head c t rest : drop (pos c) (toks c) = t :: rest -> toks c !! pos c = Some t.
Proof. intros E. by apply (at_head c t [] rest). Qed.

Lemma leaf_not_punct t p : is_leaf t -> is_punct t p = false.
Proof. intros [Hk _]. unfold is_punct. by rewrite bool_decide_eq_false_2. Qed.

Lemma primary_head ts e :
  gram 0 ts e -> exists t ts', ts = t :: ts' /\ (is_leaf t \/ is_punct t PUNCT_LPAREN = true).
Proof.
  intros G. inversion G; subst; try (by destruct o as [[]|[]|[]|[]|[]|[]| |]); eauto.
Qed.

Section descent.
  Context (rec : bool -> M PpVal) (f : nat).
  Context (Hrec : forall live, total f (rec live)) (Hread : reads f 12 rec).

Lemma primary_reads : reads (S f) 0 (eval_primary rec).
Proof using All.
  intros ts e live c rest G B Fc HK At St. inversion G; subst.
  - pose proof (at_head _ _ _ _ At) as Ht. pose proof (peek_bound c t Ht) as Pb.
    pose proof (steps_advance c Pb) as Sa. pose proof (steps_bounds _ _ Sa) as Ba.
    destruct (eval_leaf_anywhere t (advance c) Fc) as (c' & E & F' & P & T).
    destruct (steps_leaf (advance c) t Ba Fc) as (x & c2 & E2 & S2). rewrite E in E2. injection E2 as <- <-.
    exists c'. split; [|split; [by apply steps_trans with (advance c)|split; [rewrite P; simpl; lia|]]].
    + unfold eval_primary. rewrite Fc. unfold peek_tok. rewrite Ht. unfold bind, accept.
      rewrite accept_no; [exact E|]. intros t' Et. rewrite Ht in Et. injection Et as <-. by apply leaf_not_punct.
    + rewrite F'. by destruct H.
  - pose proof (at_head _ _ _ _ At) as Ht. pose proof (peek_bound c lp Ht) as Pb.
    pose proof (steps_advance c Pb) as Sa. pose proof (steps_bounds _ _ Sa) as Ba.
    assert (Kf : (left_over (advance c) < f)%nat) by (unfold left_over, advance in *; simpl; lia).
    assert (At1 : at_tokens (advance c) ts0 (rp :: rest)).
    { apply (at_next c (advance c) [lp]); [done|simpl; lia|]. unfold at_tokens in *. cbn [app] in *.
      by rewrite At, <- app_assoc. }
    assert (Sr : stops 12 (rp :: rest)) by (by apply stops_other with PUNCT_RPAREN).
    pose proof (Hread ts0 e live (advance c) (rp :: rest) H0 Ba Fc Kf At1 Sr) as R.
    assert (Run : eval_primary rec live c = (let* v := rec live in let* closed := accept PUNCT_RPAREN in
         if closed : bool then ret v
         else fun c => Some (v, eval_error c (peek_tok c) "expected ')' in #if expression"))
         (advance c)).
    { unfold eval_primary. rewrite Fc. unfold peek_tok at 1. rewrite Ht. unfold bind at 1, accept at 1.
      by rewrite (accept_yes c lp). }
    unfold yields in *. destruct (den live e) as [x|].
    + destruct R as (c1 & E1 & S1 & P1 & F1).
      assert (Hrp : toks c1 !! pos c1 = Some rp).
      { apply (rest_head c1 rp rest). by apply (at_next_rest (advance c) c1 ts0 (rp :: rest)); [apply (st_toks _ _ S1)|..]. }
      pose proof (steps_advance c1 (peek_bound c1 rp Hrp)) as S2.
      exists (advance c1). split; [|split; [by apply steps_trans with (advance c), steps_trans with c1|split; [|done]]].
      * rewrite Run. unfold bind. rewrite E1. unfold accept. by rewrite (accept_yes c1 rp).
      * unfold advance in *. simpl in *. rewrite P1, length_app. simpl. lia.
    + destruct R as (x & c1 & E1 & F1). unfold fails. rewrite Run. apply fails_bind; [by exists x, c1|].
      intros y c2 E2. destruct (Hrec live (advance c) Ba Kf) as (y' & c2' & E2' & S2).
      rewrite E2' in E2. injection E2 as <- <-. pose proof (steps_bounds _ _ S2) as B2.
      apply total_bind; [by apply total_accept|]. intros z c3 _ S3. pose proof (steps_bounds _ _ S3) as B3.
      destruct z; [by apply total_ret|]. eexists _, _. split; [reflexivity|by apply steps_error].
  - by destruct o as [[]|[]|[]|[]|[]|[]| |].
Qed.

Lemma unary_reads : reads (S f) 1 (run_unary rec).
Proof using All.
  assert (W : forall n ts e live c rest fuel, (length ts <= n)%nat ->
    gram 1 ts e -> in_bounds c -> failed c = false -> (left_over c < S f)%nat -> (left_over c < fuel)%nat ->
    at_tokens c ts rest -> stops 1 rest -> yields (eval_unary rec fuel live) c (length ts) (den live e)).
  { induction n as [|n IH]; intros ts e live c rest fuel Hn G B Fc HK Hfu At St.
    { apply gram_nonempty in G. destruct ts; [done|simpl in Hn; lia]. }
    destruct fuel as [|fuel]; [lia|]. cbn [eval_unary].
    match goal with |- context [accept_any ?l] => set (ops := l) in * end.
    inversion G as [| |ts' e' G0|o t ts' e' Hp G1|? ? ? Hlt _|o ? ? ? ? ? _ _ _ Hlev| |]; subst.
    - assert (N : accept_any ops c = Some (None, c)).
      { destruct (accept_any_cases ops c) as [[-> _]|(t & p & o & _ & Et & Hin & Hp)]; [done|]. exfalso.
        destruct (primary_head ts e G0) as (t' & ts' & -> & Hh).
        pose proof (at_head _ _ _ _ At) as Ht; rewrite Ht in Et; injection Et as <-. destruct Hh as [Hh|Hh].
        + by rewrite leaf_not_punct in Hp.
        + pose proof (is_punct_inj _ _ _ Hp Hh) as ->. simpl in Hin. intuition congruence. }
      pose proof (primary_reads ts e live c rest G0 B Fc HK At (stops_mono 0 1 rest ltac:(lia) St)) as R.
      unfold yields, succeeds, fails, bind in *. rewrite N. exact R.
    - pose proof (at_head _ _ _ _ At) as Ht.
      pose proof (steps_advance c (peek_bound c t Ht)) as Sa. pose proof (steps_bounds _ _ Sa) as Ba.
      assert (La : (left_over (advance c) < left_over c)%nat).
      { pose proof (peek_bound c t Ht). unfold left_over, advance. simpl. lia. }
      assert (E : accept_any ops c = Some (Some (un_punct o), advance c)).
      { destruct (accept_any_cases ops c) as [[_ N]|(t' & p & q & -> & Et & Hin & Hp')].
        - assert (I : In (un_punct o, un_punct o) ops) by (destruct o; simpl; tauto).
          rewrite (N t _ _ Ht I) in Hp. done.
        - rewrite Ht in Et. injection Et as <-. pose proof (is_punct_inj _ _ _ Hp Hp') as <-.
          simpl in Hin. intuition congruence. }
      assert (At1 : at_tokens (advance c) ts' rest) by (apply (at_next c (advance c) [t]); [done|simpl; lia|exact At]).
      cbn [length] in Hn.
      pose proof (IH ts' e' live (advance c) rest fuel ltac:(lia) G1 Ba Fc ltac:(lia) ltac:(lia) At1 St) as R.
      pose proof (eval_unary_total rec f Hrec live fuel (advance c) Ba ltac:(lia) ltac:(lia)) as T.
      cbn [den]. unfold yields in *. destruct (den live e') as [x|]; cbn [mbind option_bind].
      + destruct R as (c1 & E1 & S1 & P1 & F1). exists c1.
        split; [|split; [by apply steps_trans with (advance c)|split; [rewrite P1; simpl; lia|done]]].
        unfold bind. rewrite E. destruct o; cbn [un_punct]; try exact E1; by rewrite E1.
      + apply (fails_after _ _ _ _ _ E). destruct o; cbn [un_punct]; try exact R;
          (apply fails_bind; [exact R|]; intros y c2 E2; destruct T as (y' & c2' & E2' & S2);
           rewrite E2' in E2; injection E2 as <- <-; apply total_ret; by apply (steps_bounds (advance c))).
    - lia.
    - destruct o as [[]|[]|[]|[]|[]|[]| |]; done. }
  intros ts e live c rest G B Fc HK At St.
  apply (W (length ts) ts e live c rest (loop_fuel c)); try done. unfold loop_fuel, left_over. lia.
Qed.

Lemma pure_combine_pattern {O} (tag : O -> BinOp) (f' : O -> PpVal -> PpVal -> PpVal) k :
  (forall live o l r, bin_level (tag o) = k -> pattern_op live (tag o) l r = Some (f' o l r)) ->
  forall (live : bool) o l r c, failed c = false -> bin_level (tag o) = k ->
  match pattern_op live (tag o) l r with
  | Some x => pure_combine f' o l r c = Some (Continue x, c)
  | None => fails (pure_combine f' o l r) c
  end.
Proof using. intros H live o l r c _ Hk. by rewrite H. Qed.

Lemma mul_combine_pattern live o l r c :
  failed c = false ->
  match pattern_op live (BMul o) l r with
  | Some x => combine_mul live o l r c = Some (Continue x, c)
  | None => fails (combine_mul live o l r) c
  end.
Proof using.
  intros Fc. unfold fails, pattern_op, combine_mul. rewrite Fc. cbn [blank failed].
  unfold eval_error. rewrite Fc.
  destruct o; rewrite ?andb_false_r; try done;
    (destruct (v r =? 0); [destruct live; cbn [andb]; [do 2 eexists; split; reflexivity|done]|
     rewrite andb_false_r; destruct (is_unsigned l || is_unsigned r); [done|];
     destruct ((i64 (v r) =? -1) && (i64 (v l) =? i64 (1 <<64 63))); done]).
Qed.

(** One operator level over the next tighter one. *)
Ltac binary_level tg tot comb :=
  eapply (level_reads (S f)) with (tag := tg); try lia;
  [ intros p o Hin; simpl in Hin; intuition (subst; simplify_eq; done)
  | intros b Hb; destruct b as [[]|[]|[]|[]|[]|[]| |]; try done; eexists; (split; [reflexivity|simpl; tauto])
  | intros ? o l Ho; try reflexivity; by destruct o
  | comb
  | intros; by apply tot
  | intros; first [by apply pure_combine_total|by apply combine_mul_total]
  | ].
Ltac pure_comb := apply pure_combine_pattern; intros ? o ? ? Ho; try reflexivity; by destruct o.

Lemma mul_reads : reads (S f) 2 (eval_mul rec).
Proof using All.
  binary_level BMul run_unary_total ltac:(intros; by apply mul_combine_pattern). apply unary_reads.
Qed.
Lemma add_reads : reads (S f) 3 (eval_add rec).
Proof using All. binary_level BAdd eval_mul_total pure_comb. apply mul_reads. Qed.
Lemma shift_reads : reads (S f) 4 (eval_shift rec).
Proof using All. binary_level BShift eval_add_total pure_comb. apply add_reads. Qed.
Lemma rel_reads : reads (S f) 5 (eval_rel rec).
Proof using All. binary_level BRel eval_shift_total pure_comb. apply shift_reads. Qed.
Lemma eq_reads : reads (S f) 6 (eval_eq rec).
Proof using All. binary_level BEq eval_rel_total pure_comb. apply rel_reads. Qed.
Lemma bitand_reads : reads (S f) 7 (eval_bitand rec).
Proof using All. binary_level BBit eval_eq_total pure_comb. apply eq_reads. Qed.
Lemma bitxor_reads : reads (S f) 8 (eval_bitxor rec).
Proof using All. binary_level BBit eval_bitand_total pure_comb. apply bitand_reads. Qed.
Lemma bitor_reads : reads (S f) 9 (eval_bitor rec).
Proof using All. binary_level BBit eval_bitxor_total pure_comb. apply bitxor_reads. Qed.
Lemma and_reads : reads (S f) 10 (eval_and rec).
Proof using All. binary_level (fun _ : unit => BAnd) eval_bitor_total pure_comb. apply bitor_reads. Qed.
Lemma or_reads : reads (S f) 11 (eval_or rec).
Proof using All. binary_level (fun _ : unit => BOr) eval_and_total pure_comb. apply and_reads. Qed.

Lemma arm_tail_total live (x y : PpVal) c :
  in_bounds c -> (left_over c < f)%nat ->
  total_on (let* colon := accept PUNCT_COLON in
      if colon : bool then
        let* b := rec (live && (v x =? 0)) in
        ret (make_val (if negb (v x =? 0) then v y else v b) (is_unsigned y || is_unsigned b))
      else error peek_tok "expected ':' in #if expression") c.
Proof using All.
  intros B K. apply total_bind; [by apply total_accept|]. intros z c1 _ S1.
  pose proof (steps_bounds _ _ S1) as B1. pose proof (steps_left _ _ _ S1 K) as K1.
  destruct z; [|eexists _, _; split; [reflexivity|by apply steps_error]].
  apply total_bind; [by apply Hrec|]. intros b c2 _ S2. apply total_ret. by apply (steps_bounds c1).
Qed.

Lemma cond_tail_total live x c :
  in_bounds c -> (left_over c < S f)%nat ->
  total_on (let* question := accept PUNCT_QUESTION in
  if question : bool then
    let* a := rec (live && negb (v x =? 0)) in
    let* colon := accept PUNCT_COLON in
    if colon : bool then
      let* b := rec (live && (v x =? 0)) in
      ret (make_val (if negb (v x =? 0) then v a else v b) (is_unsigned a || is_unsigned b))
    else error peek_tok "expected ':' in #if expression"
  else ret x) c.
Proof using All.
  intros B K. apply total_bind; [by apply total_accept|]. intros q c2 E2 S2. unfold accept in E2.
  destruct (accept_cases c PUNCT_QUESTION) as [E|[E (t & Et & _)]]; rewrite E in E2; injection E2 as <- <-;
    [by apply total_ret|].
  pose proof (peek_bound c t Et) as Pb. pose proof (steps_bounds _ _ S2) as B2.
  assert (La : (left_over (advance c) < f)%nat) by (unfold left_over, advance in *; simpl; lia).
  apply total_bind; [by apply Hrec|]. intros y c3 _ S3.
  apply arm_tail_total; [by apply (steps_bounds (advance c))|by apply (steps_left (advance c))].
Qed.

Lemma cond_reads : reads (S f) 12 (eval_cond_body rec).
Proof using All.
  intros ts e live c rest G B Fc HK At St. inversion G; subst.
  - lia.
  - by destruct o as [[]|[]|[]|[]|[]|[]| |].
  - pose proof (or_reads ts e live c rest H B Fc HK At (stops_mono 11 12 rest ltac:(lia) St)) as R.
    unfold yields in *. destruct (den live e) as [x|].
    + destruct R as (c' & E & S & P & F'). exists c'. split; [|done]. unfold eval_cond_body, bind. rewrite E.
      unfold accept. rewrite accept_no; [done|].
      apply (at_empty c' 12 rest); [by apply (at_next_rest c c' ts rest); [apply (st_toks _ _ S)|..]|done|].
      by exists 12%nat.
    + unfold eval_cond_body. apply fails_bind; [exact R|]. intros x c' E.
      destruct (eval_or_total rec f Hrec live c B HK) as (x' & c2 & E2 & S2). rewrite E2 in E. injection E as <- <-.
      apply cond_tail_total; [by apply (steps_bounds c)|by apply (steps_left c)].
  - unfold at_tokens in At. rewrite <- app_assoc in At. cbn [app] in At. rewrite <- app_assoc in At. cbn [app] in At.
    assert (Sq : forall r, stops 11 (q :: r)) by (intros r; apply stops_punct with PUNCT_QUESTION 12%nat; (done || lia)).
    pose proof (or_reads ts1 c0 live c _ H B Fc HK At (Sq _)) as R. cbn [den].
    destruct (den live c0) as [x|]; cbn [mbind option_bind].
    2: { unfold eval_cond_body. apply fails_bind; [exact R|]. intros x c' E.
         destruct (eval_or_total rec f Hrec live c B HK) as (x' & c2 & E2 & S2). rewrite E2 in E. injection E as <- <-.
         apply cond_tail_total; [by apply (steps_bounds c)|by apply (steps_left c)]. }
    destruct R as (c1 & E1 & S1 & P1 & F1).
    assert (At1 : at_tokens c1 (q :: ts2 ++ co :: ts3) rest).
    { apply (at_next c c1 ts1); [apply (st_toks _ _ S1)|done|]. unfold at_tokens. rewrite At.
      rewrite <- !app_assoc. cbn [app]. by rewrite <- app_assoc. }
    pose proof (at_head _ _ _ _ At1) as Hq.
    pose proof (steps_advance c1 (peek_bound c1 q Hq)) as S2. pose proof (steps_bounds _ _ S1) as B1.
    pose proof (steps_bounds _ _ S2) as B2. pose proof (steps_left _ _ _ S1 HK) as K1.
    assert (K2 : (left_over (advance c1) < f)%nat).
    { pose proof (peek_bound c1 q Hq). unfold left_over, advance in *. simpl. lia. }
    assert (At2 : at_tokens (advance c1) ts2 (co :: ts3 ++ rest)).
    { apply (at_next c1 (advance c1) [q]); [done|simpl; lia|]. unfold at_tokens in *. rewrite At1.
      cbn [app]. by rewrite <- app_assoc. }
    assert (Sc : stops 12 (co :: ts3 ++ rest)) by (by apply stops_other with PUNCT_COLON).
    pose proof (Hread ts2 a (live && negb (v x =? 0)) (advance c1) _ H1 B2 F1 K2 At2 Sc) as Ra.
    set (arms := fun (x : PpVal) => let* a := rec (live && negb (v x =? 0)) in
      let* colon := accept PUNCT_COLON in
      if colon : bool then
        let* b := rec (live && (v x =? 0)) in
        ret (make_val (if negb (v x =? 0) then v a else v b) (is_unsigned a || is_unsigned b))
      else error peek_tok "expected ':' in #if expression").
    assert (Run : eval_cond_body rec live c = arms x (advance c1)).
    { unfold eval_cond_body, bind at 1. rewrite E1. unfold bind at 1, accept at 1. by rewrite (accept_yes c1 q). }
    destruct (den (live && negb (v x =? 0)) a) as [y|]; cbn [mbind option_bind].
    2: { unfold yields, fails. rewrite Run. unfold arms. apply fails_bind; [exact Ra|]. intros y c3 E3.
         destruct (Hrec (live && negb (v x =? 0)) (advance c1) B2 K2) as (y' & c3' & E3' & S3).
         rewrite E3' in E3. injection E3 as <- <-.
         apply arm_tail_total; [by apply (steps_bounds (advance c1))|by apply (steps_left (advance c1))]. }
    destruct Ra as (c3 & E3 & S3 & P3 & F3). pose proof (steps_bounds _ _ S3) as B3.
    pose proof (steps_left _ _ _ S3 K2) as K3.
    assert (Hr3 : drop (pos c3) (toks c3) = co :: ts3 ++ rest)
      by (by apply (at_next_rest (advance c1) c3 ts2); [apply (st_toks _ _ S3)|..]).
    pose proof (rest_head c3 co _ Hr3) as Hc.
    pose proof (steps_advance c3 (peek_bound c3 co Hc)) as S4. pose proof (steps_bounds _ _ S4) as B4.
    pose proof (steps_left _ _ _ S4 K3) as K4.
    assert (At4 : at_tokens (advance c3) ts3 rest) by (by apply (at_next c3 (advance c3) [co]); [|simpl; lia|]).
    pose proof (Hread ts3 b (live && (v x =? 0)) (advance c3) rest H3 B4 F3 K4 At4 St) as Rb.
    assert (Run2 : eval_cond_body rec live c = (let* b := rec (live && (v x =? 0)) in
        ret (make_val (if negb (v x =? 0) then v y else v b) (is_unsigned y || is_unsigned b))) (advance c3)).
    { rewrite Run. unfold arms, bind at 1. rewrite E3. unfold bind at 1, accept at 1. by rewrite (accept_yes c3 co). }
    destruct (den (live && (v x =? 0)) b) as [z|]; cbn [mbind option_bind].
    + destruct Rb as (c5 & E5 & S5 & P5 & F5). exists c5. split; [|split; [|split; [|done]]].
      * rewrite Run2. unfold bind. by rewrite E5.
      * apply steps_trans with c1, steps_trans with (advance c1), steps_trans with c3,
          steps_trans with (advance c3); done.
      * unfold advance in *. simpl in *. rewrite length_app. simpl. rewrite length_app. simpl. lia.
    + unfold yields, fails. rewrite Run2. apply fails_bind; [exact Rb|]. intros z c5 E5.
      destruct (Hrec (live && (v x =? 0)) (advance c3) B4 K4) as (z' & c5' & E5' & S5).
      rewrite E5' in E5. injection E5 as <- <-. apply total_ret. by apply (steps_bounds (advance c3)).
Qed.
End descent.

Lemma eval_cond_reads fuel : reads fuel 12 (eval_cond fuel).
Proof.
  induction fuel as [|fuel IH]; [intros ts e live c rest _ _ _ HK; lia|].
  apply (cond_reads (eval_cond fuel) fuel); [|exact IH]. intros live. apply eval_cond_total.
Qed.

(** ** Nothing else is accepted *)
Lemma steps_back c c' : steps c c' -> failed c' = false -> failed c = false.
Proof. intros S F. destruct (failed c) eqn:E; [|done]. destruct (st_failed _ _ S E) as [E' _]. congruence. Qed.

(** The tokens between two cursors. *)
Definition span (c c' : EvalCtx) (ts : list PpToken) : Prop :=
  toks c' = toks c /\ pos c' = (pos c + length ts)%nat /\ drop (pos c) (toks c) = ts ++ drop (pos c') (toks c').

Lemma span_nil c : span c c [].
Proof. split; [done|]. split; [simpl; lia|done]. Qed.
Lemma span_app c1 c2 c3 ts1 ts2 : span c1 c2 ts1 -> span c2 c3 ts2 -> span c1 c3 (ts1 ++ ts2).
Proof.
  intros (T1 & P1 & D1) (T2 & P2 & D2). split; [by rewrite T2|]. split; [rewrite length_app; lia|].
  by rewrite D1, D2, <- app_assoc.
Qed.
Lemma span_token c t : toks c !! pos c = Some t -> span c (advance c) [t].
Proof. intros E. split; [done|]. split; [simpl; lia|]. unfold advance. simpl. by apply drop_S. Qed.

Definition accepts_only (K k : nat) (F : bool -> M PpVal) : Prop :=
  forall live c x c', in_bounds c -> (left_over c < K)%nat -> F live c = Some (x, c') -> failed c' = false ->
  exists ts e, gram k ts e /\ span c c' ts /\ den live e = Some x.

Lemma total_steps {A} (m : M A) c x c' : total_on m c -> m c = Some (x, c') -> steps c c'.
Proof. intros (y & c2 & E & S) E'. rewrite E in E'. by injection E' as _ <-. Qed.

Section level_only.
  Context {O : Type} (K k : nat) (ops : list (PpPunct * O)) (tag : O -> BinOp).
  Context (F : bool -> M PpVal) (next : bool -> PpVal -> M PpVal).
  Context (combine : bool -> O -> PpVal -> PpVal -> M LoopStep).
  Context (Hk : (2 <= k <= 11)%nat).
  Context (Hops : forall p o, In (p, o) ops -> p = bin_punct (tag o) /\ bin_level (tag o) = k).
  Context (Hall : forall b, bin_level b = k -> exists o, tag o = b /\ In (bin_punct b, o) ops).
  Context (Hnext : forall live o l, bin_level (tag o) = k -> next live l = F (right_live live (tag o) l)).
  Context (Hcombine : forall live o l r c, failed c = false -> bin_level (tag o) = k ->
    match pattern_op live (tag o) l r with
    | Some x => combine live o l r c = Some (Continue x, c)
    | None => fails (combine live o l r) c
    end).
  Context (HF : forall live, total K (F live)).
  Context (Hc : forall live o l r c, in_bounds c -> total_on (combine live o l r) c).
  #[local] Notation "'level'" := (fun live => left_level ops (F live) (next live) (combine live)).
  #[local] Notation "'loop'" := (fun live n => left_loop n ops (next live) (combine live)).

Lemma loop_accepts_only live n c0 ts0 e0 l c x c' :
  accepts_only K (pred k) F -> gram k ts0 e0 -> span c0 c ts0 -> den live e0 = Some l ->
  in_bounds c -> (left_over c < n)%nat -> (left_over c < K)%nat ->
  loop live n l c = Some (x, c') -> failed c' = false ->
  exists ts e, gram k ts e /\ span c0 c' ts /\ den live e = Some x.
Proof using All.
  intros HA. revert ts0 e0 l c. induction n as [|n IH]; intros ts0 e0 l c G Sp D B Hn HK E Fc; [done|].
  cbn [left_loop] in E. unfold bind in E.
  destruct (accept_any_cases ops c) as [[Ea _]|(t & p & o & Ea & Et & Hin & Hp)]; rewrite Ea in E.
  { injection E as <- <-. by exists ts0, e0. }
  destruct (Hops p o Hin) as [-> Ho].
  pose proof (steps_advance c (peek_bound c t Et)) as S1. pose proof (steps_bounds _ _ S1) as B1.
  assert (L1 : (left_over (advance c) < left_over c)%nat).
  { pose proof (peek_bound c t Et). unfold left_over, advance. simpl. lia. }
  destruct (next live l (advance c)) as [[r c2]|] eqn:En; [|done].
  assert (T2 : total_on (next live l) (advance c)) by (rewrite (Hnext live o l Ho); apply HF; (done || lia)).
  pose proof (total_steps _ _ _ _ T2 En) as S2. pose proof (steps_bounds _ _ S2) as B2.
  destruct (combine live o l r c2) as [[s c3]|] eqn:Ec; [|done].
  pose proof (total_steps _ _ _ _ (Hc live o l r c2 B2) Ec) as S3. pose proof (steps_bounds _ _ S3) as B3.
  pose proof (steps_trans _ _ _ S2 S3) as S23.
  assert (L3 : (left_over c3 < left_over c)%nat) by (apply (steps_left (advance c)); [done|lia]).
  assert (F3 : failed c3 = false).
  { destruct s as [l'|l']; [|by injection E as _ <-].
    apply (steps_back c3 c'); [|done].
    apply (total_steps (loop live n l') c3 x c'); [|done].
    apply (loop_total K k ops tag F next combine); (done || lia). }
  pose proof (steps_back _ _ S3 F3) as F2.
  rewrite (Hnext live o l Ho) in En.
  destruct (HA _ _ _ _ B1 ltac:(lia) En F2) as (ts2 & b & Gb & Sp2 & Db).
  pose proof (Hcombine live o l r c2 F2 Ho) as Hcb.
  destruct (pattern_op live (tag o) l r) as [y|] eqn:Ep.
  2: { destruct Hcb as (s' & c3' & Ec' & F3'). rewrite Ec in Ec'. injection Ec' as <- <-. congruence. }
  rewrite Ec in Hcb. injection Hcb as -> ->.
  apply (IH (ts0 ++ t :: ts2) (EBin (tag o) e0 b) y c2); try done; try lia.
  - subst k. by apply g_binary.
  - apply (span_app c0 c c2); [done|]. by apply (span_app c (advance c) c2 [t]); [apply span_token|].
  - cbn [den]. rewrite D. cbn [mbind option_bind]. by rewrite Db.
Qed.

Lemma level_accepts_only : accepts_only K (pred k) F -> accepts_only K k level.
Proof using All.
  intros HA live c x c' B HK E Fc. unfold left_level, bind in E.
  destruct (F live c) as [[l c1]|] eqn:E1; [|done].
  pose proof (total_steps _ _ _ _ (HF live c B HK) E1) as S1. pose proof (steps_bounds _ _ S1) as B1.
  pose proof (steps_left _ _ _ S1 HK) as K1.
  assert (S2 : steps c1 c').
  { apply (total_steps (loop live (loop_fuel c1) l) c1 x c'); [|done].
    apply (loop_total K k ops tag F next combine); try done. unfold loop_fuel, left_over. lia. }
  destruct (HA live c l c1 B HK E1 (steps_back _ _ S2 Fc)) as (ts & e & G & Sp & D).
  apply (loop_accepts_only live (loop_fuel c1) c ts e l c1 x c'); try done.
  - destruct k as [|k']; [lia|]. apply g_up; [lia|done].
  - unfold loop_fuel, left_over. lia.
Qed.
End level_only.

Section descent_only.
  Context (rec : bool -> M PpVal) (f : nat).
  Context (Hrec : forall live, total f (rec live)) (Honly : accepts_only f 12 rec).

Lemma primary_accepts_only : accepts_only (S f) 0 (eval_primary rec).
Proof using All.
  intros live c x c' B HK E Fc. unfold eval_primary in E.
  destruct (failed c) eqn:F0; [injection E as _ <-; congruence|].
  destruct (peek_tok c) as [t|] eqn:Et.
  2: { injection E as _ <-. unfold eval_error in Fc. rewrite F0 in Fc. done. }
  pose proof (steps_advance c (peek_bound c t Et)) as S1. pose proof (steps_bounds _ _ S1) as B1.
  assert (K1 : (left_over (advance c) < f)%nat).
  { pose proof (peek_bound c t Et). unfold left_over, advance in *. simpl. lia. }
  unfold bind, accept in E.
  destruct (accept_cases c PUNCT_LPAREN) as [Ea|[Ea (lp & Elp & Hlp)]]; rewrite Ea in E.
  - destruct (eval_leaf_anywhere t (advance c) F0) as (c2 & E2 & F2 & P2 & T2). rewrite E2 in E.
    injection E as <- <-. exists [t], (ELit t).
    assert (Lf : is_leaf t).
    { split; [|congruence]. intros Kp. unfold eval_leaf in E2. rewrite Kp in E2.
      injection E2 as _ <-. unfold eval_error in Fc. cbn [advance failed] in Fc. rewrite F0 in Fc. done. }
    split; [by constructor|]. split; [|done].
    apply (span_app c (advance c) c2 [t] []); [by apply span_token|].
    split; [done|]. split; [rewrite P2; simpl; lia|]. by rewrite P2, T2.
  - change (toks c !! pos c) with (peek_tok c) in Elp. rewrite Et in Elp. injection Elp as <-.
    destruct (rec live (advance c)) as [[y c2]|] eqn:Er; [|done].
    pose proof (total_steps _ _ _ _ (Hrec live (advance c) B1 K1) Er) as S2. pose proof (steps_bounds _ _ S2) as B2.
    destruct (accept_cases c2 PUNCT_RPAREN) as [Eb|[Eb (rp & Erp & Hrp)]]; rewrite Eb in E.
    + injection E as _ <-. exfalso. unfold eval_error in Fc. destruct (failed c2) eqn:F2; [congruence|done].
    + injection E as <- <-. cbn [advance failed] in Fc.
      destruct (Honly live (advance c) y c2 B1 K1 Er Fc) as (ts & e & G & Sp & D).
      exists (t :: ts ++ [rp]), e. split; [by constructor|]. split; [|done].
      apply (span_app c (advance c) (advance c2) [t]); [by apply span_token|].
      apply (span_app _ c2 _ ts); [done|by apply span_token].
Qed.

Lemma unary_accepts_only : accepts_only (S f) 1 (run_unary rec).
Proof using All.
  assert (W : forall fuel live c x c', in_bounds c -> (left_over c < S f)%nat -> (left_over c < fuel)%nat ->
    eval_unary rec fuel live c = Some (x, c') -> failed c' = false ->
    exists ts e, gram 1 ts e /\ span c c' ts /\ den live e = Some x).
  { induction fuel as [|fuel IH]; intros live c x c' B HK Hfu E Fc; [lia|]. cbn [eval_unary] in E.
    match type of E with context [accept_any ?l] => set (ops := l) in * end.
    unfold bind in E. destruct (accept_any_cases ops c) as [[Ea _]|(t & p & o & Ea & Et & Hin & Hp)]; rewrite Ea in E.
    - destruct (primary_accepts_only live c x c' B HK E Fc) as (ts & e & G & Sp & D).
      exists ts, e. split; [by constructor|done].
    - pose proof (steps_advance c (peek_bound c t Et)) as S1. pose proof (steps_bounds _ _ S1) as B1.
      assert (L1 : (left_over (advance c) < left_over c)%nat).
      { pose proof (peek_bound c t Et). unfold left_over, advance. simpl. lia. }
      pose proof (span_token c t Et) as Sp1.
      assert (Err : forall m, eval_error (advance c) (last_tok (advance c)) m = c' -> False).
      { intros m <-. unfold eval_error in Fc. destruct (failed (advance c)) eqn:F1; [congruence|done]. }
      assert (Same : p = o) by (unfold ops in Hin; simpl in Hin; intuition congruence).
      assert (Sub : forall u z c2, o = un_punct u -> eval_unary rec fuel live (advance c) = Some (z, c2) ->
        failed c2 = false -> exists ts e, gram 1 ts e /\ span c c2 ts /\ den live e = Some (unary_op u z)).
      { intros u z c2 -> Ez F2.
        destruct (IH live (advance c) z c2 B1 ltac:(lia) ltac:(lia) Ez F2) as (ts & e & G & Sp & D).
        exists (t :: ts), (EUn u e). split; [|split; [by apply (span_app c (advance c) c2 [t])|]].
        - constructor; [by rewrite <- Same|done].
        - cbn [den]. by rewrite D. }
      simpl in Hin. destruct Hin as [Hin|[Hin|[Hin|[Hin|[Hin|[Hin|[]]]]]]]; injection Hin as <- <-.
      + destruct (eval_unary rec fuel live (advance c)) as [[z c2]|] eqn:Ez; [|done].
        injection E as <- <-. by apply (Sub UNot).
      + destruct (eval_unary rec fuel live (advance c)) as [[z c2]|] eqn:Ez; [|done].
        injection E as <- <-. by apply (Sub UCompl).
      + by apply (Sub UPlus x c').
      + destruct (eval_unary rec fuel live (advance c)) as [[z c2]|] eqn:Ez; [|done].
        injection E as <- <-. by apply (Sub UMinus).
      + exfalso. injection E as _ E. by apply Err in E.
      + exfalso. injection E as _ E. by apply Err in E. }
  intros live c x c' B HK E Fc. apply (W (loop_fuel c) live c x c'); try done. unfold loop_fuel, left_over. lia.
Qed.

Ltac binary_only tg tot comb :=
  eapply (level_accepts_only (S f)) with (tag := tg); try lia;
  [ intros p o Hin; simpl in Hin; intuition (subst; simplify_eq; done)
  | intros b Hb; destruct b as [[]|[]|[]|[]|[]|[]| |]; try done; eexists; (split; [reflexivity|simpl; tauto])
  | intros ? o l Ho; try reflexivity; by destruct o
  | comb
  | intros; by apply tot
  | intros; first [by apply pure_combine_total|by apply combine_mul_total]
  | ].
Ltac pure_comb := apply pure_combine_pattern; intros ? o ? ? Ho; try reflexivity; by destruct o.

Lemma mul_accepts_only : accepts_only (S f) 2 (eval_mul rec).
Proof using All.
  binary_only BMul run_unary_total ltac:(intros; by apply mul_combine_pattern). apply unary_accepts_only.
Qed.
Lemma add_accepts_only : accepts_only (S f) 3 (eval_add rec).
Proof using All. binary_only BAdd eval_mul_total pure_comb. apply mul_accepts_only. Qed.
Lemma shift_accepts_only : accepts_only (S f) 4 (eval_shift rec).
Proof using All. binary_only BShift eval_add_total pure_comb. apply add_accepts_only. Qed.
Lemma rel_accepts_only : accepts_only (S f) 5 (eval_rel rec).
Proof using All. binary_only BRel eval_shift_total pure_comb. apply shift_accepts_only. Qed.
Lemma eq_accepts_only : accepts_only (S f) 6 (eval_eq rec).
Proof using All. binary_only BEq eval_rel_total pure_comb. apply rel_accepts_only. Qed.
Lemma bitand_accepts_only : accepts_only (S f) 7 (eval_bitand rec).
Proof using All. binary_only BBit eval_eq_total pure_comb. apply eq_accepts_only. Qed.
Lemma bitxor_accepts_only : accepts_only (S f) 8 (eval_bitxor rec).
Proof using All. binary_only BBit eval_bitand_total pure_comb. apply bitand_accepts_only. Qed.
Lemma bitor_accepts_only : accepts_only (S f) 9 (eval_bitor rec).
Proof using All. binary_only BBit eval_bitxor_total pure_comb. apply bitxor_accepts_only. Qed.
Lemma and_accepts_only : accepts_only (S f) 10 (eval_and rec).
Proof using All. binary_only (fun _ : unit => BAnd) eval_bitor_total pure_comb. apply bitor_accepts_only. Qed.
Lemma or_accepts_only : accepts_only (S f) 11 (eval_or rec).
Proof using All. binary_only (fun _ : unit => BOr) eval_and_total pure_comb. apply and_accepts_only. Qed.

Lemma cond_accepts_only : accepts_only (S f) 12 (eval_cond_body rec).
Proof using All.
  intros live c x c' B HK E Fc. unfold eval_cond_body, bind in E.
  destruct (eval_or rec live c) as [[y c1]|] eqn:E1; [|done].
  pose proof (total_steps _ _ _ _ (eval_or_total rec f Hrec live c B HK) E1) as S1.
  pose proof (steps_bounds _ _ S1) as B1. pose proof (steps_left _ _ _ S1 HK) as K1. unfold accept in E.
  destruct (accept_cases c1 PUNCT_QUESTION) as [Eq|[Eq (q & Et & Hq)]]; rewrite Eq in E.
  { injection E as <- <-. destruct (or_accepts_only live c y c1 B HK E1 Fc) as (ts & e & G & Sp & D).
    exists ts, e. split; [by apply g_or|done]. }
  pose proof (steps_advance c1 (peek_bound c1 q Et)) as S2. pose proof (steps_bounds _ _ S2) as B2.
  assert (K2 : (left_over (advance c1) < f)%nat).
  { pose proof (peek_bound c1 q Et). unfold left_over, advance in *. simpl. lia. }
  destruct (rec (live && negb (v y =? 0)) (advance c1)) as [[a c3]|] eqn:E3; [|done].
  pose proof (total_steps _ _ _ _ (Hrec _ (advance c1) B2 K2) E3) as S3.
  pose proof (steps_bounds _ _ S3) as B3. pose proof (steps_left _ _ _ S3 K2) as K3.
  destruct (accept_cases c3 PUNCT_COLON) as [Ec|[Ec (co & Et3 & Hco)]]; rewrite Ec in E.
  { unfold error in E. injection E as _ <-. exfalso. unfold eval_error in Fc.
    destruct (failed c3) eqn:F3; [congruence|done]. }
  pose proof (steps_advance c3 (peek_bound c3 co Et3)) as S4. pose proof (steps_bounds _ _ S4) as B4.
  pose proof (steps_left _ _ _ S4 K3) as K4.
  destruct (rec (live && (v y =? 0)) (advance c3)) as [[b c5]|] eqn:E5; [|done].
  pose proof (total_steps _ _ _ _ (Hrec _ (advance c3) B4 K4) E5) as S5.
  injection E as <- <-.
  pose proof (steps_back _ _ S5 Fc) as F4. pose proof (steps_back _ _ S4 F4) as F3.
  pose proof (steps_back _ _ S3 F3) as F2. pose proof (steps_back _ _ S2 F2) as F1.
  destruct (or_accepts_only live c y c1 B HK E1 F1) as (ts1 & e1 & G1 & Sp1 & D1).
  destruct (Honly _ _ a c3 B2 K2 E3 F3) as (ts2 & e2 & G2 & Sp2 & D2).
  destruct (Honly _ _ b c5 B4 K4 E5 Fc) as (ts3 & e3 & G3 & Sp3 & D3).
  exists (ts1 ++ q :: ts2 ++ co :: ts3), (ECond e1 e2 e3).
  split; [by constructor|]. split.
  - apply (span_app c c1); [done|]. apply (span_app c1 (advance c1) c5 [q]); [by apply span_token|].
    apply (span_app _ c3); [done|]. by apply (span_app c3 (advance c3) c5 [co]); [apply span_token|].
  - cbn [den]. rewrite D1. cbn [mbind option_bind]. rewrite D2. cbn [mbind option_bind]. by rewrite D3.
Qed.
End descent_only.

Lemma eval_cond_accepts_only fuel : accepts_only fuel 12 (eval_cond fuel).
Proof.
  induction fuel as [|fuel IH]; [intros live c x c' _ HK; lia|].
  apply (cond_accepts_only (eval_cond fuel) fuel); [|exact IH]. intros live. apply eval_cond_total.
Qed.

(** ** The whole line *)
Definition line_ctx (ts : list PpToken) (loc : SrcLoc) : EvalCtx := mkCtx ts 0 loc false [].

Lemma line_start ts loc : in_bounds (line_ctx ts loc) /\ (left_over (line_ctx ts loc) < S (length ts))%nat.
Proof. unfold in_bounds, left_over, line_ctx. simpl. lia. Qed.

Lemma steps_errors c c' : steps c c' -> log c = [] -> failed c = false ->
  errors (log c') = if failed c' then 1%nat else 0%nat.
Proof. intros S El Ef. destruct (st_log _ _ S) as (l & E & N). rewrite E, El, Ef in *. exact N. Qed.

(** The check for trailing tokens. *)
Lemma eval_tokens_run ts loc :
  exists x c, eval_cond (S (length ts)) true (line_ctx ts loc) = Some (x, c) /\ steps (line_ctx ts loc) c /\
    ((failed c = true /\ eval_tokens ts loc = Some (false, log c)) \/
     (failed c = false /\ pos c = length ts /\ eval_tokens ts loc = Some (negb (v x =? 0), log c)) \/
     (failed c = false /\ pos c <> length ts /\ exists l, eval_tokens ts loc = Some (false, l) /\ errors l = 1%nat)).
Proof.
  destruct (line_start ts loc) as [B L].
  destruct (eval_cond_total (S (length ts)) true (line_ctx ts loc) B L) as (x & c & E & S).
  exists x, c. split; [exact E|]. split; [exact S|].
  unfold eval_tokens. fold (line_ctx ts loc). rewrite E. pose proof (st_toks _ _ S) as T. cbn [toks line_ctx] in T.
  destruct (failed c) eqn:Fc; cbn [negb andb]; [left; by rewrite Fc|right]. rewrite T.
  destruct (Nat.eqb_spec (pos c) (length ts)) as [P|P]; cbn [negb].
  - left. by rewrite Fc.
  - right. split; [done|]. split; [done|]. pose proof (steps_bounds _ _ S) as Bc. unfold in_bounds in Bc. rewrite T in Bc.
    destruct (lookup_lt_is_Some_2 ts (pos c) ltac:(lia)) as [t Et]. unfold peek_tok. rewrite T, Et.
    match goal with |- context [eval_error c (Some t) ?m] => pose proof (steps_error c (Some t) m (steps_bounds _ _ S)) as S2 end.
    pose proof (steps_trans _ _ _ S S2) as S12. pose proof (steps_errors _ _ S12 eq_refl eq_refl) as N.
    unfold eval_error in *. rewrite Fc in *. cbn [failed log] in *. eexists. split; [reflexivity|exact N].
Qed.

(** ** Properties of the code *)

(** C11. A condition line is evaluated to the value its expression has in
    [intmax_t]/[uintmax_t] arithmetic: with the precedences and associativity
    of the grammar, the usual conversions, wrap-around, signed and unsigned
    division and comparison, shifts by any count, and [&&], [||] and [?:]
    that skip what they must. A division by zero on the live path, and any
    line that is no expression, gives one error and the answer false. *)
Theorem eval_tokens_correct ts loc :
  exists b l, eval_tokens ts loc = Some (b, l) /\
  (forall e, gram 12 ts e ->
     match sem e with
     | Some z => b = negb (z =? 0) /\ errors l = 0%nat
     | None => b = false /\ errors l = 1%nat
     end) /\
  ((exists e z, gram 12 ts e /\ sem e = Some z) \/ (b = false /\ errors l = 1%nat)).
Proof.
  destruct (line_start ts loc) as [B L]. set (c0 := line_ctx ts loc) in *.
  destruct (eval_tokens_run ts loc) as (x & c & E & S & R). fold c0 in E, S.
  assert (Complete : forall e, gram 12 ts e -> match sem e with
      | Some z => failed c = false /\ pos c = length ts /\ z = interp (uns e) (v x) /\ is_u64 (v x)
      | None => failed c = true end).
  { intros e G. pose proof (eval_cond_reads (Datatypes.S (length ts)) ts e true c0 [] G B eq_refl L) as Y.
    unfold at_tokens in Y. specialize (Y (eq_sym (app_nil_r ts)) I). pose proof (den_sem e true) as D.
    unfold yields in Y. destruct (den true e) as [y|].
    - destruct D as (Ry & _ & ->); [|done]. destruct Y as (c' & E' & _ & P & F). rewrite E in E'.
      injection E' as <- <-. done.
    - destruct D as [_ ->]. destruct Y as (y & c' & E' & F). rewrite E in E'. by injection E' as <- <-. }
  assert (Sound : failed c = false -> pos c = length ts -> exists e z, gram 12 ts e /\ sem e = Some z).
  { intros F P. destruct (eval_cond_accepts_only _ true c0 x c B L E F) as (ts' & e & G & (T & P' & D) & De).
    pose proof (den_sem e true) as Ds. rewrite De in Ds. destruct Ds as (_ & _ & Hs).
    exists e, (interp (uns e) (v x)). split; [|by apply Hs].
    cbn [c0 line_ctx pos toks] in D, T, P'. rewrite drop_0 in D. rewrite T, P, drop_all, app_nil_r in D.
    by rewrite D. }
  pose proof (steps_errors _ _ S eq_refl eq_refl) as N.
  destruct R as [[F R]|[(F & P & R)|(F & P & l & R & Nl)]]; rewrite ?F in N.
  - exists false, (log c). split; [exact R|]. split; [|right; done]. intros e G. specialize (Complete e G).
    destruct (sem e); [|done]. destruct Complete as [F' _]. congruence.
  - eexists _, (log c). split; [exact R|]. split; [|left; by apply Sound]. intros e G. specialize (Complete e G).
    destruct (sem e) as [z|]; [|congruence]. destruct Complete as (_ & _ & -> & Rx). by rewrite interp_zero.
  - exists false, l. split; [exact R|]. split; [|by right]. intros e G. specialize (Complete e G).
    destruct (sem e); [|done]. destruct Complete as (_ & P' & _). congruence.
Qed.

(** [-1 > 0u] is true: the comparison is unsigned. *)
Lemma eval_tokens_witness :
  let e := EBin (BRel OpGt) (EUn UMinus (ELit (ntok "1"))) (ELit (ntok "0u")) in
  let ts := [ptok PUNCT_MINUS; ntok "1"; ptok PUNCT_GT; ntok "0u"] in
  gram 12 ts e /\ sem e = Some 1 /\ exists l, eval_tokens ts 0 = Some (true, l) /\ errors l = 0%nat.
Proof.
  intros e ts.
  assert (L1 : gram 1 [ntok "1"] (ELit (ntok "1"))) by (apply g_primary, g_leaf; split; [discriminate|reflexivity]).
  assert (L0 : gram 1 [ntok "0u"] (ELit (ntok "0u"))) by (apply g_primary, g_leaf; split; [discriminate|reflexivity]).
  assert (G : gram 12 ts e).
  { apply g_or. do 6 (apply g_up; [lia|]).
    apply (g_binary (BRel OpGt) [ptok PUNCT_MINUS; ntok "1"]); [|reflexivity|].
    - do 4 (apply g_up; [lia|]). by apply (g_unary UMinus).
    - cbn. do 3 (apply g_up; [lia|]). exact L0. }
  split; [exact G|]. split; [reflexivity|].
  destruct (eval_tokens_correct ts 0) as (b & l & E & H & _). specialize (H e G).
  change (sem e) with (Some 1) in H. destruct H as [-> N]. by exists l.
Defined.
