(* ===== verification/Ir.v ===== *)
(** [src/ir/ir.h] and the parts of [src/ir/ir.c] and [src/ir/verify.c] the
    scalar passes stand on: the SSA data, operand constructors, type queries
    and the verifier's type discipline (check 4).

    Names, source locations and diagnostic provenance are dropped: no scalar
    pass computes with them. A [u8]/[u32] field is a [Z]; [subop] is decoded
    where the C casts it. *)
From S2P Require Import Prelude.
#[local] Open Scope Z_scope.

(** ** Types *)
Inductive IrType :=
| IRT_I8 | IRT_I16 | IRT_I32 | IRT_I64 | IRT_F32 | IRT_F64 | IRT_F80 | IRT_F128
| IRT_PTR | IRT_V16I8 | IRT_V8I16 | IRT_V4I32 | IRT_V2I64 | IRT_V4F32 | IRT_V2F64
| IRT_VOID.
#[export] Instance IrType_eq_dec : EqDecision IrType.
Proof. solve_decision. Defined.

(** The enumeration order, which range tests and tables use. *)
Definition type_ord (t : IrType) : Z :=
  match t with
  | IRT_I8 => 0 | IRT_I16 => 1 | IRT_I32 => 2 | IRT_I64 => 3 | IRT_F32 => 4
  | IRT_F64 => 5 | IRT_F80 => 6 | IRT_F128 => 7 | IRT_PTR => 8 | IRT_V16I8 => 9
  | IRT_V8I16 => 10 | IRT_V4I32 => 11 | IRT_V2I64 => 12 | IRT_V4F32 => 13
  | IRT_V2F64 => 14 | IRT_VOID => 15
  end.
Definition ty_eqb (t u : IrType) : bool := bool_decide (t = u).

Definition ir_type_is_vector (t : IrType) : bool :=
  (type_ord IRT_V16I8 <=? type_ord t) && (type_ord t <=? type_ord IRT_V2F64).
Definition ir_type_is_vector_int (t : IrType) : bool :=
  (type_ord IRT_V16I8 <=? type_ord t) && (type_ord t <=? type_ord IRT_V2I64).
Definition ir_type_is_vector_float (t : IrType) : bool :=
  ty_eqb t IRT_V4F32 || ty_eqb t IRT_V2F64.
Definition ir_vector_elem_type (t : IrType) : IrType :=
  match t with
  | IRT_V16I8 => IRT_I8 | IRT_V8I16 => IRT_I16 | IRT_V4I32 => IRT_I32
  | IRT_V2I64 => IRT_I64 | IRT_V4F32 => IRT_F32 | IRT_V2F64 => IRT_F64
  | _ => IRT_VOID
  end.
Definition ir_vector_lanes (t : IrType) : Z :=
  match t with
  | IRT_V16I8 => 16 | IRT_V8I16 => 8 | IRT_V4I32 => 4 | IRT_V2I64 => 2
  | IRT_V4F32 => 4 | IRT_V2F64 => 2 | _ => 0
  end.

(** ** Opcodes *)
Inductive IrOp :=
| IR_IADD | IR_ISUB | IR_IMUL | IR_SDIV | IR_UDIV | IR_SREM | IR_UREM
| IR_AND | IR_OR | IR_XOR | IR_SHL | IR_LSHR | IR_ASHR
| IR_ICMP | IR_FCMP
| IR_FADD | IR_FSUB | IR_FMUL | IR_FDIV | IR_FNEG | IR_FABS
| IR_SEXT | IR_ZEXT | IR_TRUNC | IR_FPEXT | IR_FPTRUNC | IR_FPTOSI | IR_FPTOUI
| IR_SITOFP | IR_UITOFP | IR_BITCAST
| IR_ALLOCA | IR_LOAD | IR_STORE | IR_PTRADD | IR_MEMCPY | IR_MEMSET
| IR_CALL | IR_SELECT
| IR_VSPLAT | IR_VEXTRACT | IR_VREDUCE_ADD | IR_VREDUCE_MUL | IR_VREDUCE_AND
| IR_VREDUCE_OR | IR_VREDUCE_XOR
| IR_VA_START | IR_STACKSAVE | IR_STACKRESTORE | IR_ATOMICRMW | IR_CMPXCHG | IR_ASM
| IR_RET | IR_BR | IR_CONDBR | IR_SWITCH | IR_UNREACHABLE
| IR_VA_ARG | IR_VA_END | IR_VA_COPY.
#[export] Instance IrOp_eq_dec : EqDecision IrOp.
Proof. solve_decision. Defined.
Definition opc_eqb (o p : IrOp) : bool := bool_decide (o = p).

Inductive IrIcmp :=
| ICMP_EQ | ICMP_NE | ICMP_SLT | ICMP_SLE | ICMP_SGT | ICMP_SGE
| ICMP_ULT | ICMP_ULE | ICMP_UGT | ICMP_UGE.
#[export] Instance IrIcmp_eq_dec : EqDecision IrIcmp.
Proof. solve_decision. Defined.
Inductive IrFcmp :=
| FCMP_OEQ | FCMP_ONE | FCMP_OLT | FCMP_OLE | FCMP_OGT | FCMP_OGE | FCMP_ORD
| FCMP_UEQ | FCMP_UNE | FCMP_ULT | FCMP_ULE | FCMP_UGT | FCMP_UGE | FCMP_UNO.

(** The casts of [subop], and back. *)
Definition icmp_list : list IrIcmp :=
  [ICMP_EQ; ICMP_NE; ICMP_SLT; ICMP_SLE; ICMP_SGT; ICMP_SGE; ICMP_ULT; ICMP_ULE; ICMP_UGT; ICMP_UGE].
Definition fcmp_list : list IrFcmp :=
  [FCMP_OEQ; FCMP_ONE; FCMP_OLT; FCMP_OLE; FCMP_OGT; FCMP_OGE; FCMP_ORD; FCMP_UEQ; FCMP_UNE;
   FCMP_ULT; FCMP_ULE; FCMP_UGT; FCMP_UGE; FCMP_UNO].
Definition icmp_of (subop : Z) : option IrIcmp :=
  if subop <? 0 then None else icmp_list !! Z.to_nat subop.
Definition fcmp_of (subop : Z) : option IrFcmp :=
  if subop <? 0 then None else fcmp_list !! Z.to_nat subop.
Definition icmp_code (p : IrIcmp) : Z :=
  match p with
  | ICMP_EQ => 0 | ICMP_NE => 1 | ICMP_SLT => 2 | ICMP_SLE => 3 | ICMP_SGT => 4
  | ICMP_SGE => 5 | ICMP_ULT => 6 | ICMP_ULE => 7 | ICMP_UGT => 8 | ICMP_UGE => 9
  end.

(** ** Operands *)
Inductive IrOpKind := IROP_NONE | IROP_VALUE | IROP_ICONST | IROP_FCONST | IROP_SYMBOL | IROP_UNDEF.
#[export] Instance IrOpKind_eq_dec : EqDecision IrOpKind.
Proof. solve_decision. Defined.
Definition is_kind (k l : IrOpKind) : bool := bool_decide (k = l).

Record IrOperand := mkOp {
  o_kind : IrOpKind; o_type : IrType; o_argflags : Z; o_sym : Z; o_a : Z; o_b : Z;
}.
#[export] Instance IrOperand_eq_dec : EqDecision IrOperand.
Proof. solve_decision. Defined.

(** [(IrOperand){0}]; type 0 is [IRT_I8]. *)
Definition no_operand : IrOperand := mkOp IROP_NONE IRT_I8 0 0 0 0.
Definition ir_op_iconst (t : IrType) (v : Z) : IrOperand := mkOp IROP_ICONST t 0 0 (u64 v) 0.
Definition ir_op_fconst (t : IrType) (lo hi : Z) : IrOperand := mkOp IROP_FCONST t 0 0 lo hi.
Definition ir_op_symbol (t : IrType) (sym addend : Z) : IrOperand := mkOp IROP_SYMBOL t 0 sym (u64 addend) 0.
Definition ir_op_undef (t : IrType) : IrOperand := mkOp IROP_UNDEF t 0 0 0 0.

(** The provenance of a call argument belongs to its slot; [b] of an [fconst]
    is the high half of the value. *)
Definition ir_arg_carry_provenance (fresh old : IrOperand) : IrOperand :=
  mkOp (o_kind fresh) (o_type fresh) (o_argflags old) (o_sym fresh) (o_a fresh)
    (if is_kind (o_kind fresh) IROP_FCONST then o_b fresh else o_b old).

(** ** Instructions, blocks, functions *)
Definition IRF_NSW : Z := 8.

Record IrEdge := mkEdge { e_target : Z; e_args : list IrOperand; e_case : Z }.
(** [in_aux] is the union of [align] and [callee]. *)
Record IrInst := mkInst {
  in_op : IrOp; in_type : IrType; in_subop : Z; in_flags : Z; in_result : Z;
  in_aux : Z; in_ops : list IrOperand; in_edges : list IrEdge;
}.
Definition in_nops (i : IrInst) : Z := Z.of_nat (length (in_ops i)).
Definition in_nedges (i : IrInst) : Z := Z.of_nat (length (in_edges i)).
(** [in->ops[n]], where [nops] has been tested; no operand past the end. *)
Definition op_at (i : IrInst) (n : nat) : IrOperand := default no_operand (in_ops i !! n).

Definition set_ops (i : IrInst) (ops : list IrOperand) : IrInst :=
  mkInst (in_op i) (in_type i) (in_subop i) (in_flags i) (in_result i) (in_aux i) ops (in_edges i).
Definition set_edges (i : IrInst) (es : list IrEdge) : IrInst :=
  mkInst (in_op i) (in_type i) (in_subop i) (in_flags i) (in_result i) (in_aux i) (in_ops i) es.
Definition set_edge_args (e : IrEdge) (args : list IrOperand) : IrEdge :=
  mkEdge (e_target e) args (e_case e).

Inductive IrValDef := VDEF_NONE | VDEF_FPARAM | VDEF_BPARAM | VDEF_INST.
Record IrValInfo := mkVal { vi_type : IrType; vi_def_kind : IrValDef; vi_def_block : Z; vi_def_pos : Z }.
Record IrBlock := mkBlock { b_params : list Z; b_insts : list IrInst }.
Record IrFunc := mkFunc {
  f_ret : IrType; f_variadic : bool; f_param_vals : list Z;
  f_blocks : list IrBlock; f_vals : list IrValInfo;
  f_slots : list Z;  (* the addresses of [local_slots] *)
}.
Definition f_nvals (f : IrFunc) : Z := Z.of_nat (length (f_vals f)).
Definition f_nblocks (f : IrFunc) : Z := Z.of_nat (length (f_blocks f)).
Definition set_vals (f : IrFunc) (vals : list IrValInfo) : IrFunc :=
  mkFunc (f_ret f) (f_variadic f) (f_param_vals f) (f_blocks f) vals (f_slots f).
Definition set_blocks (f : IrFunc) (bs : list IrBlock) : IrFunc :=
  mkFunc (f_ret f) (f_variadic f) (f_param_vals f) bs (f_vals f) (f_slots f).

Definition ir_block (f : IrFunc) (b : Z) : option IrBlock :=
  if (b =? 0) || (f_nblocks f <? b) then None else f_blocks f !! Z.to_nat (b - 1).
Definition ir_value_type (vals : list IrValInfo) (v : Z) : IrType :=
  if (v =? 0) || (Z.of_nat (length vals) <? v) then IRT_VOID
  else match vals !! Z.to_nat (v - 1) with Some i => vi_type i | None => IRT_VOID end.
Definition ir_op_value (vals : list IrValInfo) (v : Z) : IrOperand :=
  mkOp IROP_VALUE (ir_value_type vals v) 0 0 v 0.

(** ** The typing rules of the opcodes, which the verifier checks *)
Definition is_terminator (o : IrOp) : bool :=
  match o with IR_RET | IR_BR | IR_CONDBR | IR_SWITCH | IR_UNREACHABLE => true | _ => false end.
Definition type_is_int (t : IrType) : bool := type_ord t <=? type_ord IRT_I64.
Definition type_is_float (t : IrType) : bool :=
  (type_ord IRT_F32 <=? type_ord t) && (type_ord t <=? type_ord IRT_F128).
Definition verify_int_width (t : IrType) : Z := Z.shiftl 8 (type_ord t).

Definition binop_types_ok (i : IrInst) (want_float : bool) : bool :=
  let t := in_type i in
  let operands := ty_eqb (o_type (op_at i 0)) t && ty_eqb (o_type (op_at i 1)) t in
  if ir_type_is_vector t then
    let legal :=
      if want_float then
        ir_type_is_vector_float t &&
        (opc_eqb (in_op i) IR_FADD || opc_eqb (in_op i) IR_FSUB || opc_eqb (in_op i) IR_FMUL ||
         opc_eqb (in_op i) IR_FDIV)
      else
        ir_type_is_vector_int t &&
        (opc_eqb (in_op i) IR_IADD || opc_eqb (in_op i) IR_ISUB || opc_eqb (in_op i) IR_AND ||
         opc_eqb (in_op i) IR_OR || opc_eqb (in_op i) IR_XOR ||
         (opc_eqb (in_op i) IR_IMUL && ty_eqb t IRT_V8I16)) in
    legal && operands
  else (if want_float then type_is_float t else type_is_int t) && operands.

(** [ret] and [variadic] are the function's. *)
Definition inst_types_ok (ret : IrType) (variadic : bool) (i : IrInst) : bool :=
  let t := in_type i in
  let t0 := o_type (op_at i 0) in let t1 := o_type (op_at i 1) in let t2 := o_type (op_at i 2) in
  let mem := match in_op i with
             | IR_ALLOCA | IR_LOAD | IR_STORE | IR_MEMCPY | IR_MEMSET => true | _ => false end in
  if mem && (13 <=? in_subop i) then false
  else
  match in_op i with
  | IR_IADD | IR_ISUB | IR_IMUL | IR_SDIV | IR_UDIV | IR_SREM | IR_UREM
  | IR_AND | IR_OR | IR_XOR | IR_SHL | IR_LSHR | IR_ASHR => binop_types_ok i false
  | IR_FADD | IR_FSUB | IR_FMUL | IR_FDIV => binop_types_ok i true
  | IR_FNEG | IR_FABS => (in_nops i =? 1) && type_is_float t && ty_eqb t0 t
  | IR_VSPLAT => ir_type_is_vector t && (in_nops i =? 1) && ty_eqb t0 (ir_vector_elem_type t)
  | IR_VEXTRACT =>
    (in_nops i =? 1) && ir_type_is_vector t0 && ty_eqb t (ir_vector_elem_type t0) &&
    (in_subop i <? ir_vector_lanes t0)
  | IR_VREDUCE_ADD | IR_VREDUCE_MUL | IR_VREDUCE_AND | IR_VREDUCE_OR | IR_VREDUCE_XOR =>
    let legal := match in_op i with
                 | IR_VREDUCE_ADD => ir_type_is_vector_int t0 || ir_type_is_vector_float t0
                 | IR_VREDUCE_MUL => ir_type_is_vector_float t0 || ty_eqb t0 IRT_V8I16
                 | _ => ir_type_is_vector_int t0
                 end in
    (in_nops i =? 1) && legal && ty_eqb t (ir_vector_elem_type t0)
  | IR_ICMP =>
    ty_eqb t IRT_I32 && ty_eqb t0 t1 && (type_is_int t0 || ty_eqb t0 IRT_PTR) && (in_subop i <=? 9)
  | IR_FCMP => ty_eqb t IRT_I32 && ty_eqb t0 t1 && type_is_float t0 && (in_subop i <=? 13)
  | IR_SEXT | IR_ZEXT =>
    type_is_int t0 && type_is_int t && (verify_int_width t0 <? verify_int_width t)
  | IR_TRUNC => type_is_int t0 && type_is_int t && (verify_int_width t <? verify_int_width t0)
  | IR_FPEXT => type_is_float t0 && type_is_float t && (type_ord t0 <? type_ord t)
  | IR_FPTRUNC => type_is_float t0 && type_is_float t && (type_ord t <? type_ord t0)
  | IR_FPTOSI | IR_FPTOUI => type_is_float t0 && type_is_int t
  | IR_SITOFP | IR_UITOFP => type_is_int t0 && type_is_float t
  | IR_BITCAST =>
    match t0, t with
    | IRT_I32, IRT_F32 | IRT_I64, IRT_F64 | IRT_F32, IRT_I32 | IRT_F64, IRT_I64
    | IRT_I64, IRT_PTR | IRT_PTR, IRT_I64 => true
    | _, _ => false
    end
  | IR_ALLOCA => ty_eqb t IRT_PTR && ty_eqb t0 IRT_I64
  | IR_LOAD => negb (ty_eqb t IRT_VOID) && ty_eqb t0 IRT_PTR
  | IR_STORE => ty_eqb t1 IRT_PTR
  | IR_PTRADD => ty_eqb t IRT_PTR && ty_eqb t0 IRT_PTR && ty_eqb t1 IRT_I64
  | IR_MEMCPY => ty_eqb t0 IRT_PTR && ty_eqb t1 IRT_PTR && ty_eqb t2 IRT_I64 && (in_subop i =? 1)
  | IR_MEMSET => ty_eqb t0 IRT_PTR && ty_eqb t1 IRT_I32 && ty_eqb t2 IRT_I64 && (in_subop i =? 1)
  | IR_SELECT => negb (ir_type_is_vector t) && ty_eqb t0 IRT_I32 && ty_eqb t1 t && ty_eqb t2 t
  | IR_VA_START => (in_nops i =? 1) && ty_eqb t0 IRT_PTR && variadic
  | IR_STACKSAVE => ty_eqb t IRT_PTR && (in_nops i =? 0)
  | IR_ATOMICRMW =>
    type_is_int t && (in_nops i =? 2) && ty_eqb t0 IRT_PTR && ty_eqb t1 t && (in_subop i <=? 5) &&
    Z.testbit (in_flags i) 1
  | IR_CMPXCHG =>
    type_is_int t && (in_nops i =? 3) && ty_eqb t0 IRT_PTR && ty_eqb t1 t && ty_eqb t2 t &&
    Z.testbit (in_flags i) 1
  | IR_STACKRESTORE => (in_nops i =? 1) && ty_eqb t0 IRT_PTR && negb (is_kind (o_kind (op_at i 0)) IROP_UNDEF)
  | IR_RET => if ty_eqb ret IRT_VOID then in_nops i =? 0 else (in_nops i =? 1) && ty_eqb t0 ret
  | IR_CONDBR => ty_eqb t0 IRT_I32
  | IR_SWITCH => type_is_int t0
  | _ => true
  end.
