(* ===== verification/Fold.v ===== *)
(** [src/opt/simplify.c], first half: constant folding of one scalar
    instruction ([opt_fold_inst]), shared by the simplifier and by sparse
    constant propagation. The floating-point half goes through the software
    floating point of [Softfp.v].

    A helper that returns [false] is [None]; [*out] is the operand. *)
From S2P Require Import Prelude.
From S2P Require Import Softfp.
From S2P Require Import Ir.
#[local] Open Scope Z_scope.

(** ** Options: [OptConfig] is only read for its fast-math bundle *)
Record OptFastMath := mkFast {
  reassoc : bool; no_nans : bool; no_infs : bool; no_signed_zeros : bool; reciprocal_math : bool;
}.
Record OptConfig := mkConfig { fast_math : OptFastMath }.

(** ** Bit patterns *)
Definition int_width (t : IrType) : Z :=
  if type_ord t <=? type_ord IRT_I64 then Z.shiftl 8 (type_ord t) else 0.
Definition width_mask (width : Z) : Z := if width =? 64 then 2 ^ 64 - 1 else (1 <<64 width) -64 1.

Definition is_int_const (op : IrOperand) : bool :=
  is_kind (o_kind op) IROP_ICONST && negb (int_width (o_type op) =? 0).

Definition iconst_bits (t : IrType) (bits : Z) : IrOperand :=
  mkOp IROP_ICONST t 0 0 (bits &64 width_mask (int_width t)) 0.

Definition operand_equal (x y : IrOperand) : bool :=
  is_kind (o_kind x) (o_kind y) && ty_eqb (o_type x) (o_type y) && (o_sym x =? o_sym y) &&
  (o_a x =? o_a y) && (o_b x =? o_b y).

(** The loop counts the shifts until the value is used up. *)
Definition power_of_two (value width : Z) : option Z :=
  let value := value &64 width_mask width in
  if (value =? 0) || negb (value &64 (value -64 1) =? 0) then None
  else Some (while 64 (fun '(v, _) => negb (v =? 0)) (fun '(v, n) => (v >>64 1, n + 1)) (value >>64 1, 0)).2.

Definition format_of (t : IrType) : option SfFormat :=
  match t with
  | IRT_F32 => Some SF_BINARY32
  | IRT_F64 => Some SF_BINARY64
  | IRT_F80 => Some SF_X87_80
  | IRT_F128 => Some SF_BINARY128
  | _ => None
  end.

Definition operand_bytes (x y : Z) : list Z :=
  map (fun i => u8 (x >>64 (Z.of_nat i * 8))) (seq 0 8) ++
  map (fun i => u8 (y >>64 (Z.of_nat i * 8))) (seq 0 8).
Definition sf_of_operand (op : IrOperand) (f : SfFormat) : Sf :=
  sf_from_bits (operand_bytes (o_a op) (o_b op)) f.

(** [lo |= bytes[i] << (i * 8)] and [hi |= bytes[i + 8] << (i * 8)]. *)
Definition or_bytes (bytes : list Z) (from : nat) : Z :=
  for_up 8 from (fun i acc => acc |64 ((bytes !!! i) <<64 ((Z.of_nat i - Z.of_nat from) * 8))) 0.
Definition operand_of_sf (t : IrType) (f : SfFormat) (value : Sf) : IrOperand :=
  let bytes := sf_to_bits value f in
  ir_op_fconst t (or_bytes bytes 0) (or_bytes bytes 8).

Definition fp_const_is_zero (op : IrOperand) : bool :=
  match format_of (o_type op) with
  | Some f => is_kind (o_kind op) IROP_FCONST && sf_is_zero (sf_of_operand op f)
  | None => false
  end.
Definition fp_const_is_one (op : IrOperand) : bool :=
  match format_of (o_type op) with
  | Some f =>
    is_kind (o_kind op) IROP_FCONST &&
    (let one := (sf_from_int 1 false f no_status).1 in
     let '(c, unordered) := sf_cmp (sf_of_operand op f) one in (c =? 0) && negb unordered)
  | None => false
  end.

(** ** Integer folds *)
Definition fold_undef (i : IrInst) : option IrOperand :=
  let x := op_at i 0 in let y := op_at i 1 in
  if negb (in_nops i =? 2) || (negb (is_kind (o_kind x) IROP_UNDEF) && negb (is_kind (o_kind y) IROP_UNDEF))
  then None
  else
    let width := int_width (in_type i) in
    if width =? 0 then None
    else
      let mask := width_mask width in
      let other := if is_kind (o_kind x) IROP_UNDEF then y else x in
      if negb (is_kind (o_kind other) IROP_ICONST) then None
      else
        match in_op i with
        | IR_AND | IR_IMUL => if o_a other &64 mask =? 0 then Some (iconst_bits (in_type i) 0) else None
        | IR_OR => if o_a other &64 mask =? mask then Some (iconst_bits (in_type i) mask) else None
        | _ => None
        end.

(** The value of a binary operation: [None] as it is undefined. *)
Definition fold_binop (o : IrOp) (width x y : Z) : option (option Z) :=
  let mask := width_mask width in
  let sx := negb (x &64 (1 <<64 (width - 1)) =? 0) in
  let sy := negb (y &64 (1 <<64 (width - 1)) =? 0) in
  match o with
  | IR_IADD => Some (Some (x +64 y))
  | IR_ISUB => Some (Some (x -64 y))
  | IR_IMUL => Some (Some (x *64 y))
  | IR_AND => Some (Some (x &64 y))
  | IR_OR => Some (Some (x |64 y))
  | IR_XOR => Some (Some (Z.lxor x y))
  | IR_SHL => Some (if width <=? y then None else Some (x <<64 y))
  | IR_LSHR => Some (if width <=? y then None else Some (x >>64 y))
  | IR_ASHR =>
    Some (if width <=? y then None
          else
            let value := x >>64 y in
            Some (if sx && negb (y =? 0) then value |64 (mask &64 ((2 ^ 64 - 1) <<64 (width - y))) else value))
  | IR_UDIV => Some (if y =? 0 then None else Some (x / y))
  | IR_UREM => Some (if y =? 0 then None else Some (x mod y))
  | IR_SDIV | IR_SREM =>
    let sgn := 1 <<64 (width - 1) in
    Some (if (y =? 0) || ((x =? sgn) && (y =? mask)) then None
          else
            let mx := if sx then (0 -64 x) &64 mask else x in
            let my := if sy then (0 -64 y) &64 mask else y in
            match o with
            | IR_SDIV => let q := mx / my in Some (if negb (Bool.eqb sx sy) then (0 -64 q) &64 mask else q)
            | _ => let q := mx mod my in Some (if sx then (0 -64 q) &64 mask else q)
            end)
  | _ => None
  end.

Definition fold_integer (i : IrInst) : option IrOperand :=
  let t := in_type i in
  let width := int_width t in
  if (width =? 0) || negb (in_nops i =? 2) || negb (is_int_const (op_at i 0)) || negb (is_int_const (op_at i 1))
  then None
  else
    let mask := width_mask width in
    let x := o_a (op_at i 0) &64 mask in
    let y := o_a (op_at i 1) &64 mask in
    match fold_binop (in_op i) width x y with
    | None => None
    | Some None => Some (ir_op_undef t)
    | Some (Some value) => Some (iconst_bits t value)
    end.

Definition fold_integer_ub (i : IrInst) : option IrOperand :=
  let t := in_type i in
  let width := int_width t in
  if (width =? 0) || negb (in_nops i =? 2) || negb (is_kind (o_kind (op_at i 1)) IROP_ICONST) then None
  else
    let count := o_a (op_at i 1) &64 width_mask (int_width (o_type (op_at i 1))) in
    match in_op i with
    | IR_SDIV | IR_UDIV | IR_SREM | IR_UREM => if count =? 0 then Some (ir_op_undef t) else None
    | IR_SHL | IR_LSHR | IR_ASHR => if width <=? count then Some (ir_op_undef t) else None
    | _ => None
    end.

Definition icmp_result (p : IrIcmp) (sx sy : bool) (x y : Z) : bool :=
  match p with
  | ICMP_EQ => x =? y
  | ICMP_NE => negb (x =? y)
  | ICMP_SLT => if negb (Bool.eqb sx sy) then sx else x <? y
  | ICMP_SLE => if negb (Bool.eqb sx sy) then sx else x <=? y
  | ICMP_SGT => if negb (Bool.eqb sx sy) then sy else y <? x
  | ICMP_SGE => if negb (Bool.eqb sx sy) then sy else y <=? x
  | ICMP_ULT => x <? y
  | ICMP_ULE => x <=? y
  | ICMP_UGT => y <? x
  | ICMP_UGE => y <=? x
  end.

Definition fold_icmp (i : IrInst) : option IrOperand :=
  if negb (opc_eqb (in_op i) IR_ICMP) || negb (in_nops i =? 2) ||
     negb (is_int_const (op_at i 0)) || negb (is_int_const (op_at i 1)) then None
  else
    let width := int_width (o_type (op_at i 0)) in
    let mask := width_mask width in
    let x := o_a (op_at i 0) &64 mask in
    let y := o_a (op_at i 1) &64 mask in
    let sx := negb (x &64 (1 <<64 (width - 1)) =? 0) in
    let sy := negb (y &64 (1 <<64 (width - 1)) =? 0) in
    match icmp_of (in_subop i) with
    | None => None
    | Some p => Some (iconst_bits IRT_I32 (if icmp_result p sx sy x y then 1 else 0))
    end.

(** ** Floating-point folds *)
Definition fast_math_bundle_enabled (cfg : option OptConfig) : bool :=
  match cfg with
  | None => false
  | Some c =>
    let m := fast_math c in
    reassoc m && no_nans m && no_infs m && no_signed_zeros m && reciprocal_math m
  end.
Definition sf_status_raised (st : SfStatus) : bool :=
  inexact st || overflow st || underflow st || invalid st.

Definition fold_fp (i : IrInst) (cfg : option OptConfig) : option IrOperand :=
  let unary := opc_eqb (in_op i) IR_FNEG || opc_eqb (in_op i) IR_FABS in
  match format_of (in_type i) with
  | None => None
  | Some f =>
    if (in_nops i <? 1) || negb (is_kind (o_kind (op_at i 0)) IROP_FCONST) ||
       (negb unary && (negb (in_nops i =? 2) || negb (is_kind (o_kind (op_at i 1)) IROP_FCONST)))
    then None
    else
      match format_of (o_type (op_at i 0)) with
      | None => None
      | Some fx =>
        let x := sf_of_operand (op_at i 0) fx in
        let y := match format_of (o_type (op_at i 1)) with
                 | Some fy => sf_of_operand (op_at i 1) fy | None => special false SF_ZERO end in
        let result :=
          match in_op i with
          | IR_FADD => Some (sf_add x y f no_status)
          | IR_FSUB => Some (sf_sub x y f no_status)
          | IR_FMUL => Some (sf_mul x y f no_status)
          | IR_FDIV => Some (sf_div x y f no_status)
          | IR_FNEG => Some (sf_neg x, no_status)
          | IR_FABS => Some (mkSf false (cls x) (exp x) (hi x) (lo x), no_status)
          | _ => None
          end in
        match result with
        | None => None
        | Some (value, status) =>
          if is_cls SF_NAN value then None
          else if negb (fast_math_bundle_enabled cfg) && sf_status_raised status then None
          else Some (operand_of_sf (in_type i) f value)
        end
      end
  end.

Definition fcmp_result (p : IrFcmp) (unordered : bool) (cmp : Z) : bool :=
  match p with
  | FCMP_OEQ => negb unordered && (cmp =? 0)
  | FCMP_ONE => negb unordered && negb (cmp =? 0)
  | FCMP_OLT => negb unordered && (cmp <? 0)
  | FCMP_OLE => negb unordered && (cmp <=? 0)
  | FCMP_OGT => negb unordered && (0 <? cmp)
  | FCMP_OGE => negb unordered && (0 <=? cmp)
  | FCMP_ORD => negb unordered
  | FCMP_UEQ => unordered || (cmp =? 0)
  | FCMP_UNE => unordered || negb (cmp =? 0)
  | FCMP_ULT => unordered || (cmp <? 0)
  | FCMP_ULE => unordered || (cmp <=? 0)
  | FCMP_UGT => unordered || (0 <? cmp)
  | FCMP_UGE => unordered || (0 <=? cmp)
  | FCMP_UNO => unordered
  end.

Definition fold_fcmp (i : IrInst) (cfg : option OptConfig) : option IrOperand :=
  if negb (opc_eqb (in_op i) IR_FCMP) || negb (in_nops i =? 2) ||
     negb (is_kind (o_kind (op_at i 0)) IROP_FCONST) || negb (is_kind (o_kind (op_at i 1)) IROP_FCONST)
  then None
  else
    match format_of (o_type (op_at i 0)), format_of (o_type (op_at i 1)) with
    | Some fx, Some fy =>
      let '(cmp, unordered) := sf_cmp (sf_of_operand (op_at i 0) fx) (sf_of_operand (op_at i 1) fy) in
      if unordered && negb (fast_math_bundle_enabled cfg) then None
      else
        match fcmp_of (in_subop i) with
        | None => None
        | Some p => Some (iconst_bits IRT_I32 (if fcmp_result p unordered cmp then 1 else 0))
        end
    | _, _ => None
    end.

Definition sign_extended (bits width : Z) : Z :=
  if negb (bits &64 (1 <<64 (width - 1)) =? 0) then bits |64 ~64 (width_mask width) else bits.

Definition fold_conversion (i : IrInst) (cfg : option OptConfig) : option IrOperand :=
  let op := op_at i 0 in
  let from := o_type op in let to := in_type i in
  let fw := int_width from in let tw := int_width to in
  let strict := negb (fast_math_bundle_enabled cfg) in
  let ints := is_kind (o_kind op) IROP_ICONST && negb (fw =? 0) && negb (tw =? 0) in
  if negb (in_nops i =? 1) then None
  else
    match in_op i with
    | IR_SEXT =>
      if negb ints then None else Some (iconst_bits to (sign_extended (o_a op &64 width_mask fw) fw))
    | IR_ZEXT | IR_TRUNC => if negb ints then None else Some (iconst_bits to (o_a op))
    | IR_FPEXT | IR_FPTRUNC =>
      match format_of from, format_of to with
      | Some ff, Some tf =>
        if negb (is_kind (o_kind op) IROP_FCONST) then None
        else
          let '(value, status) := sf_convert (sf_of_operand op ff) ff tf no_status in
          if is_cls SF_NAN value then None
          else if strict && sf_status_raised status then None
          else Some (operand_of_sf to tf value)
      | _, _ => None
      end
    | IR_FPTOSI | IR_FPTOUI =>
      match format_of from with
      | Some ff =>
        if negb (is_kind (o_kind op) IROP_FCONST) || (tw =? 0) then None
        else
          let '(bits, status) := sf_to_int (sf_of_operand op ff) tw (opc_eqb (in_op i) IR_FPTOUI) no_status in
          if strict && sf_status_raised status then None
          else Some (if invalid status then ir_op_undef to else iconst_bits to bits)
      | None => None
      end
    | IR_SITOFP | IR_UITOFP =>
      match format_of to with
      | Some tf =>
        if negb (is_kind (o_kind op) IROP_ICONST) || (fw =? 0) then None
        else
          let mask := width_mask fw in
          let bits := o_a op &64 mask in
          let negative := opc_eqb (in_op i) IR_SITOFP && negb (bits &64 (1 <<64 (fw - 1)) =? 0) in
          let bits := if negative then (0 -64 bits) &64 mask else bits in
          let '(value, status) := sf_from_int bits negative tf no_status in
          if strict && sf_status_raised status then None
          else Some (operand_of_sf to tf value)
      | None => None
      end
    | IR_BITCAST =>
      match format_of to, format_of from with
      | Some tf, _ =>
        if is_kind (o_kind op) IROP_ICONST && (fw =? total_bytes tf * 8)
        then Some (ir_op_fconst to (o_a op &64 width_mask fw) 0) else None
      | None, Some ff =>
        if is_kind (o_kind op) IROP_FCONST && (tw =? total_bytes ff * 8)
        then Some (iconst_bits to (o_a op)) else None
      | None, None => None
      end
    | _ => None
    end.

(** ** Selection and addresses *)
Definition fold_select (i : IrInst) : option IrOperand :=
  if opc_eqb (in_op i) IR_SELECT && (in_nops i =? 3) then
    if is_kind (o_kind (op_at i 0)) IROP_ICONST then
      Some (if negb (o_a (op_at i 0) =? 0) then op_at i 1 else op_at i 2)
    else if operand_equal (op_at i 1) (op_at i 2) then Some (op_at i 1)
    else None
  else None.

Definition fold_ptradd (i : IrInst) : option IrOperand :=
  let x := op_at i 0 in let y := op_at i 1 in
  if opc_eqb (in_op i) IR_PTRADD && (in_nops i =? 2) && is_kind (o_kind x) IROP_SYMBOL &&
     is_kind (o_kind y) IROP_ICONST then
    let offset_width := int_width (o_type y) in
    if offset_width =? 0 then None
    else
      let addend := sign_extended (o_a y &64 width_mask offset_width) offset_width in
      let sum := o_a x +64 addend in
      if negb (Z.lxor (o_a x) sum &64 Z.lxor addend sum &64 (1 <<64 63) =? 0) then None
      else Some (mkOp (o_kind x) (o_type x) (o_argflags x) (o_sym x) sum (o_b x))
  else None.

Definition opt_fold_inst (i : IrInst) (cfg : option OptConfig) : option IrOperand :=
  if in_result i =? 0 then None
  else
    match fold_undef i with Some o => Some o | None =>
    match fold_integer_ub i with Some o => Some o | None =>
    match fold_integer i with Some o => Some o | None =>
    match fold_icmp i with Some o => Some o | None =>
    match fold_fp i cfg with Some o => Some o | None =>
    match fold_fcmp i cfg with Some o => Some o | None =>
    match fold_conversion i cfg with Some o => Some o | None =>
    match fold_select i with Some o => Some o | None => fold_ptradd i
    end end end end end end end end.

(** ** Checks *)
Definition ic (t : IrType) (v : Z) : IrOperand := ir_op_iconst t v.
Definition scalar (o : IrOp) (t : IrType) (subop : Z) (ops : list IrOperand) : IrInst :=
  mkInst o t subop 0 1 0 ops [].

Example fold_sdiv : opt_fold_inst (scalar IR_SDIV IRT_I32 0 [ic IRT_I32 (-7); ic IRT_I32 2]) None =
  Some (ic IRT_I32 (2 ^ 32 - 3)).
Proof. reflexivity. Qed.
Example fold_half : opt_fold_inst (scalar IR_FDIV IRT_F32 0
    [ir_op_fconst IRT_F32 0x3F800000 0; ir_op_fconst IRT_F32 0x40000000 0]) None =
  Some (ir_op_fconst IRT_F32 0x3F000000 0).
Proof. vm_compute. reflexivity. Qed.
Example third_not_folded : opt_fold_inst (scalar IR_FDIV IRT_F32 0
    [ir_op_fconst IRT_F32 0x3F800000 0; ir_op_fconst IRT_F32 0x40400000 0]) None = None.
Proof. vm_compute. reflexivity. Qed.
Example fold_address : opt_fold_inst (scalar IR_PTRADD IRT_PTR 0
    [ir_op_symbol IRT_PTR 3 16; ic IRT_I64 (-4)]) None = Some (ir_op_symbol IRT_PTR 3 12).
Proof. reflexivity. Qed.
