(* ===== verification/IrSem.v ===== *)
(** The meaning of the scalar instructions, as [src/ir/ir.h] documents it: the
    specification the folding and simplifying passes are proved against.

    A value is a bit pattern. An operand denotes the set of patterns one read
    of it may observe, which is a single pattern unless the value is [undef]:
    every read of [undef] is free to observe any pattern of its type. The
    result of an undefined operation (a division by zero, a shift by the width
    or more, a conversion out of range) is [undef]. *)
From Stdlib Require Import QArith Qround Qabs.
From S2P Require Import Prelude.
From S2P Require Import Softfp.
From S2P Require Import SoftfpRound.
From S2P Require Import SoftfpArith.
From S2P Require Import SoftfpConv.
From S2P Require Import SoftfpBits.
From S2P Require Import Ir.
From S2P Require Import Fold.
#[local] Open Scope Z_scope.

Definition type_bits (t : IrType) : Z :=
  match t with
  | IRT_I8 => 8 | IRT_I16 => 16 | IRT_I32 | IRT_F32 => 32 | IRT_I64 | IRT_F64 | IRT_PTR => 64
  | IRT_F80 => 80 | IRT_VOID => 0 | _ => 128
  end.

Definition Den := Z -> Prop.
Definition any (t : IrType) : Den := fun r => 0 <= r < 2 ^ type_bits t.

(** ** Integers at width [w] *)
Definition sgn (w x : Z) : Z := if x <? 2 ^ (w - 1) then x else x - 2 ^ w.

(** [None] is an undefined result. *)
Definition int_sem (o : IrOp) (w x y : Z) : option Z :=
  let shift (v : Z) := if y <? w then Some v else None in
  let divide (v : Z) := if y =? 0 then None else Some v in
  let sdivide (v : Z) :=
    if (y =? 0) || ((sgn w x =? - 2 ^ (w - 1)) && (sgn w y =? -1)) then None else Some v in
  match o with
  | IR_IADD => Some ((x + y) mod 2 ^ w)
  | IR_ISUB => Some ((x - y) mod 2 ^ w)
  | IR_IMUL => Some ((x * y) mod 2 ^ w)
  | IR_AND => Some (Z.land x y)
  | IR_OR => Some (Z.lor x y)
  | IR_XOR => Some (Z.lxor x y)
  | IR_SHL => shift ((x * 2 ^ y) mod 2 ^ w)
  | IR_LSHR => shift (x / 2 ^ y)
  | IR_ASHR => shift ((sgn w x / 2 ^ y) mod 2 ^ w)
  | IR_UDIV => divide (x / y)
  | IR_UREM => divide (x mod y)
  | IR_SDIV => sdivide (Z.quot (sgn w x) (sgn w y) mod 2 ^ w)
  | IR_SREM => sdivide (Z.rem (sgn w x) (sgn w y) mod 2 ^ w)
  | _ => None
  end.
Definition is_int_binop (o : IrOp) : bool :=
  match o with
  | IR_IADD | IR_ISUB | IR_IMUL | IR_SDIV | IR_UDIV | IR_SREM | IR_UREM
  | IR_AND | IR_OR | IR_XOR | IR_SHL | IR_LSHR | IR_ASHR => true
  | _ => false
  end.

Definition icmp_sem (p : IrIcmp) (w x y : Z) : bool :=
  match p with
  | ICMP_EQ => x =? y
  | ICMP_NE => negb (x =? y)
  | ICMP_SLT => sgn w x <? sgn w y
  | ICMP_SLE => sgn w x <=? sgn w y
  | ICMP_SGT => sgn w y <? sgn w x
  | ICMP_SGE => sgn w y <=? sgn w x
  | ICMP_ULT => x <? y
  | ICMP_ULE => x <=? y
  | ICMP_UGT => y <? x
  | ICMP_UGE => y <=? x
  end.

(** ** Floating point: the IEEE operation on the decoded operands *)
Definition image (p : Z) : list Z := map (fun i => (p / 2 ^ (8 * Z.of_nat i)) mod 256) (seq 0 16).
Definition dec (f : SfFormat) (p : Z) : Sf := sf_from_bits (image p) f.
Definition enc (f : SfFormat) (s : Sf) : Z := le_bytes (sf_to_bits s f).

(** Ordered predicates are false on a NaN, unordered ones true. *)
Definition fcmp_sem (p : IrFcmp) (c : option comparison) : bool :=
  match p, c with
  | FCMP_ORD, Some _ | FCMP_UNO, None => true
  | FCMP_ORD, None | FCMP_UNO, Some _ => false
  | (FCMP_OEQ | FCMP_UEQ | FCMP_OLE | FCMP_ULE | FCMP_OGE | FCMP_UGE), Some Eq => true
  | (FCMP_ONE | FCMP_UNE | FCMP_OLT | FCMP_ULT | FCMP_OLE | FCMP_ULE), Some Lt => true
  | (FCMP_ONE | FCMP_UNE | FCMP_OGT | FCMP_UGT | FCMP_OGE | FCMP_UGE), Some Gt => true
  | (FCMP_UEQ | FCMP_UNE | FCMP_ULT | FCMP_ULE | FCMP_UGT | FCMP_UGE), None => true
  | _, _ => false
  end.
Definition fp_order (a b : Sf) : option comparison :=
  if is_cls SF_NAN a || is_cls SF_NAN b then None else Some (ext_compare (ext_value a) (ext_value b)).

Definition fp_binop (o : IrOp) (f : SfFormat) (a b : Sf) : option (Sf * SfStatus) :=
  match o with
  | IR_FADD => Some (ieee_add f a b no_status)
  | IR_FSUB => Some (ieee_add f a (sf_neg b) no_status)
  | IR_FMUL => Some (ieee_mul f a b no_status)
  | IR_FDIV => Some (ieee_div f a b no_status)
  | _ => None
  end.
Definition fp_of_int (v : Z) (f : SfFormat) : Sf * SfStatus :=
  if v =? 0 then (special false SF_ZERO, no_status) else round_signed f (inject_Z v) no_status.
Definition fp_resize (a : Sf) (f : SfFormat) : Sf * SfStatus :=
  match cls a with SF_NORMAL => (ieee_round f (sign a) (mag a), ieee_flags f (mag a) no_status) | _ => (a, no_status) end.

(** The floating-point unit of the target: the NaN pattern an operation returns,
    a function of its operands that nothing here looks into, and whether signed
    zeros are observed. Without them an operation whose result is a zero may
    give either. *)
Record FpTarget := mkFpTarget { nan_of : IrOp -> IrType -> list Z -> Z; signed_zeros : bool }.
Definition plain_fpu : FpTarget := mkFpTarget (fun _ _ _ => 0) true.
(** The fast-math bundle is a licence not to observe them. *)
Definition licensed (fpu : FpTarget) (cfg : option OptConfig) : Prop :=
  fast_math_bundle_enabled cfg = true -> signed_zeros fpu = false.

Section meaning.
  (** The address of a symbol, and the floating-point unit. *)
  Context (sym_addr : Z -> Z) (fpu : FpTarget).

Definition fp_result (o : IrOp) (t : IrType) (f : SfFormat) (vs : list Z) (s : Sf) : Den :=
  if is_cls SF_NAN s then eq (nan_of fpu o t vs)
  else if is_cls SF_ZERO s && negb (signed_zeros fpu) then fun r => exists sg, r = enc f (special sg SF_ZERO)
  else eq (enc f s).

(** The patterns an instruction of type [t] may give on operands of types [ts]
    and values [vs]; only the scalar value operations have a meaning here. *)
Definition result_of (i : IrInst) (vs : list Z) : Den :=
  let o := in_op i in let t := in_type i in let w := type_bits t in
  let t0 := o_type (op_at i 0) in let w0 := type_bits t0 in
  let fp := format_of t in let fp0 := format_of t0 in
  match vs with
  | [x] =>
    match o, fp0, fp with
    | IR_FNEG, _, Some _ => eq (Z.lxor x (2 ^ (w - 1)))
    | IR_FABS, _, Some _ => eq (x mod 2 ^ (w - 1))
    | IR_SEXT, _, _ => eq (sgn w0 x mod 2 ^ w)
    | IR_ZEXT, _, _ => eq x
    | IR_TRUNC, _, _ => eq (x mod 2 ^ w)
    | (IR_FPEXT | IR_FPTRUNC), Some g, Some f => fp_result o t f vs (fp_resize (dec g x) f).1
    | (IR_FPTOSI | IR_FPTOUI), Some g, _ =>
      let '(v, st) := trunc_to (dec g x) w (opc_eqb o IR_FPTOUI) no_status in
      if invalid st then any t else eq v
    | IR_SITOFP, _, Some f => eq (enc f (fp_of_int (sgn w0 x) f).1)
    | IR_UITOFP, _, Some f => eq (enc f (fp_of_int x f).1)
    | IR_BITCAST, _, _ => eq x
    | _, _, _ => fun _ => False
    end
  | [x; y] =>
    if is_int_binop o && negb (int_width t =? 0) then
      match int_sem o w x y with Some r => eq r | None => any t end
    else
      match o, fp0, fp with
      | IR_ICMP, _, _ =>
        match icmp_of (in_subop i) with Some p => eq (b2z (icmp_sem p w0 x y)) | None => fun _ => False end
      | IR_FCMP, Some g, _ =>
        match fcmp_of (in_subop i) with
        | Some p => eq (b2z (fcmp_sem p (fp_order (dec g x) (dec g y)))) | None => fun _ => False end
      | IR_PTRADD, _, _ => eq ((x + y) mod 2 ^ 64)
      | _, _, Some f =>
        match fp_binop o f (dec f x) (dec f y) with
        | Some (s, _) => fp_result o t f vs s | None => fun _ => False end
      | _, _, None => fun _ => False
      end
  | [c; x; y] => match o with IR_SELECT => eq (if c =? 0 then y else x) | _ => fun _ => False end
  | _ => fun _ => False
  end.

(** The exception flags an execution raises; a NaN operand may be a signaling
    one. *)
Definition nan_raises (a b : Sf) (st : SfStatus) : SfStatus :=
  if is_cls SF_NAN a || is_cls SF_NAN b then set_invalid st else st.
Definition raises (i : IrInst) (vs : list Z) : SfStatus :=
  let o := in_op i in let t := in_type i in let t0 := o_type (op_at i 0) in
  match vs, format_of t0, format_of t with
  | [x], Some g, Some f =>
    match o with
    | IR_FPEXT | IR_FPTRUNC => nan_raises (dec g x) (dec g x) (fp_resize (dec g x) f).2
    | _ => no_status end
  | [x], Some g, None =>
    match o with
    | IR_FPTOSI | IR_FPTOUI => (trunc_to (dec g x) (type_bits t) (opc_eqb o IR_FPTOUI) no_status).2
    | _ => no_status end
  | [x], None, Some f =>
    match o with
    | IR_SITOFP => (fp_of_int (sgn (type_bits t0) x) f).2
    | IR_UITOFP => (fp_of_int x f).2
    | _ => no_status end
  | [x; y], _, Some f =>
    match fp_binop o f (dec f x) (dec f y) with
    | Some (_, st) => nan_raises (dec f x) (dec f y) st | None => no_status end
  | [x; y], Some g, None =>
    match o with IR_FCMP => nan_raises (dec g x) (dec g y) no_status | _ => no_status end
  | _, _, _ => no_status
  end.

(** ** Operands and instructions in an environment *)
Definition Env := Z -> Den.

Definition reads (env : Env) (op : IrOperand) : Den :=
  match o_kind op with
  | IROP_VALUE => env (o_a op)
  | IROP_ICONST => eq (o_a op mod 2 ^ type_bits (o_type op))
  | IROP_FCONST => eq (pairval (o_b op) (o_a op))
  | IROP_SYMBOL => eq ((sym_addr (o_sym op) + o_a op) mod 2 ^ 64)
  | IROP_UNDEF => any (o_type op)
  | IROP_NONE => fun _ => False
  end.

Definition den (env : Env) (i : IrInst) : Den :=
  fun r => exists vs, Forall2 (reads env) (in_ops i) vs /\ result_of i vs r.

Definition refines (d' d : Den) : Prop := forall r, d' r -> d r.
Definition inhabited (d : Den) : Prop := exists r, d r.
End meaning.

(** ** Well-formed constants *)

(** An encoding the compiler produces: a NaN, or the image of the number it
    decodes to. Every pattern is one, but for the x87 unnormals and
    pseudo-denormals. *)
Definition fconst_ok (f : SfFormat) (p : Z) : Prop :=
  0 <= p < 2 ^ (8 * total_bytes f) /\
  (cls (dec f p) = SF_NAN \/ canonical f (dec f p) /\ enc f (dec f p) = p).

Definition operand_ok (op : IrOperand) : Prop :=
  match o_kind op with
  | IROP_ICONST | IROP_SYMBOL => is_u64 (o_a op)
  | IROP_FCONST =>
    is_u64 (o_a op) /\ is_u64 (o_b op) /\
    match format_of (o_type op) with Some f => fconst_ok f (pairval (o_b op) (o_a op)) | None => True end
  | _ => True
  end.
