(* ===== verification/FoldFacts.v ===== *)
(** Lemmas behind the correctness of constant folding: masks and sign bits at
    the four integer widths, the integer operations, and the byte images of
    floating-point constants. *)
From Stdlib Require Import QArith Qround Qabs Lqa.
From S2P Require Import Prelude.
From S2P Require Import Softfp.
From S2P Require Import SoftfpRound.
From S2P Require Import SoftfpArith.
From S2P Require Import SoftfpConv.
From S2P Require Import SoftfpBits.
From S2P Require Import SoftfpCanon.
From S2P Require Import Ir.
From S2P Require Import Fold.
From S2P Require Import IrSem.
#[local] Open Scope Z_scope.

(** ** Widths *)
Definition is_width (w : Z) : Prop := w = 8 \/ w = 16 \/ w = 32 \/ w = 64.

Lemma int_width_cases t : int_width t <> 0 ->
  is_width (int_width t) /\ type_bits t = int_width t /\ type_is_int t = true.
Proof. unfold is_width. destruct t; vm_compute; intros H; try done; by intuition. Qed.

Lemma int_type_width t : type_is_int t = true -> int_width t <> 0.
Proof. by destruct t. Qed.

Lemma width_pos w : is_width w -> 1 <= w <= 64 /\ 0 < 2 ^ w <= 2 ^ 64 /\ 2 ^ w = 2 * 2 ^ (w - 1) /\ 0 < 2 ^ (w - 1).
Proof. intros [->|[->|[->| ->]]]; vm_compute; intuition discriminate. Qed.

Lemma width_mask_ones w : is_width w -> width_mask w = 2 ^ w - 1.
Proof. by intros [->|[->|[->| ->]]]. Qed.

Lemma mask_mod w x : is_width w -> x &64 width_mask w = x mod 2 ^ w.
Proof. intros Hw. rewrite width_mask_ones by done. apply land_ones_mod. destruct (width_pos w Hw); lia. Qed.

Lemma mask_range w x : is_width w -> 0 <= x &64 width_mask w < 2 ^ w.
Proof. intros Hw. rewrite mask_mod by done. apply Z.mod_pos_bound. destruct (width_pos w Hw); lia. Qed.

Lemma sign_test w x : is_width w -> 0 <= x < 2 ^ w ->
  negb (x &64 (1 <<64 (w - 1)) =? 0) = (2 ^ (w - 1) <=? x).
Proof.
  intros Hw Hx. destruct (width_pos w Hw) as (W & W2 & W3 & W4).
  rewrite Z.shiftl_1_l, (u64_small (2 ^ (w - 1))) by (unfold is_u64; lia). rewrite land_pow2 by lia.
  rewrite Z.testbit_eqb by lia.
  destruct (Z.leb_spec (2 ^ (w - 1)) x).
  - replace (x / 2 ^ (w - 1)) with 1; [change (1 mod 2 =? 1) with true|].
    + apply negb_true_iff, Z.eqb_neq. lia.
    + apply Z.div_unique with (x - 2 ^ (w - 1)); lia.
  - by rewrite Z.div_small by lia.
Qed.

Lemma sgn_cases w x : is_width w -> 0 <= x < 2 ^ w ->
  sgn w x = (if 2 ^ (w - 1) <=? x then x - 2 ^ w else x) /\ - 2 ^ (w - 1) <= sgn w x < 2 ^ (w - 1).
Proof.
  intros Hw Hx. destruct (width_pos w Hw) as (W & W2 & W3 & W4). unfold sgn.
  destruct (Z.ltb_spec x (2 ^ (w - 1))), (Z.leb_spec (2 ^ (w - 1)) x); lia.
Qed.

Lemma sgn_mod w x : is_width w -> sgn w x mod 2 ^ w = x mod 2 ^ w.
Proof.
  intros Hw. destruct (width_pos w Hw) as (W & W2 & W3 & W4). unfold sgn.
  destruct (Z.ltb_spec x (2 ^ (w - 1))); [done|].
  replace (x - 2 ^ w) with (x + (-1) * 2 ^ w) by lia. by rewrite Z.mod_add by lia.
Qed.

Lemma mod64_mod w x : is_width w -> (x mod 2 ^ 64) mod 2 ^ w = x mod 2 ^ w.
Proof.
  intros Hw. destruct (width_pos w Hw) as (W & W2 & W3 & W4). apply Z.mod_mod_divide.
  exists (2 ^ (64 - w)). rewrite <- Z.pow_add_r by lia. f_equal. lia.
Qed.

(** The magnitude the signed operations work on. *)
Lemma neg_mask w x : is_width w -> (0 -64 x) &64 width_mask w = (- x) mod 2 ^ w.
Proof. intros Hw. rewrite mask_mod by done. unfold u64. by rewrite mod64_mod. Qed.

Lemma magnitude w x : is_width w -> 0 <= x < 2 ^ w ->
  (if 2 ^ (w - 1) <=? x then (- x) mod 2 ^ w else x) = Z.abs (sgn w x).
Proof.
  intros Hw Hx. destruct (width_pos w Hw) as (W & W2 & W3 & W4).
  destruct (sgn_cases w x Hw Hx) as [-> _]. destruct (Z.leb_spec (2 ^ (w - 1)) x); [|lia].
  rewrite <- (Z.mod_unique (- x) (2 ^ w) (-1) (2 ^ w - x)); lia.
Qed.

(** ** The integer operations *)
Lemma ashr_spec w x y : is_width w -> 0 <= x < 2 ^ w -> 0 <= y < w ->
  (let value := x >>64 y in
   if (2 ^ (w - 1) <=? x) && negb (y =? 0) then
     value |64 (width_mask w &64 ((2 ^ 64 - 1) <<64 (w - y))) else value) mod 2 ^ w =
  (sgn w x / 2 ^ y) mod 2 ^ w.
Proof.
  intros Hw Hx Hy. destruct (width_pos w Hw) as (W & W2 & W3 & W4). cbv zeta.
  pose proof (pow2_pos y ltac:(lia)) as Py. rewrite shiftr_div by lia.
  destruct (sgn_cases w x Hw Hx) as [-> _]. destruct (Z.leb_spec (2 ^ (w - 1)) x); cbn [andb]; [|done].
  destruct (Z.eqb_spec y 0) as [->|Ny]; cbn [negb].
  { change (2 ^ 0) with 1. rewrite !Z.div_1_r. replace (x - 2 ^ w) with (x + (-1) * 2 ^ w) by lia. by rewrite Z.mod_add by lia. }
  assert (Q : 0 <= x / 2 ^ y < 2 ^ (w - y)).
  { split; [apply Z.div_pos; lia|]. apply Z.div_lt_upper_bound; [lia|].
    rewrite <- Z.pow_add_r by lia. replace (y + (w - y)) with w by lia. lia. }
  assert (S : 2 ^ w = 2 ^ (w - y) * 2 ^ y) by (rewrite <- Z.pow_add_r by lia; f_equal; lia).
  assert (D : (x - 2 ^ w) / 2 ^ y = x / 2 ^ y - 2 ^ (w - y)).
  { rewrite S. replace (x - 2 ^ (w - y) * 2 ^ y) with (x + (- 2 ^ (w - y)) * 2 ^ y) by lia.
    rewrite Z.div_add by lia. lia. }
  assert (F : width_mask w &64 ((2 ^ 64 - 1) <<64 (w - y)) = 2 ^ w - 2 ^ (w - y)).
  { rewrite Z.land_comm, mask_mod by done. unfold u64. rewrite mod64_mod by done.
    rewrite Z.shiftl_mul_pow2 by lia. pose proof (pow2_pos (w - y) ltac:(lia)).
    replace ((2 ^ 64 - 1) * 2 ^ (w - y)) with (2 ^ w - 2 ^ (w - y) + (2 ^ (64 - y) - 1) * 2 ^ w).
    - rewrite Z.mod_add by lia. apply Z.mod_small. nia.
    - assert (E : 2 ^ 64 * 2 ^ (w - y) = 2 ^ (64 - y) * 2 ^ w) by (rewrite <- !Z.pow_add_r by lia; f_equal; lia).
      rewrite !Z.mul_sub_distr_r, E. lia. }
  rewrite F, Z.lor_comm, (lor_add_disjoint _ _ (w - y)); [| lia | done |].
  - rewrite D. replace (2 ^ w - 2 ^ (w - y) + x / 2 ^ y) with (x / 2 ^ y - 2 ^ (w - y) + 1 * 2 ^ w) by lia.
    by rewrite Z.mod_add by lia.
  - rewrite S. replace (2 ^ (w - y) * 2 ^ y - 2 ^ (w - y)) with ((2 ^ y - 1) * 2 ^ (w - y)) by lia.
    apply Z.mod_mul. pose proof (pow2_pos (w - y)). lia.
Qed.

Lemma bitop_range w x y : is_width w -> 0 <= x < 2 ^ w -> 0 <= y < 2 ^ w ->
  0 <= Z.land x y < 2 ^ w /\ 0 <= Z.lor x y < 2 ^ w /\ 0 <= Z.lxor x y < 2 ^ w.
Proof.
  intros Hw Hx Hy. destruct (width_pos w Hw) as (W & _).
  split; [apply land_bound; lia|]. split; [apply lor_bound; lia|apply lxor_bound; lia].
Qed.

(** Division on magnitudes, with the sign put back. *)
Lemma sdiv_spec w x y : is_width w -> 0 <= x < 2 ^ w -> 0 <= y < 2 ^ w -> y <> 0 ->
  let sx := 2 ^ (w - 1) <=? x in let sy := 2 ^ (w - 1) <=? y in
  let q := Z.abs (sgn w x) / Z.abs (sgn w y) in
  (if negb (Bool.eqb sx sy) then (- q) mod 2 ^ w else q) mod 2 ^ w = Z.quot (sgn w x) (sgn w y) mod 2 ^ w.
Proof.
  intros Hw Hx Hy Ny. cbv zeta. destruct (width_pos w Hw) as (W & W2 & W3 & W4).
  destruct (sgn_cases w x Hw Hx) as [Ex _]. destruct (sgn_cases w y Hw Hy) as [Ey _].
  assert (Ax : forall n, Z.quot n (sgn w y) = Z.sgn n * Z.sgn (sgn w y) * (Z.abs n / Z.abs (sgn w y))).
  { intros n. apply Z.quot_div. rewrite Ey. destruct (Z.leb_spec (2 ^ (w - 1)) y); lia. }
  rewrite Ax. set (q := Z.abs (sgn w x) / Z.abs (sgn w y)).
  assert (Zq : sgn w x = 0 -> q = 0) by (intros E; unfold q; rewrite E; reflexivity).
  assert (Sx : sgn w x <> 0 -> Z.sgn (sgn w x) = if 2 ^ (w - 1) <=? x then -1 else 1).
  { rewrite Ex. destruct (Z.leb_spec (2 ^ (w - 1)) x); intros; [apply Z.sgn_neg|apply Z.sgn_pos]; lia. }
  assert (Sy : Z.sgn (sgn w y) = if 2 ^ (w - 1) <=? y then -1 else 1).
  { rewrite Ey. destruct (Z.leb_spec (2 ^ (w - 1)) y); [apply Z.sgn_neg|apply Z.sgn_pos]; lia. }
  rewrite Sy. destruct (Z.eq_dec (sgn w x) 0) as [E0|N0].
  { rewrite (Zq E0), E0. destruct (2 ^ (w - 1) <=? x), (2 ^ (w - 1) <=? y); reflexivity. }
  rewrite (Sx N0). destruct (2 ^ (w - 1) <=? x), (2 ^ (w - 1) <=? y); cbn [Bool.eqb negb];
    rewrite ?Z.mod_mod by lia; f_equal; lia.
Qed.

Lemma srem_spec w x y : is_width w -> 0 <= x < 2 ^ w -> 0 <= y < 2 ^ w -> y <> 0 ->
  let sx := 2 ^ (w - 1) <=? x in
  let q := Z.abs (sgn w x) mod Z.abs (sgn w y) in
  (if sx then (- q) mod 2 ^ w else q) mod 2 ^ w = Z.rem (sgn w x) (sgn w y) mod 2 ^ w.
Proof.
  intros Hw Hx Hy Ny. cbv zeta. destruct (width_pos w Hw) as (W & W2 & W3 & W4).
  destruct (sgn_cases w x Hw Hx) as [Ex _]. destruct (sgn_cases w y Hw Hy) as [Ey _].
  rewrite Z.rem_mod by (rewrite Ey; destruct (Z.leb_spec (2 ^ (w - 1)) y); lia).
  set (q := Z.abs (sgn w x) mod Z.abs (sgn w y)).
  assert (Sx : sgn w x <> 0 -> Z.sgn (sgn w x) = if 2 ^ (w - 1) <=? x then -1 else 1).
  { rewrite Ex. destruct (Z.leb_spec (2 ^ (w - 1)) x); intros; [apply Z.sgn_neg|apply Z.sgn_pos]; lia. }
  destruct (Z.eq_dec (sgn w x) 0) as [E0|N0].
  { assert (q = 0) as -> by (unfold q; rewrite E0; reflexivity). rewrite E0.
    destruct (2 ^ (w - 1) <=? x); reflexivity. }
  rewrite (Sx N0). destruct (2 ^ (w - 1) <=? x); rewrite ?Z.mod_mod by lia; f_equal; lia.
Qed.

Lemma sgn_min_one w x y : is_width w -> 0 <= x < 2 ^ w -> 0 <= y < 2 ^ w ->
  (x =? 1 <<64 (w - 1)) && (y =? width_mask w) = (sgn w x =? - 2 ^ (w - 1)) && (sgn w y =? -1).
Proof.
  intros Hw Hx Hy. destruct (width_pos w Hw) as (W & W2 & W3 & W4).
  rewrite width_mask_ones, Z.shiftl_1_l, (u64_small (2 ^ (w - 1))) by (done || unfold is_u64; lia).
  destruct (sgn_cases w x Hw Hx) as [-> _]. destruct (sgn_cases w y Hw Hy) as [-> _].
  destruct (Z.leb_spec (2 ^ (w - 1)) x), (Z.leb_spec (2 ^ (w - 1)) y); lia.
Qed.

(** The whole table: the folded value, read at the width, is the operation's. *)
Lemma fold_binop_sem o w x y r : is_width w -> 0 <= x < 2 ^ w -> 0 <= y < 2 ^ w ->
  fold_binop o w x y = Some r ->
  is_int_binop o = true /\
  match r with Some v => int_sem o w x y = Some (v mod 2 ^ w) | None => int_sem o w x y = None end.
Proof.
  intros Hw Hx Hy. destruct (width_pos w Hw) as (W & W2 & W3 & W4).
  unfold fold_binop. cbv zeta. rewrite !sign_test by done.
  assert (Sh : forall v v', (y < w -> v mod 2 ^ w = v') ->
    Some (if w <=? y then None else Some v) = Some r ->
    match r with
    | Some v => (if y <? w then Some v' else None) = Some (v mod 2 ^ w)
    | None => (if y <? w then Some v' else None) = None end).
  { intros v v' Hv [= <-]. destruct (Z.leb_spec w y), (Z.ltb_spec y w); try lia; [done|]. by rewrite Hv. }
  destruct (bitop_range w x y Hw Hx Hy) as (B1 & B2 & B3).
  destruct o; try done; intros E; (split; [reflexivity|]); cbn [int_sem] in *.
  1-3: injection E as <-; unfold u64; by rewrite mod64_mod.
  1,3: destruct (Z.eqb_spec y 0) as [->|Ny]; cbn [orb] in *; [by injection E as <-|];
    rewrite <- (sgn_min_one w x y) by done;
    destruct ((x =? 1 <<64 (w - 1)) && (y =? width_mask w)); [by injection E as <-|];
    injection E as <-; rewrite !neg_mask, !magnitude by done;
    f_equal; symmetry; first [by apply sdiv_spec | by apply srem_spec].
  1,2: destruct (Z.eqb_spec y 0); injection E as <-; [done|]; f_equal; symmetry; apply Z.mod_small.
  - split; [apply Z.div_pos; lia|]. apply Z.div_lt_upper_bound; nia.
  - pose proof (Z.mod_pos_bound x y). lia.
  - injection E as <-. by rewrite Z.mod_small.
  - injection E as <-. by rewrite Z.mod_small.
  - injection E as <-. by rewrite Z.mod_small.
  - revert E. apply Sh. intros L. unfold u64. by rewrite Z.shiftl_mul_pow2, mod64_mod by (done || lia).
  - revert E. apply Sh. intros L. rewrite shiftr_div by lia. apply Z.mod_small.
    pose proof (pow2_pos y ltac:(lia)). split; [apply Z.div_pos; lia|]. apply Z.div_lt_upper_bound; nia.
  - revert E. apply Sh. intros L. apply ashr_spec; (done || lia).
Qed.

Lemma icmp_result_sem p w x y : is_width w -> 0 <= x < 2 ^ w -> 0 <= y < 2 ^ w ->
  icmp_result p (2 ^ (w - 1) <=? x) (2 ^ (w - 1) <=? y) x y = icmp_sem p w x y.
Proof.
  intros Hw Hx Hy. destruct (width_pos w Hw) as (W & W2 & W3 & W4).
  destruct (sgn_cases w x Hw Hx) as [Ex _]. destruct (sgn_cases w y Hw Hy) as [Ey _].
  destruct p; cbn [icmp_result icmp_sem]; rewrite ?Ex, ?Ey; try done;
    destruct (Z.leb_spec (2 ^ (w - 1)) x), (Z.leb_spec (2 ^ (w - 1)) y); cbn [Bool.eqb negb]; lia.
Qed.

(** ** Constants *)
Lemma iconst_bits_reads sym_addr env t v : int_width t <> 0 ->
  reads sym_addr env (iconst_bits t v) = eq (v mod 2 ^ type_bits t).
Proof.
  intros Ht. destruct (int_width_cases t Ht) as (Hw & -> & _). unfold reads, iconst_bits.
  cbn [o_kind o_a o_type]. destruct (width_pos _ Hw) as (_ & ? & _).
  destruct (int_width_cases t Ht) as (_ & -> & _). by rewrite mask_mod, Z.mod_mod by (done || lia).
Qed.

Lemma iconst_bits_ok t v : int_width t <> 0 -> operand_ok (iconst_bits t v).
Proof.
  intros Ht. destruct (int_width_cases t Ht) as (Hw & _). destruct (width_pos _ Hw) as (_ & ? & _).
  unfold operand_ok. cbn [iconst_bits o_kind o_a]. pose proof (mask_range _ v Hw). unfold is_u64. lia.
Qed.

Lemma iconst_reads sym_addr env op r : is_kind (o_kind op) IROP_ICONST = true -> int_width (o_type op) <> 0 ->
  reads sym_addr env op r ->
  r = o_a op &64 width_mask (int_width (o_type op)) /\ 0 <= r < 2 ^ type_bits (o_type op).
Proof.
  unfold is_kind. intros K Ht. apply bool_decide_eq_true in K. unfold reads. rewrite K. intros <-.
  destruct (int_width_cases _ Ht) as (Hw & E & _). rewrite E, mask_mod by done.
  destruct (width_pos _ Hw) as (_ & ? & _). split; [done|]. apply Z.mod_pos_bound. lia.
Qed.

Lemma reads_kind k op : is_kind (o_kind op) k = true -> o_kind op = k.
Proof. unfold is_kind. by intros ?%bool_decide_eq_true. Qed.

(** ** Byte images *)
Lemma image_ok_image p : image_ok (image p).
Proof.
  split; [done|]. intros i Hi. unfold image.
  rewrite (list_lookup_total_correct _ _ ((p / 2 ^ (8 * Z.of_nat i)) mod 256)).
  - apply Z.mod_pos_bound. done.
  - rewrite list_lookup_fmap, lookup_seq_lt by done. done.
Qed.

Lemma image_value p : 0 <= p < 2 ^ 128 -> le_bytes (image p) = p.
Proof.
  intros Hp. apply le_bytes_eq; [apply image_ok_image|done|]. intros n Hn. unfold bbit, image.
  rewrite (list_lookup_total_correct _ _ ((p / 2 ^ (8 * (n / 8))) mod 256)).
  - change 256 with (2 ^ 8). rewrite Z.mod_pow2_bits_low by (apply Z.mod_pos_bound; lia).
    pose proof (Z.mod_pos_bound n 8 ltac:(lia)).
    rewrite Z.div_pow2_bits by (Z.div_mod_to_equations; lia). f_equal. Z.div_mod_to_equations; lia.
  - pose proof (Z.div_pos n 8 ltac:(lia) ltac:(lia)).
    rewrite list_lookup_fmap, lookup_seq_lt by (Z.div_mod_to_equations; lia). cbn [fmap option_fmap option_map].
    by rewrite Nat.add_0_l, Z2Nat.id.
Qed.

Lemma image_of_bytes bs : image_ok bs -> image (le_bytes bs) = bs.
Proof.
  intros Hb. apply le_bytes_inj; [apply image_ok_image|done|]. apply image_value.
  pose proof (le_bytes_range bs (image_bytes_ok bs Hb)) as R. by rewrite (proj1 Hb) in R.
Qed.

Lemma operand_bytes_image a b : is_u64 a -> is_u64 b -> operand_bytes a b = image (pairval b a).
Proof.
  intros Ha Hb. unfold operand_bytes, image. change (seq 0 16) with (seq 0 8 ++ map (Nat.add 8) (seq 0 8)).
  rewrite map_app, map_map. f_equal; apply map_ext_in; intros i Hi%in_seq; unfold u8; change (2 ^ 8) with 256.
  - rewrite shiftr_div by lia. replace (Z.of_nat i * 8) with (8 * Z.of_nat i) by lia. unfold pairval.
    replace (b * 2 ^ 64) with (b * 2 ^ (64 - 8 * Z.of_nat i) * 2 ^ (8 * Z.of_nat i)).
    + pose proof (pow2_pos (8 * Z.of_nat i) ltac:(lia)). rewrite Z.div_add_l by lia.
      replace (64 - 8 * Z.of_nat i) with (8 + (56 - 8 * Z.of_nat i)) by lia.
      rewrite (Z.pow_add_r 2 8) by lia. change (2 ^ 8) with 256.
      replace (b * (256 * 2 ^ (56 - 8 * Z.of_nat i)) + a / 2 ^ (8 * Z.of_nat i))
        with (a / 2 ^ (8 * Z.of_nat i) + (b * 2 ^ (56 - 8 * Z.of_nat i)) * 256) by ring.
      by rewrite Z.mod_add by lia.
    + rewrite <- Z.mul_assoc, <- Z.pow_add_r by lia. f_equal. f_equal. lia.
  - rewrite shiftr_div by lia. f_equal.
    replace (8 * Z.of_nat (8 + i)) with (64 + Z.of_nat i * 8) by lia.
    rewrite Z.pow_add_r, <- Z.div_div by (apply pow2_pos; lia) || lia. by rewrite pairval_div.
Qed.

Lemma or_bytes_value bs : image_ok bs ->
  is_u64 (or_bytes bs 0) /\ is_u64 (or_bytes bs 8) /\ pairval (or_bytes bs 8) (or_bytes bs 0) = le_bytes bs.
Proof.
  intros Hb. destruct (read_loop bs 8 0 Hb ltac:(lia) ltac:(lia)) as [L0 B0].
  destruct (read_loop bs 8 8 Hb ltac:(lia) ltac:(lia)) as [L1 B1].
  fold (or_bytes bs 0) in L0, B0. fold (or_bytes bs 8) in L1, B1.
  split; [done|]. split; [done|]. symmetry. pose proof (pairval_range _ _ L1 L0).
  apply le_bytes_eq; [done|done|]. intros n Hn.
  replace (pairval (or_bytes bs 8) (or_bytes bs 0)) with (or_bytes bs 0 + 2 ^ 64 * or_bytes bs 8)
    by (unfold pairval; lia).
  rewrite testbit_append by (unfold is_u64 in *; lia). destruct (Z.ltb_spec n 64).
  - rewrite B0 by lia. change (8 * Z.of_nat 8) with 64. rewrite (proj2 (Z.ltb_lt n 64)) by done.
    cbn [andb]. f_equal. lia.
  - rewrite B1 by lia. change (8 * Z.of_nat 8) with 64. rewrite (proj2 (Z.ltb_lt (n - 64) 64)) by lia.
    cbn [andb]. f_equal. lia.
Qed.

(** ** Floating-point constants *)
Lemma format_layout t f : format_of t = Some f -> wf_layout f /\ wf_format f /\ type_bits t = 8 * total_bytes f /\
  exp_bits f + frac_bits f + 1 = type_bits t /\ int_width t = 0.
Proof.
  destruct t; try done; intros [= <-]; (split; [|split; [apply layout_wf|]]);
    try first [exact layout_binary32 | exact layout_binary64 | exact layout_x87_80 | exact layout_binary128];
    by vm_compute.
Qed.

Lemma enc_image f s : wf_layout f -> canonical f s -> image_ok (sf_to_bits s f).
Proof.
  intros Hf Hc. pose proof (fields_fit f Hf s Hc) as F. destruct (fields_of s f) as [[h l] b] eqn:E.
  destruct F as (? & ? & ? & ?). by destruct (to_bits_packed f Hf s h l b).
Qed.

Lemma dec_enc f s : wf_layout f -> canonical f s -> dec f (enc f s) = s.
Proof.
  intros Hf Hc. unfold dec, enc. rewrite image_of_bytes by (by apply enc_image). by apply bits_roundtrip.
Qed.

Lemma sf_of_operand_dec op f : operand_ok op -> is_kind (o_kind op) IROP_FCONST = true ->
  sf_of_operand op f = dec f (pairval (o_b op) (o_a op)).
Proof.
  intros Ho K%reads_kind. unfold operand_ok in Ho. rewrite K in Ho. destruct Ho as (Ha & Hb & _).
  unfold sf_of_operand, dec. by rewrite operand_bytes_image.
Qed.

Lemma fconst_operand f op : operand_ok op -> is_kind (o_kind op) IROP_FCONST = true ->
  format_of (o_type op) = Some f ->
  let x := dec f (pairval (o_b op) (o_a op)) in
  sf_of_operand op f = x /\ wf_opnd x /\
  (cls x <> SF_NAN -> canonical f x /\ enc f x = pairval (o_b op) (o_a op)).
Proof.
  intros Ho K Hf x. split; [by apply sf_of_operand_dec|].
  apply reads_kind in K. unfold operand_ok in Ho. rewrite K, Hf in Ho. destruct Ho as (_ & _ & _ & Hc).
  destruct (format_layout _ f Hf) as (_ & (Hp & _) & _).
  fold x in Hc.
  split.
  - intros Cx. destruct Hc as [Hc|[Hc _]]; [congruence|]. unfold canonical in Hc. rewrite Cx in Hc.
    destruct Hc as (H1 & H2 & H3 & _). split; [done|]. split; [done|].
    pose proof (pow2_le (prec_of f) 113 ltac:(lia)). lia.
  - intros Nx. by destruct Hc.
Qed.

(** The sign is the top bit of the image. *)
Lemma enc_sign f s s' : wf_layout f -> canonical f s ->
  let p := enc f s in let q := enc f (mkSf s' (cls s) (exp s) (hi s) (lo s)) in
  0 <= p < 2 ^ (exp_bits f + frac_bits f + 1) /\
  q = p mod 2 ^ (exp_bits f + frac_bits f) + b2z s' * 2 ^ (exp_bits f + frac_bits f) /\
  p / 2 ^ (exp_bits f + frac_bits f) = b2z (sign s).
Proof.
  intros Hf Hc p q. pose proof (fields_fit f Hf s Hc) as F. destruct (fields_of s f) as [[h l] b] eqn:E.
  destruct F as (Hh & Hl & Hv & Hb).
  destruct (to_bits_packed f Hf s h l b E Hh Hl Hv Hb) as [_ Ep].
  assert (E' : fields_of (mkSf s' (cls s) (exp s) (hi s) (lo s)) f = (h, l, b)).
  { rewrite <- E. unfold fields_of, normal_fields. cbn [cls exp hi lo]. done. }
  destruct (to_bits_packed f Hf _ h l b E' Hh Hl Hv Hb) as [_ Eq]. cbn [sign] in Eq.
  unfold p, q, enc. rewrite Ep, Eq. unfold packed. destruct Hf as (_ & _ & ? & ? & _).
  pose proof (pow2_pos (frac_bits f) ltac:(lia)). pose proof (pow2_pos (exp_bits f) ltac:(lia)).
  pose proof (pairval_range h l Hh Hl).
  rewrite !Z.pow_add_r by lia. change (2 ^ 1) with 2.
  set (v := pairval h l) in *. set (A := 2 ^ frac_bits f) in *. set (B := 2 ^ exp_bits f) in *.
  assert (R : 0 <= v + A * b < B * A) by nia.
  replace (v + A * (b + B * b2z (sign s))) with (v + A * b + b2z (sign s) * (B * A)) by ring.
  replace (v + A * (b + B * b2z s')) with (v + A * b + b2z s' * (B * A)) by ring.
  split; [destruct (sign s); cbn [b2z]; nia|].
  rewrite Z.mod_add, Z.div_add, Z.mod_small, Z.div_small by nia. done.
Qed.

Lemma enc_neg f s w : wf_layout f -> canonical f s -> w = exp_bits f + frac_bits f + 1 ->
  enc f (sf_neg s) = Z.lxor (enc f s) (2 ^ (w - 1)).
Proof.
  intros Hf Hc ->. unfold sf_neg. replace (exp_bits f + frac_bits f + 1 - 1) with (exp_bits f + frac_bits f) by lia.
  destruct (enc_sign f s (negb (sign s)) Hf Hc) as (Hp & -> & Hd).
  set (n := exp_bits f + frac_bits f) in *. set (p := enc f s) in *.
  assert (Hn : 0 <= n) by (destruct Hf as (_ & _ & ? & ? & _); lia). pose proof (pow2_pos n Hn).
  pose proof (Z.mod_pos_bound p (2 ^ n) ltac:(lia)) as M.
  pose proof (Z.div_mod p (2 ^ n) ltac:(lia)) as D. rewrite Hd in D.
  apply Z.bits_inj'. intros i Hi. rewrite Z.lxor_spec.
  replace p with (p mod 2 ^ n + 2 ^ n * b2z (sign s)) at 2 by lia.
  replace (p mod 2 ^ n + b2z (negb (sign s)) * 2 ^ n) with (p mod 2 ^ n + 2 ^ n * b2z (negb (sign s))) by lia.
  rewrite !testbit_append by lia. destruct (Z.ltb_spec i n).
  - rewrite Z.pow2_bits_false by lia. by rewrite xorb_false_r.
  - destruct (Z.eq_dec i n) as [->|].
    + rewrite Z.pow2_bits_true, Z.sub_diag by lia. by destruct (sign s).
    + rewrite Z.pow2_bits_false by lia. rewrite !(testbit_high 1); [done|..]; destruct (sign s); cbn [negb b2z]; lia.
Qed.

Lemma enc_abs f s w : wf_layout f -> canonical f s -> w = exp_bits f + frac_bits f + 1 ->
  enc f (mkSf false (cls s) (exp s) (hi s) (lo s)) = enc f s mod 2 ^ (w - 1).
Proof.
  intros Hf Hc ->. replace (exp_bits f + frac_bits f + 1 - 1) with (exp_bits f + frac_bits f) by lia.
  destruct (enc_sign f s false Hf Hc) as (_ & -> & _). cbn [b2z]. lia.
Qed.

Lemma operand_of_sf_reads sym_addr env t f s : format_of t = Some f -> canonical f s ->
  reads sym_addr env (operand_of_sf t f s) = eq (enc f s) /\ operand_ok (operand_of_sf t f s).
Proof.
  intros Hf Hc. destruct (format_layout t f Hf) as (Hl & _).
  destruct (or_bytes_value (sf_to_bits s f) (enc_image f s Hl Hc)) as (L0 & L1 & E).
  unfold operand_of_sf, reads, operand_ok. cbn [o_kind o_a o_b o_type ir_op_fconst]. rewrite E, Hf.
  split; [done|]. split; [done|]. split; [done|]. fold (enc f s). split; [|right; by rewrite dec_enc].
  destruct (enc_sign f s false Hl Hc) as (R & _). destruct Hl as (E' & _). by rewrite <- E', Z.add_comm, (Z.add_comm (frac_bits f)), Z.add_comm.
Qed.

(** Without an explicit integer bit every pattern is an encoding. *)
Lemma fconst_ok_ieee f p : wf_layout f -> explicit_intbit f = false -> 0 <= p < 2 ^ (8 * total_bytes f) ->
  fconst_ok f p.
Proof.
  intros Hf Ex Hp. split; [done|]. pose proof Hf as (E & Ht & Hfb & Heb & _).
  pose proof (pow2_le (8 * total_bytes f) 128 ltac:(lia)).
  pose proof (image_ok_image p) as Ok. pose proof (image_value p ltac:(lia)) as V.
  set (frac := p mod 2 ^ frac_bits f). set (biased := (p / 2 ^ frac_bits f) mod 2 ^ exp_bits f).
  set (sg := Z.testbit p (frac_bits f + exp_bits f)).
  pose proof (Z.mod_pos_bound p (2 ^ frac_bits f) ltac:(apply pow2_pos; lia)) as Rf.
  pose proof (Z.mod_pos_bound (p / 2 ^ frac_bits f) (2 ^ exp_bits f) ltac:(apply pow2_pos; lia)) as Rb.
  fold frac in Rf. fold biased in Rb.
  destruct (decide (biased = 2 ^ exp_bits f - 1 /\ frac <> 0)) as [[Eb Nf]|N].
  - left. unfold dec. rewrite (from_bits_packed f Hf _ Ok), V. fold frac biased sg.
    destruct (split128 frac) as [h l] eqn:Es.
    pose proof (pow2_le (frac_bits f) 112 ltac:(lia)).
    apply split128_inv in Es as (Hh & Hl & Ev); [|lia]. unfold decode.
    rewrite Eb, Z.shiftl_1_l, Z.eqb_refl, Ex, lor_zero, Ev by done. by destruct (Z.eqb_spec frac 0).
  - right. destruct (image_roundtrip f Hf (image p) frac biased sg) as [Hc R]; try done.
    + rewrite V. unfold packed. assert (B : p / 2 ^ frac_bits f = biased + 2 ^ exp_bits f * b2z sg).
      { unfold biased. rewrite (Z.div_mod (p / 2 ^ frac_bits f) (2 ^ exp_bits f)) at 1 by (pose proof (pow2_pos (exp_bits f)); lia).
        rewrite Z.add_comm. f_equal. f_equal. pose proof (pow2_pos (frac_bits f) ltac:(lia)).
        pose proof (pow2_pos (exp_bits f) ltac:(lia)).
        rewrite Z.div_div, <- Z.pow_add_r by lia. unfold sg. rewrite Z.testbit_eqb by lia.
        assert (0 <= p / 2 ^ (frac_bits f + exp_bits f) < 2).
        { split; [apply Z.div_pos; lia|]. apply Z.div_lt_upper_bound; [apply pow2_pos; lia|].
          replace (2 ^ (frac_bits f + exp_bits f) * 2) with (2 ^ (8 * total_bytes f)); [lia|].
          rewrite <- E, Z.pow_add_r by lia. lia. }
        rewrite Z.mod_small by lia. destruct (Z.eqb_spec (p / 2 ^ (frac_bits f + exp_bits f)) 1); cbn [b2z]; lia. }
      rewrite <- B. unfold frac. rewrite Z.add_comm. apply Z.div_mod. pose proof (pow2_pos (frac_bits f)). lia.
    + unfold valid_fields. rewrite Ex. destruct (Z.eq_dec biased (2 ^ exp_bits f - 1)) as [Eb|Nb].
      * right. split; [done|]. destruct (Z.eq_dec frac 0); [done|]. exfalso. by apply N.
      * left. split; [lia|done].
    + split; [exact Hc|]. unfold enc, dec. by rewrite R.
Qed.

Lemma sign_extended_mod w x : is_width w -> 0 <= x < 2 ^ w -> sign_extended x w mod 2 ^ 64 = sgn w x mod 2 ^ 64.
Proof.
  intros Hw Hx. destruct (width_pos w Hw) as (W & W2 & W3 & W4). unfold sign_extended.
  rewrite sign_test by done. destruct (sgn_cases w x Hw Hx) as [-> _].
  destruct (Z.leb_spec (2 ^ (w - 1)) x); [|done].
  rewrite width_mask_ones, lnot_u64 by (done || unfold is_u64; lia).
  replace (2 ^ 64 - 1 - (2 ^ w - 1)) with (2 ^ 64 - 2 ^ w) by lia.
  rewrite Z.lor_comm, (lor_add_disjoint _ _ w); [|lia|done|].
  - replace (2 ^ 64 - 2 ^ w + x) with (x - 2 ^ w + 1 * 2 ^ 64) by lia. by rewrite Z.mod_add.
  - assert (E : 2 ^ 64 = 2 ^ (64 - w) * 2 ^ w) by (rewrite <- Z.pow_add_r by lia; f_equal; lia).
    rewrite E. replace (2 ^ (64 - w) * 2 ^ w - 2 ^ w) with ((2 ^ (64 - w) - 1) * 2 ^ w) by ring.
    apply Z.mod_mul. lia.
Qed.
