(* ===== verification/FoldCorrect.v ===== *)
(** Constant folding is correct: every operand [opt_fold_inst] returns denotes
    only values the instruction may give. *)
From Stdlib Require Import QArith Qround Qabs Lqa.
From S2P Require Import Prelude.
From S2P Require Import Softfp.
From S2P Require Import SoftfpRound.
From S2P Require Import SoftfpArith.
From S2P Require Import SoftfpConv.
From S2P Require Import SoftfpBits.
From S2P Require Import SoftfpCanon.
From S2P Require Import Ir.
From S2P Require Import Fold.
From S2P Require Import IrSem.
From S2P Require Import FoldFacts.
#[local] Open Scope Z_scope.

Ltac bool_cases :=
  repeat match goal with
  | H : _ || _ = false |- _ => apply orb_false_iff in H; destruct H
  | H : _ && _ = true |- _ => apply andb_true_iff in H; destruct H
  | H : negb _ = false |- _ => apply negb_false_iff in H
  | H : negb _ = true |- _ => apply negb_true_iff in H
  | H : opc_eqb _ _ = true |- _ => apply bool_decide_eq_true in H
  | H : ty_eqb _ _ = true |- _ => apply bool_decide_eq_true in H
  | H : (_ =? _) = true |- _ => apply Z.eqb_eq in H
  | H : (_ =? _) = false |- _ => apply Z.eqb_neq in H
  end.

Lemma ops_1 i : in_nops i = 1 -> in_ops i = [op_at i 0].
Proof. unfold in_nops, op_at. destruct (in_ops i) as [|a [|b l]]; simpl; intros; (done || lia). Qed.
Lemma ops_2 i : in_nops i = 2 -> in_ops i = [op_at i 0; op_at i 1].
Proof. unfold in_nops, op_at. destruct (in_ops i) as [|a [|b [|c l]]]; simpl; intros; (done || lia). Qed.
Lemma ops_3 i : in_nops i = 3 -> in_ops i = [op_at i 0; op_at i 1; op_at i 2].
Proof. unfold in_nops, op_at. destruct (in_ops i) as [|a [|b [|c [|d l]]]]; simpl; intros; (done || lia). Qed.

Lemma type_is_int_format t : type_is_int t = true -> format_of t = None.
Proof. by destruct t. Qed.
Lemma type_is_float_format t : type_is_float t = true -> exists f, format_of t = Some f.
Proof. destruct t; try done; by eexists. Qed.

Lemma no_flags st : sf_status_raised st = false -> st = no_status.
Proof. destruct st as [[] [] [] []]; done. Qed.

Section fold.
  Context (sym_addr : Z -> Z) (fpu : FpTarget) (env : Env).
  #[local] Notation "'rd'" := (reads sym_addr env).
  #[local] Notation "'dn'" := (den sym_addr fpu env).

(** What a returned operand must satisfy. *)
Definition folds_to (i : IrInst) (strict : bool) (out : IrOperand) : Prop :=
  operand_ok out /\ o_type out = in_type i /\ refines (rd out) (dn i) /\
  (strict = true -> forall vs, Forall2 rd (in_ops i) vs -> raises i vs = no_status).

(** An instruction the verifier accepts, on well-formed operands that have a
    value; a constant that is zero-extended or selected on has no bits above
    its own width. *)
Record foldable (ret : IrType) (variadic : bool) (i : IrInst) : Prop := {
  fb_types : inst_types_ok ret variadic i = true;
  fb_ops : Forall operand_ok (in_ops i);
  fb_values : Forall (fun op => inhabited (rd op)) (in_ops i);
  fb_narrow : in_op i = IR_ZEXT \/ in_op i = IR_SELECT -> o_kind (op_at i 0) = IROP_ICONST ->
              o_a (op_at i 0) < 2 ^ type_bits (o_type (op_at i 0));
}.

Section one.
  Context (ret : IrType) (variadic : bool) (i : IrInst) (F : foldable ret variadic i).

Lemma den_1 x r : in_ops i = [op_at i 0] -> rd (op_at i 0) x -> result_of fpu i [x] r -> dn i r.
Proof. intros E H R. exists [x]. split; [rewrite E; by constructor|done]. Qed.
Lemma den_2 x y r : in_ops i = [op_at i 0; op_at i 1] -> rd (op_at i 0) x -> rd (op_at i 1) y ->
  result_of fpu i [x; y] r -> dn i r.
Proof. intros E H H' R. exists [x; y]. split; [rewrite E; by repeat constructor|done]. Qed.

Lemma reads_1 vs : in_ops i = [op_at i 0] -> Forall2 rd (in_ops i) vs -> exists x, vs = [x] /\ rd (op_at i 0) x.
Proof.
  intros E H. rewrite E in H. inversion H as [|? x ? ? Hx T]; subst. inversion T; subst. by exists x.
Qed.
Lemma reads_2 vs : in_ops i = [op_at i 0; op_at i 1] -> Forall2 rd (in_ops i) vs ->
  exists x y, vs = [x; y] /\ rd (op_at i 0) x /\ rd (op_at i 1) y.
Proof.
  intros E H. rewrite E in H. inversion H as [|? x ? ? Hx T]; subst. inversion T as [|? y ? ? Hy T']; subst.
  inversion T'; subst. by exists x, y.
Qed.

Lemma op_ok n : (n < length (in_ops i))%nat -> operand_ok (op_at i n) /\ inhabited (rd (op_at i n)).
Proof using F.
  intros H. unfold op_at. destruct (lookup_lt_is_Some_2 (in_ops i) n H) as [op E]. rewrite E. cbn [default].
  split; [exact (proj1 (Forall_lookup _ _) (fb_ops _ _ _ F) _ _ E)|exact (proj1 (Forall_lookup _ _) (fb_values _ _ _ F) _ _ E)].
Qed.

(** Integer binary operations: one type throughout. *)
Lemma int_binop_types : is_int_binop (in_op i) = true -> int_width (in_type i) <> 0 ->
  o_type (op_at i 0) = in_type i /\ o_type (op_at i 1) = in_type i.
Proof using F.
  intros Ho Hw. pose proof (fb_types _ _ _ F) as T. destruct (int_width_cases _ Hw) as (_ & _ & Ti).
  assert (V : ir_type_is_vector (in_type i) = false) by (by destruct (in_type i)).
  unfold inst_types_ok in T. cbv zeta in T.
  destruct (in_op i); try done; cbn [andb] in T; unfold binop_types_ok in T; rewrite V in T; by bool_cases.
Qed.

Lemma int_result x y : is_int_binop (in_op i) = true -> int_width (in_type i) <> 0 ->
  result_of fpu i [x; y] =
  match int_sem (in_op i) (type_bits (in_type i)) x y with Some r => eq r | None => any (in_type i) end.
Proof.
  intros Ho Hw. unfold result_of. by rewrite Ho, (proj2 (Z.eqb_neq _ _) Hw).
Qed.

Lemma int_raises vs : type_is_int (in_type i) = true -> type_is_int (o_type (op_at i 0)) = true ->
  raises i vs = no_status.
Proof.
  intros H H0. unfold raises. rewrite (type_is_int_format _ H), (type_is_int_format _ H0).
  by destruct vs as [|? [|? [|? ?]]].
Qed.

Lemma int_fold out strict : is_int_binop (in_op i) = true -> int_width (in_type i) <> 0 -> in_nops i = 2 ->
  operand_ok out -> o_type out = in_type i ->
  (forall r, rd out r -> exists x y, rd (op_at i 0) x /\ rd (op_at i 1) y /\
     match int_sem (in_op i) (type_bits (in_type i)) x y with Some v => r = v | None => any (in_type i) r end) ->
  folds_to i strict out.
Proof using F.
  intros Ho Hw Hn Ok Ty H. split; [done|]. split; [done|]. split.
  - intros r Hr. destruct (H r Hr) as (x & y & Hx & Hy & R). apply (den_2 x y); [by apply ops_2|done|done|].
    rewrite int_result by done. destruct (int_sem _ _ x y); [by rewrite R|done].
  - intros _ vs _. destruct (int_width_cases _ Hw) as (_ & _ & Ti). apply int_raises; [done|].
    by destruct (int_binop_types Ho Hw) as [-> _].
Qed.

Lemma fold_undef_ok out strict : fold_undef i = Some out -> folds_to i strict out.
Proof using F.
  unfold fold_undef. cbv zeta. destruct (negb (in_nops i =? 2) || _) eqn:E; [done|]. bool_cases.
  destruct (Z.eqb_spec (int_width (in_type i)) 0) as [|Hw]; [done|].
  destruct (int_width_cases _ Hw) as (W & Wb & Ti). destruct (width_pos _ W) as (_ & P & _).
  set (mask := width_mask (int_width (in_type i))).
  set (undef0 := is_kind (o_kind (op_at i 0)) IROP_UNDEF) in *.
  set (other := if undef0 then op_at i 1 else op_at i 0).
  destruct (is_kind (o_kind other) IROP_ICONST) eqn:Ko; [cbn [negb]|done].
  assert (L : length (in_ops i) = 2%nat) by (unfold in_nops in *; lia).
  destruct (op_ok 0 ltac:(lia)) as [_ [x Hx]]. destruct (op_ok 1 ltac:(lia)) as [_ [y Hy]].
  (* the constant operand reads its masked bits, whatever the other one does *)
  assert (C : is_int_binop (in_op i) = true -> forall k, o_a other &64 mask = k ->
    exists x y, rd (op_at i 0) x /\ rd (op_at i 1) y /\ (if undef0 then y else x) = k /\ 0 <= x < 2 ^ type_bits (in_type i) /\
      0 <= y < 2 ^ type_bits (in_type i)).
  { intros Ho k Hk. destruct (int_binop_types Ho Hw) as [T0 T1].
    exists x, y. split; [done|]. split; [done|]. unfold other in *.
    assert (U : forall op z, is_kind (o_kind op) IROP_UNDEF = true -> o_type op = in_type i -> rd op z ->
      0 <= z < 2 ^ type_bits (in_type i)).
    { intros op z K Et. unfold reads. rewrite (reads_kind _ _ K). by rewrite <- Et. }
    destruct undef0 eqn:E0.
    - destruct (iconst_reads sym_addr env (op_at i 1) y Ko ltac:(by rewrite T1) Hy) as [Ey Ry]. rewrite T1 in *.
      split; [by rewrite <- Hk, Ey|]. split; [by apply (U (op_at i 0))|done].
    - match goal with H : negb false && _ = false |- _ => cbn [negb andb] in H; apply negb_false_iff in H; rename H into E1 end.
      destruct (iconst_reads sym_addr env (op_at i 0) x Ko ltac:(by rewrite T0) Hx) as [Ex Rx]. rewrite T0 in *.
      split; [by rewrite <- Hk, Ex|]. split; [done|by apply (U (op_at i 1))]. }
  destruct (in_op i) eqn:Op; try done; (destruct (_ =? _) eqn:Ek; [|done]); apply Z.eqb_eq in Ek; intros [= <-].
  all: apply int_fold; try (by rewrite Op); [done|done|by apply iconst_bits_ok|done|]; rewrite iconst_bits_reads by done.
  all: intros r <-; destruct (C eq_refl _ Ek) as (x' & y' & Hx' & Hy' & Eo & Bx & By);
    exists x', y'; split; [done|]; split; [done|]; rewrite Op; cbn [int_sem]; rewrite Wb in *.
  - rewrite Z.mod_0_l by lia. destruct undef0; rewrite Eo; by rewrite ?Z.mul_0_r, ?Z.mul_0_l, ?Z.mod_0_l by lia.
  - rewrite Z.mod_0_l by lia. destruct undef0; rewrite Eo; by rewrite ?Z.land_0_r, ?Z.land_0_l.
  - unfold mask in Eo |- *. rewrite width_mask_ones in Eo |- * by done. rewrite Z.mod_small by lia.
    assert (O : forall z, 0 <= z < 2 ^ int_width (in_type i) -> Z.lor z (2 ^ int_width (in_type i) - 1) = 2 ^ int_width (in_type i) - 1).
    { intros z Hz. rewrite Z.sub_1_r, <- Z.ones_equiv. apply Z.lor_ones_low; [lia|].
      destruct (Z.eq_dec z 0) as [->|]; [change (Z.log2 0) with 0; destruct (width_pos _ W); lia|].
      apply Z.log2_lt_pow2; lia. }
    destruct undef0; subst; [by rewrite O|]. rewrite Z.lor_comm. by rewrite O.
Qed.

Lemma fold_integer_ub_ok out strict : fold_integer_ub i = Some out -> folds_to i strict out.
Proof using F.
  unfold fold_integer_ub. cbv zeta. destruct ((int_width (in_type i) =? 0) || _ || _) eqn:E; [done|]. bool_cases.
  rename select (int_width _ <> 0) into Hw.
  assert (L : length (in_ops i) = 2%nat) by (unfold in_nops in *; lia).
  destruct (op_ok 0 ltac:(lia)) as [_ [x Hx]]. destruct (op_ok 1 ltac:(lia)) as [_ [y Hy]].
  set (count := o_a (op_at i 1) &64 width_mask (int_width (o_type (op_at i 1)))).
  intros E.
  assert (U : is_int_binop (in_op i) = true /\ out = ir_op_undef (in_type i) /\
    (o_type (op_at i 1) = in_type i -> int_sem (in_op i) (type_bits (in_type i)) x y = None)).
  { assert (Ey : o_type (op_at i 1) = in_type i -> y = count).
    { intros T1. exact (proj1 (iconst_reads sym_addr env (op_at i 1) y ltac:(done) ltac:(by rewrite T1) Hy)). }
    assert (Bw : o_type (op_at i 1) = in_type i -> type_bits (in_type i) = int_width (in_type i)).
    { intros _. by destruct (int_width_cases _ Hw) as (_ & -> & _). }
    destruct (in_op i); try done.
    1-4: destruct (Z.eqb_spec count 0) as [Z0|]; [|done]; injection E as <-; split; [done|]; split; [done|];
      intros T1; rewrite (Ey T1), Z0; done.
    all: destruct (Z.leb_spec (int_width (in_type i)) count) as [Lc|]; [|done]; injection E as <-;
      split; [done|]; split; [done|]; intros T1; cbn [int_sem]; rewrite (Ey T1), (Bw T1);
      by rewrite (proj2 (Z.ltb_ge _ _) Lc). }
  destruct U as (Ho & -> & U). destruct (int_binop_types Ho Hw) as [T0 T1].
  apply int_fold; try done. intros r Hr. exists x, y. split; [done|]. split; [done|]. by rewrite U.
Qed.

Lemma fold_integer_ok out strict : fold_integer i = Some out -> folds_to i strict out.
Proof using F.
  unfold fold_integer. cbv zeta. destruct ((int_width (in_type i) =? 0) || _ || _ || _) eqn:E; [done|]. bool_cases.
  rename select (int_width (in_type i) <> 0) into Hw. unfold is_int_const in *. bool_cases.
  destruct (int_width_cases _ Hw) as (W & Wb & Ti). destruct (width_pos _ W) as (_ & P & _).
  destruct (fold_binop _ _ _ _) as [r|] eqn:Eb; [|done]. intros Er.
  destruct (fold_binop_sem _ _ _ _ r W (mask_range _ _ W) (mask_range _ _ W) Eb) as [Ho Hr].
  destruct (int_binop_types Ho Hw) as [T0 T1].
  assert (L : length (in_ops i) = 2%nat) by (unfold in_nops in *; lia).
  destruct (op_ok 0 ltac:(lia)) as [_ [x Hx]]. destruct (op_ok 1 ltac:(lia)) as [_ [y Hy]].
  destruct (iconst_reads sym_addr env (op_at i 0) x ltac:(done) ltac:(by rewrite T0) Hx) as [Ex _].
  destruct (iconst_reads sym_addr env (op_at i 1) y ltac:(done) ltac:(by rewrite T1) Hy) as [Ey _].
  rewrite T0 in Ex. rewrite T1 in Ey.
  destruct r as [v|]; injection Er as <-; apply int_fold; try done.
  - by apply iconst_bits_ok.
  - rewrite iconst_bits_reads by done. intros r <-. exists x, y. split; [done|]. split; [done|].
    rewrite Ex, Ey, Wb. by rewrite Hr.
  - intros r Rr. exists x, y. split; [done|]. split; [done|]. rewrite Ex, Ey, Wb. by rewrite Hr.
Qed.

Lemma fold_icmp_ok out strict : fold_icmp i = Some out -> folds_to i strict out.
Proof using F.
  unfold fold_icmp. cbv zeta. destruct (negb (opc_eqb (in_op i) IR_ICMP) || _ || _ || _) eqn:E; [done|]. bool_cases.
  unfold is_int_const in *. bool_cases.
  rename select (int_width (o_type (op_at i 0)) <> 0) into Hw.
  rename select (in_op i = IR_ICMP) into Op.
  destruct (int_width_cases _ Hw) as (W & Wb & Ti). destruct (width_pos _ W) as (_ & P & _).
  pose proof (fb_types _ _ _ F) as T. unfold inst_types_ok in T. rewrite Op in T. cbn [andb] in T. bool_cases.
  rename select (in_type i = IRT_I32) into T32. rename select (o_type _ = o_type _) into Tt.
  assert (L : length (in_ops i) = 2%nat) by (unfold in_nops in *; lia).
  destruct (op_ok 0 ltac:(lia)) as [_ [x Hx]]. destruct (op_ok 1 ltac:(lia)) as [_ [y Hy]].
  destruct (iconst_reads sym_addr env (op_at i 0) x ltac:(done) Hw Hx) as [Ex Rx].
  destruct (iconst_reads sym_addr env (op_at i 1) y ltac:(done) ltac:(by rewrite <- Tt) Hy) as [Ey Ry].
  rewrite <- Tt in Ey, Ry. rewrite Wb in Rx, Ry. rewrite <- Ex, <- Ey, !sign_test by done.
  destruct (icmp_of (in_subop i)) as [p|] eqn:Ep; [|done]. intros [= <-].
  split; [by apply iconst_bits_ok|]. split; [by rewrite T32|]. split.
  - rewrite iconst_bits_reads by done. intros r <-. apply (den_2 x y); [by apply ops_2|done|done|].
    unfold result_of. rewrite Op, Ep. cbn [is_int_binop andb]. rewrite Wb, icmp_result_sem by done.
    by destruct (icmp_sem _ _ _ _).
  - intros _ vs _. apply int_raises; [by rewrite T32|done].
Qed.

Lemma fold_select_ok out strict : fold_select i = Some out -> folds_to i strict out.
Proof using F.
  unfold fold_select. destruct (opc_eqb (in_op i) IR_SELECT && (in_nops i =? 3)) eqn:E; [|done]. bool_cases.
  rename select (in_op i = IR_SELECT) into Op.
  pose proof (fb_types _ _ _ F) as T. unfold inst_types_ok in T. rewrite Op in T. cbn [andb] in T. bool_cases.
  rename select (o_type (op_at i 0) = IRT_I32) into T0. rename select (o_type (op_at i 1) = _) into T1.
  rename select (o_type (op_at i 2) = _) into T2.
  assert (L : length (in_ops i) = 3%nat) by (unfold in_nops in *; lia).
  destruct (op_ok 0 ltac:(lia)) as [Ok0 [c Hc]]. destruct (op_ok 1 ltac:(lia)) as [Ok1 [x Hx]].
  destruct (op_ok 2 ltac:(lia)) as [Ok2 [y Hy]].
  assert (R : forall c x y, rd (op_at i 0) c -> rd (op_at i 1) x -> rd (op_at i 2) y ->
    dn i (if c =? 0 then y else x)).
  { intros c' x' y' Hc' Hx' Hy'. exists [c'; x'; y'].
    split; [rewrite (ops_3 i) by done; by repeat constructor|]. unfold result_of. by rewrite Op. }
  assert (N : forall vs, Forall2 rd (in_ops i) vs -> raises i vs = no_status).
  { intros vs Hvs. apply Forall2_length in Hvs. rewrite L in Hvs. unfold raises.
    destruct vs as [|? [|? [|? [|? ?]]]]; try done; by destruct (format_of _), (format_of _). }
  destruct (is_kind (o_kind (op_at i 0)) IROP_ICONST) eqn:K.
  - intros [= <-]. assert (Ec : o_a (op_at i 0) mod 2 ^ 32 = c).
    { unfold reads in Hc. rewrite (reads_kind _ _ K), T0 in Hc. exact Hc. }
    destruct (Z.eqb_spec (o_a (op_at i 0)) 0) as [Z0|Nz]; cbn [negb].
    + split; [done|]. split; [done|]. split; [|by intros _]. intros r Hr.
      rewrite Z0 in Ec. subst c. exact (R 0 x r Hc Hx Hr).
    + split; [done|]. split; [done|]. split; [|by intros _]. intros r Hr.
      pose proof (R c r y Hc Hr Hy) as D. destruct (Z.eqb_spec c 0) as [C0|]; [|done].
      exfalso. pose proof (fb_narrow _ _ _ F (or_intror Op) (reads_kind _ _ K)) as B. rewrite T0 in B.
      unfold operand_ok in Ok0. rewrite (reads_kind _ _ K) in Ok0. unfold is_u64 in Ok0.
      rewrite Z.mod_small in Ec by (change (2 ^ type_bits IRT_I32) with (2 ^ 32) in B; lia). lia.
  - destruct (operand_equal (op_at i 1) (op_at i 2)) eqn:Q; [|done]. intros [= <-].
    split; [done|]. split; [done|]. split; [|by intros _]. intros r Hr.
    assert (Hr' : rd (op_at i 2) r).
    { unfold operand_equal in Q. bool_cases. rename select (is_kind _ _ = true) into Qk.
      apply reads_kind in Qk. unfold reads in *. rewrite <- Qk. rewrite Qk in Hr.
      repeat match goal with H : o_a _ = o_a _ |- _ => rewrite <- H | H : o_b _ = o_b _ |- _ => rewrite <- H
        | H : o_sym _ = o_sym _ |- _ => rewrite <- H | H : o_type _ = o_type _ |- _ => rewrite <- H end.
      rewrite <- Qk in Hr. exact Hr. }
    pose proof (R c r r Hc Hr Hr') as D. by destruct (c =? 0).
Qed.

(** A non-NaN result is delivered exactly. *)
Lemma fp_fold f v strict : format_of (in_type i) = Some f -> canonical f v ->
  dn i (enc f v) ->
  (strict = true -> forall vs, Forall2 rd (in_ops i) vs -> raises i vs = no_status) ->
  folds_to i strict (operand_of_sf (in_type i) f v).
Proof.
  intros Hf Hc D N. destruct (operand_of_sf_reads sym_addr env _ f v Hf Hc) as [E Ok].
  split; [done|]. split; [done|]. split; [|done]. rewrite E. by intros r <-.
Qed.

Lemma fconst_reads op f : operand_ok op -> is_kind (o_kind op) IROP_FCONST = true ->
  format_of (o_type op) = Some f ->
  exists p, (forall r, rd op r <-> r = p) /\ sf_of_operand op f = dec f p /\ wf_opnd (dec f p) /\
    (cls (dec f p) <> SF_NAN -> canonical f (dec f p) /\ enc f (dec f p) = p).
Proof.
  intros Ok K Hf. exists (pairval (o_b op) (o_a op)).
  destruct (fconst_operand f op Ok K Hf) as (E & W & C). split; [|done].
  intros r. unfold reads. rewrite (reads_kind _ _ K). split; congruence.
Qed.

Lemma fp_unary_types f : format_of (in_type i) = Some f -> in_op i = IR_FNEG \/ in_op i = IR_FABS ->
  in_nops i = 1 /\ o_type (op_at i 0) = in_type i.
Proof using F.
  intros Hf Ho. pose proof (fb_types _ _ _ F) as T. unfold inst_types_ok in T.
  destruct Ho as [Ho|Ho]; rewrite Ho in T; cbn [andb] in T; by bool_cases.
Qed.

Lemma fp_binary_types f : format_of (in_type i) = Some f ->
  in_op i = IR_FADD \/ in_op i = IR_FSUB \/ in_op i = IR_FMUL \/ in_op i = IR_FDIV ->
  o_type (op_at i 0) = in_type i /\ o_type (op_at i 1) = in_type i.
Proof using F.
  intros Hf Ho. pose proof (fb_types _ _ _ F) as T. unfold inst_types_ok in T.
  assert (V : ir_type_is_vector (in_type i) = false) by (by destruct (in_type i)).
  destruct Ho as [Ho|[Ho|[Ho|Ho]]]; rewrite Ho in T; cbn [andb] in T; unfold binop_types_ok in T;
    rewrite V in T; by bool_cases.
Qed.

(** What the code computes is what IEEE asks for, but for the sign of a zero
    that has raised inexact. *)
Definition off_by_sign (s s' : Sf) (st : SfStatus) : Prop :=
  s' = s \/ s = special true SF_ZERO /\ s' = special false SF_ZERO /\ inexact st = true.
Lemma off_by_sign_if (b : bool) s st : (b = true -> s = special true SF_ZERO /\ inexact st = true) ->
  off_by_sign s (if b then special false SF_ZERO else s) st.
Proof. destruct b; [|by left]. intros H. destruct (H eq_refl). by right. Qed.
Definition sf_binop (o : IrOp) (f : SfFormat) (a b : Sf) : option (Sf * SfStatus) :=
  match o with
  | IR_FADD => Some (sf_add a b f no_status)
  | IR_FSUB => Some (sf_sub a b f no_status)
  | IR_FMUL => Some (sf_mul a b f no_status)
  | IR_FDIV => Some (sf_div a b f no_status)
  | _ => None
  end.
Lemma div_flags_raised a b st : sf_status_raised st = true -> sf_status_raised (div_flags a b st) = true.
Proof. unfold div_flags, sf_status_raised, set_invalid. destruct (inf_over_zero a b); [|done]. intros _. cbn. by rewrite !orb_true_r. Qed.
Lemma sf_binop_ieee o f a b : wf_format f -> wf_opnd a -> wf_opnd b ->
  match fp_binop o f a b with
  | Some (s, st) => exists s' st', sf_binop o f a b = Some (s', st') /\ off_by_sign s s' st /\
                    (sf_status_raised st = true -> sf_status_raised st' = true)
  | None => sf_binop o f a b = None
  end.
Proof.
  intros Hf Ha Hb. assert (Hn : wf_opnd (sf_neg b)) by exact Hb.
  destruct o; try done; cbn [fp_binop sf_binop]; unfold sf_sub.
  - rewrite sf_add_rounds by done. destruct (ieee_add _ _ _ _) as [s st]. exists s, st. by split_and!; [|left|].
  - rewrite sf_add_rounds by done. destruct (ieee_add _ _ _ _) as [s st]. exists s, st. by split_and!; [|left|].
  - rewrite sf_mul_rounds, rounded_mul_ieee by (done || by apply wf_opnd_num).
    pose proof (underflows_mul f a b no_status Hf (wf_opnd_num _ Ha) (wf_opnd_num _ Hb)) as U. destruct (ieee_mul _ _ _ _) as [s st].
    eexists _, _. split_and!; [done|by apply off_by_sign_if|done].
  - rewrite sf_div_rounds, rounded_div_ieee by done.
    pose proof (underflows_div f a b no_status Hf (wf_opnd_num _ Ha) (wf_opnd_num _ Hb)) as U. destruct (ieee_div _ _ _ _) as [s st].
    eexists _, _. split_and!; [done|by apply off_by_sign_if|apply div_flags_raised].
Qed.
Lemma off_by_sign_cls s s' st : off_by_sign s s' st -> cls s' = cls s.
Proof. by intros [->|(-> & -> & _)]. Qed.
Lemma off_by_sign_canonical f s s' st : off_by_sign s s' st -> canonical f s -> canonical f s'.
Proof. by intros [->|(_ & -> & _)]. Qed.
(** The folded zero is one the instruction may give: either the flag keeps the
    instruction, or the bundle has given the licence. *)
Lemma off_by_sign_result o t f vs s s' st cfg : licensed fpu cfg ->
  negb (fast_math_bundle_enabled cfg) && sf_status_raised st = false -> is_cls SF_NAN s = false ->
  canonical f s -> off_by_sign s s' st -> fp_result fpu o t f vs s (enc f s').
Proof using.
  intros L St N C O. unfold fp_result. rewrite N. destruct O as [->|(-> & -> & I)].
  - destruct (is_cls SF_ZERO s && _) eqn:E; [|done]. apply andb_true_iff in E as [Z _].
    apply bool_decide_eq_true in Z. exists (sign s). unfold canonical in C. rewrite Z in C. by rewrite <- C.
  - assert (B : fast_math_bundle_enabled cfg = true).
    { destruct (fast_math_bundle_enabled cfg); [done|]. unfold sf_status_raised in St. by rewrite I in St. }
    rewrite (L B). by exists false.
Qed.

Lemma fp_binop_canonical o f a b s st : wf_format f ->
  (cls a <> SF_NAN -> canonical f a) -> (cls b <> SF_NAN -> canonical f b) ->
  fp_binop o f a b = Some (s, st) -> is_cls SF_NAN s = false ->
  canonical f s /\ is_cls SF_NAN a = false /\ is_cls SF_NAN b = false.
Proof.
  intros Hf Ca Cb E N.
  assert (Na : cls a <> SF_NAN).
  { intros Ea. destruct o; try done; injection E as E; unfold ieee_add, ieee_mul, ieee_div in E; rewrite Ea in E;
      injection E as <- <-; done. }
  assert (Nb : cls b <> SF_NAN).
  { intros Eb. destruct o; try done; injection E as E; unfold ieee_add, ieee_mul, ieee_div in E;
      cbn [sf_neg cls] in E; rewrite Eb in E; destruct (cls a); injection E as <- <-; done. }
  specialize (Ca Na). specialize (Cb Nb).
  split; [|unfold is_cls; by rewrite !bool_decide_eq_false_2].
  destruct o; try done; injection E as E; change s with (s, st).1; rewrite <- E.
  - by apply ieee_add_canonical.
  - apply ieee_add_canonical; [done|done|by apply canonical_neg].
  - by apply ieee_mul_canonical.
  - by apply ieee_div_canonical.
Qed.

Lemma fold_fp_ok cfg out : licensed fpu cfg -> fold_fp i cfg = Some out ->
  folds_to i (negb (fast_math_bundle_enabled cfg)) out.
Proof using F.
  intros L. unfold fold_fp. destruct (format_of (in_type i)) as [f|] eqn:Hf; [|done].
  set (unary := opc_eqb (in_op i) IR_FNEG || opc_eqb (in_op i) IR_FABS).
  destruct ((in_nops i <? 1) || _ || _) eqn:E; [done|].
  rewrite !orb_false_iff, !negb_false_iff in E. destruct E as ((N1 & K0) & K1). apply Z.ltb_ge in N1.
  destruct (format_of (o_type (op_at i 0))) as [fx|] eqn:Hfx; [|done].
  destruct (format_layout _ f Hf) as (Hl & Hw & Tb & Te & _).
  destruct (op_ok 0 ltac:(unfold in_nops in *; lia)) as [Ok0 _].
  destruct (fconst_reads _ fx Ok0 K0 Hfx) as (p & Rp & -> & Wp & Cp).
  destruct unary eqn:U; unfold unary in U.
  - assert (Ho : in_op i = IR_FNEG \/ in_op i = IR_FABS).
    { apply orb_true_iff in U as [U|U]; apply bool_decide_eq_true in U; tauto. }
    destruct (fp_unary_types f Hf Ho) as [Nops T0]. rewrite T0, Hf in Hfx. injection Hfx as <-.
    assert (D : forall r, result_of fpu i [p] r -> dn i r).
    { intros r. apply den_1; [by apply ops_1|]. by apply Rp. }
    assert (Nr : forall vs, Forall2 rd (in_ops i) vs -> raises i vs = no_status).
    { intros vs Hvs. apply Forall2_length in Hvs. unfold in_nops in Nops. unfold raises. rewrite T0, Hf.
      destruct vs as [|? [|? ?]]; simpl in Hvs; try lia. by destruct Ho as [-> | ->]. }
    destruct Ho as [Ho|Ho]; rewrite Ho; destruct (is_cls SF_NAN _) eqn:Nn; try done;
      apply bool_decide_eq_false in Nn; destruct (Cp Nn) as [Cc Ec];
      change (sf_status_raised no_status) with false; rewrite andb_false_r; intros [= <-].
    + apply fp_fold; [done|by apply canonical_neg| |by intros _]. apply D. unfold result_of.
      rewrite Ho, Hf, (enc_neg f _ (type_bits (in_type i))) by done. by rewrite Ec.
    + apply fp_fold; [done| | |by intros _].
      * unfold canonical in *. cbn [cls exp hi lo sign]. destruct (cls (dec f p)) eqn:Cl; try done; by rewrite Cc.
      * apply D. unfold result_of.
        rewrite Ho, Hf, (enc_abs f _ (type_bits (in_type i))) by done. by rewrite Ec.
  - cbn [negb andb] in K1. apply orb_false_iff in K1 as [N2 K1]. apply negb_false_iff in N2, K1. apply Z.eqb_eq in N2.
    destruct (op_ok 1 ltac:(unfold in_nops in *; lia)) as [Ok1 _].
    destruct (match in_op i with IR_FADD | IR_FSUB | IR_FMUL | IR_FDIV => true | _ => false end) eqn:Bo.
    2:{ apply orb_false_iff in U as [U1 U2]. unfold opc_eqb in U1, U2. apply bool_decide_eq_false in U1, U2.
        by destruct (in_op i). }
    assert (Ho : in_op i = IR_FADD \/ in_op i = IR_FSUB \/ in_op i = IR_FMUL \/ in_op i = IR_FDIV)
      by (destruct (in_op i); tauto || done).
    destruct (fp_binary_types f Hf Ho) as [T0 T1]. rewrite T0, Hf in Hfx. injection Hfx as <-.
    rewrite T1, Hf. destruct (fconst_reads _ f Ok1 K1 ltac:(by rewrite T1)) as (q & Rq & -> & Wq & Cq).
    pose proof (sf_binop_ieee (in_op i) f (dec f p) (dec f q) Hw Wp Wq) as O.
    match goal with |- match ?m with _ => _ end = _ -> _ => replace m with (sf_binop (in_op i) f (dec f p) (dec f q)) by (by destruct Ho as [-> | [-> | [-> | ->]]]) end.
    destruct (fp_binop _ f _ _) as [[s st]|] eqn:Eb; [|by rewrite O]. destruct O as (s' & st' & -> & O & R).
    unfold is_cls at 1. rewrite (off_by_sign_cls _ _ _ O). fold (is_cls SF_NAN s).
    destruct (is_cls SF_NAN s) eqn:Ns; [done|].
    destruct (negb (fast_math_bundle_enabled cfg) && sf_status_raised st') eqn:St'; [done|]. intros [= <-].
    assert (St : negb (fast_math_bundle_enabled cfg) && sf_status_raised st = false).
    { destruct (fast_math_bundle_enabled cfg); [done|]. cbn in *. destruct (sf_status_raised st); [by rewrite R in St'|done]. }
    destruct (fp_binop_canonical _ f _ _ s st Hw ltac:(intros; by apply Cp) ltac:(intros; by apply Cq) Eb Ns) as (Cs & Na & Nb).
    pose proof (off_by_sign_canonical f _ _ _ O Cs) as Cs'.
    apply fp_fold; [done|done| |].
    + apply (den_2 p q); [by apply ops_2|by apply Rp|by apply Rq|]. unfold result_of. rewrite Hf.
      replace (is_int_binop (in_op i)) with false by (by destruct Ho as [-> | [-> | [-> | ->]]]). cbn [andb].
      destruct Ho as [Ho|[Ho|[Ho|Ho]]]; rewrite Ho in Eb |- *; rewrite Eb; by apply (off_by_sign_result _ _ _ _ _ _ st cfg).
    + intros Sn vs Hvs. rewrite Sn in St. apply no_flags in St.
      destruct (reads_2 vs (ops_2 i N2) Hvs) as (x & y & -> & Hx & Hy). apply Rp in Hx. apply Rq in Hy. subst x y.
      unfold raises. rewrite T0, Hf, Eb. unfold nan_raises. by rewrite Na, Nb.
Qed.

Lemma fcmp_result_sem p a b : wf_opnd a -> wf_opnd b ->
  (let '(c, unordered) := sf_cmp a b in fcmp_result p unordered c) = fcmp_sem p (fp_order a b).
Proof.
  intros Ha Hb. unfold fp_order. destruct (is_cls SF_NAN a || is_cls SF_NAN b) eqn:E.
  - rewrite sf_cmp_nan by done. by destruct p.
  - apply orb_false_iff in E as [Ea Eb]. unfold is_cls in Ea, Eb. apply bool_decide_eq_false in Ea, Eb.
    rewrite sf_cmp_values by (done || by apply wf_opnd_num).
    by destruct p, (ext_compare _ _).
Qed.

Lemma fold_fcmp_ok cfg out : fold_fcmp i cfg = Some out ->
  folds_to i (negb (fast_math_bundle_enabled cfg)) out.
Proof using F.
  unfold fold_fcmp. destruct (negb (opc_eqb (in_op i) IR_FCMP) || _ || _ || _) eqn:E; [done|].
  rewrite !orb_false_iff, !negb_false_iff in E. destruct E as (((Op & N2) & K0) & K1).
  apply bool_decide_eq_true in Op. apply Z.eqb_eq in N2.
  pose proof (fb_types _ _ _ F) as T. unfold inst_types_ok in T. rewrite Op in T. cbn [andb] in T. bool_cases.
  rename select (in_type i = IRT_I32) into T32. rename select (o_type _ = o_type _) into Tt.
  rename select (type_is_float _ = true) into Tf.
  destruct (type_is_float_format _ Tf) as [f Hf]. rewrite <- Tt, Hf.
  destruct (op_ok 0 ltac:(unfold in_nops in *; lia)) as [Ok0 _].
  destruct (op_ok 1 ltac:(unfold in_nops in *; lia)) as [Ok1 _].
  destruct (fconst_reads _ f Ok0 K0 Hf) as (p & Rp & -> & Wp & _).
  destruct (fconst_reads _ f Ok1 K1 ltac:(by rewrite <- Tt)) as (q & Rq & -> & Wq & _).
  destruct (sf_cmp (dec f p) (dec f q)) as [c unordered] eqn:Ec.
  destruct (unordered && _) eqn:St; [done|].
  destruct (fcmp_of (in_subop i)) as [pr|] eqn:Ep; [|done]. intros [= <-].
  pose proof (fcmp_result_sem pr _ _ Wp Wq) as Er. rewrite Ec in Er.
  split; [by apply iconst_bits_ok|]. split; [by rewrite T32|]. split.
  - rewrite iconst_bits_reads by done. intros r <-.
    apply (den_2 p q); [by apply ops_2|by apply Rp|by apply Rq|]. unfold result_of. rewrite Op, Hf, Ep, Er.
    by destruct (fcmp_sem _ _).
  - intros Sn vs Hvs. destruct (reads_2 vs (ops_2 i N2) Hvs) as (x & y & -> & Hx & Hy).
    apply Rp in Hx. apply Rq in Hy. subst x y. unfold raises. rewrite T32, Hf, Op. unfold nan_raises.
    destruct (is_cls SF_NAN (dec f p) || is_cls SF_NAN (dec f q)) eqn:Nn; [|done].
    rewrite sf_cmp_nan in Ec by done. injection Ec as <- <-. by rewrite Sn in St.
Qed.

Lemma fp_resize_sf a g f : wf_format f -> wf_num a -> exists v, sf_convert a g f no_status = (v, (fp_resize a f).2) /\
  off_by_sign (fp_resize a f).1 v (fp_resize a f).2.
Proof using.
  intros Hf Ha. rewrite sf_convert_rounds by done. unfold fp_resize.
  destruct (cls a) eqn:E; [| |exists a; by split; [|left]..]; try (exists a; by split; [|left]).
  destruct (Ha E) as (Hh & Hl & Hv). rewrite decide_True by done.
  unfold value. rewrite round_signed_pos, rounded_ieee by (by apply mag_pos).
  eexists. split; [done|]. apply off_by_sign_if. intros L. pose proof (mag_pos a Hv) as P.
  destruct (loses_sign_inexact f (sign a) (mag a) no_status Hf P L). done.
Qed.

Lemma fp_resize_canonical a g f : wf_format f -> (cls a <> SF_NAN -> canonical g a) ->
  is_cls SF_NAN (fp_resize a f).1 = false -> canonical f (fp_resize a f).1 /\ is_cls SF_NAN a = false.
Proof.
  intros Hf Ca N. unfold fp_resize in *.
  assert (Na : is_cls SF_NAN a = false) by (unfold is_cls in *; destruct (cls a) eqn:E; try done; cbn [fst] in N; by rewrite E in N).
  split; [|done]. unfold is_cls in Na. apply bool_decide_eq_false in Na. specialize (Ca Na).
  destruct (cls a) eqn:E; cbn [fst]; try (unfold canonical in *; by rewrite E in *).
  apply ieee_round_canonical; [done|]. by apply (mag_positive g).
Qed.

Lemma fp_of_int_canonical v f : wf_format f -> canonical f (fp_of_int v f).1.
Proof. intros Hf. unfold fp_of_int. destruct (v =? 0); [done|by apply round_signed_canonical]. Qed.

(** The sign-and-magnitude source of [IR_SITOFP] and [IR_UITOFP]. *)
Lemma fp_of_int_sf w x (is_signed : bool) f : wf_format f -> is_width w -> 0 <= x < 2 ^ w ->
  let negative := is_signed && negb (x &64 (1 <<64 (w - 1)) =? 0) in
  sf_from_int (if negative then (0 -64 x) &64 width_mask w else x) negative f no_status =
  fp_of_int (if is_signed then sgn w x else x) f.
Proof.
  intros Hf Hw Hx. cbv zeta. rewrite sign_test by done. destruct (width_pos w Hw) as (_ & W2 & W3 & W4).
  pose proof (magnitude w x Hw Hx) as M. destruct (sgn_cases w x Hw Hx) as [Es _].
  unfold fp_of_int. destruct is_signed; cbn [andb].
  - rewrite neg_mask by done. rewrite M. destruct (Z.leb_spec (2 ^ (w - 1)) x) as [L|L].
    + rewrite sf_from_int_rounds by (done || unfold is_u64; lia).
      destruct (Z.eqb_spec (Z.abs (sgn w x)) 0), (Z.eqb_spec (sgn w x) 0); try lia.
      apply round_signed_proper; [|done]. f_equiv. unfold signed_Z. lia.
    + rewrite sf_from_int_rounds by (done || unfold is_u64; lia).
      destruct (Z.eqb_spec (Z.abs (sgn w x)) 0), (Z.eqb_spec (sgn w x) 0); try lia; [done|].
      apply round_signed_proper; [|done]. f_equiv. unfold signed_Z. lia.
  - rewrite sf_from_int_rounds by (done || unfold is_u64; lia). done.
Qed.

Lemma trunc_to_range a w uns st : 0 < w -> 0 <= (trunc_to a w uns st).1 < 2 ^ w.
Proof.
  intros Hw. pose proof (pow2_pos w ltac:(lia)). unfold trunc_to. destruct (cls a); cbn [fst]; try lia.
  case_match; cbn [fst]; [by apply Z.mod_pos_bound|lia].
Qed.

Lemma den_op r : in_nops i = 1 -> (exists x, rd (op_at i 0) x /\ result_of fpu i [x] r) -> dn i r.
Proof. intros N (x & Hx & R). apply (den_1 x); [by apply ops_1|done|done]. Qed.

Lemma raises_1 st : in_nops i = 1 -> (forall x, rd (op_at i 0) x -> raises i [x] = st) ->
  forall vs, Forall2 rd (in_ops i) vs -> raises i vs = st.
Proof. intros N H vs Hvs. destruct (reads_1 vs (ops_1 i N) Hvs) as (x & -> & Hx). by apply H. Qed.

(** A conversion between integers: the constant's masked bits are its value. *)
Lemma int_conversion v : in_nops i = 1 -> is_kind (o_kind (op_at i 0)) IROP_ICONST = true ->
  int_width (o_type (op_at i 0)) <> 0 -> int_width (in_type i) <> 0 ->
  (forall x, x = o_a (op_at i 0) mod 2 ^ type_bits (o_type (op_at i 0)) ->
     result_of fpu i [x] (v mod 2 ^ type_bits (in_type i))) ->
  forall strict, folds_to i strict (iconst_bits (in_type i) v).
Proof using F.
  intros N K W0 W R strict. split; [by apply iconst_bits_ok|]. split; [done|]. split.
  - rewrite iconst_bits_reads by done. intros r <-. apply den_op; [done|].
    exists (o_a (op_at i 0) mod 2 ^ type_bits (o_type (op_at i 0))). split; [|by apply R].
    unfold reads. by rewrite (reads_kind _ _ K).
  - intros _. apply raises_1; [done|]. intros x _. apply int_raises.
    + by destruct (int_width_cases _ W) as (_ & _ & ?).
    + by destruct (int_width_cases _ W0) as (_ & _ & ?).
Qed.

Lemma fold_int_conversion_ok cfg out : (in_op i = IR_SEXT \/ in_op i = IR_ZEXT \/ in_op i = IR_TRUNC) ->
  fold_conversion i cfg = Some out -> folds_to i (negb (fast_math_bundle_enabled cfg)) out.
Proof using F.
  intros Ho. unfold fold_conversion. cbv zeta. destruct (Z.eqb_spec (in_nops i) 1) as [N|]; [cbn [negb]|done].
  pose proof (fb_types _ _ _ F) as T. unfold inst_types_ok in T.
  destruct (op_ok 0 ltac:(unfold in_nops in *; lia)) as [Ok0 _]. unfold operand_ok in Ok0.
  assert (R : forall a b, (verify_int_width a <? verify_int_width b) = true -> type_is_int a = true -> type_is_int b = true ->
    type_bits a <= type_bits b /\ 0 < 2 ^ type_bits a <= 2 ^ type_bits b) by (intros [] []; vm_compute; intuition discriminate).
  destruct (is_kind (o_kind (op_at i 0)) IROP_ICONST && _ && _) eqn:E;
    [|destruct Ho as [-> |[-> | ->]]; done]. bool_cases.
  match goal with H : is_kind _ _ = true |- _ => rename H into K end.
  rewrite (reads_kind _ _ K) in Ok0.
  destruct (int_width_cases (o_type (op_at i 0))) as (W0 & B0 & I0); [done|].
  destruct (int_width_cases (in_type i)) as (W1 & B1 & I1); [done|].
  destruct (width_pos _ W0) as (_ & P0 & _). destruct (width_pos _ W1) as (_ & P1 & _).
  destruct Ho as [Ho|[Ho|Ho]]; rewrite Ho in *; cbn [andb negb] in T |- *; intros [= <-];
    bool_cases; apply int_conversion; try done; intros x ->; unfold result_of; rewrite Ho.
  - rewrite mask_mod, B0 by done.
    assert (X : 0 <= o_a (op_at i 0) mod 2 ^ int_width (o_type (op_at i 0)) < 2 ^ int_width (o_type (op_at i 0)))
      by (apply Z.mod_pos_bound; lia).
    rewrite B1. rewrite <- (mod64_mod _ (sign_extended _ _)), sign_extended_mod, mod64_mod by done. done.
  - pose proof (fb_narrow _ _ _ F ltac:(tauto) (reads_kind _ _ K)) as Nr.
    destruct (R _ _ ltac:(eassumption) I0 I1) as [_ Le]. unfold is_u64 in Ok0.
    by rewrite !Z.mod_small by lia.
  - destruct (R _ _ ltac:(eassumption) I1 I0) as [Le _]. apply Z.mod_mod_divide.
    exists (2 ^ (type_bits (o_type (op_at i 0)) - type_bits (in_type i))).
    rewrite <- Z.pow_add_r; [f_equal; lia|lia|]. rewrite B1. destruct (width_pos _ W1); lia.
Qed.

Lemma fold_fp_conversion_ok cfg out : licensed fpu cfg ->
  (in_op i = IR_FPEXT \/ in_op i = IR_FPTRUNC \/ in_op i = IR_FPTOSI \/ in_op i = IR_FPTOUI) ->
  fold_conversion i cfg = Some out -> folds_to i (negb (fast_math_bundle_enabled cfg)) out.
Proof using F.
  intros L Ho. unfold fold_conversion. cbv zeta. destruct (Z.eqb_spec (in_nops i) 1) as [N|]; [cbn [negb]|done].
  pose proof (fb_types _ _ _ F) as T. unfold inst_types_ok in T.
  destruct (op_ok 0 ltac:(unfold in_nops in *; lia)) as [Ok0 _].
  destruct (format_of (o_type (op_at i 0))) as [g|] eqn:Hg; [|by destruct Ho as [-> |[-> |[-> | ->]]]].
  destruct (is_kind (o_kind (op_at i 0)) IROP_FCONST) eqn:K; cycle 1.
  { destruct Ho as [-> |[-> |[-> | ->]]]; cbn [negb orb]; try done; by destruct (format_of (in_type i)). }
  cbn [negb orb]. destruct (fconst_reads _ g Ok0 K Hg) as (p & Rp & Ep & Wp & Cp). rewrite Ep.
  apply wf_opnd_num in Wp.
  assert (Ho' : (in_op i = IR_FPEXT \/ in_op i = IR_FPTRUNC) \/ (in_op i = IR_FPTOSI \/ in_op i = IR_FPTOUI)) by tauto.
  destruct Ho' as [Ho'|Ho'].
  - assert (Tf : type_is_float (in_type i) = true) by (destruct Ho' as [Ho'|Ho']; rewrite Ho' in T; cbn [andb] in T; by bool_cases).
    destruct (type_is_float_format _ Tf) as [f Hf]. rewrite Hf.
    destruct (format_layout _ f Hf) as (Hl & Hw & _). destruct (fp_resize_sf (dec g p) g f Hw Wp) as (s' & -> & O).
    destruct (fp_resize (dec g p) f) as [v st] eqn:Er.
    assert (Ev : v = (fp_resize (dec g p) f).1 /\ st = (fp_resize (dec g p) f).2) by (by rewrite Er).
    cbn [fst snd] in O |- *.
    replace (match in_op i with IR_FPEXT => _ | IR_FPTRUNC => _ | _ => _ end) with
      (if is_cls SF_NAN s' then None else if negb (fast_math_bundle_enabled cfg) && sf_status_raised st then None
       else Some (operand_of_sf (in_type i) f s')) by (by destruct Ho' as [-> | ->]).
    unfold is_cls at 1. rewrite (off_by_sign_cls _ _ _ O). fold (is_cls SF_NAN v).
    destruct (is_cls SF_NAN v) eqn:Nv; [done|].
    destruct (negb (fast_math_bundle_enabled cfg) && sf_status_raised st) eqn:St; [done|]. intros [= <-]. destruct Ev as [Ev Es].
    destruct (fp_resize_canonical (dec g p) g f Hw) as [Cv Na]; [intros; by apply Cp|by rewrite <- Ev|].
    rewrite <- Ev in Cv. pose proof (off_by_sign_canonical f _ _ _ O Cv) as Cs'. apply fp_fold; [done|done| |].
    + apply den_op; [done|]. exists p. split; [by apply Rp|]. unfold result_of. rewrite Hg, Hf.
      destruct Ho' as [-> | ->]; rewrite <- Ev; by apply (off_by_sign_result _ _ _ _ _ _ st cfg).
    + intros Sn. rewrite Sn in St. apply no_flags in St. apply raises_1; [done|].
      intros x Hx. apply Rp in Hx. subst x. unfold raises. rewrite Hg, Hf.
      destruct Ho' as [-> | ->]; unfold nan_raises; by rewrite Na, <- Es.
  - assert (Ti : type_is_int (in_type i) = true) by (destruct Ho' as [Ho'|Ho']; rewrite Ho' in T; cbn [andb] in T; by bool_cases).
    pose proof (int_type_width _ Ti) as Nw. destruct (int_width_cases _ Nw) as (W & B & _).
    destruct (width_pos _ W) as (W1 & P & _).
    rewrite sf_to_int_trunc by (done || lia).
    set (uns := opc_eqb (in_op i) IR_FPTOUI) in *.
    pose proof (trunc_to_range (dec g p) (int_width (in_type i)) uns no_status ltac:(lia)) as R.
    destruct (trunc_to (dec g p) (int_width (in_type i)) uns no_status) as [v st] eqn:Et. cbn [fst] in R.
    replace (match in_op i with IR_FPTOSI => _ | IR_FPTOUI => _ | _ => _ end) with
      (if negb (fast_math_bundle_enabled cfg) && sf_status_raised st then None
       else Some (if invalid st then ir_op_undef (in_type i) else iconst_bits (in_type i) v))
      by (rewrite (proj2 (Z.eqb_neq _ _) Nw); by destruct Ho' as [-> | ->]).
    destruct (negb (fast_math_bundle_enabled cfg) && sf_status_raised st) eqn:St; [done|]. intros [= <-].
    assert (D : forall r, (if invalid st then any (in_type i) r else v = r) -> dn i r).
    { intros r Hr. apply den_op; [done|]. exists p. split; [by apply Rp|]. unfold result_of. rewrite Hg.
      fold uns. rewrite B, Et. by destruct Ho' as [-> | ->]; destruct (invalid st). }
    split; [by destruct (invalid st); [|apply iconst_bits_ok]|]. split; [by destruct (invalid st)|]. split.
    + intros r Hr. apply D. destruct (invalid st); [exact Hr|]. rewrite iconst_bits_reads in Hr by done. rewrite <- Hr, B.
      by rewrite Z.mod_small.
    + intros Sn. rewrite Sn in St. apply no_flags in St. apply raises_1; [done|].
      intros x Hx. apply Rp in Hx. subst x. unfold raises. rewrite Hg, (type_is_int_format _ Ti).
      fold uns. rewrite B, Et. by destruct Ho' as [-> | ->].
Qed.

Lemma fold_int_to_fp_ok cfg out : (in_op i = IR_SITOFP \/ in_op i = IR_UITOFP) ->
  fold_conversion i cfg = Some out -> folds_to i (negb (fast_math_bundle_enabled cfg)) out.
Proof using F.
  intros Ho. unfold fold_conversion. cbv zeta. destruct (Z.eqb_spec (in_nops i) 1) as [N|]; [cbn [negb]|done].
  pose proof (fb_types _ _ _ F) as T. unfold inst_types_ok in T.
  destruct (op_ok 0 ltac:(unfold in_nops in *; lia)) as [Ok0 _].
  assert (Tf : type_is_int (o_type (op_at i 0)) = true /\ type_is_float (in_type i) = true)
    by (destruct Ho as [Ho|Ho]; rewrite Ho in T; cbn [andb] in T; by bool_cases).
  destruct Tf as [Ti Tf]. destruct (type_is_float_format _ Tf) as [f Hf]. rewrite Hf.
  destruct (format_layout _ f Hf) as (Hl & Hw & _).
  pose proof (int_type_width _ Ti) as Nw. destruct (int_width_cases _ Nw) as (W & B & _).
  destruct (is_kind (o_kind (op_at i 0)) IROP_ICONST) eqn:K; [|by destruct Ho as [-> | ->]].
  rewrite (proj2 (Z.eqb_neq _ _) Nw). cbn [negb orb].
  set (x := o_a (op_at i 0) &64 width_mask (int_width (o_type (op_at i 0)))).
  pose proof (mask_range _ (o_a (op_at i 0)) W) as Rx. fold x in Rx.
  set (sg := opc_eqb (in_op i) IR_SITOFP).
  pose proof (fp_of_int_sf _ x sg f Hw W Rx) as E. cbv zeta in E.
  set (r := sf_from_int _ _ f no_status) in E |- *.
  replace (match in_op i with IR_SITOFP => _ | IR_UITOFP => _ | _ => _ end) with
    (let '(value, status) := r in
     if negb (fast_math_bundle_enabled cfg) && sf_status_raised status then None
     else Some (operand_of_sf (in_type i) f value)) by (by destruct Ho as [-> | ->]).
  rewrite E. destruct (fp_of_int _ f) as [v st] eqn:Ev. destruct (negb (fast_math_bundle_enabled cfg) && sf_status_raised st) eqn:St; [done|]. intros [= <-].
  assert (Cv : canonical f v) by (change v with (v, st).1; rewrite <- Ev; by apply fp_of_int_canonical).
  assert (Hr : forall y, rd (op_at i 0) y -> y = x).
  { intros y Hy. exact (proj1 (iconst_reads sym_addr env (op_at i 0) y K Nw Hy)). }
  assert (Hx : rd (op_at i 0) x).
  { unfold reads. rewrite (reads_kind _ _ K). unfold x. by rewrite mask_mod, B. }
  assert (Es : fp_of_int (if sg then sgn (type_bits (o_type (op_at i 0))) x else x) f = (v, st)) by (by rewrite B).
  assert (Eg : sg = match in_op i with IR_SITOFP => true | _ => false end) by (unfold sg; by destruct Ho as [-> | ->]).
  apply fp_fold; [done|done| |].
  - apply den_op; [done|]. exists x. split; [done|]. unfold result_of. rewrite Hf.
    rewrite Eg in Es. destruct Ho as [Ho|Ho]; rewrite Ho in Es |- *; by rewrite Es.
  - intros Sn. rewrite Sn in St. apply no_flags in St. apply raises_1; [done|].
    intros y Hy. rewrite (Hr y Hy). unfold raises. rewrite (type_is_int_format _ Ti), Hf.
    rewrite Eg in Es. destruct Ho as [Ho|Ho]; rewrite Ho in Es |- *; by rewrite Es.
Qed.

(** The same bits under another type. *)
Lemma fold_bitcast_ok cfg out : in_op i = IR_BITCAST -> fold_conversion i cfg = Some out ->
  folds_to i (negb (fast_math_bundle_enabled cfg)) out.
Proof using F.
  intros Ho. unfold fold_conversion. cbv zeta. destruct (Z.eqb_spec (in_nops i) 1) as [N|]; [cbn [negb]|done].
  pose proof (fb_types _ _ _ F) as T. unfold inst_types_ok in T. rewrite Ho in T |- *. cbn [andb] in T.
  destruct (op_ok 0 ltac:(unfold in_nops in *; lia)) as [Ok0 _].
  assert (Nr : negb (fast_math_bundle_enabled cfg) = true -> forall vs, Forall2 rd (in_ops i) vs -> raises i vs = no_status).
  { intros _. apply raises_1; [done|]. intros x _. unfold raises. rewrite Ho. by destruct (format_of _), (format_of _). }
  assert (D : forall r, rd (op_at i 0) r -> dn i r).
  { intros r Hr. apply den_op; [done|]. exists r. split; [done|]. unfold result_of. rewrite Ho. done. }
  (* an integer constant becomes a floating-point one *)
  assert (ToFp : forall f, format_of (in_type i) = Some f -> explicit_intbit f = false ->
    int_width (o_type (op_at i 0)) = 8 * total_bytes f -> is_width (8 * total_bytes f) ->
    is_kind (o_kind (op_at i 0)) IROP_ICONST = true ->
    folds_to i (negb (fast_math_bundle_enabled cfg))
      (ir_op_fconst (in_type i) (o_a (op_at i 0) &64 width_mask (int_width (o_type (op_at i 0)))) 0)).
  { intros f Hf Ex Ew W K. destruct (format_layout _ f Hf) as (Hl & _). destruct (width_pos _ W) as (_ & P & _).
    assert (Nw : int_width (o_type (op_at i 0)) <> 0) by (rewrite Ew; destruct (width_pos _ W); lia).
    destruct (int_width_cases _ Nw) as (_ & B & _). rewrite Ew in *.
    pose proof (mask_range _ (o_a (op_at i 0)) W) as R.
    set (v := o_a (op_at i 0) &64 width_mask (8 * total_bytes f)) in *.
    assert (V : pairval 0 v = v) by (unfold pairval; lia).
    split; [|split; [done|split; [|done]]].
    - unfold operand_ok. cbn [o_kind o_a o_b o_type ir_op_fconst]. rewrite Hf, V. unfold is_u64.
      split; [lia|]. split; [lia|]. by apply fconst_ok_ieee.
    - intros r Hr. apply D. unfold reads in *. cbn [o_kind o_a o_b ir_op_fconst] in Hr. rewrite V in Hr.
      rewrite (reads_kind _ _ K), B. rewrite <- Hr. unfold v. by rewrite mask_mod. }
  assert (ToInt : forall f, format_of (o_type (op_at i 0)) = Some f ->
    int_width (in_type i) = 8 * total_bytes f -> is_width (8 * total_bytes f) ->
    is_kind (o_kind (op_at i 0)) IROP_FCONST = true ->
    folds_to i (negb (fast_math_bundle_enabled cfg)) (iconst_bits (in_type i) (o_a (op_at i 0)))).
  { intros f Hf Ew W K. destruct (width_pos _ W) as (_ & P & _).
    assert (Nw : int_width (in_type i) <> 0) by (rewrite Ew; destruct (width_pos _ W); lia).
    destruct (int_width_cases _ Nw) as (_ & B & _).
    unfold operand_ok in Ok0. rewrite (reads_kind _ _ K), Hf in Ok0. destruct Ok0 as (Ha & Hb & [R _]).
    assert (V : pairval (o_b (op_at i 0)) (o_a (op_at i 0)) = o_a (op_at i 0)) by (unfold pairval, is_u64 in *; lia).
    split; [by apply iconst_bits_ok|]. split; [done|]. split; [|done].
    intros r Hr. apply D. rewrite iconst_bits_reads in Hr by done. unfold reads. rewrite (reads_kind _ _ K), <- Hr, V, B, Ew.
    rewrite V in R. by rewrite Z.mod_small. }
  destruct (o_type (op_at i 0)) eqn:T0, (in_type i) eqn:T1; try discriminate T; cbn [format_of];
    try (match goal with |- (if is_kind ?a ?b && _ then _ else _) = _ -> _ => destruct (is_kind a b) eqn:K; [|done] end); try done; cbn [andb];
    (match goal with |- context [Z.eqb ?a ?b] => change (Z.eqb a b) with true end); cbv iota; intros [= <-].
  - apply (ToFp SF_BINARY32); try done. unfold is_width. by vm_compute; tauto.
  - apply (ToFp SF_BINARY64); try done. unfold is_width. by vm_compute; tauto.
  - apply (ToInt SF_BINARY32); try done. unfold is_width. by vm_compute; tauto.
  - apply (ToInt SF_BINARY64); try done. unfold is_width. by vm_compute; tauto.
Qed.

Lemma fold_conversion_ok cfg out : licensed fpu cfg -> fold_conversion i cfg = Some out ->
  folds_to i (negb (fast_math_bundle_enabled cfg)) out.
Proof using F.
  intros L E. destruct (in_op i) eqn:Ho;
    try (unfold fold_conversion in E; rewrite Ho in E; cbv zeta in E; by destruct (negb _) in E).
  all: first [by apply (fold_int_conversion_ok cfg); [tauto|] | by apply (fold_fp_conversion_ok cfg); [done|tauto|]
    | by apply (fold_int_to_fp_ok cfg); [tauto|] | by apply (fold_bitcast_ok cfg)].
Qed.

Lemma fold_ptradd_ok out strict : fold_ptradd i = Some out -> folds_to i strict out.
Proof using F.
  unfold fold_ptradd. cbv zeta. destruct (opc_eqb (in_op i) IR_PTRADD && _ && _ && _) eqn:E; [|done]. bool_cases.
  rename select (in_op i = IR_PTRADD) into Ho. rename select (in_nops i = 2) into N.
  rename select (is_kind _ IROP_SYMBOL = true) into K0. rename select (is_kind _ IROP_ICONST = true) into K1.
  pose proof (fb_types _ _ _ F) as T. unfold inst_types_ok in T. rewrite Ho in T. cbn [andb] in T. bool_cases.
  rename select (in_type i = IRT_PTR) into Tp. rename select (o_type (op_at i 0) = _) into T0.
  rename select (o_type (op_at i 1) = _) into T1. rewrite T1.
  destruct (op_ok 1 ltac:(unfold in_nops in *; lia)) as [Ok1 _]. unfold operand_ok in Ok1. rewrite (reads_kind _ _ K1) in Ok1.
  assert (W : is_width 64) by (unfold is_width; tauto).
  change (int_width IRT_I64) with 64. change (64 =? 0) with false.
  rewrite mask_mod, (Z.mod_small (o_a (op_at i 1))) by done.
  set (sum := o_a (op_at i 0) +64 sign_extended (o_a (op_at i 1)) 64). destruct (negb _); [done|]. intros [= <-].
  assert (Es : sum = (o_a (op_at i 0) + o_a (op_at i 1)) mod 2 ^ 64).
  { unfold sum, u64. rewrite <- Zplus_mod_idemp_r, (sign_extended_mod 64) by done.
    rewrite sgn_mod by done. by rewrite Zplus_mod_idemp_r. }
  split; [|split; [|split]].
  - unfold operand_ok. cbn [o_kind o_a]. rewrite (reads_kind _ _ K0). apply u64_range.
  - cbn [o_type]. congruence.
  - intros r Hr. unfold reads in Hr. cbn [o_kind o_sym o_a] in Hr. rewrite (reads_kind _ _ K0) in Hr.
    apply (den_2 ((sym_addr (o_sym (op_at i 0)) + o_a (op_at i 0)) mod 2 ^ 64) (o_a (op_at i 1)));
      [by apply ops_2|unfold reads; by rewrite (reads_kind _ _ K0)| |].
    + unfold reads. rewrite (reads_kind _ _ K1), T1. change (type_bits IRT_I64) with 64. by rewrite Z.mod_small.
    + unfold result_of. rewrite Ho. cbn [is_int_binop andb]. rewrite <- Hr, Es.
      rewrite Zplus_mod_idemp_r, Zplus_mod_idemp_l. f_equal. lia.
  - intros _ vs Hvs. destruct (reads_2 vs (ops_2 i N) Hvs) as (x & y & -> & _). unfold raises.
    by rewrite Tp, T0.
Qed.

Lemma opt_fold_inst_ok cfg out : licensed fpu cfg -> opt_fold_inst i cfg = Some out ->
  folds_to i (negb (fast_math_bundle_enabled cfg)) out.
Proof using F.
  intros L. unfold opt_fold_inst. destruct (in_result i =? 0); [done|].
  destruct (fold_undef i) eqn:E1; [intros [= <-]; by apply fold_undef_ok|].
  destruct (fold_integer_ub i) eqn:E2; [intros [= <-]; by apply fold_integer_ub_ok|].
  destruct (fold_integer i) eqn:E3; [intros [= <-]; by apply fold_integer_ok|].
  destruct (fold_icmp i) eqn:E4; [intros [= <-]; by apply fold_icmp_ok|].
  destruct (fold_fp i cfg) eqn:E5; [intros [= <-]; by apply fold_fp_ok|].
  destruct (fold_fcmp i cfg) eqn:E6; [intros [= <-]; by apply fold_fcmp_ok|].
  destruct (fold_conversion i cfg) eqn:E7; [intros [= <-]; by apply fold_conversion_ok|].
  destruct (fold_select i) eqn:E8; [intros [= <-]; by apply fold_select_ok|apply fold_ptradd_ok].
Qed.
End one.
End fold.

(** ** Properties of the code *)

(** C6. Folding an instruction is correct. Take an instruction whose operands
    keep the typing rules of the IR and have a value, whose constant operand,
    if it is zero-extended or selected on, has no bits above its width, and a
    target that may ignore the sign of a zero when the fast-math bundle is on.
    Then the operand [opt_fold_inst] returns has the instruction's type and
    denotes only values the instruction may give, undefined operations and
    [undef] operands included; and without the whole fast-math bundle no
    execution of the folded instruction raises a floating-point exception flag. *)
Theorem opt_fold_inst_correct sym_addr fpu env ret variadic i cfg out :
  foldable sym_addr env ret variadic i -> licensed fpu cfg -> opt_fold_inst i cfg = Some out ->
  operand_ok out /\ o_type out = in_type i /\
  refines (reads sym_addr env out) (den sym_addr fpu env i) /\
  (fast_math_bundle_enabled cfg = false ->
   forall vs, Forall2 (reads sym_addr env) (in_ops i) vs -> raises i vs = no_status).
Proof.
  intros F L E. destruct (opt_fold_inst_ok sym_addr fpu env ret variadic i F cfg out L E) as (H1 & H2 & H3 & H4).
  split; [done|]. split; [done|]. split; [done|]. intros N. apply H4. by rewrite N.
Qed.

(** [-128 / -1] at eight bits is undefined, so its fold is [undef]; and with
    the fast-math bundle a product that underflows folds to [+0]. *)
Definition tiny_product : IrInst :=
  let min := mkOp IROP_FCONST IRT_F32 0 0 0x80000001 0 in let quarter := mkOp IROP_FCONST IRT_F32 0 0 0x3E800000 0 in
  scalar IR_FMUL IRT_F32 0 [min; quarter].
Definition fast : option OptConfig := Some (mkConfig (mkFast true true true true true)).
Lemma opt_fold_inst_witness :
  (let i := scalar IR_SDIV IRT_I8 0 [ic IRT_I8 0x80; ic IRT_I8 0xFF] in
   foldable (fun _ => 0) (fun _ _ => False) IRT_VOID false i /\
   opt_fold_inst i None = Some (ir_op_undef IRT_I8) /\
   refines (any IRT_I8) (den (fun _ => 0) plain_fpu (fun _ _ => False) i)) /\
  opt_fold_inst tiny_product fast = Some (mkOp IROP_FCONST IRT_F32 0 0 0 0).
Proof.
  split; [|reflexivity]. intros i.
  assert (F : foldable (fun _ => 0) (fun _ _ => False) IRT_VOID false i).
  { split; [reflexivity| | |intros [E|E]; discriminate E].
    - constructor; [exact (u64_range 0x80)|]. constructor; [exact (u64_range 0xFF)|constructor].
    - constructor; [by eexists|]. constructor; [by eexists|constructor]. }
  assert (L : licensed plain_fpu None) by done.
  split; [exact F|]. split; [reflexivity|].
  exact (proj1 (proj2 (proj2 (opt_fold_inst_correct (fun _ => 0) plain_fpu (fun _ _ => False)
    IRT_VOID false i None (ir_op_undef IRT_I8) F L eq_refl)))).
Defined.

(** Why the constant must be reduced: the zero extension of an [i32] constant
    stored as 64 one bits folds to 64 one bits, where it gives 32. *)
Theorem zext_fold_unreduced :
  let i := scalar IR_ZEXT IRT_I64 0 [ic IRT_I32 (2 ^ 64 - 1)] in
  opt_fold_inst i None = Some (ic IRT_I64 (2 ^ 64 - 1)) /\
  forall sym_addr fpu env r, den sym_addr fpu env i r <-> r = 2 ^ 32 - 1.
Proof.
  cbv zeta. split; [vm_compute; reflexivity|]. intros sym_addr fpu env r. split.
  - intros (vs & Hvs & R). inversion Hvs as [|? x ? ? Hx T]; subst. inversion T; subst. cbn in R. rewrite <- R, <- Hx. reflexivity.
  - intros ->. exists [2 ^ 32 - 1]. split; [|reflexivity]. repeat constructor.
Qed.
