(* ===== verification/Renumber.v ===== *)
(** [ir_func_renumber] of [src/ir/ir.c]: the canonical value numbering. Ids are
    handed out in document order (function parameters, then block by block the
    block parameters and the results), the value table is rebuilt with fresh
    definition coordinates, and every use is rewritten. *)
From stdpp Require Import gmap.
From S2P Require Import Prelude.
From S2P Require Import Ir.
#[local] Open Scope Z_scope.
Definition Numbering : Type := gmap Z Z * Z.
Definition number (n : Numbering) (v : Z) : Numbering :=
  if v =? 0 then n else (<[v := n.2 + 1]> n.1, n.2 + 1).
Definition number_block (n : Numbering) (b : IrBlock) : Numbering :=
  foldl number (foldl number n (b_params b)) (map in_result (b_insts b)).
(** Pass 1: ids in document order. *)
Definition number_func (f : IrFunc) : Numbering :=
  foldl number_block (foldl number (∅, 0) (f_param_vals f)) (f_blocks f).

Definition numbered (m : gmap Z Z) (v : Z) : Z := default 0 (m !! v).
Definition renumber_operand (m : gmap Z Z) (nold : Z) (o : IrOperand) : IrOperand :=
  if is_kind (o_kind o) IROP_VALUE then
    let id := u32 (o_a o) in
    mkOp (o_kind o) (o_type o) (o_argflags o) (o_sym o)
      (if (1 <=? id) && (id <=? nold) then numbered m id else 0) (o_b o)
  else o.

(** Pass 2: the value table with fresh coordinates; an id that got no number
    keeps its old one. *)
Definition fresh_id (m : gmap Z Z) (v : Z) : Z :=
  let n := if v =? 0 then 0 else numbered m v in if n =? 0 then v else n.
Definition write_val (m : gmap Z Z) (old : list IrValInfo) (kind : IrValDef) (block : Z) (v pos : Z)
    (nv : list IrValInfo) : list IrValInfo :=
  let n := if v =? 0 then 0 else numbered m v in
  if n =? 0 then nv else <[Z.to_nat (n - 1) := mkVal (ir_value_type old v) kind block pos]> nv.
Definition write_params (m : gmap Z Z) (old : list IrValInfo) (kind : IrValDef) (block : Z) (vs : list Z)
    (nv : list IrValInfo) : list IrValInfo :=
  foldl (fun nv v => write_val m old kind block v 0 nv) nv vs.
Definition write_insts (m : gmap Z Z) (old : list IrValInfo) (block : Z) (ins : list IrInst)
    (nv : list IrValInfo) : list IrValInfo :=
  (foldl (fun '(pos, nv) i => (pos + 1, write_val m old VDEF_INST block (in_result i) pos nv)) (0, nv) ins).2.
Fixpoint write_blocks (m : gmap Z Z) (old : list IrValInfo) (block : Z) (bs : list IrBlock)
    (nv : list IrValInfo) : list IrValInfo :=
  match bs with
  | [] => nv
  | b :: bs =>
    write_blocks m old (block + 1) bs
      (write_insts m old block (b_insts b) (write_params m old VDEF_BPARAM block (b_params b) nv))
  end.

(** Pass 3, and the ids in place. *)
Definition renumber_inst (m : gmap Z Z) (nold : Z) (i : IrInst) : IrInst :=
  mkInst (in_op i) (in_type i) (in_subop i) (in_flags i) (fresh_id m (in_result i)) (in_aux i)
    (map (renumber_operand m nold) (in_ops i))
    (map (fun e => set_edge_args e (map (renumber_operand m nold) (e_args e))) (in_edges i)).
Definition renumber_block (m : gmap Z Z) (nold : Z) (b : IrBlock) : IrBlock :=
  mkBlock (map (fresh_id m) (b_params b)) (map (renumber_inst m nold) (b_insts b)).

Definition zero_val : IrValInfo := mkVal IRT_I8 VDEF_NONE 0 0.
Definition ir_func_renumber (f : IrFunc) : IrFunc :=
  let nold := f_nvals f in
  let '(m, next) := number_func f in
  let nv := write_params m (f_vals f) VDEF_FPARAM 1 (f_param_vals f) (replicate (Z.to_nat next) zero_val) in
  let nv := write_blocks m (f_vals f) 1 (f_blocks f) nv in
  mkFunc (f_ret f) (f_variadic f) (map (fresh_id m) (f_param_vals f))
    (map (renumber_block m nold) (f_blocks f)) nv
    (map (fun old => if (1 <=? old) && (old <=? nold) then numbered m old else 0) (f_slots f)).
