(* ===== verification/Simplify.v ===== *)
(** [src/opt/simplify.c], second half: the algebraic simplifier over a
    function. [simplify_one] tries the folds and the rewrite rules on one
    instruction, [simplify_func] runs it over the blocks with the replacement
    table and the table of definitions, and [find_may_undef] is the analysis
    that licenses the rules which read an operand twice.

    [CGF_ICE] is [None]. Instructions are shared by pointer between a block
    and the table [defs]: here the table is updated whenever the instruction
    is, under its result id, which one instruction defines. *)
From stdpp Require Import gmap.
From S2P Require Import Prelude.
From S2P Require Import Softfp.
From S2P Require Import Ir.
From S2P Require Import Fold.
From S2P Require Import Renumber.
#[local] Open Scope Z_scope.

(** ** Values that may be undefined *)
Definition operand_may_undef (op : IrOperand) (may_undef : gset Z) (nvals : Z) : bool :=
  if is_kind (o_kind op) IROP_UNDEF then true
  else is_kind (o_kind op) IROP_VALUE && (1 <=? o_a op) && (o_a op <=? nvals) &&
       bool_decide (o_a op ∈ may_undef).

Definition inst_may_produce_undef (i : IrInst) : bool :=
  match in_op i with
  | IR_SDIV | IR_UDIV | IR_SREM | IR_UREM | IR_SHL | IR_LSHR | IR_ASHR | IR_FPTOSI | IR_FPTOUI => true
  | _ => false
  end.

(** A sweep marks values; [moved] says it marked one. *)
Definition Marks : Type := gset Z * bool.
Definition mark (id : Z) (s : Marks) : Marks := ({[id]} ∪ s.1, true).

Definition mark_arg (nvals : Z) (s : Marks) (pa : Z * IrOperand) : Marks :=
  if negb (bool_decide (pa.1 ∈ s.1)) && operand_may_undef pa.2 s.1 nvals then mark pa.1 s else s.
Definition mark_edge (f : IrFunc) (s : Marks) (e : IrEdge) : Marks :=
  match ir_block f (e_target e) with
  | None => s
  | Some target => foldl (mark_arg (f_nvals f)) s (zip (b_params target) (e_args e))
  end.
Definition mark_edges (f : IrFunc) (s : Marks) (i : IrInst) : Marks := foldl (mark_edge f) s (in_edges i).
Definition mark_inst (nvals : Z) (s : Marks) (i : IrInst) : Marks :=
  if (in_result i =? 0) || bool_decide (in_result i ∈ s.1) then s
  else if inst_may_produce_undef i then mark (in_result i) s
  else if existsb (fun op => operand_may_undef op s.1 nvals) (in_ops i) then mark (in_result i) s
  else s.
Definition mark_block (f : IrFunc) (s : Marks) (b : IrBlock) : Marks :=
  let s := foldl (mark_edges f) s (b_insts b) in
  foldl (mark_inst (f_nvals f)) s (b_insts b).
Definition mark_sweep (f : IrFunc) (may_undef : gset Z) : Marks :=
  foldl (mark_block f) (may_undef, false) (f_blocks f).

Fixpoint mark_loop (fuel : nat) (f : IrFunc) (may_undef : gset Z) : option (gset Z) :=
  match fuel with
  | O => None
  | Datatypes.S n =>
    let '(may_undef, moved) := mark_sweep f may_undef in
    if moved then mark_loop n f may_undef else Some may_undef
  end.
(** A sweep that moves marks one of the ids the function defines. *)
Definition find_may_undef (f : IrFunc) : option (gset Z) :=
  mark_loop (Datatypes.S (length (concat (map (fun b => b_params b ++ map in_result (b_insts b)) (f_blocks f))))) f ∅.

(** ** Replacements and definitions *)
Definition Replacements : Type := gmap Z IrOperand.
Definition replacement_of (r : Replacements) (nold : Z) (op : IrOperand) : option IrOperand :=
  if is_kind (o_kind op) IROP_VALUE && (1 <=? o_a op) && (o_a op <=? nold) then
    match r !! o_a op with
    | Some v => if is_kind (o_kind v) IROP_NONE then None else Some v
    | None => None
    end
  else None.
Fixpoint resolve_steps (fuel : nat) (r : Replacements) (nold : Z) (op : IrOperand) : option IrOperand :=
  match replacement_of r nold op with
  | None => Some op
  | Some v => match fuel with O => None | Datatypes.S n => resolve_steps n r nold v end
  end.
Definition resolve_operand (r : Replacements) (nold : Z) (op : IrOperand) : option IrOperand :=
  resolve_steps (Z.to_nat nold) r nold op.
Definition resolve_inst_operand (r : Replacements) (nold : Z) (call_operand : bool) (op : IrOperand) :
    option IrOperand :=
  match resolve_operand r nold op with
  | None => None
  | Some v => Some (if call_operand then ir_arg_carry_provenance v op else v)
  end.

Definition Defs : Type := gmap Z IrInst.
Definition set_def (nold : Z) (d : Defs) (i : IrInst) : Defs :=
  if negb (in_result i =? 0) && (in_result i <=? nold) then <[in_result i := i]> d else d.
Definition build_defs (f : IrFunc) (nold : Z) : Defs :=
  foldl (fun d b => foldl (set_def nold) d (b_insts b)) ∅ (f_blocks f).
Definition def_of (op : IrOperand) (defs : Defs) (nold : Z) : option IrInst :=
  if negb (is_kind (o_kind op) IROP_VALUE) || (o_a op <? 1) || (nold <? o_a op) then None
  else defs !! o_a op.

Definition alloc_inst_value (vals : list IrValInfo) (block : Z) (t : IrType) : Z * list IrValInfo :=
  let vals := vals ++ [mkVal t VDEF_INST block 0] in (Z.of_nat (length vals), vals).
(** The new instruction and the value table; the caller links it. *)
Definition insert2_before (vals : list IrValInfo) (block : Z) (o : IrOp) (t : IrType) (x y : IrOperand) :
    IrInst * list IrValInfo :=
  let '(result, vals) := alloc_inst_value vals block t in (mkInst o t 0 0 result 0 [x; y] [], vals).

Definition swapped_predicate (p : IrIcmp) : IrIcmp :=
  match p with
  | ICMP_EQ => ICMP_EQ | ICMP_NE => ICMP_NE
  | ICMP_SLT => ICMP_SGT | ICMP_SLE => ICMP_SGE | ICMP_SGT => ICMP_SLT | ICMP_SGE => ICMP_SLE
  | ICMP_ULT => ICMP_UGT | ICMP_ULE => ICMP_UGE | ICMP_UGT => ICMP_ULT | ICMP_UGE => ICMP_ULE
  end.

Definition mutate_binary (i : IrInst) (o : IrOp) (x y : IrOperand) : IrInst :=
  let keeps := match o with IR_IADD | IR_ISUB | IR_IMUL => true | _ => false end in
  mkInst o (in_type i) (in_subop i)
    (if keeps then in_flags i else Z.land (in_flags i) (u8 (Z.lnot IRF_NSW)))
    (in_result i) (in_aux i) [x; y] (in_edges i).

(** ** One instruction

    The outcome of [simplify_one]: [return false] is [Keep]; [Remove] carries
    [*replacement_value]; [Change] the value table, the instructions inserted
    before the one simplified and that one as mutated. *)
Inductive Step :=
| Keep
| Remove (v : IrOperand)
| Change (vals : list IrValInfo) (pre : list IrInst) (i : IrInst).

(** A rule fires, falls through to the next one, or stops the compiler. *)
Inductive Rule := Fires (s : Step) | Falls | Ice.
Definition orelse (r s : Rule) : Rule := match r with Falls => s | _ => r end.
#[local] Notation "r 'otherwise' s" := (orelse r s) (at level 90, right associativity).
Definition rule (b : bool) (s : Step) : Rule := if b then Fires s else Falls.

Section one.
  Context (vals : list IrValInfo) (block_id : Z) (defs : Defs) (may_undef : gset Z)
    (replacement : Replacements) (nold : Z) (cfg : option OptConfig).

Definition change (i : IrInst) : Step := Change vals [] i.
Definition resolving (op : IrOperand) (k : IrOperand -> Rule) : Rule :=
  match resolve_operand replacement nold op with Some o => k o | None => Ice end.
(** The definition of an operand, when it has the given opcode and operand
    count. *)
Definition inner_of (op : IrOperand) (o : IrOp) (nops : Z) : option IrInst :=
  match def_of op defs nold with
  | Some d => if opc_eqb (in_op d) o && (in_nops d =? nops) then Some d else None
  | None => None
  end.

Definition rule_fold (i : IrInst) : Rule :=
  match opt_fold_inst i cfg with Some v => Fires (Remove v) | None => Falls end.

Definition rule_icmp_swap (i : IrInst) : Rule :=
  let x := op_at i 0 in let y := op_at i 1 in
  if opc_eqb (in_op i) IR_ICMP && (in_nops i =? 2) && is_kind (o_kind x) IROP_ICONST &&
     negb (is_kind (o_kind y) IROP_ICONST) then
    match icmp_of (in_subop i) with
    | Some p =>
      Fires (change (mkInst IR_ICMP (in_type i) (icmp_code (swapped_predicate p)) (in_flags i) (in_result i)
                       (in_aux i) [y; x] (in_edges i)))
    | None => Ice
    end
  else Falls.

Definition rules_fp (i : IrInst) : Rule :=
  let x := op_at i 0 in let y := op_at i 1 in
  match format_of (in_type i) with
  | Some _ =>
    if in_nops i =? 2 then
      let x_zero := fp_const_is_zero x in let y_zero := fp_const_is_zero y in
      let x_one := fp_const_is_one x in let y_one := fp_const_is_one y in
      let flag (get : OptFastMath -> bool) := match cfg with Some c => get (fast_math c) | None => false end in
      let finite := flag no_nans && flag no_infs in
      let zero_sign_free := flag no_signed_zeros in
      rule (opc_eqb (in_op i) IR_FADD && flag no_nans && zero_sign_free && (x_zero || y_zero))
           (Remove (if x_zero then y else x)) otherwise
      rule (opc_eqb (in_op i) IR_FMUL && flag no_nans && (x_one || y_one)) (Remove (if x_one then y else x)) otherwise
      rule (opc_eqb (in_op i) IR_FMUL && finite && zero_sign_free && (x_zero || y_zero))
           (Remove (ir_op_fconst (in_type i) 0 0)) otherwise
      rule (opc_eqb (in_op i) IR_FSUB && finite && zero_sign_free && operand_equal x y &&
            negb (operand_may_undef x may_undef nold))
           (Remove (ir_op_fconst (in_type i) 0 0))
    else Falls
  | None => Falls
  end.

(** An integer constant whose bits in [mask] are [k]. *)
Definition const_is (op : IrOperand) (mask k : Z) : bool :=
  is_kind (o_kind op) IROP_ICONST && ((o_a op &64 mask) =? k).

Definition rule_identity (i : IrInst) (mask : Z) : Rule :=
  let x := op_at i 0 in let y := op_at i 1 in
  let x_zero := const_is x mask 0 in let y_zero := const_is y mask 0 in
  let iop (o : IrOp) := opc_eqb (in_op i) o in
  rule ((iop IR_IADD && (x_zero || y_zero)) || (iop IR_ISUB && y_zero) || (iop IR_IMUL && const_is y mask 1) ||
        (iop IR_AND && const_is y mask mask) || ((iop IR_OR || iop IR_XOR) && y_zero))
       (Remove (if x_zero && iop IR_IADD then y else x)).

Definition rule_mul_zero (i : IrInst) (mask : Z) : Rule :=
  rule (opc_eqb (in_op i) IR_IMUL && (const_is (op_at i 0) mask 0 || const_is (op_at i 1) mask 0))
       (Remove (iconst_bits (in_type i) 0)).

Definition rule_sub_self (i : IrInst) : Rule :=
  rule (opc_eqb (in_op i) IR_ISUB && operand_equal (op_at i 0) (op_at i 1) &&
        negb (operand_may_undef (op_at i 0) may_undef nold))
       (Remove (iconst_bits (in_type i) 0)).

Definition rule_mul_pow2 (i : IrInst) (width : Z) : Rule :=
  let x := op_at i 0 in let y := op_at i 1 in
  if opc_eqb (in_op i) IR_IMUL then
    let swap := is_kind (o_kind x) IROP_ICONST && negb (is_kind (o_kind y) IROP_ICONST) in
    let value := if swap then y else x in
    let constant := if swap then x else y in
    if is_kind (o_kind constant) IROP_ICONST then
      match power_of_two (o_a constant) width with
      | Some shift =>
        Fires (if shift =? 0 then Remove value
               else change (mutate_binary i IR_SHL value (iconst_bits (in_type i) shift)))
      | None => Falls
      end
    else Falls
  else Falls.

Definition rule_neg_neg (i : IrInst) (mask : Z) : Rule :=
  if opc_eqb (in_op i) IR_ISUB && const_is (op_at i 0) mask 0 then
    match inner_of (op_at i 1) IR_ISUB 2 with
    | Some inner =>
      if const_is (op_at inner 0) mask 0 then resolving (op_at inner 1) (fun v => Fires (Remove v)) else Falls
    | None => Falls
    end
  else Falls.

Definition rule_xor_xor (i : IrInst) : Rule :=
  if opc_eqb (in_op i) IR_XOR && is_kind (o_kind (op_at i 1)) IROP_ICONST then
    match inner_of (op_at i 0) IR_XOR 2 with
    | Some inner =>
      resolving (op_at inner 1) (fun c =>
        if operand_equal c (op_at i 1) then resolving (op_at inner 0) (fun v => Fires (Remove v)) else Falls)
    | None => Falls
    end
  else Falls.

(** The biased shift of a signed division by [2 ^ shift]: the instructions
    inserted, and the instruction itself. *)
Definition signed_recipe (i : IrInst) (x : IrOperand) (width shift : Z) : Step :=
  let t := in_type i in
  let '(sign, vals) := insert2_before vals block_id IR_ASHR t x (iconst_bits t (width - 1)) in
  let '(bias, vals) := insert2_before vals block_id IR_LSHR t (ir_op_value vals (in_result sign))
                         (iconst_bits t (width - shift)) in
  let '(adjusted, vals) := insert2_before vals block_id IR_IADD t x (ir_op_value vals (in_result bias)) in
  let adjusted_op := ir_op_value vals (in_result adjusted) in
  if opc_eqb (in_op i) IR_SDIV then
    Change vals [sign; bias; adjusted] (mutate_binary i IR_ASHR adjusted_op (iconst_bits t shift))
  else
    let '(quotient, vals) := insert2_before vals block_id IR_ASHR t adjusted_op (iconst_bits t shift) in
    let '(product, vals) := insert2_before vals block_id IR_SHL t (ir_op_value vals (in_result quotient))
                              (iconst_bits t shift) in
    Change vals [sign; bias; adjusted; quotient; product]
      (mutate_binary i IR_ISUB x (ir_op_value vals (in_result product))).

Definition rule_div_pow2 (i : IrInst) (width : Z) : Rule :=
  let x := op_at i 0 in let y := op_at i 1 in let t := in_type i in
  let iop (o : IrOp) := opc_eqb (in_op i) o in
  if (iop IR_SDIV || iop IR_SREM || iop IR_UDIV || iop IR_UREM) && is_kind (o_kind y) IROP_ICONST then
    match power_of_two (o_a y) width with
    | None => Falls
    | Some shift =>
      if (iop IR_SDIV || iop IR_SREM) && operand_may_undef x may_undef nold then Fires Keep
      else if (iop IR_SDIV || iop IR_SREM) && (shift =? width - 1) then Fires Keep
      else if shift =? 0 then Fires (Remove (if iop IR_SDIV || iop IR_UDIV then x else iconst_bits t 0))
      else if iop IR_UDIV then Fires (change (mutate_binary i IR_LSHR x (iconst_bits t shift)))
      else if iop IR_UREM then Fires (change (mutate_binary i IR_AND x (iconst_bits t ((1 <<64 shift) -64 1))))
      else Fires (signed_recipe i x width shift)
    end
  else Falls.

Definition rule_shift_pair (i : IrInst) (width mask : Z) : Rule :=
  let x := op_at i 0 in let y := op_at i 1 in
  if (opc_eqb (in_op i) IR_LSHR || opc_eqb (in_op i) IR_ASHR) && is_kind (o_kind y) IROP_ICONST &&
     (o_a y <? width) then
    match inner_of x IR_SHL 2 with
    | Some shifted =>
      if is_kind (o_kind (op_at shifted 1)) IROP_ICONST && (o_a (op_at shifted 1) =? o_a y) then
        resolving (op_at shifted 0) (fun base =>
          if opc_eqb (in_op i) IR_LSHR then
            Fires (change (mutate_binary i IR_AND base (iconst_bits (in_type i) (mask >>64 o_a y))))
          else
            match inner_of base IR_ZEXT 1 with
            | Some extend =>
              if int_width (o_type (op_at extend 0)) =? width - o_a y then
                resolving (op_at extend 0) (fun s =>
                  Fires (change (mkInst IR_SEXT (in_type i) (in_subop i) (in_flags i) (in_result i) (in_aux i)
                                   [s] (in_edges i))))
              else Falls
            | None => Falls
            end)
      else Falls
    | None => Falls
    end
  else Falls.

Definition rules_int (i : IrInst) : Rule :=
  let width := int_width (in_type i) in
  if negb (width =? 0) && (in_nops i =? 2) then
    let mask := width_mask width in
    rule_identity i mask otherwise rule_mul_zero i mask otherwise rule_sub_self i otherwise rule_mul_pow2 i width otherwise
    rule_neg_neg i mask otherwise rule_xor_xor i otherwise rule_div_pow2 i width otherwise rule_shift_pair i width mask
  else Falls.

Definition rule_ult_zext (i : IrInst) : Rule :=
  let x := op_at i 0 in let y := op_at i 1 in
  if opc_eqb (in_op i) IR_ICMP && (in_subop i =? icmp_code ICMP_ULT) && (in_nops i =? 2) &&
     is_kind (o_kind y) IROP_ICONST then
    match inner_of x IR_ZEXT 1 with
    | Some extend =>
      resolving (op_at extend 0) (fun source =>
        let maximum := width_mask (int_width (o_type source)) in
        let threshold := o_a y &64 width_mask (int_width (o_type y)) in
        Fires (if threshold =? 0 then Remove (iconst_bits IRT_I32 0)
               else if maximum <? threshold then Remove (iconst_bits IRT_I32 1)
               else change (set_ops i [source; iconst_bits (o_type source) threshold])))
    | None => Falls
    end
  else Falls.

Definition rule_fneg_fneg (i : IrInst) : Rule :=
  if opc_eqb (in_op i) IR_FNEG && (in_nops i =? 1) then
    match inner_of (op_at i 0) IR_FNEG 1 with
    | Some inner => resolving (op_at inner 0) (fun v => Fires (Remove v))
    | None => Falls
    end
  else Falls.

Definition rule_fabs (i : IrInst) : Rule :=
  if opc_eqb (in_op i) IR_FABS && (in_nops i =? 1) then
    match inner_of (op_at i 0) IR_FABS 1 with
    | Some _ => resolving (op_at i 0) (fun v => Fires (Remove v))
    | None =>
      match inner_of (op_at i 0) IR_FNEG 1 with
      | Some inner => resolving (op_at inner 0) (fun v => Fires (change (set_ops i [v])))
      | None => Falls
      end
    end
  else Falls.

Definition simplify_rules (i : IrInst) : Rule :=
  rule_fold i otherwise rule_icmp_swap i otherwise rules_fp i otherwise rules_int i otherwise rule_ult_zext i otherwise
  rule_fneg_fneg i otherwise rule_fabs i.
Definition simplify_one (i : IrInst) : option Step :=
  match simplify_rules i with Fires s => Some s | Falls => Some Keep | Ice => None end.
End one.

(** ** One function *)
Record Pass := mkPass {
  p_vals : list IrValInfo; p_defs : Defs; p_repl : Replacements; p_changed : bool;
}.

Section func.
  Context (nold : Z) (may_undef : gset Z) (cfg : option OptConfig).

Definition resolve_ops (r : Replacements) (i : IrInst) : option (list IrOperand) :=
  mapM (resolve_inst_operand r nold (opc_eqb (in_op i) IR_CALL)) (in_ops i).

(** The body of the first walk: the instructions that replace [i], and the
    state of the walk. *)
Definition walk_inst (block_id : Z) (s : Pass) (i : IrInst) : option (list IrInst * Pass) :=
  match resolve_ops (p_repl s) i with
  | None => None
  | Some ops =>
    let i := set_ops i ops in
    let defs := set_def nold (p_defs s) i in
    match simplify_one (p_vals s) block_id defs may_undef (p_repl s) nold cfg i with
    | None => None
    | Some Keep => Some ([i], mkPass (p_vals s) defs (p_repl s) (p_changed s))
    | Some (Remove v) => Some ([], mkPass (p_vals s) defs (<[in_result i := v]> (p_repl s)) true)
    | Some (Change vals pre i') => Some (pre ++ [i'], mkPass vals (set_def nold defs i') (p_repl s) true)
    end
  end.
Fixpoint walk_insts (block_id : Z) (s : Pass) (ins : list IrInst) : option (list IrInst * Pass) :=
  match ins with
  | [] => Some ([], s)
  | i :: ins =>
    match walk_inst block_id s i with
    | None => None
    | Some (out, s) =>
      match walk_insts block_id s ins with
      | None => None
      | Some (rest, s) => Some (out ++ rest, s)
      end
    end
  end.
Fixpoint walk_blocks (block_id : Z) (s : Pass) (bs : list IrBlock) : option (list IrBlock * Pass) :=
  match bs with
  | [] => Some ([], s)
  | b :: bs =>
    match walk_insts block_id s (b_insts b) with
    | None => None
    | Some (ins, s) =>
      match walk_blocks (block_id + 1) s bs with
      | None => None
      | Some (rest, s) => Some (mkBlock (b_params b) ins :: rest, s)
      end
    end
  end.

(** The second walk resolves every operand and edge argument. *)
Definition resolve_edge (r : Replacements) (e : IrEdge) : option IrEdge :=
  match mapM (resolve_operand r nold) (e_args e) with
  | None => None
  | Some args => Some (set_edge_args e args)
  end.
Definition resolve_inst (r : Replacements) (i : IrInst) : option IrInst :=
  match resolve_ops r i, mapM (resolve_edge r) (in_edges i) with
  | Some ops, Some edges => Some (set_edges (set_ops i ops) edges)
  | _, _ => None
  end.
Definition resolve_block (r : Replacements) (b : IrBlock) : option IrBlock :=
  match mapM (resolve_inst r) (b_insts b) with
  | None => None
  | Some ins => Some (mkBlock (b_params b) ins)
  end.
End func.

(** ** The pass *)
Definition simplify_func (f : IrFunc) (cfg : option OptConfig) : option (IrFunc * bool) :=
  let nold := f_nvals f in
  match find_may_undef f with
  | None => None
  | Some may_undef =>
    match walk_blocks nold may_undef cfg 1 (mkPass (f_vals f) (build_defs f nold) ∅ false) (f_blocks f) with
    | None => None
    | Some (blocks, s) =>
      if p_changed s then
        match mapM (resolve_block nold (p_repl s)) blocks with
        | None => None
        | Some blocks => Some (ir_func_renumber (set_vals (set_blocks f blocks) (p_vals s)), true)
        end
      else Some (set_vals (set_blocks f blocks) (p_vals s), false)
    end
  end.

Fixpoint opt_simplify (fs : list IrFunc) (cfg : option OptConfig) : option (list IrFunc * bool) :=
  match fs with
  | [] => Some ([], false)
  | f :: fs =>
    match simplify_func f cfg, opt_simplify fs cfg with
    | Some (f', c), Some (fs', cs) => Some (f' :: fs', c || cs)
    | _, _ => None
    end
  end.
