(* ===== verification/IrValues.v ===== *)
(** The values of a function: where they are defined and used, SSA form, the
    operations whose meaning [IrSem] gives, and environments. *)
From stdpp Require Import gmap.
From S2P Require Import Prelude.
From S2P Require Import Ir.
From S2P Require Import IrSem.
#[local] Open Scope Z_scope.

Lemma size_list_to_set_le (l : list Z) : (size (list_to_set l : gset Z) <= length l)%nat.
Proof.
  induction l as [|x l IH]; cbn [list_to_set length]; [by rewrite size_empty|].
  rewrite size_union_alt, size_singleton. pose proof (subseteq_size (list_to_set l ∖ {[x]} : gset Z) (list_to_set l)).
  specialize (H ltac:(set_solver)). lia.
Qed.

(** ** Definitions and uses *)
Definition insts (f : IrFunc) : list IrInst := concat (map b_insts (f_blocks f)).
Definition edges (f : IrFunc) : list IrEdge := concat (map in_edges (insts f)).
Definition defined_ids (f : IrFunc) : list Z :=
  concat (map (fun b => b_params b ++ map in_result (b_insts b)) (f_blocks f)).

(** An edge passes an argument to a parameter. *)
Definition passes (f : IrFunc) (e : IrEdge) (p : Z) (a : IrOperand) : Prop :=
  exists target, ir_block f (e_target e) = Some target /\ (p, a) ∈ zip (b_params target) (e_args e).
(** Everything an instruction reads, and the arguments it passes. *)
Definition inst_uses (i : IrInst) : list IrOperand := in_ops i ++ concat (map e_args (in_edges i)).
(** An operand an instruction of the function reads or passes along an edge. *)
Definition uses (f : IrFunc) (op : IrOperand) : Prop :=
  (exists i, i ∈ insts f /\ op ∈ in_ops i) \/ (exists e, e ∈ edges f /\ op ∈ e_args e).
Definition defines (f : IrFunc) (id : Z) : Prop := id ∈ f_param_vals f ++ defined_ids f.

(** ** Membership *)
Lemma elem_insts f b i : b ∈ f_blocks f -> i ∈ b_insts b -> i ∈ insts f.
Proof.
  intros Hb Hi. unfold insts. apply list_elem_of_In, in_concat. exists (b_insts b).
  split; [apply in_map, list_elem_of_In; done|by apply list_elem_of_In].
Qed.
Lemma elem_edges f i e : i ∈ insts f -> e ∈ in_edges i -> e ∈ edges f.
Proof.
  intros Hi He. unfold edges. apply list_elem_of_In, in_concat. exists (in_edges i).
  split; [apply in_map, list_elem_of_In; done|by apply list_elem_of_In].
Qed.
Lemma elem_defined f b id : b ∈ f_blocks f -> id ∈ b_params b ++ map in_result (b_insts b) -> id ∈ defined_ids f.
Proof.
  intros Hb Hi. unfold defined_ids. apply list_elem_of_In, in_concat. eexists.
  split; [apply in_map, list_elem_of_In; exact Hb|by apply list_elem_of_In].
Qed.
Lemma insts_inv f i : i ∈ insts f -> exists b, b ∈ f_blocks f /\ i ∈ b_insts b.
Proof.
  unfold insts. rewrite list_elem_of_In, in_concat. intros (l & Hl & Hi). apply in_map_iff in Hl as (b & <- & Hb).
  exists b. by rewrite !list_elem_of_In.
Qed.
Lemma edges_inv f e : e ∈ edges f -> exists i, i ∈ insts f /\ e ∈ in_edges i.
Proof.
  unfold edges. rewrite list_elem_of_In, in_concat. intros (l & Hl & Hi). apply in_map_iff in Hl as (i & <- & Hb).
  exists i. by rewrite !list_elem_of_In.
Qed.
Lemma ir_block_elem f id b : ir_block f id = Some b -> b ∈ f_blocks f.
Proof. unfold ir_block. destruct (_ || _); [done|]. apply list_elem_of_lookup_2. Qed.

(** ** SSA form *)
Definition nonzero (l : list Z) : list Z := List.filter (fun v => negb (v =? 0)) l.
(** The values of a function in document order. *)
Definition doc_ids (f : IrFunc) : list Z := nonzero (f_param_vals f ++ defined_ids f).

Record ssa (f : IrFunc) : Prop := {
  ss_nodup : NoDup (doc_ids f);
  ss_range : forall v, v ∈ doc_ids f -> 1 <= v <= f_nvals f;
  ss_u32 : f_nvals f < 2 ^ 32;
}.

Lemma elem_nonzero v l : v ∈ nonzero l <-> v ∈ l /\ v <> 0.
Proof. unfold nonzero. rewrite !list_elem_of_In, List.filter_In, negb_true_iff, Z.eqb_neq. done. Qed.

Lemma result_defined f i : i ∈ insts f -> in_result i <> 0 -> in_result i ∈ doc_ids f.
Proof.
  intros Hi N. apply elem_nonzero. split; [|done]. destruct (insts_inv f i Hi) as (b & Hb & Hib). apply elem_of_app. right.
  apply (elem_defined f b); [done|]. apply elem_of_app. right. apply list_elem_of_In, in_map. by apply list_elem_of_In.
Qed.
Lemma param_defined f b p : b ∈ f_blocks f -> p ∈ b_params b -> p <> 0 -> p ∈ doc_ids f.
Proof.
  intros Hb Hp N. apply elem_nonzero. split; [|done]. apply elem_of_app. right. apply (elem_defined f b); [done|].
  apply elem_of_app. by left.
Qed.

(** ** Values and environments *)
Definition value_op (o : IrOp) : bool :=
  is_int_binop o ||
  match o with
  | IR_ICMP | IR_FCMP | IR_FADD | IR_FSUB | IR_FMUL | IR_FDIV | IR_FNEG | IR_FABS
  | IR_SEXT | IR_ZEXT | IR_TRUNC | IR_FPEXT | IR_FPTRUNC | IR_FPTOSI | IR_FPTOUI
  | IR_SITOFP | IR_UITOFP | IR_BITCAST | IR_PTRADD | IR_SELECT => true
  | _ => false
  end.
Definition single (d : Den) : Prop := forall r r', d r -> d r' -> r = r'.
Definition bind (env : Env) (id : Z) (d : Den) : Env := fun k => if k =? id then d else env k.
(** The arguments of an edge, read before any parameter is bound. *)
Definition bind_args (sym_addr : Z -> Z) (env : Env) (params : list Z) (args : list IrOperand) : Env :=
  fun k => match (list_to_map (zip params args) : gmap Z IrOperand) !! k with
           | Some a => reads sym_addr env a
           | None => env k
           end.
