(* ===== verification/SimplifyUndef.v ===== *)
(** The analysis [find_may_undef]: it terminates, computes exactly the least
    set closed under the ways a value can become undefined, and a value outside
    that set has at most one pattern in every execution. *)
From stdpp Require Import gmap sets relations.
From S2P Require Import Prelude.
From S2P Require Import Softfp.
From S2P Require Import Ir.
From S2P Require Import Fold.
From S2P Require Import IrSem.
From S2P Require Import IrValues.
From S2P Require Import Simplify.
#[local] Open Scope Z_scope.

(** ** The specification *)

Section spec.
  Context (f : IrFunc).

Inductive MayUndef : Z -> Prop :=
| MU_arg e p a : e ∈ edges f -> passes f e p a -> OpMayUndef a -> MayUndef p
| MU_op i : i ∈ insts f -> in_result i <> 0 -> inst_may_produce_undef i = true -> MayUndef (in_result i)
| MU_use i op : i ∈ insts f -> in_result i <> 0 -> op ∈ in_ops i -> OpMayUndef op -> MayUndef (in_result i)
with OpMayUndef : IrOperand -> Prop :=
| OMU_undef op : o_kind op = IROP_UNDEF -> OpMayUndef op
| OMU_value op : o_kind op = IROP_VALUE -> 1 <= o_a op <= f_nvals f -> MayUndef (o_a op) -> OpMayUndef op.

Lemma operand_may_undef_spec op (s : gset Z) : operand_may_undef op s (f_nvals f) = true <->
  o_kind op = IROP_UNDEF \/ (o_kind op = IROP_VALUE /\ 1 <= o_a op <= f_nvals f /\ o_a op ∈ s).
Proof.
  unfold operand_may_undef, is_kind. destruct (bool_decide (o_kind op = IROP_UNDEF)) eqn:E.
  - apply bool_decide_eq_true in E. tauto.
  - apply bool_decide_eq_false in E. rewrite !andb_true_iff, !Z.leb_le, !bool_decide_eq_true. tauto.
Qed.

(** ** A fold of marking steps *)

(** [grows s s']: nothing happened, or new ids of the function were marked. *)
Definition grows (s s' : Marks) : Prop :=
  s' = s \/ (s'.2 = true /\ s.1 ⊂ s'.1 /\ s'.1 ⊆ s.1 ∪ list_to_set (defined_ids f)).
Definition sound (s : Marks) : Prop := forall id, id ∈ s.1 -> MayUndef id.
Definition marks {A} (P : A -> Prop) (step : Marks -> A -> Marks) : Prop :=
  forall s a, P a -> grows s (step s a) /\ (sound s -> sound (step s a)).

Lemma grows_refl s : grows s s.
Proof. by left. Qed.
Lemma grows_trans s s' s'' : grows s s' -> grows s' s'' -> grows s s''.
Proof.
  intros [->|(M & L & U)] [->|(M' & L' & U')]; [by left|by right|by right|]. right. split; [done|].
  split; [set_solver|]. set_solver.
Qed.

Lemma marks_foldl {A} (P : A -> Prop) step l s : marks P step -> (forall a, a ∈ l -> P a) ->
  grows s (foldl step s l) /\ (sound s -> sound (foldl step s l)).
Proof.
  intros H. revert s. induction l as [|a l IH]; intros s Hl; cbn [foldl]; [split; [apply grows_refl|done]|].
  destruct (H s a) as [G S]; [apply Hl; left|]. destruct (IH (step s a)) as [G' S']; [intros; apply Hl; by right|].
  split; [by eapply grows_trans|tauto].
Qed.

(** When nothing moved, no step of the fold did anything. *)
Lemma foldl_idle {A} (P : A -> Prop) step l s : marks P step -> (forall a, a ∈ l -> P a) -> s.2 = false ->
  (foldl step s l).2 = false -> foldl step s l = s /\ forall a, a ∈ l -> step s a = s.
Proof.
  intros H. revert s. induction l as [|a l IH]; intros s Hl Hs; cbn [foldl]; [set_solver|]. intros E.
  destruct (H s a) as [G _]; [apply Hl; left|].
  assert (Hl' : forall a, a ∈ l -> P a) by (intros; apply Hl; by right).
  destruct (marks_foldl P step l (step s a) H Hl') as [G' _].
  assert (Es : step s a = s).
  { destruct G as [G|(M & _)]; [done|]. exfalso. destruct G' as [G'|(M' & _)]; congruence. }
  rewrite Es in *. destruct (IH s Hl' Hs E) as [IH1 IH2]. split; [done|].
  intros b Hb. apply elem_of_cons in Hb as [->|]; auto.
Qed.

Lemma grows_mark id s : id ∈ defined_ids f -> id ∉ s.1 -> grows s (mark id s).
Proof. intros. right. split; [done|]. cbn [mark fst]. set_solver. Qed.
Lemma sound_mark id s : MayUndef id -> sound s -> sound (mark id s).
Proof. unfold sound, mark. cbn [fst]. set_solver. Qed.

Lemma sound_operand s op : sound s -> operand_may_undef op s.1 (f_nvals f) = true -> OpMayUndef op.
Proof.
  intros S H. apply operand_may_undef_spec in H as [H|(H & R & E)]; [by apply OMU_undef|by apply OMU_value; [| |apply S]].
Qed.

Lemma mark_arg_marks e target : e ∈ edges f -> ir_block f (e_target e) = Some target ->
  marks (fun pa => pa ∈ zip (b_params target) (e_args e)) (mark_arg (f_nvals f)).
Proof.
  intros He Ht s [p a] Hp. unfold mark_arg. cbn [fst snd].
  destruct (negb _ && operand_may_undef a s.1 (f_nvals f)) eqn:E; [|by split; [apply grows_refl|]].
  apply andb_true_iff in E as [Hn Hu]. apply negb_true_iff, bool_decide_eq_false in Hn. split.
  - apply grows_mark; [|done]. apply (elem_defined f target); [by eapply ir_block_elem|].
    apply elem_of_app. left. apply list_elem_of_In. apply list_elem_of_In in Hp. by apply in_combine_l in Hp.
  - intros S. apply sound_mark; [|done]. apply (MU_arg e p a); [done|by exists target|by apply (sound_operand s)].
Qed.

Lemma mark_edge_marks : marks (fun e => e ∈ edges f) (mark_edge f).
Proof.
  intros s e He. unfold mark_edge. destruct (ir_block f (e_target e)) as [target|] eqn:Ht; [|by split; [apply grows_refl|]].
  apply (marks_foldl (fun pa => pa ∈ zip (b_params target) (e_args e))); [by apply mark_arg_marks|done].
Qed.

Lemma mark_inst_marks b : b ∈ f_blocks f -> marks (fun i => i ∈ b_insts b) (mark_inst (f_nvals f)).
Proof.
  intros Hb s i Hi. unfold mark_inst.
  destruct ((in_result i =? 0) || bool_decide (in_result i ∈ s.1)) eqn:E; [by split; [apply grows_refl|]|].
  apply orb_false_iff in E as [E0 En]. apply Z.eqb_neq in E0. apply bool_decide_eq_false in En.
  assert (G : grows s (mark (in_result i) s)).
  { apply grows_mark; [|done]. apply (elem_defined f b); [done|]. apply elem_of_app. right.
    apply list_elem_of_In, in_map, list_elem_of_In. done. }
  assert (I : i ∈ insts f) by by apply (elem_insts f b).
  destruct (inst_may_produce_undef i) eqn:P; [split; [done|]; intros; by apply sound_mark; [apply MU_op|]|].
  destruct (existsb _ _) eqn:X; [|by split; [apply grows_refl|]]. split; [done|]. intros S. apply sound_mark; [|done].
  apply existsb_exists in X as (op & Hop & U). apply (MU_use i op); [done|done|by apply list_elem_of_In|by apply (sound_operand s)].
Qed.

Lemma block_edges_marks b : b ∈ f_blocks f ->
  marks (fun i => i ∈ b_insts b) (mark_edges f).
Proof.
  intros Hb s i Hi. apply (marks_foldl (fun e => e ∈ edges f)); [apply mark_edge_marks|].
  intros e. apply elem_edges. by apply (elem_insts f b).
Qed.

Lemma mark_block_marks : marks (fun b => b ∈ f_blocks f) (mark_block f).
Proof.
  intros s b Hb. unfold mark_block.
  destruct (marks_foldl _ _ (b_insts b) s (block_edges_marks b Hb) ltac:(done)) as [G S]. set (s' := foldl (mark_edges f) s (b_insts b)) in *.
  destruct (marks_foldl _ _ (b_insts b) s' (mark_inst_marks b Hb) ltac:(done)) as [G' S'].
  split; [by eapply grows_trans|tauto].
Qed.

Lemma mark_sweep_marks s : grows (s, false) (mark_sweep f s) /\ (sound (s, false) -> sound (mark_sweep f s)).
Proof. apply (marks_foldl (fun b => b ∈ f_blocks f)); [apply mark_block_marks|done]. Qed.

(** ** A sweep that moves nothing leaves a closed set *)
Definition closed (s : gset Z) : Prop :=
  (forall e p a, e ∈ edges f -> passes f e p a -> operand_may_undef a s (f_nvals f) = true -> p ∈ s) /\
  (forall i, i ∈ insts f -> in_result i <> 0 ->
     (inst_may_produce_undef i = true \/ exists op, op ∈ in_ops i /\ operand_may_undef op s (f_nvals f) = true) ->
     in_result i ∈ s).

Lemma mark_moves id s (s' : gset Z) : mark id s = (s', false) -> False.
Proof. done. Qed.

Lemma idle_closed s : (mark_sweep f s).2 = false -> mark_sweep f s = (s, false) /\ closed s.
Proof.
  intros E. destruct (foldl_idle _ _ (f_blocks f) (s, false) mark_block_marks ltac:(done) eq_refl E) as [Es Hb].
  split; [exact Es|]. clear E.
  assert (Idle : forall b, b ∈ f_blocks f ->
    (forall i, i ∈ b_insts b -> mark_edges f (s, false) i = (s, false)) /\
    (forall i, i ∈ b_insts b -> mark_inst (f_nvals f) (s, false) i = (s, false))).
  { intros b Hb'. specialize (Hb b Hb'). unfold mark_block in Hb.
    set (s' := foldl (mark_edges f) (s, false) (b_insts b)) in Hb.
    destruct (marks_foldl _ _ (b_insts b) s' (mark_inst_marks b Hb') ltac:(done)) as [G _].
    assert (M : s'.2 = false).
    { destruct G as [G|(M & _)]; [by rewrite <- G, Hb|]. by rewrite Hb in M. }
    destruct (foldl_idle _ _ (b_insts b) (s, false) (block_edges_marks b Hb') ltac:(done) eq_refl M) as [E1 I1].
    change (s' = (s, false)) in E1. rewrite E1 in Hb.
    destruct (foldl_idle _ _ (b_insts b) (s, false) (mark_inst_marks b Hb') ltac:(done) eq_refl) as [_ I2];
      [by rewrite Hb|]. done. }
  split.
  - intros e p a He (target & Ht & Hp) U. destruct (edges_inv f e He) as (i & Hi & Hei).
    destruct (insts_inv f i Hi) as (b & Hb' & Hib). destruct (Idle b Hb') as [I _]. specialize (I i Hib).
    destruct (foldl_idle _ _ (in_edges i) (s, false) mark_edge_marks) as [_ I2]; [|done|by unfold mark_edges in I; rewrite I|].
    { intros e' He'. by apply (elem_edges f i). }
    specialize (I2 e Hei). unfold mark_edge in I2. rewrite Ht in I2.
    destruct (foldl_idle _ _ _ (s, false) (mark_arg_marks e target He Ht) (fun _ H => H) eq_refl) as [_ I3]; [by rewrite I2|].
    specialize (I3 (p, a) Hp). unfold mark_arg in I3. cbn [fst snd] in I3. rewrite U, andb_true_r in I3.
    destruct (bool_decide (p ∈ s)) eqn:D; [by apply bool_decide_eq_true in D|]. by apply mark_moves in I3.
  - intros i Hi Hr H. destruct (insts_inv f i Hi) as (b & Hb' & Hib). destruct (Idle b Hb') as [_ I]. specialize (I i Hib).
    unfold mark_inst in I. cbn [fst] in I. rewrite (proj2 (Z.eqb_neq _ _) Hr) in I. cbn [orb] in I.
    destruct (bool_decide (in_result i ∈ s)) eqn:D; [by apply bool_decide_eq_true in D|].
    destruct (inst_may_produce_undef i); [by apply mark_moves in I|].
    destruct H as [H|(op & Hop & U)]; [done|].
    assert (X : existsb (fun op => operand_may_undef op s (f_nvals f)) (in_ops i) = true).
    { apply existsb_exists. exists op. by rewrite <- list_elem_of_In. }
    rewrite X in I. by apply mark_moves in I.
Qed.

Lemma closed_complete s : closed s ->
  (forall id, MayUndef id -> id ∈ s) /\ (forall op, OpMayUndef op -> operand_may_undef op s (f_nvals f) = true).
Proof.
  intros [C1 C2].
  assert (V : forall op, o_kind op = IROP_VALUE -> 1 <= o_a op <= f_nvals f -> o_a op ∈ s ->
    operand_may_undef op s (f_nvals f) = true).
  { intros. apply operand_may_undef_spec. by right. }
  assert (U : forall op, o_kind op = IROP_UNDEF -> operand_may_undef op s (f_nvals f) = true).
  { intros. apply operand_may_undef_spec. by left. }
  assert (H : forall id, MayUndef id -> id ∈ s).
  { fix IH 2. intros id M. destruct M as [e p a He Hp M|i Hi Hr P|i op Hi Hr Ho M].
    - apply (C1 e p a He Hp). destruct M as [op K|op K R M]; [by apply U|by apply V; [| |apply IH]].
    - apply (C2 i Hi Hr). by left.
    - apply (C2 i Hi Hr). right. exists op. split; [done|]. destruct M as [op K|op K R M]; [by apply U|by apply V; [| |apply IH]]. }
  split; [exact H|]. intros op [op' K|op' K R M]; [by apply U|by apply V; [| |apply H]].
Qed.

(** ** Termination: a sweep that moves marks an id that was not marked *)
Lemma mark_loop_spec fuel s : s ⊆ list_to_set (defined_ids f) -> sound (s, false) ->
  (size (list_to_set (defined_ids f) : gset Z) < size s + fuel)%nat ->
  exists mu, mark_loop fuel f s = Some mu /\ sound (mu, false) /\ closed mu.
Proof.
  revert s. induction fuel as [|fuel IH]; intros s I S L.
  - pose proof (subseteq_size _ _ I). lia.
  - cbn [mark_loop]. destruct (mark_sweep_marks s) as [G S']. specialize (S' S).
    destruct (mark_sweep f s) as [s' moved] eqn:E. destruct moved.
    + destruct G as [G|(_ & L1 & U)]; [done|]. cbn [fst] in L1, U. apply IH.
      * set_solver.
      * exact S'.
      * pose proof (subset_size _ _ L1). lia.
    + destruct (idle_closed s) as [Es C]; [by rewrite E|]. rewrite E in Es. injection Es as ->. by exists s.
Qed.

Lemma find_may_undef_spec : exists mu, find_may_undef f = Some mu /\ sound (mu, false) /\ closed mu.
Proof.
  apply mark_loop_spec; [set_solver|by intros id ?%not_elem_of_empty|].
  rewrite size_empty. pose proof (size_list_to_set_le (defined_ids f)). unfold defined_ids in *. lia.
Qed.
End spec.

(** ** Executions

    An execution binds the results of instructions and the parameters of
    branch targets, in any order. The value operations get their meaning; the
    result of any other instruction (a load, a call) is some single pattern. *)
Section execution.
  Context (sym_addr : Z -> Z) (fpu : FpTarget) (f : IrFunc).

Inductive exec_step (env : Env) : Env -> Prop :=
| exec_value i : i ∈ insts f -> in_result i <> 0 -> value_op (in_op i) = true ->
    exec_step env (bind env (in_result i) (den sym_addr fpu env i))
| exec_opaque i v : i ∈ insts f -> in_result i <> 0 -> value_op (in_op i) = false ->
    exec_step env (bind env (in_result i) (eq v))
| exec_branch e target : e ∈ edges f -> ir_block f (e_target e) = Some target ->
    exec_step env (bind_args sym_addr env (b_params target) (e_args e)).

(** Parameters and results carry ids of the value table. *)
Definition ids_ok : Prop :=
  (forall b p, b ∈ f_blocks f -> p ∈ b_params b -> 1 <= p <= f_nvals f) /\
  (forall i, i ∈ insts f -> 0 <= in_result i <= f_nvals f).

Lemma may_undef_range id : ids_ok -> MayUndef f id -> 1 <= id <= f_nvals f.
Proof.
  intros [P R] M. destruct M as [e p a He (target & Ht & Hp) _|i Hi Hr _|i op Hi Hr _ _].
  - apply (P target); [by eapply ir_block_elem|]. apply list_elem_of_In. apply list_elem_of_In in Hp. by apply in_combine_l in Hp.
  - pose proof (R i Hi). lia.
  - pose proof (R i Hi). lia.
Qed.

Lemma fp_result_single o t fmt vs s : signed_zeros fpu = true -> single (fp_result fpu o t fmt vs s).
Proof. intros Sz r r'. unfold fp_result. rewrite Sz, andb_false_r. destruct (is_cls SF_NAN s); congruence. Qed.
Lemma result_of_single i vs : signed_zeros fpu = true -> inst_may_produce_undef i = false -> single (result_of fpu i vs).
Proof.
  intros Sz P r r'. unfold inst_may_produce_undef in P. unfold result_of.
  destruct vs as [|x [|y [|z [|? ?]]]]; try done; destruct (in_op i); try done; cbn [is_int_binop andb int_sem];
    repeat (match goal with
      | |- (match (match ?m with _ => _ end) with _ => _ end) _ -> _ => destruct m
      | |- (match ?m with _ => _ end) _ -> _ => destruct m end); try done; try congruence; by apply fp_result_single.
Qed.

Lemma Forall2_single env ops vs vs' : (forall op, op ∈ ops -> single (reads sym_addr env op)) ->
  Forall2 (reads sym_addr env) ops vs -> Forall2 (reads sym_addr env) ops vs' -> vs = vs'.
Proof.
  intros S H. revert vs'. induction H as [|op v ops vs Hv H IH]; intros vs' H'; inversion H' as [|? v' ? ws' Hv' T]; subst; [done|].
  f_equal; [by apply (S op); [left| |]|]. apply IH; [|done]. intros. apply S. by right.
Qed.

Context (mu : gset Z) (Ids : ids_ok) (Hmu : find_may_undef f = Some mu).

Lemma mu_exact : (forall id, id ∈ mu <-> MayUndef f id) /\
  (forall op, OpMayUndef f op <-> operand_may_undef op mu (f_nvals f) = true).
Proof using Hmu.
  destruct (find_may_undef_spec f) as (mu' & E & S & C). rewrite E in Hmu. injection Hmu as ->.
  destruct (closed_complete f mu C) as [H1 H2]. split; split; [apply S|apply H1|apply H2|by apply (sound_operand f (mu, false))].
Qed.

Lemma reads_single env op : (forall id, id ∉ mu -> single (env id)) -> ~ OpMayUndef f op -> single (reads sym_addr env op).
Proof using Ids Hmu.
  intros S N r r'. unfold reads. destruct (o_kind op) eqn:K; try (congruence || done).
  - apply S. intros M. apply mu_exact in M. apply N, OMU_value; [done|by apply may_undef_range|done].
  - exfalso. by apply N, OMU_undef.
Qed.

Lemma single_step env env' : signed_zeros fpu = true -> (forall id, id ∉ mu -> single (env id)) -> exec_step env env' ->
  forall id, id ∉ mu -> single (env' id).
Proof using Ids Hmu.
  intros Sz S [i Hi Hr V|i v Hi Hr V|e target He Ht] id Hid.
  - unfold bind. destruct (Z.eqb_spec id (in_result i)) as [->|]; [|by apply S].
    assert (N : ~ MayUndef f (in_result i)) by (by rewrite <- (proj1 mu_exact)).
    assert (Sops : forall op, op ∈ in_ops i -> single (reads sym_addr env op)).
    { intros op Hop. apply reads_single; [done|]. intros M. by apply N, (MU_use f i op). }
    intros r r' (vs & Hvs & R) (vs' & Hvs' & R'). rewrite (Forall2_single env _ _ _ Sops Hvs' Hvs) in R'.
    apply (result_of_single i vs); [done| |done|done]. destruct (inst_may_produce_undef i) eqn:P; [|done].
    exfalso. by apply N, MU_op.
  - unfold bind. destruct (Z.eqb_spec id (in_result i)); [intros r r'; congruence|by apply S].
  - unfold bind_args. destruct (_ !! id) as [a|] eqn:L; [|by apply S]. apply reads_single; [done|].
    intros M. apply elem_of_list_to_map_2 in L. apply Hid, mu_exact. apply (MU_arg f e id a); [done|by exists target|done].
Qed.
End execution.

(** ** Properties of the code *)

(** The analysis terminates on every function and returns exactly the
    least set of values closed under the ways a value becomes undefined: an
    operation that may be undefined, an operand that may be, an argument passed
    to a block parameter that may be, through every loop of the function. *)
Theorem find_may_undef_exact f : exists mu, find_may_undef f = Some mu /\
  (forall id, id ∈ mu <-> MayUndef f id) /\
  (forall op, operand_may_undef op mu (f_nvals f) = true <-> OpMayUndef f op).
Proof.
  destruct (find_may_undef_spec f) as (mu & E & _). exists mu. split; [done|].
  destruct (mu_exact f mu E) as [H1 H2]. split; [done|]. intros op. by rewrite H2.
Qed.

(** Invariant of execution: from an environment in which every value has
    at most one pattern, along any sequence of instruction results and
    branches, a value the analysis does not mark keeps at most one pattern, so
    reading it twice gives the same bits, on a target that observes the sign
    of a zero. *)
Theorem unmarked_values_single sym_addr fpu f mu env0 env :
  signed_zeros fpu = true -> ids_ok f -> find_may_undef f = Some mu -> (forall id, single (env0 id)) ->
  rtc (exec_step sym_addr fpu f) env0 env -> forall id, id ∉ mu -> single (env id).
Proof.
  intros Sz Ids E S0 X. assert (S : forall id, id ∉ mu -> single (env0 id)) by auto. clear S0.
  induction X as [|env0 env1 env2 X1 X IH]; [done|]. apply IH. intros id. by apply (single_step sym_addr fpu f mu Ids E env0).
Qed.

(** A loop that carries the quotient of the parameter back to it: value 2 (the
    block parameter) and value 3 (the quotient) are marked, value 1 is not. *)
Definition undef_loop : IrFunc :=
  let v id := mkOp IROP_VALUE IRT_I32 0 0 id 0 in
  mkFunc IRT_VOID false [1]
    [mkBlock [] [mkInst IR_BR IRT_VOID 0 0 0 0 [] [mkEdge 2 [v 1] 0]];
     mkBlock [2] [mkInst IR_SDIV IRT_I32 0 0 3 0 [v 2; v 1] []; mkInst IR_BR IRT_VOID 0 0 0 0 [] [mkEdge 2 [v 3] 0]]]
    (replicate 3 (mkVal IRT_I32 VDEF_NONE 0 0)) [].
Lemma unmarked_values_single_witness :
  exists mu env, find_may_undef undef_loop = Some mu /\ rtc (exec_step id plain_fpu undef_loop) (fun _ => eq 7) env /\
    (forall r, env 3 r -> r = 1) /\ single (env 1).
Proof.
  set (i := mkInst IR_SDIV IRT_I32 0 0 3 0 [mkOp IROP_VALUE IRT_I32 0 0 2 0; mkOp IROP_VALUE IRT_I32 0 0 1 0] []).
  set (env := bind (fun _ => eq 7) 3 (den id plain_fpu (fun _ => eq 7) i)).
  assert (X : rtc (exec_step id plain_fpu undef_loop) (fun _ => eq 7) env).
  { apply rtc_once. apply (exec_value id plain_fpu undef_loop (fun _ => eq 7) i); [|done|done].
    right. left. }
  assert (E : find_may_undef undef_loop = Some {[2; 3]}) by (vm_compute; reflexivity).
  exists {[2; 3]}, env. split; [exact E|]. split; [exact X|]. split.
  - intros r (vs & H & R). inversion H as [|? x ? ? Hx T]; subst. inversion T as [|? y ? ? Hy T']; subst. inversion T'; subst.
    unfold reads in Hx, Hy. cbn in Hx, Hy. subst. by vm_compute in R.
  - refine (unmarked_values_single id plain_fpu undef_loop {[2; 3]} (fun _ => eq 7) env eq_refl _ E _ X 1 _).
    + split.
      * intros b p Hb Hp. apply list_elem_of_In in Hb, Hp. cbn in Hb. destruct Hb as [<-|[<-|[]]]; cbn in Hp; [done|].
        destruct Hp as [<-|[]]. change (f_nvals undef_loop) with 3. lia.
      * intros j Hj. apply list_elem_of_In in Hj. cbn in Hj. change (f_nvals undef_loop) with 3.
        destruct Hj as [<-|[<-|[<-|[]]]]; cbn; lia.
    + intros k r r' <- <-. reflexivity.
    + set_solver.
Defined.
