(* ===== verification/SimplifyArith.v ===== *)
(** The integer identities behind the rewrite rules of the simplifier, at the
    four widths: powers of two, the biased shift of a signed division, and
    shift pairs. *)
From S2P Require Import Prelude.
From S2P Require Import Softfp.
From S2P Require Import Ir.
From S2P Require Import Fold.
From S2P Require Import IrSem.
From S2P Require Import FoldFacts.
#[local] Open Scope Z_scope.

(** ** Powers of two *)
Lemma land_pred_zero v : 0 < v -> Z.land v (v - 1) = 0 -> v = 2 ^ Z.log2 v.
Proof.
  intros Hv E. pose proof (Z.log2_spec v Hv) as [L U]. pose proof (Z.log2_nonneg v).
  destruct (Z.eq_dec v (2 ^ Z.log2 v)) as [|N]; [done|]. exfalso.
  assert (T : Z.testbit (Z.land v (v - 1)) (Z.log2 v) = true).
  { rewrite Z.land_spec, Z.bit_log2 by done. cbn [andb].
    replace (Z.log2 v) with (Z.log2 (v - 1)) by (apply Z.log2_unique; lia).
    apply Z.bit_log2. pose proof (pow2_pos (Z.log2 v)). lia. }
  by rewrite E, Z.bits_0 in T.
Qed.

Lemma shift_count s : 0 <= s < 64 ->
  (while 64 (fun '(v, _) => negb (v =? 0)) (fun '(v, n) => (v >>64 1, n + 1)) (2 ^ s >>64 1, 0)).2 = s.
Proof.
  intros Hs. set (cond := fun '(v, _) => _). set (body := fun '(v, n) => _).
  assert (D : forall n, 0 <= n -> 2 ^ s >>64 (n + 1) = if n <? s then 2 ^ (s - (n + 1)) else 0).
  { intros n Hn. rewrite Z.shiftr_div_pow2 by lia. destruct (Z.ltb_spec n s).
    - rewrite <- Z.pow_sub_r by lia. done.
    - apply Z.div_small. pose proof (pow2_pos s). pose proof (pow2_lt s (n + 1)). lia. }
  destruct (while_inv (fun '(u, n) => u = 2 ^ s >>64 (n + 1) /\ 0 <= n <= s)
              (fun '(u, n) => Z.to_nat (s - n)) cond body 64 (2 ^ s >>64 1, 0)) as [I C].
  - split; [done|lia].
  - lia.
  - intros [u n] [Eu Hn] Hc. unfold cond, body in *. apply negb_true_iff, Z.eqb_neq in Hc.
    rewrite D in Eu by lia. destruct (Z.ltb_spec n s); [|done]. split; [split; [|lia]|lia].
    rewrite D by lia. subst u. rewrite Z.shiftr_div_pow2 by lia. destruct (Z.ltb_spec (n + 1) s).
    + rewrite <- Z.pow_sub_r by lia. f_equal. lia.
    + replace (s - (n + 1)) with 0 by lia. done.
  - set (r := while _ _ _ _) in *. destruct r as [u n]. destruct I as [Eu Hn]. unfold cond in C.
    apply negb_false_iff, Z.eqb_eq in C. rewrite D in Eu by lia. cbn [snd].
    destruct (Z.ltb_spec n s); [|lia]. pose proof (pow2_pos (s - (n + 1))). lia.
Qed.

Lemma power_of_two_spec v w s : is_width w -> power_of_two v w = Some s -> v &64 width_mask w = 2 ^ s /\ 0 <= s < w.
Proof.
  intros W. unfold power_of_two. pose proof (mask_range w v W) as R. set (m := v &64 width_mask w) in *.
  destruct (width_pos w W) as (Hw & Hp & _).
  destruct ((m =? 0) || _) eqn:E; [done|]. apply orb_false_iff in E as [E1 E2].
  apply Z.eqb_neq in E1. apply negb_false_iff, Z.eqb_eq in E2.
  rewrite u64_small in E2 by (unfold is_u64; lia).
  pose proof (land_pred_zero m ltac:(lia) E2) as Em. pose proof (Z.log2_nonneg m).
  assert (L : Z.log2 m < w) by (apply Z.log2_lt_pow2; lia).
  pose proof (shift_count (Z.log2 m) ltac:(lia)) as C. rewrite <- Em in C. rewrite C. by intros [= <-].
Qed.

(** ** Signed readings *)
Lemma sgn_small w x : is_width w -> 0 <= x < 2 ^ (w - 1) -> sgn w x = x.
Proof. intros W H. unfold sgn. destruct (Z.ltb_spec x (2 ^ (w - 1))); lia. Qed.
Lemma sgn_of_mod w z : is_width w -> - 2 ^ (w - 1) <= z < 2 ^ (w - 1) -> sgn w (z mod 2 ^ w) = z.
Proof.
  intros W H. destruct (width_pos w W) as (_ & ? & E & ?). unfold sgn. destruct (Z.ltb_spec z 0).
  - replace (z mod 2 ^ w) with (z + 2 ^ w) by (apply Z.mod_unique with (-1); lia).
    destruct (Z.ltb_spec (z + 2 ^ w) (2 ^ (w - 1))); lia.
  - rewrite Z.mod_small by lia. destruct (Z.ltb_spec z (2 ^ (w - 1))); lia.
Qed.

Lemma mod_cong a b m : 0 < m -> (exists k, a = b + k * m) -> a mod m = b mod m.
Proof. intros Hm [k ->]. apply Z.mod_add. lia. Qed.

(** The sign mask and the bias of the division recipe. *)
Lemma sign_mask w x : is_width w -> 0 <= x < 2 ^ w ->
  (sgn w x / 2 ^ (w - 1)) mod 2 ^ w = if sgn w x <? 0 then 2 ^ w - 1 else 0.
Proof.
  intros W H. destruct (width_pos w W) as (_ & ? & E & ?). destruct (sgn_cases w x W H) as [_ R].
  destruct (Z.ltb_spec (sgn w x) 0).
  - replace (sgn w x / 2 ^ (w - 1)) with (-1) by (apply Z.div_unique with (sgn w x + 2 ^ (w - 1)); lia).
    symmetry. apply Z.mod_unique with (-1); lia.
  - rewrite Z.div_small by lia. by apply Z.mod_0_l; lia.
Qed.

Lemma sign_bias w s n : is_width w -> 0 < s < w -> (if (n <? 0)%Z then 2 ^ w - 1 else 0) / 2 ^ (w - s) =
  if n <? 0 then 2 ^ s - 1 else 0.
Proof.
  intros W H. pose proof (pow2_pos (w - s)). destruct (n <? 0); [|by apply Z.div_0_l; lia].
  symmetry. apply Z.div_unique with (2 ^ (w - s) - 1); [lia|]. rewrite (pow2_sub w (w - s)) by lia.
  replace (w - (w - s)) with s by lia. lia.
Qed.

Lemma quot_floor n m : 0 < m -> Z.quot n m = (n + if n <? 0 then m - 1 else 0) / m.
Proof.
  intros Hm. destruct (Z.ltb_spec n 0).
  - rewrite <- (Z.opp_involutive n), Z.quot_opp_l, Z.quot_div_nonneg by lia.
    apply Z.div_unique with (m - 1 - (- n) mod m).
    + pose proof (Z.mod_pos_bound (- n) m Hm). lia.
    + pose proof (Z.div_mod (- n) m). nia.
  - rewrite Z.add_0_r. apply Z.quot_div_nonneg; lia.
Qed.

Section recipe.
  Context (w s x : Z) (W : is_width w) (Hs : 0 < s < w - 1) (Hx : 0 <= x < 2 ^ w).
  #[local] Notation "'n'" := (sgn w x).

Definition recipe_bias : Z := if n <? 0 then 2 ^ s - 1 else 0.
Definition recipe_adjusted : Z := (x + recipe_bias) mod 2 ^ w.
Definition recipe_quotient : Z := (sgn w recipe_adjusted / 2 ^ s) mod 2 ^ w.

Lemma recipe_bias_spec : ((sgn w x / 2 ^ (w - 1)) mod 2 ^ w) / 2 ^ (w - s) = recipe_bias.
Proof using W Hs Hx. rewrite sign_mask by done. apply sign_bias; [done|lia]. Qed.

Lemma recipe_divisor : sgn w (2 ^ s) = 2 ^ s.
Proof using W Hs. pose proof (pow2_pos s). pose proof (pow2_lt s (w - 1)). apply sgn_small; [done|lia]. Qed.

Lemma adjusted_signed : sgn w recipe_adjusted = n + recipe_bias.
Proof using W Hs Hx.
  destruct (width_pos w W) as (_ & ? & E & ?). destruct (sgn_cases w x W Hx) as [Ex R].
  pose proof (pow2_pos s). pose proof (pow2_lt s (w - 1)).
  rewrite <- (sgn_of_mod w (n + recipe_bias)); [|done|unfold recipe_bias; destruct (Z.ltb_spec n 0); lia].
  f_equal. unfold recipe_adjusted. rewrite Z.add_mod, <- (sgn_mod w x), <- Z.add_mod by (done || lia). done.
Qed.

Lemma recipe_quotient_spec : recipe_quotient = Z.quot n (2 ^ s) mod 2 ^ w.
Proof using W Hs Hx.
  unfold recipe_quotient. rewrite adjusted_signed, quot_floor by (apply pow2_pos; lia). done.
Qed.

Lemma recipe_remainder_spec : (x - (recipe_quotient * 2 ^ s) mod 2 ^ w) mod 2 ^ w = Z.rem n (2 ^ s) mod 2 ^ w.
Proof using W Hs Hx.
  destruct (width_pos w W) as (_ & ? & _).
  rewrite recipe_quotient_spec, Z.mul_mod_idemp_l, Zminus_mod_idemp_r by lia.
  rewrite <- Zminus_mod_idemp_l, <- (sgn_mod w x), Zminus_mod_idemp_l by done.
  f_equal. pose proof (Z.quot_rem' n (2 ^ s)). lia.
Qed.
End recipe.

(** ** Shift pairs *)
Lemma shl_lshr w k x : is_width w -> 0 <= k < w -> ((x * 2 ^ k) mod 2 ^ w) / 2 ^ k = Z.land x (width_mask w >>64 k).
Proof.
  intros W H. rewrite width_mask_ones by done. pose proof (pow2_pos k). pose proof (pow2_pos (w - k)).
  rewrite (pow2_sub w k) by lia. rewrite Z.mul_mod_distr_r, Z.div_mul by lia.
  replace ((2 ^ (w - k) * 2 ^ k - 1) >>64 k) with (2 ^ (w - k) - 1).
  - symmetry. apply land_ones_mod. lia.
  - rewrite Z.shiftr_div_pow2 by lia. apply Z.div_unique with (2 ^ k - 1); [lia|ring].
Qed.

Lemma shl_ashr w k x : is_width w -> is_width (w - k) -> 0 <= k < w -> 0 <= x < 2 ^ (w - k) ->
  (sgn w ((x * 2 ^ k) mod 2 ^ w) / 2 ^ k) mod 2 ^ w = sgn (w - k) x mod 2 ^ w.
Proof.
  intros W W' H Hx. pose proof (pow2_pos k). pose proof (pow2_pos (w - k)). f_equal.
  destruct (sgn_cases (w - k) x W' Hx) as [_ R].
  assert (E : sgn w ((x * 2 ^ k) mod 2 ^ w) = sgn (w - k) x * 2 ^ k).
  { rewrite <- (sgn_of_mod w (sgn (w - k) x * 2 ^ k)).
    - f_equal. rewrite (pow2_sub w k) by lia. rewrite !Z.mul_mod_distr_r by lia. by rewrite sgn_mod.
    - done.
    - replace (w - 1) with ((w - k - 1) + k) by lia. rewrite Z.pow_add_r by (destruct (width_pos _ W'); lia). nia. }
  rewrite E. apply Z.div_mul. lia.
Qed.
