(* ===== verification/SimplifyRules.v ===== *)
(** Every rewrite rule of the simplifier is sound: what it puts in place of an
    instruction is well typed and gives only values the instruction may give. *)
From stdpp Require Import gmap.
From S2P Require Import Prelude.
From S2P Require Import Softfp.
From S2P Require Import SoftfpArith.
From S2P Require Import SoftfpBits.
From S2P Require Import Ir.
From S2P Require Import Fold.
From S2P Require Import IrSem.
From S2P Require Import FoldFacts.
From S2P Require Import FoldCorrect.
From S2P Require Import Simplify.
From S2P Require Import IrValues.
From S2P Require Import SimplifyUndef.
From S2P Require Import SimplifyArith.
#[local] Open Scope Z_scope.

#[export] Instance refines_preorder : PreOrder refines.
Proof. split; [by intros d r|]. intros d d' d'' H H' r Hr. by apply H', H. Qed.
Lemma refines_refl d : refines d d.
Proof. done. Qed.
#[export] Hint Resolve refines_refl : core.

(** ** Well-formed operands, instructions and environments *)
Section wf.
  (** [narrow]: whether integer constants are known to be reduced to their
      width, which the folds of [zext] and [select] rely on. *)
  Context (narrow : Prop) (ret : IrType) (variadic : bool) (vals : list IrValInfo).

Record fits (op : IrOperand) : Prop := {
  fit_ok : operand_ok op;
  fit_narrow : narrow -> o_kind op = IROP_ICONST -> o_a op < 2 ^ type_bits (o_type op);
  fit_kind : match o_kind op with
             | IROP_NONE => False
             | IROP_VALUE => 1 <= o_a op <= Z.of_nat (length vals) /\ o_type op = ir_value_type vals (o_a op)
             | IROP_FCONST => exists f, format_of (o_type op) = Some f
             | IROP_SYMBOL => type_bits (o_type op) = 64
             | _ => True
             end;
}.

Record well (i : IrInst) : Prop := {
  w_ops : Forall fits (in_ops i);
  w_types : value_op (in_op i) = true -> inst_types_ok ret variadic i = true;
  w_narrow : in_op i = IR_ZEXT \/ in_op i = IR_SELECT -> narrow;
  w_result : value_op (in_op i) = true -> in_result i <> 0;
  w_vtype : in_result i <> 0 ->
            1 <= in_result i <= Z.of_nat (length vals) /\ ir_value_type vals (in_result i) = in_type i;
}.

(** [mu]: the values that may be undefined. *)
Record env_ok (mu : gset Z) (env : Env) : Prop := {
  eo_inhabited : forall id, 1 <= id <= Z.of_nat (length vals) -> inhabited (env id);
  eo_range : forall id r, 1 <= id <= Z.of_nat (length vals) -> env id r -> any (ir_value_type vals id) r;
  eo_single : forall id, 1 <= id <= Z.of_nat (length vals) -> id ∉ mu -> single (env id);
}.

Lemma type_bits_nonneg t : 0 <= type_bits t.
Proof. by destruct t. Qed.

Lemma op_fits i n : well i -> (n < length (in_ops i))%nat -> fits (op_at i n).
Proof.
  intros W H. destruct (lookup_lt_is_Some_2 (in_ops i) n H) as [op E]. unfold op_at. rewrite E.
  exact (proj1 (Forall_lookup _ _) (w_ops _ W) _ _ E).
Qed.

Lemma fits_iconst_bits t v : int_width t <> 0 -> fits (iconst_bits t v).
Proof.
  intros H. split; [by apply iconst_bits_ok| |done]. intros _ _. destruct (int_width_cases t H) as (W & E & _).
  cbn [iconst_bits o_a o_type]. rewrite E. apply mask_range, W.
Qed.

(** ** Operands in an environment *)
Lemma reads_inhabited sym_addr env op : (forall id, 1 <= id <= Z.of_nat (length vals) -> inhabited (env id)) ->
  fits op -> inhabited (reads sym_addr env op).
Proof.
  intros I [Ok _ K]. unfold inhabited, reads. destruct (o_kind op) eqn:E; try done; try (by eexists).
  - exact (I _ (proj1 K)).
  - exists 0. unfold any. pose proof (pow2_pos _ (type_bits_nonneg (o_type op))). lia.
Qed.
Lemma well_foldable sym_addr env i : (forall id, 1 <= id <= Z.of_nat (length vals) -> inhabited (env id)) ->
  well i -> value_op (in_op i) = true -> foldable sym_addr env ret variadic i.
Proof.
  intros I W V. split; [by apply (w_types i W)| | |].
  - exact (List.Forall_impl _ fit_ok (w_ops _ W)).
  - exact (List.Forall_impl _ (fun op => reads_inhabited sym_addr env op I) (w_ops _ W)).
  - intros Z K. pose proof (w_narrow _ W Z) as N. unfold op_at in *.
    destruct (in_ops i !! 0%nat) as [op|] eqn:E; [|done]. cbn [default] in *.
    exact (fit_narrow _ (proj1 (Forall_lookup _ _) (w_ops _ W) _ _ E) N K).
Qed.

Section env.
  Context (sym_addr : Z -> Z) (mu : gset Z) (env : Env) (EO : env_ok mu env).
  #[local] Notation "'rd'" := (reads sym_addr env).

Lemma reads_range op r : fits op -> rd op r -> any (o_type op) r.
Proof using EO.
  intros [Ok _ K] R. unfold reads in R. unfold operand_ok in Ok. pose proof (type_bits_nonneg (o_type op)) as N.
  pose proof (pow2_pos _ N) as P. unfold any.
  destruct (o_kind op); try done.
  - destruct K as [I ->]. by apply (eo_range _ _ EO).
  - subst r. apply Z.mod_pos_bound. lia.
  - destruct K as [f Hf]. destruct (format_layout _ f Hf) as (_ & _ & E & _).
    destruct Ok as (_ & _ & Ok). rewrite Hf in Ok. rewrite E, <- R. apply Ok.
  - rewrite K, <- R. by apply Z.mod_pos_bound.
Qed.

Lemma single_reads op nold : fits op -> operand_may_undef op mu nold = false ->
  (forall id, id ∈ mu -> 1 <= id <= nold) -> single (rd op).
Proof using EO.
  intros [Ok _ K] H Hmu r r'. unfold operand_may_undef, is_kind in H. unfold reads.
  destruct (o_kind op) eqn:E; cbn in H; try (congruence || done).
  destruct K as [I _]. apply (eo_single _ _ EO); [done|]. intros M. pose proof (Hmu _ M).
  rewrite !(proj2 (Z.leb_le _ _)), (bool_decide_eq_true_2 _ M) in H by lia. done.
Qed.
End env.
End wf.

(** ** Growing the value table *)
Lemma ir_value_type_app vals tail id : 0 <= id <= Z.of_nat (length vals) ->
  ir_value_type (vals ++ tail) id = ir_value_type vals id.
Proof.
  intros H. unfold ir_value_type. rewrite length_app. destruct (Z.eqb_spec id 0); [done|]. cbn [orb].
  destruct (Z.ltb_spec (Z.of_nat (length vals)) id), (Z.ltb_spec (Z.of_nat (length vals + length tail)) id); try lia; [].
  by rewrite lookup_app_l by lia.
Qed.

Lemma fits_app narrow vals tail op : fits narrow vals op -> fits narrow (vals ++ tail) op.
Proof.
  intros [Ok N K]. split; [done|done|]. destruct (o_kind op); try done. destruct K as [I T].
  rewrite ir_value_type_app, length_app by lia. split; [lia|done].
Qed.
Lemma well_app narrow ret variadic vals tail i : well narrow ret variadic vals i ->
  well narrow ret variadic (vals ++ tail) i.
Proof.
  intros [O T N R V]. split; [|done|done|done|].
  - exact (List.Forall_impl _ (fits_app narrow vals tail) O).
  - intros H. destruct (V H). rewrite ir_value_type_app, length_app by lia. split; [lia|done].
Qed.

(** Environments that agree on the ids an operand or instruction reads. *)
Lemma reads_agree sym_addr narrow vals env env' op : fits narrow vals op ->
  (forall id, 1 <= id <= Z.of_nat (length vals) -> env' id = env id) -> reads sym_addr env' op = reads sym_addr env op.
Proof. intros [_ _ K] H. unfold reads. destruct (o_kind op); try done. apply H, K. Qed.
Lemma den_agree sym_addr fpu narrow ret variadic vals env env' i r : well narrow ret variadic vals i ->
  (forall id, 1 <= id <= Z.of_nat (length vals) -> env' id = env id) ->
  den sym_addr fpu env' i r <-> den sym_addr fpu env i r.
Proof.
  intros W H. unfold den.
  assert (E : forall vs, Forall2 (reads sym_addr env') (in_ops i) vs <-> Forall2 (reads sym_addr env) (in_ops i) vs).
  { pose proof (w_ops _ _ _ _ _ W) as F. induction F as [|op ops Hop F IH]; intros vs.
    - split; intros X; inversion X; constructor.
    - pose proof (reads_agree sym_addr narrow vals env env' op Hop H) as Er.
      split; intros X; inversion X; subst; constructor; try (by apply IH); congruence. }
  split; intros (vs & X & R); exists vs; split; (done || by apply E).
Qed.
