(* ===== verification/SimplifySound.v ===== *)
(** [simplify_one] is sound: whichever rule fires, what is put in place of the
    instruction is well typed and refines it. *)
From stdpp Require Import gmap.
From S2P Require Import Prelude.
From S2P Require Import Softfp.
From S2P Require Import SoftfpArith.
From S2P Require Import SoftfpBits.
From S2P Require Import Ir.
From S2P Require Import Fold.
From S2P Require Import IrSem.
From S2P Require Import FoldFacts.
From S2P Require Import FoldCorrect.
From S2P Require Import Simplify.
From S2P Require Import IrValues.
From S2P Require Import SimplifyUndef.
From S2P Require Import SimplifyArith.
From S2P Require Import SimplifyRules.
#[local] Open Scope Z_scope.

(** ** What a fold returns *)
Definition fold_result (i : IrInst) (out : IrOperand) : Prop :=
  (exists n, (n < length (in_ops i))%nat /\ (out = op_at i n \/
     (o_kind out = IROP_SYMBOL /\ o_kind (op_at i n) = IROP_SYMBOL /\ o_type out = o_type (op_at i n)))) \/
  o_kind out = IROP_UNDEF \/ (o_kind out = IROP_FCONST /\ exists f, format_of (o_type out) = Some f) \/
  (exists t v, int_width t <> 0 /\ out = iconst_bits t v).

Ltac fold_cases :=
  repeat match goal with
  | |- (if ?b then _ else _) = Some _ -> _ => destruct b eqn:?
  | |- (match ?m with _ => _ end) = Some _ -> _ => destruct m eqn:?
  | |- (let '(_, _) := ?m in _) = Some _ -> _ => destruct m eqn:?
  | |- Some _ = Some _ -> _ => intros [= <-]
  | |- None = Some _ -> _ => discriminate
  end.

Lemma opt_fold_inst_shape i cfg out : opt_fold_inst i cfg = Some out ->
  value_op (in_op i) = true /\ fold_result i out.
Proof.
  assert (IC : forall t v, int_width t <> 0 -> fold_result i (iconst_bits t v)) by (intros; right; right; right; by eexists _, _).
  assert (I32 : forall v, fold_result i (iconst_bits IRT_I32 v)) by (intros; by apply IC).
  assert (UN : forall t, fold_result i (ir_op_undef t)) by (intros; by right; left).
  assert (FC : forall t f s, format_of t = Some f -> fold_result i (operand_of_sf t f s)) by (intros; right; right; left; split; [done|by eexists]).
  unfold opt_fold_inst. destruct (in_result i =? 0); [done|].
  destruct (fold_undef i) as [o|] eqn:E.
  { intros [= <-]. revert E. unfold fold_undef. cbv zeta. fold_cases; bool_cases; split; try done; by apply IC. }
  clear E. destruct (fold_integer_ub i) as [o|] eqn:E.
  { intros [= <-]. revert E. unfold fold_integer_ub. cbv zeta. fold_cases; split; done. }
  clear E. destruct (fold_integer i) as [o|] eqn:E.
  { intros [= <-]. revert E. unfold fold_integer. cbv zeta. destruct (fold_binop _ _ _ _) as [[v|]|] eqn:B; fold_cases; bool_cases;
      (split; [by destruct (in_op i)|]); [by apply IC|apply UN]. }
  clear E. destruct (fold_icmp i) as [o|] eqn:E.
  { intros [= <-]. revert E. unfold fold_icmp. cbv zeta. fold_cases; bool_cases; (split; [|apply I32]);
      match goal with H : in_op i = _ |- _ => by rewrite H end. }
  clear E. destruct (fold_fp i cfg) as [o|] eqn:E.
  { intros [= <-]. revert E. unfold fold_fp. cbv zeta. destruct (format_of (in_type i)) as [f|] eqn:Ef; [|done].
    destruct (_ || _ || _); [done|]. destruct (format_of (o_type _)); [|done].
    destruct (in_op i); try done; fold_cases; (split; [done|by apply FC]). }
  clear E. destruct (fold_fcmp i cfg) as [o|] eqn:E.
  { intros [= <-]. revert E. unfold fold_fcmp. cbv zeta. destruct (negb (opc_eqb _ _) || _ || _ || _) eqn:C; [done|]. bool_cases.
    fold_cases; (split; [|apply I32]); match goal with H : in_op i = _ |- _ => by rewrite H end. }
  clear E. destruct (fold_conversion i cfg) as [o|] eqn:E.
  { intros [= <-]. revert E. unfold fold_conversion. cbv zeta. destruct (negb _); [done|].
    destruct (in_op i); try done.
    all: fold_cases; (split; [done|]); bool_cases; try (by apply IC); try (by apply FC); try (by apply UN).
    all: try (right; right; left; split; [done|by eexists]).
    1,2: destruct (invalid _); [apply UN|by apply IC].
    - apply IC. match goal with H : int_width _ = _ |- _ => rewrite H end. 
      match goal with H : format_of (o_type _) = Some ?f |- _ => destruct (o_type (op_at i 0)); try discriminate H; injection H as <-; done end. }
  clear E. destruct (fold_select i) as [o|] eqn:E.
  { intros [= <-]. revert E. unfold fold_select. destruct (_ && _) eqn:C; [|done]. bool_cases.
    match goal with H : in_op i = _ |- _ => rewrite H end.
    assert (L : length (in_ops i) = 3%nat) by (unfold in_nops in *; lia).
    assert (At : forall n, (n < 3)%nat -> fold_result i (op_at i n)) by (intros n Hn; left; exists n; split; [lia|by left]).
    fold_cases; (split; [done|]); [destruct (negb _); apply At; lia|apply At; lia]. }
  clear E. unfold fold_ptradd. cbv zeta. destruct (_ && _ && _ && _) eqn:C; [|done]. bool_cases.
  assert (L : length (in_ops i) = 2%nat) by (unfold in_nops in *; lia).
  match goal with H : in_op i = _ |- _ => rewrite H end.
  fold_cases. split; [done|]. left. exists 0%nat. split; [lia|]. right. cbn [o_kind o_type].
  repeat match goal with H : is_kind _ _ = true |- _ => apply reads_kind in H end. done.
Qed.

(** A fold of a well-formed instruction: well formed, of its type, and no value
    the instruction may not give. *)
Lemma fold_fits sym_addr fpu narrow ret variadic vals env i cfg v :
  (forall id, 1 <= id <= Z.of_nat (length vals) -> inhabited (env id)) ->
  licensed fpu cfg -> well narrow ret variadic vals i -> opt_fold_inst i cfg = Some v ->
  fits narrow vals v /\ o_type v = in_type i /\ refines (reads sym_addr env v) (den sym_addr fpu env i).
Proof.
  intros E L W H. destruct (opt_fold_inst_shape i cfg v H) as [V S].
  pose proof (well_foldable narrow ret variadic vals sym_addr env i E W V) as F.
  destruct (opt_fold_inst_ok sym_addr fpu env ret variadic i F cfg v L H) as (Ok & Ty & R & _). split; [|done].
  destruct S as [(n & Hn & [->|(K & Kn & Tn)])|[K|[(K & Hf)|(t & k & Hw & ->)]]].
  - by apply (op_fits narrow ret variadic).
  - pose proof (op_fits narrow ret variadic vals i n W Hn) as [_ _ Fn]. rewrite Kn in Fn.
    split; [done|congruence|by rewrite K, Tn].
  - split; [done|congruence|by rewrite K].
  - split; [done|congruence|by rewrite K].
  - by apply fits_iconst_bits.
Qed.

(** Without the no-NaNs licence the bundle is not complete. *)
Lemma strict_licensed fpu cfg : (match cfg with Some c => no_nans (fast_math c) | None => false end) = false -> licensed fpu cfg.
Proof. unfold licensed, fast_math_bundle_enabled. destruct cfg as [c|]; [|done]. intros ->. by rewrite andb_false_r. Qed.

Section sound.
  Context (sym_addr : Z -> Z) (fpu : FpTarget).
  Context (narrow : Prop) (ret : IrType) (variadic : bool) (vals : list IrValInfo) (nold : Z) (mu : gset Z).
  Context (env : Env) (defs : Defs) (repl : Replacements) (block_id : Z) (cfg : option OptConfig).
  #[local] Notation "'rd'" := (reads sym_addr env).
  #[local] Notation "'dn'" := (den sym_addr fpu env).
  #[local] Notation "'well''" := (well narrow ret variadic vals).
  #[local] Notation "'fits''" := (fits narrow vals).

(** The tables of the pass agree with the environment. *)
Definition defs_ok : Prop := forall id d, defs !! id = Some d ->
  id <> 0 /\ in_result d = id /\ well' d /\ refines (dn d) (env id) /\
  (in_op d = IR_FABS -> forall r, env id r -> r < 2 ^ (type_bits (in_type d) - 1)).
Definition repl_ok : Prop := forall id v, repl !! id = Some v -> 1 <= id <= nold ->
  fits' v /\ o_type v = ir_value_type vals id /\ refines (rd v) (env id).

Record tables : Prop := {
  tb_env : env_ok vals mu env;
  tb_defs : defs_ok;
  tb_repl : repl_ok;
  tb_mu : forall id, id ∈ mu -> 1 <= id <= nold;
  tb_nold : nold <= Z.of_nat (length vals);
}.

(** What an instruction may be replaced by. *)
Definition removed_ok (i : IrInst) (v : IrOperand) : Prop :=
  fits' v /\ o_type v = in_type i /\ refines (rd v) (dn i).
Definition same_frame (i i' : IrInst) : Prop :=
  in_result i' = in_result i /\ in_type i' = in_type i /\ in_edges i' = in_edges i /\
  value_op (in_op i') = true /\ (in_op i' = IR_FABS -> in_op i = IR_FABS).

(** The instructions inserted define new ids, each to what it computes. *)
Definition inserted_ok (vals' : list IrValInfo) (env' : Env) (p : IrInst) : Prop :=
  well narrow ret variadic vals' p /\ Z.of_nat (length vals) < in_result p /\ value_op (in_op p) = true /\
  in_op p <> IR_FABS /\ in_edges p = [] /\ refines (den sym_addr fpu env' p) (env' (in_result p)).
Definition all_inserted (vals' : list IrValInfo) (pre : list IrInst) : Prop :=
  forall id, Z.of_nat (length vals) < id <= Z.of_nat (length vals') -> id ∈ map in_result pre.
Definition changed_ok (i : IrInst) (vals' : list IrValInfo) (pre : list IrInst) (i' : IrInst) : Prop :=
  exists tail env', vals' = vals ++ tail /\
    (forall id, 1 <= id <= Z.of_nat (length vals) -> env' id = env id) /\
    env_ok vals' mu env' /\ Forall (inserted_ok vals' env') pre /\ all_inserted vals' pre /\
    well narrow ret variadic vals' i' /\ same_frame i i' /\ refines (den sym_addr fpu env' i') (dn i).
Definition step_ok (i : IrInst) (s : Step) : Prop :=
  match s with
  | Keep => True
  | Remove v => value_op (in_op i) = true /\ removed_ok i v
  | Change vals' pre i' => value_op (in_op i) = true /\ changed_ok i vals' pre i'
  end.
Definition rule_ok (i : IrInst) (r : Rule) : Prop := match r with Fires s => step_ok i s | _ => True end.

Lemma orelse_ok i r s : rule_ok i r -> rule_ok i s -> rule_ok i (orelse r s).
Proof. by destruct r. Qed.

Context (T : tables).

(** ** Resolution and definitions *)
Lemma replacement_of_ok op v : fits' op -> replacement_of repl nold op = Some v ->
  fits' v /\ o_type v = o_type op /\ refines (rd v) (rd op).
Proof using T.
  intros [Ok _ K] E. unfold replacement_of in E. destruct (is_kind _ _ && _ && _) eqn:C; [|done].
  apply andb_true_iff in C as [C C2]. apply andb_true_iff in C as [C0 C1]. apply reads_kind in C0. rewrite C0 in K.
  destruct (repl !! o_a op) as [w|] eqn:L; [|done]. destruct (is_kind (o_kind w) IROP_NONE); [done|]. injection E as <-.
  destruct (tb_repl T _ _ L ltac:(lia)) as (F & Ty & R). split; [done|]. split; [by rewrite Ty, (proj2 K)|].
  unfold reads at 2. by rewrite C0.
Qed.

Lemma resolve_ok op v : fits' op -> resolve_operand repl nold op = Some v ->
  fits' v /\ o_type v = o_type op /\ refines (rd v) (rd op).
Proof using T.
  unfold resolve_operand. generalize (Z.to_nat nold) as fuel. intros fuel. revert op.
  induction fuel as [|fuel IH]; intros op F; cbn [resolve_steps];
    destruct (replacement_of repl nold op) as [w|] eqn:E; try (by intros [= <-]); try done.
  intros R. destruct (replacement_of_ok op w F E) as (Fw & Tw & Rw). destruct (IH w Fw R) as (Fv & Tv & Rv).
  split; [done|]. split; [congruence|]. intros r Hr. by apply Rw, Rv.
Qed.

Lemma resolving_ok i op k : fits' op ->
  (forall v, fits' v -> o_type v = o_type op -> refines (rd v) (rd op) -> rule_ok i (k v)) ->
  rule_ok i (resolving repl nold op k).
Proof using T.
  intros F H. unfold resolving. destruct (resolve_operand repl nold op) as [v|] eqn:E; [|done].
  destruct (resolve_ok op v F E) as (? & ? & ?). by apply H.
Qed.

Lemma inner_of_ok op o n d : fits' op -> inner_of defs nold op o n = Some d ->
  in_op d = o /\ in_nops d = n /\ well' d /\ o_type op = in_type d /\ refines (dn d) (rd op) /\
  (o = IR_FABS -> forall r, rd op r -> r < 2 ^ (type_bits (in_type d) - 1)).
Proof using T.
  intros [Ok _ K] E. unfold inner_of, def_of in E. destruct (negb _ || _ || _) eqn:C; [done|].
  apply orb_false_iff in C as [C C2]. apply orb_false_iff in C as [C0 C1]. apply negb_false_iff, reads_kind in C0.
  rewrite C0 in K. destruct (defs !! o_a op) as [d'|] eqn:L; [|done].
  destruct (opc_eqb _ _ && _) eqn:C; [|done]. injection E as ->. bool_cases.
  destruct (tb_defs T _ _ L) as (_ & Ir & Wd & Rd & Ab). split; [done|]. split; [done|]. split; [done|].
  split; [|split].
  - destruct K as [I ->]. rewrite <- Ir. apply (w_vtype _ _ _ _ _ Wd). lia.
  - unfold reads. by rewrite C0.
  - intros -> r. unfold reads. rewrite C0. by apply Ab.
Qed.

(** ** Integer binary operations *)
Section binop.
  Context (i : IrInst) (Wi : well' i) (Ho : is_int_binop (in_op i) = true) (Hw : int_width (in_type i) <> 0)
    (Hn : in_nops i = 2).
  #[local] Notation "'w'" := (int_width (in_type i)).

Lemma binop_value_op : value_op (in_op i) = true.
Proof using Ho. unfold value_op. by rewrite Ho. Qed.
Lemma binop_foldable : foldable sym_addr env ret variadic i.
Proof using T Wi Ho. by apply (well_foldable narrow ret variadic vals sym_addr env i (eo_inhabited _ _ _ (tb_env T))); [|apply binop_value_op]. Qed.
Lemma binop_types : o_type (op_at i 0) = in_type i /\ o_type (op_at i 1) = in_type i.
Proof using T Wi Ho Hw. by apply (int_binop_types sym_addr env ret variadic i binop_foldable). Qed.
Lemma binop_fits : fits' (op_at i 0) /\ fits' (op_at i 1).
Proof using Wi Hn. split; apply (op_fits narrow ret variadic); try done; unfold in_nops in Hn; lia. Qed.

(** What the operation may give at its width. *)
Definition gives (o : IrOp) (width x y r : Z) : Prop :=
  match int_sem o width x y with Some v => v = r | None => 0 <= r < 2 ^ width end.

Lemma binop_range op r : fits' op -> o_type op = in_type i -> rd op r -> 0 <= r < 2 ^ w.
Proof using T Hw.
  intros F Ty R. pose proof (reads_range _ _ sym_addr mu env (tb_env T) op r F R) as A.
  unfold any in A. by rewrite Ty, (proj1 (proj2 (int_width_cases _ Hw))) in A.
Qed.

Lemma binop_den r : dn i r <-> exists x y, rd (op_at i 0) x /\ rd (op_at i 1) y /\
  0 <= x < 2 ^ w /\ 0 <= y < 2 ^ w /\ gives (in_op i) w x y r.
Proof using T Wi Ho Hw Hn.
  destruct binop_types as [T0 T1]. destruct binop_fits as [F0 F1].
  destruct (int_width_cases _ Hw) as (_ & Eb & _). unfold gives. split.
  - intros (vs & Hvs & R). destruct (reads_2 sym_addr env i vs (ops_2 i Hn) Hvs) as (x & y & -> & Hx & Hy).
    rewrite int_result, Eb in R by done. exists x, y.
    split; [done|]. split; [done|]. split; [by apply (binop_range _ _ F0)|]. split; [by apply (binop_range _ _ F1)|].
    destruct (int_sem _ _ x y); [done|]. unfold any in R. by rewrite Eb in R.
  - intros (x & y & Hx & Hy & _ & _ & R). apply (den_2 sym_addr fpu env i x y); [by apply ops_2|done|done|].
    rewrite int_result, Eb by done. destruct (int_sem _ _ x y); [done|]. unfold any. by rewrite Eb.
Qed.

(** A constant operand has the one pattern its masked bits spell. *)
Lemma const_read op : fits' op -> o_type op = in_type i -> is_kind (o_kind op) IROP_ICONST = true ->
  rd op (o_a op &64 width_mask w) /\ (forall r, rd op r -> r = o_a op &64 width_mask w) /\
  0 <= o_a op &64 width_mask w < 2 ^ w.
Proof using T Hw.
  intros F Ty K. destruct (int_width_cases _ Hw) as (W & Eb & _). split; [|split].
  - unfold reads. by rewrite (reads_kind _ _ K), Ty, Eb, mask_mod.
  - intros r R. destruct (iconst_reads sym_addr env op r K ltac:(by rewrite Ty) R) as [E _]. by rewrite Ty in E.
  - by apply mask_range.
Qed.
Lemma const_is_read op k : fits' op -> o_type op = in_type i -> const_is op (width_mask w) k = true ->
  rd op k /\ (forall r, rd op r -> r = k) /\ 0 <= k < 2 ^ w.
Proof using T Hw.
  intros F Ty K. unfold const_is in K. apply andb_true_iff in K as [K E]. apply Z.eqb_eq in E. rewrite <- E.
  by apply const_read.
Qed.

Lemma some_read op : fits' op -> exists r, rd op r.
Proof using T. apply (reads_inhabited _ _ sym_addr env _ (eo_inhabited _ _ _ (tb_env T))). Qed.

Lemma removed_const k : (forall r, r = k mod 2 ^ w -> dn i r) -> step_ok i (Remove (iconst_bits (in_type i) k)).
Proof using T Wi Ho Hw.
  intros H. split; [apply binop_value_op|]. split; [by apply fits_iconst_bits|]. split; [done|].
  intros r Hr. rewrite iconst_bits_reads, (proj1 (proj2 (int_width_cases _ Hw))) in Hr by done. by apply H.
Qed.
Lemma removed_operand v : fits' v -> o_type v = in_type i -> (forall r, rd v r -> 0 <= r < 2 ^ w -> dn i r) ->
  step_ok i (Remove v).
Proof using T Wi Ho Hw.
  intros F Ty H. split; [apply binop_value_op|]. split; [done|]. split; [done|]. intros r Hr. apply H; [done|].
  by apply (binop_range v).
Qed.

(** The rules that mutate into another binary operation. *)
Lemma mutate_well vals' o x y : is_int_binop o = true ->
  1 <= in_result i <= Z.of_nat (length vals') /\ ir_value_type vals' (in_result i) = in_type i ->
  fits narrow vals' x -> fits narrow vals' y -> o_type x = in_type i -> o_type y = in_type i ->
  well narrow ret variadic vals' (mutate_binary i o x y).
Proof using Hw.
  intros Hb Hr Fx Fy Tx Ty. split; cbn [in_ops in_op in_result in_type mutate_binary].
  - constructor; [done|]. by constructor.
  - intros _. destruct (int_width_cases _ Hw) as (_ & _ & Ti).
    assert (V : ir_type_is_vector (in_type i) = false) by (by destruct (in_type i)).
    assert (C : binop_types_ok (mutate_binary i o x y) false = true).
    { unfold binop_types_ok. cbn [in_type mutate_binary op_at in_ops]. unfold op_at. cbn.
      rewrite V, Ti, Tx, Ty. unfold ty_eqb. by rewrite !bool_decide_eq_true_2. }
    unfold inst_types_ok. cbn [in_op mutate_binary]. by destruct o.
  - intros [-> | ->]; done.
  - intros _. lia.
  - done.
Qed.
End binop.

Lemma change_ok i i' : value_op (in_op i) = true -> well' i' -> same_frame i i' -> refines (dn i') (dn i) ->
  step_ok i (change vals i').
Proof using T.
  intros V W S R. split; [done|]. exists [], env. rewrite app_nil_r.
  split; [done|]. split; [done|]. split; [apply T|]. split; [constructor|]. split; [intros id; lia|done].
Qed.

Lemma mutated_ok i o x y : well' i -> is_int_binop (in_op i) = true -> int_width (in_type i) <> 0 -> in_nops i = 2 ->
  is_int_binop o = true -> fits' x -> fits' y -> o_type x = in_type i -> o_type y = in_type i ->
  (forall r a b, rd x a -> rd y b -> 0 <= a < 2 ^ int_width (in_type i) -> 0 <= b < 2 ^ int_width (in_type i) ->
     gives o (int_width (in_type i)) a b r -> dn i r) ->
  step_ok i (change vals (mutate_binary i o x y)).
Proof using T.
  intros Wi Ho Hw Hn Hb Fx Fy Tx Ty H. pose proof (binop_value_op i Ho) as V.
  assert (W' : well' (mutate_binary i o x y)).
  { apply mutate_well; try done. apply (w_vtype _ _ _ _ _ Wi). by apply (w_result _ _ _ _ _ Wi). }
  apply change_ok; [done|done| |].
  - split; [done|]. split; [done|]. split; [done|]. split; [by apply (binop_value_op (mutate_binary i o x y))|].
    cbn [in_op mutate_binary]. by intros ->.
  - intros r Hr. apply (binop_den (mutate_binary i o x y) W' Hb Hw eq_refl) in Hr as (a & b & Ha & Hb' & Ra & Rb & G).
    by apply (H r a b).
Qed.

(** ** The integer rules *)
Section int_rules.
  Context (i : IrInst) (Wi : well' i) (Ho : is_int_binop (in_op i) = true) (Hw : int_width (in_type i) <> 0)
    (Hn : in_nops i = 2).
  #[local] Notation "'w'" := (int_width (in_type i)).
  #[local] Notation "'x'" := (op_at i 0).
  #[local] Notation "'y'" := (op_at i 1).

Lemma den_at r a b : rd x a -> rd y b -> gives (in_op i) w a b r -> dn i r.
Proof using T Wi Ho Hw Hn.
  intros Ha Hb G. destruct (binop_types i Wi Ho Hw) as [T0 T1]. destruct (binop_fits i Wi Hn) as [F0 F1].
  apply binop_den; try done. exists a, b. split; [done|]. split; [done|].
  split; [by apply (binop_range i Hw x)|]. split; [by apply (binop_range i Hw y)|done].
Qed.

Lemma rule_identity_ok : rule_ok i (rule_identity i (width_mask w)).
Proof using T Wi Ho Hw Hn.
  destruct (binop_types i Wi Ho Hw) as [T0 T1]. destruct (binop_fits i Wi Hn) as [F0 F1].
  destruct (int_width_cases _ Hw) as (W & Eb & _). destruct (width_pos _ W) as (P1 & P2 & P3 & P4).
  unfold rule_identity, rule. destruct (_ || _ || _ || _ || _) eqn:C; [|done]. cbn [rule_ok].
  destruct (const_is x (width_mask w) 0 && opc_eqb (in_op i) IR_IADD) eqn:Cx.
  - bool_cases. rename select (const_is x _ 0 = true) into K. rename select (in_op i = IR_IADD) into Op.
    destruct (const_is_read i Hw x 0 F0 T0 K) as (R0 & _). apply removed_operand; [done|done|done|done|done|].
    intros r Hr B. apply (den_at r 0 r R0 Hr). unfold gives. rewrite Op. cbn [int_sem]. rewrite Z.mod_small; lia.
  - (* the other rules all keep the first operand *)
    assert (D : exists k, rd y k /\ forall r, 0 <= r < 2 ^ w -> gives (in_op i) w r k r).
    { assert (K : forall k, const_is y (width_mask w) k = true -> rd y k) by (intros k K; apply (const_is_read i Hw y k F1 T1 K)).
      unfold gives. repeat (apply orb_true_iff in C as [C|C]); apply andb_true_iff in C as [Co C];
        try (apply bool_decide_eq_true in Co; rewrite Co).
      - rewrite Co in Cx. rewrite andb_true_r in Cx. rewrite Cx in C. exists 0. split; [by apply K|].
        intros r B. cbn [int_sem]. rewrite Z.mod_small; lia.
      - exists 0. split; [by apply K|]. intros r B. cbn [int_sem]. rewrite Z.mod_small; lia.
      - exists 1. split; [by apply K|]. intros r B. cbn [int_sem]. rewrite Z.mod_small; lia.
      - exists (width_mask w). split; [by apply K|]. intros r B. cbn [int_sem].
        by rewrite (mask_mod w r W), Z.mod_small.
      - exists 0. split; [by apply K|]. intros r B. apply orb_true_iff in Co as [Co|Co]; apply bool_decide_eq_true in Co; rewrite Co;
          cbn [int_sem]; [apply Z.lor_0_r|apply Z.lxor_0_r]. }
    destruct D as (k & Hk & G). apply removed_operand; [done|done|done|done|done|].
    intros r Hr B. apply (den_at r r k Hr Hk). by apply G.
Qed.

Lemma rule_mul_zero_ok : rule_ok i (rule_mul_zero i (width_mask w)).
Proof using T Wi Ho Hw Hn.
  destruct (binop_types i Wi Ho Hw) as [T0 T1]. destruct (binop_fits i Wi Hn) as [F0 F1].
  destruct (int_width_cases _ Hw) as (W & Eb & _). destruct (width_pos _ W) as (P1 & P2 & P3 & P4).
  unfold rule_mul_zero, rule. destruct (_ && _) eqn:C; [|done]. cbn [rule_ok].
  apply andb_true_iff in C as [Co C]. apply bool_decide_eq_true in Co.
  apply removed_const; [done|done|done|]. rewrite Z.mod_0_l by lia. intros r ->. unfold gives in *.
  apply orb_true_iff in C as [C|C].
  - destruct (const_is_read i Hw x 0 F0 T0 C) as (R & _). destruct (some_read y F1) as [b Hb].
    apply (den_at 0 0 b R Hb). unfold gives. by rewrite Co.
  - destruct (const_is_read i Hw y 0 F1 T1 C) as (R & _). destruct (some_read x F0) as [a Ha].
    apply (den_at 0 a 0 Ha R). unfold gives. rewrite Co. cbn [int_sem]. by rewrite Z.mul_0_r.
Qed.

Lemma operand_equal_reads a b : operand_equal a b = true -> rd a = rd b.
Proof.
  unfold operand_equal, is_kind. intros H. bool_cases. unfold reads.
  repeat match goal with H : bool_decide _ = true |- _ => apply bool_decide_eq_true in H end.
  repeat match goal with H : _ a = _ b |- _ => rewrite H; clear H end. done.
Qed.

Lemma rule_sub_self_ok : rule_ok i (rule_sub_self mu nold i).
Proof using T Wi Ho Hw Hn.
  destruct (binop_types i Wi Ho Hw) as [T0 T1]. destruct (binop_fits i Wi Hn) as [F0 F1].
  unfold rule_sub_self, rule. destruct (_ && _ && _) eqn:C; [|done]. cbn [rule_ok]. bool_cases.
  rename select (in_op i = IR_ISUB) into Co. rename select (operand_equal _ _ = true) into Q.
  apply removed_const; [done|done|done|]. intros r Hr. destruct (some_read x F0) as [a Ha].
  apply (den_at r a a Ha); [by rewrite <- (operand_equal_reads _ _ Q)|]. unfold gives. rewrite Co. cbn [int_sem].
  by rewrite Z.sub_diag.
Qed.

Lemma rule_mul_pow2_ok : rule_ok i (rule_mul_pow2 vals i w).
Proof using T Wi Ho Hw Hn.
  destruct (binop_types i Wi Ho Hw) as [T0 T1]. destruct (binop_fits i Wi Hn) as [F0 F1].
  destruct (int_width_cases _ Hw) as (W & Eb & _). destruct (width_pos _ W) as (P1 & P2 & P3 & P4).
  unfold rule_mul_pow2. destruct (opc_eqb (in_op i) IR_IMUL) eqn:Co; [|done]. apply bool_decide_eq_true in Co.
  set (swap := is_kind (o_kind x) IROP_ICONST && negb (is_kind (o_kind y) IROP_ICONST)).
  set (value := if swap then y else x). set (constant := if swap then x else y). cbv zeta.
  destruct (is_kind (o_kind constant) IROP_ICONST) eqn:K; [|done].
  destruct (power_of_two (o_a constant) w) as [s|] eqn:Es; [|done].
  destruct (power_of_two_spec _ _ _ W Es) as [Ec Rs].
  assert (Fv : fits' value /\ o_type value = in_type i) by (unfold value; by destruct swap).
  assert (Fc : fits' constant /\ o_type constant = in_type i) by (unfold constant; by destruct swap).
  destruct Fv as [Fv Tv], Fc as [Fc Tc]. destruct (const_read i Hw constant Fc Tc K) as (Rc & _). rewrite Ec in Rc.
  assert (D : forall r v, rd value v -> r = (v * 2 ^ s) mod 2 ^ w -> dn i r).
  { intros r v Hv ->. unfold value, constant in Hv, Rc. destruct swap.
    - apply (den_at _ (2 ^ s) v Rc Hv). unfold gives. rewrite Co. cbn [int_sem]. by rewrite Z.mul_comm.
    - apply (den_at _ v (2 ^ s) Hv Rc). unfold gives. by rewrite Co. }
  cbn [rule_ok]. destruct (Z.eqb_spec s 0) as [->|Ns].
  - apply removed_operand; try done. intros r Hr B. apply (D r r Hr). rewrite Z.mul_1_r, Z.mod_small; lia.
  - apply mutated_ok; try done; [by apply fits_iconst_bits|].
    intros r a b Ha Hb Ra Rb G. apply (D r a Ha). rewrite iconst_bits_reads in Hb by done. rewrite Eb in Hb.
    rewrite Z.mod_small in Hb by (pose proof (Z.pow_gt_lin_r 2 w); lia). subst b. unfold gives in G. cbn [int_sem] in G.
    rewrite (proj2 (Z.ltb_lt s w)) in G by lia. by symmetry.
Qed.

(** The definition of an operand of the same type, as a binary operation. *)
Lemma inner_binop op o d : fits' op -> o_type op = in_type i -> is_int_binop o = true ->
  inner_of defs nold op o 2 = Some d ->
  well' d /\ is_int_binop (in_op d) = true /\ in_op d = o /\ in_type d = in_type i /\ in_nops d = 2 /\
  fits' (op_at d 0) /\ fits' (op_at d 1) /\ o_type (op_at d 0) = in_type i /\ o_type (op_at d 1) = in_type i /\
  (forall r a b, rd (op_at d 0) a -> rd (op_at d 1) b -> gives o w a b r -> rd op r).
Proof using T Hw.
  intros F Ty Hb E. destruct (inner_of_ok op o 2 d F E) as (Od & Nd & Wd & Td & Rd & _).
  assert (Et : in_type d = in_type i) by congruence. rewrite <- Od in Hb. rewrite <- Et in Hw.
  destruct (binop_fits d Wd Nd) as [F0 F1]. destruct (binop_types d Wd Hb Hw) as [T0 T1].
  split; [done|]. split; [done|]. split; [done|]. split; [done|]. split; [done|]. split; [done|]. split; [done|].
  split; [congruence|]. split; [congruence|]. intros r a b Ha Hb' G. apply Rd.
  apply (binop_den d Wd Hb Hw Nd). exists a, b. split; [done|]. split; [done|].
  split; [by apply (binop_range d Hw (op_at d 0))|]. split; [by apply (binop_range d Hw (op_at d 1))|].
  by rewrite Od, Et.
Qed.

Lemma rule_neg_neg_ok : rule_ok i (rule_neg_neg defs repl nold i (width_mask w)).
Proof using T Wi Ho Hw Hn.
  destruct (binop_types i Wi Ho Hw) as [T0 T1]. destruct (binop_fits i Wi Hn) as [F0 F1].
  destruct (int_width_cases _ Hw) as (W & Eb & _). destruct (width_pos _ W) as (P1 & P2 & P3 & P4).
  unfold rule_neg_neg. destruct (_ && _) eqn:C; [|done]. apply andb_true_iff in C as [Co K].
  apply bool_decide_eq_true in Co. destruct (inner_of defs nold y IR_ISUB 2) as [d|] eqn:E; [|done].
  destruct (inner_binop y IR_ISUB d F1 T1 eq_refl E) as (Wd & Bd & Od & Td & Nd & Fd0 & Fd1 & Td0 & Td1 & D).
  destruct (const_is (op_at d 0) (width_mask w) 0) eqn:Kd; [|done].
  apply resolving_ok; [done|]. intros v Fv Tv Rv. cbn [rule_ok].
  destruct (const_is_read i Hw x 0 F0 T0 K) as (R0 & _). destruct (const_is_read i Hw (op_at d 0) 0 Fd0 Td0 Kd) as (Rd0 & _).
  apply removed_operand; try done; [congruence|]. intros r Hr B.
  apply (den_at r 0 ((0 - r) mod 2 ^ w) R0).
  - apply (D _ 0 r Rd0); [by apply Rv|]. done.
  - unfold gives. rewrite Co. cbn [int_sem]. rewrite Zminus_mod_idemp_r. replace (0 - (0 - r)) with r by lia.
    by apply Z.mod_small.
Qed.

Lemma rule_xor_xor_ok : rule_ok i (rule_xor_xor defs repl nold i).
Proof using T Wi Ho Hw Hn.
  destruct (binop_types i Wi Ho Hw) as [T0 T1]. destruct (binop_fits i Wi Hn) as [F0 F1].
  unfold rule_xor_xor. destruct (_ && _) eqn:C; [|done]. apply andb_true_iff in C as [Co K].
  apply bool_decide_eq_true in Co. destruct (inner_of defs nold x IR_XOR 2) as [d|] eqn:E; [|done].
  destruct (inner_binop x IR_XOR d F0 T0 eq_refl E) as (Wd & Bd & Od & Td & Nd & Fd0 & Fd1 & Td0 & Td1 & D).
  apply resolving_ok; [done|]. intros c Fc Tc Rc. destruct (operand_equal c y) eqn:Q; [|done].
  apply resolving_ok; [done|]. intros v Fv Tv Rv. cbn [rule_ok].
  destruct (const_read i Hw y F1 T1 K) as (Ry & _). set (k := o_a y &64 width_mask w) in *.
  apply removed_operand; try done; [congruence|]. intros r Hr B.
  apply (den_at r (Z.lxor r k) k).
  - apply (D _ r k); [by apply Rv|apply Rc; by rewrite (operand_equal_reads _ _ Q)|done].
  - done.
  - unfold gives. rewrite Co. cbn [int_sem]. by rewrite Z.lxor_assoc, Z.lxor_nilpotent, Z.lxor_0_r.
Qed.

Lemma rule_shift_pair_ok : rule_ok i (rule_shift_pair vals defs repl nold i w (width_mask w)).
Proof using T Wi Ho Hw Hn.
  destruct (binop_types i Wi Ho Hw) as [T0 T1]. destruct (binop_fits i Wi Hn) as [F0 F1].
  destruct (int_width_cases _ Hw) as (W & Eb & Ti). destruct (width_pos _ W) as (P1 & P2 & P3 & P4).
  unfold rule_shift_pair. destruct (_ && _ && _) eqn:C; [|done]. apply andb_true_iff in C as [C L]. apply andb_true_iff in C as [Co K].
  apply Z.ltb_lt in L. set (k := o_a y) in *.
  assert (Rk : 0 <= k < w).
  { pose proof (fit_ok _ _ _ F1) as Ok. unfold operand_ok in Ok. rewrite (reads_kind _ _ K) in Ok. unfold is_u64 in Ok. lia. }
  assert (Mk : k &64 width_mask w = k).
  { rewrite mask_mod by done. apply Z.mod_small. pose proof (Z.pow_gt_lin_r 2 w). lia. }
  destruct (const_read i Hw y F1 T1 K) as (Ry & _). fold k in Ry. rewrite Mk in Ry.
  destruct (inner_of defs nold x IR_SHL 2) as [d|] eqn:E; [|done].
  destruct (inner_binop x IR_SHL d F0 T0 eq_refl E) as (Wd & Bd & Od & Td & Nd & Fd0 & Fd1 & Td0 & Td1 & D).
  destruct (_ && _) eqn:C; [|done]. apply andb_true_iff in C as [Kd Ek]. apply Z.eqb_eq in Ek.
  destruct (const_read i Hw (op_at d 1) Fd1 Td1 Kd) as (Rd1 & _). rewrite Ek, Mk in Rd1.
  assert (D' : forall b, rd (op_at d 0) b -> rd x ((b * 2 ^ k) mod 2 ^ w)).
  { intros b Hb. apply (D _ b k Hb Rd1). unfold gives. cbn [int_sem]. by rewrite (proj2 (Z.ltb_lt k w)) by lia. }
  apply resolving_ok; [done|]. intros base Fb Tb Rb. destruct (opc_eqb (in_op i) IR_LSHR) eqn:Cl.
  - apply bool_decide_eq_true in Cl. cbn [rule_ok]. apply mutated_ok; try done; [by apply fits_iconst_bits|congruence|].
    intros r a b Ha Hb Ra _ G. rewrite iconst_bits_reads, Eb in Hb by done.
    apply (den_at r ((a * 2 ^ k) mod 2 ^ w) k); [by apply D', Rb|done|]. unfold gives in *. rewrite Cl. cbn [int_sem] in *.
    rewrite (proj2 (Z.ltb_lt k w)) by lia. rewrite shl_lshr by done. subst b r.
    pose proof (pow2_pos (w - k)). f_equal. symmetry. apply Z.mod_small. rewrite width_mask_ones, Z.shiftr_div_pow2 by (done || lia).
    split; [apply Z.div_pos; lia|]. apply Z.le_lt_trans with (2 ^ w - 1); [|lia]. apply Z.div_le_upper_bound; [lia|]. nia.
  - cbn [orb] in Co. apply bool_decide_eq_true in Co.
    destruct (inner_of defs nold base IR_ZEXT 1) as [e|] eqn:Ee; [|done].
    destruct (Z.eqb_spec (int_width (o_type (op_at e 0))) (w - k)) as [Ew|]; [|done].
    destruct (inner_of_ok base IR_ZEXT 1 e Fb Ee) as (Oe & Ne & We & Te & Re & _).
    assert (Fe : fits' (op_at e 0)) by (apply (op_fits narrow ret variadic); [done|unfold in_nops in Ne; lia]).
    apply resolving_ok; [done|]. intros s Fs Ts Rs. cbn [rule_ok].
    assert (We' : int_width (o_type (op_at e 0)) <> 0) by lia. destruct (int_width_cases _ We') as (W' & Eb' & Ti').
    assert (Rz : forall v, rd s v -> rd base v).
    { intros v Hv. apply Re. exists [v]. split; [rewrite (ops_1 e Ne); constructor; [by apply Rs|constructor]|].
      unfold result_of. by rewrite Oe. }
    set (i' := mkInst IR_SEXT _ _ _ _ _ _ _).
    assert (Wi' : well' i').
    { split; cbn.
      - by constructor.
      - intros _. unfold inst_types_ok, op_at. cbn. rewrite Ts, Ti, Ti'. cbn [andb]. apply Z.ltb_lt.
        pose proof (w_types _ _ _ _ _ We ltac:(by rewrite Oe)) as Ce. unfold inst_types_ok in Ce. rewrite Oe in Ce.
        cbn [andb] in Ce. bool_cases. rename select ((verify_int_width _ <? _) = true) into Lt. apply Z.ltb_lt in Lt.
        rewrite <- Te, Tb, Td0 in Lt. exact Lt.
      - intros [? | ?]; done.
      - intros _. apply (w_result _ _ _ _ _ Wi). by apply binop_value_op.
      - apply (w_vtype _ _ _ _ _ Wi). }
    apply change_ok; [by apply binop_value_op|done|done|].
    intros r (vs & Hvs & R). inversion Hvs as [|? v ? ? Hv Tl]; subst. inversion Tl; subst.
    unfold result_of in R. cbn in R. unfold op_at in R. cbn in R. rewrite Ts, Eb, Eb', Ew in R.
    pose proof (reads_range _ _ sym_addr mu env (tb_env T) s v Fs Hv) as B. unfold any in B. rewrite Ts, Eb', Ew in B.
    apply (den_at r ((v * 2 ^ k) mod 2 ^ w) k); [by apply D', Rb, Rz|done|]. unfold gives. rewrite Co. cbn [int_sem].
    rewrite (proj2 (Z.ltb_lt k w)) by lia. rewrite shl_ashr; [done|done| |done|done]. by rewrite <- Ew.
Qed.
End int_rules.

(** ** Inserted instructions *)
Definition only (d : Den) (v : Z) : Prop := forall r, d r <-> r = v.

Definition extends (vals' : list IrValInfo) (env' : Env) (pre : list IrInst) : Prop :=
  (exists tail, vals' = vals ++ tail) /\
  (forall id, 1 <= id <= Z.of_nat (length vals) -> env' id = env id) /\
  env_ok vals' mu env' /\ Forall (inserted_ok vals' env') pre /\ all_inserted vals' pre.

Lemma extends_refl : extends vals env [].
Proof using T. split; [exists []; by rewrite app_nil_r|]. split; [done|]. split; [apply T|]. split; [constructor|intros id; lia]. Qed.

Lemma new_value_type l v id : id = Z.of_nat (length l) + 1 -> ir_value_type (l ++ [v]) id = vi_type v.
Proof.
  intros ->. unfold ir_value_type. rewrite length_app. cbn [length].
  destruct (Z.eqb_spec (Z.of_nat (length l) + 1) 0); [lia|]. cbn [orb].
  destruct (Z.ltb_spec (Z.of_nat (length l + 1)) (Z.of_nat (length l) + 1)); [lia|].
  rewrite lookup_app_r by lia. by replace (Z.to_nat (Z.of_nat (length l) + 1 - 1) - length l)%nat with 0%nat by lia.
Qed.

Lemma scalar_binop_types o t res x y : is_int_binop o = true -> type_is_int t = true -> o_type x = t -> o_type y = t ->
  inst_types_ok ret variadic (mkInst o t 0 0 res 0 [x; y] []) = true.
Proof.
  intros Hb Ti Tx Ty. assert (V : ir_type_is_vector t = false) by (by destruct t).
  assert (C : binop_types_ok (mkInst o t 0 0 res 0 [x; y] []) false = true).
  { unfold binop_types_ok, op_at. cbn. rewrite V, Ti, Tx, Ty. unfold ty_eqb. by rewrite !bool_decide_eq_true_2. }
  unfold inst_types_ok. cbn [in_op]. by destruct o.
Qed.

Lemma inserted_grow vals1 env1 v env2 p :
  (forall id, 1 <= id <= Z.of_nat (length vals1) -> env2 id = env1 id) ->
  inserted_ok vals1 env1 p -> inserted_ok (vals1 ++ [v]) env2 p.
Proof.
  intros A (W & L & V & N & Ed & R). split; [by apply well_app|]. split; [done|]. split; [done|]. split; [done|]. split; [done|].
  intros r Hr. apply (den_agree sym_addr fpu narrow ret variadic vals1 env1) in Hr; [|done|done].
  rewrite A by (apply (w_vtype _ _ _ _ _ W); by apply (w_result _ _ _ _ _ W)). by apply R.
Qed.

Lemma extends_insert vals1 env1 pre o t x y a b v : extends vals1 env1 pre ->
  is_int_binop o = true -> int_width t <> 0 -> fits narrow vals1 x -> fits narrow vals1 y -> o_type x = t -> o_type y = t ->
  only (reads sym_addr env1 x) a -> only (reads sym_addr env1 y) b ->
  int_sem o (int_width t) a b = Some v -> 0 <= v < 2 ^ int_width t ->
  exists p vals2 env2, insert2_before vals1 block_id o t x y = (p, vals2) /\ extends vals2 env2 (pre ++ [p]) /\
    (forall op, fits narrow vals1 op -> fits narrow vals2 op /\ reads sym_addr env2 op = reads sym_addr env1 op) /\
    fits narrow vals2 (ir_op_value vals2 (in_result p)) /\ o_type (ir_op_value vals2 (in_result p)) = t /\
    only (reads sym_addr env2 (ir_op_value vals2 (in_result p))) v.
Proof using T.
  intros ([tail ->] & A & E & P & Al) Hb Hw Fx Fy Tx Ty Rx Ry Hv Bv. set (vals1 := vals ++ tail) in *.
  destruct (int_width_cases t Hw) as (_ & Eb & Ti).
  set (id := Z.of_nat (length vals1) + 1). set (info := mkVal t VDEF_INST block_id 0).
  assert (Lid : Z.of_nat (length (vals1 ++ [info])) = id) by (rewrite length_app; cbn [length]; unfold id; lia).
  assert (Lv : Z.of_nat (length vals) < id) by (unfold id, vals1; rewrite length_app; lia).
  assert (Tid : ir_value_type (vals1 ++ [info]) id = t) by (by apply new_value_type).
  set (p := mkInst o t 0 0 id 0 [x; y] []). set (env2 := bind env1 id (eq v)).
  assert (A2 : forall k, 1 <= k <= Z.of_nat (length vals1) -> env2 k = env1 k).
  { intros k Hk. unfold env2, bind. destruct (Z.eqb_spec k id); [lia|done]. }
  assert (E2 : env2 id = eq v) by (unfold env2, bind; by rewrite Z.eqb_refl).
  assert (Gr : forall op, fits narrow vals1 op -> fits narrow (vals1 ++ [info]) op /\
             reads sym_addr env2 op = reads sym_addr env1 op).
  { intros op F. split; [by apply fits_app|]. by apply (reads_agree sym_addr narrow vals1). }
  exists p, (vals1 ++ [info]), env2. split; [|split; [|split; [exact Gr|]]].
  - unfold insert2_before, alloc_inst_value. cbv zeta. fold info. by rewrite Lid.
  - split; [exists (tail ++ [info]); unfold vals1; by rewrite app_assoc|]. split; [|split].
    + intros k Hk. rewrite A2; [by apply A|]. unfold vals1. rewrite length_app. lia.
    + split; intros k; rewrite Lid; intros.
      * destruct (Z.eq_dec k id) as [->|]; [rewrite E2; by eexists|]. rewrite A2 by lia. apply (eo_inhabited _ _ _ E). lia.
      * destruct (Z.eq_dec k id) as [->|].
        -- rewrite Tid. rewrite E2 in *. subst. unfold any. by rewrite Eb.
        -- rewrite A2 in * by lia. rewrite ir_value_type_app by lia. apply (eo_range _ _ _ E); [lia|done].
      * destruct (Z.eq_dec k id) as [->|]; [rewrite E2; intros ? ? <- <-; done|]. rewrite A2 by lia. apply (eo_single _ _ _ E); [lia|done].
    + split; [|intros k; rewrite map_app, Lid; intros Hk; apply elem_of_app;
        destruct (Z.eq_dec k id) as [->|]; [right; by left|left; apply Al; lia]].
      apply Forall_app. split; [exact (List.Forall_impl _ (fun q => inserted_grow vals1 env1 info env2 q A2) P)|].
      constructor; [|constructor]. split; [|split; [done|split; [by apply (binop_value_op p)|split; [by intros Ab; cbn in Ab; subst o|split; [done|]]]]].
      * split; cbn.
        -- constructor; [by apply Gr|]. constructor; [by apply Gr|constructor].
        -- intros _. by apply scalar_binop_types.
        -- by intros [-> | ->].
        -- intros _. unfold id. lia.
        -- intros _. rewrite Tid, Lid. split; [unfold id; lia|done].
      * intros r (vs & Hvs & R). cbn [in_result p]. rewrite E2. inversion Hvs as [|? a' ? ? Ha Tl]; subst.
        inversion Tl as [|? b' ? ? Hb' Tl']; subst. inversion Tl'; subst.
        rewrite (proj2 (Gr x Fx)) in Ha. rewrite (proj2 (Gr y Fy)) in Hb'. apply Rx in Ha. apply Ry in Hb'. subst a' b'.
        rewrite (int_result fpu p) in R; [|done|by cbn]. cbn [in_op in_type p] in R.
        by rewrite Eb, Hv in R.
  - cbn [in_result p]. unfold ir_op_value. rewrite Tid. split; [|split; [done|]].
    + split; [done|done|]. cbn. rewrite Lid, Tid. split; [unfold id; lia|done].
    + unfold reads. cbn. rewrite E2. intros r. split; congruence.
Qed.

(** ** Division by a power of two *)
Section div_rule.
  Context (i : IrInst) (Wi : well' i) (Ho : is_int_binop (in_op i) = true) (Hw : int_width (in_type i) <> 0)
    (Hn : in_nops i = 2).
  #[local] Notation "'w'" := (int_width (in_type i)).
  #[local] Notation "'x'" := (op_at i 0).
  #[local] Notation "'y'" := (op_at i 1).

Lemma only_const vals' env' k : 0 <= k < 2 ^ w ->
  fits narrow vals' (iconst_bits (in_type i) k) /\ only (reads sym_addr env' (iconst_bits (in_type i) k)) k.
Proof using Hw.
  intros H. split; [by apply fits_iconst_bits|]. intros r.
  rewrite iconst_bits_reads, (proj1 (proj2 (int_width_cases _ Hw))), Z.mod_small by done. split; congruence.
Qed.

Lemma recipe_changed vals2 env2 pre o a b va vb : extends vals2 env2 pre -> is_int_binop o = true ->
  fits narrow vals2 a -> fits narrow vals2 b -> o_type a = in_type i -> o_type b = in_type i ->
  only (reads sym_addr env2 a) va -> only (reads sym_addr env2 b) vb ->
  (forall r, int_sem o w va vb = Some r -> dn i r) -> (exists r, int_sem o w va vb = Some r) ->
  step_ok i (Change vals2 pre (mutate_binary i o a b)).
Proof using T Wi Ho Hw.
  intros ([tail ->] & A & E & P & Al) Hb Fa Fb Ta Tb Ra Rb D [v Hv]. split; [by apply binop_value_op|].
  exists tail, env2. split; [done|]. split; [done|]. split; [done|]. split; [done|]. split; [done|].
  destruct (int_width_cases _ Hw) as (_ & Eb & _).
  split; [|split].
  - apply mutate_well; try done. destruct (w_vtype _ _ _ _ _ Wi (w_result _ _ _ _ _ Wi (binop_value_op i Ho))).
    rewrite ir_value_type_app, length_app by lia. split; [lia|done].
  - split; [done|]. split; [done|]. split; [done|]. split; [by apply (binop_value_op (mutate_binary i o a b))|].
    cbn [in_op mutate_binary]. by intros ->.
  - intros r (vs & Hvs & R). inversion Hvs as [|? a' ? ? Ha Tl]; subst. inversion Tl as [|? b' ? ? Hb' Tl']; subst.
    inversion Tl'; subst. apply Ra in Ha. apply Rb in Hb'. subst a' b'.
    rewrite (int_result fpu (mutate_binary i o a b)) in R by done. cbn [in_op in_type mutate_binary] in R.
    rewrite Eb, Hv in R. by apply D; rewrite R in Hv.
Qed.

Lemma signed_recipe_ok s : (in_op i = IR_SDIV \/ in_op i = IR_SREM) -> 0 < s < w - 1 ->
  operand_may_undef x mu nold = false -> rd y (2 ^ s) ->
  step_ok i (signed_recipe vals block_id i x w s).
Proof using T Wi Ho Hw Hn.
  intros Op Hs Nu Ry. destruct (binop_types i Wi Ho Hw) as [T0 T1]. destruct (binop_fits i Wi Hn) as [F0 F1].
  destruct (int_width_cases _ Hw) as (W & Eb & Ti). destruct (width_pos _ W) as (P1 & P2 & P3 & P4).
  destruct (some_read x F0) as [n Rn]. pose proof (binop_range i Hw x n F0 T0 Rn) as Bn.
  assert (Rx : only (rd x) n).
  { intros r. split; [|by intros ->]. intros Hr. by apply (single_reads narrow vals sym_addr mu env (tb_env T) x nold F0 Nu (tb_mu T)). }
  pose proof (Z.pow_gt_lin_r 2 w ltac:(lia) ltac:(lia)) as Lw.
  assert (Cf : forall vals' k, 0 <= k < w -> fits narrow vals' (iconst_bits (in_type i) k)) by (intros; by apply fits_iconst_bits).
  assert (Co : forall env' k, 0 <= k < w -> only (reads sym_addr env' (iconst_bits (in_type i) k)) k) by (intros; apply (only_const vals); lia).
  assert (H1 : 0 <= w - 1 < w) by lia. assert (H2 : 0 <= w - s < w) by lia. assert (H3 : 0 <= s < w) by lia.
  assert (Mod : forall z, 0 <= z mod 2 ^ w < 2 ^ w) by (intros; apply Z.mod_pos_bound; lia).
  pose proof (recipe_bias_spec w s n W Hs Bn) as Bias. set (sm := (sgn w n / 2 ^ (w - 1)) mod 2 ^ w) in *.
  assert (Bb : 0 <= recipe_bias w s n < 2 ^ w).
  { unfold recipe_bias. pose proof (pow2_pos s). pose proof (pow2_lt s w). destruct (_ <? 0); lia. }
  assert (Sh : forall k (z : Z), 0 <= k < w -> (if k <? w then Some z else None) = Some z) by (intros k z Hk; by rewrite (proj2 (Z.ltb_lt k w)) by lia).
  unfold signed_recipe.
  destruct (extends_insert vals env [] IR_ASHR (in_type i) x (iconst_bits (in_type i) (w - 1)) n (w - 1) sm
    extends_refl eq_refl Hw F0 (Cf _ _ H1) T0 eq_refl Rx (Co _ _ H1) (Sh _ _ H1) (Mod _))
    as (p1 & v1 & e1 & -> & X1 & G1 & f1 & t1 & r1).
  destruct (extends_insert v1 e1 _ IR_LSHR (in_type i) _ (iconst_bits (in_type i) (w - s)) sm (w - s) (recipe_bias w s n)
    X1 eq_refl Hw f1 (Cf _ _ H2) t1 eq_refl r1 (Co _ _ H2)
    ltac:(cbn [int_sem]; rewrite Sh by lia; by rewrite Bias) Bb) as (p2 & v2 & e2 & -> & X2 & G2 & f2 & t2 & r2).
  destruct (G1 x F0) as [F01 R01]. destruct (G2 x F01) as [F02 R02].
  destruct (extends_insert v2 e2 _ IR_IADD (in_type i) x _ n (recipe_bias w s n) (recipe_adjusted w s n)
    X2 eq_refl Hw F02 f2 T0 t2 ltac:(rewrite R02, R01; exact Rx) r2 eq_refl (Mod _)) as (p3 & v3 & e3 & -> & X3 & G3 & f3 & t3 & r3).
  destruct (opc_eqb (in_op i) IR_SDIV) eqn:Od.
  - apply bool_decide_eq_true in Od.
    apply (recipe_changed v3 e3 _ IR_ASHR _ _ (recipe_adjusted w s n) s X3 eq_refl f3 (Cf _ _ H3) t3 eq_refl r3
             (Co _ _ H3)); cbn [int_sem]; rewrite Sh by lia; [|by eexists].
    intros r [= <-]. apply (den_at i Wi Ho Hw Hn _ n (2 ^ s) Rn Ry). unfold gives. rewrite Od. cbn [int_sem].
    rewrite recipe_divisor by done. pose proof (pow2_pos s).
    rewrite (proj2 (Z.eqb_neq (2 ^ s) 0)), (proj2 (Z.eqb_neq (2 ^ s) (-1))), andb_false_r by lia. cbn [orb].
    by rewrite <- recipe_quotient_spec.
  - destruct Op as [Op|Op]; [by rewrite Op in Od|]. destruct (G3 x F02) as [F03 R03].
    destruct (extends_insert v3 e3 _ IR_ASHR (in_type i) _ (iconst_bits (in_type i) s) (recipe_adjusted w s n) s (recipe_quotient w s n)
      X3 eq_refl Hw f3 (Cf _ _ H3) t3 eq_refl r3 (Co _ _ H3) (Sh _ _ H3) (Mod _))
      as (p4 & v4 & e4 & -> & X4 & G4 & f4 & t4 & r4).
    destruct (extends_insert v4 e4 _ IR_SHL (in_type i) _ (iconst_bits (in_type i) s) (recipe_quotient w s n) s
      ((recipe_quotient w s n * 2 ^ s) mod 2 ^ w)
      X4 eq_refl Hw f4 (Cf _ _ H3) t4 eq_refl r4 (Co _ _ H3) (Sh _ _ H3) (Mod _))
      as (p5 & v5 & e5 & -> & X5 & G5 & f5 & t5 & r5).
    destruct (G4 x F03) as [F04 R04]. destruct (G5 x F04) as [F05 R05].
    apply (recipe_changed v5 e5 _ IR_ISUB x _ n ((recipe_quotient w s n * 2 ^ s) mod 2 ^ w) X5 eq_refl F05 f5 T0 t5
             ltac:(rewrite R05, R04, R03, R02, R01; exact Rx) r5); [|by eexists].
    intros r [= <-]. apply (den_at i Wi Ho Hw Hn _ n (2 ^ s) Rn Ry). unfold gives. rewrite Op. cbn [int_sem].
    rewrite recipe_divisor by done. pose proof (pow2_pos s).
    rewrite (proj2 (Z.eqb_neq (2 ^ s) 0)), (proj2 (Z.eqb_neq (2 ^ s) (-1))), andb_false_r by lia. cbn [orb].
    by rewrite recipe_remainder_spec.
Qed.

Lemma rule_div_pow2_ok : rule_ok i (rule_div_pow2 vals block_id mu nold i w).
Proof using T Wi Ho Hw Hn.
  destruct (binop_types i Wi Ho Hw) as [T0 T1]. destruct (binop_fits i Wi Hn) as [F0 F1].
  destruct (int_width_cases _ Hw) as (W & Eb & Ti). destruct (width_pos _ W) as (P1 & P2 & P3 & P4).
  unfold rule_div_pow2. set (iop := fun o => opc_eqb (in_op i) o). change (opc_eqb (in_op i)) with iop.
  destruct (_ && is_kind (o_kind y) IROP_ICONST) eqn:C; [|done]. apply andb_true_iff in C as [Co K].
  destruct (power_of_two (o_a y) w) as [s|] eqn:Es; [|done].
  destruct (power_of_two_spec _ _ _ W Es) as [Ec Rs]. destruct (const_read i Hw y F1 T1 K) as (Ry & _). rewrite Ec in Ry.
  pose proof (pow2_pos s). pose proof (Z.pow_gt_lin_r 2 w ltac:(lia) ltac:(lia)) as Lw.
  assert (I : forall o, iop o = true -> in_op i = o) by (intros o; apply bool_decide_eq_true).
  destruct ((iop IR_SDIV || iop IR_SREM) && operand_may_undef x mu nold) eqn:Cu; [done|].
  destruct ((iop IR_SDIV || iop IR_SREM) && (s =? w - 1)) eqn:Cs; [done|].
  destruct (Z.eqb_spec s 0) as [->|Ns].
  - assert (S1 : sgn w 1 = 1) by (apply sgn_small; [done|]; destruct W as [->|[->|[->| ->]]]; vm_compute; split; congruence).
    change (2 ^ 0) with 1 in Ry.
    destruct (iop IR_SDIV || iop IR_UDIV) eqn:Cd.
    + apply removed_operand; try done. intros r Hr B. apply (den_at i Wi Ho Hw Hn r r 1 Hr Ry). unfold gives.
      apply orb_true_iff in Cd as [Cd|Cd]; apply I in Cd; rewrite Cd; cbn [int_sem].
      * rewrite S1. cbn. rewrite andb_false_r. by rewrite Z.quot_1_r, sgn_mod, Z.mod_small.
      * cbn. apply Z.div_1_r.
    + destruct (some_read x F0) as [n Rn]. apply removed_const; try done. rewrite Z.mod_0_l by lia. intros r ->.
      apply (den_at i Wi Ho Hw Hn 0 n 1 Rn Ry). unfold gives. apply orb_false_iff in Cd as [D1 D2].
      rewrite D1, D2, orb_false_r in Co. cbn [orb] in Co. apply orb_true_iff in Co as [Co|Co]; apply I in Co; rewrite Co; cbn [int_sem].
      * rewrite S1. cbn. rewrite andb_false_r. by rewrite Z.rem_1_r, Z.mod_0_l by lia.
      * cbn. apply Z.mod_1_r.
  - destruct (iop IR_UDIV) eqn:Cd; [|destruct (iop IR_UREM) eqn:Cr].
    + apply I in Cd. cbn [rule_ok]. apply mutated_ok; try done; [by apply fits_iconst_bits|].
      intros r a b Ha Hb Ra Rb G. rewrite iconst_bits_reads, Eb, Z.mod_small in Hb by (done || lia). subst b.
      apply (den_at i Wi Ho Hw Hn r a (2 ^ s) Ha Ry). unfold gives in *. rewrite Cd. cbn [int_sem] in *.
      rewrite (proj2 (Z.ltb_lt s w)) in G by lia. by rewrite (proj2 (Z.eqb_neq (2 ^ s) 0)) by lia.
    + apply I in Cr. cbn [rule_ok]. apply mutated_ok; try done; [by apply fits_iconst_bits|].
      pose proof (pow2_lt s w ltac:(lia) ltac:(lia)).
      intros r a b Ha Hb Ra Rb G. rewrite Z.shiftl_1_l, (u64_small (2 ^ s)), u64_small in Hb by (unfold is_u64; lia).
      rewrite iconst_bits_reads, Eb, Z.mod_small in Hb by (done || lia). subst b.
      apply (den_at i Wi Ho Hw Hn r a (2 ^ s) Ha Ry). unfold gives in *. rewrite Cr. cbn [int_sem] in *.
      rewrite (proj2 (Z.eqb_neq (2 ^ s) 0)) by lia. rewrite <- G. symmetry. apply land_ones_mod. lia.
    + cbn [orb] in Co. rewrite !orb_false_r in Co. rewrite Co in Cu, Cs. cbn [andb] in Cu, Cs.
      apply Z.eqb_neq in Cs. cbn [rule_ok]. apply signed_recipe_ok; [|lia|done|done].
      apply orb_true_iff in Co as [Co|Co]; apply I in Co; tauto.
Qed.
End div_rule.

(** ** The other rules *)
Section other_rules.
  Context (i : IrInst) (Wi : well' i).
  #[local] Notation "'x'" := (op_at i 0).
  #[local] Notation "'y'" := (op_at i 1).

Lemma nth_fits n m : in_nops i = m -> Z.of_nat n < m -> fits' (op_at i n).
Proof using Wi. intros N H. apply (op_fits narrow ret variadic); [done|unfold in_nops in N; lia]. Qed.

Lemma rule_fold_ok : licensed fpu cfg -> rule_ok i (rule_fold cfg i).
Proof using T Wi.
  intros L. unfold rule_fold. destruct (opt_fold_inst i cfg) as [v|] eqn:E; [|done]. cbn [rule_ok].
  split; [apply (opt_fold_inst_shape i cfg v E)|]. by apply (fold_fits sym_addr fpu narrow ret variadic vals env i cfg v (eo_inhabited _ _ _ (tb_env T))).
Qed.

Lemma icmp_types : in_op i = IR_ICMP -> in_type i = IRT_I32 /\ o_type x = o_type y /\
  (type_is_int (o_type x) || ty_eqb (o_type x) IRT_PTR) = true /\ in_subop i <= 9.
Proof using Wi.
  intros Op. pose proof (w_types _ _ _ _ _ Wi ltac:(by rewrite Op)) as C. unfold inst_types_ok in C. rewrite Op in C.
  cbn [andb] in C. bool_cases. split; [done|]. split; [done|]. split; [done|]. by apply Z.leb_le.
Qed.

Lemma icmp_den r p : in_op i = IR_ICMP -> in_nops i = 2 -> icmp_of (in_subop i) = Some p ->
  (dn i r <-> exists a b, rd x a /\ rd y b /\ b2z (icmp_sem p (type_bits (o_type x)) a b) = r).
Proof.
  intros Op Hn Hp. split.
  - intros (vs & Hvs & R). destruct (reads_2 sym_addr env i vs (ops_2 i Hn) Hvs) as (a & b & -> & Ha & Hb).
    unfold result_of in R. rewrite Op, Hp in R. by exists a, b.
  - intros (a & b & Ha & Hb & R). apply (den_2 sym_addr fpu env i a b); [by apply ops_2|done|done|].
    unfold result_of. by rewrite Op, Hp.
Qed.

Lemma icmp_value_op : in_op i = IR_ICMP -> value_op (in_op i) = true.
Proof. by intros ->. Qed.

Lemma swapped_sem p w a b : icmp_sem (swapped_predicate p) w b a = icmp_sem p w a b.
Proof. destruct p; cbn [swapped_predicate icmp_sem]; try done; by rewrite Z.eqb_sym. Qed.
Lemma icmp_of_code p : icmp_of (icmp_code p) = Some p.
Proof. by destruct p. Qed.

Lemma rule_icmp_swap_ok : rule_ok i (rule_icmp_swap vals i).
Proof using T Wi.
  unfold rule_icmp_swap. destruct (_ && _ && _ && _) eqn:C; [|done]. bool_cases.
  rename select (in_op i = IR_ICMP) into Op. rename select (in_nops i = 2) into Hn.
  destruct (icmp_of (in_subop i)) as [p|] eqn:Hp; [|done]. cbn [rule_ok].
  destruct (icmp_types Op) as (Ty & Txy & Ti & Hs).
  pose proof (nth_fits 0 2 Hn eq_refl) as F0. pose proof (nth_fits 1 2 Hn eq_refl) as F1.
  set (i' := mkInst _ _ _ _ _ _ _ _).
  apply change_ok; [by apply icmp_value_op| |done|].
  - split; cbn.
    + constructor; [done|]. by constructor.
    + intros _. unfold inst_types_ok. change (op_at i' 0) with y. change (op_at i' 1) with x.
      cbn [in_op in_type in_subop i' andb]. rewrite Ty, <- Txy, Ti. unfold ty_eqb. rewrite !bool_decide_eq_true_2 by done.
      by destruct p.
    + by intros [? | ?].
    + intros _. apply (w_result _ _ _ _ _ Wi). by apply icmp_value_op.
    + apply (w_vtype _ _ _ _ _ Wi).
  - intros r (vs & Hvs & R). inversion Hvs as [|? b ? ? Hb Tl]; subst. inversion Tl as [|? a ? ? Ha Tl']; subst.
    inversion Tl'; subst. unfold result_of in R. change (op_at i' 0) with y in R. cbn [in_op in_subop i'] in R.
    rewrite icmp_of_code, swapped_sem, <- Txy in R. apply (icmp_den r p Op Hn Hp). by exists a, b.
Qed.

Lemma rules_fp_ok : (match cfg with Some c => no_nans (fast_math c) | None => false end) = false ->
  rule_ok i (rules_fp mu nold cfg i).
Proof.
  intros N. unfold rules_fp. destruct (format_of _); [|done]. destruct (in_nops i =? 2); [|done]. cbv zeta.
  rewrite N, !andb_false_r. done.
Qed.

Lemma rule_ult_zext_ok : rule_ok i (rule_ult_zext vals defs repl nold i).
Proof using T Wi.
  unfold rule_ult_zext. destruct (_ && _ && _ && _) eqn:C; [|done]. bool_cases.
  rename select (in_op i = IR_ICMP) into Op. rename select (in_nops i = 2) into Hn.
  rename select (in_subop i = _) into Hs. rename select (is_kind _ _ = true) into K.
  assert (Hp : icmp_of (in_subop i) = Some ICMP_ULT) by (by rewrite Hs, icmp_of_code).
  destruct (icmp_types Op) as (Ty & Txy & _ & _).
  pose proof (nth_fits 0 2 Hn eq_refl) as F0. pose proof (nth_fits 1 2 Hn eq_refl) as F1.
  destruct (inner_of defs nold x IR_ZEXT 1) as [e|] eqn:E; [|done].
  destruct (inner_of_ok x IR_ZEXT 1 e F0 E) as (Oe & Ne & We & Te & Re & _).
  assert (Fe : fits' (op_at e 0)) by (apply (op_fits narrow ret variadic); [done|unfold in_nops in Ne; lia]).
  pose proof (w_types _ _ _ _ _ We ltac:(by rewrite Oe)) as Ce. unfold inst_types_ok in Ce. rewrite Oe in Ce.
  cbn [andb] in Ce. bool_cases. rename select (type_is_int (o_type (op_at e 0)) = true) into Ts.
  rename select (type_is_int (in_type e) = true) into Tz.
  apply resolving_ok; [done|]. intros s Fs Tso Rs. rewrite Tso.
  assert (Ws : int_width (o_type (op_at e 0)) <> 0) by (by apply int_type_width).
  assert (Wy : int_width (o_type y) <> 0) by (rewrite <- Txy, Te; by apply int_type_width).
  destruct (int_width_cases _ Ws) as (Wd & Eb & _). destruct (int_width_cases _ Wy) as (Wdy & Eby & _).
  assert (Rz : forall v, rd s v -> rd x v).
  { intros v Hv. apply Re. exists [v]. split; [rewrite (ops_1 e Ne); constructor; [by apply Rs|constructor]|].
    unfold result_of. by rewrite Oe. }
  assert (Rt : rd y (o_a y &64 width_mask (int_width (o_type y)))).
  { unfold reads. rewrite (reads_kind _ _ K), Eby. by rewrite mask_mod. }
  set (t := o_a y &64 width_mask (int_width (o_type y))) in *.
  assert (D : forall r v, rd s v -> b2z (v <? t) = r -> dn i r).
  { intros r v Hv R. apply (icmp_den r ICMP_ULT Op Hn Hp). exists v, t. split; [by apply Rz|]. by split. }
  assert (B : forall v, rd s v -> 0 <= v < 2 ^ int_width (o_type (op_at e 0))).
  { intros v Hv. pose proof (reads_range _ _ sym_addr mu env (tb_env T) s v Fs Hv) as A. unfold any in A.
    by rewrite Tso, Eb in A. }
  destruct (reads_inhabited narrow vals sym_addr env s (eo_inhabited _ _ _ (tb_env T)) Fs) as [v0 Hv0].
  pose proof (mask_range _ (o_a y) Wdy) as Rt'. fold t in Rt'.
  assert (Cst : forall k, 0 <= k < 2 ^ 32 -> (forall v, rd s v -> b2z (v <? t) = k) -> step_ok i (Remove (iconst_bits IRT_I32 k))).
  { intros k Hk H. split; [by apply icmp_value_op|]. split; [by apply fits_iconst_bits|]. split; [done|].
    intros r Hr. rewrite iconst_bits_reads in Hr by done. change (type_bits IRT_I32) with 32 in Hr. rewrite Z.mod_small in Hr by done.
    subst r. apply (D k v0 Hv0). by apply H. }
  cbn [rule_ok]. destruct (Z.eqb_spec t 0) as [Z0|Nz]; [|destruct (Z.ltb_spec (width_mask (int_width (o_type (op_at e 0)))) t) as [Lt|Ge]].
  - apply Cst; [lia|]. intros v Hv. specialize (B v Hv). by rewrite (proj2 (Z.ltb_ge v t)) by lia.
  - apply Cst; [lia|]. intros v Hv. specialize (B v Hv). rewrite width_mask_ones in Lt by done.
    by rewrite (proj2 (Z.ltb_lt v t)) by lia.
  - rewrite width_mask_ones in Ge by done. set (i' := set_ops i _).
    apply change_ok; [by apply icmp_value_op| | |].
    + split; cbn.
      * constructor; [done|]. constructor; [by apply fits_iconst_bits|constructor].
      * intros _. unfold inst_types_ok, op_at. cbn. rewrite Op, Ty. cbn. rewrite Tso, Ts. unfold ty_eqb.
        rewrite !bool_decide_eq_true_2 by done. cbn. rewrite Hs. done.
      * rewrite Op. by intros [? | ?].
      * intros _. apply (w_result _ _ _ _ _ Wi). by apply icmp_value_op.
      * apply (w_vtype _ _ _ _ _ Wi).
    + split; [done|]. split; [done|]. split; [done|]. split; [by apply icmp_value_op|done].
    + intros r (vs & Hvs & R). inversion Hvs as [|? v ? ? Hv Tl]; subst. inversion Tl as [|? t' ? ? Ht' Tl']; subst.
      inversion Tl'; subst. unfold result_of in R. cbn [in_op set_ops i' in_subop] in R. rewrite Op, Hp in R.
      rewrite iconst_bits_reads, Eb, Z.mod_small in Ht' by (done || lia). subst t'. by apply (D r v Hv).
Qed.

(** Sign-bit operations on floating-point patterns. *)
Lemma fp_sign_type o : in_op i = o -> (o = IR_FNEG \/ o = IR_FABS) -> in_nops i = 1 ->
  o_type x = in_type i /\ (exists f, format_of (in_type i) = Some f) /\ 0 < type_bits (in_type i) /\ fits' x.
Proof using Wi.
  intros Op Ho Hn.
  assert (C : type_is_float (in_type i) = true /\ o_type x = in_type i).
  { pose proof (w_types _ _ _ _ _ Wi ltac:(by destruct Ho as [-> | ->]; rewrite Op)) as C. unfold inst_types_ok in C.
    destruct Ho as [-> | ->]; rewrite Op in C; cbn [andb] in C; by bool_cases. }
  destruct C as [Tf Ty]. split; [done|]. split; [by apply type_is_float_format|].
  split; [by destruct (in_type i)|]. by apply (nth_fits 0 1).
Qed.

Lemma fneg_den r : in_op i = IR_FNEG -> in_nops i = 1 ->
  (dn i r <-> exists a, rd x a /\ Z.lxor a (2 ^ (type_bits (in_type i) - 1)) = r).
Proof using Wi.
  intros Op Hn. destruct (fp_sign_type IR_FNEG Op ltac:(tauto) Hn) as (_ & [f Hf] & _). split.
  - intros (vs & Hvs & R). destruct (reads_1 sym_addr env i vs (ops_1 i Hn) Hvs) as (a & -> & Ha).
    unfold result_of in R. rewrite Op, Hf in R. by exists a.
  - intros (a & Ha & R). apply (den_1 sym_addr fpu env i a); [by apply ops_1|done|].
    unfold result_of. by rewrite Op, Hf.
Qed.
Lemma flip_top_mod a n : 0 <= n -> Z.lxor a (2 ^ n) mod 2 ^ n = a mod 2 ^ n.
Proof.
  intros Hn. apply Z.bits_inj'. intros k Hk. destruct (Z.ltb_spec k n).
  - rewrite !Z.mod_pow2_bits_low, Z.lxor_spec, Z.pow2_bits_false by lia. by rewrite xorb_false_r.
  - by rewrite !Z.mod_pow2_bits_high by lia.
Qed.
Lemma fabs_den r : in_op i = IR_FABS -> in_nops i = 1 ->
  (dn i r <-> exists a, rd x a /\ a mod 2 ^ (type_bits (in_type i) - 1) = r).
Proof using Wi.
  intros Op Hn. destruct (fp_sign_type IR_FABS Op ltac:(tauto) Hn) as (_ & [f Hf] & _). split.
  - intros (vs & Hvs & R). destruct (reads_1 sym_addr env i vs (ops_1 i Hn) Hvs) as (a & -> & Ha).
    unfold result_of in R. rewrite Op, Hf in R. by exists a.
  - intros (a & Ha & R). apply (den_1 sym_addr fpu env i a); [by apply ops_1|done|].
    unfold result_of. by rewrite Op, Hf.
Qed.
End other_rules.

Lemma fneg_inner d : well' d -> in_op d = IR_FNEG -> in_nops d = 1 ->
  fits' (op_at d 0) /\ o_type (op_at d 0) = in_type d /\
  (forall a, rd (op_at d 0) a -> dn d (Z.lxor a (2 ^ (type_bits (in_type d) - 1)))).
Proof.
  intros W O N. destruct (fp_sign_type d W IR_FNEG O ltac:(tauto) N) as (Ty & _ & _ & F).
  split; [done|]. split; [done|]. intros a Ha. apply fneg_den; [done|done|done|]. by exists a.
Qed.

Section sign_rules.
  Context (i : IrInst) (Wi : well' i).
  #[local] Notation "'x'" := (op_at i 0).

Lemma rule_fneg_fneg_ok : rule_ok i (rule_fneg_fneg defs repl nold i).
Proof using T Wi.
  unfold rule_fneg_fneg. destruct (_ && _) eqn:C; [|done]. bool_cases.
  rename select (in_op i = IR_FNEG) into Op. rename select (in_nops i = 1) into Hn.
  destruct (fp_sign_type i Wi IR_FNEG Op ltac:(tauto) Hn) as (Tx & _ & _ & Fx).
  destruct (inner_of defs nold x IR_FNEG 1) as [d|] eqn:E; [|done].
  destruct (inner_of_ok x IR_FNEG 1 d Fx E) as (Od & Nd & Wd & Td & Rd & _).
  destruct (fneg_inner d Wd Od Nd) as (Fd & Tdo & D).
  apply resolving_ok; [done|]. intros v Fv Tv Rv. split; [by rewrite Op|]. split; [done|]. split; [congruence|].
  intros r Hr. apply fneg_den; [done|done|done|]. exists (Z.lxor r (2 ^ (type_bits (in_type i) - 1))). split.
  - rewrite <- Tx, Td. by apply Rd, D, Rv.
  - by rewrite Z.lxor_assoc, Z.lxor_nilpotent, Z.lxor_0_r.
Qed.

Lemma rule_fabs_ok : rule_ok i (rule_fabs vals defs repl nold i).
Proof using T Wi.
  unfold rule_fabs. destruct (_ && _) eqn:C; [|done]. bool_cases.
  rename select (in_op i = IR_FABS) into Op. rename select (in_nops i = 1) into Hn.
  destruct (fp_sign_type i Wi IR_FABS Op ltac:(tauto) Hn) as (Tx & _ & Pb & Fx).
  destruct (inner_of defs nold x IR_FABS 1) as [d|] eqn:E.
  - destruct (inner_of_ok x IR_FABS 1 d Fx E) as (Od & Nd & Wd & Td & Rd & Ab).
    apply resolving_ok; [done|]. intros v Fv Tv Rv. split; [by rewrite Op|]. split; [done|]. split; [congruence|].
    intros r Hr. apply Rv in Hr. apply fabs_den; [done|done|done|]. exists r. split; [done|].
    pose proof (reads_range _ _ sym_addr mu env (tb_env T) x r Fx Hr) as B. unfold any in B. specialize (Ab eq_refl r Hr).
    rewrite <- Td, Tx in Ab. apply Z.mod_small. lia.
  - destruct (inner_of defs nold x IR_FNEG 1) as [d|] eqn:En; [|done]. clear E.
    destruct (inner_of_ok x IR_FNEG 1 d Fx En) as (Od & Nd & Wd & Td & Rd & _).
    destruct (fneg_inner d Wd Od Nd) as (Fd & Tdo & D).
    apply resolving_ok; [done|]. intros v Fv Tv Rv. cbn [rule_ok]. set (i' := set_ops i [v]).
    assert (Tvi : o_type v = in_type i) by congruence.
    assert (Wi' : well' i').
    { split; cbn.
      - by constructor.
      - intros _. pose proof (w_types _ _ _ _ _ Wi ltac:(by rewrite Op)) as Ct. unfold inst_types_ok in *.
        change (op_at i' 0) with v. cbn [in_op in_type set_ops i']. rewrite Op in *. cbn [andb] in *. bool_cases.
        rename select (type_is_float _ = true) into Tf. rewrite Tvi, Tf. unfold ty_eqb. by rewrite bool_decide_eq_true_2.
      - rewrite Op. by intros [? | ?].
      - intros _. apply (w_result _ _ _ _ _ Wi). by rewrite Op.
      - apply (w_vtype _ _ _ _ _ Wi). }
    apply change_ok; [by rewrite Op|done| |].
    + split; [done|]. split; [done|]. split; [done|]. split; [cbn; by rewrite Op|done].
    + intros r (vs & Hvs & R). inversion Hvs as [|? a ? ? Ha Tl]; subst. inversion Tl; subst.
      destruct (fp_sign_type i Wi IR_FABS Op ltac:(tauto) Hn) as (_ & [f Hf] & _).
      unfold result_of in R. cbn [in_op in_type set_ops i'] in R. rewrite Op, Hf in R. subst r.
      apply fabs_den; [done|done|done|]. exists (Z.lxor a (2 ^ (type_bits (in_type i) - 1))).
      split; [rewrite <- Tx, Td; by apply Rd, D, Rv|]. apply flip_top_mod. lia.
Qed.
End sign_rules.

(** ** The whole rule list *)
Lemma rules_int_ok i : well' i -> rule_ok i (rules_int vals block_id defs mu repl nold i).
Proof using T.
  intros Wi. unfold rules_int. destruct (negb _ && _) eqn:C; [|done]. bool_cases.
  rename select (int_width _ <> 0) into Hw. rename select (in_nops i = 2) into Hn.
  destruct (is_int_binop (in_op i)) eqn:Ho.
  - apply orelse_ok; [by apply rule_identity_ok|]. apply orelse_ok; [by apply rule_mul_zero_ok|].
    apply orelse_ok; [by apply rule_sub_self_ok|]. apply orelse_ok; [by apply rule_mul_pow2_ok|].
    apply orelse_ok; [by apply rule_neg_neg_ok|]. apply orelse_ok; [by apply rule_xor_xor_ok|].
    apply orelse_ok; [by apply rule_div_pow2_ok|by apply rule_shift_pair_ok].
  - assert (O : forall o, is_int_binop o = true -> opc_eqb (in_op i) o = false).
    { intros o Hb. apply bool_decide_eq_false. intros E. by rewrite E, Hb in Ho. }
    unfold rule_identity, rule_mul_zero, rule_sub_self, rule_mul_pow2, rule_neg_neg, rule_xor_xor, rule_div_pow2,
      rule_shift_pair, rule. cbv zeta beta. by rewrite !O.
Qed.

Lemma simplify_one_ok i s : well' i ->
  (match cfg with Some c => no_nans (fast_math c) | None => false end) = false ->
  simplify_one vals block_id defs mu repl nold cfg i = Some s -> step_ok i s.
Proof using T.
  intros Wi N. unfold simplify_one.
  assert (R : rule_ok i (simplify_rules vals block_id defs mu repl nold cfg i)).
  { unfold simplify_rules. apply orelse_ok; [by apply rule_fold_ok, strict_licensed|]. apply orelse_ok; [by apply rule_icmp_swap_ok|].
    apply orelse_ok; [by apply rules_fp_ok|]. apply orelse_ok; [by apply rules_int_ok|].
    apply orelse_ok; [by apply rule_ult_zext_ok|]. apply orelse_ok; [by apply rule_fneg_fneg_ok|by apply rule_fabs_ok]. }
  destruct (simplify_rules _ _ _ _ _ _ _ i) as [s'| |]; [|intros [= <-]; done|done]. by intros [= <-].
Qed.
End sound.

(** ** Properties of the code *)

(** C12. Simplifying one instruction is a refinement: in any environment the
    tables of the pass agree with, for a well-typed instruction whose constants
    are reduced to their width if it is a zero extension or a selection (no check
    ensures that), and without the no-NaNs licence (whose rewrites are not
    covered), what [simplify_one] decides is well typed and
    gives only values the instruction may give. A replacement operand has the
    instruction's type and denotes values it may give; a mutated instruction
    keeps its result, type and edges; inserted instructions define new values
    only, each to what it computes; undefined operations and operands
    included. *)
Theorem simplify_one_correct sym_addr fpu narrow ret variadic vals nold mu env defs repl block_id cfg i s :
  tables sym_addr fpu narrow ret variadic vals nold mu env defs repl ->
  well narrow ret variadic vals i ->
  (match cfg with Some c => no_nans (fast_math c) | None => false end) = false ->
  simplify_one vals block_id defs mu repl nold cfg i = Some s ->
  match s with
  | Keep => True
  | Remove v => fits narrow vals v /\ o_type v = in_type i /\
      refines (reads sym_addr env v) (den sym_addr fpu env i)
  | Change vals' pre i' => exists tail env', vals' = vals ++ tail /\
      (forall id, 1 <= id <= Z.of_nat (length vals) -> env' id = env id) /\
      Forall (fun p => well narrow ret variadic vals' p /\ Z.of_nat (length vals) < in_result p /\
                refines (den sym_addr fpu env' p) (env' (in_result p))) pre /\
      well narrow ret variadic vals' i' /\
      in_result i' = in_result i /\ in_type i' = in_type i /\ in_edges i' = in_edges i /\
      refines (den sym_addr fpu env' i') (den sym_addr fpu env i)
  end.
Proof.
  intros T W N E. pose proof (simplify_one_ok _ _ _ _ _ _ _ _ _ _ _ block_id cfg T i s W N E) as S.
  destruct s as [|v|vals' pre i']; [done|exact (proj2 S)|].
  destruct S as (_ & tail & env' & H1 & H2 & _ & H4 & _ & H6 & (H7 & H8 & H9 & _) & H10).
  exists tail, env'. split; [done|]. split; [done|]. split; [|done].
  refine (List.Forall_impl _ _ H4). by intros p (? & ? & _ & _ & _ & ?).
Qed.

(** The remainder by 8 of a value that reads as [-7] becomes five shifts and
    additions and a subtraction. *)
Lemma simplify_one_witness :
  let i := mkInst IR_SREM IRT_I32 0 0 2 0 [mkOp IROP_VALUE IRT_I32 0 0 1 0; ic IRT_I32 8] [] in
  let vals := [mkVal IRT_I32 VDEF_FPARAM 1 0; mkVal IRT_I32 VDEF_INST 1 0] in
  let env := fun _ => eq (2 ^ 32 - 7) in
  exists vals' pre i', simplify_one vals 1 ∅ ∅ ∅ 2 None i = Some (Change vals' pre i') /\ length pre = 5%nat /\
    in_op i' = IR_ISUB /\
    exists tail env', vals' = vals ++ tail /\ (forall id, 1 <= id <= 2 -> env' id = env id) /\
      refines (den id plain_fpu env' i') (den id plain_fpu env i).
Proof.
  intros i vals env.
  assert (W : well True IRT_VOID false vals i).
  { split.
    - constructor; [split; [done|done|split; [unfold vals; cbn [length o_a]; lia|reflexivity]]|]. constructor; [|constructor].
      split; [exact (u64_range 8)|intros _ _; reflexivity|exact I].
    - intros _. reflexivity.
    - intros [E|E]; discriminate E.
    - intros _ E. discriminate E.
    - intros _. split; [unfold vals; cbn [length in_result i]; lia|reflexivity]. }
  assert (T : tables id plain_fpu True IRT_VOID false vals 2 ∅ env ∅ ∅).
  { split.
    - assert (B : forall k, 1 <= k <= Z.of_nat (length vals) -> ir_value_type vals k = IRT_I32).
      { intros k Hk. unfold vals in Hk. cbn [length] in Hk. assert (k = 1 \/ k = 2) as [-> | ->] by lia; reflexivity. }
      split.
      + intros k _. by exists (2 ^ 32 - 7).
      + intros k r Hk <-. rewrite (B k Hk). vm_compute. split; congruence.
      + intros k _ _ r r' <- <-. reflexivity.
    - intros k d E. by destruct (lookup_empty_Some (M:=gmap Z) k d E).
    - intros k v E. by destruct (lookup_empty_Some (M:=gmap Z) k v E).
    - intros k E. by apply not_elem_of_empty in E.
    - unfold vals. cbn [length]. lia. }
  eexists _, _, _. split; [vm_compute; reflexivity|]. split; [reflexivity|]. split; [reflexivity|].
  destruct (simplify_one_correct id plain_fpu True IRT_VOID false vals 2 ∅ env ∅ ∅ 1 None i _ T W eq_refl eq_refl)
    as (tail & env' & E & A & _ & _ & _ & _ & _ & R).
  exists tail, env'. split; [exact E|]. split; [exact A|exact R].
Defined.
