(* ===== verification/SimplifyPass.v ===== *)
(** The walk of the simplifier over a function: the instructions it emits
    refine the ones they stand for, operand by operand at every use. *)
From stdpp Require Import gmap.
From S2P Require Import Prelude.
From S2P Require Import Softfp.
From S2P Require Import Ir.
From S2P Require Import Fold.
From S2P Require Import IrSem.
From S2P Require Import FoldFacts.
From S2P Require Import FoldCorrect.
From S2P Require Import Simplify.
From S2P Require Import IrValues.
From S2P Require Import SimplifyUndef.
From S2P Require Import SimplifyRules.
From S2P Require Import SimplifySound.
#[local] Open Scope Z_scope.

(** ** Replaced operands *)

(** Same type, fewer patterns. *)
Record op_refines (narrow : Prop) (vals : list IrValInfo) (sym_addr : Z -> Z) (env : Env) (op op' : IrOperand) : Prop := {
  or_fits : fits narrow vals op';
  or_type : o_type op' = o_type op;
  or_reads : refines (reads sym_addr env op') (reads sym_addr env op);
}.

Section ops.
  Context (narrow : Prop) (ret : IrType) (variadic : bool) (vals : list IrValInfo).
  Context (sym_addr : Z -> Z) (fpu : FpTarget) (env : Env).
  #[local] Notation "'or''" := (op_refines narrow vals sym_addr env).

Lemma op_refines_refl op : fits narrow vals op -> or' op op.
Proof. by split. Qed.
Lemma op_refines_trans a b c : or' a b -> or' b c -> or' a c.
Proof. intros [F T R] [F' T' R']. split; [done|congruence|]. by transitivity (reads sym_addr env b). Qed.

Lemma ops_refine_refl ops : Forall (fits narrow vals) ops -> Forall2 or' ops ops.
Proof. intros F. induction F; constructor; [by apply op_refines_refl|done]. Qed.
Lemma ops_refine_trans a b c : Forall2 or' a b -> Forall2 or' b c -> Forall2 or' a c.
Proof.
  intros H. revert c. induction H as [|x y a b Hx H IH]; intros c H'; inversion H' as [|? z ? c' Hz Hc]; subst; constructor.
  - by apply (op_refines_trans x y z).
  - by apply IH.
Qed.
Lemma ops_refine_fits ops ops' : Forall2 or' ops ops' -> Forall (fits narrow vals) ops'.
Proof. intros H. induction H; constructor; [by eapply or_fits|done]. Qed.
Lemma ops_refine_type ops ops' n : Forall2 or' ops ops' ->
  o_type (default no_operand (ops' !! n)) = o_type (default no_operand (ops !! n)).
Proof.
  intros H. revert n. induction H as [|x y a b Hx H IH]; intros n; [done|]. destruct n; cbn; [by eapply or_type|apply IH].
Qed.
Lemma ops_refine_reads ops ops' vs : Forall2 or' ops ops' -> Forall2 (reads sym_addr env) ops' vs ->
  Forall2 (reads sym_addr env) ops vs.
Proof.
  intros H. revert vs. induction H as [|x y a b Hx H IH]; intros vs H'; inversion H'; subst; constructor.
  - by apply (or_reads _ _ _ _ _ _ Hx).
  - by apply IH.
Qed.

(** The annotations of an argument slot are no part of its value. *)
Lemma carry_refines op v : or' op v -> or' op (ir_arg_carry_provenance v op).
Proof.
  intros [[Ok N K] T R]. split; [|done|].
  - split; unfold ir_arg_carry_provenance in *; cbn [o_kind o_type o_a o_b o_sym] in *; [|done|done].
    unfold operand_ok in *. cbn [o_kind o_type o_a o_b]. unfold is_kind. by destruct (o_kind v).
  - unfold reads, ir_arg_carry_provenance, is_kind in *. cbn [o_kind o_type o_a o_b o_sym]. by destruct (o_kind v).
Qed.

(** ** Instructions with replaced operands *)
Lemma same_types_check i ops : Forall2 (fun op op' => o_type op' = o_type op) (in_ops i) ops -> value_op (in_op i) = true ->
  inst_types_ok ret variadic (set_ops i ops) = inst_types_ok ret variadic i.
Proof.
  intros H V. assert (E : forall n, o_type (op_at (set_ops i ops) n) = o_type (op_at i n)).
  { intros n. unfold op_at. cbn [in_ops set_ops]. clear V. revert n. induction H as [|x y a b Hx H IH]; intros [|n]; try done. apply IH. }
  assert (L : in_nops (set_ops i ops) = in_nops i) by (unfold in_nops; by rewrite (Forall2_length H)).
  assert (B : forall b, binop_types_ok (set_ops i ops) b = binop_types_ok i b).
  { intros b. unfold binop_types_ok. cbn [in_type in_op set_ops]. by rewrite !E. }
  unfold inst_types_ok. cbn [in_type in_op in_subop in_flags set_ops]. rewrite !E, L, !B. by destruct (in_op i).
Qed.
Lemma same_types_well i ops : Forall2 (fun op op' => o_type op' = o_type op) (in_ops i) ops -> Forall (fits narrow vals) ops ->
  well narrow ret variadic vals i -> well narrow ret variadic vals (set_ops i ops).
Proof.
  intros H F [O T N R V]. split; [done| |done|done|done]. intros Ho. rewrite same_types_check by done. by apply T.
Qed.

Lemma set_ops_den i ops : Forall2 or' (in_ops i) ops ->
  refines (den sym_addr fpu env (set_ops i ops)) (den sym_addr fpu env i).
Proof.
  intros H r (vs & Hvs & R). exists vs. split; [by apply (ops_refine_reads _ ops)|].
  unfold result_of in *. cbn [in_type in_op in_subop set_ops] in R. change (op_at (set_ops i ops) 0) with (default no_operand (ops !! 0%nat)) in R.
  by rewrite (ops_refine_type _ _ 0 H) in R.
Qed.

Lemma set_ops_well i ops : Forall2 or' (in_ops i) ops -> well narrow ret variadic vals i ->
  well narrow ret variadic vals (set_ops i ops).
Proof.
  intros H. apply same_types_well; [|by apply (ops_refine_fits (in_ops i))].
  eapply Forall2_impl; [|exact H]. intros a b. apply or_type.
Qed.
End ops.

(** ** The tables of the walk *)
Section tables.
  Context (sym_addr : Z -> Z) (fpu : FpTarget) (narrow : Prop) (ret : IrType) (variadic : bool).
  Context (nold : Z) (mu : gset Z).
  #[local] Notation "'tables''" := (tables sym_addr fpu narrow ret variadic).

Lemma tables_grow vals tail env env' defs repl : tables' vals nold mu env defs repl ->
  (forall id, 1 <= id <= Z.of_nat (length vals) -> env' id = env id) -> env_ok (vals ++ tail) mu env' ->
  tables' (vals ++ tail) nold mu env' defs repl.
Proof.
  intros [E D R M N] A E'. split; [done| | |done|rewrite length_app; lia].
  - intros id d L. destruct (D id d L) as (Nz & I & W & Rd & Ab). split; [done|]. split; [done|]. split; [by apply well_app|].
    rewrite A by (rewrite <- I in *; by apply (w_vtype _ _ _ _ _ W)). split; [|done].
    intros r Hr. apply (den_agree sym_addr fpu narrow ret variadic vals env) in Hr; [|done|done]. by apply Rd.
  - intros id v L I. destruct (R id v L I) as (F & Ty & Rv). split; [by apply fits_app|].
    rewrite ir_value_type_app by lia. split; [done|]. rewrite (reads_agree sym_addr narrow vals env env') by done.
    rewrite A by lia. done.
Qed.

Lemma tables_set_def vals env defs repl i : tables' vals nold mu env defs repl -> well narrow ret variadic vals i ->
  refines (den sym_addr fpu env i) (env (in_result i)) ->
  (in_op i = IR_FABS -> forall r, env (in_result i) r -> r < 2 ^ (type_bits (in_type i) - 1)) ->
  tables' vals nold mu env (set_def nold defs i) repl.
Proof.
  intros [E D R M N] W Rd Ab. split; [done| |done|done|done]. intros id d. unfold set_def.
  destruct (negb (in_result i =? 0) && _) eqn:C; [|apply D]. apply andb_true_iff in C as [C _].
  apply negb_true_iff, Z.eqb_neq in C. intros L. apply lookup_insert_Some in L as [[<- <-]|[_ L]]; [done|by apply D].
Qed.

Lemma tables_replace vals env defs repl id v : tables' vals nold mu env defs repl ->
  fits narrow vals v -> o_type v = ir_value_type vals id -> refines (reads sym_addr env v) (env id) ->
  tables' vals nold mu env defs (<[id := v]> repl).
Proof.
  intros [E D R M N] F Ty Rv. split; [done|done| |done|done]. intros k w L.
  apply lookup_insert_Some in L as [[<- <-]|[_ L]]; [done|by apply R].
Qed.
End tables.

(** ** Instructions and their replacements *)
Section emitted.
  Context (sym_addr : Z -> Z) (fpu : FpTarget) (narrow : Prop) (ret : IrType) (variadic : bool).
  Context (nold : Z).

Section at_env.
  Context (vals : list IrValInfo) (env : Env).
  #[local] Notation "'or''" := (op_refines narrow vals sym_addr env).

Definition edge_refines (e e' : IrEdge) : Prop :=
  e_target e' = e_target e /\ e_case e' = e_case e /\ Forall2 or' (e_args e) (e_args e').

(** A call argument keeps the annotations of its slot. *)
Definition slot_kept (a a' : IrOperand) : Prop :=
  o_argflags a' = o_argflags a /\ (o_kind a' <> IROP_FCONST -> o_b a' = o_b a) /\
  (o_kind a = IROP_FCONST -> o_kind a' = IROP_FCONST).

(** An instruction and the one that takes its place. *)
Record kept (i i' : IrInst) : Prop := {
  kp_well : well narrow ret variadic vals i';
  kp_result : in_result i' = in_result i;
  kp_type : in_type i' = in_type i;
  kp_edges : Forall2 edge_refines (in_edges i) (in_edges i');
  kp_value : value_op (in_op i) = true ->
             value_op (in_op i') = true /\ refines (den sym_addr fpu env i') (env (in_result i));
  kp_other : value_op (in_op i) = false ->
             in_op i' = in_op i /\ in_subop i' = in_subop i /\ in_flags i' = in_flags i /\ in_aux i' = in_aux i /\
             Forall2 or' (in_ops i) (in_ops i');
  kp_call : in_op i = IR_CALL -> Forall2 slot_kept (in_ops i) (in_ops i');
}.

(** An instruction added by the pass. *)
Record added (p : IrInst) : Prop := {
  ad_well : well narrow ret variadic vals p;
  ad_result : nold < in_result p;
  ad_value : value_op (in_op p) = true;
  ad_edges : in_edges p = [];
  ad_den : refines (den sym_addr fpu env p) (env (in_result p));
}.

(** What stands for [i] in the result: nothing, when its value was replaced, or
    added instructions and the one that takes its place. *)
Inductive emitted (repl : Replacements) (i : IrInst) : list IrInst -> Prop :=
| em_removed : value_op (in_op i) = true -> is_Some (repl !! in_result i) -> emitted repl i []
| em_kept pre i' : Forall added pre -> kept i i' -> emitted repl i (pre ++ [i']).
End at_env.

(** All of this survives a growing value table. *)
Section grow.
  Context (vals tail : list IrValInfo) (env env' : Env)
    (A : forall id, 1 <= id <= Z.of_nat (length vals) -> env' id = env id).

Lemma op_refines_grow a a' : fits narrow vals a -> op_refines narrow vals sym_addr env a a' ->
  op_refines narrow (vals ++ tail) sym_addr env' a a'.
Proof using A.
  intros F [F' T R]. split; [by apply fits_app|done|].
  by rewrite !(reads_agree sym_addr narrow vals env env') by done.
Qed.
Lemma ops_refine_grow ops ops' : Forall (fits narrow vals) ops -> Forall2 (op_refines narrow vals sym_addr env) ops ops' ->
  Forall2 (op_refines narrow (vals ++ tail) sym_addr env') ops ops'.
Proof using A.
  intros F H. induction H as [|x y a b Hx H IH]; [constructor|]. inversion F; subst. constructor; [by apply op_refines_grow|by apply IH].
Qed.

Lemma kept_grow i i' : well narrow ret variadic vals i -> Forall (fun e => Forall (fits narrow vals) (e_args e)) (in_edges i) ->
  kept vals env i i' -> kept (vals ++ tail) env' i i'.
Proof using A.
  intros W Fe [Kw Kr Kt Ke Kv Ko Kc]. split; [by apply well_app|done|done| | | |done].
  - revert Fe. induction Ke as [|e e' l l' (T & C & H) Ke IH]; intros Fe; [constructor|]. inversion Fe; subst. constructor; [|by apply IH].
    split; [done|]. split; [done|]. by apply ops_refine_grow.
  - intros V. destruct (Kv V) as [V' R]. split; [done|]. intros r Hr.
    apply (den_agree sym_addr fpu narrow ret variadic vals env) in Hr; [|done|done].
    rewrite A; [by apply R|]. by apply (w_vtype _ _ _ _ _ W), (w_result _ _ _ _ _ W).
  - intros V. destruct (Ko V) as (? & ? & ? & ? & H). repeat (split; [done|]). apply ops_refine_grow; [apply (w_ops _ _ _ _ _ W)|done].
Qed.

Lemma added_grow p : added vals env p -> added (vals ++ tail) env' p.
Proof using A.
  intros [W R V E D]. split; [by apply well_app|done|done|done|]. intros r Hr.
  apply (den_agree sym_addr fpu narrow ret variadic vals env) in Hr; [|done|done].
  rewrite A; [by apply D|]. by apply (w_vtype _ _ _ _ _ W), (w_result _ _ _ _ _ W).
Qed.

Lemma emitted_grow repl repl' i out : well narrow ret variadic vals i ->
  Forall (fun e => Forall (fits narrow vals) (e_args e)) (in_edges i) ->
  (forall id, is_Some (repl !! id) -> is_Some (repl' !! id)) ->
  emitted vals env repl i out -> emitted (vals ++ tail) env' repl' i out.
Proof using A.
  intros W Fe Hr [V S|pre i' P K]; [by constructor; [|apply Hr]|]. constructor; [|by apply kept_grow].
  exact (List.Forall_impl _ added_grow P).
Qed.
End grow.
End emitted.

(** ** The walk *)

(** A function whose instructions are well typed, over its own values. *)
Record func_ok (narrow : Prop) (f : IrFunc) : Prop := {
  fo_ids : ids_ok f;
  fo_insts : forall i, i ∈ insts f -> well narrow (f_ret f) (f_variadic f) (f_vals f) i;
  fo_edges : forall e, e ∈ edges f -> Forall (fits narrow (f_vals f)) (e_args e);
}.

(** An environment that gives every value operation of the function its
    meaning. *)
Record meaning (sym_addr : Z -> Z) (fpu : FpTarget) (f : IrFunc) (mu : gset Z) (env : Env) : Prop := {
  mn_env : env_ok (f_vals f) mu env;
  mn_def : forall i, i ∈ insts f -> value_op (in_op i) = true ->
           forall r, env (in_result i) r <-> den sym_addr fpu env i r;
}.

(** Only value operations have a meaning here. *)
Lemma den_value_op sym_addr fpu env i r : den sym_addr fpu env i r -> value_op (in_op i) = true.
Proof.
  intros (vs & _ & R). revert R. unfold result_of.
  destruct vs as [|x [|y [|z [|? ?]]]]; try done; destruct (in_op i); try done; cbn [is_int_binop andb fp_binop];
    by repeat (match goal with |- (match ?m with _ => _ end) _ -> _ => destruct m end).
Qed.

Lemma fabs_bound sym_addr fpu env i r : in_op i = IR_FABS -> den sym_addr fpu env i r ->
  r < 2 ^ (type_bits (in_type i) - 1).
Proof.
  intros Op (vs & _ & R). revert R. unfold result_of. rewrite Op. cbn [is_int_binop andb fp_binop].
  destruct vs as [|x [|y [|z [|? ?]]]]; try done; destruct (format_of (in_type i)) as [f|] eqn:Hf; try done;
    try (by destruct (format_of (o_type _))).
  assert (P : 0 < 2 ^ (type_bits (in_type i) - 1)) by (destruct (in_type i); try discriminate Hf; by vm_compute).
  pose proof (Z.mod_pos_bound x _ P). intros <-. lia.
Qed.

(** An operand that is no value resolves to itself. *)
Lemma resolve_const nold repl op u : o_kind op <> IROP_VALUE -> resolve_operand repl nold op = Some u -> u = op.
Proof.
  intros K. unfold resolve_operand.
  assert (E : replacement_of repl nold op = None) by (unfold replacement_of, is_kind; by rewrite bool_decide_eq_false_2).
  destruct (Z.to_nat nold); cbn [resolve_steps]; rewrite E; by intros [= <-].
Qed.

Section walk.
  Context (sym_addr : Z -> Z) (fpu : FpTarget) (narrow : Prop) (f : IrFunc) (mu : gset Z)
    (env0 : Env) (cfg : option OptConfig).
  Context (FO : func_ok narrow f) (MN : meaning sym_addr fpu f mu env0)
    (Hmu : forall id, id ∈ mu -> 1 <= id <= f_nvals f)
    (Strict : (match cfg with Some c => no_nans (fast_math c) | None => false end) = false).
  #[local] Notation "'nold'" := (f_nvals f).
  #[local] Notation "'well''" := (well narrow (f_ret f) (f_variadic f)).

Record walking (s : Pass) (env : Env) : Prop := {
  wk_tables : tables sym_addr fpu narrow (f_ret f) (f_variadic f) (p_vals s) nold mu env (p_defs s) (p_repl s);
  wk_vals : exists tail, p_vals s = f_vals f ++ tail;
  wk_env : forall id, 1 <= id <= nold -> env id = env0 id;
}.
Record grows_to (s : Pass) (env : Env) (s' : Pass) (env' : Env) : Prop := {
  gr_vals : exists tail, p_vals s' = p_vals s ++ tail;
  gr_env : forall id, 1 <= id <= Z.of_nat (length (p_vals s)) -> env' id = env id;
  gr_repl : forall id, is_Some (p_repl s !! id) -> is_Some (p_repl s' !! id);
}.

Lemma grows_to_refl s env : grows_to s env s env.
Proof. split; [exists []; by rewrite app_nil_r|done|done]. Qed.
Lemma grows_to_trans s env s1 env1 s2 env2 : grows_to s env s1 env1 -> grows_to s1 env1 s2 env2 -> grows_to s env s2 env2.
Proof.
  intros [[t1 E1] A1 R1] [[t2 E2] A2 R2]. split.
  - exists (t1 ++ t2). by rewrite E2, E1, app_assoc.
  - intros id I. rewrite A2; [by apply A1|]. rewrite E1, length_app. lia.
  - auto.
Qed.

Lemma orig_well s env i : walking s env -> i ∈ insts f -> well' (p_vals s) i.
Proof using FO. intros [_ [tail ->] _] Hi. by apply well_app, (fo_insts _ _ FO). Qed.
Lemma orig_edges s env i : walking s env -> i ∈ insts f ->
  Forall (fun e => Forall (fits narrow (p_vals s)) (e_args e)) (in_edges i).
Proof using FO.
  intros [_ [tail ->] _] Hi. apply Forall_forall. intros e He%list_elem_of_In.
  refine (List.Forall_impl _ _ (fo_edges _ _ FO e _)); [intros a; apply fits_app|by apply (elem_edges f i)].
Qed.
Lemma nold_vals s env : walking s env -> nold <= Z.of_nat (length (p_vals s)).
Proof. intros [_ [tail ->] _]. rewrite length_app. unfold f_nvals. lia. Qed.

(** The instructions of the function keep their meaning along the walk. *)
Lemma orig_den s env i : walking s env -> i ∈ insts f -> value_op (in_op i) = true ->
  forall r, env (in_result i) r <-> den sym_addr fpu env i r.
Proof using FO MN.
  intros W Hi V r. pose proof (fo_insts _ _ FO i Hi) as Wi.
  destruct (w_vtype _ _ _ _ _ Wi (w_result _ _ _ _ _ Wi V)) as [I _].
  rewrite (wk_env _ _ W) by (unfold f_nvals; lia). rewrite (mn_def _ _ _ _ _ MN i Hi V).
  symmetry. apply (den_agree sym_addr fpu narrow (f_ret f) (f_variadic f) (f_vals f)); [done|].
  intros id Hid. apply (wk_env _ _ W). done.
Qed.

Lemma resolve_ops_ok s env i ops : walking s env -> well' (p_vals s) i -> resolve_ops nold (p_repl s) i = Some ops ->
  Forall2 (op_refines narrow (p_vals s) sym_addr env) (in_ops i) ops /\
  (in_op i = IR_CALL -> Forall2 slot_kept (in_ops i) ops).
Proof.
  intros W Wi E. unfold resolve_ops in E. apply mapM_Some in E. pose proof (w_ops _ _ _ _ _ Wi) as F. split.
  - induction E as [|op v ops' vs' Hv E IH]; [constructor|]. inversion F as [|? ? Fop Fops]; subst. constructor; [|by apply IH].
    unfold resolve_inst_operand in Hv. destruct (resolve_operand (p_repl s) nold op) as [u|] eqn:Eu; [|done]. injection Hv as <-.
    destruct (resolve_ok _ _ _ _ _ _ _ _ _ _ _ (wk_tables _ _ W) op u Fop Eu) as (Fu & Tu & Ru).
    destruct (opc_eqb _ _); [by apply carry_refines|done].
  - intros C. rewrite C in E. clear F Wi. induction E as [|op v ops' vs' Hv E IH]; [constructor|]. constructor; [|done].
    unfold resolve_inst_operand in Hv. destruct (resolve_operand _ _ op) as [u|] eqn:Eu; [|done]. injection Hv as <-.
    split; [done|]. cbn [ir_arg_carry_provenance o_b o_kind]. unfold is_kind.
    split; [intros K; by rewrite bool_decide_eq_false_2|]. intros K. 
    rewrite (resolve_const nold (p_repl s) op u); [done|by rewrite K|done].
Qed.

Lemma edges_refl vals env es : Forall (fun e => Forall (fits narrow vals) (e_args e)) es ->
  Forall2 (edge_refines sym_addr narrow vals env) es es.
Proof.
  intros F. induction F as [|e es Fe F IH]; constructor; [|done]. split; [done|]. split; [done|]. by apply ops_refine_refl.
Qed.

Lemma walk_inst_ok block_id s env i out s' : walking s env -> i ∈ insts f ->
  walk_inst nold mu cfg block_id s i = Some (out, s') ->
  exists env', walking s' env' /\ grows_to s env s' env' /\
    emitted sym_addr fpu narrow (f_ret f) (f_variadic f) nold (p_vals s') env' (p_repl s') i out /\
    (forall id, Z.of_nat (length (p_vals s)) < id <= Z.of_nat (length (p_vals s')) -> id ∈ map in_result out).
Proof using FO MN Hmu Strict.
  intros W Hi. unfold walk_inst. destruct (resolve_ops nold (p_repl s) i) as [ops|] eqn:Er; [|done].
  pose proof (orig_well s env i W Hi) as Wi. pose proof (orig_edges s env i W Hi) as We. pose proof (nold_vals s env W) as Ln.
  destruct (resolve_ops_ok s env i ops W Wi Er) as [Ro Rc].
  set (i1 := set_ops i ops). pose proof (set_ops_well _ _ _ _ _ _ i ops Ro Wi) as W1. fold i1 in W1.
  pose proof (set_ops_den _ _ _ fpu _ i ops Ro) as D1. fold i1 in D1.
  assert (Rd : value_op (in_op i) = true -> refines (den sym_addr fpu env i1) (env (in_result i))).
  { intros V r Hr. apply (orig_den s env i W Hi V). by apply D1. }
  assert (Rd' : refines (den sym_addr fpu env i1) (env (in_result i1))).
  { destruct (value_op (in_op i)) eqn:V; [by apply Rd|]. intros r Hr. apply D1 in Hr. by rewrite (den_value_op _ _ _ _ _ Hr) in V. }
  assert (Ab : in_op i1 = IR_FABS -> forall r, env (in_result i1) r -> r < 2 ^ (type_bits (in_type i1) - 1)).
  { intros Ab r Hr. apply (orig_den s env i W Hi) in Hr; [|change (in_op i1) with (in_op i) in Ab; by rewrite Ab].
    by apply (fabs_bound sym_addr fpu env i). }
  assert (T1 : tables sym_addr fpu narrow (f_ret f) (f_variadic f) (p_vals s) nold mu env (set_def nold (p_defs s) i1) (p_repl s)).
  { by apply tables_set_def; [apply (wk_tables _ _ W)| | |]. }
  destruct (simplify_one _ _ _ _ _ _ _ i1) as [st|] eqn:Es; [|done].
  pose proof (simplify_one_ok _ _ _ _ _ _ _ _ _ _ _ block_id cfg T1 i1 st W1 Strict Es) as S.
  destruct st as [|v|vals' pre i']; intros [= <- <-].
  - (* kept *)
    exists env. split; [by split; [|apply (wk_vals _ _ W)|apply (wk_env _ _ W)]|]. split; [split; [exists []; by rewrite app_nil_r|done|done]|]. cbn [p_vals p_repl].
    split; [|intros id; lia]. apply (em_kept _ _ _ _ _ _ _ _ _ i [] i1); [constructor|].
    split; [done|done|done|by apply edges_refl| | |done].
    + intros V. split; [done|by apply Rd].
    + intros V. done.
  - (* removed *)
    destruct S as (V & Fv & Tv & Rv). exists env. cbn [p_vals p_repl p_defs].
    destruct (w_vtype _ _ _ _ _ Wi (w_result _ _ _ _ _ Wi V)) as [I Ty].
    split; [split; [|apply (wk_vals _ _ W)|apply (wk_env _ _ W)]|split; [split; [exists []; by rewrite app_nil_r|done|]|split; [|intros id; lia]]]; cbn [p_vals p_repl p_defs].
    + apply tables_replace; [done|done| |]; [by rewrite Ty|]. transitivity (den sym_addr fpu env i1); [done|]. by apply Rd.
    + intros id L. apply lookup_insert_is_Some'. by right.
    + apply em_removed; [done|]. apply lookup_insert_is_Some'. by left.
  - (* changed *)
    destruct S as (V & tail & env' & -> & A & E' & P & Al & W' & (Sr & St & Se & Sv & Sa) & R).
    change (value_op (in_op i) = true) in V. exists env'. cbn [p_vals p_repl p_defs]. destruct (w_vtype _ _ _ _ _ Wi (w_result _ _ _ _ _ Wi V)) as [I Ty].
    assert (Rr : refines (den sym_addr fpu env' i') (env' (in_result i))).
    { rewrite A by done. transitivity (den sym_addr fpu env i1); [done|by apply Rd]. }
    split; [split; cbn [p_vals p_repl p_defs]|split; [split; [by exists tail|done|done]|split]].
    + apply tables_set_def; [by apply (tables_grow _ _ _ _ _ _ _ (p_vals s) tail env)|done|by rewrite Sr|].
      rewrite Sr, St. change (in_result i1) with (in_result i). rewrite A by done. intros Ai. by apply Ab, Sa.
    + destruct (wk_vals _ _ W) as [t0 ->]. exists (t0 ++ tail). by rewrite app_assoc.
    + intros id Hid. rewrite A by lia. by apply (wk_env _ _ W).
    + apply em_kept.
      * refine (List.Forall_impl _ _ P). intros p (Wp & Lp & Vp & _ & Ep & Dp). split; [done|lia|done|done|done].
      * split; [done|done|done| |done|by rewrite V|by intros C; rewrite C in V].
        rewrite Se. cbn [in_edges i1 set_ops]. apply edges_refl. refine (List.Forall_impl _ _ We).
        intros e He. refine (List.Forall_impl _ _ He). intros a. apply fits_app.
    + intros id Hid. rewrite map_app. apply elem_of_app. left. by apply Al.
Qed.

#[local] Notation "'emitted''" := (emitted sym_addr fpu narrow (f_ret f) (f_variadic f) nold).

Lemma emitted_later s env s' env' i out : walking s env -> i ∈ insts f -> grows_to s env s' env' ->
  emitted' (p_vals s) env (p_repl s) i out -> emitted' (p_vals s') env' (p_repl s') i out.
Proof using FO.
  intros W Hi [[tail ->] A R] E. apply (emitted_grow _ _ _ _ _ _ _ tail env env' A (p_repl s)); [| |done|done].
  - by apply (orig_well s env).
  - by apply (orig_edges s env).
Qed.

(** New values are defined by what was emitted. *)
Definition covers (s s' : Pass) (out : list IrInst) : Prop :=
  forall id, Z.of_nat (length (p_vals s)) < id <= Z.of_nat (length (p_vals s')) -> id ∈ map in_result out.
Lemma covers_app s s1 s2 out out' : covers s s1 out -> covers s1 s2 out' -> covers s s2 (out ++ out').
Proof.
  intros C C' id I. rewrite map_app. apply elem_of_app.
  destruct (Z.leb_spec id (Z.of_nat (length (p_vals s1)))); [left; apply C; lia|right; apply C'; lia].
Qed.

Lemma walk_insts_ok block_id ins : (forall i, i ∈ ins -> i ∈ insts f) -> forall s env out s', walking s env ->
  walk_insts nold mu cfg block_id s ins = Some (out, s') ->
  exists env' outs, walking s' env' /\ grows_to s env s' env' /\ out = concat outs /\
    Forall2 (emitted' (p_vals s') env' (p_repl s')) ins outs /\ covers s s' out.
Proof using FO MN Hmu Strict.
  induction ins as [|i ins IH]; intros Hin s env out s' W; cbn [walk_insts].
  - intros [= <- <-]. exists env, []. split; [done|]. split; [apply grows_to_refl|]. split; [done|]. split; [constructor|intros id; lia].
  - destruct (walk_inst nold mu cfg block_id s i) as [[out1 s1]|] eqn:E1; [|done].
    destruct (walk_insts nold mu cfg block_id s1 ins) as [[rest s2]|] eqn:E2; [|done]. intros [= <- <-].
    assert (Hi : i ∈ insts f) by (apply Hin; left).
    destruct (walk_inst_ok block_id s env i out1 s1 W Hi E1) as (env1 & W1 & G1 & Em & C1).
    destruct (IH ltac:(intros; apply Hin; by right) s1 env1 rest s2 W1 E2) as (env2 & outs & W2 & G2 & -> & F & C2).
    exists env2, (out1 :: outs). split; [done|]. split; [by apply (grows_to_trans s env s1 env1)|]. split; [done|].
    split; [constructor; [by apply (emitted_later s1 env1)|done]|by apply (covers_app s s1)].
Qed.

(** A block and the block that takes its place. *)
Definition block_refines (vals : list IrValInfo) (env : Env) (repl : Replacements) (b b' : IrBlock) : Prop :=
  b_params b' = b_params b /\
  exists outs, b_insts b' = concat outs /\ Forall2 (emitted' vals env repl) (b_insts b) outs.

Lemma walk_blocks_ok bs : (forall b, b ∈ bs -> b ∈ f_blocks f) -> forall block_id s env out s', walking s env ->
  walk_blocks nold mu cfg block_id s bs = Some (out, s') ->
  exists env', walking s' env' /\ grows_to s env s' env' /\
    Forall2 (block_refines (p_vals s') env' (p_repl s')) bs out /\ covers s s' (concat (map b_insts out)).
Proof using FO MN Hmu Strict.
  induction bs as [|b bs IH]; intros Hin block_id s env out s' W; cbn [walk_blocks].
  - intros [= <- <-]. exists env. split; [done|]. split; [apply grows_to_refl|]. split; [constructor|intros id; lia].
  - destruct (walk_insts nold mu cfg block_id s (b_insts b)) as [[ins s1]|] eqn:E1; [|done].
    destruct (walk_blocks nold mu cfg (block_id + 1) s1 bs) as [[rest s2]|] eqn:E2; [|done]. intros [= <- <-].
    assert (Hb : b ∈ f_blocks f) by (apply Hin; left).
    assert (Hi : forall i, i ∈ b_insts b -> i ∈ insts f) by (intros i; by apply elem_insts).
    destruct (walk_insts_ok block_id (b_insts b) Hi s env ins s1 W E1) as (env1 & outs & W1 & G1 & -> & F1 & C1).
    destruct (IH ltac:(intros; apply Hin; by right) _ s1 env1 rest s2 W1 E2) as (env2 & W2 & G2 & F2 & C2).
    exists env2. split; [done|]. split; [by apply (grows_to_trans s env s1 env1)|]. split; [|by apply (covers_app s s1)].
    constructor; [|done]. split; [done|]. exists outs. split; [done|].
    assert (Later : forall i o, i ∈ b_insts b -> emitted' (p_vals s1) env1 (p_repl s1) i o -> emitted' (p_vals s2) env2 (p_repl s2) i o).
    { intros i o Hib. apply (emitted_later s1 env1); [done|by apply Hi|done]. }
    clear -F1 Later. induction F1 as [|i o ins outs Hio F IH]; constructor; [apply Later; [by left|done]|].
    apply IH. intros j p Hj. apply Later. by right.
Qed.

(** ** The second walk *)
Lemma resolve_edge_ok s env e e' : walking s env -> Forall (fits narrow (p_vals s)) (e_args e) ->
  resolve_edge nold (p_repl s) e = Some e' -> edge_refines sym_addr narrow (p_vals s) env e e'.
Proof.
  intros W F. unfold resolve_edge. destruct (mapM _ (e_args e)) as [args|] eqn:E; [|done]. intros [= <-].
  split; [done|]. split; [done|]. cbn [set_edge_args e_args]. apply mapM_Some in E.
  induction E as [|a v l l' Hv E IH]; [constructor|]. inversion F as [|? ? Fa Fl]; subst. constructor; [|by apply IH].
  destruct (resolve_ok _ _ _ _ _ _ _ _ _ _ _ (wk_tables _ _ W) a v Fa Hv) as (? & ? & ?). done.
Qed.

Lemma edge_refines_trans vals env e1 e2 e3 : edge_refines sym_addr narrow vals env e1 e2 ->
  edge_refines sym_addr narrow vals env e2 e3 -> edge_refines sym_addr narrow vals env e1 e3.
Proof.
  intros (T & C & A) (T' & C' & A'). split; [congruence|]. split; [congruence|]. by apply (ops_refine_trans _ _ _ _ _ (e_args e2)).
Qed.

Lemma resolve_inst_parts s env i i' : walking s env -> well' (p_vals s) i -> resolve_inst nold (p_repl s) i = Some i' ->
  exists ops es, i' = set_edges (set_ops i ops) es /\ Forall2 (op_refines narrow (p_vals s) sym_addr env) (in_ops i) ops /\
    (in_op i = IR_CALL -> Forall2 slot_kept (in_ops i) ops) /\
    Forall2 (fun e e' => resolve_edge nold (p_repl s) e = Some e') (in_edges i) es.
Proof.
  intros W Wi. unfold resolve_inst. destruct (resolve_ops nold (p_repl s) i) as [ops|] eqn:Eo; [|done].
  destruct (mapM _ (in_edges i)) as [es|] eqn:Ee; [|done]. intros [= <-]. exists ops, es.
  destruct (resolve_ops_ok s env i ops W Wi Eo) as [H H']. split; [done|]. split; [done|]. split; [done|]. by apply mapM_Some.
Qed.

Lemma set_edges_well vals i es : well' vals i -> well' vals (set_edges i es).
Proof. intros [O T N R V]. by split. Qed.

Lemma kept_resolve s env i i' i'' : walking s env -> kept sym_addr fpu narrow (f_ret f) (f_variadic f) (p_vals s) env i i' ->
  resolve_inst nold (p_repl s) i' = Some i'' -> kept sym_addr fpu narrow (f_ret f) (f_variadic f) (p_vals s) env i i''.
Proof.
  intros W [Kw Kr Kt Ke Kv Ko Kc] E. destruct (resolve_inst_parts s env i' i'' W Kw E) as (ops & es & -> & Ro & Rc & Re).
  pose proof (set_ops_well _ _ _ _ _ _ i' ops Ro Kw) as W1. pose proof (set_ops_den _ _ _ fpu _ i' ops Ro) as D1.
  split; [by apply set_edges_well|done|done| | | |].
  - cbn [in_edges set_edges]. clear -Ke Re W. revert es Re. induction Ke as [|e e' l l' H Ke IH]; intros es Re;
      inversion Re as [|? e'' ? es' He Res]; subst; constructor; [|by apply IH].
    apply (edge_refines_trans _ _ e e'); [done|]. apply resolve_edge_ok; [done| |done].
    destruct H as (_ & _ & H). by apply (ops_refine_fits _ _ sym_addr env (e_args e)).
  - intros V. destruct (Kv V) as [V' R]. split; [done|]. transitivity (den sym_addr fpu env i'); [exact D1|done].
  - intros V. destruct (Ko V) as (? & ? & ? & ? & H). repeat (split; [done|]). by apply (ops_refine_trans _ _ _ _ _ (in_ops i')).
  - intros C. assert (C' : in_op i' = IR_CALL) by (destruct (Ko ltac:(by rewrite C)) as (-> & _); done).
    specialize (Kc C). specialize (Rc C'). cbn [in_ops set_edges set_ops]. clear -Kc Rc. revert ops Rc.
    induction Kc as [|a b l l' (Ha & Hb & Hk) Kc IH]; intros ops Rc;
      inversion Rc as [|? c ? ? (Hc & Hd & Hk') Rcs]; subst; constructor; [|by apply IH].
    split; [congruence|]. split; [|by auto]. intros K. rewrite Hd by done. apply Hb. auto.
Qed.

Lemma added_resolve s env p p' : walking s env ->
  added sym_addr fpu narrow (f_ret f) (f_variadic f) nold (p_vals s) env p -> resolve_inst nold (p_repl s) p = Some p' ->
  added sym_addr fpu narrow (f_ret f) (f_variadic f) nold (p_vals s) env p'.
Proof.
  intros W [Aw Ar Av Ae Ad] E. destruct (resolve_inst_parts s env p p' W Aw E) as (ops & es & -> & Ro & _ & Re).
  split; [by apply set_edges_well; apply (set_ops_well _ _ _ _ sym_addr env)|done|done| |].
  - rewrite Ae in Re. by inversion Re.
  - transitivity (den sym_addr fpu env p); [|done]. exact (set_ops_den _ _ _ fpu _ p ops Ro).
Qed.

Lemma emitted_resolve s env i out out' : walking s env -> emitted' (p_vals s) env (p_repl s) i out ->
  Forall2 (fun j j' => resolve_inst nold (p_repl s) j = Some j') out out' -> emitted' (p_vals s) env (p_repl s) i out'.
Proof.
  intros W [V R|pre i' P K] H; [inversion H; by constructor|].
  apply Forall2_app_inv_l in H as (pre' & l & Hp & Hl & ->). inversion Hl as [|? i'' ? ? Hi Hn]; subst. inversion Hn; subst.
  constructor; [|by apply (kept_resolve s env i i')].
  clear -P Hp W. induction Hp as [|p p' l l' Hp H IH]; [constructor|]. inversion P; subst. constructor; [by apply (added_resolve s env p)|by apply IH].
Qed.

Lemma block_resolve s env b b' b'' : walking s env -> block_refines (p_vals s) env (p_repl s) b b' ->
  resolve_block nold (p_repl s) b' = Some b'' -> block_refines (p_vals s) env (p_repl s) b b''.
Proof.
  intros W (Ep & outs & Eo & F). unfold resolve_block. destruct (mapM _ (b_insts b')) as [ins|] eqn:E; [|done]. intros [= <-].
  split; [done|]. cbn [b_insts]. apply mapM_Some in E. rewrite Eo in E. clear Eo. revert ins E.
  induction F as [|i out l outs Hi F IH]; intros ins E; cbn [concat] in E.
  - inversion E; subst. exists []. by split; [|constructor].
  - apply Forall2_app_inv_l in E as (out' & rest & H1 & H2 & ->). destruct (IH rest H2) as (outs' & -> & F').
    exists (out' :: outs'). split; [done|]. constructor; [by apply (emitted_resolve s env i out)|done].
Qed.

(** ** Where the walk starts *)
Lemma build_defs_spec id d : build_defs f nold !! id = Some d -> d ∈ insts f /\ in_result d = id /\ id <> 0.
Proof.
  unfold build_defs.
  assert (One : forall ins (m : Defs), (forall i, i ∈ ins -> i ∈ insts f) ->
    (forall id d, m !! id = Some d -> d ∈ insts f /\ in_result d = id /\ id <> 0) ->
    forall id d, foldl (set_def nold) m ins !! id = Some d -> d ∈ insts f /\ in_result d = id /\ id <> 0).
  { intros ins. induction ins as [|i ins IH]; intros m Hin H; [done|]. cbn [foldl]. apply IH; [intros; apply Hin; by right|].
    intros k e. unfold set_def. destruct (negb (in_result i =? 0) && _) eqn:C; [|apply H]. apply andb_true_iff in C as [C _].
    apply negb_true_iff, Z.eqb_neq in C. intros L. apply lookup_insert_Some in L as [[<- <-]|[_ L]]; [|by apply H].
    split; [apply Hin; left|done]. }
  assert (All : forall bs (m : Defs), (forall b, b ∈ bs -> b ∈ f_blocks f) ->
    (forall id d, m !! id = Some d -> d ∈ insts f /\ in_result d = id /\ id <> 0) ->
    forall id d, foldl (fun d b => foldl (set_def nold) d (b_insts b)) m bs !! id = Some d ->
    d ∈ insts f /\ in_result d = id /\ id <> 0).
  { intros bs. induction bs as [|b bs IH]; intros m Hin H; [done|]. cbn [foldl]. apply IH; [intros; apply Hin; by right|].
    apply One; [|done]. intros i. apply elem_insts. apply Hin. left. }
  apply All; [done|]. intros k e L. by destruct (lookup_empty_Some (M:=gmap Z) k e L).
Qed.

Lemma walking_start : walking (mkPass (f_vals f) (build_defs f nold) ∅ false) env0.
Proof using FO MN Hmu.
  split; cbn [p_vals p_defs p_repl]; [|exists []; by rewrite app_nil_r|done].
  split; [apply MN| | |done|unfold f_nvals; lia].
  - intros id d L. destruct (build_defs_spec id d L) as (Hd & <- & Nz). split; [done|]. split; [done|].
    split; [by apply (fo_insts _ _ FO)|]. split.
    + intros r Hr. by apply (mn_def _ _ _ _ _ MN d Hd (den_value_op _ _ _ _ _ Hr)).
    + intros Ab r Hr. apply (mn_def _ _ _ _ _ MN d Hd) in Hr; [|by rewrite Ab]. by apply (fabs_bound sym_addr fpu env0).
  - intros id v L. by destruct (lookup_empty_Some (M:=gmap Z) id v L).
Qed.
End walk.
