(* ===== verification/SimplifyTotal.v ===== *)
(** The simplifier never stops the compiler: on a function whose value
    operations form no cycle, every chain of replacements is shorter than the
    bound [resolve_operand] counts to.

    The order is a rank on values that every value operation respects; the
    dominance the verifier checks gives one (operands are defined above their
    use, and a block parameter has no operands). *)
From stdpp Require Import gmap.
From S2P Require Import Prelude.
From S2P Require Import Softfp.
From S2P Require Import Ir.
From S2P Require Import Fold.
From S2P Require Import FoldCorrect.
From S2P Require Import Simplify.
From S2P Require Import IrValues.
From S2P Require Import SimplifyUndef.
From S2P Require Import SimplifySound.
#[local] Open Scope Z_scope.

Section total.
  Context (nold : Z) (rank : Z -> Z).

(** A value below a rank; new values and constants are below every rank. *)
Definition below (k : Z) (op : IrOperand) : Prop :=
  o_kind op = IROP_VALUE -> 1 <= o_a op <= nold -> rank (o_a op) < k.

Definition repl_below (repl : Replacements) : Prop := forall id v, repl !! id = Some v -> below (rank id) v.
Definition defs_below (defs : Defs) : Prop := forall id d, defs !! id = Some d ->
  value_op (in_op d) = true -> Forall (below (rank id)) (in_ops d).

Lemma below_const k op : o_kind op <> IROP_VALUE -> below k op.
Proof. by intros N V. Qed.
Lemma op_at_below k i n : Forall (below k) (in_ops i) -> below k (op_at i n).
Proof.
  intros F. unfold op_at. destruct (in_ops i !! n) as [op|] eqn:E; [|by apply below_const].
  exact (proj1 (Forall_lookup _ _) F _ _ E).
Qed.

Section resolve.
  Context (repl : Replacements) (RB : repl_below repl).

Lemma replacement_below op v : replacement_of repl nold op = Some v ->
  (o_kind op = IROP_VALUE /\ 1 <= o_a op <= nold) /\ below (rank (o_a op)) v.
Proof using RB.
  unfold replacement_of. destruct (is_kind _ _ && _ && _) eqn:C; [|done]. bool_cases.
  rename select (is_kind _ _ = true) into K. apply bool_decide_eq_true in K.
  destruct (repl !! o_a op) as [w|] eqn:L; [|done]. destruct (is_kind (o_kind w) IROP_NONE); [done|]. intros [= <-].
  split; [|by apply RB]. split; [done|lia].
Qed.

Lemma resolve_below k op v : resolve_operand repl nold op = Some v -> below k op -> below k v.
Proof using RB.
  unfold resolve_operand. generalize (Z.to_nat nold) as fuel. intros fuel. revert op.
  induction fuel as [|fuel IH]; intros op; cbn [resolve_steps];
    destruct (replacement_of repl nold op) as [w|] eqn:E; try (by intros [= <-]); try done.
  intros R B. apply (IH w R). destruct (replacement_below op w E) as [[K I] Bw]. intros Kw Iw.
  specialize (B K I). specialize (Bw Kw Iw). lia.
Qed.

(** The values a chain from [a] can still visit. *)
Definition reach (a : Z) : nat :=
  length (List.filter (fun j => rank (Z.of_nat j) <=? rank a) (List.seq 1 (Z.to_nat nold))).

Lemma reach_le a : (reach a <= Z.to_nat nold)%nat.
Proof. unfold reach. etransitivity; [apply List.filter_length_le|]. by rewrite List.length_seq. Qed.

Lemma filter_strict {A} (p q : A -> bool) l x : (forall y, p y = true -> q y = true) -> List.In x l -> p x = false ->
  q x = true -> (length (List.filter p l) < length (List.filter q l))%nat.
Proof.
  intros H. induction l as [|y l IH]; intros Hin Hp Hq; [done|]. cbn [List.filter].
  assert (Le : (length (List.filter p l) <= length (List.filter q l))%nat).
  { clear -H. induction l as [|z l IH]; [done|]. cbn [List.filter]. destruct (p z) eqn:P; [rewrite (H z P); cbn; lia|].
    destruct (q z); cbn; lia. }
  destruct Hin as [->|Hin].
  - rewrite Hp, Hq. cbn. lia.
  - specialize (IH Hin Hp Hq). destruct (p y) eqn:P; [rewrite (H y P); cbn; lia|]. destruct (q y); cbn; lia.
Qed.

Lemma reach_lt a b : 1 <= a <= nold -> rank b < rank a -> (reach b < reach a)%nat.
Proof.
  intros I L. unfold reach. apply (filter_strict _ _ _ (Z.to_nat a)).
  - intros j Hj. apply Z.leb_le in Hj. apply Z.leb_le. lia.
  - apply List.in_seq. lia.
  - rewrite Z2Nat.id by lia. apply Z.leb_gt. lia.
  - rewrite Z2Nat.id by lia. by apply Z.leb_le.
Qed.
Lemma reach_pos a : 1 <= a <= nold -> (0 < reach a)%nat.
Proof.
  intros I. unfold reach. destruct (List.filter _ _) eqn:E; [|cbn; lia]. exfalso.
  assert (X : List.In (Z.to_nat a) (List.filter (fun j => rank (Z.of_nat j) <=? rank a) (List.seq 1 (Z.to_nat nold)))).
  { apply List.filter_In. split; [apply List.in_seq; lia|]. rewrite Z2Nat.id by lia. by apply Z.leb_le. }
  by rewrite E in X.
Qed.

Lemma resolve_steps_total fuel op : (forall v, replacement_of repl nold op = Some v -> (reach (o_a op) <= fuel)%nat) ->
  exists v, resolve_steps fuel repl nold op = Some v /\ replacement_of repl nold v = None.
Proof using RB.
  revert op. induction fuel as [|fuel IH]; intros op H; cbn [resolve_steps];
    destruct (replacement_of repl nold op) as [w|] eqn:E; try (by exists op).
  - destruct (replacement_below op w E) as [[_ I] _]. pose proof (reach_pos (o_a op) I). specialize (H w eq_refl). lia.
  - destruct (replacement_below op w E) as [[_ I] B]. specialize (H w eq_refl). apply IH. intros u Eu.
    destruct (replacement_below w u Eu) as [[Kw Iw] _]. pose proof (reach_lt (o_a op) (o_a w) I (B Kw Iw)). lia.
Qed.

Lemma resolve_total op : exists v, resolve_operand repl nold op = Some v /\ replacement_of repl nold v = None.
Proof using RB. apply resolve_steps_total. intros v _. apply reach_le. Qed.

Lemma resolve_ops_total i : exists ops, resolve_ops nold repl i = Some ops /\
  Forall (fun op => replacement_of repl nold op = None) ops /\
  (forall k, Forall (below k) (in_ops i) -> Forall (below k) ops).
Proof using RB.
  unfold resolve_ops. set (call := opc_eqb (in_op i) IR_CALL).
  assert (H : exists ops, Forall2 (fun op v => resolve_inst_operand repl nold call op = Some v) (in_ops i) ops /\
    Forall (fun op => replacement_of repl nold op = None) ops /\
    (forall k, Forall (below k) (in_ops i) -> Forall (below k) ops)).
  { induction (in_ops i) as [|op l (ops & E & C & B)]; [exists []; split; [constructor|split; [constructor|intros; constructor]]|].
    destruct (resolve_total op) as (v & Ev & Cv).
    set (v' := if call then ir_arg_carry_provenance v op else v).
    assert (S : o_kind v' = o_kind v /\ o_a v' = o_a v) by (unfold v'; by destruct call).
    exists (v' :: ops). split; [|split].
    - constructor; [|done]. unfold resolve_inst_operand. by rewrite Ev.
    - constructor; [|done]. unfold replacement_of in *. by rewrite (proj1 S), (proj2 S).
    - intros k F. inversion F as [|? ? Fo Fl]; subst. constructor; [|by apply B]. unfold below. rewrite (proj1 S), (proj2 S).
      by apply (resolve_below k op). }
  destruct H as (ops & E & R). exists ops. split; [by apply mapM_Some|done].
Qed.
End resolve.

(** ** The rules *)
Section rules.
  Context (vals : list IrValInfo) (block_id : Z) (defs : Defs) (mu : gset Z) (repl : Replacements) (cfg : option OptConfig).
  Context (RB : repl_below repl) (DB : defs_below defs) (Ln : nold <= Z.of_nat (length vals)).
  Context (i : IrInst) (k : Z) (FB : Forall (below k) (in_ops i)).

(** The outcome only reads values below the instruction's. *)
Definition rule_below (r : Rule) : Prop :=
  match r with
  | Ice => False
  | Fires (Remove v) => below k v
  | Fires (Change vals' pre i') => (exists tail, vals' = vals ++ tail) /\
      in_result i' = in_result i /\ Forall (below k) (in_ops i')
  | _ => True
  end.

Lemma orelse_below r s : rule_below r -> rule_below s -> rule_below (orelse r s).
Proof. by destruct r. Qed.
Lemma rule_of_below b s : rule_below (Fires s) -> rule_below (rule b s).
Proof. by destruct b. Qed.
Lemma change_below i' : in_result i' = in_result i -> Forall (below k) (in_ops i') -> rule_below (Fires (change vals i')).
Proof. intros. split; [exists []; by rewrite app_nil_r|done]. Qed.
Lemma resolving_below op f : below k op -> (forall v, below k v -> rule_below (f v)) -> rule_below (resolving repl nold op f).
Proof using All.
  intros B H. unfold resolving. destruct (resolve_total repl RB op) as (v & E & _). rewrite E. apply H.
  by apply (resolve_below repl RB k op).
Qed.

Lemma op_below n : below k (op_at i n).
Proof using All. by apply op_at_below. Qed.
Lemma iconst_below t v : below k (iconst_bits t v).
Proof. by apply below_const. Qed.

(** The operands of a definition are below what it defines. *)
Lemma inner_below op o n d m : inner_of defs nold op o n = Some d -> value_op o = true -> below k op -> below k (op_at d m).
Proof using All.
  intros E V B. unfold inner_of, def_of in E. destruct (negb _ || _ || _) eqn:C; [done|]. bool_cases.
  rename select (is_kind _ _ = true) into K. apply bool_decide_eq_true in K.
  destruct (defs !! o_a op) as [d'|] eqn:L; [|done]. destruct (opc_eqb _ _ && _) eqn:C; [|done]. injection E as ->. bool_cases.
  rename select (in_op d = o) into Od. specialize (DB _ _ L ltac:(by rewrite Od)).
  pose proof (op_at_below _ d m DB) as Bd. specialize (B K ltac:(lia)). intros Kd Id. specialize (Bd Kd Id). lia.
Qed.

#[local] Hint Resolve op_below iconst_below : core.

Lemma mutated_below o x y : below k x -> below k y -> rule_below (Fires (change vals (mutate_binary i o x y))).
Proof. intros Bx By. apply change_below; [done|]. constructor; [done|]. by constructor. Qed.

Lemma rule_fold_below : rule_below (rule_fold cfg i).
Proof using All.
  unfold rule_fold. destruct (opt_fold_inst i cfg) as [v|] eqn:E; [|done]. cbn.
  destruct (opt_fold_inst_shape i cfg v E) as [_ [(n & _ & [->|(K & _)])|[K|[(K & _)|(t & b & _ & ->)]]]]; try done;
    apply below_const; by rewrite K.
Qed.

Lemma rule_icmp_swap_below : (in_op i = IR_ICMP -> is_Some (icmp_of (in_subop i))) -> rule_below (rule_icmp_swap vals i).
Proof using All.
  intros H. unfold rule_icmp_swap. destruct (_ && _ && _ && _) eqn:C; [|done]. bool_cases.
  destruct (H ltac:(done)) as [p ->]. apply change_below; [done|]. constructor; [done|]. by constructor.
Qed.

Lemma rules_fp_below : rule_below (rules_fp mu nold cfg i).
Proof using All.
  unfold rules_fp. destruct (format_of _); [|done]. destruct (in_nops i =? 2); [|done]. cbv zeta.
  repeat (apply orelse_below || apply rule_of_below); cbn [rule_below]; try (by apply below_const).
  - by destruct (fp_const_is_zero _).
  - by destruct (fp_const_is_one _).
Qed.

Lemma ir_op_value_below vals' id : nold < id -> below k (ir_op_value vals' id).
Proof. intros L _. cbn. lia. Qed.

Lemma signed_recipe_below x w s : below k x -> rule_below (Fires (signed_recipe vals block_id i x w s)).
Proof using All.
  intros Bx. unfold signed_recipe, insert2_before, alloc_inst_value. cbv zeta. cbn [in_result].
  assert (Lt : forall l : list IrValInfo, (length vals <= length l)%nat -> forall v, nold < Z.of_nat (length (l ++ [v]))).
  { intros l Hl v. rewrite length_app. cbn [length]. lia. }
  destruct (opc_eqb (in_op i) IR_SDIV).
  - split; [eexists; by rewrite <- !app_assoc|]. split; [done|]. constructor; [|constructor; [done|constructor]].
    apply ir_op_value_below, Lt. rewrite !length_app. lia.
  - split; [eexists; by rewrite <- !app_assoc|]. split; [done|]. constructor; [done|constructor; [|constructor]].
    apply ir_op_value_below, Lt. rewrite !length_app. lia.
Qed.

Lemma rules_int_below : rule_below (rules_int vals block_id defs mu repl nold i).
Proof using All.
  unfold rules_int. destruct (negb _ && _); [|done]. cbv zeta.
  repeat apply orelse_below.
  - apply rule_of_below. cbn. by destruct (const_is _ _ _ && _).
  - apply rule_of_below. cbn. done.
  - apply rule_of_below. cbn. done.
  - unfold rule_mul_pow2. destruct (opc_eqb _ _); [|done]. cbv zeta. destruct (is_kind _ _ && negb _);
      (destruct (is_kind _ _); [|done]); (destruct (power_of_two _ _) as [s|]; [|done]);
      (destruct (s =? 0); [cbn; done|by apply mutated_below]).
  - unfold rule_neg_neg. destruct (_ && _); [|done]. destruct (inner_of _ _ _ _ _) as [d|] eqn:E; [|done].
    destruct (const_is _ _ _); [|done]. apply resolving_below; [by apply (inner_below _ _ _ _ _ E)|done].
  - unfold rule_xor_xor. destruct (_ && _); [|done]. destruct (inner_of _ _ _ _ _) as [d|] eqn:E; [|done].
    apply resolving_below; [by apply (inner_below _ _ _ _ _ E)|]. intros c Bc. destruct (operand_equal _ _); [|done].
    apply resolving_below; [by apply (inner_below _ _ _ _ _ E)|done].
  - unfold rule_div_pow2. cbv zeta. destruct (_ && _); [|done]. destruct (power_of_two _ _) as [s|]; [|done].
    destruct (_ && operand_may_undef _ _ _); [done|]. destruct (_ && (s =? _)); [done|].
    destruct (s =? 0); [cbn; by destruct (_ || _)|]. destruct (opc_eqb _ IR_UDIV); [by apply mutated_below|].
    destruct (opc_eqb _ IR_UREM); [by apply mutated_below|]. by apply signed_recipe_below.
  - unfold rule_shift_pair. destruct (_ && _ && _); [|done]. destruct (inner_of _ _ _ _ _) as [d|] eqn:E; [|done].
    destruct (_ && _); [|done]. apply resolving_below; [by apply (inner_below _ _ _ _ _ E)|]. intros b Bb.
    destruct (opc_eqb _ _); [by apply mutated_below|]. destruct (inner_of _ _ b _ _) as [e|] eqn:Ee; [|done].
    destruct (_ =? _); [|done]. apply resolving_below; [by apply (inner_below _ _ _ _ _ Ee)|]. intros s Bs.
    apply change_below; [done|]. by constructor.
Qed.

Lemma rule_ult_zext_below : rule_below (rule_ult_zext vals defs repl nold i).
Proof using All.
  unfold rule_ult_zext. destruct (_ && _ && _ && _); [|done]. destruct (inner_of _ _ _ _ _) as [d|] eqn:E; [|done].
  apply resolving_below; [by apply (inner_below _ _ _ _ _ E)|]. intros s Bs.
  destruct (_ =? 0); [cbn; done|]. destruct (_ <? _); [cbn; done|]. apply change_below; [done|]. constructor; [done|]. by constructor.
Qed.

Lemma rule_sign_below : rule_below (rule_fneg_fneg defs repl nold i) /\ rule_below (rule_fabs vals defs repl nold i).
Proof using All.
  split.
  - unfold rule_fneg_fneg. destruct (_ && _); [|done]. destruct (inner_of _ _ _ _ _) as [d|] eqn:E; [|done].
    apply resolving_below; [by apply (inner_below _ _ _ _ _ E)|done].
  - unfold rule_fabs. destruct (_ && _); [|done]. destruct (inner_of _ _ _ IR_FABS _) as [d|] eqn:E.
    + apply resolving_below; done.
    + destruct (inner_of _ _ _ IR_FNEG _) as [d|] eqn:En; [|done].
      apply resolving_below; [by apply (inner_below _ _ _ _ _ En)|]. intros v Bv.
      apply change_below; [done|]. by constructor.
Qed.

Lemma simplify_rules_below : (in_op i = IR_ICMP -> is_Some (icmp_of (in_subop i))) ->
  rule_below (simplify_rules vals block_id defs mu repl nold cfg i).
Proof using All.
  intros H. destruct rule_sign_below. unfold simplify_rules. repeat apply orelse_below; try done.
  - apply rule_fold_below.
  - by apply rule_icmp_swap_below.
  - apply rules_fp_below.
  - apply rules_int_below.
  - apply rule_ult_zext_below.
Qed.
End rules.
End total.
