(* ===== verification/SimplifyFunc.v ===== *)
(** The simplifier over a function: it returns, its result refines the
    function use by use, and no use of a replaced value is left. *)
From stdpp Require Import gmap.
From S2P Require Import Prelude.
From S2P Require Import Softfp.
From S2P Require Import Ir.
From S2P Require Import Fold.
From S2P Require Import IrSem.
From S2P Require Import IrValues.
From S2P Require Import FoldFacts.
From S2P Require Import FoldCorrect.
From S2P Require Import Renumber.
From S2P Require Import Simplify.
From S2P Require Import SimplifyUndef.
From S2P Require Import SimplifyRules.
From S2P Require Import SimplifySound.
From S2P Require Import SimplifyPass.
From S2P Require Import SimplifyTotal.
#[local] Open Scope Z_scope.

(** ** Instructions the rules do not know *)
Lemma other_keeps vals block_id defs mu repl nold cfg i : value_op (in_op i) = false ->
  simplify_one vals block_id defs mu repl nold cfg i = Some Keep.
Proof.
  intros V. assert (O : forall o, value_op o = true -> opc_eqb (in_op i) o = false).
  { intros o Vo. apply bool_decide_eq_false. intros E. by rewrite E, Vo in V. }
  unfold simplify_one.
  assert (E : simplify_rules vals block_id defs mu repl nold cfg i = Falls); [|by rewrite E].
  unfold simplify_rules, rule_fold.
  destruct (opt_fold_inst i cfg) as [v|] eqn:E; [by rewrite (proj1 (opt_fold_inst_shape i cfg v E)) in V|].
  unfold rule_icmp_swap, rules_fp, rules_int, rule_identity, rule_mul_zero, rule_sub_self, rule_mul_pow2, rule_neg_neg,
    rule_xor_xor, rule_div_pow2, rule_shift_pair, rule_ult_zext, rule_fneg_fneg, rule_fabs, rule. cbv zeta beta.
  rewrite !O by done. cbn [andb orb orelse].
  destruct (format_of (in_type i)); destruct (in_nops i =? 2); destruct (negb (int_width (in_type i) =? 0)); done.
Qed.

Section func.
  Context (f : IrFunc) (cfg : option OptConfig) (rank : Z -> Z).
  #[local] Notation "'nold'" := (f_nvals f).

(** Every value operation only uses values of a lower rank, and comparisons
    carry a predicate. *)
Record acyclic : Prop := {
  ac_rank : forall i, i ∈ insts f -> value_op (in_op i) = true -> Forall (below nold rank (rank (in_result i))) (in_ops i);
  ac_icmp : forall i, i ∈ insts f -> in_op i = IR_ICMP -> is_Some (icmp_of (in_subop i));
}.
Context (AC : acyclic).

Record bounded (s : Pass) : Prop := {
  bd_repl : repl_below nold rank (p_repl s);
  bd_defs : defs_below nold rank (p_defs s);
  bd_vals : nold <= Z.of_nat (length (p_vals s));
}.

Lemma set_def_below defs i : defs_below nold rank defs ->
  (value_op (in_op i) = true -> Forall (below nold rank (rank (in_result i))) (in_ops i)) ->
  defs_below nold rank (set_def nold defs i).
Proof.
  intros D H id d. unfold set_def. destruct (_ && _); [|apply D]. intros L.
  apply lookup_insert_Some in L as [[<- <-]|[_ L]]; [done|by apply (D id)].
Qed.

Lemma walk_inst_total mu block_id s i : bounded s -> i ∈ insts f ->
  exists out s', walk_inst nold mu cfg block_id s i = Some (out, s') /\ bounded s'.
Proof using AC.
  intros [RB DB Ln] Hi. unfold walk_inst.
  destruct (resolve_ops_total nold rank (p_repl s) RB i) as (ops & -> & _ & B). set (i1 := set_ops i ops).
  assert (F1 : value_op (in_op i) = true -> Forall (below nold rank (rank (in_result i))) (in_ops i1)).
  { intros V. by apply B, (ac_rank AC). }
  assert (D1 : defs_below nold rank (set_def nold (p_defs s) i1)) by by apply set_def_below.
  destruct (value_op (in_op i)) eqn:V; cycle 1.
  { rewrite other_keeps by done. eexists _, _. split; [done|]. by split. }
  pose proof (simplify_rules_below nold rank (p_vals s) block_id (set_def nold (p_defs s) i1) mu (p_repl s) cfg RB D1 Ln
                i1 (rank (in_result i)) (F1 eq_refl) (ac_icmp AC i Hi)) as R.
  unfold simplify_one. destruct (simplify_rules _ _ _ _ _ _ _ i1) as [st| |]; [|eexists _, _; split; [done|by split]|done].
  destruct st as [|v|vals' pre i']; (eexists _, _; split; [done|]).
  - by split.
  - split; [|done|done]. intros id w L. cbn [p_repl] in L. apply lookup_insert_Some in L as [[<- <-]|[_ L]]; [exact R|by apply (RB id)].
  - destruct R as ([tail ->] & Er & F'). split; cbn [p_vals p_defs p_repl]; [done| |rewrite length_app; lia].
    apply set_def_below; [done|]. intros _. by rewrite Er.
Qed.

Lemma walk_insts_total mu block_id ins s : bounded s -> (forall i, i ∈ ins -> i ∈ insts f) ->
  exists out s', walk_insts nold mu cfg block_id s ins = Some (out, s') /\ bounded s'.
Proof using AC.
  revert s. induction ins as [|i ins IH]; intros s B Hin; cbn [walk_insts]; [by eexists _, _|].
  destruct (walk_inst_total mu block_id s i B) as (out & s1 & -> & B1); [apply Hin; left|].
  destruct (IH s1 B1) as (rest & s2 & -> & B2); [intros; apply Hin; by right|]. by eexists _, _.
Qed.

Lemma walk_blocks_total mu bs block_id s : bounded s -> (forall b, b ∈ bs -> b ∈ f_blocks f) ->
  exists out s', walk_blocks nold mu cfg block_id s bs = Some (out, s') /\ bounded s'.
Proof using AC.
  revert s block_id. induction bs as [|b bs IH]; intros s block_id B Hin; cbn [walk_blocks]; [by eexists _, _|].
  destruct (walk_insts_total mu block_id (b_insts b) s B) as (out & s1 & -> & B1).
  { intros i. apply elem_insts. apply Hin. left. }
  destruct (IH s1 (block_id + 1) B1) as (rest & s2 & -> & B2); [intros; apply Hin; by right|]. by eexists _, _.
Qed.

(** ** After the second walk no operand has a replacement *)
Definition op_clean (repl : Replacements) (op : IrOperand) : Prop := replacement_of repl nold op = None.
Definition inst_clean (repl : Replacements) (i : IrInst) : Prop :=
  Forall (op_clean repl) (in_ops i) /\ Forall (fun e => Forall (op_clean repl) (e_args e)) (in_edges i).

Lemma mapM_total {A B} (g : A -> option B) (P : B -> Prop) l : (forall a, exists b, g a = Some b /\ P b) ->
  exists l', mapM g l = Some l' /\ Forall P l'.
Proof.
  intros H. assert (E : exists l', Forall2 (fun a b => g a = Some b) l l' /\ Forall P l').
  { induction l as [|a l (l' & E & F)]; [exists []; by split|]. destruct (H a) as (b & Eb & Pb).
    exists (b :: l'). split; by constructor. }
  destruct E as (l' & E & F). exists l'. split; [by apply mapM_Some|done].
Qed.

Lemma resolve_inst_total repl i : repl_below nold rank repl -> exists i', resolve_inst nold repl i = Some i' /\ inst_clean repl i'.
Proof.
  intros RB. unfold resolve_inst. destruct (resolve_ops_total nold rank repl RB i) as (ops & -> & C & _).
  destruct (mapM_total (resolve_edge nold repl) (fun e => Forall (op_clean repl) (e_args e)) (in_edges i)) as (es & -> & Ce).
  - intros e. unfold resolve_edge.
    destruct (mapM_total (resolve_operand repl nold) (op_clean repl) (e_args e) (resolve_total nold rank repl RB)) as (args & -> & Ca).
    by eexists.
  - by eexists.
Qed.

Lemma resolve_blocks_total repl bs : repl_below nold rank repl ->
  exists bs', mapM (resolve_block nold repl) bs = Some bs' /\ Forall (fun b => Forall (inst_clean repl) (b_insts b)) bs'.
Proof.
  intros RB. apply mapM_total. intros b. unfold resolve_block.
  destruct (mapM_total (resolve_inst nold repl) (inst_clean repl) (b_insts b)) as (ins & -> & C);
    [intros; by apply resolve_inst_total|]. by eexists.
Qed.

Lemma bounded_start : bounded (mkPass (f_vals f) (build_defs f nold) ∅ false).
Proof using AC.
  split; cbn [p_vals p_defs p_repl].
  - intros id v L. by destruct (lookup_empty_Some (M:=gmap Z) id v L).
  - intros id d L V. destruct (build_defs_spec f id d L) as (Hd & <- & _). by apply (ac_rank AC).
  - unfold f_nvals. lia.
Qed.

Lemma simplify_func_runs : exists mu blocks s, find_may_undef f = Some mu /\
  walk_blocks nold mu cfg 1 (mkPass (f_vals f) (build_defs f nold) ∅ false) (f_blocks f) = Some (blocks, s) /\ bounded s /\
  exists blocks', mapM (resolve_block nold (p_repl s)) blocks = Some blocks' /\
    Forall (fun b => Forall (inst_clean (p_repl s)) (b_insts b)) blocks' /\
    simplify_func f cfg = Some (if p_changed s then (ir_func_renumber (set_vals (set_blocks f blocks') (p_vals s)), true)
                                else (set_vals (set_blocks f blocks) (p_vals s), false)).
Proof using AC.
  destruct (find_may_undef_spec f) as (mu & Em & _).
  destruct (walk_blocks_total mu (f_blocks f) 1 _ bounded_start ltac:(done)) as (blocks & s & Ew & Bs).
  destruct (resolve_blocks_total (p_repl s) blocks (bd_repl _ Bs)) as (blocks' & Er & C).
  exists mu, blocks, s. split; [done|]. split; [done|]. split; [done|]. exists blocks'. split; [done|]. split; [done|].
  unfold simplify_func. rewrite Em, Ew. destruct (p_changed s); [by rewrite Er|done].
Qed.
End func.

(** ** Uses *)
Lemma Forall2_lookup_elem {A B} (P : A -> B -> Prop) l l' y : Forall2 P l l' -> y ∈ l' -> exists x, x ∈ l /\ P x y.
Proof.
  intros H Hy. induction H as [|a b l l' Hab H IH]; [by apply elem_of_nil in Hy|].
  apply elem_of_cons in Hy as [->|Hy]; [exists a; split; [left|done]|].
  destruct (IH Hy) as (x & Hx & Px). exists x. split; [by right|done].
Qed.
Lemma Forall2_lookup_elem_l {A B} (P : A -> B -> Prop) l l' x : Forall2 P l l' -> x ∈ l -> exists y, y ∈ l' /\ P x y.
Proof.
  intros H Hx. induction H as [|a b l l' Hab H IH]; [by apply elem_of_nil in Hx|].
  apply elem_of_cons in Hx as [->|Hx]; [exists b; split; [left|done]|].
  destruct (IH Hx) as (y & Hy & Py). exists y. split; [by right|done].
Qed.

Section unchanged.
  Context (nold : Z) (mu : gset Z) (cfg : option OptConfig).

(** As long as nothing changed, nothing was replaced. *)
Definition untouched (s s' : Pass) : Prop := p_changed s' = false -> p_changed s = false /\ p_repl s' = p_repl s.
Lemma untouched_trans s1 s2 s3 : untouched s1 s2 -> untouched s2 s3 -> untouched s1 s3.
Proof. intros H H' E. destruct (H' E) as [E' R']. destruct (H E') as [E'' R]. split; [done|congruence]. Qed.

Lemma walk_inst_untouched block_id s i out s' : walk_inst nold mu cfg block_id s i = Some (out, s') -> untouched s s'.
Proof.
  unfold walk_inst. destruct (resolve_ops _ _ _); [|done]. destruct (simplify_one _ _ _ _ _ _ _ _) as [[]|]; [| | |done];
    intros [= _ <-]; by intros E.
Qed.
Lemma walk_insts_untouched block_id ins s out s' : walk_insts nold mu cfg block_id s ins = Some (out, s') -> untouched s s'.
Proof.
  revert s out. induction ins as [|i ins IH]; intros s out; cbn [walk_insts]; [by intros [= _ <-]|].
  destruct (walk_inst _ _ _ _ s i) as [[out1 s1]|] eqn:E1; [|done]. destruct (walk_insts _ _ _ _ s1 ins) as [[rest s2]|] eqn:E2; [|done].
  intros [= _ <-]. apply (untouched_trans s s1); [by eapply walk_inst_untouched|by eapply IH].
Qed.
Lemma walk_blocks_untouched bs block_id s out s' : walk_blocks nold mu cfg block_id s bs = Some (out, s') -> untouched s s'.
Proof.
  revert s out block_id. induction bs as [|b bs IH]; intros s out block_id; cbn [walk_blocks]; [by intros [= _ <-]|].
  destruct (walk_insts _ _ _ _ s _) as [[ins s1]|] eqn:E1; [|done]. destruct (walk_blocks _ _ _ _ s1 bs) as [[rest s2]|] eqn:E2; [|done].
  intros [= _ <-]. apply (untouched_trans s s1); [by eapply walk_insts_untouched|by eapply IH].
Qed.
End unchanged.

Lemma resolve_results nold repl (bs bs' : list IrBlock) : mapM (resolve_block nold repl) bs = Some bs' ->
  map in_result (concat (map b_insts bs')) = map in_result (concat (map b_insts bs)).
Proof.
  intros E. apply mapM_Some in E. induction E as [|b b' bs bs' Hb E IH]; [done|]. cbn [map concat]. rewrite !map_app, IH. f_equal.
  unfold resolve_block in Hb. destruct (mapM _ (b_insts b)) as [ins|] eqn:Ei; [|done]. injection Hb as <-. cbn [b_insts].
  apply mapM_Some in Ei. clear IH E. induction Ei as [|i i' l l' Hi Ei IH]; [done|]. cbn [map]. rewrite IH. f_equal.
  unfold resolve_inst in Hi. destruct (resolve_ops nold repl i); [|done]. destruct (mapM (resolve_edge nold repl) (in_edges i)); [|done]. by injection Hi as <-.
Qed.

(** ** The pass as a whole *)
Section pass.
  Context (sym_addr : Z -> Z) (fpu : FpTarget) (narrow : Prop) (f : IrFunc) (mu : gset Z)
    (env : Env) (cfg : option OptConfig) (rank : Z -> Z).

(** What the pass starts from: a well-typed function, with reduced constants
    where [narrow] must hold and an acyclic order, in an environment that
    satisfies the equations of its operations. No check ensures the constants,
    the order or the licence. *)
Record simplifiable : Prop := {
  si_func : func_ok narrow f;
  si_acyclic : acyclic f rank;
  si_undef : find_may_undef f = Some mu;
  si_meaning : meaning sym_addr fpu f mu env;
  si_strict : (match cfg with Some c => no_nans (fast_math c) | None => false end) = false;
}.
Context (S : simplifiable).

(** The function before renumbering, its environment and its replacements. *)
Record simplified (f1 : IrFunc) (changed : bool) (env1 : Env) (repl : Replacements) : Prop := {
  sd_result : simplify_func f cfg = Some (if changed then ir_func_renumber f1 else f1, changed);
  sd_frame : f_ret f1 = f_ret f /\ f_variadic f1 = f_variadic f /\ f_param_vals f1 = f_param_vals f /\ f_slots f1 = f_slots f;
  sd_vals : exists tail, f_vals f1 = f_vals f ++ tail;
  sd_env : forall id, 1 <= id <= f_nvals f -> env1 id = env id;
  sd_blocks : Forall2 (block_refines sym_addr fpu narrow f (f_vals f1) env1 repl) (f_blocks f) (f_blocks f1);
  sd_clean : Forall (fun b => Forall (inst_clean f repl) (b_insts b)) (f_blocks f1);
  sd_new : forall id, f_nvals f < id <= f_nvals f1 -> id ∈ map in_result (insts f1);
  sd_repl : forall id v, repl !! id = Some v -> 1 <= id <= f_nvals f -> o_kind v <> IROP_NONE;
}.

Lemma mu_range id : id ∈ mu -> 1 <= id <= f_nvals f.
Proof using S.
  intros H. apply (may_undef_range f id (fo_ids _ _ (si_func S))). by apply (mu_exact f mu (si_undef S)).
Qed.

Lemma clean_empty (bs : list IrBlock) : Forall (fun b => Forall (inst_clean f ∅) (b_insts b)) bs.
Proof.
  assert (C : forall op, op_clean f ∅ op).
  { intros op. unfold op_clean, replacement_of. destruct (_ && _ && _); [|done].
    destruct (∅ !! o_a op) as [v|] eqn:L; [|done]. by destruct (lookup_empty_Some (M:=gmap Z) (o_a op) v L). }
  apply Forall_forall. intros b _. apply Forall_forall. intros i _. split; [by apply Forall_forall|].
  apply Forall_forall. intros e _. by apply Forall_forall.
Qed.

Lemma simplify_func_simplified : exists f1 (changed : bool) env1 repl, simplified f1 changed env1 repl.
Proof using S.
  destruct (simplify_func_runs f cfg rank (si_acyclic S)) as (mu' & blocks & s & Em & Ew & Bs & blocks' & Er & C & Ef).
  rewrite (si_undef S) in Em. injection Em as <-.
  pose proof (walking_start sym_addr fpu narrow f mu env (si_func S) (si_meaning S) mu_range) as W0.
  destruct (walk_blocks_ok sym_addr fpu narrow f mu env cfg (si_func S) (si_meaning S) mu_range (si_strict S)
              (f_blocks f) ltac:(done) 1 _ env blocks s W0 Ew) as (env1 & W & G & F & Cv).
  assert (Rn : forall id v, p_repl s !! id = Some v -> 1 <= id <= f_nvals f -> o_kind v <> IROP_NONE).
  { intros id v L I K. destruct (tb_repl _ _ _ _ _ _ _ _ _ _ _ (wk_tables _ _ _ _ _ _ _ _ W) id v L I) as ([_ _ Fk] & _).
    by rewrite K in Fk. }
  destruct (p_changed s) eqn:Ch.
  - exists (set_vals (set_blocks f blocks') (p_vals s)), true, env1, (p_repl s). split.
    + exact Ef.
    + done.
    + exact (wk_vals _ _ _ _ _ _ _ _ W).
    + exact (wk_env _ _ _ _ _ _ _ _ W).
    + cbn [f_blocks f_vals set_vals set_blocks]. clear -F Er W. apply mapM_Some in Er. revert blocks' Er.
      induction F as [|b b' l l' Hb F IH]; intros bs Er; inversion Er as [|? b'' ? ? Hb' Er']; subst; constructor; [|by apply IH].
      by apply (block_resolve sym_addr fpu narrow f mu env s env1 b b').
    + exact C.
    + intros id I. unfold insts. cbn [f_blocks set_vals set_blocks]. rewrite (resolve_results _ _ _ _ Er). by apply Cv.
    + exact Rn.
  - destruct (walk_blocks_untouched _ _ _ _ _ _ _ _ Ew Ch) as [_ Re]. cbn [p_repl] in Re.
    exists (set_vals (set_blocks f blocks) (p_vals s)), false, env1, (p_repl s). split; [exact Ef|done| | |exact F| | |exact Rn].
    + exact (wk_vals _ _ _ _ _ _ _ _ W).
    + exact (wk_env _ _ _ _ _ _ _ _ W).
    + rewrite Re. apply clean_empty.
    + intros id I. by apply Cv.
Qed.

(** ** No use is left dangling *)
Section uses.
  Context (f1 : IrFunc) (changed : bool) (env1 : Env) (repl : Replacements) (D : simplified f1 changed env1 repl).
  #[local] Notation "'emitted''" :=
    (emitted sym_addr fpu narrow (f_ret f) (f_variadic f) (f_nvals f) (f_vals f1) env1 repl).

Lemma emitted_fits i out j : emitted' i out -> j ∈ out ->
  Forall (fits narrow (f_vals f1)) (in_ops j) /\ Forall (fun e => Forall (fits narrow (f_vals f1)) (e_args e)) (in_edges j).
Proof.
  intros [V R|pre i' P K] H; [by apply elem_of_nil in H|]. apply elem_of_app in H as [H|H].
  - pose proof (proj1 (Forall_forall _ _) P j ltac:(by apply list_elem_of_In)) as [Aw _ _ Ae _].
    split; [apply Aw|by rewrite Ae].
  - apply list_elem_of_singleton in H as ->. split; [apply K|]. apply Forall_forall. intros e He.
    pose proof (kp_edges _ _ _ _ _ _ _ _ _ K) as Ke. clear -Ke He. induction Ke as [|a b l l' (_ & _ & H) Ke IH]; [done|].
    destruct He as [<-|He]; [by apply (ops_refine_fits _ _ sym_addr env1 (e_args a))|by apply IH].
Qed.

(** Every instruction of the result comes from one of the function. *)
Lemma from_inst j : j ∈ insts f1 -> exists i out, i ∈ insts f /\ emitted' i out /\ j ∈ out.
Proof using D.
  intros Hj. destruct (insts_inv f1 j Hj) as (b' & Hb & Hjb).
  destruct (Forall2_lookup_elem _ _ _ _ (sd_blocks _ _ _ _ D) Hb) as (b & Hbf & _ & outs & Eo & F).
  rewrite Eo in Hjb. apply list_elem_of_In, in_concat in Hjb as (out & Ho & Hjo).
  apply list_elem_of_In in Ho. destruct (Forall2_lookup_elem _ _ _ _ F Ho) as (i & Hi & Em).
  exists i, out. split; [by apply (elem_insts f b)|]. split; [done|by apply list_elem_of_In].
Qed.

Lemma used_fits op : uses f1 op -> fits narrow (f_vals f1) op /\ op_clean f repl op.
Proof using D.
  assert (Cl : forall j, j ∈ insts f1 -> inst_clean f repl j).
  { intros j Hj. destruct (insts_inv f1 j Hj) as (b' & Hb & Hjb).
    pose proof (proj1 (Forall_forall _ _) (sd_clean _ _ _ _ D) b' ltac:(by apply list_elem_of_In)) as C.
    exact (proj1 (Forall_forall _ _) C j ltac:(by apply list_elem_of_In)). }
  intros [(j & Hj & Ho)|(e & He & Ho)].
  - destruct (from_inst j Hj) as (i & out & _ & Em & Hjo). destruct (emitted_fits i out j Em Hjo) as [F _].
    split; [exact (proj1 (Forall_forall _ _) F op ltac:(by apply list_elem_of_In))|].
    exact (proj1 (Forall_forall _ _) (proj1 (Cl j Hj)) op ltac:(by apply list_elem_of_In)).
  - destruct (edges_inv f1 e He) as (j & Hj & Hej). destruct (from_inst j Hj) as (i & out & _ & Em & Hjo).
    destruct (emitted_fits i out j Em Hjo) as [_ F].
    pose proof (proj1 (Forall_forall _ _) F e ltac:(by apply list_elem_of_In)) as Fe.
    pose proof (proj1 (Forall_forall _ _) (proj2 (Cl j Hj)) e ltac:(by apply list_elem_of_In)) as Ce.
    split; [exact (proj1 (Forall_forall _ _) Fe op ltac:(by apply list_elem_of_In))|].
    exact (proj1 (Forall_forall _ _) Ce op ltac:(by apply list_elem_of_In)).
Qed.

Lemma result_defines j : j ∈ insts f1 -> defines f1 (in_result j).
Proof.
  intros Hj. destruct (insts_inv f1 j Hj) as (b & Hb & Hjb). apply elem_of_app. right.
  apply (elem_defined f1 b); [done|]. apply elem_of_app. right. apply list_elem_of_In, in_map, list_elem_of_In. done.
Qed.

(** What the function defined and was not replaced is still defined. *)
Lemma still_defined id : defines f id -> 1 <= id <= f_nvals f -> repl !! id = None -> defines f1 id.
Proof using D.
  intros H I N. apply elem_of_app in H as [H|H].
  - apply elem_of_app. left. by rewrite (proj1 (proj2 (proj2 (sd_frame _ _ _ _ D)))).
  - unfold defined_ids in H. apply list_elem_of_In, in_concat in H as (l & Hl & Hid). apply in_map_iff in Hl as (b & <- & Hb).
    apply list_elem_of_In in Hb, Hid.
    destruct (Forall2_lookup_elem_l _ _ _ _ (sd_blocks _ _ _ _ D) Hb) as (b' & Hb' & Ep & outs & Eo & F).
    apply elem_of_app in Hid as [Hid|Hid].
    + apply elem_of_app. right. apply (elem_defined f1 b'); [done|]. apply elem_of_app. left. by rewrite Ep.
    + apply list_elem_of_In, in_map_iff in Hid as (i & <- & Hi). apply list_elem_of_In in Hi.
      destruct (Forall2_lookup_elem_l _ _ _ _ F Hi) as (out & Ho & Em).
      destruct Em as [V [v Rv]|pre i' P K]; [congruence|]. rewrite <- (kp_result _ _ _ _ _ _ _ _ _ K). apply result_defines.
      apply (elem_insts f1 b'); [done|]. rewrite Eo. apply list_elem_of_In, in_concat. exists (pre ++ [i']).
      split; [by apply list_elem_of_In|]. apply in_or_app. right. by left.
Qed.

Lemma used_defined op : (forall id, 1 <= id <= f_nvals f -> defines f id) -> uses f1 op -> o_kind op = IROP_VALUE ->
  defines f1 (o_a op).
Proof using D.
  intros Dense U K. destruct (used_fits op U) as [[_ _ Fk] C]. rewrite K in Fk. destruct Fk as [I _].
  destruct (Z.leb_spec (o_a op) (f_nvals f)) as [Le|Gt].
  - apply still_defined; [apply Dense; lia|lia|]. destruct (repl !! o_a op) as [v|] eqn:L; [|done]. exfalso.
    pose proof (sd_repl _ _ _ _ D _ _ L ltac:(lia)) as N. unfold op_clean, replacement_of, is_kind in C.
    rewrite L, K in C. rewrite (bool_decide_eq_false_2 _ N), (bool_decide_eq_true_2 _ eq_refl) in C.
    by rewrite !(proj2 (Z.leb_le _ _)) in C by lia.
  - pose proof (sd_new _ _ _ _ D (o_a op) ltac:(unfold f_nvals in *; lia)) as H.
    apply list_elem_of_In, in_map_iff in H as (j & <- & Hj). apply result_defines. by apply list_elem_of_In.
Qed.
End uses.
End pass.

(** ** Properties of the code *)

(** C1. The pass refines the function. The function is [simplifiable]: it keeps
    the verifier's type discipline, if it has an extension or a selection its
    integer constants are reduced to their width, the order of use of its value
    operations is acyclic (some rank grows along it), and the no-NaNs licence is
    not given; the verifier does not look at the last three, and on a constant
    that is not reduced the pass does go wrong ([zext_fold_unreduced]). Then for
    every environment that satisfies the equations of the function's value
    operations [simplify_func] returns; up to the final renumbering
    its result [f1] has the frame of [f] (signature, parameters, blocks and
    their parameters, branch targets and switch cases), keeps or adds values,
    and there is an environment that agrees on the old values, in which what
    stands for each instruction gives only values it may give, loads, stores,
    calls and branches are kept with operands that refine the old ones, and
    call arguments keep their annotations. *)
Theorem simplify_func_refines sym_addr fpu narrow f mu env cfg rank :
  simplifiable sym_addr fpu narrow f mu env cfg rank ->
  exists f1 (changed : bool) env1 repl,
    simplify_func f cfg = Some (if changed then ir_func_renumber f1 else f1, changed) /\
    f_ret f1 = f_ret f /\ f_variadic f1 = f_variadic f /\ f_param_vals f1 = f_param_vals f /\
    (exists tail, f_vals f1 = f_vals f ++ tail) /\
    (forall id, 1 <= id <= f_nvals f -> env1 id = env id) /\
    Forall2 (block_refines sym_addr fpu narrow f (f_vals f1) env1 repl) (f_blocks f) (f_blocks f1).
Proof.
  intros S. destruct (simplify_func_simplified _ _ _ _ _ _ _ _ S) as (f1 & c & env1 & repl & [E (? & ? & ? & _) ? ? ? _ _ _]).
  by exists f1, c, env1, repl.
Qed.

(** The pass leaves no dangling use: if every value of the function is
    defined by a parameter, a block parameter or an instruction, then every
    value the result uses, in an operand or on a branch edge, is defined in the
    result, although definitions were removed. *)
Theorem simplify_func_uses_defined sym_addr fpu narrow f mu env cfg rank :
  simplifiable sym_addr fpu narrow f mu env cfg rank ->
  (forall id, 1 <= id <= f_nvals f -> defines f id) ->
  exists f1 (changed : bool), simplify_func f cfg = Some (if changed then ir_func_renumber f1 else f1, changed) /\
    forall op, uses f1 op -> o_kind op = IROP_VALUE -> defines f1 (o_a op).
Proof.
  intros S Dense. destruct (simplify_func_simplified _ _ _ _ _ _ _ _ S) as (f1 & c & env1 & repl & D).
  exists f1, c. split; [apply D|]. intros op. by apply (used_defined _ _ _ _ _ _ f1 c env1 repl D).
Qed.

(** C36. The pass never stops the compiler on an acyclic module: every chain of
    replacements ends within the bound [resolve_operand] counts to and every
    comparison has a predicate, so [opt_simplify] returns a module with as many
    functions. *)
Theorem opt_simplify_total fs cfg : (forall f, f ∈ fs -> exists rank : Z -> Z, acyclic f rank) ->
  exists fs' changed, opt_simplify fs cfg = Some (fs', changed) /\ length fs' = length fs.
Proof.
  induction fs as [|f fs IH]; intros H; cbn [opt_simplify]; [by exists [], false|].
  destruct (H f ltac:(left)) as [rank AC].
  destruct (simplify_func_runs f cfg rank AC) as (? & ? & s & _ & _ & _ & ? & _ & _ & E).
  destruct IH as (fs' & c & Efs & L); [intros g Hg; apply H; by right|]. rewrite Efs.
  assert (R : exists g b, simplify_func f cfg = Some (g, b)) by (rewrite E; destruct (p_changed s); by eexists _, _).
  destruct R as (g & b & ->). eexists _, _. split; [done|]. cbn [length]. by rewrite L.
Qed.

(** ** A function whose remainder is expanded and whose addition of zero goes *)
Definition sample_inst (o : IrOp) (r : Z) (ops : list IrOperand) : IrInst := mkInst o IRT_I32 0 0 r 0 ops [].
Definition sample_value (id : Z) : IrOperand := mkOp IROP_VALUE IRT_I32 0 0 id 0.
Definition sample_srem : IrInst := sample_inst IR_SREM 2 [sample_value 1; ic IRT_I32 8].
Definition sample_add : IrInst := sample_inst IR_IADD 3 [sample_value 2; ic IRT_I32 0].
Definition sample_ret : IrInst := mkInst IR_RET IRT_VOID 0 0 0 0 [sample_value 3] [].
Definition sample : IrFunc :=
  mkFunc IRT_I32 false [1] [mkBlock [] [sample_srem; sample_add; sample_ret]]
    [mkVal IRT_I32 VDEF_FPARAM 1 0; mkVal IRT_I32 VDEF_INST 1 0; mkVal IRT_I32 VDEF_INST 1 1] [].
Definition sample_env : Env := fun _ => eq (2 ^ 32 - 7).

Lemma sample_insts i : i ∈ insts sample -> i = sample_srem \/ i = sample_add \/ i = sample_ret.
Proof. intros H%list_elem_of_In. cbn in H. intuition. Qed.
Lemma sample_fits_value id : 1 <= id <= 3 -> fits True (f_vals sample) (sample_value id).
Proof.
  intros H. split; [done|done|]. cbn [sample_value o_kind o_a o_type]. split; [exact H|].
  assert (id = 1 \/ id = 2 \/ id = 3) as [-> | [-> | ->]] by lia; reflexivity.
Qed.
Lemma sample_fits_const v : 0 <= v < 2 ^ 32 -> fits True (f_vals sample) (ic IRT_I32 v).
Proof.
  intros H. split; [exact (u64_range v)| |exact I]. intros _ _. change (u64 v < 2 ^ 32). rewrite u64_small; unfold is_u64; lia.
Qed.

Lemma sample_den o r a b v : int_sem o 32 (2 ^ 32 - 7) b = Some v -> is_int_binop o = true -> 0 <= b < 2 ^ 32 ->
  forall x, den id plain_fpu sample_env (sample_inst o r [sample_value a; ic IRT_I32 b]) x <-> v = x.
Proof.
  intros E Ho Hb x.
  assert (Rb : forall y, reads id sample_env (ic IRT_I32 b) y <-> y = b).
  { intros y. unfold reads. cbn. rewrite u64_small by (unfold is_u64; lia). rewrite Z.mod_small by lia. split; congruence. }
  assert (R : result_of plain_fpu (sample_inst o r [sample_value a; ic IRT_I32 b]) [2 ^ 32 - 7; b] = eq v).
  { rewrite (int_result plain_fpu (sample_inst o r _)) by done. cbn [in_op in_type sample_inst].
    change (type_bits IRT_I32) with 32. by rewrite E. }
  split.
  - intros (vs & H & H'). inversion H as [|? y ? ? Hy T]; subst. inversion T as [|? z ? ? Hz T']; subst. inversion T'; subst.
    apply Rb in Hz as ->. unfold reads in Hy. cbn in Hy. unfold sample_env in Hy. rewrite <- Hy in H'. by rewrite R in H'.
  - intros <-. exists [2 ^ 32 - 7; b]. split; [|by rewrite R]. constructor; [done|]. constructor; [by apply Rb|constructor].
Qed.

Lemma sample_simplifiable : simplifiable id plain_fpu True sample {[2; 3]} sample_env None (fun id => id).
Proof.
  assert (Wb : forall o r a b, is_int_binop o = true -> 2 <= r <= 3 -> 1 <= a <= 3 -> 0 <= b < 2 ^ 32 ->
    well True IRT_I32 false (f_vals sample) (sample_inst o r [sample_value a; ic IRT_I32 b])).
  { intros o r a b Ho Hr Ha Hb. split; cbn [in_ops in_op in_result sample_inst].
    - constructor; [by apply sample_fits_value|]. constructor; [by apply sample_fits_const|constructor].
    - intros _. by apply scalar_binop_types.
    - by intros [-> | ->].
    - intros _. lia.
    - intros _. split; [change (Z.of_nat (length (f_vals sample))) with 3; lia|]. assert (r = 2 \/ r = 3) as [-> | ->] by lia; reflexivity. }
  split.
  - split.
    + split.
      * intros b p Hb Hp. apply list_elem_of_In in Hb, Hp. destruct Hb as [<-|[]]. by cbn in Hp.
      * intros i Hi. change (f_nvals sample) with 3. destruct (sample_insts i Hi) as [-> | [-> | ->]]; cbn; lia.
    + intros i Hi. destruct (sample_insts i Hi) as [-> | [-> | ->]]; [by apply Wb|by apply Wb|].
      split; cbn [in_ops in_op in_result sample_ret]; [|done|by intros [?|?]|done|done].
      constructor; [by apply sample_fits_value|constructor].
    + intros e He. apply list_elem_of_In in He. by cbn in He.
  - split.
    + intros i Hi V. destruct (sample_insts i Hi) as [-> | [-> | ->]]; [| |done]; (constructor; [intros _ _; cbn; lia|]); (constructor; [done|constructor]).
    + intros i Hi O. by destruct (sample_insts i Hi) as [-> | [-> | ->]].
  - vm_compute. reflexivity.
  - split.
    + assert (Tv : forall k, 1 <= k <= Z.of_nat (length (f_vals sample)) -> ir_value_type (f_vals sample) k = IRT_I32).
      { intros k Hk. change (Z.of_nat (length (f_vals sample))) with 3 in Hk.
        assert (k = 1 \/ k = 2 \/ k = 3) as [-> | [-> | ->]] by lia; reflexivity. }
      split.
      * intros k _. by exists (2 ^ 32 - 7).
      * intros k r Hk <-. rewrite (Tv k Hk). vm_compute. split; congruence.
      * intros k _ _ r r' <- <-. reflexivity.
    + intros i Hi V r. destruct (sample_insts i Hi) as [-> | [-> | ->]]; [| |done].
      * symmetry. by apply (sample_den IR_SREM 2 1 8).
      * symmetry. by apply (sample_den IR_IADD 3 2 0).
  - reflexivity.
Qed.

Lemma simplify_func_refines_witness : exists f1 (changed : bool) env1 repl,
  simplify_func sample None = Some (if changed then ir_func_renumber f1 else f1, changed) /\
  Forall2 (block_refines id plain_fpu True sample (f_vals f1) env1 repl) (f_blocks sample) (f_blocks f1).
Proof.
  destruct (simplify_func_refines id plain_fpu True sample {[2; 3]} sample_env None (fun id => id) sample_simplifiable)
    as (f1 & c & env1 & repl & E & _ & _ & _ & _ & _ & B).
  exists f1, c, env1, repl. split; [exact E|exact B].
Defined.

Lemma simplify_func_uses_defined_witness : exists f1 (changed : bool),
  simplify_func sample None = Some (if changed then ir_func_renumber f1 else f1, changed) /\
  forall op, uses f1 op -> o_kind op = IROP_VALUE -> defines f1 (o_a op).
Proof.
  apply (simplify_func_uses_defined id plain_fpu True sample {[2; 3]} sample_env None (fun id => id) sample_simplifiable).
  intros k Hk. change (f_nvals sample) with 3 in Hk. apply list_elem_of_In.
  assert (k = 1 \/ k = 2 \/ k = 3) as [-> | [-> | ->]] by lia; cbn; tauto.
Defined.

Lemma opt_simplify_total_witness : exists fs' changed,
  opt_simplify [sample] None = Some (fs', changed) /\ length fs' = 1%nat.
Proof.
  apply (opt_simplify_total [sample] None). intros f Hf. apply list_elem_of_singleton in Hf as ->.
  exists (fun id => id). exact (si_acyclic _ _ _ _ _ _ _ _ sample_simplifiable).
Defined.
