(* ===== verification/RenumberFacts.v ===== *)
(** [ir_func_renumber] numbers the values of a function canonically: the ids
    become [1 .. n] in document order, types and uses follow their value, the
    meaning of every instruction is kept, and renumbering again changes
    nothing. *)
From stdpp Require Import gmap.
From S2P Require Import Prelude.
From S2P Require Import Softfp.
From S2P Require Import Ir.
From S2P Require Import Fold.
From S2P Require Import IrSem.
From S2P Require Import IrValues.
From S2P Require Import Renumber.
From S2P Require Import SimplifyUndef.
From S2P Require Import SimplifyFunc.
#[local] Open Scope Z_scope.

(** An instruction and its renumbered form do the same: they differ in the
    names of values only. *)
Definition same_code (sym_addr : Z -> Z) (fpu : FpTarget) (env env' : Env) (i i' : IrInst) : Prop :=
  in_op i' = in_op i /\ in_type i' = in_type i /\ in_subop i' = in_subop i /\ in_flags i' = in_flags i /\ in_aux i' = in_aux i /\
  Forall2 (fun a a' => o_type a' = o_type a /\ reads sym_addr env' a' = reads sym_addr env a) (in_ops i) (in_ops i') /\
  Forall2 (fun e e' => e_target e' = e_target e /\ e_case e' = e_case e /\
    Forall2 (fun a a' => o_type a' = o_type a /\ reads sym_addr env' a' = reads sym_addr env a) (e_args e) (e_args e'))
    (in_edges i) (in_edges i') /\
  (forall r, den sym_addr fpu env' i' r <-> den sym_addr fpu env i r).

(** ** Pass 1 *)
Lemma number_nonzero l s : foldl number s l = foldl number s (nonzero l).
Proof.
  revert s. induction l as [|v l IH]; intros s; [done|]. cbn [foldl nonzero List.filter].
  destruct (Z.eqb_spec v 0) as [->|N]; cbn [negb].
  - rewrite IH. by unfold number at 2.
  - cbn [foldl]. by rewrite IH.
Qed.

Lemma number_blocks bs s : foldl number_block s bs =
  foldl number s (concat (map (fun b => b_params b ++ map in_result (b_insts b)) bs)).
Proof.
  revert s. induction bs as [|b bs IH]; intros s; [done|]. cbn [foldl map concat]. rewrite IH, !foldl_app. done.
Qed.

Lemma number_spec l m n : NoDup l -> Forall (fun v => v <> 0) l -> let '(m', n') := foldl number (m, n) l in
  n' = n + Z.of_nat (length l) /\ (forall v, v ∉ l -> m' !! v = m !! v) /\
  (forall k v, l !! k = Some v -> m' !! v = Some (n + Z.of_nat k + 1)).
Proof.
  revert m n. induction l as [|v l IH]; intros m n Nd Nz; cbn [foldl].
  - split; [cbn; lia|]. split; [done|]. intros k v Hk. by rewrite lookup_nil in Hk.
  - inversion Nd as [|? ? Nv Nd']; subst. inversion Nz as [|? ? Zv Nz']; subst.
    unfold number at 2. cbn [fst snd]. rewrite (proj2 (Z.eqb_neq v 0) Zv).
    specialize (IH (<[v:=n + 1]> m) (n + 1) Nd' Nz'). destruct (foldl number _ l) as [m' n'] eqn:E.
    destruct IH as (En & Out & In). split; [cbn [length]; lia|]. split.
    + intros w Hw. apply not_elem_of_cons in Hw as [Nw Hw]. rewrite Out by done. by rewrite lookup_insert_ne.
    + intros k w Hk. destruct k as [|k]; cbn in Hk.
      * injection Hk as <-. rewrite Out by done. rewrite lookup_insert_eq. f_equal. lia.
      * rewrite (In k w Hk). f_equal. lia.
Qed.

Section renumber.
  Context (f : IrFunc) (S : ssa f).
  #[local] Notation "'m'" := (number_func f).1.
  #[local] Notation "'doc'" := (doc_ids f).
  #[local] Notation "'n'" := (length (doc_ids f)).

Lemma number_func_fold : number_func f = foldl number (∅, 0) doc.
Proof. unfold number_func. rewrite number_blocks, <- foldl_app. apply number_nonzero. Qed.

Lemma doc_nonzero : Forall (fun v => v <> 0) doc.
Proof. apply Forall_forall. intros v Hv. apply list_elem_of_In, elem_nonzero in Hv. tauto. Qed.

Lemma numbers : (number_func f).2 = Z.of_nat n /\ (forall v, v ∉ doc -> m !! v = None) /\
  (forall k v, doc !! k = Some v -> m !! v = Some (Z.of_nat k + 1)).
Proof using S.
  rewrite number_func_fold. pose proof (number_spec doc ∅ 0 (ss_nodup _ S) doc_nonzero) as H.
  destruct (foldl number (∅, 0) doc) as [m' n']. cbn [fst snd]. destruct H as (En & Out & In).
  split; [lia|]. split; [|done]. intros v Hv. rewrite Out by done. apply lookup_empty.
Qed.

Lemma numbered_in k v : doc !! k = Some v -> numbered m v = Z.of_nat k + 1.
Proof using S. intros H. unfold numbered. by rewrite (proj2 (proj2 numbers) k v H). Qed.
Lemma numbered_out v : v ∉ doc -> numbered m v = 0.
Proof using S. intros H. unfold numbered. by rewrite (proj1 (proj2 numbers) v H). Qed.
Lemma numbered_range v : v ∈ doc -> 1 <= numbered m v <= Z.of_nat n.
Proof using S.
  intros [k Hk]%list_elem_of_lookup. rewrite (numbered_in k v Hk). apply lookup_lt_Some in Hk. lia.
Qed.
Lemma numbered_inj v w : v ∈ doc -> w ∈ doc -> numbered m v = numbered m w -> v = w.
Proof using S.
  intros [k Hk]%list_elem_of_lookup [j Hj]%list_elem_of_lookup. rewrite (numbered_in k v Hk), (numbered_in j w Hj).
  intros E. assert (k = j) as <- by lia. congruence.
Qed.
Lemma doc_not_zero v : v ∈ doc -> v <> 0.
Proof using S. intros H. pose proof (ss_range _ S v H). lia. Qed.
Lemma fresh_in v : v ∈ doc -> fresh_id m v = numbered m v.
Proof using S.
  intros H. unfold fresh_id. rewrite (proj2 (Z.eqb_neq v 0) (doc_not_zero v H)). pose proof (numbered_range v H).
  by rewrite (proj2 (Z.eqb_neq (numbered m v) 0)) by lia.
Qed.
Lemma fresh_zero : fresh_id m 0 = 0.
Proof. done. Qed.

(** ** Pass 2: the slot of a value gets its type and a definition *)
Definition typed_slot (old nv : list IrValInfo) (v : Z) : Prop :=
  exists vi, nv !! Z.to_nat (numbered m v - 1) = Some vi /\ vi_type vi = ir_value_type old v /\ vi_def_kind vi <> VDEF_NONE.

Lemma write_val_length old kind b v pos nv : length (write_val m old kind b v pos nv) = length nv.
Proof. unfold write_val. cbv zeta. destruct (_ =? 0); [done|]. apply length_insert. Qed.

Lemma write_val_typed old kind b v pos nv w : kind <> VDEF_NONE -> length nv = n -> v = 0 \/ v ∈ doc -> w ∈ doc ->
  (w = v \/ typed_slot old nv w) -> typed_slot old (write_val m old kind b v pos nv) w.
Proof using S.
  intros Nk L Hv Hw H. pose proof (numbered_range w Hw) as Rw. unfold typed_slot, write_val. cbv zeta.
  destruct Hv as [->|Hv]; [destruct H as [->|H]; [by apply doc_not_zero in Hw|done]|].
  rewrite (proj2 (Z.eqb_neq v 0) (doc_not_zero v Hv)). pose proof (numbered_range v Hv) as Rv.
  rewrite (proj2 (Z.eqb_neq (numbered m v) 0)) by lia.
  destruct (decide (w = v)) as [->|Ne].
  - rewrite list_lookup_insert_eq by lia. by eexists.
  - assert (numbered m v <> numbered m w) by (intros E; apply Ne; symmetry; by apply numbered_inj).
    rewrite list_lookup_insert_ne by lia. by destruct H.
Qed.

(** What a sequence of writes keeps and establishes. *)
Definition writes (vs : list Z) (old nv nv' : list IrValInfo) : Prop :=
  length nv' = n /\ forall w, w ∈ doc -> (w ∈ vs \/ typed_slot old nv w) -> typed_slot old nv' w.

Lemma writes_refl old nv : length nv = n -> writes [] old nv nv.
Proof. intros L. split; [done|]. intros w _ [H|H]; [by apply elem_of_nil in H|done]. Qed.
Lemma writes_val old kind b v pos nv : kind <> VDEF_NONE -> length nv = n -> v = 0 \/ v ∈ doc -> writes [v] old nv (write_val m old kind b v pos nv).
Proof using S.
  intros Nk L Hv. split; [by rewrite write_val_length|]. intros w Hw H. apply write_val_typed; try done.
  by rewrite list_elem_of_singleton in H.
Qed.
Lemma writes_app vs vs' old nv1 nv2 nv3 : writes vs old nv1 nv2 -> writes vs' old nv2 nv3 -> writes (vs ++ vs') old nv1 nv3.
Proof.
  intros [L H] [L' H']. split; [done|]. intros w Hw Hin. rewrite elem_of_app in Hin. apply H'; [done|].
  destruct Hin as [[Hin|Hin]|Hin]; [right; apply H; tauto|by left|right; apply H; tauto].
Qed.

Lemma writes_params old kind b vs nv : kind <> VDEF_NONE -> length nv = n -> (forall v, v ∈ vs -> v = 0 \/ v ∈ doc) ->
  writes vs old nv (write_params m old kind b vs nv).
Proof using S.
  intros Nk. unfold write_params. revert nv. induction vs as [|v vs IH]; intros nv L H; cbn [foldl]; [by apply writes_refl|].
  apply (writes_app [v] vs old nv (write_val m old kind b v 0 nv)).
  - apply writes_val; [done..|]. apply H. left.
  - apply IH; [by rewrite write_val_length|]. intros w Hw. apply H. by right.
Qed.
Lemma writes_insts_from old b ins pos nv : length nv = n -> (forall i, i ∈ ins -> in_result i = 0 \/ in_result i ∈ doc) ->
  writes (map in_result ins) old nv
    (foldl (fun '(pos, nv) i => (pos + 1, write_val m old VDEF_INST b (in_result i) pos nv)) (pos, nv) ins).2.
Proof using S.
  revert nv pos. induction ins as [|i ins IH]; intros nv pos L H; cbn [foldl map]; [by apply writes_refl|].
  apply (writes_app [in_result i] (map in_result ins) old nv (write_val m old VDEF_INST b (in_result i) pos nv)).
  - apply writes_val; [done..|]. apply H. left.
  - apply IH; [by rewrite write_val_length|]. intros w Hw. apply H. by right.
Qed.
Lemma writes_insts old b ins nv : length nv = n -> (forall i, i ∈ ins -> in_result i = 0 \/ in_result i ∈ doc) ->
  writes (map in_result ins) old nv (write_insts m old b ins nv).
Proof using S. apply writes_insts_from. Qed.
Lemma writes_blocks old bs b nv : length nv = n ->
  (forall v, v ∈ concat (map (fun b => b_params b ++ map in_result (b_insts b)) bs) -> v = 0 \/ v ∈ doc) ->
  writes (concat (map (fun b => b_params b ++ map in_result (b_insts b)) bs)) old nv (write_blocks m old b bs nv).
Proof using S.
  revert b nv. induction bs as [|c bs IH]; intros b nv L H; cbn [write_blocks map concat]; [by apply writes_refl|].
  assert (Hp : writes (b_params c) old nv (write_params m old VDEF_BPARAM b (b_params c) nv)).
  { apply writes_params; [done..|]. intros v Hv. apply H. cbn. rewrite !elem_of_app. tauto. }
  assert (Hi : writes (map in_result (b_insts c)) old (write_params m old VDEF_BPARAM b (b_params c) nv)
             (write_insts m old b (b_insts c) (write_params m old VDEF_BPARAM b (b_params c) nv))).
  { apply writes_insts; [apply Hp|]. intros i Hi. apply H. cbn. rewrite !elem_of_app. left. right.
    apply list_elem_of_In, in_map, list_elem_of_In. done. }
  apply (writes_app _ _ old nv (write_insts m old b (b_insts c) (write_params m old VDEF_BPARAM b (b_params c) nv))).
  - by apply (writes_app _ _ old nv _ _ Hp).
  - apply IH; [apply Hi|]. intros v Hv. apply H. cbn. rewrite elem_of_app. by right.
Qed.

(** ** The result *)
Lemma renumber_unfold : ir_func_renumber f =
  mkFunc (f_ret f) (f_variadic f) (map (fresh_id m) (f_param_vals f))
    (map (renumber_block m (f_nvals f)) (f_blocks f))
    (write_blocks m (f_vals f) 1 (f_blocks f)
       (write_params m (f_vals f) VDEF_FPARAM 1 (f_param_vals f) (replicate n zero_val)))
    (map (fun old => if (1 <=? old) && (old <=? f_nvals f) then numbered m old else 0) (f_slots f)).
Proof using S.
  unfold ir_func_renumber. pose proof numbers as (En & _). destruct (number_func f) as [m' next]. cbn [fst snd] in *.
  by rewrite En, Nat2Z.id.
Qed.
#[local] Notation "'f''" := (ir_func_renumber f).

Lemma listed v : v ∈ f_param_vals f ++ defined_ids f -> v = 0 \/ v ∈ doc.
Proof. intros H. destruct (Z.eq_dec v 0); [by left|right]. by apply elem_nonzero. Qed.

Lemma renumber_writes : writes (f_param_vals f ++ defined_ids f) (f_vals f) (replicate n zero_val) (f_vals f').
Proof using S.
  rewrite renumber_unfold. cbn [f_vals].
  assert (P : writes (f_param_vals f) (f_vals f) (replicate n zero_val)
            (write_params m (f_vals f) VDEF_FPARAM 1 (f_param_vals f) (replicate n zero_val))).
  { apply writes_params; [done|apply length_replicate|]. intros v Hv. apply listed. apply elem_of_app. by left. }
  apply (writes_app _ _ _ _ _ _ P). apply writes_blocks; [apply P|]. intros v Hv. apply listed. apply elem_of_app. by right.
Qed.

Lemma renumber_nvals : f_nvals f' = Z.of_nat n.
Proof using S. unfold f_nvals. by rewrite (proj1 renumber_writes). Qed.
Lemma renumber_type v : v ∈ doc -> ir_value_type (f_vals f') (numbered m v) = ir_value_type (f_vals f) v.
Proof using S.
  intros H. destruct (proj2 renumber_writes v H) as (vi & E & <- & _); [left; apply elem_nonzero in H; tauto|].
  pose proof (numbered_range v H) as R. unfold ir_value_type. rewrite (proj1 renumber_writes).
  rewrite (proj2 (Z.eqb_neq (numbered m v) 0)), (proj2 (Z.ltb_ge _ _)) by lia. cbn [orb]. by rewrite E.
Qed.
(** No slot of the new table is left without a definition. *)
Lemma renumber_defined k vi : f_vals f' !! k = Some vi -> vi_def_kind vi <> VDEF_NONE.
Proof using S.
  intros Hk. pose proof (lookup_lt_Some _ _ _ Hk) as L. rewrite (proj1 renumber_writes) in L.
  destruct (lookup_lt_is_Some_2 doc k L) as [v Hv]. assert (Hd : v ∈ doc) by by eapply list_elem_of_lookup_2.
  destruct (proj2 renumber_writes v Hd) as (vi' & E & _ & N); [left; apply elem_nonzero in Hd; tauto|].
  rewrite (numbered_in k v Hv) in E. replace (Z.to_nat (Z.of_nat k + 1 - 1)) with k in E by lia. congruence.
Qed.

Lemma nonzero_map (g : Z -> Z) l : (forall v, v ∈ l -> v <> 0 -> g v <> 0) -> g 0 = 0 ->
  nonzero (map g l) = map g (nonzero l).
Proof.
  intros H G0. induction l as [|v l IH]; [done|]. cbn [map nonzero List.filter]. destruct (Z.eqb_spec v 0) as [->|N]; cbn [negb].
  - rewrite G0. cbn [negb Z.eqb]. apply IH. intros w Hw. apply H. by right.
  - rewrite (proj2 (Z.eqb_neq (g v) 0)) by (apply H; [left|done]). cbn [negb map]. f_equal. apply IH. intros w Hw. apply H. by right.
Qed.

Lemma renumber_listed : f_param_vals f' ++ defined_ids f' = map (fresh_id m) (f_param_vals f ++ defined_ids f).
Proof using S.
  rewrite renumber_unfold. unfold defined_ids. cbn [f_param_vals f_blocks]. rewrite map_app. f_equal.
  rewrite concat_map, !map_map. f_equal. apply map_ext. intros b. cbn [renumber_block b_params b_insts].
  rewrite map_app. f_equal. rewrite !map_map. by apply map_ext.
Qed.

Lemma renumber_doc : doc_ids f' = map (numbered m) doc.
Proof using S.
  unfold doc_ids at 1. rewrite renumber_listed, nonzero_map.
  - apply map_ext_in. intros v Hv. apply fresh_in. by apply list_elem_of_In.
  - intros v Hv N. rewrite fresh_in by (by apply elem_nonzero). pose proof (numbered_range v ltac:(by apply elem_nonzero)). lia.
  - done.
Qed.

Lemma renumber_doc_lookup k : (k < n)%nat -> doc_ids f' !! k = Some (Z.of_nat k + 1).
Proof using S.
  intros Hk. rewrite renumber_doc, list_lookup_fmap. destruct (lookup_lt_is_Some_2 doc k Hk) as [v Hv].
  rewrite Hv. cbn. by rewrite (numbered_in k v Hv).
Qed.
Lemma renumber_doc_length : length (doc_ids f') = n.
Proof using S. by rewrite renumber_doc, length_map. Qed.
Lemma renumber_doc_seq : doc_ids f' = seqZ 1 (f_nvals f').
Proof using S.
  apply list_eq. intros k. rewrite renumber_nvals. destruct (decide (k < n)%nat) as [L|G].
  - rewrite renumber_doc_lookup, lookup_seqZ_lt by lia. f_equal. lia.
  - rewrite lookup_seqZ_ge, lookup_ge_None_2 by (rewrite ?renumber_doc_length; lia). done.
Qed.

(** ** Uses and meaning *)
Context (U : forall op, uses f op -> o_kind op = IROP_VALUE -> o_a op ∈ doc).

Lemma renumber_operand_value op : o_kind op = IROP_VALUE -> o_a op ∈ doc ->
  renumber_operand m (f_nvals f) op = mkOp IROP_VALUE (o_type op) (o_argflags op) (o_sym op) (numbered m (o_a op)) (o_b op).
Proof using S.
  intros K H. unfold renumber_operand, is_kind. rewrite K, bool_decide_eq_true_2 by done.
  pose proof (ss_range _ S _ H). pose proof (ss_u32 _ S). unfold u32. rewrite Z.mod_small by lia.
  by rewrite !(proj2 (Z.leb_le _ _)) by lia.
Qed.
Lemma renumber_operand_other op : o_kind op <> IROP_VALUE -> renumber_operand m (f_nvals f) op = op.
Proof. intros K. unfold renumber_operand, is_kind. by rewrite bool_decide_eq_false_2. Qed.
Lemma renumber_operand_type op : o_type (renumber_operand m (f_nvals f) op) = o_type op.
Proof. unfold renumber_operand. by destruct (is_kind _ _). Qed.

Section meaning.
  Context (sym_addr : Z -> Z) (fpu : FpTarget) (env env' : Env)
    (E : forall v, v ∈ doc -> env' (numbered m v) = env v).

Lemma renumber_reads op : (o_kind op = IROP_VALUE -> o_a op ∈ doc) ->
  reads sym_addr env' (renumber_operand m (f_nvals f) op) = reads sym_addr env op.
Proof using S E.
  intros H. destruct (decide (o_kind op = IROP_VALUE)) as [K|K].
  - rewrite renumber_operand_value by auto. unfold reads. cbn. rewrite K. by apply E, H.
  - rewrite renumber_operand_other by done. unfold reads. by destruct (o_kind op).
Qed.
Lemma renumber_ops ops : (forall op, op ∈ ops -> o_kind op = IROP_VALUE -> o_a op ∈ doc) ->
  Forall2 (fun a a' => o_type a' = o_type a /\ reads sym_addr env' a' = reads sym_addr env a) ops
    (map (renumber_operand m (f_nvals f)) ops).
Proof using S E.
  induction ops as [|op ops IH]; intros H; cbn [map]; constructor.
  - split; [apply renumber_operand_type|]. apply renumber_reads. apply H. left.
  - apply IH. intros a Ha. apply H. by right.
Qed.

Lemma renumber_den i : i ∈ insts f -> forall r,
  den sym_addr fpu env' (renumber_inst m (f_nvals f) i) r <-> den sym_addr fpu env i r.
Proof using S U E.
  intros Hi r.
  assert (H : Forall2 (fun a a' => o_type a' = o_type a /\ reads sym_addr env' a' = reads sym_addr env a) (in_ops i)
              (map (renumber_operand m (f_nvals f)) (in_ops i))).
  { apply renumber_ops. intros op Ho. apply U. left. by exists i. }
  assert (R : forall vs, result_of fpu (renumber_inst m (f_nvals f) i) vs = result_of fpu i vs).
  { intros vs. unfold result_of. cbn [renumber_inst in_op in_type in_subop].
    replace (o_type (op_at (renumber_inst m (f_nvals f) i) 0)) with (o_type (op_at i 0)); [done|].
    unfold op_at. cbn [renumber_inst in_ops]. destruct (in_ops i); [done|]. cbn. by rewrite renumber_operand_type. }
  unfold den. cbn [renumber_inst in_ops].
  assert (F : forall vs, Forall2 (reads sym_addr env') (map (renumber_operand m (f_nvals f)) (in_ops i)) vs <->
                         Forall2 (reads sym_addr env) (in_ops i) vs).
  { clear R Hi. induction H as [|a a' l l' [_ Ha] H IH]; intros vs; [split; intros X; inversion X; constructor|].
    split; intros X; inversion X; subst; constructor; try (by apply IH); congruence. }
  split; intros (vs & Hvs & Rv); exists vs; (split; [by apply F|]); [by rewrite <- R|by rewrite R].
Qed.

Lemma renumber_same_inst i : i ∈ insts f -> same_code sym_addr fpu env env' i (renumber_inst m (f_nvals f) i).
Proof using S U E.
  intros Hi. split; [done|]. split; [done|]. split; [done|]. split; [done|]. split; [done|]. split; [|split].
  - apply renumber_ops. intros op Ho. apply U. left. by exists i.
  - cbn [renumber_inst in_edges].
    assert (H : forall e, e ∈ in_edges i -> e ∈ edges f) by (intros e; by apply elem_edges).
    induction (in_edges i) as [|e es IH]; cbn [map]; constructor; [|apply IH; intros; apply H; by right].
    split; [done|]. split; [done|]. apply renumber_ops. intros op Ho. apply U. right. exists e. split; [apply H; left|done].
  - by apply renumber_den.
Qed.

Lemma renumber_same_code : Forall2 (same_code sym_addr fpu env env') (insts f) (insts f').
Proof using S U E.
  assert (Ei : insts f' = map (renumber_inst m (f_nvals f)) (insts f)).
  { rewrite renumber_unfold. unfold insts. cbn [f_blocks]. rewrite concat_map, !map_map. by f_equal. }
  rewrite Ei. assert (H : forall i, i ∈ insts f -> i ∈ insts f) by done. revert H. generalize (insts f) at 1 3 4 as l.
  intros l H. induction l as [|i l IH]; cbn [map]; constructor; [apply renumber_same_inst, H; left|apply IH; intros; apply H; by right].
Qed.
End meaning.
End renumber.

(** ** Renumbering again changes nothing *)
Section again.
  Context (f : IrFunc) (S : ssa f) (U : forall op, uses f op -> o_kind op = IROP_VALUE -> o_a op ∈ doc_ids f).
  #[local] Notation "'m'" := (number_func f).1.
  #[local] Notation "'doc'" := (doc_ids f).
  #[local] Notation "'f''" := (ir_func_renumber f).
  #[local] Notation "'m''" := (number_func (ir_func_renumber f)).1.

Lemma doc_length : Z.of_nat (length doc) <= f_nvals f.
Proof using S.
  assert (L : (length doc <= length (seqZ 1 (f_nvals f)))%nat).
  { apply NoDup_incl_length; [apply NoDup_ListNoDup, S|]. intros v Hv. apply list_elem_of_In, elem_of_seqZ.
    pose proof (ss_range _ S v ltac:(by apply list_elem_of_In)). lia. }
  rewrite length_seqZ in L. unfold f_nvals in *. lia.
Qed.

Lemma ssa_again : ssa f'.
Proof using S.
  split.
  - rewrite renumber_doc_seq by done. apply NoDup_seqZ.
  - intros v. rewrite renumber_doc_seq, elem_of_seqZ by done. lia.
  - rewrite renumber_nvals by done. pose proof doc_length. pose proof (ss_u32 _ S). lia.
Qed.

Lemma numbered_again k : 1 <= k <= Z.of_nat (length doc) -> numbered m' k = k.
Proof using S.
  intros H. rewrite (numbered_in f' ssa_again (Z.to_nat (k - 1)) k); [lia|].
  rewrite renumber_doc_lookup by (done || lia). f_equal. lia.
Qed.
Lemma doc_again k : k ∈ doc_ids f' <-> 1 <= k <= Z.of_nat (length doc).
Proof using S. rewrite renumber_doc_seq, elem_of_seqZ, renumber_nvals by done. lia. Qed.

Lemma fresh_again v : v = 0 \/ v ∈ doc -> fresh_id m' (fresh_id m v) = fresh_id m v.
Proof using S.
  intros [->|H]; [done|]. rewrite (fresh_in f S v H). pose proof (numbered_range f S v H).
  rewrite fresh_in by (by apply ssa_again || apply doc_again; lia). by apply numbered_again.
Qed.
Lemma map_fresh_again l : (forall v, v ∈ l -> v ∈ f_param_vals f ++ defined_ids f) ->
  map (fresh_id m') (map (fresh_id m) l) = map (fresh_id m) l.
Proof using S.
  intros H. rewrite map_map. apply map_ext_in. intros v Hv. apply fresh_again, listed, H. by apply list_elem_of_In.
Qed.

Lemma operand_again op : (o_kind op = IROP_VALUE -> o_a op ∈ doc) ->
  renumber_operand m' (f_nvals f') (renumber_operand m (f_nvals f) op) = renumber_operand m (f_nvals f) op.
Proof using S.
  intros H. destruct (decide (o_kind op = IROP_VALUE)) as [K|K].
  - rewrite (renumber_operand_value f S op K (H K)). pose proof (numbered_range f S _ (H K)) as R.
    rewrite (renumber_operand_value f' ssa_again) by (done || by apply doc_again). cbn [o_type o_argflags o_sym o_a o_b].
    by rewrite numbered_again.
  - rewrite (renumber_operand_other f op K). by apply renumber_operand_other.
Qed.
Lemma operands_again ops : (forall op, op ∈ ops -> o_kind op = IROP_VALUE -> o_a op ∈ doc) ->
  map (renumber_operand m' (f_nvals f')) (map (renumber_operand m (f_nvals f)) ops) = map (renumber_operand m (f_nvals f)) ops.
Proof using S.
  intros H. rewrite map_map. apply map_ext_in. intros op Ho. apply operand_again, H. by apply list_elem_of_In.
Qed.

Lemma block_listed b v : b ∈ f_blocks f -> v ∈ b_params b ++ map in_result (b_insts b) -> v ∈ f_param_vals f ++ defined_ids f.
Proof. intros Hb Hv. apply elem_of_app. right. by apply (elem_defined f b). Qed.

Lemma inst_again i : i ∈ insts f ->
  renumber_inst m' (f_nvals f') (renumber_inst m (f_nvals f) i) = renumber_inst m (f_nvals f) i.
Proof using S U.
  intros Hi. destruct (insts_inv f i Hi) as (b & Hb & Hib). unfold renumber_inst at 1 3.
  cbn [renumber_inst in_op in_type in_subop in_flags in_result in_aux in_ops in_edges]. f_equal.
  - apply fresh_again, listed, (block_listed b); [done|]. apply elem_of_app. right. apply list_elem_of_In, in_map, list_elem_of_In. done.
  - apply operands_again. intros op Ho. apply U. left. by exists i.
  - rewrite map_map. apply map_ext_in. intros e He. unfold set_edge_args. cbn [e_target e_case e_args]. f_equal.
    apply operands_again. intros op Ho. apply U. right. exists e. split; [|done]. apply (elem_edges f i); [done|]. by apply list_elem_of_In.
Qed.
Lemma blocks_again : map (renumber_block m' (f_nvals f')) (map (renumber_block m (f_nvals f)) (f_blocks f)) =
  map (renumber_block m (f_nvals f)) (f_blocks f).
Proof using S U.
  rewrite map_map. apply map_ext_in. intros b Hb%list_elem_of_In. unfold renumber_block. cbn [b_params b_insts]. f_equal.
  - apply map_fresh_again. intros v Hv. apply (block_listed b); [done|]. apply elem_of_app. by left.
  - rewrite map_map. apply map_ext_in. intros i Hi%list_elem_of_In. apply inst_again. by apply (elem_insts f b).
Qed.

(** The value table is written the same way. *)
Lemma write_val_again kind b v pos nv : v = 0 \/ v ∈ doc ->
  write_val m' (f_vals f') kind b (fresh_id m v) pos nv = write_val m (f_vals f) kind b v pos nv.
Proof using S.
  intros [->|H]; [done|]. unfold write_val. cbv zeta. rewrite (fresh_in f S v H).
  pose proof (numbered_range f S v H) as R. rewrite (proj2 (Z.eqb_neq v 0) (doc_not_zero f S v H)).
  rewrite (proj2 (Z.eqb_neq (numbered m v) 0)), numbered_again, (renumber_type f S v H) by lia.
  by rewrite (proj2 (Z.eqb_neq (numbered m v) 0)) by lia.
Qed.
Lemma write_params_again kind b vs nv : (forall v, v ∈ vs -> v ∈ f_param_vals f ++ defined_ids f) ->
  write_params m' (f_vals f') kind b (map (fresh_id m) vs) nv = write_params m (f_vals f) kind b vs nv.
Proof using S.
  unfold write_params. revert nv. induction vs as [|v vs IH]; intros nv H; [done|]. cbn [map foldl].
  rewrite write_val_again by (apply listed, H; left). apply IH. intros w Hw. apply H. by right.
Qed.
Lemma write_insts_again b ins nv : (forall i, i ∈ ins -> in_result i ∈ f_param_vals f ++ defined_ids f) ->
  write_insts m' (f_vals f') b (map (renumber_inst m (f_nvals f)) ins) nv = write_insts m (f_vals f) b ins nv.
Proof using S.
  unfold write_insts. generalize (0, nv) as s. intros s. revert s. induction ins as [|i ins IH]; intros [pos nv'] H; [done|].
  cbn [map foldl renumber_inst in_result]. rewrite write_val_again by (apply listed, H; left). apply IH. intros w Hw. apply H. by right.
Qed.
Lemma write_blocks_again bs b nv : (forall c, c ∈ bs -> c ∈ f_blocks f) ->
  write_blocks m' (f_vals f') b (map (renumber_block m (f_nvals f)) bs) nv = write_blocks m (f_vals f) b bs nv.
Proof using S.
  revert b nv. induction bs as [|c bs IH]; intros b nv H; [done|]. cbn [map write_blocks renumber_block b_params b_insts].
  assert (Hc : c ∈ f_blocks f) by (apply H; left).
  rewrite write_params_again, write_insts_again.
  - apply IH. intros d Hd. apply H. by right.
  - intros i Hi. apply (block_listed c); [done|]. apply elem_of_app. right. apply list_elem_of_In, in_map, list_elem_of_In. done.
  - intros v Hv. apply (block_listed c); [done|]. apply elem_of_app. by left.
Qed.

(** The fields of the renumbered function. *)
Lemma renumber_fields : f_ret f' = f_ret f /\ f_variadic f' = f_variadic f /\
  f_param_vals f' = map (fresh_id m) (f_param_vals f) /\ f_blocks f' = map (renumber_block m (f_nvals f)) (f_blocks f) /\
  f_vals f' = write_blocks m (f_vals f) 1 (f_blocks f)
       (write_params m (f_vals f) VDEF_FPARAM 1 (f_param_vals f) (replicate (length doc) zero_val)) /\
  f_slots f' = map (fun old => if (1 <=? old) && (old <=? f_nvals f) then numbered m old else 0) (f_slots f).
Proof using S. by rewrite (renumber_unfold f S). Qed.

Lemma slots_again : map (fun old => if (1 <=? old) && (old <=? f_nvals f') then numbered m' old else 0) (f_slots f') = f_slots f'.
Proof using S.
  destruct renumber_fields as (_ & _ & _ & _ & _ & ->). rewrite map_map. apply map_ext. intros old.
  destruct ((1 <=? old) && (old <=? f_nvals f)); [|done]. rewrite renumber_nvals by done.
  destruct (decide (old ∈ doc)) as [H|H].
  - pose proof (numbered_range f S old H). rewrite !(proj2 (Z.leb_le _ _)) by lia. cbn [andb]. by apply numbered_again.
  - by rewrite (numbered_out f S old H).
Qed.

Lemma renumber_again : ir_func_renumber f' = f'.
Proof using S U.
  destruct renumber_fields as (Er & Ev & Ep & Eb & Et & _).
  rewrite (renumber_unfold f' ssa_again), slots_again, (renumber_doc_length f S), Eb, blocks_again, write_blocks_again by done.
  rewrite Ep, write_params_again, map_fresh_again, <- Et, <- Ep, <- Eb; [by destruct f'| |];
    intros v Hv; apply elem_of_app; by left.
Qed.
End again.

(** ** Properties of the code *)
