(* ===== verification/IrExec.v ===== *)
(** Execution of a function of the intermediate representation, the yardstick
    of the passes that delete code or change control flow.

    A state is the rest of the current block, the environment and the world
    (memory and everything outside). Scalar operations compute what [IrSem]
    says. The other operations are those of a [Machine], which sees an
    instruction without the names of its values: an observing one (an unordered
    load, an address, a vector operation) reads the world and may change
    nothing, an effectful one changes it. Two functions are equivalent when
    they return the same values in the same worlds and pass through the same
    worlds. *)
From stdpp Require Import gmap relations.
From S2P Require Import Prelude.
From S2P Require Import Ir.
From S2P Require Import IrSem.
From S2P Require Import IrValues.
#[local] Open Scope Z_scope.

(** ** Instructions without names *)
Record Shape := mkShape {
  s_op : IrOp; s_type : IrType; s_subop : Z; s_flags : Z; s_aux : Z; s_ops : list IrOperand;
}.
Definition nameless (op : IrOperand) : IrOperand :=
  if is_kind (o_kind op) IROP_VALUE then mkOp IROP_VALUE (o_type op) (o_argflags op) (o_sym op) 0 (o_b op) else op.
Definition shape (i : IrInst) : Shape :=
  mkShape (in_op i) (in_type i) (in_subop i) (in_flags i) (in_aux i) (map nameless (in_ops i)).

Record Machine := {
  World : Type;
  sym_addr : Z -> Z;
  fpu : FpTarget;
  observes : Shape -> list Z -> World -> Den;
  effects : Shape -> list Z -> World -> Z -> World -> Prop;
}.

(** ** The classes of instructions *)
Definition scalar (i : IrInst) : bool := value_op (in_op i) && negb (ir_type_is_vector (in_type i)).
(** Volatile and seq_cst accesses are effects. *)
Definition ordered (i : IrInst) : bool := negb (Z.land (in_flags i) 3 =? 0).
Definition observing (i : IrInst) : bool :=
  match in_op i with
  | IR_ALLOCA | IR_LOAD => negb (ordered i)
  | IR_VSPLAT | IR_VEXTRACT | IR_VREDUCE_ADD | IR_VREDUCE_MUL | IR_VREDUCE_AND | IR_VREDUCE_OR | IR_VREDUCE_XOR => true
  | o => value_op o && ir_type_is_vector (in_type i)
  end.
Definition effectful (i : IrInst) : bool := negb (is_terminator (in_op i)) && negb (scalar i) && negb (observing i).

(** The edge a terminator takes. *)
Fixpoint case_edge (w v : Z) (es : list IrEdge) (k : nat) : nat :=
  match es with
  | [] => 0
  | e :: es => if e_case e mod 2 ^ w =? v then k else case_edge w v es (Datatypes.S k)
  end.
Definition taken_edge (i : IrInst) (vs : list Z) : option nat :=
  match in_op i, vs with
  | IR_BR, _ => Some 0%nat
  | IR_CONDBR, [c] => Some (if c =? 0 then 1%nat else 0%nat)
  | IR_SWITCH, [v] => Some (case_edge (type_bits (o_type (op_at i 0))) v (drop 1 (in_edges i)) 1)
  | _, _ => None
  end.

(** ** Steps *)
Section exec.
  Context (M : Machine).

Inductive State :=
| Running (ins : list IrInst) (env : Env) (w : World M)
| Finished (vs : list Z) (w : World M).

Definition assign (env : Env) (id : Z) (d : Den) : Env := if id =? 0 then env else bind env id d.
Definition observed (env : Env) (w : World M) (i : IrInst) : Den :=
  fun r => exists vs, Forall2 (reads (sym_addr M) env) (in_ops i) vs /\ observes M (shape i) vs w r.

Inductive step (f : IrFunc) : State -> State -> Prop :=
| step_scalar i ins env w : scalar i = true ->
    step f (Running (i :: ins) env w) (Running ins (assign env (in_result i) (den (sym_addr M) (fpu M) env i)) w)
| step_observe i ins env w : observing i = true ->
    step f (Running (i :: ins) env w) (Running ins (assign env (in_result i) (observed env w i)) w)
| step_effect i ins env w vs r w' : effectful i = true ->
    Forall2 (reads (sym_addr M) env) (in_ops i) vs -> effects M (shape i) vs w r w' ->
    step f (Running (i :: ins) env w) (Running ins (assign env (in_result i) (eq r)) w')
| step_branch i ins env w vs k e b : Forall2 (reads (sym_addr M) env) (in_ops i) vs ->
    taken_edge i vs = Some k -> in_edges i !! k = Some e -> ir_block f (e_target e) = Some b ->
    step f (Running (i :: ins) env w) (Running (b_insts b) (bind_args (sym_addr M) env (b_params b) (e_args e)) w)
| step_ret i ins env w vs : in_op i = IR_RET -> Forall2 (reads (sym_addr M) env) (in_ops i) vs ->
    step f (Running (i :: ins) env w) (Finished vs w).

(** The entry: parameters hold the arguments, other values nothing yet. *)
Definition start_env (f : IrFunc) (args : list Z) : Env :=
  fold_right (fun pa env => assign env pa.1 (eq pa.2)) (fun _ _ => False) (zip (f_param_vals f) args).
Definition start (f : IrFunc) (args : list Z) (w : World M) : State :=
  Running (match f_blocks f with b :: _ => b_insts b | [] => [] end) (start_env f args) w.

Definition returns (f : IrFunc) (args : list Z) (w : World M) (vs : list Z) (w' : World M) : Prop :=
  rtc (step f) (start f args w) (Finished vs w').
Definition visits (f : IrFunc) (args : list Z) (w : World M) (w' : World M) : Prop :=
  exists ins env, rtc (step f) (start f args w) (Running ins env w').
End exec.
Arguments Running {M}.
Arguments Finished {M}.

Definition equivalent (f g : IrFunc) : Prop := forall (M : Machine) args (w : World M),
  (forall vs w', returns M f args w vs w' <-> returns M g args w vs w') /\
  (forall w', visits M f args w w' <-> visits M g args w w').

Lemma equivalent_refl f : equivalent f f.
Proof. by intros M args w. Qed.
Lemma equivalent_trans f g h : equivalent f g -> equivalent g h -> equivalent f h.
Proof.
  intros H1 H2 M args w. destruct (H1 M args w) as [R1 V1], (H2 M args w) as [R2 V2].
  split; [intros vs w'; by rewrite R1|intros w'; by rewrite V1].
Qed.

(** ** A proof principle: a simulation in each direction *)
Section simulation.
  Context (M : Machine) (f g : IrFunc) (R : State M -> State M -> Prop).
Definition shows (s t : State M) : Prop :=
  match s, t with
  | Running _ _ w, Running _ _ w' => w = w'
  | Finished vs w, Finished vs' w' => vs = vs' /\ w = w'
  | _, _ => False
  end.
Definition simulates : Prop :=
  (forall s t, R s t -> shows s t) /\
  (forall s t s', R s t -> step M f s s' -> exists t', rtc (step M g) t t' /\ R s' t').
Lemma simulates_rtc s t s' : simulates -> R s t -> rtc (step M f) s s' -> exists t', rtc (step M g) t t' /\ R s' t'.
Proof.
  intros [_ H] Hr X. revert t Hr. induction X as [s|s s1 s' X1 X IH]; intros t Hr; [by exists t|].
  destruct (H s t s1 Hr X1) as (t1 & T1 & R1). destruct (IH t1 R1) as (t' & T' & R'). exists t'. split; [by etrans|done].
Qed.
End simulation.

Lemma simulation_forward M f g (R : State M -> State M -> Prop) args w : simulates M f g R ->
  R (start M f args w) (start M g args w) ->
  (forall vs w', returns M f args w vs w' -> returns M g args w vs w') /\
  (forall w', visits M f args w w' -> visits M g args w w').
Proof.
  intros H H0. split.
  - intros vs w' X. destruct (simulates_rtc M f g R _ _ _ H H0 X) as ([|vs' w''] & T & R'); apply H in R'; [done|].
    destruct R' as [-> ->]. done.
  - intros w' (ins & env & X). destruct (simulates_rtc M f g R _ _ _ H H0 X) as ([ins' env' w''|] & T & R'); apply H in R'; [|done].
    cbn in R'. subst. by exists ins', env'.
Qed.

(** Functions related by a relation that each side can follow. *)
Lemma bisimilar f g :
  (forall M args (w : World M), exists R : State M -> State M -> Prop, R (start M f args w) (start M g args w) /\
     simulates M f g R /\ simulates M g f (fun t s => R s t)) -> equivalent f g.
Proof.
  intros H M args w. destruct (H M args w) as (R & H0 & F & B).
  destruct (simulation_forward M f g R args w F H0) as [F1 F2].
  destruct (simulation_forward M g f (fun t s => R s t) args w B H0) as [B1 B2].
  split; [intros vs w'; split; [apply F1|apply B1]|intros w'; split; [apply F2|apply B2]].
Qed.

(** Step for step. *)
Section lockstep.
  Context (M : Machine).
Definition lockstep (f g : IrFunc) (R : State M -> State M -> Prop) : Prop :=
  (forall s t, R s t -> shows M s t) /\
  (forall s t s', R s t -> step M f s s' -> exists t', step M g t t' /\ R s' t').
Lemma lockstep_simulates f g R : lockstep f g R -> simulates M f g R.
Proof. intros [H S]. split; [done|]. intros s t s' r X. destruct (S s t s' r X) as (t' & T & r'). exists t'. split; [by apply rtc_once|done]. Qed.

(** No execution gets stuck. *)
Definition goes_on (f : IrFunc) (s : State M) : Prop := (exists vs w, s = Finished vs w) \/ exists s', step M f s s'.
Definition safe (f : IrFunc) (args : list Z) (w : World M) : Prop := forall s, rtc (step M f) (start M f args w) s -> goes_on f s.

Lemma safe_simulated f g (R : State M -> State M -> Prop) args w : simulates M g f R -> R (start M g args w) (start M f args w) ->
  (forall t s, R t s -> goes_on f s -> goes_on g t) -> safe f args w -> safe g args w.
Proof.
  intros S H0 P Sf t X. destruct (simulates_rtc M g f R _ _ _ S H0 X) as (s & Y & r). by apply (P t s), Sf.
Qed.
Lemma lockstep_goes_on f g R s t : lockstep f g R -> R s t -> goes_on f s -> goes_on g t.
Proof.
  intros [Sh St] r [(vs & w & ->)|(s' & X)].
  - left. pose proof (Sh _ _ r) as H. destruct t as [|vs' w']; [done|]. by exists vs', w'.
  - right. destruct (St s t s' r X) as (t' & T & _). by exists t'.
Qed.
End lockstep.
(** Functions matched step for step are equivalent, and neither gets stuck where
    the other goes on. *)
Lemma lockstep_both f g :
  (forall M args (w : World M), exists R : State M -> State M -> Prop, R (start M f args w) (start M g args w) /\
     lockstep M f g R /\ lockstep M g f (fun t s => R s t)) ->
  equivalent f g /\ forall M args (w : World M), safe M f args w -> safe M g args w.
Proof.
  intros H. split.
  - apply bisimilar. intros M args w. destruct (H M args w) as (R & H0 & F & B). exists R. split; [done|]. by split; apply lockstep_simulates.
  - intros M args w. destruct (H M args w) as (R & H0 & F & B). apply (safe_simulated M f g (fun t s => R s t)); [by apply lockstep_simulates|done|].
    intros t s r. by apply (lockstep_goes_on M f g R).
Qed.

(** ** Instructions that differ in names only *)
Definition same_reads (sym_addr : Z -> Z) (env env' : Env) (a a' : IrOperand) : Prop :=
  nameless a' = nameless a /\ forall r, reads sym_addr env a r <-> reads sym_addr env' a' r.

Lemma nameless_type a : o_type (nameless a) = o_type a.
Proof. unfold nameless. by destruct (is_kind _ _). Qed.
Lemma nameless_kind a : o_kind (nameless a) = o_kind a.
Proof. unfold nameless, is_kind. destruct (bool_decide_reflect (o_kind a = IROP_VALUE)); [by cbn|done]. Qed.

Lemma same_reads_ops sa env env' ops ops' : Forall2 (same_reads sa env env') ops ops' ->
  map nameless ops' = map nameless ops /\ forall vs, Forall2 (reads sa env) ops vs <-> Forall2 (reads sa env') ops' vs.
Proof.
  induction 1 as [|a a' ops ops' [N E] _ [IN IH]]; [split; [done|]; intros vs; split; intros H; inversion H; constructor|]. split; [cbn; by f_equal|].
  intros vs. split; intros H; inversion H; subst; constructor; by (apply E || apply IH).
Qed.
Lemma shape_op_type i i' : shape i' = shape i -> o_type (op_at i' 0) = o_type (op_at i 0).
Proof.
  intros E. apply (f_equal s_ops) in E. cbn in E. unfold op_at. destruct (in_ops i) as [|a l], (in_ops i') as [|a' l']; try done.
  cbn in E |- *. injection E as E _. by rewrite <- (nameless_type a), <- (nameless_type a'), E.
Qed.
Lemma shape_result_of nb i i' vs : shape i' = shape i -> result_of nb i' vs = result_of nb i vs.
Proof.
  intros E. pose proof (shape_op_type i i' E) as T. unfold shape in E. injection E as E1 E2 E3 _ _ _.
  unfold result_of. by rewrite E1, E2, E3, T.
Qed.
Lemma shape_classes i i' : shape i' = shape i ->
  scalar i' = scalar i /\ observing i' = observing i /\ effectful i' = effectful i /\ in_op i' = in_op i.
Proof.
  unfold shape. intros E. injection E as E1 E2 _ E4 _ _. unfold effectful, scalar, observing, ordered. by rewrite E1, E2, E4.
Qed.
Lemma den_same sa nb env env' i i' : shape i' = shape i -> Forall2 (same_reads sa env env') (in_ops i) (in_ops i') ->
  forall r, den sa nb env i r <-> den sa nb env' i' r.
Proof.
  intros E H r. destruct (same_reads_ops _ _ _ _ _ H) as [_ F]. unfold den.
  split; intros (vs & Hvs & Rv); exists vs; (split; [by apply F|]).
  - by rewrite (shape_result_of nb i i' vs E).
  - by rewrite <- (shape_result_of nb i i' vs E).
Qed.
Lemma observed_same M env env' w i i' : shape i' = shape i -> Forall2 (same_reads (sym_addr M) env env') (in_ops i) (in_ops i') ->
  forall r, observed M env w i r <-> observed M env' w i' r.
Proof.
  intros E H r. destruct (same_reads_ops _ _ _ _ _ H) as [_ F]. unfold observed.
  split; intros (vs & Hvs & Rv); exists vs; (split; [by apply F|]); by rewrite ?E in *.
Qed.
Lemma case_edge_same w v es es' k : map e_case es' = map e_case es -> case_edge w v es' k = case_edge w v es k.
Proof.
  revert es' k. induction es as [|e es IH]; intros [|e' es'] k E; try done. cbn [map] in E. injection E as E1 E.
  cbn [case_edge]. by rewrite E1, (IH es').
Qed.
Lemma taken_same i i' vs : shape i' = shape i -> map e_case (in_edges i') = map e_case (in_edges i) ->
  taken_edge i' vs = taken_edge i vs.
Proof.
  intros E C. destruct (shape_classes i i' E) as (_ & _ & _ & O). unfold taken_edge. rewrite O, (shape_op_type i i' E).
  destruct (in_op i); try done. destruct vs as [|v [|]]; try done. f_equal. apply case_edge_same.
  by rewrite !skipn_map, C || (rewrite <- !skipn_map, C).
Qed.
