(* ===== verification/RenumberExec.v ===== *)
(** Renumbering the values of a function does not change what it does: the two
    functions step together, their environments equal up to the numbering. *)
From stdpp Require Import gmap relations.
From S2P Require Import Prelude.
From S2P Require Import Ir.
From S2P Require Import IrSem.
From S2P Require Import IrValues.
From S2P Require Import IrExec.
From S2P Require Import Renumber.
From S2P Require Import RenumberFacts.
#[local] Open Scope Z_scope.

Section renumber.
  Context (f : IrFunc) (S : ssa f) (U : forall op, uses f op -> o_kind op = IROP_VALUE -> o_a op ∈ doc_ids f).
  #[local] Notation "'m'" := (number_func f).1.
  #[local] Notation "'f''" := (ir_func_renumber f).
  #[local] Notation "'doc'" := (doc_ids f).
  #[local] Notation "'ren'" := (renumber_operand m (f_nvals f)).
  #[local] Notation "'rei'" := (renumber_inst m (f_nvals f)).
  Context (M : Machine).

Definition env_related (env env' : Env) : Prop := forall v, v ∈ doc -> forall r, env v r <-> env' (numbered m v) r.

Lemma nameless_renumber op : nameless (ren op) = nameless op.
Proof. unfold renumber_operand, nameless. destruct (is_kind (o_kind op) IROP_VALUE) eqn:K; cbn; by rewrite K. Qed.
Lemma shape_renumber i : shape (rei i) = shape i.
Proof.
  unfold shape. cbn [renumber_inst in_op in_type in_subop in_flags in_aux in_ops]. f_equal. rewrite map_map.
  apply map_ext. apply nameless_renumber.
Qed.
Lemma same_renumber env env' op : env_related env env' -> (o_kind op = IROP_VALUE -> o_a op ∈ doc) ->
  same_reads (sym_addr M) env env' op (ren op).
Proof using S.
  intros E H. split; [apply nameless_renumber|]. intros r. destruct (decide (o_kind op = IROP_VALUE)) as [K|K].
  - rewrite renumber_operand_value by auto. unfold reads. cbn [o_kind o_a]. rewrite K. by apply E, H.
  - rewrite renumber_operand_other by done. unfold reads. by destruct (o_kind op).
Qed.
Lemma same_renumber_ops env env' ops : env_related env env' -> (forall op, op ∈ ops -> uses f op) ->
  Forall2 (same_reads (sym_addr M) env env') ops (map ren ops).
Proof using S U.
  intros E H. induction ops as [|op ops IH]; cbn [map]; constructor.
  - apply same_renumber; [done|]. apply U, H. left.
  - apply IH. intros a Ha. apply H. by right.
Qed.

Lemma fresh_eq p v : p = 0 \/ p ∈ doc -> v ∈ doc -> fresh_id m p = numbered m v <-> p = v.
Proof using S.
  intros [->|Hp] Hv.
  - rewrite fresh_zero. pose proof (numbered_range f S v Hv). pose proof (doc_not_zero f S v Hv). lia.
  - rewrite (fresh_in f S p Hp). split; [by apply (numbered_inj f S)|by intros ->].
Qed.
Lemma env_assign env env' id d d' : env_related env env' -> id = 0 \/ id ∈ doc -> (forall r, d r <-> d' r) ->
  env_related (assign env id d) (assign env' (fresh_id m id) d').
Proof using S.
  intros E Hid D v Hv r. unfold assign, bind.
  destruct Hid as [->|Hid]; [by apply E|]. rewrite (fresh_in f S id Hid).
  pose proof (numbered_range f S id Hid). pose proof (doc_not_zero f S id Hid).
  destruct (Z.eqb_spec id 0), (Z.eqb_spec (numbered m id) 0); try lia.
  destruct (Z.eqb_spec v id) as [->|N]; [by rewrite Z.eqb_refl|].
  destruct (Z.eqb_spec (numbered m v) (numbered m id)) as [Eq|]; [|by apply E].
  destruct N. by apply (numbered_inj f S).
Qed.
Lemma env_bind_args env env' params args : env_related env env' -> (forall p, p ∈ params -> p = 0 \/ p ∈ doc) ->
  (forall op, op ∈ args -> uses f op) ->
  env_related (bind_args (sym_addr M) env params args)
    (bind_args (sym_addr M) env' (map (fresh_id m) params) (map ren args)).
Proof using S U.
  intros E. revert args. induction params as [|p params IH]; intros args Hp Ha v Hv r; [by apply E|].
  destruct args as [|a args]; [by apply E|]. unfold bind_args in *. cbn [map zip zip_with list_to_map foldr fst snd uncurry].
  destruct (decide (p = v)) as [->|N].
  - rewrite (proj2 (fresh_eq v v (Hp v ltac:(left)) Hv) eq_refl), !lookup_insert_eq.
    apply same_renumber; [done|]. apply U, Ha. left.
  - rewrite !lookup_insert_ne; [|by rewrite fresh_eq by (done || (apply Hp; left))|done].
    apply (IH args); [|intros op Ho; apply Ha; by right|done]. intros q Hq. apply Hp. by right.
Qed.

(** ** Matching states *)
Inductive renumbered : State M -> State M -> Prop :=
| ren_running ins env env' w : (forall i, i ∈ ins -> i ∈ insts f) -> env_related env env' ->
    renumbered (Running ins env w) (Running (map rei ins) env' w)
| ren_finished vs w : renumbered (Finished vs w) (Finished vs w).

Lemma renumber_block_at id : ir_block f' id = option_map (renumber_block m (f_nvals f)) (ir_block f id).
Proof using S.
  rewrite (renumber_unfold f S). unfold ir_block, f_nblocks. cbn [f_blocks]. rewrite length_map.
  destruct (_ || _); [done|]. by rewrite list_lookup_fmap.
Qed.
Lemma params_listed b p : b ∈ f_blocks f -> p ∈ b_params b -> p = 0 \/ p ∈ doc.
Proof. intros Hb Hp. apply listed, elem_of_app. right. apply (elem_defined f b); [done|]. apply elem_of_app. by left. Qed.
Lemma result_listed i : i ∈ insts f -> in_result i = 0 \/ in_result i ∈ doc.
Proof.
  intros Hi. destruct (insts_inv f i Hi) as (b & Hb & Hib). apply listed, elem_of_app. right.
  apply (elem_defined f b); [done|]. apply elem_of_app. right. apply list_elem_of_In, in_map. by apply list_elem_of_In.
Qed.


Lemma renumbered_ops i ins env env' : (forall j, j ∈ i :: ins -> j ∈ insts f) -> env_related env env' ->
  Forall2 (same_reads (sym_addr M) env env') (in_ops i) (in_ops (rei i)) /\ i ∈ insts f /\ (forall j, j ∈ ins -> j ∈ insts f).
Proof using S U.
  intros Hin E. split; [|split; [apply Hin; left|intros j Hj; apply Hin; by right]].
  apply same_renumber_ops; [done|]. intros op Ho. left. exists i. split; [apply Hin; left|done].
Qed.
Lemma renumbered_taken i vs : taken_edge (rei i) vs = taken_edge i vs.
Proof. apply taken_same; [apply shape_renumber|]. cbn [renumber_inst in_edges]. by rewrite map_map. Qed.
Lemma renumbered_jump i k e b env env' w : i ∈ insts f -> env_related env env' -> in_edges i !! k = Some e ->
  ir_block f (e_target e) = Some b ->
  in_edges (rei i) !! k = Some (set_edge_args e (map ren (e_args e))) /\
  ir_block f' (e_target e) = Some (renumber_block m (f_nvals f) b) /\
  renumbered (Running (b_insts b) (bind_args (sym_addr M) env (b_params b) (e_args e)) w)
    (Running (b_insts (renumber_block m (f_nvals f) b))
       (bind_args (sym_addr M) env' (b_params (renumber_block m (f_nvals f) b)) (map ren (e_args e))) w).
Proof using S U.
  intros Hi E He Hb. cbn [renumber_inst in_edges]. split; [by rewrite list_lookup_fmap, He|].
  split; [by rewrite renumber_block_at, Hb|]. pose proof (ir_block_elem f _ b Hb) as Hbf. cbn [renumber_block b_insts b_params].
  constructor; [intros j; by apply elem_insts|]. apply env_bind_args; [done|intros p; by apply params_listed|].
  intros op Ho. right. exists e. split; [|done]. apply (elem_edges f i); [done|]. by apply list_elem_of_lookup_2 in He.
Qed.

Lemma renumber_simulates : lockstep M f f' renumbered.
Proof using S U.
  split; [by intros s t [?|]|]. intros s t s' R X. destruct R as [ins env env' w Hin E|]; [|by inversion X].
  destruct ins as [|i ins']; [by inversion X|]. destruct (renumbered_ops i ins' env env' Hin E) as (F & Hi & Hr).
  destruct (same_reads_ops _ _ _ _ _ F) as [_ Fv].
  pose proof (shape_classes i (rei i) (shape_renumber i)) as (C1 & C2 & C3 & C4). cbn [map].
  inversion X as [? ? ? ? Sc|? ? ? ? Ob|? ? ? ? vs r w' Ef Hvs Hw|? ? ? ? vs k e b Hvs Tk He Hb|? ? ? ? vs Rt Hvs]; subst.
  - eexists. split; [apply step_scalar; by rewrite C1|]. constructor; [done|].
    apply env_assign; [done|by apply result_listed|]. apply den_same; [apply shape_renumber|done].
  - eexists. split; [apply step_observe; by rewrite C2|]. constructor; [done|].
    apply env_assign; [done|by apply result_listed|]. apply observed_same; [apply shape_renumber|done].
  - eexists. split; [apply (step_effect _ _ _ _ _ _ vs r w'); [by rewrite C3|by apply Fv|by rewrite shape_renumber]|].
    constructor; [done|]. by apply env_assign; [|apply result_listed|].
  - destruct (renumbered_jump i k e b env env' w Hi E He Hb) as (He' & Hb' & Rb). eexists. split; [|exact Rb].
    apply (step_branch M f' (rei i) _ _ _ vs k (set_edge_args e (map ren (e_args e))));
      [by apply Fv|by rewrite renumbered_taken|exact He'|exact Hb'].
  - eexists. split; [apply (step_ret _ _ _ _ _ _ vs); [by rewrite C4|by apply Fv]|]. constructor.
Qed.

Lemma renumber_simulated : lockstep M f' f (fun t s => renumbered s t).
Proof using S U.
  split; [by intros t s [?|]|]. intros t s t' R X. destruct R as [ins env env' w Hin E|]; [|by inversion X].
  destruct ins as [|i ins']; [by inversion X|]. destruct (renumbered_ops i ins' env env' Hin E) as (F & Hi & Hr).
  destruct (same_reads_ops _ _ _ _ _ F) as [_ Fv].
  pose proof (shape_classes i (rei i) (shape_renumber i)) as (C1 & C2 & C3 & C4). cbn [map] in X.
  inversion X as [? ? ? ? Sc|? ? ? ? Ob|? ? ? ? vs r w' Ef Hvs Hw|? ? ? ? vs k e b Hvs Tk He Hb|? ? ? ? vs Rt Hvs]; subst.
  - eexists. split; [apply step_scalar; by rewrite <- C1|]. constructor; [done|].
    apply env_assign; [done|by apply result_listed|]. apply den_same; [apply shape_renumber|done].
  - eexists. split; [apply step_observe; by rewrite <- C2|]. constructor; [done|].
    apply env_assign; [done|by apply result_listed|]. apply observed_same; [apply shape_renumber|done].
  - rewrite shape_renumber in Hw.
    eexists. split; [apply (step_effect _ _ _ _ _ _ vs r w'); [by rewrite <- C3|by apply Fv|done]|].
    constructor; [done|]. by apply env_assign; [|apply result_listed|].
  - rewrite renumbered_taken in Tk. cbn [renumber_inst in_edges] in He. rewrite list_lookup_fmap in He.
    destruct (in_edges i !! k) as [e0|] eqn:He0; [|done]. injection He as <-. cbn [set_edge_args e_target e_args] in *.
    rewrite renumber_block_at in Hb. destruct (ir_block f (e_target e0)) as [b0|] eqn:Hb0; [|done]. injection Hb as <-.
    destruct (renumbered_jump i k e0 b0 env env' w Hi E He0 Hb0) as (_ & _ & Rb). eexists. split; [|exact Rb].
    by apply (step_branch M f i _ _ _ vs k e0); [apply Fv| | |].
  - eexists. split; [apply (step_ret _ _ _ _ _ _ vs); [by rewrite <- C4|by apply Fv]|]. constructor.
Qed.

Lemma renumber_start args w : renumbered (start M f args w) (start M f' args w).
Proof using S.
  assert (B : f_blocks f' = map (renumber_block m (f_nvals f)) (f_blocks f)) by by rewrite (renumber_unfold f S).
  unfold start. rewrite B.
  assert (E : env_related (start_env f args) (start_env f' args)).
  { unfold start_env. rewrite (renumber_unfold f S). cbn [f_param_vals].
    assert (L : forall p, p ∈ f_param_vals f -> p = 0 \/ p ∈ doc) by (intros p Hp; apply listed, elem_of_app; by left).
    revert args L. generalize (f_param_vals f) as ps. induction ps as [|p ps IH]; intros args L; [by intros v Hv r|].
    destruct args as [|a args]; [by intros v Hv r|]. cbn [map zip zip_with fold_right fst snd].
    apply env_assign; [apply IH; intros q Hq; apply L; by right|apply L; left|done]. }
  destruct (f_blocks f) as [|b bs] eqn:Eb; cbn [map].
  - by apply (ren_running [] _ _ w); [intros j []%elem_of_nil|].
  - apply (ren_running (b_insts b)); [|done].
    intros j. apply elem_insts. rewrite Eb. left.
Qed.
End renumber.

(** A function and its renumbered form are equivalent, step for step. *)
Lemma renumber_lockstep f : ssa f -> (forall op, uses f op -> o_kind op = IROP_VALUE -> o_a op ∈ doc_ids f) ->
  equivalent f (ir_func_renumber f) /\ forall M args (w : World M), safe M f args w -> safe M (ir_func_renumber f) args w.
Proof.
  intros S U. apply lockstep_both. intros M args w. exists (renumbered f M).
  split; [by apply renumber_start|]. split; [by apply renumber_simulates|by apply renumber_simulated].
Qed.
Lemma renumber_equivalent f : ssa f -> (forall op, uses f op -> o_kind op = IROP_VALUE -> o_a op ∈ doc_ids f) ->
  equivalent f (ir_func_renumber f).
Proof. intros S U. by apply renumber_lockstep. Qed.

(** C13. Renumbering is canonical and changes names only. For a function in SSA
    form whose uses are defined, the values of the result are [1 .. n] in
    document order, each with the type it had; in the environment renamed along
    with the values every instruction has the operands, edges and meaning it
    had; the two functions execute alike, returning the same values in the same
    worlds; and a second renumbering changes nothing, value table and local
    slots included. *)
Theorem ir_func_renumber_correct f : ssa f -> (forall op, uses f op -> o_kind op = IROP_VALUE -> o_a op ∈ doc_ids f) ->
  let f' := ir_func_renumber f in
  doc_ids f' = seqZ 1 (f_nvals f') /\
  (forall k v, doc_ids f !! k = Some v -> ir_value_type (f_vals f') (Z.of_nat k + 1) = ir_value_type (f_vals f) v) /\
  (forall sym_addr fpu env, exists env',
     (forall k v, doc_ids f !! k = Some v -> env' (Z.of_nat k + 1) = env v) /\
     Forall2 (same_code sym_addr fpu env env') (insts f) (insts f')) /\
  equivalent f f' /\
  ir_func_renumber f' = f'.
Proof.
  intros S U f'. split; [by apply renumber_doc_seq|]. split; [|split; [|split; [by apply renumber_equivalent|by apply renumber_again]]].
  - intros k v Hk. rewrite <- (numbered_in f S k v Hk). apply renumber_type; [done|]. by apply list_elem_of_lookup_2 in Hk.
  - intros sym_addr fpu env.
    set (env' := fun k => match doc_ids f !! Z.to_nat (k - 1) with Some v => env v | None => fun _ => False end).
    assert (E : forall k v, doc_ids f !! k = Some v -> env' (Z.of_nat k + 1) = env v).
    { intros k v Hk. unfold env'. replace (Z.to_nat (Z.of_nat k + 1 - 1)) with k by lia. by rewrite Hk. }
    exists env'. split; [exact E|]. apply renumber_same_code; [done|done|].
    intros v [k Hk]%list_elem_of_lookup. rewrite (numbered_in f S k v Hk). by apply E.
Qed.

(** A function numbered out of order: its parameter is 3, its results 5 and 2. *)
Definition scattered : IrFunc :=
  let v id := mkOp IROP_VALUE IRT_I32 0 0 id 0 in
  mkFunc IRT_I32 false [3]
    [mkBlock [] [mkInst IR_IADD IRT_I32 0 0 5 0 [v 3; v 3] []; mkInst IR_XOR IRT_I32 0 0 2 0 [v 5; v 3] [];
                 mkInst IR_RET IRT_VOID 0 0 0 0 [v 2] []]]
    (replicate 5 (mkVal IRT_I32 VDEF_NONE 0 0)) [].
Lemma ir_func_renumber_witness :
  ssa scattered /\ doc_ids (ir_func_renumber scattered) = seqZ 1 (f_nvals (ir_func_renumber scattered)) /\
  f_nvals (ir_func_renumber scattered) = 3 /\ ir_func_renumber (ir_func_renumber scattered) = ir_func_renumber scattered.
Proof.
  assert (S : ssa scattered).
  { split.
    - change (doc_ids scattered) with [3; 5; 2]. apply (bool_decide_unpack _). vm_compute. exact I.
    - change (doc_ids scattered) with [3; 5; 2]. change (f_nvals scattered) with 5.
      intros v H%list_elem_of_In. cbn in H. lia.
    - reflexivity. }
  split; [exact S|].
  destruct (ir_func_renumber_correct scattered S) as (H1 & _ & _ & _ & H4).
  - intros op [(i & Hi & Ho)|(e & He & _)] _.
    + apply list_elem_of_In in Hi, Ho. apply list_elem_of_In. cbn in Hi. change (doc_ids scattered) with [3; 5; 2].
      destruct Hi as [<-|[<-|[<-|[]]]]; cbn in Ho; repeat (destruct Ho as [<-|Ho]; [cbn; tauto|]); destruct Ho.
    + apply list_elem_of_In in He. by cbn in He.
  - split; [exact H1|]. split; [vm_compute; reflexivity|exact H4].
Defined.
