(* ===== verification/Dom.v ===== *)
(** [src/ir/dom.c]: the dominator tree, by the Cooper-Harvey-Kennedy iteration
    over a reverse postorder, and its two queries.

    Blocks are their indexes (id - 1). A [u32] array entry is an [option nat]:
    [None] is [IDOM_NONE] or [RPO_NONE], which no block index reaches because
    ids are [u32] (so [<= 0] tests for 0). Reading the parent of a block that has none, which in C
    indexes out of the array, makes the function return [None]. *)
From S2P Require Import Prelude.
From S2P Require Import Ir.
#[local] Open Scope nat_scope.

Notation Slots := (list (option nat)).
Definition slot (a : Slots) (i : nat) : option nat := default None (a !! i).

Record IrDomTree := mkDomTree { t_nblocks : nat; t_entry : nat; t_idom : Slots; t_rpo : Slots }.

(** ** Depth-first search *)

(** One entry of [stack], [inst_pos] and [edge_pos]: the block, its
    instructions from the cursor on, and the next edge of the first of them. *)
Record Frame := mkFrame { fr_block : nat; fr_insts : list IrInst; fr_edge : nat }.

(** The block index of a target, when it names one of the [n] blocks. *)
Definition target_index (n : nat) (v : Z) : option nat :=
  if ((v <=? 0) || (Z.of_nat n <? v))%Z then None else Some (Z.to_nat (v - 1)).

(** The inner [while]: the next well-formed successor from the cursor. *)
Fixpoint scan_edges (n : nat) (es : list IrEdge) (pos : nat) : option (nat * nat) :=
  match es with
  | [] => None
  | e :: es =>
    match target_index n (e_target e) with
    | Some found => Some (found, S pos)
    | None => scan_edges n es (S pos)
    end
  end.
Fixpoint next_succ (n : nat) (ins : list IrInst) (pos : nat) : option (nat * list IrInst * nat) :=
  match ins with
  | [] => None
  | i :: rest =>
    match scan_edges n (drop pos (in_edges i)) pos with
    | Some (found, pos) => Some (found, ins, pos)
    | None => next_succ n rest 0
    end
  end.

Record Dfs := mkDfs { d_stack : list Frame; d_seen : list bool; d_post : list nat }.

Section func.
  Context (f : IrFunc).
  #[local] Notation "'n'" := (length (f_blocks f)).

Definition insts_of (b : nat) : list IrInst := match f_blocks f !! b with Some blk => b_insts blk | None => [] end.
Definition is_seen (seen : list bool) (b : nat) : bool := default false (seen !! b).

(** The body of [while (sp)]. *)
Definition dfs_step (fr : Frame) (rest : list Frame) (s : Dfs) : Dfs :=
  match next_succ n (fr_insts fr) (fr_edge fr) with
  | None => mkDfs rest (d_seen s) (d_post s ++ [fr_block fr])
  | Some (found, ins, pos) =>
    let fr := mkFrame (fr_block fr) ins pos in
    if is_seen (d_seen s) found then mkDfs (fr :: rest) (d_seen s) (d_post s)
    else mkDfs (mkFrame found (insts_of found) 0 :: fr :: rest) (<[found := true]> (d_seen s)) (d_post s)
  end.
Fixpoint dfs_loop (fuel : nat) (s : Dfs) : option Dfs :=
  match fuel, d_stack s with
  | _, [] => Some s
  | O, _ => None
  | S k, fr :: rest => dfs_loop k (dfs_step fr rest s)
  end.

Definition edges_of (b : nat) : list IrEdge := concat (map in_edges (insts_of b)).
(** Every step consumes an edge or a block. *)
Definition dfs_fuel : nat := S (sum_list_with (fun b => S (length (edges_of b))) (seq 0 n)).
Definition dfs : option (list nat) :=
  s ← dfs_loop dfs_fuel (mkDfs [mkFrame 0 (insts_of 0) 0] (<[0 := true]> (replicate n false)) []);
  Some (d_post s).

Definition number_rpo (post : list nat) : Slots :=
  foldl (fun rpo '(i, b) => <[b := Some (length post - 1 - i)]> rpo) (replicate n None) (imap pair post).

(** ** The iteration *)
Definition rpo_gt (a b : option nat) : bool :=
  match a, b with
  | Some x, Some y => y <? x
  | None, Some _ => true
  | _, None => false
  end.

Section iterate.
  Context (rpo : Slots).

Fixpoint climb (fuel : nat) (idom : Slots) (f1 f2 : nat) : option nat :=
  match fuel with
  | O => None
  | S k =>
    if rpo_gt (slot rpo f1) (slot rpo f2) then p ← slot idom f1; climb k idom p f2 else Some f1
  end.
Fixpoint intersect (fuel : nat) (idom : Slots) (f1 f2 : nat) : option nat :=
  match fuel with
  | O => None
  | S k =>
    if f1 =? f2 then Some f1
    else f1 ← climb (S n) idom f1 f2; f2 ← climb (S n) idom f2 f1; intersect k idom f1 f2
  end.

Definition is_pred (j b : nat) : bool :=
  existsb (fun i => existsb (fun e => (e_target e =? Z.of_nat b + 1)%Z) (in_edges i)) (insts_of j).

(** The body of the loop over the candidates [j], on [new_idom]. *)
Definition merge_pred (idom : Slots) (b : nat) (new_idom : option nat) (j : nat) : option (option nat) :=
  match slot rpo j, slot idom j with
  | Some _, Some _ =>
    if is_pred j b then
      match new_idom with
      | None => Some (Some j)
      | Some w => w ← intersect (S (2 * n)) idom w j; Some (Some w)
      end
    else Some new_idom
  | _, _ => Some new_idom
  end.
Fixpoint merge_preds (idom : Slots) (b : nat) (new_idom : option nat) (js : list nat) : option (option nat) :=
  match js with
  | [] => Some new_idom
  | j :: js => new_idom ← merge_pred idom b new_idom j; merge_preds idom b new_idom js
  end.

Definition process (idom : Slots) (b : nat) : option (Slots * bool) :=
  if b =? 0 then Some (idom, false)
  else
    new_idom ← merge_preds idom b None (seq 0 n);
    match new_idom with
    | None => Some (idom, false)
    | Some w => Some (if bool_decide (slot idom b = Some w) then (idom, false) else (<[b := Some w]> idom, true))
    end.
Fixpoint sweep (idom : Slots) (changed : bool) (bs : list nat) : option (Slots * bool) :=
  match bs with
  | [] => Some (idom, changed)
  | b :: bs => '(idom, c) ← process idom b; sweep idom (changed || c) bs
  end.
Fixpoint iterate (fuel : nat) (idom : Slots) (order : list nat) : option Slots :=
  match fuel with
  | O => None
  | S k => '(idom, changed) ← sweep idom false order; if changed : bool then iterate k idom order else Some idom
  end.
End iterate.

Definition ir_domtree_build : option IrDomTree :=
  if n =? 0 then Some (mkDomTree n 0 [] [])
  else
    post ← dfs;
    let rpo := number_rpo post in
    idom ← iterate rpo (S (n * n)) (<[0 := Some 0]> (replicate n None)) (rev post);
    Some (mkDomTree n 0 (<[0 := None]> idom) rpo).
End func.

(** ** The queries; block ids, 0 is [BLOCK_INVALID] *)
Definition ir_idom (t : IrDomTree) (b : Z) : Z :=
  if ((b <=? 0) || (Z.of_nat (t_nblocks t) <? b))%Z then 0%Z
  else match slot (t_idom t) (Z.to_nat (b - 1)) with None => 0%Z | Some p => (Z.of_nat p + 1)%Z end.

(** The climb of [ir_dominates]; [None] is a chain longer than the table. *)
Fixpoint dominates_loop (fuel : nat) (t : IrDomTree) (a cur : nat) : option bool :=
  match slot (t_idom t) cur with
  | None => Some false
  | Some p =>
    if p =? a then Some true else if p =? t_entry t then Some false
    else match fuel with O => None | S k => dominates_loop k t a p end
  end.
Definition ir_dominates (t : IrDomTree) (a b : Z) : option bool :=
  if ((a <=? 0) || (b <=? 0) || (Z.of_nat (t_nblocks t) <? a) || (Z.of_nat (t_nblocks t) <? b))%Z then Some false
  else if (a =? b)%Z then Some true
  else match slot (t_rpo t) (Z.to_nat (b - 1)) with
       | None => Some false
       | Some _ => dominates_loop (t_nblocks t) t (Z.to_nat (a - 1)) (Z.to_nat (b - 1))
       end.
