(* ===== verification/DomDfs.v ===== *)
(** The depth-first search of the dominator tree: it terminates and lists
    exactly the blocks reachable from the entry, each once, the entry last,
    and each other block before one of its predecessors. *)
From stdpp Require Import relations.
From S2P Require Import Prelude.
From S2P Require Import Ir.
From S2P Require Import Dom.
#[local] Open Scope nat_scope.

(** ** The control-flow graph *)
Definition cfg_edge (f : IrFunc) (a b : nat) : Prop :=
  exists e, e ∈ edges_of f a /\ target_index (length (f_blocks f)) (e_target e) = Some b.
Definition reaches (f : IrFunc) (b : nat) : Prop := rtc (cfg_edge f) 0 b.

Lemma target_index_Some n v b : target_index n v = Some b <-> b < n /\ v = (Z.of_nat b + 1)%Z.
Proof.
  unfold target_index. destruct (_ || _)%bool eqn:E; [|apply orb_false_iff in E as [E1%Z.leb_gt E2%Z.ltb_ge]].
  - split; [done|]. intros [H ->]. apply orb_true_iff in E as [E%Z.leb_le|E%Z.ltb_lt]; lia.
  - split.
    + intros H. injection H as H.
      split; lia.
    + intros [H ->]. f_equal. lia.
Qed.
Lemma cfg_edge_lt f a b : cfg_edge f a b -> b < length (f_blocks f).
Proof. intros (e & _ & H). by apply target_index_Some in H as [H _]. Qed.
Lemma is_pred_spec f j b : b < length (f_blocks f) -> is_pred f j b = true <-> cfg_edge f j b.
Proof.
  intros Hb. unfold is_pred, cfg_edge, edges_of. rewrite existsb_exists. split.
  - intros (i & Hi & (e & He & T)%existsb_exists). exists e. split.
    + apply list_elem_of_In, in_concat. exists (in_edges i). split; [by apply in_map|done].
    + apply target_index_Some. lia.
  - intros (e & He & T). apply list_elem_of_In, in_concat in He as (l & (i & <- & Hi)%in_map_iff & He).
    apply target_index_Some in T as [_ T]. exists i. split; [done|]. apply existsb_exists. exists e. split; [done|lia].
Qed.

(** ** The cursor *)
Definition remaining (ins : list IrInst) (pos : nat) : list IrEdge :=
  match ins with [] => [] | i :: rest => drop pos (in_edges i) ++ concat (map in_edges rest) end.
Definition malformed (n : nat) (e : IrEdge) : Prop := target_index n (e_target e) = None.

Lemma remaining_0 ins : remaining ins 0 = concat (map in_edges ins).
Proof. by destruct ins. Qed.

Lemma scan_edges_spec n es pos :
  match scan_edges n es pos with
  | None => Forall (malformed n) es
  | Some (found, pos') => exists skipped e,
      Forall (malformed n) skipped /\ target_index n (e_target e) = Some found /\
      pos' = pos + length skipped + 1 /\ es = skipped ++ e :: drop (length skipped + 1) es
  end.
Proof.
  revert pos. induction es as [|e es IH]; intros pos; cbn [scan_edges]; [constructor|].
  destruct (target_index n (e_target e)) as [b|] eqn:T.
  - exists [], e. cbn. split_and!; [constructor|done|lia|by rewrite drop_0].
  - specialize (IH (S pos)). destruct (scan_edges n es (S pos)) as [[found pos']|]; [|by constructor].
    destruct IH as (sk & e' & F & T' & -> & E). exists (e :: sk), e'. cbn [length app].
    split_and!; [by constructor|done|lia|]. cbn. by rewrite <- E.
Qed.

Lemma next_succ_spec n ins pos :
  match next_succ n ins pos with
  | None => Forall (malformed n) (remaining ins pos)
  | Some (found, ins', pos') => exists skipped e,
      Forall (malformed n) skipped /\ target_index n (e_target e) = Some found /\
      remaining ins pos = skipped ++ e :: remaining ins' pos'
  end.
Proof.
  revert pos. induction ins as [|i rest IH]; intros pos; cbn [next_succ remaining]; [constructor|].
  pose proof (scan_edges_spec n (drop pos (in_edges i)) pos) as S.
  destruct (scan_edges n (drop pos (in_edges i)) pos) as [[found pos']|].
  - destruct S as (sk & e & F & T & -> & E). exists sk, e. split_and!; [done|done|]. cbn [remaining].
    rewrite E at 1. rewrite drop_drop, <- app_assoc. cbn [app].
    by replace (pos + length sk + 1) with (pos + (length sk + 1)) by lia.
  - specialize (IH 0). destruct (next_succ n rest 0) as [[[found ins'] pos']|].
    + destruct IH as (sk & e & F & T & E). exists (drop pos (in_edges i) ++ sk), e.
      split_and!; [by apply Forall_app|done|]. by rewrite <- app_assoc, <- E, remaining_0.
    + apply Forall_app. by rewrite remaining_0 in IH.
Qed.

(** ** The invariant of the search

    [visited] lists the blocks seen, in the order they will have in the
    postorder; a step inserts a new block in it or leaves it alone. *)
Definition visited (s : Dfs) : list nat := d_post s ++ map fr_block (d_stack s).
Fixpoint preds_follow (f : IrFunc) (l : list nat) : Prop :=
  match l with [] => True | b :: l => (b = 0 \/ exists p, p ∈ l /\ cfg_edge f p b) /\ preds_follow f l end.

Section search.
  Context (f : IrFunc).
  #[local] Notation "'n'" := (length (f_blocks f)).

Record searching (s : Dfs) : Prop := {
  se_len : length (d_seen s) = n;
  se_nodup : NoDup (visited s);
  se_seen b : is_seen (d_seen s) b = true <-> b ∈ visited s;
  se_reach b : b ∈ visited s -> reaches f b /\ b < n;
  se_rem fr c : fr ∈ d_stack s -> cfg_edge f (fr_block fr) c ->
    c ∈ visited s \/ exists e, e ∈ remaining (fr_insts fr) (fr_edge fr) /\ target_index n (e_target e) = Some c;
  se_sub fr e : fr ∈ d_stack s -> e ∈ remaining (fr_insts fr) (fr_edge fr) -> e ∈ edges_of f (fr_block fr);
  se_post b c : b ∈ d_post s -> cfg_edge f b c -> c ∈ visited s;
  se_preds : preds_follow f (visited s);
  se_entry : exists l, visited s = l ++ [0];
}.

Lemma preds_follow_insert A x S p : preds_follow f (A ++ S) -> p ∈ S -> cfg_edge f p x -> preds_follow f (A ++ x :: S).
Proof.
  intros H Hp E. induction A as [|a A IH]; cbn [app preds_follow] in *; [by split; [right; exists p|]|].
  destruct H as [[?|(q & Hq & ?)] H]; (split; [|by apply IH]); [by left|right; exists q; split; [|done]].
  set_solver.
Qed.

Lemma is_seen_insert seen b c : b < length seen -> is_seen (<[b := true]> seen) c = true <-> c = b \/ is_seen seen c = true.
Proof.
  intros H. unfold is_seen. destruct (decide (c = b)) as [->|N].
  - rewrite list_lookup_insert_eq by done. naive_solver.
  - rewrite list_lookup_insert_ne by done. naive_solver.
Qed.

Lemma dfs_step_searching fr rest s : d_stack s = fr :: rest -> searching s -> searching (dfs_step f fr rest s).
Proof.
  intros E [Len Nd Sn Re Rm Sb Po Pr En]. unfold dfs_step. pose proof (next_succ_spec n (fr_insts fr) (fr_edge fr)) as NS.
  unfold visited in *. rewrite E in *. cbn [map] in *.
  destruct (next_succ n (fr_insts fr) (fr_edge fr)) as [[[found ins] pos]|].
  - destruct NS as (sk & e & Fs & T & Rq). pose proof (proj1 (target_index_Some n _ _) T) as [Lt _].
    assert (Ed : cfg_edge f (fr_block fr) found).
    { exists e. split; [|done]. apply (Sb fr); [by left|]. rewrite Rq. set_solver. }
    assert (Rm' : forall c, cfg_edge f (fr_block fr) c ->
      c ∈ found :: d_post s ++ fr_block fr :: map fr_block rest \/
      exists e, e ∈ remaining ins pos /\ target_index n (e_target e) = Some c).
    { intros c Hc. destruct (Rm fr c ltac:(left) Hc) as [V|(e' & He' & T')]; [left; set_solver|].
      rewrite Rq in He'. apply elem_of_app in He' as [S|[->|He']%elem_of_cons]; [| |right; by exists e'].
      - apply list_elem_of_In, (proj1 (List.Forall_forall _ _) Fs) in S. unfold malformed in S. congruence.
      - left. assert (c = found) as -> by congruence. left. }
    assert (Sb' : forall e, e ∈ remaining ins pos -> e ∈ edges_of f (fr_block fr)).
    { intros e' He'. apply (Sb fr); [by left|]. rewrite Rq. set_solver. }
    destruct (is_seen (d_seen s) found) eqn:V; (split; unfold visited; cbn [d_stack d_seen d_post map fr_block]; try done).
    + intros fr' c [->|Hf]%elem_of_cons; cbn [fr_block fr_insts fr_edge]; [|by apply Rm; right].
      intros Hc. destruct (Rm' c Hc) as [[->|Hv]%elem_of_cons|?]; [left; by apply Sn|by left|by right].
    + intros fr' e' [->|Hf]%elem_of_cons; cbn [fr_block fr_insts fr_edge]; [apply Sb'|by apply Sb; right].
    + by rewrite length_insert.
    + rewrite <- Permutation_middle. constructor; [|done]. rewrite <- Sn, V. done.
    + intros b. rewrite is_seen_insert by lia. rewrite Sn. set_solver.
    + intros b Hb. assert (b = found \/ b ∈ d_post s ++ fr_block fr :: map fr_block rest) as [->|Hv] by set_solver; [|by apply Re].
      split; [|done]. destruct (Re (fr_block fr) ltac:(set_solver)) as [R _]. by eapply rtc_r.
    + intros fr' c [->|[->|Hf]%elem_of_cons]%elem_of_cons; cbn [fr_block fr_insts fr_edge]; intros Hc.
      * right. destruct Hc as (e' & He' & T'). exists e'. split; [|done]. by rewrite remaining_0.
      * destruct (Rm' c Hc) as [Hv|?]; [left; set_solver|by right].
      * destruct (Rm fr' c ltac:(by right) Hc) as [Hv|?]; [left; set_solver|by right].
    + intros fr' e' [->|[->|Hf]%elem_of_cons]%elem_of_cons; cbn [fr_block fr_insts fr_edge]; [by rewrite remaining_0|apply Sb'|by apply Sb; right].
    + intros b c Hb Hc. specialize (Po b c Hb Hc). set_solver.
    + apply (preds_follow_insert _ _ _ (fr_block fr)); [done|left|done].
    + destruct En as [l En]. destruct l as [|x l _] using rev_ind.
      { apply app_eq_unit in En as [[-> E1]|[_ E2]]; [|done]. exists [found]. cbn. injection E1 as -> ->. done. }
      destruct (exists_last (l := fr_block fr :: map fr_block rest) ltac:(done)) as (S' & y & Es).
      rewrite Es, app_assoc in En. apply app_inj_tail in En as [_ ->]. exists (d_post s ++ found :: S').
      rewrite Es. by rewrite <- app_assoc.
  - assert (Ev : (d_post s ++ [fr_block fr]) ++ map fr_block rest = d_post s ++ fr_block fr :: map fr_block rest) by by rewrite <- app_assoc.
    split; unfold visited; cbn [d_stack d_seen d_post]; rewrite ?Ev; try done.
    + intros fr' c Hf. apply Rm. by right.
    + intros fr' e' Hf. apply Sb. by right.
    + intros b c [Hb|Hb]%elem_of_app Hc; [by apply (Po b)|]. apply list_elem_of_singleton in Hb as ->.
      destruct (Rm fr c ltac:(left) Hc) as [V|(e' & He' & T')]; [done|].
      apply list_elem_of_In, (proj1 (List.Forall_forall _ _) NS) in He'. unfold malformed in He'. congruence.
Qed.

(** ** Termination *)
Definition unseen_weight (seen : list bool) (l : list nat) : nat :=
  sum_list_with (fun b => if is_seen seen b then 0 else S (length (edges_of f b))) l.
Definition frame_weight (fr : Frame) : nat := S (length (remaining (fr_insts fr) (fr_edge fr))).
Definition dfs_measure (s : Dfs) : nat :=
  sum_list_with frame_weight (d_stack s) + unseen_weight (d_seen s) (seq 0 n).

Lemma unseen_weight_insert seen b l : b < length seen -> is_seen seen b = false -> NoDup l -> b ∈ l ->
  unseen_weight (<[b := true]> seen) l + S (length (edges_of f b)) = unseen_weight seen l.
Proof.
  intros Hb U. assert (Keep : forall c, c <> b -> is_seen (<[b := true]> seen) c = is_seen seen c).
  { intros c N. unfold is_seen. by rewrite list_lookup_insert_ne. }
  assert (Here : is_seen (<[b := true]> seen) b = true) by (apply is_seen_insert; auto).
  induction l as [|c l IH]; intros Nd Hin; [by apply elem_of_nil in Hin|]. apply list.NoDup_cons in Nd as [Nc Nd].
  unfold unseen_weight in *. cbn [sum_list_with]. destruct (decide (c = b)) as [->|N].
  - rewrite Here, U. assert (E : sum_list_with (fun c => if is_seen (<[b := true]> seen) c then 0 else S (length (edges_of f c))) l
      = sum_list_with (fun c => if is_seen seen c then 0 else S (length (edges_of f c))) l); [|rewrite E; lia].
    clear IH Hin. induction l as [|d l IH]; [done|]. apply not_elem_of_cons in Nc as [Nb Nc]. apply list.NoDup_cons in Nd as [_ Nd].
    cbn [sum_list_with]. rewrite Keep by congruence. by rewrite IH.
  - rewrite Keep by done. apply elem_of_cons in Hin as [->|Hin]; [done|]. specialize (IH Nd Hin). lia.
Qed.

Lemma dfs_step_decreases fr rest s : d_stack s = fr :: rest -> searching s ->
  dfs_measure (dfs_step f fr rest s) < dfs_measure s.
Proof.
  intros E S. pose proof (next_succ_spec n (fr_insts fr) (fr_edge fr)) as NS.
  unfold dfs_measure, dfs_step. rewrite E. cbn [sum_list_with].
  destruct (next_succ n (fr_insts fr) (fr_edge fr)) as [[[found ins] pos]|]; [|unfold frame_weight; cbn; lia].
  destruct NS as (sk & e & _ & T & Rq).
  assert (W : frame_weight (mkFrame (fr_block fr) ins pos) < frame_weight fr).
  { unfold frame_weight. rewrite Rq. cbn [fr_insts fr_edge]. rewrite length_app. cbn [length]. lia. }
  destruct (is_seen (d_seen s) found) eqn:V; cbn [d_stack d_seen sum_list_with]; [lia|].
  apply target_index_Some in T as [Lt _]. rewrite <- (se_len s S) in Lt.
  pose proof (unseen_weight_insert (d_seen s) found (seq 0 n) Lt V (NoDup_seq _ _)) as Un.
  specialize (Un ltac:(apply elem_of_seq; rewrite <- (se_len s S); lia)).
  unfold frame_weight at 1. cbn [fr_insts fr_edge]. rewrite remaining_0. unfold edges_of in Un. lia.
Qed.

Lemma dfs_loop_searching fuel s : searching s -> dfs_measure s <= fuel ->
  exists s', dfs_loop f fuel s = Some s' /\ d_stack s' = [] /\ searching s'.
Proof.
  revert s. induction fuel as [|fuel IH]; intros s S M; cbn [dfs_loop]; destruct (d_stack s) as [|fr rest] eqn:E.
  - by exists s.
  - unfold dfs_measure, frame_weight in M. rewrite E in M. cbn in M. lia.
  - by exists s.
  - apply IH; [by apply dfs_step_searching|]. pose proof (dfs_step_decreases fr rest s E S). lia.
Qed.

Lemma searching_start : n <> 0 -> searching (mkDfs [mkFrame 0 (insts_of f 0) 0] (<[0 := true]> (replicate n false)) []).
Proof.
  intros N. assert (Sn : forall b, is_seen (<[0 := true]> (replicate n false)) b = true <-> b ∈ [0]).
  { intros b. rewrite is_seen_insert by (rewrite length_replicate; lia). rewrite list_elem_of_singleton.
    unfold is_seen. destruct (replicate n false !! b) as [x|] eqn:L; [|naive_solver].
    apply lookup_replicate in L as [-> _]. naive_solver. }
  split; unfold visited; cbn [d_stack d_seen d_post map fr_block app]; try done.
  - by rewrite length_insert, length_replicate.
  - apply NoDup_singleton.
  - intros b ->%list_elem_of_singleton. split; [constructor|lia].
  - intros fr c ->%list_elem_of_singleton (e & He & T). right. exists e. split; [|done]. by rewrite remaining_0.
  - intros fr e ->%list_elem_of_singleton. by rewrite remaining_0.
  - intros b c []%elem_of_nil.
  - cbn. by split; [left|].
  - by exists [].
Qed.

(** The postorder. *)
Record postorder (post : list nat) : Prop := {
  po_nodup : NoDup post;
  po_reach b : b ∈ post <-> reaches f b;
  po_lt b : b ∈ post -> b < n;
  po_preds : preds_follow f post;
  po_entry : exists l, post = l ++ [0];
}.

Lemma dfs_postorder : n <> 0 -> exists post, dfs f = Some post /\ postorder post.
Proof.
  intros N. pose proof (searching_start N) as S0. unfold dfs.
  destruct (dfs_loop_searching (dfs_fuel f) _ S0) as (s & -> & E & S).
  { unfold dfs_measure. cbn [d_stack d_seen sum_list_with]. unfold frame_weight. cbn [fr_insts fr_edge].
    rewrite remaining_0. assert (L0 : is_seen (replicate n false) 0 = false).
    { unfold is_seen. by rewrite lookup_replicate_2 by lia. }
    pose proof (unseen_weight_insert (replicate n false) 0 (seq 0 n) ltac:(rewrite length_replicate; lia) L0 (NoDup_seq _ _)
      ltac:(apply elem_of_seq; lia)) as W.
    unfold edges_of in W. unfold dfs_fuel, edges_of.
    assert (Z : unseen_weight (replicate n false) (seq 0 n) = sum_list_with (fun b => S (length (concat (map in_edges (insts_of f b))))) (seq 0 n)); [|lia].
    unfold unseen_weight. generalize (seq 0 n). intros l. induction l as [|b l IH]; [done|]. cbn [sum_list_with]. rewrite IH.
    unfold is_seen. destruct (replicate n false !! b) as [x|] eqn:L; [apply lookup_replicate in L as [-> _]|]; done. }
  exists (d_post s). split; [done|]. destruct S as [_ Nd Sn Re _ _ Po Pr En]. unfold visited in *. rewrite E, app_nil_r in *.
  split; try done.
  - intros b. split; [intros Hb; by apply Re|]. unfold reaches. intros R.
    assert (H0 : 0 ∈ d_post s) by (destruct En as [l ->]; set_solver). clear -Po R H0.
    induction R as [a|a c b Ed R IH]; [done|]. apply IH. by apply (Po a).
  - intros b Hb. by apply Re.
Qed.
End search.
