(* ===== verification/DomTree.v ===== *)
(** The iteration of the dominator tree: the parent table stays a tree in the
    reverse postorder, its edges only move up, and it stops at the immediate
    dominators. *)
From stdpp Require Import relations.
From S2P Require Import Prelude.
From S2P Require Import Ir.
From S2P Require Import Dom.
From S2P Require Import DomDfs.
#[local] Open Scope nat_scope.

Lemma slot_insert a b v c : b < length a -> slot (<[b := v]> a) c = if decide (c = b) then v else slot a c.
Proof.
  intros H. unfold slot. destruct (decide (c = b)) as [->|N]; [by rewrite list_lookup_insert_eq|by rewrite list_lookup_insert_ne].
Qed.
Lemma slot_replicate k c : slot (replicate k None) c = None.
Proof. unfold slot. destruct (replicate k None !! c) as [x|] eqn:L; [by apply lookup_replicate in L as [-> _]|done]. Qed.

(** ** Numbering *)
Lemma number_fold N l r off (body := fun (rpo : Slots) '(i, b) => <[b := Some (N - 1 - i)]> rpo) :
  NoDup l -> (forall b, b ∈ l -> b < length r) ->
  let r' := foldl body r (imap (fun i b => (off + i, b)) l) in
  length r' = length r /\ (forall c, c ∉ l -> slot r' c = slot r c) /\
  (forall i b, l !! i = Some b -> slot r' b = Some (N - 1 - (off + i))).
Proof.
  revert r off. induction l as [|b l IH]; intros r off Nd Lt; [by split_and!|].
  apply list.NoDup_cons in Nd as [Nb Nd]. rewrite imap_cons. cbn [foldl].
  change (body r (off + 0, b)) with (<[b := Some (N - 1 - (off + 0))]> r).
  specialize (IH (<[b := Some (N - 1 - (off + 0))]> r) (S off) Nd). rewrite length_insert in IH.
  destruct IH as (L & Out & In); [intros c Hc; apply Lt; by right|].
  assert (E : imap ((fun i b => (off + i, b)) ∘ S) l = imap (fun i b => (S off + i, b)) l).
  { apply imap_ext. intros i c _. cbn. f_equal. lia. }
  rewrite E. split; [exact L|]. split.
  - intros c [Nc Nl]%not_elem_of_cons. rewrite Out by done. rewrite slot_insert by (apply Lt; left). by rewrite decide_False.
  - intros [|i] c; [intros [= <-]|intros H].
    + rewrite Out by done. rewrite slot_insert by (apply Lt; left). by rewrite decide_True.
    + rewrite (In i c H). f_equal. lia.
Qed.

Lemma rev_alt_reverse {A} (l : list A) : reverse l = rev l.
Proof. unfold reverse. by rewrite rev_alt. Qed.

Lemma number_rpo_spec f post b k : NoDup post -> (forall b, b ∈ post -> b < length (f_blocks f)) ->
  slot (number_rpo f post) b = Some k <-> rev post !! k = Some b.
Proof.
  intros Nd Lt. destruct (number_fold (length post) post (replicate (length (f_blocks f)) None) 0 Nd) as (_ & Out & In).
  { intros c Hc. rewrite length_replicate. by apply Lt. }
  cbn in Out, In. change (imap _ post) with (imap pair post) in Out, In. fold (number_rpo f post) in Out, In.
  rewrite <- rev_alt_reverse, reverse_lookup_Some. split.
  - intros H. destruct (decide (b ∈ post)) as [[i Hi]%list_elem_of_lookup|N]; [|by rewrite Out, slot_replicate in H].
    rewrite (In i b Hi) in H. injection H as <-. pose proof (lookup_lt_Some _ _ _ Hi) as L.
    split; [|lia]. rewrite <- Hi. f_equal. lia.
  - intros [Hk L]. rewrite (In _ _ Hk). f_equal. lia.
Qed.

(** ** Dominance *)
Inductive walk (f : IrFunc) : nat -> list nat -> Prop :=
| walk_entry : walk f 0 [0]
| walk_step a b p : walk f a p -> cfg_edge f a b -> walk f b (b :: p).
(** Every walk from the entry to [b] goes through [x]. *)
Definition dominates (f : IrFunc) (x b : nat) : Prop := forall p, walk f b p -> x ∈ p.

Lemma sum_with_lt {A} (g h : A -> nat) l b : (forall c, c ∈ l -> g c <= h c) -> b ∈ l -> g b < h b ->
  sum_list_with g l < sum_list_with h l.
Proof.
  intros Le Hb Lt. induction l as [|c l IH]; [by apply elem_of_nil in Hb|]. cbn [sum_list_with].
  assert (sum_list_with g l <= sum_list_with h l).
  { clear -Le. assert (H : forall d, d ∈ l -> g d <= h d) by (intros d Hd; apply Le; by right).
    clear Le. induction l as [|d l IH]; [done|]. cbn [sum_list_with]. pose proof (H d ltac:(left)).
    specialize (IH ltac:(intros e He; apply H; by right)). lia. }
  apply elem_of_cons in Hb as [->|Hb]; [lia|]. pose proof (Le c ltac:(left)).
  specialize (IH ltac:(intros d Hd; apply Le; by right) Hb). lia.
Qed.

(** ** The parent table as a tree *)
Section tree.
  Context (f : IrFunc) (rpo : Slots) (order : list nat).
  Context (numbered : forall b k, slot rpo b = Some k <-> order !! k = Some b) (entry_first : order !! 0 = Some 0)
    (order_lt : forall b, b ∈ order -> b < length (f_blocks f))
    (earlier_pred : forall b, b ∈ order -> b <> 0 ->
      exists q k j, order !! k = Some b /\ order !! j = Some q /\ j < k /\ is_pred f q b = true).
  #[local] Notation "'n'" := (length (f_blocks f)).
  #[local] Notation "'m'" := (length order).

Definition rank (b : nat) : nat := default m (slot rpo b).

Lemma rank_in b : b ∈ order -> order !! rank b = Some b /\ rank b < m.
Proof using All.
  intros [k Hk]%list_elem_of_lookup. unfold rank. pose proof (proj2 (numbered b k) Hk) as E. rewrite E. cbn.
  split; [done|by apply lookup_lt_Some in Hk].
Qed.
Lemma rank_at b k : order !! k = Some b -> rank b = k.
Proof using All. intros H. unfold rank. by rewrite (proj2 (numbered b k) H). Qed.
Lemma rank_inj a b : a ∈ order -> b ∈ order -> rank a = rank b -> a = b.
Proof using All.
  intros Ha Hb E. destruct (rank_in a Ha) as [La _], (rank_in b Hb) as [Lb _]. rewrite E in La. congruence.
Qed.
Lemma rank_gt a b : a ∈ order -> b ∈ order -> rpo_gt (slot rpo a) (slot rpo b) = (rank b <? rank a).
Proof using All.
  intros [k Hk]%list_elem_of_lookup [l Hl]%list_elem_of_lookup. rewrite (rank_at _ _ Hk), (rank_at _ _ Hl).
  by rewrite (proj2 (numbered _ _) Hk), (proj2 (numbered _ _) Hl).
Qed.
Lemma entry_in : 0 ∈ order.
Proof using All. by apply (list_elem_of_lookup_2 _ 0). Qed.
Lemma order_short : NoDup order -> m <= n.
Proof using All.
  intros Nd. rewrite <- (length_seq n 0). apply submseteq_length, NoDup_submseteq; [done|].
  intros b Hb. apply elem_of_seq. specialize (order_lt b Hb). lia.
Qed.
Lemma order_nodup : NoDup order.
Proof using All.
  apply NoDup_alt. intros i j b Hi Hj. apply numbered in Hi, Hj. congruence.
Qed.
Lemma rank_lt_n b : b ∈ order -> rank b < n.
Proof using All. intros Hb. pose proof (rank_in b Hb). pose proof (order_short order_nodup). lia. Qed.

(** Every block that has a parent was reached, and so was its parent, which
    comes earlier. *)
Record tree (idom : Slots) : Prop := {
  tr_len : length idom = n;
  tr_entry : slot idom 0 = Some 0;
  tr_in b p : slot idom b = Some p -> b ∈ order;
  tr_up b p : slot idom b = Some p -> b <> 0 -> rank p < rank b /\ is_Some (slot idom p);
}.
Definition up (idom : Slots) (b p : nat) : Prop := b <> 0 /\ slot idom b = Some p.
(** [x] is [b] or one of its ancestors. *)
Definition above (idom : Slots) (b x : nat) : Prop := rtc (up idom) b x.
#[local] Instance above_preorder idom : PreOrder (above idom).
Proof. exact (rtc_po (R:=up idom)). Qed.

Section one_tree.
  Context (idom : Slots) (T : tree idom).

Lemma above_rank b x : above idom b x -> x = b \/ rank x < rank b.
Proof using All.
  induction 1 as [|b p x [N U] _ IH]; [by left|right]. destruct (tr_up _ T b p U N) as [L _]. destruct IH as [->|IH]; lia.
Qed.
Lemma above_has b x : above idom b x -> is_Some (slot idom b) -> is_Some (slot idom x).
Proof using All. induction 1 as [|b p x [N U] _ IH]; [done|]. intros _. apply IH, (tr_up _ T b p U N). Qed.
Lemma above_linear b x y : above idom b x -> above idom b y -> rank x <= rank y -> above idom y x.
Proof using All.
  intros Hx. induction Hx as [b|b p x [N U] Hx IH]; intros Hy L.
  - destruct (above_rank _ _ Hy) as [->|?]; [done|lia].
  - inversion Hy as [|? p' ? [N' U'] Hy']; subst.
    + by eapply rtc_l.
    + assert (p' = p) as -> by congruence. by apply IH.
Qed.
Lemma above_entry b : is_Some (slot idom b) -> above idom b 0.
Proof using All.
  remember (rank b) as k eqn:Ek. revert b Ek. induction k as [k IH] using lt_wf_ind. intros b -> [p U].
  destruct (decide (b = 0)) as [->|N]; [constructor|]. destruct (tr_up _ T b p U N) as [L S].
  apply (rtc_l _ _ p); [done|]. by apply (IH (rank p)).
Qed.
Lemma has_in b : is_Some (slot idom b) -> b ∈ order.
Proof using All. intros [p U]. by apply (tr_in _ T b p). Qed.

(** ** The climbs *)
Lemma climb_spec fuel f1 f2 : is_Some (slot idom f1) -> is_Some (slot idom f2) -> rank f1 < fuel ->
  exists g, climb rpo fuel idom f1 f2 = Some g /\ above idom f1 g /\ rank g <= rank f2 /\
    (rank f2 < rank f1 -> rank g < rank f1) /\
    forall x, above idom f1 x -> rank x <= rank f2 -> above idom g x.
Proof using All.
  revert f1. induction fuel as [|fuel IH]; intros f1 H1 H2 L; [lia|]. cbn [climb].
  rewrite rank_gt by (by apply has_in). destruct (Nat.ltb_spec (rank f2) (rank f1)) as [Gt|Le].
  - destruct H1 as [p U]. rewrite U. cbn [mbind option_bind].
    assert (N : f1 <> 0).
    { intros ->. rewrite (rank_at 0 0 entry_first) in Gt. lia. }
    destruct (tr_up _ T f1 p U N) as [Lp Sp]. destruct (IH p Sp H2 ltac:(lia)) as (g & -> & A & R & _ & M).
    exists g. split; [done|]. split; [by eapply rtc_l|]. split; [done|]. split.
    { intros _. destruct (above_rank _ _ A) as [->|?]; lia. }
    intros x Hx Lx. apply M; [|done]. inversion Hx as [|? p' ? [_ U'] Hx']; subst; [lia|]. by assert (p' = p) as -> by congruence.
  - exists f1. by split_and!; [|constructor| |lia|].
Qed.

(** The nearest common ancestor. *)
Lemma intersect_spec fuel f1 f2 : is_Some (slot idom f1) -> is_Some (slot idom f2) -> rank f1 + rank f2 < fuel ->
  exists w, intersect f rpo fuel idom f1 f2 = Some w /\ above idom f1 w /\ above idom f2 w /\
    forall x, above idom f1 x -> above idom f2 x -> above idom w x.
Proof using All.
  revert f1 f2. induction fuel as [|fuel IH]; intros f1 f2 H1 H2 L; [lia|]. cbn [intersect].
  destruct (Nat.eqb_spec f1 f2) as [->|N]; [exists f2; by split_and!; [|constructor|constructor|]|].
  pose proof (rank_lt_n f1 (has_in _ H1)) as L1. pose proof (rank_lt_n f2 (has_in _ H2)) as L2.
  destruct (climb_spec (S n) f1 f2 H1 H2 ltac:(lia)) as (g1 & -> & A1 & R1 & S1 & M1). cbn [mbind option_bind].
  pose proof (above_has _ _ A1 H1) as G1.
  destruct (climb_spec (S n) f2 g1 H2 G1 ltac:(lia)) as (g2 & -> & A2 & R2 & S2 & M2). cbn [mbind option_bind].
  pose proof (above_has _ _ A2 H2) as G2.
  assert (D : rank g1 + rank g2 < rank f1 + rank f2).
  { assert (rank f1 <> rank f2) by (intros ?; apply N, rank_inj; [by apply has_in..|done]).
    pose proof (above_rank _ _ A1) as [->|]; pose proof (above_rank _ _ A2) as [->|]; lia. }
  destruct (IH g1 g2 G1 G2 ltac:(lia)) as (w & -> & W1 & W2 & M).
  exists w. split; [done|]. split; [by etrans|]. split; [by etrans|]. intros x X1 X2.
  assert (Lx1 : rank x <= rank f2) by (destruct (above_rank _ _ X2) as [->|?]; lia).
  assert (B1 : above idom g1 x) by (by apply M1). apply M; [done|]. apply M2; [done|].
  destruct (above_rank _ _ B1) as [->|?]; lia.
Qed.

(** ** The new parent *)
Definition meets (P : nat -> Prop) (new : option nat) : Prop :=
  match new with
  | None => forall p, ~ P p
  | Some w => is_Some (slot idom w) /\ (exists p, P p) /\ (forall p, P p -> above idom p w) /\
      forall x, (forall p, P p -> above idom p x) -> above idom w x
  end.
(** The processed predecessors of [b]. *)
Definition processed_pred (b p : nat) : Prop := p < n /\ is_Some (slot idom p) /\ is_pred f p b = true.

Lemma merge_pred_spec P b new j : j < n -> meets P new ->
  exists new', merge_pred f rpo idom b new j = Some new' /\ meets (fun p => P p \/ (p = j /\ processed_pred b j)) new'.
Proof using All.
  intros Lj Mt. unfold merge_pred.
  assert (Skip : ~ processed_pred b j -> meets (fun p => P p \/ (p = j /\ processed_pred b j)) new).
  { intros Nj. destruct new as [w|]; cbn in *; [|naive_solver]. destruct Mt as (S & [p Hp] & A & M).
    split_and!; [done|exists p; by left|naive_solver|]. intros x Hx. apply M. intros q Hq. apply Hx. by left. }
  destruct (slot idom j) as [pj|] eqn:Ej.
  2:{ exists new. split; [by destruct (slot rpo j)|]. apply Skip. intros (_ & [? ?] & _). congruence. }
  pose proof (has_in j ltac:(by rewrite Ej)) as Ij. destruct (rank_in j Ij) as [Rj%numbered _]. rewrite Rj.
  destruct (is_pred f j b) eqn:Pj; [|exists new; split; [done|]; apply Skip; intros (_ & _ & ?); congruence].
  assert (Pp : processed_pred b j) by (split_and!; [done|by rewrite Ej|done]).
  destruct new as [w|].
  - destruct Mt as (Sw & [p Hp] & A & M). pose proof (rank_lt_n w (has_in w Sw)). pose proof (rank_lt_n j Ij).
    destruct (intersect_spec (S (2 * n)) w j Sw ltac:(by rewrite Ej) ltac:(lia)) as (v & -> & V1 & V2 & Mv).
    exists (Some v). split; [done|]. cbn. split; [by apply (above_has _ _ V1)|]. split; [exists p; by left|]. split.
    + intros q [Hq|[-> _]]; [|done]. transitivity w; [by apply A|done].
    + intros x Hx. apply Mv; [|apply Hx; by right]. apply M. intros q Hq. apply Hx. by left.
  - exists (Some j). split; [done|]. cbn in *. split; [by rewrite Ej|]. split; [exists j; by right|]. split.
    + intros q [Hq|[-> _]]; [by destruct (Mt q)|constructor].
    + intros x Hx. apply Hx. by right.
Qed.

Lemma merge_preds_spec P b new js : Forall (fun j => j < n) js -> meets P new ->
  exists new', merge_preds f rpo idom b new js = Some new' /\ meets (fun p => P p \/ (p ∈ js /\ processed_pred b p)) new'.
Proof using All.
  revert P new. induction js as [|j js IH]; intros P new Hj Mt; cbn [merge_preds].
  - exists new. split; [done|]. destruct new as [w|]; cbn in *.
    + destruct Mt as (S & [p Hp] & A & M). split_and!; [done|exists p; by left|set_solver|].
      intros x Hx. apply M. intros q Hq. apply Hx. by left.
    + set_solver.
  - pose proof (List.Forall_inv Hj) as Lj. apply List.Forall_inv_tail in Hj. destruct (merge_pred_spec P b new j Lj Mt) as (new1 & -> & Mt1). cbn [mbind option_bind].
    destruct (IH _ new1 Hj Mt1) as (new2 & -> & Mt2). exists new2. split; [done|].
    assert (E : forall p, (P p \/ (p = j /\ processed_pred b j)) \/ (p ∈ js /\ processed_pred b p) <-> P p \/ (p ∈ j :: js /\ processed_pred b p)).
    { intros p. rewrite elem_of_cons. naive_solver. }
    destruct new2 as [w|]; cbn in *.
    + destruct Mt2 as (S & [p Hp] & A & M). split_and!; [done|exists p; by apply E|intros q Hq; by apply A, E|].
      intros x Hx. apply M. intros q Hq. by apply Hx, E.
    + intros p Hp. by apply (Mt2 p), E.
Qed.

Lemma new_parent b : exists new, merge_preds f rpo idom b None (seq 0 n) = Some new /\ meets (processed_pred b) new.
Proof using All.
  destruct (merge_preds_spec (fun _ => False) b None (seq 0 n)) as (new & E & M).
  - apply (proj2 (List.Forall_forall _ _)). intros j Hj%in_seq. lia.
  - by intros p [].
  - exists new. split; [done|]. assert (X : forall p, False \/ (p ∈ seq 0 n /\ processed_pred b p) <-> processed_pred b p).
    { intros p. rewrite elem_of_seq. unfold processed_pred. naive_solver lia. }
    destruct new as [w|]; cbn in *.
    + destruct M as (S & [p Hp] & A & M). split_and!; [done|exists p; by apply X|intros q Hq; by apply A, X|].
      intros x Hx. apply M. intros q Hq. by apply Hx, X.
    + intros p Hp. by apply (M p), X.
Qed.
End one_tree.

(** ** The iteration

    [c] is the position the sweep has reached. [iv_common] makes parents move
    up only; it survives the change of the tree under a block not yet visited
    because of [iv_front]: from the first predecessors on, nothing changed
    since the block was visited. *)
Record iterating (idom : Slots) (c : nat) : Prop := {
  iv_tree : tree idom;
  iv_ext : (forall b, b ∈ order -> is_Some (slot idom b)) \/
           (forall b, b ∈ order -> is_Some (slot idom b) <-> rank b < c \/ b = 0);
  iv_common v u x : up idom v u -> (forall p, processed_pred idom v p -> above idom p x) -> above idom u x;
  iv_dom v u x : up idom v u -> x <> v -> dominates f x v -> dominates f x u;
  iv_front v u q : up idom v u -> processed_pred idom v q -> rank q < rank v ->
    rank v < c \/ c <= rank u -> above idom q u;
}.

Lemma dominates_above idom c x b : iterating idom c -> is_Some (slot idom b) -> dominates f x b -> above idom b x.
Proof using All.
  intros I. remember (rank b) as k eqn:Ek. revert b Ek. induction k as [k IH] using lt_wf_ind. intros b -> [u U] D.
  destruct (decide (b = 0)) as [->|N].
  - specialize (D [0] (walk_entry f)). apply list_elem_of_singleton in D as ->. reflexivity.
  - destruct (decide (x = b)) as [->|Nx]; [reflexivity|].
    destruct (tr_up idom (iv_tree _ _ I) b u U N) as [L S]. apply (rtc_l _ _ u); [done|].
    apply (IH (rank u)); [done|done|done|]. by apply (iv_dom _ _ I b).
Qed.

Lemma forward_pred idom c b : iterating idom c -> b ∈ order -> b <> 0 ->
  is_Some (slot idom b) \/ rank b <= c -> exists q, processed_pred idom b q /\ rank q < rank b.
Proof using All.
  intros I Hb N P. destruct (earlier_pred b Hb N) as (q & k & j & Hk & Hj & L & E). exists q.
  assert (Hq : q ∈ order) by by apply list_elem_of_lookup_2 in Hj.
  rewrite (rank_at _ _ Hj), (rank_at _ _ Hk). split; [|done]. split; [by apply order_lt|]. split; [|done].
  destruct (iv_ext _ _ I) as [A|A]; [by apply A|]. apply A; [done|]. left. rewrite (rank_at _ _ Hj).
  destruct P as [S|P]; [|rewrite (rank_at _ _ Hk) in P; lia].
  apply A in S as [S|?]; [rewrite (rank_at _ _ Hk) in S; lia|done|done].
Qed.

Lemma dominates_pred x b p : b < n -> is_pred f p b = true -> x <> b -> dominates f x b -> dominates f x p.
Proof using All.
  intros Lb E N D w W. assert (Ed : cfg_edge f p b) by by apply is_pred_spec.
  specialize (D (b :: w) (walk_step f p b w W Ed)). by apply elem_of_cons in D as [->|?].
Qed.

(** The dominators of [b] other than itself dominate the block its
    predecessors meet at. *)
Lemma dominates_meet idom c b w q x : iterating idom c -> b ∈ order -> meets idom (processed_pred idom b) (Some w) ->
  processed_pred idom b q -> x <> b -> dominates f x b -> dominates f x w.
Proof using All.
  intros I Hb (_ & _ & A & M) Hq N D. pose proof (iv_tree _ _ I) as T.
  assert (Dp : forall p, processed_pred idom b p -> dominates f x p).
  { intros p (_ & _ & E). apply (dominates_pred x b); [by apply order_lt|done|done|done]. }
  assert (Wx : above idom w x).
  { apply M. intros p Hp. apply (dominates_above idom c); [done|apply Hp|by apply Dp]. }
  pose proof (Dp q Hq) as Dq. specialize (A q Hq). clear Hq Dp M. induction A as [|y z w U A IH]; [done|].
  apply IH; [done|]. apply (iv_dom _ _ I y z x U); [|done].
  destruct U as [Ny U]. destruct (tr_up _ T y z U Ny) as [L _].
  destruct (above_rank idom T _ _ A) as [->|?], (above_rank idom T _ _ Wx) as [->|?]; intros ->; lia.
Qed.

(** ** One update *)
Section update.
  Context (idom : Slots) (c b w : nat) (I : iterating idom c) (Hc : order !! c = Some b) (Nb : b <> 0)
    (Mw : meets idom (processed_pred idom b) (Some w)).
  #[local] Notation "'idom''" := (<[b := Some w]> idom).

Lemma update_slot v : slot idom' v = if decide (v = b) then Some w else slot idom v.
Proof using All.
  apply slot_insert. rewrite (tr_len _ (iv_tree _ _ I)). by apply order_lt, (list_elem_of_lookup_2 _ c).
Qed.
Lemma update_front : exists q, processed_pred idom b q /\ rank q < rank b /\ above idom q w.
Proof using All.
  destruct (forward_pred idom c b I) as (q & Hq & L); [by apply (list_elem_of_lookup_2 _ c)|done|right; by rewrite (rank_at _ _ Hc)|].
  exists q. split; [done|]. split; [done|]. destruct Mw as (_ & _ & A & _). by apply A.
Qed.
Lemma update_below : rank w < rank b.
Proof using All.
  destruct update_front as (q & _ & L & A). destruct (above_rank idom (iv_tree _ _ I) _ _ A) as [->|?]; lia.
Qed.
Lemma update_rises u : slot idom b = Some u -> above idom u w.
Proof using All. intros U. apply (iv_common _ _ I b u); [done|]. apply Mw. Qed.

Lemma update_tree : tree idom'.
Proof using All.
  pose proof (iv_tree _ _ I) as T. pose proof update_below as L.
  assert (K : forall v, is_Some (slot idom v) -> is_Some (slot idom' v)).
  { intros v S. rewrite update_slot. by destruct (decide (v = b)). }
  split.
  - rewrite length_insert. apply T.
  - rewrite update_slot, decide_False by done. apply T.
  - intros v p. rewrite update_slot. destruct (decide (v = b)) as [->|]; [|apply T].
    intros _. by apply (list_elem_of_lookup_2 _ c).
  - intros v p. rewrite update_slot. destruct (decide (v = b)) as [->|].
    + intros [= <-] _. split; [done|]. apply K, Mw.
    + intros U N. destruct (tr_up _ T v p U N). auto.
Qed.

Lemma above_old y x : is_Some (slot idom y) -> above idom' y x -> above idom y x.
Proof using All.
  intros S A. induction A as [|y p x [N U] A IH]; [reflexivity|].
  rewrite update_slot in U. destruct (decide (y = b)) as [->|Nyb].
  - injection U as <-. destruct S as [u U]. apply (rtc_l _ _ u); [done|]. transitivity w; [by apply update_rises|].
    apply IH, Mw.
  - apply (rtc_l _ _ p); [done|]. apply IH. by apply (tr_up _ (iv_tree _ _ I) y p U N).
Qed.
Lemma above_keep y x : above idom y x -> rank b <= rank x \/ rank y < rank b -> above idom' y x.
Proof using All.
  intros A. induction A as [|y p x [N U] A IH]; intros L; [reflexivity|].
  destruct (tr_up _ (iv_tree _ _ I) y p U N) as [Lp _]. pose proof (above_rank idom (iv_tree _ _ I) _ _ A) as R.
  assert (Nyb : y <> b) by (intros ->; destruct R as [->|R]; lia).
  apply (rtc_l _ _ p); [split; [done|]; by rewrite update_slot, decide_False|]. apply IH.
  destruct L as [L|L]; [by left|right; lia].
Qed.
Lemma above_split u x : above idom u x -> above idom' u x \/ (above idom u b /\ rank x < rank b).
Proof using All.
  intros A. induction A as [|y p x [N U] A IH]; [by left|].
  destruct (decide (y = b)) as [->|Nyb].
  - right. split; [reflexivity|]. destruct (tr_up _ (iv_tree _ _ I) b p U N) as [Lp _].
    destruct (above_rank idom (iv_tree _ _ I) _ _ A) as [->|?]; lia.
  - destruct IH as [IH|[IH L]].
    + left. apply (rtc_l _ _ p); [split; [done|]; by rewrite update_slot, decide_False|done].
    + right. split; [|done]. by apply (rtc_l _ _ p).
Qed.

Lemma pred_old v p : processed_pred idom' v p -> p <> b -> processed_pred idom v p.
Proof using All. intros (L & S & E) N. rewrite update_slot, decide_False in S by done. by split_and!. Qed.
Lemma pred_new v p : processed_pred idom v p -> processed_pred idom' v p.
Proof using All. intros (L & S & E). split; [done|]. split; [|done]. rewrite update_slot. by destruct (decide (p = b)). Qed.

Lemma update_iterating : iterating idom' (S c).
Proof using All.
  pose proof (iv_tree _ _ I) as T. pose proof update_tree as T'. pose proof update_below as Lw.
  pose proof (rank_at _ _ Hc) as Rb. assert (Ib : b ∈ order) by by apply (list_elem_of_lookup_2 _ c).
  split; [done| | | |].
  - destruct (iv_ext _ _ I) as [A|A].
    + left. intros v Hv. rewrite update_slot. destruct (decide (v = b)); [done|by apply A].
    + right. intros v Hv. rewrite update_slot. destruct (decide (v = b)) as [->|N].
      * split; [left; lia|done].
      * rewrite (A v Hv). split; [intros [?|?]; [left; lia|by right]|]. intros [L|?]; [|by right]. left.
        destruct (decide (rank v = c)) as [E|]; [|lia]. destruct N. apply rank_inj; [done|done|lia].
  - intros v u x [Nv U] C. rewrite update_slot in U. destruct (decide (v = b)) as [->|Nvb].
    + injection U as <-. apply above_keep; [|by right]. apply Mw. intros p Hp. apply above_old; [apply Hp|]. by apply C, pred_new.
    + assert (Au : above idom u x).
      { apply (iv_common _ _ I v); [done|]. intros p Hp. apply above_old; [apply Hp|]. by apply C, pred_new. }
      destruct (above_split u x Au) as [?|[Ab Lx]]; [done|].
      assert (Lu : rank b <= rank u) by (destruct (above_rank idom T _ _ Ab) as [->|?]; lia).
      destruct (forward_pred idom c v I) as (q & Hq & Lq); [by apply (tr_in _ T v u)|done|by left|].
      assert (Aq : above idom q b).
      { transitivity u; [|done]. apply (iv_front _ _ I v); [done|done|done|right; lia]. }
      transitivity b; [apply above_keep; [done|by left]|].
      apply (above_linear idom' T' q); [by apply C, pred_new|apply above_keep; [done|by left]|lia].
  - intros v u x [Nv U]. rewrite update_slot in U. destruct (decide (v = b)) as [->|Nvb].
    + injection U as <-. destruct update_front as (q & Hq & _). by apply (dominates_meet idom c b w q).
    + by apply (iv_dom _ _ I v).
  - intros v u q [Nv U] Hq Lq Cond. rewrite update_slot in U. destruct (decide (v = b)) as [->|Nvb].
    + injection U as <-. apply above_keep; [|by right]. apply Mw, pred_old; [done|]. intros ->. lia.
    + assert (Hq' : processed_pred idom v q).
      { destruct (decide (q = b)) as [->|N]; [|by apply pred_old]. destruct Hq as (L & _ & E). split; [done|]. split; [|done].
        destruct (iv_ext _ _ I) as [A|A]; [by apply A|]. assert (Sv : is_Some (slot idom v)) by done.
        apply A in Sv as [?|?]; [lia|done|by apply (tr_in _ T v u)]. }
      assert (Nr : rank v <> c) by (intros E; apply Nvb, rank_inj; [by apply (tr_in _ T v u)|done|lia]).
      assert (A : above idom q u) by (apply (iv_front _ _ I v); [done|done|done|lia]).
      apply above_keep; [done|]. destruct Cond; [right|left]; lia.
Qed.

(** The sum of the positions of the parents. *)
Definition height (a : Slots) : nat := sum_list_with (fun v => match slot a v with Some p => rank p | None => m end) order.

Lemma update_height : slot idom b <> Some w -> height idom' < height idom.
Proof using All.
  intros N. assert (Ib : b ∈ order) by by apply (list_elem_of_lookup_2 _ c).
  assert (Lt : match slot idom' b with Some p => rank p | None => m end < match slot idom b with Some p => rank p | None => m end).
  { rewrite update_slot, decide_True by done. destruct (slot idom b) as [u|] eqn:U.
    - destruct (above_rank idom (iv_tree _ _ I) u w (update_rises u U)) as [->|?]; [done|done].
    - pose proof update_below. destruct (rank_in b Ib). lia. }
  apply (sum_with_lt _ _ _ b); [|done|done].
  intros v _. destruct (decide (v = b)) as [->|Nv]; [lia|]. rewrite update_slot, decide_False by done. lia.
Qed.
End update.

(** ** Sweeps and the fixpoint *)
Definition settled (idom : Slots) (b : nat) : Prop :=
  b <> 0 -> exists w, slot idom b = Some w /\ meets idom (processed_pred idom b) (Some w).

Lemma process_spec idom c b : iterating idom c -> order !! c = Some b ->
  exists idom' ch, process f rpo idom b = Some (idom', ch) /\ iterating idom' (S c) /\
    ((ch = false /\ idom' = idom /\ settled idom b) \/ (ch = true /\ height idom' < height idom)).
Proof using All.
  intros I Hc. assert (Ib : b ∈ order) by by apply (list_elem_of_lookup_2 _ c). unfold process.
  destruct (Nat.eqb_spec b 0) as [->|N].
  - exists idom, false. split; [done|]. split; [|left; split_and!; [done|done|by intros []]].
    pose proof (rank_at _ _ entry_first) as R0. pose proof (rank_at _ _ Hc) as Rc. assert (c = 0) as -> by lia.
    destruct I as [T A K J L]. split; [done| |done|done|].
    + destruct A as [A|A]; [by left|right]. intros b Hb. rewrite (A b Hb). split; [intros [?|?]; [lia|by right]|].
      intros [?|?]; [|by right]. right. apply rank_inj; [done|done|lia].
    + intros v u q U Hq Lq Cond. apply (L v u q U Hq Lq). right. lia.
  - destruct (new_parent idom (iv_tree _ _ I) b) as (new & -> & Mt). cbn [mbind option_bind].
    destruct (forward_pred idom c b I Ib N) as (q & Hq & _); [right; by rewrite (rank_at _ _ Hc)|].
    destruct new as [w|]; [|by destruct (Mt q)].
    destruct (bool_decide_reflect (slot idom b = Some w)) as [E|E].
    + exists idom, false. split; [done|]. split; [|left; split_and!; [done|done|by exists w]].
      pose proof (update_iterating idom c b w I Hc N Mt) as I'.
      replace (<[b:=Some w]> idom) with idom in I'; [done|].
      symmetry. apply list_insert_id. unfold slot in E. destruct (idom !! b) as [x|]; [by cbn in E; rewrite E|done].
    + exists (<[b := Some w]> idom), true. split; [done|]. split; [by apply update_iterating|right; split; [done|]].
      by apply (update_height idom c).
Qed.

Lemma sweep_spec bs idom c ch : iterating idom c -> c <= m -> drop c order = bs ->
  exists idom' ch', sweep f rpo idom ch bs = Some (idom', ch') /\ iterating idom' m /\
    ((ch' = ch /\ idom' = idom /\ forall b, b ∈ bs -> settled idom b) \/ (ch' = true /\ height idom' < height idom)).
Proof using All.
  revert idom c ch. induction bs as [|b bs IH]; intros idom c ch I Lc D; cbn [sweep].
  - assert (c = m) as -> by (apply (f_equal length) in D; rewrite length_drop in D; cbn in D; lia).
    exists idom, ch. split; [done|]. split; [done|]. left. split_and!; [done|done|]. intros b []%elem_of_nil.
  - assert (Hc : order !! c = Some b) by (rewrite <- (Nat.add_0_r c), <- lookup_drop, D; done).
    destruct (process_spec idom c b I Hc) as (idom1 & c1 & -> & I1 & R1). cbn [mbind option_bind].
    assert (D1 : drop (S c) order = bs) by (rewrite <- Nat.add_1_r, <- drop_drop, D; done).
    pose proof (lookup_lt_Some _ _ _ Hc) as Lt. destruct (IH idom1 (S c) (ch || c1)%bool I1 Lt D1) as (idom2 & c2 & -> & I2 & R2).
    exists idom2, c2. split; [done|]. split; [done|].
    destruct R1 as [(-> & -> & F1)|(-> & H1)], R2 as [(-> & -> & F2)|(-> & H2)].
    + left. rewrite orb_false_r. split_and!; [done|done|]. intros v [->|Hv]%elem_of_cons; [done|by apply F2].
    + by right.
    + right. by rewrite orb_true_r.
    + right. split; [done|lia].
Qed.

Lemma iterate_spec fuel idom : iterating idom 0 -> height idom < fuel ->
  exists idom', iterate f rpo fuel idom order = Some idom' /\ iterating idom' m /\ forall b, b ∈ order -> settled idom' b.
Proof using All.
  revert idom. induction fuel as [|fuel IH]; intros idom I L; [lia|]. cbn [iterate].
  destruct (sweep_spec order idom 0 false I ltac:(lia) eq_refl) as (idom1 & c1 & -> & I1 & R). cbn [mbind option_bind].
  destruct R as [(-> & -> & F)|(-> & H)]; [by exists idom|]. apply IH; [|lia].
  destruct I1 as [T A K J Fr]. split; [done| |done|done|].
  - left. intros b Hb. destruct A as [A|A]; [by apply A|]. apply A; [done|]. left. by apply rank_in.
  - intros v u q U Hq Lq _. apply (Fr v u q U Hq Lq). left. destruct U as [_ U]. by apply rank_in, (tr_in _ T v u).
Qed.

Lemma iterating_start : iterating (<[0 := Some 0]> (replicate n None)) 0.
Proof using All.
  assert (Hn : 0 < n) by apply order_lt, entry_in.
  assert (S0 : forall v, slot (<[0 := Some 0]> (replicate n None)) v = if decide (v = 0) then Some 0 else None).
  { intros v. rewrite slot_insert by by rewrite length_replicate. by rewrite slot_replicate. }
  assert (No : forall v u, ~ up (<[0 := Some 0]> (replicate n None)) v u).
  { intros v u [N U]. by rewrite S0, decide_False in U. }
  split; [split| | | |].
  - by rewrite length_insert, length_replicate.
  - by rewrite S0, decide_True.
  - intros b p. rewrite S0. destruct (decide (b = 0)) as [->|]; [intros _; apply entry_in|done].
  - intros b p U N. by destruct (No b p).
  - right. intros b _. rewrite S0. destruct (decide (b = 0)) as [->|N].
    + split; [by right|done].
    + split; [by intros []|intros [?|?]; [lia|done]].
  - intros v u x U. by destruct (No v u).
  - intros v u x U. by destruct (No v u).
  - intros v u q U. by destruct (No v u).
Qed.

(** At the fixpoint the ancestors are the dominators. *)
Lemma above_dominates idom x b : (forall b, b ∈ order -> reaches f b) -> (forall a b, a ∈ order -> cfg_edge f a b -> b ∈ order) ->
  iterating idom m -> (forall b, b ∈ order -> settled idom b) -> above idom b x -> dominates f x b.
Proof using All.
  intros _ Cl I F A w W. assert (All : forall b, b ∈ order -> is_Some (slot idom b)).
  { intros v Hv. destruct (iv_ext _ _ I) as [E|E]; [by apply E|]. apply E; [done|]. left. by apply rank_in. }
  assert (Wi : forall b w, walk f b w -> b ∈ order).
  { intros v w' W'. induction W' as [|a v w' W' IH E]; [apply entry_in|by apply (Cl a)]. }
  revert x A. induction W as [|a b w W IH E]; intros x A.
  - inversion A as [|? ? ? [? _]]; subst; [set_solver|done].
  - inversion A as [|? u ? [N U] A']; subst; [left|]. right. apply IH.
    destruct (F b (Wi b _ (walk_step f a b w W E)) N) as (u' & U' & _ & _ & M & _). assert (u' = u) as -> by congruence.
    transitivity u; [|done]. apply M. pose proof (Wi a w W) as Ia. split; [by apply order_lt|]. split; [by apply All|].
    apply is_pred_spec; [by apply cfg_edge_lt in E|done].
Qed.
End tree.
