(* ===== verification/DomFacts.v ===== *)
(** The dominator tree is right: [ir_domtree_build] returns on every function,
    [ir_dominates] decides dominance and [ir_idom] is the immediate
    dominator. *)
From stdpp Require Import relations.
From S2P Require Import Prelude.
From S2P Require Import Ir.
From S2P Require Import Dom.
From S2P Require Import DomDfs.
From S2P Require Import DomTree.
#[local] Open Scope nat_scope.

(** ** The postorder gives the iteration what it needs *)
Lemma preds_follow_lookup f l i b : preds_follow f l -> l !! i = Some b -> b <> 0 ->
  exists j q, i < j /\ l !! j = Some q /\ cfg_edge f q b.
Proof.
  revert i. induction l as [|c l IH]; intros i P L N; [done|]. destruct P as [H P], i as [|i]; cbn in L.
  - injection L as ->. destruct H as [|(q & [j Hj]%list_elem_of_lookup & E)]; [done|]. exists (S j), q. split_and!; [lia|done|done].
  - destruct (IH i P L N) as (j & q & Lt & Hj & E). exists (S j), q. split_and!; [lia|done|done].
Qed.

Section built.
  Context (f : IrFunc) (post : list nat) (P : postorder f post).
  #[local] Notation "'rpo'" := (number_rpo f post).
  #[local] Notation "'order'" := (rev post).

Lemma order_numbered b k : slot rpo b = Some k <-> order !! k = Some b.
Proof using P. apply number_rpo_spec; [apply P|]. intros c. apply (po_lt _ _ P). Qed.
Lemma order_entry : order !! 0 = Some 0.
Proof using P. destruct (po_entry _ _ P) as [l ->]. by rewrite rev_app_distr. Qed.
Lemma order_reach b : b ∈ order <-> reaches f b.
Proof using P. rewrite <- (po_reach _ _ P). by rewrite !list_elem_of_In, <- in_rev. Qed.
Lemma order_in_range b : b ∈ order -> b < length (f_blocks f).
Proof using P. intros H%order_reach. by apply (po_lt _ _ P), (po_reach _ _ P). Qed.
Lemma order_earlier b : b ∈ order -> b <> 0 ->
  exists q k j, order !! k = Some b /\ order !! j = Some q /\ j < k /\ is_pred f q b = true.
Proof using P.
  intros Hb N. pose proof (order_in_range b Hb) as Lb. apply list_elem_of_lookup in Hb as [k Hk].
  pose proof Hk as Hk'. rewrite <- rev_alt_reverse in Hk'. apply reverse_lookup_Some in Hk' as [Hi Lk].
  destruct (preds_follow_lookup f post _ b (po_preds _ _ P) Hi N) as (i & q & Lt & Hq & E).
  pose proof (lookup_lt_Some _ _ _ Hq) as Li. exists q, k, (length post - S i). split; [done|]. split; [|split; [lia|by apply is_pred_spec]].
  rewrite <- rev_alt_reverse. apply reverse_lookup_Some. split; [|lia]. rewrite <- Hq. f_equal. lia.
Qed.
Lemma order_closed a b : a ∈ order -> cfg_edge f a b -> b ∈ order.
Proof using P. intros H%order_reach E. apply order_reach. by eapply rtc_r. Qed.

(** The table the iteration ends with: its ancestors are the dominators. *)
Record dominator_table (idom : Slots) : Prop := {
  dt_len : length idom = length (f_blocks f);
  dt_has b : is_Some (slot idom b) <-> reaches f b;
  dt_up b p : slot idom b = Some p -> b <> 0 ->
    rank rpo order p < rank rpo order b /\ is_Some (slot idom p);
  dt_above b x : is_Some (slot idom b) -> above idom b x <-> dominates f x b;
  dt_rank b : is_Some (slot idom b) -> rank rpo order b < length (f_blocks f);
}.
Lemma iterate_table : exists idom,
  iterate f rpo (S (length (f_blocks f) * length (f_blocks f))) (<[0 := Some 0]> (replicate (length (f_blocks f)) None)) order = Some idom /\
  dominator_table idom.
Proof using P.
  pose proof order_numbered as Nu. pose proof order_entry as En. pose proof order_in_range as Lt. pose proof order_earlier as Ea.
  pose proof (iterating_start f rpo order Nu En Lt Ea) as I0.
  destruct (iterate_spec f rpo order Nu En Lt Ea (S (length (f_blocks f) * length (f_blocks f))) _ I0) as (idom & -> & I & F).
  - pose proof (order_short f rpo order Nu En Lt Ea (order_nodup f rpo order Nu En Lt Ea)) as Short. unfold height.
    set (g := fun v => _). assert (B : forall l, sum_list_with g l <= length l * length order).
    { assert (G : forall v, g v <= length order).
      { intros v. unfold g. destruct (slot _ v) as [p|] eqn:E; [|done]. rewrite slot_insert in E.
        - destruct (decide (v = 0)); [injection E as <-; rewrite (rank_at f rpo order Nu En Lt Ea 0 0 En); lia|by rewrite slot_replicate in E].
        - rewrite length_replicate. apply Lt, (list_elem_of_lookup_2 _ 0 _ En). }
      induction l as [|v l IH]; [cbn; lia|]. cbn [sum_list_with length]. specialize (G v). nia. }
    specialize (B order). nia.
  - exists idom. split; [done|]. pose proof (iv_tree _ _ _ _ _ I) as T.
    assert (Has : forall b, is_Some (slot idom b) <-> reaches f b).
    { intros b. rewrite <- order_reach. split; [intros [p U]; by apply (tr_in _ _ _ _ T b p)|]. intros Hb.
      destruct (iv_ext _ _ _ _ _ I) as [A|A]; [by apply A|]. apply A; [done|]. left. exact (proj2 (rank_in f rpo order Nu En Lt Ea b Hb)). }
    split.
    + apply T.
    + done.
    + apply (tr_up _ _ _ _ T).
    + intros b x S. split; [by apply (above_dominates f rpo order Nu En Lt Ea); [apply order_reach|apply order_closed| |]|].
      by apply (dominates_above f rpo order Nu En Lt Ea idom (length order)).
    + intros b S. apply (rank_lt_n f rpo order Nu En Lt Ea). by apply order_reach, Has.
Qed.
End built.

(** ** The public answer *)
Definition block_at (b : Z) : nat := Z.to_nat (b - 1).
Definition in_blocks (f : IrFunc) (b : Z) : Prop := (1 <= b <= f_nblocks f)%Z.
(** Block [a] dominates block [b], which the entry reaches. *)
Definition id_dominates (f : IrFunc) (a b : Z) : Prop :=
  reaches f (block_at b) /\ dominates f (block_at a) (block_at b).

Section answer.
  Context (f : IrFunc) (t : IrDomTree) (post : list nat) (P : postorder f post) (idom : Slots).
  Context (D : dominator_table f post idom) (Ht : t = mkDomTree (length (f_blocks f)) 0 (<[0 := None]> idom) (number_rpo f post)).

Lemma answer_entry : 0 < length idom.
Proof using All. rewrite (dt_len _ _ _ D). apply (po_lt _ _ P). destruct (po_entry _ _ P) as [l ->]. set_solver. Qed.
Lemma answer_slot b : slot (t_idom t) b = if decide (b = 0) then None else slot idom b.
Proof using All. rewrite Ht. cbn. apply slot_insert, answer_entry. Qed.

Lemma dominates_loop_spec fuel a cur : is_Some (slot idom cur) -> rank (number_rpo f post) (rev post) cur <= fuel ->
  exists r, dominates_loop fuel t a cur = Some r /\ (r = true <-> dominates f a cur /\ a <> cur).
Proof using All.
  revert cur. assert (Z : forall k cur, cur = 0 -> is_Some (slot idom cur) ->
    exists r, dominates_loop k t a cur = Some r /\ (r = true <-> dominates f a cur /\ a <> cur)).
  { intros k cur -> S. exists false. split; [destruct k; cbn [dominates_loop]; by rewrite answer_slot, decide_True|].
    split; [done|]. intros [Da N]. specialize (Da [0] (walk_entry f)). by apply list_elem_of_singleton in Da. }
  induction fuel as [|fuel IH]; intros cur S L.
  all: destruct (decide (cur = 0)) as [->|N]; [by apply Z|]; destruct S as [p U].
  all: destruct (dt_up _ _ _ D cur p U N) as [Lp Sp].
  { lia. }
  cbn [dominates_loop]. rewrite answer_slot, decide_False by done. rewrite U.
  assert (E : dominates f a cur /\ a <> cur <-> dominates f a p).
  { rewrite <- !(dt_above _ _ _ D) by (try done; by eexists). split.
    - intros [A Na]. inversion A as [|? q ? [_ U'] A']; subst; [done|]. by assert (q = p) as -> by congruence.
    - intros A. split; [by apply (rtc_l _ _ p)|]. intros ->.
      assert (R : rank (number_rpo f post) (rev post) cur <= rank (number_rpo f post) (rev post) p); [|lia].
      clear -A D. induction A as [|y z x [Ny Uy] A IH]; [done|]. destruct (dt_up _ _ _ D y z Uy Ny). lia. }
  destruct (Nat.eqb_spec p a) as [->|Na].
  - exists true. split; [done|]. rewrite E. split; [|done]. intros _. apply (dt_above _ _ _ D); [done|]. constructor.
  - replace (t_entry t) with 0 by by rewrite Ht. destruct (Nat.eqb_spec p 0) as [->|Np].
    + exists false. split; [done|]. rewrite E. split; [done|]. intros Da. specialize (Da [0] (walk_entry f)).
      by apply list_elem_of_singleton in Da.
    + destruct (IH p Sp ltac:(lia)) as (r & -> & R). exists r. split; [done|]. rewrite E, R. split; [by intros []|].
      intros Da. split; [done|]. by intros ->.
Qed.
End answer.

Lemma build_answer f : f_blocks f <> [] -> exists post idom, postorder f post /\ dominator_table f post idom /\
  ir_domtree_build f = Some (mkDomTree (length (f_blocks f)) 0 (<[0 := None]> idom) (number_rpo f post)).
Proof.
  intros N. assert (Hn : length (f_blocks f) <> 0) by by destruct (f_blocks f).
  destruct (dfs_postorder f Hn) as (post & E & P). destruct (iterate_table f post P) as (idom & I & D).
  exists post, idom. split; [done|]. split; [done|]. unfold ir_domtree_build.
  rewrite (proj2 (Nat.eqb_neq _ _) Hn), E. cbn [mbind option_bind]. by rewrite I.
Qed.

(** What [ir_dominates] answers. *)
Lemma dominates_answer f : exists t, ir_domtree_build f = Some t /\
  forall a b, exists r, ir_dominates t a b = Some r /\
    (r = true <-> in_blocks f a /\ in_blocks f b /\ (a = b \/ id_dominates f a b)).
Proof.
  destruct (decide (f_blocks f = [])) as [E|N].
  - exists (mkDomTree 0 0 [] []). unfold ir_domtree_build. rewrite E. split; [done|]. intros a b. exists false.
    unfold ir_dominates, in_blocks, f_nblocks. rewrite E. cbn [t_nblocks length]. split; [|split; [done|lia]].
    assert ((a <=? 0) = true \/ (Z.of_nat 0 <? a) = true)%Z as [->| ->] by (destruct (Z.leb_spec a 0), (Z.ltb_spec (Z.of_nat 0) a); lia); [done|].
    by rewrite !orb_true_r.
  - destruct (build_answer f N) as (post & idom & P & D & ->). eexists. split; [done|]. intros a b. unfold ir_dominates.
    cbn [t_nblocks t_rpo]. unfold in_blocks, f_nblocks, id_dominates.
    destruct ((_ || _ || _ || _)%bool) eqn:Range.
    { exists false. split; [done|]. split; [done|]. rewrite !orb_true_iff, !Z.leb_le, !Z.ltb_lt in Range. lia. }
    rewrite !orb_false_iff, !Z.leb_gt, !Z.ltb_ge in Range. destruct Range as [[[? ?] ?] ?].
    destruct (Z.eqb_spec a b) as [->|Nab]; [exists true; split; [done|]; split; [|done]; intros _; split_and!; [lia..|by left]|].
    assert (Nx : block_at a <> block_at b) by (unfold block_at; lia). fold (block_at a). fold (block_at b).
    destruct (slot (number_rpo f post) (block_at b)) as [k|] eqn:R.
    + assert (S : is_Some (slot idom (block_at b))).
      { apply (dt_has _ _ _ D), (order_reach f post P), (list_elem_of_lookup_2 _ k), (order_numbered f post P), R. }
      destruct (dominates_loop_spec f _ post P idom D eq_refl (length (f_blocks f)) (block_at a) (block_at b) S) as (r & E & Hr).
      { pose proof (dt_rank _ _ _ D _ S). lia. }
      exists r. split; [exact E|]. rewrite Hr. pose proof (proj1 (dt_has _ _ _ D _) S) as Re. split.
      * intros [Da _]. split_and!; [lia..|]. by right.
      * intros (_ & _ & [->|[_ Da]]); done.
    + exists false. split; [done|]. split; [done|]. intros (_ & _ & [->|[Re _]]); [done|].
      apply (order_reach f post P) in Re as [k Hk]%list_elem_of_lookup. apply (order_numbered f post P) in Hk. congruence.
Qed.

(** C5. [ir_domtree_build] returns a tree for every function, and
    [ir_dominates] on it always answers: it says yes exactly for a block with
    itself, and for [a] and a reachable [b] such that every path from the entry
    to [b] goes through [a]. *)
Theorem ir_dominates_correct f : exists t, ir_domtree_build f = Some t /\
  forall a b, exists r, ir_dominates t a b = Some r /\
    (r = true <-> in_blocks f a /\ in_blocks f b /\ (a = b \/ id_dominates f a b)).
Proof. apply dominates_answer. Qed.

(** C35. [ir_idom] is the immediate dominator: it is [BLOCK_INVALID] exactly for
    the entry, for unreachable blocks and for ids out of range; otherwise it is
    a strict dominator of the block that every other strict dominator of the
    block dominates. *)
Theorem ir_idom_correct f : exists t, ir_domtree_build f = Some t /\
  forall b, (ir_idom t b <> 0 <-> in_blocks f b /\ b <> 1 /\ reaches f (block_at b))%Z /\
    (ir_idom t b <> 0%Z -> in_blocks f (ir_idom t b) /\ ir_idom t b <> b /\ id_dominates f (ir_idom t b) b /\
       forall x, in_blocks f x -> x <> b -> id_dominates f x b -> id_dominates f x (ir_idom t b)).
Proof.
  destruct (decide (f_blocks f = [])) as [E|N].
  - exists (mkDomTree 0 0 [] []). unfold ir_domtree_build. rewrite E. split; [done|]. intros b.
    assert (Z0 : ir_idom (mkDomTree 0 0 [] []) b = 0%Z).
    { unfold ir_idom. cbn [t_nblocks]. change (Z.of_nat 0) with 0%Z. destruct (Z.leb_spec b 0), (Z.ltb_spec 0 b); done || lia. }
    rewrite Z0. split; [|done]. split; [done|]. unfold in_blocks, f_nblocks. rewrite E. cbn. lia.
  - destruct (build_answer f N) as (post & idom & P & D & ->). eexists. split; [done|].
    set (t := mkDomTree _ _ _ _). intros b. pose proof (answer_slot f t post P idom D eq_refl (block_at b)) as Sl.
    assert (Out : (b <= 0 \/ f_nblocks f < b)%Z -> ir_idom t b = 0%Z).
    { intros R. unfold ir_idom. cbn [t_nblocks t]. fold (f_nblocks f). destruct (Z.leb_spec b 0), (Z.ltb_spec (f_nblocks f) b); try done. lia. }
    destruct (decide (1 <= b <= f_nblocks f)%Z) as [R|R].
    2:{ rewrite Out by lia. split; [|done]. split; [done|]. unfold in_blocks. lia. }
    assert (E : ir_idom t b = match slot (t_idom t) (block_at b) with None => 0%Z | Some p => (Z.of_nat p + 1)%Z end).
    { unfold ir_idom. cbn [t_nblocks t]. fold (f_nblocks f). destruct (Z.leb_spec b 0), (Z.ltb_spec (f_nblocks f) b); try done; lia. }
    rewrite E, Sl. unfold in_blocks. destruct (decide (block_at b = 0)) as [E0|N0].
    { split; [|done]. split; [done|]. unfold block_at in E0. lia. }
    destruct (slot idom (block_at b)) as [p|] eqn:U.
    + assert (S : is_Some (slot idom (block_at b))) by by eexists. destruct (dt_up _ _ _ D _ p U N0) as [L Sp].
      pose proof (proj1 (dt_has _ _ _ D _) S) as Rb. pose proof (proj1 (dt_has _ _ _ D _) Sp) as Rp.
      assert (Lp : p < length (f_blocks f)) by by apply (po_lt _ _ P), (po_reach _ _ P).
      assert (Bp : block_at (Z.of_nat p + 1) = p) by (unfold block_at; lia).
      split; [split; [|lia]; intros _; split_and!; [lia..| |done]; intros ->; by apply N0|]. intros _.
      unfold id_dominates. rewrite Bp. split; [unfold f_nblocks; lia|]. split.
      { intros Eb. rewrite <- Eb, Bp in L. lia. }
      split; [split; [done|]; apply (dt_above _ _ _ D); [done|]; by apply rtc_once|].
      intros x Rx Nx [_ Dx]. split; [done|]. apply (dt_above _ _ _ D) in Dx; [|done]. apply (dt_above _ _ _ D); [done|].
      inversion Dx as [Ex|? q ? [_ U'] A]; subst; [unfold block_at in *; lia|]. by assert (q = p) as -> by congruence.
    + split; [|done]. split; [done|]. intros (_ & _ & Re). apply (dt_has _ _ _ D) in Re as [? ?]. congruence.
Qed.
