(* ===== verification/Dce.v ===== *)
(** [src/opt/dce.c]: dead-code elimination by marking. The roots (stores,
    calls, ordered accesses, terminators, ...) mark their operands; marked
    values mark the operands of their definition, or, for a block parameter,
    the arguments of the incoming edges; what defines an unmarked value goes.

    The arrays [defs], [bp_block] and [bp_index] are maps, [live] is a set and
    [work] a stack. [call_bailed] is whether the pass logged
    [dce_call_side_effects]; the log itself is output. [CGF_ICE] is [None]. *)
From stdpp Require Import gmap relations.
From S2P Require Import Prelude.
From S2P Require Import Ir.
From S2P Require Import IrSem.
From S2P Require Import Renumber.
From S2P Require Import IrValues.
#[local] Open Scope Z_scope.

Definition IRF_VOLATILE : Z := 1.
Definition IRF_SEQ_CST : Z := 2.

Definition dce_root (i : IrInst) : bool :=
  if negb (Z.land (in_flags i) (Z.lor IRF_VOLATILE IRF_SEQ_CST) =? 0) then true
  else match in_op i with
       | IR_STORE | IR_MEMCPY | IR_MEMSET | IR_CALL | IR_VA_START | IR_STACKSAVE | IR_STACKRESTORE
       | IR_ATOMICRMW | IR_CMPXCHG | IR_ASM | IR_RET | IR_BR | IR_CONDBR | IR_SWITCH | IR_UNREACHABLE => true
       | _ => false
       end.

Record Marking := mkMarking { live : gset Z; work : list Z }.

Definition enqueue_operand (nvals : Z) (s : Marking) (op : IrOperand) : option Marking :=
  if negb (is_kind (o_kind op) IROP_VALUE) then Some s
  else
    let v := u32 (o_a op) in
    if (v <? 1) || (nvals <? v) then None
    else if bool_decide (v ∈ live s) then Some s
    else Some (mkMarking ({[v]} ∪ live s) (v :: work s)).

(** [for (i = 0; ...) enqueue_operand(...)] *)
Fixpoint enqueue_all (nvals : Z) (s : Marking) (ops : list IrOperand) : option Marking :=
  match ops with
  | [] => Some s
  | op :: ops => s ← enqueue_operand nvals s op; enqueue_all nvals s ops
  end.
Definition enqueue_inst_uses (nvals : Z) (s : Marking) (i : IrInst) : option Marking :=
  s ← enqueue_all nvals s (in_ops i); enqueue_all nvals s (concat (map e_args (in_edges i))).

(** ** The first walk: definitions and roots *)
Record Scan := mkScan {
  sc_defs : gmap Z IrInst; sc_params : gmap Z (Z * nat); sc_marking : Marking; call_bailed : bool;
}.

Definition scan_params (bi : Z) (params : list Z) (m : gmap Z (Z * nat)) : gmap Z (Z * nat) :=
  foldl (fun m '(pi, v) => if v =? 0 then m else <[v := (bi + 1, pi)]> m) m (imap pair params).

Definition scan_inst (f : IrFunc) (s : Scan) (i : IrInst) : option Scan :=
  let defs := if in_result i =? 0 then sc_defs s else <[in_result i := i]> (sc_defs s) in
  if negb (dce_root i) then Some (mkScan defs (sc_params s) (sc_marking s) (call_bailed s))
  else
    let bailed := opc_eqb (in_op i) IR_CALL || call_bailed s in
    m ← (if in_result i =? 0 then enqueue_inst_uses (f_nvals f) (sc_marking s) i
         else enqueue_operand (f_nvals f) (sc_marking s) (ir_op_value (f_vals f) (in_result i)));
    Some (mkScan defs (sc_params s) m bailed).
Fixpoint scan_insts (f : IrFunc) (s : Scan) (ins : list IrInst) : option Scan :=
  match ins with
  | [] => Some s
  | i :: ins => s ← scan_inst f s i; scan_insts f s ins
  end.
Fixpoint scan_blocks (f : IrFunc) (bi : Z) (s : Scan) (bs : list IrBlock) : option Scan :=
  match bs with
  | [] => Some s
  | b :: bs =>
    s ← scan_insts f (mkScan (sc_defs s) (scan_params bi (b_params b) (sc_params s)) (sc_marking s) (call_bailed s)) (b_insts b);
    scan_blocks f (bi + 1) s bs
  end.

(** ** The worklist *)

(** The arguments the terminators pass to parameter [want] of a block. *)
Definition incoming_args (f : IrFunc) (want : Z * nat) : list IrOperand :=
  concat (map (fun b => match list.last (b_insts b) with
                        | None => []
                        | Some term => omap (fun e => if e_target e =? want.1 then e_args e !! want.2 else None) (in_edges term)
                        end) (f_blocks f)).

(** The body of [while (nwork)], on the value popped. *)
Definition mark_value (f : IrFunc) (defs : gmap Z IrInst) (params : gmap Z (Z * nat)) (s : Marking) (v : Z) : option Marking :=
  match defs !! v with
  | Some def => enqueue_inst_uses (f_nvals f) s def
  | None =>
    match params !! v with
    | Some want => enqueue_all (f_nvals f) s (incoming_args f want)
    | None => Some s
    end
  end.
Fixpoint drain (fuel : nat) (f : IrFunc) (defs : gmap Z IrInst) (params : gmap Z (Z * nat)) (s : Marking) : option (gset Z) :=
  match fuel, work s with
  | _, [] => Some (live s)
  | O, _ => None
  | Datatypes.S k, v :: rest => s ← mark_value f defs params (mkMarking (live s) rest) v; drain k f defs params s
  end.

(** ** The last walk *)
Definition dead (l : gset Z) (i : IrInst) : bool := negb (in_result i =? 0) && negb (bool_decide (in_result i ∈ l)).
Definition sweep_block (l : gset Z) (b : IrBlock) : IrBlock :=
  mkBlock (b_params b) (List.filter (fun i => negb (dead l i)) (b_insts b)).

(** Every value enters the worklist at most once. *)
Definition find_live (f : IrFunc) : option (gset Z * bool) :=
  s ← scan_blocks f 0 (mkScan ∅ ∅ (mkMarking ∅ []) false) (f_blocks f);
  l ← drain (length (f_vals f)) f (sc_defs s) (sc_params s) (sc_marking s);
  Some (l, call_bailed s).
Definition dce_func (f : IrFunc) : option (IrFunc * bool * bool) :=
  '(l, bailed) ← find_live f;
  let changed := existsb (dead l) (concat (map b_insts (f_blocks f))) in
  let f' := set_blocks f (map (sweep_block l) (f_blocks f)) in
  Some (if changed then ir_func_renumber f' else f', changed, bailed).

(** The module's functions, whether one changed, and the functions whose call
    bail was logged. *)
Fixpoint opt_dce (fs : list IrFunc) : option (list IrFunc * bool * list bool) :=
  match fs with
  | [] => Some ([], false, [])
  | f :: fs =>
    '(f', c, b) ← dce_func f; '(fs', cs, bs) ← opt_dce fs; Some (f' :: fs', c || cs, b :: bs)
  end.

(** The marking of dead-code elimination: it ends within one pop per value and
    marks exactly the values a root needs. *)

(** ** The specification *)

Section spec.
  Context (f : IrFunc).
(** A value is needed by a root, by the definition of a needed value, or as
    the argument for a needed block parameter. *)
Inductive Live : Z -> Prop :=
| live_root i : i ∈ insts f -> dce_root i = true -> in_result i <> 0 -> Live (in_result i)
| live_use i op : i ∈ insts f -> dce_root i = true -> in_result i = 0 -> op ∈ inst_uses i -> o_kind op = IROP_VALUE -> Live (o_a op)
| live_def i op : i ∈ insts f -> in_result i <> 0 -> Live (in_result i) -> op ∈ inst_uses i -> o_kind op = IROP_VALUE -> Live (o_a op)
| live_arg bi b pi v op : f_blocks f !! bi = Some b -> b_params b !! pi = Some v -> v <> 0 -> Live v ->
    op ∈ incoming_args f (Z.of_nat bi + 1, pi) -> o_kind op = IROP_VALUE -> Live (o_a op).
End spec.

(** ** Queues *)

(** The ids of the value operands. *)
Definition value_ids (ops : list IrOperand) : gset Z :=
  list_to_set (map o_a (List.filter (fun op => is_kind (o_kind op) IROP_VALUE) ops)).
Lemma elem_value_ids v ops : v ∈ value_ids ops <-> exists op, op ∈ ops /\ o_kind op = IROP_VALUE /\ o_a op = v.
Proof.
  unfold value_ids, is_kind. rewrite elem_of_list_to_set, list_elem_of_In, in_map_iff. split.
  - intros (op & E & H%List.filter_In). destruct H as [H K%bool_decide_eq_true]. exists op. by rewrite list_elem_of_In.
  - intros (op & H & K & E). exists op. split; [done|]. apply List.filter_In. by rewrite <- list_elem_of_In, bool_decide_eq_true.
Qed.

(** [grown s s' ids]: [ids] were marked, the new ones queued once each. *)
Definition grown (s s' : Marking) (ids : gset Z) : Prop :=
  live s' = live s ∪ ids /\ exists new, work s' = new ++ work s /\ NoDup new /\ forall v, v ∈ new <-> v ∈ ids /\ v ∉ live s.

Definition in_range (nvals : Z) (op : IrOperand) : Prop :=
  nvals < 2 ^ 32 /\ (o_kind op = IROP_VALUE -> 1 <= o_a op <= nvals).

Lemma grown_refl s : grown s s ∅.
Proof. split; [set_solver|]. exists []. split; [done|]. split; [apply NoDup_nil_2|set_solver]. Qed.
Lemma grown_trans s s1 s2 a b : grown s s1 a -> grown s1 s2 b -> grown s s2 (a ∪ b).
Proof.
  intros (L1 & n1 & W1 & N1 & E1) (L2 & n2 & W2 & N2 & E2). split; [rewrite L2, L1; set_solver|].
  exists (n2 ++ n1). split; [by rewrite W2, W1, <- app_assoc|]. split.
  - apply list.NoDup_app. split; [done|]. split; [|done]. intros v Hv Hv'. apply E2 in Hv as [_ N]. apply E1 in Hv' as [? _].
    apply N. rewrite L1. set_solver.
  - intros v. rewrite elem_of_app, E1, E2, L1. destruct (decide (v ∈ a)); set_solver.
Qed.

Lemma enqueue_operand_grown nvals s op : in_range nvals op ->
  exists s', enqueue_operand nvals s op = Some s' /\ grown s s' (value_ids [op]).
Proof.
  intros [Lt R]. unfold enqueue_operand, is_kind. destruct (bool_decide_reflect (o_kind op = IROP_VALUE)) as [K|K]; cbn [negb].
  - specialize (R K). rewrite u32_small by (unfold is_u32; lia).
    destruct (Z.ltb_spec (o_a op) 1), (Z.ltb_spec nvals (o_a op)); try lia. cbn [orb].
    assert (Ids : forall v, v ∈ value_ids [op] <-> v = o_a op).
    { intros v. rewrite elem_value_ids. split; [intros (op' & ->%list_elem_of_singleton & _ & <-); done|].
      intros ->. exists op. split; [by apply list_elem_of_singleton|done]. }
    destruct (bool_decide_reflect (o_a op ∈ live s)) as [I|I]; eexists; (split; [done|]).
    + split; [apply set_eq; intros v; rewrite elem_of_union, Ids; naive_solver|]. exists []. split; [done|]. split; [apply NoDup_nil_2|].
      intros v. rewrite Ids. split; [intros []%elem_of_nil|]. intros [-> N]. done.
    + split; cbn [live work]; [apply set_eq; intros v; rewrite !elem_of_union, elem_of_singleton, Ids; tauto|].
      exists [o_a op]. split; [done|]. split; [apply NoDup_singleton|]. intros v. rewrite list_elem_of_singleton, Ids. naive_solver.
  - exists s. split; [done|]. assert (E : value_ids [op] = ∅); [|rewrite E; apply grown_refl].
    apply set_eq. intros v. rewrite elem_value_ids. split; [|set_solver]. intros (op' & ->%list_elem_of_singleton & K' & _). done.
Qed.
Lemma value_ids_app l k : value_ids (l ++ k) = value_ids l ∪ value_ids k.
Proof. apply set_eq. intros v. rewrite elem_of_union, !elem_value_ids. setoid_rewrite elem_of_app. naive_solver. Qed.
Lemma value_ids_cons op ops : value_ids (op :: ops) = value_ids [op] ∪ value_ids ops.
Proof. apply (value_ids_app [op]). Qed.

Lemma enqueue_all_grown nvals s ops : (forall op, op ∈ ops -> in_range nvals op) ->
  exists s', enqueue_all nvals s ops = Some s' /\ grown s s' (value_ids ops).
Proof.
  revert s. induction ops as [|op ops IH]; intros s H; cbn [enqueue_all]; [exists s; split; [done|apply grown_refl]|].
  destruct (enqueue_operand_grown nvals s op (H op ltac:(left))) as (s1 & -> & G1). cbn [mbind option_bind].
  destruct (IH s1 ltac:(intros o Ho; apply H; by right)) as (s2 & -> & G2).
  exists s2. split; [done|]. rewrite value_ids_cons. by eapply grown_trans.
Qed.
Lemma enqueue_all_app nvals s l k : enqueue_all nvals s (l ++ k) = s ← enqueue_all nvals s l; enqueue_all nvals s k.
Proof.
  revert s. induction l as [|op l IH]; intros s; [done|]. cbn [app enqueue_all]. destruct (enqueue_operand nvals s op) as [s1|]; [|done].
  cbn [mbind option_bind]. apply IH.
Qed.
Lemma enqueue_inst_uses_all nvals s i : enqueue_inst_uses nvals s i = enqueue_all nvals s (inst_uses i).
Proof. unfold enqueue_inst_uses, inst_uses. by rewrite enqueue_all_app. Qed.

(** ** The scan *)
Definition root_uses (f : IrFunc) (i : IrInst) : list IrOperand :=
  if dce_root i then
    if in_result i =? 0 then inst_uses i else [ir_op_value (f_vals f) (in_result i)]
  else [].
Definition add_def (m : gmap Z IrInst) (i : IrInst) : gmap Z IrInst :=
  if in_result i =? 0 then m else <[in_result i := i]> m.
Definition bails (i : IrInst) : bool := dce_root i && opc_eqb (in_op i) IR_CALL.
Fixpoint scan_all_params (bi : Z) (m : gmap Z (Z * nat)) (bs : list IrBlock) : gmap Z (Z * nat) :=
  match bs with [] => m | b :: bs => scan_all_params (bi + 1) (scan_params bi (b_params b) m) bs end.

Lemma scan_inst_eq f s i : scan_inst f s i =
  m ← enqueue_all (f_nvals f) (sc_marking s) (root_uses f i);
  Some (mkScan (add_def (sc_defs s) i) (sc_params s) m (bails i || call_bailed s)).
Proof.
  unfold scan_inst, root_uses, bails, add_def. destruct (dce_root i); cbn [negb andb orb]; [|by destruct s].
  destruct (in_result i =? 0); [by rewrite enqueue_inst_uses_all|]. cbn [enqueue_all].
  by destruct (enqueue_operand _ _ _).
Qed.
Lemma scan_insts_eq f s ins : scan_insts f s ins =
  m ← enqueue_all (f_nvals f) (sc_marking s) (concat (map (root_uses f) ins));
  Some (mkScan (foldl add_def (sc_defs s) ins) (sc_params s) m (existsb bails ins || call_bailed s)).
Proof.
  revert s. induction ins as [|i ins IH]; intros s; [by destruct s|]. cbn [scan_insts map concat foldl existsb].
  rewrite scan_inst_eq, enqueue_all_app. destruct (enqueue_all _ _ (root_uses f i)) as [m|]; [|done]. cbn [mbind option_bind].
  rewrite IH. cbn [sc_marking sc_defs sc_params call_bailed]. destruct (enqueue_all _ _ _); [|done]. cbn [mbind option_bind].
  f_equal. f_equal. destruct (bails i), (existsb bails ins); done.
Qed.
Lemma scan_blocks_eq f bi s bs : scan_blocks f bi s bs =
  let ins := concat (map b_insts bs) in
  m ← enqueue_all (f_nvals f) (sc_marking s) (concat (map (root_uses f) ins));
  Some (mkScan (foldl add_def (sc_defs s) ins) (scan_all_params bi (sc_params s) bs) m (existsb bails ins || call_bailed s)).
Proof.
  cbv zeta. revert bi s. induction bs as [|b bs IH]; intros bi s; [by destruct s|]. cbn [scan_blocks map concat scan_all_params].
  rewrite scan_insts_eq. cbn [sc_marking sc_defs sc_params call_bailed]. rewrite map_app, concat_app, enqueue_all_app, foldl_app, existsb_app.
  destruct (enqueue_all _ _ (concat (map (root_uses f) (b_insts b)))) as [m|]; [|done]. cbn [mbind option_bind].
  rewrite IH. cbn [sc_marking sc_defs sc_params call_bailed]. destruct (enqueue_all _ _ _); [|done]. cbn [mbind option_bind].
  f_equal. f_equal. destruct (existsb bails (b_insts b)), (existsb bails (concat (map b_insts bs))); done.
Qed.

(** ** One definition per value *)

(** Every place that defines a value, with the id: a parameter of a block or
    an instruction. *)
Definition block_defs (bi : nat) (b : IrBlock) : list ((Z * nat + IrInst) * Z) :=
  imap (fun pi p => (inl (Z.of_nat bi + 1, pi), p)) (b_params b) ++ map (fun i => (inr i, in_result i)) (b_insts b).
Definition all_defs (f : IrFunc) : list ((Z * nat + IrInst) * Z) := concat (imap block_defs (f_blocks f)).

Lemma map_imap {A B C} (h : B -> C) (F : nat -> A -> B) (G : A -> C) l : (forall k x, h (F k x) = G x) ->
  map h (imap F l) = map G l.
Proof.
  revert F. induction l as [|x l IH]; intros F H; [done|]. rewrite imap_cons. cbn [map]. rewrite H, IH; [done|].
  intros k y. apply H.
Qed.
Lemma all_defs_ids f : map snd (all_defs f) = defined_ids f.
Proof.
  unfold all_defs, defined_ids. rewrite concat_map. f_equal. apply map_imap. intros bi b. unfold block_defs.
  rewrite map_app. f_equal; [|by rewrite map_map]. rewrite <- (map_id (b_params b)) at 2. by apply map_imap.
Qed.
Lemma nodup_unique {D} (l : list (D * Z)) x y v : NoDup (nonzero (map snd l)) -> (x, v) ∈ l -> (y, v) ∈ l -> v <> 0 -> x = y.
Proof.
  intros N Hx Hy V. assert (In : forall z, (z, v) ∈ l -> v ∈ nonzero (map snd l)).
  { intros z Hz. apply elem_nonzero. split; [|done]. apply list_elem_of_In, in_map_iff. exists (z, v). by rewrite <- list_elem_of_In. }
  induction l as [|[z w] l IH]; [by apply elem_of_nil in Hx|]. cbn [map snd nonzero List.filter] in *.
  destruct (Z.eqb_spec w 0) as [->|W]; cbn [negb] in *.
  - apply elem_of_cons in Hx as [Ex|Hx], Hy as [Ey|Hy]; try congruence. apply IH; try done. intros u Hu. apply elem_nonzero.
    split; [|done]. apply list_elem_of_In, in_map_iff. exists (u, v). by rewrite <- list_elem_of_In.
  - apply list.NoDup_cons in N as [Nw N].
    assert (In' : forall u, (u, v) ∈ l -> v ∈ nonzero (map snd l)).
    { intros u Hu. apply elem_nonzero. split; [|done]. apply list_elem_of_In, in_map_iff. exists (u, v). by rewrite <- list_elem_of_In. }
    apply elem_of_cons in Hx as [Ex|Hx], Hy as [Ey|Hy]; try congruence.
    + injection Ex as -> ->. by destruct Nw; apply (In' y).
    + injection Ey as -> ->. by destruct Nw; apply (In' x).
    + by apply IH.
Qed.

Section ssa.
  Context (f : IrFunc) (S : ssa f).

Lemma defs_unique x y v : (x, v) ∈ all_defs f -> (y, v) ∈ all_defs f -> v <> 0 -> x = y.
Proof using S.
  apply nodup_unique. rewrite all_defs_ids. pose proof (ss_nodup _ S) as N. unfold doc_ids, nonzero in *.
  rewrite filter_app in N. by apply list.NoDup_app in N as (_ & _ & N).
Qed.
Lemma inst_def i : i ∈ insts f -> (inr i, in_result i) ∈ all_defs f.
Proof.
  intros Hi. destruct (insts_inv f i Hi) as (b & [bi Hb]%list_elem_of_lookup & Hib). unfold all_defs.
  apply list_elem_of_In, in_concat. exists (block_defs bi b). split.
  - apply list_elem_of_In, (list_elem_of_lookup_2 _ bi). by rewrite list_lookup_imap, Hb.
  - apply in_or_app. right. apply in_map_iff. exists i. by rewrite <- list_elem_of_In.
Qed.
Lemma param_def bi b pi v : f_blocks f !! bi = Some b -> b_params b !! pi = Some v -> (inl (Z.of_nat bi + 1, pi), v) ∈ all_defs f.
Proof.
  intros Hb Hp. unfold all_defs. apply list_elem_of_In, in_concat. exists (block_defs bi b). split.
  - apply list_elem_of_In, (list_elem_of_lookup_2 _ bi). by rewrite list_lookup_imap, Hb.
  - apply in_or_app. left. apply list_elem_of_In, (list_elem_of_lookup_2 _ pi). by rewrite list_lookup_imap, Hp.
Qed.
Lemma inst_unique i j : i ∈ insts f -> j ∈ insts f -> in_result i = in_result j -> in_result i <> 0 -> i = j.
Proof using S.
  intros Hi Hj E N. pose proof (inst_def j Hj) as Dj. rewrite <- E in Dj.
  pose proof (defs_unique _ _ _ (inst_def i Hi) Dj N) as U. by injection U.
Qed.
Lemma inst_not_param i bi b pi : i ∈ insts f -> f_blocks f !! bi = Some b -> b_params b !! pi = Some (in_result i) -> in_result i = 0.
Proof using S.
  intros Hi Hb Hp. destruct (decide (in_result i = 0)) as [|N]; [done|].
  by pose proof (defs_unique _ _ _ (inst_def i Hi) (param_def bi b pi _ Hb Hp) N).
Qed.

(** ** The tables *)
Lemma add_defs_lookup ins m v : foldl add_def m ins !! v = m !! v \/
  exists i, i ∈ ins /\ in_result i = v /\ v <> 0 /\ foldl add_def m ins !! v = Some i.
Proof.
  revert m. induction ins as [|i ins IH]; intros m; cbn [foldl]; [by left|].
  destruct (IH (add_def m i)) as [E|(j & Hj & ? & ? & E)]; [|right; exists j; split; [by right|done]]. rewrite E.
  unfold add_def. destruct (Z.eqb_spec (in_result i) 0) as [|N]; [by left|].
  destruct (decide (in_result i = v)) as [<-|Ne]; [|left; by rewrite lookup_insert_ne].
  right. exists i. split; [left|]. split; [done|]. split; [done|]. by rewrite lookup_insert_eq.
Qed.
Lemma add_defs_has ins m i : i ∈ ins -> in_result i <> 0 -> is_Some (foldl add_def m ins !! in_result i).
Proof.
  revert m. induction ins as [|j ins IH]; intros m Hi N; [by apply elem_of_nil in Hi|]. cbn [foldl].
  apply elem_of_cons in Hi as [<-|Hi]; [|by apply IH].
  destruct (add_defs_lookup ins (add_def m i) (in_result i)) as [E|(k & _ & _ & _ & E)]; rewrite E; [|done].
  unfold add_def. rewrite (proj2 (Z.eqb_neq _ 0) N). by rewrite lookup_insert_eq.
Qed.
Lemma defs_lookup v i : foldl add_def ∅ (insts f) !! v = Some i <-> i ∈ insts f /\ in_result i = v /\ v <> 0.
Proof using S.
  split.
  - intros H. destruct (add_defs_lookup (insts f) ∅ v) as [E|(j & Hj & E1 & E2 & E)]; [by rewrite E, lookup_empty in H|].
    rewrite H in E. injection E as ->. done.
  - intros (Hi & <- & N). destruct (add_defs_has (insts f) ∅ i Hi N) as [j Hj].
    destruct (add_defs_lookup (insts f) ∅ (in_result i)) as [E|(k & Hk & E1 & E2 & E)]; [by rewrite Hj, lookup_empty in E|].
    rewrite E. f_equal. apply inst_unique; try done. by rewrite E1.
Qed.

Lemma scan_params_lookup bi params m v : scan_params bi params m !! v = m !! v \/
  exists pi, params !! pi = Some v /\ v <> 0 /\ scan_params bi params m !! v = Some (bi + 1, pi).
Proof.
  unfold scan_params. induction params as [|p params IH] using rev_ind; [by left|].
  rewrite imap_app, foldl_app. cbn [imap foldl]. rewrite Nat.add_0_r.
  destruct (Z.eqb_spec p 0) as [->|N].
  - destruct IH as [E|(pi & Hp & V & E)]; [by left|right]. exists pi. split; [by apply lookup_app_l_Some|done].
  - destruct (decide (p = v)) as [->|Ne].
    + right. exists (length params). split; [by rewrite list_lookup_middle|]. split; [done|]. by rewrite lookup_insert_eq.
    + rewrite lookup_insert_ne by done. destruct IH as [E|(pi & Hp & V & E)]; [by left|right]. exists pi.
      split; [by apply lookup_app_l_Some|done].
Qed.
Lemma scan_params_has bi params m v : v ∈ params -> v <> 0 -> is_Some (scan_params bi params m !! v).
Proof.
  intros Hv N. unfold scan_params. induction params as [|p params IH] using rev_ind; [by apply elem_of_nil in Hv|].
  rewrite imap_app, foldl_app. cbn [imap foldl]. apply elem_of_app in Hv as [Hv|Hv].
  - destruct (p =? 0); [by apply IH|]. destruct (decide (p = v)) as [->|Ne]; [by rewrite lookup_insert_eq|].
    rewrite lookup_insert_ne by done. by apply IH.
  - apply list_elem_of_singleton in Hv as <-. rewrite (proj2 (Z.eqb_neq _ 0) N). by rewrite lookup_insert_eq.
Qed.
Lemma scan_all_lookup bi m bs v : scan_all_params bi m bs !! v = m !! v \/
  exists k b pi, bs !! k = Some b /\ b_params b !! pi = Some v /\ v <> 0 /\ scan_all_params bi m bs !! v = Some (bi + Z.of_nat k + 1, pi).
Proof.
  revert bi m. induction bs as [|b bs IH]; intros bi m; [by left|]. cbn [scan_all_params].
  destruct (IH (bi + 1) (scan_params bi (b_params b) m)) as [E|(k & c & pi & Hk & Hp & V & E)]; rewrite E.
  - destruct (scan_params_lookup bi (b_params b) m v) as [E'|(pi & Hp & V & E')]; rewrite E'; [by left|right].
    exists 0%nat, b, pi. split; [done|]. split; [done|]. split; [done|]. do 2 f_equal. lia.
  - right. exists (Datatypes.S k), c, pi. split; [done|]. split; [done|]. split; [done|]. do 2 f_equal. lia.
Qed.
Lemma scan_all_has bi m bs v b : b ∈ bs -> v ∈ b_params b -> v <> 0 -> is_Some (scan_all_params bi m bs !! v).
Proof.
  revert bi m. induction bs as [|c bs IH]; intros bi m Hb Hv N; [by apply elem_of_nil in Hb|]. cbn [scan_all_params].
  apply elem_of_cons in Hb as [<-|Hb]; [|by apply IH].
  destruct (scan_all_lookup (bi + 1) (scan_params bi (b_params b) m) bs v) as [E|(? & ? & ? & _ & _ & _ & E)]; rewrite E; [|done].
  by apply scan_params_has.
Qed.
Lemma params_lookup v bi b pi : f_blocks f !! bi = Some b -> b_params b !! pi = Some v -> v <> 0 ->
  scan_all_params 0 ∅ (f_blocks f) !! v = Some (Z.of_nat bi + 1, pi).
Proof using S.
  intros Hb Hp N. destruct (scan_all_has 0 ∅ (f_blocks f) v b) as [w Hw];
    [by apply list_elem_of_lookup_2 in Hb|by apply list_elem_of_lookup_2 in Hp|done|].
  destruct (scan_all_lookup 0 ∅ (f_blocks f) v) as [E|(k & c & qi & Hk & Hq & _ & E)]; [by rewrite Hw, lookup_empty in E|].
  rewrite E. pose proof (defs_unique _ _ _ (param_def bi b pi v Hb Hp) (param_def k c qi v Hk Hq) N) as U.
  injection U as U1 U2. subst qi. do 2 f_equal. lia.
Qed.
Lemma params_lookup_inv v w : scan_all_params 0 ∅ (f_blocks f) !! v = Some w ->
  exists bi b pi, f_blocks f !! bi = Some b /\ b_params b !! pi = Some v /\ v <> 0 /\ w = (Z.of_nat bi + 1, pi).
Proof.
  intros H. destruct (scan_all_lookup 0 ∅ (f_blocks f) v) as [E|(k & c & qi & Hk & Hq & V & E)]; [by rewrite H, lookup_empty in E|].
  rewrite H in E. injection E as ->. by exists k, c, qi.
Qed.

(** ** The worklist *)
Context (U : forall op, uses f op -> o_kind op = IROP_VALUE -> o_a op ∈ doc_ids f).
#[local] Notation "'defs'" := (foldl add_def ∅ (insts f)).
#[local] Notation "'params'" := (scan_all_params 0 ∅ (f_blocks f)).

(** What marking a value marks. *)
Definition needs (v : Z) : list IrOperand :=
  match defs !! v with
  | Some i => inst_uses i
  | None => match params !! v with Some w => incoming_args f w | None => [] end
  end.

Lemma inst_uses_used i op : i ∈ insts f -> op ∈ inst_uses i -> uses f op.
Proof.
  intros Hi [Ho|Ho]%elem_of_app; [left; by exists i|right]. apply list_elem_of_In, in_concat in Ho as (l & (e & <- & He)%in_map_iff & Ho).
  exists e. split; [|by apply list_elem_of_In]. apply (elem_edges f i); [done|by apply list_elem_of_In].
Qed.
Lemma incoming_used w op : op ∈ incoming_args f w -> uses f op.
Proof.
  intros Ho. unfold incoming_args in Ho. apply list_elem_of_In, in_concat in Ho as (l & (b & <- & Hb)%in_map_iff & Ho).
  destruct (list.last (b_insts b)) as [term|] eqn:L; [|done]. apply list_elem_of_In, list_elem_of_omap in Ho as (e & He & Ho).
  destruct (e_target e =? w.1); [|done]. right. exists e. split; [|by apply list_elem_of_lookup_2 in Ho].
  apply (elem_edges f term); [|done]. apply (elem_insts f b); [by apply list_elem_of_In|]. by apply last_Some_elem_of in L.
Qed.
Lemma used_in_range op : uses f op -> in_range (f_nvals f) op.
Proof using S U. intros Ho. split; [apply S|]. intros K. by apply (ss_range _ S), U. Qed.
Lemma needs_in_range v op : op ∈ needs v -> in_range (f_nvals f) op.
Proof using S U.
  intros Ho. apply used_in_range. unfold needs in Ho. destruct (defs !! v) as [i|] eqn:D.
  - apply defs_lookup in D as (Hi & _ & _). by apply (inst_uses_used i).
  - destruct (params !! v) as [w|]; [by apply incoming_used in Ho|by apply elem_of_nil in Ho].
Qed.
Lemma mark_value_eq s v : mark_value f defs params s v = enqueue_all (f_nvals f) s (needs v).
Proof.
  unfold mark_value, needs. destruct (defs !! v) as [i|]; [apply enqueue_inst_uses_all|]. by destruct (params !! v).
Qed.

Record marking (s : Marking) : Prop := {
  mk_sound v : v ∈ live s -> Live f v /\ 1 <= v <= f_nvals f;
  mk_work v : v ∈ work s -> v ∈ live s;
  mk_nodup : NoDup (work s);
  mk_closed v : v ∈ live s -> v ∉ work s -> value_ids (needs v) ⊆ live s;
}.

Lemma needs_live v op : Live f v -> op ∈ needs v -> o_kind op = IROP_VALUE -> Live f (o_a op).
Proof using S.
  intros L Ho K. unfold needs in Ho. destruct (defs !! v) as [i|] eqn:D.
  - apply defs_lookup in D as (Hi & <- & N). by apply (live_def f i).
  - destruct (params !! v) as [w|] eqn:P; [|by apply elem_of_nil in Ho].
    apply params_lookup_inv in P as (bi & b & pi & Hb & Hp & N & ->). by apply (live_arg f bi b pi v).
Qed.

Lemma pop_marking s v rest s' : marking s -> work s = v :: rest ->
  grown (mkMarking (live s) rest) s' (value_ids (needs v)) -> marking s'.
Proof using S U.
  intros [So Wo Nd Cl] E (L & new & W & Nn & En). cbn [live work] in *. rewrite E in *. apply list.NoDup_cons in Nd as [Nv Nr].
  assert (Lv : v ∈ live s) by (apply Wo; left). split.
  - intros x. rewrite L, elem_of_union. intros [Hx|Hx]; [by apply So|]. apply elem_value_ids in Hx as (op & Ho & K & <-).
    split; [apply (needs_live v); [by apply So|done|done]|]. by apply (needs_in_range v op).
  - intros x. rewrite W, L, elem_of_app, elem_of_union. intros [Hx|Hx]; [right; by apply En|left; apply Wo; by right].
  - rewrite W. apply list.NoDup_app. split; [done|]. split; [|done]. intros x Hx Hr. apply En in Hx as [_ N]. apply N, Wo. by right.
  - intros x. rewrite W, L, elem_of_app, elem_of_union. intros Hx Nx. destruct (decide (x = v)) as [->|Ne]; [set_solver|].
    assert (Hx' : x ∈ live s).
    { destruct Hx as [Hx|Hx]; [done|]. destruct (decide (x ∈ live s)) as [|Nl]; [done|]. destruct Nx. left. by apply En. }
    assert (value_ids (needs x) ⊆ live s); [|set_solver]. apply Cl; [done|]. rewrite elem_of_cons. naive_solver.
Qed.

Lemma marked_size (l : gset Z) : (forall v, v ∈ l -> 1 <= v <= f_nvals f) -> (size l <= length (f_vals f))%nat.
Proof.
  intros H. pose proof (size_list_to_set_le (seqZ 1 (f_nvals f))) as L. rewrite length_seqZ in L.
  assert (size l <= size (list_to_set (seqZ 1 (f_nvals f)) : gset Z))%nat; [|unfold f_nvals in *; lia].
  apply subseteq_size. intros v Hv. apply elem_of_list_to_set, elem_of_seqZ. specialize (H v Hv). lia.
Qed.
Lemma drain_marking fuel s : marking s -> (length (f_vals f) + length (work s) <= fuel + size (live s))%nat ->
  exists l, drain fuel f defs params s = Some l /\ (forall v, v ∈ l -> Live f v /\ 1 <= v <= f_nvals f) /\
    live s ⊆ l /\ forall v, v ∈ l -> value_ids (needs v) ⊆ l.
Proof using S U.
  revert s. induction fuel as [|fuel IH]; intros s Mk B; cbn [drain]; destruct (work s) as [|v rest] eqn:W.
  1, 3: exists (live s); split; [done|]; split; [apply Mk|]; split; [done|]; intros v Hv;
    apply (mk_closed _ Mk v Hv); rewrite W; apply not_elem_of_nil.
  - pose proof (marked_size (live s) ltac:(intros x Hx; by apply (mk_sound _ Mk))). cbn [length] in B. lia.
  - rewrite mark_value_eq.
    destruct (enqueue_all_grown (f_nvals f) (mkMarking (live s) rest) (needs v)) as (s' & -> & G); [intros op; apply needs_in_range|].
    cbn [mbind option_bind]. pose proof (pop_marking s v rest s' Mk W G) as Mk'.
    destruct G as (L & new & W' & Nn & En). cbn [live work] in L, W', En.
    destruct (IH s' Mk') as (l & E & So & Sub & Cl); [|exists l; split_and!; [done|done|set_solver|done]].
    assert (Sz : (size (live s') = size (live s) + length new)%nat).
    { assert (live s' = live s ∪ list_to_set new) as -> by (apply set_eq; intros x; rewrite L, !elem_of_union, elem_of_list_to_set, En;
        destruct (decide (x ∈ live s)); tauto).
      rewrite size_union by (intros x Hx Hn; apply elem_of_list_to_set, En in Hn; tauto). by rewrite size_list_to_set. }
    rewrite W', length_app. cbn [length] in B. lia.
Qed.

(** The marking of a function is exactly the live values. *)
Lemma find_live_exact_set : exists l bailed, find_live f = Some (l, bailed) /\
  (forall v, v ∈ l <-> Live f v) /\ (forall v, v ∈ l -> 1 <= v <= f_nvals f) /\ bailed = existsb bails (insts f).
Proof using S U.
  unfold find_live. rewrite scan_blocks_eq. cbv zeta. cbn [sc_marking sc_defs sc_params call_bailed]. fold (insts f).
  set (roots := concat (map (root_uses f) (insts f))).
  assert (Rt : forall op, op ∈ roots -> in_range (f_nvals f) op /\ (o_kind op = IROP_VALUE -> Live f (o_a op))).
  { intros op Ho. unfold roots in Ho. apply list_elem_of_In, in_concat in Ho as (l & (i & <- & Hi)%in_map_iff & Ho).
    apply list_elem_of_In in Hi, Ho. unfold root_uses in Ho. destruct (dce_root i) eqn:R; [|by apply elem_of_nil in Ho].
    destruct (Z.eqb_spec (in_result i) 0) as [E|N].
    - split; [by apply used_in_range, (inst_uses_used i)|]. intros K. by apply (live_use f i).
    - apply list_elem_of_singleton in Ho as ->. cbn [ir_op_value o_kind o_a]. split; [|intros _; by apply live_root].
      split; [apply S|]. intros _. cbn. by apply (ss_range _ S), result_defined. }
  destruct (enqueue_all_grown (f_nvals f) (mkMarking ∅ []) roots) as (s & -> & L & new & W & Nn & En); [intros op Ho; by apply Rt|].
  cbn [mbind option_bind live work sc_defs sc_params sc_marking call_bailed] in *. rewrite app_nil_r in W.
  assert (Ls : forall v, v ∈ live s <-> v ∈ new).
  { intros v. rewrite L, En. set_solver. }
  assert (Mk : marking s).
  { split.
    - intros v. rewrite L, elem_of_union. intros [Hv|Hv]; [set_solver|]. apply elem_value_ids in Hv as (op & Ho & K & <-).
      destruct (Rt op Ho) as [[_ R] Lv]. auto.
    - intros v. by rewrite W, Ls.
    - by rewrite W.
    - intros v Hv N. rewrite W in N. by apply Ls in Hv. }
  destruct (drain_marking (length (f_vals f)) s Mk) as (l & -> & So & Sub & Cl).
  { rewrite W. assert (size (live s) = length new); [|lia].
    assert (live s = list_to_set new) as -> by (apply set_eq; intros v; by rewrite elem_of_list_to_set, Ls). by apply size_list_to_set. }
  cbn [mbind option_bind]. exists l. eexists. split; [done|]. split; [|split; [intros v Hv; by apply So|by rewrite orb_false_r]].
  assert (Root : forall op, op ∈ roots -> o_kind op = IROP_VALUE -> o_a op ∈ l).
  { intros op Ho K. apply Sub. rewrite L, elem_of_union. right. apply elem_value_ids. by exists op. }
  assert (InRoots : forall i op, i ∈ insts f -> op ∈ root_uses f i -> op ∈ roots).
  { intros i op Hi Ho. apply list_elem_of_In, in_concat. exists (root_uses f i). split; [apply in_map|]; by apply list_elem_of_In. }
  assert (Close : forall v op, v ∈ l -> op ∈ needs v -> o_kind op = IROP_VALUE -> o_a op ∈ l).
  { intros v op Hv Ho K. apply (Cl v Hv), elem_value_ids. by exists op. }
  intros v. split; [intros Hv; by apply So|]. induction 1 as [i Hi R N|i op Hi R N Ho K|i op Hi N _ IH Ho K|bi b pi v op Hb Hp N _ IH Ho K].
  - apply (Root (ir_op_value (f_vals f) (in_result i))); [|done]. apply (InRoots i); [done|]. unfold root_uses. rewrite R.
    rewrite (proj2 (Z.eqb_neq _ 0) N). left.
  - apply Root; [|done]. apply (InRoots i); [done|]. unfold root_uses. by rewrite R, (proj2 (Z.eqb_eq _ 0) N).
  - apply (Close (in_result i)); [done| |done]. unfold needs. by rewrite (proj2 (defs_lookup (in_result i) i) (conj Hi (conj eq_refl N))).
  - apply (Close v); [done| |done]. unfold needs. destruct (defs !! v) as [i|] eqn:D.
    + apply defs_lookup in D as (Hi & <- & Nz). by pose proof (inst_not_param i bi b pi Hi Hb Hp).
    + by rewrite (params_lookup v bi b pi Hb Hp N).
Qed.
End ssa.
