(* ===== verification/DceExec.v ===== *)
(** Dead-code elimination does not change what a function does: the two
    functions step together, the original one over the instructions deleted,
    their environments equal on the live values. *)
From stdpp Require Import gmap relations.
From S2P Require Import Prelude.
From S2P Require Import Ir.
From S2P Require Import IrSem.
From S2P Require Import IrValues.
From S2P Require Import IrExec.
From S2P Require Import Renumber.
From S2P Require Import RenumberExec.
From S2P Require Import Dce.
#[local] Open Scope Z_scope.

(** What the verifier and the builder ensure: reserved opcodes do not occur,
    and an operation that is not a root defines a value. *)
Definition reserved (o : IrOp) : bool := match o with IR_VA_ARG | IR_VA_END | IR_VA_COPY => true | _ => false end.
Definition verified (f : IrFunc) : Prop := forall i, i ∈ insts f ->
  reserved (in_op i) = false /\ (in_result i = 0 -> dce_root i = true).

(** What is not a root has no effect. *)
Lemma not_root_pure i : reserved (in_op i) = false -> dce_root i = false -> scalar i = true \/ observing i = true.
Proof.
  intros R D. unfold dce_root in D. change (Z.lor IRF_VOLATILE IRF_SEQ_CST) with 3 in D.
  destruct (negb (Z.land (in_flags i) 3 =? 0)) eqn:F; [done|].
  unfold scalar, observing, ordered, value_op. rewrite F.
  destruct (in_op i); try done; cbn; destruct (ir_type_is_vector (in_type i)); auto.
Qed.

Section dce.
  Context (f : IrFunc) (S : ssa f) (V : verified f)
    (U : forall op, uses f op -> o_kind op = IROP_VALUE -> o_a op ∈ doc_ids f).
  Context (l : gset Z) (Hl : forall v, v ∈ l <-> Live f v).
  #[local] Notation "'f1'" := (set_blocks f (map (sweep_block l) (f_blocks f))).
  #[local] Notation "'keep'" := (List.filter (fun i => negb (dead l i))).

Lemma dead_spec i : dead l i = true <-> in_result i <> 0 /\ in_result i ∉ l.
Proof.
  unfold dead. rewrite andb_true_iff, !negb_true_iff, Z.eqb_neq, bool_decide_eq_false. done.
Qed.
Lemma dead_pure i : i ∈ insts f -> dead l i = true -> scalar i = true \/ observing i = true.
Proof using V Hl.
  intros Hi [N L]%dead_spec. apply not_root_pure; [by apply V|].
  destruct (dce_root i) eqn:R; [|done]. destruct L. apply Hl. by apply live_root.
Qed.
Lemma kept_uses i op : i ∈ insts f -> dead l i = false -> op ∈ inst_uses i -> o_kind op = IROP_VALUE -> o_a op ∈ l.
Proof using V Hl.
  intros Hi D Ho K. apply Hl. destruct (decide (in_result i = 0)) as [E|N].
  - apply (live_use f i); try done. by apply V.
  - apply (live_def f i); try done. destruct (decide (in_result i ∈ l)) as [L|L]; [by apply Hl|].
    by rewrite (proj2 (dead_spec i) (conj N L)) in D.
Qed.

Context (M : Machine).
Definition agree (env env' : Env) : Prop := forall v, v ∈ l -> forall r, env v r <-> env' v r.

Lemma agree_reads env env' op : agree env env' -> (o_kind op = IROP_VALUE -> o_a op ∈ l) ->
  same_reads (sym_addr M) env env' op op.
Proof.
  intros A H. split; [done|]. intros r. unfold reads. destruct (o_kind op) eqn:K; try done. by apply A, H.
Qed.
Lemma agree_ops env env' ops : agree env env' -> (forall op, op ∈ ops -> o_kind op = IROP_VALUE -> o_a op ∈ l) ->
  Forall2 (same_reads (sym_addr M) env env') ops ops.
Proof.
  intros A H. induction ops as [|op ops IH]; constructor; [apply agree_reads; [done|apply H; left]|].
  apply IH. intros o Ho. apply H. by right.
Qed.
Lemma agree_assign env env' id d d' : agree env env' -> (forall r, d r <-> d' r) -> agree (assign env id d) (assign env' id d').
Proof.
  intros A D v Hv r. unfold assign, bind. destruct (id =? 0); [by apply A|]. destruct (v =? id); [apply D|by apply A].
Qed.
Lemma agree_dead env env' id d : agree env env' -> id ∉ l -> agree (assign env id d) env'.
Proof.
  intros A N v Hv r. unfold assign, bind. destruct (id =? 0); [by apply A|].
  destruct (Z.eqb_spec v id) as [->|]; [done|by apply A].
Qed.
Lemma agree_bind_args env env' ps args : agree env env' -> (forall op, op ∈ args -> o_kind op = IROP_VALUE -> o_a op ∈ l) ->
  agree (bind_args (sym_addr M) env ps args) (bind_args (sym_addr M) env' ps args).
Proof.
  intros A H v Hv r. unfold bind_args. destruct (_ !! v) as [a|] eqn:L; [|by apply A].
  apply agree_reads; [done|]. apply H. apply elem_of_list_to_map_2 in L. apply list_elem_of_In, in_combine_r in L.
  by apply list_elem_of_In.
Qed.

(** ** Matching states *)
Inductive swept : State M -> State M -> Prop :=
| swept_running ins env env' w : (forall i, i ∈ ins -> i ∈ insts f) -> agree env env' ->
    swept (Running ins env w) (Running (keep ins) env' w)
| swept_finished vs w : swept (Finished vs w) (Finished vs w).

Lemma swept_block_at id : ir_block f1 id = option_map (sweep_block l) (ir_block f id).
Proof.
  unfold ir_block, f_nblocks. cbn [set_blocks f_blocks]. rewrite length_map. destruct (_ || _); [done|]. by rewrite list_lookup_fmap.
Qed.
Lemma kept_ops i env env' : i ∈ insts f -> dead l i = false -> agree env env' ->
  Forall2 (same_reads (sym_addr M) env env') (in_ops i) (in_ops i).
Proof using V Hl. intros Hi D A. apply agree_ops; [done|]. intros op Ho. apply (kept_uses i); [done|done|]. apply elem_of_app. by left. Qed.
Lemma kept_jump i e k b env env' w : i ∈ insts f -> dead l i = false -> agree env env' -> in_edges i !! k = Some e ->
  ir_block f (e_target e) = Some b ->
  swept (Running (b_insts b) (bind_args (sym_addr M) env (b_params b) (e_args e)) w)
    (Running (b_insts (sweep_block l b)) (bind_args (sym_addr M) env' (b_params b) (e_args e)) w).
Proof using V Hl.
  intros Hi D A He Hb. cbn [sweep_block b_insts]. constructor.
  - intros j. apply elem_insts. by apply (ir_block_elem f (e_target e)).
  - apply agree_bind_args; [done|]. intros op Ho. apply (kept_uses i); [done|done|]. apply elem_of_app. right.
    apply list_elem_of_In, in_concat. exists (e_args e). split; [apply in_map; apply list_elem_of_In; by apply list_elem_of_lookup_2 in He|].
    by apply list_elem_of_In.
Qed.

Lemma dce_simulates : simulates M f f1 swept.
Proof using V Hl.
  split; [by intros s t [?|]|]. intros s t s' R X. destruct R as [ins env env' w Hin A|]; [|by inversion X].
  destruct ins as [|i ins]; [by inversion X|]. pose proof (Hin i ltac:(left)) as Hi.
  assert (Hr : forall j, j ∈ ins -> j ∈ insts f) by (intros j Hj; apply Hin; by right).
  cbn [List.filter]. destruct (dead l i) eqn:D; cbn [negb].
  - pose proof (proj1 (dead_spec i) D) as [N L]. exists (Running (keep ins) env' w). split; [done|].
    assert (Pure : scalar i = true \/ observing i = true) by by apply dead_pure.
    assert (Nt : is_terminator (in_op i) = false /\ effectful i = false).
    { unfold effectful. split.
      - destruct Pure as [P|P]; unfold scalar, observing, value_op in P; by destruct (in_op i).
      - destruct Pure as [P|P]; rewrite P; cbn; by rewrite ?andb_false_r. }
    destruct Nt as [Nt Ne].
    inversion X as [? ? ? ? Sc|? ? ? ? Ob|? ? ? ? vs r w' Ef Hvs Hw|? ? ? ? vs k e b Hvs Tk He Hb|? ? ? ? vs Rt Hvs]; subst.
    + constructor; [done|]. by apply agree_dead.
    + constructor; [done|]. by apply agree_dead.
    + congruence.
    + unfold taken_edge in Tk. by destruct (in_op i).
    + by rewrite Rt in Nt.
  - pose proof (kept_ops i env env' Hi D A) as F. destruct (same_reads_ops _ _ _ _ _ F) as [_ Fv].
    inversion X as [? ? ? ? Sc|? ? ? ? Ob|? ? ? ? vs r w' Ef Hvs Hw|? ? ? ? vs k e b Hvs Tk He Hb|? ? ? ? vs Rt Hvs]; subst.
    + eexists. split; [by apply rtc_once, step_scalar|]. constructor; [done|]. apply agree_assign; [done|]. by apply den_same.
    + eexists. split; [by apply rtc_once, step_observe|]. constructor; [done|]. apply agree_assign; [done|]. by apply observed_same.
    + eexists. split; [apply rtc_once, (step_effect _ _ _ _ _ _ vs r w'); [done|by apply Fv|done]|].
      constructor; [done|]. by apply agree_assign.
    + eexists. split; [|by apply (kept_jump i e k b env env' w)]. apply rtc_once.
      apply (step_branch M f1 i _ _ _ vs k e (sweep_block l b)); [by apply Fv|done|done|]. by rewrite swept_block_at, Hb.
    + eexists. split; [apply rtc_once, (step_ret _ _ _ _ _ _ vs); [done|by apply Fv]|]. constructor.
Qed.

(** The original runs over deleted instructions. *)
Lemma run_dead ins env env' w j rest : (forall i, i ∈ ins -> i ∈ insts f) -> agree env env' -> keep ins = j :: rest ->
  exists ins' env1, rtc (step M f) (Running ins env w) (Running (j :: ins') env1 w) /\ keep ins' = rest /\
    agree env1 env' /\ dead l j = false /\ forall i, i ∈ j :: ins' -> i ∈ insts f.
Proof using V Hl.
  revert env. induction ins as [|i ins IH]; intros env Hin A E; [done|]. cbn [List.filter] in E.
  assert (Hr : forall j, j ∈ ins -> j ∈ insts f) by (intros k Hk; apply Hin; by right).
  destruct (dead l i) eqn:D; cbn [negb] in E.
  - pose proof (proj1 (dead_spec i) D) as [N L]. destruct (dead_pure i (Hin i ltac:(left)) D) as [P|P].
    + destruct (IH (assign env (in_result i) (den (sym_addr M) (fpu M) env i)) Hr ltac:(by apply agree_dead) E)
        as (ins' & env1 & X & R). exists ins', env1. split; [|done]. by eapply rtc_l; [apply step_scalar|].
    + destruct (IH (assign env (in_result i) (observed M env w i)) Hr ltac:(by apply agree_dead) E)
        as (ins' & env1 & X & R). exists ins', env1. split; [|done]. by eapply rtc_l; [apply step_observe|].
  - injection E as <- <-. exists ins, env. by split_and!.
Qed.

Lemma dce_simulated : simulates M f1 f (fun t s => swept s t).
Proof using V Hl.
  split; [by intros t s [?|]|]. intros t s t' R X. destruct R as [ins env env' w Hin A|]; [|by inversion X].
  destruct (keep ins) as [|i rest] eqn:K; [by inversion X|].
  destruct (run_dead ins env env' w i rest Hin A K) as (ins' & env1 & X1 & <- & A1 & D & Hin1).
  pose proof (Hin1 i ltac:(left)) as Hi. assert (Hr : forall j, j ∈ ins' -> j ∈ insts f) by (intros j Hj; apply Hin1; by right).
  pose proof (kept_ops i env1 env' Hi D A1) as F. destruct (same_reads_ops _ _ _ _ _ F) as [_ Fv].
  inversion X as [? ? ? ? Sc|? ? ? ? Ob|? ? ? ? vs r w' Ef Hvs Hw|? ? ? ? vs k e b Hvs Tk He Hb|? ? ? ? vs Rt Hvs]; subst.
  - eexists. split; [eapply rtc_r; [exact X1|by apply step_scalar]|]. constructor; [done|]. apply agree_assign; [done|]. by apply den_same.
  - eexists. split; [eapply rtc_r; [exact X1|by apply step_observe]|]. constructor; [done|]. apply agree_assign; [done|]. by apply observed_same.
  - eexists. split; [eapply rtc_r; [exact X1|apply (step_effect _ _ _ _ _ _ vs r w'); [done|by apply Fv|done]]|].
    constructor; [done|]. by apply agree_assign.
  - rewrite swept_block_at in Hb. destruct (ir_block f (e_target e)) as [b0|] eqn:Hb0; [|done]. injection Hb as <-.
    eexists. split; [|by apply (kept_jump i e k b0 env1 env' w)]. eapply rtc_r; [exact X1|].
    apply (step_branch M f i _ _ _ vs k e b0); [by apply Fv|done|done|done].
  - eexists. split; [eapply rtc_r; [exact X1|apply (step_ret _ _ _ _ _ _ vs); [done|by apply Fv]]|]. constructor.
Qed.

Lemma dce_start args w : swept (start M f args w) (start M f1 args w).
Proof.
  unfold start. cbn [set_blocks f_blocks]. destruct (f_blocks f) as [|b bs] eqn:Eb; cbn [map].
  - apply (swept_running []); [intros i []%elem_of_nil|]. by intros v _ r.
  - apply (swept_running (b_insts b)); [|by intros v _ r]. intros i. apply elem_insts. rewrite Eb. left.
Qed.
End dce.

(** ** The function left is in SSA form and its uses are defined *)
Section left.
  Context (f : IrFunc) (S : ssa f) (V : verified f)
    (U : forall op, uses f op -> o_kind op = IROP_VALUE -> o_a op ∈ doc_ids f).
  Context (l : gset Z) (Hl : forall v, v ∈ l <-> Live f v).
  #[local] Notation "'f1'" := (set_blocks f (map (sweep_block l) (f_blocks f))).

Lemma swept_insts i : i ∈ insts f1 <-> i ∈ insts f /\ dead l i = false.
Proof.
  split.
  - intros Hi. destruct (insts_inv f1 i Hi) as (b & Hb & Hib). cbn [set_blocks f_blocks] in Hb.
    apply list_elem_of_In, in_map_iff in Hb as (b0 & <- & Hb0). cbn [sweep_block b_insts] in Hib.
    apply list_elem_of_In, List.filter_In in Hib as [Hib D%negb_true_iff]. split; [|done].
    apply (elem_insts f b0); by apply list_elem_of_In.
  - intros [Hi D]. destruct (insts_inv f i Hi) as (b & Hb & Hib). apply (elem_insts f1 (sweep_block l b)).
    + cbn [set_blocks f_blocks]. apply list_elem_of_In, in_map. by apply list_elem_of_In.
    + cbn [sweep_block b_insts]. apply list_elem_of_In, List.filter_In. by rewrite <- list_elem_of_In, negb_true_iff.
Qed.
Lemma swept_sublist : doc_ids f1 `sublist_of` doc_ids f.
Proof.
  assert (Fi : forall bs, nonzero (concat (map (fun b => b_params b ++ map in_result (b_insts b)) (map (sweep_block l) bs)))
    `sublist_of` nonzero (concat (map (fun b => b_params b ++ map in_result (b_insts b)) bs))).
  { intros bs. induction bs as [|b bs IH]; [done|]. cbn [map concat sweep_block b_params b_insts]. unfold nonzero in *.
    rewrite !filter_app. apply sublist_app; [apply sublist_app; [done|]|done].
    induction (b_insts b) as [|i ins IHi]; [done|]. cbn [List.filter]. destruct (negb (dead l i)); cbn [map List.filter];
      destruct (negb (in_result i =? 0)); [by apply sublist_skip|done|by apply sublist_cons|done]. }
  unfold doc_ids, defined_ids. cbn [set_blocks f_param_vals f_blocks]. specialize (Fi (f_blocks f)). unfold nonzero in *.
  rewrite !filter_app. by apply sublist_app.
Qed.
Lemma swept_ssa : ssa f1.
Proof using S.
  destruct S as [N R L]. pose proof swept_sublist as Sub. split; [by eapply sublist_NoDup|intros v Hv|done].
  apply R. by eapply elem_of_submseteq; [|by apply sublist_submseteq].
Qed.
Lemma swept_defined v : v ∈ doc_ids f -> v ∈ l -> v ∈ doc_ids f1.
Proof.
  intros [Hv N]%elem_nonzero L. apply elem_nonzero. split; [|done]. apply elem_of_app in Hv as [Hv|Hv]; [by apply elem_of_app; left|].
  apply elem_of_app. right. unfold defined_ids in Hv. apply list_elem_of_In, in_concat in Hv as (vs & (b & <- & Hb)%in_map_iff & Hv).
  apply (elem_defined f1 (sweep_block l b)).
  - cbn [set_blocks f_blocks]. by apply list_elem_of_In, in_map.
  - cbn [sweep_block b_params b_insts]. apply elem_of_app. apply in_app_or in Hv as [Hv|Hv]; [left; by apply list_elem_of_In|right].
    apply in_map_iff in Hv as (i & <- & Hi). apply list_elem_of_In, in_map, List.filter_In. split; [done|].
    apply negb_true_iff. destruct (dead l i) eqn:D; [|done]. by apply dead_spec in D as [_ D].
Qed.
Lemma swept_uses op : uses f1 op -> o_kind op = IROP_VALUE -> o_a op ∈ doc_ids f1.
Proof using V U Hl.
  intros H K. assert (X : exists i, i ∈ insts f1 /\ op ∈ inst_uses i).
  { destruct H as [(i & Hi & Ho)|(e & He & Ho)]; [exists i; split; [done|]; apply elem_of_app; by left|].
    destruct (edges_inv f1 e He) as (i & Hi & Hei). exists i. split; [done|]. apply elem_of_app. right.
    apply list_elem_of_In, in_concat. exists (e_args e). split; [apply in_map|]; by apply list_elem_of_In. }
  destruct X as (i & [Hi D]%swept_insts & Ho). apply swept_defined.
  - apply U; [by apply (inst_uses_used f i)|done].
  - by apply (kept_uses f V l Hl i).
Qed.
End left.

(** C2. Dead-code elimination preserves what a function does. For every
    function in SSA form with defined uses that the verifier accepts, the pass
    returns a function that, in every world and on every machine, returns the
    same values in the same worlds and passes through the same worlds; and
    when it reports no change, it returns the function itself. *)
Theorem dce_func_correct f : ssa f -> verified f ->
  (forall op, uses f op -> o_kind op = IROP_VALUE -> o_a op ∈ doc_ids f) ->
  exists f' (changed bailed : bool), dce_func f = Some (f', changed, bailed) /\ equivalent f f' /\ (changed = false -> f' = f).
Proof.
  intros S V U. destruct (find_live_exact_set f S U) as (l & bailed & E & Hl & _). unfold dce_func. rewrite E.
  cbn [mbind option_bind]. fold (insts f). set (f1 := set_blocks f (map (sweep_block l) (f_blocks f))).
  assert (E1 : equivalent f f1).
  { apply bisimilar. intros M args w. exists (swept f l M).
    split; [by apply dce_start|]. split; [by apply dce_simulates|by apply dce_simulated]. }
  eexists _, _, _. split; [done|]. destruct (existsb (dead l) (insts f)) eqn:C.
  - split; [|done]. eapply equivalent_trans; [exact E1|]. apply renumber_equivalent; [by apply swept_ssa|].
    intros op. by apply swept_uses.
  - split; [done|]. intros _. unfold f1, set_blocks. destruct f as [ret var ps bs vals slots]. cbn [f_ret f_variadic f_param_vals f_blocks f_vals f_slots] in *.
    f_equal. rewrite <- (map_id bs) at 2. apply map_ext_in. intros b Hb. destruct b as [bp bi]. unfold sweep_block. cbn [b_params b_insts]. f_equal.
    assert (K : forall i, In i bi -> dead l i = false).
    { intros i Hi. apply not_true_iff_false. intros D. apply not_true_iff_false in C. apply C. apply existsb_exists. exists i. split; [|done].
      unfold insts. cbn [f_blocks]. apply in_concat. exists bi. split; [|done]. apply in_map_iff. by exists (mkBlock bp bi). }
    clear -K. induction bi as [|i bi IH]; [done|]. cbn [List.filter]. rewrite (K i ltac:(by left)). cbn [negb]. f_equal.
    apply IH. intros j Hj. apply K. by right.
Qed.

(** The marking ends within one step per value and is the least solution:
    the values it keeps are exactly those a root, a definition of a needed
    value or the edge into a needed block parameter needs, through every loop
    of the function; and the call bail is logged exactly when there is a
    call. *)
Theorem find_live_exact f : ssa f -> (forall op, uses f op -> o_kind op = IROP_VALUE -> o_a op ∈ doc_ids f) ->
  exists l bailed, find_live f = Some (l, bailed) /\ (forall v, v ∈ l <-> Live f v) /\
    (bailed = true <-> exists i, i ∈ insts f /\ in_op i = IR_CALL).
Proof.
  intros S U. destruct (find_live_exact_set f S U) as (l & bailed & E & Hl & _ & ->). exists l. eexists. split; [done|].
  split; [done|]. rewrite existsb_exists. unfold bails, opc_eqb. split.
  - intros (i & Hi & [_ O%bool_decide_eq_true]%andb_true_iff). exists i. by rewrite list_elem_of_In.
  - intros (i & Hi & O). exists i. rewrite <- list_elem_of_In, andb_true_iff, bool_decide_eq_true. split; [done|]. split; [|done].
    unfold dce_root. destruct (negb _); [done|]. by rewrite O.
Qed.

(** ** A loop that counts in a value nobody reads *)
Definition dead_sample : IrFunc :=
  let v id := mkOp IROP_VALUE IRT_I32 0 0 id 0 in let one := ir_op_iconst IRT_I32 1 in
  mkFunc IRT_I32 false [1]
    [mkBlock [] [mkInst IR_IADD IRT_I32 0 0 2 0 [v 1; one] []; mkInst IR_IMUL IRT_I32 0 0 3 0 [v 1; one] [];
                 mkInst IR_RET IRT_VOID 0 0 0 0 [v 3] []]]
    (replicate 3 (mkVal IRT_I32 VDEF_NONE 0 0)) [].
Lemma dead_sample_ok : ssa dead_sample /\ verified dead_sample /\
  forall op, uses dead_sample op -> o_kind op = IROP_VALUE -> o_a op ∈ doc_ids dead_sample.
Proof.
  change (doc_ids dead_sample) with [1; 2; 3]. split; [|split].
  - split; [change (doc_ids dead_sample) with [1; 2; 3]; apply (bool_decide_unpack _); vm_compute; exact I| |reflexivity].
    change (doc_ids dead_sample) with [1; 2; 3]. change (f_nvals dead_sample) with 3.
    intros v Hv%list_elem_of_In. cbn in Hv. lia.
  - intros i Hi%list_elem_of_In. cbn in Hi. destruct Hi as [<-|[<-|[<-|[]]]]; by split.
  - intros op [(i & Hi & Ho)|(e & He & _)] K.
    + apply list_elem_of_In in Hi, Ho. apply list_elem_of_In. cbn in Hi.
      destruct Hi as [<-|[<-|[<-|[]]]]; cbn in Ho; repeat (destruct Ho as [<-|Ho]; [cbn in *; (congruence || tauto)|]); destruct Ho.
    + apply list_elem_of_In in He. by cbn in He.
Qed.
Lemma dce_func_correct_witness : exists f' (changed bailed : bool), dce_func dead_sample = Some (f', changed, bailed) /\
  equivalent dead_sample f' /\ changed = true /\ f_nvals f' = 2.
Proof.
  destruct (dce_func_correct dead_sample) as (f' & c & b & E & Q & _); [apply dead_sample_ok..|].
  exists f', c, b. split; [exact E|]. split; [exact Q|]. vm_compute in E. injection E as <- <- <-. split; reflexivity.
Defined.
Lemma find_live_exact_witness : exists l bailed, find_live dead_sample = Some (l, bailed) /\ (Live dead_sample 3 /\ ~ Live dead_sample 2) /\ bailed = false.
Proof.
  destruct (find_live_exact dead_sample) as (l & b & E & Hl & _); [apply dead_sample_ok..|].
  exists l, b. split; [exact E|]. rewrite <- !Hl. assert (R : find_live dead_sample = Some (({[3; 1]} : gset Z), false)) by (vm_compute; reflexivity).
  rewrite R in E. injection E as <- <-. split; [|reflexivity]. split; [apply (bool_decide_unpack _)|apply (bool_decide_unpack _)]; vm_compute; exact I.
Defined.
