(* ===== verification/Unreachable.v ===== *)
(** [remove_unreachable] of [src/ir/ir.c]: the blocks the entry does not reach
    are dropped, the others keep their order and are renumbered, in the edges
    and in the value table; values of dropped blocks lose their definition. The
    provenance log is output. *)
From stdpp Require Import gmap relations.
From S2P Require Import Prelude.
From S2P Require Import Ir.
From S2P Require Import IrSem.
From S2P Require Import IrValues.
From S2P Require Import IrExec.
From S2P Require Import Dom.
From S2P Require Import DomDfs.
#[local] Open Scope Z_scope.

Section func.
  Context (f : IrFunc).
  #[local] Notation "'n'" := (length (f_blocks f)).

(** ** Reachability: [work] is a stack *)
Definition reach_edge (ws : list nat * list bool) (e : IrEdge) : list nat * list bool :=
  let '(work, reach) := ws in
  match target_index n (e_target e) with
  | Some t => if is_seen reach t then ws else (t :: work, <[t := true]> reach)
  | None => ws
  end.
Fixpoint reach_loop (fuel : nat) (work : list nat) (reach : list bool) : option (list bool) :=
  match work, fuel with
  | [], _ => Some reach
  | _, O => None
  | b :: work, S fuel => let '(work, reach) := foldl reach_edge (work, reach) (edges_of f b) in reach_loop fuel work reach
  end.
(** Every block is pushed at most once. *)
Definition reachable_blocks : option (list bool) := reach_loop n [0%nat] (<[0%nat := true]> (replicate n false)).
End func.

(** ** Renumbering of the blocks *)
Fixpoint remap_from (next : Z) (reach : list bool) : list Z :=
  match reach with
  | [] => []
  | true :: reach => next :: remap_from (next + 1) reach
  | false :: reach => 0 :: remap_from next reach
  end.
(** [remap[t - 1] + 1] for a target in range. *)
Definition remap_id (remap : list Z) (t : Z) : Z :=
  if (1 <=? t) && (t <=? Z.of_nat (length remap)) then default 0 (remap !! Z.to_nat (t - 1)) + 1 else t.

Definition retarget_inst (remap : list Z) (i : IrInst) : IrInst :=
  set_edges i (map (fun e => mkEdge (remap_id remap (e_target e)) (e_args e) (e_case e)) (in_edges i)).
Definition retarget_block (remap : list Z) (b : IrBlock) : IrBlock :=
  mkBlock (b_params b) (map (retarget_inst remap) (b_insts b)).
Definition retarget_val (reach : list bool) (remap : list Z) (v : IrValInfo) : IrValInfo :=
  let db := vi_def_block v in
  if (1 <=? db) && (db <=? Z.of_nat (length remap)) then
    if is_seen reach (Z.to_nat (db - 1)) then mkVal (vi_type v) (vi_def_kind v) (remap_id remap db) (vi_def_pos v)
    else mkVal (vi_type v) VDEF_NONE 0 (vi_def_pos v)
  else v.

Fixpoint kept (reach : list bool) (bs : list IrBlock) : list IrBlock :=
  match reach, bs with
  | r :: reach, b :: bs => if r : bool then b :: kept reach bs else kept reach bs
  | _, _ => []
  end.

Definition ir_func_remove_unreachable (f : IrFunc) : option IrFunc :=
  match f_blocks f with
  | [] => Some f
  | _ =>
    reach ← reachable_blocks f;
    if forallb id reach then Some f
    else
      let remap := remap_from 0 reach in
      Some (set_vals (set_blocks f (map (retarget_block remap) (kept reach (f_blocks f))))
              (map (retarget_val reach remap) (f_vals f)))
  end.

(** Removing unreachable blocks keeps exactly the blocks the entry reaches, in
    their order, and does not change what the function does. *)
#[local] Open Scope nat_scope.

(** ** The search *)
Section reach.
  Context (f : IrFunc).
  #[local] Notation "'n'" := (length (f_blocks f)).

(** What is seen is reached; what left the stack has its successors seen. *)
Record searched (work : list nat) (reach : list bool) (done : list nat) : Prop := {
  sr_len : length reach = n;
  sr_reach b : is_seen reach b = true -> reaches f b;
  sr_split b : is_seen reach b = true <-> b ∈ work ++ done;
  sr_nodup : NoDup (work ++ done);
  sr_done a b : a ∈ done -> cfg_edge f a b -> is_seen reach b = true;
}.

Lemma reach_edge_searched work reach done b e : searched work reach done -> reaches f b ->
  e ∈ edges_of f b -> let '(work', reach') := reach_edge f (work, reach) e in
  searched work' reach' done /\ (forall c, is_seen reach c = true -> is_seen reach' c = true) /\
  (forall t, target_index n (e_target e) = Some t -> is_seen reach' t = true).
Proof.
  intros S Rb He. unfold reach_edge. destruct (target_index n (e_target e)) as [t|] eqn:T.
  2:{ split; [done|]. split; [done|]. by intros t ?. }
  pose proof (proj1 (target_index_Some _ _ _) T) as [Lt _].
  destruct (is_seen reach t) eqn:Sn; [split; [done|split; [done|by intros ? [= <-]]]|].
  assert (I : forall c, is_seen (<[t := true]> reach) c = true <-> c = t \/ is_seen reach c = true)
    by (intros c; apply is_seen_insert; by rewrite (sr_len _ _ _ S)).
  split; [|split; [intros c Hc; apply I; by right|intros ? [= <-]; apply I; by left]].
  destruct S as [L R Sp Nd D]. split.
  - by rewrite length_insert.
  - intros c [->|Hc]%I; [|by apply R]. eapply rtc_r; [exact Rb|]. by exists e.
  - intros c. rewrite I, Sp. cbn [app]. by rewrite elem_of_cons.
  - cbn [app]. constructor; [|done]. rewrite <- Sp. by rewrite Sn.
  - intros a c Ha Hac. apply I. right. by apply (D a).
Qed.

Lemma reach_edges_searched work reach done b es : searched work reach done -> reaches f b ->
  (forall e, e ∈ es -> e ∈ edges_of f b) -> let '(work', reach') := foldl (reach_edge f) (work, reach) es in
  searched work' reach' done /\ (forall c, is_seen reach c = true -> is_seen reach' c = true) /\
  (forall e t, e ∈ es -> target_index n (e_target e) = Some t -> is_seen reach' t = true).
Proof.
  revert work reach. induction es as [|e es IH]; intros work reach S Rb He; cbn [foldl].
  { split; [done|]. split; [done|]. intros e t []%elem_of_nil. }
  pose proof (reach_edge_searched work reach done b e S Rb (He e ltac:(left))) as H.
  destruct (reach_edge f (work, reach) e) as [work1 reach1]. destruct H as (S1 & M1 & T1).
  pose proof (IH work1 reach1 S1 Rb ltac:(intros; apply He; by right)) as H.
  destruct (foldl _ _ es) as [work2 reach2]. destruct H as (S2 & M2 & T2).
  split; [done|]. split; [auto|]. intros e' t [->|Hin]%elem_of_cons Ht; [apply M2; by apply T1|by apply (T2 e')].
Qed.

Lemma NoDup_bounded (l : list nat) m : NoDup l -> (forall b, b ∈ l -> b < m) -> length l <= m.
Proof.
  intros N H. replace m with (length (seq 0 m)) by apply length_seq. apply NoDup_incl_length; [by apply NoDup_ListNoDup|].
  intros b Hb%list_elem_of_In. apply list_elem_of_In, elem_of_seq. specialize (H b Hb). lia.
Qed.

Lemma searched_bound work reach done : searched work reach done -> length (work ++ done) <= n.
Proof.
  intros S. apply NoDup_bounded; [apply S|]. intros b Hb. apply (sr_split _ _ _ S) in Hb. unfold is_seen in Hb.
  destruct (reach !! b) eqn:E; [|done]. apply lookup_lt_Some in E. by rewrite (sr_len _ _ _ S) in E.
Qed.

Lemma reach_loop_spec fuel work reach done : searched work reach done -> n <= fuel + length done ->
  exists reach' done', reach_loop f fuel work reach = Some reach' /\ searched [] reach' done'.
Proof.
  revert work reach done. induction fuel as [|fuel IH]; intros work reach done S Hf.
  - destruct work as [|b work]; [by exists reach, done|]. exfalso.
    pose proof (searched_bound _ _ _ S) as B. cbn [app length] in B. rewrite length_app in B. lia.
  - destruct work as [|b work]; [by exists reach, done|]. cbn [reach_loop].
    assert (Rb : reaches f b) by (apply (sr_reach _ _ _ S), (sr_split _ _ _ S); left).
    assert (S' : searched work reach done \/ True) by by right. clear S'.
    (* the block moves from the stack to the done list once its edges are followed *)
    pose proof (reach_edges_searched (b :: work) reach done b (edges_of f b) S Rb ltac:(done)) as H.
    assert (Split : forall es w r, exists pre r', foldl (reach_edge f) (w, r) es = (pre ++ w, r') /\
              forall w', foldl (reach_edge f) (w', r) es = (pre ++ w', r')).
    { clear. induction es as [|e es IH]; intros w r; cbn [foldl]; [by exists [], r|]. unfold reach_edge at 2 4.
      destruct (target_index n (e_target e)) as [t|]; [|apply IH]. destruct (is_seen r t); [apply IH|].
      destruct (IH (t :: w) (<[t := true]> r)) as (pre & r' & E & H). exists (pre ++ [t]), r'.
      rewrite E, <- app_assoc. split; [done|]. intros w'. by rewrite H, <- app_assoc. }
    destruct (Split (edges_of f b) (b :: work) reach) as (pre & r' & E & Ew). rewrite E in H. rewrite Ew.
    destruct H as (S1 & _ & T1). apply (IH _ _ (b :: done)); [|cbn [length]; lia].
    destruct S1 as [L R Sp Nd D]. assert (Perm : (pre ++ b :: work) ++ done ≡ₚ (pre ++ work) ++ b :: done).
    { rewrite <- !app_assoc. cbn [app]. apply Permutation_app_head. by rewrite Permutation_middle. }
    split; [done|done| | |].
    + intros c. by rewrite Sp, Perm.
    + by rewrite <- Perm.
    + intros a c [->|Ha]%elem_of_cons Hac; [|by apply (D a)]. destruct Hac as (e & He & Ht). by apply (T1 e).
Qed.

Lemma reachable_blocks_spec : f_blocks f <> [] -> exists reach, reachable_blocks f = Some reach /\
  length reach = n /\ forall b, is_seen reach b = true <-> reaches f b.
Proof.
  intros N. assert (0 < n) by (destruct (f_blocks f); [done|cbn; lia]).
  assert (Hs : forall b, is_seen (<[0 := true]> (replicate n false)) b = true <-> b = 0).
  { intros b. rewrite is_seen_insert by (by rewrite length_replicate). split; [intros [|Hb]; [done|]|by left].
    exfalso. unfold is_seen in Hb. destruct (replicate n false !! b) eqn:E; [|done]. apply lookup_replicate_1 in E as [-> _]. done. }
  destruct (reach_loop_spec n [0] (<[0 := true]> (replicate n false)) []) as (reach & done & E & S); [|cbn; lia|].
  - split.
    + by rewrite length_insert, length_replicate.
    + intros b ->%Hs. apply rtc_refl.
    + intros b. rewrite Hs. cbn. by rewrite list_elem_of_singleton.
    + apply NoDup_singleton.
    + intros a b []%elem_of_nil.
  - exists reach. split; [done|]. split; [apply S|]. intros b. split; [apply S|]. intros R.
    assert (H0 : is_seen reach 0 = true).
    { assert (Mono : forall fuel w r r', reach_loop f fuel w r = Some r' -> is_seen r 0 = true -> is_seen r' 0 = true).
      { assert (Me : forall es w r, is_seen r 0 = true -> is_seen (foldl (reach_edge f) (w, r) es).2 0 = true).
        { induction es as [|e es IH]; intros w r Hr; cbn [foldl]; [done|]. unfold reach_edge at 2.
          destruct (target_index n (e_target e)) as [t|] eqn:T; [|by apply IH]. destruct (is_seen r t); [by apply IH|].
          apply IH. unfold is_seen in *. destruct (decide (t = 0)) as [->|]; [|by rewrite list_lookup_insert_ne].
          rewrite list_lookup_insert_eq; [done|]. destruct (r !! 0) eqn:E0; [|done]. by apply lookup_lt_Some in E0. }
        induction fuel as [|fuel IH]; intros [|c w] r r'; cbn [reach_loop]; try (by intros [= ->]).
        destruct (foldl _ _ _) as [w1 r1] eqn:Ef. intros Hl Hr. apply (IH w1 r1 r' Hl).
        pose proof (Me (edges_of f c) w r Hr) as Hm. by rewrite Ef in Hm. }
      apply (Mono _ _ _ _ E). by apply Hs. }
    revert b R. apply (rtc_ind_r (fun c => is_seen reach c = true)); [done|]. intros a c _ Hac IH.
    apply (sr_done _ _ _ S a); [|done]. by apply (sr_split _ _ _ S) in IH.
Qed.
End reach.

(** ** The blocks kept *)
Fixpoint rank (reach : list bool) (i : nat) : nat :=
  match i, reach with
  | S i, r :: reach => (if r then 1 else 0) + rank reach i
  | _, _ => 0
  end.
Lemma remap_lookup next reach i : reach !! i = Some true ->
  remap_from next reach !! i = Some (next + Z.of_nat (rank reach i))%Z.
Proof.
  revert next i. induction reach as [|r reach IH]; intros next [|i] H; try done.
  - injection H as ->. cbn. f_equal. lia.
  - change (reach !! i = Some true) in H. destruct r; cbn [remap_from rank].
    + change ((next :: remap_from (next + 1) reach) !! S i) with (remap_from (next + 1) reach !! i). rewrite IH by done. f_equal. lia.
    + change ((0%Z :: remap_from next reach) !! S i) with (remap_from next reach !! i). by rewrite IH.
Qed.
Lemma remap_length next reach : length (remap_from next reach) = length reach.
Proof. revert next. induction reach as [|[] reach IH]; intros next; cbn; by rewrite ?IH. Qed.
Lemma kept_lookup reach bs i b : reach !! i = Some true -> bs !! i = Some b -> kept reach bs !! rank reach i = Some b.
Proof.
  revert bs i. induction reach as [|r reach IH]; intros [|c bs] [|i] H Hb; try done.
  - injection H as ->. by injection Hb as <-.
  - change (reach !! i = Some true) in H. change (bs !! i = Some b) in Hb. cbn [kept rank].
    destruct r; cbn [Nat.add]; [change (kept reach bs !! rank reach i = Some b)|]; by apply IH.
Qed.
Lemma kept_elem reach bs b : b ∈ kept reach bs -> exists i, reach !! i = Some true /\ bs !! i = Some b.
Proof.
  revert bs. induction reach as [|r reach IH]; intros [|c bs]; try (by intros []%elem_of_nil). cbn [kept].
  intros H. destruct r; [apply elem_of_cons in H as [->|H]; [by exists 0|]|]; destruct (IH _ H) as (i & Hi & Hb); by exists (S i).
Qed.
Lemma kept_lookup_inv reach bs k b : kept reach bs !! k = Some b ->
  exists i, reach !! i = Some true /\ bs !! i = Some b /\ rank reach i = k.
Proof.
  revert bs k. induction reach as [|r reach IH]; intros [|c bs] k H; try done. cbn [kept] in H. destruct r.
  - destruct k as [|k]; [injection H as <-; by exists 0|]. destruct (IH _ _ H) as (i & Hi & Hb & <-). by exists (S i).
  - destruct (IH _ _ H) as (i & Hi & Hb & <-). by exists (S i).
Qed.
Lemma is_seen_lookup reach i : is_seen reach i = true <-> reach !! i = Some true.
Proof. unfold is_seen. destruct (reach !! i) as [[]|]; naive_solver. Qed.

(** Every edge leads to a block. *)
Definition targets_ok (f : IrFunc) : Prop := forall e, e ∈ edges f -> (1 <= e_target e <= f_nblocks f)%Z.

Lemma target_block f e : targets_ok f -> e ∈ edges f -> exists b, ir_block f (e_target e) = Some b.
Proof.
  intros T He. destruct (T e He) as [L U]. unfold ir_block, f_nblocks in *.
  rewrite (proj2 (Z.eqb_neq _ _)), (proj2 (Z.ltb_ge _ _)) by lia. cbn [orb].
  apply lookup_lt_is_Some. lia.
Qed.

Lemma edges_of_elem f b blk i e : f_blocks f !! b = Some blk -> i ∈ b_insts blk -> e ∈ in_edges i -> e ∈ edges_of f b.
Proof.
  intros Hb Hi He. unfold edges_of, insts_of. rewrite Hb. apply list_elem_of_In, in_concat. exists (in_edges i).
  split; [by apply in_map, list_elem_of_In|by apply list_elem_of_In].
Qed.
Lemma ir_block_index f t b : (0 <= t)%Z -> ir_block f t = Some b ->
  exists i, target_index (length (f_blocks f)) t = Some i /\ f_blocks f !! i = Some b /\ t = (Z.of_nat i + 1)%Z.
Proof.
  intros H0. unfold ir_block, f_nblocks. destruct (Z.eqb_spec t 0), (Z.ltb_spec (Z.of_nat (length (f_blocks f))) t); try done.
  intros E. exists (Z.to_nat (t - 1)). split; [apply target_index_Some; lia|]. split; [done|lia].
Qed.

Section equivalence.
  Context (f : IrFunc) (Ht : targets_ok f) (reach : list bool) (Len : length reach = length (f_blocks f))
    (Hr : forall b, is_seen reach b = true <-> reaches f b).
  #[local] Notation "'remap'" := (remap_from 0 reach).
  #[local] Notation "'blocks''" := (map (retarget_block remap) (kept reach (f_blocks f))).
  Context (vals : list IrValInfo).
  #[local] Notation "'f''" := (set_vals (set_blocks f blocks') vals).

Lemma remap_target i : reach !! i = Some true -> remap_id remap (Z.of_nat i + 1) = (Z.of_nat (rank reach i) + 1)%Z.
Proof.
  intros H. pose proof (lookup_lt_Some _ _ _ H) as L. unfold remap_id. rewrite remap_length.
  rewrite (proj2 (Z.leb_le _ _)), (proj2 (Z.leb_le _ _)) by lia. cbn [andb].
  replace (Z.to_nat (Z.of_nat i + 1 - 1)) with i by lia. by rewrite (remap_lookup 0 reach i H).
Qed.
Lemma kept_block i b : reach !! i = Some true -> f_blocks f !! i = Some b ->
  ir_block f' (remap_id remap (Z.of_nat i + 1)) = Some (retarget_block remap b).
Proof.
  intros H Hb. rewrite remap_target by done. pose proof (kept_lookup _ _ _ _ H Hb) as K. pose proof (lookup_lt_Some _ _ _ K) as L.
  unfold ir_block, f_nblocks. cbn [f_blocks set_vals set_blocks]. rewrite length_map.
  rewrite (proj2 (Z.eqb_neq _ _)), (proj2 (Z.ltb_ge _ _)) by lia. cbn [orb].
  replace (Z.to_nat (Z.of_nat (rank reach i) + 1 - 1)) with (rank reach i) by lia. by rewrite list_lookup_fmap, K.
Qed.

(** An edge out of a reached block. *)
Lemma kept_edge a i e b : reaches f a -> i ∈ insts_of f a -> e ∈ in_edges i -> ir_block f (e_target e) = Some b ->
  exists t, reaches f t /\ f_blocks f !! t = Some b /\ ir_block f' (remap_id remap (e_target e)) = Some (retarget_block remap b).
Proof using Ht Hr Len.
  intros Ra Hi He Hb. unfold insts_of in Hi. destruct (f_blocks f !! a) as [blk|] eqn:Ea; [|by apply elem_of_nil in Hi].
  assert (He' : e ∈ edges_of f a) by by apply (edges_of_elem f a blk i).
  assert (He'' : e ∈ edges f).
  { apply (elem_edges f i); [|done]. apply (elem_insts f blk); [by apply list_elem_of_lookup_2 in Ea|done]. }
  pose proof (Ht e He'') as H0.
  destruct (ir_block_index f (e_target e) b ltac:(lia) Hb) as (t & T & Et & E). exists t.
  assert (Rt : reaches f t) by (eapply rtc_r; [exact Ra|]; by exists e).
  split; [done|]. split; [done|]. rewrite E. apply kept_block; [|done]. by apply is_seen_lookup, Hr.
Qed.

Context (M : Machine).
Inductive pruned : State M -> State M -> Prop :=
| pruned_running a ins env w : reaches f a -> (forall i, i ∈ ins -> i ∈ insts_of f a) ->
    pruned (Running ins env w) (Running (map (retarget_inst remap) ins) env w)
| pruned_finished vs w : pruned (Finished vs w) (Finished vs w).

Lemma pruned_enter t b env w : reaches f t -> f_blocks f !! t = Some b ->
  pruned (Running (b_insts b) env w) (Running (b_insts (retarget_block remap b)) env w).
Proof. intros R E. apply (pruned_running t); [done|]. unfold insts_of. by rewrite E. Qed.

Lemma retarget_taken i vs : taken_edge (retarget_inst remap i) vs = taken_edge i vs.
Proof. apply taken_same; [done|]. cbn [retarget_inst set_edges in_edges]. by rewrite map_map. Qed.

Lemma prune_simulates : lockstep M f f' pruned.
Proof using Ht Hr Len.
  split; [by intros s t [?|]|]. intros s t s' R X. destruct R as [a ins env w Ra Hin|]; [|by inversion X].
  destruct ins as [|i ins]; [by inversion X|]. cbn [map].
  assert (Hin' : forall j, j ∈ ins -> j ∈ insts_of f a) by (intros; apply Hin; by right).
  inversion X as [? ? ? ? Sc|? ? ? ? Ob|? ? ? ? vs r w' Ef Hvs Hw|? ? ? ? vs k e b Hvs Tk He Hb|? ? ? ? vs Rt Hvs]; subst.
  - eexists. split; [apply step_scalar; exact Sc|]. by apply (pruned_running a).
  - eexists. split; [apply step_observe; exact Ob|]. by apply (pruned_running a).
  - eexists. split; [apply (step_effect _ _ (retarget_inst remap i) _ _ _ vs r w'); [exact Ef|exact Hvs|exact Hw]|].
    by apply (pruned_running a).
  - destruct (kept_edge a i e b Ra (Hin i ltac:(left)) ltac:(by apply list_elem_of_lookup_2 in He) Hb) as (t & Rt & Et & E).
    eexists. split; [|by apply (pruned_enter t)].
    eapply (step_branch M f' (retarget_inst remap i) _ _ _ vs k (mkEdge (remap_id remap (e_target e)) (e_args e) (e_case e)) (retarget_block remap b));
      [exact Hvs|by rewrite retarget_taken| |exact E]. cbn [retarget_inst set_edges in_edges]. by rewrite list_lookup_fmap, He.
  - eexists. split; [apply (step_ret _ _ (retarget_inst remap i) _ _ _ vs); [exact Rt|exact Hvs]|constructor].
Qed.

Lemma prune_simulated : lockstep M f' f (fun t s => pruned s t).
Proof using Ht Hr Len.
  split; [by intros t s [?|]|]. intros t s t' R X. destruct R as [a ins env w Ra Hin|]; [|by inversion X].
  destruct ins as [|i ins]; [by inversion X|]. cbn [map] in X.
  assert (Hin' : forall j, j ∈ ins -> j ∈ insts_of f a) by (intros; apply Hin; by right).
  inversion X as [? ? ? ? Sc|? ? ? ? Ob|? ? ? ? vs r w' Ef Hvs Hw|? ? ? ? vs k e b Hvs Tk He Hb|? ? ? ? vs Rt Hvs]; subst.
  - eexists. split; [apply step_scalar; exact Sc|]. by apply (pruned_running a).
  - eexists. split; [apply step_observe; exact Ob|]. by apply (pruned_running a).
  - eexists. split; [apply (step_effect _ _ i _ _ _ vs r w'); [exact Ef|exact Hvs|exact Hw]|].
    by apply (pruned_running a).
  - rewrite retarget_taken in Tk. cbn [retarget_inst set_edges in_edges] in He. rewrite list_lookup_fmap in He.
    destruct (in_edges i !! k) as [e0|] eqn:Ek; [|done]. injection He as <-. cbn [e_target e_args] in *.
    pose proof (Hin i ltac:(left)) as Hi. assert (Hek : e0 ∈ in_edges i) by by apply list_elem_of_lookup_2 in Ek.
    assert (He0 : e0 ∈ edges f).
    { apply (elem_edges f i); [|done]. unfold insts_of in Hi. destruct (f_blocks f !! a) as [blk|] eqn:Ea; [|by apply elem_of_nil in Hi].
      apply (elem_insts f blk); [by apply list_elem_of_lookup_2 in Ea|done]. }
    destruct (target_block f e0 Ht He0) as (b0 & E0).
    destruct (kept_edge a i e0 b0 Ra Hi Hek E0) as (t & Rt & Et & E). rewrite E in Hb. injection Hb as <-.
    eexists. split; [apply (step_branch M f i _ _ _ vs k e0 b0); done|by apply (pruned_enter t)].
  - eexists. split; [apply (step_ret _ _ i _ _ _ vs); [exact Rt|exact Hvs]|constructor].
Qed.
End equivalence.

(** ** The function left *)
Lemma reachable_start f reach : f_blocks f <> [] -> (forall b, is_seen reach b = true <-> reaches f b) ->
  length reach = length (f_blocks f) -> exists b bs bs', f_blocks f = b :: bs /\ kept reach (f_blocks f) = b :: bs' /\ reaches f 0.
Proof.
  intros N Hr L. destruct (f_blocks f) as [|b bs] eqn:E; [done|]. destruct reach as [|r reach]; [done|].
  assert (R0 : reaches f 0) by apply rtc_refl. pose proof (proj2 (Hr 0) R0) as H. cbn in H. subst r. by exists b, bs, (kept reach bs).
Qed.

Lemma forallb_all reach : forallb id reach = true -> forall b, b < length reach -> is_seen reach b = true.
Proof.
  intros H b Hb. destruct (lookup_lt_is_Some_2 reach b Hb) as [r Hr]. unfold is_seen. rewrite Hr. cbn.
  rewrite forallb_forall in H. apply (H r). apply list_elem_of_In. by apply list_elem_of_lookup_2 in Hr.
Qed.


(** The result keeps, in order, the blocks the entry reaches, with their edges
    led to the same blocks. *)
Definition keeps_reached (f f' : IrFunc) : Prop :=
  exists reach, length reach = length (f_blocks f) /\ (forall b, is_seen reach b = true <-> reaches f b) /\
    f_blocks f' = map (retarget_block (remap_from 0 reach)) (kept reach (f_blocks f)) /\
    f_ret f' = f_ret f /\ f_variadic f' = f_variadic f /\ f_param_vals f' = f_param_vals f /\ f_nvals f' = f_nvals f.

Lemma pruned_lockstep f vals reach : f_blocks f <> [] -> targets_ok f -> length reach = length (f_blocks f) ->
  (forall b, is_seen reach b = true <-> reaches f b) ->
  let g := set_vals (set_blocks f (map (retarget_block (remap_from 0 reach)) (kept reach (f_blocks f)))) vals in
  equivalent f g /\ forall M args (w : World M), safe M f args w -> safe M g args w.
Proof.
  intros N Ht Len Hr. apply lockstep_both. intros M args w. exists (pruned f reach M). split_and!.
  - destruct (reachable_start f reach N Hr Len) as (b & bs & bs' & E & Ek & R0). unfold start. cbn [set_vals set_blocks f_blocks].
    rewrite Ek, E. cbn [map]. apply (pruned_running f reach M 0); [done|]. intros i Hi. unfold insts_of. by rewrite E.
  - by apply prune_simulates.
  - by apply prune_simulated.
Qed.

(** With every block reached, renumbering the blocks changes nothing. *)
Lemma remap_all next reach i : forallb id reach = true -> i < length reach ->
  remap_from next reach !! i = Some (next + Z.of_nat i)%Z.
Proof.
  revert next i. induction reach as [|[] reach IH]; intros next i H L; cbn in L; [lia| |done].
  destruct i as [|i]; [cbn; f_equal; lia|].
  change (remap_from (next + 1) reach !! i = Some (next + Z.of_nat (S i))%Z). rewrite IH by (done || lia). f_equal. lia.
Qed.
Lemma remap_id_all reach t : forallb id reach = true -> remap_id (remap_from 0 reach) t = t.
Proof.
  intros H. unfold remap_id. rewrite remap_length.
  destruct (Z.leb_spec 1 t), (Z.leb_spec t (Z.of_nat (length reach))); cbn [andb]; try done.
  rewrite remap_all by (done || lia). cbn. lia.
Qed.
Lemma kept_all {reach} {bs : list IrBlock} : forallb id reach = true -> length reach = length bs -> kept reach bs = bs.
Proof.
  revert bs. induction reach as [|[] reach IH]; intros [|b bs] H L; try done. cbn. f_equal. apply IH; [done|]. by injection L.
Qed.
Lemma retarget_all reach bs : forallb id reach = true -> map (retarget_block (remap_from 0 reach)) bs = bs.
Proof.
  intros H. rewrite <- (map_id bs) at 2. apply map_ext. intros [ps ins]. unfold retarget_block. cbn. f_equal.
  rewrite <- (map_id ins) at 2. apply map_ext. intros [o t so fl r au ops es]. unfold retarget_inst, set_edges. cbn. f_equal.
  rewrite <- (map_id es) at 2. apply map_ext. intros [tg args c]. cbn. by rewrite remap_id_all.
Qed.

Lemma remove_unreachable_keeps f : f_blocks f <> [] -> targets_ok f ->
  exists f', ir_func_remove_unreachable f = Some f' /\ keeps_reached f f' /\
  equivalent f f' /\ forall M args (w : World M), safe M f args w -> safe M f' args w.
Proof.
  intros N Ht. destruct (reachable_blocks_spec f N) as (reach & E & Len & Hr).
  assert (Ef : ir_func_remove_unreachable f = if forallb id reach then Some f else
    Some (set_vals (set_blocks f (map (retarget_block (remap_from 0 reach)) (kept reach (f_blocks f))))
            (map (retarget_val reach (remap_from 0 reach)) (f_vals f)))).
  { unfold ir_func_remove_unreachable. destruct (f_blocks f) as [|b bs] eqn:Eb; [done|]. by rewrite E. }
  rewrite Ef. clear Ef.
  destruct (forallb id reach) eqn:A.
  - exists f. split; [done|]. split; [|split; [apply equivalent_refl|done]]. exists reach. rewrite (kept_all A Len), (retarget_all _ _ A). by split_and!.
  - eexists. split; [done|]. split; [|by apply pruned_lockstep]. exists reach. split_and!; try done.
    unfold f_nvals. cbn [set_vals f_vals]. by rewrite length_map.
Qed.
