(* ===== verification/IrFlow.v ===== *)
(** What the verifier asks of control flow: every use is dominated by its
    definition and terminators end blocks. Along an execution this gives the
    values assigned so far, among which is every operand of the next
    instruction. *)
From stdpp Require Import gmap relations.
From S2P Require Import Prelude.
From S2P Require Import Ir.
From S2P Require Import IrValues.
From S2P Require Import Dom.
From S2P Require Import DomDfs.
From S2P Require Import DomTree.
#[local] Open Scope nat_scope.

Definition ids_before (blk : IrBlock) (k : nat) : list Z := b_params blk ++ map in_result (take k (b_insts blk)).
Definition block_ids (blk : IrBlock) : list Z := b_params blk ++ map in_result (b_insts blk).

(** Defined before instruction [k] of block [b] on every way there. *)
Definition defined_at (f : IrFunc) (b k : nat) (v : Z) : Prop :=
  v ∈ f_param_vals f \/
  (exists blk, f_blocks f !! b = Some blk /\ v ∈ ids_before blk k) \/
  (exists x blk, x <> b /\ dominates f x b /\ f_blocks f !! x = Some blk /\ v ∈ block_ids blk).

Record structured (f : IrFunc) : Prop := {
  sd_uses b blk k i op : reaches f b -> f_blocks f !! b = Some blk -> b_insts blk !! k = Some i -> op ∈ inst_uses i ->
    o_kind op = IROP_VALUE -> defined_at f b k (o_a op);
  sd_term b blk k i : f_blocks f !! b = Some blk -> b_insts blk !! k = Some i -> is_terminator (in_op i) = true ->
    S k = length (b_insts blk) /\ in_result i = 0%Z;
  sd_entry blk : f_blocks f !! 0 = Some blk -> b_params blk = [];
}.

Lemma walk_reaches f b p : walk f b p -> reaches f b /\ forall x, x ∈ p -> reaches f x.
Proof.
  induction 1 as [|a b p W [R IH] E].
  - split; [apply rtc_refl|]. intros x ->%list_elem_of_singleton. apply rtc_refl.
  - assert (reaches f b) by by eapply rtc_r. split; [done|]. by intros x [->|Hx]%elem_of_cons; auto.
Qed.
Lemma reaches_walk f b : reaches f b -> exists p, walk f b p.
Proof.
  intros R. revert b R. apply (rtc_ind_r (fun b => exists p, walk f b p)); [exists [0]; constructor|].
  intros a b _ E [p W]. exists (b :: p). by econstructor.
Qed.
Lemma ids_before_all blk k : length (b_insts blk) <= k -> ids_before blk k = block_ids blk.
Proof. intros H. unfold ids_before, block_ids. by rewrite take_ge. Qed.

Section flow.
  Context (f : IrFunc) (SF : structured f).

(** An execution stands before instruction [k] of block [b]; the values in [A]
    are assigned. *)
Record at_pos (b k : nat) (blk : IrBlock) (A : gset Z) : Prop := {
  ap_block : f_blocks f !! b = Some blk;
  ap_params v : v ∈ f_param_vals f -> v ∈ A;
  ap_here v : v ∈ ids_before blk k -> v ∈ A;
  ap_walk : exists p, walk f b p /\ forall x blk' v, x ∈ p -> x <> b -> f_blocks f !! x = Some blk' -> v ∈ block_ids blk' -> v ∈ A;
}.

Lemma at_reached b k blk A : at_pos b k blk A -> reaches f b.
Proof. intros [_ _ _ (p & W & _)]. by apply walk_reaches in W as [? _]. Qed.
Lemma at_uses b k blk A i op : at_pos b k blk A -> b_insts blk !! k = Some i -> op ∈ inst_uses i -> o_kind op = IROP_VALUE -> o_a op ∈ A.
Proof using SF.
  intros P Hi Ho K. pose proof (at_reached _ _ _ _ P) as R. destruct P as [Eb Pp Ph (p & W & Pw)].
  destruct (sd_uses f SF b blk k i op R Eb Hi Ho K) as [H|[(blk' & E & H)|(x & blk' & N & D & E & H)]].
  - by apply Pp.
  - rewrite Eb in E. injection E as <-. by apply Ph.
  - apply (Pw x blk'); [by apply D|done|done|done].
Qed.
Lemma at_start blk : f_blocks f !! 0 = Some blk -> at_pos 0 0 blk (list_to_set (f_param_vals f)).
Proof using SF.
  intros E. split; [done|intros v; by rewrite elem_of_list_to_set| |].
  - intros v. unfold ids_before. rewrite (sd_entry f SF blk E). cbn. by intros []%elem_of_nil.
  - exists [0]. split; [constructor|]. by intros x blk' v ->%list_elem_of_singleton.
Qed.
Lemma at_step b k blk A i : at_pos b k blk A -> b_insts blk !! k = Some i -> at_pos b (S k) blk ({[in_result i]} ∪ A).
Proof.
  intros [Eb Pp Ph (p & W & Pw)] Hi. split; [done|set_solver| |].
  - intros v. unfold ids_before in *. rewrite (take_S_r _ _ _ Hi), map_app, !elem_of_app. cbn [map].
    rewrite list_elem_of_singleton. intros [H|[H| ->]]; [|apply elem_of_union; right; apply Ph, elem_of_app; by right|set_solver].
    apply elem_of_union; right; apply Ph, elem_of_app; by left.
  - exists p. split; [done|]. intros x blk' v Hx N E Hv. apply elem_of_union. right. by apply (Pw x blk').
Qed.
Lemma at_jump b k blk A i e t blk' : at_pos b k blk A -> b_insts blk !! k = Some i -> is_terminator (in_op i) = true ->
  e ∈ in_edges i -> target_index (length (f_blocks f)) (e_target e) = Some t -> f_blocks f !! t = Some blk' ->
  at_pos t 0 blk' (list_to_set (b_params blk') ∪ ({[0%Z]} ∪ A)).
Proof using SF.
  intros [Eb Pp Ph (p & W & Pw)] Hi T He Ht Et. destruct (sd_term f SF b blk k i Eb Hi T) as [Lk Z0].
  split; [done|set_solver| |].
  - intros v. unfold ids_before. cbn [take map]. rewrite app_nil_r. set_solver.
  - exists (t :: p). split.
    + econstructor; [exact W|]. exists e. split; [|done]. unfold edges_of, insts_of. rewrite Eb. apply list_elem_of_In, in_concat.
      exists (in_edges i). split; [apply in_map, list_elem_of_In; by apply list_elem_of_lookup_2 in Hi|by apply list_elem_of_In].
    + intros x blk2 v [->|Hx]%elem_of_cons N E Hv; [done|]. apply elem_of_union; right. apply elem_of_union.
      destruct (decide (x = b)) as [->|Nb]; [|right; by apply (Pw x blk2)].
      rewrite Eb in E. injection E as <-. rewrite <- (ids_before_all blk (S k)) in Hv by lia.
      unfold ids_before in Hv. rewrite (take_S_r _ _ _ Hi), map_app, !elem_of_app in Hv. cbn [map] in Hv. rewrite list_elem_of_singleton, Z0 in Hv.
      destruct Hv as [Hv|[Hv| ->]]; [right|right|left; set_solver]; apply Ph, elem_of_app; auto.
Qed.
End flow.
