(* ===== verification/IrTotal.v ===== *)
(** A scalar instruction the verifier accepts, with the operands its opcode
    takes, gives a value whatever its operands are. *)
From S2P Require Import Prelude.
From S2P Require Import Softfp.
From S2P Require Import SoftfpRound.
From S2P Require Import SoftfpArith.
From S2P Require Import SoftfpConv.
From S2P Require Import Ir.
From S2P Require Import Fold.
From S2P Require Import FoldFacts.
From S2P Require Import FoldCorrect.
From S2P Require Import IrSem.
From S2P Require Import IrValues.
From S2P Require Import IrExec.
#[local] Open Scope Z_scope.

(** What the builder ensures of scalar operations. *)
Definition arity (o : IrOp) : nat :=
  match o with
  | IR_SELECT => 3
  | IR_FNEG | IR_FABS | IR_SEXT | IR_ZEXT | IR_TRUNC | IR_FPEXT | IR_FPTRUNC | IR_FPTOSI | IR_FPTOUI | IR_SITOFP
  | IR_UITOFP | IR_BITCAST => 1
  | _ => 2
  end.
Record built (i : IrInst) : Prop := {
  bu_arity : length (in_ops i) = arity (in_op i);
  bu_icmp : in_op i = IR_ICMP -> icmp_of (in_subop i) <> None;
  bu_fcmp : in_op i = IR_FCMP -> fcmp_of (in_subop i) <> None;
}.

Section total.
  Context (fpu : FpTarget).

Lemma fp_result_inhabited o t f vs s : inhabited (fp_result fpu o t f vs s).
Proof. unfold fp_result. destruct (is_cls SF_NAN s); [by eexists|]. destruct (_ && _); [|by eexists]. eexists. by exists false. Qed.
Lemma any_inhabited t : inhabited (any t).
Proof. exists 0. unfold any. assert (0 <= type_bits t) by by destruct t. pose proof (pow2_pos _ H). lia. Qed.
#[local] Hint Resolve fp_result_inhabited any_inhabited : core.
Lemma eq_inhabited (x : Z) : inhabited (eq x).
Proof. by exists x. Qed.
#[local] Hint Resolve eq_inhabited : core.

Lemma unary_inhabited ret variadic i x : scalar i = true -> inst_types_ok ret variadic i = true -> arity (in_op i) = 1%nat ->
  inhabited (result_of fpu i [x]).
Proof.
  unfold scalar. intros [V _]%andb_true_iff C A. unfold inst_types_ok in C. unfold result_of.
  destruct (in_op i); try discriminate A; try discriminate V; cbn [andb] in C; bool_cases; try done.
  all: repeat match goal with H : type_is_float _ = true |- _ => apply type_is_float_format in H as [? ->] end; auto.
  all: repeat match goal with |- context [match format_of ?t with _ => _ end] => destruct (format_of t) end;
    destruct (trunc_to _ _ _ _); destruct (invalid _); auto.
Qed.
Lemma binary_inhabited ret variadic i x y : scalar i = true -> inst_types_ok ret variadic i = true -> built i -> arity (in_op i) = 2%nat ->
  inhabited (result_of fpu i [x; y]).
Proof.
  unfold scalar. intros [V S]%andb_true_iff C [_ Bi Bf] A. apply negb_true_iff in S. unfold inst_types_ok, binop_types_ok in C. rewrite S in C.
  unfold result_of.
  assert (Int : is_int_binop (in_op i) = true -> type_is_int (in_type i) = true ->
    inhabited (if is_int_binop (in_op i) && negb (int_width (in_type i) =? 0)
               then match int_sem (in_op i) (type_bits (in_type i)) x y with Some r => eq r | None => any (in_type i) end else fun _ => False)).
  { intros -> T. replace (int_width (in_type i) =? 0) with false by (destruct (in_type i); done). cbn [negb andb]. destruct (int_sem _ _ _ _); auto. }
  destruct (in_op i) eqn:Op; try discriminate A; try discriminate V; cbn [andb is_int_binop negb] in *; bool_cases;
    try (match goal with H : type_is_int (in_type i) = true |- _ => specialize (Int eq_refl H); revert Int; destruct (int_width (in_type i) =? 0);
      cbn [negb]; [by intros [? []]|done] end).
  all: repeat match goal with H : type_is_float _ = true |- _ => apply type_is_float_format in H as [? ->] end; auto.
  - specialize (Bi eq_refl). destruct (icmp_of _); [auto|done].
  - specialize (Bf eq_refl). destruct (fcmp_of _); [auto|done].
  - unfold fp_binop. destruct (ieee_add _ _ _ _); auto.
  - unfold fp_binop. destruct (ieee_add _ _ _ _); auto.
  - unfold fp_binop. destruct (ieee_mul _ _ _ _); auto.
  - unfold fp_binop. destruct (ieee_div _ _ _ _); auto.
Qed.
Lemma result_inhabited ret variadic i vs : scalar i = true -> inst_types_ok ret variadic i = true -> built i ->
  length vs = length (in_ops i) -> inhabited (result_of fpu i vs).
Proof.
  intros S C B L. rewrite (bu_arity i B) in L. destruct (arity (in_op i)) as [|[|[|[|n]]]] eqn:A.
  - by destruct (in_op i).
  - destruct vs as [|x [|]]; try done. by apply (unary_inhabited ret variadic).
  - destruct vs as [|x [|y [|]]]; try done. by apply (binary_inhabited ret variadic).
  - destruct vs as [|c [|x [|y [|]]]]; try done. unfold result_of. destruct (in_op i); try done; auto.
  - by destruct (in_op i).
Qed.
Lemma den_inhabited sym_addr env ret variadic i : scalar i = true -> inst_types_ok ret variadic i = true -> built i ->
  Forall (fun op => inhabited (reads sym_addr env op)) (in_ops i) -> inhabited (den sym_addr fpu env i).
Proof.
  intros S C B F. assert (H : exists vs, Forall2 (reads sym_addr env) (in_ops i) vs).
  { clear -F. induction F as [|op ops [v Hv] _ [vs IH]]; [by exists []|]. exists (v :: vs). by constructor. }
  destruct H as [vs Hvs]. destruct (result_inhabited ret variadic i vs S C B) as [r Hr]; [by rewrite (Forall2_length Hvs)|].
  by exists r, vs.
Qed.
End total.

(** Vector operations are not folded. *)
Lemma vector_op ret variadic i : value_op (in_op i) = true -> inst_types_ok ret variadic i = true ->
  ir_type_is_vector (in_type i) = true ->
  is_int_binop (in_op i) = true \/ in_op i = IR_FADD \/ in_op i = IR_FSUB \/ in_op i = IR_FMUL \/ in_op i = IR_FDIV.
Proof.
  intros V C T. assert (N : type_is_int (in_type i) = false /\ type_is_float (in_type i) = false /\ ty_eqb (in_type i) IRT_I32 = false /\ ty_eqb (in_type i) IRT_PTR = false)
    by (destruct (in_type i); done).
  destruct N as (N1 & N2 & N3 & N4). unfold inst_types_ok in C. rewrite N1, N2, N3, N4, T in C.
  destruct (in_op i); try discriminate V; cbn [andb negb is_int_binop] in *; rewrite ?andb_false_r in C; try discriminate C; auto.
  all: cbn in C; destruct (o_type (op_at i 0)), (in_type i); discriminate.
Qed.
Lemma fold_scalar ret variadic i cfg v : value_op (in_op i) = true -> inst_types_ok ret variadic i = true ->
  opt_fold_inst i cfg = Some v -> scalar i = true.
Proof.
  intros V C E. unfold scalar. rewrite V. apply negb_true_iff. destruct (ir_type_is_vector (in_type i)) eqn:T; [|done]. exfalso.
  assert (W : int_width (in_type i) = 0) by by destruct (in_type i). assert (Fo : format_of (in_type i) = None) by by destruct (in_type i).
  assert (O : forall o, value_op o = true -> is_int_binop o = false -> o <> IR_FADD -> o <> IR_FSUB -> o <> IR_FMUL -> o <> IR_FDIV -> opc_eqb (in_op i) o = false).
  { intros o _ Nb N1 N2 N3 N4. apply bool_decide_eq_false. intros <-. destruct (vector_op ret variadic i V C T) as [B|[|[|[|]]]]; congruence. }
  assert (Cv : fold_conversion i cfg = None).
  { unfold fold_conversion. destruct (negb _); [done|]. destruct (vector_op ret variadic i V C T) as [B|[->|[->|[->| ->]]]]; try done. by destruct (in_op i). }
  revert E. unfold opt_fold_inst. rewrite Cv. unfold fold_undef, fold_integer_ub, fold_integer, fold_icmp, fold_fp, fold_fcmp, fold_select, fold_ptradd.
  cbv zeta. rewrite W, Fo, !O by done. cbn [Z.eqb negb orb andb]. destruct (in_result i =? 0); [done|]. by destruct (_ || _).
Qed.
