(* ===== verification/Sccp.v ===== *)
(** [src/opt/sccp.c]: sparse conditional constant propagation. Three queues of
    work, edges that became executable, blocks they lead to and values whose
    lattice entry rose, drive the analysis; the rewriting puts the constants
    found in place of the values and cuts branches on constants.

    A queue is the array of all it ever held with the index of its head. The
    tables of instructions, edges and uses hold the entries themselves where the
    code has indexes into them. [None] is [CGF_ICE], an access out of bounds or
    an exhausted fuel. The log of bails is output. *)
From stdpp Require Import gmap.
From S2P Require Import Prelude.
From S2P Require Import Ir.
From S2P Require Import Fold.
From S2P Require Import Renumber.
From S2P Require Import Unreachable.
#[local] Open Scope Z_scope.

(** ** The lattice *)
Inductive Lattice := LAT_TOP | LAT_CONST (value : IrOperand) | LAT_OVERDEFINED.

Definition operand_eq (a b : IrOperand) : bool :=
  is_kind (o_kind a) (o_kind b) && ty_eqb (o_type a) (o_type b) && (o_sym a =? o_sym b) &&
  (o_a a =? o_a b) && (o_b a =? o_b b).

Definition lattice_join (a b : Lattice) : Lattice :=
  match a, b with
  | LAT_TOP, _ => b
  | _, LAT_TOP => a
  | LAT_CONST x, LAT_CONST y => if operand_eq x y then a else LAT_OVERDEFINED
  | _, _ => LAT_OVERDEFINED
  end.
Definition lattice_same (a b : Lattice) : bool :=
  match a, b with
  | LAT_TOP, LAT_TOP | LAT_OVERDEFINED, LAT_OVERDEFINED => true
  | LAT_CONST x, LAT_CONST y => operand_eq x y
  | _, _ => false
  end.

(** ** The tables *)
Record InstRef := mkInstRef { r_inst : IrInst; r_block : nat; r_edge_base : nat }.
Record EdgeRef := mkEdgeRef { g_term : IrInst; g_edge : nat }.
Inductive UseRef := UseInst (r : InstRef) | UseEdge (edge : nat).

Fixpoint index_insts (block edge_at : nat) (ins : list IrInst) : list InstRef :=
  match ins with
  | [] => []
  | i :: ins => mkInstRef i block edge_at :: index_insts block (edge_at + length (in_edges i)) ins
  end.
Definition count_edges (ins : list IrInst) : nat := length (concat (map in_edges ins)).
Fixpoint index_blocks (block edge_at : nat) (bs : list IrBlock) : list (list InstRef) :=
  match bs with
  | [] => []
  | b :: bs => index_insts block edge_at (b_insts b) :: index_blocks (S block) (edge_at + count_edges (b_insts b)) bs
  end.

Definition edge_refs (i : IrInst) : list EdgeRef := map (mkEdgeRef i) (seq 0 (length (in_edges i))).

Definition value_ids (ops : list IrOperand) : list Z :=
  map o_a (List.filter (fun op => is_kind (o_kind op) IROP_VALUE) ops).
Definition uses_of_inst (r : InstRef) : list (Z * UseRef) :=
  map (fun v => (v, UseInst r)) (value_ids (in_ops (r_inst r))) ++
  concat (imap (fun k e => map (fun v => (v, UseEdge (r_edge_base r + k))) (value_ids (e_args e))) (in_edges (r_inst r))).

Section func.
  Context (f : IrFunc) (cfg : option OptConfig).
  #[local] Notation "'nvals'" := (f_nvals f).
  #[local] Notation "'nblocks'" := (f_nblocks f).

Definition block_insts : list (list InstRef) := index_blocks 0 0 (f_blocks f).
Definition all_edges : list EdgeRef := concat (map (fun b => concat (map edge_refs (b_insts b))) (f_blocks f)).
Definition all_uses : list (Z * UseRef) := concat (map uses_of_inst (concat block_insts)).
Definition nedges : nat := length all_edges.

Definition edge_at (n : nat) : option IrEdge := r ← all_edges !! n; in_edges (g_term r) !! g_edge r.
(** The chains, latest entry first. *)
Definition uses_of (v : Z) : list UseRef := rev (map snd (List.filter (fun u => u.1 =? v) all_uses)).
Definition incoming (t : Z) : list nat :=
  rev (List.filter (fun n => match edge_at n with Some e => e_target e =? t | None => false end) (seq 0 nedges)).

(** ** The state *)
Record Sccp := mkSccp {
  values : gmap Z Lattice;
  blocks : gset nat;
  edge_exec : gset nat;
  edge_work : list nat; edge_head : nat;
  block_work : list nat; block_head : nat;
  value_work : list Z; value_head : nat;
  value_queued : gset Z;
}.
Definition value_at (s : Sccp) (v : Z) : Lattice := default LAT_TOP (values s !! v).

Definition lattice_of (s : Sccp) (op : IrOperand) : Lattice :=
  match o_kind op with
  | IROP_VALUE => if (1 <=? o_a op) && (o_a op <=? nvals) then value_at s (o_a op) else LAT_OVERDEFINED
  | IROP_ICONST | IROP_FCONST | IROP_SYMBOL | IROP_UNDEF => LAT_CONST op
  | IROP_NONE => LAT_OVERDEFINED
  end.

Definition set_value (s : Sccp) (v : Z) (l : Lattice) : Sccp :=
  mkSccp (<[v := l]> (values s)) (blocks s) (edge_exec s) (edge_work s) (edge_head s) (block_work s) (block_head s)
    (value_work s) (value_head s) (value_queued s).
Definition queue_value (s : Sccp) (v : Z) : Sccp :=
  if bool_decide (v ∈ value_queued s) then s
  else mkSccp (values s) (blocks s) (edge_exec s) (edge_work s) (edge_head s) (block_work s) (block_head s)
         (value_work s ++ [v]) (value_head s) ({[v]} ∪ value_queued s).

Definition update_value (s : Sccp) (id : Z) (incoming : Lattice) : Sccp :=
  if (id =? 0) || (nvals <? id) then s
  else
    let next := lattice_join (value_at s id) incoming in
    if lattice_same (value_at s id) next then s else queue_value (set_value s id next) id.

Definition mark_edge (s : Sccp) (number : nat) : option Sccp :=
  if (nedges <=? number)%nat then None
  else Some
    (if bool_decide (number ∈ edge_exec s) then s
     else mkSccp (values s) (blocks s) ({[number]} ∪ edge_exec s) (edge_work s ++ [number]) (edge_head s) (block_work s)
            (block_head s) (value_work s) (value_head s) (value_queued s)).
Fixpoint mark_edges (s : Sccp) (numbers : list nat) : option Sccp :=
  match numbers with
  | [] => Some s
  | number :: numbers => s ← mark_edge s number; mark_edges s numbers
  end.
Definition mark_all_edges (s : Sccp) (term : IrInst) (edge_base : nat) : option Sccp :=
  mark_edges s (seq edge_base (length (in_edges term))).

(** ** Evaluation *)
Definition int_mask (t : IrType) : Z :=
  match t with IRT_I8 => 2 ^ 8 - 1 | IRT_I16 => 2 ^ 16 - 1 | IRT_I32 => 2 ^ 32 - 1 | _ => 2 ^ 64 - 1 end.

(** The first case from the second edge on that the value matches. *)
Fixpoint matching_case (value mask : Z) (es : list IrEdge) (i : nat) : option nat :=
  match es with
  | [] => None
  | e :: es => if (value &64 mask) =? (u64 (e_case e) &64 mask) then Some i else matching_case value mask es (S i)
  end.
Definition switch_edge (term : IrInst) (value : IrOperand) : nat :=
  default 0%nat (matching_case (o_a value) (int_mask (o_type value)) (drop 1 (in_edges term)) 1).

Definition eval_terminator (s : Sccp) (term : IrInst) (edge_base : nat) : option Sccp :=
  match in_edges term with
  | [] => Some s
  | _ =>
    if opc_eqb (in_op term) IR_BR then mark_edge s edge_base
    else if negb (opc_eqb (in_op term) IR_CONDBR) && negb (opc_eqb (in_op term) IR_SWITCH) || (in_nops term =? 0)
    then mark_all_edges s term edge_base
    else
      match lattice_of s (op_at term 0) with
      | LAT_TOP => Some s
      | LAT_OVERDEFINED => mark_all_edges s term edge_base
      | LAT_CONST value =>
        if is_kind (o_kind value) IROP_UNDEF then mark_all_edges s term edge_base
        else if negb (is_kind (o_kind value) IROP_ICONST) then mark_all_edges s term edge_base
        else if opc_eqb (in_op term) IR_CONDBR then
          mark_edge s (edge_base + (if negb (o_a value =? 0) then 0 else 1))
        else mark_edge s (edge_base + switch_edge term value)
      end
  end.

Definition is_top (l : Lattice) : bool := match l with LAT_TOP => true | _ => false end.
Definition is_overdefined (l : Lattice) : bool := match l with LAT_OVERDEFINED => true | _ => false end.

(** The operands an instruction is folded on. *)
Definition fold_ops (s : Sccp) (ops : list IrOperand) : list IrOperand :=
  map (fun op => match lattice_of s op with LAT_CONST c => c | _ => op end) ops.
Definition inst_lattice (s : Sccp) (i : IrInst) : Lattice :=
  match opt_fold_inst (set_ops i (fold_ops s (in_ops i))) cfg with
  | Some folded => lattice_of s folded
  | None =>
    if existsb (fun op => is_overdefined (lattice_of s op)) (in_ops i) ||
       negb (existsb (fun op => is_top (lattice_of s op)) (in_ops i))
    then LAT_OVERDEFINED else LAT_TOP
  end.
Definition eval_inst (s : Sccp) (i : IrInst) : Sccp :=
  if in_result i =? 0 then s else update_value s (in_result i) (inst_lattice s i).

Definition eval_ref (s : Sccp) (r : InstRef) : option Sccp :=
  eval_terminator (eval_inst s (r_inst r)) (r_inst r) (r_edge_base r).
Fixpoint eval_refs (s : Sccp) (rs : list InstRef) : option Sccp :=
  match rs with
  | [] => Some s
  | r :: rs => s ← eval_ref s r; eval_refs s rs
  end.
Definition scan_block (s : Sccp) (block : nat) : option Sccp := eval_refs s (default [] (block_insts !! block)).

(** ** Block parameters *)
Definition incoming_value (s : Sccp) (param : nat) (result : Lattice) (n : nat) : Lattice :=
  if bool_decide (n ∈ edge_exec s) then
    match edge_at n with
    | Some e => match e_args e !! param with Some a => lattice_join result (lattice_of s a) | None => result end
    | None => result
    end
  else result.
Definition block_param_value (s : Sccp) (target : Z) (param : nat) : Lattice :=
  foldl (incoming_value s param) LAT_TOP (incoming target).

Fixpoint update_params (s : Sccp) (target : Z) (param : nat) (ids : list Z) : Sccp :=
  match ids with
  | [] => s
  | id :: ids => update_params (update_value s id (block_param_value s target param)) target (S param) ids
  end.
Definition update_block_params (s : Sccp) (target : Z) : Sccp :=
  match ir_block f target with Some b => update_params s target 0 (b_params b) | None => s end.

(** ** The queues *)
Definition process_edge (s : Sccp) (number : nat) : option Sccp :=
  e ← edge_at number;
  let target := e_target e in
  if (target =? 0) || (nblocks <? target) then Some s
  else
    let s := update_block_params s target in
    let b := Z.to_nat (target - 1) in
    Some
      (if bool_decide (b ∈ blocks s) then s
       else mkSccp (values s) ({[b]} ∪ blocks s) (edge_exec s) (edge_work s) (edge_head s) (block_work s ++ [b])
              (block_head s) (value_work s) (value_head s) (value_queued s)).

Definition process_use (s : Sccp) (u : UseRef) : option Sccp :=
  match u with
  | UseEdge n =>
    if bool_decide (n ∈ edge_exec s) then e ← edge_at n; Some (update_block_params s (e_target e)) else Some s
  | UseInst r => if bool_decide (r_block r ∈ blocks s) then eval_ref s r else Some s
  end.
Fixpoint process_uses (s : Sccp) (us : list UseRef) : option Sccp :=
  match us with
  | [] => Some s
  | u :: us => s ← process_use s u; process_uses s us
  end.
Definition process_value (s : Sccp) (v : Z) : option Sccp := process_uses s (uses_of v).

Definition next_edge (s : Sccp) : Sccp :=
  mkSccp (values s) (blocks s) (edge_exec s) (edge_work s) (S (edge_head s)) (block_work s) (block_head s) (value_work s)
    (value_head s) (value_queued s).
Definition next_block (s : Sccp) : Sccp :=
  mkSccp (values s) (blocks s) (edge_exec s) (edge_work s) (edge_head s) (block_work s) (S (block_head s)) (value_work s)
    (value_head s) (value_queued s).
Definition next_value (s : Sccp) (v : Z) : Sccp :=
  mkSccp (values s) (blocks s) (edge_exec s) (edge_work s) (edge_head s) (block_work s) (block_head s) (value_work s)
    (S (value_head s)) (value_queued s ∖ {[v]}).

Fixpoint edges_loop (fuel : nat) (s : Sccp) : option Sccp :=
  match edge_work s !! edge_head s, fuel with
  | None, _ => Some s
  | Some _, O => None
  | Some n, S fuel => s ← process_edge (next_edge s) n; edges_loop fuel s
  end.
Fixpoint blocks_loop (fuel : nat) (s : Sccp) : option Sccp :=
  match block_work s !! block_head s, fuel with
  | None, _ => Some s
  | Some _, O => None
  | Some b, S fuel => s ← scan_block (next_block s) b; blocks_loop fuel s
  end.
Definition one_value (s : Sccp) : option Sccp :=
  match value_work s !! value_head s with
  | None => Some s
  | Some v => process_value (next_value s v) v
  end.

Definition idle (s : Sccp) : bool :=
  (length (edge_work s) <=? edge_head s)%nat && (length (block_work s) <=? block_head s)%nat &&
  (length (value_work s) <=? value_head s)%nat.
(** An edge and a block are queued once, a value at most twice. *)
Definition edge_fuel : nat := nedges.
Definition block_fuel : nat := length (f_blocks f).
Definition analyze_fuel : nat := S (nedges + length (f_blocks f) + 2 * length (f_vals f)).

Fixpoint analyze_loop (fuel : nat) (s : Sccp) : option Sccp :=
  if idle s then Some s
  else match fuel with
       | O => None
       | S fuel =>
         s ← edges_loop edge_fuel s;
         s ← blocks_loop block_fuel s;
         s ← one_value s;
         analyze_loop fuel s
       end.

Definition empty_state : Sccp := mkSccp ∅ ∅ ∅ [] 0 [] 0 [] 0 ∅.
Definition start_state : Sccp :=
  let s := foldl (fun s v => update_value s v LAT_OVERDEFINED) empty_state (f_param_vals f) in
  match f_blocks f with
  | [] => s
  | _ => mkSccp (values s) ({[0%nat]} ∪ blocks s) (edge_exec s) (edge_work s) (edge_head s) (block_work s ++ [0%nat])
           (block_head s) (value_work s) (value_head s) (value_queued s)
  end.
Definition analyze : option Sccp := analyze_loop analyze_fuel start_state.

(** ** Rewriting *)
Definition replace_operand (s : Sccp) (preserve_annot : bool) (op : IrOperand) : IrOperand * bool :=
  if is_kind (o_kind op) IROP_VALUE && (1 <=? o_a op) && (o_a op <=? nvals) then
    match value_at s (o_a op) with
    | LAT_CONST c => (if preserve_annot then ir_arg_carry_provenance c op else c, true)
    | _ => (op, false)
    end
  else (op, false).
Definition replace_operands (s : Sccp) (preserve_annot : bool) (ops : list IrOperand) : list IrOperand * bool :=
  (map (fun op => (replace_operand s preserve_annot op).1) ops,
   existsb (fun op => (replace_operand s preserve_annot op).2) ops).

Definition constant_successor (term : IrInst) : option nat :=
  if negb (opc_eqb (in_op term) IR_CONDBR) && negb (opc_eqb (in_op term) IR_SWITCH) || (in_nops term =? 0) ||
     negb (is_kind (o_kind (op_at term 0)) IROP_ICONST) then None
  else if opc_eqb (in_op term) IR_CONDBR then Some (if negb (o_a (op_at term 0) =? 0) then 0%nat else 1%nat)
  else Some (switch_edge term (op_at term 0)).

Definition rewrite_inst (s : Sccp) (i : IrInst) : option (IrInst * bool) :=
  let '(ops, c1) := replace_operands s (opc_eqb (in_op i) IR_CALL) (in_ops i) in
  let es := map (fun e => (set_edge_args e (replace_operands s false (e_args e)).1, (replace_operands s false (e_args e)).2)) (in_edges i) in
  let i' := set_edges (set_ops i ops) (map fst es) in
  match constant_successor i' with
  | None => Some (i', c1 || existsb snd es)
  | Some chosen =>
    e ← in_edges i' !! chosen;
    Some (mkInst IR_BR (in_type i') (in_subop i') (in_flags i') (in_result i') (in_aux i') []
            [mkEdge (e_target e) (e_args e) 0], true)
  end.
Fixpoint rewrite_insts (s : Sccp) (ins : list IrInst) : option (list IrInst * bool) :=
  match ins with
  | [] => Some ([], false)
  | i :: ins => '(i, c) ← rewrite_inst s i; '(ins, cs) ← rewrite_insts s ins; Some (i :: ins, c || cs)
  end.
Fixpoint rewrite_blocks (s : Sccp) (bs : list IrBlock) : option (list IrBlock * bool) :=
  match bs with
  | [] => Some ([], false)
  | b :: bs =>
    '(ins, c) ← rewrite_insts s (b_insts b); '(bs, cs) ← rewrite_blocks s bs;
    Some (mkBlock (b_params b) ins :: bs, c || cs)
  end.

Definition rewrite_func (s : Sccp) : option (IrFunc * bool) :=
  '(bs, changed) ← rewrite_blocks s (f_blocks f);
  let g := set_blocks f bs in
  if changed : bool then g ← ir_func_remove_unreachable g; Some (ir_func_renumber g, true) else Some (g, false).

(** The uses are checked when the tables are built. *)
Definition sccp_func : option (IrFunc * bool) :=
  if forallb (fun u => (1 <=? u32 u.1) && (u32 u.1 <=? nvals)) all_uses then s ← analyze; rewrite_func s else None.
End func.

Fixpoint opt_sccp (fs : list IrFunc) (cfg : option OptConfig) : option (list IrFunc * bool) :=
  match fs with
  | [] => Some ([], false)
  | f :: fs => '(f, c) ← sccp_func f cfg; '(fs, cs) ← opt_sccp fs cfg; Some (f :: fs, c || cs)
  end.

(** ** Checks *)
Definition vop (t : IrType) (v : Z) : IrOperand := mkOp IROP_VALUE t 0 0 v 0.
Definition br (t : Z) (args : list IrOperand) : IrInst := mkInst IR_BR IRT_VOID 0 0 0 0 [] [mkEdge t args 0].
(** A loop counter that is only ever set to 7, tested against 7. *)
Definition example_func : IrFunc :=
  let val t := mkVal t VDEF_NONE 0 0 in
  mkFunc IRT_I32 false []
    [mkBlock [] [br 2 [ic IRT_I32 7]];
     mkBlock [1] [mkInst IR_ICMP IRT_I32 0 0 2 0 [vop IRT_I32 1; ic IRT_I32 7] [];
                  mkInst IR_CONDBR IRT_VOID 0 0 0 0 [vop IRT_I32 2] [mkEdge 4 [] 0; mkEdge 3 [] 0]];
     mkBlock [] [mkInst IR_IADD IRT_I32 0 0 3 0 [vop IRT_I32 1; ic IRT_I32 1] []; br 2 [vop IRT_I32 3]];
     mkBlock [] [mkInst IR_RET IRT_VOID 0 0 0 0 [vop IRT_I32 1] []]]
    [val IRT_I32; val IRT_I32; val IRT_I32] [].
