(* ===== verification/SccpIndex.v ===== *)
(** The lattice of sparse constant propagation, and its tables: every
    instruction, edge and use of the function is in them. *)
From stdpp Require Import gmap.
From S2P Require Import Prelude.
From S2P Require Import Ir.
From S2P Require Import IrValues.
From S2P Require Import Fold.
From S2P Require Import Sccp.
#[local] Open Scope nat_scope.

(** ** The lattice *)
Definition lat_le (a b : Lattice) : Prop :=
  match a, b with
  | LAT_TOP, _ | _, LAT_OVERDEFINED => True
  | LAT_CONST x, LAT_CONST y => operand_eq x y = true
  | _, _ => False
  end.

Lemma operand_eq_spec x y : operand_eq x y = true <->
  o_kind x = o_kind y /\ o_type x = o_type y /\ o_sym x = o_sym y /\ o_a x = o_a y /\ o_b x = o_b y.
Proof.
  unfold operand_eq, is_kind, ty_eqb. rewrite !andb_true_iff, !bool_decide_eq_true, !Z.eqb_eq. tauto.
Qed.
Lemma operand_eq_refl x : operand_eq x x = true.
Proof. by apply operand_eq_spec. Qed.
Lemma operand_eq_sym x y : operand_eq x y = true -> operand_eq y x = true.
Proof. rewrite !operand_eq_spec. naive_solver. Qed.
Lemma operand_eq_trans x y z : operand_eq x y = true -> operand_eq y z = true -> operand_eq x z = true.
Proof. rewrite !operand_eq_spec. intros (? & ? & ? & ? & ?) (? & ? & ? & ? & ?). split_and!; congruence. Qed.

#[export] Instance lat_le_preorder : PreOrder lat_le.
Proof.
  split; [intros [|x|]; [done|apply operand_eq_refl|done]|].
  intros [|x|] [|y|] [|z|]; try done. apply operand_eq_trans.
Qed.
Lemma join_left a b : lat_le a (lattice_join a b).
Proof. destruct a as [|x|], b as [|y|]; try done; cbn; rewrite ?operand_eq_refl; try done. destruct (operand_eq x y) eqn:E; [apply operand_eq_refl|done]. Qed.
Lemma join_right a b : lat_le b (lattice_join a b).
Proof.
  destruct a as [|x|], b as [|y|]; try done; cbn; rewrite ?operand_eq_refl; try done.
  destruct (operand_eq x y) eqn:E; [by apply operand_eq_sym|done].
Qed.
Lemma lattice_same_le a b : lattice_same a b = true -> lat_le b a.
Proof. destruct a as [|x|], b as [|y|]; try done. apply operand_eq_sym. Qed.

(** How often an entry can have risen. *)
Definition level (l : Lattice) : nat := match l with LAT_TOP => 0 | LAT_CONST _ => 1 | LAT_OVERDEFINED => 2 end.
Lemma join_rises a b : lattice_same a (lattice_join a b) = false -> level a < level (lattice_join a b).
Proof.
  destruct a as [|x|], b as [|y|]; cbn; try (done || lia); rewrite ?operand_eq_refl; try done.
  destruct (operand_eq x y) eqn:E; cbn; [by rewrite operand_eq_refl|lia].
Qed.
Lemma level_bound l : level l <= 2.
Proof. destruct l; cbn; lia. Qed.

Lemma value_ids_elem op ops : op ∈ ops -> o_kind op = IROP_VALUE -> o_a op ∈ value_ids ops.
Proof.
  intros H K. unfold value_ids. apply list_elem_of_In, in_map, List.filter_In. split; [by apply list_elem_of_In|].
  unfold is_kind. by rewrite K, bool_decide_eq_true_2.
Qed.
Lemma value_ids_inv v ops : v ∈ value_ids ops -> exists op, op ∈ ops /\ o_kind op = IROP_VALUE /\ o_a op = v.
Proof.
  unfold value_ids. intros (op & <- & H)%list_elem_of_In%in_map_iff. apply List.filter_In in H as [H K%bool_decide_eq_true].
  exists op. by rewrite list_elem_of_In.
Qed.

(** ** The tables *)
Section index.
  Context (f : IrFunc).

Lemma index_insts_elem block base ins r : r ∈ index_insts block base ins ->
  r_block r = block /\ r_inst r ∈ ins /\ base <= r_edge_base r /\
  forall k, k < length (in_edges (r_inst r)) ->
    concat (map edge_refs ins) !! (r_edge_base r - base + k) = Some (mkEdgeRef (r_inst r) k).
Proof.
  revert base. induction ins as [|i ins IH]; intros base; cbn [index_insts]; [by intros []%elem_of_nil|].
  assert (Hl : length (edge_refs i) = length (in_edges i)) by (unfold edge_refs; by rewrite length_map, length_seq).
  intros [->|H]%elem_of_cons.
  - cbn [r_block r_inst r_edge_base]. split_and!; [done|left|lia|]. intros k Hk. cbn [map concat].
    rewrite lookup_app_l by lia. replace (base - base + k) with k by lia. unfold edge_refs.
    rewrite list_lookup_fmap, lookup_seq_lt by lia. done.
  - destruct (IH _ H) as (E & Hi & Hb & Hk). split_and!; [done|by right|lia|]. intros k Lk. cbn [map concat].
    rewrite lookup_app_r by lia. rewrite <- (Hk k Lk). f_equal. lia.
Qed.
Lemma count_edges_refs ins : length (concat (map edge_refs ins)) = count_edges ins.
Proof.
  unfold count_edges. induction ins as [|i ins IH]; cbn [map concat]; [done|]. rewrite !length_app, IH.
  unfold edge_refs. by rewrite length_map, length_seq.
Qed.
Lemma index_blocks_elem block base bs b rs r : index_blocks block base bs !! b = Some rs -> r ∈ rs ->
  exists blk, bs !! b = Some blk /\ r_block r = block + b /\ r_inst r ∈ b_insts blk /\ base <= r_edge_base r /\
  forall k, k < length (in_edges (r_inst r)) ->
    concat (map (fun b => concat (map edge_refs (b_insts b))) bs) !! (r_edge_base r - base + k) = Some (mkEdgeRef (r_inst r) k).
Proof.
  revert block base b. induction bs as [|blk bs IH]; intros block base b H Hr; [done|]. cbn [index_blocks] in H.
  destruct b as [|b].
  - injection H as <-. destruct (index_insts_elem _ _ _ _ Hr) as (E & Hi & Hb & Hk). exists blk.
    split_and!; [done|lia|done|done|]. intros k Lk. cbn [map concat]. rewrite lookup_app_l; [by apply Hk|].
    apply lookup_lt_is_Some. rewrite Hk by done. by eexists.
  - destruct (IH (S block) (base + count_edges (b_insts blk)) b H Hr) as (blk' & E1 & E2 & Hi & Hb & Hk). exists blk'.
    split_and!; [done|lia|done|lia|]. intros k Lk. cbn [map concat]. rewrite lookup_app_r by (rewrite count_edges_refs; lia).
    rewrite <- (Hk k Lk). f_equal. rewrite count_edges_refs. lia.
Qed.

(** An instruction in the tables. *)
Definition indexed (r : InstRef) : Prop := exists rs, block_insts f !! r_block r = Some rs /\ r ∈ rs.

Lemma block_insts_indexed b rs r : block_insts f !! b = Some rs -> r ∈ rs ->
  indexed r /\ r_block r = b /\ exists blk, f_blocks f !! b = Some blk /\ r_inst r ∈ b_insts blk.
Proof.
  intros H Hr. destruct (index_blocks_elem 0 0 (f_blocks f) b rs r H Hr) as (blk & E & Eb & Hi & _). cbn in Eb.
  split_and!; [|done|by exists blk]. exists rs. by rewrite Eb.
Qed.
Lemma indexed_inst r : indexed r -> r_inst r ∈ insts f.
Proof.
  intros (rs & H & Hr). destruct (block_insts_indexed _ _ _ H Hr) as (_ & _ & blk & E & Hi).
  apply (elem_insts f blk); [by apply list_elem_of_lookup_2 in E|done].
Qed.
Lemma indexed_edge r k : indexed r -> k < length (in_edges (r_inst r)) ->
  r_edge_base r + k < nedges f /\ edge_at f (r_edge_base r + k) = in_edges (r_inst r) !! k.
Proof.
  intros (rs & H & Hr) Lk. destruct (index_blocks_elem 0 0 (f_blocks f) _ rs r H Hr) as (blk & _ & _ & _ & _ & Hk).
  specialize (Hk k Lk). rewrite Nat.sub_0_r in Hk. split.
  - by apply lookup_lt_Some in Hk.
  - unfold edge_at. unfold all_edges. by rewrite Hk.
Qed.
Lemma index_insts_inst block base ins i : i ∈ ins -> exists r, r ∈ index_insts block base ins /\ r_inst r = i.
Proof.
  revert base. induction ins as [|j ins IH]; intros base; [by intros []%elem_of_nil|]. cbn [index_insts].
  intros [->|H]%elem_of_cons; [eexists; split; [left|done]|].
  destruct (IH (base + length (in_edges j)) H) as (r & Hr & E). exists r. split; [by right|done].
Qed.
Lemma index_blocks_at block base bs b blk : bs !! b = Some blk ->
  exists base', index_blocks block base bs !! b = Some (index_insts (block + b) base' (b_insts blk)).
Proof.
  revert block base b. induction bs as [|c bs IH]; intros block base [|b] H; try done.
  - injection H as ->. exists base. cbn [index_blocks]. by rewrite Nat.add_0_r.
  - destruct (IH (S block) (base + count_edges (b_insts c)) b H) as (base' & E). exists base'.
    cbn [index_blocks]. rewrite <- Nat.add_succ_comm. exact E.
Qed.
Lemma inst_ref b blk i : f_blocks f !! b = Some blk -> i ∈ b_insts blk ->
  exists rs r, block_insts f !! b = Some rs /\ r ∈ rs /\ r_inst r = i.
Proof.
  intros H Hi. destruct (index_blocks_at 0 0 (f_blocks f) b blk H) as (base' & E).
  destruct (index_insts_inst b base' (b_insts blk) i Hi) as (r & Hr & Er).
  eexists _, r. split; [exact E|]. by split.
Qed.

(** The reference behind an edge number. *)
Lemma index_insts_edge block base ins n : n < count_edges ins ->
  exists r k, r ∈ index_insts block base ins /\ k < length (in_edges (r_inst r)) /\ r_edge_base r + k = base + n.
Proof.
  revert base n. induction ins as [|i ins IH]; intros base n Hn; [cbn in Hn; lia|].
  unfold count_edges in Hn. cbn [map concat] in Hn. rewrite length_app in Hn. fold (count_edges ins) in Hn. cbn [index_insts].
  destruct (decide (n < length (in_edges i))) as [L|L].
  - eexists _, n. split; [left|]. cbn [r_inst r_edge_base]. lia.
  - destruct (IH (base + length (in_edges i)) (n - length (in_edges i)) ltac:(lia)) as (r & k & Hr & Lk & E).
    exists r, k. split; [by right|]. split; [done|lia].
Qed.
Lemma index_blocks_edge block base bs n : n < length (concat (map (fun b => concat (map edge_refs (b_insts b))) bs)) ->
  exists b rs r k, index_blocks block base bs !! b = Some rs /\ r ∈ rs /\ k < length (in_edges (r_inst r)) /\ r_edge_base r + k = base + n.
Proof.
  revert block base n. induction bs as [|blk bs IH]; intros block base n Hn; [cbn in Hn; lia|].
  cbn [map concat] in Hn. rewrite length_app, count_edges_refs in Hn. cbn [index_blocks].
  destruct (decide (n < count_edges (b_insts blk))) as [L|L].
  - destruct (index_insts_edge block base (b_insts blk) n L) as (r & k & Hr & Lk & E). by exists 0, (index_insts block base (b_insts blk)), r, k.
  - destruct (IH (S block) (base + count_edges (b_insts blk)) (n - count_edges (b_insts blk)) ltac:(lia)) as (b & rs & r & k & Hb & Hr & Lk & E).
    exists (S b), rs, r, k. split; [done|]. split; [done|]. split; [done|lia].
Qed.
Lemma edge_ref n : n < nedges f -> exists r k, indexed r /\ k < length (in_edges (r_inst r)) /\ n = r_edge_base r + k /\
  edge_at f n = in_edges (r_inst r) !! k.
Proof.
  intros H. destruct (index_blocks_edge 0 0 (f_blocks f) n H) as (b & rs & r & k & Hb & Hr & Lk & E). cbn in E.
  destruct (block_insts_indexed b rs r Hb Hr) as (I & _ & _). exists r, k. split; [done|]. split; [done|]. split; [done|].
  rewrite <- E. by apply indexed_edge.
Qed.
Lemma edge_at_Some n : n < nedges f -> exists e, edge_at f n = Some e /\ e ∈ edges f.
Proof.
  intros H. destruct (edge_ref n H) as (r & k & I & Lk & _ & ->). destruct (lookup_lt_is_Some_2 _ _ Lk) as [e He].
  exists e. split; [done|]. apply (elem_edges f (r_inst r)); [by apply indexed_inst|by apply list_elem_of_lookup_2 in He].
Qed.

(** ** The uses *)
Lemma uses_of_elem v u : u ∈ uses_of f v <-> exists r, indexed r /\ (v, u) ∈ uses_of_inst r.
Proof.
  unfold uses_of. rewrite list_elem_of_In, <- in_rev, in_map_iff. split.
  - intros ([w u'] & E & H). apply List.filter_In in H as [H Ev]. cbn in E, Ev. apply Z.eqb_eq in Ev. subst.
    unfold all_uses in H. apply in_concat in H as (l & Hl & H). apply in_map_iff in Hl as (r & <- & Hr).
    apply in_concat in Hr as (rs & Hrs & Hr). apply list_elem_of_In, list_elem_of_lookup in Hrs as [b Hb].
    apply list_elem_of_In in Hr. exists r. split; [by apply (block_insts_indexed b rs)|]. by apply list_elem_of_In.
  - intros (r & (rs & Hb & Hr) & H). exists (v, u). split; [done|]. apply List.filter_In. split; [|by apply Z.eqb_eq].
    apply in_concat. exists (uses_of_inst r). split; [|by apply list_elem_of_In]. apply in_map, in_concat.
    exists rs. split; [|by apply list_elem_of_In]. apply list_elem_of_In. by apply list_elem_of_lookup_2 in Hb.
Qed.
Lemma use_inst v r : indexed r -> v ∈ value_ids (in_ops (r_inst r)) -> UseInst r ∈ uses_of f v.
Proof.
  intros I Hv. apply uses_of_elem. exists r. split; [done|]. unfold uses_of_inst. apply elem_of_app. left.
  apply list_elem_of_In, in_map_iff. exists v. by rewrite <- list_elem_of_In.
Qed.
Lemma use_edge v n e : n < nedges f -> edge_at f n = Some e -> v ∈ value_ids (e_args e) -> UseEdge n ∈ uses_of f v.
Proof.
  intros Hn He Hv. destruct (edge_ref n Hn) as (r & k & I & Lk & -> & E). rewrite E in He.
  apply uses_of_elem. exists r. split; [done|]. unfold uses_of_inst. apply elem_of_app. right.
  apply list_elem_of_In, in_concat. eexists. split.
  - apply list_elem_of_In, list_elem_of_lookup. exists k. rewrite list_lookup_imap, He. reflexivity.
  - cbn. apply in_map_iff. exists v. by rewrite <- list_elem_of_In.
Qed.
(** A use refers to the tables. *)
Definition use_ok (u : UseRef) : Prop := match u with UseInst r => indexed r | UseEdge n => n < nedges f end.
Lemma uses_of_ok v u : u ∈ uses_of f v -> use_ok u.
Proof.
  rewrite uses_of_elem. intros (r & I & H). unfold uses_of_inst in H. apply elem_of_app in H as [H|H].
  - apply list_elem_of_In, in_map_iff in H as (w & [= _ <-] & _). exact I.
  - apply list_elem_of_In, in_concat in H as (l & Hl & H). apply list_elem_of_In, list_elem_of_lookup in Hl as [k Hk].
    rewrite list_lookup_imap in Hk. destruct (in_edges (r_inst r) !! k) as [e|] eqn:E; [|done]. injection Hk as <-.
    apply in_map_iff in H as (w & [= _ <-] & _). apply indexed_edge; [done|]. by apply lookup_lt_Some in E.
Qed.
Lemma incoming_elem t n : n ∈ incoming f t <-> n < nedges f /\ exists e, edge_at f n = Some e /\ e_target e = t.
Proof.
  unfold incoming. rewrite list_elem_of_In, <- in_rev, List.filter_In, <- list_elem_of_In, elem_of_seq. split.
  - intros [H E]. destruct (edge_at f n) as [e|]; [|done]. apply Z.eqb_eq in E. split; [lia|by exists e].
  - intros (H & e & -> & <-). split; [lia|apply Z.eqb_refl].
Qed.
End index.
