(* ===== verification/SccpDuty.v ===== *)
(** What sparse constant propagation owes: the constants it records are well
    typed, and once a use holds it only stops holding when one of the values it
    reads is queued again. *)
From stdpp Require Import gmap.
From S2P Require Import Prelude.
From S2P Require Import Ir.
From S2P Require Import IrSem.
From S2P Require Import IrValues.
From S2P Require Import Fold.
From S2P Require Import FoldFacts.
From S2P Require Import Simplify.
From S2P Require Import SimplifyRules.
From S2P Require Import SimplifySound.
From S2P Require Import SimplifyPass.
From S2P Require Import Unreachable.
From S2P Require Import Sccp.
From S2P Require Import SccpIndex.
#[local] Open Scope Z_scope.

(** Whether the function has an operation that is decided on all 64 bits of a
    constant, those above its width too. *)
Definition decides_on_bits (o : IrOp) : bool :=
  match o with IR_ZEXT | IR_SELECT | IR_CONDBR | IR_SWITCH => true | _ => false end.
Definition narrowing (f : IrFunc) : Prop := exists i, i ∈ insts f /\ decides_on_bits (in_op i) = true.
(** No check and no constructor ensures this. *)
Definition constants_reduced (f : IrFunc) : Prop := narrowing f ->
  forall op, uses f op -> o_kind op = IROP_ICONST -> o_a op < 2 ^ type_bits (o_type op).

(** Well-typed instructions and edge arguments, a branch with two ways, a switch
    with a default: what the verifier's acceptance gives of a function as the
    builder constructs it. *)
Record typed_func (f : IrFunc) : Prop := {
  tf_uses op : uses f op -> fits False (f_vals f) op;
  tf_types i : i ∈ insts f -> value_op (in_op i) = true -> inst_types_ok (f_ret f) (f_variadic f) i = true;
  tf_results i : i ∈ insts f -> value_op (in_op i) = true -> in_result i <> 0;
  tf_vtypes i : i ∈ insts f -> in_result i <> 0 -> 1 <= in_result i <= f_nvals f /\ ir_value_type (f_vals f) (in_result i) = in_type i;
  tf_args e b : e ∈ edges f -> ir_block f (e_target e) = Some b ->
    Forall2 (fun a p => o_type a = ir_value_type (f_vals f) p) (e_args e) (b_params b);
  tf_targets : targets_ok f;
  tf_params b p : b ∈ f_blocks f -> p ∈ b_params b -> 1 <= p <= f_nvals f;
  tf_func_params p : p ∈ f_param_vals f -> 1 <= p <= f_nvals f;
  tf_condbr i : i ∈ insts f -> in_op i = IR_CONDBR ->
    length (in_edges i) = 2%nat /\ in_nops i = 1 /\ o_type (op_at i 0) = IRT_I32;
  tf_switch i : i ∈ insts f -> in_op i = IR_SWITCH ->
    (1 <= length (in_edges i))%nat /\ in_nops i = 1 /\ int_width (o_type (op_at i 0)) <> 0;
}.
(** The code the analysis is sound on. *)
Record typed_code (f : IrFunc) : Prop := {
  tc_func : typed_func f;
  tf_insts i : i ∈ insts f -> well (narrowing f) (f_ret f) (f_variadic f) (f_vals f) i;
  tf_edges e : e ∈ edges f -> Forall (fits (narrowing f) (f_vals f)) (e_args e);
}.
Lemma typed_reduced f : typed_func f -> constants_reduced f -> typed_code f.
Proof.
  intros T R. assert (F : forall op, uses f op -> fits (narrowing f) (f_vals f) op).
  { intros op U. destruct (tf_uses f T op U) as [Ok _ K]. split; [done| |done]. intros N. by apply R. }
  split; [done| |].
  - intros i Hi. split.
    + apply Forall_forall. intros op Ho%list_elem_of_In. apply F. left. by exists i.
    + by apply (tf_types f T).
    + intros Op. exists i. split; [done|]. by destruct Op as [-> | ->].
    + by apply (tf_results f T).
    + by apply (tf_vtypes f T).
  - intros e He. apply Forall_forall. intros op Ho%list_elem_of_In. apply F. right. by exists e.
Qed.

Section duty.
  Context (f : IrFunc) (cfg : option OptConfig) (TF : typed_code f).
  #[local] Notation "'vals'" := (f_vals f).
  #[local] Notation "'fits''" := (fits (narrowing f) vals).

(** ** Typed constants *)
Definition constant (t : IrType) (c : IrOperand) : Prop := fits' c /\ o_kind c <> IROP_VALUE /\ o_type c = t.
Definition typed_lattice (t : IrType) (l : Lattice) : Prop := forall c, l = LAT_CONST c -> constant t c.
Definition typed (s : Sccp) : Prop := forall v, typed_lattice (ir_value_type vals v) (value_at s v).

Lemma typed_join t a b : typed_lattice t a -> typed_lattice t b -> typed_lattice t (lattice_join a b).
Proof.
  intros A B c. unfold lattice_join. destruct a, b; try done; try (intros E; by apply B); try (intros E; by apply A).
  destruct (operand_eq _ _); [intros E; by apply A|done].
Qed.
Lemma fits_value op : fits' op -> o_kind op = IROP_VALUE -> 1 <= o_a op <= f_nvals f /\ o_type op = ir_value_type vals (o_a op).
Proof. intros [_ _ K] E. by rewrite E in K. Qed.
Lemma lattice_of_value s op : fits' op -> o_kind op = IROP_VALUE -> lattice_of f s op = value_at s (o_a op).
Proof. intros F K. destruct (fits_value op F K) as [I _]. unfold lattice_of. rewrite K, !(proj2 (Z.leb_le _ _)) by lia. done. Qed.
Lemma lattice_of_constant s op : fits' op -> o_kind op <> IROP_VALUE -> lattice_of f s op = LAT_CONST op.
Proof. intros [_ _ K] N. unfold lattice_of. by destruct (o_kind op). Qed.
Lemma lattice_of_typed s op : typed s -> fits' op -> typed_lattice (o_type op) (lattice_of f s op).
Proof.
  intros T F c. destruct (decide (o_kind op = IROP_VALUE)) as [K|K].
  - rewrite lattice_of_value by done. rewrite (proj2 (fits_value op F K)). apply T.
  - rewrite lattice_of_constant by done. by intros [= <-].
Qed.

Lemma fold_ops_fits s ops : typed s -> Forall fits' ops ->
  Forall fits' (fold_ops f s ops) /\ Forall2 (fun op op' => o_type op' = o_type op) ops (fold_ops f s ops).
Proof.
  intros T F. induction F as [|op ops F _ [IF IT]]; [done|]. cbn [fold_ops map].
  pose proof (lattice_of_typed s op T F) as C. destruct (lattice_of f s op) as [|c|]; (split; constructor; try done).
  all: by destruct (C c eq_refl) as (? & ? & ?).
Qed.
Lemma fold_ops_well s i : typed s -> i ∈ insts f -> well (narrowing f) (f_ret f) (f_variadic f) vals (set_ops i (fold_ops f s (in_ops i))).
Proof using TF.
  intros T Hi. pose proof (tf_insts f TF i Hi) as W. destruct (fold_ops_fits s (in_ops i) T (w_ops _ _ _ _ _ W)) as [F E].
  by apply same_types_well.
Qed.

Lemma inst_fold_fits s i v : typed s -> i ∈ insts f -> opt_fold_inst (set_ops i (fold_ops f s (in_ops i))) cfg = Some v ->
  fits' v /\ o_type v = in_type i.
Proof using TF.
  intros T Hi E. destruct (fold_fits (fun _ => 0) (mkFpTarget (fun _ _ _ => 0) false) _ _ _ _ (fun _ => eq 0) _ _ _ (fun _ _ => ex_intro _ 0 eq_refl) (fun _ => eq_refl) (fold_ops_well s i T Hi) E) as (F & Ty & _).
  by split.
Qed.
Lemma inst_lattice_typed s i : typed s -> i ∈ insts f -> typed_lattice (in_type i) (inst_lattice f cfg s i).
Proof using TF.
  intros T Hi. unfold inst_lattice. destruct (opt_fold_inst _ cfg) as [v|] eqn:E.
  - destruct (inst_fold_fits s i v T Hi E) as [F <-]. by apply lattice_of_typed.
  - by destruct (_ || _).
Qed.

(** What an instruction evaluates to depends on its operands only. *)
Lemma fold_ops_value s ops v : typed s -> Forall fits' ops -> v ∈ fold_ops f s ops -> o_kind v = IROP_VALUE -> v ∈ ops.
Proof.
  intros T F. induction F as [|op ops F _ IH]; [by intros []%elem_of_nil|]. cbn [fold_ops map]. intros H K.
  apply elem_of_cons in H as [->|H]; [|right; by apply IH]. pose proof (lattice_of_typed s op T F) as C.
  destruct (lattice_of f s op) as [|c|]; try by left. by destruct (C c eq_refl) as (_ & N & _).
Qed.
Lemma inst_fold_value s i v : typed s -> i ∈ insts f -> opt_fold_inst (set_ops i (fold_ops f s (in_ops i))) cfg = Some v ->
  o_kind v = IROP_VALUE -> v ∈ in_ops i.
Proof using TF.
  intros T Hi E K. destruct (opt_fold_inst_shape _ _ _ E) as [_ [(n & Hn & [->|(K' & _)])|[K'|[(K' & _)|(t & b & _ & ->)]]]]; try congruence; [|done].
  apply (fold_ops_value s); [done|by apply (w_ops _ _ _ _ _ (tf_insts f TF i Hi))| |done].
  unfold op_at in *. cbn [in_ops set_ops] in *. destruct (lookup_lt_is_Some_2 _ _ Hn) as [w Hw]. rewrite Hw. by apply list_elem_of_lookup_2 in Hw.
Qed.

Definition same_on (ids : list Z) (s s' : Sccp) : Prop := forall v, v ∈ ids -> value_at s' v = value_at s v.
Lemma lattice_of_same ops s s' op : same_on (value_ids ops) s s' -> op ∈ ops -> lattice_of f s' op = lattice_of f s op.
Proof.
  intros H Ho. unfold lattice_of. destruct (o_kind op) eqn:K; try done. destruct (_ && _); [|done].
  apply H. by apply value_ids_elem.
Qed.
Lemma inst_lattice_same s s' i : typed s -> i ∈ insts f -> same_on (value_ids (in_ops i)) s s' ->
  inst_lattice f cfg s' i = inst_lattice f cfg s i.
Proof using TF.
  intros T Hi H. assert (L : forall op, op ∈ in_ops i -> lattice_of f s' op = lattice_of f s op) by (intros; by apply (lattice_of_same (in_ops i))).
  unfold inst_lattice.
  assert (E : fold_ops f s' (in_ops i) = fold_ops f s (in_ops i)).
  { apply map_ext_in. intros op Ho%list_elem_of_In. by rewrite L. }
  rewrite E. destruct (opt_fold_inst _ cfg) as [v|] eqn:Ef.
  - destruct (decide (o_kind v = IROP_VALUE)) as [K|K]; [by apply L, (inst_fold_value s i v)|].
    destruct (inst_fold_fits s i v T Hi Ef) as [F _]. by rewrite !lattice_of_constant.
  - assert (Ex : forall g, existsb (fun op => g (lattice_of f s' op)) (in_ops i) = existsb (fun op => g (lattice_of f s op)) (in_ops i)).
    { intros g. apply eq_true_iff_eq. rewrite !existsb_exists.
      split; intros (op & Ho & G); exists op; (split; [done|]); [rewrite <- L|rewrite L]; try done; by apply list_elem_of_In. }
    by rewrite (Ex is_overdefined), (Ex is_top).
Qed.

(** ** The edges a terminator makes executable *)
Definition marks (s : Sccp) (term : IrInst) : list nat :=
  match in_edges term with
  | [] => []
  | _ =>
    let all := seq 0 (length (in_edges term)) in
    if opc_eqb (in_op term) IR_BR then [0%nat]
    else if negb (opc_eqb (in_op term) IR_CONDBR) && negb (opc_eqb (in_op term) IR_SWITCH) || (in_nops term =? 0)
    then all
    else
      match lattice_of f s (op_at term 0) with
      | LAT_TOP => []
      | LAT_OVERDEFINED => all
      | LAT_CONST value =>
        if negb (is_kind (o_kind value) IROP_ICONST) then all
        else if opc_eqb (in_op term) IR_CONDBR then [if negb (o_a value =? 0) then 0%nat else 1%nat]
        else [switch_edge term value]
      end
  end.

Lemma eval_terminator_marks s term base : eval_terminator f s term base = mark_edges f s (map (Nat.add base) (marks s term)).
Proof.
  assert (A : mark_all_edges f s term base = mark_edges f s (map (Nat.add base) (seq 0 (length (in_edges term))))).
  { unfold mark_all_edges. f_equal. transitivity (seq (base + 0) (length (in_edges term))); [by rewrite Nat.add_0_r|symmetry; apply fmap_add_seq]. }
  assert (O : forall n, mark_edge f s n = mark_edges f s [n]) by (intros n; cbn; by destruct (mark_edge f s n)).
  unfold eval_terminator, marks. destruct (in_edges term) as [|e es] eqn:E; [done|]. rewrite A.
  destruct (opc_eqb (in_op term) IR_BR); [cbn [map]; by rewrite Nat.add_0_r, O|].
  destruct (_ || _); [done|].
  destruct (lattice_of f s (op_at term 0)) as [|value|]; try done.
  unfold is_kind. destruct (o_kind value); cbn -[mark_edges mark_edge]; try done.
  destruct (opc_eqb (in_op term) IR_CONDBR); [by destruct (negb _); rewrite ?O|by rewrite O].
Qed.

Lemma matching_case_bound v m es k j : matching_case v m es k = Some j -> (k <= j < k + length es)%nat.
Proof.
  revert k. induction es as [|e es IH]; intros k; cbn [matching_case]; [done|].
  destruct (_ =? _); [intros [= <-]; cbn; lia|]. intros H%IH. cbn [length]. lia.
Qed.
Lemma switch_edge_bound term v : (1 <= length (in_edges term))%nat -> (switch_edge term v < length (in_edges term))%nat.
Proof.
  intros H. unfold switch_edge. destruct (matching_case _ _ _ _) as [j|] eqn:E; cbn; [|lia].
  apply matching_case_bound in E. rewrite length_drop in E. lia.
Qed.
Lemma marks_bound s i k : i ∈ insts f -> k ∈ marks s i -> (k < length (in_edges i))%nat.
Proof using TF.
  intros Hi. unfold marks. destruct (in_edges i) as [|e es] eqn:E; [by intros []%elem_of_nil|]. rewrite <- E.
  assert (L : (1 <= length (in_edges i))%nat) by (rewrite E; cbn; lia).
  assert (A : k ∈ seq 0 (length (in_edges i)) -> (k < length (in_edges i))%nat) by (intros H%elem_of_seq; lia).
  assert (O : forall n, (n < length (in_edges i))%nat -> k ∈ [n] -> (k < length (in_edges i))%nat) by (by intros n Hn ->%list_elem_of_singleton).
  destruct (opc_eqb (in_op i) IR_BR); [apply O; lia|]. destruct (_ || _); [done|].
  destruct (lattice_of f s _) as [|v|]; [by intros []%elem_of_nil| |done]. destruct (negb (is_kind _ _)); [done|].
  destruct (opc_eqb (in_op i) IR_CONDBR) eqn:C; [|by apply O, switch_edge_bound].
  apply bool_decide_eq_true in C. pose proof (proj1 (tf_condbr f (tc_func f TF) i Hi C)). destruct (negb _); apply O; lia.
Qed.
Lemma marks_same s s' i : same_on (value_ids (in_ops i)) s s' -> marks s' i = marks s i.
Proof.
  intros H. unfold marks. destruct (in_edges i); [done|]. destruct (opc_eqb _ IR_BR); [done|].
  destruct (_ || _) eqn:E; [done|]. apply orb_false_iff in E as [_ E]. apply Z.eqb_neq in E.
  rewrite (lattice_of_same (in_ops i) s s'); [done|done|]. unfold op_at, in_nops in *. destruct (in_ops i); [done|left].
Qed.

(** ** Duties *)
Inductive Duty := Result (r : InstRef) | Branch (r : InstRef) | Arg (edge arg : nat).
Definition duty_use (d : Duty) : UseRef := match d with Result r | Branch r => UseInst r | Arg n _ => UseEdge n end.
(** The duties of a use that is executable. *)
Definition active (s : Sccp) (u : UseRef) : Prop :=
  match u with UseInst r => indexed f r /\ r_block r ∈ blocks s | UseEdge n => n ∈ edge_exec s end.
Definition holds (s : Sccp) (d : Duty) : Prop :=
  match d with
  | Result r => in_result (r_inst r) <> 0 -> lat_le (inst_lattice f cfg s (r_inst r)) (value_at s (in_result (r_inst r)))
  | Branch r => forall k, k ∈ marks s (r_inst r) -> (r_edge_base r + k)%nat ∈ edge_exec s
  | Arg n j => forall e b a p, edge_at f n = Some e -> ir_block f (e_target e) = Some b -> e_args e !! j = Some a ->
      b_params b !! j = Some p -> lat_le (lattice_of f s a) (value_at s p)
  end.
Definition dirty (s : Sccp) (u : UseRef) : Prop := exists v, v ∈ value_queued s /\ u ∈ uses_of f v.
Definition good (s : Sccp) (d : Duty) : Prop := holds s d \/ dirty s (duty_use d).

(** The state moved up: entries rose and what rose was queued, edges were added. *)
Record rises (s s' : Sccp) : Prop := {
  rs_values v : lat_le (value_at s v) (value_at s' v);
  rs_changed v : value_at s' v = value_at s v \/ v ∈ value_queued s';
  rs_queued v : v ∈ value_queued s -> v ∈ value_queued s';
  rs_edges n : n ∈ edge_exec s -> n ∈ edge_exec s';
}.
#[export] Instance rises_preorder : PreOrder rises.
Proof.
  split; [by split; auto|]. intros s t u [V C Q E] [V' C' Q' E']. split; auto.
  - intros v. by transitivity (value_at t v).
  - intros v. destruct (C' v) as [->|]; [|by right]. destruct (C v) as [|]; [by left|right; auto].
Qed.

Definition duty_ids (d : Duty) : list Z :=
  match d with
  | Result r | Branch r => value_ids (in_ops (r_inst r))
  | Arg n _ => match edge_at f n with Some e => value_ids (e_args e) | None => [] end
  end.
Lemma duty_ids_use d v : use_ok f (duty_use d) -> v ∈ duty_ids d -> duty_use d ∈ uses_of f v.
Proof.
  destruct d as [r|r|n j]; cbn; [apply use_inst..|]. intros H. destruct (edge_at f n) as [e|] eqn:E; [|by intros []%elem_of_nil].
  intros Hv. by apply (use_edge f v n e).
Qed.

Lemma holds_rises s s' d : typed s -> use_ok f (duty_use d) -> rises s s' -> same_on (duty_ids d) s s' -> holds s d -> holds s' d.
Proof using TF.
  intros T U R S. destruct d as [r|r|n j]; cbn in *.
  - intros H N. rewrite (inst_lattice_same s s') by (done || by apply indexed_inst).
    transitivity (value_at s (in_result (r_inst r))); [by apply H|apply R].
  - intros H k. rewrite (marks_same s s') by done. intros Hk. by apply R, H.
  - intros H e b a p E B Ha Hp. rewrite E in S. rewrite (lattice_of_same (e_args e) s s') by (done || by apply list_elem_of_lookup_2 in Ha).
    transitivity (value_at s p); [by eapply H|apply R].
Qed.
Lemma all_or_some {A} (P Q : A -> Prop) (l : list A) : (forall a, P a \/ Q a) ->
  (forall a, a ∈ l -> P a) \/ exists a, a ∈ l /\ Q a.
Proof.
  intros H. induction l as [|a l IH]; [left; by intros ? []%elem_of_nil|]. destruct (H a) as [Pa|Qa]; [|right; exists a; split; [left|done]].
  destruct IH as [IH|(b & Hb & Qb)]; [left; by intros b [->|]%elem_of_cons; auto|right; exists b; split; [by right|done]].
Qed.
Lemma good_after s s' d : rises s s' -> use_ok f (duty_use d) -> (same_on (duty_ids d) s s' -> holds s' d) -> good s' d.
Proof.
  intros R U H.
  destruct (all_or_some (fun v => value_at s' v = value_at s v) (fun v => v ∈ value_queued s') (duty_ids d) (rs_changed _ _ R)) as [S|(v & Hv & Q)].
  - left. by apply H.
  - right. exists v. split; [done|by apply duty_ids_use].
Qed.
Lemma good_rises s s' d : typed s -> use_ok f (duty_use d) -> rises s s' -> good s d -> good s' d.
Proof using TF.
  intros T U R [H|(v & Q & Hu)]; [|right; exists v; split; [by apply R|done]].
  apply (good_after s); [done|done|]. intros S. by apply (holds_rises s s').
Qed.
End duty.
