(* ===== verification/SccpAnalysis.v ===== *)
(** The analysis of sparse constant propagation ends, within the arrays the code
    allocates for its queues, in a solution of the constant-propagation
    equations. *)
From stdpp Require Import gmap.
From S2P Require Import Prelude.
From S2P Require Import Ir.
From S2P Require Import IrValues.
From S2P Require Import Fold.
From S2P Require Import SimplifyRules.
From S2P Require Import Unreachable.
From S2P Require Import Sccp.
From S2P Require Import SccpIndex.
From S2P Require Import SccpDuty.
#[local] Open Scope nat_scope.

Lemma drop_snoc {A} k (l : list A) a x : k <= length l -> a ∈ drop k (l ++ [x]) <-> a ∈ drop k l \/ a = x.
Proof. intros H. by rewrite drop_app_le, elem_of_app, list_elem_of_singleton. Qed.
Lemma drop_head {A} (l : list A) k x a : l !! k = Some x -> a ∈ drop k l <-> a = x \/ a ∈ drop (S k) l.
Proof. intros H. by rewrite (drop_S l x k H), elem_of_cons. Qed.
Lemma NoDup_snoc {A} (l : list A) x : NoDup l -> x ∉ l -> NoDup (l ++ [x]).
Proof. intros N H. apply list.NoDup_app. split; [done|]. split; [by intros y Hy ->%list_elem_of_singleton|apply NoDup_singleton]. Qed.
Lemma NoDup_below l m : NoDup l -> (forall b, b ∈ l -> b < m) -> length l <= m.
Proof.
  intros N H. replace m with (length (seq 0 m)) by apply length_seq. apply NoDup_incl_length; [by apply NoDup_ListNoDup|].
  intros b Hb%list_elem_of_In. apply list_elem_of_In, elem_of_seq. specialize (H b Hb). lia.
Qed.
Lemma sum_with_rise {A} (g h : A -> nat) l b : (forall c, g c <= h c) -> b ∈ l -> g b < h b -> sum_list_with g l < sum_list_with h l.
Proof.
  intros L H Lt. assert (W : forall l, sum_list_with g l <= sum_list_with h l).
  { clear -L. induction l as [|c l IH]; cbn; [done|]. specialize (L c). lia. }
  induction l as [|c l IH]; [by apply elem_of_nil in H|]. cbn. specialize (L c). specialize (W l).
  apply elem_of_cons in H as [->|H]; [lia|]. specialize (IH H). lia.
Qed.

Section analysis.
  Context (f : IrFunc) (cfg : option OptConfig) (TF : typed_code f).
  (** The values set so far to vary, and whether the entry block was entered. *)
  Context (ps : list Z) (entered : Prop).
  #[local] Notation "'nvals'" := (length (f_vals f)).
  #[local] Notation "'nblocks'" := (length (f_blocks f)).
  #[local] Notation "'ids'" := (seqZ 1 (f_nvals f)).

Definition heads (s : Sccp) : nat * nat * nat := (edge_head s, block_head s, value_head s).
Definition levels (s : Sccp) : nat := sum_list_with (fun v => level (value_at s v)) ids.

(** ** The queues stay within their arrays *)
Record queues (s : Sccp) : Prop := {
  q_value v : v ∈ value_queued s -> v ∈ drop (value_head s) (value_work s);
  q_value_len : length (value_work s) <= levels s;
  q_value_head : value_head s <= length (value_work s);
  q_edge_nodup : NoDup (edge_work s);
  q_edge n : n ∈ edge_exec s <-> n ∈ edge_work s;
  q_edge_bound n : n ∈ edge_work s -> n < nedges f;
  q_edge_head : edge_head s <= length (edge_work s);
  q_block_nodup : NoDup (block_work s);
  q_block b : b ∈ blocks s <-> b ∈ block_work s;
  q_block_bound b : b ∈ block_work s -> b < nblocks;
  q_block_head : block_head s <= length (block_work s);
}.

Lemma levels_bound s : levels s <= 2 * nvals.
Proof.
  unfold levels. replace nvals with (length ids) by (rewrite length_seqZ; unfold f_nvals; lia).
  induction ids as [|v l IH]; cbn; [done|]. pose proof (level_bound (value_at s v)). lia.
Qed.
Lemma queues_bound s : queues s ->
  length (edge_work s) <= nedges f /\ length (block_work s) <= nblocks /\ length (value_work s) <= 2 * nvals.
Proof.
  intros Q. split; [|split].
  - apply NoDup_below; apply Q.
  - apply NoDup_below; apply Q.
  - etransitivity; [apply Q|apply levels_bound].
Qed.

(** ** The invariant, but for the uses [X] and the edges [Y] being processed *)
Definition pending (s : Sccp) (u : UseRef) : Prop :=
  match u with
  | UseInst r => r_block r ∈ drop (block_head s) (block_work s)
  | UseEdge n => n ∈ drop (edge_head s) (edge_work s)
  end.
Record inv (X : list UseRef) (Y : list nat) (s : Sccp) : Prop := {
  iv_typed : typed f s;
  iv_queues : queues s;
  iv_duty d : active f s (duty_use d) -> pending s (duty_use d) \/ duty_use d ∈ X \/ good f cfg s d;
  iv_target n e b : n ∈ edge_exec s -> edge_at f n = Some e -> e_target e = (Z.of_nat b + 1)%Z -> b < nblocks ->
    pending s (UseEdge n) \/ n ∈ Y \/ b ∈ blocks s;
  iv_entry : entered -> 0 ∈ blocks s;
  iv_params p : p ∈ ps -> value_at s p = LAT_OVERDEFINED;
}.

Lemma active_ok X Y s u : inv X Y s -> active f s u -> use_ok f u.
Proof. intros I. destruct u as [r|n]; cbn; [tauto|]. intros H. by apply (q_edge_bound _ (iv_queues _ _ _ I)), (q_edge _ (iv_queues _ _ _ I)). Qed.

Lemma inv_discharge u X Y s : inv (u :: X) Y s -> (forall d, duty_use d = u -> active f s u -> good f cfg s d) -> inv X Y s.
Proof.
  intros I H. split; try apply I. intros d A. destruct (iv_duty _ _ _ I d A) as [P|[[E|Hx]%elem_of_cons|G]]; auto.
  right. right. apply H; [done|by rewrite <- E].
Qed.

(** One state after another, with the heads where they were. *)
Record moves (X : list UseRef) (Y : list nat) (s s' : Sccp) : Prop := {
  mv_inv : inv X Y s';
  mv_heads : heads s' = heads s;
  mv_rises : rises s s';
  mv_blocks b : b ∈ blocks s -> b ∈ blocks s';
}.
Lemma moves_refl X Y s : inv X Y s -> moves X Y s s.
Proof. by split. Qed.
Lemma moves_trans X Y X' Y' s s1 s2 : moves X Y s s1 -> moves X' Y' s1 s2 -> moves X' Y' s s2.
Proof. intros [I H R B] [I' H' R' B']. split; [done|congruence|by transitivity s1|auto]. Qed.
Lemma moves_good X Y s s' d : inv X Y s -> use_ok f (duty_use d) -> rises s s' -> good f cfg s d -> good f cfg s' d.
Proof using TF. intros I U R. apply good_rises; [done|apply I|done|done]. Qed.

(** ** A lattice entry rises *)
Lemma value_at_set s v l w : value_at (set_value s v l) w = if decide (w = v) then l else value_at s w.
Proof.
  unfold value_at, set_value. cbn [values]. destruct (decide (w = v)) as [->|N]; [by rewrite lookup_insert_eq|].
  by rewrite lookup_insert_ne.
Qed.
Lemma queue_value_fields s v : let s' := queue_value s v in
  values s' = values s /\ blocks s' = blocks s /\ edge_exec s' = edge_exec s /\ edge_work s' = edge_work s /\
  block_work s' = block_work s /\ heads s' = heads s /\ value_queued s' = {[v]} ∪ value_queued s.
Proof. unfold queue_value. case_bool_decide; split_and!; try done. apply leibniz_equiv. set_solver. Qed.
Lemma queue_value_work s v : value_head s <= length (value_work s) ->
  (forall w, w ∈ value_queued s -> w ∈ drop (value_head s) (value_work s)) ->
  let s' := queue_value s v in
  (forall w, w ∈ value_queued s' -> w ∈ drop (value_head s) (value_work s')) /\
  length (value_work s) <= length (value_work s') <= S (length (value_work s)).
Proof.
  intros L H. unfold queue_value. case_bool_decide as E; cbn [value_work value_queued]; [split; [done|lia]|].
  rewrite length_app. cbn. split; [|lia]. intros w Hw. apply drop_snoc; [done|]. set_solver.
Qed.

Lemma update_moves X Y s id l : inv X Y s -> (1 <= id <= f_nvals f)%Z -> typed_lattice f (ir_value_type (f_vals f) id) l ->
  let s' := update_value f s id l in moves X Y s s' /\ lat_le l (value_at s' id) /\ edge_exec s' = edge_exec s /\ blocks s' = blocks s.
Proof using TF.
  intros I Hid Tl. cbn zeta. unfold update_value. rewrite (proj2 (Z.eqb_neq id 0)), (proj2 (Z.ltb_ge _ _)) by lia. cbn [orb].
  set (next := lattice_join (value_at s id) l). destruct (lattice_same (value_at s id) next) eqn:Sm.
  { split; [by apply moves_refl|]. split; [|done]. transitivity next; [apply join_right|by apply lattice_same_le]. }
  pose proof (queue_value_fields (set_value s id next) id) as (Fv & Fb & Fe & Fw & Fbw & Fh & Fq).
  pose proof (iv_queues _ _ _ I) as Q.
  pose proof (queue_value_work (set_value s id next) id (q_value_head _ Q) (q_value _ Q)) as (Wq & Wl).
  set (s' := queue_value (set_value s id next) id) in *. cbn [set_value values blocks edge_exec edge_work block_work value_queued value_work value_head] in *.
  assert (V : forall w, value_at s' w = if decide (w = id) then next else value_at s w).
  { intros w. rewrite <- value_at_set. unfold value_at. by rewrite Fv. }
  unfold heads in Fh. cbn [set_value edge_head block_head value_head] in Fh. injection Fh as Fh1 Fh2 Fh3.
  assert (R : rises s s').
  { split.
    - intros v. rewrite V. case_decide; [subst v; apply join_left|done].
    - intros v. rewrite V. case_decide; [right; rewrite Fq; set_solver|by left].
    - intros v. rewrite Fq. set_solver.
    - intros n. by rewrite Fe. }
  split; [|split; [rewrite V, decide_True by done; apply join_right|done]].
  split; [|unfold heads; congruence|done|intros b; by rewrite Fb].
  split.
  - intros v. rewrite V. case_decide; [subst v; apply typed_join; [apply I|done]|apply I].
  - split; rewrite ?Fe, ?Fw, ?Fb, ?Fbw, ?Fh1, ?Fh2, ?Fh3; try apply Q.
    + exact Wq.
    + assert (levels s < levels s').
      { apply (sum_with_rise _ _ ids id).
        - intros c. rewrite V. case_decide; [subst c|done]. by apply Nat.lt_le_incl, join_rises.
        - apply elem_of_seqZ. lia.
        - rewrite V, decide_True by done. by apply join_rises. }
      pose proof (q_value_len _ Q). lia.
    + pose proof (q_value_head _ Q). lia.
  - intros d A. assert (A0 : active f s (duty_use d)) by (destruct (duty_use d); cbn in *; rewrite ?Fb, ?Fe in A; done).
    destruct (iv_duty _ _ _ I d A0) as [P|[Hx|G]]; [left|right; by left|right; right].
    + destruct (duty_use d); cbn in *; by rewrite ?Fbw, ?Fw, ?Fh1, ?Fh2.
    + by apply (moves_good X Y s s' d I (active_ok _ _ _ _ I A0) R).
  - intros n e b. rewrite Fe, Fb. cbn. rewrite Fw, Fh1. apply I.
  - rewrite Fb. apply I.
  - intros p Hp. pose proof (rs_values _ _ R p) as Hle. rewrite (iv_params _ _ _ I p Hp) in Hle. by destruct (value_at s' p).
Qed.
(** ** An edge becomes executable *)
Lemma mark_edge_moves X Y s n : inv X Y s -> n < nedges f -> exists s', mark_edge f s n = Some s' /\ moves X Y s s' /\
  n ∈ edge_exec s' /\ values s' = values s /\ blocks s' = blocks s.
Proof using TF.
  intros I L. unfold mark_edge. rewrite (proj2 (Nat.leb_gt _ _)) by done. eexists. split; [done|].
  case_bool_decide as E; [split; [by apply moves_refl|done]|].
  pose proof (iv_queues _ _ _ I) as Q.
  match goal with |- moves _ _ _ ?t /\ _ => set (s' := t) end.
  assert (R : rises s s') by (split; cbn; [done|by left|done|set_solver]).
  split; [|split; [cbn; set_solver|done]]. split; [|done|done|done]. split.
  - exact (iv_typed _ _ _ I).
  - split; cbn; try apply Q.
    + apply NoDup_snoc; [apply Q|]. by rewrite <- (q_edge _ Q).
    + intros m. rewrite elem_of_union, elem_of_singleton, elem_of_app, list_elem_of_singleton, (q_edge _ Q). tauto.
    + intros m [H| ->%list_elem_of_singleton]%elem_of_app; [by apply Q|done].
    + rewrite length_app. pose proof (q_edge_head _ Q). lia.
  - intros d A. assert (P : active f s (duty_use d) \/ duty_use d = UseEdge n).
    { destruct (duty_use d); cbn in A |- *; [by left|]. apply elem_of_union in A as [->%elem_of_singleton|A]; auto. }
    destruct P as [A0|E0]; [|left; rewrite E0; cbn; apply drop_snoc; [apply Q|by right]].
    destruct (iv_duty _ _ _ I d A0) as [P|[Hx|G]]; [left|right; by left|right; right].
    + destruct (duty_use d); cbn in P |- *; [done|]. apply drop_snoc; [apply Q|by left].
    + by apply (moves_good X Y s s' d I (active_ok _ _ _ _ I A0) R).
  - intros m e b Hm He Ht Hb. cbn. assert (Hd : forall k, k ∈ drop (edge_head s) (edge_work s) -> k ∈ drop (edge_head s) (edge_work s ++ [n])).
    { intros k Hk. apply drop_snoc; [apply Q|by left]. }
    cbn in Hm. apply elem_of_union in Hm as [->%elem_of_singleton|Hm]; [left; apply drop_snoc; [apply Q|by right]|].
    destruct (iv_target _ _ _ I m e b Hm He Ht Hb) as [P|]; [left; by apply Hd|by right].
  - apply I.
  - exact (iv_params _ _ _ I).
Qed.
Lemma value_at_values s s' v : values s' = values s -> value_at s' v = value_at s v.
Proof. unfold value_at. by intros ->. Qed.
Lemma mark_edges_moves X Y s l : inv X Y s -> (forall n, n ∈ l -> n < nedges f) -> exists s', mark_edges f s l = Some s' /\
  moves X Y s s' /\ (forall n, n ∈ l -> n ∈ edge_exec s') /\ values s' = values s /\ blocks s' = blocks s.
Proof using TF.
  revert s. induction l as [|n l IH]; intros s I H.
  { exists s. split; [done|]. split; [by apply moves_refl|]. split; [by intros n []%elem_of_nil|done]. }
  cbn [mark_edges]. destruct (mark_edge_moves X Y s n I (H n ltac:(left))) as (s1 & E1 & M1 & N1 & V1 & B1). rewrite E1. cbn [mbind option_bind].
  destruct (IH s1 (mv_inv _ _ _ _ M1) ltac:(intros; apply H; by right)) as (s2 & E2 & M2 & N2 & V2 & B2).
  exists s2. split; [done|]. split; [by eapply moves_trans|]. split; [|split; congruence].
  intros m [->|Hm]%elem_of_cons; [by apply (mv_rises _ _ _ _ M2)|by apply N2].
Qed.

(** ** An instruction is evaluated *)
Lemma eval_ref_moves X Y s r : inv X Y s -> indexed f r -> exists s', eval_ref f cfg s r = Some s' /\ moves X Y s s' /\
  good f cfg s' (Result r) /\ good f cfg s' (Branch r) /\ blocks s' = blocks s.
Proof using TF.
  intros I Hr. pose proof (indexed_inst f r Hr) as Hi. pose proof (tf_insts f TF _ Hi) as W.
  assert (H1 : let s1 := eval_inst f cfg s (r_inst r) in moves X Y s s1 /\ good f cfg s1 (Result r) /\ blocks s1 = blocks s).
  { cbn zeta. unfold eval_inst. destruct (Z.eqb_spec (in_result (r_inst r)) 0) as [E|N]; [split; [by apply moves_refl|split; [|done]; left; by intros ?]|].
    destruct (w_vtype _ _ _ _ _ W N) as [Rg Ty].
    destruct (update_moves X Y s (in_result (r_inst r)) (inst_lattice f cfg s (r_inst r)) I Rg) as (M & Le & _ & B).
    - rewrite Ty. by apply inst_lattice_typed; [|apply I|].
    - split; [done|]. split; [|done]. apply (good_after f cfg s _ (Result r) (mv_rises _ _ _ _ M)); [done|]. intros Sm _.
      by rewrite (inst_lattice_same f cfg TF s _ _ (iv_typed _ _ _ I) Hi Sm). }
  destruct H1 as (M1 & G1 & B1). set (s1 := eval_inst f cfg s (r_inst r)) in *. unfold eval_ref. fold s1.
  rewrite eval_terminator_marks.
  destruct (mark_edges_moves X Y s1 (map (Nat.add (r_edge_base r)) (marks f s1 (r_inst r))) (mv_inv _ _ _ _ M1)) as (s2 & E2 & M2 & N2 & V2 & B2).
  { intros n (k & <- & Hk)%list_elem_of_In%in_map_iff. apply list_elem_of_In in Hk. apply (indexed_edge f r k Hr). by apply (marks_bound f TF s1). }
  exists s2. split; [done|]. split; [by eapply moves_trans|]. split; [|split; [|congruence]].
  - by apply (moves_good X Y s1 s2 (Result r) (mv_inv _ _ _ _ M1) Hr (mv_rises _ _ _ _ M2)).
  - left. intros k Hk. apply N2. apply list_elem_of_In, in_map, list_elem_of_In. rewrite <- (marks_same f s1 s2); [done|].
    intros v _. by apply value_at_values.
Qed.
Lemma eval_refs_moves X Y s rs : inv (map UseInst rs ++ X) Y s -> (forall r, r ∈ rs -> indexed f r) ->
  exists s', eval_refs f cfg s rs = Some s' /\ moves X Y s s' /\ blocks s' = blocks s.
Proof using TF.
  revert s. induction rs as [|r rs IH]; intros s I H; [exists s; split; [done|]; split; [by apply moves_refl|done]|].
  cbn [eval_refs]. destruct (eval_ref_moves _ Y s r I (H r ltac:(left))) as (s1 & -> & M1 & Gr & Gb & E1). cbn [mbind option_bind].
  assert (I1' : inv (map UseInst rs ++ X) Y s1).
  { apply (inv_discharge _ _ _ _ (mv_inv _ _ _ _ M1)). by intros [r'|r'|n j] [= ->] _. }
  destruct (IH s1 I1' ltac:(intros; apply H; by right)) as (s2 & -> & M2 & E2). exists s2. split; [done|].
  split; [by eapply moves_trans|congruence].
Qed.
(** ** The parameters of a block *)
Lemma incoming_left s k l0 ns : lat_le l0 (foldl (incoming_value f s k) l0 ns).
Proof.
  revert l0. induction ns as [|n ns IH]; intros l0; cbn [foldl]; [done|]. transitivity (incoming_value f s k l0 n); [|apply IH].
  unfold incoming_value. case_bool_decide; [|done]. destruct (edge_at f n); [|done]. destruct (e_args _ !! k); [apply join_left|done].
Qed.
Lemma incoming_right s k l0 ns n e a : n ∈ ns -> n ∈ edge_exec s -> edge_at f n = Some e -> e_args e !! k = Some a ->
  lat_le (lattice_of f s a) (foldl (incoming_value f s k) l0 ns).
Proof.
  intros H E He Ha. revert l0. induction ns as [|m ns IH]; intros l0; [by apply elem_of_nil in H|]. cbn [foldl].
  apply elem_of_cons in H as [<-|H]; [|by apply IH]. transitivity (incoming_value f s k l0 n); [|apply incoming_left].
  unfold incoming_value. rewrite bool_decide_eq_true_2, He, Ha by done. apply join_right.
Qed.
Lemma incoming_typed s t b k p l0 ns : typed f s -> ir_block f t = Some b -> b_params b !! k = Some p ->
  (forall n, n ∈ ns -> n ∈ incoming f t) -> typed_lattice f (ir_value_type (f_vals f) p) l0 ->
  typed_lattice f (ir_value_type (f_vals f) p) (foldl (incoming_value f s k) l0 ns).
Proof using TF.
  intros T B P. revert l0. induction ns as [|n ns IH]; intros l0 H T0; [done|]. cbn [foldl]. apply IH; [intros; apply H; by right|].
  destruct (proj1 (incoming_elem f t n) (H n ltac:(left))) as (L & e & He & <-). unfold incoming_value. rewrite He.
  case_bool_decide; [|done]. destruct (e_args e !! k) as [a|] eqn:Ea; [|done]. apply typed_join; [done|].
  destruct (edge_at_Some f n L) as (e' & He' & Hin). rewrite He in He'. injection He' as <-.
  destruct (Forall2_lookup_l _ _ _ _ _ (tf_args f (tc_func f TF) e b Hin B) Ea) as (p' & P' & Ep). rewrite P in P'. injection P' as <-. rewrite <- Ep.
  apply lattice_of_typed; [done|]. pose proof (tf_edges f TF e Hin) as F. rewrite Forall_lookup in F. by apply (F k).
Qed.

Lemma update_params_moves X Y s t b k params : inv X Y s -> ir_block f t = Some b -> drop k (b_params b) = params ->
  exists s', update_params f s t k params = s' /\ moves X Y s s' /\ edge_exec s' = edge_exec s /\ blocks s' = blocks s /\
  forall n e j, n ∈ edge_exec s -> edge_at f n = Some e -> e_target e = t -> k <= j -> good f cfg s' (Arg n j).
Proof using TF.
  revert s k. induction params as [|p params IH]; intros s k I B D; cbn [update_params].
  { exists s. split; [done|]. split; [by apply moves_refl|]. split; [done|]. split; [done|]. intros n e j _ He Ht Hj. left.
    intros e' b' a q He' Hb _ Hq. rewrite He in He'. injection He' as <-. rewrite Ht, B in Hb. injection Hb as <-.
    apply lookup_lt_Some in Hq. apply (f_equal length) in D. rewrite length_drop in D. cbn in D. lia. }
  assert (P : b_params b !! k = Some p) by (rewrite <- (Nat.add_0_r k), <- lookup_drop, D; done).
  assert (Dk : drop (S k) (b_params b) = params) by (rewrite (drop_S _ _ _ P) in D; by injection D).
  assert (Tl : typed_lattice f (ir_value_type (f_vals f) p) (block_param_value f s t k)).
  { apply (incoming_typed s t b k p); [apply I|done|done|done|by intros c]. }
  pose proof (tf_params f (tc_func f TF) b p (ir_block_elem f t b B) ltac:(by apply list_elem_of_lookup_2 in P)) as Rg.
  destruct (update_moves X Y s p _ I Rg Tl) as (M1 & Le & E1 & B1). set (s1 := update_value f s p _) in *.
  destruct (IH s1 (S k) (mv_inv _ _ _ _ M1) B Dk) as (s' & Eq & M' & E' & B' & G'). exists s'. split; [done|].
  split; [by eapply moves_trans|]. split; [congruence|]. split; [congruence|]. intros n e j Hn He Ht Hj.
  destruct (decide (j = k)) as [->|]; [|apply (G' n e); [by rewrite E1|done|done|lia]].
  pose proof (iv_queues _ _ _ I) as Q. assert (L : n < nedges f) by by apply (q_edge_bound _ Q), (q_edge _ Q).
  apply (moves_good X Y s1 s' (Arg n k) (mv_inv _ _ _ _ M1) L (mv_rises _ _ _ _ M')).
  apply (good_after f cfg s s1 (Arg n k) (mv_rises _ _ _ _ M1) L). intros Sm e' b' a q He' Hb Ha Hq.
  rewrite He in He'. injection He' as <-. rewrite Ht, B in Hb. injection Hb as <-. rewrite P in Hq. injection Hq as <-.
  cbn in Sm. rewrite He in Sm. rewrite (lattice_of_same f (e_args e) s s1) by (done || by apply list_elem_of_lookup_2 in Ha).
  transitivity (block_param_value f s t k); [|done]. apply (incoming_right s k _ _ n e); try done. apply incoming_elem. split; [done|by exists e].
Qed.
Lemma update_block_params_moves X Y s t : inv X Y s -> exists s', update_block_params f s t = s' /\ moves X Y s s' /\
  edge_exec s' = edge_exec s /\ blocks s' = blocks s /\
  forall n e j, n ∈ edge_exec s -> edge_at f n = Some e -> e_target e = t -> good f cfg s' (Arg n j).
Proof using TF.
  intros I. unfold update_block_params. destruct (ir_block f t) as [b|] eqn:B.
  - destruct (update_params_moves X Y s t b 0 (b_params b) I B eq_refl) as (s' & E & M & Ee & Eb & G). exists s'.
    split; [done|]. split; [done|]. split; [done|]. split; [done|]. intros n e j Hn He Ht. apply (G n e); [done|done|done|lia].
  - exists s. split; [done|]. split; [by apply moves_refl|]. split; [done|]. split; [done|]. intros n e j _ He Ht. left.
    intros e' b' a q He' Hb. rewrite He in He'. injection He' as <-. by rewrite Ht, B in Hb.
Qed.

(** ** The uses of a value *)
Lemma process_use_moves X Y s u : inv (u :: X) Y s -> use_ok f u -> exists s', process_use f cfg s u = Some s' /\ moves X Y s s'.
Proof using TF.
  intros I U. assert (Skip : ~ active f s u -> moves X Y s s).
  { intros N. apply moves_refl, (inv_discharge u); [done|]. by intros d _ A. }
  destruct u as [r|n]; cbn [process_use].
  - case_bool_decide as Hb; [|exists s; split; [done|apply Skip; by intros [_ A]]].
    destruct (eval_ref_moves _ Y s r I U) as (s' & E & M & Gr & Gb & _). exists s'. split; [done|]. destruct M as [I' H' R' B'].
    split; try done. apply (inv_discharge _ _ _ _ I'). by intros [r'|r'|n j] [= ->] _.
  - case_bool_decide as Hn; [|exists s; split; [done|by apply Skip]].
    destruct (edge_at_Some f n U) as (e & He & _). rewrite He. cbn [mbind option_bind].
    destruct (update_block_params_moves _ Y s (e_target e) I) as (s' & E & M & Ee & _ & G). exists s'. split; [by rewrite E|].
    destruct M as [I' H' R' B']. split; try done. apply (inv_discharge _ _ _ _ I'). intros [r'|r'|m j] [= ->] _. by apply (G n e).
Qed.
Lemma process_uses_moves X Y s us : inv (us ++ X) Y s -> (forall u, u ∈ us -> use_ok f u) ->
  exists s', process_uses f cfg s us = Some s' /\ moves X Y s s'.
Proof using TF.
  revert s. induction us as [|u us IH]; intros s I H; [exists s; split; [done|by apply moves_refl]|].
  cbn [process_uses]. destruct (process_use_moves _ Y s u I (H u ltac:(left))) as (s1 & -> & M1). cbn [mbind option_bind].
  destruct (IH s1 (mv_inv _ _ _ _ M1) ltac:(intros; apply H; by right)) as (s2 & -> & M2). exists s2. split; [done|by eapply moves_trans].
Qed.
(** ** Taking from the queues *)
Lemma pop_edge s n : inv [] [] s -> edge_work s !! edge_head s = Some n -> inv [UseEdge n] [n] (next_edge s) /\ n < nedges f /\ n ∈ edge_exec s.
Proof using TF.
  intros I H. pose proof (iv_queues _ _ _ I) as Q. assert (Hn : n ∈ edge_work s) by by apply list_elem_of_lookup_2 in H.
  split; [|split; [by apply Q|by apply (q_edge _ Q)]]. split.
  - exact (iv_typed _ _ _ I).
  - split; cbn; try apply Q. by apply lookup_lt_Some in H.
  - intros d A. destruct (iv_duty _ _ _ I d A) as [P|[Hx|G]]; [|by apply elem_of_nil in Hx|by right; right].
    destruct (duty_use d) as [r|m]; cbn in P |- *; [by left|]. apply (drop_head _ _ n) in P as [->|P]; [right; left; left|by left|done].
  - intros m e b Hm He Ht Hb. destruct (iv_target _ _ _ I m e b Hm He Ht Hb) as [P|[Hy|]]; [|by apply elem_of_nil in Hy|by right; right].
    cbn in P |- *. apply (drop_head _ _ n) in P as [->|P]; [right; left; left|by left|done].
  - apply I.
  - exact (iv_params _ _ _ I).
Qed.
(** A block is entered. *)
Lemma add_block_inv X Y s b : inv X Y s -> b < nblocks ->
  let s' := if bool_decide (b ∈ blocks s) then s
            else mkSccp (values s) ({[b]} ∪ blocks s) (edge_exec s) (edge_work s) (edge_head s) (block_work s ++ [b])
                   (block_head s) (value_work s) (value_head s) (value_queued s) in
  moves X Y s s' /\ b ∈ blocks s'.
Proof.
  intros I L. case_bool_decide as E; [by split; [apply moves_refl|]|]. pose proof (iv_queues _ _ _ I) as Q.
  cbn zeta. match goal with |- moves _ _ _ ?t /\ _ => set (s' := t) end.
  split; [|cbn; set_solver]. split; [|done|by split; auto|cbn; set_solver]. split.
  - exact (iv_typed _ _ _ I).
  - split; cbn; try apply Q.
    + apply NoDup_snoc; [apply Q|]. by rewrite <- (q_block _ Q).
    + intros m. rewrite elem_of_union, elem_of_singleton, elem_of_app, list_elem_of_singleton, (q_block _ Q). tauto.
    + intros m [H| ->%list_elem_of_singleton]%elem_of_app; [by apply Q|done].
    + rewrite length_app. pose proof (q_block_head _ Q). lia.
  - intros d A. assert (P : active f s (duty_use d) \/ exists r, duty_use d = UseInst r /\ r_block r = b).
    { destruct (duty_use d); cbn in A |- *; [|by left]. destruct A as [Ar [E0%elem_of_singleton|A]%elem_of_union]; [right; by exists r|by left]. }
    destruct P as [A0|(r & E0 & <-)]; [|left; rewrite E0; cbn; apply drop_snoc; [apply Q|by right]].
    destruct (iv_duty _ _ _ I d A0) as [P|[Hx|G]]; [left|right; by left|right; right; exact G].
    destruct (duty_use d); cbn in P |- *; [apply drop_snoc; [apply Q|by left]|done].
  - intros m e c Hm He Ht Hc. destruct (iv_target _ _ _ I m e c Hm He Ht Hc) as [P|[Hy|Hb]]; [by left|right; by left|].
    right; right. cbn. set_solver.
  - intros N. cbn. pose proof (iv_entry _ _ _ I N). set_solver.
  - exact (iv_params _ _ _ I).
Qed.
Lemma process_edge_moves s n : inv [] [] s -> edge_work s !! edge_head s = Some n ->
  exists s', process_edge f (next_edge s) n = Some s' /\ inv [] [] s' /\ heads s' = (S (edge_head s), block_head s, value_head s).
Proof using TF.
  intros I H. destruct (pop_edge s n I H) as (I0 & L & Hn). set (s0 := next_edge s) in *.
  destruct (edge_at_Some f n L) as (e & He & Hin). unfold process_edge. rewrite He. cbn [mbind option_bind].
  pose proof (tf_targets f (tc_func f TF) e Hin) as T. rewrite (proj2 (Z.eqb_neq _ _)), (proj2 (Z.ltb_ge _ _)) by lia. cbn [orb].
  destruct (update_block_params_moves _ _ s0 (e_target e) I0) as (s1 & -> & M1 & _ & _ & G1).
  assert (I1 : inv [] [n] s1).
  { apply (inv_discharge _ _ _ _ (mv_inv _ _ _ _ M1)). intros [r|r|m j] [= ->] _. by apply (G1 n e). }
  destruct (add_block_inv _ _ s1 (Z.to_nat (e_target e - 1)) I1 ltac:(unfold f_nblocks in T; lia)) as (M2 & B2).
  eexists. split; [done|]. split; [|rewrite (mv_heads _ _ _ _ M2), (mv_heads _ _ _ _ M1); done].
  pose proof (mv_inv _ _ _ _ M2) as I2. split; try apply I2. intros m e' b Hm He' Ht Lb.
  destruct (iv_target _ _ _ I2 m e' b Hm He' Ht Lb) as [|[->%list_elem_of_singleton|]]; [by left| |by right; right].
  right; right. rewrite He in He'. injection He' as <-. replace b with (Z.to_nat (e_target e - 1)) by lia. exact B2.
Qed.

Lemma scan_block_moves s b : inv [] [] s -> block_work s !! block_head s = Some b ->
  exists s', scan_block f cfg (next_block s) b = Some s' /\ inv [] [] s' /\ heads s' = (edge_head s, S (block_head s), value_head s).
Proof using TF.
  intros I H. pose proof (iv_queues _ _ _ I) as Q. assert (Hb : b ∈ block_work s) by by apply list_elem_of_lookup_2 in H.
  destruct (lookup_lt_is_Some_2 _ _ (q_block_bound _ Q b Hb)) as [blk Eblk].
  destruct (block_insts f !! b) as [rs|] eqn:Ers.
  2:{ destruct (index_blocks_at 0 0 (f_blocks f) b blk Eblk) as (base & E). unfold block_insts in Ers. by rewrite E in Ers. }
  assert (I0 : inv (map UseInst rs ++ []) [] (next_block s)).
  { split.
    - exact (iv_typed _ _ _ I).
    - split; cbn; try apply Q. by apply lookup_lt_Some in H.
    - intros d A. destruct (iv_duty _ _ _ I d A) as [P|[Hx|G]]; [|by apply elem_of_nil in Hx|by right; right].
      destruct (duty_use d) as [r|m] eqn:Ed; cbn in P |- *; [|by left].
      apply (drop_head _ _ b) in P as [Er|P]; [|by left|done]. right; left. rewrite app_nil_r.
      destruct A as [(rs' & Hrs & Hr) _]. rewrite Er, Ers in Hrs. injection Hrs as <-. apply list_elem_of_In, in_map. by apply list_elem_of_In.
    - intros m e c Hm He Ht Hc. apply (iv_target _ _ _ I m e c Hm He Ht Hc).
    - apply I.
    - exact (iv_params _ _ _ I). }
  unfold scan_block. rewrite Ers. cbn [default].
  destruct (eval_refs_moves [] [] (next_block s) rs I0) as (s' & E & M & _).
  { intros r Hr. by apply (block_insts_indexed f b rs r). }
  exists s'. split; [done|]. split; [apply M|]. by rewrite (mv_heads _ _ _ _ M).
Qed.

Lemma one_value_moves s v : inv [] [] s -> value_work s !! value_head s = Some v ->
  exists s', one_value f cfg s = Some s' /\ inv [] [] s' /\ heads s' = (edge_head s, block_head s, S (value_head s)).
Proof using TF.
  intros I H. pose proof (iv_queues _ _ _ I) as Q. unfold one_value. rewrite H. unfold process_value.
  assert (I0 : inv (uses_of f v ++ []) [] (next_value s v)).
  { rewrite app_nil_r. split.
    - exact (iv_typed _ _ _ I).
    - pose proof (lookup_lt_Some _ _ _ H). split; cbn; try apply Q; try lia. intros w [Hw N]%elem_of_difference. rewrite elem_of_singleton in N.
      apply (q_value _ Q) in Hw. by apply (drop_head _ _ v) in Hw as [->|Hw].
    - intros d A. destruct (iv_duty _ _ _ I d A) as [P|[Hx|[G|(w & Hw & Hu)]]]; [by left|by apply elem_of_nil in Hx|by right; right; left|].
      destruct (decide (w = v)) as [->|N]; [by right; left|]. right; right. right. exists w. split; [cbn; set_solver|done].
    - intros m e c Hm He Ht Hc. apply (iv_target _ _ _ I m e c Hm He Ht Hc).
    - apply I.
    - exact (iv_params _ _ _ I). }
  destruct (process_uses_moves [] [] _ _ I0) as (s' & E & M); [by apply uses_of_ok|].
  exists s'. split; [done|]. split; [apply M|]. by rewrite (mv_heads _ _ _ _ M).
Qed.

(** ** The loops *)
Lemma edges_loop_ends fuel s : inv [] [] s -> nedges f - edge_head s <= fuel -> exists s', edges_loop f fuel s = Some s' /\ inv [] [] s' /\
  edge_work s' !! edge_head s' = None /\ edge_head s <= edge_head s' /\ (is_Some (edge_work s !! edge_head s) -> edge_head s < edge_head s') /\
  block_head s' = block_head s /\ value_head s' = value_head s.
Proof using TF.
  revert s. induction fuel as [|fuel IH]; intros s I Hf; destruct (edge_work s !! edge_head s) as [n|] eqn:E.
  - exfalso. pose proof (queues_bound _ (iv_queues _ _ _ I)) as [B _]. apply lookup_lt_Some in E. lia.
  - exists s. cbn [edges_loop]. rewrite E. split_and!; try done; by intros [? ?].
  - cbn [edges_loop]. rewrite E. destruct (process_edge_moves s n I E) as (s1 & -> & I1 & H1). cbn [mbind option_bind].
    unfold heads in H1. injection H1 as H1 H2 H3. destruct (IH s1 I1 ltac:(lia)) as (s' & -> & I' & N' & L' & _ & B' & V').
    exists s'. split_and!; try done; try congruence; lia.
  - exists s. cbn [edges_loop]. rewrite E. split_and!; try done; by intros [? ?].
Qed.
Lemma blocks_loop_ends fuel s : inv [] [] s -> nblocks - block_head s <= fuel -> exists s', blocks_loop f cfg fuel s = Some s' /\ inv [] [] s' /\
  block_head s <= block_head s' /\ (is_Some (block_work s !! block_head s) -> block_head s < block_head s') /\
  edge_head s' = edge_head s /\ value_head s' = value_head s.
Proof using TF.
  revert s. induction fuel as [|fuel IH]; intros s I Hf; destruct (block_work s !! block_head s) as [n|] eqn:E.
  - exfalso. pose proof (queues_bound _ (iv_queues _ _ _ I)) as (_ & B & _). apply lookup_lt_Some in E. lia.
  - exists s. cbn [blocks_loop]. rewrite E. split_and!; try done; by intros [? ?].
  - cbn [blocks_loop]. rewrite E. destruct (scan_block_moves s n I E) as (s1 & -> & I1 & H1). cbn [mbind option_bind].
    unfold heads in H1. injection H1 as H1 H2 H3. destruct (IH s1 I1 ltac:(lia)) as (s' & -> & I' & L' & _ & B' & V').
    exists s'. split_and!; try done; try congruence; lia.
  - exists s. cbn [blocks_loop]. rewrite E. split_and!; try done; by intros [? ?].
Qed.
Definition measure (s : Sccp) : nat := (nedges f - edge_head s) + (nblocks - block_head s) + (2 * nvals - value_head s).
Lemma idle_spec s : inv [] [] s -> idle s = false ->
  is_Some (edge_work s !! edge_head s) \/ is_Some (block_work s !! block_head s) \/ is_Some (value_work s !! value_head s).
Proof using TF.
  intros I. unfold idle. rewrite !andb_false_iff, !Nat.leb_gt. intros [[H|H]|H]; [left|right; left|right; right]; by apply lookup_lt_is_Some_2.
Qed.
Lemma analyze_loop_ends fuel s : inv [] [] s -> measure s <= fuel ->
  exists s', analyze_loop f cfg fuel s = Some s' /\ inv [] [] s' /\ idle s' = true.
Proof using TF.
  revert s. induction fuel as [|fuel IH]; intros s I Hf; cbn [analyze_loop]; (destruct (idle s) eqn:D; [by exists s|]);
    pose proof (idle_spec s I D) as H; pose proof (queues_bound _ (iv_queues _ _ _ I)) as (Be & Bb & Bv).
  { exfalso. unfold measure in Hf. destruct H as [[? H%lookup_lt_Some]|[[? H%lookup_lt_Some]|[? H%lookup_lt_Some]]]; lia. }
  assert (N1 : edge_work s !! edge_head s = None -> edges_loop f (edge_fuel f) s = Some s) by (intros N; destruct (edge_fuel f); cbn; by rewrite N).
  destruct (edges_loop_ends (edge_fuel f) s I ltac:(unfold edge_fuel; lia)) as (s1 & E1 & I1 & _ & Le & Lt & Hb & Hv). rewrite E1. cbn [mbind option_bind].
  assert (N2 : block_work s1 !! block_head s1 = None -> blocks_loop f cfg (block_fuel f) s1 = Some s1) by (intros N; destruct (block_fuel f); cbn; by rewrite N).
  destruct (blocks_loop_ends (block_fuel f) s1 I1 ltac:(unfold block_fuel; lia)) as (s2 & E2 & I2 & Lb & Ltb & He & Hv2). rewrite E2. cbn [mbind option_bind].
  pose proof (queues_bound _ (iv_queues _ _ _ I1)) as (Be1 & _). pose proof (queues_bound _ (iv_queues _ _ _ I2)) as (_ & Bb2 & Bv2).
  pose proof (q_edge_head _ (iv_queues _ _ _ I1)). pose proof (q_block_head _ (iv_queues _ _ _ I2)).
  assert (Down : measure s2 < measure s \/ s2 = s).
  { unfold measure. destruct (edge_work s !! edge_head s) eqn:Ee; [specialize (Lt ltac:(done)); left; lia|].
    rewrite N1 in E1 by done. injection E1 as <-. destruct (block_work s !! block_head s) eqn:Eb; [specialize (Ltb ltac:(done)); left; lia|].
    rewrite N2 in E2 by done. injection E2 as <-. by right. }
  destruct (value_work s2 !! value_head s2) as [v|] eqn:Ev.
  - destruct (one_value_moves s2 v I2 Ev) as (s3 & -> & I3 & H3). cbn [mbind option_bind]. unfold heads in H3. injection H3 as H3 H4 H5.
    apply lookup_lt_Some in Ev. apply IH; [done|]. destruct Down as [|Es]; [|subst s2]; unfold measure in *; lia.
  - unfold one_value. rewrite Ev. cbn [mbind option_bind]. apply IH; [done|]. destruct Down as [|Es]; [lia|]. exfalso. subst s2.
    destruct H as [H|[H|[w H]]]; [specialize (Lt H); lia| |congruence].
    destruct (edge_work s !! edge_head s) eqn:Ee; [specialize (Lt ltac:(done)); lia|]. rewrite N1 in E1 by done. injection E1 as <-.
    specialize (Ltb H). lia.
Qed.
End analysis.

(** ** The start *)
Lemma empty_inv f cfg : inv f cfg [] False [] [] empty_state.
Proof.
  split; cbn; try done.
  - split; cbn; try apply NoDup_nil_2; try lia; set_solver.
  - intros d A. exfalso. destruct (duty_use d); cbn in A; set_solver.
  - by intros p []%elem_of_nil.
Qed.
Lemma start_params_inv f cfg ps qs s : typed_code f -> (forall p, p ∈ ps -> p ∈ f_param_vals f) -> inv f cfg qs False [] [] s -> blocks s = ∅ ->
  let s' := foldl (fun s v => update_value f s v LAT_OVERDEFINED) s ps in
  inv f cfg (rev ps ++ qs) False [] [] s' /\ blocks s' = ∅.
Proof.
  intros TF. revert qs s. induction ps as [|p ps IH]; intros qs s Hp I B; [done|]. cbn [foldl rev]. rewrite <- app_assoc.
  destruct (update_moves f cfg TF qs False [] [] s p LAT_OVERDEFINED I) as (M & Le & _ & Eb); [by apply (tf_func_params f (tc_func f TF)), Hp; left|done|].
  apply IH; [intros; apply Hp; by right| |congruence]. pose proof (mv_inv _ _ _ _ _ _ _ _ M) as I1. split; try apply I1.
  intros q [->|Hq]%elem_of_cons; [by destruct (value_at _ p)|by apply I1].
Qed.
Lemma start_inv f cfg : typed_code f -> inv f cfg (f_param_vals f) (f_blocks f <> []) [] [] (start_state f).
Proof.
  intros TF. destruct (start_params_inv f cfg (f_param_vals f) [] empty_state TF ltac:(done) (empty_inv f cfg) eq_refl) as (I & B).
  unfold start_state. set (s := foldl _ _ _) in *. rewrite app_nil_r in I.
  assert (P : forall p, p ∈ f_param_vals f -> p ∈ rev (f_param_vals f)) by (intros p; by rewrite !list_elem_of_In, <- in_rev).
  destruct (f_blocks f) as [|b bs] eqn:E.
  - split; try apply I; [done|]. intros p Hp. by apply I, P.
  - destruct (add_block_inv f cfg TF (rev (f_param_vals f)) False [] [] s 0 I) as (M & H0); [rewrite E; cbn; lia|].
    rewrite bool_decide_eq_false_2 in M, H0 by (rewrite B; set_solver).
    pose proof (mv_inv _ _ _ _ _ _ _ _ M) as I1. split; try apply I1; [done|]. intros p Hp. by apply I1, P.
Qed.

(** ** Solutions *)
(** The constant-propagation equations: entries are typed, parameters of the
    function vary, the entry block is executable; in an executable block the
    entry of a result covers what the instruction evaluates to and the edges a
    terminator may take are executable; along an executable edge the entries of
    the parameters cover those of the arguments, and its target is executable. *)
Record solution (f : IrFunc) (cfg : option OptConfig) (s : Sccp) : Prop := {
  so_typed : typed f s;
  so_entry : f_blocks f <> [] -> 0 ∈ blocks s;
  so_params p : p ∈ f_param_vals f -> value_at s p = LAT_OVERDEFINED;
  so_result b blk i : b ∈ blocks s -> f_blocks f !! b = Some blk -> i ∈ b_insts blk -> in_result i <> 0%Z ->
    lat_le (inst_lattice f cfg s i) (value_at s (in_result i));
  so_edge b blk i k e : b ∈ blocks s -> f_blocks f !! b = Some blk -> i ∈ b_insts blk -> k ∈ marks f s i ->
    in_edges i !! k = Some e -> exists t blk', f_blocks f !! t = Some blk' /\ e_target e = (Z.of_nat t + 1)%Z /\ t ∈ blocks s /\
    Forall2 (fun a p => lat_le (lattice_of f s a) (value_at s p)) (e_args e) (b_params blk');
}.

Lemma idle_good f cfg ps E s d : inv f cfg ps E [] [] s -> idle s = true -> active f s (duty_use d) -> holds f cfg s d.
Proof.
  intros I D A. unfold idle in D. rewrite !andb_true_iff, !Nat.leb_le in D. destruct D as [[D1 D2] D3].
  destruct (iv_duty _ _ _ _ _ _ _ I d A) as [P|[Hx|[|(v & Hv & _)]]]; [|by apply elem_of_nil in Hx|done|].
  - exfalso. destruct (duty_use d); cbn in P; rewrite drop_ge in P by done; by apply elem_of_nil in P.
  - exfalso. apply (q_value _ _ (iv_queues _ _ _ _ _ _ _ I)) in Hv. rewrite drop_ge in Hv by done. by apply elem_of_nil in Hv.
Qed.
Lemma idle_solution f cfg s : typed_code f -> inv f cfg (f_param_vals f) (f_blocks f <> []) [] [] s -> idle s = true -> solution f cfg s.
Proof.
  intros TF I D. split; try apply I.
  - intros b blk i Hb Eb Hi N. destruct (inst_ref f b blk i Eb Hi) as (rs & r & Ers & Hr & <-).
    destruct (block_insts_indexed f b rs r Ers Hr) as (Ix & Er & _). apply (idle_good f cfg _ _ s (Result r) I D); [|done]. cbn. by rewrite Er.
  - intros b blk i k e Hb Eb Hi Hk He. destruct (inst_ref f b blk i Eb Hi) as (rs & r & Ers & Hr & <-).
    destruct (block_insts_indexed f b rs r Ers Hr) as (Ix & Er & _).
    assert (Ex : r_edge_base r + k ∈ edge_exec s) by (apply (idle_good f cfg _ _ s (Branch r) I D); [cbn; by rewrite Er|done]).
    destruct (indexed_edge f r k Ix ltac:(by apply lookup_lt_Some in He)) as (L & Ee). rewrite He in Ee.
    assert (Hin : e ∈ edges f) by (apply (elem_edges f (r_inst r)); [by apply indexed_inst|by apply list_elem_of_lookup_2 in He]).
    destruct (target_block f e (tf_targets f (tc_func f TF)) Hin) as (blk' & Hb').
    pose proof (tf_targets f (tc_func f TF) e Hin). destruct (ir_block_index f (e_target e) blk' ltac:(lia) Hb') as (t & _ & Et & Tt). exists t, blk'.
    split; [done|]. split; [done|]. split.
    + destruct (iv_target _ _ _ _ _ _ _ I _ e t Ex Ee Tt ltac:(by apply lookup_lt_Some in Et)) as [P|[Hy|]]; [|by apply elem_of_nil in Hy|done].
      exfalso. unfold idle in D. rewrite !andb_true_iff, !Nat.leb_le in D. cbn in P. rewrite drop_ge in P by tauto. by apply elem_of_nil in P.
    + apply Forall2_same_length_lookup. split; [eapply Forall2_length, (tf_args f (tc_func f TF) e blk' Hin Hb')|]. intros j a p Ha Hp.
      by apply (idle_good f cfg _ _ s (Arg (r_edge_base r + k) j) I D Ex e blk').
Qed.

Lemma sccp_analysis_solution f cfg : typed_code f -> exists s, analyze f cfg = Some s /\ solution f cfg s /\
  length (edge_work s) <= nedges f /\ length (block_work s) <= length (f_blocks f) /\ length (value_work s) <= 2 * length (f_vals f).
Proof.
  intros TF. destruct (analyze_loop_ends f cfg TF _ _ (analyze_fuel f) (start_state f) (start_inv f cfg TF)) as (s & E & I & D).
  { unfold measure, analyze_fuel. lia. }
  exists s. split; [done|]. split; [by apply idle_solution|]. by apply queues_bound, I.
Qed.

(** C9. The analysis of sparse constant propagation ends: on a well-typed
    function, whose integer constants are reduced to their width if it has
    operations that look at all their bits, its three queues run empty within
    the arrays the pass allocates for them (every edge and every block enters its queue at most once, every
    value at most twice), and what it leaves solves the constant-propagation
    equations, for instructions, branches and block parameters alike. *)
Theorem sccp_analysis_ends f cfg : typed_func f -> constants_reduced f -> exists s, analyze f cfg = Some s /\ solution f cfg s /\
  length (edge_work s) <= nedges f /\ length (block_work s) <= length (f_blocks f) /\ length (value_work s) <= 2 * length (f_vals f).
Proof. intros T R. by apply sccp_analysis_solution, typed_reduced. Qed.
