(* ===== verification/SccpValues.v ===== *)
(** A solution of the constant-propagation equations is right about every
    execution: once its operands are, an instruction's entry is. *)
From stdpp Require Import gmap.
From S2P Require Import Prelude.
From S2P Require Import Ir.
From S2P Require Import IrSem.
From S2P Require Import IrValues.
From S2P Require Import Fold.
From S2P Require Import FoldFacts.
From S2P Require Import FoldCorrect.
From S2P Require Import Simplify.
From S2P Require Import SimplifyRules.
From S2P Require Import SimplifySound.
From S2P Require Import SimplifyPass.
From S2P Require Import Sccp.
From S2P Require Import SccpIndex.
From S2P Require Import SccpDuty.
From S2P Require Import SccpAnalysis.
From S2P Require Import IrExec.
From S2P Require Import IrTotal.
#[local] Open Scope Z_scope.

(** ** Machines blind to where an operand's value comes from *)

(** What is left of an operand: its type and, in a call, the annotations of
    the argument. *)
Definition slot (o : IrOp) (op : IrOperand) : IrType * Z * Z :=
  (o_type op, if opc_eqb o IR_CALL then o_argflags op else 0,
   if opc_eqb o IR_CALL && negb (type_is_float (o_type op)) then o_b op else 0).
Definition alike (sh sh' : Shape) : Prop :=
  s_op sh' = s_op sh /\ s_type sh' = s_type sh /\ s_subop sh' = s_subop sh /\ s_flags sh' = s_flags sh /\ s_aux sh' = s_aux sh /\
  map (slot (s_op sh)) (s_ops sh') = map (slot (s_op sh)) (s_ops sh).
Record lawful (cfg : option OptConfig) (M : Machine) : Prop := {
  lw_licensed : licensed (fpu M) cfg;
  lw_observes sh sh' vs w r : alike sh sh' -> observes M sh vs w r <-> observes M sh' vs w r;
  lw_effects sh sh' vs w r w' : alike sh sh' -> effects M sh vs w r w' <-> effects M sh' vs w r w';
  lw_inhabited sh vs w : inhabited (observes M sh vs w);
}.
Lemma alike_sym sh sh' : alike sh sh' -> alike sh' sh.
Proof. intros (E & ? & ? & ? & ? & H). unfold alike. rewrite E. by split_and!. Qed.

Section values.
  Context (f : IrFunc) (cfg : option OptConfig) (s : Sccp).
  Context (TF : typed_code f) (BU : forall i, i ∈ insts f -> value_op (in_op i) = true -> built i) (SO : solution f cfg s).
  Context (M : Machine) (LM : lawful cfg M).
  #[local] Notation "'rd'" := (reads (sym_addr M)).
  #[local] Notation "'fits''" := (fits (narrowing f) (f_vals f)).

(** ** What the entry of a value promises *)
Definition promises (l : Lattice) (d : Den) : Prop :=
  l <> LAT_TOP /\ forall c, l = LAT_CONST c -> forall env, refines (rd env c) d.
Lemma promises_le l l' d : lat_le l l' -> promises l d -> promises l' d.
Proof.
  intros H [N P]. destruct l as [|x|], l' as [|y|]; try done. cbn in H. split; [done|]. intros c [= <-] env. rewrite <- (P x eq_refl env).
  apply operand_eq_spec in H as (E1 & E2 & E3 & E4 & E5). unfold reads. by rewrite E1, E2, E3, E4, E5.
Qed.
Record sound_at (envg envf : Env) (v : Z) : Prop := {
  sa_refines : refines (envg v) (envf v);
  sa_inhabited : inhabited (envf v);
  sa_new : inhabited (envg v);
  sa_promises : promises (value_at s v) (envf v);
}.

Lemma constant_env t c env env' : constant f t c -> rd env c = rd env' c.
Proof. intros (_ & N & _). unfold reads. by destruct (o_kind c). Qed.

Section env.
  Context (envg envf : Env).
Definition operand_sound (op : IrOperand) : Prop := fits' op /\ (o_kind op = IROP_VALUE -> sound_at envg envf (o_a op)).

Lemma operand_promises op : operand_sound op -> promises (lattice_of f s op) (rd envf op).
Proof using SO.
  intros [F H]. destruct (decide (o_kind op = IROP_VALUE)) as [K|K].
  - rewrite lattice_of_value by done. unfold reads at 1. rewrite K. by apply H.
  - rewrite lattice_of_constant by done. split; [done|]. intros c [= <-] env. by rewrite (constant_env (o_type op) op env envf).
Qed.
Lemma operand_inhabited op : operand_sound op -> inhabited (rd envf op).
Proof.
  intros [F H]. destruct (decide (o_kind op = IROP_VALUE)) as [K|K].
  - unfold reads. rewrite K. by apply H.
  - destruct F as [_ _ Kn]. unfold reads. destruct (o_kind op); try done; try (by eexists). apply any_inhabited.
Qed.

(** ** Replaced operands *)
Lemma constant_inhabited t c env : constant f t c -> inhabited (rd env c).
Proof.
  intros ([_ _ K] & N & _). unfold reads. destruct (o_kind c); try done; try (by eexists). apply any_inhabited.
Qed.
Lemma replace_spec annot op : operand_sound op -> let op' := (replace_operand f s annot op).1 in
  fits' op' /\ o_type op' = o_type op /\ refines (rd envg op') (rd envf op) /\
  (annot = false -> forall c, lattice_of f s op = LAT_CONST c -> op' = c) /\ inhabited (rd envg op') /\
  forall o, annot = opc_eqb o IR_CALL -> slot o op' = slot o op.
Proof using SO.
  intros [F H]. cbn zeta.
  assert (Keep : (o_kind op = IROP_VALUE -> forall c, value_at s (o_a op) <> LAT_CONST c) -> fits' op /\ o_type op = o_type op /\ refines (rd envg op) (rd envf op) /\
    (annot = false -> forall c, lattice_of f s op = LAT_CONST c -> op = c) /\ inhabited (rd envg op) /\ forall o, annot = opc_eqb o IR_CALL -> slot o op = slot o op).
  { intros N. split; [done|]. split; [done|]. split; [|split; [|split; [|done]]].
    - destruct (decide (o_kind op = IROP_VALUE)) as [K|K]; [unfold reads; rewrite K; by apply H|].
      by rewrite (constant_env (o_type op) op envg envf).
    - intros _ c. destruct (decide (o_kind op = IROP_VALUE)) as [K|K]; [rewrite lattice_of_value by done; intros E; by destruct (N K c)|].
      rewrite lattice_of_constant by done. by intros [= <-].
    - destruct (decide (o_kind op = IROP_VALUE)) as [K|K]; [unfold reads; rewrite K; by apply H|]. by apply (constant_inhabited (o_type op)). }
  unfold replace_operand. destruct (_ && _ && _) eqn:C; [|apply Keep; intros K; exfalso].
  2:{ destruct (fits_value f op F K) as [I _]. unfold is_kind in C. rewrite K, bool_decide_eq_true_2, !(proj2 (Z.leb_le _ _)) in C by (done || lia). done. }
  apply andb_true_iff in C as [C _]. apply andb_true_iff in C as [K%bool_decide_eq_true _].
  destruct (value_at s (o_a op)) as [|c|] eqn:E; [apply Keep; congruence| |apply Keep; congruence]. cbn [fst].
  destruct (so_typed _ _ _ SO _ c E) as (Fc & Nc & Tc). destruct (fits_value f op F K) as [_ To]. rewrite <- To in Tc.
  assert (R : refines (rd envg c) (rd envf op)).
  { destruct (sa_promises _ _ _ (H K)) as [_ P]. unfold reads at 2. rewrite K. by apply P. }
  destruct annot.
  - assert (Fa : op_refines (narrowing f) (f_vals f) (sym_addr M) envf op (ir_arg_carry_provenance c op)).
    { apply carry_refines. split; [done|done|]. destruct (sa_promises _ _ _ (H K)) as [_ P]. unfold reads at 2. rewrite K. by apply P. }
    assert (Ca : constant f (o_type c) (ir_arg_carry_provenance c op)) by (split; [by eapply or_fits|done]).
    split; [by eapply or_fits|]. split; [done|]. split; [|split; [done|split; [by eapply constant_inhabited|]]].
    { rewrite <- (or_reads _ _ _ _ _ _ Fa). by rewrite (constant_env (o_type c) _ envg envf). }
    intros o Eo. unfold slot, ir_arg_carry_provenance. rewrite <- Eo. cbn [o_type o_argflags o_b andb]. rewrite Tc.
    destruct (type_is_float (o_type op)) eqn:Fl; [done|]. cbn [negb]. unfold is_kind. destruct (o_kind c) eqn:Kc; try done.
    exfalso. destruct Fc as [_ _ Kf]. rewrite Kc, Tc in Kf. destruct Kf as [g Hg]. by destruct (o_type op).
  - split; [done|]. split; [done|]. split; [done|]. split.
    + intros _ c'. rewrite lattice_of_value by done. rewrite E. by intros [= <-].
    + split; [by eapply constant_inhabited|]. intros o Eo. unfold slot. by rewrite <- Eo, Tc.
Qed.
Lemma replace_reads annot ops vs : Forall operand_sound ops -> Forall2 (rd envg) (replace_operands f s annot ops).1 vs -> Forall2 (rd envf) ops vs.
Proof using SO.
  intros F. revert vs. cbn [replace_operands fst]. induction F as [|op ops H F IH]; intros vs X; inversion X; subst; constructor; [|by apply IH].
  by apply (replace_spec annot op H).
Qed.
Lemma replace_inhabited annot ops : Forall operand_sound ops -> Forall (fun op => inhabited (rd envg op)) (replace_operands f s annot ops).1.
Proof using SO.
  intros F. cbn [replace_operands fst]. induction F as [|op ops H F IH]; constructor; [by apply (replace_spec annot op H)|done].
Qed.
Lemma replace_types annot ops : Forall operand_sound ops -> Forall (fits (narrowing f) (f_vals f)) (replace_operands f s annot ops).1 /\
  Forall2 (fun op op' => o_type op' = o_type op) ops (replace_operands f s annot ops).1.
Proof using SO.
  intros F. cbn [replace_operands fst]. induction F as [|op ops H F [IF IT]]; [done|].
  destruct (replace_spec annot op H) as (? & ? & _). split; by constructor.
Qed.
Lemma replace_slots o ops : Forall operand_sound ops -> map (slot o) (replace_operands f s (opc_eqb o IR_CALL) ops).1 = map (slot o) ops.
Proof using SO.
  intros F. cbn [replace_operands fst]. rewrite map_map. apply map_ext_in. intros op Ho%list_elem_of_In.
  rewrite Forall_forall in F. by apply replace_spec; [apply F, list_elem_of_In|].
Qed.

(** ** Instructions *)
Lemma inst_promises i : i ∈ insts f -> Forall operand_sound (in_ops i) ->
  inst_lattice f cfg s i <> LAT_TOP /\
  (scalar i = true -> promises (inst_lattice f cfg s i) (den (sym_addr M) (fpu M) envf i)) /\
  (scalar i = false -> inst_lattice f cfg s i = LAT_OVERDEFINED).
Proof using TF SO LM.
  intros Hi F. pose proof (tf_insts f TF i Hi) as W. pose proof (so_typed _ _ _ SO) as T. rewrite Forall_forall in F.
  unfold inst_lattice. destruct (opt_fold_inst _ cfg) as [v|] eqn:E; cycle 1.
  { replace (existsb (fun op => is_top (lattice_of f s op)) (in_ops i)) with false.
    - rewrite orb_true_r. done.
    - symmetry. apply not_true_iff_false. rewrite existsb_exists. intros (op & Ho & Ht). destruct (operand_promises op (F op Ho)) as [N _].
      by destruct (lattice_of f s op). }
  set (ids := value_ids (in_ops i)). set (env' := fun v => if decide (v ∈ ids) then envf v else eq 0).
  assert (Re : forall op, op ∈ in_ops i -> rd env' op = rd envf op).
  { intros op Ho. unfold reads. destruct (o_kind op) eqn:K; try done. unfold env'. rewrite decide_True; [done|by apply value_ids_elem]. }
  assert (I' : forall v, 1 <= v <= Z.of_nat (length (f_vals f)) -> inhabited (env' v)).
  { intros w _. unfold env'. case_decide as D; [|by exists 0]. apply value_ids_inv in D as (op & Ho & K & <-).
    apply (F op); [by apply list_elem_of_In|done]. }
  pose proof (fold_ops_well f TF s i T Hi) as W'.
  destruct (fold_fits (sym_addr M) (fpu M) _ _ _ _ env' _ _ _ I' (lw_licensed cfg M LM) W' E) as (Fv & Ty & R).
  assert (Sc : scalar i = true).
  { pose proof (proj1 (opt_fold_inst_shape _ _ _ E)) as V. apply (fold_scalar (f_ret f) (f_variadic f) (set_ops i (fold_ops f s (in_ops i))) cfg v V); [by apply W'|done]. }
  assert (R' : refines (rd env' v) (den (sym_addr M) (fpu M) envf i)).
  { rewrite R. transitivity (den (sym_addr M) (fpu M) env' i).
    - apply (set_ops_den (narrowing f) (f_vals f)). clear -F Re T SO W. unfold fold_ops. pose proof (w_ops _ _ _ _ _ W) as Wo.
      assert (Hin : forall op, op ∈ in_ops i -> op ∈ in_ops i) by done. revert Hin Wo. generalize (in_ops i) at 1 3 4 5 as ops.
      intros ops. induction ops as [|op ops IH]; intros Hin Wo; cbn [map]; [constructor|]. inversion Wo; subst.
      constructor; [|apply IH; [intros; apply Hin; by right|done]].
      assert (Ho : op ∈ in_ops i) by (apply Hin; left). destruct (lattice_of f s op) as [|c|] eqn:L; try by apply op_refines_refl.
      destruct (lattice_of_typed f s op T ltac:(done) c L) as (Fc & _ & Tc). split; [done|done|].
      rewrite (Re op Ho). by apply (operand_promises op); [apply F, list_elem_of_In|].
    - intros r (vs & Hvs & Rv). exists vs. split; [|done]. clear -Hvs Re. clearbody env'. induction Hvs as [|op x ops vs Hx _ IH]; constructor.
      + rewrite <- Re; [done|left].
      + apply IH. intros o Ho. apply Re. by right. }
  destruct (decide (o_kind v = IROP_VALUE)) as [K|K].
  - pose proof (inst_fold_value f cfg TF s i v T Hi E K) as Hv. pose proof (operand_promises v (F v ltac:(by apply list_elem_of_In))) as [N P].
    split; [done|]. split; [|congruence]. intros _. split; [done|]. intros c Ec env. rewrite <- R', (Re v Hv). by apply P.
  - rewrite lattice_of_constant by done. split; [done|]. split; [|congruence]. intros _. split; [done|]. intros c [= <-] env.
    rewrite <- R'. by rewrite (constant_env (o_type v) v env env').
Qed.
End env.
End values.
