(* ===== verification/SccpSound.v ===== *)
(** The rewriting of sparse constant propagation: every execution of the
    rewritten function is one of the function. *)
From stdpp Require Import gmap relations.
From S2P Require Import Prelude.
From S2P Require Import Ir.
From S2P Require Import IrSem.
From S2P Require Import IrValues.
From S2P Require Import Fold.
From S2P Require Import FoldFacts.
From S2P Require Import Simplify.
From S2P Require Import SimplifyRules.
From S2P Require Import SimplifySound.
From S2P Require Import SimplifyPass.
From S2P Require Import Dom.
From S2P Require Import DomDfs.
From S2P Require Import DomTree.
From S2P Require Import Unreachable.
From S2P Require Import Sccp.
From S2P Require Import SccpIndex.
From S2P Require Import SccpDuty.
From S2P Require Import SccpAnalysis.
From S2P Require Import IrFlow.
From S2P Require Import IrExec.
From S2P Require Import IrTotal.
From S2P Require Import SccpValues.
#[local] Open Scope Z_scope.

Section rewrite.
  Context (f : IrFunc) (cfg : option OptConfig) (s : Sccp).
  Context (TF : typed_code f) (SO : solution f cfg s).

(** ** Instruction by instruction *)
Definition new_ops (i : IrInst) : list IrOperand := (replace_operands f s (opc_eqb (in_op i) IR_CALL) (in_ops i)).1.
Definition new_edge (e : IrEdge) : IrEdge := set_edge_args e (replace_operands f s false (e_args e)).1.
(** With its constants, but for the choice of a successor. *)
Definition with_constants (i : IrInst) : IrInst := set_edges (set_ops i (new_ops i)) (map new_edge (in_edges i)).
Definition jump_along (i : IrInst) (e : IrEdge) : IrInst :=
  mkInst IR_BR (in_type i) (in_subop i) (in_flags i) (in_result i) (in_aux i) [] [mkEdge (e_target e) (e_args (new_edge e)) 0].

Lemma rewrite_inst_inv i i' c : rewrite_inst f s i = Some (i', c) ->
  constant_successor (with_constants i) = None /\ i' = with_constants i \/
  exists k e, constant_successor (with_constants i) = Some k /\ in_edges i !! k = Some e /\ i' = jump_along i e.
Proof.
  unfold rewrite_inst. destruct (replace_operands f s (opc_eqb (in_op i) IR_CALL) (in_ops i)) as [ops c1] eqn:E.
  assert (Eo : ops = new_ops i) by (unfold new_ops; by rewrite E). rewrite Eo.
  assert (Ee : map fst (map (fun e => (set_edge_args e (replace_operands f s false (e_args e)).1, (replace_operands f s false (e_args e)).2)) (in_edges i))
    = map new_edge (in_edges i)) by by rewrite map_map.
  rewrite Ee. fold (with_constants i). destruct (constant_successor (with_constants i)) as [k|].
  - intros H. destruct (in_edges (with_constants i) !! k) as [e'|] eqn:Ek; [|done]. cbn [mbind option_bind] in H. injection H as <- <-.
    cbn [with_constants in_edges set_edges] in Ek. rewrite list_lookup_fmap in Ek. destruct (in_edges i !! k) as [e|] eqn:E0; [|done].
    injection Ek as <-. right. by exists k, e.
  - intros [= <- _]. by left.
Qed.

Lemma constant_successor_inv i k : constant_successor i = Some k ->
  (in_op i = IR_CONDBR \/ in_op i = IR_SWITCH) /\ in_nops i <> 0 /\ o_kind (op_at i 0) = IROP_ICONST /\
  (in_op i = IR_CONDBR -> k = if negb (o_a (op_at i 0) =? 0) then 0%nat else 1%nat) /\
  (in_op i = IR_SWITCH -> k = switch_edge i (op_at i 0)).
Proof.
  unfold constant_successor. destruct (_ || _ || _) eqn:C; [done|]. apply orb_false_iff in C as [C K%negb_false_iff].
  apply orb_false_iff in C as [O N%Z.eqb_neq]. apply bool_decide_eq_true in K.
  assert (Op : in_op i = IR_CONDBR \/ in_op i = IR_SWITCH).
  { apply andb_false_iff in O as [O|O]; apply negb_false_iff, bool_decide_eq_true in O; auto. }
  destruct (opc_eqb (in_op i) IR_CONDBR) eqn:E; [apply bool_decide_eq_true in E|apply bool_decide_eq_false in E]; intros [= <-]; split_and!; try done; congruence.
Qed.
Lemma constant_successor_none i : constant_successor i = None -> in_op i = IR_CONDBR \/ in_op i = IR_SWITCH -> in_nops i <> 0 ->
  o_kind (op_at i 0) <> IROP_ICONST.
Proof.
  unfold constant_successor. destruct (_ || _ || _) eqn:C; [|by destruct (opc_eqb _ _)]. intros _ Op N K.
  rewrite (proj2 (Z.eqb_neq _ _) N) in C. unfold is_kind, opc_eqb in C. rewrite K, orb_false_r in C.
  destruct Op as [Op|Op]; by rewrite Op in C.
Qed.

(** A successor is chosen among the ways there are. *)
Lemma successor_bound i k : i ∈ insts f -> constant_successor (with_constants i) = Some k -> (k < length (in_edges i))%nat.
Proof using TF.
  intros Hi H. destruct (constant_successor_inv _ _ H) as ([Op|Op] & _ & _ & Kc & Ks); cbn [with_constants in_op set_edges set_ops] in Op.
  - pose proof (proj1 (tf_condbr f (tc_func f TF) i Hi Op)). rewrite (Kc Op). destruct (negb _); lia.
  - pose proof (proj1 (tf_switch f (tc_func f TF) i Hi Op)). rewrite (Ks Op).
    replace (length (in_edges i)) with (length (in_edges (with_constants i))) by (cbn; by rewrite length_map). apply switch_edge_bound.
    cbn. by rewrite length_map.
Qed.
Lemma rewrite_inst_total i : i ∈ insts f -> exists i' c, rewrite_inst f s i = Some (i', c).
Proof using TF.
  intros Hi. destruct (rewrite_inst f s i) as [[i' c]|] eqn:E; [by exists i', c|]. exfalso. revert E. unfold rewrite_inst.
  destruct (replace_operands f s (opc_eqb (in_op i) IR_CALL) (in_ops i)) as [ops c1] eqn:E.
  assert (Eo : ops = new_ops i) by (unfold new_ops; by rewrite E). rewrite Eo, map_map. change (set_edges _ _) with (with_constants i).
  destruct (constant_successor (with_constants i)) as [k|] eqn:Ek; [|done].
  destruct (lookup_lt_is_Some_2 (in_edges (with_constants i)) k) as [e He]; [|by rewrite He].
  cbn. rewrite length_map. by apply successor_bound.
Qed.
Lemma rewrite_insts_total ins : (forall i, i ∈ ins -> i ∈ insts f) -> exists ins' c, rewrite_insts f s ins = Some (ins', c).
Proof using TF.
  induction ins as [|i ins IH]; intros H; [by eexists _, _|]. cbn [rewrite_insts].
  destruct (rewrite_inst_total i (H i ltac:(left))) as (i' & c & ->). destruct IH as (ins' & cs & ->); [intros; apply H; by right|]. by eexists _, _.
Qed.
Lemma rewrite_insts_cons i ins ins' c : rewrite_insts f s (i :: ins) = Some (ins', c) ->
  exists i' rest c1 c2, ins' = i' :: rest /\ rewrite_inst f s i = Some (i', c1) /\ rewrite_insts f s ins = Some (rest, c2) /\ c = c1 || c2.
Proof.
  cbn [rewrite_insts]. destruct (rewrite_inst f s i) as [[i' c1]|]; [|done]. cbn [mbind option_bind].
  destruct (rewrite_insts f s ins) as [[rest c2]|]; [|done]. intros [= <- <-]. by exists i', rest, c1, c2.
Qed.

(** ** Block by block *)
Lemma rewrite_blocks_total bs : (forall b, b ∈ bs -> b ∈ f_blocks f) -> exists bs' c, rewrite_blocks f s bs = Some (bs', c).
Proof using TF.
  induction bs as [|b bs IH]; intros H; [by eexists _, _|]. cbn [rewrite_blocks].
  destruct (rewrite_insts_total (b_insts b)) as (ins' & c & ->); [intros i Hi; by apply (elem_insts f b); [apply H; left|]|].
  destruct IH as (bs' & cs & ->); [intros; apply H; by right|]. by eexists _, _.
Qed.
Lemma rewrite_blocks_spec bs bs' c : rewrite_blocks f s bs = Some (bs', c) -> length bs' = length bs /\
  forall k blk, bs !! k = Some blk -> exists ins' c', rewrite_insts f s (b_insts blk) = Some (ins', c') /\
    bs' !! k = Some (mkBlock (b_params blk) ins') /\ (c = false -> c' = false).
Proof.
  revert bs' c. induction bs as [|b bs IH]; intros bs' c; [by intros [= <- <-]|]. cbn [rewrite_blocks].
  destruct (rewrite_insts f s (b_insts b)) as [[ins' c1]|] eqn:E1; [|done]. cbn [mbind option_bind].
  destruct (rewrite_blocks f s bs) as [[bs1 c2]|]; [|done]. intros [= <- <-]. destruct (IH bs1 c2 eq_refl) as [L H]. split; [cbn; by rewrite L|].
  intros [|k] blk Hb.
  - injection Hb as <-. exists ins', c1. split; [done|]. split; [done|]. by intros [-> _]%orb_false_iff.
  - destruct (H k blk Hb) as (ins2 & c3 & ? & ? & Hc). exists ins2, c3. split; [done|]. split; [done|]. intros [_ ->]%orb_false_iff. by apply Hc.
Qed.
End rewrite.

(** ** Branches *)
Lemma case_edge_matching w v es k : 0 < w <= 64 -> 0 <= v < 2 ^ w ->
  case_edge w v es k = default 0%nat (matching_case v (2 ^ w - 1) es k).
Proof.
  intros W V. revert k. induction es as [|e es IH]; intros k; cbn [case_edge matching_case]; [done|].
  rewrite !land_ones_mod by lia. rewrite (Z.mod_small v) by done.
  assert (E : u64 (e_case e) mod 2 ^ w = e_case e mod 2 ^ w).
  { unfold u64. apply Z.mod_mod_divide. exists (2 ^ (64 - w)). rewrite <- Z.pow_add_r by lia. f_equal. lia. }
  rewrite E, Z.eqb_sym. destruct (_ =? _); [done|apply IH].
Qed.

Section simulation.
  Context (f : IrFunc) (cfg : option OptConfig) (s : Sccp).
  Context (TF : typed_code f) (BU : forall i, i ∈ insts f -> value_op (in_op i) = true -> built i) (SF : structured f).
  Context (SO : solution f cfg s) (M : Machine) (LM : lawful cfg M).
  Context (bs' : list IrBlock) (changed : bool) (RW : rewrite_blocks f s (f_blocks f) = Some (bs', changed)).
  #[local] Notation "'g'" := (set_blocks f bs').
  #[local] Notation "'rd'" := (reads (sym_addr M)).
  #[local] Notation "'sound''" := (sound_at s M).

(** What the two executions know about the values assigned so far. *)
Definition tracks (A : gset Z) (envg envf : Env) : Prop := forall v, v ∈ A -> v <> 0 -> sound' envg envf v.

Lemma tracks_assign A envg envf id dg df : tracks A envg envf ->
  (id <> 0 -> refines dg df /\ inhabited df /\ inhabited dg /\ promises M (value_at s id) df) ->
  tracks ({[id]} ∪ A) (assign envg id dg) (assign envf id df).
Proof.
  intros T H v Hv Nz. unfold assign. destruct (Z.eqb_spec id 0) as [->|N]; [apply T; set_solver|].
  destruct (H N) as (R & I & I' & P). unfold bind. destruct (decide (v = id)) as [->|Nv].
  - split; rewrite Z.eqb_refl; done.
  - destruct (T v ltac:(set_solver) Nz). split; by rewrite (proj2 (Z.eqb_neq _ _)).
Qed.

Lemma uses_sound b k blk A envg envf i ops : at_pos f b k blk A -> b_insts blk !! k = Some i -> tracks A envg envf ->
  Forall (fits (narrowing f) (f_vals f)) ops -> (forall op, op ∈ ops -> op ∈ inst_uses i) -> Forall (operand_sound f s M envg envf) ops.
Proof using SF.
  intros P Hi T F U. induction F as [|op ops Fo F IH]; constructor; [|apply IH; intros; apply U; by right].
  split; [done|]. intros K. apply T; [apply (at_uses f SF b k blk A i op P Hi); [apply U; left|done]|].
  destruct (fits_value f op Fo K). lia.
Qed.

Section at_inst.
  Context (b k : nat) (blk : IrBlock) (A : gset Z) (envg envf : Env) (i : IrInst).
  Context (AP : at_pos f b k blk A) (BX : b ∈ blocks s) (Hi : b_insts blk !! k = Some i) (TR : tracks A envg envf).
  #[local] Notation "'wc'" := (with_constants f s i).

Lemma inst_in : i ∈ insts f.
Proof using AP Hi. apply (elem_insts f blk); [eapply list_elem_of_lookup_2, AP|by apply list_elem_of_lookup_2 in Hi]. Qed.
Lemma ops_sound : Forall (operand_sound f s M envg envf) (in_ops i).
Proof using AP Hi TR TF SF.
  apply (uses_sound b k blk A envg envf i); try done; [apply (w_ops _ _ _ _ _ (tf_insts f TF i inst_in))|].
  intros op Ho. apply elem_of_app. by left.
Qed.
Lemma args_sound e : e ∈ in_edges i -> Forall (operand_sound f s M envg envf) (e_args e).
Proof using AP Hi TR TF SF.
  intros He. apply (uses_sound b k blk A envg envf i); try done; [apply (tf_edges f TF), (elem_edges f i); [apply inst_in|done]|].
  intros op Ho. apply elem_of_app. right. apply list_elem_of_In, in_concat. exists (e_args e).
  split; [by apply in_map, list_elem_of_In|by apply list_elem_of_In].
Qed.

Lemma new_reads vs : Forall2 (rd envg) (new_ops f s i) vs -> Forall2 (rd envf) (in_ops i) vs.
Proof using AP Hi TR TF SF SO. apply (replace_reads f cfg s SO M envg envf), ops_sound. Qed.
Lemma new_shape : alike (shape i) (shape wc).
Proof using AP Hi TR TF SF SO.
  assert (N : forall o ops, map (slot o) (map nameless ops) = map (slot o) ops).
  { intros o ops. rewrite map_map. apply map_ext. intros op. unfold nameless, slot. destruct (is_kind _ _); done. }
  split_and!; try done. cbn [shape s_ops s_op with_constants in_ops set_edges set_ops]. rewrite !N.
  apply (replace_slots f cfg s SO M envg envf), ops_sound.
Qed.
Lemma new_op_type n : o_type (op_at wc n) = o_type (op_at i n).
Proof using AP Hi TR TF SF SO.
  unfold op_at. cbn [with_constants in_ops set_edges set_ops]. unfold new_ops, replace_operands. cbn [fst]. rewrite list_lookup_fmap.
  destruct (in_ops i !! n) as [op|] eqn:E; [|done]. cbn [fmap option_fmap option_map default]. pose proof ops_sound as F.
  rewrite Forall_lookup in F. by apply (replace_spec f cfg s SO M envg envf), (F n).
Qed.
Lemma new_den : refines (den (sym_addr M) (fpu M) envg wc) (den (sym_addr M) (fpu M) envf i).
Proof using AP Hi TR TF SF SO.
  intros r (vs & Hvs & R). exists vs. split; [by apply new_reads|]. unfold result_of in *. cbn [with_constants in_op in_type in_subop set_edges set_ops] in R.
  by rewrite new_op_type in R.
Qed.

Lemma new_inhabited : Forall (fun op => inhabited (rd envg op)) (new_ops f s i).
Proof using AP Hi TR TF SF SO. apply (replace_inhabited f cfg s SO M envg envf), ops_sound. Qed.
Lemma reads_exist env ops : Forall (fun op => inhabited (rd env op)) ops -> exists vs, Forall2 (rd env) ops vs.
Proof. intros F. induction F as [|op ops [v Hv] _ [vs IH]]; [by exists []|]. exists (v :: vs). by constructor. Qed.
Lemma new_reads_exist : exists vs, Forall2 (rd envg) (new_ops f s i) vs.
Proof using AP Hi TR TF SF SO. apply reads_exist, new_inhabited. Qed.
Lemma new_well : well (narrowing f) (f_ret f) (f_variadic f) (f_vals f) wc.
Proof using AP Hi TR TF SF SO.
  destruct (replace_types f cfg s SO M envg envf (opc_eqb (in_op i) IR_CALL) (in_ops i) ops_sound) as [F T].
  destruct (same_types_well _ _ _ _ i (new_ops f s i) T F (tf_insts f TF i inst_in)) as [W1 W2 W3 W4 W5]. by split.
Qed.

Lemma old_reads : exists vs, Forall2 (rd envf) (in_ops i) vs.
Proof using AP Hi TR TF SF.
  apply reads_exist. pose proof ops_sound as F. induction F; constructor; [by eapply operand_inhabited|done].
Qed.

(** The entry of the result covers what the instruction computes. *)
Lemma result_promises d : in_result i <> 0 -> promises M (inst_lattice f cfg s i) d -> promises M (value_at s (in_result i)) d.
Proof using AP BX Hi SO.
  intros N. apply promises_le. apply (so_result _ _ _ SO b blk i BX); [apply AP|by apply list_elem_of_lookup_2 in Hi|done].
Qed.
Lemma scalar_result : scalar i = true -> in_result i <> 0 ->
  inhabited (den (sym_addr M) (fpu M) envf i) /\ inhabited (den (sym_addr M) (fpu M) envg wc) /\ promises M (value_at s (in_result i)) (den (sym_addr M) (fpu M) envf i).
Proof using AP BX Hi TR TF SF SO BU LM.
  intros Sc N. pose proof Sc as Sc'. apply andb_true_iff in Sc' as [V _]. split.
  - apply (den_inhabited _ _ _ (f_ret f) (f_variadic f)); [done|by apply (tf_insts f TF i inst_in)|by apply BU; [apply inst_in|]|].
    pose proof ops_sound as F. induction F; constructor; [by eapply operand_inhabited|done].
  - split; [apply (den_inhabited _ _ _ (f_ret f) (f_variadic f) wc); [done|by apply new_well| |apply new_inhabited]|].
    { destruct (BU i inst_in V) as [B1 B2 B3]. split; [|done|done]. change (length (new_ops f s i) = arity (in_op i)). rewrite <- B1.
      unfold new_ops, replace_operands. cbn [fst]. by rewrite length_map. }
    apply result_promises; [done|]. by apply (inst_promises f cfg s TF SO M LM envg envf i inst_in ops_sound).
Qed.
Lemma other_result d : scalar i = false -> in_result i <> 0 -> promises M (value_at s (in_result i)) d.
Proof using AP BX Hi TR TF SF SO LM.
  intros Sc N. apply result_promises; [done|]. destruct (inst_promises f cfg s TF SO M LM envg envf i inst_in ops_sound) as (_ & _ & H).
  rewrite H by done. by split.
Qed.

(** What is known of an operand put in place. *)
Lemma replaced_constant op : operand_sound f s M envg envf op -> o_kind (replace_operand f s false op).1 <> IROP_VALUE ->
  lattice_of f s op = LAT_CONST (replace_operand f s false op).1.
Proof using SO.
  intros [F H]. destruct (decide (o_kind op = IROP_VALUE)) as [K|K].
  - rewrite lattice_of_value by done. unfold replace_operand. destruct (_ && _ && _); [|done]. by destruct (value_at s (o_a op)).
  - rewrite lattice_of_constant by done. intros _. unfold replace_operand, is_kind. by rewrite bool_decide_eq_false_2.
Qed.
Lemma scrutinee : in_op i = IR_CONDBR \/ in_op i = IR_SWITCH -> exists op, in_ops i = [op] /\
  op_at i 0 = op /\ op_at wc 0 = (replace_operand f s false op).1 /\ operand_sound f s M envg envf op /\ int_width (o_type op) <> 0 /\
  (in_op i = IR_CONDBR -> o_type op = IRT_I32).
Proof using AP Hi TR TF SF.
  intros Op. assert (N : in_nops i = 1 /\ int_width (o_type (op_at i 0)) <> 0 /\ (in_op i = IR_CONDBR -> o_type (op_at i 0) = IRT_I32)).
  { destruct Op as [Op|Op]; [destruct (tf_condbr f (tc_func f TF) i inst_in Op) as (_ & ? & E)|destruct (tf_switch f (tc_func f TF) i inst_in Op) as (_ & ? & ?)].
    - split; [done|]. split; [by rewrite E|done].
    - split; [done|]. split; [done|]. congruence. }
  destruct N as (N & W & T). pose proof ops_sound as F. unfold in_nops in N. unfold op_at in *. unfold with_constants, new_ops, replace_operands.
  cbn [in_ops set_edges set_ops fst]. destruct (in_ops i) as [|op [|]]; [cbn in N; lia| |cbn in N; lia]. exists op. inversion F; subst.
  split; [done|]. split; [done|]. split; [|by split_and!]. cbn. do 2 f_equal. unfold opc_eqb. by destruct Op as [-> | ->].
Qed.

(** An edge that is taken is executable. *)
Lemma taken_marked vs n : constant_successor wc = None -> taken_edge wc vs = Some n -> is_Some (in_edges i !! n) -> n ∈ marks f s i.
Proof using AP Hi TR TF SF SO.
  intros C Tk [e He]. assert (All : n ∈ seq 0 (length (in_edges i))) by (apply elem_of_seq; apply lookup_lt_Some in He; lia).
  unfold marks. destruct (in_edges i) as [|e0 es] eqn:Ee; [done|].
  assert (Op : in_op i = IR_BR \/ in_op i = IR_CONDBR \/ in_op i = IR_SWITCH).
  { unfold taken_edge in Tk. cbn [with_constants in_op set_edges set_ops] in Tk. destruct (in_op i); try done; auto. }
  destruct Op as [Op|Op].
  { unfold taken_edge in Tk. cbn [with_constants in_op set_edges set_ops] in Tk. rewrite Op in Tk |- *. injection Tk as <-. by left. }
  replace (opc_eqb (in_op i) IR_BR) with false by (destruct Op as [-> | ->]; done).
  destruct (_ || _); [done|]. destruct (scrutinee Op) as (op & Eops & E0 & Ew & OS & _ & _). rewrite E0.
  pose proof (constant_successor_none wc C Op ltac:(unfold in_nops, with_constants, new_ops, replace_operands; cbn; rewrite Eops; cbn; lia)) as K.
  rewrite Ew in K. destruct (operand_promises f cfg s SO M envg envf op OS) as [N _].
  destruct (lattice_of f s op) as [|c|] eqn:L; [done| |done].
  destruct (replace_spec f cfg s SO M envg envf false op OS) as (_ & _ & _ & Rc & _). rewrite (Rc eq_refl c L) in K.
  unfold is_kind. by rewrite bool_decide_eq_false_2.
Qed.
Lemma chosen_marked n : constant_successor wc = Some n ->
  n ∈ marks f s i /\ is_terminator (in_op i) = true /\ exists vs, Forall2 (rd envf) (in_ops i) vs /\ taken_edge i vs = Some n.
Proof using AP Hi TR TF SF SO.
  intros C. pose proof (successor_bound f s TF i n inst_in C) as Ln. destruct (constant_successor_inv _ _ C) as (Op & Nz & K & Kc & Ks).
  cbn [with_constants in_op set_edges set_ops] in Op, Kc, Ks. destruct (scrutinee Op) as (op & Eops & E0 & Ew & OS & W & T). rewrite Ew in *.
  set (c := (replace_operand f s false op).1) in *. pose proof (replaced_constant op OS ltac:(fold c; by rewrite K)) as L. fold c in L.
  destruct (replace_spec f cfg s SO M envg envf false op OS) as (Fc & Tc & _). fold c in Fc, Tc.
  assert (Sw : switch_edge wc c = switch_edge i c).
  { unfold switch_edge. cbn [with_constants in_edges set_edges]. f_equal. generalize (int_mask (o_type c)) as m. generalize 1%nat at 2 4 as j.
    destruct (in_edges i) as [|e es]; cbn [map drop]; [done|]. rewrite !drop_0. clear. induction es as [|e' es IH]; intros j m; cbn [map matching_case]; [done|].
    cbn [new_edge set_edge_args e_case]. destruct (_ =? _); [done|apply IH]. }
  split; [|split; [destruct Op as [-> | ->]; done|]].
  - unfold marks. destruct (in_edges i) as [|e es] eqn:Ee; [cbn in Ln; lia|]. replace (opc_eqb (in_op i) IR_BR) with false by (destruct Op as [-> | ->]; done).
    replace (_ || _) with false.
    2:{ symmetry. unfold in_nops. rewrite Eops. unfold opc_eqb. by destruct Op as [-> | ->]. }
    rewrite E0, L. unfold is_kind. rewrite (bool_decide_eq_true_2 _ K). cbn [negb].
    destruct Op as [Op|Op]; rewrite Op; unfold opc_eqb; cbn -[switch_edge]; apply list_elem_of_singleton; [by apply Kc|]. rewrite <- Sw. by apply Ks.
  - exists [o_a c mod 2 ^ type_bits (o_type c)]. rewrite Eops. destruct (operand_promises f cfg s SO M envg envf op OS) as [_ P].
    split; [constructor; [|constructor]; apply (P c L envf); unfold reads; by rewrite K|].
    destruct Fc as [Ok Nr _]. unfold operand_ok in Ok. rewrite K in Ok. specialize (Nr ltac:(exists i; split; [apply inst_in|by destruct Op as [-> | ->]]) K). unfold is_u64 in Ok.
    rewrite Z.mod_small by (split; [lia|done]). unfold taken_edge. rewrite E0.
    destruct Op as [Op|Op]; rewrite Op; f_equal.
    + rewrite (Kc Op). by destruct (o_a c =? 0).
    + rewrite (Ks Op), Sw. unfold switch_edge. rewrite <- Tc.
      assert (Mw : int_mask (o_type c) = 2 ^ type_bits (o_type c) - 1 /\ 0 < type_bits (o_type c) <= 64) by (rewrite Tc; destruct (o_type op); try (by destruct W); split; (done || (cbn; lia))).
      destruct Mw as [-> Mw]. apply case_edge_matching; [done|]. split; [apply Ok|exact Nr].
Qed.
End at_inst.

(** ** Entering a block *)
Lemma zip_map_lookup (h : IrOperand -> IrOperand) params args v :
  (list_to_map (zip params (map h args)) : gmap Z IrOperand) !! v = h <$> (list_to_map (zip params args) : gmap Z IrOperand) !! v.
Proof.
  revert args. induction params as [|p params IH]; intros [|a args]; cbn [zip zip_with map list_to_map foldr]; rewrite ?lookup_empty; try done.
  destruct (decide (v = p)) as [->|N]; [by rewrite !lookup_insert_eq|]. rewrite !lookup_insert_ne by done. apply IH.
Qed.
Lemma zip_lookup params args v a : (list_to_map (zip params args) : gmap Z IrOperand) !! v = Some a ->
  exists j, params !! j = Some v /\ args !! j = Some a.
Proof.
  intros L%elem_of_list_to_map_2. apply list_elem_of_lookup in L as [j Hj]. exists j.
  rewrite lookup_zip_with in Hj. destruct (params !! j) as [p|]; [|done]. destruct (args !! j) as [a'|]; [|done]. by injection Hj as <- <-.
Qed.
Lemma zip_lookup_none params args v : length args = length params -> (list_to_map (zip params args) : gmap Z IrOperand) !! v = None -> v ∉ params.
Proof.
  intros L N Hv. apply not_elem_of_list_to_map in N. apply N. replace (zip params args).*1 with params; [done|].
  symmetry. apply fst_zip. lia.
Qed.
Lemma tracks_bind A envg envf params args : tracks A envg envf -> Forall (operand_sound f s M envg envf) args ->
  Forall2 (fun a p => lat_le (lattice_of f s a) (value_at s p)) args params ->
  tracks (list_to_set params ∪ ({[0]} ∪ A)) (bind_args (sym_addr M) envg params (replace_operands f s false args).1) (bind_args (sym_addr M) envf params args).
Proof using BU LM RW SF SO TF.
  intros T F L v Hv Nz. unfold replace_operands. cbn [fst].
  destruct ((list_to_map (zip params args) : gmap Z IrOperand) !! v) as [a|] eqn:E.
  - destruct (zip_lookup params args v a E) as (j & Hp & Ha). rewrite Forall_lookup in F. pose proof (F j a Ha) as Fa.
    destruct (Forall2_lookup_l _ _ _ _ _ L Ha) as (p & Hp' & Le). rewrite Hp in Hp'. injection Hp' as <-.
    destruct (replace_spec f cfg s SO M envg envf false a Fa) as (_ & _ & R & _ & In & _).
    split; unfold bind_args; rewrite ?zip_map_lookup, E; cbn [fmap option_fmap option_map].
    + exact R.
    + by apply (operand_inhabited f s M envg envf).
    + exact In.
    + eapply promises_le; [exact Le|]. by apply (operand_promises f cfg s SO M envg envf).
  - pose proof (zip_lookup_none params args v (Forall2_length L) E) as N. destruct (T v ltac:(set_solver) Nz).
    split; unfold bind_args; rewrite ?zip_map_lookup, E; done.
Qed.

(** ** The simulation *)
Inductive follows : State M -> State M -> Prop :=
| follows_running b k blk A ins' c envg envf w : at_pos f b k blk A -> b ∈ blocks s ->
    rewrite_insts f s (drop k (b_insts blk)) = Some (ins', c) -> tracks A envg envf ->
    follows (Running ins' envg w) (Running (drop k (b_insts blk)) envf w)
| follows_finished vs w : follows (Finished vs w) (Finished vs w).

Lemma other_class i : scalar i = true -> observing i = true \/ effectful i = true -> False.
Proof.
  unfold effectful, scalar, observing. intros [V N]%andb_true_iff. apply negb_true_iff in N. rewrite N.
  destruct (in_op i); try discriminate V; cbn; by intros [|].
Qed.
Lemma not_scalar i : observing i = true \/ effectful i = true -> scalar i = false.
Proof. intros H. destruct (scalar i) eqn:E; [|done]. by destruct (other_class i E). Qed.

Lemma enter_block b k blk A envg envf i e b' w : at_pos f b k blk A -> b ∈ blocks s -> b_insts blk !! k = Some i -> tracks A envg envf ->
  forall n, n ∈ marks f s i -> in_edges i !! n = Some e -> is_terminator (in_op i) = true -> ir_block g (e_target e) = Some b' ->
  exists blk', ir_block f (e_target e) = Some blk' /\
    follows (Running (b_insts b') (bind_args (sym_addr M) envg (b_params b') (e_args (new_edge f s e))) w)
            (Running (b_insts blk') (bind_args (sym_addr M) envf (b_params blk') (e_args e)) w).
Proof using BU LM RW SF SO TF.
  intros AP BX Hi TR n Hn He Tm Hb'. pose proof (ap_block _ _ _ _ _ AP) as Eb.
  destruct (so_edge _ _ _ SO b blk i n e BX Eb ltac:(by apply list_elem_of_lookup_2 in Hi) Hn He) as (t & blk' & Et & Tt & BT & L).
  destruct (rewrite_blocks_spec f s _ _ _ RW) as [Len Spec]. destruct (Spec t blk' Et) as (ins' & c & Er & Eb' & _).
  assert (Hf : ir_block f (e_target e) = Some blk' /\ b' = mkBlock (b_params blk') ins').
  { unfold ir_block, f_nblocks in *. cbn [set_blocks f_blocks] in Hb'. rewrite Len in Hb'. destruct (_ || _); [done|].
    replace (Z.to_nat (e_target e - 1)) with t in * by lia. rewrite Eb' in Hb'. by injection Hb' as <-. }
  destruct Hf as [Hf ->]. exists blk'. split; [done|]. cbn [b_insts b_params].
  assert (He' : e ∈ in_edges i) by by apply list_elem_of_lookup_2 in He.
  rewrite <- (drop_0 (b_insts blk')). apply (follows_running t 0 blk' (list_to_set (b_params blk') ∪ ({[0]} ∪ A)) ins' c); [|done|by rewrite drop_0|].
  - apply (at_jump f SF b k blk A i e t blk' AP Hi Tm He'); [|done]. apply target_index_Some. split; [by apply lookup_lt_Some in Et|done].
  - apply tracks_bind; [done| |done]. by apply (args_sound b k blk A envg envf i AP Hi TR).
Qed.

Lemma sccp_lockstep : lockstep M g f follows.
Proof using TF BU SF SO LM RW.
  split; [by intros t t' [|]|]. intros t r t' F X. destruct F as [b k blk A ins' c envg envf w AP BX RI TR|]; [|by inversion X].
  destruct (b_insts blk !! k) as [i|] eqn:Hi.
  2:{ rewrite drop_ge in RI by (by apply lookup_ge_None). injection RI as <- <-. by inversion X. }
  rewrite (drop_S _ _ _ Hi) in RI |- *. destruct (rewrite_insts_cons f s i _ _ _ RI) as (i' & rest & c1 & c2 & -> & Ri & Rr & _).
  pose proof (at_step f SF b k blk A i AP Hi) as AN.
  assert (Next : forall dg df w', (in_result i <> 0 -> refines dg df /\ inhabited df /\ inhabited dg /\ promises M (value_at s (in_result i)) df) ->
    follows (Running rest (assign envg (in_result i) dg) w') (Running (drop (S k) (b_insts blk)) (assign envf (in_result i) df) w')).
  { intros dg df w' H. by apply (follows_running b (S k) blk ({[in_result i]} ∪ A) rest c2); [| | |apply tracks_assign]. }
  destruct (rewrite_inst_inv f s i i' c1 Ri) as [[C ->]|(n & e & C & He & ->)].
  - inversion X as [? ? ? ? Sc|? ? ? ? Ob|? ? ? ? vs r w' Ef Hvs Hw|? ? ? ? vs n e b' Hvs Tk He Hb|? ? ? ? vs Rt Hvs]; subst.
    + change (scalar i = true) in Sc. eexists. split; [apply step_scalar, Sc|]. apply Next. intros N. split; [by apply (new_den b k blk A envg envf i AP Hi TR)|].
      by apply (scalar_result b k blk A envg).
    + change (observing i = true) in Ob. eexists. split; [apply step_observe, Ob|]. apply Next. intros N. split; [|split; [|split]].
      * intros r (vs & Hvs & R). exists vs. split; [by apply (new_reads b k blk A envg envf i AP Hi TR)|].
        apply (lw_observes cfg M LM (shape i) (shape (with_constants f s i))); [by apply (new_shape b k blk A envg envf)|done].
      * destruct (old_reads b k blk A envg envf i AP Hi TR) as [vs Hvs]. destruct (lw_inhabited cfg M LM (shape i) vs w) as [r R]. by exists r, vs.
      * destruct (new_reads_exist b k blk A envg envf i AP Hi TR) as [vs Hvs].
        destruct (lw_inhabited cfg M LM (shape (with_constants f s i)) vs w) as [r R]. by exists r, vs.
      * apply (other_result b k blk A envg envf); try done. apply not_scalar. by left.
    + change (effectful i = true) in Ef. eexists. split.
      { apply (step_effect _ _ i _ _ _ vs r w' Ef); [by apply (new_reads b k blk A envg envf i AP Hi TR)|].
        apply (lw_effects cfg M LM (shape i) (shape (with_constants f s i))); [by apply (new_shape b k blk A envg envf)|done]. }
      apply Next. intros N. split; [done|]. split; [by exists r|]. split; [by exists r|]. apply (other_result b k blk A envg envf); try done. apply not_scalar. by right.
    + cbn [with_constants in_edges set_edges] in He. rewrite list_lookup_fmap in He. destruct (in_edges i !! n) as [e0|] eqn:E0; [|done]. injection He as <-.
      assert (Tm : is_terminator (in_op i) = true).
      { unfold taken_edge in Tk. cbn [with_constants in_op set_edges set_ops] in Tk. by destruct (in_op i). }
      assert (Tk' : taken_edge i vs = Some n).
      { rewrite <- Tk. unfold taken_edge. cbn [with_constants in_op set_edges set_ops]. rewrite (new_op_type b k blk A envg envf i AP Hi TR).
        destruct (in_op i); try done. destruct vs as [|v [|]]; try done. f_equal. cbn [in_edges set_edges]. symmetry. apply case_edge_same.
        rewrite <- !skipn_map. f_equal. cbn [with_constants in_edges set_edges]. by rewrite map_map. }
      pose proof (taken_marked b k blk A envg envf i AP Hi TR vs n C Tk ltac:(by rewrite E0)) as Mk.
      destruct (enter_block b k blk A envg envf i e0 b' w AP BX Hi TR n Mk E0 Tm Hb) as (blk' & Hf & Fl).
      eexists. split; [apply (step_branch M f i _ _ _ vs n e0 blk'); try done|exact Fl]. by apply (new_reads b k blk A envg envf i AP Hi TR).
    + change (in_op i = IR_RET) in Rt. eexists. split; [apply (step_ret M f i _ _ _ vs Rt); by apply (new_reads b k blk A envg envf i AP Hi TR)|constructor].
  - destruct (chosen_marked b k blk A envg envf i AP Hi TR n C) as (Mk & Tm & vs & Hvs & Tk).
    inversion X as [? ? ? ? Sc|? ? ? ? Ob|? ? ? ? ? ? ? Ef|? ? ? ? vs' n' e' b' _ Tk' He' Hb|? ? ? ? ? Rt]; subst; try discriminate.
    injection Tk' as <-. cbn in He'. injection He' as <-. cbn [e_target e_args] in *.
    destruct (enter_block b k blk A envg envf i e b' w AP BX Hi TR n Mk He Tm Hb) as (blk' & Hf & Fl).
    eexists. split; [apply (step_branch M f i _ _ _ vs n e blk'); done|exact Fl].
Qed.

(** ** Progress *)
Definition total : Prop := forall sh vs w, exists r w', effects M sh vs w r w'.
Lemma case_edge_bound w v es k : case_edge w v es k = 0%nat \/ (case_edge w v es k < k + length es)%nat.
Proof. revert k. induction es as [|e es IH]; intros k; cbn [case_edge length]; [by left|]. destruct (_ =? _); [right; lia|]. destruct (IH (S k)); [by left|right; lia]. Qed.

Lemma taken_exists i vs vs' k : i ∈ insts f -> taken_edge i vs = Some k -> is_Some (in_edges i !! k) -> length vs' = length (in_ops i) ->
  exists k', taken_edge (with_constants f s i) vs' = Some k' /\ (k' < length (in_edges i))%nat.
Proof using TF.
  intros Hi Tk [e He%lookup_lt_Some] L. unfold taken_edge in *. cbn [with_constants in_op set_edges set_ops].
  destruct (in_op i) eqn:Op; try done.
  - injection Tk as <-. by exists 0%nat.
  - destruct (tf_condbr f (tc_func f TF) i Hi Op) as (Le & N & _). unfold in_nops in N. destruct vs' as [|c [|]]; cbn in L; try lia.
    eexists. split; [done|]. destruct (c =? 0); lia.
  - destruct (tf_switch f (tc_func f TF) i Hi Op) as (Le & N & _). unfold in_nops in N. destruct vs' as [|c [|]]; cbn in L; try lia.
    eexists. split; [done|]. change (in_edges (with_constants f s i)) with (map (new_edge f s) (in_edges i)).
    destruct (case_edge_bound (type_bits (o_type (op_at (with_constants f s i) 0))) c (drop 1 (map (new_edge f s) (in_edges i))) 1) as [->|H]; [lia|].
    rewrite length_drop, length_map in H. lia.
Qed.

Lemma sccp_goes_on t r : total -> targets_ok g -> follows t r -> goes_on M f r -> goes_on M g t.
Proof using TF BU SF SO LM RW.
  intros To Tg F G. destruct F as [b k blk A ins' c envg envf w AP BX RI TR|vs w]; [|left; by exists vs, w].
  destruct G as [(? & ? & ?)|(r' & X)]; [done|]. right.
  destruct (b_insts blk !! k) as [i|] eqn:Hi; [|rewrite drop_ge in X by (by apply lookup_ge_None); by inversion X].
  rewrite (drop_S _ _ _ Hi) in RI, X. destruct (rewrite_insts_cons f s i _ _ _ RI) as (i' & rest & c1 & c2 & -> & Ri & _ & _).
  pose proof (inst_in b k blk A i AP Hi) as Hin.
  assert (Block : forall e, e ∈ in_edges i -> exists b', ir_block g (e_target e) = Some b').
  { intros e He. pose proof (tf_targets f (tc_func f TF) e (elem_edges f i e Hin He)) as H. unfold ir_block, f_nblocks in *. cbn [set_blocks f_blocks].
    rewrite (proj1 (rewrite_blocks_spec f s _ _ _ RW)), (proj2 (Z.eqb_neq _ _)), (proj2 (Z.ltb_ge _ _)) by lia. cbn [orb].
    apply lookup_lt_is_Some_2. rewrite (proj1 (rewrite_blocks_spec f s _ _ _ RW)). lia. }
  destruct (new_reads_exist b k blk A envg envf i AP Hi TR) as [vs Hvs].
  destruct (rewrite_inst_inv f s i i' c1 Ri) as [[C ->]|(n & e & C & He & ->)]; cycle 1.
  { destruct (Block e ltac:(by apply list_elem_of_lookup_2 in He)) as [b' Hb']. eexists.
    apply (step_branch M g (jump_along f s i e) _ _ _ [] 0 (mkEdge (e_target e) (e_args (new_edge f s e)) 0) b'); [constructor|done|done|done]. }
  inversion X as [? ? ? ? Sc|? ? ? ? Ob|? ? ? ? vs0 r0 w0 Ef|? ? ? ? vs0 n e b' Hv Tk He Hb|? ? ? ? vs0 Rt]; subst.
  - eexists. apply step_scalar. exact Sc.
  - eexists. apply step_observe. exact Ob.
  - destruct (To (shape (with_constants f s i)) vs w) as (r1 & w1 & E). eexists. by apply (step_effect M g (with_constants f s i) rest envg w vs r1 w1 Ef Hvs).
  - destruct (taken_exists i vs0 vs n Hin Tk) as (n' & Tk' & Ln); [by rewrite He| |].
    { rewrite <- (Forall2_length Hvs). unfold new_ops, replace_operands. cbn [fst]. by rewrite length_map. }
    destruct (lookup_lt_is_Some_2 _ _ Ln) as [e' He']. destruct (Block e' ltac:(by apply list_elem_of_lookup_2 in He')) as [b2 Hb2].
    eexists. apply (step_branch M g (with_constants f s i) rest envg w vs n' (new_edge f s e') b2 Hvs Tk'); [|exact Hb2].
    cbn [with_constants in_edges set_edges]. by rewrite list_lookup_fmap, He'.
  - eexists. by apply (step_ret M g (with_constants f s i) rest envg w vs Rt).
Qed.
End simulation.
