(* ===== verification/SccpFunc.v ===== *)
(** Sparse conditional constant propagation over a function: analysis,
    rewriting, removal of the blocks cut off and renumbering, composed. *)
From stdpp Require Import gmap relations.
From S2P Require Import Prelude.
From S2P Require Import Ir.
From S2P Require Import IrSem.
From S2P Require Import IrValues.
From S2P Require Import Fold.
From S2P Require Import SimplifyRules.
From S2P Require Import Dom.
From S2P Require Import DomDfs.
From S2P Require Import DomTree.
From S2P Require Import Renumber.
From S2P Require Import RenumberFacts.
From S2P Require Import RenumberExec.
From S2P Require Import Unreachable.
From S2P Require Import Sccp.
From S2P Require Import SccpIndex.
From S2P Require Import SccpDuty.
From S2P Require Import SccpAnalysis.
From S2P Require Import IrFlow.
From S2P Require Import IrExec.
From S2P Require Import IrTotal.
From S2P Require Import SccpValues.
From S2P Require Import SccpSound.
#[local] Open Scope Z_scope.

(** Everything [g] does on lawful machines, [f] may do. *)
Definition refined (cfg : option OptConfig) (f g : IrFunc) : Prop := forall (M : Machine) args (w : World M), lawful cfg M -> length args = length (f_param_vals f) ->
  (forall vs w', returns M g args w vs w' -> returns M f args w vs w') /\
  (forall w', visits M g args w w' -> visits M f args w w').
Lemma refined_equivalent cfg f g h : refined cfg f g -> equivalent g h -> refined cfg f h.
Proof.
  intros R E M args w L H. destruct (R M args w L H) as [R1 R2], (E M args w) as [E1 E2].
  split; intros *; [rewrite <- E1; apply R1|rewrite <- E2; apply R2].
Qed.

(** ** The start *)
Lemma assigned_arg ps (args : list Z) v : length args = length ps -> v ∈ ps -> v <> 0 ->
  exists x, fold_right (fun pa (env : Env) => assign env pa.1 (eq pa.2)) (fun _ _ => False) (zip ps args) v = eq x.
Proof.
  revert args. induction ps as [|p ps IH]; intros [|a args] L H N; try done; [by apply elem_of_nil in H|]. cbn [zip zip_with fold_right fst snd].
  unfold assign at 1. destruct (Z.eqb_spec p 0) as [->|Np].
  - apply elem_of_cons in H as [->|H]; [done|]. apply IH; [by injection L|done|done].
  - unfold bind. destruct (Z.eqb_spec v p) as [->|Nv]; [by exists a|]. apply elem_of_cons in H as [->|H]; [done|].
    apply IH; [by injection L|done|done].
Qed.

(** ** What the rewriting keeps *)
Section kept.
  Context (f : IrFunc) (s : Sccp) (TF : typed_code f) (TY : typed f s).
  Context (bs' : list IrBlock) (changed : bool) (RW : rewrite_blocks f s (f_blocks f) = Some (bs', changed)).
  #[local] Notation "'g'" := (set_blocks f bs').

Lemma replaced_value annot op : o_kind (replace_operand f s annot op).1 = IROP_VALUE -> (replace_operand f s annot op).1 = op.
Proof using TY.
  unfold replace_operand. destruct (_ && _ && _); [|done]. destruct (value_at s (o_a op)) as [|c|] eqn:E; try done.
  destruct (TY _ c E) as (_ & N & _). cbn [fst]. destruct annot; intros K; by destruct N.
Qed.
Lemma replaced_values annot ops op : op ∈ (replace_operands f s annot ops).1 -> o_kind op = IROP_VALUE -> op ∈ ops.
Proof using TY.
  cbn [replace_operands fst]. intros (op0 & <- & H)%list_elem_of_In%in_map_iff K. rewrite (replaced_value annot op0 K). by apply list_elem_of_In.
Qed.
Lemma uses_args i e op : e ∈ in_edges i -> op ∈ e_args e -> op ∈ inst_uses i.
Proof.
  intros He Ho. apply elem_of_app. right. apply list_elem_of_In, in_concat. exists (e_args e).
  split; [by apply in_map, list_elem_of_In|by apply list_elem_of_In].
Qed.
Lemma uses_inv i op : op ∈ inst_uses i -> op ∈ in_ops i \/ exists e, e ∈ in_edges i /\ op ∈ e_args e.
Proof.
  intros [H|H]%elem_of_app; [by left|right]. apply list_elem_of_In, in_concat in H as (l & (e & <- & He)%in_map_iff & Ho).
  exists e. by rewrite !list_elem_of_In.
Qed.
Lemma rewritten_inst i i' c : rewrite_inst f s i = Some (i', c) -> in_result i' = in_result i /\
  (forall op, op ∈ inst_uses i' -> o_kind op = IROP_VALUE -> op ∈ inst_uses i) /\
  forall e', e' ∈ in_edges i' -> exists e, e ∈ in_edges i /\ e_target e' = e_target e.
Proof using TY.
  intros H. destruct (rewrite_inst_inv f s i i' c H) as [[_ ->]|(k & e & _ & He & ->)].
  - split; [done|]. split.
    + intros op Ho K. apply uses_inv in Ho as [Ho|(e & He & Ho)].
      * apply elem_of_app. left. by apply (replaced_values (opc_eqb (in_op i) IR_CALL)).
      * cbn in He. apply list_elem_of_In, in_map_iff in He as (e0 & <- & He0). apply (uses_args i e0); [by apply list_elem_of_In|].
        by apply (replaced_values false).
    + intros e' He. cbn in He. apply list_elem_of_In, in_map_iff in He as (e0 & <- & He0). exists e0. by rewrite list_elem_of_In.
  - split; [done|]. assert (He' : e ∈ in_edges i) by by apply list_elem_of_lookup_2 in He. split.
    + intros op Ho K. apply uses_inv in Ho as [[]%elem_of_nil|(e' & ->%list_elem_of_singleton & Ho)].
      apply (uses_args i e); [done|]. by apply (replaced_values false).
    + intros e' ->%list_elem_of_singleton. by exists e.
Qed.
Lemma rewritten_insts ins ins' c : rewrite_insts f s ins = Some (ins', c) -> map in_result ins' = map in_result ins /\
  (forall k i', ins' !! k = Some i' -> exists i c', ins !! k = Some i /\ rewrite_inst f s i = Some (i', c')).
Proof using TY.
  revert ins' c. induction ins as [|i ins IH]; intros ins' c H; [injection H as <- <-; by split|].
  destruct (rewrite_insts_cons f s i ins ins' c H) as (i' & rest & c1 & c2 & -> & Ri & Rr & _). destruct (IH rest c2 Rr) as [E L].
  split; [cbn; f_equal; [by apply (rewritten_inst i i' c1)|done]|]. intros [|k] j Hj; [injection Hj as <-; by exists i, c1|by apply L].
Qed.
Lemma rewritten_block k b' : bs' !! k = Some b' -> exists blk ins' c, f_blocks f !! k = Some blk /\ b' = mkBlock (b_params blk) ins' /\
  rewrite_insts f s (b_insts blk) = Some (ins', c).
Proof using RW.
  intros H. destruct (rewrite_blocks_spec f s _ _ _ RW) as [Len Spec].
  destruct (lookup_lt_is_Some_2 (f_blocks f) k) as [blk Hb]; [by rewrite <- Len; apply lookup_lt_Some in H|].
  destruct (Spec k blk Hb) as (ins' & c & Er & Eb & _). rewrite H in Eb. injection Eb as ->. by exists blk, ins', c.
Qed.
Lemma rewritten_ids : map block_ids bs' = map block_ids (f_blocks f).
Proof using TY RW.
  apply list_eq. intros k. rewrite !list_lookup_fmap. destruct (bs' !! k) as [b'|] eqn:E.
  - destruct (rewritten_block k b' E) as (blk & ins' & c & -> & -> & Er). cbn. unfold block_ids. cbn [b_params b_insts].
    by rewrite (proj1 (rewritten_insts _ _ _ Er)).
  - destruct (rewrite_blocks_spec f s _ _ _ RW) as [Len _]. apply lookup_ge_None in E. by rewrite lookup_ge_None_2 by lia.
Qed.

Lemma rewritten_targets : targets_ok g.
Proof using TF TY RW.
  intros e' He'. destruct (edges_inv g e' He') as (i' & Hi' & He). destruct (insts_inv g i' Hi') as (b' & Hb' & Hib).
  cbn [set_blocks f_blocks] in Hb'. apply list_elem_of_lookup in Hb' as [k Hk]. apply list_elem_of_lookup in Hib as [j Hj].
  destruct (rewritten_block k b' Hk) as (blk & ins' & c & Eb & -> & Er). destruct (rewritten_insts _ _ _ Er) as [_ L].
  destruct (L j i' Hj) as (i & c' & Ei & Ri). destruct (rewritten_inst i i' c' Ri) as (_ & _ & Te). destruct (Te e' He) as (e & Hein & ->).
  replace (f_nblocks g) with (f_nblocks f).
  - apply (tf_targets f (tc_func f TF)), (elem_edges f i); [|done]. apply (elem_insts f blk); [by apply list_elem_of_lookup_2 in Eb|by apply list_elem_of_lookup_2 in Ei].
  - unfold f_nblocks. cbn [set_blocks f_blocks]. by rewrite (proj1 (rewrite_blocks_spec f s _ _ _ RW)).
Qed.
Lemma rewritten_edge a b : cfg_edge g a b -> cfg_edge f a b.
Proof using TY RW.
  intros (e' & He' & T). unfold edges_of, insts_of in He'. cbn [set_blocks f_blocks] in He', T.
  rewrite (proj1 (rewrite_blocks_spec f s _ _ _ RW)) in T. destruct (bs' !! a) as [b'|] eqn:Ea; [|by apply elem_of_nil in He'].
  apply list_elem_of_In, in_concat in He' as (es & (i' & <- & Hi')%in_map_iff & He). apply list_elem_of_In, list_elem_of_lookup in Hi' as [j Hj].
  destruct (rewritten_block a b' Ea) as (blk & ins' & c & Eb & -> & Er). destruct (rewritten_insts _ _ _ Er) as [_ L].
  destruct (L j i' Hj) as (i & c' & Ei & Ri). destruct (rewritten_inst i i' c' Ri) as (_ & _ & Te). apply list_elem_of_In in He.
  destruct (Te e' He) as (e & Hein & Et). exists e. split; [|by rewrite <- Et]. apply (edges_of_elem f a blk i); [done|by apply list_elem_of_lookup_2 in Ei|done].
Qed.
Lemma rewritten_walk b p : walk g b p -> walk f b p.
Proof using TY RW. induction 1; [constructor|econstructor; [done|by apply rewritten_edge]]. Qed.
End kept.

(** ** Unchanged functions *)
Lemma unchanged_operands f s annot ops : (replace_operands f s annot ops).2 = false -> (replace_operands f s annot ops).1 = ops.
Proof.
  unfold replace_operands. cbn [fst snd]. induction ops as [|op ops IH]; cbn [existsb map]; [done|]. intros [H1 H2]%orb_false_iff. f_equal; [|by apply IH].
  unfold replace_operand in *. destruct (_ && _ && _); [|done]. by destruct (value_at s (o_a op)).
Qed.
Lemma unchanged_inst f s i i' : rewrite_inst f s i = Some (i', false) -> i' = i.
Proof.
  unfold rewrite_inst. destruct (replace_operands f s (opc_eqb (in_op i) IR_CALL) (in_ops i)) as [ops c1] eqn:E.
  destruct (constant_successor _) as [k|]; [by destruct (_ !! k)|]. intros [= <- [-> C]%orb_false_iff].
  pose proof (unchanged_operands f s (opc_eqb (in_op i) IR_CALL) (in_ops i)) as U. rewrite E in U. cbn in U. rewrite (U eq_refl).
  destruct i as [o t so fl r au iops es]. unfold set_edges, set_ops. cbn [in_op in_type in_subop in_flags in_result in_aux in_ops in_edges] in *. f_equal.
  clear -C. induction es as [|[tg args cs] es IH]; cbn [map existsb] in *; [done|]. apply orb_false_iff in C as [C1 C2]. f_equal; [|by apply IH].
  cbn [fst snd e_args] in *. unfold set_edge_args. cbn [e_target e_case]. f_equal. by apply unchanged_operands.
Qed.
Lemma unchanged_insts f s ins ins' : rewrite_insts f s ins = Some (ins', false) -> ins' = ins.
Proof.
  revert ins'. induction ins as [|i ins IH]; intros ins' H; [by injection H as <-|].
  destruct (rewrite_insts_cons f s i ins ins' false H) as (i' & rest & c1 & c2 & -> & Ri & Rr & E).
  symmetry in E. apply orb_false_iff in E as [-> ->]. f_equal; [by apply (unchanged_inst f s)|by apply IH].
Qed.
Lemma unchanged_blocks f s bs bs' : rewrite_blocks f s bs = Some (bs', false) -> bs' = bs.
Proof.
  intros H. destruct (rewrite_blocks_spec f s _ _ _ H) as [Len Spec]. apply list_eq. intros k. destruct (bs !! k) as [blk|] eqn:E.
  - destruct (Spec k blk E) as (ins' & c & Er & -> & C). rewrite (C eq_refl) in Er. apply unchanged_insts in Er as ->. by destruct blk.
  - apply lookup_ge_None in E. apply lookup_ge_None_2. lia.
Qed.

(** ** Blocks cut off *)
Lemma kept_sublist reach (bs : list IrBlock) : kept reach bs `sublist_of` bs.
Proof.
  revert bs. induction reach as [|r reach IH]; intros [|b bs]; cbn [kept]; try apply sublist_nil_l; [].
  destruct r; [by apply sublist_skip|by apply sublist_cons].
Qed.
Lemma sublist_concat {A} (l l' : list (list A)) : l `sublist_of` l' -> concat l `sublist_of` concat l'.
Proof.
  induction 1 as [|x l l' _ IH|x l l' _ IH]; cbn [concat]; [done|by apply sublist_app|]. etrans; [exact IH|].
  by apply sublist_inserts_l.
Qed.
Lemma nonzero_sublist l l' : l `sublist_of` l' -> nonzero l `sublist_of` nonzero l'.
Proof.
  unfold nonzero. induction 1 as [|x l l' _ IH|x l l' _ IH]; cbn [List.filter]; [done| |]; destruct (negb _); try done; by constructor.
Qed.
Lemma retarget_ids m b : block_ids (retarget_block m b) = block_ids b.
Proof. unfold block_ids, retarget_block. cbn [b_params b_insts]. by rewrite map_map. Qed.
Lemma defined_ids_blocks f : defined_ids f = concat (map block_ids (f_blocks f)).
Proof. done. Qed.

Section pruned.
  Context (f : IrFunc) (s : Sccp) (TF : typed_code f) (SF : structured f) (SA : ssa f) (TY : typed f s).
  Context (bs' : list IrBlock) (changed : bool) (RW : rewrite_blocks f s (f_blocks f) = Some (bs', changed)).
  #[local] Notation "'g'" := (set_blocks f bs').
  Context (h : IrFunc) (KR : keeps_reached g h).

Lemma pruned_ids : exists reach, length reach = length (f_blocks g) /\ (forall b, is_seen reach b = true <-> reaches g b) /\
  f_blocks h = map (retarget_block (remap_from 0 reach)) (kept reach (f_blocks g)) /\
  f_param_vals h = f_param_vals f /\ f_nvals h = f_nvals f /\ defined_ids h = concat (map block_ids (kept reach bs')).
Proof using KR.
  destruct KR as (reach & L & R & B & _ & _ & P & N). exists reach. split_and!; try done.
  rewrite defined_ids_blocks, B, map_map. f_equal. apply map_ext. intros b. apply retarget_ids.
Qed.
Lemma pruned_ssa : ssa h.
Proof using KR SA TY RW.
  destruct pruned_ids as (reach & _ & _ & _ & P & N & D). destruct SA as [ND Rg L].
  assert (Sub : doc_ids h `sublist_of` doc_ids f).
  { unfold doc_ids. rewrite P, D, defined_ids_blocks, <- (rewritten_ids f s TY bs' changed RW). apply nonzero_sublist, sublist_app; [done|].
    apply sublist_concat. generalize (kept_sublist reach bs'). generalize (kept reach bs') as l. clear. intros l H.
    induction H; cbn [map]; by constructor. }
  split; [by eapply sublist_NoDup| |by rewrite N]. rewrite N. intros v Hv. apply Rg. by eapply elem_of_submseteq; [|by apply sublist_submseteq].
Qed.
Lemma pruned_uses op : uses h op -> o_kind op = IROP_VALUE -> o_a op ∈ doc_ids h.
Proof using KR SF TF TY RW.
  intros U K. destruct pruned_ids as (reach & L & R & B & P & _ & D).
  assert (X : exists j b' k i', is_seen reach j = true /\ bs' !! j = Some b' /\ b_insts b' !! k = Some i' /\ op ∈ inst_uses i').
  { assert (H : exists i', i' ∈ insts h /\ op ∈ inst_uses i').
    { destruct U as [(i & Hi & Ho)|(e & He & Ho)]; [exists i; split; [done|]; apply elem_of_app; by left|].
      destruct (edges_inv h e He) as (i & Hi & Hei). exists i. split; [done|]. by apply (uses_args i e). }
    destruct H as (i & Hi & Ho). destruct (insts_inv h i Hi) as (b & Hb & Hib). rewrite B in Hb.
    apply list_elem_of_In, in_map_iff in Hb as (b' & <- & Hb'). apply list_elem_of_In in Hb'. apply kept_elem in Hb' as (j & Hj & Eb).
    cbn [retarget_block b_insts] in Hib. apply list_elem_of_In, in_map_iff in Hib as (i' & <- & Hi'). apply list_elem_of_In, list_elem_of_lookup in Hi' as [k Hk].
    exists j, b', k, i'. split; [by apply is_seen_lookup|]. split; [done|]. split; [done|].
    apply uses_inv in Ho as [Ho|(e & He & Ho)]; [apply elem_of_app; by left|]. cbn [retarget_inst in_edges set_edges] in He.
    apply list_elem_of_In, in_map_iff in He as (e0 & <- & He0). apply (uses_args i' e0); [by apply list_elem_of_In|done]. }
  destruct X as (j & b' & k & i' & Sj & Eb & Ei & Ho). destruct (rewritten_block f s bs' changed RW j b' Eb) as (blk & ins' & c & Ef & -> & Er).
  destruct (rewritten_insts f s TY _ _ _ Er) as [Rs Ls]. destruct (Ls k i' Ei) as (i & c' & Hi & Ri).
  destruct (rewritten_inst f s TY i i' c' Ri) as (_ & Us & _). specialize (Us op Ho K).
  assert (Rj : reaches g j) by by apply R. destruct (reaches_walk g j Rj) as [p W].
  pose proof (rewritten_walk f s TY bs' changed RW j p W) as Wf. pose proof (proj1 (walk_reaches f j p Wf)) as Rf.
  assert (Nz : o_a op <> 0).
  { assert (F : fits (narrowing f) (f_vals f) op); [|destruct (fits_value f op F K); lia].
    assert (Hin : i ∈ insts f) by (apply (elem_insts f blk); [by apply list_elem_of_lookup_2 in Ef|by apply list_elem_of_lookup_2 in Hi]).
    apply uses_inv in Us as [Us|(e & He & Us)].
    - pose proof (w_ops _ _ _ _ _ (tf_insts f TF i Hin)) as F. rewrite Forall_forall in F. apply F. by apply list_elem_of_In.
    - pose proof (tf_edges f TF e (elem_edges f i e Hin He)) as F. rewrite Forall_forall in F. apply F. by apply list_elem_of_In. }
  assert (Kept : forall x blk0, reaches g x -> f_blocks f !! x = Some blk0 -> o_a op ∈ block_ids blk0 -> o_a op ∈ doc_ids h).
  { intros x blk0 Rx Ex Hx. apply elem_nonzero. split; [|done]. apply elem_of_app. right. rewrite D.
    pose proof (rewritten_ids f s TY bs' changed RW) as Ids. apply (f_equal (fun l => l !! x)) in Ids. rewrite !list_lookup_fmap, Ex in Ids.
    destruct (bs' !! x) as [bx|] eqn:Ebx; [|done]. injection Ids as Ids. pose proof (proj1 (is_seen_lookup _ _) (proj2 (R x) Rx)) as Sx.
    apply list_elem_of_In, in_concat. exists (block_ids bx). split; [|rewrite Ids; by apply list_elem_of_In].
    apply in_map, list_elem_of_In. eapply list_elem_of_lookup_2, (kept_lookup reach bs' x bx Sx Ebx). }
  destruct (sd_uses f SF j blk k i op Rf Ef Hi Us K) as [H|[(blk' & E & H)|(x & blkx & _ & Dx & Ex & H)]].
  - apply elem_nonzero. split; [|done]. rewrite P. apply elem_of_app. by left.
  - rewrite Ef in E. injection E as <-. apply (Kept j blk); [done|done|]. unfold ids_before in H. unfold block_ids.
    apply elem_of_app in H as [H|H]; apply elem_of_app; [by left|right].
    apply list_elem_of_In, in_map_iff in H as (i0 & <- & H0). apply list_elem_of_In, in_map, list_elem_of_In.
    by eapply elem_of_submseteq; [apply list_elem_of_In|apply sublist_submseteq, sublist_take].
  - apply (Kept x blkx); [|done|done]. by apply (proj2 (walk_reaches g j p W)), Dx.
Qed.
End pruned.

(** ** The pass *)
Lemma sccp_uses_ok f : typed_code f -> f_nvals f < 2 ^ 32 -> forallb (fun u => (1 <=? u32 u.1) && (u32 u.1 <=? f_nvals f)) (all_uses f) = true.
Proof.
  intros TF L. apply forallb_forall. intros [v u] H. cbn [fst].
  assert (R : 1 <= v <= f_nvals f).
  { unfold all_uses in H. apply in_concat in H as (l & Hl & H). apply in_map_iff in Hl as (r & <- & Hr).
    apply in_concat in Hr as (rs & Hrs & Hr). apply list_elem_of_In, list_elem_of_lookup in Hrs as [b Hb]. apply list_elem_of_In in Hr.
    destruct (block_insts_indexed f b rs r Hb Hr) as (I & _ & _). pose proof (indexed_inst f r I) as Hi.
    assert (F : forall ops, Forall (fits (narrowing f) (f_vals f)) ops -> v ∈ value_ids ops -> 1 <= v <= f_nvals f).
    { intros ops F (op & Ho & K & <-)%value_ids_inv. rewrite Forall_forall in F. apply (fits_value f op); [by apply F, list_elem_of_In|done]. }
    unfold uses_of_inst in H. apply in_app_or in H as [H|H].
    - apply in_map_iff in H as (w & [= -> _] & Hw). apply (F (in_ops (r_inst r))); [apply (tf_insts f TF _ Hi)|by apply list_elem_of_In].
    - apply in_concat in H as (l & Hl & H). apply list_elem_of_In, list_elem_of_lookup in Hl as [k Hk]. rewrite list_lookup_imap in Hk.
      destruct (in_edges (r_inst r) !! k) as [e|] eqn:E; [|done]. injection Hk as <-. apply in_map_iff in H as (w & [= -> _] & Hw).
      apply (F (e_args e)); [apply (tf_edges f TF), (elem_edges f (r_inst r)); [done|by apply list_elem_of_lookup_2 in E]|by apply list_elem_of_In]. }
  unfold u32. rewrite Z.mod_small by lia. rewrite !(proj2 (Z.leb_le _ _)) by lia. done.
Qed.

Lemma rewrite_start f cfg s bs' changed M args (w : World M) : structured f -> f_blocks f <> [] -> solution f cfg s ->
  rewrite_blocks f s (f_blocks f) = Some (bs', changed) -> length args = length (f_param_vals f) ->
  follows f s M (start M (set_blocks f bs') args w) (start M f args w).
Proof.
  intros SF Nb SO RW La. destruct (rewrite_blocks_spec f s _ _ _ RW) as [Len Spec]. unfold start. cbn [set_blocks f_blocks].
  change (start_env (set_blocks f bs') args) with (start_env f args). destruct (f_blocks f) as [|blk bs] eqn:Eb; [done|].
  destruct (Spec 0%nat blk eq_refl) as (ins' & c & Er & E0 & _). destruct bs' as [|b0 bs0]; [done|]. injection E0 as ->. cbn [b_insts].
  rewrite <- (drop_0 (b_insts blk)). apply (follows_running f s M 0 0 blk (list_to_set (f_param_vals f)) ins' c).
  - apply at_start; [done|by rewrite Eb].
  - apply (so_entry _ _ _ SO). by rewrite Eb.
  - by rewrite drop_0.
  - intros v Hv Nz. apply elem_of_list_to_set in Hv. destruct (assigned_arg (f_param_vals f) args v La Hv Nz) as [x E].
    unfold start_env. split; rewrite E; [done|by exists x|by exists x|]. rewrite (so_params _ _ _ SO v Hv). by split.
Qed.

(** What the pass is given: the form that acceptance by the verifier gives of a
    function as the builder constructs it. *)
Record verified_func (f : IrFunc) : Prop := {
  vf_typed : typed_func f;
  vf_structured : structured f;
  vf_ssa : ssa f;
  vf_built i : i ∈ insts f -> value_op (in_op i) = true -> built i;
  vf_blocks : f_blocks f <> [];
}.

(** The pass as its stages. *)
Lemma sccp_func_stages f cfg : verified_func f -> constants_reduced f -> exists s bs' changed h, solution f cfg s /\
  rewrite_blocks f s (f_blocks f) = Some (bs', changed) /\
  sccp_func f cfg = Some (h, changed) /\ (changed = false -> h = f /\ set_blocks f bs' = f) /\
  (changed = true -> equivalent (set_blocks f bs') h /\ forall M args (w : World M), safe M (set_blocks f bs') args w -> safe M h args w).
Proof.
  intros [TF' SF SA BU Nb] Cr. pose proof (typed_reduced f TF' Cr) as TF. destruct (sccp_analysis_solution f cfg TF) as (s & E & SO & _).
  destruct (rewrite_blocks_total f s TF (f_blocks f) ltac:(done)) as (bs' & changed & RW). exists s, bs', changed.
  unfold sccp_func. rewrite (sccp_uses_ok f TF (ss_u32 f SA)), E. cbn [mbind option_bind]. unfold rewrite_func. rewrite RW. cbn [mbind option_bind].
  pose proof (so_typed _ _ _ SO) as TY. destruct changed.
  - pose proof (rewritten_targets f s TF TY bs' true RW) as Tg.
    destruct (remove_unreachable_keeps (set_blocks f bs')) as (h & Eh & KR & Eq & Sf); [|done|].
    { cbn. pose proof (proj1 (rewrite_blocks_spec f s _ _ _ RW)) as L. destruct bs', (f_blocks f); done. }
    rewrite Eh. cbn [mbind option_bind]. exists (ir_func_renumber h). split_and!; try done.
    destruct (renumber_lockstep h) as [Eq2 Sf2]; [by apply (pruned_ssa f s SA TY bs' true RW h KR)|intros op; by apply (pruned_uses f s TF SF TY bs' true RW h KR)|].
    split; [by eapply equivalent_trans|]. intros M args w Hs. by apply Sf2, Sf.
  - apply unchanged_blocks in RW as Hb. assert (Eg : set_blocks f bs' = f) by (rewrite Hb; by destruct f). rewrite Eg. exists f. by split_and!.
Qed.

(** C3. Sparse conditional constant propagation is correct. On a function of the
    verified form ([verified_func], which acceptance by the verifier gives of
    what the builder constructs), whose integer constants are moreover reduced
    to their width if it has a zero extension, a selection or a branch on a
    value ([constants_reduced], which no check ensures), the pass returns, with no ICE, a function that does on
    every lawful machine only what the function may do: it returns no value and
    reaches no world that the function could not; constants, branches decided
    at compile time, blocks cut off and renumbered values included. When it
    reports no change, the function is untouched. *)
Theorem sccp_func_refines f cfg : verified_func f -> constants_reduced f ->
  exists h changed, sccp_func f cfg = Some (h, changed) /\ refined cfg f h /\ (changed = false -> h = f).
Proof.
  intros V Cr. destruct (sccp_func_stages f cfg V Cr) as (s & bs' & changed & h & SO & RW & E & Same & Eq). exists h, changed. split; [done|].
  destruct V as [TF' SF SA BU Nb]. pose proof (typed_reduced f TF' Cr) as TF. assert (R : refined cfg f (set_blocks f bs')).
  { intros M args w LM La. apply (simulation_forward M _ f (follows f s M) args w); [|by apply (rewrite_start f cfg s bs' changed)].
    by apply lockstep_simulates, (sccp_lockstep f cfg s TF BU SF SO M LM bs' changed). }
  destruct changed.
  - split; [|done]. eapply refined_equivalent; [exact R|]. by apply Eq.
  - destruct (Same eq_refl) as [-> Eg]. rewrite Eg in R. by split.
Qed.

(** C7. Sparse conditional constant propagation makes nothing get stuck: for a
    function of the verified form with constants reduced as above, on a lawful
    machine whose effects always have an outcome, if every execution of the
    function from a world goes on until it returns, so does every execution of
    the function the pass gives. No branch, no return and no read of a value is
    left without what it needs. *)
Theorem sccp_func_progress f cfg : verified_func f -> constants_reduced f ->
  exists h changed, sccp_func f cfg = Some (h, changed) /\
    forall M args (w : World M), lawful cfg M -> total M -> length args = length (f_param_vals f) -> safe M f args w -> safe M h args w.
Proof.
  intros V Cr. destruct (sccp_func_stages f cfg V Cr) as (s & bs' & changed & h & SO & RW & E & Same & Eq). exists h, changed. split; [done|].
  destruct V as [TF' SF SA BU Nb]. pose proof (typed_reduced f TF' Cr) as TF. intros M args w LM To La Sf.
  assert (Sg : safe M (set_blocks f bs') args w).
  { apply (safe_simulated M f _ (follows f s M)); [|by apply (rewrite_start f cfg s bs' changed)| |done].
    - by apply lockstep_simulates, (sccp_lockstep f cfg s TF BU SF SO M LM bs' changed).
    - intros t r Fl. apply (sccp_goes_on f cfg s TF BU SF SO M LM bs' changed RW t r To); [|done].
      by apply (rewritten_targets f s TF (so_typed _ _ _ SO) bs' changed RW). }
  destruct changed; [by apply Eq|]. destruct (Same eq_refl) as [-> Eg]. by rewrite Eg in Sg.
Qed.
