(* ===== verification/Verify.v ===== *)
(** [src/ir/verify.c]: the verifier. Every check of a function, and the checks
    of a module, as the list of the numbers of the checks that report, in the
    order they report; acceptance is the empty list. The text of a message is
    not modelled. [None] is a read outside an array (most opcode checks read
    operands without looking at their number) or a dominance query that does
    not answer. *)
From Stdlib Require Import Ascii String.
From S2P Require Import Prelude.
From S2P Require Import Ir.
From S2P Require Import Dom.
From S2P Require Import Dce.
#[local] Open Scope Z_scope.

Definition err (check : Z) (bad : bool) : list Z := if bad then [check] else [].

(** One check after the other. *)
Definition both (r1 r2 : option (list Z)) : option (list Z) := e ← r1; es ← r2; Some (e ++ es).
#[local] Notation "r1 +++ r2" := (both r1 r2) (at level 60, right associativity).
Definition each {A} (g : A -> option (list Z)) (l : list A) : option (list Z) := foldr (fun x r => g x +++ r) (Some []) l.
(** [&&] of conditions that may read outside an array. *)
Definition and_then (a b : option bool) : option bool := x ← a; if x : bool then b else Some false.
#[local] Notation "a &&& b" := (and_then a b) (at level 40, left associativity).

(** ** The module around a function *)
(** What a function carries besides its code. *)
Record FuncAttrs := mkAttrs {
  a_name : string; a_unprototyped : bool; a_abi_ret : Z; a_param_types : list IrType; a_param_annots : option (list Z);
  a_calls_setjmp : bool; a_returns_twice : bool;
}.
Record IrReloc := mkReloc { rl_offset : Z; rl_symbol : Z }.
Record IrGlobal := mkGlobal { gl_align : Z; gl_size : Z; gl_relocs : list IrReloc }.
Record IrModule := mkModule {
  m_funcs : list (IrFunc * FuncAttrs); m_globals : list IrGlobal;
  m_syms : list string; m_sym_attrs : option (list bool);  (* [returns_twice] *)
}.
Definition m_nsyms (m : IrModule) : Z := Z.of_nat (List.length (m_syms m)).
Definition m_nfuncs (m : IrModule) : Z := Z.of_nat (List.length (m_funcs m)).

(** ** Annotations of arguments and parameters *)
Definition ir_arg_kind (b : Z) : Z := Z.land (u32 (Z.shiftr b 32)) 7.
Definition ir_arg_size (b : Z) : Z := u32 b.
Definition ir_abi_even_gpr (b : Z) : bool := negb (Z.land b (Z.shiftl 1 61) =? 0).
Definition ir_abi_stack_align (b : Z) : Z :=
  Z.shiftl (Z.shiftr (Z.land b (Z.shiftl (Z.shiftl 1 22 - 1) 38)) 38) 3.
Definition ir_param_is_restrict (b : Z) : bool := negb (Z.land b (Z.shiftl 1 63) =? 0).
Definition ir_param_is_onstack (b : Z) : bool := negb (Z.land b (Z.shiftl 1 62) =? 0).
Definition IR_ARG_BYVAL : Z := 1.
Definition IR_ARG_SRET : Z := 2.
Definition IR_ARG_HFA : Z := 7.
Definition IR_ABIRET_NONE : Z := 0.
Definition IR_ABIRET_SRET : Z := 1.
Definition IR_ABIRET_HFA_F32 : Z := 6.
Definition FUNCREF_INTERNAL : Z := 0.
Definition FUNCREF_EXTERNAL : Z := 1.
Definition FUNCREF_INDIRECT : Z := 2.

Definition flag (i : IrInst) (k : Z) : bool := negb (Z.land (in_flags i) k =? 0).
Definition argflag (o : IrOperand) (k : Z) : bool := negb (Z.land (o_argflags o) k =? 0).
Definition IRF_CALL_UNPROTOTYPED : Z := 1.
Definition IRF_CALL_VARIADIC : Z := 4.
Definition IRF_BOUNDS_CHECK : Z := 16.
Definition IRF_NORETURN : Z := 32.
Definition IRF_SELF_INIT : Z := 64.
Definition IRF_FLOW_PROVENANCE : Z := 128.
Definition IROPF_ANON : Z := 1.
Definition IROPF_SEXT : Z := 2.
Definition IROPF_ZEXT : Z := 4.
Definition IROPF_ONSTACK : Z := 8.

Definition ir_type_size (t : IrType) : Z :=
  if ir_type_is_vector t then 16
  else match t with
       | IRT_I8 => 1 | IRT_I16 => 2 | IRT_I32 => 4 | IRT_I64 => 8 | IRT_F32 => 4 | IRT_F64 => 8 | IRT_F80 => 16
       | IRT_F128 => 16 | IRT_PTR => 8 | _ => 0
       end.
Definition natural_align (t : IrType) : Z := let size := ir_type_size t in if size =? 0 then 1 else size.
Definition pow2_nonzero (a : Z) : bool := negb (a =? 0) && (Z.land a (u32 (a - 1)) =? 0).
Definition is_one_of (o : IrOp) (os : list IrOp) : bool := existsb (opc_eqb o) os.
(** [op >= IR_VA_ARG] *)
Definition is_reserved (o : IrOp) : bool := is_one_of o [IR_VA_ARG; IR_VA_END; IR_VA_COPY].

(** ** Check 1: uses *)
Section func.
  Context (m : IrModule) (f : IrFunc) (a : FuncAttrs) (t : IrDomTree).

Definition check_use (o : IrOperand) (use_blk use_pos : Z) : option (list Z) :=
  if negb (is_kind (o_kind o) IROP_VALUE) then Some []
  else
    let id := u32 (o_a o) in
    if (id =? 0) || (f_nvals f <? id) then Some [1]
    else
      vi ← f_vals f !! Z.to_nat (id - 1);
      let by_block := d ← ir_dominates t (vi_def_block vi) use_blk; Some (err 1 (negb d)) in
      match vi_def_kind vi with
      | VDEF_FPARAM => Some []
      | VDEF_BPARAM => if vi_def_block vi =? use_blk then Some [] else by_block
      | VDEF_INST => if vi_def_block vi =? use_blk then Some (err 1 (use_pos <=? vi_def_pos vi)) else by_block
      | VDEF_NONE => Some [1]
      end.
Definition check_uses (os : list IrOperand) (use_blk use_pos : Z) : option (list Z) :=
  each (fun o => check_use o use_blk use_pos) os.

(** ** Check 2: edges *)
(** [f->vals[p - 1].type] *)
Definition param_type (p : Z) : option IrType := if 1 <=? p then vi_type <$> f_vals f !! Z.to_nat (p - 1) else None.
Definition check_vector (o : IrOperand) : list Z :=
  err 4 (ir_type_is_vector (o_type o) && negb (is_kind (o_kind o) IROP_VALUE) && negb (is_kind (o_kind o) IROP_UNDEF)).
Definition check_edge_arg (ap : IrOperand * Z) : option (list Z) :=
  want ← param_type ap.2; Some (check_vector ap.1 ++ err 2 (negb (ty_eqb (o_type ap.1) want))).
Definition check_edge (e : IrEdge) : option (list Z) :=
  match ir_block f (e_target e) with
  | None => Some [2]
  | Some tgt =>
    if negb (List.length (e_args e) =? List.length (b_params tgt))%nat then Some [2]
    else each check_edge_arg (zip (e_args e) (b_params tgt))
  end.

(** ** Check 4, and 12 and 13 for the stack and atomic operations *)
(** [in->ops[n].type] *)
Definition op_type (i : IrInst) (n : nat) : option IrType := o_type <$> in_ops i !! n.
Definition ops_are (i : IrInst) (n : nat) (want : IrType) : option bool := x ← op_type i n; Some (ty_eqb x want).
Definition check_binop_types (i : IrInst) (want_float : bool) : option bool :=
  let t := in_type i in
  let operands := ops_are i 0 t &&& ops_are i 1 t in
  if ir_type_is_vector t then
    let legal :=
      if want_float then
        ir_type_is_vector_float t && is_one_of (in_op i) [IR_FADD; IR_FSUB; IR_FMUL; IR_FDIV]
      else
        ir_type_is_vector_int t &&
        (is_one_of (in_op i) [IR_IADD; IR_ISUB; IR_AND; IR_OR; IR_XOR] || opc_eqb (in_op i) IR_IMUL && ty_eqb t IRT_V8I16) in
    Some legal &&& operands
  else
    (* the message of the error prints both types *)
    Some (if want_float then type_is_float t else type_is_int t) &&& (_ ← op_type i 0; _ ← op_type i 1; operands).
(** [true] when no error is reported. *)
Definition check_inst_types (i : IrInst) : option bool :=
  let t := in_type i in let op := in_op i in
  let nops n := Some (in_nops i =? n) in
  let read n (p : IrType -> bool) := x ← op_type i n; Some (p x) in
  let arg n := ops_are i n in
  if is_one_of op [IR_ALLOCA; IR_LOAD; IR_STORE; IR_MEMCPY; IR_MEMSET] && (13 <=? in_subop i) then Some false
  else
  match op with
  | IR_IADD | IR_ISUB | IR_IMUL | IR_SDIV | IR_UDIV | IR_SREM | IR_UREM
  | IR_AND | IR_OR | IR_XOR | IR_SHL | IR_LSHR | IR_ASHR => check_binop_types i false
  | IR_FADD | IR_FSUB | IR_FMUL | IR_FDIV => check_binop_types i true
  | IR_FNEG | IR_FABS => nops 1 &&& Some (type_is_float t) &&& arg 0%nat t
  | IR_VSPLAT => Some (ir_type_is_vector t) &&& nops 1 &&& arg 0%nat (ir_vector_elem_type t)
  | IR_VEXTRACT =>
    vt ← op_type i 0;
    nops 1 &&& Some (ir_type_is_vector vt) &&& Some (ty_eqb t (ir_vector_elem_type vt)) &&& Some (in_subop i <? ir_vector_lanes vt)
  | IR_VREDUCE_ADD | IR_VREDUCE_MUL | IR_VREDUCE_AND | IR_VREDUCE_OR | IR_VREDUCE_XOR =>
    vt ← op_type i 0;
    let legal := match op with
                 | IR_VREDUCE_ADD => ir_type_is_vector_int vt || ir_type_is_vector_float vt
                 | IR_VREDUCE_MUL => ir_type_is_vector_float vt || ty_eqb vt IRT_V8I16
                 | _ => ir_type_is_vector_int vt
                 end in
    nops 1 &&& Some legal &&& Some (ty_eqb t (ir_vector_elem_type vt))
  | IR_ICMP =>
    Some (ty_eqb t IRT_I32) &&& (t1 ← op_type i 1; arg 0%nat t1) &&& read 0%nat (fun t0 => type_is_int t0 || ty_eqb t0 IRT_PTR) &&&
    Some (in_subop i <=? 9)
  | IR_FCMP =>
    Some (ty_eqb t IRT_I32) &&& (t1 ← op_type i 1; arg 0%nat t1) &&& read 0%nat type_is_float &&& Some (in_subop i <=? 13)
  | IR_SEXT | IR_ZEXT =>
    read 0%nat type_is_int &&& Some (type_is_int t) &&& read 0%nat (fun t0 => verify_int_width t0 <? verify_int_width t)
  | IR_TRUNC =>
    read 0%nat type_is_int &&& Some (type_is_int t) &&& read 0%nat (fun t0 => verify_int_width t <? verify_int_width t0)
  | IR_FPEXT => read 0%nat type_is_float &&& Some (type_is_float t) &&& read 0%nat (fun t0 => type_ord t0 <? type_ord t)
  | IR_FPTRUNC => read 0%nat type_is_float &&& Some (type_is_float t) &&& read 0%nat (fun t0 => type_ord t <? type_ord t0)
  | IR_FPTOSI | IR_FPTOUI => read 0%nat type_is_float &&& Some (type_is_int t)
  | IR_SITOFP | IR_UITOFP => read 0%nat type_is_int &&& Some (type_is_float t)
  | IR_BITCAST =>
    read 0%nat (fun t0 => match t0, t with
      | IRT_I32, IRT_F32 | IRT_I64, IRT_F64 | IRT_F32, IRT_I32 | IRT_F64, IRT_I64 | IRT_I64, IRT_PTR | IRT_PTR, IRT_I64 => true
      | _, _ => false
      end)
  | IR_ALLOCA => Some (ty_eqb t IRT_PTR) &&& arg 0%nat IRT_I64
  | IR_LOAD => Some (negb (ty_eqb t IRT_VOID)) &&& arg 0%nat IRT_PTR
  | IR_STORE => arg 1%nat IRT_PTR
  | IR_PTRADD => Some (ty_eqb t IRT_PTR) &&& arg 0%nat IRT_PTR &&& arg 1%nat IRT_I64
  | IR_MEMCPY => arg 0%nat IRT_PTR &&& arg 1%nat IRT_PTR &&& arg 2%nat IRT_I64 &&& Some (in_subop i =? 1)
  | IR_MEMSET => arg 0%nat IRT_PTR &&& arg 1%nat IRT_I32 &&& arg 2%nat IRT_I64 &&& Some (in_subop i =? 1)
  | IR_SELECT => Some (negb (ir_type_is_vector t)) &&& arg 0%nat IRT_I32 &&& arg 1%nat t &&& arg 2%nat t
  | IR_VA_START => nops 1 &&& arg 0%nat IRT_PTR &&& Some (f_variadic f)
  | IR_STACKSAVE => Some (ty_eqb t IRT_PTR) &&& nops 0
  | IR_ATOMICRMW =>
    Some (type_is_int t) &&& nops 2 &&& arg 0%nat IRT_PTR &&& arg 1%nat t &&& Some (in_subop i <=? 5) &&& Some (flag i IRF_SEQ_CST)
  | IR_CMPXCHG =>
    Some (type_is_int t) &&& nops 3 &&& arg 0%nat IRT_PTR &&& arg 1%nat t &&& arg 2%nat t &&& Some (flag i IRF_SEQ_CST)
  | IR_STACKRESTORE =>
    nops 1 &&& arg 0%nat IRT_PTR &&& (o ← in_ops i !! 0%nat; Some (negb (is_kind (o_kind o) IROP_UNDEF)))
  | IR_RET => if ty_eqb (f_ret f) IRT_VOID then nops 0 else nops 1 &&& arg 0%nat (f_ret f)
  | IR_CONDBR => arg 0%nat IRT_I32
  | IR_SWITCH => read 0%nat type_is_int
  | _ => Some true
  end.
Definition types_check (o : IrOp) : Z :=
  match o with IR_ATOMICRMW | IR_CMPXCHG => 13 | IR_STACKRESTORE => 12 | _ => 4 end.
Definition check_types (i : IrInst) : option (list Z) :=
  ok ← check_inst_types i; Some (err (types_check (in_op i)) (negb ok)).

(** ** Check 7: flags *)
Definition is_mem (o : IrOp) : bool := is_one_of o [IR_LOAD; IR_STORE; IR_MEMCPY; IR_MEMSET; IR_ALLOCA].
(** The type a load or a store accesses; of other instructions nothing is read. *)
Definition access_type (i : IrInst) : option IrType := if opc_eqb (in_op i) IR_STORE then op_type i 0 else Some (in_type i).
Definition check_flags (vt : IrType) (i : IrInst) : list Z :=
  let o := in_op i in
  err 7 (flag i IRF_VOLATILE && negb (opc_eqb o IR_CALL) && (negb (is_mem o) || opc_eqb o IR_ALLOCA)) ++
  err 7 (flag i IRF_SEQ_CST && negb (is_one_of o [IR_LOAD; IR_STORE; IR_ATOMICRMW; IR_CMPXCHG])) ++
  err 7 (flag i IRF_CALL_VARIADIC && negb (opc_eqb o IR_CALL)) ++
  err 7 (flag i IRF_NORETURN && negb (opc_eqb o IR_CALL)) ++
  err 7 (flag i IRF_SELF_INIT && negb (opc_eqb o IR_LOAD)) ++
  err 7 (flag i IRF_FLOW_PROVENANCE && negb (is_one_of o [IR_RET; IR_BR; IR_CONDBR; IR_SWITCH])) ++
  err 7 (flag i IRF_NSW && negb (is_one_of o [IR_IADD; IR_ISUB; IR_IMUL])) ++
  err 7 (ir_type_is_vector (in_type i) && flag i IRF_NSW) ++
  err 7 (is_one_of o [IR_LOAD; IR_STORE] && ir_type_is_vector vt &&
         flag i (Z.lor IRF_VOLATILE IRF_SEQ_CST) && negb (ty_eqb vt IRT_V2I64 && flag i IRF_SEQ_CST)) ++
  err 7 (flag i IRF_BOUNDS_CHECK && negb (opc_eqb o IR_ICMP)) ++
  err 7 (flag i (Z.lxor 255 (fold_right Z.lor 0 [IRF_VOLATILE; IRF_SEQ_CST; IRF_CALL_VARIADIC; IRF_NSW; IRF_BOUNDS_CHECK;
                                              IRF_NORETURN; IRF_SELF_INIT; IRF_FLOW_PROVENANCE]))).

(** ** Check 8: alignment *)
Definition check_align (vt : IrType) (i : IrInst) : list Z :=
  if negb (is_mem (in_op i)) then []
  else if negb (pow2_nonzero (in_aux i)) then [8]
  else if is_one_of (in_op i) [IR_LOAD; IR_STORE] then
    let natural := natural_align vt in
    if flag i IRF_SEQ_CST && negb (in_aux i =? natural) then [8] else err 8 (natural <? in_aux i)
  else [].

(** ** Check 9: references and calls *)
Definition check_operand (o : IrOperand) : list Z :=
  check_vector o ++ err 9 (is_kind (o_kind o) IROP_SYMBOL && (m_nsyms m <=? o_sym o)).

(** [b] is an annotation on values and symbols only. *)
Definition annotated (o : IrOperand) : bool := is_kind (o_kind o) IROP_VALUE || is_kind (o_kind o) IROP_SYMBOL.
Definition is_pow2_16 (n : Z) : bool := negb ((n <? 16) || negb (Z.land n (n - 1) =? 0)).
Definition check_arg (va seen_anon : bool) (o : IrOperand) (next : option IrOperand) : list Z :=
  let anon := argflag o IROPF_ANON in
  let even := annotated o && ir_abi_even_gpr (o_b o) in
  let stack_align := if annotated o then ir_abi_stack_align (o_b o) else 0 in
  let onstack := argflag o IROPF_ONSTACK in
  let byval_stack := (ir_arg_kind (o_b o) =? IR_ARG_BYVAL) && ty_eqb (o_type o) IRT_PTR in
  let leaf_stack := onstack && (ty_eqb (o_type o) IRT_I64 || ty_eqb (o_type o) IRT_F64) in
  let aligned := negb (stack_align =? 0) in
  err 9 (anon && negb va) ++ err 9 (seen_anon && negb anon) ++
  err 9 (argflag o IROPF_SEXT && argflag o IROPF_ZEXT) ++
  err 9 (argflag o (Z.lor IROPF_SEXT IROPF_ZEXT) && (4 <=? ir_type_size (o_type o))) ++
  err 9 (even && negb (ty_eqb (o_type o) IRT_I64)) ++ err 9 (even && onstack) ++
  err 9 (aligned && negb (is_pow2_16 stack_align)) ++
  err 9 (aligned && negb byval_stack && negb leaf_stack) ++ err 9 (aligned && even) ++
  err 9 (aligned && leaf_stack && match next with Some n => negb (argflag n IROPF_ONSTACK) | None => true end).
Fixpoint check_args (va seen_anon : bool) (os : list IrOperand) : list Z :=
  match os with
  | [] => []
  | o :: os => check_arg va seen_anon o (head os) ++ check_args va (seen_anon || argflag o IROPF_ANON) os
  end.

(** An argument against the parameter of a callee of the module. [param_annots]
    has as many entries as [param_types]. *)
Definition annot_at (annots : option (list Z)) (k : nat) : Z := match annots with Some l => default 0 (l !! k) | None => 0 end.
Definition check_param (ca : FuncAttrs) (k : nat) (o : IrOperand) : option (list Z) :=
  let b := if annotated o then o_b o else 0 in
  let want := annot_at (a_param_annots ca) k in
  let want_kind :=
    if (k =? 0)%nat && (IR_ABIRET_HFA_F32 <=? a_abi_ret ca) then IR_ARG_HFA
    else if (k =? 0)%nat && negb (a_abi_ret ca =? IR_ABIRET_NONE) then IR_ARG_SRET + (a_abi_ret ca - IR_ABIRET_SRET)
    else ir_arg_kind want in
  want_type ← a_param_types ca !! k;
  Some (err 9 (negb (ty_eqb (o_type o) want_type)) ++
  (if negb (ir_arg_kind b =? want_kind) then [9]
   else err 9 ((want_kind =? IR_ARG_BYVAL) && negb (ir_arg_size (o_b o) =? ir_arg_size want))) ++
  err 9 (negb (Bool.eqb (ir_abi_even_gpr b) (ir_abi_even_gpr want))) ++
  err 9 (negb (ir_abi_stack_align b =? ir_abi_stack_align want)) ++
  err 9 (negb (Bool.eqb (argflag o IROPF_ONSTACK) (ir_param_is_onstack want)))).
Definition check_callee (i : IrInst) (cf : IrFunc) (ca : FuncAttrs) : option (list Z) :=
  let nparams := List.length (a_param_types ca) in let nops := List.length (in_ops i) in
  let unprototyped := a_unprototyped ca || flag i IRF_CALL_UNPROTOTYPED in
  (if negb unprototyped && (if f_variadic cf then (nops <? nparams)%nat else negb (nops =? nparams)%nat) then Some [9]
   else
     let checked := if unprototyped then if a_abi_ret ca =? IR_ABIRET_NONE then 0%nat else 1%nat else nparams in
     if negb (checked =? 0)%nat && (nops =? 0)%nat then Some [9]
     else each (fun ko => check_param ca ko.1 ko.2) (imap pair (take checked (in_ops i)))) +++
  Some (err 9 (negb (ty_eqb (in_type i) (f_ret cf)))).
Definition check_call (i : IrInst) : option (list Z) :=
  Some (check_args (flag i IRF_CALL_VARIADIC) false (if in_subop i =? FUNCREF_INDIRECT then drop 1 (in_ops i) else in_ops i)) +++
  if in_subop i =? FUNCREF_INTERNAL then
    match m_funcs m !! Z.to_nat (in_aux i) with None => Some [9] | Some (cf, ca) => check_callee i cf ca end
  else if in_subop i =? FUNCREF_EXTERNAL then Some (err 9 (m_nsyms m <=? in_aux i))
  else if in_subop i =? FUNCREF_INDIRECT then
    if in_nops i <? 1 then Some [9] else ptr ← ops_are i 0 IRT_PTR; Some (err 9 (negb ptr))
  else Some [9].
Definition check_inst_misc (i : IrInst) : option (list Z) :=
  vt ← access_type i;
  Some (check_flags vt i ++ check_align vt i ++ concat (map check_operand (in_ops i))) +++
  if opc_eqb (in_op i) IR_CALL then check_call i else Some [].

(** ** A function *)
Definition verify_inst (bid pos : Z) (i : IrInst) : option (list Z) :=
  if is_reserved (in_op i) then Some [10]
  else
    check_uses (in_ops i) bid pos +++ check_uses (concat (map e_args (in_edges i))) bid pos +++
    each check_edge (in_edges i) +++ check_types i +++ check_inst_misc i.
Fixpoint verify_insts (bid pos : Z) (ins : list IrInst) : option (list Z) :=
  match ins with
  | [] => Some []
  | i :: ins => verify_inst bid pos i +++ verify_insts bid (pos + 1) ins
  end.
(** Check 3. *)
Fixpoint early_terminators (ins : list IrInst) : list Z :=
  match ins with
  | [] => []
  | i :: ins => err 3 (is_terminator (in_op i) && match ins with [] => false | _ => true end) ++ early_terminators ins
  end.
Definition nterm (ins : list IrInst) : nat := List.length (List.filter (fun i => is_terminator (in_op i)) ins).
Definition verify_block (bi : nat) (blk : IrBlock) : option (list Z) :=
  let bid := Z.of_nat bi + 1 in
  reach ← (if (bi =? 0)%nat then Some true else ir_dominates t 1 bid);
  if negb reach then Some [6]
  else match b_insts blk with
       | [] => Some [3]
       | ins => Some (early_terminators ins ++ err 3 (negb (nterm ins =? 1)%nat)) +++ verify_insts bid 0 ins
       end.
Fixpoint verify_blocks (bi : nat) (bs : list IrBlock) : option (list Z) :=
  match bs with
  | [] => Some []
  | b :: bs => verify_block bi b +++ verify_blocks (S bi) bs
  end.

(** The parameters' annotations. *)
Definition check_param_abi (k : nat) (ty : IrType) : list Z :=
  let annot := annot_at (a_param_annots a) k in
  let stack_align := ir_abi_stack_align annot in let aligned := negb (stack_align =? 0) in
  let byval_stack := (ir_arg_kind annot =? IR_ARG_BYVAL) && ty_eqb ty IRT_PTR in
  let leaf_stack := ir_param_is_onstack annot && (ty_eqb ty IRT_I64 || ty_eqb ty IRT_F64) in
  err 4 (ir_param_is_restrict annot && negb (ty_eqb ty IRT_PTR)) ++
  err 4 (ir_abi_even_gpr annot && negb (ty_eqb ty IRT_I64)) ++
  err 4 (ir_abi_even_gpr annot && ir_param_is_onstack annot) ++
  err 4 (aligned && negb (is_pow2_16 stack_align)) ++
  err 4 (aligned && negb byval_stack && negb leaf_stack) ++
  err 4 (aligned && ir_abi_even_gpr annot) ++
  err 4 (aligned && leaf_stack &&
         ((List.length (a_param_types a) <=? S k)%nat || negb (ir_param_is_onstack (annot_at (a_param_annots a) (S k))))).
Definition check_params : list Z := concat (imap check_param_abi (a_param_types a)).
Definition check_abi_ret : list Z :=
  err 4 (negb (a_abi_ret a =? IR_ABIRET_NONE) &&
         ((List.length (a_param_types a) =? 0)%nat || negb (ty_eqb (default IRT_I8 (a_param_types a !! 0%nat)) IRT_PTR) ||
          negb (ty_eqb (f_ret f) IRT_VOID))).
(** Check 5. *)
Definition check_entry : list Z :=
  match f_blocks f with [] => [] | b :: _ => err 5 (negb (List.length (b_params b) =? 0)%nat) end ++
  concat (map (fun b => concat (map (fun i => concat (map (fun e => err 5 (e_target e =? 1)) (in_edges i))) (b_insts b))) (f_blocks f)).
End func.

Definition verify_func (m : IrModule) (f : IrFunc) (a : FuncAttrs) : option (list Z) :=
  t ← ir_domtree_build f;
  match f_blocks f with
  | [] => Some [3]
  | bs => both (Some (check_params a ++ check_abi_ret f a ++ check_entry f)) (verify_blocks m f t 0 bs)
  end.

(** ** Check 11: the setjmp mark *)
Definition ir_sym_name_is_exact_asm (name : string) : bool :=
  match name with String c _ => Ascii.eqb c "!"%char | EmptyString => false end.
Definition ir_sym_asm_spelling (name : string) : string :=
  if ir_sym_name_is_exact_asm name then match name with String _ rest => rest | EmptyString => name end else name.
Definition ir_name_is_returns_twice (name : string) : bool :=
  existsb (String.eqb (ir_sym_asm_spelling name)) ["setjmp"; "_setjmp"; "sigsetjmp"; "__sigsetjmp"]%string.
Definition calls_returns_twice (m : IrModule) (i : IrInst) : bool :=
  opc_eqb (in_op i) IR_CALL &&
  ((in_subop i =? FUNCREF_EXTERNAL) &&
   match m_syms m !! Z.to_nat (in_aux i) with
   | Some name =>
     ir_name_is_returns_twice name ||
     match m_sym_attrs m with Some l => default false (l !! Z.to_nat (in_aux i)) | None => false end
   | None => false
   end ||
   (in_subop i =? FUNCREF_INTERNAL) &&
   match m_funcs m !! Z.to_nat (in_aux i) with
   | Some (_, ca) => ir_name_is_returns_twice (a_name ca) || a_returns_twice ca
   | None => false
   end).
Definition check_setjmp_flag (m : IrModule) (f : IrFunc) (a : FuncAttrs) : list Z :=
  let found := existsb (fun b => existsb (calls_returns_twice m) (b_insts b)) (f_blocks f) in
  err 11 (negb (Bool.eqb found (a_calls_setjmp a))).

(** ** A module *)
Definition check_reloc (m : IrModule) (g : IrGlobal) (r : IrReloc) : list Z :=
  err 9 (m_nsyms m <=? rl_symbol r) ++ err 9 ((gl_size g <? rl_offset r) || (gl_size g - rl_offset r <? 8)).
Definition check_global (m : IrModule) (g : IrGlobal) : list Z :=
  err 8 (negb (pow2_nonzero (gl_align g))) ++ concat (map (check_reloc m g) (gl_relocs g)).
Definition verify_funcs (m : IrModule) (fs : list (IrFunc * FuncAttrs)) : option (list Z) :=
  each (fun fa => both (verify_func m fa.1 fa.2) (Some (check_setjmp_flag m fa.1 fa.2))) fs.
Definition ir_verify_report (m : IrModule) : option (list Z) :=
  both (Some (concat (map (check_global m) (m_globals m)))) (verify_funcs m (m_funcs m)).
Definition ir_verify (m : IrModule) : option bool :=
  es ← ir_verify_report m; Some match es with [] => true | _ => false end.

(** ** Volatile accesses *)
Definition ir_count_volatile_ops (f : IrFunc) : Z :=
  Z.of_nat (List.length (concat (map (fun b => List.filter (fun i => flag i IRF_VOLATILE) (b_insts b)) (f_blocks f)))).
Definition ir_snapshot_volatile (m : IrModule) : list Z := map (fun fa => ir_count_volatile_ops fa.1) (m_funcs m).
(** The index of the first function whose count changed. *)
Fixpoint volatile_mismatch (fs : list (IrFunc * FuncAttrs)) (before : list Z) (k : nat) : option nat :=
  match fs with
  | [] => None
  | (f, _) :: fs =>
    if negb (ir_count_volatile_ops f =? default 0 (before !! k)) then Some k else volatile_mismatch fs before (S k)
  end.
Definition ir_volatile_counts_match (m : IrModule) (before : list Z) : bool :=
  match volatile_mismatch (m_funcs m) before 0 with None => true | Some _ => false end.
