(* ===== verification/VerifySpec.v ===== *)
(** What the verifier asks of one instruction, said without its code: the typing
    rules of the opcodes as an inductive judgement, and the rules on flags,
    alignments, operands and calls. Each check reports nothing exactly when its
    rule holds, and returns when the instruction carries the operands its opcode
    has. *)
From S2P Require Import Prelude.
From S2P Require Import Ir.
From S2P Require Import IrSem.
From S2P Require Import Dce.
From S2P Require Import Verify.
#[local] Open Scope Z_scope.

(** ** Typing *)
(** The operands have these types, or start with operands that do. *)
Definition exactly (i : IrInst) (ts : list IrType) : Prop := map o_type (in_ops i) = ts.
Definition starts (i : IrInst) (ts : list IrType) : Prop := exists rest, map o_type (in_ops i) = ts ++ rest.
Definition effective (i : IrInst) : Prop := in_subop i < 13.
Definition int_width_lt (t u : IrType) : Prop :=
  type_is_int t = true /\ type_is_int u = true /\ verify_int_width t < verify_int_width u.
Definition float_lt (t u : IrType) : Prop :=
  type_is_float t = true /\ type_is_float u = true /\ type_ord t < type_ord u.
(** The opcodes without a rule of their own. *)
Definition untyped : list IrOp := [IR_CALL; IR_ASM; IR_BR; IR_UNREACHABLE; IR_VA_ARG; IR_VA_END; IR_VA_COPY].

Inductive typed_inst (ret : IrType) (variadic : bool) (i : IrInst) : Prop :=
| ty_int_binop : is_int_binop (in_op i) = true -> type_is_int (in_type i) = true ->
    starts i [in_type i; in_type i] -> typed_inst ret variadic i
| ty_vector_binop : in_op i ∈ [IR_IADD; IR_ISUB; IR_AND; IR_OR; IR_XOR] \/ in_op i = IR_IMUL /\ in_type i = IRT_V8I16 ->
    ir_type_is_vector_int (in_type i) = true -> starts i [in_type i; in_type i] -> typed_inst ret variadic i
| ty_float_binop : in_op i ∈ [IR_FADD; IR_FSUB; IR_FMUL; IR_FDIV] ->
    type_is_float (in_type i) = true \/ ir_type_is_vector_float (in_type i) = true ->
    starts i [in_type i; in_type i] -> typed_inst ret variadic i
| ty_float_unop : in_op i ∈ [IR_FNEG; IR_FABS] -> type_is_float (in_type i) = true ->
    exactly i [in_type i] -> typed_inst ret variadic i
| ty_splat : in_op i = IR_VSPLAT -> ir_type_is_vector (in_type i) = true ->
    exactly i [ir_vector_elem_type (in_type i)] -> typed_inst ret variadic i
| ty_extract v : in_op i = IR_VEXTRACT -> ir_type_is_vector v = true -> exactly i [v] ->
    in_type i = ir_vector_elem_type v -> in_subop i < ir_vector_lanes v -> typed_inst ret variadic i
| ty_reduce v : in_op i ∈ [IR_VREDUCE_ADD; IR_VREDUCE_MUL; IR_VREDUCE_AND; IR_VREDUCE_OR; IR_VREDUCE_XOR] ->
    (ir_type_is_vector_int v = true /\ (in_op i = IR_VREDUCE_MUL -> v = IRT_V8I16) \/
     ir_type_is_vector_float v = true /\ (in_op i = IR_VREDUCE_ADD \/ in_op i = IR_VREDUCE_MUL)) ->
    exactly i [v] -> in_type i = ir_vector_elem_type v -> typed_inst ret variadic i
| ty_icmp u : in_op i = IR_ICMP -> in_type i = IRT_I32 -> starts i [u; u] -> type_is_int u = true \/ u = IRT_PTR ->
    in_subop i <= icmp_code ICMP_UGE -> typed_inst ret variadic i
| ty_fcmp u : in_op i = IR_FCMP -> in_type i = IRT_I32 -> starts i [u; u] -> type_is_float u = true ->
    in_subop i <= 13 -> typed_inst ret variadic i
| ty_widen u : in_op i ∈ [IR_SEXT; IR_ZEXT] -> starts i [u] -> int_width_lt u (in_type i) -> typed_inst ret variadic i
| ty_narrow u : in_op i = IR_TRUNC -> starts i [u] -> int_width_lt (in_type i) u -> typed_inst ret variadic i
| ty_fpext u : in_op i = IR_FPEXT -> starts i [u] -> float_lt u (in_type i) -> typed_inst ret variadic i
| ty_fptrunc u : in_op i = IR_FPTRUNC -> starts i [u] -> float_lt (in_type i) u -> typed_inst ret variadic i
| ty_fp_to_int u : in_op i ∈ [IR_FPTOSI; IR_FPTOUI] -> starts i [u] -> type_is_float u = true ->
    type_is_int (in_type i) = true -> typed_inst ret variadic i
| ty_int_to_fp u : in_op i ∈ [IR_SITOFP; IR_UITOFP] -> starts i [u] -> type_is_int u = true ->
    type_is_float (in_type i) = true -> typed_inst ret variadic i
| ty_bitcast u : in_op i = IR_BITCAST -> starts i [u] ->
    (u, in_type i) ∈ [(IRT_I32, IRT_F32); (IRT_I64, IRT_F64); (IRT_F32, IRT_I32); (IRT_F64, IRT_I64);
                      (IRT_I64, IRT_PTR); (IRT_PTR, IRT_I64)] -> typed_inst ret variadic i
| ty_alloca : in_op i = IR_ALLOCA -> effective i -> in_type i = IRT_PTR -> starts i [IRT_I64] -> typed_inst ret variadic i
| ty_load : in_op i = IR_LOAD -> effective i -> in_type i <> IRT_VOID -> starts i [IRT_PTR] -> typed_inst ret variadic i
| ty_store u : in_op i = IR_STORE -> effective i -> starts i [u; IRT_PTR] -> typed_inst ret variadic i
| ty_ptradd : in_op i = IR_PTRADD -> in_type i = IRT_PTR -> starts i [IRT_PTR; IRT_I64] -> typed_inst ret variadic i
| ty_memcpy : in_op i = IR_MEMCPY -> in_subop i = 1 -> starts i [IRT_PTR; IRT_PTR; IRT_I64] -> typed_inst ret variadic i
| ty_memset : in_op i = IR_MEMSET -> in_subop i = 1 -> starts i [IRT_PTR; IRT_I32; IRT_I64] -> typed_inst ret variadic i
| ty_select : in_op i = IR_SELECT -> ir_type_is_vector (in_type i) = false ->
    starts i [IRT_I32; in_type i; in_type i] -> typed_inst ret variadic i
| ty_va_start : in_op i = IR_VA_START -> variadic = true -> exactly i [IRT_PTR] -> typed_inst ret variadic i
| ty_stacksave : in_op i = IR_STACKSAVE -> in_type i = IRT_PTR -> exactly i [] -> typed_inst ret variadic i
| ty_stackrestore o : in_op i = IR_STACKRESTORE -> in_ops i = [o] -> o_type o = IRT_PTR -> o_kind o <> IROP_UNDEF ->
    typed_inst ret variadic i
| ty_atomicrmw : in_op i = IR_ATOMICRMW -> type_is_int (in_type i) = true -> exactly i [IRT_PTR; in_type i] ->
    in_subop i <= 5 -> flag i IRF_SEQ_CST = true -> typed_inst ret variadic i
| ty_cmpxchg : in_op i = IR_CMPXCHG -> type_is_int (in_type i) = true -> exactly i [IRT_PTR; in_type i; in_type i] ->
    flag i IRF_SEQ_CST = true -> typed_inst ret variadic i
| ty_ret : in_op i = IR_RET -> exactly i (if ty_eqb ret IRT_VOID then [] else [ret]) -> typed_inst ret variadic i
| ty_condbr : in_op i = IR_CONDBR -> starts i [IRT_I32] -> typed_inst ret variadic i
| ty_switch u : in_op i = IR_SWITCH -> starts i [u] -> type_is_int u = true -> typed_inst ret variadic i
| ty_other : in_op i ∈ untyped -> typed_inst ret variadic i.

(** How many operands the check of an opcode reads whatever their number. *)
Definition reads_operands (o : IrOp) : nat :=
  match o with
  | IR_MEMCPY | IR_MEMSET | IR_SELECT => 3
  | IR_ICMP | IR_FCMP | IR_STORE | IR_PTRADD | IR_FADD | IR_FSUB | IR_FMUL | IR_FDIV => 2
  | IR_SEXT | IR_ZEXT | IR_TRUNC | IR_FPEXT | IR_FPTRUNC | IR_FPTOSI | IR_FPTOUI | IR_SITOFP | IR_UITOFP | IR_BITCAST
  | IR_VEXTRACT | IR_VREDUCE_ADD | IR_VREDUCE_MUL | IR_VREDUCE_AND | IR_VREDUCE_OR | IR_VREDUCE_XOR
  | IR_ALLOCA | IR_LOAD | IR_CONDBR | IR_SWITCH => 1
  | o => if is_int_binop o then 2 else 0
  end%nat.
Definition complete_inst (i : IrInst) : Prop := (reads_operands (in_op i) <= length (in_ops i))%nat.

(** ** Reading the operands *)
Lemma and_then_true a b : and_then a b = Some true <-> a = Some true /\ b = Some true.
Proof. destruct a as [[]|]; cbn; naive_solver. Qed.
Lemma op_type_map i n : op_type i n = map o_type (in_ops i) !! n.
Proof. unfold op_type. by rewrite <- list_lookup_fmap. Qed.
Lemma nops_map i : in_nops i = Z.of_nat (length (map o_type (in_ops i))).
Proof. unfold in_nops. by rewrite length_map. Qed.
Lemma ops_are_true i n t : ops_are i n t = Some true <-> op_type i n = Some t.
Proof.
  unfold ops_are. destruct (op_type i n) as [u|]; cbn; [|done]. unfold ty_eqb. split; [by intros [= ->%bool_decide_eq_true]|].
  intros [= ->]. by rewrite bool_decide_eq_true_2.
Qed.
Lemma starts_1 i a : starts i [a] <-> op_type i 0 = Some a.
Proof. rewrite op_type_map. unfold starts. destruct (map o_type (in_ops i)) as [|x l]; cbn; naive_solver. Qed.
Lemma starts_2 i a b : starts i [a; b] <-> op_type i 0 = Some a /\ op_type i 1 = Some b.
Proof. rewrite !op_type_map. unfold starts. destruct (map o_type (in_ops i)) as [|x [|y l]]; cbn; naive_solver. Qed.
Lemma starts_3 i a b c : starts i [a; b; c] <-> op_type i 0 = Some a /\ op_type i 1 = Some b /\ op_type i 2 = Some c.
Proof. rewrite !op_type_map. unfold starts. destruct (map o_type (in_ops i)) as [|x [|y [|z l]]]; cbn; naive_solver. Qed.
Lemma exactly_starts i ts : exactly i ts <-> in_nops i = Z.of_nat (length ts) /\ starts i ts.
Proof.
  rewrite nops_map. unfold exactly, starts. split; [intros ->; split; [done|]; exists []; by rewrite app_nil_r|].
  intros [L [rest E]]. rewrite E, length_app in L. destruct rest; [by rewrite app_nil_r in E|cbn in L; lia].
Qed.
Lemma starts_0 i : starts i [].
Proof. by eexists. Qed.
Lemma op_type_default i n t : op_type i n = Some t -> o_type (op_at i n) = t.
Proof. unfold op_type, op_at. destruct (in_ops i !! n); cbn; congruence. Qed.
Lemma one_of_elem o os : Verify.is_one_of o os = true <-> o ∈ os.
Proof.
  unfold Verify.is_one_of. rewrite existsb_exists, list_elem_of_In. unfold opc_eqb. split.
  - by intros (x & Hx & ->%bool_decide_eq_true).
  - intros H. exists o. by rewrite bool_decide_eq_true_2.
Qed.

Ltac in_list := solve [repeat constructor].
(** What a check that returned [true] has found. *)
Ltac found :=
  repeat match goal with
  | H : and_then _ _ = Some true |- _ => apply and_then_true in H as [? ?]
  | H : Some _ = Some true |- _ => injection H as H
  | H : Some _ = Some _ |- _ => injection H as <-
  | H : ops_are _ _ _ = Some true |- _ => apply ops_are_true in H
  | H : mbind _ _ = Some true |- _ => apply bind_Some in H as (? & ? & H)
  | H : ty_eqb _ _ = true |- _ => apply bool_decide_eq_true in H
  | H : is_kind _ _ = false |- _ => apply bool_decide_eq_false in H
  | H : ty_eqb _ _ = false |- _ => apply bool_decide_eq_false in H
  | H : negb _ = true |- _ => apply negb_true_iff in H
  | H : _ && _ = true |- _ => apply andb_true_iff in H as [? ?]
  | H : (_ =? _) = true |- _ => apply Z.eqb_eq in H
  | H : (_ <=? _) = true |- _ => apply Z.leb_le in H
  | H : (_ <? _) = true |- _ => apply Z.ltb_lt in H
  | H : op_type _ ?n = Some ?a, H' : op_type _ ?n = Some ?b |- _ =>
    let E := fresh in assert (E : b = a) by congruence; clear H'; try subst b; try subst a
  end.


Section types.
  Context (f : IrFunc) (i : IrInst).
  #[local] Notation "'rule'" := (typed_inst (f_ret f) (f_variadic f) i).

Lemma binop_typed w : check_binop_types i w = Some true <->
  starts i [in_type i; in_type i] /\
  (if ir_type_is_vector (in_type i)
   then if w then ir_type_is_vector_float (in_type i) = true /\ in_op i ∈ [IR_FADD; IR_FSUB; IR_FMUL; IR_FDIV]
        else ir_type_is_vector_int (in_type i) = true /\
             (in_op i ∈ [IR_IADD; IR_ISUB; IR_AND; IR_OR; IR_XOR] \/ in_op i = IR_IMUL /\ in_type i = IRT_V8I16)
   else (if w then type_is_float (in_type i) else type_is_int (in_type i)) = true).
Proof.
  unfold check_binop_types. rewrite starts_2. destruct (ir_type_is_vector (in_type i)).
  - rewrite !and_then_true, !ops_are_true. destruct w.
    + split; [intros (H%(inj Some) & ?)|intros (? & ? & ?)].
      * apply andb_true_iff in H as [E1 E2]. apply one_of_elem in E2. done.
      * split; [|done]. f_equal. apply andb_true_iff. split; [done|]. by apply one_of_elem.
    + split; [intros (H%(inj Some) & ?)|intros (? & ? & H)].
      * apply andb_true_iff in H as [E1 [E2|E2]%orb_true_iff]; (split; [done|]; split; [done|]).
        -- left. by apply one_of_elem in E2.
        -- right. apply andb_true_iff in E2 as [?%bool_decide_eq_true ?%bool_decide_eq_true]. done.
      * split; [|done]. f_equal. apply andb_true_iff. split; [done|]. apply orb_true_iff. destruct H as [H|[-> ->]]; [left; by apply one_of_elem|by right].
  - assert (R : (_ ← op_type i 0; _ ← op_type i 1; and_then (ops_are i 0 (in_type i)) (ops_are i 1 (in_type i))) = Some true <->
      op_type i 0 = Some (in_type i) /\ op_type i 1 = Some (in_type i)).
    { rewrite <- !ops_are_true, <- and_then_true. unfold ops_are. destruct (op_type i 0), (op_type i 1); cbn; try done. by destruct (ty_eqb _ _). }
    rewrite and_then_true, R. destruct w; (split; [intros (H%(inj Some) & ?); by split|intros (? & ?); split; [by f_equal|done]]).
Qed.

Lemma binop_rule w : check_binop_types i w = Some true ->
  (if w then in_op i ∈ [IR_FADD; IR_FSUB; IR_FMUL; IR_FDIV] else is_int_binop (in_op i) = true) -> rule.
Proof.
  intros [S H]%binop_typed O. destruct w, (ir_type_is_vector (in_type i)).
  - apply ty_float_binop; tauto.
  - apply ty_float_binop; tauto.
  - apply ty_vector_binop; tauto.
  - by apply ty_int_binop.
Qed.

Lemma check_types_sound : check_inst_types f i = Some true -> rule.
Proof.
  unfold check_inst_types. destruct (Verify.is_one_of _ _ && _) eqn:Eff; [done|].
  assert (Ef : in_op i ∈ [IR_ALLOCA; IR_LOAD; IR_STORE; IR_MEMCPY; IR_MEMSET] -> effective i).
  { intros M%one_of_elem. rewrite M in Eff. cbn [andb] in Eff. by apply Z.leb_gt in Eff. }
  clear Eff. cbv zeta. intros H. destruct (in_op i) eqn:Op.
  all: try (first [apply (binop_rule false H)|apply (binop_rule true H)]; rewrite Op; solve [done|in_list]).
  all: try (apply ty_other; rewrite Op; in_list).
  all: found; subst.
  all: try match goal with _ : in_op i = ?o |- _ =>
    lazymatch o with
    | IR_ICMP => eapply ty_icmp | IR_FCMP => eapply ty_fcmp | IR_FNEG => eapply ty_float_unop | IR_FABS => eapply ty_float_unop
    | IR_SEXT => eapply ty_widen | IR_ZEXT => eapply ty_widen | IR_TRUNC => eapply ty_narrow
    | IR_FPEXT => eapply ty_fpext | IR_FPTRUNC => eapply ty_fptrunc | IR_FPTOSI => eapply ty_fp_to_int | IR_FPTOUI => eapply ty_fp_to_int
    | IR_SITOFP => eapply ty_int_to_fp | IR_UITOFP => eapply ty_int_to_fp | IR_BITCAST => eapply ty_bitcast
    | IR_ALLOCA => eapply ty_alloca | IR_LOAD => eapply ty_load | IR_PTRADD => eapply ty_ptradd
    | IR_MEMCPY => eapply ty_memcpy | IR_MEMSET => eapply ty_memset | IR_SELECT => eapply ty_select
    | IR_VSPLAT => eapply ty_splat | IR_VEXTRACT => eapply ty_extract | IR_VA_START => eapply ty_va_start
    | IR_VREDUCE_ADD => eapply ty_reduce | IR_VREDUCE_MUL => eapply ty_reduce | IR_VREDUCE_AND => eapply ty_reduce
    | IR_VREDUCE_OR => eapply ty_reduce | IR_VREDUCE_XOR => eapply ty_reduce
    | IR_STACKSAVE => eapply ty_stacksave | IR_ATOMICRMW => eapply ty_atomicrmw
    | IR_CMPXCHG => eapply ty_cmpxchg | IR_CONDBR => eapply ty_condbr | IR_SWITCH => eapply ty_switch
    end end.
  all: rewrite ?exactly_starts, ?starts_1, ?starts_2, ?starts_3.
  all: try (rewrite Op; in_list); try (apply Ef; in_list); eauto using starts_0.
  - destruct (orb_prop _ _ H1) as [?|?%bool_decide_eq_true]; [by left|by right].
  - by split.
  - by split.
  - by split.
  - by split.
  - by split.
  - destruct x, (in_type i); done || in_list.
  - destruct (in_ops i) as [|x0 l] eqn:Eo; [by unfold op_type in H; rewrite Eo in H|].
    eapply ty_store; [done|apply Ef; in_list|]. apply starts_2. unfold op_type in *. by rewrite Eo in *.
  - destruct (orb_prop _ _ H2); [left|right]; split; eauto. by rewrite Op.
  - destruct (orb_prop _ _ H2) as [?|E%bool_decide_eq_true]; [right|left; rewrite E]; split; eauto.
  - left. split; [done|]. by rewrite Op.
  - left. split; [done|]. by rewrite Op.
  - left. split; [done|]. by rewrite Op.
  - destruct (in_ops i) as [|o l] eqn:Eo; [done|]. unfold in_nops in H. rewrite Eo in H. destruct l; [|cbn in H; lia].
    injection H2 as <-. unfold op_type in H1. rewrite Eo in H1. injection H1 as H1. by eapply ty_stackrestore.
  - apply ty_ret; [done|]. destruct (ty_eqb (f_ret f) IRT_VOID); found; apply exactly_starts; [by split; [|apply starts_0]|].
    by rewrite starts_1.
Qed.

(** The other way round. *)
Lemma ty_eqb_refl t : ty_eqb t t = true.
Proof. by apply bool_decide_eq_true. Qed.
Ltac confirm :=
  repeat match goal with
  | |- and_then _ _ = Some true => apply and_then_true; split
  | |- ops_are _ _ _ = Some true => by apply ops_are_true
  | H : ?x = Some _ |- mbind _ ?x = Some true => rewrite H; cbn [mbind option_bind]
  | |- Some _ = Some true => f_equal
  | |- (_ =? _) = true => by apply Z.eqb_eq
  | |- (_ <=? _) = true => by apply Z.leb_le
  | |- (_ <? _) = true => by apply Z.ltb_lt
  | |- negb _ = true => apply negb_true_iff
  | |- ty_eqb ?t ?t = true => apply ty_eqb_refl
  | |- ty_eqb _ _ = true => by apply bool_decide_eq_true
  | |- ty_eqb _ _ = false => by apply bool_decide_eq_false
  | |- is_kind _ _ = false => by apply bool_decide_eq_false
  end.
Ltac one_of_cases :=
  repeat match goal with
  | H : _ ∈ _ :: _ |- _ => apply elem_of_cons in H as [H|H]
  | H : _ ∈ [] |- _ => by apply elem_of_nil in H
  end.

(** The binary operations. *)
Lemma binop_dispatch (w : bool) : (if w then in_op i ∈ [IR_FADD; IR_FSUB; IR_FMUL; IR_FDIV] else is_int_binop (in_op i) = true) ->
  check_inst_types f i = check_binop_types i w.
Proof. unfold check_inst_types. destruct w; [intros H; one_of_cases; by rewrite H|]. by destruct (in_op i). Qed.
Lemma type_not_vector t : type_is_int t = true \/ type_is_float t = true -> ir_type_is_vector t = false.
Proof. intros [H|H]; by destruct t. Qed.
Lemma check_binop_complete w : check_inst_types f i = check_binop_types i w -> check_binop_types i w = Some true -> check_inst_types f i = Some true.
Proof. congruence. Qed.
(** The size log of a memory operation. *)
Lemma effective_guard : (in_op i ∈ [IR_ALLOCA; IR_LOAD; IR_STORE; IR_MEMCPY; IR_MEMSET] -> effective i) ->
  Verify.is_one_of (in_op i) [IR_ALLOCA; IR_LOAD; IR_STORE; IR_MEMCPY; IR_MEMSET] && (13 <=? in_subop i) = false.
Proof. intros E. apply not_true_iff_false. intros [H%one_of_elem%E L%Z.leb_le]%andb_true_iff. unfold effective in H. lia. Qed.
Ltac premises :=
  repeat match goal with
  | H : exactly _ _ |- _ => apply exactly_starts in H as [? H]
  | H : starts _ [_] |- _ => apply starts_1 in H
  | H : starts _ [_; _] |- _ => apply starts_2 in H as [? ?]
  | H : starts _ [_; _; _] |- _ => apply starts_3 in H as (? & ? & ?)
  | H : int_width_lt _ _ |- _ => destruct H as (? & ? & ?)
  | H : float_lt _ _ |- _ => destruct H as (? & ? & ?)
  end.

Lemma check_types_complete : rule -> check_inst_types f i = Some true.
Proof.
  intros T. destruct T as [O I S|O I S|O I S| | | | | | | | | | | | | | | | | | | | | | | | | | | | |].
  1: { rewrite (binop_dispatch false) by done. apply binop_typed. rewrite type_not_vector by auto. done. }
  1: { rewrite (binop_dispatch false).
       - apply binop_typed. split; [done|]. by destruct (in_type i).
       - destruct O as [O|[-> _]]; [|done]. one_of_cases; by rewrite O. }
  1: { rewrite (binop_dispatch true) by done. apply binop_typed. split; [done|]. destruct I as [I|I].
       - by rewrite type_not_vector by auto.
       - by destruct (in_type i). }
  all: unfold check_inst_types; rewrite effective_guard by (try done; intros; unfold effective, untyped in *; one_of_cases; first [congruence|lia]).
  all: cbv zeta; unfold untyped in *; premises; one_of_cases.
  all: try match goal with H : in_op i = _ |- _ => rewrite H end.
  all: try solve [confirm; done].
  all: try match goal with H : (_, _) = (_, _) |- _ => injection H as -> E; rewrite E; confirm end.
  - confirm. destruct H0 as [[-> _]|[-> _]]; [done|apply orb_true_r].
  - confirm. destruct H0 as [[_ E]|[-> _]]; [by rewrite (E H)|done].
  - confirm. destruct H0 as [[-> _]|[_ [?|?]]]; congruence.
  - confirm. destruct H0 as [[-> _]|[_ [?|?]]]; congruence.
  - confirm. destruct H0 as [[-> _]|[_ [?|?]]]; congruence.
  - confirm. match goal with H : _ \/ _ |- _ => destruct H as [-> | ->] end; [done|apply orb_true_r].
  - unfold in_nops, ops_are, op_type. rewrite H0. cbn. rewrite H1, ty_eqb_refl. change (Z.of_nat 1 =? 1) with true. cbn. confirm; done.
  - destruct (ty_eqb (f_ret f) IRT_VOID); premises; confirm.
Qed.

Lemma check_types_typed : check_inst_types f i = Some true <-> rule.
Proof. split; [apply check_types_sound|apply check_types_complete]. Qed.

(** With the operands its opcode has, the check of an instruction returns. *)
Lemma and_then_answers a b : is_Some a -> (a = Some true -> is_Some b) -> is_Some (and_then a b).
Proof. intros [[] ->] H; cbn; [by apply H|by eexists]. Qed.
Lemma op_type_answers n : Z.of_nat n < in_nops i -> is_Some (op_type i n).
Proof. intros L. rewrite op_type_map. apply lookup_lt_is_Some_2. rewrite nops_map in L. lia. Qed.
Lemma ops_are_answers n t : Z.of_nat n < in_nops i -> is_Some (ops_are i n t).
Proof. intros L%op_type_answers. unfold ops_are. destruct L as [u ->]. by eexists. Qed.
Lemma read_answers {A} n (g : IrType -> option A) : Z.of_nat n < in_nops i -> (forall u, is_Some (g u)) -> is_Some (op_type i n ≫= g).
Proof. intros L%op_type_answers G. destruct L as [u ->]. apply G. Qed.
Lemma check_binop_answers w : 2 <= in_nops i -> is_Some (check_binop_types i w).
Proof.
  intros L. unfold check_binop_types. destruct (ir_type_is_vector _);
    (apply and_then_answers; [by eexists|intros _]; repeat (apply read_answers; [lia|intros ?]);
     apply and_then_answers; [|intros _]; apply ops_are_answers; lia).
Qed.
Lemma check_types_answers : complete_inst i -> is_Some (check_inst_types f i).
Proof.
  unfold complete_inst, check_inst_types. intros L. destruct (Verify.is_one_of _ _ && _); [by eexists|].
  assert (Ln : Z.of_nat (reads_operands (in_op i)) <= in_nops i) by (unfold in_nops; lia). clear L.
  cbv zeta. destruct (in_op i); cbn in Ln; try (by eexists); try (apply check_binop_answers; lia).
  all: repeat first [apply and_then_answers; [|intros ?]|by eexists|apply ops_are_answers; found; lia|
    apply read_answers; [found; lia|intros u]|match goal with |- context [ty_eqb (f_ret f) ?v] => destruct (ty_eqb (f_ret f) v) end].
  found. destruct (in_ops i) as [|o l] eqn:E; [unfold in_nops in *; rewrite E in *; done|by eexists].
Qed.

(** The boolean judgement of [Ir], which reads an absent operand as one of no
    value, holds of what is accepted. *)
Definition implies (r : option bool) (b : bool) : Prop := r = Some true -> b = true.
Lemma implies_and a b a' b' : implies a a' -> implies b b' -> implies (and_then a b) (a' && b').
Proof. unfold implies. rewrite and_then_true, andb_true_iff. tauto. Qed.
Lemma implies_some b : implies (Some b) b.
Proof. unfold implies. congruence. Qed.
Lemma implies_read n r b : (forall u, op_type i n = Some u -> implies (r u) b) -> implies (op_type i n ≫= r) b.
Proof. intros H E. apply bind_Some in E as (u & O & E). by apply (H u). Qed.
Lemma implies_ops n t : implies (ops_are i n t) (ty_eqb (o_type (op_at i n)) t).
Proof. apply implies_read. intros u O. rewrite (op_type_default _ _ _ O). apply implies_some. Qed.
Lemma seq_cst_bit : implies (Some (flag i IRF_SEQ_CST)) (Z.testbit (in_flags i) 1).
Proof.
  unfold implies, flag. intros [= H%negb_true_iff%Z.eqb_neq]. apply not_false_iff_true. intros E. apply H.
  apply Z.bits_inj'. intros n Hn. rewrite Z.land_spec, Z.bits_0.
  destruct (Z.eq_dec n 1) as [->|N]; [by rewrite E|]. apply andb_false_intro2. by apply (Z.pow2_bits_false 1).
Qed.
Lemma check_binop_ok w : check_binop_types i w = Some true -> binop_types_ok i w = true.
Proof.
  intros [S H]%binop_typed. apply starts_2 in S as [S1 S2]. unfold binop_types_ok. rewrite (op_type_default _ _ _ S1), (op_type_default _ _ _ S2), !ty_eqb_refl.
  destruct (ir_type_is_vector (in_type i)); [|by rewrite H; destruct w].
  destruct w.
  - destruct H as [-> O]. one_of_cases; by rewrite O.
  - destruct H as [-> [O|[O E]]]; [one_of_cases; by rewrite O|]. by rewrite O, E.
Qed.
Lemma check_types_ok : implies (check_inst_types f i) (inst_types_ok (f_ret f) (f_variadic f) i).
Proof.
  unfold check_inst_types, inst_types_ok. destruct (Verify.is_one_of _ _ && _) eqn:Eff; [by unfold implies|].
  match goal with |- context [(?m && (13 <=? in_subop i))] => replace (m && (13 <=? in_subop i)) with false end.
  2: { rewrite <- Eff. by destruct (in_op i). }
  cbv zeta. clear Eff. destruct (in_op i); try apply implies_some; try (unfold implies; apply check_binop_ok).
  all: repeat first [apply implies_and|apply implies_ops|apply seq_cst_bit|apply implies_some|
    match goal with |- implies (if ?b then _ else _) _ => destruct b end|
    apply implies_read; let u := fresh in let O := fresh in intros u O; rewrite (op_type_default _ _ _ O)].
  intros E. unfold op_at. apply bind_Some in E as (o & E & [= H]). by rewrite E.
Qed.
Lemma typed_inst_ok : rule -> inst_types_ok (f_ret f) (f_variadic f) i = true.
Proof. intros T. apply check_types_ok. by apply check_types_complete. Qed.
End types.

(** ** Reports *)
Lemma both_nil r1 r2 : both r1 r2 = Some [] <-> r1 = Some [] /\ r2 = Some [].
Proof.
  destruct r1 as [es1|], r2 as [es2|]; cbn; try naive_solver. split; [intros [= [-> ->]%app_nil]; done|by intros [[= ->] [= ->]]].
Qed.
Lemma both_answers r1 r2 : is_Some r1 -> is_Some r2 -> is_Some (both r1 r2).
Proof. intros [es1 ->] [es2 ->]. by eexists. Qed.
Lemma each_nil {A} (g : A -> option (list Z)) l : each g l = Some [] <-> Forall (fun x => g x = Some []) l.
Proof. induction l as [|x l IH]; cbn [each foldr]; [done|]. by rewrite both_nil, IH, Forall_cons_iff. Qed.
Lemma each_answers {A} (g : A -> option (list Z)) l : Forall (fun x => is_Some (g x)) l -> is_Some (each g l).
Proof. induction 1; cbn [each foldr]; [by eexists|by apply both_answers]. Qed.
Lemma err_nil c b : err c b = [] <-> b = false.
Proof. by destruct b. Qed.
Lemma concat_nil {A B} (g : A -> list B) l : concat (map g l) = [] <-> Forall (fun x => g x = []) l.
Proof.
  induction l as [|x l IH]; cbn [map concat]; [done|]. by rewrite app_nil, IH, Forall_cons_iff.
Qed.
(** A report on a condition, as what it asks for. *)
Lemma andb_false_impl b c : b && c = false <-> (b = true -> c = false).
Proof. destruct b; naive_solver. Qed.
Lemma opc_eqb_false o o' : opc_eqb o o' = false <-> o <> o'.
Proof. apply bool_decide_eq_false. Qed.
Lemma opc_eqb_true o o' : opc_eqb o o' = true <-> o = o'.
Proof. apply bool_decide_eq_true. Qed.
Lemma ty_eqb_false t u : ty_eqb t u = false <-> t <> u.
Proof. apply bool_decide_eq_false. Qed.
Lemma ty_eqb_true t u : ty_eqb t u = true <-> t = u.
Proof. apply bool_decide_eq_true. Qed.
Lemma is_kind_true k k' : is_kind k k' = true <-> k = k'.
Proof. apply bool_decide_eq_true. Qed.
Lemma is_kind_false k k' : is_kind k k' = false <-> k <> k'.
Proof. apply bool_decide_eq_false. Qed.
Create Rewrite HintDb reports.
#[local] Hint Rewrite (@app_nil Z) err_nil andb_false_impl andb_true_iff orb_true_iff orb_false_iff negb_true_iff negb_false_iff
  opc_eqb_false opc_eqb_true ty_eqb_false ty_eqb_true is_kind_true is_kind_false one_of_elem eqb_true_iff
  Z.eqb_eq Z.eqb_neq Z.leb_gt Z.leb_le Z.ltb_lt Z.ltb_ge Nat.leb_le Nat.leb_gt Nat.eqb_eq Nat.eqb_neq : reports.
Ltac reports := rewrite_strat (repeat (topdown (hints reports))).

(** ** Flags *)
Record flags_ok (vt : IrType) (i : IrInst) : Prop := {
  fl_volatile : flag i IRF_VOLATILE = true -> in_op i <> IR_CALL -> is_mem (in_op i) = true /\ in_op i <> IR_ALLOCA;
  fl_seq_cst : flag i IRF_SEQ_CST = true -> in_op i ∈ [IR_LOAD; IR_STORE; IR_ATOMICRMW; IR_CMPXCHG];
  fl_variadic : flag i IRF_CALL_VARIADIC = true -> in_op i = IR_CALL;
  fl_noreturn : flag i IRF_NORETURN = true -> in_op i = IR_CALL;
  fl_self_init : flag i IRF_SELF_INIT = true -> in_op i = IR_LOAD;
  fl_flow : flag i IRF_FLOW_PROVENANCE = true -> in_op i ∈ [IR_RET; IR_BR; IR_CONDBR; IR_SWITCH];
  fl_nsw : flag i IRF_NSW = true -> in_op i ∈ [IR_IADD; IR_ISUB; IR_IMUL] /\ ir_type_is_vector (in_type i) = false;
  fl_vector : in_op i ∈ [IR_LOAD; IR_STORE] -> ir_type_is_vector vt = true -> flag i (Z.lor IRF_VOLATILE IRF_SEQ_CST) = true ->
    vt = IRT_V2I64 /\ flag i IRF_SEQ_CST = true;
  fl_bounds : flag i IRF_BOUNDS_CHECK = true -> in_op i = IR_ICMP;
}.
Lemma check_flags_spec vt i : check_flags vt i = [] <-> flags_ok vt i.
Proof.
  unfold check_flags. replace (Z.lxor 255 _) with 0 by done. 
  reports. change (flag i 0) with (negb (Z.land (in_flags i) 0 =? 0)). rewrite Z.land_0_r. split.
  - intros (? & ? & ? & ? & ? & ? & N & NV & ? & ? & _). split; auto.
    intros E. split; [auto|]. apply not_true_iff_false. intros V%NV. congruence.
  - intros []. repeat (split; [tauto|]). split; [|tauto].
    intros V. apply not_true_iff_false. intros [_ E]%fl_nsw0. congruence.
Qed.

(** ** Alignment *)
Lemma land_pred_pow2 a : 0 < a -> Z.land a (a - 1) = 0 <-> exists k, 0 <= k /\ a = 2 ^ k.
Proof.
  intros P. split.
  - intros L. pose proof (Z.log2_spec a P) as [Lo Hi].
    pose proof (Z.log2_nonneg a). exists (Z.log2 a). split; [done|]. destruct (Z.eq_dec a (2 ^ Z.log2 a)) as [|Na]; [done|exfalso].
    apply (f_equal (fun x => Z.testbit x (Z.log2 a))) in L. rewrite Z.land_spec, Z.bits_0, Z.bit_log2 in L by lia.
    replace (Z.log2 a) with (Z.log2 (a - 1)) in L by (apply Z.log2_unique; lia). by rewrite Z.bit_log2 in L by lia.
  - intros (k & Hk & ->). replace (2 ^ k - 1) with (Z.ones k) by by rewrite Z.ones_equiv.
    rewrite Z.land_ones by done. apply Z.mod_same. lia.
Qed.
Lemma pow2_nonzero_spec a : is_u32 a -> pow2_nonzero a = true <-> exists k, 0 <= k /\ a = 2 ^ k.
Proof.
  unfold is_u32, pow2_nonzero. intros R. reports. split.
  - intros [N L]. unfold u32 in L. rewrite Z.mod_small in L by lia. apply land_pred_pow2; [lia|done].
  - intros H. assert (0 < a) by (destruct H as (k & Hk & ->); by apply pow2_pos). split; [lia|].
    unfold u32. rewrite Z.mod_small by lia. by apply land_pred_pow2.
Qed.
Lemma is_pow2_16_spec a : is_pow2_16 a = true <-> exists k, 4 <= k /\ a = 2 ^ k.
Proof.
  unfold is_pow2_16. reports. split.
  - intros [L H]. apply land_pred_pow2 in H as (k & Hk & ->); [|lia]. exists k. split; [|done].
    apply Z.nlt_ge. intros N. pose proof (pow2_le k 3 ltac:(lia)). change (2 ^ 3) with 8 in *. lia.
  - intros (k & Hk & ->). pose proof (pow2_le 4 k Hk). change (2 ^ 4) with 16 in *. split; [lia|].
    apply land_pred_pow2; [lia|]. exists k. split; [lia|done].
Qed.
(** An access is aligned to at most its type's natural alignment, an indivisible
    one to exactly that. *)
Definition align_ok (vt : IrType) (i : IrInst) : Prop := is_mem (in_op i) = true ->
  (exists k, 0 <= k /\ in_aux i = 2 ^ k) /\
  (in_op i ∈ [IR_LOAD; IR_STORE] ->
   in_aux i <= natural_align vt /\ (flag i IRF_SEQ_CST = true -> in_aux i = natural_align vt)).
Lemma check_align_spec vt i : is_u32 (in_aux i) -> check_align vt i = [] <-> align_ok vt i.
Proof.
  intros R. unfold check_align, align_ok. destruct (is_mem (in_op i)); cbn [negb]; [|done].
  destruct (pow2_nonzero (in_aux i)) eqn:P; cbn [negb].
  2: { split; [done|]. intros H. destruct (H eq_refl) as [H'%pow2_nonzero_spec _]; [congruence|done]. }
  apply pow2_nonzero_spec in P; [|done].
  destruct (Verify.is_one_of _ _) eqn:O.
  - apply one_of_elem in O. cbv zeta. destruct (flag i IRF_SEQ_CST); cbn [andb]; [destruct (Z.eqb_spec (in_aux i) (natural_align vt)); cbn [negb]|];
      try reports; naive_solver lia.
  - split; [|done]. intros _ _. split; [done|]. intros E%one_of_elem. congruence.
Qed.

(** ** Operands *)
(** A vector is never a constant, and a symbol is one of the module's. *)
Definition vector_ok (o : IrOperand) : Prop :=
  ir_type_is_vector (o_type o) = true -> o_kind o = IROP_VALUE \/ o_kind o = IROP_UNDEF.
Definition reference_ok (m : IrModule) (o : IrOperand) : Prop :=
  vector_ok o /\ (o_kind o = IROP_SYMBOL -> o_sym o < m_nsyms m).
Lemma check_vector_spec o : check_vector o = [] <-> vector_ok o.
Proof.
  unfold check_vector, vector_ok. reports. split; [intros H V|naive_solver].
  destruct (decide (o_kind o = IROP_VALUE)); [by left|]. right. auto.
Qed.
Lemma check_operand_spec m o : check_operand m o = [] <-> reference_ok m o.
Proof. unfold check_operand, reference_ok. rewrite app_nil, check_vector_spec. reports. done. Qed.

(** ** Arguments and parameters *)
(** Where the calling convention puts one: a pair of registers starting at an
    even one, or the stack at an alignment, which the first eightbyte of several
    and a pointer to bytes passed by value have. *)
Record slot_ok (even onstack : bool) (align kind : Z) (t : IrType) (next_onstack : bool) : Prop := {
  sl_even : even = true -> t = IRT_I64 /\ onstack = false /\ align = 0;
  sl_align : align <> 0 -> (exists k, 4 <= k /\ align = 2 ^ k) /\
    (kind = IR_ARG_BYVAL /\ t = IRT_PTR \/ onstack = true /\ (t = IRT_I64 \/ t = IRT_F64));
  sl_first : align <> 0 -> onstack = true -> t = IRT_I64 \/ t = IRT_F64 -> next_onstack = true;
}.
Lemma slot_spec c (even onstack : bool) align kind t next_onstack :
  let leaf := onstack && (ty_eqb t IRT_I64 || ty_eqb t IRT_F64) in
  err c (even && negb (ty_eqb t IRT_I64)) ++ err c (even && onstack) ++ err c (negb (align =? 0) && negb (is_pow2_16 align)) ++
  err c (negb (align =? 0) && negb ((kind =? IR_ARG_BYVAL) && ty_eqb t IRT_PTR) && negb leaf) ++
  err c (negb (align =? 0) && even) ++ err c (negb (align =? 0) && leaf && negb next_onstack) = [] <->
  slot_ok even onstack align kind t next_onstack.
Proof.
  cbv zeta. reports. rewrite is_pow2_16_spec. split.
  - intros (E1 & E2 & A1 & A2 & A3 & A4). split.
    + intros E. split; [auto|]. split; [auto|]. destruct (Z.eq_dec align 0) as [|N]; [done|]. specialize (A3 N). congruence.
    + intros N. split; [auto|]. destruct (decide (kind = IR_ARG_BYVAL /\ t = IRT_PTR)) as [|B]; [by left|]. right. apply A2. tauto.
    + tauto.
  - intros [E A F]. repeat (split; [tauto|]). split; [|tauto].
    intros N. apply not_true_iff_false. intros H%E. tauto.
Qed.

Definition abi_even (o : IrOperand) : bool := annotated o && ir_abi_even_gpr (o_b o).
Definition abi_align (o : IrOperand) : Z := if annotated o then ir_abi_stack_align (o_b o) else 0.
Definition next_onstack (next : option IrOperand) : bool := match next with Some n => argflag n IROPF_ONSTACK | None => false end.
Record arg_ok (va : bool) (o : IrOperand) (next : option IrOperand) : Prop := {
  ar_anon : argflag o IROPF_ANON = true -> va = true;
  ar_extension : argflag o IROPF_SEXT = true -> argflag o IROPF_ZEXT = false;
  ar_narrow : argflag o (Z.lor IROPF_SEXT IROPF_ZEXT) = true -> ir_type_size (o_type o) < 4;
  ar_slot : slot_ok (abi_even o) (argflag o IROPF_ONSTACK) (abi_align o) (ir_arg_kind (o_b o)) (o_type o) (next_onstack next);
}.
(** The anonymous arguments come last. *)
Record args_ok (va : bool) (os : list IrOperand) : Prop := {
  as_each : forall k o, os !! k = Some o -> arg_ok va o (os !! S k);
  as_suffix : forall j k oj ok, (j < k)%nat -> os !! j = Some oj -> os !! k = Some ok ->
    argflag oj IROPF_ANON = true -> argflag ok IROPF_ANON = true;
}.
Lemma check_arg_spec va seen o next : check_arg va seen o next = [] <->
  arg_ok va o next /\ (seen = true -> argflag o IROPF_ANON = true).
Proof.
  unfold check_arg. fold (abi_even o) (abi_align o). cbv zeta.
  replace (match next with Some n => negb (argflag n IROPF_ONSTACK) | None => true end) with (negb (next_onstack next)) by by destruct next.
  do 4 rewrite app_nil. rewrite slot_spec. reports. split; [intros (? & ? & ? & ? & ?); by split|]. by intros [[] ?].
Qed.
Lemma check_args_spec va seen os : check_args va seen os = [] <->
  args_ok va os /\ (seen = true -> Forall (fun o => argflag o IROPF_ANON = true) os).
Proof.
  revert seen. induction os as [|o os IH]; intros seen; cbn [check_args].
  { split; [|done]. intros _. split; [split; [done|done]|]. by constructor. }
  rewrite app_nil, check_arg_spec, IH, orb_true_iff, Forall_cons_iff. clear IH. split.
  - intros [[A S] [[E U] F]]. split; [|intros Hs; split; auto]. split.
    + intros [|k] o' Hk; [injection Hk as <-|by apply E]. by destruct os.
    + intros [|j] [|k] oj ok L Hj Hk; try lia; [|apply (U j k); [lia|done..]]. injection Hj as <-. intros H.
      specialize (F (or_intror H)). by apply (proj1 (Forall_lookup _ _) F k).
  - intros [[E U] F]. split; [split; [|intros Hs; by apply F]|].
    + specialize (E 0%nat o eq_refl). by destruct os.
    + split; [split|].
      * intros k o' Hk. by apply (E (S k)).
      * intros j k oj ok L Hj Hk. apply (U (S j) (S k)); [lia|done..].
      * intros [H|H]; [by apply F|]. apply Forall_lookup_2. intros k ok Hk. apply (U 0%nat (S k) o); [lia|done..].
Qed.

(** The parameter an argument of a call in the module is for. The first
    parameter is the hidden pointer of a result returned through memory or in
    several registers. *)
Definition abi_kind (o : IrOperand) : Z := ir_arg_kind (if annotated o then o_b o else 0).
Definition param_kind (ca : FuncAttrs) (k : nat) : Z :=
  if (k =? 0)%nat && (IR_ABIRET_HFA_F32 <=? a_abi_ret ca) then IR_ARG_HFA
  else if (k =? 0)%nat && negb (a_abi_ret ca =? IR_ABIRET_NONE) then IR_ARG_SRET + (a_abi_ret ca - IR_ABIRET_SRET)
  else ir_arg_kind (annot_at (a_param_annots ca) k).
Record passes (ca : FuncAttrs) (k : nat) (o : IrOperand) : Prop := {
  ps_type : a_param_types ca !! k = Some (o_type o);
  ps_kind : abi_kind o = param_kind ca k;
  ps_size : param_kind ca k = IR_ARG_BYVAL -> ir_arg_size (o_b o) = ir_arg_size (annot_at (a_param_annots ca) k);
  ps_even : abi_even o = ir_abi_even_gpr (annot_at (a_param_annots ca) k);
  ps_align : abi_align o = ir_abi_stack_align (annot_at (a_param_annots ca) k);
  ps_onstack : argflag o IROPF_ONSTACK = ir_param_is_onstack (annot_at (a_param_annots ca) k);
}.
(** A call without a prototype fixes neither the number nor the types of the
    arguments, the hidden pointer apart. *)
Record callee_ok (i : IrInst) (cf : IrFunc) (ca : FuncAttrs) : Prop := {
  co_result : in_type i = f_ret cf;
  co_count : a_unprototyped ca || flag i IRF_CALL_UNPROTOTYPED = false ->
    (length (a_param_types ca) <= length (in_ops i))%nat /\
    (f_variadic cf = false -> length (in_ops i) = length (a_param_types ca));
  co_args : a_unprototyped ca || flag i IRF_CALL_UNPROTOTYPED = false ->
    forall k o, (k < length (a_param_types ca))%nat -> in_ops i !! k = Some o -> passes ca k o;
  co_hidden : a_unprototyped ca || flag i IRF_CALL_UNPROTOTYPED = true -> a_abi_ret ca <> IR_ABIRET_NONE ->
    exists o, in_ops i !! 0%nat = Some o /\ passes ca 0 o;
}.
Inductive target_ok (m : IrModule) (i : IrInst) : Prop :=
| to_internal cf ca : in_subop i = FUNCREF_INTERNAL -> m_funcs m !! Z.to_nat (in_aux i) = Some (cf, ca) -> callee_ok i cf ca -> target_ok m i
| to_external : in_subop i = FUNCREF_EXTERNAL -> in_aux i < m_nsyms m -> target_ok m i
| to_indirect : in_subop i = FUNCREF_INDIRECT -> op_type i 0 = Some IRT_PTR -> target_ok m i.
(** The first operand of an indirect call is the callee. *)
Definition call_ok (m : IrModule) (i : IrInst) : Prop :=
  args_ok (flag i IRF_CALL_VARIADIC) (if in_subop i =? FUNCREF_INDIRECT then drop 1 (in_ops i) else in_ops i) /\ target_ok m i.

Lemma check_param_spec ca k o : check_param ca k o = Some [] <-> passes ca k o.
Proof.
  unfold check_param. fold (abi_kind o).
  replace (ir_abi_even_gpr (if annotated o then o_b o else 0)) with (abi_even o) by (unfold abi_even; by destruct (annotated o)).
  replace (ir_abi_stack_align (if annotated o then o_b o else 0)) with (abi_align o) by (unfold abi_align; by destruct (annotated o)).
  destruct (a_param_types ca !! k) as [want|] eqn:W; cbn [mbind option_bind]; [|split; [done|intros []; congruence]].
  fold (param_kind ca k). rewrite (inj_iff Some), !(app_nil (A := Z)).
  assert (K : (if negb (abi_kind o =? param_kind ca k) then [9]
     else err 9 ((param_kind ca k =? IR_ARG_BYVAL) && negb (ir_arg_size (o_b o) =? ir_arg_size (annot_at (a_param_annots ca) k)))) = [] <->
     abi_kind o = param_kind ca k /\ (param_kind ca k = IR_ARG_BYVAL -> ir_arg_size (o_b o) = ir_arg_size (annot_at (a_param_annots ca) k))).
  { destruct (Z.eqb_spec (abi_kind o) (param_kind ca k)) as [E|N]; cbn [negb]; [reports; tauto|split; [done|tauto]]. }
  rewrite K. clear K. reports. rewrite ?eqb_true_iff. split.
  - intros (? & [? ?] & ? & ? & ?). split; congruence || done.
  - intros []. split; [congruence|]. done.
Qed.
Lemma check_params_spec ca os n : each (fun ko => check_param ca ko.1 ko.2) (imap pair (take n os)) = Some [] <->
  forall k o, (k < n)%nat -> os !! k = Some o -> passes ca k o.
Proof.
  rewrite each_nil, Forall_lookup. split.
  - intros H k o L Hk. apply check_param_spec. apply (H k (k, o)). rewrite list_lookup_imap, lookup_take_lt by done. by rewrite Hk.
  - intros H k [k' o] Hk. rewrite list_lookup_imap in Hk. destruct (take n os !! k) as [o'|] eqn:E; [|done]. injection Hk as <- <-.
    apply lookup_take_Some in E as [E L]. by apply check_param_spec, H.
Qed.
Lemma check_callee_spec i cf ca : check_callee i cf ca = Some [] <-> callee_ok i cf ca.
Proof.
  unfold check_callee. rewrite both_nil, (inj_iff Some). reports. set (u := a_unprototyped ca || _).
  match goal with |- ?x = Some [] /\ _ <-> _ => set (args := x) end.
  enough (H : args = Some [] <-> if u then a_abi_ret ca <> IR_ABIRET_NONE -> exists o, in_ops i !! 0%nat = Some o /\ passes ca 0 o
    else ((length (a_param_types ca) <= length (in_ops i))%nat /\ (f_variadic cf = false -> length (in_ops i) = length (a_param_types ca))) /\
         forall k o, (k < length (a_param_types ca))%nat -> in_ops i !! k = Some o -> passes ca k o).
  { rewrite H. split.
    - intros [A R]. split; [done|..]; fold u; intros Eu; rewrite Eu in A; [apply A..|done].
    - intros [R C A Hd]. fold u in C, A, Hd. destruct u; split; auto. }
  subst args. destruct u; cbn [negb andb].
  - destruct (Z.eqb_spec (a_abi_ret ca) IR_ABIRET_NONE) as [E|N]; cbn [Nat.eqb negb andb].
    + split; [done|]. intros _. by rewrite take_0.
    + destruct (in_ops i) as [|o os]; cbn [length Nat.eqb]; [split; [done|]; intros H; by destruct (H N) as (? & ? & _)|].
      rewrite check_params_spec. split; [intros H _; exists o; split; [done|]; apply H; [lia|done]|].
      intros H [|k] o' L Hk; [|lia]. destruct (H N) as (o2 & E2 & P). by simplify_eq.
  - destruct (if f_variadic cf then _ else _) eqn:C.
    + split; [done|]. intros [[L E] _]. destruct (f_variadic cf); [apply Nat.ltb_lt in C; lia|].
      apply negb_true_iff, Nat.eqb_neq in C. by rewrite E in C.
    + assert (L : (length (a_param_types ca) <= length (in_ops i))%nat /\ (f_variadic cf = false -> length (in_ops i) = length (a_param_types ca))).
      { destruct (f_variadic cf); [apply Nat.ltb_ge in C; by split|]. apply negb_false_iff, Nat.eqb_eq in C. split; [lia|done]. }
      replace (negb (length (a_param_types ca) =? 0)%nat && (length (in_ops i) =? 0)%nat) with false.
      * rewrite check_params_spec. tauto.
      * symmetry. apply not_true_iff_false. intros [N%negb_true_iff%Nat.eqb_neq E%Nat.eqb_eq]%andb_true_iff. lia.
Qed.
Ltac kinds := unfold FUNCREF_INTERNAL, FUNCREF_EXTERNAL, FUNCREF_INDIRECT in *; lia.
Lemma check_call_spec m i : check_call m i = Some [] <-> call_ok m i.
Proof.
  unfold check_call, call_ok. rewrite both_nil, (inj_iff Some), check_args_spec.
  match goal with |- _ /\ ?x = Some [] <-> _ => assert (H : x = Some [] <-> target_ok m i); [|rewrite H] end; [|naive_solver].
  destruct (Z.eqb_spec (in_subop i) FUNCREF_INTERNAL) as [E|N1].
  { destruct (m_funcs m !! Z.to_nat (in_aux i)) as [[cf ca]|] eqn:L.
    - rewrite check_callee_spec. split; [by apply to_internal|]. intros [cf' ca' _ L' H| |]; [|kinds..]. by simplify_eq.
    - split; [done|]. intros []; congruence || kinds. }
  destruct (Z.eqb_spec (in_subop i) FUNCREF_EXTERNAL) as [E|N2].
  { rewrite (inj_iff Some). reports. split; [by apply to_external|]. intros []; done || kinds. }
  destruct (Z.eqb_spec (in_subop i) FUNCREF_INDIRECT) as [E|N3]; [|split; [done|by intros []]].
  destruct (Z.ltb_spec (in_nops i) 1) as [L|L].
  { split; [done|]. intros []; [kinds..|]. unfold in_nops, op_type in *. destruct (in_ops i); [done|cbn in *; lia]. }
  etransitivity; [|split; [by apply to_indirect|by intros []; try kinds]]. rewrite <- ops_are_true.
  destruct (ops_are i 0 IRT_PTR) as [[]|]; cbn; naive_solver.
Qed.

(** ** One instruction *)
Record misc_ok (m : IrModule) (i : IrInst) : Prop := {
  ms_access : exists vt, access_type i = Some vt /\ flags_ok vt i /\ align_ok vt i;
  ms_operands : Forall (reference_ok m) (in_ops i);
  ms_call : in_op i = IR_CALL -> call_ok m i;
}.
Lemma check_misc_spec m i : is_u32 (in_aux i) -> check_inst_misc m i = Some [] <-> misc_ok m i.
Proof.
  intros R. unfold check_inst_misc. destruct (access_type i) as [vt|] eqn:A; cbn [mbind option_bind].
  2: { split; [done|]. intros [(? & ? & _) _ _]. congruence. }
  rewrite both_nil, (inj_iff Some), !(app_nil (A := Z)), check_flags_spec, check_align_spec, concat_nil by done.
  assert (O : Forall (fun o => check_operand m o = []) (in_ops i) <-> Forall (reference_ok m) (in_ops i)).
  { apply Forall_iff. intros o. apply check_operand_spec. }
  rewrite O. assert (C : (if opc_eqb (in_op i) IR_CALL then check_call m i else Some []) = Some [] <-> (in_op i = IR_CALL -> call_ok m i)).
  { destruct (opc_eqb _ _) eqn:E; [apply opc_eqb_true in E|apply opc_eqb_false in E]; [rewrite check_call_spec|]; tauto. }
  rewrite C. split.
  - intros [(? & ? & ?) ?]. split; [by exists vt|done..].
  - intros [(? & ? & ? & ?) ? ?]. by simplify_eq.
Qed.
(** A call in the module whose result is returned through a hidden pointer has
    the parameter for it. *)
Definition complete_call (m : IrModule) (i : IrInst) : Prop :=
  forall cf ca, in_op i = IR_CALL -> in_subop i = FUNCREF_INTERNAL -> m_funcs m !! Z.to_nat (in_aux i) = Some (cf, ca) ->
  a_abi_ret ca <> IR_ABIRET_NONE -> a_param_types ca <> [].
Lemma check_params_answers ca os n : (n <= length (a_param_types ca))%nat ->
  is_Some (each (fun ko => check_param ca ko.1 ko.2) (imap pair (take n os))).
Proof.
  intros L. apply each_answers, Forall_lookup. intros k [k' o] Hk. rewrite list_lookup_imap in Hk.
  destruct (take n os !! k) as [o'|] eqn:E; [|done]. injection Hk as <- <-. apply lookup_take_Some in E as [_ E].
  unfold check_param. destruct (lookup_lt_is_Some_2 (a_param_types ca) k) as [w Ew]; [lia|]. cbn [fst snd]. rewrite Ew. by eexists.
Qed.
Lemma check_call_answers m i : in_op i = IR_CALL -> complete_call m i -> is_Some (check_call m i).
Proof.
  intros O C. unfold check_call. apply both_answers; [by eexists|].
  destruct (Z.eqb_spec (in_subop i) FUNCREF_INTERNAL) as [E|N1].
  { destruct (m_funcs m !! Z.to_nat (in_aux i)) as [[cf ca]|] eqn:L; [|by eexists].
    specialize (C cf ca O E L). unfold check_callee. apply both_answers; [|by eexists]. cbv zeta.
    repeat match goal with |- is_Some (if ?b then Some _ else _) => destruct b; [by eexists|] end.
    apply check_params_answers. destruct (_ || _); [|lia]. destruct (Z.eqb_spec (a_abi_ret ca) IR_ABIRET_NONE); [lia|].
    destruct (a_param_types ca); [by destruct C|cbn; lia]. }
  destruct (_ =? _); [by eexists|]. destruct (_ =? _); [|by eexists]. destruct (Z.ltb_spec (in_nops i) 1); [by eexists|].
  destruct (ops_are_answers i 0 IRT_PTR) as [b ->]; [lia|]. by eexists.
Qed.
Lemma check_misc_answers m i : complete_inst i -> complete_call m i -> is_Some (check_inst_misc m i).
Proof.
  intros Ci Cc. unfold check_inst_misc. assert (A : is_Some (access_type i)).
  { unfold access_type, opc_eqb. case_bool_decide as E; [|by eexists]. apply op_type_answers.
    unfold complete_inst in Ci. rewrite E in Ci. unfold in_nops. cbn in Ci. lia. }
  destruct A as [vt ->]. apply both_answers; [by eexists|].
  destruct (opc_eqb _ _) eqn:E; [|by eexists]. apply opc_eqb_true in E. by apply check_call_answers.
Qed.

(** ** Parameters *)
Definition stacked (a : FuncAttrs) (k : nat) : bool :=
  (k <? length (a_param_types a))%nat && ir_param_is_onstack (annot_at (a_param_annots a) k).
Record param_ok (a : FuncAttrs) (k : nat) (t : IrType) (annot : Z) : Prop := {
  pr_restrict : ir_param_is_restrict annot = true -> t = IRT_PTR;
  pr_slot : slot_ok (ir_abi_even_gpr annot) (ir_param_is_onstack annot) (ir_abi_stack_align annot) (ir_arg_kind annot) t (stacked a (S k));
}.
Definition params_ok (a : FuncAttrs) : Prop :=
  forall k t, a_param_types a !! k = Some t -> param_ok a k t (annot_at (a_param_annots a) k).
(** A function that returns in memory or in several registers takes the hidden
    pointer and returns nothing else. *)
Definition abi_ret_ok (f : IrFunc) (a : FuncAttrs) : Prop :=
  a_abi_ret a <> IR_ABIRET_NONE -> a_param_types a !! 0%nat = Some IRT_PTR /\ f_ret f = IRT_VOID.
Lemma check_param_abi_spec a k t : check_param_abi a k t = [] <-> param_ok a k t (annot_at (a_param_annots a) k).
Proof.
  unfold check_param_abi. cbv zeta.
  replace ((length (a_param_types a) <=? S k)%nat || negb (ir_param_is_onstack (annot_at (a_param_annots a) (S k)))) with (negb (stacked a (S k))).
  2: { unfold stacked. rewrite negb_andb, Nat.leb_antisym. done. }
  rewrite app_nil, slot_spec. reports. split; [intros [? ?]; by split|by intros []].
Qed.
Lemma check_params_ok a : Verify.check_params a = [] <-> params_ok a.
Proof.
  unfold Verify.check_params, params_ok. rewrite concat_nil_Forall, Forall_lookup. split.
  - intros H k t Hk. apply check_param_abi_spec, (H k). by rewrite list_lookup_imap, Hk.
  - intros H k es Hk. rewrite list_lookup_imap in Hk. destruct (a_param_types a !! k) as [t|] eqn:E; [|done]. injection Hk as <-.
    by apply check_param_abi_spec, H.
Qed.
Lemma check_abi_ret_spec f a : check_abi_ret f a = [] <-> abi_ret_ok f a.
Proof.
  unfold check_abi_ret, abi_ret_ok. reports. destruct (a_param_types a) as [|t ts]; cbn; naive_solver.
Qed.
