(* ===== verification/VerifyFacts.v ===== *)
(** What the verifier accepts: [verify_func] reports nothing exactly on the
    functions of [accepted], a description by typing rules and by paths in the
    control-flow graph that mentions no check and no dominator tree, and it
    returns whenever instructions have the operands and blocks the parameters
    it reads. *)
From stdpp Require Import relations.
From S2P Require Import Prelude.
From S2P Require Import Ir.
From S2P Require Import IrValues.
From S2P Require Import Dom.
From S2P Require Import DomDfs.
From S2P Require Import DomTree.
From S2P Require Import DomFacts.
From S2P Require Import Unreachable.
From S2P Require Import IrFlow.
From S2P Require Import Verify.
From S2P Require Import VerifySpec.
#[local] Open Scope Z_scope.

(** ** Reports *)
(** [r] answers when [D]; it reports nothing exactly when [P]. *)
Definition clears (r : option (list Z)) (D P : Prop) : Prop := (r = Some [] <-> P) /\ (D -> is_Some r).

Lemma clears_iff r D D' P P' : clears r D P -> (D' -> D) -> (P <-> P') -> clears r D' P'.
Proof. intros [H A] ED EP. split; [by rewrite H|auto]. Qed.
Lemma clears_pure es P : (es = [] <-> P) -> clears (Some es) True P.
Proof. intros H. split; [by rewrite (inj_iff Some)|by eexists]. Qed.
Lemma clears_bad c es P : ~ P -> clears (Some (c :: es)) True P.
Proof. intros H. apply clears_pure. by split. Qed.
Lemma clears_both r1 r2 D1 D2 P1 P2 : clears r1 D1 P1 -> clears r2 D2 P2 -> clears (both r1 r2) (D1 /\ D2) (P1 /\ P2).
Proof. intros [H1 A1] [H2 A2]. split; [by rewrite both_nil, H1, H2|intros [? ?]; apply both_answers; auto]. Qed.
Lemma clears_each {A} (g : A -> option (list Z)) (D P : A -> Prop) l :
  (forall x, clears (g x) (D x) (P x)) -> clears (each g l) (Forall D l) (Forall P l).
Proof.
  intros H. split.
  - rewrite each_nil. apply Forall_iff. intros x. apply (H x).
  - intros F. apply each_answers. revert F. apply Forall_impl. intros x. apply (H x).
Qed.

Lemma Forall_zip_pairs {A B} (P : A -> B -> Prop) l k : length l = length k ->
  Forall (fun xy => P xy.1 xy.2) (zip l k) <-> Forall2 P l k.
Proof.
  revert k. induction l as [|x l IH]; intros [|y k] L; try done; cbn [zip zip_with].
  injection L as L. by rewrite Forall_cons_iff, Forall2_cons_iff, IH.
Qed.

Lemma Forall_insts (P : IrInst -> Prop) g : Forall P (insts g) <-> Forall (fun blk => Forall P (b_insts blk)) (f_blocks g).
Proof. unfold insts. by rewrite <- flat_map_concat_map, Forall_flat_map. Qed.

Section func.
  Context (m : IrModule) (f : IrFunc) (a : FuncAttrs).

(** ** What is accepted *)
(** Block [x] is on every path to block [b]. *)
Definition guards (x b : Z) : Prop := in_blocks f x /\ id_dominates f x b.
(** The table places the definition of the operand before the use. *)
Definition placed (b pos : Z) (vi : IrValInfo) : Prop :=
  match vi_def_kind vi with
  | VDEF_FPARAM => True
  | VDEF_BPARAM => vi_def_block vi = b \/ guards (vi_def_block vi) b
  | VDEF_INST => vi_def_block vi = b /\ vi_def_pos vi < pos \/ vi_def_block vi <> b /\ guards (vi_def_block vi) b
  | VDEF_NONE => False
  end.
Definition declared (b pos : Z) (op : IrOperand) : Prop :=
  o_kind op = IROP_VALUE -> exists vi, 1 <= u32 (o_a op) <= f_nvals f /\ f_vals f !! Z.to_nat (u32 (o_a op) - 1) = Some vi /\
    placed b pos vi.
Definition edge_ok (e : IrEdge) : Prop := exists tgt, ir_block f (e_target e) = Some tgt /\
  Forall2 (fun arg p => vector_ok arg /\ param_type f p = Some (o_type arg)) (e_args e) (b_params tgt).
Record accepted_inst (b pos : Z) (i : IrInst) : Prop := {
  ai_opcode : is_reserved (in_op i) = false;
  ai_uses : Forall (declared b pos) (inst_uses i);
  ai_edges : Forall edge_ok (in_edges i);
  ai_types : typed_inst (f_ret f) (f_variadic f) i;
  ai_misc : misc_ok m i;
}.
(** One terminator, at the end. *)
Definition one_terminator (ins : list IrInst) : Prop := ins <> [] /\
  forall k i, ins !! k = Some i -> (is_terminator (in_op i) = true <-> S k = length ins).
Record accepted_block (k : nat) (blk : IrBlock) : Prop := {
  ab_reached : reaches f k;
  ab_term : one_terminator (b_insts blk);
  ab_insts j i : b_insts blk !! j = Some i -> accepted_inst (Z.of_nat k + 1) (Z.of_nat j) i;
}.
Record accepted : Prop := {
  ac_blocks k blk : f_blocks f !! k = Some blk -> accepted_block k blk;
  ac_nonempty : f_blocks f <> [];
  ac_entry blk : f_blocks f !! 0%nat = Some blk -> b_params blk = [];
  ac_no_back e : e ∈ edges f -> e_target e <> 1;
  ac_params : params_ok a;
  ac_abi_ret : abi_ret_ok f a;
}.

(** ** What is read *)
(** The parameters of the target of an edge are in the table. *)
Definition complete_edge (e : IrEdge) : Prop :=
  forall tgt, ir_block f (e_target e) = Some tgt -> Forall (fun p => is_Some (param_type f p)) (b_params tgt).
Record complete (i : IrInst) : Prop := {
  cp_operands : complete_inst i;
  cp_call : complete_call m i;
  cp_edges : Forall complete_edge (in_edges i);
}.

(** ** The checks one by one *)
Section checks.
  Context (t : IrDomTree) (Dt : forall x y, exists r, ir_dominates t x y = Some r /\
    (r = true <-> in_blocks f x /\ in_blocks f y /\ (x = y \/ id_dominates f x y))).

Lemma check_use_spec op b pos : in_blocks f b -> clears (check_use f t op b pos) True (declared b pos op).
Proof using Dt.
  intros Hb. unfold check_use, declared. destruct (is_kind (o_kind op) IROP_VALUE) eqn:K; cbn [negb];
    [apply is_kind_true in K|apply is_kind_false in K; by apply clears_pure].
  destruct (Z.eqb_spec (u32 (o_a op)) 0) as [E0|N0].
  { apply clears_bad. intros (vi & R & _); [done|]. lia. }
  pose proof (u32_range (o_a op)) as RU. unfold is_u32 in RU. destruct (Z.ltb_spec (f_nvals f) (u32 (o_a op))) as [L|L]; cbn [orb].
  { apply clears_bad. intros (vi & R & _); [done|]. lia. }
  destruct (lookup_lt_is_Some_2 (f_vals f) (Z.to_nat (u32 (o_a op) - 1))) as [vi Ev].
  { unfold f_nvals in L. lia. }
  rewrite Ev. cbn [mbind option_bind]. cbv zeta.
  match goal with |- clears ?r _ _ => enough (H : clears r True (placed b pos vi)) end.
  { eapply clears_iff; [exact H|done|]. split.
    - intros HP _. exists vi. split; [lia|]. by split.
    - intros HP. destruct (HP K) as (vi' & _ & E & H'). by simplify_eq. }
  clear RU Ev. assert (Db : vi_def_block vi <> b ->
    clears (d ← ir_dominates t (vi_def_block vi) b; Some (err 1 (negb d))) True (guards (vi_def_block vi) b)).
  { intros Nb. destruct (Dt (vi_def_block vi) b) as (r & -> & Hr). cbn [mbind option_bind]. apply clears_pure.
    rewrite err_nil, negb_false_iff, Hr. unfold guards. naive_solver. }
  unfold placed. destruct (vi_def_kind vi).
  - apply clears_bad; tauto.
  - by apply clears_pure.
  - destruct (Z.eqb_spec (vi_def_block vi) b) as [Eb|Nb]; [apply clears_pure; naive_solver|].
    eapply clears_iff; [by apply Db|done|]. naive_solver.
  - destruct (Z.eqb_spec (vi_def_block vi) b) as [Eb|Nb].
    + apply clears_pure. rewrite err_nil, Z.leb_gt. naive_solver.
    + eapply clears_iff; [by apply Db|done|]. naive_solver.
Qed.
Lemma check_uses_spec ops b pos : in_blocks f b -> clears (check_uses f t ops b pos) True (Forall (declared b pos) ops).
Proof using Dt.
  intros Hb. eapply clears_iff; [apply clears_each; intros op; by apply check_use_spec| |done].
  intros _. by apply Forall_true.
Qed.

Lemma check_edge_arg_spec arg p : clears (check_edge_arg f (arg, p)) (is_Some (param_type f p))
  (vector_ok arg /\ param_type f p = Some (o_type arg)).
Proof.
  unfold check_edge_arg. cbn [fst snd]. destruct (param_type f p) as [want|]; cbn [mbind option_bind].
  - split; [|by eexists].
    rewrite (inj_iff Some), app_nil, check_vector_spec, err_nil, negb_false_iff, ty_eqb_true, (inj_iff Some). split; intros [? ?]; by split.
  - split; [|by intros [? ?]]. split; [done|by intros [_ ?]].
Qed.
Lemma check_edge_spec e : clears (check_edge f e) (complete_edge e) (edge_ok e).
Proof.
  unfold check_edge, edge_ok, complete_edge. destruct (ir_block f (e_target e)) as [tgt|] eqn:T.
  2: { eapply clears_iff; [apply (clears_bad 2 [] False); tauto|done|]. split; [done|]. by intros (? & ? & _). }
  destruct (Nat.eqb_spec (length (e_args e)) (length (b_params tgt))) as [L|L]; cbn [negb].
  2: { eapply clears_iff; [apply (clears_bad 2 [] False); tauto|done|]. split; [done|]. intros (? & [= <-] & H). by apply Forall2_length in H. }
  eapply clears_iff; [apply (clears_each _ (fun ap => is_Some (param_type f ap.2))
    (fun ap => vector_ok ap.1 /\ param_type f ap.2 = Some (o_type ap.1))); intros [arg p]; apply check_edge_arg_spec| |].
  - intros H. specialize (H tgt eq_refl). rewrite Forall_forall in *. intros [arg p] Hp%in_combine_r. by apply H.
  - rewrite (Forall_zip_pairs (fun arg p => vector_ok arg /\ param_type f p = Some (o_type arg))) by done. split; [by exists tgt|]. by intros (? & [= <-] & H).
Qed.

Lemma check_types_spec i : clears (check_types f i) (complete_inst i) (typed_inst (f_ret f) (f_variadic f) i).
Proof.
  unfold check_types. split.
  - rewrite <- check_types_typed. destruct (check_inst_types f i) as [[]|]; cbn; naive_solver.
  - intros C. destruct (check_types_answers f i C) as [r ->]. by eexists.
Qed.
Lemma check_inst_misc_spec i : is_u32 (in_aux i) ->
  clears (check_inst_misc m i) (complete_inst i /\ complete_call m i) (misc_ok m i).
Proof. intros R. split; [by apply check_misc_spec|]. intros [C1 C2]. by apply check_misc_answers. Qed.
Lemma verify_inst_spec b pos i : in_blocks f b -> is_u32 (in_aux i) -> clears (verify_inst m f t b pos i) (complete i) (accepted_inst b pos i).
Proof using Dt.
  intros Hb R. unfold verify_inst. destruct (is_reserved (in_op i)) eqn:Rs.
  { eapply clears_iff; [apply (clears_bad 10 [] False); tauto|done|]. split; [done|]. intros []. congruence. }
  eapply clears_iff.
  - apply clears_both; [by apply check_uses_spec|]. apply clears_both; [by apply check_uses_spec|].
    apply clears_both; [apply clears_each; apply check_edge_spec|]. apply clears_both; [apply check_types_spec|].
    apply check_inst_misc_spec. exact R.
  - intros []. by repeat split.
  - split; [intros (? & ? & ? & ? & ?); split; try done; unfold inst_uses; by apply Forall_app|].
    intros [_ U ? ? ?]. unfold inst_uses in U. apply Forall_app in U as [? ?]. done.
Qed.
Lemma verify_insts_spec b pos ins : in_blocks f b -> Forall (fun i => is_u32 (in_aux i)) ins ->
  clears (verify_insts m f t b pos ins) (Forall complete ins) (forall j i, ins !! j = Some i -> accepted_inst b (pos + Z.of_nat j) i).
Proof using Dt.
  intros Hb R. revert pos. induction R as [|i ins Ri R IH]; intros pos; cbn [verify_insts]; [by apply clears_iff with True True; [apply clears_pure|..]|].
  eapply clears_iff; [apply clears_both; [by apply verify_inst_spec|apply IH]|apply Forall_cons_iff|]. split.
  - intros [H1 H2] [|j] i' Hj; [injection Hj as <-; by rewrite Z.add_0_r|].
    replace (pos + Z.of_nat (S j)) with (pos + 1 + Z.of_nat j) by lia. by apply H2.
  - intros H. split; [specialize (H 0%nat i eq_refl); by rewrite Z.add_0_r in H|].
    intros j i' Hj. specialize (H (S j) i' Hj). by replace (pos + 1 + Z.of_nat j) with (pos + Z.of_nat (S j)) by lia.
Qed.

Lemma terminators_spec ins : ins <> [] ->
  early_terminators ins ++ err 3 (negb (nterm ins =? 1)%nat) = [] <-> one_terminator ins.
Proof.
  unfold one_terminator. induction ins as [|i ins IH]; [done|]. intros _. cbn [early_terminators].
  rewrite !app_nil, !err_nil, negb_false_iff. rewrite app_nil, err_nil, negb_false_iff in IH. rewrite !Nat.eqb_eq in *.
  unfold nterm in *. cbn [List.filter]. destruct ins as [|i' ins].
  - destruct (is_terminator (in_op i)) eqn:T; cbn.
    + split; [|done]. intros _. split; [done|]. intros [|k] j Hj; [injection Hj as <-; by rewrite T|done].
    + split; [intros [_ ?]; lia|]. intros [_ H]. specialize (H 0%nat i eq_refl). rewrite T in H. discriminate (proj2 H eq_refl).
  - specialize (IH ltac:(done)). rewrite andb_true_r. destruct (is_terminator (in_op i)) eqn:T.
    + split; [by intros ((? & _) & _)|]. intros [_ H]. pose proof (proj1 (H 0%nat i eq_refl) T). cbn in *. lia.
    + etransitivity; [|etransitivity; [exact IH|]]; [tauto|]. split; intros [_ H]; (split; [done|]).
      * intros [|k] j Hj; [injection Hj as <-; rewrite T; cbn; by split; [|lia]|]. specialize (H k j Hj). cbn [length] in *. rewrite H. lia.
      * intros k j Hj. specialize (H (S k) j Hj). cbn [length] in *. rewrite H. lia.
Qed.

Lemma entry_dominates b : reaches f b -> dominates f 0 b.
Proof. intros _ p W. induction W; [left|by right]. Qed.
Lemma reach_spec k : (k < length (f_blocks f))%nat -> exists r,
  (if (k =? 0)%nat then Some true else ir_dominates t 1 (Z.of_nat k + 1)) = Some r /\ (r = true <-> reaches f k).
Proof using Dt.
  intros L. destruct (Nat.eqb_spec k 0) as [->|N].
  - exists true. split; [done|]. split; [|done]. intros _. apply rtc_refl.
  - destruct (Dt 1 (Z.of_nat k + 1)) as (r & -> & Hr). exists r. split; [done|]. rewrite Hr.
    assert (B : block_at (Z.of_nat k + 1) = k) by (unfold block_at; lia). unfold id_dominates, in_blocks, f_nblocks. rewrite B. split.
    + intros (_ & _ & [?|[? _]]); [lia|done].
    + intros R. split; [lia|]. split; [lia|]. right. split; [done|]. by apply entry_dominates.
Qed.
Definition narrow (blk : IrBlock) : Prop := Forall (fun i => is_u32 (in_aux i)) (b_insts blk).
Lemma verify_block_spec k blk : (k < length (f_blocks f))%nat -> narrow blk ->
  clears (verify_block m f t k blk) (Forall complete (b_insts blk)) (accepted_block k blk).
Proof using Dt.
  intros L R. unfold verify_block, narrow in *. destruct (reach_spec k L) as (r & -> & Hr). cbn [mbind option_bind]. destruct r; cbn [negb].
  2: { eapply clears_iff; [apply (clears_bad 6 [] False); tauto|done|]. split; [done|]. intros [X _ _]. by apply Hr in X. }
  destruct (b_insts blk) as [|i ins] eqn:Ei.
  { eapply clears_iff; [apply (clears_bad 3 [] False); tauto|done|]. split; [done|]. intros [_ [N _] _]. by rewrite Ei in N. }
  eapply clears_iff; [apply clears_both; [apply clears_pure, terminators_spec; done|apply verify_insts_spec; [unfold in_blocks, f_nblocks; lia|exact R]]|done|].
  rewrite <- Ei. split.
  - intros [T A]. split; [by apply Hr|done|]. intros j i' Hj. by apply (A j).
  - intros [_ T A]. split; [done|]. intros j i' Hj. by apply A.
Qed.
Lemma verify_blocks_spec k bs : (k + length bs <= length (f_blocks f))%nat -> Forall narrow bs ->
  clears (verify_blocks m f t k bs) (Forall (fun blk => Forall complete (b_insts blk)) bs)
    (forall j blk, bs !! j = Some blk -> accepted_block (k + j) blk).
Proof using Dt.
  intros L R. revert k L. induction R as [|b bs Rb R IH]; intros k L; cbn [verify_blocks];
    [by apply clears_iff with True True; [apply clears_pure|..]|]. cbn [length] in L.
  eapply clears_iff; [apply clears_both; [apply verify_block_spec; [lia|done]|apply IH; lia]|apply Forall_cons_iff|]. split.
  - intros [H1 H2] [|j] blk Hj; [injection Hj as <-; by rewrite Nat.add_0_r|].
    replace (k + S j)%nat with (S k + j)%nat by lia. by apply H2.
  - intros H. split; [specialize (H 0%nat b eq_refl); by rewrite Nat.add_0_r in H|].
    intros j blk Hj. specialize (H (S j) blk Hj). by replace (S k + j)%nat with (k + S j)%nat by lia.
Qed.
End checks.

Lemma check_entry_spec : check_entry f = [] <->
  (forall blk, f_blocks f !! 0%nat = Some blk -> b_params blk = []) /\ forall e, e ∈ edges f -> e_target e <> 1.
Proof.
  unfold check_entry. rewrite app_nil, concat_nil. apply Morphisms_Prop.and_iff_morphism.
  - destruct (f_blocks f) as [|b bs]; [by split|]. rewrite err_nil, negb_false_iff, Nat.eqb_eq, length_zero_iff_nil. cbn. naive_solver.
  - transitivity (Forall (fun e => e_target e <> 1) (edges f)); [|by rewrite Forall_forall; setoid_rewrite list_elem_of_In].
    unfold edges, insts. rewrite <- !flat_map_concat_map, Forall_flat_map, Forall_flat_map. apply Forall_iff. intros b.
    rewrite concat_nil. apply Forall_iff. intros i. rewrite concat_nil. apply Forall_iff. intros e. by rewrite err_nil, Z.eqb_neq.
Qed.

Lemma verify_func_spec : Forall (fun i => is_u32 (in_aux i)) (insts f) ->
  clears (verify_func m f a) (Forall complete (insts f)) accepted.
Proof.
  intros R. destruct (dominates_answer f) as (t & E & Dt). unfold verify_func. rewrite E. cbn [mbind option_bind].
  assert (Rb : Forall narrow (f_blocks f)) by by apply Forall_insts.
  pose proof (verify_blocks_spec t Dt 0 (f_blocks f) ltac:(lia) Rb) as B. destruct (f_blocks f) as [|b bs] eqn:Eb.
  { eapply clears_iff; [apply (clears_bad 3 [] False); tauto|done|]. split; [done|]. by intros []. }
  rewrite <- Eb in *. eapply clears_iff; [apply clears_both; [|exact B]| |].
  - apply clears_pure. by rewrite !app_nil, check_params_ok, check_abi_ret_spec, check_entry_spec.
  - intros F. split; [done|]. by apply Forall_insts.
  - split.
    + intros ((? & ? & ? & ?) & ?). split; try done. by rewrite Eb.
    + by intros [].
Qed.
End func.

(** ** The module *)
(** A relocation names a symbol and its eight bytes are in the object. *)
Definition reloc_ok (m : IrModule) (g : IrGlobal) (r : IrReloc) : Prop := rl_symbol r < m_nsyms m /\ rl_offset r + 8 <= gl_size g.
Definition global_ok (m : IrModule) (g : IrGlobal) : Prop :=
  (exists k, 0 <= k /\ gl_align g = 2 ^ k) /\ Forall (reloc_ok m g) (gl_relocs g).
(** A function is marked when it calls what returns twice. *)
Definition setjmp_ok (m : IrModule) (f : IrFunc) (a : FuncAttrs) : Prop :=
  a_calls_setjmp a = true <-> exists i, i ∈ insts f /\ calls_returns_twice m i = true.
Record module_ok (m : IrModule) : Prop := {
  mo_globals : Forall (global_ok m) (m_globals m);
  mo_funcs : Forall (fun fa => accepted m fa.1 fa.2 /\ setjmp_ok m fa.1 fa.2) (m_funcs m);
}.

Lemma check_reloc_spec m g r : check_reloc m g r = [] <-> reloc_ok m g r.
Proof. unfold check_reloc, reloc_ok. rewrite app_nil, !err_nil, orb_false_iff, Z.leb_gt, !Z.ltb_ge. lia. Qed.
Lemma check_global_spec m g : is_u32 (gl_align g) -> check_global m g = [] <-> global_ok m g.
Proof.
  intros R. unfold check_global, global_ok. rewrite app_nil, err_nil, negb_false_iff, pow2_nonzero_spec, concat_nil by done.
  apply Morphisms_Prop.and_iff_morphism; [done|]. apply Forall_iff. intros r. apply check_reloc_spec.
Qed.
Lemma check_setjmp_spec m f a : check_setjmp_flag m f a = [] <-> setjmp_ok m f a.
Proof.
  unfold check_setjmp_flag, setjmp_ok. rewrite err_nil, negb_false_iff, eqb_true_iff.
  set (found := existsb _ _). assert (E : found = true <-> exists i, i ∈ insts f /\ calls_returns_twice m i = true).
  { unfold found. rewrite existsb_exists. split.
    - intros (b & Hb & (i & Hi & C)%existsb_exists). exists i. split; [|done]. apply (elem_insts f b); by apply list_elem_of_In.
    - intros (i & Hi & C). destruct (insts_inv f i Hi) as (b & Hb & Hib). exists b. split; [by apply list_elem_of_In|].
      apply existsb_exists. exists i. by rewrite <- list_elem_of_In. }
  rewrite <- E. destruct found, (a_calls_setjmp a); split; try done; intros [H1 H2]; [by specialize (H2 eq_refl)|by specialize (H1 eq_refl)].
Qed.

(** The fields as wide as the structures have them. *)
Record fields_fit (m : IrModule) : Prop := {
  ff_globals : Forall (fun g => is_u32 (gl_align g)) (m_globals m);
  ff_insts : Forall (fun fa => Forall (fun i => is_u32 (in_aux i)) (insts fa.1)) (m_funcs m);
}.
(** Every instruction has the operands its opcode reads, every call in the module
    of what returns in memory finds the parameter for it, and the parameters of
    a block an edge leads to are values of the table. *)
Definition complete_module (m : IrModule) : Prop :=
  Forall (fun fa => Forall (complete m fa.1) (insts fa.1)) (m_funcs m).

Lemma verify_funcs_spec m fs : Forall (fun fa => Forall (fun i => is_u32 (in_aux i)) (insts fa.1)) fs ->
  clears (verify_funcs m fs) (Forall (fun fa => Forall (complete m fa.1) (insts fa.1)) fs)
    (Forall (fun fa => accepted m fa.1 fa.2 /\ setjmp_ok m fa.1 fa.2) fs).
Proof.
  induction 1 as [|fa fs R _ IH]; [by apply clears_iff with True True; [apply clears_pure|..]|].
  eapply clears_iff; [apply clears_both; [apply clears_both; [by apply verify_func_spec|apply clears_pure, check_setjmp_spec]|exact IH]| |].
  - rewrite Forall_cons_iff. tauto.
  - by rewrite Forall_cons_iff.
Qed.
Lemma ir_verify_report_spec m : fields_fit m -> clears (ir_verify_report m) (complete_module m) (module_ok m).
Proof.
  intros [G F]. eapply clears_iff; [apply clears_both; [apply clears_pure|by apply verify_funcs_spec]|by split|].
  - rewrite concat_nil. reflexivity.
  - assert (E : Forall (fun g => check_global m g = []) (m_globals m) <-> Forall (global_ok m) (m_globals m)).
    { rewrite !Forall_forall in *. split; intros H g Hg; apply check_global_spec; auto. }
    rewrite E. split; [intros [? ?]; by split|by intros []].
Qed.

(** C4. The verifier accepts exactly the well-formed modules. [ir_verify]
    returns yes if and only if every global is aligned to a power of two and its
    relocations are in its bytes, and every function is well-formed: every block
    is reached from the entry and ends in its only terminator; the entry has
    neither parameters nor a branch back to it; an edge leads to a block with
    arguments of the types of its parameters; a value used has a definition that
    the table places before the use in its block, or in another block on every
    path to it; every instruction is typed by [typed_inst] and keeps the rules on
    flags, alignments, operands and calls; the parameters keep those of the
    calling convention; and the function is marked as calling [setjmp] when it
    does. It reads operands and parameters that may be absent: it returns, yes or
    no, on the modules where those are present ([complete_module]); where the
    code reads outside an array the model has no answer. *)
Theorem ir_verify_accepts m : fields_fit m ->
  (ir_verify m = Some true <-> module_ok m) /\ (complete_module m -> exists r, ir_verify m = Some r).
Proof.
  intros F. destruct (ir_verify_report_spec m F) as [H A]. rewrite <- H. unfold ir_verify. split.
  - destruct (ir_verify_report m) as [[|]|]; cbn; naive_solver.
  - intros [es ->]%A. by eexists.
Qed.
