(* ===== verification/VerifySound.v ===== *)
(** The verifier is sound: on a function as the builder makes it, acceptance
    gives what the passes over SSA form rely on ([verified_func]); and the value
    table, which the verifier trusts, is right after a renumbering. *)
From stdpp Require Import gmap relations.
From S2P Require Import Prelude.
From S2P Require Import Softfp.
From S2P Require Import Ir.
From S2P Require Import Fold.
From S2P Require Import IrSem.
From S2P Require Import IrValues.
From S2P Require Import SimplifyRules.
From S2P Require Import Dom.
From S2P Require Import DomDfs.
From S2P Require Import DomTree.
From S2P Require Import DomFacts.
From S2P Require Import Renumber.
From S2P Require Import RenumberFacts.
From S2P Require Import Unreachable.
From S2P Require Import IrFlow.
From S2P Require Import IrExec.
From S2P Require Import IrTotal.
From S2P Require Import SccpDuty.
From S2P Require Import SccpValues.
From S2P Require Import SccpSound.
From S2P Require Import SccpFunc.
From S2P Require Import Verify.
From S2P Require Import VerifySpec.
From S2P Require Import VerifyFacts.
#[local] Open Scope Z_scope.

Lemma Forall_elem {A} (P : A -> Prop) l : Forall P l -> forall x, x ∈ l -> P x.
Proof. intros F x Hx. rewrite Forall_forall in F. by apply F, list_elem_of_In. Qed.

(** The block of an id of the table. *)
Definition block_of (f : IrFunc) (b : Z) : option IrBlock := if 1 <=? b then f_blocks f !! Z.to_nat (b - 1) else None.
(** The table says where each value is defined. *)
Definition located (f : IrFunc) (v : Z) (vi : IrValInfo) : Prop :=
  match vi_def_kind vi with
  | VDEF_NONE => False
  | VDEF_FPARAM => v ∈ f_param_vals f
  | VDEF_BPARAM => exists blk, block_of f (vi_def_block vi) = Some blk /\ v ∈ b_params blk
  | VDEF_INST => 0 <= vi_def_pos vi /\ exists blk i, block_of f (vi_def_block vi) = Some blk /\
                 b_insts blk !! Z.to_nat (vi_def_pos vi) = Some i /\ in_result i = v
  end.
Definition recorded (f : IrFunc) : Prop := forall k vi, f_vals f !! k = Some vi -> located f (Z.of_nat k + 1) vi.

(** An operand as [ir_op_value] and the constructors of constants make it. An
    integer constant need not be reduced to its width. *)
Record made (vals : list IrValInfo) (op : IrOperand) : Prop := {
  md_ok : operand_ok op;
  md_kind : match o_kind op with
            | IROP_NONE => False
            | IROP_VALUE => is_u32 (o_a op) /\ o_type op = ir_value_type vals (o_a op)
            | IROP_FCONST => exists f, format_of (o_type op) = Some f
            | IROP_SYMBOL => type_bits (o_type op) = 64
            | _ => True
            end;
}.
(** What holds of the functions the builder makes and no check looks at. *)
Record constructed (f : IrFunc) : Prop := {
  cn_table k vi : f_vals f !! k = Some vi -> vi_def_kind vi = VDEF_NONE \/ located f (Z.of_nat k + 1) vi;
  cn_ssa : ssa f;
  cn_uses op : uses f op -> made (f_vals f) op;
  cn_results i : i ∈ insts f -> value_op (in_op i) = true -> in_result i <> 0;
  cn_types i : i ∈ insts f -> in_result i <> 0 -> ir_value_type (f_vals f) (in_result i) = in_type i;
  cn_terms i : i ∈ insts f -> is_terminator (in_op i) = true -> in_result i = 0;
  cn_params v : v ∈ f_param_vals f ++ concat (map b_params (f_blocks f)) -> v <> 0;
  cn_targets e : e ∈ edges f -> 0 <= e_target e;
  cn_arity i : i ∈ insts f -> value_op (in_op i) = true -> length (in_ops i) = arity (in_op i) /\ 0 <= in_subop i;
  cn_br i : i ∈ insts f -> in_op i = IR_BR -> in_edges i <> [];
  cn_condbr i : i ∈ insts f -> in_op i = IR_CONDBR -> length (in_edges i) = 2%nat /\ in_nops i = 1;
  cn_switch i : i ∈ insts f -> in_op i = IR_SWITCH -> (1 <= length (in_edges i))%nat /\ in_nops i = 1;
}.

Section sound.
  Context (m : IrModule) (f : IrFunc) (a : FuncAttrs) (C : constructed f) (A : accepted m f a).

Lemma made_id op : made (f_vals f) op -> o_kind op = IROP_VALUE -> u32 (o_a op) = o_a op.
Proof. intros [_ H] K. rewrite K in H. destruct H as [R _]. unfold is_u32, u32 in *. by rewrite Z.mod_small. Qed.
Lemma block_of_at b blk : block_of f b = Some blk -> f_blocks f !! block_at b = Some blk /\ b = Z.of_nat (block_at b) + 1.
Proof. unfold block_of, block_at. destruct (Z.leb_spec 1 b); [|done]. intros H'. split; [done|lia]. Qed.

(** The definition of a value used is where the semantics needs it. *)
Lemma declared_defined b k op : made (f_vals f) op -> o_kind op = IROP_VALUE ->
  declared f (Z.of_nat b + 1) (Z.of_nat k) op -> defined_at f b k (o_a op).
Proof using C.
  intros Md K D. destruct (D K) as (vi & R & E & P). rewrite (made_id op Md K) in *.
  destruct (cn_table f C _ _ E) as [Z|L]; [unfold placed in P; by rewrite Z in P|]. replace (Z.of_nat (Z.to_nat (o_a op - 1)) + 1) with (o_a op) in L by lia.
  unfold located in L. unfold placed in P. destruct (vi_def_kind vi); [done|by left| |].
  - destruct L as (blk & [Eb Ez]%block_of_at & Hv). right.
    destruct (decide (block_at (vi_def_block vi) = b)) as [<-|N].
    + left. exists blk. split; [done|]. apply elem_of_app. by left.
    + right. destruct P as [P|(_ & _ & Dm)]; [lia|]. exists (block_at (vi_def_block vi)), blk.
      replace (block_at (Z.of_nat b + 1)) with b in Dm by (unfold block_at; lia).
      split_and!; try done. apply elem_of_app. by left.
  - destruct L as (Lp & blk & i & [Eb Ez]%block_of_at & Ei & Er). right. destruct P as [[P Lt]|[Ne (_ & _ & Dm)]].
    + left. exists blk. replace (block_at (vi_def_block vi)) with b in Eb by lia. split; [done|].
      apply elem_of_app. right. rewrite <- Er. apply list_elem_of_In, in_map, list_elem_of_In.
      apply (list_elem_of_lookup_2 _ (Z.to_nat (vi_def_pos vi))). by rewrite lookup_take_lt by lia.
    + right. exists (block_at (vi_def_block vi)), blk. replace (block_at (Z.of_nat b + 1)) with b in Dm by (unfold block_at; lia).
      split_and!; try done; [lia|]. apply elem_of_app. right. rewrite <- Er. apply list_elem_of_In, in_map, list_elem_of_In.
      by eapply list_elem_of_lookup_2.
Qed.

Lemma accepted_at i : i ∈ insts f -> exists b blk k, f_blocks f !! b = Some blk /\ b_insts blk !! k = Some i /\ accepted_inst m f (Z.of_nat b + 1) (Z.of_nat k) i.
Proof using A.
  intros (blk & [b Hb]%list_elem_of_lookup & [k Hk]%list_elem_of_lookup)%insts_inv. exists b, blk, k. split; [done|]. split; [done|].
  by apply (ab_insts _ _ _ _ (ac_blocks _ _ _ A b blk Hb)).
Qed.
Lemma inst_use i op : i ∈ insts f -> op ∈ inst_uses i -> uses f op.
Proof.
  intros Hi [Ho|(e & He & Ho)]%uses_inv; [left; by exists i|right]. exists e. split; [|done]. by apply (elem_edges f i).
Qed.
Lemma accepted_fits i op : i ∈ insts f -> op ∈ inst_uses i -> fits False (f_vals f) op.
Proof using A C.
  intros Hi Ho. pose proof (cn_uses f C op (inst_use i op Hi Ho)) as Md. destruct (accepted_at i Hi) as (b & blk & k & _ & _ & Ai).
  pose proof (ai_uses _ _ _ _ _ Ai) as U. rewrite Forall_forall in U. specialize (U op (proj1 (list_elem_of_In _ _) Ho)).
  split; [by apply Md|done|]. pose proof (md_kind _ _ Md) as K. destruct (o_kind op) eqn:E; try done.
  destruct K as [_ T]. split; [|done]. destruct (U E) as (vi & R & _). by rewrite (made_id op Md E) in R.
Qed.
Lemma accepted_types i : i ∈ insts f -> inst_types_ok (f_ret f) (f_variadic f) i = true.
Proof using A. intros Hi. destruct (accepted_at i Hi) as (b' & blk & k & _ & _ & [_ _ _ Ty _]). by apply typed_inst_ok. Qed.
Lemma param_type_value p t : param_type f p = Some t -> ir_value_type (f_vals f) p = t.
Proof.
  unfold param_type, ir_value_type. destruct (Z.leb_spec 1 p); [|done]. destruct (f_vals f !! Z.to_nat (p - 1)) as [vi|] eqn:E; [|done].
  intros [= <-]. apply lookup_lt_Some in E. rewrite (proj2 (Z.eqb_neq p 0)), (proj2 (Z.ltb_ge _ _)) by lia. done.
Qed.
Lemma accepted_targets : targets_ok f.
Proof using A C.
  intros e He. pose proof (cn_targets f C e He) as N. destruct (edges_inv f e He) as (i & Hi & Hei).
  destruct (accepted_at i Hi) as (b & blk & k & _ & _ & Ai). pose proof (ai_edges _ _ _ _ _ Ai) as U. rewrite Forall_forall in U.
  destruct (U e (proj1 (list_elem_of_In _ _) Hei)) as (tgt & Et & _). apply ir_block_index in Et as (j & [L ->]%target_index_Some & _); [|done].
  unfold f_nblocks. lia.
Qed.
Lemma accepted_typed : typed_func f.
Proof using A C.
  pose proof (cn_ssa f C) as SA. assert (Pr : forall v, v ∈ f_param_vals f ++ concat (map b_params (f_blocks f)) -> 1 <= v <= f_nvals f).
  { intros v Hv. pose proof (cn_params f C v Hv) as N. apply (ss_range f SA), elem_nonzero. split; [|done].
    apply elem_of_app in Hv as [Hv|Hv]; apply elem_of_app; [by left|right]. apply list_elem_of_In, in_concat in Hv as (l & (b & <- & Hb)%in_map_iff & Hv).
    apply (elem_defined f b); [by apply list_elem_of_In|]. apply elem_of_app. left. by apply list_elem_of_In. }
  split.
  - intros op [(i & Hi & Ho)|(e & He & Ho)].
    + apply (accepted_fits i); [done|]. apply elem_of_app. by left.
    + destruct (edges_inv f e He) as (i & Hi & Hei). apply (accepted_fits i); [done|]. by apply (uses_args i e).
  - intros i Hi _. by apply accepted_types.
  - by apply (cn_results f C).
  - intros i Hi N. split; [|by apply (cn_types f C)]. by apply (ss_range f SA), result_defined.
  - intros e b He Eb. destruct (edges_inv f e He) as (i & Hi & Hei). destruct (accepted_at i Hi) as (b' & blk & k & _ & _ & Ai).
    pose proof (ai_edges _ _ _ _ _ Ai) as U. rewrite Forall_forall in U.
    destruct (U e (proj1 (list_elem_of_In _ _) Hei)) as (tgt & Et & F). rewrite Eb in Et. injection Et as <-.
    revert F. apply Forall2_impl. intros ? ? [_ ?]. symmetry. by apply param_type_value.
  - apply accepted_targets.
  - intros b p Hb Hp. apply Pr. apply elem_of_app. right. apply list_elem_of_In, in_concat. exists (b_params b).
    split; [by apply in_map, list_elem_of_In|by apply list_elem_of_In].
  - intros p Hp. apply Pr. apply elem_of_app. by left.
  - intros i Hi Op. destruct (cn_condbr f C i Hi Op) as [? ?]. split; [done|]. split; [done|].
    pose proof (accepted_types i Hi) as Ty. unfold inst_types_ok in Ty. rewrite Op in Ty. by apply bool_decide_eq_true in Ty.
  - intros i Hi Op. destruct (cn_switch f C i Hi Op) as [? ?]. split; [done|]. split; [done|].
    pose proof (accepted_types i Hi) as Ty. unfold inst_types_ok in Ty. rewrite Op in Ty.
    cbn [andb] in Ty. by destruct (o_type (op_at i 0)).
Qed.
Lemma accepted_structured : structured f.
Proof using A C.
  split.
  - intros b blk k i op _ Eb Ei Ho K. assert (Hi : i ∈ insts f) by (apply (elem_insts f blk); by eapply list_elem_of_lookup_2).
    pose proof (ai_uses _ _ _ _ _ (ab_insts _ _ _ _ (ac_blocks _ _ _ A b blk Eb) k i Ei)) as U. rewrite Forall_forall in U.
    apply declared_defined; [by apply (cn_uses f C), (inst_use i)|done|]. apply U. by apply list_elem_of_In.
  - intros b blk k i Eb Ei T. assert (Hi : i ∈ insts f) by (apply (elem_insts f blk); by eapply list_elem_of_lookup_2).
    split; [|by apply (cn_terms f C)]. by apply (proj2 (ab_term _ _ _ _ (ac_blocks _ _ _ A b blk Eb)) k i Ei).
  - apply (ac_entry _ _ _ A).
Qed.
Lemma accepted_built i : i ∈ insts f -> value_op (in_op i) = true -> built i.
Proof using A C.
  intros Hi V. destruct (cn_arity f C i Hi V) as [? ?]. pose proof (accepted_types i Hi) as Ty.
  unfold inst_types_ok in Ty. split; [done| |]; intros Op; rewrite Op in Ty; cbn [andb] in Ty; unfold icmp_of, fcmp_of.
  all: rewrite !andb_true_iff, Z.leb_le in Ty; rewrite (proj2 (Z.ltb_ge _ _)) by done.
  all: destruct Ty as [_ L]; intros N%lookup_ge_None; cbn in N; lia.
Qed.
Lemma accepted_verified : verified_func f.
Proof using A C.
  split; [apply accepted_typed|apply accepted_structured|apply C|apply accepted_built|apply A].
Qed.

(** ** Executions *)
(** A machine on which every operation has a result. *)
Section runs.
  Context (M : Machine) (TM : total M) (OM : forall sh vs w, inhabited (observes M sh vs w)).
  #[local] Notation "'rd'" := (reads (sym_addr M)).

Definition filled (X : gset Z) (env : Env) : Prop := forall v, v ∈ X -> v <> 0 -> inhabited (env v).
(** An execution stands in a block, every value the code has passed is assigned. *)
Inductive standing : State M -> Prop :=
| stand_run b k blk i X env w : at_pos f b k blk X -> b_insts blk !! k = Some i -> filled X env ->
    standing (Running (drop k (b_insts blk)) env w)
| stand_done vs w : standing (Finished vs w).
(** Returned, or before an instruction of which every value has been assigned
    and that takes a step unless control may not come there. *)
Definition goes_right (s : State M) : Prop :=
  match s with
  | Finished _ _ => True
  | Running ins env _ => exists i rest, ins = i :: rest /\ (forall op, op ∈ inst_uses i -> inhabited (rd env op)) /\
      (in_op i = IR_UNREACHABLE \/ exists s', step M f s s')
  end.

Lemma filled_assign X env id d : filled X env -> inhabited d -> filled ({[id]} ∪ X) (assign env id d).
Proof.
  intros F I v Hv N. unfold assign. destruct (Z.eqb_spec id 0) as [->|N0].
  - apply F; [|done]. apply elem_of_union in Hv as [->%elem_of_singleton|?]; done.
  - unfold bind. destruct (Z.eqb_spec v id) as [->|Ne]; [done|]. apply F; [|done].
    apply elem_of_union in Hv as [?%elem_of_singleton|?]; done.
Qed.
Lemma filled_args X env params args : filled X env -> length params = length args -> Forall (fun op => inhabited (rd env op)) args ->
  filled (list_to_set params ∪ ({[0]} ∪ X)) (bind_args (sym_addr M) env params args).
Proof.
  intros F L I v Hv N. unfold bind_args. destruct ((list_to_map (zip params args) : gmap Z IrOperand) !! v) as [op|] eqn:E.
  - apply elem_of_list_to_map_2, elem_of_zip_r in E. by apply (Forall_elem _ _ I).
  - apply F; [|done]. apply not_elem_of_list_to_map in E. rewrite fst_zip in E by lia. set_solver.
Qed.
Lemma filled_start args : length args = length (f_param_vals f) -> filled (list_to_set (f_param_vals f)) (start_env f args).
Proof.
  unfold start_env. generalize (f_param_vals f). intros ps. revert args. induction ps as [|p ps IH]; intros [|x args] L; try done.
  cbn [zip zip_with fold_right fst snd]. injection L as L. apply filled_assign; [by apply IH|by exists x].
Qed.
Lemma operand_filled X env op : fits False (f_vals f) op -> (o_kind op = IROP_VALUE -> o_a op ∈ X) -> filled X env -> inhabited (rd env op).
Proof.
  intros [_ _ K] U F. unfold reads. destruct (o_kind op); try done; try (by eexists); [|apply any_inhabited].
  apply F; [by apply U|]. destruct K as [K _]. lia.
Qed.
Lemma reads_all env ops : Forall (fun op => inhabited (rd env op)) ops -> exists vs, Forall2 (rd env) ops vs.
Proof. induction 1 as [|op ops [v Hv] _ [vs IH]]; [by exists []|]. exists (v :: vs). by constructor. Qed.
Section at_instruction.
  Context (b k : nat) (blk : IrBlock) (i : IrInst) (X : gset Z) (env : Env) (w : World M).
  Context (AP : at_pos f b k blk X) (Hk : b_insts blk !! k = Some i) (F : filled X env).

Lemma here : i ∈ insts f.
Proof using AP Hk. apply (elem_insts f blk); eapply list_elem_of_lookup_2; [apply AP|exact Hk]. Qed.
Lemma uses_filled op : op ∈ inst_uses i -> inhabited (rd env op).
Proof using C A AP Hk F.
  intros Ho. apply (operand_filled X); [by apply (accepted_fits i); [apply here|]| |done].
  by apply (at_uses f accepted_structured b k blk X i).
Qed.
Lemma operands_filled : Forall (fun op => inhabited (rd env op)) (in_ops i).
Proof using C A AP Hk F. apply Forall_forall. intros op Ho%list_elem_of_In. apply uses_filled, elem_of_app. by left. Qed.
Lemma args_filled e : e ∈ in_edges i -> Forall (fun op => inhabited (rd env op)) (e_args e).
Proof using C A AP Hk F. intros He. apply Forall_forall. intros op Ho%list_elem_of_In. apply uses_filled. by apply (uses_args i e). Qed.
Lemma edge_target e : e ∈ in_edges i -> exists tgt, ir_block f (e_target e) = Some tgt /\ length (b_params tgt) = length (e_args e).
Proof using A AP Hk.
  intros He. destruct (accepted_at i here) as (b' & blk' & k' & _ & _ & Ai). pose proof (Forall_elem _ _ (ai_edges _ _ _ _ _ Ai) e He) as (tgt & E & P).
  exists tgt. split; [done|]. symmetry. by apply Forall2_length in P.
Qed.

Lemma branches vs : Forall2 (rd env) (in_ops i) vs -> in_op i ∈ [IR_BR; IR_CONDBR; IR_SWITCH] ->
  exists j e, taken_edge i vs = Some j /\ in_edges i !! j = Some e.
Proof using C A AP Hk.
  intros R%Forall2_length O. unfold taken_edge.
  apply elem_of_cons in O as [O|[O|[O|[]%elem_of_nil]%elem_of_cons]%elem_of_cons]; rewrite O.
  - pose proof (cn_br f C i here O) as N. destruct (in_edges i) as [|e es]; [done|]. by exists 0%nat, e.
  - destruct (cn_condbr f C i here O) as [L N]. unfold in_nops in N. destruct vs as [|c [|]]; cbn in R; try lia.
    destruct (in_edges i) as [|e1 [|e2 [|]]]; try done. destruct (c =? 0); [by exists 1%nat, e2|by exists 0%nat, e1].
  - destruct (cn_switch f C i here O) as [L N]. unfold in_nops in N. destruct vs as [|c [|]]; cbn in R; try lia.
    set (j := case_edge _ _ _ _). destruct (lookup_lt_is_Some_2 (in_edges i) j) as [e He]; [|by exists j, e].
    destruct (case_edge_bound (type_bits (o_type (op_at i 0))) c (drop 1 (in_edges i)) 1) as [B|B]; fold j in B; [lia|].
    rewrite length_drop in B. lia.
Qed.
Lemma standing_goes_right : goes_right (Running (drop k (b_insts blk)) env w).
Proof using C A AP Hk F TM.
  rewrite (drop_S _ _ _ Hk). exists i, (drop (S k) (b_insts blk)). split; [done|]. split; [apply uses_filled|].
  destruct (reads_all env _ operands_filled) as [vs R].
  destruct (scalar i) eqn:Sc; [right; eexists; by apply step_scalar|].
  destruct (observing i) eqn:Ob; [right; eexists; by apply step_observe|].
  destruct (is_terminator (in_op i)) eqn:T.
  2: { right. destruct (TM (shape i) vs w) as (r & w' & E). eexists. eapply step_effect; [|exact R|exact E].
       unfold effectful. by rewrite Sc, Ob, T. }
  destruct (decide (in_op i = IR_UNREACHABLE)) as [|N]; [by left|right].
  destruct (decide (in_op i = IR_RET)) as [O|N2]; [eexists; by eapply step_ret|].
  assert (O : in_op i ∈ [IR_BR; IR_CONDBR; IR_SWITCH]) by (destruct (in_op i); try discriminate T; try done; in_list).
  destruct (branches vs R O) as (j & e & Tk & He). destruct (edge_target e) as (tgt & E & _); [by eapply list_elem_of_lookup_2|].
  eexists. by eapply step_branch.
Qed.
Lemma not_last : is_terminator (in_op i) = false -> exists i', b_insts blk !! S k = Some i'.
Proof using A AP Hk.
  intros T. apply lookup_lt_is_Some_2. pose proof (lookup_lt_Some _ _ _ Hk).
  pose proof (proj2 (ab_term _ _ _ _ (ac_blocks _ _ _ A b blk (ap_block _ _ _ _ _ AP))) k i Hk) as [_ N].
  destruct (Nat.eq_dec (S k) (length (b_insts blk))) as [E|]; [|lia]. rewrite (N E) in T. done.
Qed.
Lemma standing_next d w' : is_terminator (in_op i) = false -> inhabited d -> standing (Running (drop (S k) (b_insts blk)) (assign env (in_result i) d) w').
Proof using C A AP Hk F.
  intros T I. destruct (not_last T) as [i' Hk']. eapply (stand_run b (S k) blk i' ({[in_result i]} ∪ X)); [exact (at_step f accepted_structured b k blk X i AP Hk)|exact Hk'|].
  by apply filled_assign.
Qed.
Lemma standing_step s : step M f (Running (drop k (b_insts blk)) env w) s -> standing s.
Proof using C A AP Hk F TM OM.
  rewrite (drop_S _ _ _ Hk). destruct (reads_all env _ operands_filled) as [vs0 R0]. intros St. inversion St; subst.
  - apply standing_next; [unfold scalar in *; by destruct (in_op i)|].
    apply (den_inhabited _ _ _ (f_ret f) (f_variadic f)); [done|by apply accepted_types, here| |apply operands_filled].
    apply accepted_built; [apply here|]. unfold scalar in *. by destruct (value_op (in_op i)).
  - apply standing_next; [unfold observing in *; by destruct (in_op i)|]. destruct (OM (shape i) vs0 w) as [r Hr]. by exists r, vs0.
  - apply standing_next; [unfold effectful in *; by destruct (is_terminator (in_op i))|]. by eexists.
  - match goal with E : in_edges i !! _ = Some ?e, B : ir_block f _ = Some ?tgt |- _ => rename E into He, B into Bt; rename e into ed; rename tgt into nb end.
    apply list_elem_of_lookup_2 in He. destruct (edge_target ed He) as (tgt & E & L). rewrite Bt in E. injection E as <-.
    assert (T : is_terminator (in_op i) = true) by (unfold taken_edge in *; by destruct (in_op i)).
    apply ir_block_index in Bt as (t & Ti & Et & _); [|apply (cn_targets f C), (elem_edges f i); [apply here|done]].
    destruct (b_insts nb) as [|i' ins'] eqn:Ei.
    { by destruct (proj1 (ab_term _ _ _ _ (ac_blocks _ _ _ A t nb Et))). }
    rewrite <- Ei. eapply (stand_run t 0 nb i'); [exact (at_jump f accepted_structured b k blk X i ed t nb AP Hk T He Ti Et)|by rewrite Ei|].
    apply filled_args; [done|done|by apply args_filled].
  - constructor.
Qed.
End at_instruction.

Lemma runs_on args (w : World M) s : length args = length (f_param_vals f) -> rtc (step M f) (start M f args w) s -> standing s.
Proof using C A TM OM.
  intros L. revert s. apply rtc_ind_r.
  - unfold start. destruct (f_blocks f) as [|blk bs] eqn:E; [by destruct (ac_nonempty _ _ _ A)|].
    assert (E0 : f_blocks f !! 0%nat = Some blk) by by rewrite E.
    destruct (b_insts blk) as [|i ins] eqn:Ei; [by destruct (proj1 (ab_term _ _ _ _ (ac_blocks _ _ _ A 0%nat blk E0)))|].
    rewrite <- Ei. change (b_insts blk) with (drop 0 (b_insts blk)).
    eapply (stand_run 0 0 blk i); [apply (at_start f accepted_structured blk E0)|by rewrite Ei|by apply filled_start].
  - intros s s' _ St H. revert St. destruct H as [b k blk i X env w' AP Hk F|vs w']; intros St; [exact (standing_step b k blk i X env w' AP Hk F s' St)|inversion St].
Qed.
Lemma runs_right args (w : World M) s : length args = length (f_param_vals f) -> rtc (step M f) (start M f args w) s -> goes_right s.
Proof using C A TM OM.
  intros L R. destruct (runs_on args w s L R) as [b k blk i X env w' AP Hk F|vs w']; [|done]. by apply (standing_goes_right b k blk i X).
Qed.
End runs.
End sound.

Lemma accepted_silent m f a : Forall (fun i => is_u32 (in_aux i)) (insts f) -> verify_func m f a = Some [] -> accepted m f a.
Proof. intros R. apply (proj1 (verify_func_spec m f a R)). Qed.
(** C8. The verifier is sound: a function it accepts does not go wrong. What no
    check looks at is assumed ([constructed]): that the value table is right,
    ids are defined once, operands carry the type of their value, an operation
    of values has the operands of its opcode and a result of its type, and a
    branch the edges of its kind. Then a function the verifier reports nothing
    about has the form the passes rely on ([verified_func], where definitions
    dominate uses), and on every machine whose operations all have results,
    started on as many arguments as there are parameters, every state an
    execution reaches goes right: it has returned, or all operands of its next
    instruction, those of its edges included, have been assigned, and it takes
    a step unless the instruction is [unreachable]. *)
Theorem verify_func_sound m f a : constructed f -> Forall (fun i => is_u32 (in_aux i)) (insts f) -> verify_func m f a = Some [] ->
  verified_func f /\
  forall (M : Machine) args (w : World M), total M -> (forall sh vs w, inhabited (observes M sh vs w)) ->
  length args = length (f_param_vals f) ->
  forall s, rtc (step M f) (start M f args w) s -> goes_right f M s.
Proof.
  intros C R E. pose proof (accepted_silent m f a R E) as A.
  split; [by apply (accepted_verified m f a)|]. intros M args w TM OM L s. by apply (runs_right m f a C A M TM OM args w s).
Qed.

(** ** The table after a renumbering *)
Section table.
  Context (f : IrFunc) (S : ssa f) (T : Z -> IrValInfo -> Prop).
  #[local] Notation "'m'" := (number_func f).1.
  #[local] Notation "'doc'" := (doc_ids f).
  #[local] Notation "'old'" := (f_vals f).

Definition tabled (nv : list IrValInfo) : Prop := forall k vi, nv !! k = Some vi -> T (Z.of_nat k + 1) vi.
Definition entry_ok (kind : IrValDef) (b v pos : Z) : Prop :=
  (v = 0 \/ v ∈ doc) /\ (v ∈ doc -> T (numbered m v) (mkVal (ir_value_type old v) kind b pos)).

Lemma write_val_tabled kind b v pos nv : tabled nv -> entry_ok kind b v pos -> tabled (write_val m old kind b v pos nv).
Proof using S.
  intros H [[->|Hv] E]; [done|]. unfold write_val. cbv zeta. rewrite (proj2 (Z.eqb_neq v 0)) by by apply (doc_not_zero f).
  pose proof (numbered_range f S v Hv) as R. rewrite (proj2 (Z.eqb_neq (numbered m v) 0)) by lia.
  intros k vi. destruct (decide (k = Z.to_nat (numbered m v - 1))) as [->|N].
  - intros Hk. rewrite list_lookup_insert_eq in Hk; [|apply lookup_lt_Some in Hk; by rewrite length_insert in Hk].
    injection Hk as <-. replace (Z.of_nat (Z.to_nat (numbered m v - 1)) + 1) with (numbered m v) by lia. by apply E.
  - rewrite list_lookup_insert_ne by done. apply H.
Qed.
Lemma write_params_tabled kind b vs nv : tabled nv -> (forall v, v ∈ vs -> entry_ok kind b v 0) -> tabled (write_params m old kind b vs nv).
Proof using S.
  unfold write_params. revert nv. induction vs as [|v vs IH]; intros nv H E; [done|]. cbn [foldl].
  apply IH; [apply write_val_tabled; [done|apply E; left]|]. intros w Hw. apply E. by right.
Qed.
Lemma write_insts_tabled b ins nv : tabled nv -> (forall j i, ins !! j = Some i -> entry_ok VDEF_INST b (in_result i) (Z.of_nat j)) ->
  tabled (write_insts m old b ins nv).
Proof using S.
  unfold write_insts. intros H E. assert (G : forall p nv, tabled nv ->
    (forall j i, ins !! j = Some i -> entry_ok VDEF_INST b (in_result i) (p + Z.of_nat j)) ->
    tabled (foldl (fun '(pos, nv) i => (pos + 1, write_val m old VDEF_INST b (in_result i) pos nv)) (p, nv) ins).2); [|by apply G].
  clear -S. induction ins as [|i ins IH]; intros p nv H E; [done|]. cbn [foldl]. apply IH.
  - apply write_val_tabled; [done|]. specialize (E 0%nat i eq_refl). by rewrite Z.add_0_r in E.
  - intros j i' Hj. specialize (E (Datatypes.S j) i' Hj). by replace (p + 1 + Z.of_nat j) with (p + Z.of_nat (Datatypes.S j)) by lia.
Qed.
Lemma write_blocks_tabled b bs nv : tabled nv ->
  (forall k blk, bs !! k = Some blk -> (forall v, v ∈ b_params blk -> entry_ok VDEF_BPARAM (b + Z.of_nat k) v 0) /\
    forall j i, b_insts blk !! j = Some i -> entry_ok VDEF_INST (b + Z.of_nat k) (in_result i) (Z.of_nat j)) ->
  tabled (write_blocks m old b bs nv).
Proof using S.
  revert b nv. induction bs as [|blk bs IH]; intros b nv H E; [done|]. cbn [write_blocks]. apply IH.
  - destruct (E 0%nat blk eq_refl) as [E1 E2]. rewrite Z.add_0_r in E1, E2. apply write_insts_tabled; [|done]. by apply write_params_tabled.
  - intros k blk' Hk. specialize (E (Datatypes.S k) blk' Hk). by replace (b + 1 + Z.of_nat k) with (b + Z.of_nat (Datatypes.S k)) by lia.
Qed.
End table.

Lemma renumber_recorded f : ssa f -> recorded (ir_func_renumber f).
Proof.
  intros S. destruct (renumber_fields f S) as (_ & _ & Ep & Eb & Ev & _). unfold recorded. rewrite Ev.
  assert (L : forall v, v ∈ f_param_vals f ++ defined_ids f -> v = 0 \/ v ∈ doc_ids f) by apply listed.
  assert (Bl : forall k blk, f_blocks f !! k = Some blk ->
    block_of (ir_func_renumber f) (1 + Z.of_nat k) = Some (renumber_block (number_func f).1 (f_nvals f) blk)).
  { intros k blk Hk. unfold block_of. rewrite (proj2 (Z.leb_le _ _)), Eb, list_lookup_fmap by lia.
    replace (Z.to_nat (1 + Z.of_nat k - 1)) with k by lia. by rewrite Hk. }
  assert (In : forall k blk v, f_blocks f !! k = Some blk -> v ∈ block_ids blk -> v ∈ f_param_vals f ++ defined_ids f).
  { intros k blk v Hk Hv. apply elem_of_app. right. apply (elem_defined f blk); [by eapply list_elem_of_lookup_2|done]. }
  set (T := fun v vi => vi_def_kind vi = VDEF_NONE \/ located (ir_func_renumber f) v vi).
  intros k vi Hk. assert (H : T (Z.of_nat k + 1) vi); [|destruct H as [H|H]; [by destruct (renumber_defined f S k vi); [rewrite Ev|]|done]].
  revert k vi Hk. apply (write_blocks_tabled f S T); [apply (write_params_tabled f S)|].
  - intros k vi Hk. apply lookup_replicate in Hk as [-> _]. by left.
  - intros v Hv. split; [apply L, elem_of_app; by left|]. intros Hd. right. cbn. rewrite Ep, <- (fresh_in f S v Hd).
    by apply list_elem_of_In, in_map, list_elem_of_In.
  - intros k blk Hk. split.
    + intros v Hv. split; [apply L, (In k blk); [done|]; apply elem_of_app; by left|]. intros Hd. right. cbn. exists (renumber_block (number_func f).1 (f_nvals f) blk).
      split; [by apply Bl|]. cbn. rewrite <- (fresh_in f S v Hd). by apply list_elem_of_In, in_map, list_elem_of_In.
    + intros j i Hi. split.
      { apply L, (In k blk); [done|]. apply elem_of_app. right. apply list_elem_of_In, in_map, list_elem_of_In. by eapply list_elem_of_lookup_2. }
      intros Hd. right. cbn. split; [lia|]. exists (renumber_block (number_func f).1 (f_nvals f) blk), (renumber_inst (number_func f).1 (f_nvals f) i).
      split; [by apply Bl|]. cbn. rewrite Nat2Z.id, list_lookup_fmap, Hi. split; [done|]. by apply fresh_in.
Qed.

(** C39. Renumbering makes the value table right: every entry of the new table
    names the block and the position where the value is defined, or says that
    it is a parameter of the function. *)
Theorem renumber_records f : ssa f -> recorded (ir_func_renumber f).
Proof. apply renumber_recorded. Qed.

(** ** Examples *)
Lemma Forall_uses (P : IrOperand -> Prop) f : Forall P (concat (map inst_uses (insts f))) -> forall op, uses f op -> P op.
Proof.
  intros F op U. apply (Forall_elem _ _ F). destruct U as [(i & Hi & Ho)|(e & (i & Hi & He)%edges_inv & Ho)];
    apply list_elem_of_In, in_concat; exists (inst_uses i); (split; [by apply in_map, list_elem_of_In|apply list_elem_of_In]).
  - apply elem_of_app. by left.
  - by apply (uses_args i e).
Qed.
(** Every clause about a concrete function is a list of closed goals. *)
Ltac concrete :=
  repeat match goal with |- forall op, uses _ op -> _ => refine (Forall_uses _ _ _) | |- forall x, x ∈ _ -> _ => refine (Forall_elem _ _ _) end;
  match goal with |- Forall _ ?l => let l' := eval vm_compute in l in change l with l' end;
  repeat constructor; cbn; try done; try (split; lia || reflexivity); try lia.

Lemma example_ssa : ssa Sccp.example_func.
Proof. split; [vm_compute; repeat constructor; set_solver| |done]. concrete. Qed.
Definition counter : IrFunc := ir_func_renumber Sccp.example_func.
Lemma counter_constructed : constructed counter.
Proof.
  split.
  - intros k vi Hk. right. by apply (renumber_recorded _ example_ssa).
  - split; [vm_compute; repeat constructor; set_solver| |done]. concrete.
  - concrete.
  - concrete.
  - concrete.
  - concrete.
  - concrete.
  - concrete.
  - concrete.
  - concrete.
  - concrete.
  - concrete.
Qed.
Definition counter_attrs : FuncAttrs := mkAttrs String.EmptyString false IR_ABIRET_NONE [] None false false.
Definition counter_module : IrModule := mkModule [(counter, counter_attrs)] [mkGlobal 8 16 [mkReloc 8 0]] [String.EmptyString] None.
Lemma counter_verified : verified_func counter.
Proof.
  apply (accepted_verified counter_module counter counter_attrs counter_constructed).
  apply accepted_silent; [concrete|vm_compute; reflexivity].
Qed.
Lemma counter_reduced : constants_reduced counter.
Proof. intros _. concrete. Qed.

Lemma ir_verify_accepts_witness : fields_fit counter_module /\ complete_module counter_module /\ ir_verify counter_module = Some true /\ module_ok counter_module.
Proof.
  assert (G : fields_fit counter_module) by (split; repeat constructor; done).
  assert (D : complete_module counter_module).
  { repeat constructor; try (unfold complete_inst; cbn; lia); try (intros ? ? Op; discriminate Op).
    all: intros tgt E; vm_compute in E; injection E as <-; repeat constructor; eexists; reflexivity. }
  destruct (ir_verify_accepts counter_module G) as [H A]. assert (V : ir_verify counter_module = Some true) by (vm_compute; reflexivity).
  split; [exact G|]. split; [exact D|]. split; [exact V|]. exact (proj1 H V).
Defined.
Lemma renumber_records_witness : recorded counter /\ map vi_def_block (f_vals counter) = [2; 2; 3].
Proof. split; [apply (renumber_records Sccp.example_func example_ssa)|vm_compute; reflexivity]. Defined.
Lemma sccp_analysis_ends_witness : exists s, Sccp.analyze counter None = Some s /\ SccpAnalysis.solution counter None s /\
  map (Sccp.value_at s) [1; 2; 3] = [Sccp.LAT_CONST (ir_op_iconst IRT_I32 7); Sccp.LAT_CONST (ir_op_iconst IRT_I32 1); Sccp.LAT_TOP] /\
  (length (Sccp.value_work s) <= 6)%nat.
Proof.
  destruct (SccpAnalysis.sccp_analysis_ends counter None (vf_typed _ counter_verified) counter_reduced) as (s & E & SO & _ & _ & L).
  exists s. split; [exact E|]. split; [exact SO|]. split; [|exact L].
  assert (V : (s ← Sccp.analyze counter None; Some (map (Sccp.value_at s) [1; 2; 3])) =
    Some [Sccp.LAT_CONST (ir_op_iconst IRT_I32 7); Sccp.LAT_CONST (ir_op_iconst IRT_I32 1); Sccp.LAT_TOP]) by (vm_compute; reflexivity).
  rewrite E in V. cbn [mbind option_bind] in V. congruence.
Defined.
(** The loop and the branch are gone: the function returns 7. *)
Lemma sccp_func_refines_witness : exists h, Sccp.sccp_func counter None = Some (h, true) /\ refined None counter h /\
  length (f_blocks h) = 3%nat /\ map in_ops (insts h) = [[]; [ir_op_iconst IRT_I32 7; ir_op_iconst IRT_I32 7]; []; [ir_op_iconst IRT_I32 7]].
Proof.
  destruct (sccp_func_refines counter None counter_verified counter_reduced) as (h & changed & E & R & _).
  assert (V : (r ← Sccp.sccp_func counter None; Some (r.2, length (f_blocks r.1), map in_ops (insts r.1))) =
    Some (true, 3%nat, [[]; [ir_op_iconst IRT_I32 7; ir_op_iconst IRT_I32 7]; []; [ir_op_iconst IRT_I32 7]])) by (vm_compute; reflexivity).
  rewrite E in V. cbn [mbind option_bind fst snd] in V. exists h. split; [congruence|]. split; [exact R|]. split; congruence.
Defined.

(** A machine without memory on which nothing fails. *)
Definition idle_machine : Machine := Build_Machine unit (fun _ => 0) plain_fpu (fun _ _ _ _ => True) (fun _ _ _ r _ => r = 0).
Lemma idle_lawful : lawful None idle_machine.
Proof. split; [done..|]. intros. by exists 0. Qed.
Lemma idle_total : total idle_machine.
Proof. intros sh vs w. by exists 0, w. Qed.
Lemma verify_func_sound_witness : verified_func counter /\
  forall s, rtc (step idle_machine counter) (start idle_machine counter [] tt) s -> goes_right counter idle_machine s.
Proof.
  assert (R : Forall (fun i => is_u32 (in_aux i)) (insts counter)) by concrete.
  assert (E : verify_func counter_module counter counter_attrs = Some []) by (vm_compute; reflexivity).
  destruct (verify_func_sound counter_module counter counter_attrs counter_constructed R E) as [V G].
  split; [exact V|]. apply (G idle_machine [] tt idle_total); [intros; by exists 0|reflexivity].
Defined.
(** [condbr 1 ? 2 : 3], then a return of 5 or of 6. *)
Definition decide_func : IrFunc :=
  let ret v := mkBlock [] [mkInst IR_RET IRT_VOID 0 0 0 0 [ir_op_iconst IRT_I32 v] []] in
  mkFunc IRT_I32 false [] [mkBlock [] [mkInst IR_CONDBR IRT_VOID 0 0 0 0 [ir_op_iconst IRT_I32 1] [mkEdge 2 [] 0; mkEdge 3 [] 0]]; ret 5; ret 6] [] [].
Lemma decide_verified : verified_func decide_func.
Proof.
  apply (accepted_verified counter_module decide_func counter_attrs).
  - split; try concrete; [intros [|k] vi Hk; done|split; [constructor|concrete|done]].
  - apply accepted_silent; [concrete|vm_compute; reflexivity].
Qed.
Lemma decide_reduced : constants_reduced decide_func.
Proof. intros _. concrete. Qed.
Lemma decide_safe : safe idle_machine decide_func [] tt.
Proof.
  assert (I : forall s, rtc (step idle_machine decide_func) (start idle_machine decide_func [] tt) s ->
    (exists k blk env w, f_blocks decide_func !! k = Some blk /\ s = Running (b_insts blk) env w) \/ exists vs w, s = Finished vs w).
  { apply rtc_ind_r; [left; by exists 0%nat; do 3 eexists|]. intros s s' _ St [(k & blk & env & w & Eb & ->)|(vs & w & ->)].
    2: { inversion St. }
    destruct k as [|[|[|k]]]; [| | |done]; injection Eb as <-; cbn [b_insts] in St; inversion St; subst; try done; try (by right; do 2 eexists); left.
    all: match goal with T : taken_edge _ _ = Some _ |- _ => cbn in T end; try done.
    match goal with F : Forall2 _ _ ?vs |- _ => destruct vs as [|c [|]]; try done end. simplify_eq.
    match goal with K : in_edges _ !! _ = Some _, B : ir_block _ _ = Some _ |- _ => revert K B end.
    destruct (c =? 0); intros [= <-] [= <-]; [exists 2%nat|exists 1%nat]; by do 3 eexists. }
  intros s X. destruct (I s X) as [(k & blk & env & w & Eb & ->)|Fin]; [right|by left].
  destruct k as [|[|[|k]]]; [| | |done]; injection Eb as <-; cbn [b_insts]; eexists.
  - eapply (step_branch _ _ _ _ _ _ [1] 0%nat); [|done..]. by repeat constructor.
  - eapply step_ret; [done|]. by repeat constructor.
  - eapply step_ret; [done|]. by repeat constructor.
Qed.
Lemma sccp_func_progress_witness : exists h, Sccp.sccp_func decide_func None = Some (h, true) /\ safe idle_machine h [] tt /\ length (f_blocks h) = 2%nat.
Proof.
  destruct (sccp_func_progress decide_func None decide_verified decide_reduced) as (h & changed & E & P).
  assert (V : (r ← Sccp.sccp_func decide_func None; Some (r.2, length (f_blocks r.1))) = Some (true, 2%nat)) by (vm_compute; reflexivity).
  rewrite E in V. cbn [mbind option_bind fst snd] in V. exists h. split; [congruence|]. split; [|congruence].
  exact (P idle_machine [] tt idle_lawful idle_total eq_refl decide_safe).
Defined.
