(* ===== verification/Ctype.v ===== *)
(** The C types of semantic analysis: [Type], [Member] and [TagDecl] of
    [sema/sema.h], the predicates of [sema/types.c] that other components
    share, and the target table of [target.c].

    A [Type *] is the tree it points to; a [TagDecl *] is an id into a store of
    tags, because tags are shared, cyclic through pointers, and mutated when
    they are laid out. Names, syntax nodes and view identities, which are only
    compared, are numbers. [None] is the null pointer. *)
From stdpp Require Import base gmap list.
From S2P Require Import Prelude Pptok.


(** ** Data *)
Inductive TypeKind :=
| TY_VOID | TY_BOOL | TY_CHAR | TY_SCHAR | TY_UCHAR | TY_SHORT | TY_USHORT | TY_INT | TY_UINT
| TY_LONG | TY_ULONG | TY_LLONG | TY_ULLONG | TY_INT128 | TY_UINT128
| TY_FLOAT16 | TY_FLOAT | TY_DOUBLE | TY_LDOUBLE | TY_FLOAT128
| TY_FLOAT32 | TY_FLOAT64 | TY_FLOAT32X | TY_FLOAT64X
| TY_PTR | TY_ARRAY | TY_FUNC | TY_STRUCT | TY_UNION | TY_ENUM | TY_VECTOR | TY_ERROR.

(** The enumeration's order, which [kind >= TY_BOOL] and the like read. *)
Definition type_kinds : list TypeKind :=
  [TY_VOID; TY_BOOL; TY_CHAR; TY_SCHAR; TY_UCHAR; TY_SHORT; TY_USHORT; TY_INT; TY_UINT;
   TY_LONG; TY_ULONG; TY_LLONG; TY_ULLONG; TY_INT128; TY_UINT128;
   TY_FLOAT16; TY_FLOAT; TY_DOUBLE; TY_LDOUBLE; TY_FLOAT128;
   TY_FLOAT32; TY_FLOAT64; TY_FLOAT32X; TY_FLOAT64X;
   TY_PTR; TY_ARRAY; TY_FUNC; TY_STRUCT; TY_UNION; TY_ENUM; TY_VECTOR; TY_ERROR].

Definition kind_num (k : TypeKind) : nat :=
  match k with
  | TY_VOID => 0 | TY_BOOL => 1 | TY_CHAR => 2 | TY_SCHAR => 3 | TY_UCHAR => 4 | TY_SHORT => 5
  | TY_USHORT => 6 | TY_INT => 7 | TY_UINT => 8 | TY_LONG => 9 | TY_ULONG => 10 | TY_LLONG => 11
  | TY_ULLONG => 12 | TY_INT128 => 13 | TY_UINT128 => 14 | TY_FLOAT16 => 15 | TY_FLOAT => 16
  | TY_DOUBLE => 17 | TY_LDOUBLE => 18 | TY_FLOAT128 => 19 | TY_FLOAT32 => 20 | TY_FLOAT64 => 21
  | TY_FLOAT32X => 22 | TY_FLOAT64X => 23 | TY_PTR => 24 | TY_ARRAY => 25 | TY_FUNC => 26
  | TY_STRUCT => 27 | TY_UNION => 28 | TY_ENUM => 29 | TY_VECTOR => 30 | TY_ERROR => 31
  end%nat.

#[export] Instance kind_num_inj : Inj (=) (=) kind_num.
Proof.
  assert (K : forall k, type_kinds !! kind_num k = Some k) by (intros []; reflexivity).
  intros a b E. apply (inj Some). by rewrite <- (K a), <- (K b), E.
Qed.
#[export] Instance TypeKind_eq_dec : EqDecision TypeKind.
Proof.
  intros a b. destruct (decide (kind_num a = kind_num b)) as [E|E].
  - left. exact (inj kind_num a b E).
  - right. intros ->. by apply E.
Defined.

(** [TagDecl *]. *)
Abbreviation TagId := positive (only parsing).

(** An [unsigned] of [CGF_QUAL_*] bits. *)
Definition CGF_QUAL_CONST : Z := 1.
Definition CGF_QUAL_VOLATILE : Z := 2.
Definition CGF_QUAL_RESTRICT : Z := 4.
Definition CGF_QUAL_ATOMIC : Z := 8.

Inductive CType := mkType {
  ty_kind : TypeKind;
  ty_quals : Z;
  ty_integer_precision : Z;
  ty_integer_is_signed : bool;
  ty_may_alias : bool;
  ty_transparent_union_identity : option positive;
  ty_scalar_storage_order : Z;
  ty_scalar_storage_order_identity : option positive;
  ty_align_override : Z;
  ty_align_is_exact : bool;
  ty_base : option CType;
  ty_has_size : bool;
  ty_size : Z;
  ty_is_vla : bool;
  ty_size_expr : option positive;
  ty_params : list (option CType);
  ty_variadic : bool;
  ty_has_proto : bool;
  ty_old_style_definition : bool;
  ty_kr_definition : bool;
  ty_old_style_params : list (option CType);
  ty_tag : option TagId;
  ty_enum_repr : option CType
}.

Record Member := mkMember {
  m_name : option positive;
  m_type : option CType;
  m_is_bitfield : bool;
  m_offset : Z;
  m_bit_shift : Z;
  m_bit_width : Z;
  m_container_size : Z;
  m_align_override : Z;
  m_packed : bool;
  m_pack_align : Z;
  m_laid_out : bool
}.

Record TagDecl := mkTag {
  tag_kind : TypeKind;
  tag_complete : bool;
  tag_members : list Member;
  tag_nmembers : Z;
  tag_enum_underlying : option CType;
  tag_align_override : Z;
  tag_laid_out : bool;
  tag_laid_out_for : TargetKind;
  tag_size : Z;
  tag_align : Z;
  tag_natural_align : Z
}.

Abbreviation Tags := (gmap TagId TagDecl).

(** [t->tag] followed: [None] when null. *)
Definition tag_of (st : Tags) (t : CType) : option TagDecl :=
  match ty_tag t with Some id => st !! id | None => None end.

(** A zeroed node of a kind ([type_new], [type_basic]). *)
Definition type_basic (k : TypeKind) : CType :=
  {| ty_kind := k; ty_quals := 0; ty_integer_precision := 0; ty_integer_is_signed := false;
     ty_may_alias := false; ty_transparent_union_identity := None; ty_scalar_storage_order := 0;
     ty_scalar_storage_order_identity := None; ty_align_override := 0; ty_align_is_exact := false;
     ty_base := None; ty_has_size := false; ty_size := 0; ty_is_vla := false; ty_size_expr := None;
     ty_params := []; ty_variadic := false; ty_has_proto := false; ty_old_style_definition := false;
     ty_kr_definition := false; ty_old_style_params := []; ty_tag := None; ty_enum_repr := None |}.

(** ** Predicates *)
Definition kind_is (t : CType) (k : TypeKind) : bool := bool_decide (ty_kind t = k).
Definition kind_in (t : CType) (lo hi : TypeKind) : bool :=
  (kind_num lo <=? kind_num (ty_kind t))%nat && (kind_num (ty_kind t) <=? kind_num hi)%nat.

Definition type_is_integer (t : CType) : bool := kind_in t TY_BOOL TY_UINT128 || kind_is t TY_ENUM.
Definition type_is_floating (t : CType) : bool := kind_in t TY_FLOAT16 TY_FLOAT64X.

Definition type_enum_underlying (st : Tags) (t : CType) : option CType :=
  if negb (kind_is t TY_ENUM) then None
  else match ty_enum_repr t with
       | Some r => Some r
       | None => match tag_of st t with
                 | Some td => match tag_enum_underlying td with Some u => Some u | None => Some (type_basic TY_INT) end
                 | None => Some (type_basic TY_INT)
                 end
       end.

Definition member_uses_packed_bits (m : Member) : bool := m_packed m || negb (m_pack_align m =? 0).

Definition member_effective_align (m : Member) (natural : Z) : Z :=
  let align := if m_packed m then 1 else natural in
  let align := if align <? m_align_override m then m_align_override m else align in
  if negb (m_pack_align m =? 0) && (m_pack_align m <? align) then m_pack_align m else align.

(** ** The target table *)
Inductive LongDoubleKind := CGF_LDBL_X87_80 | CGF_LDBL_IEEE128 | CGF_LDBL_IS_DOUBLE.
#[export] Instance LongDoubleKind_eq_dec : EqDecision LongDoubleKind.
Proof. solve_decision. Defined.

Record TargetLayout := {
  ptr_size : Z; ptr_align : Z; ldbl_size : Z; ldbl_align : Z; ldbl_kind : LongDoubleKind; max_align : Z }.

Definition cgf_target_layout (t : TargetKind) : TargetLayout :=
  match t with
  | CGF_TARGET_X86_64_LINUX_GNU | CGF_TARGET_X86_64_LINUX_MUSL | CGF_TARGET_X86_64_FREEBSD =>
    {| ptr_size := 8; ptr_align := 8; ldbl_size := 16; ldbl_align := 16; ldbl_kind := CGF_LDBL_X87_80;
       max_align := 16 |}
  | CGF_TARGET_ARM64_LINUX =>
    {| ptr_size := 8; ptr_align := 8; ldbl_size := 16; ldbl_align := 16; ldbl_kind := CGF_LDBL_IEEE128;
       max_align := 16 |}
  | CGF_TARGET_ARM64_MACOS =>
    {| ptr_size := 8; ptr_align := 8; ldbl_size := 8; ldbl_align := 8; ldbl_kind := CGF_LDBL_IS_DOUBLE;
       max_align := 16 |}
  end.

(** ** Operations over the store of tags

    [None] when the code would divide by zero, follow a dangling tag or not
    return. *)
Definition Sema (A : Type) := Tags -> option (A * Tags).
Definition ret {A} (a : A) : Sema A := fun st => Some (a, st).
Definition bind {A B} (m : Sema A) (k : A -> Sema B) : Sema B :=
  fun st => match m st with Some (a, st) => k a st | None => None end.
Definition stuck {A} : Sema A := fun _ => None.
Definition get : Sema Tags := fun st => Some (st, st).
Definition set_tag (id : TagId) (td : TagDecl) : Sema unit := fun st => Some (tt, <[id := td]> st).
Definition lift {A} (o : option A) : Sema A := match o with Some a => ret a | None => stuck end.

Declare Scope sema_scope.
Delimit Scope sema_scope with sema.
Notation "'let*' x ':=' m 'in' k" := (bind m (fun x => k))
  (at level 10, x name, m at level 100, k at level 200) : sema_scope.
Notation "'do*' m 'in' k" := (bind m (fun _ => k)) (at level 10, m at level 100, k at level 200) : sema_scope.
