(* ===== verification/Layout.v ===== *)
(** Object layout, [sema/layout.c]: sizes, alignments, and the placement of
    members and bit-fields.

    The functions run over the store of tags, which memoizes the layout of each
    record. [layout_of] and [layout_record] call each other: the recursion is on
    the fuel of [layout_of_n], and [layout_of] passes enough for a store in which
    no record contains itself. *)
From stdpp Require Import base gmap list.
From S2P Require Import Prelude Pptok Ctype.
#[local] Open Scope sema_scope.

Definition UINT64_MAX : Z := 2 ^ 64 - 1.

Record TypeLayout := mkLayout { tl_size : Z; tl_align : Z }.

Definition align_up (v a : Z) : Z :=
  if a =? 0 then v
  else let remainder := v mod a in
       if remainder =? 0 then v
       else let add := a - remainder in
            if UINT64_MAX - add <? v then UINT64_MAX else v +64 add.

Fixpoint layout_is_complete_for_size (st : Tags) (t : CType) : bool :=
  match ty_kind t with
  | TY_VOID | TY_FUNC => false
  | TY_ARRAY => ty_has_size t &&
                match ty_base t with Some b => layout_is_complete_for_size st b | None => false end
  | TY_STRUCT | TY_UNION | TY_ENUM => match tag_of st t with Some td => tag_complete td | None => false end
  | _ => true
  end.

(** The loop over members; [None] when a recursive call does not return. *)
Fixpoint any_member (f : CType -> option bool) (ms : list Member) : option bool :=
  match ms with
  | [] => Some false
  | m :: ms => match m_type m with
               | None => any_member f ms
               | Some t => match f t with
                           | Some true => Some true
                           | Some false => any_member f ms
                           | None => None
                           end
               end
  end.

Fixpoint type_is_runtime_sized (fuel : nat) (st : Tags) (t : CType) : option bool :=
  match fuel with
  | O => None
  | S fuel =>
    match ty_kind t with
    | TY_ARRAY => if ty_is_vla t then Some true
                  else match ty_base t with Some b => type_is_runtime_sized fuel st b | None => Some false end
    | TY_STRUCT | TY_UNION =>
      match tag_of st t with
      | None => Some false
      | Some td => any_member (type_is_runtime_sized fuel st) (tag_members td)
      end
    | _ => Some false
    end
  end.

Definition square (n : Z) : TypeLayout := {| tl_size := n; tl_align := n |}.

Definition basic_layout (target : TargetKind) (t : CType) : TypeLayout :=
  let w := cgf_target_int_widths target in
  let tl := cgf_target_layout target in
  match ty_kind t with
  | TY_BOOL => square 1
  | TY_CHAR | TY_SCHAR | TY_UCHAR => square (char_bits w / 8)
  | TY_SHORT | TY_USHORT => square (short_bits w / 8)
  | TY_INT | TY_UINT => square (int_bits w / 8)
  | TY_LONG | TY_ULONG => square (long_bits w / 8)
  | TY_LLONG | TY_ULLONG => square (llong_bits w / 8)
  | TY_INT128 | TY_UINT128 => square 16
  | TY_FLOAT16 => square 2
  | TY_FLOAT | TY_FLOAT32 => square 4
  | TY_DOUBLE | TY_FLOAT64 | TY_FLOAT32X => square 8
  | TY_LDOUBLE | TY_FLOAT64X => {| tl_size := ldbl_size tl; tl_align := ldbl_align tl |}
  | TY_FLOAT128 => square 16
  | TY_PTR => {| tl_size := ptr_size tl; tl_align := ptr_align tl |}
  | _ => square 1
  end.

(** ** The record cursor *)
Record LayoutPosition := mkPos { p_byte : Z; p_bit : Z }.

Definition position_add_bytes (p : LayoutPosition) (bytes : Z) : LayoutPosition :=
  mkPos (if UINT64_MAX - bytes <? p_byte p then UINT64_MAX else p_byte p +64 bytes) (p_bit p).

Definition position_add_bits (p : LayoutPosition) (bits : Z) : LayoutPosition :=
  let tail := u8 (bits mod 8) in
  let p := position_add_bytes p (bits / 8) in
  let sum := u8 (p_bit p + tail) in
  let p := if 8 <=? sum then position_add_bytes p 1 else p in
  mkPos (p_byte p) (sum mod 8).

Definition position_align_bytes (p : LayoutPosition) (align : Z) : LayoutPosition :=
  let p := if negb (p_bit p =? 0) then mkPos (p_byte (position_add_bytes p 1)) 0 else p in
  mkPos (align_up (p_byte p) align) (p_bit p).

Definition position_ceil_byte (p : LayoutPosition) : Z :=
  p_byte (if negb (p_bit p =? 0) then position_add_bytes p 1 else p).

(** A member with its outputs written. *)
Definition member_placed (m : Member) (offset shift width container : Z) : Member :=
  {| m_name := m_name m; m_type := m_type m; m_is_bitfield := m_is_bitfield m; m_offset := offset;
     m_bit_shift := shift; m_bit_width := width; m_container_size := container;
     m_align_override := m_align_override m; m_packed := m_packed m; m_pack_align := m_pack_align m;
     m_laid_out := true |}.

Definition member_set_position (m : Member) (p : LayoutPosition) (width container : Z) : Member :=
  member_placed m (p_byte p) (p_bit p) width container.

(** What the loops over members carry. *)
Record StructAcc := mkAcc { sa_position : LayoutPosition; sa_align : Z; sa_zero : bool }.
Record UnionAcc := mkUnion { ua_size : Z; ua_align : Z; ua_zero : bool }.

Definition raise (align req : Z) : Z := if align <? req then req else align.
Definition is_arm64_linux (target : TargetKind) : bool := bool_decide (target = CGF_TARGET_ARM64_LINUX).
Definition named (m : Member) : bool := match m_name m with Some _ => true | None => false end.

(** *** Members of a structure *)
Definition place_skipped (m : Member) (runtime_align : option Z) (a : StructAcc) : Member * StructAcc :=
  let align := match runtime_align with Some r => raise (sa_align a) r | None => sa_align a end in
  (member_placed m (position_ceil_byte (sa_position a)) 0 (m_bit_width m) (m_container_size m),
   mkAcc (sa_position a) align (sa_zero a)).

Definition place_zero_width (target : TargetKind) (m : Member) (ml : TypeLayout) (unit_bits : Z)
    (a : StructAcc) : Member * StructAcc :=
  let barrier_bits := raise unit_bits (m_align_override m *64 8) in
  let zero_align := raise (tl_align ml) (m_align_override m) in
  let p := position_align_bytes (sa_position a) (barrier_bits / 8) in
  let align := if is_arm64_linux target then raise (sa_align a) zero_align else sa_align a in
  (member_set_position m p (m_bit_width m) (tl_size ml), mkAcc p align (sa_zero a)).

Definition place_bitfield (target : TargetKind) (m : Member) (ml : TypeLayout) (unit_bits : Z)
    (a : StructAcc) : option (Member * StructAcc) :=
  let malign := member_effective_align m (tl_align ml) in
  let width := m_bit_width m in
  let p := sa_position a in
  let p := if negb (m_align_override m =? 0) then
             position_align_bytes p (if negb (m_pack_align m =? 0) && (m_pack_align m <? m_align_override m)
                                     then m_pack_align m else m_align_override m)
           else p in
  let fits := if member_uses_packed_bits m then Some p
              else if tl_size ml =? 0 then None
              else let used_in_window := (p_byte p mod tl_size ml) *64 8 +64 p_bit p in
                   Some (if unit_bits <? used_in_window +64 width then position_align_bytes p (tl_size ml) else p) in
  match fits with
  | None => None
  | Some p =>
    let align := if named m || is_arm64_linux target then raise (sa_align a) malign else sa_align a in
    Some (member_set_position m p width (tl_size ml), mkAcc (position_add_bits p width) align (sa_zero a))
  end.

Definition place_ordinary (m : Member) (ml : TypeLayout) (a : StructAcc) : Member * StructAcc :=
  let malign := member_effective_align m (tl_align ml) in
  let p := position_align_bytes (sa_position a) malign in
  (member_set_position m p 0 (tl_size ml),
   mkAcc (position_add_bytes p (tl_size ml)) (raise (sa_align a) malign) (sa_zero a)).

Definition place_sized (target : TargetKind) (m : Member) (ml : TypeLayout) (unit_bits : Z)
    (a : StructAcc) : option (Member * StructAcc) :=
  let a := mkAcc (sa_position a) (sa_align a) (sa_zero a || (negb (m_is_bitfield m) && (tl_size ml =? 0))) in
  if m_is_bitfield m then
    if m_bit_width m =? 0 then Some (place_zero_width target m ml unit_bits a)
    else place_bitfield target m ml unit_bits a
  else Some (place_ordinary m ml a).

(** *** Members of a union *)
Definition overlay_skipped (m : Member) (runtime_align : option Z) (a : UnionAcc) : Member * UnionAcc :=
  (member_placed m 0 0 (m_bit_width m) (m_container_size m),
   mkUnion (ua_size a) (match runtime_align with Some r => raise (ua_align a) r | None => ua_align a end)
     (ua_zero a)).

Definition overlay_sized (target : TargetKind) (m : Member) (ml : TypeLayout) (a : UnionAcc) : Member * UnionAcc :=
  let natural_align := tl_align ml in
  let malign := member_effective_align m natural_align in
  let zero := ua_zero a || (negb (m_is_bitfield m) && (tl_size ml =? 0)) in
  let placed := member_placed m 0 0 (m_bit_width m) (tl_size ml) in
  if m_is_bitfield m then
    let bytes := u32 (m_bit_width m + 7) / 8 in
    let align :=
      if (m_bit_width m =? 0) && is_arm64_linux target
      then raise (ua_align a) (raise natural_align (m_align_override m)) else ua_align a in
    let align :=
      if named m || (negb (m_bit_width m =? 0) && is_arm64_linux target) then raise align malign else align in
    (placed, mkUnion (raise (ua_size a) bytes) align zero)
  else (placed, mkUnion (raise (ua_size a) (tl_size ml)) (raise (ua_align a) malign) zero).

(** *** The record's own size and alignment *)
Definition tag_finished (td : TagDecl) (ms : list Member) (extent align : Z) (zero : bool) : TagDecl :=
  let aligned := raise align (tag_align_override td) in
  let size := align_up extent aligned in
  {| tag_kind := tag_kind td; tag_complete := tag_complete td; tag_members := ms;
     tag_nmembers := tag_nmembers td; tag_enum_underlying := tag_enum_underlying td;
     tag_align_override := tag_align_override td; tag_laid_out := tag_laid_out td;
     tag_laid_out_for := tag_laid_out_for td;
     tag_size := if (size =? 0) && negb zero then aligned else size;
     tag_align := aligned; tag_natural_align := align |}.

Definition tag_marked (target : TargetKind) (td : TagDecl) : TagDecl :=
  {| tag_kind := tag_kind td; tag_complete := tag_complete td; tag_members := tag_members td;
     tag_nmembers := tag_nmembers td; tag_enum_underlying := tag_enum_underlying td;
     tag_align_override := tag_align_override td; tag_laid_out := true;
     tag_laid_out_for := target; tag_size := tag_size td; tag_align := tag_align td;
     tag_natural_align := tag_natural_align td |}.

(** ** The functions over the store *)
Section record.
  Context (target : TargetKind).
  Context (layout_of : CType -> Sema TypeLayout) (runtime_sized : Tags -> CType -> option bool).

(** [declared_bits]. *)
Definition declared_bits (t : CType) : Sema Z :=
  let* l := layout_of t in ret (tl_size l *64 8).

(** The alignment a member without static size asks for, when it has one. *)
Definition runtime_align (m : Member) (t : CType) : Sema (option Z) :=
  let* st := get in
  let* r := lift (runtime_sized st t) in
  if r : bool then
    let* l := layout_of t in ret (Some (member_effective_align m (tl_align l)))
  else ret None.

Definition struct_member (m : Member) (a : StructAcc) : Sema (Member * StructAcc) :=
  match m_type m with
  | None => ret (place_skipped m None a)
  | Some t =>
    let* st := get in
    if layout_is_complete_for_size st t then
      let* ml := layout_of t in
      let* unit_bits := (if m_is_bitfield m then declared_bits t else ret 0) in
      lift (place_sized target m ml unit_bits a)
    else let* r := runtime_align m t in ret (place_skipped m r a)
  end.

Definition union_member (m : Member) (a : UnionAcc) : Sema (Member * UnionAcc) :=
  match m_type m with
  | None => ret (overlay_skipped m None a)
  | Some t =>
    let* st := get in
    if layout_is_complete_for_size st t then
      let* ml := layout_of t in ret (overlay_sized target m ml a)
    else let* r := runtime_align m t in ret (overlay_skipped m r a)
  end.

(** The loop [for (m = tag->members; m; m = m->next)]. Nothing it calls reads
    the members of the tag under construction, so they are written at its end. *)
Fixpoint members_loop {A} (step : Member -> A -> Sema (Member * A)) (ms : list Member) (a : A) :
    Sema (list Member * A) :=
  match ms with
  | [] => ret ([], a)
  | m :: ms =>
    let* r := step m a in
    let* rest := members_loop step ms (snd r) in
    ret (fst r :: fst rest, snd rest)
  end.

Definition update_tag (id : TagId) (f : TagDecl -> TagDecl) : Sema unit :=
  let* st := get in
  match st !! id with Some td => set_tag id (f td) | None => stuck end.

Definition layout_struct (id : TagId) (td : TagDecl) : Sema unit :=
  let* r := members_loop struct_member (tag_members td) (mkAcc (mkPos 0 0) 1 false) in
  let '(ms, a) := r in
  update_tag id (fun td => tag_finished td ms (position_ceil_byte (sa_position a)) (sa_align a) (sa_zero a)).

Definition layout_union (id : TagId) (td : TagDecl) : Sema unit :=
  let* r := members_loop union_member (tag_members td) (mkUnion 0 1 false) in
  let '(ms, a) := r in
  update_tag id (fun td => tag_finished td ms (ua_size a) (ua_align a) (ua_zero a)).

Definition layout_record (rec : CType) : Sema unit :=
  match ty_tag rec with
  | None => ret tt
  | Some id =>
    let* st := get in
    match st !! id with
    | None => stuck
    | Some td =>
      if negb (tag_complete td) then ret tt
      else if tag_laid_out td && bool_decide (tag_laid_out_for td = target) then ret tt
      else
        do* set_tag id (tag_marked target td) in
        if bool_decide (tag_kind td = TY_UNION) then layout_union id td else layout_struct id td
    end
  end.
End record.

(** The last lines of [layout_of]. *)
Definition type_override (t : CType) (r : TypeLayout) : TypeLayout :=
  if negb (ty_align_override t =? 0) && (ty_align_is_exact t || (tl_align r <? ty_align_override t))
  then {| tl_size := tl_size r; tl_align := ty_align_override t |} else r.

Definition enum_layout (target : TargetKind) (st : Tags) (t : CType) : TypeLayout :=
  match type_enum_underlying st t with Some u => basic_layout target u | None => square 1 end.

Fixpoint layout_of_n (fuel : nat) (target : TargetKind) (t : CType) : Sema TypeLayout :=
  match fuel with
  | O => stuck
  | S fuel =>
    let layout_of := layout_of_n fuel target in
    let* r :=
      match ty_kind t with
      | TY_VECTOR => ret (square (ty_size t))
      | TY_ARRAY =>
        let* el := (match ty_base t with Some b => layout_of b | None => ret (square 1) end) in
        ret {| tl_size := tl_size el *64 (if ty_has_size t then ty_size t else 0); tl_align := tl_align el |}
      | TY_STRUCT | TY_UNION =>
        let* st := get in
        match tag_of st t with
        | Some td =>
          if negb (tag_complete td) then ret (square 1)
          else
            do* layout_record target layout_of (type_is_runtime_sized fuel) t in
            let* st := get in
            match tag_of st t with
            | Some td => ret {| tl_size := tag_size td; tl_align := tag_align td |}
            | None => stuck
            end
        | None => ret (square 1)
        end
      | TY_ENUM => let* st := get in ret (enum_layout target st t)
      | _ => ret (basic_layout target t)
      end in
    ret (type_override t r)
  end.

(** Fuel: a path of calls goes down the element types of a type, then into a tag
    it has not visited, whose members are no deeper than the deepest member. *)
Fixpoint base_depth (t : CType) : nat :=
  match ty_base t with Some b => S (base_depth b) | None => O end.

Definition member_depth (m : Member) : nat :=
  match m_type m with Some t => base_depth t | None => O end.

Definition store_depth (st : Tags) : nat :=
  max_list (map (fun p => max_list (map member_depth (tag_members (snd p)))) (map_to_list st)).

Definition layout_fuel (st : Tags) (t : CType) : nat :=
  S (base_depth t) + (2 + size st) * (2 + store_depth st).

Definition layout_of (target : TargetKind) (t : CType) : Sema TypeLayout :=
  fun st => layout_of_n (layout_fuel st t) target t st.

Definition layout_record_of (target : TargetKind) (rec : CType) : Sema unit :=
  fun st =>
    let fuel := layout_fuel st rec in
    layout_record target (layout_of_n fuel target) (type_is_runtime_sized fuel) rec st.

Definition layout_offsetof (target : TargetKind) (rec : CType) (member : nat) : Sema Z :=
  do* layout_record_of target rec in
  let* st := get in
  ret (match tag_of st rec with
       | Some td => match tag_members td !! member with Some m => m_offset m | None => 0 end
       | None => 0
       end).
