(* ===== verification/LayoutFacts.v ===== *)
(** The geometry of record layout. The cursor of [layout_struct], a byte and a
    bit in saturating 64-bit arithmetic, follows an exact cursor that counts bits
    in the integers; on the exact cursor members are aligned, ordered, disjoint
    and inside the record. *)
From stdpp Require Import base gmap list sorting.
From S2P Require Import Prelude Pptok Ctype Layout.

(** ** Rounding up *)
Definition roundup (c a : Z) : Z := c + (- c) mod a.

Lemma roundup_bounds c a : 0 < a -> c <= roundup c a < c + a.
Proof. intros. unfold roundup. pose proof (Z.mod_pos_bound (- c) a). lia. Qed.

Lemma roundup_divide c a : 0 < a -> (a | roundup c a).
Proof.
  intros. unfold roundup. apply Z.mod_divide; [lia|].
  rewrite Z.add_mod_idemp_r by lia. by rewrite Z.add_opp_diag_r.
Qed.

(** It is the least multiple from [c] on. *)
Lemma roundup_least c a x : 0 < a -> (a | x) -> c <= x -> roundup c a <= x.
Proof.
  intros Ha [k ->] Hc. pose proof (roundup_bounds c a Ha). destruct (roundup_divide c a Ha) as [j Hj].
  rewrite Hj in *. assert (j < k + 1) by (apply (Z.mul_lt_mono_pos_r a); lia).
  apply Z.mul_le_mono_nonneg_r; lia.
Qed.

Lemma roundup_mono c d a : 0 < a -> c <= d -> roundup c a <= roundup d a.
Proof.
  intros Ha H. apply roundup_least; [done|by apply roundup_divide|].
  pose proof (roundup_bounds d a Ha). lia.
Qed.

Lemma roundup_id c a : 0 < a -> (a | c) -> roundup c a = c.
Proof.
  intros Ha [k ->]. unfold roundup. rewrite <- Z.mul_opp_l, Z.mod_mul by lia. lia.
Qed.

Lemma roundup_scale k c a : 0 < a -> 0 < k -> roundup (k * c) (k * a) = k * roundup c a.
Proof.
  intros. unfold roundup. rewrite <- Z.mul_opp_r, Zmult_mod_distr_l. lia.
Qed.

Lemma roundup_nested c a b : 0 < a -> 0 < b -> (a | b) -> roundup (roundup c a) b = roundup c b.
Proof.
  intros Ha Hb Hab. apply Z.le_antisymm.
  - apply roundup_least; [done|by apply roundup_divide|].
    apply roundup_least; [done| |apply roundup_bounds; lia].
    etrans; [exact Hab|by apply roundup_divide].
  - apply roundup_mono; [done|]. apply roundup_bounds; lia.
Qed.

Lemma align_up_saturates v a : 0 <= v <= UINT64_MAX -> 0 < a <= UINT64_MAX ->
  align_up v a = Z.min UINT64_MAX (roundup v a).
Proof.
  intros Hv Ha. unfold align_up, roundup.
  rewrite (proj2 (Z.eqb_neq a 0)) by lia.
  destruct (Z.eqb_spec (v mod a) 0) as [E|E].
  - rewrite (Z.mod_opp_l_z v a) by (lia || done). lia.
  - rewrite (Z.mod_opp_l_nz v a) by (lia || done).
    pose proof (Z.mod_pos_bound v a). destruct (Z.ltb_spec (UINT64_MAX - (a - v mod a)) v); [lia|].
    rewrite u64_small; [lia|]. unfold is_u64, UINT64_MAX in *. lia.
Qed.

(** ** The cursor *)
Definition limit : Z := 8 * UINT64_MAX.

(** The cursor [p] stands for the exact bit [c], or has saturated below it. *)
Definition at_bit (p : LayoutPosition) (c : Z) : Prop :=
  0 <= c /\ 0 <= p_bit p < 8 /\
  (c < limit /\ c = 8 * p_byte p + p_bit p \/ limit <= c /\ p_byte p = UINT64_MAX).

Lemma at_bit_byte p c : at_bit p c -> 0 <= p_byte p <= UINT64_MAX.
Proof. unfold at_bit, limit, UINT64_MAX. lia. Qed.

Lemma at_bit_start : at_bit (mkPos 0 0) 0.
Proof. unfold at_bit, limit, UINT64_MAX. simpl. lia. Qed.

Lemma at_bit_add_bytes p c n : at_bit p c -> 0 <= n -> at_bit (position_add_bytes p n) (c + 8 * n).
Proof.
  intros H Hn. pose proof (at_bit_byte _ _ H). unfold at_bit, position_add_bytes, limit in *. simpl.
  destruct (Z.ltb_spec (UINT64_MAX - n) (p_byte p)).
  - lia.
  - rewrite u64_small by (unfold is_u64, UINT64_MAX in *; lia). lia.
Qed.

Lemma at_bit_ceil p c : at_bit p c -> at_bit (mkPos (position_ceil_byte p) 0) (roundup c 8).
Proof.
  intros H. unfold position_ceil_byte. destruct (Z.eqb_spec (p_bit p) 0) as [E|E]; simpl.
  - pose proof H as (? & ? & D). unfold at_bit. simpl.
    destruct D as [[? ->]|[? ?]].
    + rewrite E, Z.add_0_r, roundup_id by (lia || apply Z.divide_factor_l). lia.
    + pose proof (roundup_bounds c 8 ltac:(lia)). lia.
  - pose proof (at_bit_byte _ _ H). destruct H as (? & ? & D).
    pose proof (roundup_bounds c 8 ltac:(lia)) as B.
    destruct D as [[? ->]|[? Hs]].
    + assert (roundup (8 * p_byte p + p_bit p) 8 = 8 * (p_byte p + 1)) as R.
      { apply Z.le_antisymm; [apply roundup_least; [lia|apply Z.divide_factor_l|lia]|].
        destruct (roundup_divide (8 * p_byte p + p_bit p) 8 ltac:(lia)) as [k Hk]. lia. }
      rewrite R in *. unfold at_bit, position_add_bytes, limit in *. simpl.
      destruct (Z.ltb_spec (UINT64_MAX - 1) (p_byte p)); [lia|].
      rewrite u64_small by (unfold is_u64, UINT64_MAX in *; lia). lia.
    + unfold at_bit, position_add_bytes, limit in *. simpl. rewrite Hs.
      destruct (Z.ltb_spec (UINT64_MAX - 1) UINT64_MAX); lia.
Qed.

Lemma at_bit_align p c a : at_bit p c -> 0 < a <= UINT64_MAX ->
  at_bit (position_align_bytes p a) (roundup c (8 * a)).
Proof.
  intros H Ha. pose proof (at_bit_ceil _ _ H) as C. pose proof (at_bit_byte _ _ C) as CB.
  rewrite <- (roundup_nested c 8 (8 * a)) by (lia || apply Z.divide_factor_l).
  assert (E : position_align_bytes p a = mkPos (align_up (position_ceil_byte p) a) 0).
  { unfold position_align_bytes, position_ceil_byte.
    destruct (Z.eqb_spec (p_bit p) 0) as [Hz|]; cbn -[align_up]; [by rewrite Hz|done]. }
  rewrite E. simpl in CB. clear E H. revert CB C. generalize (position_ceil_byte p) as b. intros b CB C.
  destruct C as (? & _ & D). cbn [p_byte p_bit] in D. unfold at_bit. cbn [p_byte p_bit].
  rewrite align_up_saturates by done.
  pose proof (roundup_bounds b a ltac:(lia)).
  destruct D as [[? D]|[? ->]].
  - rewrite D, Z.add_0_r, roundup_scale by lia. unfold limit in *. lia.
  - pose proof (roundup_bounds (roundup c 8) (8 * a) ltac:(lia)). lia.
Qed.

Lemma at_bit_add_bits p c n : at_bit p c -> 0 <= n -> at_bit (position_add_bits p n) (c + n).
Proof.
  intros H Hn. unfold position_add_bits.
  pose proof (Z.div_mod n 8 ltac:(lia)). pose proof (Z.mod_pos_bound n 8 ltac:(lia)).
  assert (0 <= n / 8) by (apply Z.div_pos; lia).
  pose proof (at_bit_add_bytes _ _ (n / 8) H ltac:(done)) as HB.
  set (q := position_add_bytes p (n / 8)) in *.
  assert (Hq : p_bit q = p_bit p) by done.
  pose proof (at_bit_byte _ _ HB). destruct HB as (? & B & D). rewrite Hq in *.
  assert (Hu : u8 (n mod 8) = n mod 8) by (apply Z.mod_small; lia). rewrite Hu.
  assert (Hs : u8 (p_bit p + n mod 8) = p_bit p + n mod 8) by (apply Z.mod_small; lia). rewrite Hs.
  unfold at_bit, limit in *. cbn [p_byte p_bit].
  destruct (Z.leb_spec 8 (p_bit p + n mod 8)).
  - replace ((p_bit p + n mod 8) mod 8) with (p_bit p + n mod 8 - 8)
      by (rewrite <- (Z.mod_small (p_bit p + n mod 8 - 8) 8) by lia;
          rewrite <- (Z.mod_add _ 1 8) by lia; f_equal; lia).
    unfold position_add_bytes. cbn [p_byte p_bit].
    destruct (Z.ltb_spec (UINT64_MAX - 1) (p_byte q)); [lia|].
    rewrite u64_small by (unfold is_u64, UINT64_MAX in *; lia). lia.
  - rewrite Z.mod_small by lia. lia.
Qed.

(** Past the limit the exact bit does not matter. *)
Lemma at_bit_saturated p c d : at_bit p c -> limit <= c -> limit <= d -> at_bit p d.
Proof. unfold at_bit, limit, UINT64_MAX. lia. Qed.

Lemma at_bit_window p c size : at_bit p c -> c < limit -> 0 < size <= 2 ^ 32 ->
  (p_byte p mod size) *64 8 +64 p_bit p = c mod (8 * size).
Proof.
  intros (? & ? & D) Hc Hs. assert (E : c = 8 * p_byte p + p_bit p) by lia. rewrite E.
  pose proof (Z.mod_pos_bound (p_byte p) size ltac:(lia)).
  assert (W : is_u64 ((p_byte p mod size) * 8 + p_bit p)) by (unfold is_u64; lia).
  rewrite (u64_small (_ * 8)) by (unfold is_u64 in *; lia). rewrite (u64_small _ W). clear W.
  replace (8 * p_byte p + p_bit p) with (8 * (p_byte p mod size) + p_bit p + (p_byte p / size) * (8 * size))
    by (pose proof (Z.div_mod (p_byte p) size ltac:(lia)); nia).
  rewrite Z.mod_add by lia. rewrite (Z.mod_small (_ + _)) by lia. lia.
Qed.

(** ** The exact placement of the members of a structure *)

(** What is known of a member's type: its layout, only its alignment because its
    size is known at run time, or nothing. *)
Inductive Extent := Sized (l : TypeLayout) | Runtime (l : TypeLayout) | Unsized.

Inductive Field :=
| Skipped
| Barrier (align : Z)
| Bits (width unit align : Z) (packed : bool)
| Plain (size align : Z).

Definition explicit_align (m : Member) : Z :=
  if negb (m_pack_align m =? 0) && (m_pack_align m <? m_align_override m) then m_pack_align m else m_align_override m.

Definition field_of (m : Member) (x : Extent) : Field :=
  match x with
  | Sized l =>
    if m_is_bitfield m then
      if m_bit_width m =? 0 then Barrier (Z.max (tl_size l) (m_align_override m))
      else Bits (m_bit_width m) (tl_size l) (explicit_align m) (member_uses_packed_bits m)
    else Plain (tl_size l) (member_effective_align m (tl_align l))
  | _ => Skipped
  end.

(** The first bit of a field when bit [c] is the first free one, and the first
    bit free after it. A flexible array starts at the next byte and takes none. *)
Definition start_of (c : Z) (f : Field) : Z :=
  match f with
  | Skipped => roundup c 8
  | Barrier a => roundup c (8 * a)
  | Bits width unit a packed =>
    let c := if 0 <? a then roundup c (8 * a) else c in
    if packed then c else if 8 * unit <? c mod (8 * unit) + width then roundup c (8 * unit) else c
  | Plain _ a => roundup c (8 * a)
  end.

Definition bits_of (f : Field) : Z :=
  match f with Bits width _ _ _ => width | Plain size _ => 8 * size | _ => 0 end.

Definition next_of (c : Z) (f : Field) : Z :=
  match f with Skipped => c | _ => start_of c f + bits_of f end.

Definition ok_member (m : Member) (x : Extent) : Prop :=
  0 <= m_align_override m < 2 ^ 32 /\ 0 <= m_pack_align m < 256 /\
  match x with
  | Sized l =>
    0 <= tl_size l <= UINT64_MAX /\ 0 < tl_align l < 2 ^ 32 /\
    (m_is_bitfield m = true -> 1 <= tl_size l <= 16 /\ 0 <= m_bit_width m < 2 ^ 32)
  | Runtime l => 0 < tl_align l < 2 ^ 32
  | Unsized => True
  end.

(** The alignment the member asks of the record; one when it asks nothing. *)
Definition align_req (target : TargetKind) (m : Member) (x : Extent) : Z :=
  match x with
  | Sized l =>
    if m_is_bitfield m then
      if m_bit_width m =? 0 then if is_arm64_linux target then Z.max (tl_align l) (m_align_override m) else 1
      else if named m || is_arm64_linux target then member_effective_align m (tl_align l) else 1
    else member_effective_align m (tl_align l)
  | Runtime l => member_effective_align m (tl_align l)
  | Unsized => 1
  end.

Definition zero_sized (m : Member) (x : Extent) : bool :=
  match x with Sized l => negb (m_is_bitfield m) && (tl_size l =? 0) | _ => false end.

Lemma raise_max a b : raise a b = Z.max a b.
Proof. unfold raise. destruct (Z.ltb_spec a b); lia. Qed.

Lemma effective_align_bounds m n : 0 < n < 2 ^ 32 -> 0 <= m_align_override m < 2 ^ 32 ->
  0 <= m_pack_align m < 256 -> 0 < member_effective_align m n < 2 ^ 32.
Proof.
  intros Hn Ho Hp. unfold member_effective_align.
  assert (Ha : 0 < (if m_packed m then 1 else n) < 2 ^ 32) by (destruct (m_packed m); lia).
  generalize dependent (if m_packed m then 1 else n). intros a Ha.
  assert (Hb : 0 < (if a <? m_align_override m then m_align_override m else a) < 2 ^ 32)
    by (destruct (Z.ltb_spec a (m_align_override m)); lia).
  generalize dependent (if a <? m_align_override m then m_align_override m else a). intros b Hb.
  destruct (Z.eqb_spec (m_pack_align m) 0), (Z.ltb_spec (m_pack_align m) b); simpl; lia.
Qed.

Lemma explicit_align_bounds m : 0 <= m_align_override m < 2 ^ 32 -> 0 <= m_pack_align m < 256 ->
  0 <= explicit_align m < 2 ^ 32 /\ (explicit_align m = 0 <-> m_align_override m = 0).
Proof. intros. unfold explicit_align. destruct (Z.eqb_spec (m_pack_align m) 0), (Z.ltb_spec (m_pack_align m) (m_align_override m)); simpl; lia. Qed.

Lemma start_of_ge c f : match f with
    | Skipped => True | Barrier a => 0 < a | Bits _ unit _ _ => 0 < unit | Plain _ a => 0 < a end ->
  c <= start_of c f.
Proof.
  assert (R : forall x a, 0 < a -> x <= roundup x (8 * a)) by (intros x a Ha; apply roundup_bounds; lia).
  destruct f; simpl; intros; auto.
  - apply (R c 1). lia.
  - assert (c <= (if 0 <? align then roundup c (8 * align) else c))
      by (destruct (Z.ltb_spec 0 align); [apply R|]; lia).
    generalize dependent (if 0 <? align then roundup c (8 * align) else c). intros d Hd.
    destruct packed; [done|]. destruct (_ <? _); [|done]. pose proof (R d unit). lia.
Qed.

#[local] Opaque position_align_bytes position_add_bytes position_add_bits position_ceil_byte.

(** One member: the code's step is the exact step, and it writes nothing but the
    outputs of the member. *)
Definition outputs_only (m m' : Member) : Prop :=
  m' = member_placed m (m_offset m') (m_bit_shift m') (m_bit_width m') (m_container_size m') /\
  (m_is_bitfield m = true -> m_bit_width m' = m_bit_width m).

Definition exact_step (target : TargetKind) (m : Member) (x : Extent) (c : Z) (a : StructAcc)
    (m' : Member) (a' : StructAcc) : Prop :=
  outputs_only m m' /\
  at_bit (mkPos (m_offset m') (m_bit_shift m')) (start_of c (field_of m x)) /\
  at_bit (sa_position a') (next_of c (field_of m x)) /\
  sa_align a' = Z.max (sa_align a) (align_req target m x) /\
  sa_zero a' = sa_zero a || zero_sized m x.

Lemma at_bit_eta p c : at_bit p c -> at_bit (mkPos (p_byte p) (p_bit p)) c.
Proof. by destruct p. Qed.

Lemma place_ordinary_exact target m l c a :
  ok_member m (Sized l) -> m_is_bitfield m = false -> at_bit (sa_position a) c ->
  let r := place_ordinary m l (mkAcc (sa_position a) (sa_align a) (sa_zero a || zero_sized m (Sized l))) in
  exact_step target m (Sized l) c a (fst r) (snd r).
Proof.
  intros (Ho & Hp & Hs & Ha & _) Hb H. unfold place_ordinary. simpl.
  pose proof (effective_align_bounds m (tl_align l) Ha Ho Hp) as He.
  pose proof (at_bit_align _ _ (member_effective_align m (tl_align l)) H
                ltac:(unfold UINT64_MAX; lia)) as Q.
  unfold exact_step, outputs_only, align_req, field_of. rewrite Hb. simpl.
  split_and!; [done|done|by apply at_bit_eta|apply at_bit_add_bytes; [done|lia]|by apply raise_max|by rewrite Hb].
Qed.

Lemma barrier_bytes size ao : 0 <= size <= 16 -> 0 <= ao < 2 ^ 32 ->
  raise (size *64 8) (ao *64 8) / 8 = Z.max size ao.
Proof.
  intros. rewrite raise_max, !u64_small by (unfold is_u64; lia).
  rewrite Z.mul_max_distr_nonneg_r, Z.div_mul; lia.
Qed.

Lemma place_zero_width_exact target m l c a :
  ok_member m (Sized l) -> m_is_bitfield m = true -> m_bit_width m = 0 -> at_bit (sa_position a) c ->
  1 <= sa_align a ->
  let r := place_zero_width target m l (tl_size l *64 8)
             (mkAcc (sa_position a) (sa_align a) (sa_zero a || zero_sized m (Sized l))) in
  exact_step target m (Sized l) c a (fst r) (snd r).
Proof.
  intros (Ho & Hp & Hs & Ha & Hbf) Hb Hw H H1. destruct (Hbf Hb) as [Hs' _].
  unfold place_zero_width. simpl. rewrite barrier_bytes by lia.
  pose proof (at_bit_align _ _ (Z.max (tl_size l) (m_align_override m)) H
                ltac:(unfold UINT64_MAX; lia)) as Q.
  unfold exact_step, outputs_only, align_req, field_of, zero_sized, next_of. rewrite Hb, Hw. simpl.
  split_and!; [done|done|by apply at_bit_eta|by rewrite Z.add_0_r| |done].
  destruct (is_arm64_linux target); rewrite ?raise_max; lia.
Qed.

Lemma place_bitfield_exact target m l c a :
  ok_member m (Sized l) -> m_is_bitfield m = true -> m_bit_width m <> 0 -> at_bit (sa_position a) c ->
  1 <= sa_align a ->
  exists m' a',
    place_bitfield target m l (tl_size l *64 8)
      (mkAcc (sa_position a) (sa_align a) (sa_zero a || zero_sized m (Sized l))) = Some (m', a') /\
    exact_step target m (Sized l) c a m' a'.
Proof.
  intros (Ho & Hp & Hs & Ha & Hbf) Hb Hw H H1. destruct (Hbf Hb) as [Hs' Hw'].
  unfold place_bitfield. cbv zeta. cbn [sa_position sa_align sa_zero].
  destruct (explicit_align_bounds m Ho Hp) as [He He0].
  assert (Q : at_bit (if negb (m_align_override m =? 0) then
             position_align_bytes (sa_position a) (explicit_align m) else sa_position a)
             (if 0 <? explicit_align m then roundup c (8 * explicit_align m) else c)).
  { destruct (Z.eqb_spec (m_align_override m) 0), (Z.ltb_spec 0 (explicit_align m)); simpl; try lia; [done|].
    apply at_bit_align; [done|unfold UINT64_MAX; lia]. }
  fold (explicit_align m). set (p := if negb _ then _ else _) in *.
  set (d := if 0 <? _ then _ else _) in *.
  assert (Ed : start_of c (field_of m (Sized l)) =
      if member_uses_packed_bits m then d
      else if 8 * tl_size l <? d mod (8 * tl_size l) + m_bit_width m then roundup d (8 * tl_size l) else d)
    by (unfold field_of; by rewrite Hb, (proj2 (Z.eqb_neq _ 0) Hw)).
  clearbody p d.
  assert (W : exists q, (if member_uses_packed_bits m then Some p
      else if tl_size l =? 0 then None
      else Some (if tl_size l *64 8 <? (p_byte p mod tl_size l) *64 8 +64 p_bit p +64 m_bit_width m
                 then position_align_bytes p (tl_size l) else p)) = Some q /\
      at_bit q (start_of c (field_of m (Sized l)))).
  { rewrite Ed. destruct (member_uses_packed_bits m); [by exists p|].
    rewrite (proj2 (Z.eqb_neq (tl_size l) 0)) by lia. eexists. split; [done|]. simpl.
    assert (P : at_bit (position_align_bytes p (tl_size l)) (roundup d (8 * tl_size l)))
      by (apply at_bit_align; [done|unfold UINT64_MAX; lia]).
    destruct (decide (limit <= d)) as [Hsat|].
    - pose proof (roundup_bounds d (8 * tl_size l) ltac:(lia)).
      assert (G : forall b e : bool, at_bit (if b then position_align_bytes p (tl_size l) else p)
                    (if e then roundup d (8 * tl_size l) else d)); [|apply G].
      intros [] []; [apply (at_bit_saturated _ _ _ P)|apply (at_bit_saturated _ _ _ P)
                    |apply (at_bit_saturated _ _ _ Q)|apply (at_bit_saturated _ _ _ Q)]; lia.
    - rewrite (at_bit_window p d) by (done || lia). 
      pose proof (Z.mod_pos_bound d (8 * tl_size l) ltac:(lia)).
      rewrite !u64_small by (unfold is_u64; lia).
      rewrite (Z.mul_comm (tl_size l) 8). by destruct (_ <? _). }
  destruct W as (q & Eq & Hq). rewrite Eq. do 2 eexists. split; [done|].
  assert (E : next_of c (field_of m (Sized l)) = start_of c (field_of m (Sized l)) + m_bit_width m)
    by (unfold field_of; by rewrite Hb, (proj2 (Z.eqb_neq _ 0) Hw)).
  unfold exact_step, outputs_only. rewrite E. split_and!; cbn [align_req].
  - done.
  - done.
  - by apply at_bit_eta.
  - apply at_bit_add_bits; [done|lia].
  - rewrite Hb, (proj2 (Z.eqb_neq _ 0) Hw). cbn [sa_align].
    destruct (named m || is_arm64_linux target); rewrite ?raise_max; lia.
  - done.
Qed.

Lemma place_sized_exact target m l c a :
  ok_member m (Sized l) -> at_bit (sa_position a) c -> 1 <= sa_align a ->
  exists m' a', place_sized target m l (if m_is_bitfield m then tl_size l *64 8 else 0) a = Some (m', a') /\
    exact_step target m (Sized l) c a m' a'.
Proof.
  intros Hok H H1. unfold place_sized. fold (zero_sized m (Sized l)).
  destruct (m_is_bitfield m) eqn:Hb.
  - destruct (Z.eqb_spec (m_bit_width m) 0) as [Hw|Hw].
    + do 2 eexists. split; [rewrite (surjective_pairing (place_zero_width _ _ _ _ _)); done|].
      by apply place_zero_width_exact.
    + by apply place_bitfield_exact.
  - do 2 eexists. split; [rewrite (surjective_pairing (place_ordinary _ _ _)); done|].
    by apply place_ordinary_exact.
Qed.

Definition runtime_req (m : Member) (x : Extent) : option Z :=
  match x with Runtime l => Some (member_effective_align m (tl_align l)) | _ => None end.

Lemma place_skipped_exact target m x c a :
  (forall l, x <> Sized l) -> at_bit (sa_position a) c -> 1 <= sa_align a ->
  let r := place_skipped m (runtime_req m x) a in
  exact_step target m x c a (fst r) (snd r).
Proof.
  intros Hx H H1. unfold place_skipped, exact_step, outputs_only. simpl.
  assert (F : field_of m x = Skipped) by (destruct x; naive_solver).
  assert (Z0 : zero_sized m x = false) by (destruct x; naive_solver).
  rewrite F, Z0, orb_false_r. simpl.
  split_and!; try done; [by apply at_bit_ceil|].
  destruct x; simpl; rewrite ?raise_max; naive_solver lia.
Qed.

(** ** The whole structure *)
Definition Placed : Type := Member * Extent * Member.

(** The loop over the members: a chain of exact steps. *)
Inductive placed (target : TargetKind) : Z -> StructAcc -> list Placed -> Z -> StructAcc -> Prop :=
| placed_nil c a : placed target c a [] c a
| placed_cons m x m' c a a1 ts c' a' :
    ok_member m x -> exact_step target m x c a m' a1 ->
    placed target (next_of c (field_of m x)) a1 ts c' a' ->
    placed target c a ((m, x, m') :: ts) c' a'.

(** The bits a member occupies. *)
Definition first_bit (m : Member) : Z := 8 * m_offset m + m_bit_shift m.
Definition length_of (t : Placed) : Z := bits_of (field_of t.1.1 t.1.2).

(** What a single placement satisfies between the free bit [c] and the end [c']. *)
Definition well_placed (c c' : Z) (t : Placed) : Prop :=
  let '(m, x, m') := t in
  0 <= m_bit_shift m' < 8 /\ c <= first_bit m' /\
  first_bit m' + length_of t <= roundup c' 8 /\
  match field_of m x with
  | Skipped | Barrier _ => m_bit_shift m' = 0
  | Plain size a => m_bit_shift m' = 0 /\ (a | m_offset m')
  | Bits width unit a packed =>
    (packed = false -> width <= 8 * unit -> first_bit m' mod (8 * unit) + width <= 8 * unit) /\
    (0 < a -> packed = true -> (8 * a | first_bit m'))
  end.

(** A member without static size (a flexible array) takes no bits; what follows it
    is placed from the same cursor. *)
Definition before (t u : Placed) : Prop :=
  field_of t.1.1 t.1.2 <> Skipped -> first_bit t.2 + length_of t <= first_bit u.2.

Lemma field_positive m x : ok_member m x ->
  match field_of m x with
  | Skipped => True | Barrier a => 0 < a | Bits width unit _ _ => 0 < unit /\ 0 <= width
  | Plain size a => 0 < a /\ 0 <= size
  end.
Proof.
  intros (Ho & Hp & H). destruct x as [l|l|]; simpl; try done. destruct H as (Hs & Ha & Hb).
  pose proof (effective_align_bounds m (tl_align l) Ha Ho Hp).
  destruct (m_is_bitfield m); [|lia]. destruct (Hb eq_refl). destruct (_ =? _); lia.
Qed.

Lemma bits_of_nonneg m x : ok_member m x -> 0 <= bits_of (field_of m x).
Proof. intros H. pose proof (field_positive m x H). destruct (field_of m x); simpl; lia. Qed.

Lemma start_of_le m x c : ok_member m x -> c <= start_of c (field_of m x).
Proof. intros H. pose proof (field_positive m x H). apply start_of_ge. destruct (field_of m x); lia. Qed.

Lemma next_of_le m x c : ok_member m x -> c <= next_of c (field_of m x).
Proof.
  intros H. pose proof (start_of_le m x c H). pose proof (bits_of_nonneg m x H).
  destruct (field_of m x); simpl in *; lia.
Qed.

Lemma placed_le target c a ts c' a' : placed target c a ts c' a' -> c <= c'.
Proof.
  induction 1 as [|m x m' c a a1 ts c' a' Hok _ _ IH]; [done|].
  pose proof (next_of_le m x c Hok). lia.
Qed.

(** Two multiples of eight: nothing lies between a bit and its byte's end. *)
Lemma byte_end c : roundup c 8 <= c + 7.
Proof. pose proof (roundup_bounds c 8). lia. Qed.

Lemma at_bit_first m c : at_bit (mkPos (m_offset m) (m_bit_shift m)) c -> c < limit ->
  first_bit m = c /\ 0 <= m_bit_shift m < 8.
Proof. intros (? & ? & D) Hc. simpl in *. unfold first_bit. lia. Qed.

Lemma whole_byte m a : 0 < a -> 0 <= m_bit_shift m < 8 -> (8 * a | first_bit m) ->
  m_bit_shift m = 0 /\ (a | m_offset m).
Proof.
  unfold first_bit. intros Ha Hs [k Hk]. split; [lia|]. exists k. lia.
Qed.

Lemma roundup_multiple_of_8 c a : 0 < a -> (8 * a | roundup c (8 * a)).
Proof. intros. apply roundup_divide. lia. Qed.

Lemma exact_step_placed target m x c a m' a1 c' :
  ok_member m x -> exact_step target m x c a m' a1 ->
  next_of c (field_of m x) <= c' -> c' + 8 <= limit ->
  well_placed c c' (m, x, m').
Proof.
  intros Hok (_ & Hat & _) Hn Hl. pose proof (field_positive m x Hok) as Hf.
  pose proof (start_of_le m x c Hok) as Hle. pose proof (byte_end c').
  pose proof (roundup_bounds c' 8 ltac:(lia)) as Hr.
  assert (Hs : start_of c (field_of m x) < limit).
  { pose proof (bits_of_nonneg m x Hok). destruct (field_of m x) eqn:F; simpl in *; try lia.
    pose proof (byte_end c). lia. }
  destruct (at_bit_first m' _ Hat Hs) as [E Hsh]. unfold well_placed, length_of. simpl.
  split; [done|]. split; [lia|]. rewrite E.
  destruct (field_of m x) as [|b|w u al pk|sz al] eqn:F; cbn [bits_of next_of] in *.
  - split; [rewrite Z.add_0_r; by apply roundup_mono|].
    apply (whole_byte m' 1); [lia|done|]. rewrite E. apply (roundup_multiple_of_8 c 1). lia.
  - split; [lia|]. apply (whole_byte m' b); [lia|done|]. rewrite E. by apply roundup_multiple_of_8.
  - split; [lia|]. rewrite <- E. clear Hs Hle Hn. cbn [start_of] in E.
    set (d := if 0 <? al then roundup c (8 * al) else c) in *.
    split.
    + intros -> Hw. rewrite E. pose proof (Z.mod_pos_bound d (8 * u) ltac:(lia)).
      destruct (Z.ltb_spec (8 * u) (d mod (8 * u) + w)); [|lia].
      rewrite (proj2 (Z.mod_divide (roundup d (8 * u)) (8 * u) ltac:(lia)) (roundup_divide d (8 * u) ltac:(lia))). lia.
    + intros Ha ->. rewrite E. subst d. rewrite (proj2 (Z.ltb_lt 0 al) Ha). by apply roundup_multiple_of_8.
  - split; [lia|]. apply whole_byte; [lia|done|]. rewrite E. apply roundup_multiple_of_8. lia.
Qed.

Lemma well_placed_weaken c d c' t : d <= c -> well_placed c c' t -> well_placed d c' t.
Proof. destruct t as [[m x] m']. unfold well_placed. intuition lia. Qed.

(** Members in declaration order occupy disjoint bits, each placed as it asks. *)
Lemma placed_geometry target c a ts c' a' :
  placed target c a ts c' a' -> c' + 8 <= limit ->
  Forall (well_placed c c') ts /\ StronglySorted before ts.
Proof.
  intros H Hl. induction H as [|m x m' c a a1 ts c' a' Hok Hstep Hrest IH].
  - split; constructor.
  - destruct (IH Hl) as [IHw IHs]. pose proof (placed_le _ _ _ _ _ _ Hrest) as Hc'.
    pose proof (next_of_le m x c Hok) as Hn.
    pose proof (exact_step_placed target m x c a m' a1 c' Hok Hstep Hc' Hl) as W.
    split.
    + constructor; [done|]. eapply List.Forall_impl; [|exact IHw]. intros t. by apply well_placed_weaken.
    + constructor; [done|]. apply List.Forall_forall. intros u Hu.
      apply (proj1 (List.Forall_forall _ _) IHw) in Hu. destruct u as [[mu xu] mu'].
      unfold before, length_of. simpl. intros Hns. destruct Hu as (_ & Hu & _).
      destruct Hstep as (_ & Hat & _).
      assert (Hs : start_of c (field_of m x) + bits_of (field_of m x) = next_of c (field_of m x))
        by (destruct (field_of m x); done).
      pose proof (bits_of_nonneg m x Hok).
      assert (Hlt : start_of c (field_of m x) < limit) by lia.
      destruct (at_bit_first m' _ Hat Hlt) as [-> _]. lia.
Qed.

(** ** Alignments are powers of two *)
Definition power2 (a : Z) : Prop := exists k, 0 <= k < 32 /\ a = 2 ^ k.

Lemma power2_bounds a : power2 a -> 0 < a < 2 ^ 32.
Proof.
  intros (k & Hk & ->). split; [apply pow2_pos; lia|]. apply Z.pow_lt_mono_r; lia.
Qed.

Lemma power2_1 : power2 1.
Proof. by exists 0. Qed.

Lemma power2_max a b : power2 a -> power2 b -> power2 (Z.max a b).
Proof. intros. destruct (Z.max_spec a b) as [[_ ->]|[_ ->]]; done. Qed.

Lemma power2_divide a b : power2 a -> power2 b -> a <= b -> (a | b).
Proof.
  intros (k & Hk & ->) (j & Hj & ->) H.
  destruct (Z.le_gt_cases k j) as [Hkj|Hkj].
  - exists (2 ^ (j - k)). rewrite <- Z.pow_add_r by lia. f_equal. lia.
  - pose proof (Z.pow_lt_mono_r 2 j k ltac:(lia) ltac:(lia) Hkj). lia.
Qed.

(** Overrides are absent or powers of two; member data as semantic analysis
    leaves it. *)
Definition ok_override (a : Z) : Prop := a = 0 \/ power2 a.

Definition ok_attributes (m : Member) : Prop :=
  ok_override (m_align_override m) /\ ok_override (m_pack_align m) /\ m_pack_align m < 256 /\
  (m_is_bitfield m = true -> 0 <= m_bit_width m < 2 ^ 31).

Lemma ok_override_bounds a : ok_override a -> 0 <= a < 2 ^ 32.
Proof. intros [->|H]; [lia|]. pose proof (power2_bounds a H). lia. Qed.

Lemma power2_effective m n : ok_attributes m -> power2 n -> power2 (member_effective_align m n).
Proof.
  intros (Ho & Hp & _) Hn. unfold member_effective_align.
  assert (Ha : power2 (if m_packed m then 1 else n)) by (destruct (m_packed m); [apply power2_1|done]).
  assert (Hb : forall a, power2 a -> power2 (if a <? m_align_override m then m_align_override m else a)).
  { intros a H. destruct (Z.ltb_spec a (m_align_override m)); [|done].
    destruct Ho as [E|]; [|done]. pose proof (power2_bounds a H). lia. }
  specialize (Hb _ Ha). destruct (Z.eqb_spec (m_pack_align m) 0); [done|]. simpl.
  destruct (m_pack_align m <? _); [|done]. by destruct Hp.
Qed.

(** A layout a complete type can have. *)
Definition ok_layout (l : TypeLayout) : Prop := 0 <= tl_size l <= UINT64_MAX /\ power2 (tl_align l).

(** The extent of a member whose type has a proper layout. *)
Definition ok_extent (m : Member) (x : Extent) : Prop :=
  match x with
  | Sized l => ok_layout l /\ (m_is_bitfield m = true -> 1 <= tl_size l <= 16)
  | Runtime l => ok_layout l
  | Unsized => True
  end.

Lemma ok_member_intro m x : ok_attributes m -> ok_extent m x -> ok_member m x.
Proof.
  intros (Ho & Hp & Hpb & Hw) Hx. pose proof (ok_override_bounds _ Ho). pose proof (ok_override_bounds _ Hp).
  split; [done|]. split; [lia|]. destruct x as [l|l|]; simpl in Hx; [|by apply power2_bounds, Hx|done].
  destruct Hx as [[Hs Ha] Hb]. split_and!; [lia|lia|by apply power2_bounds|by apply power2_bounds|].
  intros E. specialize (Hw E). specialize (Hb E). lia.
Qed.

Lemma align_req_power2 target m x : ok_attributes m -> ok_extent m x -> power2 (align_req target m x).
Proof.
  intros Hm Hx. destruct x as [l|l|]; simpl; [|by apply power2_effective; [|apply Hx]|apply power2_1].
  destruct Hx as [[_ Ha] _]. pose proof (power2_effective m _ Hm Ha). pose proof power2_1.
  assert (power2 (Z.max (tl_align l) (m_align_override m))).
  { destruct Hm as ([->|Ho] & _); [|by apply power2_max]. pose proof (power2_bounds _ Ha). by rewrite Z.max_l by lia. }
  by repeat case_match.
Qed.

(** The alignment of the record is a multiple of what each member asks. *)
Lemma placed_align target c a ts c' a' :
  placed target c a ts c' a' -> Forall (fun t => ok_attributes t.1.1 /\ ok_extent t.1.1 t.1.2) ts ->
  power2 (sa_align a) ->
  power2 (sa_align a') /\ sa_align a <= sa_align a' /\
  Forall (fun t => align_req target t.1.1 t.1.2 <= sa_align a') ts.
Proof.
  induction 1 as [|m x m' c a a1 ts c' a' Hok (_ & _ & _ & Ha & _) _ IH]; intros Hts Hp; [done|].
  pose proof (List.Forall_inv Hts) as [H1 H2]. simpl in H1, H2.
  pose proof (align_req_power2 target m x H1 H2) as Hr.
  destruct (IH (List.Forall_inv_tail Hts)) as (P1 & P2 & P3); [rewrite Ha; by apply power2_max|].
  split; [done|]. split; [lia|]. constructor; [simpl; lia|done].
Qed.

(** ** The finished record *)

(** The size covers the extent, is a multiple of the alignment, and is the least
    such, except that an empty record takes one unit of its alignment. *)
Lemma finished_size td ms extent align zero :
  0 <= extent <= UINT64_MAX -> power2 align -> ok_override (tag_align_override td) ->
  let r := tag_finished td ms extent align zero in
  tag_align r = Z.max align (tag_align_override td) /\ power2 (tag_align r) /\
  0 <= tag_size r <= UINT64_MAX /\
  (roundup extent (tag_align r) <= UINT64_MAX ->
   (tag_align r | tag_size r) /\ extent <= tag_size r /\
   tag_size r = if (extent =? 0) && negb zero then tag_align r else roundup extent (tag_align r)) /\
  (UINT64_MAX <= roundup extent (tag_align r) -> tag_size r = UINT64_MAX).
Proof.
  intros He Ha Ho. simpl. rewrite raise_max.
  assert (Hp : power2 (Z.max align (tag_align_override td))).
  { destruct Ho as [->|Ho]; [|by apply power2_max]. pose proof (power2_bounds _ Ha). by rewrite Z.max_l by lia. }
  pose proof (power2_bounds _ Hp) as Hb. set (A := Z.max align (tag_align_override td)) in *.
  rewrite align_up_saturates by (unfold UINT64_MAX in *; lia).
  pose proof (roundup_bounds extent A ltac:(lia)) as R.
  assert (E0 : roundup extent A = 0 <-> extent = 0).
  { split; [lia|]. intros ->. apply roundup_id; [lia|]. apply Z.divide_0_r. }
  split; [done|]. split; [done|]. split_and!.
  - destruct (Z.eqb_spec (Z.min UINT64_MAX (roundup extent A)) 0), zero; simpl; unfold UINT64_MAX in *; lia.
  - destruct (Z.eqb_spec (Z.min UINT64_MAX (roundup extent A)) 0), zero; simpl; unfold UINT64_MAX in *; lia.
  - intros Hle. rewrite Z.min_r by lia.
    destruct (Z.eqb_spec (roundup extent A) 0) as [Ez|Ez], (Z.eqb_spec extent 0) as [Ex|Ex], zero; simpl;
      try lia; split_and!; try lia; try done; try (apply roundup_divide; lia); apply Z.divide_refl.
  - intros Hge. rewrite Z.min_l by lia. done.
Qed.
