(* ===== verification/LayoutMemo.v ===== *)
(** The memo in the tags is transparent: over any store whose laid-out tags hold
    what laying them out gives, [layout_of] returns what a layout without memo
    returns, and leaves such a store. *)
From stdpp Require Import base gmap list.
From S2P Require Import Prelude Pptok Ctype Layout LayoutFacts.

(** ** Layout without memo *)
Definition place_extent (target : TargetKind) (m : Member) (x : Extent) (a : StructAcc) :
    option (Member * StructAcc) :=
  match x with
  | Sized l => place_sized target m l (if m_is_bitfield m then tl_size l *64 8 else 0) a
  | _ => Some (place_skipped m (runtime_req m x) a)
  end.

Definition overlay_extent (target : TargetKind) (m : Member) (x : Extent) (a : UnionAcc) :
    option (Member * UnionAcc) :=
  match x with
  | Sized l => Some (overlay_sized target m l a)
  | _ => Some (overlay_skipped m (runtime_req m x) a)
  end.

Definition extent_of (lay : CType -> option TypeLayout) (rs : CType -> option bool) (st : Tags) (m : Member) :
    option Extent :=
  match m_type m with
  | None => Some Unsized
  | Some t =>
    if layout_is_complete_for_size st t then option_map Sized (lay t)
    else match rs t with
         | Some true => option_map Runtime (lay t)
         | Some false => Some Unsized
         | None => None
         end
  end.

Fixpoint place_members {A} (ext : Member -> option Extent) (step : Member -> Extent -> A -> option (Member * A))
    (ms : list Member) (a : A) : option (list Member * A) :=
  match ms with
  | [] => Some ([], a)
  | m :: ms =>
    match ext m with
    | None => None
    | Some x =>
      match step m x a with
      | None => None
      | Some (m', a) =>
        match place_members ext step ms a with
        | None => None
        | Some (ms', a) => Some (m' :: ms', a)
        end
      end
    end
  end.

Definition finish_struct (td : TagDecl) (r : list Member * StructAcc) : TagDecl :=
  tag_finished td (fst r) (position_ceil_byte (sa_position (snd r))) (sa_align (snd r)) (sa_zero (snd r)).
Definition finish_union (td : TagDecl) (r : list Member * UnionAcc) : TagDecl :=
  tag_finished td (fst r) (ua_size (snd r)) (ua_align (snd r)) (ua_zero (snd r)).

Definition record_spec (target : TargetKind) (ext : Member -> option Extent) (td : TagDecl) : option TagDecl :=
  let td' := tag_marked target td in
  if bool_decide (tag_kind td = TY_UNION) then
    option_map (finish_union td') (place_members ext (overlay_extent target) (tag_members td) (mkUnion 0 1 false))
  else
    option_map (finish_struct td')
      (place_members ext (place_extent target) (tag_members td) (mkAcc (mkPos 0 0) 1 false)).

Fixpoint spec_n (fuel : nat) (target : TargetKind) (st : Tags) (t : CType) : option TypeLayout :=
  match fuel with
  | O => None
  | S fuel =>
    let lay := spec_n fuel target st in
    option_map (type_override t)
      match ty_kind t with
      | TY_VECTOR => Some (square (ty_size t))
      | TY_ARRAY =>
        option_map (fun el => {| tl_size := tl_size el *64 (if ty_has_size t then ty_size t else 0);
                                 tl_align := tl_align el |})
          (match ty_base t with Some b => lay b | None => Some (square 1) end)
      | TY_STRUCT | TY_UNION =>
        match tag_of st t with
        | Some td =>
          if negb (tag_complete td) then Some (square 1)
          else option_map (fun td => {| tl_size := tag_size td; tl_align := tag_align td |})
                 (record_spec target (extent_of lay (type_is_runtime_sized fuel st) st) td)
        | None => Some (square 1)
        end
      | TY_ENUM => Some (enum_layout target st t)
      | _ => Some (basic_layout target t)
      end
  end.

(** ** What layout reads of a store *)
Definition m_inputs (m : Member) : _ :=
  (m_name m, m_type m, m_is_bitfield m, m_align_override m, m_packed m, m_pack_align m,
   if m_is_bitfield m then m_bit_width m else 0).
Definition td_inputs (td : TagDecl) : _ :=
  (tag_kind td, tag_complete td, map m_inputs (tag_members td), tag_nmembers td, tag_enum_underlying td,
   tag_align_override td).
Definition inputs (st : Tags) := td_inputs <$> st.

Lemma inputs_lookup st st' id td : inputs st = inputs st' -> st !! id = Some td ->
  exists td', st' !! id = Some td' /\ td_inputs td' = td_inputs td.
Proof.
  intros H Hd. assert (E : inputs st !! id = Some (td_inputs td)) by (unfold inputs; by rewrite lookup_fmap, Hd).
  rewrite H in E. unfold inputs in E. rewrite lookup_fmap in E.
  destruct (st' !! id) as [td'|] eqn:D; [|done]. exists td'. split; [done|]. by apply (inj Some).
Qed.

Lemma inputs_lookup_none st st' id : inputs st = inputs st' -> st !! id = None -> st' !! id = None.
Proof.
  intros H Hd. destruct (st' !! id) as [td'|] eqn:D; [|done].
  destruct (inputs_lookup st' st id td') as (? & ? & _); congruence.
Qed.

(** The tag of a type in two stores that agree on the inputs. *)
Lemma inputs_tag_of st st' t : inputs st = inputs st' ->
  match tag_of st t, tag_of st' t with
  | Some td, Some td' => td_inputs td' = td_inputs td
  | None, None => True
  | _, _ => False
  end.
Proof.
  intros H. unfold tag_of. destruct (ty_tag t) as [id|]; [|done].
  destruct (st !! id) as [td|] eqn:D.
  - destruct (inputs_lookup _ _ _ _ H D) as (td' & -> & ?). done.
  - by rewrite (inputs_lookup_none _ _ _ H D).
Qed.

Ltac inputs_tag H t :=
  let T := fresh "T" in
  pose proof (inputs_tag_of _ _ t H) as T; revert T;
  destruct (tag_of _ t) as [?td|], (tag_of _ t) as [?td|]; intros T; try done.

(** [CType] by its chain of element types. *)
Lemma chain_ind (P : CType -> Prop) :
  (forall t, (forall b, ty_base t = Some b -> P b) -> P t) -> forall t, P t.
Proof.
  intros H. fix IH 1. intros t. apply H. intros b.
  destruct t as [? ? ? ? ? ? ? ? ? ? [b'|]]; simpl; [|discriminate]. intros E.
  exact (match E in _ = o return match o with Some b => P b | None => True end with eq_refl => IH b' end).
Qed.

Lemma complete_inputs st st' t : inputs st = inputs st' ->
  layout_is_complete_for_size st t = layout_is_complete_for_size st' t.
Proof.
  intros H. revert t. apply chain_ind. intros t IH. pose proof (inputs_tag_of _ _ t H) as T.
  assert (E : forall st, layout_is_complete_for_size st t = match ty_kind t with
    | TY_VOID | TY_FUNC => false
    | TY_ARRAY => ty_has_size t && match ty_base t with Some b => layout_is_complete_for_size st b | None => false end
    | TY_STRUCT | TY_UNION | TY_ENUM => match tag_of st t with Some td => tag_complete td | None => false end
    | _ => true end) by (intros; by destruct t).
  rewrite !E.
  assert (C : match tag_of st t with Some td => tag_complete td | None => false end =
              match tag_of st' t with Some td => tag_complete td | None => false end).
  { destruct (tag_of st t), (tag_of st' t); try done. by injection T. }
  destruct (ty_kind t); try done. destruct (ty_base t) as [b|]; [|done]. by rewrite (IH b).
Qed.

Lemma any_member_inputs f ms ms' : map m_inputs ms = map m_inputs ms' -> any_member f ms = any_member f ms'.
Proof.
  revert ms'. induction ms as [|m ms IH]; intros [|m' ms'] H; try done. simpl in *.
  injection H as E H. replace (m_type m') with (m_type m) by (unfold m_inputs in *; congruence).
  destruct (m_type m) as [t|]; [|by apply IH]. destruct (f t) as [[]|]; [done|by apply IH|done].
Qed.

Lemma any_member_ext f g ms : (forall t, f t = g t) -> any_member f ms = any_member g ms.
Proof.
  intros H. induction ms as [|m ms IH]; [done|]. simpl. rewrite IH. destruct (m_type m) as [t|]; [|done].
  by rewrite H.
Qed.

Lemma runtime_inputs n st st' t : inputs st = inputs st' ->
  type_is_runtime_sized n st t = type_is_runtime_sized n st' t.
Proof.
  intros H. revert t. induction n as [|n IH]; intros t; [done|]. simpl.
  pose proof (inputs_tag_of _ _ t H) as T.
  assert (E : match tag_of st t with None => Some false | Some td => any_member (type_is_runtime_sized n st) (tag_members td) end =
              match tag_of st' t with None => Some false | Some td => any_member (type_is_runtime_sized n st') (tag_members td) end).
  { destruct (tag_of st t) as [td|], (tag_of st' t) as [td'|]; try done.
    rewrite (any_member_ext _ _ (tag_members td') (fun t => eq_sym (IH t))). apply any_member_inputs.
    by injection T. }
  destruct (ty_kind t); try done. destruct (ty_is_vla t); [done|]. by destruct (ty_base t).
Qed.

(** ** Steps read inputs and write outputs *)

(** Two runs of a step on members with the same inputs. *)
Definition same_step {A} (i : Member) (r r' : option (Member * A)) : Prop :=
  match r, r' with
  | Some (m, a), Some (m', a') => a = a' /\ m_inputs m = m_inputs i /\ m_inputs m' = m_inputs i
  | None, None => True
  | _, _ => False
  end.

(** A step on the member it returned writes the same member again. *)
Record stable {A} (step : Member -> Extent -> A -> option (Member * A)) : Prop := {
  stable_inputs m m' x a : m_inputs m = m_inputs m' -> same_step m (step m x a) (step m' x a);
  stable_again m x a m' a' : step m x a = Some (m', a') -> step m' x a = Some (m', a')
}.

Lemma m_inputs_placed m o s w c :
  (m_is_bitfield m = true -> w = m_bit_width m) -> m_inputs (member_placed m o s w c) = m_inputs m.
Proof. intros H. unfold m_inputs. simpl. destruct (m_is_bitfield m); [by rewrite H|done]. Qed.

Definition skips (x : Extent) : bool := match x with Sized _ => false | _ => true end.

(** A step that writes an offset, a shift, a container and, unless it keeps it,
    the width of a member that is no bit-field. *)
Definition writes {A} (keep : bool) (f : option (Z * Z * Z * A)) (x : Extent) (m : Member) : option (Member * A) :=
  option_map (fun '(o, s, c, a) =>
    (member_placed m o s (if m_is_bitfield m || keep || skips x then m_bit_width m else 0)
       (if skips x then m_container_size m else c), a)) f.

Lemma writes_stable {A} (step : Member -> Extent -> A -> option (Member * A)) keep f :
  (forall m x a, step m x a = writes keep (f m x a) x m) ->
  (forall m m' x a, m_inputs m = m_inputs m' -> f m x a = f m' x a) -> stable step.
Proof.
  intros Hw Hf. split.
  - intros m m' x a E. rewrite !Hw, (Hf _ _ _ _ E). unfold writes.
    destruct (f m' x a) as [[[[o s] c] a']|]; simpl; [|done]. split_and!; [done| |].
    + apply m_inputs_placed. by intros ->.
    + rewrite m_inputs_placed; [done|]. by intros ->.
  - intros m x a m' a' H. rewrite Hw in H |- *. unfold writes in *.
    destruct (f m x a) as [[[[o s] c] a1]|] eqn:F; [|done]. simpl in H. injection H as <- <-.
    rewrite (Hf _ m), F by (apply m_inputs_placed; by intros ->). simpl.
    unfold member_placed. simpl. by destruct (m_is_bitfield m), x, keep.
Qed.

Definition written {A} (r : option (Member * A)) : option (Z * Z * Z * A) :=
  option_map (fun r => (m_offset (fst r), m_bit_shift (fst r), m_container_size (fst r), snd r)) r.

Lemma place_stable target : stable (place_extent target).
Proof.
  apply (writes_stable _ false (fun m x a => option_map (fun '(o, s, c, a) => (o, s, if skips x then 0 else c, a))
           (written (place_extent target m x a)))).
  - intros m x a. unfold writes, written, place_extent, place_sized, place_bitfield, place_zero_width.
    destruct x as [l|l|]; simpl; [|by rewrite orb_true_r|by rewrite orb_true_r].
    destruct (m_is_bitfield m); simpl; [|done]. destruct (m_bit_width m =? 0); [done|].
    by destruct (if member_uses_packed_bits m then _ else _).
  - intros m m' x a E. destruct m as [n t b o s w c ao pk pa lo], m' as [n' t' b' o' s' w' c' ao' pk' pa' lo'].
    unfold m_inputs in E. simpl in E. injection E as <- <- <- <- <- <- E.
    destruct x as [l|l|]; [|done|done]. unfold place_extent, place_sized. simpl.
    destruct b; [subst w'|done]. destruct (w =? 0); [done|].
    unfold written, place_bitfield. simpl. by destruct (if member_uses_packed_bits _ then _ else _).
Qed.

Lemma overlay_stable target : stable (overlay_extent target).
Proof.
  apply (writes_stable _ true (fun m x a => option_map (fun '(o, s, c, a) => (o, s, if skips x then 0 else c, a))
           (written (overlay_extent target m x a)))).
  - intros m x a. unfold writes, written, overlay_extent, overlay_sized. rewrite orb_true_r.
    destruct x as [l|l|]; simpl; [|done|done]. by destruct (m_is_bitfield m).
  - intros m m' x a E. destruct m as [n t b o s w c ao pk pa lo], m' as [n' t' b' o' s' w' c' ao' pk' pa' lo'].
    unfold m_inputs in E. simpl in E. injection E as <- <- <- <- <- <- E.
    destruct x as [l|l|]; [|done|done]. unfold overlay_extent, overlay_sized. simpl.
    by destruct b; [subst w'|].
Qed.

(** ** The loops and the record *)
Definition respects (ext : Member -> option Extent) : Prop :=
  forall m m', m_inputs m = m_inputs m' -> ext m = ext m'.

Lemma place_members_inputs {A} ext ext' (step : Member -> Extent -> A -> option (Member * A)) ms ms' a :
  stable step -> (forall m m', m_inputs m = m_inputs m' -> ext m = ext' m') ->
  map m_inputs ms = map m_inputs ms' ->
  match place_members ext step ms a, place_members ext' step ms' a with
  | Some (r, b), Some (r', b') =>
    b = b' /\ map m_inputs r = map m_inputs ms /\ map m_inputs r' = map m_inputs ms
  | None, None => True
  | _, _ => False
  end.
Proof.
  intros S He. revert ms' a. induction ms as [|m ms IH]; intros [|m' ms'] a H; try done. simpl in *.
  assert (Em : m_inputs m = m_inputs m') by congruence.
  assert (Hms : map m_inputs ms = map m_inputs ms') by congruence. clear H.
  rewrite <- (He m m' Em). destruct (ext m) as [x|]; [|done].
  pose proof (stable_inputs _ S m m' x a Em) as E. unfold same_step in E.
  destruct (step m x a) as [[m1 b]|], (step m' x a) as [[m1' b']|]; try done.
  destruct E as (<- & E1 & E2). specialize (IH ms' b Hms).
  destruct (place_members ext step ms b) as [[r c]|], (place_members ext' step ms' b) as [[r' c']|]; try done.
  destruct IH as (-> & I1 & I2). simpl. by rewrite E1, E2, I1, I2.
Qed.

Lemma place_members_again {A} ext (step : Member -> Extent -> A -> option (Member * A)) ms a r b :
  stable step -> respects ext -> place_members ext step ms a = Some (r, b) ->
  place_members ext step r a = Some (r, b).
Proof.
  intros S He. revert a r. induction ms as [|m ms IH]; intros a r H; simpl in H; [by injection H as <- <-|].
  destruct (ext m) as [x|] eqn:X; [|done].
  destruct (step m x a) as [[m' a1]|] eqn:E; [|done].
  destruct (place_members ext step ms a1) as [[ms' a2]|] eqn:P; [|done]. injection H as <- <-.
  pose proof (stable_inputs _ S m m x a eq_refl) as Q. rewrite E in Q. destruct Q as (_ & Q & _).
  simpl. rewrite (He m' m Q), X, (stable_again _ S _ _ _ _ _ E), (IH _ _ P). done.
Qed.

Definition extents (td td' : TagDecl) : Prop :=
  tag_size td = tag_size td' /\ tag_align td = tag_align td' /\ tag_natural_align td = tag_natural_align td'.

Lemma td_inputs_finished target td ms e a z : map m_inputs ms = map m_inputs (tag_members td) ->
  td_inputs (tag_finished (tag_marked target td) ms e a z) = td_inputs td.
Proof. intros H. unfold td_inputs. simpl. by rewrite H. Qed.

Lemma record_spec_inputs target ext ext' td td' :
  (forall m m', m_inputs m = m_inputs m' -> ext m = ext' m') -> td_inputs td = td_inputs td' ->
  match record_spec target ext td, record_spec target ext' td' with
  | Some r, Some r' => extents r r' /\ td_inputs r = td_inputs td /\ td_inputs r' = td_inputs td
  | None, None => True
  | _, _ => False
  end.
Proof.
  intros He E. assert (Ek : tag_kind td = tag_kind td') by (by injection E).
  assert (Em : map m_inputs (tag_members td) = map m_inputs (tag_members td')) by (by injection E).
  assert (Eo : tag_align_override td = tag_align_override td') by (by injection E).
  unfold record_spec. rewrite <- Ek. destruct (bool_decide _).
  - pose proof (place_members_inputs ext ext' _ _ _ (mkUnion 0 1 false) (overlay_stable target) He Em) as P.
    destruct (place_members ext _ _ _) as [[r b]|], (place_members ext' _ _ _) as [[r' b']|]; try done.
    destruct P as (<- & P1 & P2). simpl. split_and!.
    + unfold extents, finish_union. simpl. by rewrite Eo.
    + by apply td_inputs_finished.
    + rewrite E. apply td_inputs_finished. simpl. by rewrite P2.
  - pose proof (place_members_inputs ext ext' _ _ _ (mkAcc (mkPos 0 0) 1 false) (place_stable target) He Em) as P.
    destruct (place_members ext _ _ _) as [[r b]|], (place_members ext' _ _ _) as [[r' b']|]; try done.
    destruct P as (<- & P1 & P2). simpl. split_and!.
    + unfold extents, finish_struct. simpl. by rewrite Eo.
    + by apply td_inputs_finished.
    + rewrite E. apply td_inputs_finished. simpl. by rewrite P2.
Qed.

(** A tag that has been laid out is laid out again as it is. *)
Lemma record_spec_again target ext td td' : respects ext ->
  record_spec target ext td = Some td' -> record_spec target ext td' = Some td'.
Proof.
  intros He. unfold record_spec. destruct (bool_decide (tag_kind td = TY_UNION)) eqn:K.
  - destruct (place_members ext _ _ _) as [[r b]|] eqn:P; [|done]. simpl. intros [= <-].
    replace (bool_decide (tag_kind _ = TY_UNION)) with true by (by rewrite <- K).
    cbn [finish_union tag_finished tag_members fst].
    by rewrite (place_members_again _ _ _ _ _ _ (overlay_stable target) He P).
  - destruct (place_members ext _ _ _) as [[r b]|] eqn:P; [|done]. simpl. intros [= <-].
    replace (bool_decide (tag_kind _ = TY_UNION)) with false by (by rewrite <- K).
    cbn [finish_struct tag_finished tag_members fst].
    by rewrite (place_members_again _ _ _ _ _ _ (place_stable target) He P).
Qed.

Lemma extent_of_inputs lay lay' rs rs' st st' m m' :
  inputs st = inputs st' -> (forall t, lay t = lay' t) -> (forall t, rs t = rs' t) ->
  m_inputs m = m_inputs m' -> extent_of lay rs st m = extent_of lay' rs' st' m'.
Proof.
  intros Hi Hl Hr E. unfold extent_of. replace (m_type m') with (m_type m) by (unfold m_inputs in E; congruence).
  destruct (m_type m) as [t|]; [|done]. by rewrite (complete_inputs _ _ _ Hi), Hl, Hr.
Qed.

Lemma spec_n_inputs n target st st' t : inputs st = inputs st' ->
  spec_n n target st t = spec_n n target st' t.
Proof.
  intros H. revert t. induction n as [|n IH]; intros t; [done|]. simpl. f_equal.
  pose proof (inputs_tag_of _ _ t H) as T.
  assert (E : enum_layout target st t = enum_layout target st' t).
  { unfold enum_layout, type_enum_underlying. destruct (negb _); [done|]. destruct (ty_enum_repr t); [done|].
    destruct (tag_of st t) as [td|], (tag_of st' t) as [td'|]; try done.
    by replace (tag_enum_underlying td') with (tag_enum_underlying td) by (unfold td_inputs in T; congruence). }
  rewrite E. clear E.
  destruct (ty_kind t); try done; [destruct (ty_base t); by rewrite ?IH| |].
  all: destruct (tag_of st t) as [td|], (tag_of st' t) as [td'|]; try done.
  all: replace (tag_complete td') with (tag_complete td) by (unfold td_inputs in T; congruence).
  all: destruct (tag_complete td); simpl; [|done].
  all: pose proof (record_spec_inputs target
         (extent_of (spec_n n target st) (type_is_runtime_sized n st) st)
         (extent_of (spec_n n target st') (type_is_runtime_sized n st') st') td td'
         (fun m m' => extent_of_inputs _ _ _ _ _ _ m m' H IH (fun t => runtime_inputs n st st' t H)) (eq_sym T)) as R.
  all: destruct (record_spec target _ td) as [r|], (record_spec target _ td') as [r'|]; try done; simpl.
  all: destruct R as ((-> & -> & _) & _); done.
Qed.

(** ** More fuel gives the same layout *)
Definition ext_n (n : nat) (target : TargetKind) (st : Tags) : Member -> option Extent :=
  extent_of (spec_n n target st) (type_is_runtime_sized n st) st.

Lemma ext_n_respects n target st : respects (ext_n n target st).
Proof. intros m m' E. by apply extent_of_inputs. Qed.

Lemma ext_n_inputs n target st st' m m' : inputs st = inputs st' -> m_inputs m = m_inputs m' ->
  ext_n n target st m = ext_n n target st' m'.
Proof.
  intros H E. apply extent_of_inputs; [done| | |done]; intros t; [by apply spec_n_inputs|by apply runtime_inputs].
Qed.

Lemma any_member_mono (f g : CType -> option bool) ms b :
  (forall t v, f t = Some v -> g t = Some v) -> any_member f ms = Some b -> any_member g ms = Some b.
Proof.
  intros H. induction ms as [|m ms IH]; simpl; [done|]. destruct (m_type m) as [t|]; [|done].
  destruct (f t) as [v|] eqn:E; [|done]. rewrite (H _ _ E). by destruct v.
Qed.

Lemma runtime_mono n m st t b : (n <= m)%nat ->
  type_is_runtime_sized n st t = Some b -> type_is_runtime_sized m st t = Some b.
Proof.
  revert m t b. induction n as [|n IH]; intros [|m] t b Hle; try done; [lia|]. simpl.
  assert (Hnm : (n <= m)%nat) by lia.
  destruct (ty_kind t); try done.
  - destruct (ty_is_vla t); [done|]. destruct (ty_base t); [by apply IH|done].
  - destruct (tag_of st t); [|done]. apply any_member_mono. intros. by apply IH.
  - destruct (tag_of st t); [|done]. apply any_member_mono. intros. by apply IH.
Qed.

Lemma place_members_mono {A} ext ext' (step : Member -> Extent -> A -> option (Member * A)) ms a r :
  (forall m x, ext m = Some x -> ext' m = Some x) ->
  place_members ext step ms a = Some r -> place_members ext' step ms a = Some r.
Proof.
  intros H. revert a r. induction ms as [|m ms IH]; intros a r; simpl; [done|].
  destruct (ext m) as [x|] eqn:E; [|done]. rewrite (H _ _ E).
  destruct (step m x a) as [[m' b]|]; [|done].
  destruct (place_members ext step ms b) as [p|] eqn:P; [|done]. by rewrite (IH _ _ P).
Qed.

Lemma record_spec_mono target ext ext' td td' :
  (forall m x, ext m = Some x -> ext' m = Some x) ->
  record_spec target ext td = Some td' -> record_spec target ext' td = Some td'.
Proof.
  intros H. unfold record_spec. destruct (bool_decide _);
    (destruct (place_members ext _ _ _) as [p|] eqn:P; [|done]); by rewrite (place_members_mono _ _ _ _ _ _ H P).
Qed.

Lemma extent_of_mono lay lay' rs rs' st f x :
  (forall t l, lay t = Some l -> lay' t = Some l) -> (forall t b, rs t = Some b -> rs' t = Some b) ->
  extent_of lay rs st f = Some x -> extent_of lay' rs' st f = Some x.
Proof.
  intros Hl Hr. unfold extent_of. destruct (m_type f) as [u|]; [|done].
  destruct (layout_is_complete_for_size st u).
  - destruct (lay u) as [lu|] eqn:E; [|done]. by rewrite (Hl _ _ E).
  - destruct (rs u) as [b|] eqn:R; [|done]. rewrite (Hr _ _ R).
    destruct b; [|done]. destruct (lay u) as [lu|] eqn:E; [|done]. by rewrite (Hl _ _ E).
Qed.

Lemma spec_n_mono n m target st t l : (n <= m)%nat ->
  spec_n n target st t = Some l -> spec_n m target st t = Some l.
Proof.
  revert m t l. induction n as [|n IH]; intros [|m] t l Hle; try done; [lia|].
  assert (Hnm : (n <= m)%nat) by lia.
  assert (Hext : forall f x, ext_n n target st f = Some x -> ext_n m target st f = Some x).
  { intros f x. apply extent_of_mono; intros u v; [by apply IH|by apply runtime_mono]. }
  simpl. fold (ext_n n target st) (ext_n m target st).
  assert (Hrec : forall td r, record_spec target (ext_n n target st) td = Some r ->
                              record_spec target (ext_n m target st) td = Some r)
    by (intros td r; by apply record_spec_mono).
  destruct (ty_kind t); try done.
  - destruct (ty_base t) as [b|]; [|done]. destruct (spec_n n target st b) as [lb|] eqn:E; [|done].
    by rewrite (IH _ _ _ Hnm E).
  - destruct (tag_of st t) as [td|]; [|done]. destruct (negb _); [done|].
    destruct (record_spec target (ext_n n target st) td) as [r|] eqn:E; [|done]. by rewrite (Hrec _ _ E).
  - destruct (tag_of st t) as [td|]; [|done]. destruct (negb _); [done|].
    destruct (record_spec target (ext_n n target st) td) as [r|] eqn:E; [|done]. by rewrite (Hrec _ _ E).
Qed.

Lemma ext_n_mono n m target st f x : (n <= m)%nat ->
  ext_n n target st f = Some x -> ext_n m target st f = Some x.
Proof.
  intros Hle. apply extent_of_mono; intros u v; [by apply spec_n_mono|by apply runtime_mono].
Qed.

(** ** Stores without cycles *)

(** The tag a value of the type contains. *)
Fixpoint by_value (t : CType) : option TagId :=
  match ty_kind t with
  | TY_ARRAY => match ty_base t with Some b => by_value b | None => None end
  | TY_STRUCT | TY_UNION => ty_tag t
  | _ => None
  end.

Definition ranked (rank : TagId -> nat) (st : Tags) : Prop :=
  forall id td m t j, st !! id = Some td -> m ∈ tag_members td -> m_type m = Some t -> by_value t = Some j ->
  is_Some (st !! j) /\ (rank j < rank id)%nat.

Lemma inputs_member td td' m : td_inputs td = td_inputs td' -> m ∈ tag_members td ->
  exists m', m' ∈ tag_members td' /\ m_inputs m' = m_inputs m.
Proof.
  intros E H. assert (Em : map m_inputs (tag_members td) = map m_inputs (tag_members td')) by (by injection E).
  assert (Hi : m_inputs m ∈ map m_inputs (tag_members td)) by (by apply list_elem_of_fmap_2).
  rewrite Em in Hi. apply list_elem_of_fmap in Hi as (m' & -> & ?). by exists m'.
Qed.

Lemma ranked_inputs rank st st' : inputs st = inputs st' -> ranked rank st -> ranked rank st'.
Proof.
  intros H R id td m t j Hid Hm Ht Hj.
  destruct (inputs_lookup _ _ _ _ (eq_sym H) Hid) as (td0 & Hid0 & E).
  destruct (inputs_member td td0 m (eq_sym E) Hm) as (m0 & Hm0 & Em).
  assert (m_type m0 = Some t) by (unfold m_inputs in Em; congruence).
  destruct (R id td0 m0 t j) as [[tdj Hj'] ?]; try done. split; [|done].
  destruct (inputs_lookup _ _ _ _ H Hj') as (? & ? & _). eauto.
Qed.

(** ** The memo *)

(** A tag that claims to be laid out holds its layout for the target it names. *)
Definition settled (st : Tags) (id : TagId) : Prop :=
  forall td, st !! id = Some td -> tag_laid_out td = true ->
  exists n, record_spec (tag_laid_out_for td) (ext_n n (tag_laid_out_for td) st) td = Some td.

Lemma settled_inputs st st' id : inputs st = inputs st' -> st' !! id = st !! id ->
  settled st id -> settled st' id.
Proof.
  intros H E S td Hid Hl. rewrite E in Hid. destruct (S td Hid Hl) as [n Hn]. exists n.
  eapply record_spec_mono; [|exact Hn]. intros m x <-. symmetry. by apply ext_n_inputs.
Qed.

Section memo.
  Context (target : TargetKind) (rank : TagId -> nat).

(** What a call below rank [r] may do to the store. *)
Definition keeps (r : nat) (st st' : Tags) : Prop :=
  inputs st' = inputs st /\ (forall id, (r <= rank id)%nat -> st' !! id = st !! id) /\
  (forall id, (rank id < r)%nat -> settled st' id).
Definition settled_below (r : nat) (st : Tags) : Prop := forall id, (rank id < r)%nat -> settled st id.

Lemma keeps_refl r st : settled_below r st -> keeps r st st.
Proof. done. Qed.

Lemma keeps_trans r st1 st2 st3 : keeps r st1 st2 -> keeps r st2 st3 -> keeps r st1 st3.
Proof.
  intros (I1 & K1 & _) (I2 & K2 & S2). split; [congruence|]. split; [|done].
  intros id Hid. rewrite K2 by done. by apply K1.
Qed.

Definition layout_runs (n : nat) : Prop :=
  forall t r st l, ranked rank st -> (forall j, by_value t = Some j -> (rank j < r)%nat) -> settled_below r st ->
  spec_n n target st t = Some l ->
  exists st', layout_of_n n target t st = Some (l, st') /\ keeps r st st'.

(** A step of the member loop from any store that agrees with [st0]. *)
Definition step_runs {A} (r : nat) (st0 : Tags) (ext : Member -> option Extent)
    (mstep : Member -> A -> Sema (Member * A)) (step : Member -> Extent -> A -> option (Member * A)) (m : Member) :
    Prop :=
  forall st a x p, inputs st = inputs st0 -> settled_below r st -> ext m = Some x -> step m x a = Some p ->
  exists st', mstep m a st = Some (p, st') /\ keeps r st st'.

Lemma members_loop_runs {A} r st0 ext mstep (step : Member -> Extent -> A -> option (Member * A)) ms a p st :
  (forall m, m ∈ ms -> step_runs r st0 ext mstep step m) ->
  inputs st = inputs st0 -> settled_below r st -> place_members ext step ms a = Some p ->
  exists st', members_loop mstep ms a st = Some (p, st') /\ keeps r st st'.
Proof.
  revert a p st. induction ms as [|m ms IH]; intros a p st Hm Hi Hs H; simpl in H.
  { injection H as <-. exists st. split; [done|by apply keeps_refl]. }
  destruct (ext m) as [x|] eqn:X; [|done]. destruct (step m x a) as [[m' b]|] eqn:E; [|done].
  destruct (place_members ext step ms b) as [[ms' c]|] eqn:P; [|done]. injection H as <-.
  destruct (Hm m ltac:(left) st a x _ Hi Hs X E) as (st1 & R1 & K1).
  destruct K1 as (I1 & K1 & S1).
  destruct (IH b _ st1 ltac:(intros; apply Hm; by right) ltac:(congruence) S1 P) as (st2 & R2 & K2).
  exists st2. split; [|by eapply keeps_trans].
  simpl. unfold bind. rewrite R1. simpl. rewrite R2. done.
Qed.

Lemma declared_bits_runs n t r st l : layout_runs n -> ranked rank st ->
  (forall j, by_value t = Some j -> (rank j < r)%nat) -> settled_below r st -> spec_n n target st t = Some l ->
  exists st', declared_bits (layout_of_n n target) t st = Some (tl_size l *64 8, st') /\ keeps r st st'.
Proof.
  intros L R Ht Hs H. destruct (L t r st l R Ht Hs H) as (st' & E & K). exists st'.
  unfold declared_bits, bind. by rewrite E.
Qed.

(** The alignment of a member whose size is known at run time. *)
Lemma runtime_align_runs n m t r st0 st x : layout_runs n -> ranked rank st ->
  (forall j, by_value t = Some j -> (rank j < r)%nat) -> inputs st = inputs st0 -> settled_below r st ->
  m_type m = Some t -> layout_is_complete_for_size st t = false -> ext_n n target st0 m = Some x ->
  exists st', runtime_align (layout_of_n n target) (type_is_runtime_sized n) m t st = Some (runtime_req m x, st') /\
    keeps r st st' /\ forall l, x <> Sized l.
Proof.
  intros L R Ht Hi Hs Hm Hc Hx.
  rewrite <- (ext_n_inputs n target st st0 m m Hi eq_refl) in Hx. unfold ext_n, extent_of in Hx.
  rewrite Hm, Hc in Hx. unfold runtime_align, bind, get, lift.
  destruct (type_is_runtime_sized n st t) as [[]|]; [|injection Hx as <-|done].
  - destruct (spec_n n target st t) as [l|] eqn:E; [|done]. injection Hx as <-.
    destruct (L t r st l R Ht Hs E) as (st' & E' & K). exists st'. simpl. by rewrite E'.
  - exists st. split_and!; [done|by apply keeps_refl|done].
Qed.

Lemma keeps_below r st st' : keeps r st st' -> settled_below r st'.
Proof. by intros (_ & _ & ?). Qed.

Lemma struct_member_runs n r st0 m : layout_runs n -> ranked rank st0 ->
  (forall t j, m_type m = Some t -> by_value t = Some j -> (rank j < r)%nat) ->
  step_runs r st0 (ext_n n target st0) (struct_member target (layout_of_n n target) (type_is_runtime_sized n))
    (place_extent target) m.
Proof.
  intros L R Hr st a x p Hi Hs Hx Hp. unfold struct_member.
  assert (R' : ranked rank st) by (by eapply ranked_inputs).
  destruct (m_type m) as [t|] eqn:Ht.
  2:{ unfold ext_n, extent_of in Hx. rewrite Ht in Hx. injection Hx as <-. injection Hp as <-.
      exists st. split; [done|by apply keeps_refl]. }
  unfold bind at 1, get. destruct (layout_is_complete_for_size st t) eqn:C.
  - rewrite <- (ext_n_inputs n target st st0 m m Hi eq_refl) in Hx. unfold ext_n, extent_of in Hx.
    rewrite Ht, C in Hx. destruct (spec_n n target st t) as [l|] eqn:E; [|done]. injection Hx as <-.
    destruct (L t r st l R' (fun j => Hr t j eq_refl) Hs E) as (st1 & E1 & K1).
    unfold bind. rewrite E1. simpl in Hp. destruct K1 as (I1 & K1 & S1). destruct (m_is_bitfield m).
    + destruct (declared_bits_runs n t r st1 l L (ranked_inputs _ _ _ (eq_sym I1) R') (fun j => Hr t j eq_refl) S1)
        as (st2 & E2 & K2); [by rewrite <- (spec_n_inputs n target st st1 t (eq_sym I1))|].
      rewrite E2, Hp. exists st2. split; [done|]. by eapply keeps_trans.
    + unfold ret. rewrite Hp. by exists st1.
  - destruct (runtime_align_runs n m t r st0 st x L R' (fun j => Hr t j eq_refl) Hi Hs Ht C Hx) as (st1 & E1 & K1 & Hns).
    unfold bind. rewrite E1. exists st1. split; [|done].
    destruct x; [by destruct (Hns l)| |]; by injection Hp as <-.
Qed.

Lemma union_member_runs n r st0 m : layout_runs n -> ranked rank st0 ->
  (forall t j, m_type m = Some t -> by_value t = Some j -> (rank j < r)%nat) ->
  step_runs r st0 (ext_n n target st0) (union_member target (layout_of_n n target) (type_is_runtime_sized n))
    (overlay_extent target) m.
Proof.
  intros L R Hr st a x p Hi Hs Hx Hp. unfold union_member.
  assert (R' : ranked rank st) by (by eapply ranked_inputs).
  destruct (m_type m) as [t|] eqn:Ht.
  2:{ unfold ext_n, extent_of in Hx. rewrite Ht in Hx. injection Hx as <-. injection Hp as <-.
      exists st. split; [done|by apply keeps_refl]. }
  unfold bind at 1, get. destruct (layout_is_complete_for_size st t) eqn:C.
  - rewrite <- (ext_n_inputs n target st st0 m m Hi eq_refl) in Hx. unfold ext_n, extent_of in Hx.
    rewrite Ht, C in Hx. destruct (spec_n n target st t) as [l|] eqn:E; [|done]. injection Hx as <-.
    destruct (L t r st l R' (fun j => Hr t j eq_refl) Hs E) as (st1 & E1 & K1).
    unfold bind. rewrite E1. injection Hp as <-. by exists st1.
  - destruct (runtime_align_runs n m t r st0 st x L R' (fun j => Hr t j eq_refl) Hi Hs Ht C Hx) as (st1 & E1 & K1 & Hns).
    unfold bind. rewrite E1. exists st1. split; [|done].
    destruct x; [by destruct (Hns l)| |]; by injection Hp as <-.
Qed.

Lemma mark_keeps r st id td : inputs st = inputs (<[id := tag_marked target td]> st) ->
  settled_below r st -> (rank id < r)%nat -> settled_below (rank id) (<[id := tag_marked target td]> st).
Proof.
  intros I Hs Hr j Hj. apply (settled_inputs st); [done| |apply Hs; lia].
  rewrite lookup_insert_ne; [done|]. intros ->. lia.
Qed.

(** Writing the layout of a tag over what the loop left. *)
Lemma finish_keeps n r st id td td' st2 :
  st !! id = Some td -> (rank id < r)%nat -> settled_below r st ->
  let st1 := <[id := tag_marked target td]> st in
  inputs st1 = inputs st -> keeps (rank id) st1 st2 ->
  td_inputs td' = td_inputs td -> tag_laid_out_for td' = target ->
  record_spec target (ext_n n target st1) td' = Some td' ->
  keeps r st (<[id := td']> st2).
Proof.
  intros Hid Hr Hs st1 I1 (I2 & K2 & S2) Hin Hfor Hagain.
  assert (I3 : inputs (<[id := td']> st2) = inputs st).
  { unfold inputs in *. rewrite fmap_insert, I2, I1, Hin. apply insert_id. by rewrite lookup_fmap, Hid. }
  split; [done|]. split.
  - intros j Hj. rewrite lookup_insert_ne by (intros ->; lia). rewrite K2 by lia.
    unfold st1. rewrite lookup_insert_ne; [done|]. intros ->. lia.
  - intros j Hj. destruct (decide (j = id)) as [->|Hne].
    + intros td2 Ej _. rewrite lookup_insert_eq in Ej. injection Ej as <-. exists n. rewrite Hfor.
      eapply record_spec_mono; [|exact Hagain]. intros m x <-. symmetry.
      apply ext_n_inputs; [congruence|done].
    + destruct (decide (rank j < rank id)%nat).
      * apply (settled_inputs st2); [congruence|by rewrite lookup_insert_ne|by apply S2].
      * apply (settled_inputs st); [done| |by apply Hs].
        rewrite lookup_insert_ne by done. rewrite K2 by lia. unfold st1. by rewrite lookup_insert_ne.
Qed.

Lemma inputs_marked st id td : st !! id = Some td -> inputs (<[id := tag_marked target td]> st) = inputs st.
Proof. intros H. unfold inputs. rewrite fmap_insert. apply insert_id. by rewrite lookup_fmap, H. Qed.

(** The branch that runs the loop, for structures and for unions alike. *)
Lemma fresh_record_runs {A} n r st id td mstep step (a0 : A) fin td' :
  let st1 := <[id := tag_marked target td]> st in
  st !! id = Some td -> (rank id < r)%nat -> settled_below r st ->
  (forall m, m ∈ tag_members td -> step_runs (rank id) st1 (ext_n n target st1) mstep step m) ->
  (forall p, td_inputs (fin (tag_marked target td) p) = td_inputs td ->
             tag_laid_out_for (fin (tag_marked target td) p) = target) ->
  option_map (fin (tag_marked target td)) (place_members (ext_n n target st1) step (tag_members td) a0) = Some td' ->
  td_inputs td' = td_inputs td -> record_spec target (ext_n n target st1) td' = Some td' ->
  exists st', bind (members_loop mstep (tag_members td) a0)
                (fun p => update_tag id (fun td => fin td p)) st1 = Some (tt, st') /\
    keeps r st st' /\ st' !! id = Some td'.
Proof.
  intros st1 Hid Hr Hs Hm Hfor Hp Hin Hagain.
  destruct (place_members _ _ _ _) as [p|] eqn:P; [|done]. injection Hp as <-.
  pose proof (inputs_marked st id td Hid) as I1.
  destruct (members_loop_runs (rank id) st1 _ mstep step (tag_members td) a0 p st1 Hm eq_refl
              (mark_keeps r st id td (eq_sym I1) Hs Hr) P) as (st2 & E2 & K2).
  assert (E3 : st2 !! id = Some (tag_marked target td))
    by (destruct K2 as (_ & -> & _); [apply lookup_insert_eq|done]).
  eexists. unfold update_tag, bind, get, set_tag. rewrite E2, E3. split; [reflexivity|].
  split; [|apply lookup_insert_eq].
  eapply finish_keeps; try done. by apply Hfor.
Qed.

(** Laying out a record: the tag ends with its layout, everything below it is
    settled, everything above is untouched. *)
Lemma layout_record_runs n t r st id td td' : layout_runs n -> ranked rank st ->
  ty_tag t = Some id -> st !! id = Some td -> (rank id < r)%nat -> tag_complete td = true -> settled_below r st ->
  record_spec target (ext_n n target st) td = Some td' ->
  exists st' td1, layout_record target (layout_of_n n target) (type_is_runtime_sized n) t st = Some (tt, st') /\
    keeps r st st' /\ st' !! id = Some td1 /\ extents td1 td' /\
    tag_laid_out td1 = true /\ tag_laid_out_for td1 = target.
Proof.
  intros L R Ht Hid Hr Hc Hs Hspec. unfold layout_record, bind, get. rewrite Ht, Hid, Hc. simpl.
  destruct (tag_laid_out td && bool_decide (tag_laid_out_for td = target)) eqn:M.
  - apply andb_true_iff in M as [M1 M2]. apply bool_decide_eq_true in M2.
    exists st, td. split; [done|]. split; [by apply keeps_refl|]. split; [done|]. split; [|done].
    destruct (Hs id Hr td Hid M1) as [k Hk]. rewrite M2 in Hk.
    pose proof (record_spec_mono target (ext_n n target st) (ext_n (max n k) target st) td td'
                  (fun m x => ext_n_mono n (max n k) target st m x ltac:(lia)) Hspec) as E1.
    pose proof (record_spec_mono target (ext_n k target st) (ext_n (max n k) target st) td td
                  (fun m x => ext_n_mono k (max n k) target st m x ltac:(lia)) Hk) as E2.
    rewrite E1 in E2. by injection E2 as ->.
  - pose proof (inputs_marked st id td Hid) as I1. set (st1 := <[id := tag_marked target td]> st) in *.
    assert (R1 : ranked rank st1) by (by eapply ranked_inputs).
    assert (Hm : forall m, m ∈ tag_members td ->
              forall u j, m_type m = Some u -> by_value u = Some j -> (rank j < rank id)%nat)
      by (intros m Hm u j Hu Hj; by destruct (R id td m u j Hid Hm Hu Hj)).
    assert (Hspec1 : record_spec target (ext_n n target st1) td = Some td').
    { eapply record_spec_mono; [|exact Hspec]. intros m x <-. by apply ext_n_inputs. }
    pose proof (record_spec_again target _ td td' (ext_n_respects n target st1) Hspec1) as Hagain.
    pose proof (record_spec_inputs target _ _ td td (ext_n_respects n target st1) eq_refl) as Hin.
    rewrite Hspec1 in Hin. destruct Hin as (_ & Hin & _).
    assert (Hend : forall st', keeps r st st' /\ st' !! id = Some td' ->
              tag_laid_out td' = true /\ tag_laid_out_for td' = target ->
              exists td1, keeps r st st' /\ st' !! id = Some td1 /\ extents td1 td' /\
                tag_laid_out td1 = true /\ tag_laid_out_for td1 = target)
      by (intros st' [? ?] ?; exists td'; done).
    unfold record_spec in Hspec1.
    destruct (bool_decide (tag_kind td = TY_UNION)).
    + destruct (fresh_record_runs n r st id td
        (union_member target (layout_of_n n target) (type_is_runtime_sized n)) (overlay_extent target)
        (mkUnion 0 1 false) finish_union td' Hid Hr Hs
        (fun m Hmem => union_member_runs n (rank id) st1 m L R1 (Hm m Hmem))
        (fun _ _ => eq_refl) Hspec1 Hin Hagain) as (st' & E & K).
      exists st'. edestruct Hend as (td1 & H1); [exact K| |exists td1; split; [|exact H1]].
      { destruct (place_members _ _ _ _); [|done]. by injection Hspec1 as <-. }
      unfold layout_union. rewrite <- E. unfold bind. by destruct (members_loop _ _ _ _) as [[[ms a] st2]|].
    + destruct (fresh_record_runs n r st id td
        (struct_member target (layout_of_n n target) (type_is_runtime_sized n)) (place_extent target)
        (mkAcc (mkPos 0 0) 1 false) finish_struct td' Hid Hr Hs
        (fun m Hmem => struct_member_runs n (rank id) st1 m L R1 (Hm m Hmem))
        (fun _ _ => eq_refl) Hspec1 Hin Hagain) as (st' & E & K).
      exists st'. edestruct Hend as (td1 & H1); [exact K| |exists td1; split; [|exact H1]].
      { destruct (place_members _ _ _ _); [|done]. by injection Hspec1 as <-. }
      unfold layout_struct. rewrite <- E. unfold bind. by destruct (members_loop _ _ _ _) as [[[ms a] st2]|].
Qed.

Lemma layout_of_n_runs n : layout_runs n.
Proof.
  induction n as [|n IH]; intros t r st l R Ht Hs H; [done|]. simpl in H |- *.
  assert (Hdone : forall o, option_map (type_override t) (Some o) = Some l ->
            exists st', Some (type_override t o, st) = Some (l, st') /\ keeps r st st').
  { intros o [= <-]. exists st. split; [done|]. by apply keeps_refl. }
  assert (Hb : by_value t = match ty_kind t with
    | TY_ARRAY => match ty_base t with Some b => by_value b | None => None end
    | TY_STRUCT | TY_UNION => ty_tag t | _ => None end) by (by destruct t).
  destruct (ty_kind t) eqn:K; unfold bind, get, ret; try (by apply Hdone).
  { destruct (ty_base t) as [b|] eqn:B; [|by apply Hdone].
    destruct (spec_n n target st b) as [lb|] eqn:E; [|done]. injection H as <-.
    destruct (IH b r st lb R ltac:(intros j Hj; apply Ht; by rewrite Hb) Hs E) as (st' & E' & K').
    exists st'. by rewrite E'. }
  all: destruct (tag_of st t) as [td|] eqn:T; [|by apply Hdone].
  all: destruct (tag_complete td) eqn:C; cbn [negb] in *; [|by apply Hdone].
  all: fold (ext_n n target st) in H.
  all: destruct (record_spec target (ext_n n target st) td) as [td'|] eqn:S; [|done]; injection H as <-.
  all: unfold tag_of in T; destruct (ty_tag t) as [id|] eqn:Htag; [|done].
  all: destruct (layout_record_runs n t r st id td td' IH R Htag T (Ht id Hb) C Hs S)
         as (st' & td1 & E & Kp & Hid & (Ez & Ea & _) & _).
  all: exists st'; split; [|done]; rewrite E; unfold tag_of; rewrite Htag, Hid; simpl; by rewrite Ez, Ea.
Qed.
End memo.
