(* ===== verification/LayoutTotal.v ===== *)
(** Layout returns: on a store without cycles whose types are what semantic
    analysis builds, the fuel of [layout_of] is enough, no division is by zero,
    and every layout has a power of two for alignment. *)
From stdpp Require Import base gmap list sorting.
From S2P Require Import Prelude Pptok Ctype Layout LayoutFacts LayoutMemo.

(** ** Types and stores as semantic analysis builds them *)
Definition basic_integer (t : CType) : Prop := kind_in t TY_BOOL TY_UINT128 = true.

Definition ok_node (t : CType) : Prop :=
  ok_override (ty_align_override t) /\
  (ty_kind t = TY_VECTOR -> power2 (ty_size t)) /\
  (forall u, ty_enum_repr t = Some u -> basic_integer u).

Fixpoint ok_type (t : CType) : Prop :=
  ok_node t /\
  match ty_kind t, ty_base t with TY_ARRAY, Some b => ok_type b | _, _ => True end.

Definition ok_tag (td : TagDecl) : Prop :=
  ok_override (tag_align_override td) /\
  (forall u, tag_enum_underlying td = Some u -> basic_integer u) /\
  forall m, m ∈ tag_members td ->
    ok_attributes m /\
    forall t, m_type m = Some t -> ok_type t /\ (m_is_bitfield m = true -> type_is_integer t = true).

Definition ok_store (st : Tags) : Prop := forall id td, st !! id = Some td -> ok_tag td.

Lemma ok_attributes_inputs m m' : m_inputs m = m_inputs m' -> ok_attributes m -> ok_attributes m'.
Proof.
  unfold m_inputs, ok_attributes. intros E (H1 & H2 & H3 & H4).
  assert (Eb : m_is_bitfield m = m_is_bitfield m') by congruence.
  assert (Eo : m_align_override m = m_align_override m') by congruence.
  assert (Ep : m_pack_align m = m_pack_align m') by congruence.
  rewrite <- Eo, <- Ep, <- Eb. split_and!; try done. intros Hb.
  assert (Ew : m_bit_width m = m_bit_width m') by (rewrite <- Eb, Hb in E; congruence).
  rewrite <- Ew. by apply H4.
Qed.

Lemma ok_tag_inputs td td' : td_inputs td = td_inputs td' -> ok_tag td -> ok_tag td'.
Proof.
  intros E (H1 & H2 & H3). unfold ok_tag.
  replace (tag_align_override td') with (tag_align_override td) by (by injection E).
  replace (tag_enum_underlying td') with (tag_enum_underlying td) by (by injection E).
  split_and!; try done. intros m Hm.
  destruct (inputs_member td' td m (eq_sym E) Hm) as (m0 & Hm0 & Em). destruct (H3 m0 Hm0) as [Ha Ht].
  split; [by eapply ok_attributes_inputs|].
  replace (m_type m) with (m_type m0) by (unfold m_inputs in Em; congruence).
  replace (m_is_bitfield m) with (m_is_bitfield m0) by (unfold m_inputs in Em; congruence). done.
Qed.

Lemma ok_store_inputs st st' : inputs st = inputs st' -> ok_store st -> ok_store st'.
Proof.
  intros H Hok id td Hid. destruct (inputs_lookup _ _ _ _ (eq_sym H) Hid) as (td0 & Hid0 & E).
  eapply ok_tag_inputs; [exact E|]. by eapply Hok.
Qed.

(** ** Bounds of layouts *)
Ltac power2_const :=
  let go k := (exists k; split; [lia|vm_compute; reflexivity]) in
  first [go 0 | go 1 | go 2 | go 3 | go 4].

Lemma basic_layout_ok target t : ok_layout (basic_layout target t).
Proof.
  unfold ok_layout, basic_layout, UINT64_MAX. destruct target, (ty_kind t); 
    (split; [split; vm_compute; discriminate|power2_const]).
Qed.

Lemma basic_integer_size target t : basic_integer t -> 1 <= tl_size (basic_layout target t) <= 16.
Proof.
  unfold basic_integer, kind_in, basic_layout. destruct target, (ty_kind t); try discriminate; intros _;
    (split; vm_compute; discriminate).
Qed.

Lemma type_override_size t l : tl_size (type_override t l) = tl_size l.
Proof. unfold type_override. by destruct (_ && _). Qed.

Lemma type_override_ok t l : ok_override (ty_align_override t) -> ok_layout l -> ok_layout (type_override t l).
Proof.
  intros Ho [Hs Ha]. unfold type_override. destruct (Z.eqb_spec (ty_align_override t) 0); [done|]. simpl.
  destruct (_ || _); [|done]. split; [done|]. by destruct Ho.
Qed.

Lemma enum_layout_ok target st t : ok_layout (enum_layout target st t).
Proof.
  unfold enum_layout. destruct (type_enum_underlying st t); [apply basic_layout_ok|].
  split; simpl; [unfold UINT64_MAX; lia|power2_const].
Qed.

Lemma enum_layout_size target st t : ok_store st -> ok_node t -> ty_kind t = TY_ENUM ->
  1 <= tl_size (enum_layout target st t) <= 16.
Proof.
  intros Hs (_ & _ & He) Hk. unfold enum_layout, type_enum_underlying, kind_is. rewrite Hk. simpl.
  assert (Hint : 1 <= tl_size (basic_layout target (type_basic TY_INT)) <= 16) by (destruct target; split; vm_compute; discriminate).
  destruct (ty_enum_repr t) as [u|]; [by apply basic_integer_size, He|].
  unfold tag_of. destruct (ty_tag t) as [id|]; [|done]. destruct (st !! id) as [td|] eqn:D; [|done].
  destruct (Hs id td D) as (_ & Hu & _).
  destruct (tag_enum_underlying td) as [u|]; [by apply basic_integer_size, Hu|done].
Qed.

Lemma square1_ok : ok_layout (square 1).
Proof. split; simpl; [unfold UINT64_MAX; lia|apply power2_1]. Qed.

(** ** Placing the members *)

(** The loop of [layout_struct] as a chain of exact steps. *)
Lemma place_members_placed target ext ms a c :
  (forall m, m ∈ ms -> ok_attributes m /\ exists x, ext m = Some x /\ ok_extent m x) ->
  at_bit (sa_position a) c -> 1 <= sa_align a ->
  exists ts c' a', place_members ext (place_extent target) ms a = Some (map snd ts, a') /\
    placed target c a ts c' a' /\ at_bit (sa_position a') c' /\ map (fun t => t.1.1) ts = ms /\
    Forall (fun t => ext t.1.1 = Some t.1.2 /\ ok_attributes t.1.1 /\ ok_extent t.1.1 t.1.2 /\
                     outputs_only t.1.1 t.2) ts.
Proof.
  revert a c. induction ms as [|m ms IH]; intros a c Hm Hc Ha.
  { exists [], c, a. split_and!; try done. constructor. }
  destruct (Hm m ltac:(left)) as (Hat & x & Hx & Hok).
  pose proof (ok_member_intro m x Hat Hok) as Hmem.
  assert (exists m' a1, place_extent target m x a = Some (m', a1) /\ exact_step target m x c a m' a1)
    as (m' & a1 & E & Hstep).
  { destruct x as [l|l|]; simpl.
    - by apply place_sized_exact.
    - do 2 eexists. split; [by rewrite (surjective_pairing (place_skipped _ _ _))|].
      by apply (place_skipped_exact target m (Runtime l)).
    - do 2 eexists. split; [by rewrite (surjective_pairing (place_skipped _ _ _))|].
      by apply (place_skipped_exact target m Unsized). }
  pose proof Hstep as (Hout & _ & Hpos & Hal & _).
  destruct (IH a1 _ ltac:(intros; apply Hm; by right) Hpos ltac:(lia)) as (ts & c' & a' & P & Hpl & Hend & Hms & Hall).
  exists ((m, x, m') :: ts), c', a'. simpl. rewrite Hx, E, P, Hms. split_and!; try done.
  - by econstructor.
  - by constructor.
Qed.

(** *** Unions *)
Definition union_req (target : TargetKind) (m : Member) (x : Extent) : Z :=
  match x with
  | Sized l =>
    if m_is_bitfield m then
      Z.max (if (m_bit_width m =? 0) && is_arm64_linux target then Z.max (tl_align l) (m_align_override m) else 1)
        (if named m || (negb (m_bit_width m =? 0) && is_arm64_linux target)
         then member_effective_align m (tl_align l) else 1)
    else member_effective_align m (tl_align l)
  | Runtime l => member_effective_align m (tl_align l)
  | Unsized => 1
  end.

(** The bytes a member of a union takes. *)
Definition bytes_of (m : Member) (x : Extent) : Z :=
  match x with
  | Sized l => if m_is_bitfield m then (m_bit_width m + 7) / 8 else tl_size l
  | _ => 0
  end.

Inductive overlaid (target : TargetKind) : UnionAcc -> list Placed -> UnionAcc -> Prop :=
| overlaid_nil a : overlaid target a [] a
| overlaid_cons m x m' a a1 ts a' :
    outputs_only m m' -> m_offset m' = 0 -> m_bit_shift m' = 0 ->
    ua_size a1 = Z.max (ua_size a) (bytes_of m x) -> ua_align a1 = Z.max (ua_align a) (union_req target m x) ->
    ua_zero a1 = ua_zero a || zero_sized m x ->
    overlaid target a1 ts a' -> overlaid target a ((m, x, m') :: ts) a'.

Lemma overlay_extent_step target m x a : ok_attributes m -> 0 <= ua_size a -> 1 <= ua_align a ->
  exists m' a', overlay_extent target m x a = Some (m', a') /\
    outputs_only m m' /\ m_offset m' = 0 /\ m_bit_shift m' = 0 /\
    ua_size a' = Z.max (ua_size a) (bytes_of m x) /\ ua_align a' = Z.max (ua_align a) (union_req target m x) /\
    ua_zero a' = ua_zero a || zero_sized m x.
Proof.
  intros (_ & _ & _ & Hw) Hs Ha. unfold overlay_extent, overlay_sized, overlay_skipped, outputs_only.
  destruct x as [l|l|]; simpl.
  - destruct (m_is_bitfield m) eqn:B; do 2 eexists; (split; [done|]); simpl; rewrite ?raise_max, ?B; try done.
    specialize (Hw eq_refl). unfold u32. rewrite Z.mod_small by lia. split_and!; try done.
    destruct ((m_bit_width m =? 0) && is_arm64_linux target), (named m || _); rewrite ?raise_max; lia.
  - do 2 eexists. split; [done|]. simpl. rewrite raise_max, orb_false_r. split_and!; try done. lia.
  - do 2 eexists. split; [done|]. simpl. rewrite orb_false_r. split_and!; try done; lia.
Qed.

Lemma place_members_overlaid target ext ms a :
  (forall m, m ∈ ms -> ok_attributes m /\ exists x, ext m = Some x /\ ok_extent m x) ->
  0 <= ua_size a -> 1 <= ua_align a ->
  exists ts a', place_members ext (overlay_extent target) ms a = Some (map snd ts, a') /\
    overlaid target a ts a' /\ map (fun t => t.1.1) ts = ms /\
    Forall (fun t => ext t.1.1 = Some t.1.2 /\ ok_attributes t.1.1 /\ ok_extent t.1.1 t.1.2 /\
                     outputs_only t.1.1 t.2) ts.
Proof.
  revert a. induction ms as [|m ms IH]; intros a Hm Hs Ha.
  { exists [], a. split_and!; try done; constructor. }
  destruct (Hm m ltac:(left)) as (Hat & x & Hx & Hok).
  destruct (overlay_extent_step target m x a Hat Hs Ha) as (m' & a1 & E & Hout & Ho & Hsh & Hz & Hal & Hzr).
  destruct (IH a1 ltac:(intros; apply Hm; by right) ltac:(lia) ltac:(lia)) as (ts & a' & P & Hov & Hms & Hall).
  exists ((m, x, m') :: ts), a'. simpl. rewrite Hx, E, P, Hms. split_and!; try done.
  - by econstructor.
  - by constructor.
Qed.

Lemma union_req_power2 target m x : ok_attributes m -> ok_extent m x -> power2 (union_req target m x).
Proof.
  intros Hm Hx. destruct x as [l|l|]; simpl; [|by apply power2_effective; [|apply Hx]|apply power2_1].
  destruct Hx as [[_ Ha] _]. pose proof (power2_effective m _ Hm Ha). pose proof power2_1.
  assert (power2 (Z.max (tl_align l) (m_align_override m))).
  { destruct Hm as ([->|Ho] & _); [|by apply power2_max]. pose proof (power2_bounds _ Ha). by rewrite Z.max_l by lia. }
  destruct (m_is_bitfield m); [|done].
  by apply power2_max; [destruct (_ && is_arm64_linux target)|destruct (named m || _)].
Qed.

Lemma bytes_of_bounds m x : ok_attributes m -> ok_extent m x -> 0 <= bytes_of m x <= UINT64_MAX.
Proof.
  intros (_ & _ & _ & Hw) Hx. destruct x as [l|l|]; simpl; [|unfold UINT64_MAX; lia..].
  destruct Hx as [[Hs _] _]. destruct (m_is_bitfield m); [|done]. specialize (Hw eq_refl). unfold UINT64_MAX in *.
  split; [apply Z.div_pos; lia|]. apply Z.div_le_upper_bound; lia.
Qed.

(** The union is as large and as aligned as each of its members asks. *)
Lemma overlaid_bounds target a ts a' : overlaid target a ts a' ->
  Forall (fun t => ok_attributes t.1.1 /\ ok_extent t.1.1 t.1.2) ts ->
  power2 (ua_align a) -> 0 <= ua_size a <= UINT64_MAX ->
  power2 (ua_align a') /\ 0 <= ua_size a' <= UINT64_MAX /\ ua_align a <= ua_align a' /\ ua_size a <= ua_size a' /\
  Forall (fun t => union_req target t.1.1 t.1.2 <= ua_align a' /\ bytes_of t.1.1 t.1.2 <= ua_size a' /\
                   m_offset t.2 = 0 /\ m_bit_shift t.2 = 0) ts.
Proof.
  induction 1 as [|m x m' a a1 ts a' Hout Ho Hsh Hz Hal _ _ IH]; intros Hts Hp Hs.
  { split_and!; try done; lia. }
  pose proof (List.Forall_inv Hts) as [H1 H2]. simpl in H1, H2.
  pose proof (union_req_power2 target m x H1 H2). pose proof (bytes_of_bounds m x H1 H2).
  destruct IH as (P1 & P2 & P3 & P4 & P5);
    [by apply List.Forall_inv_tail in Hts|rewrite Hal; by apply power2_max|lia|].
  split; [done|]. split; [lia|]. split; [lia|]. split; [lia|]. constructor; [simpl; lia|done].
Qed.

(** ** A record has a layout when its members have *)
Definition ok_record (td : TagDecl) : Prop := 0 <= tag_size td <= UINT64_MAX /\ power2 (tag_align td).

Lemma Forall_ok ext (ts : list Placed) :
  Forall (fun t => ext t.1.1 = Some t.1.2 /\ ok_attributes t.1.1 /\ ok_extent t.1.1 t.1.2 /\
                   outputs_only t.1.1 t.2) ts ->
  Forall (fun t => ok_attributes t.1.1 /\ ok_extent t.1.1 t.1.2) ts.
Proof. apply List.Forall_impl. by intros t (_ & ? & ? & _). Qed.

Lemma record_spec_total target ext td :
  ok_tag td -> (forall m, m ∈ tag_members td -> exists x, ext m = Some x /\ ok_extent m x) ->
  exists td', record_spec target ext td = Some td' /\ ok_record td'.
Proof.
  intros (Ho & _ & Hm) Hext.
  assert (Hms : forall m, m ∈ tag_members td -> ok_attributes m /\ exists x, ext m = Some x /\ ok_extent m x)
    by (intros m Hin; split; [by apply Hm|by apply Hext]).
  unfold record_spec. destruct (bool_decide _).
  - destruct (place_members_overlaid target ext _ (mkUnion 0 1 false) Hms) as (ts & a' & -> & Hov & _ & Hall);
      [simpl; lia|simpl; lia|]. eexists. split; [done|].
    destruct (overlaid_bounds _ _ _ _ Hov (Forall_ok _ _ Hall)) as (P1 & P2 & _);
      [apply power2_1|simpl; unfold UINT64_MAX; lia|].
    destruct (finished_size (tag_marked target td) (map snd ts) (ua_size a') (ua_align a') (ua_zero a') P2 P1 Ho)
      as (_ & F2 & F3 & _). done.
  - destruct (place_members_placed target ext _ (mkAcc (mkPos 0 0) 1 false) 0 Hms)
      as (ts & c' & a' & -> & Hpl & Hend & _ & Hall); [apply at_bit_start|simpl; lia|]. eexists. split; [done|].
    destruct (placed_align _ _ _ _ _ _ Hpl (Forall_ok _ _ Hall)) as (P1 & _); [apply power2_1|].
    pose proof (at_bit_byte _ _ (at_bit_ceil _ _ Hend)) as P2. simpl in P2.
    destruct (finished_size (tag_marked target td) (map snd ts) (position_ceil_byte (sa_position a'))
      (sa_align a') (sa_zero a') P2 P1 Ho) as (_ & F2 & F3 & _). done.
Qed.

(** ** Fuel *)
Section fuel.
  Context (rank : TagId -> nat) (st : Tags).

Definition height (id : TagId) : nat := size (filter (fun p => (rank p.1 < rank id)%nat) st).

Lemma height_le id : (height id <= size st)%nat.
Proof. apply map_subseteq_size, map_filter_subseteq. Qed.

Lemma height_lt j id : is_Some (st !! j) -> (rank j < rank id)%nat -> (height j < height id)%nat.
Proof.
  intros [td Hj] Hr. apply map_subset_size. apply map_subset_alt. split.
  - apply map_filter_subseteq_ext. intros i x _. simpl. lia.
  - exists j. split.
    + apply map_lookup_filter_None. right. intros x _. simpl. lia.
    + exists td. by apply map_lookup_filter_Some.
Qed.

Lemma store_depth_le id td m t : st !! id = Some td -> m ∈ tag_members td -> m_type m = Some t ->
  (base_depth t <= store_depth st)%nat.
Proof.
  intros Hid Hm Ht. unfold store_depth.
  assert (E : base_depth t = member_depth m) by (unfold member_depth; by rewrite Ht).
  rewrite E. etrans.
  - apply (max_list_elem_of_le _ (map member_depth (tag_members td))). by apply list_elem_of_fmap_2.
  - apply max_list_elem_of_le.
    apply (list_elem_of_fmap_2 (fun p => max_list (map member_depth (tag_members p.2))) _ (id, td)).
    by apply elem_of_map_to_list.
Qed.

(** The calls below a type: its element types, then each tag on the path once. *)
Definition need (t : CType) : nat :=
  S (base_depth t) + match by_value t with Some j => S (height j) * (2 + store_depth st) | None => 0 end.

Lemma need_fuel t : (need t <= layout_fuel st t)%nat.
Proof.
  unfold need, layout_fuel. destruct (by_value t) as [j|]; [|lia]. pose proof (height_le j). nia.
Qed.

Lemma need_member id td m t u : ranked rank st -> st !! id = Some td -> m ∈ tag_members td ->
  m_type m = Some u -> by_value t = Some id -> (need u < need t)%nat.
Proof.
  intros R Hid Hm Hu Ht. pose proof (store_depth_le id td m u Hid Hm Hu). unfold need. rewrite Ht.
  destruct (by_value u) as [j|] eqn:J; [|nia].
  destruct (R id td m u j Hid Hm Hu J) as [Hj Hr]. pose proof (height_lt j id Hj Hr). nia.
Qed.

Lemma base_by_value t b : ty_kind t = TY_ARRAY -> ty_base t = Some b ->
  by_value t = by_value b /\ base_depth t = S (base_depth b).
Proof. destruct t. simpl. by intros -> ->. Qed.

Lemma need_base t b : ty_kind t = TY_ARRAY -> ty_base t = Some b -> (need b < need t)%nat.
Proof. intros K B. destruct (base_by_value t b K B) as [E1 E2]. unfold need. rewrite E1, E2. lia. Qed.

Lemma record_by_value t : ty_kind t = TY_STRUCT \/ ty_kind t = TY_UNION -> by_value t = ty_tag t.
Proof. destruct t. simpl. by intros [-> | ->]. Qed.
End fuel.

(** ** Layout returns *)
Section total.
  Context (rank : TagId -> nat) (st : Tags) (target : TargetKind).
  Hypothesis R : ranked rank st.
  Hypothesis Hst : ok_store st.

Lemma runtime_total n t : (need rank st t <= n)%nat -> exists b, type_is_runtime_sized n st t = Some b.
Proof.
  revert t. induction n as [|n IH]; intros t Hn; [unfold need in Hn; lia|]. simpl.
  assert (Hrec : ty_kind t = TY_STRUCT \/ ty_kind t = TY_UNION ->
            exists b, match tag_of st t with
              | None => Some false | Some td => any_member (type_is_runtime_sized n st) (tag_members td) end = Some b).
  { intros K. unfold tag_of. destruct (ty_tag t) as [id|] eqn:T; [|by eexists].
    destruct (st !! id) as [td|] eqn:D; [|by eexists].
    assert (Hm : forall m u, m ∈ tag_members td -> m_type m = Some u ->
              exists b, type_is_runtime_sized n st u = Some b).
    { intros m u Hm Hu. apply IH.
      pose proof (need_member rank st id td m t u R D Hm Hu ltac:(by rewrite (record_by_value t K))). lia. }
    clear D. induction (tag_members td) as [|m ms IHms]; simpl; [by eexists|].
    destruct (m_type m) as [u|] eqn:U.
    - destruct (Hm m u ltac:(left) U) as [[] ->]; [by eexists|]. apply IHms. intros; eapply Hm; [by right|done].
    - apply IHms. intros; eapply Hm; [by right|done]. }
  destruct (ty_kind t) eqn:K; try (by eexists); try (apply Hrec; auto).
  destruct (ty_is_vla t); [by eexists|]. destruct (ty_base t) as [b|] eqn:B; [|by eexists].
  apply IH. pose proof (need_base rank st t b K B). lia.
Qed.

Lemma ok_type_node t : ok_type t -> ok_node t.
Proof. destruct t. by intros [? _]. Qed.

Lemma ok_type_base t b : ok_type t -> ty_kind t = TY_ARRAY -> ty_base t = Some b -> ok_type b.
Proof. destruct t. simpl. intros [_ H] -> ->. done. Qed.

Lemma integer_kind t : type_is_integer t = true -> basic_integer t \/ ty_kind t = TY_ENUM.
Proof. unfold type_is_integer, basic_integer, kind_is. intros [|E]%orb_true_iff; [by left|]. right. by apply bool_decide_eq_true in E. Qed.

(** The extent of each member of a record is known and proper. *)
Lemma extent_total n t id td :
  (forall u, (need rank st u < need rank st t)%nat -> ok_type u ->
     exists l, spec_n n target st u = Some l /\ ok_layout l /\ (type_is_integer u = true -> 1 <= tl_size l <= 16)) ->
  (need rank st t <= S n)%nat -> by_value t = Some id -> st !! id = Some td ->
  forall m, m ∈ tag_members td -> exists x, ext_n n target st m = Some x /\ ok_extent m x.
Proof.
  intros Hspec Hn Ht Hid m Hm. unfold ext_n, extent_of. destruct (m_type m) as [u|] eqn:U; [|by exists Unsized].
  destruct (Hst id td Hid) as (_ & _ & Hmem). destruct (Hmem m Hm) as [_ Hu]. destruct (Hu u U) as [Hut Hbf].
  pose proof (need_member rank st id td m t u R Hid Hm U Ht) as Hlt.
  destruct (Hspec u Hlt Hut) as (l & El & Hl & Hint). rewrite El.
  destruct (layout_is_complete_for_size st u); [exists (Sized l); split; [done|]; split; auto|].
  destruct (runtime_total n u ltac:(lia)) as [[] ->]; [by exists (Runtime l)|by exists Unsized].
Qed.

Lemma spec_n_total n t : (need rank st t <= n)%nat -> ok_type t ->
  exists l, spec_n n target st t = Some l /\ ok_layout l /\
    (type_is_integer t = true -> 1 <= tl_size l <= 16).
Proof.
  revert t. induction n as [|n IH]; intros t Hn Hok; [unfold need in Hn; lia|]. simpl.
  pose proof (ok_type_node t Hok) as (Ho & Hv & He).
  assert (Hdone : forall l, ok_layout l -> (type_is_integer t = true -> 1 <= tl_size l <= 16) ->
            exists l', option_map (type_override t) (Some l) = Some l' /\ ok_layout l' /\
              (type_is_integer t = true -> 1 <= tl_size l' <= 16)).
  { intros l Hl Hi. eexists. split; [done|]. split; [by apply type_override_ok|]. by rewrite type_override_size. }
  assert (Hbasic : ty_kind t <> TY_ENUM -> type_is_integer t = true -> 1 <= tl_size (basic_layout target t) <= 16).
  { intros K [H|H]%integer_kind; [by apply basic_integer_size|done]. }
  assert (Hrec : ty_kind t = TY_STRUCT \/ ty_kind t = TY_UNION ->
    exists l', option_map (type_override t)
      match tag_of st t with
      | Some td =>
        if negb (tag_complete td) then Some (square 1)
        else option_map (fun td => {| tl_size := tag_size td; tl_align := tag_align td |})
               (record_spec target (extent_of (spec_n n target st) (type_is_runtime_sized n st) st) td)
      | None => Some (square 1)
      end = Some l' /\ ok_layout l' /\ (type_is_integer t = true -> 1 <= tl_size l' <= 16)).
  { intros K. assert (Hi : type_is_integer t = true -> False)
      by (unfold type_is_integer, kind_is, kind_in; destruct K as [-> | ->]; done).
    assert (H1 : exists l', option_map (type_override t) (Some (square 1)) = Some l' /\ ok_layout l' /\
      (type_is_integer t = true -> 1 <= tl_size l' <= 16)) by (apply Hdone; [apply square1_ok|done]).
    destruct (tag_of st t) as [td|] eqn:T; [|done]. destruct (negb (tag_complete td)); [done|].
    unfold tag_of in T. destruct (ty_tag t) as [id|] eqn:Htag; [|done].
    destruct (record_spec_total target (ext_n n target st) td (Hst id td T)) as (td' & E & Hz & Ha).
    - apply (extent_total n t id td); [|done|by rewrite (record_by_value t K)|done].
      intros u Hlt Hut. apply IH; [lia|done].
    - unfold ext_n in E. rewrite E. by apply Hdone. }
  destruct (ty_kind t) eqn:K; try (apply Hdone; [apply basic_layout_ok|by apply Hbasic]); try (apply Hrec; auto).
  - assert (Hi : type_is_integer t = true -> False)
      by (unfold type_is_integer, kind_is, kind_in; by rewrite K).
    assert (Hmul : forall el, ok_layout el -> ok_layout {| tl_size := tl_size el *64
              (if ty_has_size t then ty_size t else 0); tl_align := tl_align el |}).
    { intros el [_ Ha]. split; [|done]. simpl. pose proof (u64_range (tl_size el * (if ty_has_size t then ty_size t else 0))).
      unfold is_u64, UINT64_MAX in *. lia. }
    destruct (ty_base t) as [b|] eqn:B; [|by apply Hdone; [apply Hmul, square1_ok|]].
    pose proof (need_base rank st t b K B).
    destruct (IH b ltac:(lia) (ok_type_base t b Hok K B)) as (lb & -> & Hlb & _). by apply Hdone; [apply Hmul|].
  - apply Hdone; [apply enum_layout_ok|]. intros _. apply enum_layout_size; [done|by apply ok_type_node|done].
  - apply Hdone.
    + pose proof (power2_bounds _ (Hv eq_refl)). split; [simpl; unfold UINT64_MAX; lia|]. by apply Hv.
    + unfold type_is_integer, kind_is, kind_in. by rewrite K.
Qed.

End total.
