(* ===== verification/LayoutSound.v ===== *)
(** What [sema/layout.c] promises to the rest of semantic analysis and to
    lowering: the value of [layout_of], the placement of the members of
    structures and unions. *)
From stdpp Require Import base gmap list sorting.
From S2P Require Import Prelude Pptok Ctype Layout LayoutFacts LayoutMemo LayoutTotal.

(** A store semantic analysis can hold: no record contains itself, overrides are
    powers of two, memoized layouts are the layouts they claim to be. *)
Definition sane (st : Tags) : Prop :=
  (exists rank, ranked rank st) /\ ok_store st /\ forall id, settled st id.

Lemma keeps_sane rank r st st' : sane st -> keeps rank r st st' -> sane st' /\ inputs st' = inputs st.
Proof.
  intros ((rk & R) & O & S) (I & K & Sb). split; [|done].
  split; [exists rk; by eapply ranked_inputs|]. split; [by eapply ok_store_inputs|].
  intros id. destruct (decide (rank id < r)%nat); [by apply Sb|].
  apply (settled_inputs st); [done|apply K; lia|apply S].
Qed.

(** A bound above the tag of a type. *)
Lemma rank_above (rank : TagId -> nat) t :
  exists r, forall j, by_value t = Some j -> (rank j < r)%nat.
Proof. destruct (by_value t) as [j|]; [exists (S (rank j))|exists O]; naive_solver lia. Qed.

Lemma layout_of_runs target st t : sane st -> ok_type t ->
  exists l st', layout_of target t st = Some (l, st') /\ spec_n (layout_fuel st t) target st t = Some l /\
    ok_layout l /\ sane st' /\ inputs st' = inputs st.
Proof.
  intros Hs Ht. pose proof Hs as ((rank & R) & O & S).
  destruct (spec_n_total rank st target R O (layout_fuel st t) t (need_fuel rank st t) Ht) as (l & E & Hl & _).
  destruct (rank_above rank t) as [r Hr].
  destruct (layout_of_n_runs target rank (layout_fuel st t) t r st l R Hr (fun id _ => S id) E) as (st' & E' & K).
  exists l, st'. split; [done|]. split; [done|]. split; [done|]. by eapply keeps_sane.
Qed.

Lemma layout_of_unique target st st2 t n l l2 st2' : inputs st2 = inputs st -> sane st2 -> ok_type t ->
  spec_n n target st t = Some l -> layout_of target t st2 = Some (l2, st2') -> l2 = l.
Proof.
  intros I S2 Ht E E2. destruct (layout_of_runs target st2 t S2 Ht) as (l' & st' & E' & Espec & _).
  rewrite E2 in E'. injection E' as <- <-. rewrite (spec_n_inputs _ _ _ _ _ I) in Espec.
  pose proof (spec_n_mono n (max n (layout_fuel st2 t)) target st t l ltac:(lia) E) as A1.
  pose proof (spec_n_mono (layout_fuel st2 t) (max n (layout_fuel st2 t)) target st t l2 ltac:(lia) Espec) as A2. congruence.
Qed.

(** C25. [layout_of] returns for every type over every sane store, with a
    power-of-two alignment and a size that fits [u64]; it leaves a sane store that
    differs only in layouts; and the memo is invisible: over any other sane store
    with the same declarations, whichever tags it has laid out and for whichever
    target, the answer is the same. *)
Theorem layout_of_correct target st t : sane st -> ok_type t ->
  exists l st', layout_of target t st = Some (l, st') /\
    0 <= tl_size l <= UINT64_MAX /\ power2 (tl_align l) /\
    sane st' /\ inputs st' = inputs st /\
    forall st2, sane st2 -> inputs st2 = inputs st -> exists st2', layout_of target t st2 = Some (l, st2').
Proof.
  intros Hs Ht. destruct (layout_of_runs target st t Hs Ht) as (l & st' & E & Espec & [Hz Ha] & S' & I').
  exists l, st'. split; [done|]. split; [done|]. split; [done|]. split; [done|]. split; [done|].
  intros st2 S2 I2. destruct (layout_of_runs target st2 t S2 Ht) as (l2 & st2' & E2 & _).
  exists st2'. rewrite E2. by rewrite (layout_of_unique target st st2 t _ l l2 st2' I2 S2 Ht Espec E2).
Qed.

(** ** Records *)

(** What layout found about the type of a member, as [layout_of] tells it now. *)
Definition measures (target : TargetKind) (st : Tags) (m : Member) (x : Extent) : Prop :=
  match x with
  | Sized l => exists u st', m_type m = Some u /\ layout_is_complete_for_size st u = true /\
                 layout_of target u st = Some (l, st')
  | Runtime l => exists u st', m_type m = Some u /\ layout_is_complete_for_size st u = false /\
                   layout_of target u st = Some (l, st')
  | Unsized => forall u, m_type m = Some u -> layout_is_complete_for_size st u = false
  end.

Lemma ext_n_measures n target st m x : sane st -> (forall u, m_type m = Some u -> ok_type u) ->
  ext_n n target st m = Some x -> measures target st m x.
Proof.
  intros S Hok E. unfold ext_n, extent_of in E. destruct (m_type m) as [u|] eqn:U.
  2:{ injection E as <-. intros u Hu. congruence. }
  destruct (layout_of_runs target st u S (Hok u eq_refl)) as (l & st' & El & _).
  assert (Hu : forall lu, spec_n n target st u = Some lu -> lu = l)
    by (intros lu Elu; symmetry; exact (layout_of_unique target st st u n lu l st' eq_refl S (Hok u eq_refl) Elu El)).
  destruct (layout_is_complete_for_size st u) eqn:C.
  - destruct (spec_n n target st u) as [lu|]; [|done]. injection E as <-. rewrite (Hu lu eq_refl).
    by exists u, st'.
  - destruct (type_is_runtime_sized n st u) as [[]|]; [|injection E as <-|done].
    + destruct (spec_n n target st u) as [lu|]; [|done]. injection E as <-. rewrite (Hu lu eq_refl).
      by exists u, st'.
    + intros u' Hu'. congruence.
Qed.

(** A record is laid out to a fixed point of the layout without memo. *)
Lemma layout_record_fixed target st t id td :
  sane st -> ty_kind t = TY_STRUCT \/ ty_kind t = TY_UNION -> ty_tag t = Some id -> st !! id = Some td ->
  tag_complete td = true ->
  exists st' td' n, layout_record_of target t st = Some (tt, st') /\ sane st' /\ inputs st' = inputs st /\
    st' !! id = Some td' /\ tag_kind td' = tag_kind td /\
    record_spec target (ext_n n target st') td' = Some td' /\
    forall m, m ∈ tag_members td' -> exists x, ext_n n target st' m = Some x /\ ok_extent m x.
Proof.
  intros Hs K Ht Hid Hc. pose proof Hs as ((rank & R) & O & S).
  set (n := layout_fuel st t). pose proof (need_fuel rank st t) as Hn. fold n in Hn.
  pose proof (extent_total rank st target R O n t id td
    (fun u Hlt Hu => spec_n_total rank st target R O n u ltac:(lia) Hu) ltac:(lia)
    ltac:(by rewrite (record_by_value t K)) Hid) as Hext.
  destruct (record_spec_total target _ td (O id td Hid) Hext) as (td' & E & _).
  destruct (layout_record_runs target rank n t (Datatypes.S (rank id)) st id td td'
    (layout_of_n_runs target rank n) R Ht Hid ltac:(lia) Hc (fun j _ => S j) E)
    as (st' & td1 & E1 & Kp & Hid1 & _ & Hl & Hf).
  destruct (keeps_sane _ _ _ _ Hs Kp) as [S' I'].
  pose proof S' as (_ & _ & Sett). destruct (Sett id td1 Hid1 Hl) as [k Hk]. rewrite Hf in Hk.
  destruct (inputs_lookup _ _ _ _ I' Hid1) as (td2 & Hid2 & Hin). rewrite Hid in Hid2. injection Hid2 as <-.
  exists st', td1, (max n k). split; [done|]. split; [done|]. split; [done|]. split; [done|].
  split; [by injection Hin|]. split.
  - eapply record_spec_mono; [|exact Hk]. intros m x. apply ext_n_mono. lia.
  - intros m Hm. destruct (inputs_member td1 td m (eq_sym Hin) Hm) as (m0 & Hm0 & Em).
    destruct (Hext m0 Hm0) as (x & Hx & Hox). exists x. split.
    + rewrite (ext_n_inputs _ target st' st m m0 I' (eq_sym Em)). eapply ext_n_mono; [|exact Hx]. lia.
    + destruct x; simpl in *; [|done..]. by replace (m_is_bitfield m) with (m_is_bitfield m0)
        by (unfold m_inputs in Em; congruence).
Qed.

Lemma sane_members st id td m : sane st -> st !! id = Some td -> m ∈ tag_members td ->
  ok_attributes m /\ forall u, m_type m = Some u -> ok_type u.
Proof.
  intros (_ & O & _) Hid Hm. destruct (O id td Hid) as (_ & _ & H). destruct (H m Hm) as [Ha Ht].
  split; [done|]. intros u Hu. by destruct (Ht u Hu).
Qed.

(** *** Structures *)

(** The members of [ts] are laid from bit [c], each at the first bit its field
    admits, up to bit [c']. *)
Fixpoint laid_from (c : Z) (ts : list Placed) (c' : Z) : Prop :=
  match ts with
  | [] => c' = c
  | t :: ts => let f := field_of t.1.1 t.1.2 in
               first_bit t.2 = start_of c f /\ laid_from (next_of c f) ts c'
  end.

Lemma placed_laid target c a ts c' a' : placed target c a ts c' a' -> c' + 8 <= limit -> laid_from c ts c'.
Proof.
  intros H Hl. induction H as [|m x m' c a a1 ts c' a' Hok Hstep Hrest IH]; [done|].
  split; [|by apply IH]. simpl. pose proof (placed_le _ _ _ _ _ _ Hrest) as Hc'.
  destruct Hstep as (_ & Hat & _).
  assert (Hs : start_of c (field_of m x) < limit).
  { pose proof (bits_of_nonneg m x Hok). pose proof (byte_end c). pose proof (next_of_le m x c Hok).
    destruct (field_of m x); simpl in *; lia. }
  by destruct (at_bit_first m' _ Hat Hs).
Qed.

(** The record with its members, and what was measured of each. *)
Definition described (target : TargetKind) (st : Tags) (td : TagDecl) (ts : list Placed) : Prop :=
  map snd ts = tag_members td /\ map (fun t => t.1.1) ts = tag_members td /\
  Forall (fun t => measures target st t.2 t.1.2) ts.

Definition end_of (c : Z) (ts : list Placed) : Z := fold_left (fun c t => next_of c (field_of t.1.1 t.1.2)) ts c.
Definition align_of (target : TargetKind) (a : Z) (ts : list Placed) : Z :=
  fold_left (fun a t => Z.max a (align_req target t.1.1 t.1.2)) ts a.
Definition any_zero_sized (ts : list Placed) : bool := existsb (fun t => zero_sized t.1.1 t.1.2) ts.

Lemma placed_totals target c a ts c' a' : placed target c a ts c' a' ->
  c' = end_of c ts /\ sa_align a' = align_of target (sa_align a) ts /\ sa_zero a' = sa_zero a || any_zero_sized ts.
Proof.
  induction 1 as [c a|m x m' c a a1 ts c' a' _ (_ & _ & _ & Ha & Hz) _ (IH1 & IH2 & IH3)].
  { by rewrite orb_false_r. }
  unfold end_of, align_of in *. simpl. rewrite <- Ha. split; [done|]. split; [done|].
  by rewrite IH3, Hz, orb_assoc.
Qed.

(** The size of a record whose members end before bit [c], in the integers. *)
Definition exact_size (c align : Z) (zero : bool) : Z :=
  let bytes := roundup c 8 / 8 in
  if (bytes =? 0) && negb zero then align else roundup bytes align.

Lemma finished_exact td ms p c align zero : at_bit p c -> power2 align -> ok_override (tag_align_override td) ->
  let r := tag_finished td ms (position_ceil_byte p) align zero in
  tag_size r = Z.min UINT64_MAX (exact_size c (tag_align r) zero) /\
  (tag_size r < UINT64_MAX -> c + 8 <= limit).
Proof.
  intros Hc Ha Ho r. pose proof (at_bit_ceil _ _ Hc) as C. pose proof (at_bit_byte _ _ C) as B. simpl in B.
  destruct (finished_size td ms (position_ceil_byte p) align zero B Ha Ho) as (F1 & F2 & F3 & F4 & F5).
  fold r in F1, F2, F3, F4, F5. pose proof (power2_bounds _ F2) as PA. clearbody r.
  pose proof (roundup_bounds (position_ceil_byte p) (tag_align r) ltac:(lia)) as RB.
  destruct C as (_ & _ & D). cbn [p_byte p_bit] in D. pose proof (roundup_bounds c 8 ltac:(lia)) as R8.
  unfold exact_size. destruct D as [[D E]|[D E]].
  - assert (Eb : roundup c 8 / 8 = position_ceil_byte p).
    { rewrite E, Z.add_0_r, Z.mul_comm. by apply Z.div_mul. }
    rewrite Eb. split; [|unfold limit in *; lia].
    destruct (Z.le_gt_cases (roundup (position_ceil_byte p) (tag_align r)) UINT64_MAX) as [Hle|Hgt].
    + destruct (F4 Hle) as (_ & _ & ->). destruct (_ && _); unfold UINT64_MAX in *; lia.
    + rewrite F5 by lia. destruct (Z.eqb_spec (position_ceil_byte p) 0) as [E0|]; [|simpl; lia].
      exfalso. rewrite E0, roundup_id in Hgt; [unfold UINT64_MAX in *; lia|lia|apply Z.divide_0_r].
  - rewrite E in *. rewrite F5 by lia. split; [|lia].
    assert (UINT64_MAX <= roundup c 8 / 8) by (apply Z.div_le_lower_bound; unfold limit in *; lia).
    destruct (Z.eqb_spec (roundup c 8 / 8) 0); [unfold UINT64_MAX in *; lia|]. simpl.
    pose proof (roundup_bounds (roundup c 8 / 8) (tag_align r) ltac:(lia)). lia.
Qed.

Lemma described_intro target st id td ext ts : sane st -> st !! id = Some td ->
  (exists n, ext = ext_n n target st) -> map snd ts = tag_members td -> map (fun t => t.1.1) ts = tag_members td ->
  Forall (fun t : Placed => ext t.1.1 = Some t.1.2) ts -> described target st td ts.
Proof.
  intros S Hid [n ->] Hsnd Hfst Hall. split; [done|]. split; [done|].
  apply List.Forall_forall. intros u Hu. pose proof (proj1 (List.Forall_forall _ _) Hall u Hu) as Hx.
  assert (Hin1 : u.1.1 ∈ tag_members td).
  { rewrite <- Hfst. apply list_elem_of_In. exact (in_map (fun t => t.1.1) ts u Hu). }
  assert (Eu : u.2 = u.1.1).
  { apply list_elem_of_In, list_elem_of_lookup in Hu as [i Hi].
    assert (E1 : map snd ts !! i = Some u.2) by (by rewrite list_lookup_fmap, Hi).
    assert (E2 : map (fun t => t.1.1) ts !! i = Some u.1.1) by (by rewrite list_lookup_fmap, Hi).
    rewrite Hsnd in E1. rewrite Hfst in E2. congruence. }
  rewrite Eu. apply (ext_n_measures n); [done|by apply (sane_members st id td)|done].
Qed.

(** The chain of steps behind a structure that has been laid out. *)
Lemma layout_struct_placed target st t id td :
  sane st -> ty_kind t = TY_STRUCT -> ty_tag t = Some id -> st !! id = Some td ->
  tag_complete td = true -> tag_kind td = TY_STRUCT ->
  exists st' td' ts c a, layout_record_of target t st = Some (tt, st') /\ sane st' /\ inputs st' = inputs st /\
    st' !! id = Some td' /\ described target st' td' ts /\
    placed target 0 (mkAcc (mkPos 0 0) 1 false) ts c a /\ at_bit (sa_position a) c /\
    Forall (fun t => ok_attributes t.1.1 /\ ok_extent t.1.1 t.1.2) ts /\
    ok_override (tag_align_override td') /\
    td' = finish_struct (tag_marked target td') (tag_members td', a).
Proof.
  intros Hs K Ht Hid Hc Hk.
  destruct (layout_record_fixed target st t id td Hs (or_introl K) Ht Hid Hc)
    as (st' & td' & n & E & S' & I' & Hid' & Hk' & Hspec & Hext).
  unfold record_spec in Hspec. rewrite Hk', Hk in Hspec.
  rewrite bool_decide_eq_false_2 in Hspec by done.
  assert (Hms : forall m, m ∈ tag_members td' -> ok_attributes m /\ exists x, ext_n n target st' m = Some x /\ ok_extent m x).
  { intros m Hm. split; [by apply (sane_members st' id td')|by apply Hext]. }
  destruct (place_members_placed target (ext_n n target st') (tag_members td') (mkAcc (mkPos 0 0) 1 false) 0 Hms)
    as (ts & c & a & P & Hpl & Hend & Hfst & Hall); [apply at_bit_start|simpl; lia|].
  rewrite P in Hspec. simpl in Hspec. injection Hspec as Hfix.
  assert (Hsnd : map snd ts = tag_members td') by (by rewrite <- Hfix).
  exists st', td', ts, c, a. repeat (split; [done|]).
  split; [|split; [done|split; [done|split; [by eapply Forall_ok|split]]]].
  - eapply described_intro; [done|done|by eexists|done|done|].
    eapply List.Forall_impl; [|exact Hall]. by intros u (? & _).
  - destruct S' as (_ & O & _). by destruct (O id td' Hid').
  - unfold finish_struct. cbn [fst snd]. by rewrite <- Hsnd.
Qed.

(** C14. Layout of a structure, exactly: each member is at the first bit its field
    admits after the previous one, in unbounded integers; the alignment is the
    largest any member or the record asks; the size is the end rounded up to the
    alignment, one alignment unit for an empty record, and the largest [u64] when
    it does not fit. *)
Theorem layout_struct_exact target st t id td :
  sane st -> ty_kind t = TY_STRUCT -> ty_tag t = Some id -> st !! id = Some td ->
  tag_complete td = true -> tag_kind td = TY_STRUCT ->
  exists st' td' ts, layout_record_of target t st = Some (tt, st') /\ sane st' /\ inputs st' = inputs st /\
    st' !! id = Some td' /\ described target st' td' ts /\
    tag_align td' = Z.max (align_of target 1 ts) (tag_align_override td') /\
    tag_size td' = Z.min UINT64_MAX (exact_size (end_of 0 ts) (tag_align td') (any_zero_sized ts)) /\
    (tag_size td' < UINT64_MAX -> laid_from 0 ts (end_of 0 ts)).
Proof.
  intros Hs K Ht Hid Hc Hk.
  destruct (layout_struct_placed target st t id td Hs K Ht Hid Hc Hk)
    as (st' & td' & ts & c & a & E & S' & I' & Hid' & Hd & Hpl & Hend & Hok & Ho & Hfix).
  exists st', td', ts. repeat (split; [done|]).
  destruct (placed_totals _ _ _ _ _ _ Hpl) as (Hc' & Hal & Hz). simpl in Hal, Hz.
  destruct (placed_align _ _ _ _ _ _ Hpl Hok power2_1) as (Hp & _ & _).
  destruct (finished_exact (tag_marked target td') (tag_members td') (sa_position a) c (sa_align a) (sa_zero a)
              Hend Hp Ho) as [F1 F2].
  unfold finish_struct in Hfix. cbn [fst snd] in Hfix. rewrite <- Hfix in F1, F2.
  rewrite Hz, <- Hc' in *. split; [|split; [done|]].
  - rewrite Hfix. cbn [tag_finished tag_align tag_align_override tag_marked]. by rewrite raise_max, Hal.
  - intros Hlt. by eapply placed_laid; [|apply F2].
Qed.

(** How a member sits in the record. *)
Definition sits_in (td : TagDecl) (t : Placed) : Prop :=
  let '(m, x, m') := t in
  0 <= m_bit_shift m' < 8 /\ 0 <= first_bit m' /\ first_bit m' + length_of t <= 8 * tag_size td /\
  match field_of m x with
  | Skipped | Barrier _ => m_bit_shift m' = 0
  | Plain size a => m_bit_shift m' = 0 /\ forall k, (a | k * tag_size td + m_offset m')
  | Bits width unit a packed =>
    (packed = false -> width <= 8 * unit -> first_bit m' mod (8 * unit) + width <= 8 * unit) /\
    (0 < a -> packed = true -> (8 * a | first_bit m'))
  end.

(** C15. The members of a structure are inside it, in order and disjoint, bit-fields
    included; an ordinary member is aligned in every element of an array of the
    structure; a bit-field that is not packed does not cross a boundary of its
    declared type; and the size is a multiple of the alignment. *)
Theorem layout_struct_geometry target st t id td :
  sane st -> ty_kind t = TY_STRUCT -> ty_tag t = Some id -> st !! id = Some td ->
  tag_complete td = true -> tag_kind td = TY_STRUCT ->
  exists st' td' ts, layout_record_of target t st = Some (tt, st') /\ st' !! id = Some td' /\
    described target st' td' ts /\ power2 (tag_align td') /\
    (tag_size td' < UINT64_MAX ->
     (tag_align td' | tag_size td') /\ Forall (sits_in td') ts /\ StronglySorted before ts).
Proof.
  intros Hs K Ht Hid Hc Hk.
  destruct (layout_struct_placed target st t id td Hs K Ht Hid Hc Hk)
    as (st' & td' & ts & c & a & E & _ & _ & Hid' & Hd & Hpl & Hend & Hok & Ho & Hfix).
  exists st', td', ts. split; [done|]. split; [done|]. split; [done|].
  destruct (placed_align _ _ _ _ _ _ Hpl Hok power2_1) as (Hp & _ & Hreq).
  pose proof (at_bit_ceil _ _ Hend) as C. pose proof (at_bit_byte _ _ C) as B. simpl in B.
  destruct (finished_size (tag_marked target td') (tag_members td') (position_ceil_byte (sa_position a))
              (sa_align a) (sa_zero a) B Hp Ho) as (F1 & F2 & _ & F4 & F5).
  destruct (finished_exact (tag_marked target td') (tag_members td') (sa_position a) c (sa_align a) (sa_zero a)
              Hend Hp Ho) as [_ F6].
  unfold finish_struct in Hfix. cbn [fst snd] in Hfix. rewrite <- Hfix in F1, F2, F4, F5, F6.
  split; [done|]. intros Hlt. specialize (F6 Hlt).
  destruct (placed_geometry _ _ _ _ _ _ Hpl F6) as [Hw Hsorted].
  destruct F4 as (D1 & D2 & _); [by destruct (Z.le_gt_cases (roundup (position_ceil_byte (sa_position a)) (tag_align td')) UINT64_MAX); [|rewrite F5 in Hlt; lia]|].
  split; [done|]. split; [|done].
  assert (Ec : roundup c 8 = 8 * position_ceil_byte (sa_position a)).
  { destruct C as (_ & _ & D). cbn [p_byte p_bit] in D. pose proof (byte_end c). lia. }
  apply List.Forall_forall. intros [[m x] m'] Hin.
  pose proof (proj1 (List.Forall_forall _ _) Hw _ Hin) as (W1 & W2 & W3 & W4).
  pose proof (proj1 (List.Forall_forall _ _) Hok _ Hin) as [O1 O2].
  pose proof (proj1 (List.Forall_forall _ _) Hreq _ Hin) as R1. simpl in O1, O2, R1.
  split; [done|]. split; [done|]. split; [lia|].
  destruct (field_of m x) as [| |w u al pk|sz al] eqn:F; try done. destruct W4 as [W4 W5].
  split; [done|]. intros k. apply Z.divide_add_r; [|done].
  apply Z.divide_mul_r. etrans; [|exact D1].
  destruct x as [l|l|]; simpl in F; try done. destruct (m_is_bitfield m) eqn:Bf; [by destruct (_ =? _)|].
  injection F as <- <-. simpl in R1. rewrite Bf in R1. destruct O2 as [[_ Hal] _].
  apply power2_divide; [by apply power2_effective|done|]. rewrite F1. simpl. lia.
Qed.

(** *** Unions *)
Definition size_of_union (s : Z) (ts : list Placed) : Z := fold_left (fun s t => Z.max s (bytes_of t.1.1 t.1.2)) ts s.
Definition align_of_union (target : TargetKind) (a : Z) (ts : list Placed) : Z :=
  fold_left (fun a t => Z.max a (union_req target t.1.1 t.1.2)) ts a.

Lemma overlaid_totals target a ts a' : overlaid target a ts a' ->
  ua_size a' = size_of_union (ua_size a) ts /\ ua_align a' = align_of_union target (ua_align a) ts /\
  ua_zero a' = ua_zero a || any_zero_sized ts.
Proof.
  induction 1 as [a|m x m' a a1 ts a' _ _ _ Hs Ha Hz _ (IH1 & IH2 & IH3)].
  { by rewrite orb_false_r. }
  unfold size_of_union, align_of_union in *. simpl. rewrite <- Hs, <- Ha. split; [done|]. split; [done|].
  by rewrite IH3, Hz, orb_assoc.
Qed.

(** Layout of a union: every member is at offset zero and fits; the alignment
    is the largest any member or the record asks, and each ordinary member's own
    alignment divides it; the size is the largest member rounded up to the
    alignment, and the largest [u64] when that does not fit. *)
Theorem layout_union_correct target st t id td :
  sane st -> ty_kind t = TY_UNION -> ty_tag t = Some id -> st !! id = Some td ->
  tag_complete td = true -> tag_kind td = TY_UNION ->
  exists st' td' ts, layout_record_of target t st = Some (tt, st') /\ sane st' /\ inputs st' = inputs st /\
    st' !! id = Some td' /\ described target st' td' ts /\
    tag_align td' = Z.max (align_of_union target 1 ts) (tag_align_override td') /\
    (tag_size td' = let size := size_of_union 0 ts in
       if (size =? 0) && negb (any_zero_sized ts) then tag_align td'
       else Z.min UINT64_MAX (roundup size (tag_align td'))) /\
    Forall (fun t => m_offset t.2 = 0 /\ m_bit_shift t.2 = 0 /\ bytes_of t.1.1 t.1.2 <= tag_size td' /\
                     (m_is_bitfield t.1.1 = false -> forall l, t.1.2 = Sized l ->
                      (member_effective_align t.1.1 (tl_align l) | tag_align td'))) ts.
Proof.
  intros Hs K Ht Hid Hc Hk.
  destruct (layout_record_fixed target st t id td Hs (or_intror K) Ht Hid Hc)
    as (st' & td' & n & E & S' & I' & Hid' & Hk' & Hspec & Hext).
  unfold record_spec in Hspec. rewrite Hk', Hk in Hspec. rewrite bool_decide_eq_true_2 in Hspec by done.
  assert (Hms : forall m, m ∈ tag_members td' -> ok_attributes m /\ exists x, ext_n n target st' m = Some x /\ ok_extent m x).
  { intros m Hm. split; [by apply (sane_members st' id td')|by apply Hext]. }
  destruct (place_members_overlaid target (ext_n n target st') (tag_members td') (mkUnion 0 1 false) Hms)
    as (ts & a & P & Hov & Hfst & Hall); [simpl; lia|simpl; lia|].
  rewrite P in Hspec. simpl in Hspec. injection Hspec as Hfix.
  assert (Hsnd : map snd ts = tag_members td') by (by rewrite <- Hfix).
  pose proof (Forall_ok _ _ Hall) as Hok.
  destruct (overlaid_bounds _ _ _ _ Hov Hok) as (P1 & P2 & _ & _ & P5);
    [apply power2_1|simpl; unfold UINT64_MAX; lia|].
  destruct (overlaid_totals _ _ _ _ Hov) as (T1 & T2 & T3). simpl in T1, T2, T3.
  assert (Ho : ok_override (tag_align_override td')) by (destruct S' as (_ & O & _); by destruct (O id td' Hid')).
  destruct (finished_size (tag_marked target td') (map snd ts) (ua_size a) (ua_align a) (ua_zero a) P2 P1 Ho)
    as (F1 & F2 & F3 & F4 & F5).
  unfold finish_union in Hfix. cbn [fst snd] in Hfix. rewrite Hfix in F1, F2, F3, F4, F5.
  exists st', td', ts. split; [done|]. split; [done|]. split; [done|]. split; [done|].
  split.
  { eapply described_intro; [done|done|by eexists|done|done|].
    eapply List.Forall_impl; [|exact Hall]. by intros u (? & _). }
  split; [by rewrite F1, T2|].
  pose proof (power2_bounds _ F2) as PA.
  pose proof (roundup_bounds (ua_size a) (tag_align td') ltac:(lia)) as RB.
  assert (Hsize : ua_size a <= tag_size td').
  { destruct (Z.le_gt_cases (roundup (ua_size a) (tag_align td')) UINT64_MAX); [by apply F4|].
    rewrite F5 by lia. lia. }
  split.
  - cbn zeta. rewrite <- T1, <- T3.
    destruct (Z.le_gt_cases (roundup (ua_size a) (tag_align td')) UINT64_MAX) as [Hle|Hgt].
    + rewrite Z.min_r by done. by destruct (F4 Hle) as (_ & _ & ->).
    + rewrite Z.min_l, F5 by lia. destruct (Z.eqb_spec (ua_size a) 0) as [E0|]; [|done].
      exfalso. rewrite E0, roundup_id in Hgt; [unfold UINT64_MAX in *; lia|lia|apply Z.divide_0_r].
  - apply List.Forall_forall. intros u Hu.
    pose proof (proj1 (List.Forall_forall _ _) P5 u Hu) as (U1 & U2 & U3 & U4).
    pose proof (proj1 (List.Forall_forall _ _) Hok u Hu) as (O1 & O2).
    split; [done|]. split; [done|]. split; [lia|]. intros Hb l Hl. rewrite Hl in U1, O2. simpl in U1, O2.
    rewrite Hb in U1. destruct O2 as [[_ Hal] _].
    apply power2_divide; [by apply power2_effective|done|]. rewrite F1. simpl. lia.
Qed.

(** ** Examples *)
Definition example_member (name : option positive) (t : CType) (bits : option Z) : Member :=
  {| m_name := name; m_type := Some t; m_is_bitfield := match bits with Some _ => true | None => false end;
     m_offset := 0; m_bit_shift := 0; m_bit_width := default 0 bits; m_container_size := 0;
     m_align_override := 0; m_packed := false; m_pack_align := 0; m_laid_out := false |}.

Definition example_tag (k : TypeKind) (ms : list Member) : TagDecl :=
  {| tag_kind := k; tag_complete := true; tag_members := ms; tag_nmembers := Z.of_nat (length ms);
     tag_enum_underlying := None; tag_align_override := 0; tag_laid_out := false;
     tag_laid_out_for := CGF_TARGET_X86_64_LINUX_GNU; tag_size := 0; tag_align := 0; tag_natural_align := 0 |}.

Definition record_type (k : TypeKind) (id : TagId) : CType :=
  let t := type_basic k in
  {| ty_kind := k; ty_quals := 0; ty_integer_precision := 0; ty_integer_is_signed := false;
     ty_may_alias := false; ty_transparent_union_identity := None; ty_scalar_storage_order := 0;
     ty_scalar_storage_order_identity := None; ty_align_override := 0; ty_align_is_exact := false;
     ty_base := None; ty_has_size := false; ty_size := 0; ty_is_vla := false; ty_size_expr := None;
     ty_params := []; ty_variadic := false; ty_has_proto := false; ty_old_style_definition := false;
     ty_kr_definition := false; ty_old_style_params := []; ty_tag := Some id; ty_enum_repr := None |}.

(** [struct S { char a : 7; int b : 25; union { char c; long l; } u; char e; }]. *)
Definition example_store : Tags :=
  <[1%positive := example_tag TY_STRUCT
      [example_member (Some 1%positive) (type_basic TY_CHAR) (Some 7);
       example_member (Some 2%positive) (type_basic TY_INT) (Some 25);
       example_member (Some 3%positive) (record_type TY_UNION 2) None;
       example_member (Some 4%positive) (type_basic TY_CHAR) None]]>
  (<[2%positive := example_tag TY_UNION
      [example_member (Some 5%positive) (type_basic TY_CHAR) None;
       example_member (Some 6%positive) (type_basic TY_LONG) None]]> ∅).

Lemma example_lookup id td : example_store !! id = Some td ->
  (id = 1%positive /\ td = example_tag TY_STRUCT
      [example_member (Some 1%positive) (type_basic TY_CHAR) (Some 7);
       example_member (Some 2%positive) (type_basic TY_INT) (Some 25);
       example_member (Some 3%positive) (record_type TY_UNION 2) None;
       example_member (Some 4%positive) (type_basic TY_CHAR) None]) \/
  (id = 2%positive /\ td = example_tag TY_UNION
      [example_member (Some 5%positive) (type_basic TY_CHAR) None;
       example_member (Some 6%positive) (type_basic TY_LONG) None]).
Proof.
  unfold example_store. intros [[<- <-]|[_ H]]%lookup_insert_Some; [by left|].
  apply lookup_insert_Some in H as [[<- <-]|[_ H]]; [by right|]. by rewrite lookup_empty in H.
Qed.

Lemma example_sane : sane example_store.
Proof.
  assert (Hok : forall n t b, ok_node t -> ty_kind t <> TY_ARRAY -> (b <> None -> type_is_integer t = true) ->
            (forall w, b = Some w -> 0 <= w < 2 ^ 31) ->
            ok_attributes (example_member n t b) /\
            forall u, m_type (example_member n t b) = Some u ->
              ok_type u /\ (m_is_bitfield (example_member n t b) = true -> type_is_integer u = true)).
  { intros n t b Hn K Hi Hw. split.
    - split; [by left|]. split; [by left|]. split; [simpl; lia|]. destruct b as [w|]; [|done]. intros _. by apply Hw.
    - simpl. intros u [= <-]. split; [|destruct b; [intros _; by apply Hi|done]].
      destruct t. simpl in K. split; [done|]. simpl. by destruct ty_kind. }
  assert (Hn : forall k, k <> TY_VECTOR -> ok_node (type_basic k)) by (intros k Hk; split_and!; [by left|done|done]).
  split; [|split].
  - exists (fun id => if decide (id = 1%positive) then 1%nat else 0%nat). intros id td m t j Hid Hm Ht Hj.
    destruct (example_lookup id td Hid) as [[-> ->]|[-> ->]]; simpl in Hm;
      repeat (apply elem_of_cons in Hm as [->|Hm]; [injection Ht as <-; simpl in Hj; try discriminate Hj|]);
      try (by apply not_elem_of_nil in Hm).
    injection Hj as <-. split; [|simpl; lia]. unfold example_store. rewrite lookup_insert_ne by done.
    rewrite lookup_insert_eq. by eexists.
  - intros id td Hid. destruct (example_lookup id td Hid) as [[-> ->]|[-> ->]]; (split; [by left|split; [done|]]);
      intros m Hm; simpl in Hm;
      repeat (apply elem_of_cons in Hm as [->|Hm]; [apply Hok; try done; try (by apply Hn); try (by intros w [= <-])|]);
      try (by apply not_elem_of_nil in Hm).
  - intros id td Hid Hl. by destruct (example_lookup id td Hid) as [[-> ->]|[-> ->]].
Qed.

(** gcc's layout of the example: [b] shares the first word with [a]. *)
Example example_layout :
  option_map (fun r => map (fun m => (m_offset m, m_bit_shift m)) (tag_members r) ++ [(tag_size r, tag_align r)])
    (match layout_record_of CGF_TARGET_X86_64_LINUX_GNU (record_type TY_STRUCT 1) example_store with
     | Some (_, st) => st !! 1%positive | None => None end)
  = Some [(0, 0); (0, 7); (8, 0); (16, 0); (24, 8)].
Proof. vm_compute. reflexivity. Qed.

Lemma layout_of_witness : exists l st',
  layout_of CGF_TARGET_ARM64_MACOS (record_type TY_STRUCT 1) example_store = Some (l, st') /\
    0 <= tl_size l <= UINT64_MAX /\ power2 (tl_align l) /\
    sane st' /\ inputs st' = inputs example_store /\
    forall st2, sane st2 -> inputs st2 = inputs example_store ->
    exists st2', layout_of CGF_TARGET_ARM64_MACOS (record_type TY_STRUCT 1) st2 = Some (l, st2').
Proof.
  apply (layout_of_correct CGF_TARGET_ARM64_MACOS example_store (record_type TY_STRUCT 1));
    [apply example_sane|]. split; [split_and!; [by left|done|done]|done].
Defined.

Lemma layout_struct_exact_witness : exists st' td' ts,
  layout_record_of CGF_TARGET_X86_64_LINUX_GNU (record_type TY_STRUCT 1) example_store = Some (tt, st') /\
  sane st' /\ inputs st' = inputs example_store /\
  st' !! 1%positive = Some td' /\ described CGF_TARGET_X86_64_LINUX_GNU st' td' ts /\
  tag_align td' = Z.max (align_of CGF_TARGET_X86_64_LINUX_GNU 1 ts) (tag_align_override td') /\
  tag_size td' = Z.min UINT64_MAX (exact_size (end_of 0 ts) (tag_align td') (any_zero_sized ts)) /\
  (tag_size td' < UINT64_MAX -> laid_from 0 ts (end_of 0 ts)).
Proof. eapply layout_struct_exact; [apply example_sane|reflexivity..]. Defined.

Lemma layout_struct_geometry_witness : exists st' td' ts,
  layout_record_of CGF_TARGET_ARM64_LINUX (record_type TY_STRUCT 1) example_store = Some (tt, st') /\
  st' !! 1%positive = Some td' /\
  described CGF_TARGET_ARM64_LINUX st' td' ts /\ power2 (tag_align td') /\
  (tag_size td' < UINT64_MAX ->
   (tag_align td' | tag_size td') /\ Forall (sits_in td') ts /\ StronglySorted before ts).
Proof. eapply layout_struct_geometry; [apply example_sane|reflexivity..]. Defined.

Lemma layout_union_witness : exists st' td' ts,
  layout_record_of CGF_TARGET_X86_64_LINUX_GNU (record_type TY_UNION 2) example_store = Some (tt, st') /\
  sane st' /\ inputs st' = inputs example_store /\
  st' !! 2%positive = Some td' /\ described CGF_TARGET_X86_64_LINUX_GNU st' td' ts /\
  tag_align td' = Z.max (align_of_union CGF_TARGET_X86_64_LINUX_GNU 1 ts) (tag_align_override td') /\
  (tag_size td' = let size := size_of_union 0 ts in
     if (size =? 0) && negb (any_zero_sized ts) then tag_align td'
     else Z.min UINT64_MAX (roundup size (tag_align td'))) /\
  Forall (fun t => m_offset t.2 = 0 /\ m_bit_shift t.2 = 0 /\ bytes_of t.1.1 t.1.2 <= tag_size td' /\
                   (m_is_bitfield t.1.1 = false -> forall l, t.1.2 = Sized l ->
                    (member_effective_align t.1.1 (tl_align l) | tag_align td'))) ts.
Proof. eapply layout_union_correct; [apply example_sane|reflexivity..]. Defined.
