(* ===== verification/Compat.v ===== *)
(** Compatible and composite types, [sema/types.c].

    Types are compared structurally, through tags for enumerations and through
    the first member of a GNU transparent union. The recursion is on fuel,
    because the comparison can follow a tag back to the type it started from. *)
From stdpp Require Import base gmap list.
From S2P Require Import Prelude Pptok Ctype.

(** A copy of the node with other qualifiers ([ua = *pa; ua.quals = 0]). *)
Definition with_quals (t : CType) (q : Z) : CType :=
  {| ty_kind := ty_kind t; ty_quals := q; ty_integer_precision := ty_integer_precision t;
     ty_integer_is_signed := ty_integer_is_signed t; ty_may_alias := ty_may_alias t;
     ty_transparent_union_identity := ty_transparent_union_identity t;
     ty_scalar_storage_order := ty_scalar_storage_order t;
     ty_scalar_storage_order_identity := ty_scalar_storage_order_identity t;
     ty_align_override := ty_align_override t; ty_align_is_exact := ty_align_is_exact t;
     ty_base := ty_base t; ty_has_size := ty_has_size t; ty_size := ty_size t; ty_is_vla := ty_is_vla t;
     ty_size_expr := ty_size_expr t; ty_params := ty_params t; ty_variadic := ty_variadic t;
     ty_has_proto := ty_has_proto t; ty_old_style_definition := ty_old_style_definition t;
     ty_kr_definition := ty_kr_definition t; ty_old_style_params := ty_old_style_params t;
     ty_tag := ty_tag t; ty_enum_repr := ty_enum_repr t |}.

Definition unqual (t : option CType) : option CType := option_map (fun t => with_quals t 0) t.

Definition present {A} (o : option A) : bool := match o with Some _ => true | None => false end.

Definition survives_default_arg_promotions (t : option CType) : bool :=
  match t with
  | None => true
  | Some t =>
    if kind_is t TY_ERROR then true
    else if negb (ty_integer_precision t =? 0) then 32 <? ty_integer_precision t
    else match ty_kind t with
         | TY_BOOL | TY_CHAR | TY_SCHAR | TY_UCHAR | TY_SHORT | TY_USHORT | TY_FLOAT => false
         | _ => true
         end
  end.

Definition type_transparent_union_first_member (st : Tags) (t : option CType) : option Member :=
  match t with
  | None => None
  | Some t =>
    if negb (kind_is t TY_UNION) || negb (present (ty_transparent_union_identity t)) then None
    else match tag_of st t with Some td => head (tag_members td) | None => None end
  end.

Definition default_promoted_param (st : Tags) (t : option CType) : option CType :=
  let t := match type_transparent_union_first_member st t with Some m => m_type m | None => t end in
  match t with
  | None => None
  | Some t =>
    if negb (ty_integer_precision t =? 0) then
      if ty_integer_precision t <? 32 then Some (type_basic TY_INT)
      else if ty_integer_precision t =? 32 then Some (type_basic (if ty_integer_is_signed t then TY_INT else TY_UINT))
      else Some t
    else match ty_kind t with
         | TY_BOOL | TY_CHAR | TY_SCHAR | TY_UCHAR | TY_SHORT | TY_USHORT => Some (type_basic TY_INT)
         | TY_FLOAT => Some (type_basic TY_DOUBLE)
         | TY_ENUM => let u := type_enum_underlying st t in
                      if survives_default_arg_promotions u then u else Some (type_basic TY_INT)
         | _ => Some t
         end
  end.

(** [a && b] and [a || b] where the operands may not return. *)
Definition and_then (a b : option bool) : option bool :=
  match a with Some true => b | _ => a end.
Definition or_else (a b : option bool) : option bool :=
  match a with Some false => b | _ => a end.

Section compat.
  Context (st : Tags).
  (** [a == b] on pointers: an oracle, which only identifies equal types. *)
  Context (same : CType -> CType -> bool).
  Context (compatible : option CType -> option CType -> option bool).

Definition param_compatible_via_union (a b : option CType) : option bool :=
  let go (m : Member) (other : option CType) :=
    match m_type m, other with
    | Some _, Some _ => compatible (unqual (m_type m)) (unqual other)
    | _, _ => Some false
    end in
  match type_transparent_union_first_member st a, type_transparent_union_first_member st b with
  | Some _, Some _ => Some false
  | Some m, None => go m b
  | None, Some m => go m a
  | None, None => Some false
  end.

(** One parameter against one parameter: qualifiers on top do not count. *)
Definition param_compatible (a b : option CType) : option bool :=
  or_else (compatible (unqual a) (unqual b)) (param_compatible_via_union (unqual a) (unqual b)).

Fixpoint all_compatible (f : option CType -> option CType) (ps qs : list (option CType)) : option bool :=
  match ps, qs with
  | p :: ps, q :: qs => and_then (param_compatible (f p) q) (all_compatible f ps qs)
  | _, _ => Some true
  end.

Definition old_style_definition_matches (old_style proto : CType) : option bool :=
  if ty_variadic proto then Some false
  else if negb (ty_kr_definition old_style) then Some (bool_decide (length (ty_params proto) = 0%nat))
  else if negb (bool_decide (length (ty_old_style_params old_style) = length (ty_params proto))) then Some false
  else all_compatible (default_promoted_param st) (ty_old_style_params old_style) (ty_params proto).

Definition unprototyped_compatible (old_style proto : CType) : option bool :=
  if ty_old_style_definition old_style then old_style_definition_matches old_style proto
  else if ty_variadic proto then Some false
  else Some (forallb survives_default_arg_promotions (ty_params proto)).

Definition params_compatible (a b : CType) : option bool :=
  match ty_has_proto a, ty_has_proto b with
  | false, false => Some true
  | true, false => unprototyped_compatible b a
  | false, true => unprototyped_compatible a b
  | true, true =>
    if negb (bool_decide (length (ty_params a) = length (ty_params b))) || negb (Bool.eqb (ty_variadic a) (ty_variadic b))
    then Some false else all_compatible id (ty_params a) (ty_params b)
  end.

Definition same_view (a b : option positive) : bool := bool_decide (a = b).

(** The comparison below equal kinds. *)
Definition kind_compatible (a b : CType) : option bool :=
  match ty_kind a with
  | TY_PTR => compatible (ty_base a) (ty_base b)
  | TY_ARRAY =>
    and_then (compatible (ty_base a) (ty_base b))
      (Some (if ty_has_size a && ty_has_size b then ty_size a =? ty_size b else true))
  | TY_VECTOR => and_then (Some (ty_size a =? ty_size b)) (compatible (ty_base a) (ty_base b))
  | TY_FUNC => and_then (compatible (ty_base a) (ty_base b)) (params_compatible a b)
  | TY_STRUCT | TY_UNION =>
    if negb (bool_decide (ty_tag a = ty_tag b)) ||
       negb (Bool.eqb (present (ty_scalar_storage_order_identity a)) (present (ty_scalar_storage_order_identity b))) ||
       negb (Bool.eqb (present (ty_transparent_union_identity a)) (present (ty_transparent_union_identity b)))
    then Some false
    else if present (ty_scalar_storage_order_identity a) &&
            negb (same_view (ty_scalar_storage_order_identity a) (ty_scalar_storage_order_identity b))
    then Some false
    else Some (negb (present (ty_transparent_union_identity a)) ||
               same_view (ty_transparent_union_identity a) (ty_transparent_union_identity b))
  | TY_ENUM =>
    if negb (bool_decide (ty_tag a = ty_tag b)) || negb (Bool.eqb (present (ty_enum_repr a)) (present (ty_enum_repr b)))
    then Some false
    else or_else (Some (negb (present (ty_enum_repr a)))) (compatible (ty_enum_repr a) (ty_enum_repr b))
  | _ => Some true
  end.

Definition node_compatible (a b : CType) : option bool :=
  if same a b then Some true
  else if kind_is a TY_ERROR || kind_is b TY_ERROR then Some true
  else if negb (ty_quals a =? ty_quals b) then Some false
  else if negb (ty_integer_precision a =? 0) || negb (ty_integer_precision b =? 0) then
    Some (negb (ty_integer_precision a =? 0) && negb (ty_integer_precision b =? 0) &&
          (ty_integer_precision a =? ty_integer_precision b) &&
          Bool.eqb (ty_integer_is_signed a) (ty_integer_is_signed b))
  else if kind_is a TY_ENUM && negb (kind_is b TY_ENUM) && type_is_integer b then
    compatible (type_enum_underlying st a) (unqual (Some b))
  else if kind_is b TY_ENUM && negb (kind_is a TY_ENUM) && type_is_integer a then
    compatible (unqual (Some a)) (type_enum_underlying st b)
  else if negb (bool_decide (ty_kind a = ty_kind b)) then Some false
  else kind_compatible a b.
End compat.

Fixpoint type_compatible (fuel : nat) (st : Tags) (same : CType -> CType -> bool) (a b : option CType) : option bool :=
  match fuel with
  | O => None
  | S fuel =>
    match a, b with
    | None, None => Some true
    | Some a, Some b => node_compatible st same (type_compatible fuel st same) a b
    | _, _ => Some false
    end
  end.

Definition type_transparent_union_param_compatible (fuel : nat) (st : Tags) (same : CType -> CType -> bool)
    (a b : option CType) : option bool :=
  param_compatible_via_union st (type_compatible fuel st same) a b.

(** ** Composite types *)
Definition type_may_alias (t : CType) : CType :=
  if ty_may_alias t then t else
  {| ty_kind := ty_kind t; ty_quals := ty_quals t; ty_integer_precision := ty_integer_precision t;
     ty_integer_is_signed := ty_integer_is_signed t; ty_may_alias := true;
     ty_transparent_union_identity := ty_transparent_union_identity t;
     ty_scalar_storage_order := ty_scalar_storage_order t;
     ty_scalar_storage_order_identity := ty_scalar_storage_order_identity t;
     ty_align_override := ty_align_override t; ty_align_is_exact := ty_align_is_exact t;
     ty_base := ty_base t; ty_has_size := ty_has_size t; ty_size := ty_size t; ty_is_vla := ty_is_vla t;
     ty_size_expr := ty_size_expr t; ty_params := ty_params t; ty_variadic := ty_variadic t;
     ty_has_proto := ty_has_proto t; ty_old_style_definition := ty_old_style_definition t;
     ty_kr_definition := ty_kr_definition t; ty_old_style_params := ty_old_style_params t;
     ty_tag := ty_tag t; ty_enum_repr := ty_enum_repr t |}.

Definition with_align (t : CType) (align : Z) (exact : bool) : CType :=
  {| ty_kind := ty_kind t; ty_quals := ty_quals t; ty_integer_precision := ty_integer_precision t;
     ty_integer_is_signed := ty_integer_is_signed t; ty_may_alias := ty_may_alias t;
     ty_transparent_union_identity := ty_transparent_union_identity t;
     ty_scalar_storage_order := ty_scalar_storage_order t;
     ty_scalar_storage_order_identity := ty_scalar_storage_order_identity t;
     ty_align_override := align; ty_align_is_exact := exact;
     ty_base := ty_base t; ty_has_size := ty_has_size t; ty_size := ty_size t; ty_is_vla := ty_is_vla t;
     ty_size_expr := ty_size_expr t; ty_params := ty_params t; ty_variadic := ty_variadic t;
     ty_has_proto := ty_has_proto t; ty_old_style_definition := ty_old_style_definition t;
     ty_kr_definition := ty_kr_definition t; ty_old_style_params := ty_old_style_params t;
     ty_tag := ty_tag t; ty_enum_repr := ty_enum_repr t |}.

Definition type_with_alignment (t : CType) (align : Z) : CType :=
  if align =? 0 then t else with_align t align true.

Definition larger_align (a b : CType) : Z :=
  if ty_align_override b <? ty_align_override a then ty_align_override a else ty_align_override b.

(** A new derived node: [type_ptr], [type_array], [type_vector] or [type_func]
    with the fields every composite copies, and [composite_alignment]. *)
Definition composite_node (k : TypeKind) (elem : option CType) (a b : CType) : CType :=
  {| ty_kind := k; ty_quals := ty_quals a; ty_integer_precision := 0; ty_integer_is_signed := false;
     ty_may_alias := ty_may_alias a || ty_may_alias b; ty_transparent_union_identity := None;
     ty_scalar_storage_order := 0; ty_scalar_storage_order_identity := None;
     ty_align_override := larger_align a b;
     ty_align_is_exact := negb (larger_align a b =? 0) && ty_align_is_exact a && ty_align_is_exact b;
     ty_base := elem; ty_has_size := false; ty_size := 0; ty_is_vla := false; ty_size_expr := None;
     ty_params := []; ty_variadic := false; ty_has_proto := false; ty_old_style_definition := false;
     ty_kr_definition := false; ty_old_style_params := []; ty_tag := None; ty_enum_repr := None |}.

Definition with_bound (t : CType) (has : bool) (size : Z) (vla : bool) (e : option positive) : CType :=
  {| ty_kind := ty_kind t; ty_quals := ty_quals t; ty_integer_precision := ty_integer_precision t;
     ty_integer_is_signed := ty_integer_is_signed t; ty_may_alias := ty_may_alias t;
     ty_transparent_union_identity := ty_transparent_union_identity t;
     ty_scalar_storage_order := ty_scalar_storage_order t;
     ty_scalar_storage_order_identity := ty_scalar_storage_order_identity t;
     ty_align_override := ty_align_override t; ty_align_is_exact := ty_align_is_exact t;
     ty_base := ty_base t; ty_has_size := has; ty_size := size; ty_is_vla := vla;
     ty_size_expr := e; ty_params := ty_params t; ty_variadic := ty_variadic t;
     ty_has_proto := ty_has_proto t; ty_old_style_definition := ty_old_style_definition t;
     ty_kr_definition := ty_kr_definition t; ty_old_style_params := ty_old_style_params t;
     ty_tag := ty_tag t; ty_enum_repr := ty_enum_repr t |}.

(** The signature of a function node. *)
Definition with_signature (t : CType) (proto : bool) (params : list (option CType)) (variadic : bool)
    (old kr : bool) (old_params : list (option CType)) : CType :=
  {| ty_kind := ty_kind t; ty_quals := ty_quals t; ty_integer_precision := ty_integer_precision t;
     ty_integer_is_signed := ty_integer_is_signed t; ty_may_alias := ty_may_alias t;
     ty_transparent_union_identity := ty_transparent_union_identity t;
     ty_scalar_storage_order := ty_scalar_storage_order t;
     ty_scalar_storage_order_identity := ty_scalar_storage_order_identity t;
     ty_align_override := ty_align_override t; ty_align_is_exact := ty_align_is_exact t;
     ty_base := ty_base t; ty_has_size := ty_has_size t; ty_size := ty_size t; ty_is_vla := ty_is_vla t;
     ty_size_expr := ty_size_expr t; ty_params := params; ty_variadic := variadic;
     ty_has_proto := proto; ty_old_style_definition := old; ty_kr_definition := kr;
     ty_old_style_params := old_params; ty_tag := ty_tag t; ty_enum_repr := ty_enum_repr t |}.

Section composite.
  Context (st : Tags) (same : CType -> CType -> bool) (fuel : nat).
  Context (composite : option CType -> option CType -> option (option CType)).

Definition composite_array (a b : CType) : option (option CType) :=
  match composite (ty_base a) (ty_base b) with
  | None => None
  | Some e =>
    let c := composite_node TY_ARRAY e a b in
    let vla := ty_is_vla a || ty_is_vla b in
    Some (Some (if ty_has_size a then with_bound c true (ty_size a) vla (ty_size_expr a)
                else if ty_has_size b then with_bound c true (ty_size b) vla (ty_size_expr b)
                else with_bound c false 0 vla None))
  end.

Fixpoint composite_params (ps qs : list (option CType)) : option (list (option CType)) :=
  match ps, qs with
  | p :: ps, q :: qs => match composite p q, composite_params ps qs with
                        | Some c, Some cs => Some (c :: cs)
                        | _, _ => None
                        end
  | [], _ => Some []
  | _, [] => None
  end.

Definition composite_func (a b : CType) : option (option CType) :=
  match composite (ty_base a) (ty_base b) with
  | None => None
  | Some ret =>
    let c := composite_node TY_FUNC ret a b in
    match ty_has_proto a, ty_has_proto b with
    | false, false =>
      let definition := if ty_old_style_definition a then Some a
                        else if ty_old_style_definition b then Some b else None in
      Some (Some match definition with
                 | Some d => with_signature c false [] false true (ty_kr_definition d) (ty_old_style_params d)
                 | None => c
                 end)
    | true, true =>
      match composite_params (ty_params a) (ty_params b) with
      | Some cs => Some (Some (with_signature c true cs (ty_variadic a) false false []))
      | None => None
      end
    | pa, _ => let proto := if pa then a else b in
               Some (Some (with_signature c true (ty_params proto) (ty_variadic proto) false false []))
    end
  end.

Definition composite_default (a b : CType) : CType :=
  let out := if ty_may_alias a || ty_may_alias b then type_may_alias a else a in
  let align := larger_align a b in
  if negb (align =? 0) then
    with_align (type_with_alignment out align) align (ty_align_is_exact a && ty_align_is_exact b)
  else out.

Definition node_composite (a b : CType) : option (option CType) :=
  if kind_is a TY_ERROR || kind_is b TY_ERROR then Some (Some (type_basic TY_ERROR))
  else match type_transparent_union_param_compatible fuel st same (Some a) (Some b) with
  | None => None
  | Some true => Some (Some (if present (type_transparent_union_first_member st (Some a)) then a else b))
  | Some false =>
    if negb (bool_decide (ty_kind a = ty_kind b)) then Some (Some a)
    else match ty_kind a with
    | TY_PTR => match composite (ty_base a) (ty_base b) with
                | Some e => Some (Some (composite_node TY_PTR e a b))
                | None => None
                end
    | TY_ARRAY => composite_array a b
    | TY_VECTOR => match composite (ty_base a) (ty_base b) with
                   | Some e => Some (Some (with_bound (composite_node TY_VECTOR e a b) true (ty_size a) false None))
                   | None => None
                   end
    | TY_FUNC => composite_func a b
    | _ => Some (Some (composite_default a b))
    end
  end.
End composite.

Fixpoint type_composite (fuel : nat) (st : Tags) (same : CType -> CType -> bool) (a b : option CType) :
    option (option CType) :=
  match fuel with
  | O => None
  | S fuel =>
    match a, b with
    | None, b => Some b
    | a, None => Some a
    | Some a, Some b => node_composite st same fuel (type_composite fuel st same) a b
    end
  end.
