(* ===== verification/CompatFacts.v ===== *)
(** Compatibility of types is symmetric and reflexive and decided with finite
    fuel on graded types; the composite of two compatible types is compatible
    with both. Types that lead back to themselves through transparent unions make
    the comparison diverge. *)
From stdpp Require Import base gmap list.
From S2P Require Import Prelude Pptok Ctype Compat.

(** An oracle for pointer equality: it identifies only equal types. *)
Record pointer_equality (same : CType -> CType -> bool) : Prop := {
  same_sym a b : same a b = same b a;
  same_eq a b : same a b = true -> a = b
}.

Lemma same_distinct same a b : pointer_equality same -> a <> b -> same a b = false.
Proof. intros P Hab. destruct (same a b) eqn:E; [|done]. by apply (same_eq _ P) in E. Qed.

(** ** Symmetry *)
Lemma bool_decide_sym {A} `{EqDecision A} (x y : A) : bool_decide (x = y) = bool_decide (y = x).
Proof. apply bool_decide_ext. split; congruence. Qed.

Section symmetry.
  Context (st : Tags) (same : CType -> CType -> bool) (P : pointer_equality same).
  Context (c : option CType -> option CType -> option bool) (Hc : forall a b, c a b = c b a).

Lemma via_union_sym a b : param_compatible_via_union st c a b = param_compatible_via_union st c b a.
Proof.
  unfold param_compatible_via_union.
  by destruct (type_transparent_union_first_member st a), (type_transparent_union_first_member st b).
Qed.

Lemma param_compatible_sym a b : param_compatible st c a b = param_compatible st c b a.
Proof. unfold param_compatible. by rewrite (Hc (unqual a)), via_union_sym. Qed.

Lemma all_compatible_sym ps qs : all_compatible st c id ps qs = all_compatible st c id qs ps.
Proof.
  revert qs. induction ps as [|p ps IH]; intros [|q qs]; try done. simpl.
  by rewrite (param_compatible_sym p), IH.
Qed.

Lemma params_compatible_sym a b : params_compatible st c a b = params_compatible st c b a.
Proof.
  unfold params_compatible. destruct (ty_has_proto a), (ty_has_proto b); try done.
  rewrite all_compatible_sym, (bool_decide_sym (length (ty_params a))).
  by destruct (ty_variadic a), (ty_variadic b).
Qed.

Lemma kind_compatible_sym a b : ty_kind a = ty_kind b -> kind_compatible st c a b = kind_compatible st c b a.
Proof.
  intros E. unfold kind_compatible. rewrite <- E, (Hc (ty_base a)), (bool_decide_sym (ty_tag a)).
  rewrite (Z.eqb_sym (ty_size a) (ty_size b)), params_compatible_sym, (Hc (ty_enum_repr a)).
  unfold same_view. rewrite (bool_decide_sym (ty_transparent_union_identity a)).
  rewrite (bool_decide_sym (ty_scalar_storage_order_identity a)).
  destruct (ty_kind a); try done; [by rewrite (andb_comm (ty_has_size a))|..].
  1,2: destruct (bool_decide (ty_tag b = ty_tag a)), (ty_scalar_storage_order_identity a),
      (ty_scalar_storage_order_identity b), (ty_transparent_union_identity a), (ty_transparent_union_identity b); done.
  destruct (bool_decide (ty_tag b = ty_tag a)); [|done]. by destruct (ty_enum_repr a), (ty_enum_repr b).
Qed.

Lemma node_compatible_sym a b : node_compatible st same c a b = node_compatible st same c b a.
Proof.
  unfold node_compatible. rewrite (same_sym _ P a b). destruct (same b a); [done|].
  rewrite (orb_comm (kind_is a TY_ERROR)). destruct (_ || _); [done|].
  rewrite (Z.eqb_sym (ty_quals a) (ty_quals b)). destruct (negb (ty_quals b =? ty_quals a)); [done|].
  rewrite (orb_comm (negb (ty_integer_precision a =? 0))). destruct (negb _ || negb _).
  { rewrite (andb_comm (negb (ty_integer_precision a =? 0))), (Z.eqb_sym (ty_integer_precision a) (ty_integer_precision b)).
    by destruct (ty_integer_is_signed a), (ty_integer_is_signed b). }
  rewrite (Hc (unqual (Some a))), (Hc (type_enum_underlying st a)).
  destruct (kind_is a TY_ENUM) eqn:Ka, (kind_is b TY_ENUM) eqn:Kb; simpl.
  - apply bool_decide_eq_true in Ka, Kb. rewrite Ka, Kb. simpl. apply kind_compatible_sym. congruence.
  - destruct (type_is_integer b); [done|]. rewrite (bool_decide_sym (ty_kind a)).
    destruct (bool_decide _) eqn:K; [|done]. apply bool_decide_eq_true in K. by apply kind_compatible_sym.
  - destruct (type_is_integer a); [done|]. rewrite (bool_decide_sym (ty_kind a)).
    destruct (bool_decide _) eqn:K; [|done]. apply bool_decide_eq_true in K. by apply kind_compatible_sym.
  - rewrite (bool_decide_sym (ty_kind a)).
    destruct (bool_decide _) eqn:K; [|done]. apply bool_decide_eq_true in K. by apply kind_compatible_sym.
Qed.
End symmetry.

Lemma type_compatible_sym st same n a b : pointer_equality same ->
  type_compatible n st same a b = type_compatible n st same b a.
Proof.
  intros P. revert a b. induction n as [|n IH]; intros a b; [done|]. simpl.
  destruct a, b; try done. by apply node_compatible_sym.
Qed.

(** ** Graded types *)

(** What a comparison of [t] may go on to compare. *)
Inductive part (st : Tags) : CType -> CType -> Prop :=
| part_base t b : ty_base t = Some b -> part st t b
| part_param t p : Some p ∈ ty_params t -> part st t p
| part_old t p : Some p ∈ ty_old_style_params t -> part st t p
| part_enum t u : type_enum_underlying st t = Some u -> part st t u
| part_view t m u : type_transparent_union_first_member st (Some t) = Some m -> m_type m = Some u -> part st t u.

(** An exact precision belongs to an integer type. *)
Definition well_kinded (t : CType) : Prop :=
  ty_integer_precision t = 0 \/ kind_in t TY_BOOL TY_UINT128 = true.

Inductive grade (st : Tags) : nat -> CType -> Prop :=
| grade_intro n t : well_kinded t -> (forall u, part st t u -> grade st n u) -> grade st (S n) t.

Definition graded (st : Tags) (n : nat) (t : option CType) : Prop :=
  match t with Some t => grade st n t | None => True end.

Lemma part_quals st t q u : part st (with_quals t q) u -> part st t u.
Proof.
  intros Hp. remember (with_quals t q) as t' eqn:E. revert E.
  destruct Hp as [x b H|x p H|x p H|x v H|x m v H Hm]; intros ->;
    [by eapply part_base|by eapply part_param|by eapply part_old|by eapply part_enum|by eapply part_view].
Qed.

Lemma grade_quals st n t q : grade st n t -> grade st n (with_quals t q).
Proof. intros [k x Hw H]. constructor; [done|]. intros u Hu. apply H. by eapply part_quals. Qed.

Lemma grade_le st n m t : grade st n t -> (n <= m)%nat -> grade st m t.
Proof.
  revert m t. induction n as [|n IH]; intros m t H Hle; inversion H; subst.
  destruct m as [|m]; [lia|]. constructor; [done|]. intros u Hu. apply (IH m); [auto|lia].
Qed.

Lemma graded_unqual st n t : graded st n t -> graded st n (unqual t).
Proof. destruct t; simpl; [apply grade_quals|done]. Qed.

Lemma grade_basic st k : k <> TY_ENUM -> k <> TY_UNION -> grade st 1 (type_basic k).
Proof.
  intros K1 K2. constructor; [by left|]. intros u Hu. exfalso. inversion Hu as [? ? E|? ? E|? ? E|? ? E|? ? ? E]; subst.
  - done.
  - by apply not_elem_of_nil in E.
  - by apply not_elem_of_nil in E.
  - unfold type_enum_underlying, kind_is in E. simpl in E. by rewrite bool_decide_eq_false_2 in E.
  - unfold type_transparent_union_first_member, kind_is in E. simpl in E. by rewrite bool_decide_eq_false_2 in E.
Qed.

(** ** Grades of the parts *)
Section grades.
  Context (st : Tags).

Lemma graded_le i j x : graded st i x -> (i <= j)%nat -> graded st j x.
Proof. destruct x; simpl; [apply grade_le|done]. Qed.

Lemma graded_part i t x : grade st (S i) t -> (forall u, x = Some u -> part st t u) -> graded st i x.
Proof. intros H Hx. inversion H; subst. destruct x as [u|]; [|done]. simpl. auto. Qed.

Lemma graded_base i t : grade st (S i) t -> graded st i (ty_base t).
Proof. intros H. apply (graded_part i t); [done|]. intros u. apply part_base. Qed.
Lemma graded_param i t p : grade st (S i) t -> p ∈ ty_params t -> graded st i p.
Proof. intros H Hp. apply (graded_part i t); [done|]. intros u ->. by apply part_param. Qed.
Lemma graded_old i t p : grade st (S i) t -> p ∈ ty_old_style_params t -> graded st i p.
Proof. intros H Hp. apply (graded_part i t); [done|]. intros u ->. by apply part_old. Qed.
Lemma graded_enum i t : grade st (S i) t -> graded st i (type_enum_underlying st t).
Proof. intros H. apply (graded_part i t); [done|]. intros u. apply part_enum. Qed.
Lemma graded_view i t m : grade st (S i) t -> type_transparent_union_first_member st (Some t) = Some m ->
  graded st i (m_type m).
Proof. intros H Hm. apply (graded_part i t); [done|]. intros u Hu. by eapply part_view. Qed.

Lemma graded_repr i t : grade st (S i) t -> ty_kind t = TY_ENUM -> graded st i (ty_enum_repr t).
Proof.
  intros H K. apply (graded_part i t); [done|]. intros u Hu. apply part_enum.
  unfold type_enum_underlying, kind_is. by rewrite K, Hu.
Qed.

Lemma graded_pos i x t : x = Some t -> graded st i x -> (1 <= i)%nat.
Proof. intros -> H. inversion H. lia. Qed.

Lemma graded_promoted i x : graded st i x -> graded st i (default_promoted_param st x).
Proof.
  intros H. unfold default_promoted_param.
  assert (Ht : graded st i (match type_transparent_union_first_member st x with
            | Some m => m_type m | None => x end)).
  { destruct (type_transparent_union_first_member st x) as [m|] eqn:M; [|done].
    destruct x as [t|]; [|done]. destruct i as [|i]; [inversion H|].
    apply (graded_le i); [by eapply graded_view|lia]. }
  generalize dependent (match type_transparent_union_first_member st x with Some m => m_type m | None => x end).
  intros y Hy. destruct y as [t|]; [|done]. pose proof (graded_pos i _ t eq_refl Hy) as Hi.
  assert (Hb : forall k, k <> TY_ENUM -> k <> TY_UNION -> graded st i (Some (type_basic k)))
    by (intros k ? ?; apply (grade_le st 1); [by apply grade_basic|done]).
  destruct (negb _); [destruct (_ <? _); [by apply Hb|]; destruct (_ =? _); [|done];
    destruct (ty_integer_is_signed t); by apply Hb|].
  destruct i as [|i]; [lia|].
  destruct (ty_kind t); try done; try (by apply Hb).
  destruct (survives_default_arg_promotions _); [|by apply Hb].
  apply (graded_le i); [by apply graded_enum|lia].
Qed.
End grades.

(** ** Reflexivity *)
Section reflexivity.
  Context (st : Tags) (same : CType -> CType -> bool).

Definition reflexive_below (n : nat) (c : option CType -> option CType -> option bool) : Prop :=
  forall i x, graded st i x -> (i + i < n)%nat -> c x x = Some true.

Lemma all_refl n c i ps : reflexive_below n c -> (i + i < n)%nat -> (forall p, p ∈ ps -> graded st i p) ->
  all_compatible st c id ps ps = Some true.
Proof.
  intros Hc Hn. induction ps as [|p ps IH]; intros Hp; [done|]. simpl. unfold id at 1, param_compatible.
  rewrite (Hc i) by (try apply graded_unqual; try apply Hp; (by left || lia)). simpl.
  apply IH. intros; apply Hp; by right.
Qed.

Lemma kind_refl n c i a : reflexive_below n c -> grade st i a -> (i + i < S n)%nat ->
  kind_compatible st c a a = Some true.
Proof.
  intros Hc Ha Hn. destruct i as [|i]; [inversion Ha|]. unfold kind_compatible.
  assert (Hbase : c (ty_base a) (ty_base a) = Some true) by (apply (Hc i); [by apply graded_base|lia]).
  unfold same_view. rewrite Hbase, !eqb_reflx, !bool_decide_eq_true_2 by done.
  destruct (ty_kind a) eqn:K; try done; simpl.
  - by destruct (ty_has_size a); simpl; rewrite ?Z.eqb_refl.
  - unfold params_compatible. destruct (ty_has_proto a); [|done].
    rewrite bool_decide_eq_true_2, eqb_reflx by done. simpl.
    apply (all_refl n c i); [done|lia|]. intros p. by apply graded_param.
  - by rewrite andb_false_r, orb_true_r.
  - by rewrite andb_false_r, orb_true_r.
  - destruct (negb (present _)); [done|]. apply (Hc i); [by apply graded_repr|lia].
  - by rewrite Z.eqb_refl.
Qed.

Lemma node_refl n c i a : reflexive_below n c -> grade st i a -> (i + i < S n)%nat ->
  node_compatible st same c a a = Some true.
Proof.
  intros Hc Ha Hn. unfold node_compatible. destruct (same a a); [done|].
  rewrite orb_diag. destruct (kind_is a TY_ERROR); [done|].
  rewrite Z.eqb_refl, orb_diag, Z.eqb_refl, andb_diag, eqb_reflx. cbn [negb].
  destruct (negb (ty_integer_precision a =? 0)); [done|].
  rewrite andb_negb_r. cbn [andb]. rewrite bool_decide_eq_true_2 by done. cbn [negb].
  by apply (kind_refl n c i).
Qed.
End reflexivity.

Lemma type_compatible_refl st same n : reflexive_below st n (type_compatible n st same).
Proof.
  induction n as [|n IH]; intros i x Hx Hn; [lia|]. simpl.
  destruct x as [a|]; [|done]. by apply (node_refl st same n _ i).
Qed.

(** ** The comparison of graded types returns *)

(** Two computations return the same answer. *)
Definition both (a b : option bool) : Prop := exists r, a = Some r /\ b = Some r.

Lemma both_same r : both (Some r) (Some r).
Proof. by exists r. Qed.
Lemma and_then_both a b a' b' : both a a' -> both b b' -> both (and_then a b) (and_then a' b').
Proof. intros (r & -> & ->) H. destruct r; [done|apply both_same]. Qed.
Lemma or_else_both a b a' b' : both a a' -> both b b' -> both (or_else a b) (or_else a' b').
Proof. intros (r & -> & ->) H. destruct r; [apply both_same|done]. Qed.
#[local] Ltac same := first [apply both_same | done].

(** Two comparisons agree on types whose grades add up to less than [n]. The two
    may be given different pointer equalities. *)
Section total.
  Context (st : Tags).

Definition agree_below (n : nat) (c c' : option CType -> option CType -> option bool) : Prop :=
  forall i j x y, graded st i x -> graded st j y -> (i + j < n)%nat -> both (c x y) (c' x y).

Lemma via_union_total n c c' i j a b : agree_below n c c' -> graded st i a -> graded st j b -> (i + j < S n)%nat ->
  both (param_compatible_via_union st c a b) (param_compatible_via_union st c' a b).
Proof.
  intros Hc Ha Hb Hn. unfold param_compatible_via_union.
  assert (Hgo : forall i j x y m, graded st i x -> graded st j y -> (i + j < S n)%nat ->
    type_transparent_union_first_member st x = Some m ->
    both (match m_type m, y with
          | Some _, Some _ => c (unqual (m_type m)) (unqual y) | _, _ => Some false end)
         (match m_type m, y with
          | Some _, Some _ => c' (unqual (m_type m)) (unqual y) | _, _ => Some false end)).
  { clear i j a b Ha Hb Hn. intros i j x y m Hx Hy Hn Hm. destruct x as [t|]; [|done].
    destruct i as [|i]; [inversion Hx|]. pose proof (graded_view st i t m Hx Hm) as Hg.
    destruct (m_type m) as [u|]; [|same]. destruct y as [y|]; [|same].
    apply (Hc i j); [by apply graded_unqual|by apply graded_unqual|lia]. }
  destruct (type_transparent_union_first_member st a) as [m|] eqn:Ma,
           (type_transparent_union_first_member st b) as [m'|] eqn:Mb; [same| | |same].
  - by apply (Hgo i j a b m).
  - apply (Hgo j i b a m'); [done|done|lia|done].
Qed.

Lemma param_total n c c' i j a b : agree_below n c c' -> graded st i a -> graded st j b -> (i + j < n)%nat ->
  both (param_compatible st c a b) (param_compatible st c' a b).
Proof.
  intros Hc Ha Hb Hn. apply or_else_both.
  - by apply (Hc i j); try apply graded_unqual.
  - by apply (via_union_total n c c' i j); try apply graded_unqual; try lia.
Qed.

Lemma all_total n c c' i j f ps qs : agree_below n c c' -> (i + j < n)%nat ->
  (forall p, p ∈ ps -> graded st i (f p)) -> (forall q, q ∈ qs -> graded st j q) ->
  both (all_compatible st c f ps qs) (all_compatible st c' f ps qs).
Proof.
  intros Hc Hn. revert qs. induction ps as [|p ps IH]; intros [|q qs] Hp Hq; try apply both_same.
  apply and_then_both.
  - apply (param_total n c c' i j); [done|apply Hp; left|apply Hq; left|done].
  - apply IH; intros; [apply Hp|apply Hq]; by right.
Qed.

Lemma unprototyped_total n c c' i j a b : agree_below n c c' -> (i + j < n)%nat -> grade st (S i) a -> grade st (S j) b ->
  both (unprototyped_compatible st c a b) (unprototyped_compatible st c' a b).
Proof.
  intros Hc Hn Ha Hb. unfold unprototyped_compatible, old_style_definition_matches.
  destruct (ty_old_style_definition a); [|by destruct (ty_variadic b); same].
  destruct (ty_variadic b); [same|]. destruct (negb (ty_kr_definition a)); [same|].
  destruct (negb _); [same|].
  apply (all_total n c c' i j); [done|done| |]; intros p Hp; [apply graded_promoted|];
    [by eapply graded_old|by eapply graded_param].
Qed.

Lemma params_total n c c' i j a b : agree_below n c c' -> (i + j < n)%nat -> grade st (S i) a -> grade st (S j) b ->
  both (params_compatible st c a b) (params_compatible st c' a b).
Proof.
  intros Hc Hn Ha Hb. unfold params_compatible. destruct (ty_has_proto a), (ty_has_proto b).
  - destruct (_ || _); [same|].
    apply (all_total n c c' i j); [done|done| |]; intros p Hp; [by eapply (graded_param st i a)|by eapply (graded_param st j b)].
  - apply (unprototyped_total n c c' j i); [done|lia|done|done].
  - by apply (unprototyped_total n c c' i j).
  - same.
Qed.

Lemma node_total same same' n c c' i j a b : pointer_equality same -> pointer_equality same' ->
  reflexive_below st n c -> reflexive_below st n c' -> agree_below n c c' -> grade st i a -> grade st j b -> (i + j < S n)%nat ->
  both (node_compatible st same c a b) (node_compatible st same' c' a b).
Proof.
  intros P P' Rc Rc' Hc Ha Hb Hn. assert (Hrefl : a = b -> both (node_compatible st same c a b) (node_compatible st same' c' a b)).
  { intros <-. assert (Hm : grade st (min i j) a) by (by destruct (Nat.min_spec i j) as [[_ ->]|[_ ->]]).
    exists true. by split; apply (node_refl st _ n _ (min i j)); try lia. }
  destruct (same a b) eqn:Es; [by apply Hrefl, (same_eq _ P)|].
  destruct (same' a b) eqn:Es'; [by apply Hrefl, (same_eq _ P')|]. clear Hrefl.
  destruct i as [|i]; [inversion Ha|]. destruct j as [|j]; [inversion Hb|].
  unfold node_compatible, kind_compatible. rewrite Es, Es'. destruct (_ || _); [same|]. destruct (negb _); [same|].
  destruct (_ || _); [same|]. destruct (_ && _ && _).
  { apply (Hc i (S j)); [by apply graded_enum|by apply (graded_unqual st (S j) (Some b))|lia]. }
  destruct (_ && _ && _).
  { apply (Hc (S i) j); [by apply (graded_unqual st (S i) (Some a))|by apply graded_enum|lia]. }
  destruct (bool_decide (ty_kind a = ty_kind b)) eqn:K; [|same]. apply bool_decide_eq_true in K.
  assert (Hbase : both (c (ty_base a) (ty_base b)) (c' (ty_base a) (ty_base b)))
    by (apply (Hc i j); [by apply graded_base|by apply graded_base|lia]).
  cbn [negb]. destruct (ty_kind a) eqn:Ka; try same.
  - apply and_then_both; same.
  - apply and_then_both; [done|]. by apply (params_total n c c' i j); [|lia| |].
  - destruct (_ || _); [same|]. destruct (_ && _); same.
  - destruct (_ || _); [same|]. destruct (_ && _); same.
  - destruct (_ || _); [same|]. apply or_else_both; [same|].
    apply (Hc i j); [by apply graded_repr|by apply graded_repr|lia].
  - apply and_then_both; same.
Qed.
End total.

Lemma type_compatible_agree st same same' n : pointer_equality same -> pointer_equality same' ->
  agree_below st n (type_compatible n st same) (type_compatible n st same').
Proof.
  intros P P'. induction n as [|n IH]; intros i j x y Hx Hy Hn; [lia|]. simpl.
  destruct x as [a|], y as [b|]; try apply both_same.
  apply (node_total st same same' n _ _ i j); try done; apply type_compatible_refl.
Qed.

Lemma type_compatible_total st same n i j x y : pointer_equality same -> graded st i x -> graded st j y ->
  (i + j < n)%nat -> exists r, type_compatible n st same x y = Some r.
Proof.
  intros P Hx Hy Hn. destruct (type_compatible_agree st same same n P P i j x y Hx Hy Hn) as (r & E & _). by exists r.
Qed.

(** ** More fuel gives the same answer *)
Definition refines (c c' : option CType -> option CType -> option bool) : Prop :=
  forall x y r, c x y = Some r -> c' x y = Some r.

Lemma and_then_refines a b a' b' r : (forall r, a = Some r -> a' = Some r) -> (forall r, b = Some r -> b' = Some r) ->
  and_then a b = Some r -> and_then a' b' = Some r.
Proof.
  intros Ha Hb. destruct a as [[]|]; [|intros [= <-]|done]; rewrite (Ha _ eq_refl); [apply Hb|done].
Qed.
Lemma or_else_refines a b a' b' r : (forall r, a = Some r -> a' = Some r) -> (forall r, b = Some r -> b' = Some r) ->
  or_else a b = Some r -> or_else a' b' = Some r.
Proof.
  intros Ha Hb. destruct a as [[]|]; [intros [= <-]| |done]; rewrite (Ha _ eq_refl); [done|apply Hb].
Qed.

Section refines.
  Context (st : Tags) (same : CType -> CType -> bool).
  Context (c c' : option CType -> option CType -> option bool) (Hc : refines c c').

Lemma via_union_refines a b r : param_compatible_via_union st c a b = Some r -> param_compatible_via_union st c' a b = Some r.
Proof.
  unfold param_compatible_via_union.
  destruct (type_transparent_union_first_member st a) as [m|], (type_transparent_union_first_member st b) as [m'|];
    try done; [destruct (m_type m), b|destruct (m_type m'), a]; try done; apply Hc.
Qed.

Lemma param_refines a b r : param_compatible st c a b = Some r -> param_compatible st c' a b = Some r.
Proof. apply or_else_refines; [apply Hc|intros; by apply via_union_refines]. Qed.

Lemma all_refines f ps qs r : all_compatible st c f ps qs = Some r -> all_compatible st c' f ps qs = Some r.
Proof.
  revert qs r. induction ps as [|p ps IH]; intros [|q qs] r; try done.
  apply and_then_refines; [intros; by apply param_refines|apply IH].
Qed.

Lemma params_refines a b r : params_compatible st c a b = Some r -> params_compatible st c' a b = Some r.
Proof.
  unfold params_compatible, unprototyped_compatible, old_style_definition_matches.
  repeat case_match; try done; apply all_refines.
Qed.

Lemma node_refines a b r : node_compatible st same c a b = Some r -> node_compatible st same c' a b = Some r.
Proof.
  unfold node_compatible, kind_compatible.
  destruct (same a b); [done|]. destruct (_ || _); [done|]. destruct (negb _); [done|].
  destruct (_ || _); [done|]. do 2 (destruct (_ && _ && _); [apply Hc|]). destruct (negb _); [done|].
  destruct (ty_kind a); try done; try apply Hc.
  - apply and_then_refines; [apply Hc|done].
  - apply and_then_refines; [apply Hc|apply params_refines].
  - destruct (_ || _); [done|]. apply or_else_refines; [done|apply Hc].
  - apply and_then_refines; [done|apply Hc].
Qed.
End refines.

Lemma type_compatible_mono st same n m : (n <= m)%nat -> refines (type_compatible n st same) (type_compatible m st same).
Proof.
  revert m. induction n as [|n IH]; intros [|m] Hle x y r; try done; [lia|]. simpl.
  destruct x, y; try done. apply node_refines. apply IH. lia.
Qed.

(** ** Composite types *)
Lemma composite_default_fields a b : let c := composite_default a b in
  ty_kind c = ty_kind a /\ ty_quals c = ty_quals a /\ ty_integer_precision c = ty_integer_precision a /\
  ty_integer_is_signed c = ty_integer_is_signed a /\
  forall st k x, kind_compatible st k c x = kind_compatible st k a x.
Proof.
  unfold composite_default, type_may_alias, type_with_alignment. repeat case_match; split_and!; done.
Qed.

Lemma composite_default_quals a b q :
  composite_default (with_quals a q) (with_quals b q) = with_quals (composite_default a b) q.
Proof.
  unfold composite_default, type_may_alias, type_with_alignment, larger_align. cbn [ty_may_alias with_quals ty_align_override ty_align_is_exact].
  repeat case_match; done.
Qed.

Section composite_facts.
  Context (st : Tags) (same : CType -> CType -> bool) (P : pointer_equality same).

(** Qualifiers on top go through. *)
Lemma composite_unqual k a b :
  type_composite k st same (unqual a) (unqual b) = option_map unqual (type_composite k st same a b).
Proof.
  destruct k as [|k]; [done|]. destruct a as [a|], b as [b|]; try done. simpl.
  unfold node_composite, type_transparent_union_param_compatible.
  change (param_compatible_via_union st (type_compatible k st same) (Some (with_quals a 0)) (Some (with_quals b 0)))
    with (param_compatible_via_union st (type_compatible k st same) (Some a) (Some b)).
  change (kind_is (with_quals a 0) TY_ERROR) with (kind_is a TY_ERROR).
  change (kind_is (with_quals b 0) TY_ERROR) with (kind_is b TY_ERROR).
  destruct (_ || _); [done|].
  destruct (param_compatible_via_union st _ (Some a) (Some b)) as [[]|]; [|cbn [ty_kind with_quals]|done].
  - change (type_transparent_union_first_member st (Some (with_quals a 0)))
      with (type_transparent_union_first_member st (Some a)). by destruct (present _).
  - destruct (negb _); [done|]. unfold composite_array, composite_func. cbn [ty_base with_quals].
    destruct (type_composite k st same (ty_base a) (ty_base b)) as [e|].
    + destruct (ty_kind a); try done; try (simpl; by rewrite composite_default_quals).
      * cbn [ty_has_size with_quals]. by destruct (ty_has_size a), (ty_has_size b).
      * cbn [ty_has_proto ty_params ty_old_style_definition with_quals].
        destruct (ty_has_proto a), (ty_has_proto b); try done.
        -- by destruct (composite_params _ _ _).
        -- by destruct (ty_old_style_definition a), (ty_old_style_definition b).
    + destruct (ty_kind a); try done; simpl; by rewrite composite_default_quals.
Qed.

Definition Compat (a b : option CType) : Prop := exists n, type_compatible n st same a b = Some true.

Lemma Compat_sym a b : Compat a b -> Compat b a.
Proof. intros [n H]. exists n. by rewrite type_compatible_sym. Qed.

Lemma Compat_refl i a : graded st i a -> Compat a a.
Proof. intros H. exists (S (i + i)). apply (type_compatible_refl st same _ i); [done|lia]. Qed.

Lemma Compat_at n m a b : type_compatible n st same a b = Some true -> (n <= m)%nat ->
  type_compatible m st same a b = Some true.
Proof. intros H Hle. by apply (type_compatible_mono st same n m Hle). Qed.

Lemma Compat_determined n m a b r r' : type_compatible n st same a b = Some r ->
  type_compatible m st same a b = Some r' -> r = r'.
Proof.
  intros H H'. apply (type_compatible_mono st same n (max n m) ltac:(lia)) in H.
  apply (type_compatible_mono st same m (max n m) ltac:(lia)) in H'. congruence.
Qed.

(** Compatible nodes of one kind. *)
Definition agree_precision (a b : CType) : Prop :=
  ty_integer_precision a = ty_integer_precision b /\
  (ty_integer_precision a = 0 \/ ty_integer_is_signed a = ty_integer_is_signed b).

Lemma Compat_intro a b : ty_kind a = ty_kind b -> ty_quals a = ty_quals b -> agree_precision a b ->
  (ty_integer_precision a = 0 -> exists n, kind_compatible st (type_compatible n st same) a b = Some true) ->
  Compat (Some a) (Some b).
Proof.
  intros K Q [Pe Ps] H.
  assert (H' : exists n, ty_integer_precision a = 0 -> kind_compatible st (type_compatible n st same) a b = Some true).
  { destruct (decide (ty_integer_precision a = 0)) as [E|E]; [destruct (H E) as [n Hn]; by exists n|by exists O]. }
  destruct H' as [n Hn]. exists (S n). simpl. unfold node_compatible. destruct (same a b); [done|].
  destruct (_ || _); [done|]. rewrite Q, Z.eqb_refl, <- Pe. simpl. unfold kind_is. rewrite <- K.
  destruct (Z.eqb_spec (ty_integer_precision a) 0) as [E|E]; simpl.
  - rewrite andb_negb_r. simpl. rewrite bool_decide_eq_true_2 by done. by apply Hn.
  - rewrite Z.eqb_refl. destruct Ps as [| ->]; [done|]. by rewrite eqb_reflx.
Qed.

Lemma Compat_elim i a b : grade st i a -> ty_kind a = ty_kind b -> kind_is a TY_ERROR = false ->
  Compat (Some a) (Some b) ->
  ty_quals a = ty_quals b /\ agree_precision a b /\
  (ty_integer_precision a = 0 -> exists n, kind_compatible st (type_compatible n st same) a b = Some true).
Proof.
  intros Ha K E [[|n] H]; [done|]. simpl in H. unfold node_compatible in H.
  destruct (same a b) eqn:S.
  { apply (same_eq _ P) in S as <-. split; [done|]. split; [split; [done|by right]|]. intros _.
    exists (i + i)%nat. apply (kind_refl st (i + i) _ i); [apply type_compatible_refl|done|lia]. }
  unfold kind_is in H, E. rewrite <- K, E in H. simpl in H.
  destruct (Z.eqb_spec (ty_quals a) (ty_quals b)) as [Q|]; [|done]. simpl in H. split; [done|].
  unfold agree_precision. rewrite andb_negb_r in H. simpl in H. rewrite bool_decide_eq_true_2 in H by done.
  destruct (Z.eqb_spec (ty_integer_precision a) 0) as [Ea|Ea], (Z.eqb_spec (ty_integer_precision b) 0) as [Eb|Eb];
    simpl in H; try done.
  - split; [split; [congruence|by left]|]. intros _. by exists n.
  - injection H as H. apply andb_true_iff in H as [H1 H2]. apply Z.eqb_eq in H1. apply eqb_prop in H2.
    split; [by split; [|right]|]. by intros ?.
Qed.

(** A derived type is no integer, so it has no precision of its own. *)
Lemma derived_precision t : well_kinded t ->
  ty_kind t ∈ [TY_PTR; TY_ARRAY; TY_FUNC; TY_VECTOR] -> ty_integer_precision t = 0.
Proof.
  intros [H|H] K; [done|]. unfold kind_in in H.
  repeat (apply elem_of_cons in K as [K|K]; [rewrite K in H; discriminate H|]). by apply not_elem_of_nil in K.
Qed.

Lemma grade_well i t : grade st i t -> well_kinded t.
Proof. by intros []. Qed.

Definition ParamCompat (p q : option CType) : Prop := exists n, param_compatible st (type_compatible n st same) p q = Some true.

Lemma ParamCompat_refl i p : graded st i p -> ParamCompat p p.
Proof.
  intros H. destruct (Compat_refl i (unqual p) (graded_unqual st i p H)) as [n Hn]. exists n.
  unfold param_compatible. by rewrite Hn.
Qed.

Lemma ParamCompat_sym p q : ParamCompat p q -> ParamCompat q p.
Proof.
  intros [n H]. exists n. rewrite param_compatible_sym; [done|]. intros x y. by apply type_compatible_sym.
Qed.

Lemma ParamCompat_intro p q : Compat (unqual p) (unqual q) -> ParamCompat p q.
Proof. intros [n H]. exists n. unfold param_compatible. by rewrite H. Qed.

Definition AllCompat (ps qs : list (option CType)) : Prop :=
  exists n, all_compatible st (type_compatible n st same) id ps qs = Some true.

Lemma AllCompat_cons p q ps qs : ParamCompat p q -> AllCompat ps qs -> AllCompat (p :: ps) (q :: qs).
Proof.
  intros [n H1] [m H2]. exists (max n m). simpl. unfold id at 1.
  rewrite (param_refines st _ _ (type_compatible_mono st same n (max n m) ltac:(lia)) p q true H1). simpl.
  exact (all_refines st _ _ (type_compatible_mono st same m (max n m) ltac:(lia)) id ps qs true H2).
Qed.

Lemma AllCompat_inv n p q ps qs :
  all_compatible st (type_compatible n st same) id (p :: ps) (q :: qs) = Some true ->
  param_compatible st (type_compatible n st same) p q = Some true /\
  all_compatible st (type_compatible n st same) id ps qs = Some true.
Proof. simpl. unfold id at 1. by destruct (param_compatible _ _ p q) as [[]|]. Qed.

Lemma AllCompat_refl i ps : (forall p, p ∈ ps -> graded st i p) -> AllCompat ps ps.
Proof.
  induction ps as [|p ps IH]; intros H; [by exists O|].
  apply AllCompat_cons; [apply (ParamCompat_refl i), H; left|]. apply IH. intros; apply H; by right.
Qed.

Lemma via_union_determined n m p q r r' :
  param_compatible_via_union st (type_compatible n st same) p q = Some r ->
  param_compatible_via_union st (type_compatible m st same) p q = Some r' -> r = r'.
Proof.
  intros H H'. apply (via_union_refines st _ _ (type_compatible_mono st same n (max n m) ltac:(lia))) in H.
  apply (via_union_refines st _ _ (type_compatible_mono st same m (max n m) ltac:(lia))) in H'. congruence.
Qed.

Lemma via_union_unqual c p q : param_compatible_via_union st c (unqual p) (unqual q) = param_compatible_via_union st c p q.
Proof.
  assert (F : forall p, type_transparent_union_first_member st (unqual p) = type_transparent_union_first_member st p)
    by (by intros []).
  unfold param_compatible_via_union. rewrite !F.
  destruct (type_transparent_union_first_member st p), (type_transparent_union_first_member st q); try done;
    destruct (m_type _); destruct p, q; done.
Qed.

Lemma via_union_present c p q : param_compatible_via_union st c p q = Some true ->
  exists a b, p = Some a /\ q = Some b.
Proof.
  unfold param_compatible_via_union. destruct p as [a|], q as [b|]; [eauto|..];
    simpl; repeat case_match; naive_solver.
Qed.

(** What the induction on fuel gives for every pair of types below it. *)
Definition composes (k : nat) : Prop :=
  forall i j a b, graded st i a -> graded st j b -> (i + j < k)%nat -> Compat a b ->
  exists c, type_composite k st same a b = Some c /\ Compat c a /\ Compat c b.

Lemma composite_param k i j p q n : composes k -> graded st i p -> graded st j q -> (i + j < k)%nat ->
  param_compatible st (type_compatible n st same) p q = Some true ->
  exists c, type_composite k st same p q = Some c /\ ParamCompat c p /\ ParamCompat c q.
Proof.
  intros Hk Hp Hq Hn H. assert (Hpq : ParamCompat p q) by (by exists n).
  unfold param_compatible in H. rewrite via_union_unqual in H.
  destruct (type_compatible n st same (unqual p) (unqual q)) as [[]|] eqn:C; [| |done]; simpl in H.
  - destruct (Hk i j (unqual p) (unqual q)) as (c & E & H1 & H2);
      [by apply graded_unqual|by apply graded_unqual|done|by exists n|].
    rewrite composite_unqual in E. destruct (type_composite k st same p q) as [c'|]; [|done]. injection E as <-.
    exists c'. split; [done|]. by split; apply ParamCompat_intro.
  - destruct (via_union_present _ _ _ H) as (a & b & -> & ->). destruct k as [|k]; [lia|]. simpl.
    unfold node_composite.
    assert (Herr : kind_is a TY_ERROR || kind_is b TY_ERROR = false).
    { destruct n as [|n]; [done|]. simpl in C. unfold node_compatible in C.
      destruct (same _ _); [done|]. change (kind_is (with_quals a 0) TY_ERROR) with (kind_is a TY_ERROR) in C.
      change (kind_is (with_quals b 0) TY_ERROR) with (kind_is b TY_ERROR) in C. by destruct (_ || _). }
    rewrite Herr. unfold type_transparent_union_param_compatible.
    destruct (via_union_total st k _ _ i j (Some a) (Some b) (type_compatible_agree st same same k P P) Hp Hq Hn)
      as (r & Hr & _).
    rewrite Hr. assert (r = true) as -> by (by eapply via_union_determined).
    eexists. split; [done|]. destruct (present _).
    + split; [by apply (ParamCompat_refl i)|done].
    + split; [by apply ParamCompat_sym|by apply (ParamCompat_refl j)].
Qed.

Lemma composite_params_compat k i j ps qs n : composes k -> (i + j < k)%nat ->
  (forall p, p ∈ ps -> graded st i p) -> (forall q, q ∈ qs -> graded st j q) -> length ps = length qs ->
  all_compatible st (type_compatible n st same) id ps qs = Some true ->
  exists cs, composite_params (type_composite k st same) ps qs = Some cs /\ length cs = length ps /\
    AllCompat cs ps /\ AllCompat cs qs.
Proof.
  intros Hk Hn. revert qs. induction ps as [|p ps IH]; intros [|q qs] Hp Hq Hl H; try done.
  { exists []. split_and!; try done; by exists O. }
  destruct (AllCompat_inv n p q ps qs H) as [H1 H2].
  destruct (composite_param k i j p q n Hk) as (c & E & C1 & C2); try done; [apply Hp; left|apply Hq; left|].
  destruct (IH qs) as (cs & Es & Els & D1 & D2);
    [intros; apply Hp; by right|intros; apply Hq; by right|by injection Hl|done|].
  exists (c :: cs). simpl. rewrite E, Es, Els. split_and!; try done; by apply AllCompat_cons.
Qed.

Lemma params_at n m a b : params_compatible st (type_compatible n st same) a b = Some true -> (n <= m)%nat ->
  params_compatible st (type_compatible m st same) a b = Some true.
Proof. intros H Hle. by apply (params_refines st _ _ (type_compatible_mono st same n m Hle)). Qed.

(** The composite of two function types. *)
Lemma composite_func_compat k i j a b : composes k -> grade st (S i) a -> grade st (S j) b -> (i + j < k)%nat ->
  ty_kind a = TY_FUNC -> Compat (ty_base a) (ty_base b) ->
  (exists n, params_compatible st (type_compatible n st same) a b = Some true) ->
  exists c, composite_func (type_composite k st same) a b = Some (Some c) /\
    ty_kind c = TY_FUNC /\ ty_quals c = ty_quals a /\ ty_integer_precision c = 0 /\
    Compat (ty_base c) (ty_base a) /\ Compat (ty_base c) (ty_base b) /\
    (exists n, params_compatible st (type_compatible n st same) c a = Some true) /\
    (exists n, params_compatible st (type_compatible n st same) c b = Some true).
Proof.
  intros Hk Ha Hb Hn K Hbase [n Hpar].
  destruct (Hk i j (ty_base a) (ty_base b) (graded_base st i a Ha) (graded_base st j b Hb) Hn Hbase)
    as (e & E & E1 & E2).
  assert (Hra : AllCompat (ty_params a) (ty_params a)) by (apply (AllCompat_refl i); intros; by eapply graded_param).
  assert (Hrb : AllCompat (ty_params b) (ty_params b)) by (apply (AllCompat_refl j); intros; by eapply graded_param).
  unfold composite_func. rewrite E. unfold params_compatible in Hpar.
  destruct (ty_has_proto a) eqn:Pa, (ty_has_proto b) eqn:Pb.
  - destruct (bool_decide_reflect (length (ty_params a) = length (ty_params b))) as [Hl|]; [|done].
    destruct (Bool.eqb (ty_variadic a) (ty_variadic b)) eqn:V; [|done]. apply eqb_prop in V. simpl in Hpar.
    destruct (composite_params_compat k i j (ty_params a) (ty_params b) n Hk Hn) as (cs & Ec & Elc & [n1 D1] & [n2 D2]);
      [intros; by eapply graded_param|intros; by eapply graded_param|done|done|].
    rewrite Ec. eexists. split; [done|]. unfold params_compatible. simpl. rewrite Pa, Pb, Elc, <- Hl, <- V.
    rewrite bool_decide_eq_true_2, eqb_reflx by done. simpl. split_and!; try done; by eexists.
  - eexists. split; [done|]. split_and!; try done.
    + destruct Hra as [n1 D1]. exists n1. unfold params_compatible. simpl. rewrite Pa.
      by rewrite bool_decide_eq_true_2, eqb_reflx by done.
    + exists n. unfold params_compatible. simpl. by rewrite Pb.
  - eexists. split; [done|]. split_and!; try done.
    + exists n. unfold params_compatible. simpl. by rewrite Pa.
    + destruct Hrb as [n1 D1]. exists n1. unfold params_compatible. simpl. rewrite Pb.
      by rewrite bool_decide_eq_true_2, eqb_reflx by done.
  - eexists. split; [done|].
    destruct (ty_old_style_definition a), (ty_old_style_definition b); split_and!; try done;
      exists O; unfold params_compatible; simpl; by rewrite ?Pa, ?Pb.
Qed.

Lemma Compat_derived c a n : ty_kind c = ty_kind a -> ty_quals c = ty_quals a -> ty_integer_precision c = 0 ->
  ty_integer_precision a = 0 -> kind_compatible st (type_compatible n st same) c a = Some true -> Compat (Some c) (Some a).
Proof.
  intros K Q Pc Pa H. apply Compat_intro; [done..| |by exists n]. split; [congruence|by left].
Qed.

Lemma composite_scalar_compat i a b : grade st (S i) a -> ty_kind a = ty_kind b -> ty_quals a = ty_quals b ->
  agree_precision a b ->
  (ty_integer_precision a = 0 -> exists n, kind_compatible st (type_compatible n st same) a b = Some true) ->
  Compat (Some (composite_default a b)) (Some a) /\ Compat (Some (composite_default a b)) (Some b).
Proof.
  intros Ha K Q [Pe Ps] Hk. destruct (composite_default_fields a b) as (D1 & D2 & D3 & D4 & D5).
  split; apply Compat_intro; try congruence; rewrite ?D3.
  - split; [done|]. by right.
  - intros Z0. exists (S i + S i)%nat. rewrite D5.
    apply (kind_refl st (S i + S i) _ (S i)); [apply type_compatible_refl|done|lia].
  - unfold agree_precision. by rewrite D3, D4.
  - intros Z0. destruct (Hk Z0) as [n Hnk]. exists n. by rewrite D5.
Qed.

Lemma composite_array_compat rec a b e n :
  ty_kind a = TY_ARRAY -> ty_kind b = TY_ARRAY -> ty_quals a = ty_quals b ->
  ty_integer_precision a = 0 -> ty_integer_precision b = 0 ->
  rec (ty_base a) (ty_base b) = Some e -> Compat e (ty_base a) -> Compat e (ty_base b) ->
  kind_compatible st (type_compatible n st same) a b = Some true ->
  exists c, composite_array rec a b = Some c /\ Compat c (Some a) /\ Compat c (Some b).
Proof.
  intros Ka Kb Q Pa Pb E [n1 E1] [n2 E2] H. unfold composite_array. rewrite E. eexists. split; [done|].
  unfold kind_compatible in H. rewrite Ka in H.
  destruct (type_compatible n st same (ty_base a) (ty_base b)) as [[]|]; try done. simpl in H.
  split; [apply (Compat_derived _ _ n1)|apply (Compat_derived _ _ n2)]; try done;
    destruct (ty_has_size a) eqn:Sa, (ty_has_size b) eqn:Sb; simpl; try congruence;
    unfold kind_compatible; simpl; rewrite ?E1, ?E2, ?Sa, ?Sb; simpl; try done; by rewrite Z.eqb_refl.
Qed.

Lemma func_compat c a : ty_kind c = TY_FUNC -> ty_kind a = TY_FUNC -> ty_quals c = ty_quals a ->
  ty_integer_precision c = 0 -> ty_integer_precision a = 0 -> Compat (ty_base c) (ty_base a) ->
  (exists n, params_compatible st (type_compatible n st same) c a = Some true) -> Compat (Some c) (Some a).
Proof.
  intros Kc Ka Q Pc Pa [n1 H1] [n2 H2]. apply (Compat_derived _ _ (max n1 n2)); try done; [congruence|].
  unfold kind_compatible. rewrite Kc, (Compat_at n1 (max n1 n2) _ _ H1) by lia. simpl.
  apply (params_at n2); [done|lia].
Qed.

Lemma func_compat_inv n a b : ty_kind a = TY_FUNC -> kind_compatible st (type_compatible n st same) a b = Some true ->
  params_compatible st (type_compatible n st same) a b = Some true.
Proof.
  intros K. unfold kind_compatible. rewrite K.
  by destruct (type_compatible n st same (ty_base a) (ty_base b)) as [[]|].
Qed.

Lemma derived_base_compat n a b : ty_kind a ∈ [TY_PTR; TY_ARRAY; TY_FUNC; TY_VECTOR] ->
  kind_compatible st (type_compatible n st same) a b = Some true -> Compat (ty_base a) (ty_base b).
Proof.
  intros Hin H. exists n. unfold kind_compatible in H.
  repeat (apply elem_of_cons in Hin as [E|Hin];
    [rewrite E in H; destruct (type_compatible n st same (ty_base a) (ty_base b)) as [[]|]; try done; by destruct (_ =? _)|]).
  by apply not_elem_of_nil in Hin.
Qed.

(** The composite of two derived types of one kind. *)
Lemma composite_derived_compat k i j a b : composes k -> grade st (S i) a -> grade st (S j) b -> (i + j < k)%nat ->
  ty_kind a ∈ [TY_PTR; TY_ARRAY; TY_FUNC; TY_VECTOR] -> ty_kind a = ty_kind b -> ty_quals a = ty_quals b ->
  (exists n, kind_compatible st (type_compatible n st same) a b = Some true) ->
  exists c, match ty_kind a with
    | TY_PTR => match type_composite k st same (ty_base a) (ty_base b) with
                | Some e => Some (Some (composite_node TY_PTR e a b))
                | None => None
                end
    | TY_ARRAY => composite_array (type_composite k st same) a b
    | TY_VECTOR => match type_composite k st same (ty_base a) (ty_base b) with
                   | Some e => Some (Some (with_bound (composite_node TY_VECTOR e a b) true (ty_size a) false None))
                   | None => None
                   end
    | TY_FUNC => composite_func (type_composite k st same) a b
    | _ => Some (Some (composite_default a b))
    end = Some c /\ Compat c (Some a) /\ Compat c (Some b).
Proof.
  intros Hk Ha Hb Hn Hin K Q [n Hab].
  assert (Pa : ty_integer_precision a = 0) by (apply derived_precision; [by eapply grade_well|done]).
  assert (Pb : ty_integer_precision b = 0) by (apply derived_precision; [by eapply grade_well|by rewrite <- K]).
  pose proof (derived_base_compat n a b Hin Hab) as Hbase.
  destruct (Hk i j (ty_base a) (ty_base b)) as (e & E & E1 & E2); try done; [by apply graded_base..|].
  destruct (ty_kind a) eqn:Ka; try (exfalso; clear - Hin; set_solver); rewrite ?E.
  - destruct E1 as [n1 E1], E2 as [n2 E2]. eexists. split; [done|].
    split; [apply (Compat_derived _ _ n1)|apply (Compat_derived _ _ n2)]; simpl; try congruence;
      unfold kind_compatible; done.
  - by eapply (composite_array_compat _ a b e n).
  - pose proof (func_compat_inv n a b Ka Hab) as Hp.
    destruct (composite_func_compat k i j a b) as (c & Ec & Kc & Qc & Pc & C1 & C2 & D1 & D2); try done; [by exists n|].
    exists (Some c). split; [done|]. split; apply func_compat; congruence.
  - destruct E1 as [n1 E1], E2 as [n2 E2]. eexists. split; [done|].
    unfold kind_compatible in Hab. rewrite Ka in Hab.
    destruct (Z.eqb_spec (ty_size a) (ty_size b)) as [S|]; [|done].
    split; [apply (Compat_derived _ _ n1)|apply (Compat_derived _ _ n2)]; simpl; try congruence;
      unfold kind_compatible; simpl; rewrite ?S, Z.eqb_refl; done.
Qed.

Lemma composes_all k : composes k.
Proof.
  induction k as [|k IH]; intros i j a b Ha Hb Hn Hab; [lia|].
  destruct a as [a|], b as [b|]; try (by destruct Hab as [[|n] Hab]).
  2:{ exists None. split_and!; try done; by exists 1%nat. }
  simpl in Ha, Hb. pose proof (Compat_refl i (Some a) Ha) as Ra. pose proof (Compat_refl j (Some b) Hb) as Rb.
  pose proof (Compat_sym _ _ Hab) as Hba. simpl. unfold node_composite, type_transparent_union_param_compatible.
  destruct (kind_is a TY_ERROR || kind_is b TY_ERROR) eqn:Er.
  { eexists. split; [done|]. split; exists 1%nat; simpl; unfold node_compatible; by destruct (same _ _). }
  apply orb_false_iff in Er as [Era Erb].
  destruct (via_union_total st k _ _ i j (Some a) (Some b) (type_compatible_agree st same same k P P) Ha Hb Hn)
    as (r & Hr & _).
  rewrite Hr. destruct r.
  { eexists. split; [done|]. by destruct (present _). }
  destruct (bool_decide_reflect (ty_kind a = ty_kind b)) as [K|]; [|by exists (Some a)]. cbn [negb].
  destruct i as [|i]; [inversion Ha|]. destruct j as [|j]; [inversion Hb|].
  destruct (Compat_elim (S i) a b Ha K Era Hab) as (Q & Pr & Hk).
  destruct (decide (ty_kind a ∈ [TY_PTR; TY_ARRAY; TY_FUNC; TY_VECTOR])) as [Hin|Hin].
  - apply (composite_derived_compat k i j); try done; [lia|].
    apply Hk, derived_precision; [by eapply grade_well|done].
  - pose proof (composite_scalar_compat i a b Ha K Q Pr Hk).
    destruct (ty_kind a); try (exfalso; apply Hin; repeat (left || right); fail); by eexists.
Qed.
End composite_facts.
