(* ===== verification/CompatSound.v ===== *)
(** What the type comparison and the composite promise their callers: a
    decision that depends only on the two types, and a composite that may stand
    for either of them. Two transparent unions that name each other's view make
    the comparison run forever. *)
From stdpp Require Import base gmap list.
From S2P Require Import Prelude Pptok Ctype Compat CompatFacts.

(** C27. Comparing two types that are built up in finitely many steps (through
    element, parameter, enumeration and transparent-union types) returns, and
    the answer depends on nothing but the two types: neither on the fuel, nor on
    the order, nor on which equal types happen to be the same pointer. A type is
    compatible with itself. *)
Theorem type_compatible_decides st same i j x y : pointer_equality same -> graded st i x -> graded st j y ->
  exists r, (x = y -> r = true) /\ type_compatible (S (i + j)) st same x y = Some r /\
    forall n same', pointer_equality same' ->
      (i + j < n)%nat -> type_compatible n st same' x y = Some r /\ type_compatible n st same' y x = Some r.
Proof.
  intros P Hx Hy.
  destruct (type_compatible_total st same (S (i + j)) i j x y P Hx Hy ltac:(lia)) as [r Hr]. exists r.
  assert (Ha : forall n same', pointer_equality same' -> (i + j < n)%nat -> type_compatible n st same' x y = Some r).
  { intros n same' P' Hn.
    destruct (type_compatible_agree st same same' n P P' i j x y Hx Hy Hn) as (r' & E & ->).
    rewrite (type_compatible_mono st same (S (i + j)) n ltac:(lia) x y r Hr) in E. congruence. }
  split_and!; [|done|].
  - intros ->. pose proof (type_compatible_mono st same (S (i + j)) (max (S (i + j)) (S (i + i))) ltac:(lia) y y r Hr) as H.
    rewrite (type_compatible_refl st same (max (S (i + j)) (S (i + i))) i y Hx ltac:(lia)) in H. congruence.
  - intros n same' P' Hn. rewrite (type_compatible_sym st same' n y x P'). auto.
Qed.

(** The composite of two arrays, or of two functions, of one kind: it knows a
    bound, or has a prototype, exactly when one of the two does. *)
Definition completes (a b c : option CType) : Prop :=
  match a, b, c with
  | Some a, Some b, Some c =>
    (ty_kind a = TY_ARRAY -> ty_kind b = TY_ARRAY -> ty_kind c = TY_ARRAY /\
       ty_has_size c = ty_has_size a || ty_has_size b /\ ty_is_vla c = ty_is_vla a || ty_is_vla b) /\
    (ty_kind a = TY_FUNC -> ty_kind b = TY_FUNC -> ty_kind c = TY_FUNC /\ ty_has_proto c = ty_has_proto a || ty_has_proto b)
  | _, _, _ => True
  end.

Lemma type_composite_completes st same n a b c : type_composite n st same a b = Some c -> completes a b c.
Proof.
  destruct n as [|n]; [done|]. destruct a as [a|], b as [b|], c as [c|]; try done. simpl.
  assert (Hv : forall x, ty_kind x <> TY_UNION -> type_transparent_union_first_member st (Some x) = None).
  { intros x Hx. unfold type_transparent_union_first_member, kind_is. by rewrite bool_decide_eq_false_2. }
  unfold node_composite, type_transparent_union_param_compatible, param_compatible_via_union, kind_is.
  intros H. split; intros Ka Kb; rewrite !Hv, Ka, Kb in H by congruence; simpl in H.
  - unfold composite_array in H. destruct (type_composite n st same (ty_base a) (ty_base b)); [|done].
    destruct (ty_has_size a), (ty_has_size b); injection H as <-; done.
  - unfold composite_func in H. destruct (type_composite n st same (ty_base a) (ty_base b)); [|done].
    destruct (ty_has_proto a), (ty_has_proto b), (ty_old_style_definition a), (ty_old_style_definition b);
      try (destruct (composite_params _ _ _); [|done]); injection H as <-; done.
Qed.

(** C26. Two compatible types have a composite, the composite is compatible with
    both, and it has the bound of an array or the prototype of a function as
    soon as one of the two has it. *)
Theorem type_composite_compatible st same i j n a b : pointer_equality same -> graded st i a -> graded st j b ->
  type_compatible n st same a b = Some true ->
  exists c m, type_composite (S (i + j)) st same a b = Some c /\ completes a b c /\
    type_compatible m st same c a = Some true /\ type_compatible m st same c b = Some true.
Proof.
  intros P Ha Hb H. destruct (composes_all st same P (S (i + j)) i j a b Ha Hb ltac:(lia) ltac:(by exists n))
    as (c & E & [n1 H1] & [n2 H2]).
  exists c, (max n1 n2). split; [done|]. split; [by apply (type_composite_completes st same (S (i + j)))|].
  split; [apply (Compat_at st same n1)|apply (Compat_at st same n2)]; (done || lia).
Qed.

(** ** Examples *)
Definition no_pointer : CType -> CType -> bool := fun _ _ => false.

Lemma no_pointer_equality : pointer_equality no_pointer.
Proof. by split. Qed.

Definition type_array (elem : CType) (size : option Z) : CType :=
  with_bound (with_quals (composite_node TY_ARRAY (Some elem) (type_basic TY_ARRAY) (type_basic TY_ARRAY)) 0)
    (present size) (default 0 size) false None.

Definition type_ptr (t : CType) : CType :=
  composite_node TY_PTR (Some t) (type_basic TY_PTR) (type_basic TY_PTR).

Definition type_func (params : list CType) : CType :=
  with_signature (composite_node TY_FUNC (Some (type_basic TY_VOID)) (type_basic TY_FUNC) (type_basic TY_FUNC))
    true (map Some params) false false false [].

(** A tree of pointers, arrays and prototypes over basic types has a finite grade. *)
Lemma grade_derived st n t : well_kinded t -> ty_kind t <> TY_ENUM -> ty_kind t <> TY_UNION ->
  graded st n (ty_base t) -> (forall p, p ∈ ty_params t -> graded st n p) -> ty_old_style_params t = [] ->
  grade st (S n) t.
Proof.
  intros Hw K1 K2 Hb Hp Ho. constructor; [done|]. intros u Hu. revert Hb Hp Ho K1 K2.
  destruct Hu as [t b E|t p E|t p E|t v E|t m v E Em]; intros Hb Hp Ho K1 K2.
  - by rewrite E in Hb.
  - exact (Hp _ E).
  - rewrite Ho in E. by apply not_elem_of_nil in E.
  - unfold type_enum_underlying, kind_is in E. by rewrite bool_decide_eq_false_2 in E.
  - unfold type_transparent_union_first_member, kind_is in E. by rewrite bool_decide_eq_false_2 in E.
Qed.

(** [int[]], [int[3]], [void f(int *[], char)] and [void f(int *[3], char)]. *)
Definition callee (size : option Z) : CType :=
  type_func [type_ptr (type_array (type_basic TY_INT) size); type_basic TY_CHAR].

Lemma grade_callee size : grade ∅ 4 (callee size).
Proof.
  assert (B : forall n k, k <> TY_ENUM -> k <> TY_UNION -> grade ∅ (S n) (type_basic k))
    by (intros n k ? ?; apply (grade_le ∅ 1); [by apply grade_basic|lia]).
  apply grade_derived; try done; [by left|by apply B|]. intros p Hp.
  apply elem_of_cons in Hp as [->|Hp]; [|apply elem_of_cons in Hp as [->|Hp]; [by apply B|by apply not_elem_of_nil in Hp]].
  apply grade_derived; try done; [by left| |intros ? ?%not_elem_of_nil; done].
  apply grade_derived; try done; [by left| |intros ? ?%not_elem_of_nil; done]. by apply B.
Qed.

(** The composite of the two prototypes takes the known bound. *)
Example composite_callee :
  type_composite 9 ∅ no_pointer (Some (callee None)) (Some (callee (Some 3))) = Some (Some (callee (Some 3))).
Proof. vm_compute. reflexivity. Qed.

Lemma type_compatible_decides_witness : exists r,
  (Some (callee None) = Some (callee (Some 3)) -> r = true) /\
  type_compatible 9 ∅ no_pointer (Some (callee None)) (Some (callee (Some 3))) = Some r /\
  forall n same', pointer_equality same' -> (8 < n)%nat ->
    type_compatible n ∅ same' (Some (callee None)) (Some (callee (Some 3))) = Some r /\
    type_compatible n ∅ same' (Some (callee (Some 3))) (Some (callee None)) = Some r.
Proof.
  apply (type_compatible_decides ∅ no_pointer 4 4);
    [apply no_pointer_equality|apply grade_callee|apply grade_callee].
Defined.

Lemma type_composite_compatible_witness : exists c m,
  type_composite 9 ∅ no_pointer (Some (callee None)) (Some (callee (Some 3))) = Some c /\
  completes (Some (callee None)) (Some (callee (Some 3))) c /\
  type_compatible m ∅ no_pointer c (Some (callee None)) = Some true /\
  type_compatible m ∅ no_pointer c (Some (callee (Some 3))) = Some true.
Proof.
  apply (type_composite_compatible ∅ no_pointer 4 4 9);
    [apply no_pointer_equality|apply grade_callee|apply grade_callee|vm_compute; reflexivity].
Defined.

(** ** Transparent unions that lead back to themselves

    A union [U1] with the attribute [transparent_union] whose only member is a
    pointer to a function that takes a pointer to a function that takes [U1];
    and [U2] likewise. *)
Definition view (id : TagId) : CType :=
  {| ty_kind := TY_UNION; ty_quals := 0; ty_integer_precision := 0; ty_integer_is_signed := false;
     ty_may_alias := false; ty_transparent_union_identity := Some id; ty_scalar_storage_order := 0;
     ty_scalar_storage_order_identity := None; ty_align_override := 0; ty_align_is_exact := false;
     ty_base := None; ty_has_size := false; ty_size := 0; ty_is_vla := false; ty_size_expr := None;
     ty_params := []; ty_variadic := false; ty_has_proto := false; ty_old_style_definition := false;
     ty_kr_definition := false; ty_old_style_params := []; ty_tag := Some id; ty_enum_repr := None |}.

Definition taker (t : CType) : CType := type_ptr (type_func [t]).

Definition view_tag (id : TagId) : TagDecl :=
  {| tag_kind := TY_UNION; tag_complete := true;
     tag_members := [{| m_name := Some 1%positive; m_type := Some (taker (taker (view id))); m_is_bitfield := false;
       m_offset := 0; m_bit_shift := 0; m_bit_width := 0; m_container_size := 0; m_align_override := 0;
       m_packed := false; m_pack_align := 0; m_laid_out := false |}];
     tag_nmembers := 1; tag_enum_underlying := None; tag_align_override := 0; tag_laid_out := false;
     tag_laid_out_for := CGF_TARGET_X86_64_LINUX_GNU; tag_size := 0; tag_align := 0; tag_natural_align := 0 |}.

Definition views : Tags := <[1%positive := view_tag 1]> (<[2%positive := view_tag 2]> ∅).

Lemma type_func_ne a b : a <> b -> type_func [a] <> type_func [b].
Proof. intros H E. apply H. by injection E. Qed.

Lemma taker_ne a b : a <> b -> taker a <> taker b.
Proof. intros H E. apply (type_func_ne a b H). by injection E as ->. Qed.

Lemma type_ptr_ne a b : a <> b -> type_ptr a <> type_ptr b.
Proof. intros H E. apply H. by injection E. Qed.

Lemma taker_compatible st same n a b : pointer_equality same -> a <> b ->
  type_compatible (S n) st same (Some (taker a)) (Some (taker b)) =
  type_compatible n st same (Some (type_func [a])) (Some (type_func [b])).
Proof.
  intros P H. cbn [type_compatible]. unfold node_compatible.
  rewrite (same_distinct same _ _ P (taker_ne a b H)). reflexivity.
Qed.

Lemma func_compatible st same n a b : pointer_equality same -> a <> b ->
  type_compatible (S (S n)) st same (Some (type_func [a])) (Some (type_func [b])) =
  and_then (param_compatible st (type_compatible (S n) st same) (Some a) (Some b)) (Some true).
Proof.
  intros P H. change (type_compatible (S (S n)) st same (Some (type_func [a])) (Some (type_func [b])))
    with (node_compatible st same (type_compatible (S n) st same) (type_func [a]) (type_func [b])).
  unfold node_compatible. rewrite (same_distinct same _ _ P (type_func_ne a b H)).
  unfold kind_compatible. cbn [ty_kind ty_base type_func with_signature composite_node].
  assert (Hv : type_compatible (S n) st same (Some (type_basic TY_VOID)) (Some (type_basic TY_VOID)) = Some true).
  { cbn [type_compatible]. unfold node_compatible. by destruct (same _ _). }
  rewrite Hv. reflexivity.
Qed.

Lemma views_diverge same n i j : pointer_equality same -> (i = 1%positive /\ j = 2%positive) \/ (i = 2%positive /\ j = 1%positive) ->
  type_compatible n views same (Some (type_func [view i])) (Some (type_func [taker (view j)])) = None.
Proof.
  intros P. revert i j. induction n as [n IH] using lt_wf_ind. intros i j Hij.
  assert (Hd : view i <> taker (view j)) by done.
  destruct n as [|[|n]]; [done| |].
  { cbn [type_compatible]. unfold node_compatible. by rewrite (same_distinct same _ _ P (type_func_ne _ _ Hd)). }
  rewrite (func_compatible _ _ _ _ _ P Hd). unfold param_compatible.
  assert (Hk : type_compatible (S n) views same (unqual (Some (view i))) (unqual (Some (taker (view j)))) = Some false).
  { cbn [type_compatible unqual option_map]. unfold node_compatible. by rewrite (same_distinct same _ _ P) by done. }
  assert (Hu : param_compatible_via_union views (type_compatible (S n) views same)
            (unqual (Some (view i))) (unqual (Some (taker (view j)))) =
          type_compatible (S n) views same (Some (taker (taker (view i)))) (Some (taker (view j))))
    by (destruct Hij as [[-> ->]|[-> ->]]; reflexivity).
  assert (Hne : taker (view i) <> view j) by done.
  rewrite Hk. cbn [or_else]. rewrite Hu, (taker_compatible _ _ _ _ _ P Hne), type_compatible_sym, IH by (tauto || lia).
  done.
Qed.

(** C40. Two transparent unions whose first members are pointers to functions
    taking functions that take the union itself: comparing the function type
    that takes [U1] with the one that takes a pointer to a function taking [U2]
    never returns, whatever the fuel. *)
Theorem type_compatible_diverges same n : pointer_equality same ->
  type_compatible n views same (Some (type_func [view 1])) (Some (type_func [taker (view 2)])) = None.
Proof.
  intros P. by apply views_diverge; [|left].
Qed.

Lemma type_compatible_diverges_witness :
  type_compatible 100 views no_pointer (Some (type_func [view 1])) (Some (type_func [taker (view 2)])) = None.
Proof. apply (type_compatible_diverges no_pointer 100). apply no_pointer_equality. Defined.
