(* ===== verification/Conv.v ===== *)
(** The implicit conversions, [sema/conv.c]: integer promotion, the usual
    arithmetic conversions, array and function decay, assignment.

    An expression is the node the conversions see: its type, what it remembers
    of a bit-field or an aligned member, and the casts and parentheses around
    it; any other expression is a number. [None] is an internal compiler error
    or a type comparison that does not return. Functions that diagnose append
    to a log. *)
From stdpp Require Import base gmap list.
From S2P Require Import Prelude Softfp Pptok Ctype Compat CompatFacts.

Definition conv_strip_quals (t : option CType) : option CType :=
  match t with
  | None => None
  | Some t => if ty_quals t =? 0 then Some t else Some (with_quals t 0)
  end.

(** ** Integer types *)
Section integers.
  Context (target : TargetKind) (st : Tags).

Fixpoint conv_rank (fuel : nat) (t : option CType) : option Z :=
  match fuel with
  | O => None
  | S fuel =>
    match t with
    | None => Some 0
    | Some t =>
      if negb (ty_integer_precision t =? 0) then Some (ty_integer_precision t * 100)
      else match ty_kind t with
           | TY_BOOL => Some 100
           | TY_CHAR | TY_SCHAR | TY_UCHAR => Some 801
           | TY_SHORT | TY_USHORT => Some 1601
           | TY_INT | TY_UINT => Some 3201
           | TY_LONG | TY_ULONG => Some 6401
           | TY_LLONG | TY_ULLONG => Some 6402
           | TY_INT128 | TY_UINT128 => Some 12801
           | TY_ENUM => conv_rank fuel (type_enum_underlying st t)
           | _ => Some 0
           end
    end
  end.

Fixpoint conv_is_signed (fuel : nat) (t : option CType) : option bool :=
  match fuel with
  | O => None
  | S fuel =>
    match t with
    | None => Some false
    | Some t =>
      if negb (ty_integer_precision t =? 0) then Some (ty_integer_is_signed t)
      else match ty_kind t with
           | TY_BOOL => Some false
           | TY_CHAR => Some (char_signed (cgf_target_int_widths target))
           | TY_SCHAR | TY_SHORT | TY_INT | TY_LONG | TY_LLONG | TY_INT128 => Some true
           | TY_ENUM => conv_is_signed fuel (type_enum_underlying st t)
           | _ => Some false
           end
    end
  end.

Fixpoint conv_int_bits (fuel : nat) (t : option CType) : option Z :=
  match fuel with
  | O => None
  | S fuel =>
    let w := cgf_target_int_widths target in
    match t with
    | None => Some 0
    | Some t =>
      if negb (ty_integer_precision t =? 0) then Some (ty_integer_precision t)
      else match ty_kind t with
           | TY_BOOL => Some 1
           | TY_CHAR | TY_SCHAR | TY_UCHAR => Some (char_bits w)
           | TY_SHORT | TY_USHORT => Some (short_bits w)
           | TY_INT | TY_UINT => Some (int_bits w)
           | TY_LONG | TY_ULONG => Some (long_bits w)
           | TY_LLONG | TY_ULLONG => Some (llong_bits w)
           | TY_INT128 | TY_UINT128 => Some 128
           | TY_ENUM => conv_int_bits fuel (type_enum_underlying st t)
           | _ => Some 0
           end
    end
  end.

(** An integer type of a given width. *)
Definition with_precision (k : TypeKind) (precision : Z) (is_signed : bool) : CType :=
  {| ty_kind := k; ty_quals := 0; ty_integer_precision := precision; ty_integer_is_signed := is_signed;
     ty_may_alias := false; ty_transparent_union_identity := None; ty_scalar_storage_order := 0;
     ty_scalar_storage_order_identity := None; ty_align_override := 0; ty_align_is_exact := false;
     ty_base := None; ty_has_size := false; ty_size := 0; ty_is_vla := false; ty_size_expr := None;
     ty_params := []; ty_variadic := false; ty_has_proto := false; ty_old_style_definition := false;
     ty_kr_definition := false; ty_old_style_params := []; ty_tag := None; ty_enum_repr := None |}.

Definition type_integer_with_precision (carrier : option CType) (precision : Z) (is_signed : bool) : option CType :=
  match carrier with
  | None => None
  | Some carrier =>
    if negb (type_is_integer carrier) || (precision =? 0) then None
    else
      match (if kind_is carrier TY_ENUM then type_enum_underlying st carrier else Some carrier) with
      | None => None
      | Some c =>
        option_map (fun k => with_precision k precision is_signed)
          match ty_kind c with
          | TY_CHAR | TY_SCHAR | TY_UCHAR => Some (if is_signed then TY_SCHAR else TY_UCHAR)
          | TY_SHORT | TY_USHORT => Some (if is_signed then TY_SHORT else TY_USHORT)
          | TY_INT | TY_UINT => Some (if is_signed then TY_INT else TY_UINT)
          | TY_LONG | TY_ULONG => Some (if is_signed then TY_LONG else TY_ULONG)
          | TY_LLONG | TY_ULLONG => Some (if is_signed then TY_LLONG else TY_ULLONG)
          | TY_INT128 | TY_UINT128 => Some (if is_signed then TY_INT128 else TY_UINT128)
          | _ => None
          end
      end
  end.

(** The unsigned type corresponding to a signed one. *)
Definition unsigned_counterpart (t : CType) : option CType :=
  if negb (ty_integer_precision t =? 0) then type_integer_with_precision (Some t) (ty_integer_precision t) false
  else Some match ty_kind t with
            | TY_SCHAR | TY_CHAR => type_basic TY_UCHAR
            | TY_SHORT => type_basic TY_USHORT
            | TY_INT => type_basic TY_UINT
            | TY_LONG => type_basic TY_ULONG
            | TY_LLONG => type_basic TY_ULLONG
            | TY_INT128 => type_basic TY_UINT128
            | _ => t
            end.

Fixpoint conv_promote_type (fuel : nat) (t : option CType) : option (option CType) :=
  match fuel with
  | O => None
  | S fuel =>
    let w := cgf_target_int_widths target in
    match t with
    | None => Some None
    | Some u =>
      if kind_is u TY_ENUM then conv_promote_type fuel (type_enum_underlying st u)
      else
        match conv_rank (S fuel) t, conv_int_bits (S fuel) t, conv_is_signed (S fuel) t with
        | Some rank, Some bits, Some sign =>
          if negb (type_is_integer u) || (3201 <=? rank) then Some (conv_strip_quals t)
          else if (bits <? int_bits w) || ((bits =? int_bits w) && sign) then Some (Some (type_basic TY_INT))
          else Some (Some (type_basic TY_UINT))
        | _, _, _ => None
        end
    end
  end.

Definition conv_promote_bitfield_type (fuel : nat) (t : option CType) (width : Z) (is_signed : bool) :
    option (option CType) :=
  let w := cgf_target_int_widths target in
  match t with
  | None => Some None
  | Some u =>
    if negb (type_is_integer u) then Some (conv_strip_quals t)
    else if int_bits w <? width then
      let carrier := conv_strip_quals t in
      match conv_int_bits fuel carrier with
      | None => None
      | Some bits => if width <? bits then option_map Some (type_integer_with_precision carrier width is_signed)
                     else Some carrier
      end
    else if (width <? int_bits w) || is_signed then Some (Some (type_basic TY_INT))
    else Some (Some (type_basic TY_UINT))
  end.
End integers.

(** ** The usual arithmetic conversions *)
Definition constexpr_format_of (target : TargetKind) (t : option CType) : SfFormat :=
  match t with
  | None => SF_BINARY64
  | Some t =>
    match ty_kind t with
    | TY_FLOAT16 => SF_BINARY16
    | TY_FLOAT | TY_FLOAT32 => SF_BINARY32
    | TY_DOUBLE | TY_FLOAT64 | TY_FLOAT32X => SF_BINARY64
    | TY_FLOAT128 => SF_BINARY128
    | TY_LDOUBLE | TY_FLOAT64X =>
      match ldbl_kind (cgf_target_layout target) with
      | CGF_LDBL_X87_80 => SF_X87_80
      | CGF_LDBL_IEEE128 => SF_BINARY128
      | CGF_LDBL_IS_DOUBLE => SF_BINARY64
      end
    | _ => SF_BINARY64
    end
  end.

Definition floating_rep_bits (target : TargetKind) (t : CType) : Z :=
  total_bytes (constexpr_format_of target (Some t)) * 8.

Definition floating_equal_rank (k : TypeKind) : Z :=
  match k with
  | TY_FLOAT16 => 3016
  | TY_FLOAT128 => 3128
  | TY_FLOAT64 => 3064
  | TY_FLOAT32 => 3032
  | TY_LDOUBLE => 2003
  | TY_DOUBLE => 2002
  | TY_FLOAT => 2001
  | TY_FLOAT64X => 1064
  | TY_FLOAT32X => 1032
  | _ => 0
  end.

Definition uac_floating (target : TargetKind) (a b : CType) : CType :=
  if negb (type_is_floating a) then type_basic (ty_kind b)
  else if negb (type_is_floating b) then type_basic (ty_kind a)
  else
    let af := type_basic (ty_kind a) in
    let bf := type_basic (ty_kind b) in
    if bool_decide (ty_kind af = ty_kind bf) then af
    else
      let abits := floating_rep_bits target af in
      let bbits := floating_rep_bits target bf in
      if negb (abits =? bbits) then (if bbits <? abits then af else bf)
      else if floating_equal_rank (ty_kind bf) <=? floating_equal_rank (ty_kind af) then af else bf.

Section uac.
  Context (target : TargetKind) (st : Tags) (same : CType -> CType -> bool) (fuel : nat).

(** The integer half, after promotion: 6.3.1.8 (a) to (e). *)
Definition uac_integer (a b : CType) : option CType :=
  match type_compatible fuel st same (Some a) (Some b) with
  | None => None
  | Some true => Some a
  | Some false =>
    match conv_rank st fuel (Some a), conv_rank st fuel (Some b),
          conv_is_signed target st fuel (Some a), conv_is_signed target st fuel (Some b) with
    | Some ra, Some rb, Some sa, Some sb =>
      if Bool.eqb sa sb then Some (if rb <=? ra then a else b)
      else
        let uns := if sa then b else a in
        let sig := if sa then a else b in
        let runs := if sa then rb else ra in
        let rsig := if sa then ra else rb in
        if rsig <=? runs then Some uns
        else match conv_int_bits target st fuel (Some sig), conv_int_bits target st fuel (Some uns) with
             | Some bsig, Some buns => if buns <? bsig then Some sig else unsigned_counterpart st sig
             | _, _ => None
             end
    | _, _, _, _ => None
    end
  end.

Definition conv_uac_type (a b : option CType) : option (option CType) :=
  match a, b with
  | None, _ => Some b
  | _, None => Some a
  | Some ta, Some tb =>
    if kind_is ta TY_ERROR || kind_is tb TY_ERROR then Some (Some (type_basic TY_ERROR))
    else if type_is_floating ta || type_is_floating tb then Some (Some (uac_floating target ta tb))
    else match conv_promote_type target st fuel a, conv_promote_type target st fuel b with
         | Some (Some pa), Some (Some pb) => option_map Some (uac_integer pa pb)
         | _, _ => None
         end
  end.
End uac.

(** Integer promotion keeps every value, and the common type of two integer
    operands is the one the standard asks for: signed only when it holds every
    value of both, unsigned only when neither signed candidate does. *)

(** The values an integer of [bits] bits holds. *)
Definition in_range (sign : bool) (bits v : Z) : Prop :=
  if sign then - 2 ^ (bits - 1) <= v < 2 ^ (bits - 1) else 0 <= v < 2 ^ bits.

Lemma in_range_wider s b s' b' v : in_range s b v -> 0 < b -> (b < b' \/ b = b' /\ s = s') -> (s = true -> s' = true) ->
  in_range s' b' v.
Proof.
  intros H Hb Hle Hs. destruct Hle as [Hlt|[<- <-]]; [|done].
  unfold in_range in *. destruct s, s'.
  - pose proof (Z.pow_le_mono_r 2 (b - 1) (b' - 1)). lia.
  - by specialize (Hs eq_refl).
  - pose proof (Z.pow_le_mono_r 2 b (b' - 1)). pose proof (Z.pow_pos_nonneg 2 (b' - 1)). lia.
  - pose proof (Z.pow_le_mono_r 2 b b'). lia.
Qed.

(** The signed type of [b] bits misses the values of an unsigned one at least as wide. *)
Lemma in_range_unsigned_top b b' : 0 < b -> b <= b' -> in_range false b' (2 ^ b' - 1) /\ ~ in_range true b (2 ^ b' - 1).
Proof.
  intros Hb Hle. unfold in_range. pose proof (Z.pow_pos_nonneg 2 b' ltac:(lia) ltac:(lia)).
  pose proof (Z.pow_lt_mono_r 2 (b - 1) b' ltac:(lia) ltac:(lia) ltac:(lia)). lia.
Qed.

Section conv.
  Context (target : TargetKind) (st : Tags).

(** An integer type that is no enumeration, and one that leads to such a type
    through at most [n] enumerations. *)
Definition basic (t : CType) : Prop := kind_in t TY_BOOL TY_UINT128 = true /\ 0 <= ty_integer_precision t.

Inductive int_type : nat -> CType -> Prop :=
| it_basic n t : basic t -> int_type (S n) t
| it_enum n t u : ty_kind t = TY_ENUM -> ty_integer_precision t = 0 -> type_enum_underlying st t = Some u ->
    int_type n u -> int_type (S n) t.

Definition represents (t : CType) (v : Z) : Prop :=
  exists n s b, conv_is_signed target st n (Some t) = Some s /\ conv_int_bits target st n (Some t) = Some b /\
    in_range s b v.

(** ** One integer type *)
Definition rank (t : CType) : Z := default 0 (conv_rank st 1 (Some t)).
Definition sign (t : CType) : bool := default false (conv_is_signed target st 1 (Some t)).
Definition width (t : CType) : Z := default 0 (conv_int_bits target st 1 (Some t)).

Ltac kinds t K := destruct (ty_kind t) eqn:K; try discriminate.

Lemma basic_not_enum t : basic t -> kind_is t TY_ENUM = false.
Proof. intros [H _]. unfold kind_is, kind_in in *. by kinds t K. Qed.

Lemma basic_integer t : basic t -> type_is_integer t = true.
Proof. intros [H _]. unfold type_is_integer. by rewrite H. Qed.

Lemma basic_equations n t : basic t ->
  conv_rank st (S n) (Some t) = Some (rank t) /\ conv_is_signed target st (S n) (Some t) = Some (sign t) /\
  conv_int_bits target st (S n) (Some t) = Some (width t).
Proof.
  intros [H _]. unfold rank, sign, width, kind_in in *. simpl. destruct (negb _); [done|]. by kinds t K.
Qed.

(** The width of a type is its rank in hundreds. *)
Lemma basic_width t : basic t -> width t = rank t / 100 /\ 0 < width t.
Proof.
  intros [H Hp]. unfold rank, width, kind_in in *. simpl.
  destruct (Z.eqb_spec (ty_integer_precision t) 0); simpl.
  - kinds t K; split; reflexivity.
  - rewrite Z.div_mul by done. lia.
Qed.

Lemma basic_represents t v : basic t -> represents t v <-> in_range (sign t) (width t) v.
Proof.
  intros H. split.
  - intros ([|n] & s & b & Hs & Hb & Hv); [done|]. destruct (basic_equations n t H) as (_ & Es & Eb).
    rewrite Es in Hs. rewrite Eb in Hb. by injection Hs as <-; injection Hb as <-.
  - intros Hv. destruct (basic_equations 0 t H) as (_ & Es & Eb). by exists 1%nat, (sign t), (width t).
Qed.

Lemma basic_quals t q : basic t -> basic (with_quals t q) /\ rank (with_quals t q) = rank t /\
  sign (with_quals t q) = sign t /\ width (with_quals t q) = width t.
Proof.
  intros [H Hp]. split; [done|]. unfold rank, sign, width, kind_in in *. simpl. destruct (negb _); [done|].
  by kinds t K.
Qed.

Lemma represents_enum t u v : ty_kind t = TY_ENUM -> ty_integer_precision t = 0 ->
  type_enum_underlying st t = Some u -> represents t v -> represents u v.
Proof.
  intros K Pr E ([|n] & s & b & Hs & Hb & Hv); [done|]. simpl in Hs, Hb.
  rewrite Pr, K, E in Hs, Hb. by exists n, s, b.
Qed.

(** ** Promotion *)

(** What a promoted integer type is. *)
Record promoted (t p : CType) : Prop := {
  promoted_basic : basic p;
  promoted_quals : ty_quals p = 0;
  promoted_rank : 3201 <= rank p;
  promoted_values v : represents t v -> represents p v
}.

Lemma strip_basic t : basic t -> exists p, conv_strip_quals (Some t) = Some p /\ basic p /\ ty_quals p = 0 /\
  rank p = rank t /\ sign p = sign t /\ width p = width t.
Proof.
  intros H. simpl. destruct (Z.eqb_spec (ty_quals t) 0); [by exists t|].
  destruct (basic_quals t 0 H) as (? & ? & ? & ?). by exists (with_quals t 0).
Qed.

Lemma promote_basic n t : basic t -> exists p, conv_promote_type target st (S n) (Some t) = Some (Some p) /\ promoted t p.
Proof.
  intros H. destruct (basic_equations n t H) as (Er & Es & Eb). destruct (basic_width t H) as [Hw Hpos].
  cbn [conv_promote_type]. rewrite (basic_not_enum t H), Er, Es, Eb, (basic_integer t H). cbn [negb orb int_bits cgf_target_int_widths].
  destruct (Z.leb_spec 3201 (rank t)) as [Hr|Hr].
  - destruct (strip_basic t H) as (p & -> & Hp & Q & Er' & Es' & Eb'). exists p. split; [done|]. split; [done..|lia|].
    intros v. rewrite !basic_represents by done. by rewrite Es', Eb'.
  - assert (Hle : width t <= 32).
    { rewrite Hw. apply Z.div_le_upper_bound; lia. }
    destruct ((width t <? 32) || ((width t =? 32) && sign t)) eqn:E.
    + eexists. split; [done|]. split; [done|done|by compute|].
      intros v. rewrite !basic_represents by done. intros Hv. change (width (type_basic TY_INT)) with 32.
      change (sign (type_basic TY_INT)) with true.
      apply (in_range_wider (sign t) (width t)); [done|done| |done].
      destruct (sign t); [|lia]. destruct (Z.eq_dec (width t) 32); [by right|left; lia].
    + eexists. split; [done|]. split; [done|done|by compute|].
      intros v. rewrite !basic_represents by done. change (width (type_basic TY_UINT)) with 32.
      change (sign (type_basic TY_UINT)) with false.
      assert (Hw' : width t = 32) by lia. rewrite Hw' in *. destruct (sign t); [done|]. done.
Qed.

Lemma promote_int n i t : int_type i t -> (i <= n)%nat ->
  exists p, conv_promote_type target st n (Some t) = Some (Some p) /\ promoted t p.
Proof.
  intros H. revert n. induction H as [i t Hb|i t u K Pr E H IH]; intros [|n] Hn; try lia.
  - by apply promote_basic.
  - destruct (IH n ltac:(lia)) as (p & Ep & Hp). exists p. split.
    + cbn [conv_promote_type]. unfold kind_is. rewrite K, bool_decide_eq_true_2, E by done. done.
    + destruct Hp as [B Q R V]. split; [done..|]. intros v Hv. apply V. by apply (represents_enum t u).
Qed.

(** ** The common type *)

(** Two basic types alike in what the conversions look at. *)
Definition alike (a b : CType) : Prop := rank a = rank b /\ sign a = sign b /\ width a = width b.

Lemma basic_compatible same n a b : pointer_equality same -> basic a -> basic b -> ty_quals a = 0 -> ty_quals b = 0 ->
  exists r, type_compatible (S n) st same (Some a) (Some b) = Some r /\ (r = true -> alike a b).
Proof.
  intros P Ha Hb Qa Qb. simpl. unfold node_compatible.
  destruct (same a b) eqn:S; [exists true; split; [done|]; by apply (same_eq _ P) in S as <-|].
  assert (Ea : kind_is a TY_ERROR = false) by (destruct Ha as [Ha _]; unfold kind_in, kind_is in *; by kinds a K).
  assert (Eb : kind_is b TY_ERROR = false) by (destruct Hb as [Hb _]; unfold kind_in, kind_is in *; by kinds b K).
  rewrite Ea, Eb, Qa, Qb, (basic_not_enum a Ha), (basic_not_enum b Hb). simpl.
  destruct (Z.eqb_spec (ty_integer_precision a) 0) as [Pa|Pa], (Z.eqb_spec (ty_integer_precision b) 0) as [Pb|Pb]; simpl;
    try (by exists false).
  - destruct (bool_decide_reflect (ty_kind a = ty_kind b)) as [K|]; [|by exists false]. exists true.
    destruct Ha as [Ha _]. unfold kind_compatible, alike, rank, sign, width, kind_in in *. simpl. rewrite <- K, Pa, Pb.
    split; [|done]. by kinds a Ka.
  - eexists. split; [done|]. intros [E1 E2]%andb_true_iff. apply Z.eqb_eq in E1. apply eqb_prop in E2.
    unfold alike, rank, sign, width. simpl. by rewrite <- E1, <- E2, (proj2 (Z.eqb_neq _ _) Pa).
Qed.

(** [r] is the common type of the promoted types [a] and [b]. *)
Record common (a b r : CType) : Prop := {
  common_basic : basic r;
  common_quals : ty_quals r = 0;
  common_rank : rank r = Z.max (rank a) (rank b);
  common_signed : sign r = true -> forall v, represents a v \/ represents b v -> represents r v;
  common_unsigned : sign r = false -> width a <= width r /\ width b <= width r /\
    forall c, c = a \/ c = b -> sign c = true -> exists v, (represents a v \/ represents b v) /\ ~ represents c v
}.

Lemma common_sym a b r : common a b r -> common b a r.
Proof.
  intros [B Q R S U]. split; try done; [lia|intros H v Hv; apply S; tauto|].
  intros H. destruct (U H) as (U1 & U2 & U3). split_and!; try done. intros c Hc Hs.
  destruct (U3 c ltac:(tauto) Hs) as (v & Hv & Hn). exists v. split; [tauto|done].
Qed.

Lemma rank_width a b : basic a -> basic b -> rank a <= rank b -> width a <= width b.
Proof. intros Ha Hb H. rewrite (proj1 (basic_width a Ha)), (proj1 (basic_width b Hb)). apply Z.div_le_mono; lia. Qed.

(** Promoted types are as wide as they rank, but for the two 64-bit ranks. *)
Lemma rank_values a b v : basic a -> basic b -> sign a = sign b -> rank a <= rank b -> represents a v -> represents b v.
Proof.
  intros Ha Hb Hs Hr. rewrite !basic_represents by done. intros Hv.
  pose proof (rank_width a b Ha Hb Hr). pose proof (proj2 (basic_width a Ha)).
  apply (in_range_wider (sign a) (width a)); [done|done| |congruence].
  destruct (Z.eq_dec (width a) (width b)); [by right|left; lia].
Qed.

Lemma common_same_sign a b : basic a -> basic b -> ty_quals b = 0 -> sign a = sign b -> rank a <= rank b -> common a b b.
Proof.
  intros Ha Hb Q Hs Hr. split; [done|done|lia| |].
  - intros _ v [Hv|Hv]; [|done]. by apply (rank_values a).
  - intros H. split_and!; [by apply rank_width|done|]. intros c [-> | ->] Hc; congruence.
Qed.

(** A signed type [a] and an unsigned type [b] at least as wide. *)
Lemma signed_loses a b c : basic a -> basic b -> sign a = true -> sign b = false -> width a <= width b ->
  c = a \/ c = b -> sign c = true -> exists v, (represents a v \/ represents b v) /\ ~ represents c v.
Proof.
  intros Ha Hb Sa Sb Hw [-> | ->] Hc; [|congruence].
  destruct (in_range_unsigned_top (width a) (width b) (proj2 (basic_width a Ha)) Hw) as [H1 H2].
  exists (2 ^ width b - 1). rewrite !basic_represents by done. rewrite Sa, Sb. split; [by right|done].
Qed.

Lemma common_unsigned_wins a b : basic a -> basic b -> ty_quals b = 0 -> sign a = true -> sign b = false ->
  rank a <= rank b -> common a b b.
Proof.
  intros Ha Hb Q Sa Sb Hr. pose proof (rank_width a b Ha Hb Hr). split; [done|done|lia|congruence|].
  intros _. split_and!; [done|done|]. intros c Hc Hs. by apply signed_loses.
Qed.

Lemma common_signed_wins a b : basic a -> basic b -> ty_quals a = 0 -> sign a = true -> sign b = false ->
  rank b <= rank a -> width b < width a -> common a b a.
Proof.
  intros Ha Hb Q Sa Sb Hr Hw. split; [done|done|lia| |congruence].
  intros _ v [Hv|Hv]; [done|]. rewrite !basic_represents in * by done. rewrite Sa, Sb in *.
  apply (in_range_wider false (width b)); [done|apply basic_width; done|by left|done].
Qed.

(** The signed type of higher rank but no more bits is a standard one. *)
Lemma counterpart_common a b : basic a -> basic b -> 3201 <= rank b -> sign a = true -> sign b = false ->
  rank b < rank a -> width a <= width b -> exists r, unsigned_counterpart st a = Some r /\ common a b r.
Proof.
  intros Ha Hb Rb Sa Sb Hr Hw.
  destruct (basic_width a Ha) as [Wa Pa]. destruct (basic_width b Hb) as [Wb Pb].
  assert (Hz : ty_integer_precision a = 0).
  { destruct (Z.eq_dec (ty_integer_precision a) 0) as [|Hz]; [done|].
    assert (Er : rank a = ty_integer_precision a * 100).
    { unfold rank. simpl. by rewrite (proj2 (Z.eqb_neq _ _) Hz). }
    rewrite Er, Z.div_mul in Wa by done. rewrite Wa, Wb in Hw.
    pose proof (Z.div_lt_upper_bound (rank b) 100 (ty_integer_precision a)). lia. }
  assert (Hc : exists r, unsigned_counterpart st a = Some r /\ basic r /\ ty_quals r = 0 /\ rank r = rank a /\
            sign r = false /\ width r = width a).
  { destruct Ha as [Ha _]. unfold unsigned_counterpart, rank, sign, width, kind_in in *. simpl in *.
    rewrite Hz in *. simpl in *. kinds a K; simpl in *; try lia; try discriminate; eexists; split_and!; done. }
  destruct Hc as (r & Er & Br & Qr & Rr & Sr & Wr). exists r. split; [done|].
  split; [done|done|lia|congruence|]. intros _. assert (width b <= width a) by (apply rank_width; (done || lia)).
  split_and!; [lia|lia|]. intros c Hc Hs. by apply (signed_loses a b).
Qed.

Lemma uac_integer_common same n a b : pointer_equality same -> basic a -> basic b -> ty_quals a = 0 -> ty_quals b = 0 ->
  3201 <= rank a -> 3201 <= rank b -> exists r, uac_integer target st same (S n) a b = Some r /\ common a b r.
Proof.
  intros P Ha Hb Qa Qb Ra Rb. unfold uac_integer.
  destruct (basic_compatible same n a b P Ha Hb Qa Qb) as (r & -> & Hr).
  destruct r.
  { destruct (Hr eq_refl) as (E1 & E2 & _). exists a. split; [done|]. apply common_sym, common_same_sign; (done || lia). }
  destruct (basic_equations n a Ha) as (-> & -> & _). destruct (basic_equations n b Hb) as (-> & -> & _).
  destruct (Bool.eqb (sign a) (sign b)) eqn:Sg.
  { apply eqb_prop in Sg. destruct (Z.leb_spec (rank b) (rank a)) as [Hle|Hgt]; eexists; (split; [done|]).
    - by apply common_sym, common_same_sign.
    - apply common_same_sign; (done || lia). }
  destruct (sign a) eqn:Sa, (sign b) eqn:Sb; try discriminate Sg.
  - destruct (Z.leb_spec (rank a) (rank b)) as [Hle|Hgt]; [exists b; split; [done|]; by apply common_unsigned_wins|].
    destruct (basic_equations n a Ha) as (_ & _ & ->). destruct (basic_equations n b Hb) as (_ & _ & ->).
    destruct (Z.ltb_spec (width b) (width a)).
    + exists a. split; [done|]. apply common_signed_wins; (done || lia).
    + by apply counterpart_common.
  - destruct (Z.leb_spec (rank b) (rank a)) as [Hle|Hgt];
      [exists a; split; [done|]; by apply common_sym, common_unsigned_wins|].
    destruct (basic_equations n a Ha) as (_ & _ & ->). destruct (basic_equations n b Hb) as (_ & _ & ->).
    destruct (Z.ltb_spec (width a) (width b)).
    + exists b. split; [done|]. apply common_sym, common_signed_wins; (done || lia).
    + destruct (counterpart_common b a) as (r & Er & Hc); try done. exists r. split; [done|]. by apply common_sym.
Qed.

(** Two common types of the same operands are alike. *)
Lemma common_alike a b r r' : basic a -> basic b -> common a b r -> common a b r' -> alike r r'.
Proof.
  intros Ha Hb H H'. assert (Hr : rank r = rank r') by (rewrite (common_rank _ _ _ H), (common_rank _ _ _ H'); done).
  pose proof (common_basic _ _ _ H) as Br. pose proof (common_basic _ _ _ H') as Br'.
  split; [done|]. split.
  2:{ by rewrite (proj1 (basic_width r Br)), (proj1 (basic_width r' Br')), Hr. }
  assert (Hw : forall x y, basic x -> basic y -> rank x = rank y -> sign x = true -> sign y = false ->
            common a b x -> common a b y -> False).
  2:{ destruct (sign r) eqn:S, (sign r') eqn:S'; try done; exfalso; [by apply (Hw r r')|by apply (Hw r' r)]. }
  clear H H' Br Br' Hr r r'. intros x y Bx By Hr Sx Sy Hx Hy.
  pose proof (common_signed _ _ _ Hx Sx) as Hsx. destruct (common_unsigned _ _ _ Hy Sy) as (W1 & W2 & Hu).
  assert (Hm : forall c, c = a \/ c = b -> rank c = rank x -> False).
  { intros c Hc Hcr. assert (Bc : basic c) by (destruct Hc as [-> | ->]; done).
    destruct (sign c) eqn:Sc.
    - destruct (Hu c Hc Sc) as (v & Hv & Hn). apply Hn. apply (rank_values x c); [done|done|congruence|lia|by apply Hsx].
    - pose proof (rank_width x c Bx Bc ltac:(lia)) as Hwc.
      destruct (in_range_unsigned_top (width x) (width c) (proj2 (basic_width x Bx)) Hwc) as [I1 I2]. apply I2.
      rewrite <- Sx, <- basic_represents by done. apply Hsx. destruct Hc as [-> | ->]; [left|right];
        rewrite basic_represents by done; by rewrite Sc. }
  pose proof (common_rank _ _ _ Hx) as R. destruct (Z.max_spec (rank a) (rank b)) as [[_ E]|[_ E]]; rewrite E in R.
  - apply (Hm b); [by right|done].
  - apply (Hm a); [by left|done].
Qed.
End conv.
