(* ===== verification/ConvExpr.v ===== *)
(** The conversions on expressions, second half of [sema/conv.c]: implicit casts,
    lvalue conversion, decay, promotion, null pointer constants and assignment
    in its four contexts.

    A node is owned by the slot that holds it, so setting a field of it in place
    returns the node that replaces it. What [constexpr_eval] answers is a
    parameter: whether an expression folds to the integer zero. *)
From stdpp Require Import base gmap list.
From S2P Require Import Prelude Softfp Pptok Ctype Compat CompatFacts Conv.

(** ** Expressions *)
Record ExprAttrs := mkAttrs {
  sem_type : option CType;
  is_lvalue : bool;
  sem_is_bitfield : bool;
  sem_bitfield_width : Z;
  sem_bitfield_is_signed : bool;
  sem_lvalue_align : Z;
  sem_reverse_storage_order : bool;
  poisoned : bool
}.

Inductive AstNode :=
| AST_EXPR (id : positive) (a : ExprAttrs)
| AST_EXPR_PAREN (a : ExprAttrs) (lhs : AstNode)
| AST_EXPR_CAST (implicit : bool) (a : ExprAttrs) (lhs : AstNode).

Definition attrs (e : AstNode) : ExprAttrs :=
  match e with AST_EXPR _ a | AST_EXPR_PAREN a _ | AST_EXPR_CAST _ a _ => a end.

Definition set_attrs (e : AstNode) (a : ExprAttrs) : AstNode :=
  match e with
  | AST_EXPR id _ => AST_EXPR id a
  | AST_EXPR_PAREN _ l => AST_EXPR_PAREN a l
  | AST_EXPR_CAST i _ l => AST_EXPR_CAST i a l
  end.

Definition e_type (e : AstNode) : option CType := sem_type (attrs e).

(** ** Diagnostics *)
Inductive WarnId := WARN_SCALAR_STORAGE_ORDER | WARN_DISCARDED_QUALIFIERS | WARN_INCOMPATIBLE_POINTER_TYPES
  | WARN_INT_CONVERSION.
Inductive Diag := Warn (w : WarnId) | DIAG_ERROR.

(** A step that may log, or not return. *)
Definition Conv (A : Type) := list Diag -> option (A * list Diag).
Definition cret {A} (a : A) : Conv A := fun l => Some (a, l).
Definition cbind {A B} (m : Conv A) (k : A -> Conv B) : Conv B :=
  fun l => match m l with Some (a, l) => k a l | None => None end.
Definition clift {A} (o : option A) : Conv A := fun l => option_map (fun a => (a, l)) o.
Definition log (d : Diag) : Conv unit := fun l => Some (tt, l ++ [d]).

Declare Scope conv_scope.
Delimit Scope conv_scope with conv.
Notation "'let!' x ':=' m 'in' k" := (cbind m (fun x => k))
  (at level 10, x name, m at level 100, k at level 200) : conv_scope.
Notation "'do!' m 'in' k" := (cbind m (fun _ => k)) (at level 10, m at level 100, k at level 200) : conv_scope.
#[local] Open Scope conv_scope.

Inductive AssignCtxKind := ACTX_ASSIGN | ACTX_INIT | ACTX_ARG | ACTX_RETURN.

(** [type_ptr]. *)
Definition type_ptr (pointee : option CType) : CType :=
  {| ty_kind := TY_PTR; ty_quals := 0; ty_integer_precision := 0; ty_integer_is_signed := false;
     ty_may_alias := false; ty_transparent_union_identity := None; ty_scalar_storage_order := 0;
     ty_scalar_storage_order_identity := None; ty_align_override := 0; ty_align_is_exact := false;
     ty_base := pointee; ty_has_size := false; ty_size := 0; ty_is_vla := false; ty_size_expr := None;
     ty_params := []; ty_variadic := false; ty_has_proto := false; ty_old_style_definition := false;
     ty_kr_definition := false; ty_old_style_params := []; ty_tag := None; ty_enum_repr := None |}.

Section conv.
  Context (target : TargetKind) (st : Tags) (same : CType -> CType -> bool) (fuel : nat).
  Context (folds_to_zero : AstNode -> bool).

Definition type_compatible' (a b : option CType) : option bool := type_compatible fuel st same a b.

(** Whether [conv_cast] makes a node. *)
Definition needs_cast (e : AstNode) (to : option CType) : option bool :=
  match to with None => Some false | Some _ => option_map negb (type_compatible' (e_type e) to) end.

Definition cast_node (e : AstNode) (to : option CType) : AstNode :=
  AST_EXPR_CAST true
    {| sem_type := to; is_lvalue := false; sem_is_bitfield := false; sem_bitfield_width := 0;
       sem_bitfield_is_signed := false; sem_lvalue_align := 0; sem_reverse_storage_order := false;
       poisoned := poisoned (attrs e) |} e.

Definition conv_cast (e : AstNode) (to : option CType) : option AstNode :=
  option_map (fun b : bool => if b then cast_node e to else e) (needs_cast e to).

(** ** Lvalue conversion and decay *)
Definition not_lvalue (e : AstNode) : AstNode :=
  let a := attrs e in
  set_attrs e {| sem_type := sem_type a; is_lvalue := false; sem_is_bitfield := sem_is_bitfield a;
    sem_bitfield_width := sem_bitfield_width a; sem_bitfield_is_signed := sem_bitfield_is_signed a;
    sem_lvalue_align := sem_lvalue_align a; sem_reverse_storage_order := sem_reverse_storage_order a;
    poisoned := poisoned a |}.

(** The cast of a lvalue conversion remembers the bit-field it reads. *)
Definition carry_bitfield (c e : AstNode) : AstNode :=
  let a := attrs c in let b := attrs e in
  set_attrs c {| sem_type := sem_type a; is_lvalue := is_lvalue a;
    sem_is_bitfield := if sem_is_bitfield b then true else sem_is_bitfield a;
    sem_bitfield_width := if sem_is_bitfield b then sem_bitfield_width b else sem_bitfield_width a;
    sem_bitfield_is_signed := if sem_is_bitfield b then sem_bitfield_is_signed b else sem_bitfield_is_signed a;
    sem_lvalue_align := sem_lvalue_align a; sem_reverse_storage_order := sem_reverse_storage_order b;
    poisoned := poisoned a |}.

Definition conv_lvalue (e : AstNode) : option AstNode :=
  match e_type e with
  | None => Some e
  | Some t =>
    if negb (is_lvalue (attrs e)) then Some e
    else if negb (ty_quals t =? 0) then
      let to := conv_strip_quals (Some t) in
      option_map (fun b : bool => if b then carry_bitfield (cast_node e to) e else e) (needs_cast e to)
    else Some (not_lvalue e)
  end.

(** An array cast to a pointer keeps what is known of its address. *)
Definition carry_address (c e : AstNode) : AstNode :=
  let a := attrs c in
  set_attrs c {| sem_type := sem_type a; is_lvalue := false; sem_is_bitfield := sem_is_bitfield a;
    sem_bitfield_width := sem_bitfield_width a; sem_bitfield_is_signed := sem_bitfield_is_signed a;
    sem_lvalue_align := sem_lvalue_align (attrs e);
    sem_reverse_storage_order := sem_reverse_storage_order (attrs e); poisoned := poisoned a |}.

Definition conv_decay_impl (e : AstNode) (warn_storage_order : bool) : Conv AstNode :=
  match e_type e with
  | None => cret e
  | Some t =>
    match ty_kind t with
    | TY_ARRAY =>
      do! (if warn_storage_order && sem_reverse_storage_order (attrs e) then log (Warn WARN_SCALAR_STORAGE_ORDER)
           else cret tt) in
      let elem := if ty_may_alias t then option_map type_may_alias (ty_base t) else ty_base t in
      let! c := clift (conv_cast e (Some (type_ptr elem))) in
      cret (carry_address c e)
    | TY_FUNC =>
      let! c := clift (conv_cast e (Some (type_ptr (Some t)))) in
      cret (not_lvalue c)
    | _ => clift (conv_lvalue e)
    end
  end.

Definition conv_decay (e : AstNode) : Conv AstNode := conv_decay_impl e true.
Definition conv_decay_subscript (e : AstNode) : Conv AstNode := conv_decay_impl e false.

(** ** Promotion and the usual arithmetic conversions *)
Definition conv_unpromoted_integer_expr_type (e : AstNode) : option (option CType) :=
  match e_type e with
  | None => Some None
  | Some u =>
    let t := conv_strip_quals (Some u) in
    let a := attrs e in
    if sem_is_bitfield a && negb (sem_bitfield_width a =? 0) && type_is_integer u
    then option_map Some (type_integer_with_precision st t (sem_bitfield_width a) (sem_bitfield_is_signed a))
    else Some t
  end.

Definition conv_promote_expr_type (e : AstNode) : option (option CType) :=
  let a := attrs e in
  if sem_is_bitfield a
  then conv_promote_bitfield_type target st fuel (sem_type a) (sem_bitfield_width a) (sem_bitfield_is_signed a)
  else conv_promote_type target st fuel (sem_type a).

Definition conv_promote (e : AstNode) : Conv AstNode :=
  match e_type e with
  | None => cret e
  | Some _ =>
    let! promoted := clift (conv_promote_expr_type e) in
    let! e := conv_decay e in
    clift (conv_cast e promoted)
  end.

Definition conv_uac (a b : AstNode) : Conv (option CType * AstNode * AstNode) :=
  let! ap := clift (conv_promote_expr_type a) in
  let! bp := clift (conv_promote_expr_type b) in
  let! a := conv_decay a in
  let! b := conv_decay b in
  let! result := clift (conv_uac_type target st same fuel ap bp) in
  let! a := clift (conv_cast a result) in
  let! b := clift (conv_cast b result) in
  cret (result, a, b).

Definition conv_to_bool (e : AstNode) : Conv AstNode :=
  match e_type e with
  | None => cret e
  | Some _ => let! e := conv_decay e in clift (conv_cast e (Some (type_basic TY_BOOL)))
  end.

(** ** Null pointer constants *)
Definition is_plain_void_ptr (t : option CType) : bool :=
  match t with
  | Some t => kind_is t TY_PTR && match ty_base t with Some b => kind_is b TY_VOID && (ty_quals b =? 0) | None => false end
  | None => false
  end.

Definition is_zero_ice (e : AstNode) : bool :=
  match e_type e with Some t => type_is_integer t && folds_to_zero e | None => false end.

Fixpoint conv_is_npc (e : AstNode) : bool :=
  match e with
  | AST_EXPR_PAREN _ l | AST_EXPR_CAST true _ l => conv_is_npc l
  | AST_EXPR_CAST false a l => if is_plain_void_ptr (sem_type a) then conv_is_npc l else is_zero_ice e
  | AST_EXPR _ _ => is_zero_ice e
  end.

(** ** Assignment *)
Definition pointee_quals (t : option CType) : Z := match t with Some t => ty_quals t | None => 0 end.

Definition pointee_quals_ok (lhs_pointee rhs_pointee : option CType) : bool :=
  Z.land (pointee_quals rhs_pointee) (Z.lnot (pointee_quals lhs_pointee)) =? 0.

Definition is_void_ptr (t : CType) : bool :=
  kind_is t TY_PTR && match ty_base t with Some b => kind_is b TY_VOID | None => false end.

Definition is_object_ptr (t : CType) : bool :=
  kind_is t TY_PTR && match ty_base t with Some b => negb (kind_is b TY_FUNC) | None => false end.

(** The members of a union, in order, and the first that passes a test. *)
Definition union_members (t : CType) : list Member :=
  match tag_of st t with Some td => tag_members td | None => [] end.

Fixpoint find_member (test : Member -> option bool) (ms : list Member) : option (option Member) :=
  match ms with
  | [] => Some None
  | m :: ms => match test m with
               | Some true => Some (Some m)
               | Some false => find_member test ms
               | None => None
               end
  end.

Definition type_union_cast_member (u operand : option CType) : option (option Member) :=
  match u, operand with
  | Some u, Some operand =>
    if negb (kind_is u TY_UNION) then Some None
    else find_member (fun m =>
      match m_type m with
      | Some mt => if m_is_bitfield m || negb (bool_decide (ty_kind mt = ty_kind operand)) then Some false
                   else type_compatible' (unqual (Some mt)) (unqual (Some operand))
      | None => Some false
      end) (union_members u)
  | _, _ => Some None
  end.

Definition pointer_bridge (rhs : AstNode) (rt : CType) (m : Member) : option bool :=
  match m_type m with
  | Some mt =>
    if m_is_bitfield m || negb (kind_is mt TY_PTR) then Some false
    else if type_is_integer rt && conv_is_npc rhs then Some true
    else if negb (kind_is rt TY_PTR) then Some false
    else or_else (type_compatible' (conv_strip_quals (ty_base mt)) (conv_strip_quals (ty_base rt)))
           (Some ((is_void_ptr mt && is_object_ptr rt) || (is_void_ptr rt && is_object_ptr mt)))
  | None => Some false
  end.

Definition transparent_union_arg_member (u : CType) (rhs : AstNode) : option (option Member) :=
  match type_transparent_union_first_member st (Some u), e_type rhs with
  | Some _, Some rt =>
    match type_union_cast_member (Some u) (Some rt) with
    | None => None
    | Some (Some m) => Some (Some m)
    | Some None => find_member (pointer_bridge rhs rt) (union_members u)
    end
  | _, _ => Some None
  end.

(** The pointer cases: warn where a qualifier or the pointee does not fit. *)
Definition assign_pointer (lhs : CType) (rhs : AstNode) (rt : CType) : Conv AstNode :=
  let void := (is_void_ptr lhs && is_object_ptr rt) || (is_void_ptr rt && is_object_ptr lhs) in
  let! fits := (if void then cret true
                else clift (type_compatible' (conv_strip_quals (ty_base lhs)) (conv_strip_quals (ty_base rt)))) in
  do! (if negb fits then log (Warn WARN_INCOMPATIBLE_POINTER_TYPES)
       else if pointee_quals_ok (ty_base lhs) (ty_base rt) then cret tt else log (Warn WARN_DISCARDED_QUALIFIERS)) in
  clift (conv_cast rhs (Some lhs)).

Definition is_aggregate (t : CType) : bool := kind_is t TY_STRUCT || kind_is t TY_UNION.
Definition type_is_arithmetic (t : CType) : bool := type_is_integer t || type_is_floating t.

(** What follows the argument and vector cases of [conv_assignable]. *)
Definition assign_scalar (lhs : CType) (rhs : AstNode) (rt : CType) : Conv (bool * AstNode) :=
  let ok m := let! e := m in cret (true, e) in
  if kind_is lhs TY_BOOL && (type_is_arithmetic rt || kind_is rt TY_PTR) then ok (conv_to_bool rhs)
  else if type_is_arithmetic lhs && type_is_arithmetic rt then ok (clift (conv_cast rhs (conv_strip_quals (Some lhs))))
  else if kind_is lhs TY_PTR && kind_is rt TY_PTR then ok (assign_pointer lhs rhs rt)
  else if kind_is lhs TY_PTR && type_is_integer rt then
    do! (if conv_is_npc rhs then cret tt else log (Warn WARN_INT_CONVERSION)) in
    ok (clift (conv_cast rhs (Some lhs)))
  else if type_is_integer lhs && kind_is rt TY_PTR then
    do! log (Warn WARN_INT_CONVERSION) in ok (clift (conv_cast rhs (Some lhs)))
  else
    let! fits := (if is_aggregate lhs || is_aggregate rt
                  then clift (type_compatible' (conv_strip_quals (Some lhs)) (conv_strip_quals (Some rt)))
                  else cret false) in
    if fits : bool then cret (true, rhs) else do! log DIAG_ERROR in cret (false, rhs).

Definition assign_vector (lhs : CType) (rhs : AstNode) (rt : CType) : Conv (bool * AstNode) :=
  let to := conv_strip_quals (Some lhs) in
  let! fits := clift (type_compatible' to (conv_strip_quals (Some rt))) in
  if fits : bool then let! e := clift (conv_cast rhs to) in cret (true, e)
  else if type_is_integer rt then
    let! e := clift (conv_cast rhs (ty_base lhs)) in
    let! e := clift (conv_cast e to) in cret (true, e)
  else assign_scalar lhs rhs rt.

Definition assign_value (lhs : CType) (rhs : AstNode) (rt : CType) : Conv (bool * AstNode) :=
  if kind_is lhs TY_VECTOR then assign_vector lhs rhs rt else assign_scalar lhs rhs rt.
End conv.

Fixpoint conv_assignable (depth : nat) (target : TargetKind) (st : Tags) (same : CType -> CType -> bool) (fuel : nat)
    (folds_to_zero : AstNode -> bool) (lhs : option CType) (rhs : AstNode) (ctx : AssignCtxKind) :
    Conv (bool * AstNode) :=
  match depth with
  | O => fun _ => None
  | S depth =>
    match lhs, e_type rhs with
    | Some lhs, Some _ =>
      if kind_is lhs TY_ERROR then cret (true, rhs)
      else
        let! rhs := conv_decay st same fuel rhs in
        match e_type rhs with
        | None => cret (true, rhs)
        | Some rt =>
          if kind_is rt TY_ERROR then cret (true, rhs)
          else
            let! m := (match ctx with
                       | ACTX_ARG => clift (transparent_union_arg_member st same fuel folds_to_zero lhs rhs)
                       | _ => cret None
                       end) in
            match m with
            | Some m =>
              let! exact := clift (type_compatible' st same fuel (conv_strip_quals (m_type m)) (conv_strip_quals (Some rt))) in
              let! r := (if exact : bool then cret (true, rhs)
                         else conv_assignable depth target st same fuel folds_to_zero (m_type m) rhs ctx) in
              if fst r : bool then
                let! e := clift (conv_cast st same fuel (snd r) (conv_strip_quals (Some lhs))) in cret (true, e)
              else cret (false, rhs)
            | None => assign_value st same fuel folds_to_zero lhs rhs rt
            end
        end
    | _, _ => cret (true, rhs)
    end
  end.

(** The conversions on expressions return, add implicit casts only, and give the
    expression a type compatible with the one asked for. *)

Lemma conv_strip_unqual t : conv_strip_quals t = unqual t.
Proof.
  destruct t as [t|]; [|done]. simpl. destruct (Z.eqb_spec (ty_quals t) 0) as [E|]; [|done].
  destruct t. simpl in E. by subst.
Qed.

Lemma unqual_idemp t : unqual (unqual t) = unqual t.
Proof. by destruct t. Qed.

(** ** What an expression is under its implicit casts *)
Definition blank (t : option CType) : ExprAttrs :=
  {| sem_type := t; is_lvalue := false; sem_is_bitfield := false; sem_bitfield_width := 0;
     sem_bitfield_is_signed := false; sem_lvalue_align := 0; sem_reverse_storage_order := false; poisoned := false |}.

Fixpoint skeleton (e : AstNode) : AstNode :=
  match e with
  | AST_EXPR id a => AST_EXPR id (blank (sem_type a))
  | AST_EXPR_PAREN a l => AST_EXPR_PAREN (blank (sem_type a)) (skeleton l)
  | AST_EXPR_CAST true _ l => skeleton l
  | AST_EXPR_CAST false a l => AST_EXPR_CAST false (blank (sem_type a)) (skeleton l)
  end.

Lemma skeleton_set_attrs e a : sem_type a = sem_type (attrs e) -> skeleton (set_attrs e a) = skeleton e.
Proof. destruct e as [id b|b l|[] b l]; simpl; intros E; by rewrite ?E. Qed.

Section facts.
  Context (st : Tags) (same : CType -> CType -> bool) (P : pointer_equality same).

Abbreviation Compat := (Compat st same).

(** Compatible types are compatible without their qualifiers. *)
Lemma Compat_unqual i a b : graded st i a -> Compat a b -> Compat (unqual a) (unqual b).
Proof.
  intros Ha [n H]. destruct n as [|n]; [done|]. simpl in H.
  destruct a as [a|], b as [b|]; try done; [|by exists 1%nat].
  unfold node_compatible in H. destruct (same a b) eqn:Sm.
  { apply (same_eq _ P) in Sm as <-. by apply (Compat_refl st same i), graded_unqual. }
  exists (S n). simpl. unfold node_compatible. destruct (same (with_quals a 0) (with_quals b 0)); [done|].
  change (kind_is (with_quals a 0)) with (kind_is a). change (kind_is (with_quals b 0)) with (kind_is b).
  destruct (kind_is a TY_ERROR || kind_is b TY_ERROR); [done|].
  destruct (negb (ty_quals a =? ty_quals b)); [done|]. exact H.
Qed.

(** ** Totality below a bound *)
Context (N fuel : nat) (HN : (N + N + 4 < fuel)%nat).

Lemma compatible_decides a b : graded st (S (S N)) a -> graded st (S (S N)) b ->
  exists r, type_compatible' st same fuel a b = Some r /\ (r = true <-> Compat a b).
Proof.
  intros Ha Hb. destruct (type_compatible_total st same fuel (S (S N)) (S (S N)) a b P Ha Hb ltac:(lia)) as [r Hr].
  exists r. split; [done|]. split; [intros ->; by exists fuel|].
  intros [n Hn]. apply (Compat_determined st same fuel n a b); done.
Qed.

Lemma Compat_unqual_sym a b : graded st (S (S N)) a -> Compat a b -> Compat (unqual b) (unqual a).
Proof. intros Ha H. apply Compat_sym; [done|]. by apply (Compat_unqual (S (S N))). Qed.

(** A conversion of [e] to the type [to]. *)
Record converted (e e' : AstNode) (to : option CType) : Prop := {
  converted_skeleton : skeleton e' = skeleton e;
  converted_graded : graded st (S (S N)) (e_type e');
  converted_type : Compat (unqual (e_type e')) (unqual to)
}.

Lemma conv_cast_converted e to : graded st (S (S N)) (e_type e) -> graded st (S (S N)) (Some to) ->
  exists e', conv_cast st same fuel e (Some to) = Some e' /\ converted e e' (Some to).
Proof.
  intros He Hto. unfold conv_cast, needs_cast.
  destruct (compatible_decides (e_type e) (Some to) He Hto) as (r & -> & Hr). simpl.
  destruct r; simpl; eexists; (split; [done|]); (split; [done| |]).
  - done.
  - apply (Compat_unqual (S (S N))); [done|]. by apply Hr.
  - done.
  - by apply (Compat_refl st same (S (S N))), graded_unqual.
Qed.

Lemma graded_strip t : graded st (S (S N)) t -> graded st (S (S N)) (conv_strip_quals t).
Proof. rewrite conv_strip_unqual. apply graded_unqual. Qed.

Lemma conv_cast_strip e to : graded st (S (S N)) (e_type e) -> graded st (S (S N)) (Some to) ->
  exists e', conv_cast st same fuel e (conv_strip_quals (Some to)) = Some e' /\ converted e e' (Some to).
Proof.
  intros He Hto. pose proof (graded_strip _ Hto) as Hs.
  rewrite conv_strip_unqual in *. destruct (conv_cast_converted e (with_quals to 0) He Hs) as (e' & E & [H1 H2 H3]).
  by exists e'.
Qed.

Lemma converted_trans e e' e'' to to' : converted e e' to' -> converted e' e'' to -> converted e e'' to.
Proof. intros [H1 _ _] [H2 H3 H4]. split; [congruence|done..]. Qed.

(** ** Decay *)
Lemma conv_lvalue_total e : graded st (S (S N)) (e_type e) ->
  exists e', conv_lvalue st same fuel e = Some e' /\ skeleton e' = skeleton e /\ graded st (S (S N)) (e_type e') /\
    (e_type e' = e_type e \/ e_type e' = unqual (e_type e)).
Proof.
  intros He. unfold conv_lvalue. destruct (e_type e) as [t|] eqn:Et; [|exists e; rewrite Et; tauto].
  destruct (negb (is_lvalue (attrs e))); [exists e; rewrite Et; tauto|].
  destruct (negb (ty_quals t =? 0)).
  - rewrite conv_strip_unqual. unfold needs_cast.
    destruct (compatible_decides (e_type e) (unqual (Some t))) as (r & E & Hr);
      [by rewrite Et|by apply graded_unqual|].
    cbn [unqual option_map] in E |- *. rewrite E. destruct r; simpl.
    + exists e. rewrite Et. tauto.
    + eexists. split; [done|]. split; [done|]. split; [|by right]. by apply grade_quals.
  - exists (not_lvalue e). split; [done|]. unfold not_lvalue. rewrite skeleton_set_attrs by done.
    assert (Hty : e_type (not_lvalue e) = Some t) by (rewrite <- Et; by destruct e).
    unfold not_lvalue in Hty. rewrite Hty. tauto.
Qed.

(** The type an operand has once it is a value. *)
Definition decayed (t : CType) : option CType :=
  match ty_kind t with
  | TY_ARRAY => Some (type_ptr (if ty_may_alias t then option_map type_may_alias (ty_base t) else ty_base t))
  | TY_FUNC => Some (type_ptr (Some t))
  | _ => Some t
  end.

Lemma grade_pointer n b : graded st n b -> grade st (S n) (type_ptr b).
Proof.
  intros H. constructor; [by left|]. intros u Hu. inversion Hu as [? ? E|? ? E|? ? E|? ? E|? ? ? E]; subst.
  - simpl in E. by subst.
  - by apply not_elem_of_nil in E.
  - by apply not_elem_of_nil in E.
  - done.
  - done.
Qed.

Lemma grade_may_alias n t : grade st n t -> grade st n (type_may_alias t).
Proof.
  intros H. unfold type_may_alias. destruct (ty_may_alias t) eqn:M; [done|].
  destruct H as [n t Hw Hp]. constructor; [done|]. intros u Hu. apply Hp. revert Hu.
  match goal with |- part st ?x u -> _ => generalize (eq_refl x); generalize x at 1 3 end.
  intros x Ex Hu. destruct Hu as [x b E|x p E|x p E|x v E|x m v E Em]; subst x;
    [by eapply part_base|by eapply part_param|by eapply part_old|by eapply part_enum|by eapply part_view].
Qed.

Lemma conv_decay_total e b l : graded st (S N) (e_type e) ->
  exists e' l', conv_decay_impl st same fuel e b l = Some (e', l ++ l') /\ skeleton e' = skeleton e /\
    graded st (S (S N)) (e_type e') /\
    match e_type e with
    | Some t => Compat (unqual (e_type e')) (unqual (decayed t))
    | None => e_type e' = None
    end /\
    (l' = [] \/ l' = [Warn WARN_SCALAR_STORAGE_ORDER]).
Proof.
  intros He. unfold conv_decay_impl. assert (He' : graded st (S (S N)) (e_type e)) by (apply (graded_le st (S N)); [done|lia]).
  destruct (e_type e) as [t|] eqn:Et.
  2:{ exists e, []. rewrite app_nil_r, Et. split_and!; try done. by left. }
  assert (Hother : exists e' l', clift (conv_lvalue st same fuel e) l = Some (e', l ++ l') /\ skeleton e' = skeleton e /\
    graded st (S (S N)) (e_type e') /\ Compat (unqual (e_type e')) (unqual (Some t)) /\
    (l' = [] \/ l' = [Warn WARN_SCALAR_STORAGE_ORDER])).
  { destruct (conv_lvalue_total e) as (e' & E & H1 & H2 & H3); [by rewrite Et|]. exists e', [].
    unfold clift. rewrite E, app_nil_r. split; [done|]. split_and!; [done|done| |by left].
    destruct H3 as [-> | ->]; rewrite ?unqual_idemp, Et; by apply (Compat_refl st same (S (S N))), graded_unqual. }
  unfold decayed. destruct (ty_kind t) eqn:K; try exact Hother.
  - set (elem := if ty_may_alias t then _ else _).
    assert (Hel : graded st (S (S N)) (Some (type_ptr elem))).
    { simpl. apply grade_pointer. apply (graded_le st N); [|lia]. pose proof (graded_base st N t He) as Hb. subst elem.
      destruct (ty_may_alias t); [|done]. destruct (ty_base t) as [u|]; [|done]. by apply grade_may_alias. }
    destruct (conv_cast_converted e (type_ptr elem)) as (c & Ec & [C1 C2 C3]); [by rewrite Et|done|].
    set (w := b && sem_reverse_storage_order (attrs e)).
    exists (carry_address c e), (if w then [Warn WARN_SCALAR_STORAGE_ORDER] else []).
    assert (Hc : e_type (carry_address c e) = e_type c) by (by destruct c as [| |[]]). rewrite Hc.
    split_and!; [|by rewrite <- C1; apply skeleton_set_attrs|done|done|destruct w; tauto].
    unfold cbind, clift. rewrite Ec. destruct w; simpl; by rewrite ?app_nil_r.
  - destruct (conv_cast_converted e (type_ptr (Some t))) as (c & Ec & [C1 C2 C3]); [by rewrite Et|by apply grade_pointer|].
    exists (not_lvalue c), [].
    assert (Hc : e_type (not_lvalue c) = e_type c) by (by destruct c as [| |[]]). rewrite Hc.
    split_and!; [|by rewrite <- C1; apply skeleton_set_attrs|done|done|by left].
    unfold cbind, clift. rewrite Ec. simpl. by rewrite app_nil_r.
Qed.
End facts.
