(* ===== verification/ConvAssign.v ===== *)
(** Assignment: the constraint of 6.5.16.1 as a relation, and [conv_assignable]
    against it. *)
From stdpp Require Import base gmap list.
From S2P Require Import Prelude Softfp Pptok Ctype Compat CompatFacts Conv ConvExpr.

(** ** The constraint *)
Section constraint.
  Context (st : Tags) (same : CType -> CType -> bool).

Definition void_exchange (lhs rt : CType) : bool :=
  (is_void_ptr lhs && is_object_ptr rt) || (is_void_ptr rt && is_object_ptr lhs).

(** A value of type [rt], a null pointer constant when [npc], may be assigned to
    an object of type [lhs]. A null pointer constant is an integer constant of
    value zero, or one cast to a pointer to unqualified void, and may be assigned
    to every pointer (6.3.2.3). *)
Inductive assignable (lhs rt : CType) (npc : bool) : Prop :=
| assign_arithmetic : type_is_arithmetic lhs = true -> type_is_arithmetic rt = true -> assignable lhs rt npc
| assign_bool : kind_is lhs TY_BOOL = true -> kind_is rt TY_PTR = true -> assignable lhs rt npc
| assign_aggregate : is_aggregate lhs || is_aggregate rt = true ->
    Compat st same (unqual (Some lhs)) (unqual (Some rt)) -> assignable lhs rt npc
| assign_pointers : kind_is lhs TY_PTR = true -> kind_is rt TY_PTR = true ->
    void_exchange lhs rt = true \/ Compat st same (unqual (ty_base lhs)) (unqual (ty_base rt)) ->
    pointee_quals_ok (ty_base lhs) (ty_base rt) = true -> assignable lhs rt npc
| assign_null : kind_is lhs TY_PTR = true -> npc = true ->
    type_is_integer rt = true \/ is_plain_void_ptr (Some rt) = true -> assignable lhs rt npc.
(** The assignment the code warns of although it is allowed: of a null pointer
    constant of pointer type to a pointer to what is neither an object nor
    compatible with void, a function. *)
Definition null_to_function (lhs rt : CType) (npc : bool) : Prop :=
  npc = true /\ is_plain_void_ptr (Some rt) = true /\ kind_is lhs TY_PTR = true /\ is_object_ptr lhs = false /\
  ~ Compat st same (unqual (ty_base lhs)) (unqual (ty_base rt)).
(** Silence of the code, and its warning. *)
Definition silent_when_assignable (lhs rt : CType) (npc : bool) (w : list Diag) : Prop :=
  (w = [] <-> assignable lhs rt npc /\ ~ null_to_function lhs rt npc) /\
  (null_to_function lhs rt npc -> w = [Warn WARN_INCOMPATIBLE_POINTER_TYPES]).
End constraint.

Lemma ptr_facts t : kind_is t TY_PTR = true ->
  type_is_integer t = false /\ type_is_arithmetic t = false /\ is_aggregate t = false /\ kind_is t TY_BOOL = false.
Proof.
  unfold type_is_arithmetic, type_is_floating, type_is_integer, is_aggregate, kind_in, kind_is. intros H%bool_decide_eq_true.
  by rewrite H.
Qed.

Lemma integer_facts t : type_is_integer t = true -> is_aggregate t = false /\ kind_is t TY_PTR = false.
Proof.
  unfold type_is_integer, is_aggregate, kind_in, kind_is. intros H. by destruct (ty_kind t).
Qed.

Lemma arithmetic_facts t : type_is_arithmetic t = true -> is_aggregate t = false /\ kind_is t TY_PTR = false.
Proof.
  unfold type_is_arithmetic, type_is_floating, type_is_integer, is_aggregate, kind_in, kind_is. intros H.
  by destruct (ty_kind t).
Qed.

Lemma bool_facts t : kind_is t TY_BOOL = true ->
  type_is_arithmetic t = true /\ is_aggregate t = false /\ kind_is t TY_PTR = false /\ kind_is t TY_VECTOR = false.
Proof.
  unfold type_is_arithmetic, type_is_floating, type_is_integer, is_aggregate, kind_in, kind_is. intros H%bool_decide_eq_true.
  by rewrite H.
Qed.

Lemma plain_void_facts rt : is_plain_void_ptr (Some rt) = true ->
  kind_is rt TY_PTR = true /\ is_void_ptr rt = true /\ pointee_quals (ty_base rt) = 0.
Proof.
  unfold is_plain_void_ptr, is_void_ptr, pointee_quals. destruct (ty_base rt) as [b|]; [|by rewrite andb_false_r].
  by intros [-> [-> ->%Z.eqb_eq]%andb_true_iff]%andb_true_iff.
Qed.
Lemma void_ptr_object t : is_void_ptr t = true -> is_object_ptr t = true.
Proof.
  unfold is_void_ptr, is_object_ptr, kind_is. intros [-> H]%andb_true_iff. destruct (ty_base t) as [b|]; [|done].
  apply bool_decide_eq_true in H. by rewrite H.
Qed.
Lemma no_exchange lhs rt : is_object_ptr lhs = false -> void_exchange lhs rt = false.
Proof.
  intros H. unfold void_exchange. rewrite H, andb_false_r, orb_false_r. apply andb_false_iff. left.
  apply not_true_iff_false. intros E%void_ptr_object. congruence.
Qed.
(** Outside pointers there is no exception. *)
Lemma silent_plain st same lhs rt npc w : kind_is lhs TY_PTR && kind_is rt TY_PTR = false ->
  (w = [] <-> assignable st same lhs rt npc) -> silent_when_assignable st same lhs rt npc w.
Proof.
  intros K H. assert (N : ~ null_to_function st same lhs rt npc).
  { intros (_ & [E _]%plain_void_facts & E' & _). by rewrite E, E' in K. }
  split; tauto.
Qed.

Section assign.
  Context (st : Tags) (same : CType -> CType -> bool) (P : pointer_equality same).
  Context (N fuel : nat) (HN : (N + N + 4 < fuel)%nat) (folds_to_zero : AstNode -> bool).

(** What an assignment conversion that logged [w] leaves. *)
Record assigned (lhs : CType) (rhs : AstNode) (ok : bool) (e : AstNode) (w : list Diag) : Prop := {
  assigned_skeleton : skeleton e = skeleton rhs;
  assigned_graded : graded st (S (S N)) (e_type e);
  assigned_type : ok = true -> Compat st same (unqual (e_type e)) (unqual (Some lhs));
  assigned_error : ok = false <-> w = [DIAG_ERROR]
}.

Lemma converted_assigned lhs rhs e w : converted st same N rhs e (Some lhs) -> w <> [DIAG_ERROR] -> assigned lhs rhs true e w.
Proof. by intros [H1 H2 H3] Hw; split. Qed.

(** What is compatible with [_Bool] is compatible with any [_Bool] node. *)
Lemma bool_compatible n u t : type_compatible n st same u (Some (type_basic TY_BOOL)) = Some true ->
  ty_kind t = TY_BOOL -> ty_integer_precision t = 0 -> type_compatible n st same u (unqual (Some t)) = Some true.
Proof.
  intros H K Pr. revert u H. induction n as [|n IH]; intros [u|] H; try done. revert H.
  cbn [unqual option_map type_compatible] in *. unfold node_compatible.
  assert (H0 : same u (type_basic TY_BOOL) = true -> ty_kind u = TY_BOOL /\ ty_quals u = 0 /\ ty_integer_precision u = 0)
    by (intros ->%(same_eq _ P); done).
  assert (He : forall b, kind_is b TY_ERROR || kind_is (type_basic TY_BOOL) TY_ERROR = kind_is b TY_ERROR)
    by (intros; apply orb_false_r).
  unfold kind_is, type_is_integer, kind_in, kind_is, kind_compatible in *.
  cbn [ty_kind with_quals ty_quals ty_integer_precision type_basic] in *. rewrite K, Pr.
  destruct (same u (type_basic TY_BOOL)).
  - destruct (H0 eq_refl) as (-> & -> & ->). intros _. by destruct (same u _).
  - intros H. destruct (same u (with_quals t 0)); [done|].
    destruct (ty_kind u) eqn:Ku; destruct (ty_quals u =? 0), (ty_integer_precision u =? 0); simpl in *; try done.
    by apply IH.
Qed.

Lemma conv_to_bool_assigned lhs rhs rt l : e_type rhs = Some rt -> graded st (S (S N)) (Some rt) ->
  kind_is lhs TY_BOOL = true -> graded st (S (S N)) (Some lhs) -> ty_integer_precision lhs = 0 ->
  type_is_arithmetic rt || kind_is rt TY_PTR = true ->
  exists e, conv_to_bool st same fuel rhs l = Some (e, l) /\ assigned lhs rhs true e [].
Proof.
  intros Et Hrt Hl Hg Hp Hk. unfold conv_to_bool, conv_decay, conv_decay_impl. rewrite Et.
  assert (Hd : match ty_kind rt with TY_ARRAY | TY_FUNC => false | _ => true end = true).
  { unfold type_is_arithmetic, type_is_floating, type_is_integer, kind_in, kind_is in Hk. by destruct (ty_kind rt). }
  destruct (conv_lvalue_total st same P N fuel HN rhs) as (e1 & E1 & S1 & G1 & T1); [by rewrite Et|].
  assert (Hlv : forall k, cbind (clift (conv_lvalue st same fuel rhs)) k l = k e1 l :> option (AstNode * list Diag))
    by (intros k; unfold cbind, clift; by rewrite E1).
  destruct (conv_cast_converted st same P N fuel HN e1 (type_basic TY_BOOL)) as (e & E & [C1 C2 C3]);
    [done|apply (grade_le st 1); [by apply grade_basic|lia]|].
  exists e. split.
  - destruct (ty_kind rt); try discriminate Hd; rewrite Hlv; unfold clift; by rewrite E.
  - split; [congruence|done| |done]. intros _. destruct C3 as [n Hn]. exists n.
    by apply (bool_compatible n); [|apply bool_decide_eq_true in Hl|].
Qed.

Lemma assign_pointer_assigned lhs rhs rt l : e_type rhs = Some rt -> graded st (S (S N)) (Some rt) ->
  graded st (S (S N)) (Some lhs) ->
  exists e w, assign_pointer st same fuel lhs rhs rt l = Some (e, l ++ w) /\ assigned lhs rhs true e w /\
    (w = [] <-> (void_exchange lhs rt = true \/ Compat st same (unqual (ty_base lhs)) (unqual (ty_base rt))) /\
       pointee_quals_ok (ty_base lhs) (ty_base rt) = true) /\
    (~ (void_exchange lhs rt = true \/ Compat st same (unqual (ty_base lhs)) (unqual (ty_base rt))) -> w = [Warn WARN_INCOMPATIBLE_POINTER_TYPES]).
Proof.
  intros Et Hrt Hl. unfold assign_pointer. fold (void_exchange lhs rt). rewrite !conv_strip_unqual.
  assert (Hf : exists r, (if void_exchange lhs rt then cret true
      else clift (type_compatible' st same fuel (unqual (ty_base lhs)) (unqual (ty_base rt)))) l = Some (r, l) /\
      (r = true <-> void_exchange lhs rt = true \/ Compat st same (unqual (ty_base lhs)) (unqual (ty_base rt)))).
  { destruct (void_exchange lhs rt); [exists true; split; [done|tauto]|].
    destruct (compatible_decides st same P N fuel HN (unqual (ty_base lhs)) (unqual (ty_base rt))) as (r & Er & Hr);
      [apply graded_unqual, (graded_le st (S N)); [by apply graded_base|lia]..|].
    exists r. unfold clift. rewrite Er. split; [done|]. rewrite Hr. intuition congruence. }
  destruct Hf as (r & Er & Hr).
  destruct (conv_cast_converted st same P N fuel HN rhs lhs) as (e & E & C); [by rewrite Et|done|].
  set (w := if negb r then [Warn WARN_INCOMPATIBLE_POINTER_TYPES]
            else if pointee_quals_ok (ty_base lhs) (ty_base rt) then [] else [Warn WARN_DISCARDED_QUALIFIERS]).
  exists e, w. unfold cbind at 1. rewrite Er. split; [|split; [|split]].
  - subst w. unfold cbind, clift. rewrite E. destruct r, (pointee_quals_ok _ _); simpl; by rewrite ?app_nil_r.
  - apply converted_assigned; [done|]. subst w. by destruct r, (pointee_quals_ok _ _).
  - rewrite <- Hr. subst w. destruct r, (pointee_quals_ok _ _); simpl; intuition congruence.
  - rewrite <- Hr. subst w. by destruct r.
Qed.

Lemma assign_pointer_silent lhs rt npc w : kind_is lhs TY_PTR = true -> kind_is rt TY_PTR = true ->
  graded st (S (S N)) (Some rt) -> graded st (S (S N)) (Some lhs) ->
  (w = [] <-> (void_exchange lhs rt = true \/ Compat st same (unqual (ty_base lhs)) (unqual (ty_base rt))) /\
     pointee_quals_ok (ty_base lhs) (ty_base rt) = true) ->
  (~ (void_exchange lhs rt = true \/ Compat st same (unqual (ty_base lhs)) (unqual (ty_base rt))) -> w = [Warn WARN_INCOMPATIBLE_POINTER_TYPES]) ->
  silent_when_assignable st same lhs rt npc w.
Proof using P HN.
  intros Kl Kr Hrt Hl Hw Hx. destruct (ptr_facts lhs Kl) as (F1 & F2 & F3 & F4). destruct (ptr_facts rt Kr) as (R1 & R2 & R3 & R4).
  split; [rewrite Hw; split|].
  - intros [X Q]. split; [by apply assign_pointers|]. intros (_ & _ & _ & Ob & NC). destruct X as [X|X]; [|done].
    by rewrite no_exchange in X.
  - intros [[H|H|H|_ _ H1 H2|_ Hn [H|Hv]] NN]; [congruence|congruence|by rewrite F3, R3 in H|done|congruence|].
    destruct (plain_void_facts rt Hv) as (_ & V & Q). split; [|by unfold pointee_quals_ok; rewrite Q].
    destruct (is_object_ptr lhs) eqn:Ob; [left; unfold void_exchange; by rewrite V, Ob, orb_true_r|right].
    destruct (compatible_decides st same P N fuel HN (unqual (ty_base lhs)) (unqual (ty_base rt))) as ([] & _ & Hr);
      [apply graded_unqual, (graded_le st (S N)); [by apply graded_base|lia]..|by apply Hr|].
    destruct NN. split_and!; try done. intros C%Hr. done.
  - intros (_ & _ & _ & Ob & NC). apply Hx. intros [X|X]; [by rewrite no_exchange in X|done].
Qed.

(** The ordinary cases: silent exactly when the constraint holds, an error
    exactly when nothing is assigned. *)
Lemma assign_scalar_assigned lhs rhs rt l : e_type rhs = Some rt -> graded st (S (S N)) (Some rt) ->
  graded st (S (S N)) (Some lhs) -> (kind_is lhs TY_BOOL = true -> ty_integer_precision lhs = 0) ->
  exists ok e w, assign_scalar st same fuel folds_to_zero lhs rhs rt l = Some ((ok, e), l ++ w) /\
    assigned lhs rhs ok e w /\ (silent_when_assignable st same lhs rt (conv_is_npc folds_to_zero rhs) w).
Proof.
  intros Et Hrt Hl Hb. unfold assign_scalar. pose proof (Et : sem_type (attrs rhs) = _) as Et'.
  assert (Hcast : exists e, conv_cast st same fuel rhs (Some lhs) = Some e /\ converted st same N rhs e (Some lhs))
    by (apply conv_cast_converted; [done|done|by rewrite Et|done]).
  destruct (kind_is lhs TY_BOOL && _) eqn:B1.
  { apply andb_true_iff in B1 as [B1 B2]. specialize (Hb B1).
    destruct (conv_to_bool_assigned lhs rhs rt l Et Hrt B1 Hl Hb B2) as (e & E & A).
    exists true, e, []. unfold cbind. rewrite E, app_nil_r. split_and!; [done|done|]. apply silent_plain; [by destruct (bool_facts lhs B1) as (_ & _ & -> & _)|]. split; [|done]. intros _.
    apply orb_true_iff in B2 as [B2|B2]; [by apply assign_arithmetic; [apply bool_facts|]|by apply assign_bool]. }
  destruct (type_is_arithmetic lhs && type_is_arithmetic rt) eqn:B2.
  { apply andb_true_iff in B2 as [B2 B3].
    destruct (conv_cast_strip st same P N fuel HN rhs lhs) as (e & E & C); [by rewrite Et|done|].
    exists true, e, []. unfold cbind, clift. rewrite E, app_nil_r. split; [done|].
    split; [by apply converted_assigned|]. apply silent_plain; [by destruct (arithmetic_facts lhs B2) as [_ ->]|].
    split; [intros _; by apply assign_arithmetic|done]. }
  destruct (kind_is lhs TY_PTR && kind_is rt TY_PTR) eqn:B3.
  { apply andb_true_iff in B3 as [B3 B4]. destruct (ptr_facts lhs B3) as (F1 & F2 & F3 & F4).
    destruct (assign_pointer_assigned lhs rhs rt l Et Hrt Hl) as (e & w & E & A & Hw & Hx).
    exists true, e, w. unfold cbind. rewrite E. split; [done|]. split; [done|]. by apply assign_pointer_silent. }
  assert (Null : conv_is_npc folds_to_zero rhs = true -> kind_is lhs TY_PTR = true -> type_is_integer rt = true \/ is_plain_void_ptr (Some rt) = true ->
    type_is_integer rt = true).
  { intros _ K [H|[H _]%plain_void_facts]; [done|]. by rewrite K, H in B3. }
  destruct (kind_is lhs TY_PTR && type_is_integer rt) eqn:B4.
  { apply andb_true_iff in B4 as [B4 B5]. destruct (ptr_facts lhs B4) as (F1 & F2 & F3 & F4).
    destruct (integer_facts rt B5) as [R1 R2]. destruct Hcast as (e & E & C).
    exists true, e, (if conv_is_npc folds_to_zero rhs then [] else [Warn WARN_INT_CONVERSION]).
    unfold cbind, clift. rewrite E. destruct (conv_is_npc folds_to_zero rhs) eqn:Z0; simpl.
    - rewrite app_nil_r. split; [done|]. split; [by apply converted_assigned|]. apply silent_plain; [done|].
      split; [intros _; apply assign_null; auto|done].
    - split; [done|]. split; [by apply converted_assigned|]. apply silent_plain; [done|]. split; [done|].
      intros [H|H|H|H1 H2|H1 H2 H3]; [congruence|congruence|by rewrite F3, R1 in H|congruence|congruence]. }
  destruct (type_is_integer lhs && kind_is rt TY_PTR) eqn:B5.
  { apply andb_true_iff in B5 as [B5 B6]. destruct (integer_facts lhs B5) as [F1 F2].
    destruct (ptr_facts rt B6) as (R1 & R2 & R3 & R4). destruct Hcast as (e & E & C).
    exists true, e, [Warn WARN_INT_CONVERSION]. unfold cbind, clift. simpl. rewrite E.
    split; [done|]. split; [by apply converted_assigned|]. apply silent_plain; [done|]. split; [done|].
    intros [H1 H2|H1 H2|H|H1 H2|H1 H2 H3]; [congruence| |by rewrite F1, R3 in H|congruence|congruence].
    by rewrite H1, H2, orb_true_r in B1. }
  rewrite !conv_strip_unqual.
  assert (Hf : exists r, (if is_aggregate lhs || is_aggregate rt
      then clift (type_compatible' st same fuel (unqual (Some lhs)) (unqual (Some rt))) else cret false) l = Some (r, l) /\
      (r = true <-> is_aggregate lhs || is_aggregate rt = true /\ Compat st same (unqual (Some lhs)) (unqual (Some rt)))).
  { destruct (is_aggregate lhs || is_aggregate rt); [|exists false; split; [done|intuition congruence]].
    destruct (compatible_decides st same P N fuel HN (unqual (Some lhs)) (unqual (Some rt))) as (r & Er & Hr);
      [by apply graded_unqual..|]. exists r. unfold clift. rewrite Er. split; [done|]. rewrite Hr. tauto. }
  destruct Hf as (r & Er & Hr). unfold cbind at 1. rewrite Er. destruct r.
  - exists true, rhs, []. rewrite app_nil_r. destruct (proj1 Hr eq_refl) as [H1 H2]. split; [done|]. split.
    + split; [done|by rewrite Et| |done]. intros _. rewrite Et. by apply Compat_sym.
    + apply silent_plain; [done|]. split; [intros _; by apply assign_aggregate|done].
  - exists false, rhs, [DIAG_ERROR]. split; [done|]. split; [by split; [|rewrite Et|..]|]. apply silent_plain; [done|]. split; [done|].
    intros [H1 H2|H1 H2|H1 H2|H1 H2|H1 H2 H3].
    + by rewrite H1, H2 in B2.
    + by rewrite H1, H2, orb_true_r in B1.
    + by discriminate (proj2 Hr (conj H1 H2)).
    + by rewrite H1, H2 in B3.
    + by rewrite H1, (Null H2 H1 H3) in B4.
Qed.

Lemma assign_vector_assigned lhs rhs rt l : e_type rhs = Some rt -> graded st (S (S N)) (Some rt) ->
  graded st (S (S N)) (Some lhs) -> kind_is lhs TY_BOOL = false ->
  exists ok e w, assign_vector st same fuel folds_to_zero lhs rhs rt l = Some ((ok, e), l ++ w) /\ assigned lhs rhs ok e w.
Proof.
  intros Et Hrt Hl Hb. unfold assign_vector. rewrite !conv_strip_unqual.
  destruct (compatible_decides st same P N fuel HN (unqual (Some lhs)) (unqual (Some rt))) as (r & Er & _);
    [by apply graded_unqual..|].
  unfold cbind at 1, clift at 1. rewrite Er. cbn [option_map].
  pose proof (conv_cast_strip st same P N fuel HN) as Hcs. destruct r.
  { destruct (Hcs rhs lhs) as (e & E & C); [by rewrite Et|done|]. rewrite conv_strip_unqual in E.
    exists true, e, []. unfold cbind, clift. rewrite E, app_nil_r. split; [done|]. by apply converted_assigned. }
  destruct (type_is_integer rt).
  - assert (Hb' : exists e1, conv_cast st same fuel rhs (ty_base lhs) = Some e1 /\ skeleton e1 = skeleton rhs /\
              graded st (S (S N)) (e_type e1)).
    { pose proof (graded_base st (S N) lhs Hl) as Hg. destruct (ty_base lhs) as [b|].
      - destruct (conv_cast_converted st same P N fuel HN rhs b) as (e1 & E1 & [C1 C2 _]);
          [by rewrite Et|by apply (graded_le st (S N)); [|lia]|]. by exists e1.
      - exists rhs. by rewrite Et. }
    destruct Hb' as (e1 & E1 & S1 & G1). destruct (Hcs e1 lhs G1 Hl) as (e & E & [C1 C2 C3]).
    rewrite conv_strip_unqual in E. exists true, e, []. unfold cbind, clift. rewrite E1. cbn [option_map].
    rewrite E, app_nil_r. split; [done|]. split; [congruence|done|by intros _|done].
  - destruct (assign_scalar_assigned lhs rhs rt l Et Hrt Hl) as (ok & e & w & E & A & _); [congruence|].
    by exists ok, e, w.
Qed.

(** ** Arguments for transparent unions *)
Lemma find_member_total test ms : (forall m, m ∈ ms -> exists r, test m = Some r) ->
  exists o, find_member test ms = Some o /\ forall m, o = Some m -> m ∈ ms /\ test m = Some true.
Proof.
  induction ms as [|m ms IH]; intros H; simpl; [by exists None|].
  destruct (H m ltac:(by left)) as [[] Hr]; rewrite Hr.
  - exists (Some m). split; [done|]. intros ? [= <-]. split; [by left|done].
  - destruct IH as (o & Eo & Ho); [intros; apply H; by right|]. exists o. split; [done|].
    intros m' E. destruct (Ho m' E). split; [by right|done].
Qed.

(** The member found: the argument has its type, or it is a pointer that takes
    the argument. *)
Definition takes (rt : CType) (m : Member) : Prop :=
  exists mt, m_type m = Some mt /\ graded st (S N) (Some mt) /\
    (type_compatible' st same fuel (unqual (Some mt)) (unqual (Some rt)) = Some true \/
     kind_is mt TY_PTR = true /\ (type_is_integer rt = true \/ kind_is rt TY_PTR = true)).

Lemma transparent_member_total u rhs rt : e_type rhs = Some rt -> graded st (S (S N)) (Some rt) ->
  (forall m, m ∈ union_members st u -> graded st (S N) (m_type m)) ->
  exists o, transparent_union_arg_member st same fuel folds_to_zero u rhs = Some o /\
    forall m, o = Some m -> takes rt m.
Proof.
  intros Et Hrt Hm. unfold transparent_union_arg_member. rewrite Et.
  destruct (type_transparent_union_first_member st (Some u)) as [first|]; [|by exists None].
  pose proof (compatible_decides st same P N fuel HN) as Hd.
  assert (Hc : exists o, type_union_cast_member st same fuel (Some u) (Some rt) = Some o /\ forall m, o = Some m -> takes rt m).
  { unfold type_union_cast_member. destruct (negb (kind_is u TY_UNION)); [by exists None|].
    edestruct find_member_total as (o & Eo & Ho); [|exists o; split; [exact Eo|]; intros m E; destruct (Ho m E) as [Hin Ht]].
    - intros m Hin. specialize (Hm m Hin). simpl. destruct (m_type m) as [mt|]; [|by eexists].
      destruct (_ || _); [by eexists|]. destruct (Hd (unqual (Some mt)) (unqual (Some rt))) as (r & Er & _);
        [apply graded_unqual, (graded_le st (S N)); [done|lia]|by apply graded_unqual|by exists r].
    - specialize (Hm m Hin). unfold takes. simpl in Ht. destruct (m_type m) as [mt|]; [|done]. exists mt.
      destruct (_ || _) in Ht; [done|]. split_and!; [done|done|by left]. }
  destruct Hc as (o & -> & Ho). destruct o as [m|]; [by exists (Some m)|]. clear Ho.
  edestruct find_member_total as (o & Eo & Ho); [|exists o; split; [exact Eo|]; intros m E; destruct (Ho m E) as [Hin Ht]].
  - intros m Hin. specialize (Hm m Hin). unfold pointer_bridge. destruct (m_type m) as [mt|]; [|by eexists].
    destruct (_ || _); [by eexists|]. destruct (_ && _); [by eexists|]. destruct (negb _); [by eexists|].
    rewrite !conv_strip_unqual. destruct (Hd (unqual (ty_base mt)) (unqual (ty_base rt))) as (r & Er & _);
      [apply graded_unqual, (graded_le st N); [by apply graded_base|lia]|
       apply graded_unqual, (graded_le st (S N)); [by apply graded_base|lia]|].
    rewrite Er. destruct r; by eexists.
  - specialize (Hm m Hin). unfold pointer_bridge in Ht. unfold takes. destruct (m_type m) as [mt|]; [|done]. exists mt.
    split; [done|]. split; [done|]. right. destruct (kind_is mt TY_PTR); [|by rewrite orb_true_r in Ht].
    split; [done|]. destruct (m_is_bitfield m); [done|]. simpl in Ht. destruct (type_is_integer rt); [by left|]. simpl in Ht.
    right. by destruct (kind_is rt TY_PTR).
Qed.

(** Decay leaves an integer or a pointer alone, but for its qualifiers. *)
Lemma conv_decay_value rhs rt l : e_type rhs = Some rt -> graded st (S (S N)) (Some rt) ->
  type_is_integer rt = true \/ kind_is rt TY_PTR = true ->
  exists e rt', conv_decay st same fuel rhs l = Some (e, l) /\ skeleton e = skeleton rhs /\ e_type e = Some rt' /\
    graded st (S (S N)) (Some rt') /\ ty_kind rt' = ty_kind rt.
Proof.
  intros Et Hrt Hk. unfold conv_decay, conv_decay_impl. rewrite Et.
  assert (Hd : match ty_kind rt with TY_ARRAY | TY_FUNC => false | _ => true end = true).
  { unfold type_is_integer, kind_in, kind_is in Hk. destruct Hk as [Hk|Hk]; by destruct (ty_kind rt). }
  destruct (conv_lvalue_total st same P N fuel HN rhs) as (e1 & E1 & S1 & G1 & T1); [by rewrite Et|].
  assert (Hr : clift (conv_lvalue st same fuel rhs) l = Some (e1, l)) by (unfold clift; by rewrite E1).
  rewrite Et in T1. exists e1.
  destruct T1 as [T1|T1]; rewrite T1 in *; [exists rt|exists (with_quals rt 0)]; (split; [|done]);
    by destruct (ty_kind rt); try discriminate Hd.
Qed.

(** ** [conv_assignable] *)

(** The recursive call for a pointer member. *)
Lemma assign_member depth target mt rhs rt l : e_type rhs = Some rt -> graded st (S (S N)) (Some rt) ->
  graded st (S N) (Some mt) -> kind_is mt TY_PTR = true -> type_is_integer rt = true \/ kind_is rt TY_PTR = true ->
  exists ok e w, conv_assignable (S depth) target st same fuel folds_to_zero (Some mt) rhs ACTX_ARG l = Some ((ok, e), l ++ w) /\
    assigned mt rhs ok e w.
Proof.
  intros Et Hrt Hmt K Hk. simpl. rewrite Et. apply bool_decide_eq_true in K.
  assert (Hne : kind_is mt TY_ERROR = false /\ kind_is mt TY_VECTOR = false /\ kind_is mt TY_BOOL = false)
    by (unfold kind_is; by rewrite K).
  destruct Hne as (-> & Hv & Hb).
  destruct (conv_decay_value rhs rt l Et Hrt Hk) as (e & rt' & E & Se & Te & Ge & Kr).
  unfold cbind at 1. rewrite E, Te.
  assert (Hn : kind_is rt' TY_ERROR = false).
  { unfold type_is_integer, kind_in, kind_is in *. rewrite Kr. destruct Hk as [Hk|Hk]; by destruct (ty_kind rt). }
  assert (Ht : transparent_union_arg_member st same fuel folds_to_zero mt e = Some None).
  { unfold transparent_union_arg_member, type_transparent_union_first_member, kind_is. by rewrite K. }
  rewrite Hn. unfold cbind at 1, clift. rewrite Ht. cbn [option_map].
  unfold assign_value. rewrite Hv.
  destruct (assign_scalar_assigned mt e rt' l Te Ge) as (ok & e' & w & E' & [A1 A2 A3 A4] & _);
    [apply (graded_le st (S N)); [done|lia]|congruence|].
  exists ok, e', w. split; [done|]. split; [congruence|done..].
Qed.

Lemma assign_value_assigned lhs rhs rt l : e_type rhs = Some rt -> graded st (S (S N)) (Some rt) ->
  graded st (S (S N)) (Some lhs) -> (kind_is lhs TY_BOOL = true -> ty_integer_precision lhs = 0) ->
  exists ok e w, assign_value st same fuel folds_to_zero lhs rhs rt l = Some ((ok, e), l ++ w) /\
    assigned lhs rhs ok e w /\
    (kind_is lhs TY_VECTOR = false -> silent_when_assignable st same lhs rt (conv_is_npc folds_to_zero rhs) w).
Proof.
  intros Et Hrt Hl Hb. unfold assign_value. destruct (kind_is lhs TY_VECTOR) eqn:V.
  - destruct (assign_vector_assigned lhs rhs rt l Et Hrt Hl) as (ok & e & w & E & A).
    { destruct (kind_is lhs TY_BOOL) eqn:B; [|done]. by destruct (bool_facts lhs B) as (_ & _ & _ & V'); rewrite V in V'. }
    exists ok, e, w. split_and!; [done|done|discriminate].
  - destruct (assign_scalar_assigned lhs rhs rt l Et Hrt Hl Hb) as (ok & e & w & E & A & H). by exists ok, e, w.
Qed.

Lemma conv_assignable_assigned depth target lhs rhs t ctx l rhs1 l1 rt : e_type rhs = Some t ->
  graded st (S N) (Some lhs) -> (forall m, m ∈ union_members st lhs -> graded st (S N) (m_type m)) ->
  (kind_is lhs TY_BOOL = true -> ty_integer_precision lhs = 0) -> kind_is lhs TY_ERROR = false ->
  conv_decay st same fuel rhs l = Some (rhs1, l1) -> skeleton rhs1 = skeleton rhs ->
  e_type rhs1 = Some rt -> graded st (S (S N)) (Some rt) -> kind_is rt TY_ERROR = false ->
  exists ok e w,
    conv_assignable (S (S depth)) target st same fuel folds_to_zero (Some lhs) rhs ctx l = Some ((ok, e), l1 ++ w) /\
    assigned lhs rhs ok e w /\
    (kind_is lhs TY_VECTOR = false -> ctx <> ACTX_ARG \/ type_transparent_union_first_member st (Some lhs) = None ->
     silent_when_assignable st same lhs rt (conv_is_npc folds_to_zero rhs1) w).
Proof.
  intros Et Hl Hm Hb He Ed Sk E1 Hrt Hn. remember (S depth) as d eqn:Hd. cbn [conv_assignable]. rewrite Et, He.
  unfold cbind at 1. rewrite Ed, E1, Hn. subst d.
  assert (Hl' : graded st (S (S N)) (Some lhs)) by (apply (graded_le st (S N)); [done|lia]).
  destruct (transparent_member_total lhs rhs1 rt E1 Hrt Hm) as (o & Eo & Ho).
  destruct (assign_value_assigned lhs rhs1 rt l1 E1 Hrt Hl' Hb) as (ok & e & w & Ev & [A1 A2 A3 A4] & Hw).
  assert (Hvalue : exists ok e w, assign_value st same fuel folds_to_zero lhs rhs1 rt l1 = Some ((ok, e), l1 ++ w) /\
    assigned lhs rhs ok e w /\
    (kind_is lhs TY_VECTOR = false -> ctx <> ACTX_ARG \/ type_transparent_union_first_member st (Some lhs) = None ->
     silent_when_assignable st same lhs rt (conv_is_npc folds_to_zero rhs1) w)).
  { exists ok, e, w. split; [done|]. split; [split; [congruence|done..]|]. auto. }
  clear Ev A1 A2 A3 A4 Hw ok e w. destruct ctx; try exact Hvalue.
  unfold cbind at 1, clift at 1. rewrite Eo. cbn [option_map]. destruct o as [m|]; [|exact Hvalue]. clear Hvalue.
  assert (Hfirst : type_transparent_union_first_member st (Some lhs) <> None).
  { intros E. unfold transparent_union_arg_member in Eo. by rewrite E in Eo. }
  assert (Hirrelevant : forall w, kind_is lhs TY_VECTOR = false ->
            ACTX_ARG <> ACTX_ARG \/ type_transparent_union_first_member st (Some lhs) = None ->
            silent_when_assignable st same lhs rt (conv_is_npc folds_to_zero rhs1) w)
    by (intros w _ [|]; done).
  destruct (Ho m eq_refl) as (mt & Em & Hmt & Htakes). rewrite Em, !conv_strip_unqual.
  destruct (compatible_decides st same P N fuel HN (unqual (Some mt)) (unqual (Some rt))) as (r & Er & _);
    [apply graded_unqual, (graded_le st (S N)); [done|lia]|by apply graded_unqual|].
  unfold cbind at 1, clift at 1. rewrite Er. cbn [option_map].
  pose proof (conv_cast_strip st same P N fuel HN) as Hcs. destruct r.
  { destruct (Hcs rhs1 lhs) as (e & E & [C1 C2 C3]); [by rewrite E1|done|]. rewrite conv_strip_unqual in E.
    exists true, e, []. split; [|split; [by split; [congruence|..]|apply Hirrelevant]].
    unfold cbind, cret, clift. cbn [fst snd]. rewrite E, app_nil_r. done. }
  destruct Htakes as [Htakes|[K Hk]]; [congruence|].
  destruct (assign_member depth target mt rhs1 rt l1 E1 Hrt Hmt K Hk) as (ok & e & w & E & [A1 A2 A3 A4]).
  unfold cbind at 1. rewrite E. cbn [fst snd]. destruct ok.
  - destruct (Hcs e lhs A2 Hl') as (e' & E' & [C1 C2 C3]). rewrite conv_strip_unqual in E'.
    exists true, e', w. split; [unfold cbind, clift; by rewrite E'|].
    split; [split; [congruence|done|done|by rewrite A4]|apply Hirrelevant].
  - exists false, rhs1, w. split; [done|]. split; [split; [done|by rewrite E1|done|by rewrite A4]|apply Hirrelevant].
Qed.
End assign.
