(* ===== verification/ConvSound.v ===== *)
(** What the conversions promise the operators of semantic analysis. *)
From stdpp Require Import base gmap list.
From S2P Require Import Prelude Softfp Pptok Ctype Compat CompatFacts Conv ConvExpr ConvAssign.

(** ** The usual arithmetic conversions *)

(** Every value of the format [f] is one of [g]: no fewer exponent and
    significand bits. *)
Definition significand_bits (f : SfFormat) : Z := frac_bits f + (if explicit_intbit f then 0 else 1).
Definition format_le (f g : SfFormat) : bool := (exp_bits f <=? exp_bits g) && (significand_bits f <=? significand_bits g).

(** The common type of two operands one of which is floating. *)
Definition floating_common (target : TargetKind) (a b r : CType) : Prop :=
  (r = type_basic (ty_kind a) \/ r = type_basic (ty_kind b)) /\ type_is_floating r = true /\
  (type_is_floating a = true -> format_le (constexpr_format_of target (Some a)) (constexpr_format_of target (Some r)) = true) /\
  (type_is_floating b = true -> format_le (constexpr_format_of target (Some b)) (constexpr_format_of target (Some r)) = true).

Lemma uac_floating_common target a b : type_is_floating a || type_is_floating b = true ->
  floating_common target a b (uac_floating target a b) /\ uac_floating target a b = uac_floating target b a.
Proof.
  unfold floating_common, uac_floating, floating_rep_bits, constexpr_format_of, type_is_floating, kind_in.
  cbn [ty_kind type_basic].
  destruct (ty_kind a) eqn:Ka; cbn; destruct (ty_kind b) eqn:Kb; cbn; try discriminate; intros _;
    destruct target; cbn; split_and!; try done; auto.
Qed.

(** An arithmetic operand. *)
Definition arithmetic (st : Tags) (n : nat) (t : CType) : Prop := type_is_floating t = true \/ int_type st n t.

Lemma int_not_floating st n t : int_type st n t -> type_is_floating t = false /\ kind_is t TY_ERROR = false.
Proof.
  unfold type_is_floating, kind_in, kind_is. intros [m u [H _]|m u v K]; [|by rewrite K].
  unfold kind_in in H. by destruct (ty_kind u).
Qed.

Lemma floating_not_error t : type_is_floating t = true -> kind_is t TY_ERROR = false.
Proof. unfold type_is_floating, kind_in, kind_is. by destruct (ty_kind t). Qed.

(** C28. The usual arithmetic conversions give every two arithmetic operands a
    common type, whichever comes first. With a floating operand it is the type
    of a floating operand, and its format holds every value of both floating
    operands. With two integers both are promoted without losing a value; the
    common type has the higher rank of the promoted types; if it is signed it
    holds every value of both operands; if it is unsigned it is no narrower than
    either, and no signed type among the two holds every value of both. *)
Theorem conv_uac_type_correct target st same i j n a b : pointer_equality same ->
  arithmetic st i a -> arithmetic st j b -> (i < n)%nat -> (j < n)%nat ->
  exists r r', conv_uac_type target st same n (Some a) (Some b) = Some (Some r) /\
    conv_uac_type target st same n (Some b) (Some a) = Some (Some r') /\
    if type_is_floating a || type_is_floating b then floating_common target a b r /\ r' = r
    else alike target st r r' /\ exists pa pb,
      conv_promote_type target st n (Some a) = Some (Some pa) /\ promoted target st a pa /\
      conv_promote_type target st n (Some b) = Some (Some pb) /\ promoted target st b pb /\ common target st pa pb r.
Proof.
  intros P Ha Hb Hi Hj. unfold conv_uac_type.
  assert (Err : kind_is a TY_ERROR = false /\ kind_is b TY_ERROR = false).
  { split; [destruct Ha as [Ha|Ha]|destruct Hb as [Hb|Hb]];
      (by apply floating_not_error) || (by eapply int_not_floating). }
  destruct Err as [-> ->]. rewrite (orb_comm (type_is_floating b)). cbn [orb].
  destruct (type_is_floating a || type_is_floating b) eqn:Fl.
  { destruct (uac_floating_common target a b Fl) as [H E].
    exists (uac_floating target a b), (uac_floating target b a). by rewrite E in *. }
  apply orb_false_iff in Fl as [Fa Fb]. destruct Ha as [Ha|Ha]; [congruence|]. destruct Hb as [Hb|Hb]; [congruence|].
  destruct (promote_int target st n i a Ha ltac:(lia)) as (pa & Ea & Pa).
  destruct (promote_int target st n j b Hb ltac:(lia)) as (pb & Eb & Pb). rewrite Ea, Eb.
  pose proof Pa as [Ba Qa Ra _]. pose proof Pb as [Bb Qb Rb _]. destruct n as [|n]; [lia|].
  destruct (uac_integer_common target st same n pa pb P Ba Bb Qa Qb Ra Rb) as (r & -> & Hr).
  destruct (uac_integer_common target st same n pb pa P Bb Ba Qb Qa Rb Ra) as (r' & -> & Hr').
  exists r, r'. split; [done|]. split; [done|]. split; [|by exists pa, pb].
  apply (common_alike target st pa pb); [done|done|done|by apply common_sym].
Qed.

(** [unsigned int] and an enumeration over [long]; [_Float64x] and [long double]. *)
Definition enumeration (repr : TypeKind) : CType :=
  {| ty_kind := TY_ENUM; ty_quals := 0; ty_integer_precision := 0; ty_integer_is_signed := false;
     ty_may_alias := false; ty_transparent_union_identity := None; ty_scalar_storage_order := 0;
     ty_scalar_storage_order_identity := None; ty_align_override := 0; ty_align_is_exact := false;
     ty_base := None; ty_has_size := false; ty_size := 0; ty_is_vla := false; ty_size_expr := None;
     ty_params := []; ty_variadic := false; ty_has_proto := false; ty_old_style_definition := false;
     ty_kr_definition := false; ty_old_style_params := []; ty_tag := None; ty_enum_repr := Some (type_basic repr) |}.

Example uac_unsigned_long_enum :
  conv_uac_type CGF_TARGET_ARM64_LINUX ∅ (fun _ _ => false) 3 (Some (type_basic TY_UINT)) (Some (enumeration TY_LONG))
  = Some (Some (type_basic TY_LONG)).
Proof. reflexivity. Qed.

Lemma no_pointer_equal : pointer_equality (fun _ _ => false).
Proof. by split. Qed.

Lemma conv_uac_type_witness : exists r r',
  conv_uac_type CGF_TARGET_ARM64_LINUX ∅ (fun _ _ => false) 3 (Some (type_basic TY_UINT)) (Some (enumeration TY_LONG)) = Some (Some r) /\
  conv_uac_type CGF_TARGET_ARM64_LINUX ∅ (fun _ _ => false) 3 (Some (enumeration TY_LONG)) (Some (type_basic TY_UINT)) = Some (Some r') /\
  if type_is_floating (type_basic TY_UINT) || type_is_floating (enumeration TY_LONG)
  then floating_common CGF_TARGET_ARM64_LINUX (type_basic TY_UINT) (enumeration TY_LONG) r /\ r' = r
  else alike CGF_TARGET_ARM64_LINUX ∅ r r' /\ exists pa pb,
    conv_promote_type CGF_TARGET_ARM64_LINUX ∅ 3 (Some (type_basic TY_UINT)) = Some (Some pa) /\
    promoted CGF_TARGET_ARM64_LINUX ∅ (type_basic TY_UINT) pa /\
    conv_promote_type CGF_TARGET_ARM64_LINUX ∅ 3 (Some (enumeration TY_LONG)) = Some (Some pb) /\
    promoted CGF_TARGET_ARM64_LINUX ∅ (enumeration TY_LONG) pb /\ common CGF_TARGET_ARM64_LINUX ∅ pa pb r.
Proof.
  apply (conv_uac_type_correct CGF_TARGET_ARM64_LINUX ∅ (fun _ _ => false) 1 2 3).
  - apply no_pointer_equal.
  - right. apply it_basic. by split.
  - right. apply (it_enum _ 1 _ (type_basic TY_LONG)); [reflexivity..|]. apply it_basic. by split.
  - lia.
  - lia.
Defined.

(** ** Assignment *)

(** C29. Assigning an expression to an object, in each of the four contexts, and
    with whatever is logged before: the expression decays to a value, and the
    assignment returns it under implicit casts only. When it is accepted its
    type is compatible with the object's up to qualifiers on top; it is refused
    exactly when an error is logged. Outside two extensions, objects of vector
    type and arguments for a transparent union, nothing is logged beyond the
    warnings of the decay exactly when the constraint [assignable] of 6.5.16.1
    holds and the assignment is not the one the code warns of without need: a
    null pointer constant of type [void *] to a pointer to function
    ([null_to_function]), which gets the warning of incompatible pointers. *)
Theorem conv_assignable_correct target st same N fuel folds_to_zero depth lhs rhs t ctx l :
  pointer_equality same -> (N + N + 4 < fuel)%nat ->
  graded st (S N) (Some lhs) -> e_type rhs = Some t -> graded st (S N) (Some t) ->
  (forall m, m ∈ union_members st lhs -> graded st (S N) (m_type m)) ->
  (kind_is lhs TY_BOOL = true -> ty_integer_precision lhs = 0) -> kind_is lhs TY_ERROR = false ->
  exists rhs1 w0, conv_decay st same fuel rhs l = Some (rhs1, l ++ w0) /\ skeleton rhs1 = skeleton rhs /\
    Compat st same (unqual (e_type rhs1)) (unqual (decayed t)) /\
    forall rt, e_type rhs1 = Some rt -> kind_is rt TY_ERROR = false ->
    exists ok e w,
      conv_assignable (S (S depth)) target st same fuel folds_to_zero (Some lhs) rhs ctx l = Some ((ok, e), l ++ w0 ++ w) /\
      skeleton e = skeleton rhs /\ (ok = false <-> w = [DIAG_ERROR]) /\
      (ok = true -> Compat st same (unqual (e_type e)) (unqual (Some lhs))) /\
      (kind_is lhs TY_VECTOR = false -> ctx <> ACTX_ARG \/ type_transparent_union_first_member st (Some lhs) = None ->
       silent_when_assignable st same lhs rt (conv_is_npc folds_to_zero rhs1) w).
Proof.
  intros P HN Hl Et Ht Hm Hb He.
  destruct (conv_decay_total st same P N fuel HN rhs true l) as (rhs1 & w0 & Ed & Sk & G1 & H1 & _); [by rewrite Et|].
  rewrite Et in H1. exists rhs1, w0. split; [done|]. split; [done|]. split; [done|]. intros rt E1 Hn.
  destruct (conv_assignable_assigned st same P N fuel HN folds_to_zero depth target lhs rhs t ctx l rhs1 (l ++ w0) rt)
    as (ok & e & w & E & [A1 A2 A3 A4] & Hw); try done; [by rewrite <- E1|].
  exists ok, e, w. by rewrite app_assoc.
Qed.

(** A call [f] of a function taking [int], as the value of a [long] or a pointer. *)
Definition call (t : CType) : AstNode :=
  AST_EXPR 1 {| sem_type := Some t; is_lvalue := false; sem_is_bitfield := false; sem_bitfield_width := 0;
    sem_bitfield_is_signed := false; sem_lvalue_align := 0; sem_reverse_storage_order := false; poisoned := false |}.

Lemma grade_of_basic st N k : k <> TY_ENUM -> k <> TY_UNION -> graded st (S N) (Some (type_basic k)).
Proof. intros K1 K2. apply (grade_le st 1); [by apply grade_basic|lia]. Qed.

Lemma conv_assignable_witness : exists rhs1 w0,
  conv_decay ∅ (fun _ _ => false) 5 (call (type_basic TY_INT)) [] = Some (rhs1, [] ++ w0) /\
  skeleton rhs1 = skeleton (call (type_basic TY_INT)) /\
  Compat ∅ (fun _ _ => false) (unqual (e_type rhs1)) (unqual (decayed (type_basic TY_INT))) /\
  forall rt, e_type rhs1 = Some rt -> kind_is rt TY_ERROR = false ->
  exists ok e w,
    conv_assignable 2 CGF_TARGET_ARM64_LINUX ∅ (fun _ _ => false) 5 (fun _ => false) (Some (type_basic TY_LONG))
      (call (type_basic TY_INT)) ACTX_RETURN [] = Some ((ok, e), [] ++ w0 ++ w) /\
    skeleton e = skeleton (call (type_basic TY_INT)) /\ (ok = false <-> w = [DIAG_ERROR]) /\
    (ok = true -> Compat ∅ (fun _ _ => false) (unqual (e_type e)) (unqual (Some (type_basic TY_LONG)))) /\
    (kind_is (type_basic TY_LONG) TY_VECTOR = false ->
     ACTX_RETURN <> ACTX_ARG \/ type_transparent_union_first_member ∅ (Some (type_basic TY_LONG)) = None ->
     silent_when_assignable ∅ (fun _ _ => false) (type_basic TY_LONG) rt (conv_is_npc (fun _ => false) rhs1) w).
Proof.
  apply (conv_assignable_correct CGF_TARGET_ARM64_LINUX ∅ (fun _ _ => false) 0 5 (fun _ => false) 0 (type_basic TY_LONG)
    (call (type_basic TY_INT)) (type_basic TY_INT) ACTX_RETURN []).
  - apply no_pointer_equal.
  - lia.
  - by apply grade_of_basic.
  - reflexivity.
  - by apply grade_of_basic.
  - intros m Hm. by apply not_elem_of_nil in Hm.
  - done.
  - reflexivity.
Defined.

(** [(void * ) 0], with the literal's value left to [constexpr_eval]. *)
Definition null_constant : AstNode :=
  AST_EXPR_CAST false (attrs (call (type_ptr (Some (type_basic TY_VOID))))) (call (type_basic TY_INT)).

Definition procedure : CType :=
  with_signature (composite_node TY_FUNC (Some (type_basic TY_VOID)) (type_basic TY_FUNC) (type_basic TY_FUNC))
    true [] false false false [].

Definition function_pointer : CType := type_ptr (Some procedure).

(** [void] and a function type, either way round, are not compatible. *)
Lemma void_not_function same n : pointer_equality same ->
  type_compatible (S n) ∅ same (Some procedure) (Some (type_basic TY_VOID)) = Some false.
Proof.
  intros P. cbn [type_compatible]. unfold node_compatible.
  by rewrite (same_distinct same procedure (type_basic TY_VOID) P) by done.
Qed.

Lemma void_ptr_not_function_ptr same n : pointer_equality same ->
  type_compatible (S (S n)) ∅ same (Some (type_ptr (Some (type_basic TY_VOID)))) (Some function_pointer) = Some false.
Proof.
  intros P. rewrite type_compatible_sym by done.
  change (type_compatible (S (S n)) ∅ same (Some function_pointer) (Some (type_ptr (Some (type_basic TY_VOID)))))
    with (node_compatible ∅ same (type_compatible (S n) ∅ same) function_pointer (type_ptr (Some (type_basic TY_VOID)))).
  unfold node_compatible. rewrite (same_distinct same function_pointer (type_ptr (Some (type_basic TY_VOID))) P) by done.
  exact (void_not_function same n P).
Qed.

(** The assignment itself, once the constant has decayed to itself. *)
Lemma assign_null_function same n folds_to_zero l : pointer_equality same ->
  assign_value ∅ same (S (S n)) folds_to_zero function_pointer null_constant (type_ptr (Some (type_basic TY_VOID))) l =
    Some ((true, cast_node null_constant (Some function_pointer)), l ++ [Warn WARN_INCOMPATIBLE_POINTER_TYPES]).
Proof.
  intros P.
  assert (H : assign_pointer ∅ same (S (S n)) function_pointer null_constant (type_ptr (Some (type_basic TY_VOID))) l =
    Some (cast_node null_constant (Some function_pointer), l ++ [Warn WARN_INCOMPATIBLE_POINTER_TYPES])).
  { unfold assign_pointer, cbind, clift, type_compatible', conv_cast, needs_cast, type_compatible'.
    change (is_void_ptr function_pointer) with false. change (is_object_ptr function_pointer) with false.
    rewrite andb_false_r. cbn [andb orb].
    change (conv_strip_quals (ty_base function_pointer)) with (Some procedure).
    change (conv_strip_quals (ty_base (type_ptr (Some (type_basic TY_VOID))))) with (Some (type_basic TY_VOID)).
    rewrite (void_not_function same (S n) P). cbn [option_map negb log].
    change (e_type null_constant) with (Some (type_ptr (Some (type_basic TY_VOID)))).
    by rewrite (void_ptr_not_function_ptr same n P). }
  change (assign_value ∅ same (S (S n)) folds_to_zero function_pointer null_constant (type_ptr (Some (type_basic TY_VOID))) l)
    with (cbind (assign_pointer ∅ same (S (S n)) function_pointer null_constant (type_ptr (Some (type_basic TY_VOID))))
            (fun e => cret (true, e)) l).
  unfold cbind. by rewrite H.
Qed.

(** A null pointer constant [(void * ) 0] assigned, passed or returned as a
    pointer to function is diagnosed as an incompatible pointer: the pointer
    case is decided before the null pointer constant is looked at, although any
    pointer may take one. *)
Theorem conv_assignable_null_function target same n folds_to_zero depth ctx l : pointer_equality same ->
  folds_to_zero (call (type_basic TY_INT)) = true ->
  conv_is_npc folds_to_zero null_constant = true /\
  conv_assignable (S depth) target ∅ same (S (S n)) folds_to_zero (Some function_pointer) null_constant ctx l =
    Some ((true, cast_node null_constant (Some function_pointer)), l ++ [Warn WARN_INCOMPATIBLE_POINTER_TYPES]).
Proof.
  intros P Hz. split; [change (type_is_integer (type_basic TY_INT) && folds_to_zero (call (type_basic TY_INT)) = true); by rewrite Hz|].
  assert (H : conv_assignable (S depth) target ∅ same (S (S n)) folds_to_zero (Some function_pointer) null_constant ctx l =
    assign_value ∅ same (S (S n)) folds_to_zero function_pointer null_constant (type_ptr (Some (type_basic TY_VOID))) l)
    by (by destruct ctx).
  rewrite H. by apply assign_null_function.
Qed.

Lemma conv_assignable_null_function_witness :
  conv_is_npc (fun _ => true) null_constant = true /\
  conv_assignable 1 CGF_TARGET_X86_64_LINUX_GNU ∅ (fun _ _ => false) 2 (fun _ => true) (Some function_pointer)
    null_constant ACTX_INIT [] =
    Some ((true, cast_node null_constant (Some function_pointer)), [] ++ [Warn WARN_INCOMPATIBLE_POINTER_TYPES]).
Proof.
  apply (conv_assignable_null_function CGF_TARGET_X86_64_LINUX_GNU (fun _ _ => false) 0 (fun _ => true) 0 ACTX_INIT []).
  - apply no_pointer_equal.
  - reflexivity.
Defined.
